(* ===== verification/_CoqProject ===== *)
-Q . S2P
Prelude.v
Mem.v
Abi.v
Session.v
Natives.v
Chaincode.v
ChaincodeLogic.v
ChaincodeSpec.v
WamrTa.v
Sandbox.v
ChaincodeCalls.v
Ta.v
TaLogic.v
CoffeeTa.v
Concrete.v
Proxy.v
ProxyLogic.v
Wrapper.v
System.v
SystemLogic.v
ProxySafety.v
SystemConcrete.v
NativesProps.v
ChaincodeProps.v
TaProps.v
WamrProps.v
SystemProps.v
Bits.v
Varint.v
CodedStream.v
CodedStreamLaws.v
CodedStreamInv.v
FlatStream.v
RepeatedField.v
RepeatedFieldLogic.v
RepeatedFieldSpec.v
WireFormat.v
WireFormatLogic.v
WireFormatRepeated.v
WireFormatFuel.v
HeapLogic.v
RepeatedPtrFieldBase.v
RepeatedPtrField.v
RepeatedPtrLogic.v
RepeatedPtrOps.v
RepeatedPtrMerge.v
RepeatedPtrOwn.v
RepeatedPtrRange.v
RepeatedPtrSpec.v
RepeatedPtrRefine.v
RepeatedPtrTidy.v
RepeatedPtrProps.v
InnerMap.v
ProtoMap.v
MapLogic.v
MapKeys.v
MapBuckets.v
MapTree.v
MapFind.v
MapIter.v
MapInsert.v
MapResize.v
MapOps.v
MapErase.v
ProtoMapOps.v
ProtoMapErase.v
MapSpec.v
MapRefine.v
MapClient.v
MapProps.v
GrpcSlice.v
ProtoBufferReader.v
ProtoBufferWriter.v
ProtoUtils.v
CallOps.v
ServerStream.v
GrpcStore.v
GrpcProps.v
ProtoProps.v
RepeatedProps.v
