(* ===== verification/Prelude.v ===== *)
(** * TrustForge: a verification development

    TrustForge runs Hyperledger Fabric chaincode inside of an OP-TEE trusted
    application, as a WebAssembly module interpreted by WAMR.  One invocation
    passes through five programs, which this development models and verifies
    one by one and then together:

    - the wrapper chaincode on the peer ([src/chaincode.go]) sends the
      invocation to the proxy and serves its requests from the ledger;
    - the proxy in the normal world ([src/fixed-proxy/main.cpp]) marshals the
      arguments into a shared buffer and exchanges requests and answers with
      the trusted application;
    - the trusted application ([src/wrapper_ta/ta/main.c], [wasm.c]) loads the
      module and steps it, once for RUN and once for every RESUME;
    - its native functions ([chaincode_native_functions.c]) are what the module
      imports: they record requests and the response in the session;
    - the chaincode ([src/wrapper_ta/chaincode/coffee_chaincode_wasm.c]) is a
      state machine over static variables, resumed by [step_resume].

    Wrapper and proxy talk in protocol buffers.  The runtime library that the
    proxy is built with is in the repository as headers
    ([src/fixed-proxy/include/google/protobuf]) whose templates and inline
    functions are compiled into the proxy; the second part of the development
    verifies the ones on the path of a message, varints, coded streams, the wire
    format and the repeated fields, and the hash maps.

    ** Files

    Shared: [Prelude] (bytes, machine integers, outcomes [cres] and the state
    monad [stm] with its rules [st_post], segments and C strings), [Mem] (C
    buffers and the linear memory of an instance, with checked accesses; and
    [chaincode_tee_ree_communication.h]: sizes, codes, structs).

    Guest and host: [Abi] is the interface between a module and its host: guest
    programs as trees of loads, stores and imports, the class [HostEnv] and the
    laws [HostLaws] a guest may rely on, and the rules of [wp]; and the part of
    WAMR's API that works on an instance.  [Session] is [session.h].
    [Natives] has one definition per function of
    [chaincode_native_functions.c], their exact results ([call_result],
    [call_session], [call_mem]) and the proof that they keep [HostLaws].
    [Sandbox] says what any guest at all can do to its host.

    Chaincode: [Chaincode] has one definition per C function;
    [ChaincodeLogic] its memory, the loops and the decimal conversions;
    [ChaincodeSpec] the abstract [contract] and its [contract_step], and the
    proof that [step_resume] carries it out; [ChaincodeCalls] the arguments of
    its calls.

    Trusted application: [WamrTa] is [wasm.c] over the environment [TaEnv];
    [Ta] is [main.c]: entry points, commands, [call_step],
    [process_hostcall_flow]; [TaLogic] runs them with any module;
    [CoffeeTa] runs them with the chaincode.

    Proxy, wrapper, system: [Proxy] is [main.cpp] over [ProxyEnv] and the
    messages of [invocation.proto]; [ProxyLogic] its buffers; [Wrapper] is
    [chaincode.go] over [WrapperEnv]; [System] the interfaces between the
    programs and the abstract [coffee_transaction]; [SystemLogic] one
    invocation; [ProxySafety] the proxy against any module and any wrapper.

    [Concrete] and [SystemConcrete] are instances of all the interfaces: a
    runtime that interprets guest programs, a linked chaincode, a client API
    that calls the trusted application, a ledger.  The properties and their
    witnesses are in [NativesProps], [ChaincodeProps], [TaProps], [WamrProps]
    and [SystemProps].

    Protocol buffers: [Bits] is machine integers of every width and the bit
    functions of [stubs/port.h]; [Varint] the functions of [io/coded_stream.h] on
    raw arrays, with what they do on the bytes of a varint; [CodedStream] the
    inline methods of [CodedInputStream] and [CodedOutputStream] over the classes
    [InputFallbacks] and [OutputFallbacks] of their out-of-line methods;
    [CodedStreamLaws] the classes [InputLaws] and [OutputLaws] of what these
    promise and the specification of each method against them; [CodedStreamInv]
    what each call of an input stream does to the bytes, limits and counters of
    the stream ([input_spec], [NestingLaws]) and the invariant of its pointers
    ([stream_inv], [FallbacksKeep]);
    [FlatStream] an instance of all these classes, a stream over one array.
    [RepeatedField] is [class RepeatedField] of [repeated_field.h] on an explicit
    heap, [RepeatedFieldLogic] what each method does to its object and to the
    others, [RepeatedFieldSpec] the specification on plain lists and its
    refinement.  [WireFormat] is [wire_format_lite.h] and
    [wire_format_lite_inl.h]; [WireFormatLogic] tags, ZigZag, the values and
    their sizes, groups and messages ([MessageLaws]);
    [WireFormatRepeated] packed and unpacked repeated fields; [WireFormatFuel]
    termination ([InputProgress]).  The properties are in
    [ProtoProps] and [RepeatedProps].

    Pointer structures: [HeapLogic] is a linear separation logic for state
    monads, an instance of Iris's [bi], with the total-correctness predicate
    [wpm].  [RepeatedPtrFieldBase] and [RepeatedPtrField] are the classes of
    repeated strings and messages over the handler of the element type
    ([TypeHandler]); [RepeatedPtrLogic] the cells of their heap and what the
    methods of repeated_field.cc and the element types promise ([PtrLaws],
    [HandlerLaws]); [RepeatedPtrOps], [RepeatedPtrMerge], [RepeatedPtrOwn]
    and [RepeatedPtrRange] a triple for every method;
    [RepeatedPtrSpec] the specification on lists of values and objects of the
    caller, [RepeatedPtrRefine] its refinement, [RepeatedPtrTidy] who owns what,
    [RepeatedPtrProps] the properties.

    Hash maps: [InnerMap] is the hash table of [map.h], with its list and tree
    buckets, and [ProtoMap] its class [Map], with the hash functions of
    [stubs/hash.h].  [MapLogic] is the logic of their heap and what keys promise
    ([KeyLaws]), [MapKeys] that strings and booleans keep it, and the size of the table;
    [MapBuckets] lists, trees and the table, [MapTree] the search tree of a bucket.  A triple for every method of the table is in [MapFind],
    [MapIter], [MapInsert], [MapResize], [MapOps] and [MapErase]; for
    every method of [Map] in [ProtoMapOps] and [ProtoMapErase].
    [MapSpec] is the specification on lists of items, [MapRefine] its refinement
    and the shape of the heap, [MapClient] programs that use maps, and
    [MapProps] the properties.

    gRPC: the templates of [grpcpp/impl/codegen] that carry a message of the proxy
    from the stream to the C library.  [GrpcSlice] is slices and byte buffers
    ([slice.h], [byte_buffer.h]) over the functions of the library ([GrpcCore]) and
    what its headers promise ([CoreLaws]); [ProtoBufferReader] and
    [ProtoBufferWriter] make a byte buffer a stream of protocol buffers
    ([proto_buffer_reader.h], [proto_buffer_writer.h]), with the contracts of its
    clients ([ispec], [owp]); [ProtoUtils] serialises and parses messages
    ([proto_utils.h], [status.h]; the class [Message] and its [MessageLaws]);
    [CallOps] is the operations of a batch ([call_op_set.h]; [GrpcCall],
    [CallLaws]), [ServerStream] the stream of a method and its handler
    ([sync_stream.h], [method_handler_impl.h], [server_context.h]).  [GrpcStore] is
    an implementation of all these classes, and [GrpcProps] has the properties.

    ** State

    [chaincode_session_ctx] is a record of the same fields ([Session]); the
    globals of the trusted application are the record [ta] ([heap_size],
    [g_chaincode_sess], the static [runtime_ctx], [singleton_wamr_context]);
    the parameters of a command are [params4], shared with the proxy.  The
    static variables of the chaincode are the [object]s of [Chaincode], at the
    addresses of a [layout] in the linear memory.  Pointers are options ([None]
    is NULL); [sc->runtime] can only point to the static context, so it is a
    boolean.  A [char] array or a shared buffer is its bytes; an access outside
    of it, and the dereference of NULL, are the outcome [Fault], never a value.
    Machine integers are [Z] with the casts of the C code written out; signed
    overflow, where a compiler may assume it away, is a [Fault] too.

    A coded stream is a record of the fields of its class, its buffer an array
    and a position.  A [RepeatedField] lives at an address of a [store] that
    also holds the arrays ([struct Rep]) of all the fields, each with its arena;
    a method takes addresses, so that aliasing, self-assignment and freed arrays
    are what they are in the code.  The nodes, trees, tables, maps and pairs of the
    hash maps are cells of one heap: the code tells a list from a tree by comparing
    pointers.  A freed cell is gone, and to read it is a [Fault].

    The state of the C library of gRPC is abstract: its laws are triples of the same
    logic, about the references to a slice ([slice_own], [slice_ref]), the slices of a
    buffer ([buffer_cell]), readers, batches ([idle], [in_flight], [receiving]) and
    what a call has received and sent ([call_own]).  The logic is linear: what a
    postcondition does not mention was given back.

    ** Properties

    - Refinement: one [step_resume] is one [contract_step] on any host that
      keeps [HostLaws] ([step_resume_refines]); RUN and RESUME of the trusted
      application are steps of the contract ([run_refines],
      [resume_refines]); an invocation of the whole system is
      [coffee_transaction] on the ledger ([invocation_refines]).
    - Safety: no module, command or parameter makes the trusted application
      fault, but where the step that the command runs makes an unsafe native call
      of its own ([run_fault], [resume_fault]), or RESUME has no
      instance ([invoke_safe]); with modules that make no such call no wrapper
      makes the proxy fault, but where the allocation for the module file fails
      ([proxy_safe]; the chaincode is such a module, [chaincode_call_safe]); what each native function does on every argument, and
      what it can change ([native_call_total], [native_call_frame]).
    - Protocols: what [create], [add], [query] and other functions tell the
      proxy and how its answers go on ([create_protocol], [add_protocol],
      [query_protocol], and the lemma [unknown_function]); replies, answers and
      arguments reach the other side ([reply_roundtrip], [value_delivered],
      [arguments_marshalled]); the wrapper's side ([wrapper_conversation],
      [setup_uuid]).
    - The chaincode's parts: calls in range ([chaincode_calls_in_range]),
      decimal conversions ([ultoa_atoul_roundtrip]).
    - Entry points and the runtime wrapper on every branch: [WamrProps]; the
      proxy's failures ([proxy_failure]).
    - Protocol buffers, encoding: what the writers write, the readers read, for
      varints, tags, the fourteen primitive types, packed and unpacked repeated
      fields, strings, groups and messages ([varint_roundtrip],
      [tag_roundtrip], [primitive_roundtrip], [packed_roundtrip],
      [repeated_roundtrip], [delimited_fields]), in exactly the computed sizes
      ([sizes_exact]); the two ways to read a tag agree
      ([read_tag_with_cutoff]).
    - Protocol buffers, streams: what each call of an input stream returns and
      leaves, with nested limits and the recursion budget ([input_stream_calls]),
      the recursion is bounded ([nested_messages]), the packed reader ends on any
      input ([packed_terminates]).
    - Protocol buffers, memory: every method of a repeated field carries out the
      list operation of its specification and leaves the other objects alone
      ([methods_refine]); growth ([reserve_bounds]); the same for repeated
      strings and messages, with cleared objects and objects that pass between
      fields, arenas and the caller ([ptr_methods_refine]), nothing freed twice,
      used after it is freed or leaked ([ptr_methods_own]).
    - Hash maps: every method does what the specification on items says, for any
      hash function ([map_methods_refine]); the heap keeps its shape
      ([map_methods_sound]); what a program makes it can unmake
      ([map_clients_leave_nothing]); look-ups ([map_store_lookup]) and loops over
      all items ([map_iteration]).
    - gRPC: a reader answers as the list of chunks does, a writer leaves what its
      client wrote ([reader_refines], [writer_refines]); messages are read back
      ([message_roundtrip]), for libraries that make a reader for every buffer
      ([reader_inits]) and, beyond one chunk, keep chunks apart
      ([add_separate]), which the headers do not promise; what comes of buffers that are no message
      ([deserialize_outcomes]); what a streaming call sends, whatever its method does
      within the rules of a stream ([handler_conversation], [legal]).
    - What goes wrong: [create] on an empty key ([create_empty_key]),
      sizes that overflow ([read_size]), an element added to its own field
      ([add_own_element]), a table that two
      insertions shrink below the number of its entries and double again
      ([map_shrinks_too_far]), a received buffer that nobody frees
      ([failed_reader_leaks]); and as lemmas the result types of the symbol table
      ([symbol_table_links]), the row past the arguments
      ([cc_get_arg_row_10]), negative response lengths
      ([cc_return_response_result]), a response that is never reset
      ([stale_response]), traps taken for successes
      ([trap_counts_as_success]), replies that do not check the buffer
      ([reply_buffer_too_small]), large values of the ledger lost
      ([create_overwrites_large_value]).

    ** Bounds

    Loops over C strings in the chaincode that no counter bounds run with the
    fuel 512 ([Chaincode.fuel]); every object has at most 256 bytes and its
    string is terminated, and [step_resume_refines] states termination with
    that fuel.  The loop of the proxy takes its number of iterations as an
    argument: three are enough for the chaincode ([invocation_refines]).  The
    wrapper's loop needs one iteration more than there are requests
    ([wrapper_conversation]).  A varint is written in at most ten rounds and
    [WriteVarint_loop] has one fewer, the last byte needing none: four for 32
    bits, nine for 64 ([varint_roundtrip] shows that they are enough).  The loop over a packed
    field has as many rounds as the announced length has bytes, enough on any
    input since each takes a byte or fails ([packed_terminates]).  A loop along the
    pointers of a hash map has one round more than there are cells in the heap,
    and each of its rounds passes another cell ([map_methods_refine] has no bound
    on rounds).  [Skip] of a [ProtoBufferReader], and the loop of a client over empty
    chunks, take at most one round more than there are slices ([reader_refines]).

    ** Interfaces, and what is not modelled

    Code that is not in the repository is a parameter: WAMR ([WamrInst],
    [TaEnv]), the TEE's internal and client APIs ([TaEnv], [ProxyEnv]), the
    compiler and linker of the chaincode ([layout], [CoffeeLaws]), the C library
    of gRPC ([GrpcCore], [GrpcCall]), the stream the proxy reads and writes, and
    Fabric's stub ([ProxyEnv], [WrapperEnv], [LedgerLaws]).  Their laws are
    what their documentation promises; the concrete instances keep them all.
    Left out: log output and timestamps, freeing of memory, the contents of
    the output and benchmark buffers, start and stop of the gRPC server,
    [set_uuid] of the proxy (never called), the unused structs at the top of
    [main.c], [utils_print_byte_array] (debugging only).  The fragments of deleted log statements in [main.c] (lines 96
    and 259) are read as comments, as which they were meant.

    The bodies of the out-of-line methods of the protocol buffer classes are in
    a static library that is not in the repository: they are the [...Fallbacks]
    classes, their documentation the [...Laws].  Floating-point numbers are the
    bits of their encoding.  Left out of the modelled headers: the big-endian
    branches, byte swapping and unaligned loads, the MessageSet parser, UTF-8
    checks, unknown fields and the skipping of fields.  Of an input stream
    [SetTotalBytesLimit] is not modelled, and nothing is stated of a limit that
    reaches beyond the bytes within the limits that are open.  Not modelled: map
    entries and map fields, extensions, arenas (an arena is its identity), descriptors and reflection,
    which the proxy's messages do not use; and generated code, of which a message is
    the class [Message].  Of gRPC the path of a synchronous bidirectional stream on the
    server is modelled, for a call without interceptors and a method that does not
    throw; not its asynchronous and callback interfaces, clients, other kinds of
    methods, credentials and channels, which the proxy does not use. *)
From Stdlib Require Import ZArith Lia.
From Stdlib Require Import Strings.Byte Strings.String.
From stdpp Require Import base tactics option list list_numbers strings countable.

#[global] Open Scope Z_scope.

(** ** Bytes

    A C [char]/[uint8_t] is a [Byte.byte]; the decidable equality and the
    countability of bytes make the containers of stdpp usable on them. *)

Abbreviation byte := Byte.byte.

#[export] Instance byte_eq_dec : EqDecision byte := Byte.byte_eq_dec.
#[export] Instance byte_inhabited : Inhabited byte := populate x00.

#[export] Program Instance byte_countable : Countable byte :=
  inj_countable Byte.to_N Byte.of_N _.
Next Obligation. intros b. apply Byte.of_to_N. Qed.

(** The bytes of a string literal of the source, without its terminating NUL. *)
Abbreviation bytes := String.list_byte_of_string.

(** The value of a byte and the conversion [(unsigned char)z]. *)
Definition byte_to_Z (b : byte) : Z := Z.of_N (Byte.to_N b).
Definition byte_of_Z (z : Z) : byte := default x00 (Byte.of_N (Z.to_N (z mod 256))).

Lemma byte_to_Z_bound b : 0 <= byte_to_Z b < 256.
Proof. unfold byte_to_Z. pose proof (Byte.to_N_bounded b). lia. Qed.

Lemma byte_to_of_Z z : 0 <= z < 256 -> byte_to_Z (byte_of_Z z) = z.
Proof.
  intros Hz. unfold byte_to_Z, byte_of_Z. rewrite Z.mod_small by lia.
  destruct (Byte.of_N (Z.to_N z)) as [b|] eqn:E; simpl.
  - apply Byte.to_of_N in E. rewrite E. lia.
  - apply Byte.of_N_None_iff in E. lia.
Qed.

Lemma byte_of_to_Z b : byte_of_Z (byte_to_Z b) = b.
Proof.
  unfold byte_of_Z. pose proof (byte_to_Z_bound b). rewrite Z.mod_small by lia.
  unfold byte_to_Z. rewrite N2Z.id, Byte.of_to_N. done.
Qed.

#[export] Instance byte_to_Z_inj : Inj (=) (=) byte_to_Z.
Proof. intros x y H. by rewrite <- (byte_of_to_Z x), <- (byte_of_to_Z y), H. Qed.

Lemma byte_to_Z_zero b : byte_to_Z b = 0 <-> b = x00.
Proof.
  split; [|by intros ->]. intros H. apply (inj byte_to_Z). rewrite H. done.
Qed.

(** ** Machine integers: the casts of the C sources, with their wrap-around. *)

Definition u32 (z : Z) : Z := z mod 2 ^ 32.
Definition u64 (z : Z) : Z := z mod 2 ^ 64.
Definition i32 (z : Z) : Z :=
  let u := z mod 2 ^ 32 in if decide (u < 2 ^ 31) then u else u - 2 ^ 32.

(** The range of a C [int] and of a [uint32_t]. *)
Definition int_range (z : Z) : Prop := - 2 ^ 31 <= z < 2 ^ 31.
Definition uint_range (z : Z) : Prop := 0 <= z < 2 ^ 32.

Lemma u32_small z : 0 <= z < 2 ^ 32 -> u32 z = z.
Proof. intros. unfold u32. by apply Z.mod_small. Qed.

Lemma u64_small z : 0 <= z < 2 ^ 64 -> u64 z = z.
Proof. intros. unfold u64. by apply Z.mod_small. Qed.

Lemma u32_range z : 0 <= u32 z < 2 ^ 32.
Proof. unfold u32. apply Z.mod_pos_bound. lia. Qed.

Lemma u64_range z : 0 <= u64 z < 2 ^ 64.
Proof. unfold u64. apply Z.mod_pos_bound. lia. Qed.

Lemma i32_small z : 0 <= z < 2 ^ 31 -> i32 z = z.
Proof.
  intros. unfold i32. rewrite Z.mod_small by lia. by rewrite decide_True by lia.
Qed.

Lemma i32_range z : int_range (i32 z).
Proof.
  unfold i32, int_range. pose proof (Z.mod_pos_bound z (2 ^ 32) ltac:(lia)).
  case_decide; lia.
Qed.

Lemma u32_u32 z : u32 (u32 z) = u32 z.
Proof. unfold u32. apply Z.mod_mod. lia. Qed.

(** ** Outcomes of C code

    A piece of C code either finishes or runs into a fault: an access outside
    the object it is made in, a null pointer dereference, a loop of the model
    that ran out of fuel, a failed [assert] or [GOOGLE_CHECK], an arithmetic
    overflow of a signed integer, or the use of an object that was freed.
    Sequencing stops at the first fault. *)

Inductive fault :=
| OutOfBounds | NullDeref | OutOfFuel
| AssertFailed | IntOverflow | UseAfterFree.

#[export] Instance fault_eq_dec : EqDecision fault.
Proof. intros x y. unfold Decision. decide equality. Defined.

Inductive cres (A : Type) : Type :=
| Done (a : A)
| Fault (f : fault).
Arguments Done {A} a.
Arguments Fault {A} f.

#[export] Instance Done_inj {A} : Inj (=) (=) (@Done A).
Proof. by intros x y [=]. Qed.

#[export] Instance cres_ret : MRet cres := @Done.
#[export] Instance cres_bind : MBind cres := fun A B k m =>
  match m with Done a => k a | Fault f => Fault f end.
#[export] Instance cres_fmap : FMap cres := fun A B g m =>
  match m with Done a => Done (g a) | Fault f => Fault f end.

(** The outcome is not a fault. *)
Definition no_fault {A} (m : cres A) : Prop := exists a, m = Done a.

Lemma cres_bind_Done {A B} (m : cres A) (k : A -> cres B) b :
  m ≫= k = Done b <-> exists a, m = Done a /\ k a = Done b.
Proof.
  destruct m as [a|f]; simpl; split.
  - eauto.
  - by intros (a' & [= <-] & ?).
  - done.
  - by intros (? & ? & ?).
Qed.

(** Stateful C code over a store [S]: explicit state passing over [cres]. *)
Definition stm (S A : Type) : Type := S -> cres (A * S).

#[export] Instance stm_ret {S} : MRet (stm S) := fun A a s => Done (a, s).
#[export] Instance stm_bind {S} : MBind (stm S) := fun A B k m s =>
  match m s with Done (a, s') => k a s' | Fault f => Fault f end.

Definition st_get {S} : stm S S := fun s => Done (s, s).
Definition st_put {S} (s : S) : stm S unit := fun _ => Done (tt, s).
Definition st_gets {S A} (f : S -> A) : stm S A := fun s => Done (f s, s).
Definition st_modify {S} (f : S -> S) : stm S unit := fun s => Done (tt, f s).
Definition st_lift {S A} (m : cres A) : stm S A := fun s => (fun a => (a, s)) <$> m.
Definition st_fault {S A} (f : fault) : stm S A := fun _ => Fault f.

(** [for (i = from; i < upto; ++i) body(i)]. *)
Definition for_range {S} (from upto : Z) (body : Z -> stm S unit) : stm S unit :=
  foldr (fun i k => body i ≫= fun _ => k) (mret tt) (seqZ from (upto - from)).

Lemma stm_bind_eq {S A B} (m : stm S A) (k : A -> stm S B) s :
  (m ≫= k) s = match m s with Done (a, s') => k a s' | Fault f => Fault f end.
Proof. done. Qed.

Lemma stm_bind_Done {S A B} (m : stm S A) (k : A -> stm S B) s r :
  (m ≫= k) s = Done r <-> exists a s', m s = Done (a, s') /\ k a s' = Done r.
Proof.
  rewrite stm_bind_eq. split.
  - destruct (m s) as [[a s']|]; [by eauto|done].
  - intros (a & s' & -> & H). done.
Qed.

(** What a computation does from a store: it satisfies [Q], or it faults, with
    a fault that satisfies [E]. *)
Definition st_post {S A} (m : stm S A) (s : S) (E : fault -> Prop) (Q : A -> S -> Prop) : Prop :=
  match m s with Done (a, s') => Q a s' | Fault f => E f end.

Section st_post.
  Context {S : Type} (E : fault -> Prop).
  Implicit Type s : S.

Lemma st_post_bind {A B} (m : stm S A) (k : A -> stm S B) s (Q : B -> S -> Prop) :
  st_post m s E (fun a s' => st_post (k a) s' E Q) -> st_post (m ≫= k) s E Q.
Proof. unfold st_post. rewrite stm_bind_eq. by destruct (m s) as [[a s']|]. Qed.

Lemma st_post_mono {A} (m : stm S A) s (P Q : A -> S -> Prop) :
  st_post m s E P -> (forall a s', P a s' -> Q a s') -> st_post m s E Q.
Proof. unfold st_post. destruct (m s) as [[a s']|]; auto. Qed.

Lemma st_post_eq {A} (m : stm S A) s a s' (Q : A -> S -> Prop) :
  m s = Done (a, s') -> Q a s' -> st_post m s E Q.
Proof. intros H. unfold st_post. by rewrite H. Qed.

Lemma st_post_ret {A} (a : A) s (Q : A -> S -> Prop) : Q a s -> st_post (mret a) s E Q.
Proof. done. Qed.

Lemma st_post_gets {A} (f : S -> A) s (Q : A -> S -> Prop) :
  Q (f s) s -> st_post (st_gets f) s E Q.
Proof. done. Qed.

Lemma st_post_modify f s (Q : unit -> S -> Prop) : Q tt (f s) -> st_post (st_modify f) s E Q.
Proof. done. Qed.

Lemma st_post_inv {A} (m : stm S A) s a s' (Q : A -> S -> Prop) :
  st_post m s E Q -> m s = Done (a, s') -> Q a s'.
Proof. intros H Hm. unfold st_post in H. by rewrite Hm in H. Qed.
End st_post.

(** Run a chain of binds one step: rewrite the first computation with what is
    known about it, and reduce. *)
Ltac st_step H := rewrite stm_bind_eq, H; cbn -[Z.mul Z.add Z.sub Z.pow].

(** [c_cases]: split on every decision of the goal and close what is arithmetic. *)
Ltac c_cases := repeat case_decide; try lia; try done.

(** ** Lists: replacing a segment *)

(** [splice off bs buf] overwrites [buf] from position [off] with [bs]. *)
Definition splice {A} (off : nat) (bs buf : list A) : list A :=
  take off buf ++ bs ++ drop (off + length bs) buf.

Lemma length_splice {A} off (bs buf : list A) :
  (off + length bs <= length buf)%nat -> length (splice off bs buf) = length buf.
Proof. intros H. unfold splice. rewrite !length_app, length_take, length_drop. lia. Qed.

Lemma splice_nil {A} off (buf : list A) : splice off [] buf = buf.
Proof. unfold splice. simpl. rewrite Nat.add_0_r. apply take_drop. Qed.

Lemma splice_0 {A} (bs buf : list A) : splice 0 bs buf = bs ++ drop (length bs) buf.
Proof. done. Qed.

Lemma splice_all {A} (bs buf : list A) : length bs = length buf -> splice 0 bs buf = bs.
Proof. intros H. rewrite splice_0, H, drop_all. apply app_nil_r. Qed.

Lemma lookup_splice {A} off (bs buf : list A) i :
  (off + length bs <= length buf)%nat ->
  splice off bs buf !! i =
    if decide (off <= i < off + length bs)%nat then bs !! (i - off)%nat else buf !! i.
Proof.
  intros H. unfold splice. case_decide as Hi.
  - rewrite lookup_app_r by (rewrite length_take; lia).
    rewrite length_take, Nat.min_l by lia. by rewrite lookup_app_l by lia.
  - destruct (decide (i < off)%nat).
    + rewrite lookup_app_l by (rewrite length_take; lia). by rewrite lookup_take_lt by lia.
    + rewrite lookup_app_r by (rewrite length_take; lia).
      rewrite lookup_app_r by (rewrite length_take; lia).
      rewrite length_take, lookup_drop. f_equal. lia.
Qed.

Lemma splice_cons {A} off (b : A) bs buf :
  (off + length (b :: bs) <= length buf)%nat ->
  splice off (b :: bs) buf = splice (S off) bs (splice off [b] buf).
Proof.
  intros H. cbn [length] in H. apply list_eq. intros j.
  rewrite (lookup_splice (S off)) by (rewrite length_splice; simpl; lia).
  rewrite !lookup_splice by (simpl; lia). cbn [length].
  repeat case_decide; try lia; try done.
  - by replace (j - off)%nat with (S (j - S off)) by lia.
  - by replace (j - off)%nat with 0%nat by lia.
Qed.

(** A NUL-padded array: [bs] followed by zero bytes up to [n]. *)
Definition pad (n : nat) (bs : list byte) : list byte :=
  bs ++ replicate (n - length bs) x00.

Lemma length_pad n bs : (length bs <= n)%nat -> length (pad n bs) = n.
Proof. intros. unfold pad. rewrite length_app, length_replicate. lia. Qed.

Lemma pad_nil n : pad n [] = replicate n x00.
Proof. unfold pad. simpl. by rewrite Nat.sub_0_r. Qed.

Lemma splice_pad n bs :
  (length bs <= n)%nat -> splice 0 bs (replicate n x00) = pad n bs.
Proof. intros. unfold splice, pad. simpl. by rewrite drop_replicate. Qed.

Lemma take_pad n bs : take (length bs) (pad n bs) = bs.
Proof. unfold pad. apply take_app_length. Qed.

Lemma pad_lookup_0 n bs : (0 < n)%nat -> pad n bs !! 0%nat = Some (default x00 (head bs)).
Proof. intros. destruct bs; simpl; [|done]. rewrite pad_nil. by destruct n; [lia|]. Qed.

(** ** C strings *)

(** The bytes before the first NUL. *)
Fixpoint cstr (bs : list byte) : list byte :=
  match bs with
  | [] => []
  | b :: bs' => if decide (b = x00) then [] else b :: cstr bs'
  end.

(** A byte string without NUL. *)
Definition no_nul (bs : list byte) : Prop := Forall (fun b => b <> x00) bs.
#[export] Instance no_nul_dec bs : Decision (no_nul bs).
Proof. unfold no_nul. apply _. Defined.

Lemma cstr_no_nul bs : no_nul (cstr bs).
Proof. unfold no_nul. induction bs; simpl; [done|]. case_decide; auto. Qed.

Lemma cstr_id bs : no_nul bs -> cstr bs = bs.
Proof. unfold no_nul. induction 1; simpl; [done|]. rewrite decide_False by done. congruence. Qed.

Lemma cstr_idemp bs : cstr (cstr bs) = cstr bs.
Proof. apply cstr_id, cstr_no_nul. Qed.

Lemma cstr_app_nul bs bs' : no_nul bs -> cstr (bs ++ x00 :: bs') = bs.
Proof.
  unfold no_nul. induction 1; simpl; [done|]. rewrite decide_False by done. congruence.
Qed.

Lemma cstr_pad n bs : no_nul bs -> cstr (pad n bs) = bs.
Proof.
  intros H. unfold pad. destruct (n - length bs)%nat eqn:E; simpl.
  - rewrite app_nil_r. by apply cstr_id.
  - by apply cstr_app_nul.
Qed.

Lemma cstr_replicate_nul bs n : cstr (bs ++ replicate n x00) = cstr bs.
Proof.
  induction bs as [|b bs IH]; simpl; [by destruct n|]. case_decide; [done|]. by rewrite IH.
Qed.

Lemma cstr_pad_any n bs : cstr (pad n bs) = cstr bs.
Proof. apply cstr_replicate_nul. Qed.

Lemma length_cstr bs : (length (cstr bs) <= length bs)%nat.
Proof. induction bs; simpl; [lia|]. case_decide; simpl; lia. Qed.

Lemma cstr_prefix bs : cstr bs = take (length (cstr bs)) bs.
Proof. induction bs as [|b bs IH]; simpl; [done|]. case_decide; simpl; [done|]. by f_equal. Qed.

Lemma cstr_shorter bs : x00 ∈ bs -> (length (cstr bs) < length bs)%nat.
Proof.
  induction bs as [|b bs IH]; [by intros ?%elem_of_nil|].
  intros [<-|Hb]%elem_of_cons; simpl; [lia|]. case_decide; simpl; [lia|]. specialize (IH Hb). lia.
Qed.

Lemma cstr_take n bs : cstr (take n bs) = take n (cstr bs).
Proof.
  revert bs. induction n as [|n IH]; intros [|b bs]; simpl; try done.
  case_decide; simpl; [done|]. by rewrite IH.
Qed.

Lemma no_nul_take n bs : no_nul bs -> no_nul (take n bs).
Proof. apply Forall_take. Qed.

Create HintDb cstring.
#[export] Hint Resolve cstr_no_nul no_nul_take : cstring.
