(* ===== verification/Mem.v ===== *)
(** * Memory: C buffers and the linear memory of a WASM instance

    Two kinds of memory occur in the program.  A [buffer] is a C object of the
    trusted application or of the proxy (an array, or a struct seen as its
    bytes); an access outside of it is a fault.  A [linmem] is the linear
    memory of a WebAssembly instance: [lm_size] addressable bytes.

    [TEE_MemFill] and [TEE_MemMove] are the memory functions of the TEE
    Internal Core API, the C library of a trusted application; they are
    modelled like [memset] and [memmove], on both kinds of memory. *)
From Stdlib Require Import ZArith Lia Strings.Byte.
From stdpp Require Import base tactics option list list_numbers gmap countable.
From S2P Require Import Prelude.

(** ** C buffers *)

(** Read [n] bytes at [off]. *)
Definition buf_read (buf : list byte) (off n : Z) : cres (list byte) :=
  if decide (0 <= off /\ 0 <= n /\ off + n <= Z.of_nat (length buf))
  then Done (take (Z.to_nat n) (drop (Z.to_nat off) buf))
  else Fault OutOfBounds.

(** Overwrite the bytes from [off] with [bs]. *)
Definition buf_write (buf : list byte) (off : Z) (bs : list byte) : cres (list byte) :=
  if decide (0 <= off /\ off + Z.of_nat (length bs) <= Z.of_nat (length buf))
  then Done (splice (Z.to_nat off) bs buf)
  else Fault OutOfBounds.

Definition buf_MemFill (buf : list byte) (off x n : Z) : cres (list byte) :=
  buf_write buf off (replicate (Z.to_nat n) (byte_of_Z x)).

Definition buf_MemMove (dst : list byte) (doff : Z) (src : list byte) (soff n : Z)
    : cres (list byte) :=
  bs ← buf_read src soff n; buf_write dst doff bs.

Lemma buf_read_ok buf off n :
  0 <= off -> 0 <= n -> off + n <= Z.of_nat (length buf) ->
  buf_read buf off n = Done (take (Z.to_nat n) (drop (Z.to_nat off) buf)).
Proof. intros. unfold buf_read. by rewrite decide_True by lia. Qed.

Lemma buf_write_ok buf off bs :
  0 <= off -> off + Z.of_nat (length bs) <= Z.of_nat (length buf) ->
  buf_write buf off bs = Done (splice (Z.to_nat off) bs buf).
Proof. intros. unfold buf_write. by rewrite decide_True by lia. Qed.

Lemma buf_write_length buf off bs buf' :
  buf_write buf off bs = Done buf' -> length buf' = length buf.
Proof.
  unfold buf_write. case_decide; intros ?; simplify_eq. apply length_splice. lia.
Qed.

Lemma buf_MemFill_length buf off x n buf' :
  buf_MemFill buf off x n = Done buf' -> length buf' = length buf.
Proof. apply buf_write_length. Qed.

Lemma buf_MemMove_length dst doff src soff n dst' :
  buf_MemMove dst doff src soff n = Done dst' -> length dst' = length dst.
Proof.
  unfold buf_MemMove. intros (bs & _ & H)%cres_bind_Done. by eapply buf_write_length.
Qed.

(** Filling a whole array with zeroes. *)
Lemma buf_MemFill_all buf n :
  Z.of_nat (length buf) = n -> buf_MemFill buf 0 0 n = Done (replicate (length buf) x00).
Proof.
  intros <-. unfold buf_MemFill. rewrite Nat2Z.id.
  rewrite buf_write_ok by (rewrite ?length_replicate; lia).
  by rewrite splice_all by (by rewrite length_replicate).
Qed.

(** Filling an array with zeroes at its front. *)
Lemma buf_MemFill_front buf n :
  0 <= n <= Z.of_nat (length buf) ->
  buf_MemFill buf 0 0 n = Done (replicate (Z.to_nat n) x00 ++ drop (Z.to_nat n) buf).
Proof.
  intros. unfold buf_MemFill.
  rewrite buf_write_ok by (rewrite ?length_replicate; lia).
  unfold splice. simpl. by rewrite length_replicate.
Qed.

(** Copying a prefix of [src] into a zeroed array pads it. *)
Lemma buf_MemMove_zeroed k src n :
  0 <= n <= Z.of_nat (length src) -> n <= Z.of_nat k ->
  buf_MemMove (replicate k x00) 0 src 0 n = Done (pad k (take (Z.to_nat n) src)).
Proof.
  intros ? ?. unfold buf_MemMove. rewrite buf_read_ok by lia. simpl.
  rewrite buf_write_ok by (rewrite ?length_replicate, ?length_take; lia).
  f_equal. rewrite drop_0. apply splice_pad. rewrite length_take. lia.
Qed.

(** ** Linear memory *)

Record linmem := LinMem { lm_size : Z; lm_data : gmap Z byte }.

#[export] Instance linmem_eq_dec : EqDecision linmem.
Proof. solve_decision. Defined.

(** Bytes never written are zero, as WebAssembly initialises memory. *)
Definition lm_byte (m : linmem) (a : Z) : byte := default x00 (lm_data m !! a).

Definition in_mem (m : linmem) (a n : Z) : Prop := 0 <= a /\ 0 <= n /\ a + n <= lm_size m.
#[export] Instance in_mem_dec m a n : Decision (in_mem m a n).
Proof. unfold in_mem. apply _. Defined.

Definition lm_read (m : linmem) (a : Z) (n : nat) : list byte :=
  (fun i => lm_byte m (a + i)) <$> seqZ 0 (Z.of_nat n).

Definition lm_write (m : linmem) (a : Z) (bs : list byte) : linmem :=
  LinMem (lm_size m) (map_seqZ a bs ∪ lm_data m).

(** The checked accesses of a running program. *)
Definition mem_load (m : linmem) (a n : Z) : cres (list byte) :=
  if decide (in_mem m a n) then Done (lm_read m a (Z.to_nat n)) else Fault OutOfBounds.

Definition mem_store (m : linmem) (a : Z) (bs : list byte) : cres linmem :=
  if decide (in_mem m a (Z.of_nat (length bs))) then Done (lm_write m a bs)
  else Fault OutOfBounds.

Definition mem_MemFill (m : linmem) (a x n : Z) : cres linmem :=
  mem_store m a (replicate (Z.to_nat n) (byte_of_Z x)).

Definition mem_MemMove (m : linmem) (dst src n : Z) : cres linmem :=
  bs ← mem_load m src n; mem_store m dst bs.

Lemma length_lm_read m a n : length (lm_read m a n) = n.
Proof. unfold lm_read. rewrite length_fmap, length_seqZ. lia. Qed.

Lemma lookup_lm_read m a n i :
  lm_read m a n !! i = if decide (i < n)%nat then Some (lm_byte m (a + Z.of_nat i)) else None.
Proof.
  unfold lm_read. rewrite list_lookup_fmap. case_decide.
  - rewrite lookup_seqZ_lt by lia. done.
  - rewrite lookup_seqZ_ge by lia. done.
Qed.

Lemma lm_byte_write m a bs b :
  lm_byte (lm_write m a bs) b =
    if decide (a <= b < a + Z.of_nat (length bs))
    then default x00 (bs !! Z.to_nat (b - a)) else lm_byte m b.
Proof.
  unfold lm_byte, lm_write. simpl. case_decide as Hb.
  - assert (is_Some (map_seqZ (M:=gmap Z byte) a bs !! b)) as [x Hx].
    { by apply lookup_map_seqZ_is_Some. }
    rewrite (lookup_union_Some_l _ _ _ _ Hx). simpl.
    apply lookup_map_seqZ_Some in Hx as [_ ->]. done.
  - rewrite lookup_union_r; [done|]. apply lookup_map_seqZ_None. lia.
Qed.

(** Reading a region after writing inside of it. *)
Lemma lm_read_write_in m a n off bs :
  (off + length bs <= n)%nat ->
  lm_read (lm_write m (a + Z.of_nat off) bs) a n = splice off bs (lm_read m a n).
Proof.
  intros H. apply list_eq. intros i.
  rewrite lookup_splice by (by rewrite length_lm_read). rewrite !lookup_lm_read.
  destruct (decide (i < n)%nat) as [Hi|Hi].
  - rewrite lm_byte_write. repeat case_decide; try lia; try done.
    replace (Z.to_nat (a + Z.of_nat i - (a + Z.of_nat off))) with (i - off)%nat by lia.
    destruct (lookup_lt_is_Some_2 bs (i - off)%nat) as [x ->]; [lia|done].
  - case_decide; [|done]. symmetry. apply lookup_ge_None. lia.
Qed.

Lemma lm_read_write_eq m a bs : lm_read (lm_write m a bs) a (length bs) = bs.
Proof.
  rewrite <- (Z.add_0_r a) at 1. rewrite (lm_read_write_in m a _ 0) by lia.
  apply splice_all. by rewrite length_lm_read.
Qed.

(** Reading a region apart from the one written. *)
Lemma lm_read_write_ne m a bs b n :
  a + Z.of_nat (length bs) <= b \/ b + Z.of_nat n <= a ->
  lm_read (lm_write m a bs) b n = lm_read m b n.
Proof.
  intros H. apply list_eq. intros i. rewrite !lookup_lm_read.
  case_decide; [|done]. rewrite lm_byte_write. by rewrite decide_False by lia.
Qed.

Lemma lm_read_take m a n k : (k <= n)%nat -> take k (lm_read m a n) = lm_read m a k.
Proof.
  intros. apply list_eq. intros i. destruct (decide (i < k)%nat).
  - rewrite lookup_take_lt by lia. rewrite !lookup_lm_read. by rewrite !decide_True by lia.
  - rewrite lookup_take_ge by lia. rewrite lookup_lm_read. by rewrite decide_False by lia.
Qed.

Lemma lm_read_drop m a n k :
  (k <= n)%nat -> drop k (lm_read m a n) = lm_read m (a + Z.of_nat k) (n - k).
Proof.
  intros. apply list_eq. intros i. rewrite lookup_drop, !lookup_lm_read.
  repeat case_decide; try lia; try done. do 2 f_equal. lia.
Qed.

Lemma lm_write_nil m a : lm_write m a [] = m.
Proof. unfold lm_write. simpl. rewrite (left_id_L ∅ (∪)). by destruct m. Qed.

Lemma lm_write_app m a bs1 bs2 :
  lm_write (lm_write m a bs1) (a + Z.of_nat (length bs1)) bs2 = lm_write m a (bs1 ++ bs2).
Proof.
  unfold lm_write. simpl. f_equal. rewrite map_seqZ_app, (assoc_L (∪)). f_equal.
  apply map_union_comm. symmetry. apply map_seqZ_app_disjoint.
Qed.

(** A write is forgotten under a later write that covers it. *)
Lemma lm_write_write m a bs1 bs2 :
  (length bs1 <= length bs2)%nat -> lm_write (lm_write m a bs1) a bs2 = lm_write m a bs2.
Proof.
  intros H. unfold lm_write. simpl. f_equal. rewrite (assoc_L (∪)). f_equal.
  apply map_eq. intros i. destruct (map_seqZ (M:=gmap Z byte) a bs2 !! i) as [x|] eqn:E.
  - by apply lookup_union_Some_l.
  - rewrite lookup_union_r by done. apply lookup_map_seqZ_None.
    apply lookup_map_seqZ_None in E. lia.
Qed.

Lemma lm_write_pad m a n bs :
  (length bs <= n)%nat ->
  lm_write (lm_write m a (replicate n x00)) a bs = lm_write m a (pad n bs).
Proof.
  intros H. apply (f_equal (LinMem (lm_size m))). unfold lm_write. simpl.
  rewrite (assoc_L (∪)). f_equal. apply map_eq. intros i.
  destruct (map_seqZ (M:=gmap Z byte) a bs !! i) as [x|] eqn:E.
  - rewrite (lookup_union_Some_l _ _ _ _ E). symmetry.
    apply lookup_map_seqZ_Some in E as [? E]. apply lookup_map_seqZ_Some. split; [done|].
    unfold pad. rewrite lookup_app_l; [done|]. by eapply lookup_lt_Some.
  - rewrite lookup_union_r by done. apply lookup_map_seqZ_None in E.
    rewrite !lookup_map_seqZ. destruct (decide (a <= i)); [|by rewrite !option_guard_False].
    rewrite !option_guard_True by done. simpl. unfold pad.
    rewrite lookup_app_r by lia.
    destruct (decide (Z.to_nat (i - a) < n)%nat).
    + by rewrite !lookup_replicate_2 by lia.
    + rewrite !(proj2 (lookup_ge_None _ _)); rewrite ?length_replicate; [done|lia|lia].
Qed.

Lemma mem_load_ok m a n :
  in_mem m a n -> mem_load m a n = Done (lm_read m a (Z.to_nat n)).
Proof. intros. unfold mem_load. by rewrite decide_True. Qed.

Lemma mem_store_ok m a bs :
  in_mem m a (Z.of_nat (length bs)) -> mem_store m a bs = Done (lm_write m a bs).
Proof. intros. unfold mem_store. by rewrite decide_True. Qed.

Lemma mem_MemFill_ok m a x n :
  in_mem m a n ->
  mem_MemFill m a x n = Done (lm_write m a (replicate (Z.to_nat n) (byte_of_Z x))).
Proof.
  intros [? [? ?]]. unfold mem_MemFill. apply mem_store_ok.
  rewrite length_replicate. unfold in_mem. lia.
Qed.

Lemma mem_MemMove_ok m d s n :
  in_mem m d n -> in_mem m s n ->
  mem_MemMove m d s n = Done (lm_write m d (lm_read m s (Z.to_nat n))).
Proof.
  intros [? [? ?]] ?. unfold mem_MemMove. rewrite mem_load_ok by done. simpl.
  apply mem_store_ok. rewrite length_lm_read. unfold in_mem. lia.
Qed.

Lemma mem_store_size m a bs m' : mem_store m a bs = Done m' -> lm_size m' = lm_size m.
Proof. unfold mem_store. case_decide; intros; by simplify_eq. Qed.

(** ** The TEE/REE communication structures

    [chaincode_tee_ree_communication.h] (one copy in the trusted application,
    one in the proxy): the sizes, the request codes and the structs that the
    two worlds exchange through one shared buffer.  A struct is its bytes, at
    the offsets the C compiler gives arrays of [char] (no padding). *)

(** max size for strings is inclusive null terminator *)
Definition FCT_SIZE : Z := 20.
Definition KEY_SIZE : Z := 64.
Definition VAL_SIZE : Z := 256.
Definition ARG_SIZE : Z := 64.
Definition ARGS_NUMBER : Z := 10.
Definition RESPONSE_SIZE : Z := 256.
Definition ACK_SIZE : Z := 20.

Definition INVOCATION_RESPONSE : Z := 0.
Definition GET_STATE_REQUEST : Z := 1.
Definition PUT_STATE_REQUEST : Z := 2.
Definition ERROR : Z := 100.

(** [sizeof] of the structs, and the offsets of their fields. *)
Definition sizeof_key_value : Z := KEY_SIZE + VAL_SIZE.
Definition sizeof_arguments : Z := ARGS_NUMBER * ARG_SIZE.
Definition sizeof_invocation_response : Z := RESPONSE_SIZE.
Definition sizeof_acknowledgement : Z := ACK_SIZE.

Definition kv_key_off : Z := 0.
Definition kv_value_off : Z := KEY_SIZE.
Definition argument_off (i : Z) : Z := i * ARG_SIZE.

(** The fields read back as C strings. *)
Definition kv_key (buf : list byte) : list byte := cstr (take (Z.to_nat KEY_SIZE) buf).
Definition kv_value (buf : list byte) : list byte :=
  cstr (take (Z.to_nat VAL_SIZE) (drop (Z.to_nat kv_value_off) buf)).
Definition execution_response (buf : list byte) : list byte :=
  cstr (take (Z.to_nat RESPONSE_SIZE) buf).

(** [arguments[i]] of a [struct arguments], as the bytes of its row. *)
Definition argument_row (buf : list byte) (i : Z) : list byte :=
  take (Z.to_nat ARG_SIZE) (drop (Z.to_nat (argument_off i)) buf).
