(* ===== verification/Abi.v ===== *)
(** * The interface between a WASM guest and the trusted application

    A guest program (the chaincode compiled to WASM) runs on its linear memory
    and calls the functions it imports from module [env].  [import] lists
    those calls with their arguments, [guest] is the type of guest programs as
    trees of loads, stores and calls, and [run_guest] runs one against a host.

    [HostEnv] is what a host provides to a guest and [HostLaws] what it
    promises: the chaincode is verified against [HostLaws]
    (Chaincode.v), and the native functions of the trusted application
    discharge them (Natives.v). *)
From Stdlib Require Import ZArith Lia Strings.Byte Strings.String.
From stdpp Require Import base tactics option list list_numbers gmap strings.
From S2P Require Import Prelude Mem.

(** ** Imports *)

(** The calls of the imports the guest declares, pointers being offsets into
    the linear memory. *)
Inductive import :=
| cc_get_function (out out_len : Z)
| cc_get_arg (idx out out_len : Z)
| cc_get_state (key key_len out out_len : Z)
| cc_put_state (key key_len val val_len : Z)
| cc_return_response (msg msg_len : Z)
| cc_log (msg msg_len : Z)
| debug_log (step_num : Z)
| env_memset (s c n : Z)
| env_memcpy (d s n : Z)
| env_memmove (d s n : Z).

(** The name an import is linked by. *)
Definition import_name (c : import) : string :=
  match c with
  | cc_get_function _ _ => "cc_get_function"
  | cc_get_arg _ _ _ => "cc_get_arg"
  | cc_get_state _ _ _ _ => "cc_get_state"
  | cc_put_state _ _ _ _ => "cc_put_state"
  | cc_return_response _ _ => "cc_return_response"
  | cc_log _ _ => "cc_log"
  | debug_log _ => "debug_log"
  | env_memset _ _ _ => "memset"
  | env_memcpy _ _ _ => "memcpy"
  | env_memmove _ _ _ => "memmove"
  end.

(** The type of each import as the guest's C declaration gives it to the
    linker: every parameter is an [i32]; [void] results give no result. *)
Definition import_type (c : import) : string :=
  match c with
  | cc_get_function _ _ => "(ii)i"
  | cc_get_arg _ _ _ => "(iii)i"
  | cc_get_state _ _ _ _ => "(iiii)i"
  | cc_put_state _ _ _ _ => "(iiii)i"
  | cc_return_response _ _ => "(ii)"
  | cc_log _ _ => "(ii)"
  | debug_log _ => "(i)i"
  | env_memset _ _ _ => "(iii)i"
  | env_memcpy _ _ _ => "(iii)i"
  | env_memmove _ _ _ => "(iii)i"
  end.

(** ** Guest programs *)

Inductive guest (A : Type) : Type :=
| GRet (a : A)
| GLoad (a : Z) (k : byte -> guest A)
| GStore (a : Z) (b : byte) (k : guest A)
| GCall (c : import) (k : Z -> guest A)
| GFuel.
Arguments GRet {A} a.
Arguments GLoad {A} a k.
Arguments GStore {A} a b k.
Arguments GCall {A} c k.
Arguments GFuel {A}.

Fixpoint guest_bind_fix {A B} (k : A -> guest B) (t : guest A) : guest B :=
  match t with
  | GRet a => k a
  | GLoad a k' => GLoad a (fun b => guest_bind_fix k (k' b))
  | GStore a b t' => GStore a b (guest_bind_fix k t')
  | GCall c k' => GCall c (fun r => guest_bind_fix k (k' r))
  | GFuel => GFuel
  end.

#[export] Instance guest_ret : MRet guest := @GRet.
#[export] Instance guest_bind : MBind guest := @guest_bind_fix.

Definition load (a : Z) : guest byte := GLoad a GRet.
Definition store (a : Z) (b : byte) : guest unit := GStore a b (GRet tt).
Definition call (c : import) : guest Z := GCall c GRet.

(** ** Hosts *)

(** What the guest has asked of the ledger and not yet been answered. *)
Inductive request :=
| GetState (key : list byte) (out out_len : Z)
| PutState (key value : list byte).

(** A host as the guest observes it: the invocation's strings (row 0 is the
    function name), the pending request and the response, if any. *)
Record hview := HView {
  hv_args : list (list byte);
  hv_request : option request;
  hv_response : option (list byte);
}.

Definition hv_arg (h : hview) (i : nat) : list byte := default [] (hv_args h !! i).
Definition hv_ask (r : request) (h : hview) : hview :=
  HView (hv_args h) (Some r) (hv_response h).
Definition hv_respond (msg : list byte) (h : hview) : hview :=
  HView (hv_args h) (hv_request h) (Some msg).

Class HostEnv (St : Type) := {
  h_mem : St -> linmem;
  h_set_mem : linmem -> St -> St;
  h_view : St -> hview;
  h_call : import -> St -> cres (Z * St);
}.

(** [delivers ok c s r m v]: the call returns [r] in a state of [ok] whose
    memory is [m] and whose view is [v]. *)
Definition delivers {St} `{HostEnv St} (ok : St -> Prop) (c : import) (s : St)
    (r : Z) (m : linmem) (v : hview) : Prop :=
  exists s', h_call c s = Done (r, s') /\ ok s' /\ h_mem s' = m /\ h_view s' = v.

(** The promises of a host to a guest, in the states [h_ok] that the calls
    and the stores of the guest preserve. *)
Class HostLaws (St : Type) `{HostEnv St} (h_ok : St -> Prop) : Prop := {
  h_mem_set m s : h_ok s -> h_mem (h_set_mem m s) = m;
  h_view_set m s : h_view (h_set_mem m s) = h_view s;
  h_ok_set m s : h_ok s -> lm_size m = lm_size (h_mem s) -> h_ok (h_set_mem m s);
  h_args_strings s j : h_ok s -> no_nul (hv_arg (h_view s) j);
  h_get_function s p n :
    h_ok s -> 0 < n <= 64 -> in_mem (h_mem s) p n ->
    let f := take (Z.to_nat (n - 1)) (hv_arg (h_view s) 0) in
    delivers h_ok (cc_get_function p n) s (Z.of_nat (length f))
      (lm_write (h_mem s) p (pad (Z.to_nat n) f)) (h_view s);
  h_get_arg s i p n :
    h_ok s -> 0 <= i < 9 -> 0 < n <= 64 -> in_mem (h_mem s) p n ->
    let a := take (Z.to_nat (n - 1)) (hv_arg (h_view s) (Z.to_nat (i + 1))) in
    delivers h_ok (cc_get_arg i p n) s (Z.of_nat (length a))
      (lm_write (h_mem s) p (pad (Z.to_nat n) a)) (h_view s);
  h_get_state s kp kn p n :
    h_ok s -> 0 <= kn < 2 ^ 31 -> 0 < n < 2 ^ 31 ->
    in_mem (h_mem s) kp kn -> in_mem (h_mem s) p n ->
    let k := take 63 (lm_read (h_mem s) kp (Z.to_nat kn)) in
    delivers h_ok (cc_get_state kp kn p n) s (Z.of_nat (length k))
      (h_mem s) (hv_ask (GetState (cstr k) p n) (h_view s));
  h_put_state s kp kn vp vn :
    h_ok s -> 0 <= kn < 2 ^ 31 -> 0 <= vn < 2 ^ 31 ->
    in_mem (h_mem s) kp kn -> in_mem (h_mem s) vp vn ->
    let k := take 63 (lm_read (h_mem s) kp (Z.to_nat kn)) in
    let v := take 255 (lm_read (h_mem s) vp (Z.to_nat vn)) in
    delivers h_ok (cc_put_state kp kn vp vn) s (-1)
      (h_mem s) (hv_ask (PutState (cstr k) (cstr v)) (h_view s));
  h_return_response s p n :
    h_ok s -> 0 <= n < 2 ^ 31 -> in_mem (h_mem s) p n ->
    let msg := take 255 (lm_read (h_mem s) p (Z.to_nat n)) in
    delivers h_ok (cc_return_response p n) s (Z.of_nat (length msg))
      (h_mem s) (hv_respond (cstr msg) (h_view s));
}.

(** ** Running a guest *)

(** How the execution of an exported function ends: it returns, it traps on an
    access outside of the linear memory, the host faults, or (in the model
    only) a loop runs out of fuel. *)
Inductive gout (St A : Type) : Type :=
| GDone (a : A) (s : St)
| GTrap (s : St)
| GHostFault (f : fault)
| GOutOfFuel.
Arguments GDone {St A} a s.
Arguments GTrap {St A} s.
Arguments GHostFault {St A} f.
Arguments GOutOfFuel {St A}.

Section run.
  Context {St : Type} `{HostEnv St}.

Fixpoint run_guest {A} (t : guest A) (s : St) : gout St A :=
  match t with
  | GRet a => GDone a s
  | GLoad a k =>
      if decide (in_mem (h_mem s) a 1) then run_guest (k (lm_byte (h_mem s) a)) s
      else GTrap s
  | GStore a b t' =>
      if decide (in_mem (h_mem s) a 1)
      then run_guest t' (h_set_mem (lm_write (h_mem s) a [b]) s)
      else GTrap s
  | GCall c k =>
      match h_call c s with
      | Done (r, s') => run_guest (k r) s'
      | Fault f => GHostFault f
      end
  | GFuel => GOutOfFuel
  end.

(** Total correctness: the program returns, and the result satisfies [Q]. *)
Definition wp {A} (t : guest A) (s : St) (Q : A -> St -> Prop) : Prop :=
  exists a s', run_guest t s = GDone a s' /\ Q a s'.

Lemma run_guest_bind {A B} (t : guest A) (k : A -> guest B) s :
  run_guest (t ≫= k) s =
    match run_guest t s with
    | GDone a s' => run_guest (k a) s'
    | GTrap s' => GTrap s'
    | GHostFault f => GHostFault f
    | GOutOfFuel => GOutOfFuel
    end.
Proof.
  unfold mbind, guest_bind. revert s. induction t as [|a f IH|a b t IH|c f IH|]; intros s; simpl; try done.
  - case_decide; [apply IH|done].
  - case_decide; [apply IH|done].
  - destruct (h_call c s) as [[r s']|]; [apply IH|done].
Qed.

Lemma wp_ret {A} (a : A) s (Q : A -> St -> Prop) : Q a s -> wp (mret a) s Q.
Proof. intros. by exists a, s. Qed.

Lemma wp_bind {A B} (t : guest A) (k : A -> guest B) s Q :
  wp t s (fun a s' => wp (k a) s' Q) -> wp (t ≫= k) s Q.
Proof.
  intros (a & s' & E & b & s'' & E' & HQ). exists b, s''. split; [|done].
  by rewrite run_guest_bind, E.
Qed.

Lemma wp_mono {A} (t : guest A) s (P Q : A -> St -> Prop) :
  wp t s P -> (forall a s', P a s' -> Q a s') -> wp t s Q.
Proof. intros (a & s' & ? & ?) H'. exists a, s'. eauto. Qed.

Lemma wp_load a s (Q : byte -> St -> Prop) :
  in_mem (h_mem s) a 1 -> Q (lm_byte (h_mem s) a) s -> wp (load a) s Q.
Proof. intros ? ?. eexists _, _. simpl. rewrite decide_True by done. eauto. Qed.

Lemma wp_store a b s (Q : unit -> St -> Prop) :
  in_mem (h_mem s) a 1 -> Q tt (h_set_mem (lm_write (h_mem s) a [b]) s) -> wp (store a b) s Q.
Proof. intros ? ?. eexists _, _. simpl. rewrite decide_True by done. eauto. Qed.

Lemma wp_call c s (Q : Z -> St -> Prop) r s' :
  h_call c s = Done (r, s') -> Q r s' -> wp (call c) s Q.
Proof. intros E ?. eexists _, _. simpl. rewrite E. eauto. Qed.
End run.

(** ** The WebAssembly runtime, as the trusted application uses it

    WAMR is not part of the repository: its instance API is the class
    [WamrInst], a parameter of every definition that calls it, and what its
    documentation promises of the calls is the class [WamrInstLaws].
    [SimpleInst] is a concrete instance, which shows that the promises can be
    kept and lets the development evaluate the program. *)

(** A native pointer obtained from the runtime is either [NULL] ([None]) or
    designates an offset of the linear memory of the instance. *)
Class WamrInst := {
  inst : Type;
  inst_mem : inst -> linmem;
  set_inst_mem : linmem -> inst -> inst;
  wasm_runtime_validate_app_addr : inst -> Z -> Z -> bool * inst;
  wasm_runtime_addr_app_to_native : inst -> Z -> option Z;
  wasm_runtime_get_exception : inst -> option string;
  wasm_runtime_clear_exception : inst -> inst;
}.

(** [wasm_export.h]: validating an address says whether the range lies in the
    memory space of the instance, and throws an exception (recorded in the
    instance) when it does not; converting a valid application address gives
    the native address of that offset; the exception is [NULL] after it has
    been cleared, and it is not part of the linear memory. *)
Class WamrInstLaws `{WamrInst} : Prop := {
  inst_mem_set m i : inst_mem (set_inst_mem m i) = m;
  set_inst_mem_id i : set_inst_mem (inst_mem i) i = i;
  set_inst_mem_twice m m' i : set_inst_mem m (set_inst_mem m' i) = set_inst_mem m i;
  exception_set m i :
    wasm_runtime_get_exception (set_inst_mem m i) = wasm_runtime_get_exception i;
  validate_mem i a n : inst_mem (wasm_runtime_validate_app_addr i a n).2 = inst_mem i;
  validate_in i a n :
    0 < n -> in_mem (inst_mem i) a n -> wasm_runtime_validate_app_addr i a n = (true, i);
  validate_out i a n :
    0 < n -> ~ in_mem (inst_mem i) a n -> (wasm_runtime_validate_app_addr i a n).1 = false;
  native_valid i a n :
    0 < n -> in_mem (inst_mem i) a n -> wasm_runtime_addr_app_to_native i a = Some a;
  clear_mem i : inst_mem (wasm_runtime_clear_exception i) = inst_mem i;
  clear_none i : wasm_runtime_get_exception (wasm_runtime_clear_exception i) = None;
  clear_id i : wasm_runtime_get_exception i = None -> wasm_runtime_clear_exception i = i;
}.

(** ** A concrete instance *)

Record simple_inst := SimpleI { si_mem : linmem; si_exn : option string }.

#[export] Instance SimpleInst : WamrInst := {|
  inst := simple_inst;
  inst_mem := si_mem;
  set_inst_mem m i := SimpleI m (si_exn i);
  wasm_runtime_validate_app_addr i a n :=
    if decide (in_mem (si_mem i) a n) then (true, i)
    else (false, SimpleI (si_mem i) (Some "Exception: out of bounds memory access"%string));
  wasm_runtime_addr_app_to_native i a :=
    if decide (in_mem (si_mem i) a 1) then Some a else None;
  wasm_runtime_get_exception := si_exn;
  wasm_runtime_clear_exception i := SimpleI (si_mem i) None;
|}.

#[export] Instance SimpleInstLaws : WamrInstLaws.
Proof.
  split; simpl; try done.
  - by intros [].
  - intros i a n. by case_decide.
  - intros i a n ? ?. by rewrite decide_True.
  - intros i a n ? ?. by rewrite decide_False.
  - intros i a n ? [? [? ?]]. rewrite decide_True; [done|]. unfold in_mem. lia.
  - intros [m e]. simpl. by intros ->.
Qed.
