(* ===== verification/Session.v ===== *)
(** * The session context of the trusted application

    [session.h]: [chaincode_session_ctx], the one object through which the
    native functions (called by the guest) and the command handlers (called by
    the proxy) communicate.  A [char] array is its bytes; the heap blocks the
    session owns are their size and their contents, and [runtime] says whether
    the pointer to the static runtime context is set. *)
From Stdlib Require Import ZArith Lia Strings.Byte Strings.String.
From stdpp Require Import base tactics option list list_numbers gmap strings.
From S2P Require Import Prelude Mem Abi.

Record chaincode_session_ctx := Session {
  sc_args : list byte;              (* struct arguments *)
  sc_pending_type : Z;
  sc_key : list byte;
  sc_value : list byte;
  sc_wasm_out_offset : Z;
  sc_wasm_out_len : Z;
  sc_response : list byte;
  sc_has_response : Z;
  sc_runtime : bool;
  sc_heap_buf_owned : option Z;
  sc_trusted_wasm_owned : option (list byte);
}.

(** Assignments to the fields. *)
Definition set_args v s := Session v (sc_pending_type s) (sc_key s) (sc_value s)
  (sc_wasm_out_offset s) (sc_wasm_out_len s) (sc_response s) (sc_has_response s)
  (sc_runtime s) (sc_heap_buf_owned s) (sc_trusted_wasm_owned s).
Definition set_pending_type v s := Session (sc_args s) v (sc_key s) (sc_value s)
  (sc_wasm_out_offset s) (sc_wasm_out_len s) (sc_response s) (sc_has_response s)
  (sc_runtime s) (sc_heap_buf_owned s) (sc_trusted_wasm_owned s).
Definition set_key v s := Session (sc_args s) (sc_pending_type s) v (sc_value s)
  (sc_wasm_out_offset s) (sc_wasm_out_len s) (sc_response s) (sc_has_response s)
  (sc_runtime s) (sc_heap_buf_owned s) (sc_trusted_wasm_owned s).
Definition set_value v s := Session (sc_args s) (sc_pending_type s) (sc_key s) v
  (sc_wasm_out_offset s) (sc_wasm_out_len s) (sc_response s) (sc_has_response s)
  (sc_runtime s) (sc_heap_buf_owned s) (sc_trusted_wasm_owned s).
Definition set_wasm_out off len s := Session (sc_args s) (sc_pending_type s) (sc_key s)
  (sc_value s) off len (sc_response s) (sc_has_response s)
  (sc_runtime s) (sc_heap_buf_owned s) (sc_trusted_wasm_owned s).
Definition set_response v s := Session (sc_args s) (sc_pending_type s) (sc_key s) (sc_value s)
  (sc_wasm_out_offset s) (sc_wasm_out_len s) v (sc_has_response s)
  (sc_runtime s) (sc_heap_buf_owned s) (sc_trusted_wasm_owned s).
Definition set_has_response v s := Session (sc_args s) (sc_pending_type s) (sc_key s)
  (sc_value s) (sc_wasm_out_offset s) (sc_wasm_out_len s) (sc_response s) v
  (sc_runtime s) (sc_heap_buf_owned s) (sc_trusted_wasm_owned s).
Definition set_runtime v s := Session (sc_args s) (sc_pending_type s) (sc_key s)
  (sc_value s) (sc_wasm_out_offset s) (sc_wasm_out_len s) (sc_response s) (sc_has_response s)
  v (sc_heap_buf_owned s) (sc_trusted_wasm_owned s).
Definition set_owned heap wasm s := Session (sc_args s) (sc_pending_type s) (sc_key s)
  (sc_value s) (sc_wasm_out_offset s) (sc_wasm_out_len s) (sc_response s) (sc_has_response s)
  (sc_runtime s) heap wasm.

(** The zero-filled session that opening a session allocates. *)
Definition session_zero : chaincode_session_ctx :=
  Session (replicate (Z.to_nat sizeof_arguments) x00) 0
    (replicate (Z.to_nat KEY_SIZE) x00) (replicate (Z.to_nat VAL_SIZE) x00) 0 0
    (replicate (Z.to_nat RESPONSE_SIZE) x00) 0 false None None.

(** ** Well-formedness

    The arrays keep their declared sizes; the pending type is one of the three
    the comment in [session.h] lists; and a pending GET has recorded a
    non-empty output buffer. *)
Record session_wf (s : chaincode_session_ctx) : Prop := {
  wf_args : length (sc_args s) = 640%nat;
  wf_key : length (sc_key s) = 64%nat;
  wf_value : length (sc_value s) = 256%nat;
  wf_response : length (sc_response s) = 256%nat;
  wf_pending : sc_pending_type s = 0 \/ sc_pending_type s = GET_STATE_REQUEST \/
    sc_pending_type s = PUT_STATE_REQUEST;
  wf_out : sc_pending_type s = GET_STATE_REQUEST -> 0 < sc_wasm_out_len s < 2 ^ 31;
}.

Lemma session_zero_wf : session_wf session_zero.
Proof. split; simpl; rewrite ?length_replicate; try done. by left. Qed.

(** ** What a guest observes of a session *)

Definition session_request (s : chaincode_session_ctx) : option request :=
  if decide (sc_pending_type s = GET_STATE_REQUEST)
  then Some (GetState (cstr (sc_key s)) (sc_wasm_out_offset s) (sc_wasm_out_len s))
  else if decide (sc_pending_type s = PUT_STATE_REQUEST)
  then Some (PutState (cstr (sc_key s)) (cstr (sc_value s)))
  else None.

Definition session_view (s : chaincode_session_ctx) : hview :=
  HView ((fun i => cstr (argument_row (sc_args s) i)) <$> seqZ 0 10)
    (session_request s)
    (if decide (sc_has_response s = 0) then None else Some (cstr (sc_response s))).

(** ** The store of the native functions

    [g_chaincode_sess] ([None] is NULL) and the module instance behind the
    execution environment they are called with ([None] when it has none). *)
Record host `{WamrInst} := Host {
  h_sess : option chaincode_session_ctx;
  h_inst : option inst;
}.
Arguments Host {_} _ _.
Arguments h_sess {_} _.
Arguments h_inst {_} _.
