(* ===== verification/Natives.v ===== *)
(** * The native functions the guest imports

    [chaincode_native_functions.c]: one definition per function, over the
    store [host] (the session pointer and the module instance), each with the
    guards and the early returns of the C code.  The runtime is the parameter
    [WamrInst].  The theorems say what each function does on every argument,
    that a guest cannot make them touch memory outside of their objects except
    in the two cases stated, and that they keep the promises [HostLaws] that
    the chaincode relies on. *)
From Stdlib Require Import ZArith Lia Strings.Byte Strings.String.
From stdpp Require Import base tactics option list list_numbers gmap strings.
From S2P Require Import Prelude Mem Abi Session.

(** [while (n < max_len && s[n] != 0) n++] from [n], [s] being the bytes left
    of the object; reading past them is a fault. *)
Fixpoint safe_strlen_loop (s : list byte) (n max_len : Z) : cres Z :=
  if decide (n < max_len) then
    match s with
    | [] => Fault OutOfBounds
    | c :: s' => if decide (c = x00) then Done n else safe_strlen_loop s' (n + 1) max_len
    end
  else Done n.

(** safe strlen: at most [max_len] *)
Definition safe_strlen (s : option (list byte)) (max_len : Z) : cres Z :=
  match s with
  | None => Done 0
  | Some s => safe_strlen_loop s 0 max_len
  end.

(** The bounded scan stays inside of the object: it is long enough, or it
    holds a NUL. *)
Definition str_ok (s : list byte) (max_len : Z) : Prop :=
  max_len <= Z.of_nat (length s) \/ x00 ∈ s.
#[export] Instance str_ok_dec s max_len : Decision (str_ok s max_len).
Proof. unfold str_ok. apply _. Defined.

Lemma safe_strlen_loop_ok s n max_len :
  n <= max_len -> str_ok s (max_len - n) ->
  safe_strlen_loop s n max_len =
    Done (n + Z.of_nat (length (take (Z.to_nat (max_len - n)) (cstr s)))).
Proof.
  unfold str_ok. revert n. induction s as [|c s IH]; intros n Hn Hl; cbn [safe_strlen_loop cstr].
  - rewrite elem_of_nil in Hl. simpl in Hl.
    rewrite decide_False by lia. rewrite take_nil. simpl. f_equal. lia.
  - case_decide as Hlt.
    + case_decide as Hc.
      * rewrite take_nil. simpl. f_equal. lia.
      * rewrite IH; [|lia|].
        -- f_equal. replace (Z.to_nat (max_len - n)) with (S (Z.to_nat (max_len - (n + 1)))) by lia.
           simpl. lia.
        -- rewrite elem_of_cons in Hl. cbn [length] in Hl.
           destruct Hl as [Hl|[Hl|Hl]]; [left; lia|done|by right].
    + replace (max_len - n) with 0 by lia. simpl. f_equal. lia.
Qed.

(** The length of the bounded C string. *)
Lemma safe_strlen_ok s max_len :
  0 <= max_len -> str_ok s max_len ->
  safe_strlen (Some s) max_len =
    Done (Z.of_nat (length (take (Z.to_nat max_len) (cstr s)))).
Proof.
  intros. simpl. rewrite safe_strlen_loop_ok by (rewrite ?Z.sub_0_r; done).
  by rewrite Z.sub_0_r.
Qed.

(** Otherwise the scan runs past the end of the object. *)
Lemma safe_strlen_fault s max_len :
  ~ str_ok s max_len -> safe_strlen (Some s) max_len = Fault OutOfBounds.
Proof.
  unfold str_ok. simpl. rewrite <- (Z.sub_0_r max_len) at 1. generalize 0 as n.
  induction s as [|c s IH]; intros n Hn; cbn [safe_strlen_loop].
  - simpl in Hn. by rewrite decide_True by lia.
  - rewrite elem_of_cons in Hn. cbn [length] in Hn.
    rewrite decide_True by lia. rewrite decide_False by naive_solver.
    apply IH. intros [?|?]; apply Hn; [left; lia|by right; right].
Qed.

Lemma take_safe_strlen s n : take (length (take n (cstr s))) s = take n (cstr s).
Proof.
  rewrite (cstr_prefix s) at 2. rewrite take_take, length_take. done.
Qed.

Section natives.
  Context `{WamrInst}.

(** ** Pieces of C the functions share *)

Definition wasm_runtime_get_module_inst : stm host (option inst) := st_gets h_inst.

Definition validate_app_addr (app_offset size : Z) : stm host bool := fun h =>
  match h_inst h with
  | None => Fault NullDeref
  | Some i =>
      let r := wasm_runtime_validate_app_addr i app_offset size in
      Done (r.1, Host (h_sess h) (Some r.2))
  end.

Definition addr_app_to_native (app_offset : Z) : stm host (option Z) := fun h =>
  match h_inst h with
  | None => Fault NullDeref
  | Some i => Done (wasm_runtime_addr_app_to_native i app_offset, h)
  end.

Definition to_native (app_offset size : Z) : stm host (option Z) :=
  bad ← (if decide (size <> 0)
         then ok ← validate_app_addr app_offset size; mret (negb ok)
         else mret false);
  if bad : bool then mret None
  else addr_app_to_native app_offset.

(** Reads and writes through a native pointer into the linear memory. *)
Definition lin_read (p n : Z) : stm host (list byte) := fun h =>
  match h_inst h with
  | None => Fault NullDeref
  | Some i => (fun bs => (bs, h)) <$> mem_load (inst_mem i) p n
  end.

Definition lin_update (f : linmem -> cres linmem) : stm host unit := fun h =>
  match h_inst h with
  | None => Fault NullDeref
  | Some i => (fun m => (tt, Host (h_sess h) (Some (set_inst_mem m i)))) <$> f (inst_mem i)
  end.

(** Reads and writes of [*g_chaincode_sess]. *)
Definition sess_update (f : chaincode_session_ctx -> cres chaincode_session_ctx)
    : stm host unit := fun h =>
  match h_sess h with
  | None => Fault NullDeref
  | Some s => (fun s' => (tt, Host (Some s') (h_inst h))) <$> f s
  end.

(** [if (n > 0 && src) TEE_MemMove(field, src, n)], [src] in linear memory. *)
Definition copy_in (src : option Z) (n : Z)
    (get : chaincode_session_ctx -> list byte)
    (set : list byte -> chaincode_session_ctx -> chaincode_session_ctx) : stm host unit :=
  match src with
  | Some p =>
      if decide (n > 0) then
        bs ← lin_read p n;
        sess_update (fun s => b ← buf_write (get s) 0 bs; Done (set b s))
      else mret tt
  | None => mret tt
  end.

Definition fill_field (n : Z) (get : chaincode_session_ctx -> list byte)
    (set : list byte -> chaincode_session_ctx -> chaincode_session_ctx) : stm host unit :=
  sess_update (fun s => b ← buf_MemFill (get s) 0 0 n; Done (set b s)).

(** The local copy of a message for the log, in [char buf[128]]; gives the
    number of bytes copied. *)
Definition log_copy (p len : Z) : stm host Z :=
  let n := if decide (len < 128 - 1) then len else 128 - 1 in
  bs ← lin_read p n;
  st_lift (buf ← buf_MemFill (replicate 128 x00) 0 0 128; buf_write buf 0 bs);;
  mret n.

(** ** The functions *)

Definition cc_get_function_native (out_ptr out_len : Z) : stm host Z :=
  module_inst ← wasm_runtime_get_module_inst;
  match module_inst with
  | None => mret 0
  | Some _ =>
    if decide (out_len <= 0) then mret 0 else
    ok ← validate_app_addr out_ptr (u32 out_len);
    if negb ok then mret 0 else
    out ← addr_app_to_native out_ptr;
    match out with
    | None => mret 0
    | Some out =>
      sess ← st_gets h_sess;
      match sess with
      | None => mret 0
      | Some sc =>
        let function := drop (Z.to_nat (argument_off 0)) (sc_args sc) in
        len ← st_lift (safe_strlen (Some function) (u64 (u64 out_len - 1)));
        lin_update (fun m => mem_MemFill m out 0 (u64 out_len));;
        (if decide (len > 0)
         then lin_update (fun m => bs ← buf_read function 0 len; mem_store m out bs)
         else mret tt);;
        mret (i32 len)
      end
    end
  end.

Definition cc_get_arg_native (idx out_ptr out_len : Z) : stm host Z :=
  out ← to_native out_ptr (u32 out_len);
  match out with
  | None => mret 0
  | Some out =>
    if decide (out_len <= 0) then mret 0 else
    sess ← st_gets h_sess;
    let arg := match sess with
               | Some sc => if decide (idx >= 0 /\ idx < ARGS_NUMBER)
                            then drop (Z.to_nat (argument_off (idx + 1))) (sc_args sc)
                            else [x00]
               | None => [x00]
               end in
    len ← st_lift (safe_strlen (Some arg) (u64 (u64 out_len - 1)));
    lin_update (fun m => mem_MemFill m out 0 (u64 out_len));;
    (if decide (len > 0)
     then lin_update (fun m => bs ← buf_read arg 0 len; mem_store m out bs)
     else mret tt);;
    mret (i32 len)
  end.

Definition cc_get_state_native (key_ptr key_len out_ptr out_len : Z) : stm host Z :=
  out ← to_native out_ptr (u32 out_len);
  key ← to_native key_ptr (u32 (if decide (key_len > 0) then key_len else 0));
  (match key with
   | Some k => if decide (key_len > 0) then log_copy k key_len;; mret tt else mret tt
   | None => mret tt
   end);;
  match out with
  | None => mret 0
  | Some _ =>
    if decide (out_len <= 0) then mret 0 else
    sess ← st_gets h_sess;
    match sess with
    | None => mret 0
    | Some _ =>
      fill_field KEY_SIZE sc_key set_key;;
      let klen := if decide (key_len < KEY_SIZE - 1) then key_len else KEY_SIZE - 1 in
      copy_in key klen sc_key set_key;;
      sess_update (fun s => Done (set_pending_type GET_STATE_REQUEST s));;
      sess_update (fun s => Done (set_wasm_out out_ptr out_len s));;
      mret klen
    end
  end.

Definition cc_put_state_native (key_ptr key_len val_ptr val_len : Z) : stm host Z :=
  key ← to_native key_ptr (u32 (if decide (key_len > 0) then key_len else 0));
  val ← to_native val_ptr (u32 (if decide (val_len > 0) then val_len else 0));
  sess ← st_gets h_sess;
  match sess with
  | None => mret (-1)
  | Some _ =>
    fill_field KEY_SIZE sc_key set_key;;
    fill_field VAL_SIZE sc_value set_value;;
    let klen := if decide (key_len < KEY_SIZE - 1) then key_len else KEY_SIZE - 1 in
    let vlen := if decide (val_len < VAL_SIZE - 1) then val_len else VAL_SIZE - 1 in
    copy_in key klen sc_key set_key;;
    copy_in val vlen sc_value set_value;;
    sess_update (fun s => Done (set_pending_type PUT_STATE_REQUEST s));;
    sess_update (fun s => Done (set_wasm_out 0 0 s));;
    mret (-1)
  end.

Definition cc_return_response_native (msg_ptr msg_len : Z) : stm host Z :=
  module_inst ← wasm_runtime_get_module_inst;
  match module_inst with
  | None => mret 0
  | Some _ =>
    msg ← to_native msg_ptr (u32 (if decide (msg_len > 0) then msg_len else 0));
    sess ← st_gets h_sess;
    match sess with
    | None => mret 0
    | Some _ =>
      let n := if decide (msg_len < RESPONSE_SIZE - 1) then msg_len else RESPONSE_SIZE - 1 in
      fill_field RESPONSE_SIZE sc_response set_response;;
      copy_in msg n sc_response set_response;;
      sess_update (fun s => b ← buf_write (sc_response s) n [x00]; Done (set_response b s));;
      sess_update (fun s => Done (set_has_response 1 s));;
      mret n
    end
  end.

Definition cc_log_native (msg_ptr msg_len : Z) : stm host Z :=
  module_inst ← wasm_runtime_get_module_inst;
  match module_inst with
  | None => mret 0
  | Some _ =>
    msg ← to_native msg_ptr (u32 (if decide (msg_len > 0) then msg_len else 0));
    match msg with
    | Some p => if decide (msg_len > 0) then log_copy p msg_len else mret 0
    | None => mret 0
    end
  end.

Definition debug_log_native (step_num : Z) : stm host Z := mret 0.

(** The substitutes of the C builtins ([env.mem*]). *)
Definition env_memset_native (dst_ptr c n : Z) : stm host Z :=
  dst ← to_native dst_ptr n;
  match dst with
  | None => if decide (n <> 0) then mret 0 else mret dst_ptr
  | Some d =>
      (if decide (n <> 0)
       then lin_update (fun m => mem_MemFill m d c n) else mret tt);;
      mret dst_ptr
  end.

Definition env_memmove_native (dst_ptr src_ptr n : Z) : stm host Z :=
  dst ← to_native dst_ptr n;
  src ← to_native src_ptr n;
  match dst, src with
  | Some d, Some s =>
      (if decide (n <> 0)
       then lin_update (fun m => mem_MemMove m d s n) else mret tt);;
      mret dst_ptr
  | _, _ => if decide (n <> 0) then mret 0 else mret dst_ptr
  end.

Definition env_memcpy_native (dst_ptr src_ptr n : Z) : stm host Z :=
  dst ← to_native dst_ptr n;
  src ← to_native src_ptr n;
  match dst, src with
  | Some d, Some s =>
      (if decide (n <> 0)
       then lin_update (fun m => mem_MemMove m d s n) else mret tt);;
      mret dst_ptr
  | _, _ => if decide (n <> 0) then mret 0 else mret dst_ptr
  end.

(** ** The symbol table (module [env]) *)

(** Each import called with its native function. *)
Definition native_call (c : import) : stm host Z :=
  match c with
  | cc_get_function out n => cc_get_function_native out n
  | cc_get_arg idx out n => cc_get_arg_native idx out n
  | cc_get_state k kn out n => cc_get_state_native k kn out n
  | cc_put_state k kn v vn => cc_put_state_native k kn v vn
  | cc_return_response msg n => cc_return_response_native msg n
  | cc_log msg n => cc_log_native msg n
  | debug_log step => debug_log_native step
  | env_memset s c n => env_memset_native s c n
  | env_memcpy d s n => env_memcpy_native d s n
  | env_memmove d s n => env_memmove_native d s n
  end.
End natives.

(** The names and the signatures of the table's rows. *)
Definition chaincode_native_symbols : list (string * string) :=
  [ ("cc_get_function", "(ii)i");
    ("cc_get_arg", "(iii)i");
    ("cc_get_state", "(iiii)i");
    ("cc_put_state", "(iiii)i");
    ("cc_return_response", "(ii)i");
    ("cc_log", "(ii)i");
    ("debug_log", "(i)i");
    ("memset", "(iii)i");
    ("memcpy", "(iii)i");
    ("memmove", "(iii)i") ]%string.

(** ** Behaviour of the pieces *)

Section pieces.
  Context `{WamrInst} `{!WamrInstLaws}.
  Implicit Types (s : chaincode_session_ctx) (i : inst) (os : option chaincode_session_ctx).

Lemma to_native_in os i a n :
  0 < n -> in_mem (inst_mem i) a n ->
  to_native a n (Host os (Some i)) = Done (Some a, Host os (Some i)).
Proof.
  intros Hn Hin. unfold to_native. rewrite decide_True by lia.
  rewrite !stm_bind_eq. unfold validate_app_addr. simpl.
  rewrite validate_in by done. simpl. unfold addr_app_to_native. simpl.
  by erewrite native_valid.
Qed.

Lemma to_native_out os i a n :
  0 < n -> ~ in_mem (inst_mem i) a n ->
  exists i', to_native a n (Host os (Some i)) = Done (None, Host os (Some i')) /\
    inst_mem i' = inst_mem i.
Proof.
  intros Hn Hin. unfold to_native. rewrite decide_True by lia.
  rewrite !stm_bind_eq. unfold validate_app_addr. simpl.
  rewrite validate_out by done. simpl. eexists. split; [done|]. apply validate_mem.
Qed.

Lemma to_native_zero os i a :
  to_native a 0 (Host os (Some i)) =
    Done (wasm_runtime_addr_app_to_native i a, Host os (Some i)).
Proof. done. Qed.

(** In every case: the session and the linear memory are as before, and a
    pointer to a non-empty range designates that range of the memory. *)
Lemma to_native_spec os i a n :
  0 <= n ->
  exists p i', to_native a n (Host os (Some i)) = Done (p, Host os (Some i')) /\
    inst_mem i' = inst_mem i /\
    (0 < n -> forall q, p = Some q -> q = a /\ in_mem (inst_mem i) a n).
Proof.
  intros Hn. destruct (decide (0 < n)) as [Hp|Hp].
  - destruct (decide (in_mem (inst_mem i) a n)) as [Hin|Hin].
    + exists (Some a), i. rewrite to_native_in by done. naive_solver.
    + destruct (to_native_out os i a n) as (i' & -> & ?); [done..|].
      exists None, i'. naive_solver.
  - replace n with 0 by lia. rewrite to_native_zero.
    exists (wasm_runtime_addr_app_to_native i a), i. split; [done|]. split; [done|]. lia.
Qed.

Lemma lin_read_ok os i p n :
  in_mem (inst_mem i) p n ->
  lin_read p n (Host os (Some i)) = Done (lm_read (inst_mem i) p (Z.to_nat n), Host os (Some i)).
Proof. intros. unfold lin_read. simpl. by rewrite mem_load_ok. Qed.

Lemma lin_update_ok os i f m :
  f (inst_mem i) = Done m ->
  lin_update f (Host os (Some i)) = Done (tt, Host os (Some (set_inst_mem m i))).
Proof. intros E. unfold lin_update. simpl. by rewrite E. Qed.

Lemma sess_update_ok s oi f s' :
  f s = Done s' -> sess_update f (Host (Some s) oi) = Done (tt, Host (Some s') oi).
Proof. intros E. unfold sess_update. simpl. by rewrite E. Qed.

Lemma fill_field_ok s oi n get set :
  Z.of_nat (length (get s)) = n ->
  fill_field n get set (Host (Some s) oi) =
    Done (tt, Host (Some (set (replicate (Z.to_nat n) x00) s)) oi).
Proof.
  intros E. apply sess_update_ok. rewrite buf_MemFill_all by done. simpl.
  do 3 f_equal. lia.
Qed.

(** The bytes a guest passes by pointer and length, when the pointer is valid. *)
Definition passed i (p : option Z) (n : Z) : list byte :=
  match p with
  | Some q => if decide (n > 0) then lm_read (inst_mem i) q (Z.to_nat n) else []
  | None => []
  end.

Lemma copy_in_ok s i p n get set k :
  (0 < n -> forall q, p = Some q -> in_mem (inst_mem i) q n) ->
  get s = replicate k x00 -> n <= Z.of_nat k ->
  set (replicate k x00) s = s ->
  copy_in p n get set (Host (Some s) (Some i)) =
    Done (tt, Host (Some (set (pad k (passed i p n)) s)) (Some i)).
Proof.
  intros Hin Hget Hle Hset. unfold copy_in, passed. destruct p as [q|].
  - case_decide as Hn.
    + rewrite stm_bind_eq, lin_read_ok by (apply Hin; [lia|done]).
      apply sess_update_ok. rewrite Hget.
      rewrite buf_write_ok; [|lia|rewrite length_lm_read, length_replicate; lia].
      simpl. rewrite splice_pad; [done|]. rewrite length_lm_read. lia.
    + by rewrite pad_nil, Hset.
  - by rewrite pad_nil, Hset.
Qed.

Lemma log_copy_ok os i p n :
  0 < n -> in_mem (inst_mem i) p n ->
  log_copy p n (Host os (Some i)) = Done (Z.min n 127, Host os (Some i)).
Proof.
  intros Hn (? & ? & ?). unfold log_copy. rewrite stm_bind_eq.
  replace (if decide (n < 128 - 1) then n else 128 - 1) with (Z.min n 127) by (case_decide; lia).
  rewrite lin_read_ok by (unfold in_mem; lia).
  rewrite stm_bind_eq. unfold st_lift.
  rewrite buf_MemFill_all by (by rewrite length_replicate). cbn [mbind cres_bind].
  rewrite buf_write_ok; [done|lia|rewrite length_lm_read, !length_replicate; lia].
Qed.

Lemma length_passed i p n : Z.of_nat (length (passed i p n)) <= Z.max 0 n.
Proof.
  unfold passed. destruct p; [|simpl; lia]. case_decide; [|simpl; lia].
  rewrite length_lm_read. lia.
Qed.
End pieces.

(** ** Behaviour of the functions, on every argument *)

(** What a guest passes by pointer and length, cut at [cap] bytes: nothing
    when the length is not positive or the range is not in its memory. *)
Definition guest_bytes (m : linmem) (p n cap : Z) : list byte :=
  if decide (0 < n /\ in_mem m p n) then lm_read m p (Z.to_nat (Z.min n cap)) else [].

Lemma length_guest_bytes m p n cap : Z.of_nat (length (guest_bytes m p n cap)) <= Z.max 0 cap.
Proof. unfold guest_bytes. case_decide; [rewrite length_lm_read|simpl]; lia. Qed.

Lemma length_guest_bytes_le m p n cap :
  Z.of_nat (length (guest_bytes m p n cap)) <= Z.max 0 (Z.min n cap).
Proof. unfold guest_bytes. case_decide; [rewrite length_lm_read|simpl]; lia. Qed.

(** The effects of the functions on the session. *)
Definition ask_get (k : list byte) (p n : Z) (s : chaincode_session_ctx) :=
  set_wasm_out p n (set_pending_type GET_STATE_REQUEST (set_key (pad 64 k) s)).
Definition ask_put (k v : list byte) (s : chaincode_session_ctx) :=
  set_wasm_out 0 0 (set_pending_type PUT_STATE_REQUEST
    (set_value (pad 256 v) (set_key (pad 64 k) s))).
Definition respond (msg : list byte) (s : chaincode_session_ctx) :=
  set_has_response 1 (set_response (pad 256 msg) s).

Section specs.
  Context `{WamrInst} `{!WamrInstLaws}.
  Implicit Types (s : chaincode_session_ctx) (i : inst) (os : option chaincode_session_ctx).

Lemma to_native_ptr os i p n :
  int_range n ->
  exists q i', to_native p (u32 (if decide (n > 0) then n else 0)) (Host os (Some i))
      = Done (q, Host os (Some i')) /\
    inst_mem i' = inst_mem i /\
    (forall a, q = Some a -> 0 < n -> a = p /\ in_mem (inst_mem i) p n) /\
    (0 < n -> in_mem (inst_mem i) p n -> q = Some p).
Proof.
  unfold int_range. intros Hn. case_decide as Hp.
  - rewrite u32_small by lia.
    destruct (decide (in_mem (inst_mem i) p n)) as [Hin|Hin].
    + exists (Some p), i. rewrite to_native_in by (done || lia).
      split_and!; [done..| |done]. by intros a [= <-] _.
    + destruct (to_native_out os i p n) as (i' & -> & ?); [lia|done|].
      exists None, i'. by split_and!.
  - rewrite u32_small, to_native_zero by lia. eexists _, i. split; [done|]. split; [done|].
    split; intros; lia.
Qed.

Lemma passed_guest_bytes i i' q p n cap :
  0 <= cap -> inst_mem i' = inst_mem i ->
  (forall a, q = Some a -> 0 < n -> a = p /\ in_mem (inst_mem i) p n) ->
  (0 < n -> in_mem (inst_mem i) p n -> q = Some p) -> 0 < cap ->
  passed i' q (Z.min n cap) = guest_bytes (inst_mem i) p n cap.
Proof.
  intros ? Hm H1 H2 ?. unfold passed, guest_bytes. rewrite Hm. destruct q as [a|].
  - case_decide as Hn.
    + destruct (H1 a eq_refl) as [-> ?]; [lia|]. by rewrite decide_True by (split; [lia|done]).
    + rewrite decide_False by lia. done.
  - rewrite decide_False; [done|]. intros [? ?]. by discriminate H2.
Qed.

Lemma min_if n cap : (if decide (n < cap) then n else cap) = Z.min n cap.
Proof. case_decide; lia. Qed.

Lemma cc_get_state_native_spec s i kp kn p n :
  session_wf s -> int_range kn -> int_range n ->
  exists i', inst_mem i' = inst_mem i /\
    cc_get_state_native kp kn p n (Host (Some s) (Some i)) =
      if decide (0 < n /\ in_mem (inst_mem i) p n)
      then Done (Z.min kn 63,
             Host (Some (ask_get (guest_bytes (inst_mem i) kp kn 63) p n s)) (Some i'))
      else Done (0, Host (Some s) (Some i')).
Proof.
  intros Hwf Hkn Hn. unfold cc_get_state_native.
  destruct (to_native_spec (Some s) i p (u32 n)) as (out & i1 & E1 & Hm1 & Hout);
    [apply u32_range|].
  destruct (to_native_ptr (Some s) i1 kp kn Hkn) as (key & i2 & E2 & Hm2 & Hk1 & Hk2).
  exists i2. split; [congruence|].
  rewrite stm_bind_eq, E1, stm_bind_eq, E2, stm_bind_eq.
  set (h := Host (Some s) (Some i2)).
  assert ((match key with
    | Some k => if decide (kn > 0) then log_copy k kn;; mret tt else mret tt
    | None => mret tt end : stm host unit) h = Done (tt, h)) as ->.
  { destruct key as [k|]; [|done]. case_decide as Hk; [|done].
    destruct (Hk1 k eq_refl) as [-> ?]; [lia|].
    rewrite stm_bind_eq. unfold h. rewrite log_copy_ok; [done|lia|by rewrite Hm2]. }
  destruct (decide (0 < n /\ in_mem (inst_mem i) p n)) as [[Hn0 Hin]|Hno].
  - assert (out = Some p) as ->.
    { rewrite u32_small in E1 by (unfold int_range in Hn; lia).
      rewrite to_native_in in E1 by done. congruence. }
    rewrite decide_False by lia. unfold h. rewrite stm_bind_eq. simpl.
    rewrite stm_bind_eq, fill_field_ok by (by rewrite (wf_key _ Hwf)).
    change (KEY_SIZE - 1) with 63. rewrite min_if, stm_bind_eq.
    rewrite (copy_in_ok _ _ _ _ _ _ 64); [|..|lia|done]; simpl; try done.
    2: { intros Hk q ->. destruct (Hk1 q eq_refl) as [-> [? [? ?]]]; [lia|].
         rewrite Hm2. unfold in_mem. lia. }
    rewrite (passed_guest_bytes i1 i2 key kp kn 63) by (done || lia).
    rewrite Hm1. done.
  - destruct out as [q|]; [|done]. destruct (decide (n <= 0)) as [Hle|Hle]; [done|].
    rewrite u32_small in Hout by (unfold int_range in Hn; lia).
    destruct (Hout ltac:(lia) q eq_refl). destruct Hno. split; [lia|done].
Qed.

Lemma cc_put_state_native_spec s i kp kn vp vn :
  session_wf s -> int_range kn -> int_range vn ->
  exists i', inst_mem i' = inst_mem i /\
    cc_put_state_native kp kn vp vn (Host (Some s) (Some i)) =
      Done (-1, Host (Some (ask_put (guest_bytes (inst_mem i) kp kn 63)
                                    (guest_bytes (inst_mem i) vp vn 255) s)) (Some i')).
Proof.
  intros Hwf Hkn Hvn. unfold cc_put_state_native.
  destruct (to_native_ptr (Some s) i kp kn Hkn) as (key & i1 & E1 & Hm1 & Hk1 & Hk2).
  destruct (to_native_ptr (Some s) i1 vp vn Hvn) as (val & i2 & E2 & Hm2 & Hv1 & Hv2).
  exists i2. split; [congruence|].
  rewrite stm_bind_eq, E1, stm_bind_eq, E2, stm_bind_eq. simpl.
  rewrite stm_bind_eq, fill_field_ok by (by rewrite (wf_key _ Hwf)).
  rewrite stm_bind_eq, fill_field_ok by (simpl; by rewrite (wf_value _ Hwf)).
  change (KEY_SIZE - 1) with 63. change (VAL_SIZE - 1) with 255. rewrite !min_if.
  rewrite stm_bind_eq, (copy_in_ok _ _ _ _ _ _ 64); [|..|lia|done]; simpl; try done.
  2: { intros Hk q ->. destruct (Hk1 q eq_refl) as [-> [? [? ?]]]; [lia|].
       rewrite Hm2, Hm1. unfold in_mem. lia. }
  rewrite stm_bind_eq, (copy_in_ok _ _ _ _ _ _ 256); [|..|lia|done]; simpl; try done.
  2: { intros Hk q ->. destruct (Hv1 q eq_refl) as [-> [? [? ?]]]; [lia|].
       rewrite Hm2. unfold in_mem. lia. }
  rewrite (passed_guest_bytes i i2 key kp kn 63) by (done || lia || congruence).
  rewrite (passed_guest_bytes i1 i2 val vp vn 255) by (done || lia || congruence).
  by rewrite Hm1.
Qed.

(** The string [arg] delivered to an output buffer of [n] bytes. *)
Definition arg_string (arg : list byte) (n : Z) : list byte := take (Z.to_nat (n - 1)) (cstr arg).

Lemma length_arg_string arg n : 0 < n -> Z.of_nat (length (arg_string arg n)) <= n - 1.
Proof. intros. unfold arg_string. rewrite length_take. lia. Qed.

(** The tail that [cc_get_function] and [cc_get_arg] share. *)
Lemma deliver_string os i out n arg :
  0 < n < 2 ^ 31 -> in_mem (inst_mem i) out n -> str_ok arg (n - 1) ->
  (len ← st_lift (safe_strlen (Some arg) (u64 (u64 n - 1)));
   lin_update (fun m => mem_MemFill m out 0 (u64 n));;
   (if decide (len > 0)
    then lin_update (fun m => bs ← buf_read arg 0 len; mem_store m out bs)
    else mret tt);;
   mret (i32 len)) (Host os (Some i)) =
  Done (Z.of_nat (length (arg_string arg n)),
        Host os (Some (set_inst_mem
          (lm_write (inst_mem i) out (pad (Z.to_nat n) (arg_string arg n))) i))).
Proof.
  intros Hn Hin Hs. set (st := arg_string arg n).
  assert (Hl : Z.of_nat (length st) <= n - 1) by (apply length_arg_string; lia).
  assert (Hl' : (length st <= length arg)%nat).
  { unfold st, arg_string. rewrite length_take. pose proof (length_cstr arg). lia. }
  rewrite (u64_small n), u64_small by lia.
  rewrite stm_bind_eq. unfold st_lift. rewrite safe_strlen_ok by (done || lia).
  fold (arg_string arg n). fold st. cbn [fmap cres_fmap].
  rewrite stm_bind_eq.
  rewrite (lin_update_ok _ _ _ _ (mem_MemFill_ok _ _ _ _ Hin)).
  change (byte_of_Z 0) with x00.
  assert (Htk : take (length st) arg = st) by apply take_safe_strlen.
  assert (Hi32 : i32 (Z.of_nat (length st)) = Z.of_nat (length st)) by (apply i32_small; lia).
  rewrite stm_bind_eq. case_decide as Hpos.
  - rewrite (lin_update_ok _ _ _ (lm_write (lm_write (inst_mem i) out
      (replicate (Z.to_nat n) x00)) out st)).
    + rewrite Hi32, set_inst_mem_twice, lm_write_pad by lia. done.
    + rewrite buf_read_ok by lia. cbn [mbind cres_bind].
      rewrite Nat2Z.id, drop_0, Htk, inst_mem_set. apply mem_store_ok.
      destruct Hin as (? & ? & ?). unfold in_mem. simpl. lia.
  - assert (st = []) as -> by (destruct st; [done|simpl in Hpos; lia]).
    rewrite pad_nil. done.
Qed.

Lemma cc_get_function_native_spec s i p n :
  int_range n -> (0 < n -> in_mem (inst_mem i) p n -> str_ok (sc_args s) (n - 1)) ->
  exists i', cc_get_function_native p n (Host (Some s) (Some i)) =
      (if decide (0 < n /\ in_mem (inst_mem i) p n)
      then Done (Z.of_nat (length (arg_string (sc_args s) n)), Host (Some s) (Some i'))
      else Done (0, Host (Some s) (Some i'))) /\
    inst_mem i' = if decide (0 < n /\ in_mem (inst_mem i) p n)
      then lm_write (inst_mem i) p (pad (Z.to_nat n) (arg_string (sc_args s) n))
      else inst_mem i.
Proof.
  unfold int_range. intros Hn Hs. unfold cc_get_function_native.
  rewrite stm_bind_eq. cbn [wasm_runtime_get_module_inst st_gets h_inst].
  destruct (decide (n <= 0)) as [Hle|Hle].
  { exists i. rewrite !decide_False by lia. done. }
  rewrite u32_small by lia. rewrite stm_bind_eq. unfold validate_app_addr at 1. cbn [h_inst h_sess].
  destruct (decide (in_mem (inst_mem i) p n)) as [Hin|Hin].
  - rewrite validate_in by (done || lia). cbn [fst snd negb].
    rewrite stm_bind_eq. unfold addr_app_to_native. cbn [h_inst].
    rewrite (native_valid _ _ n) by (done || lia).
    rewrite stm_bind_eq. cbn [st_gets h_sess argument_off].
    change (Z.to_nat (0 * ARG_SIZE)) with 0%nat. rewrite drop_0.
    rewrite deliver_string by (done || lia || (apply Hs; done || lia)).
    eexists. rewrite !decide_True by (split; [lia|done]). split; [done|]. apply inst_mem_set.
  - rewrite validate_out by (done || lia). cbn [fst snd negb].
    eexists. rewrite !decide_False by (intros [? ?]; done). split; [done|]. apply validate_mem.
Qed.

(** The argument string [cc_get_arg] hands out: the bytes of the session from
    the row of [idx] on; the empty string for an index out of range. *)
Definition arg_of s (idx : Z) : list byte :=
  if decide (idx >= 0 /\ idx < ARGS_NUMBER)
  then drop (Z.to_nat (argument_off (idx + 1))) (sc_args s) else [x00].

Lemma cc_get_arg_native_spec s i idx p n :
  int_range n -> (0 < n -> in_mem (inst_mem i) p n -> str_ok (arg_of s idx) (n - 1)) ->
  exists i', cc_get_arg_native idx p n (Host (Some s) (Some i)) =
      (if decide (0 < n /\ in_mem (inst_mem i) p n)
      then Done (Z.of_nat (length (arg_string (arg_of s idx) n)), Host (Some s) (Some i'))
      else Done (0, Host (Some s) (Some i'))) /\
    inst_mem i' = if decide (0 < n /\ in_mem (inst_mem i) p n)
      then lm_write (inst_mem i) p (pad (Z.to_nat n) (arg_string (arg_of s idx) n))
      else inst_mem i.
Proof.
  unfold int_range. intros Hn Hs. unfold cc_get_arg_native.
  destruct (to_native_spec (Some s) i p (u32 n)) as (out & i1 & E1 & Hm1 & Hout);
    [apply u32_range|].
  destruct (decide (0 < n /\ in_mem (inst_mem i) p n)) as [[Hn0 Hin]|Hno].
  - rewrite u32_small by lia. rewrite stm_bind_eq, to_native_in by done.
    destruct (decide (n <= 0)) as [?|_]; [lia|].
    rewrite stm_bind_eq. cbn [st_gets h_sess]. fold (arg_of s idx).
    rewrite deliver_string by (auto || lia). eexists. split; [done|]. apply inst_mem_set.
  - rewrite stm_bind_eq, E1. exists i1. split; [|done].
    destruct out as [q|]; [|done]. destruct (decide (n <= 0)) as [Hle|Hle]; [done|].
    rewrite u32_small in Hout by lia.
    destruct (Hout ltac:(lia) q eq_refl). destruct Hno. split; [lia|done].
Qed.

Lemma splice_nul_pad k n bs :
  (length bs <= n)%nat -> (n < k)%nat -> splice n [x00] (pad k bs) = pad k bs.
Proof.
  intros Hb Hn. apply list_eq. intros j.
  rewrite lookup_splice by (rewrite length_pad; simpl; lia). cbn [length].
  case_decide as Hj; [|done]. replace (j - n)%nat with 0%nat by lia. simpl.
  unfold pad. rewrite lookup_app_r by lia. by rewrite lookup_replicate_2 by lia.
Qed.

Lemma cc_return_response_native_spec s i p n :
  session_wf s -> int_range n ->
  exists i', inst_mem i' = inst_mem i /\
    cc_return_response_native p n (Host (Some s) (Some i)) =
      if decide (0 <= n)
      then Done (Z.min n 255, Host (Some (respond (guest_bytes (inst_mem i) p n 255) s)) (Some i'))
      else Fault OutOfBounds.
Proof.
  intros Hwf Hn. unfold cc_return_response_native.
  rewrite stm_bind_eq. cbn [wasm_runtime_get_module_inst st_gets h_inst].
  destruct (to_native_ptr (Some s) i p n Hn) as (msg & i1 & E1 & Hm1 & Hk1 & Hk2).
  exists i1. split; [done|].
  rewrite stm_bind_eq, E1, stm_bind_eq. cbn [st_gets h_sess].
  change (RESPONSE_SIZE - 1) with 255. rewrite !min_if.
  rewrite stm_bind_eq, fill_field_ok by (by rewrite (wf_response _ Hwf)).
  rewrite stm_bind_eq, (copy_in_ok _ _ _ _ _ _ 256); [|..|lia|done]; try done.
  2: { intros Hk q ->. destruct (Hk1 q eq_refl) as [-> [? [? ?]]]; [lia|].
       rewrite Hm1. unfold in_mem. lia. }
  rewrite (passed_guest_bytes i i1 msg p n 255) by (done || lia || congruence).
  set (bs := guest_bytes (inst_mem i) p n 255).
  assert (Hbs : Z.of_nat (length bs) <= Z.max 0 (Z.min n 255)) by apply length_guest_bytes_le.
  rewrite stm_bind_eq. unfold sess_update at 1. cbn [h_sess sc_response set_response].
  destruct (decide (0 <= n)) as [Hpos|Hpos].
  - rewrite buf_write_ok by (rewrite ?length_pad; simpl; lia).
    rewrite splice_nul_pad by lia. done.
  - unfold buf_write. rewrite decide_False by lia. done.
Qed.

Lemma cc_log_native_spec os i p n :
  int_range n ->
  exists i', inst_mem i' = inst_mem i /\
    cc_log_native p n (Host os (Some i)) =
      Done (if decide (0 < n /\ in_mem (inst_mem i) p n) then Z.min n 127 else 0,
            Host os (Some i')).
Proof.
  intros Hn. unfold cc_log_native.
  rewrite stm_bind_eq. cbn [wasm_runtime_get_module_inst st_gets h_inst].
  destruct (to_native_ptr os i p n Hn) as (msg & i1 & E1 & Hm1 & Hk1 & Hk2).
  rewrite stm_bind_eq, E1.
  destruct (decide (0 < n /\ in_mem (inst_mem i) p n)) as [[Hp Hin]|Hno].
  - rewrite Hk2 by done. rewrite decide_True by lia.
    rewrite log_copy_ok by (lia || by rewrite Hm1). by exists i1.
  - exists i1. split; [done|]. destruct msg as [q|]; [|done].
    destruct (decide (n > 0)) as [Hp|Hp]; [|done].
    destruct (Hk1 q eq_refl) as [-> ?]; [lia|]. destruct Hno. split; [lia|done].
Qed.

Lemma env_memset_native_spec os i d c n :
  uint_range n ->
  exists i', env_memset_native d c n (Host os (Some i)) =
      Done (if decide (n = 0 \/ in_mem (inst_mem i) d n) then d else 0, Host os (Some i')) /\
    inst_mem i' = if decide (0 < n /\ in_mem (inst_mem i) d n)
      then lm_write (inst_mem i) d (replicate (Z.to_nat n) (byte_of_Z c))
      else inst_mem i.
Proof.
  unfold uint_range. intros Hn. unfold env_memset_native.
  destruct (decide (0 < n /\ in_mem (inst_mem i) d n)) as [[Hn0 Hin]|Hno].
  - rewrite stm_bind_eq, to_native_in by done. rewrite stm_bind_eq, decide_True by lia.
    rewrite (lin_update_ok _ _ _ _ (mem_MemFill_ok _ _ _ _ Hin)).
    rewrite decide_True by tauto. eexists. split; [done|]. apply inst_mem_set.
  - destruct (to_native_spec os i d n) as (q & i1 & E1 & Hm1 & Hq); [lia|].
    rewrite stm_bind_eq, E1. exists i1. split; [|done]. destruct (decide (n = 0)) as [->|Hn0].
    + rewrite (decide_True (P := _ \/ _)) by (by left). by destruct q.
    + rewrite (decide_False (P := _ \/ _)) by (intros [?|?]; [done|]; apply Hno; split; [lia|done]).
      destruct q as [a|]; [|by rewrite decide_True].
      destruct (Hq ltac:(lia) a eq_refl). destruct Hno. split; [lia|done].
Qed.

Lemma env_memmove_native_spec os i d sp n :
  uint_range n ->
  exists i', env_memmove_native d sp n (Host os (Some i)) =
      Done (if decide (n = 0 \/ in_mem (inst_mem i) d n /\ in_mem (inst_mem i) sp n)
            then d else 0, Host os (Some i')) /\
    inst_mem i' = if decide (0 < n /\ in_mem (inst_mem i) d n /\ in_mem (inst_mem i) sp n)
      then lm_write (inst_mem i) d (lm_read (inst_mem i) sp (Z.to_nat n))
      else inst_mem i.
Proof.
  unfold uint_range. intros Hn. unfold env_memmove_native.
  destruct (to_native_spec os i d n) as (q & i1 & E1 & Hm1 & Hq); [lia|].
  destruct (to_native_spec os i1 sp n) as (q' & i2 & E2 & Hm2 & Hq'); [lia|].
  rewrite stm_bind_eq, E1, stm_bind_eq, E2.
  destruct (decide (n = 0)) as [->|Hn0].
  { rewrite (decide_False (P := 0 < 0 /\ _)) by lia.
    rewrite (decide_True (P := 0 = 0 \/ _)) by (by left). exists i2. split; [|congruence]. by destruct q, q'. }
  destruct (decide (0 < n /\ in_mem (inst_mem i) d n /\ in_mem (inst_mem i) sp n))
    as [(_ & Hd & Hs)|Hno].
  - rewrite to_native_in in E1 by (done || lia). simplify_eq.
    rewrite to_native_in in E2 by (done || lia). simplify_eq.
    rewrite stm_bind_eq, decide_True by done.
    rewrite (lin_update_ok _ _ _ _ (mem_MemMove_ok _ _ _ _ Hd Hs)).
    rewrite decide_True by tauto. eexists. split; [done|]. apply inst_mem_set.
  - exists i2. split; [|congruence].
    rewrite (decide_False (P := n = 0 \/ _))
      by (intros [?|?]; [done|]; apply Hno; split; [lia|done]).
    destruct q as [a|]; [|by rewrite decide_True by done].
    destruct q' as [b|]; [|by rewrite decide_True by done].
    destruct Hno. rewrite Hm1 in Hq'.
    destruct (Hq ltac:(lia) a eq_refl), (Hq' ltac:(lia) b eq_refl). split_and!; [lia|done..].
Qed.
End specs.

(** ** What a guest can do through the table *)

(** C arguments within their machine ranges: pointers are [uint32_t]. *)
Definition import_range (c : import) : Prop :=
  match c with
  | cc_get_function p n => uint_range p /\ int_range n
  | cc_get_arg idx p n => int_range idx /\ uint_range p /\ int_range n
  | cc_get_state kp kn p n => uint_range kp /\ int_range kn /\ uint_range p /\ int_range n
  | cc_put_state kp kn vp vn => uint_range kp /\ int_range kn /\ uint_range vp /\ int_range vn
  | cc_return_response p n => uint_range p /\ int_range n
  | cc_log p n => uint_range p /\ int_range n
  | debug_log n => int_range n
  | env_memset d c n => uint_range d /\ int_range c /\ uint_range n
  | env_memcpy d s n => uint_range d /\ uint_range s /\ uint_range n
  | env_memmove d s n => uint_range d /\ uint_range s /\ uint_range n
  end.

(** The range of linear memory a call may write. *)
Definition writes (c : import) : Z * Z :=
  match c with
  | cc_get_function p n => (p, n)
  | cc_get_arg _ p n => (p, n)
  | env_memset d _ n => (d, n)
  | env_memcpy d _ n => (d, n)
  | env_memmove d _ n => (d, n)
  | _ => (0, 0)
  end.

Section table.
  Context `{WamrInst} `{!WamrInstLaws}.
  Implicit Types (s : chaincode_session_ctx) (i : inst).

(** The calls the functions carry out without a fault. *)
Definition call_safe s i (c : import) : Prop :=
  match c with
  | cc_get_function p n => 0 < n -> in_mem (inst_mem i) p n -> str_ok (sc_args s) (n - 1)
  | cc_get_arg idx p n => 0 < n -> in_mem (inst_mem i) p n -> str_ok (arg_of s idx) (n - 1)
  | cc_return_response p n => 0 <= n
  | _ => True
  end.

#[export] Instance call_safe_dec s i c : Decision (call_safe s i c).
Proof. destruct c; simpl; apply _. Defined.

(** The session after a call: the functions that only read leave it alone. *)
Definition call_session s i (c : import) : chaincode_session_ctx :=
  match c with
  | cc_get_state kp kn p n =>
      if decide (0 < n /\ in_mem (inst_mem i) p n)
      then ask_get (guest_bytes (inst_mem i) kp kn 63) p n s else s
  | cc_put_state kp kn vp vn =>
      ask_put (guest_bytes (inst_mem i) kp kn 63) (guest_bytes (inst_mem i) vp vn 255) s
  | cc_return_response p n => respond (guest_bytes (inst_mem i) p n 255) s
  | _ => s
  end.

(** What a call returns. *)
Definition call_result s i (c : import) : Z :=
  let m := inst_mem i in
  match c with
  | cc_get_function p n =>
      if decide (0 < n /\ in_mem m p n) then Z.of_nat (length (arg_string (sc_args s) n)) else 0
  | cc_get_arg idx p n =>
      if decide (0 < n /\ in_mem m p n) then Z.of_nat (length (arg_string (arg_of s idx) n)) else 0
  | cc_get_state _ kn p n => if decide (0 < n /\ in_mem m p n) then Z.min kn 63 else 0
  | cc_put_state _ _ _ _ => -1
  | cc_return_response _ n => Z.min n 255
  | cc_log p n => if decide (0 < n /\ in_mem m p n) then Z.min n 127 else 0
  | debug_log _ => 0
  | env_memset d _ n => if decide (n = 0 \/ in_mem m d n) then d else 0
  | env_memcpy d sp n | env_memmove d sp n =>
      if decide (n = 0 \/ in_mem m d n /\ in_mem m sp n) then d else 0
  end.

(** The linear memory after a call. *)
Definition call_mem s i (c : import) : linmem :=
  let m := inst_mem i in
  match c with
  | cc_get_function p n =>
      if decide (0 < n /\ in_mem m p n)
      then lm_write m p (pad (Z.to_nat n) (arg_string (sc_args s) n)) else m
  | cc_get_arg idx p n =>
      if decide (0 < n /\ in_mem m p n)
      then lm_write m p (pad (Z.to_nat n) (arg_string (arg_of s idx) n)) else m
  | env_memset d x n =>
      if decide (0 < n /\ in_mem m d n)
      then lm_write m d (replicate (Z.to_nat n) (byte_of_Z x)) else m
  | env_memcpy d sp n | env_memmove d sp n =>
      if decide (0 < n /\ in_mem m d n /\ in_mem m sp n)
      then lm_write m d (lm_read m sp (Z.to_nat n)) else m
  | _ => m
  end.

Lemma native_call_spec s i c :
  session_wf s -> import_range c -> call_safe s i c ->
  exists i', native_call c (Host (Some s) (Some i))
      = Done (call_result s i c, Host (Some (call_session s i c)) (Some i')) /\
    inst_mem i' = call_mem s i c.
Proof.
  intros Hwf Hr Hs. destruct c as [p n|idx p n|kp kn p n|kp kn vp vn|p n|p n|st|d x n|d sp n|d sp n];
    cbn [native_call call_session call_mem call_result import_range call_safe] in *.
  - destruct (cc_get_function_native_spec s i p n) as (i' & -> & Hm); [tauto..|].
    exists i'. split; [by case_decide|done].
  - destruct (cc_get_arg_native_spec s i idx p n) as (i' & -> & Hm); [tauto..|].
    exists i'. split; [by case_decide|done].
  - destruct (cc_get_state_native_spec s i kp kn p n) as (i' & Hm & ->); [tauto..|].
    case_decide; eauto.
  - destruct (cc_put_state_native_spec s i kp kn vp vn) as (i' & Hm & ->); [tauto..|].
    eauto.
  - destruct (cc_return_response_native_spec s i p n) as (i' & Hm & ->); [tauto..|].
    rewrite decide_True by done. eauto.
  - destruct (cc_log_native_spec (Some s) i p n) as (i' & Hm & ->); [tauto|]. eauto.
  - by exists i.
  - destruct (env_memset_native_spec (Some s) i d x n) as (i' & -> & Hm); [tauto|]. eauto.
  - destruct (env_memmove_native_spec (Some s) i d sp n) as (i' & E & Hm); [tauto|].
    exists i'. split; [exact E|done].
  - destruct (env_memmove_native_spec (Some s) i d sp n) as (i' & E & Hm); [tauto|]. eauto.
Qed.

Lemma native_call_fault s i c :
  session_wf s -> import_range c -> ~ call_safe s i c ->
  native_call c (Host (Some s) (Some i)) = Fault OutOfBounds.
Proof.
  intros Hwf Hr Hs. destruct c as [p n|idx p n|kp kn p n|kp kn vp vn|p n|p n|st|d x n|d sp n|d sp n];
    cbn [native_call import_range call_safe] in *; try done.
  - destruct (decide (0 < n /\ in_mem (inst_mem i) p n)) as [[Hn Hin]|Hno]; [|tauto].
    assert (Hf : ~ str_ok (sc_args s) (n - 1)) by tauto.
    destruct Hr as [_ Hr]. unfold int_range in Hr.
    unfold cc_get_function_native. rewrite stm_bind_eq.
    cbn [wasm_runtime_get_module_inst st_gets h_inst]. destruct (decide (n <= 0)); [lia|].
    rewrite u32_small by lia. rewrite stm_bind_eq. unfold validate_app_addr. cbn [h_inst h_sess].
    rewrite validate_in by done. cbn [fst snd negb].
    rewrite stm_bind_eq. unfold addr_app_to_native. cbn [h_inst].
    rewrite (native_valid _ _ n) by done. rewrite stm_bind_eq. cbn [st_gets h_sess].
    change (Z.to_nat (argument_off 0)) with 0%nat. rewrite drop_0, (u64_small n), u64_small by lia.
    rewrite stm_bind_eq. unfold st_lift. by rewrite safe_strlen_fault.
  - destruct (decide (0 < n /\ in_mem (inst_mem i) p n)) as [[Hn Hin]|Hno]; [|tauto].
    assert (Hf : ~ str_ok (arg_of s idx) (n - 1)) by tauto.
    destruct Hr as (_ & _ & Hr). unfold int_range in Hr.
    unfold cc_get_arg_native. rewrite u32_small by lia. rewrite stm_bind_eq, to_native_in by done.
    destruct (decide (n <= 0)); [lia|]. rewrite stm_bind_eq. cbn [st_gets h_sess].
    fold (arg_of s idx). rewrite (u64_small n), u64_small by lia.
    rewrite stm_bind_eq. unfold st_lift. by rewrite safe_strlen_fault.
  - destruct (cc_return_response_native_spec s i p n) as (i' & Hm & ->); [tauto..|].
    by rewrite decide_False.
Qed.

(** The length of the buffer a GET is to be delivered to is a C [int]. *)
Definition get_len_range (c : import) : Prop :=
  match c with cc_get_state _ _ _ n => n < 2 ^ 31 | _ => True end.

Lemma import_get_len c : import_range c -> get_len_range c.
Proof. destruct c; simpl; try done. unfold int_range. lia. Qed.

Lemma call_session_wf s i c :
  session_wf s -> get_len_range c -> session_wf (call_session s i c).
Proof.
  intros [] Hc. destruct c as [p n|idx p n|kp kn p n|kp kn vp vn|p n|p n|st|d x n|d sp n|d sp n];
    cbn [call_session]; try by split.
  - case_decide as Hd; [|by split]. pose proof (length_guest_bytes (inst_mem i) kp kn 63).
    cbn in Hc. split; cbn; rewrite ?length_pad; try done; [lia|by auto|lia].
  - pose proof (length_guest_bytes (inst_mem i) kp kn 63).
    pose proof (length_guest_bytes (inst_mem i) vp vn 255).
    split; cbn; rewrite ?length_pad; try done; [lia|lia|by auto].
  - pose proof (length_guest_bytes (inst_mem i) p n 255).
    split; cbn; rewrite ?length_pad; try done. lia.
Qed.

Lemma length_pad_arg_string arg n :
  0 < n -> Z.of_nat (length (pad (Z.to_nat n) (arg_string arg n))) = n.
Proof.
  intros Hn. pose proof (length_arg_string arg n Hn). rewrite length_pad; lia.
Qed.

Lemma call_mem_frame s i c a :
  ~ ((writes c).1 <= a < (writes c).1 + (writes c).2) ->
  lm_byte (call_mem s i c) a = lm_byte (inst_mem i) a.
Proof.
  intros Ha. destruct c as [p n|idx p n|kp kn p n|kp kn vp vn|p n|p n|st|d x n|d sp n|d sp n];
    cbn [call_mem writes fst snd] in *; try done;
    case_decide as Hd; try done; rewrite lm_byte_write;
    rewrite ?length_pad_arg_string, ?length_replicate, ?length_lm_read by lia;
    by rewrite decide_False by lia.
Qed.

(** A buffer that is not wholly in the memory is not written at all. *)
Lemma call_mem_invalid s i c :
  ~ in_mem (inst_mem i) (writes c).1 (writes c).2 -> call_mem s i c = inst_mem i.
Proof. intros Hn. destruct c; cbn in Hn |- *; try done; by rewrite decide_False by tauto. Qed.

Lemma call_mem_size s i c : lm_size (call_mem s i c) = lm_size (inst_mem i).
Proof. destruct c; cbn [call_mem]; try done; by case_decide. Qed.
End table.

(** ** The native functions as the host of a guest *)

Section host.
  Context `{WamrInst} `{!WamrInstLaws}.

#[export] Instance NativeHost : HostEnv host := {|
  h_mem h := match h_inst h with Some i => inst_mem i | None => LinMem 0 ∅ end;
  h_set_mem m h := Host (h_sess h) (set_inst_mem m <$> h_inst h);
  h_view h := match h_sess h with Some s => session_view s | None => HView [] None None end;
  h_call := native_call;
|}.

(** The states a guest runs in: a session and an instance are there. *)
Definition host_ok (h : host) : Prop :=
  exists s i, h = Host (Some s) (Some i) /\ session_wf s.

Lemma guest_bytes_in m p n cap :
  0 <= n -> 0 <= cap -> in_mem m p n ->
  guest_bytes m p n cap = take (Z.to_nat cap) (lm_read m p (Z.to_nat n)).
Proof.
  intros Hn Hc Hin. unfold guest_bytes. destruct (decide (0 < n /\ in_mem m p n)) as [_|Hno].
  - destruct (decide (n <= cap)).
    + rewrite Z.min_l by lia. rewrite take_ge; [done|]. rewrite length_lm_read. lia.
    + rewrite Z.min_r by lia. rewrite lm_read_take by lia. done.
  - replace n with 0 by (destruct (decide (0 < n)); [tauto|lia]). unfold lm_read. simpl. by rewrite take_nil.
Qed.

Lemma session_arg s j :
  0 <= j < 10 -> hv_arg (session_view s) (Z.to_nat j) = cstr (argument_row (sc_args s) j).
Proof.
  intros Hj. unfold hv_arg, session_view. cbn [hv_args].
  rewrite list_lookup_fmap, lookup_seqZ_lt by lia. simpl. do 2 f_equal. lia.
Qed.

(** Within a row's size, reading from the start of the row stays in the row. *)
Lemma arg_string_row args j n :
  0 < n <= 64 ->
  arg_string (drop (Z.to_nat (argument_off j)) args) n
    = take (Z.to_nat (n - 1)) (cstr (argument_row args j)).
Proof.
  intros Hn. unfold arg_string, argument_row. rewrite cstr_take, take_take.
  f_equal. change (Z.to_nat ARG_SIZE) with 64%nat. lia.
Qed.

Lemma str_ok_row s j n :
  session_wf s -> 0 <= j < 10 -> 0 < n <= 64 ->
  str_ok (drop (Z.to_nat (argument_off j)) (sc_args s)) (n - 1).
Proof.
  intros [Hl _ _ _ _ _] Hj Hn. left. rewrite length_drop, Hl.
  unfold argument_off, ARG_SIZE. lia.
Qed.

Lemma session_view_get k p n s :
  session_view (ask_get k p n s) = hv_ask (GetState (cstr k) p n) (session_view s).
Proof.
  unfold session_view, hv_ask. cbn [sc_args ask_get set_wasm_out set_pending_type set_key].
  f_equal. unfold session_request. simpl. by rewrite cstr_pad_any.
Qed.

Lemma session_view_put k v s :
  session_view (ask_put k v s) = hv_ask (PutState (cstr k) (cstr v)) (session_view s).
Proof.
  unfold session_view, hv_ask, session_request. simpl. by rewrite !cstr_pad_any.
Qed.

Lemma session_view_respond msg s :
  session_view (respond msg s) = hv_respond (cstr msg) (session_view s).
Proof. unfold session_view, hv_respond, session_request. simpl. by rewrite cstr_pad_any. Qed.

(** Each promise of [HostLaws]. *)

Lemma native_get_function h p n :
  host_ok h -> 0 < n <= 64 -> in_mem (h_mem h) p n ->
  let f := take (Z.to_nat (n - 1)) (hv_arg (h_view h) 0) in
  delivers host_ok (cc_get_function p n) h (Z.of_nat (length f))
    (lm_write (h_mem h) p (pad (Z.to_nat n) f)) (h_view h).
Proof.
  intros (s & i & -> & Hwf) Hn Hin f. cbn [h_mem h_view NativeHost h_inst h_sess] in *.
  destruct (cc_get_function_native_spec s i p n) as (i' & E & Hm).
  { unfold int_range. lia. }
  { intros _ _. rewrite <- (drop_0 (sc_args s)). by apply (str_ok_row s 0). }
  rewrite decide_True in E by (split; [lia|done]).
  rewrite decide_True in Hm by (split; [lia|done]).
  pose proof (arg_string_row (sc_args s) 0 n Hn) as Ha. rewrite drop_0 in Ha.
  rewrite <- (session_arg s 0) in Ha by lia. change (Z.to_nat 0) with 0%nat in Ha.
  fold f in Ha. rewrite Ha in E, Hm.
  eexists. split; [exact E|]. split; [by eexists _, _|done].
Qed.

Lemma native_get_arg h j p n :
  host_ok h -> 0 <= j < 9 -> 0 < n <= 64 -> in_mem (h_mem h) p n ->
  let a := take (Z.to_nat (n - 1)) (hv_arg (h_view h) (Z.to_nat (j + 1))) in
  delivers host_ok (cc_get_arg j p n) h (Z.of_nat (length a))
    (lm_write (h_mem h) p (pad (Z.to_nat n) a)) (h_view h).
Proof.
  intros (s & i & -> & Hwf) Hj Hn Hin a. cbn [h_mem h_view NativeHost h_inst h_sess] in *.
  assert (Ha : arg_of s j = drop (Z.to_nat (argument_off (j + 1))) (sc_args s)).
  { unfold arg_of. rewrite decide_True; [done|]. unfold ARGS_NUMBER. lia. }
  destruct (cc_get_arg_native_spec s i j p n) as (i' & E & Hm).
  { unfold int_range. lia. }
  { intros _ _. rewrite Ha. apply str_ok_row; [done|lia|lia]. }
  rewrite decide_True in E by (split; [lia|done]).
  rewrite decide_True in Hm by (split; [lia|done]).
  rewrite Ha, arg_string_row, <- session_arg in E, Hm by lia. fold a in E, Hm.
  eexists. split; [exact E|]. split; [by eexists _, _|done].
Qed.

Lemma native_get_state h kp kn p n :
  host_ok h -> 0 <= kn < 2 ^ 31 -> 0 < n < 2 ^ 31 ->
  in_mem (h_mem h) kp kn -> in_mem (h_mem h) p n ->
  let k := take 63 (lm_read (h_mem h) kp (Z.to_nat kn)) in
  delivers host_ok (cc_get_state kp kn p n) h (Z.of_nat (length k))
    (h_mem h) (hv_ask (GetState (cstr k) p n) (h_view h)).
Proof.
  intros (s & i & -> & Hwf) Hkn Hn Hk Hin k.
  cbn [h_mem h_view NativeHost h_inst h_sess] in *.
  destruct (cc_get_state_native_spec s i kp kn p n) as (i' & Hm & E);
    [done|unfold int_range; lia..|].
  rewrite decide_True in E by (split; [lia|done]).
  rewrite guest_bytes_in in E by (done || lia). fold k in E.
  assert (Hlen : Z.min kn 63 = Z.of_nat (length k)).
  { unfold k. rewrite length_take, length_lm_read. lia. }
  rewrite Hlen in E. eexists. split; [exact E|]. split; [|split; [done|apply session_view_get]].
  eexists _, _. split; [done|]. pose proof (call_session_wf s i (cc_get_state kp kn p n) Hwf ltac:(simpl; done || lia)) as Hw.
  cbn [call_session] in Hw.
  by rewrite decide_True, guest_bytes_in in Hw by (done || lia || (split; [lia|done])).
Qed.

Lemma native_put_state h kp kn vp vn :
  host_ok h -> 0 <= kn < 2 ^ 31 -> 0 <= vn < 2 ^ 31 ->
  in_mem (h_mem h) kp kn -> in_mem (h_mem h) vp vn ->
  let k := take 63 (lm_read (h_mem h) kp (Z.to_nat kn)) in
  let v := take 255 (lm_read (h_mem h) vp (Z.to_nat vn)) in
  delivers host_ok (cc_put_state kp kn vp vn) h (-1)
    (h_mem h) (hv_ask (PutState (cstr k) (cstr v)) (h_view h)).
Proof.
  intros (s & i & -> & Hwf) Hkn Hvn Hk Hv k v.
  cbn [h_mem h_view NativeHost h_inst h_sess] in *.
  destruct (cc_put_state_native_spec s i kp kn vp vn) as (i' & Hm & E);
    [done|unfold int_range; lia..|].
  pose proof (call_session_wf s i (cc_put_state kp kn vp vn) Hwf ltac:(simpl; done || lia)) as Hw. cbn [call_session] in Hw.
  rewrite !guest_bytes_in in E, Hw by (done || lia). fold k v in E, Hw.
  eexists. split; [exact E|]. split; [|split; [done|apply session_view_put]]. by eexists _, _.
Qed.

Lemma native_return_response h p n :
  host_ok h -> 0 <= n < 2 ^ 31 -> in_mem (h_mem h) p n ->
  let msg := take 255 (lm_read (h_mem h) p (Z.to_nat n)) in
  delivers host_ok (cc_return_response p n) h (Z.of_nat (length msg))
    (h_mem h) (hv_respond (cstr msg) (h_view h)).
Proof.
  intros (s & i & -> & Hwf) Hn Hin msg. cbn [h_mem h_view NativeHost h_inst h_sess] in *.
  destruct (cc_return_response_native_spec s i p n) as (i' & Hm & E);
    [done|unfold int_range; lia|].
  pose proof (call_session_wf s i (cc_return_response p n) Hwf ltac:(simpl; done || lia)) as Hw. cbn [call_session] in Hw.
  rewrite decide_True in E by lia. rewrite guest_bytes_in in E, Hw by (done || lia).
  fold msg in E, Hw.
  assert (Hlen : Z.min n 255 = Z.of_nat (length msg)).
  { unfold msg. rewrite length_take, length_lm_read. lia. }
  rewrite Hlen in E.
  eexists. split; [exact E|]. split; [|split; [done|apply session_view_respond]]. by eexists _, _.
Qed.

#[export] Instance NativeHostLaws : HostLaws host host_ok.
Proof.
  split; [| | | |exact native_get_function|exact native_get_arg|exact native_get_state
    |exact native_put_state|exact native_return_response].
  - intros m h (s & i & -> & Hwf). simpl. apply inst_mem_set.
  - done.
  - intros m h (s & i & -> & Hwf). by exists s, (set_inst_mem m i).
  - intros h j (s & i & -> & Hwf). cbn [h_view NativeHost h_sess]. unfold hv_arg.
    destruct (hv_args (session_view s) !! j) as [a|] eqn:Ea; [|constructor].
    unfold session_view in Ea. cbn [hv_args] in Ea.
    apply list_lookup_fmap_Some in Ea as (k & -> & _). apply cstr_no_nul.
Qed.
End host.
