(* ===== verification/Chaincode.v ===== *)
(** * The chaincode

    [coffee_chaincode_wasm.c], the smart contract that runs inside of the
    trusted application: a resumable state machine over static variables in
    the linear memory of its instance.  Every C function is a [guest] program
    (Abi.v) that loads and stores those variables and calls its imports.

    Where the linker puts a static variable or a string literal is the
    parameter [layout]; [layout_ok] states what a linker guarantees. *)
From Stdlib Require Import ZArith Lia Strings.Byte Strings.String.
From stdpp Require Import base tactics option list list_numbers gmap strings.
From S2P Require Import Prelude Mem Abi.

Definition KEY_MAX : Z := 64.
Definition ARG_MAX : Z := 64.
Definition VAL_MAX : Z := 256.

(** [enum Op] *)
Definition OP_NONE : Z := 0.
Definition OP_CREATE : Z := 1.
Definition OP_ADD : Z := 2.
Definition OP_QUERY : Z := 3.

(** ** The objects of the program in linear memory *)

Inductive literal :=
| L_create | L_add | L_query | L_EXIST | L_OK | L_EMPTY | L_NOTFOUND | L_ERROR.

Inductive object :=
| fsm_state | current_op | g_should_exit
| g_function | g_arg0 | g_arg1 | g_person | g_cur_val | g_tmp
| lit (l : literal).

#[export] Instance literal_eq_dec : EqDecision literal.
Proof. intros x y. unfold Decision. decide equality. Defined.
#[export] Instance object_eq_dec : EqDecision object.
Proof. intros x y. unfold Decision. decide equality. apply literal_eq_dec. Defined.

Definition literal_text (l : literal) : list byte :=
  match l with
  | L_create => bytes "create"
  | L_add => bytes "add"
  | L_query => bytes "query"
  | L_EXIST => bytes "EXIST"
  | L_OK => bytes "OK"
  | L_EMPTY => bytes "EMPTY"
  | L_NOTFOUND => bytes "NOTFOUND"
  | L_ERROR => bytes "ERROR"
  end.

(** Sizes in bytes; [int] and [enum Op] take four in wasm32. *)
Definition object_size (x : object) : Z :=
  match x with
  | fsm_state | current_op | g_should_exit => 4
  | g_function => KEY_MAX
  | g_arg0 => ARG_MAX
  | g_arg1 => ARG_MAX
  | g_person => KEY_MAX
  | g_cur_val => VAL_MAX
  | g_tmp => VAL_MAX
  | lit l => Z.of_nat (length (literal_text l)) + 1
  end.

Definition is_variable (x : object) : bool :=
  match x with lit _ => false | _ => true end.

Definition layout := object -> Z.

(** Objects lie inside of a memory of [size] bytes, not at address 0 (which
    is the null pointer), and a variable overlaps no other object. *)
Record layout_ok (L : layout) (size : Z) : Prop := {
  layout_in x : 0 < L x /\ L x + object_size x <= size;
  layout_apart x y : is_variable x = true -> x <> y ->
    L x + object_size x <= L y \/ L y + object_size y <= L x;
}.

(** ** Library substitutes

    A loop over an array is a fixpoint over the iterations left, where the
    code bounds them, and over [fuel] where it does not; pointers are offsets
    into the linear memory. *)

Definition fuel : nat := 512.

Fixpoint s_strlen_loop (k : nat) (s n : Z) : guest Z :=
  match k with
  | O => GFuel
  | S k' => c ← load (s + n); if decide (c = x00) then mret n else s_strlen_loop k' s (n + 1)
  end.
Definition s_strlen (s : Z) : guest Z :=
  if decide (s = 0) then mret 0 else s_strlen_loop fuel s 0.

Fixpoint s_memset_loop (k : nat) (p : Z) (v : Z) (i : Z) : guest unit :=
  match k with
  | O => mret tt
  | S k' => store (p + i) (byte_of_Z v);; s_memset_loop k' p v (i + 1)
  end.
Definition s_memset (dst v n : Z) : guest unit := s_memset_loop (Z.to_nat n) dst v 0.

Fixpoint s_memcpy_loop (k : nat) (d s i : Z) : guest unit :=
  match k with
  | O => mret tt
  | S k' => c ← load (s + i); store (d + i) c;; s_memcpy_loop k' d s (i + 1)
  end.
Definition s_memcpy (dst src n : Z) : guest unit := s_memcpy_loop (Z.to_nat n) dst src 0.

Fixpoint s_streq_loop (k : nat) (a b i : Z) : guest Z :=
  match k with
  | O => GFuel
  | S k' =>
      ca ← load (a + i); cb ← load (b + i);
      if decide (ca <> cb) then mret 0
      else if decide (ca = x00) then mret 1
      else s_streq_loop k' a b (i + 1)
  end.
Definition s_streq (a b : Z) : guest Z := s_streq_loop fuel a b 0.

(** [s[i] >= '0' && s[i] <= '9'] *)
Definition is_digit (c : byte) : bool :=
  bool_decide (byte_to_Z x30 <= byte_to_Z c <= byte_to_Z x39).

(** [unsigned long] has 32 bits in wasm32: the accumulator wraps. *)
Definition atoul_acc (v : Z) (c : byte) : Z := u32 (v * 10 + (byte_to_Z c - byte_to_Z x30)).

Fixpoint s_atoul_loop (k : nat) (s i v : Z) : guest Z :=
  match k with
  | O => GFuel
  | S k' =>
      c ← load (s + i);
      if is_digit c then s_atoul_loop k' s (i + 1) (atoul_acc v c) else mret v
  end.
Definition s_atoul (s : Z) : guest Z :=
  if decide (s = 0) then mret 0 else s_atoul_loop fuel s 0 0.

(** The local [buf[32]]: the digits of [v], least significant first;
    [k] iterations of [i < sizeof(buf)] are left. *)
Fixpoint ultoa_digits (k : nat) (v : Z) : list byte :=
  match k with
  | O => []
  | S k' =>
      if decide (v = 0) then []
      else byte_of_Z (byte_to_Z x30 + v mod 10) :: ultoa_digits k' (v / 10)
  end.

(** [while (i && k < out_len-1) out[k++] = buf[--i]; out[k] = 0], [buf] being
    the digits left, the next one to write first. *)
Fixpoint s_ultoa_loop (buf : list byte) (out out_len k : Z) : guest unit :=
  match buf with
  | [] => store (out + k) x00
  | c :: buf' =>
      if decide (k < out_len - 1)
      then store (out + k) c;; s_ultoa_loop buf' out out_len (k + 1)
      else store (out + k) x00
  end.

Definition s_ultoa (v out out_len : Z) : guest unit :=
  if decide (out = 0 \/ out_len <= 0) then mret tt
  else if decide (v = 0) then
    (if decide (out_len > 0) then store out x30 else mret tt);;
    (if decide (out_len > 1) then store (out + 1) x00 else mret tt)
  else s_ultoa_loop (rev (ultoa_digits 32 v)) out out_len 0.

(** ** The state machine *)

Section chaincode.
  Context (L : layout).

(** [int] variables: four little-endian bytes. *)
Definition load_int (x : object) : guest Z :=
  b0 ← load (L x); b1 ← load (L x + 1); b2 ← load (L x + 2); b3 ← load (L x + 3);
  mret (i32 (byte_to_Z b0 + 2 ^ 8 * byte_to_Z b1 + 2 ^ 16 * byte_to_Z b2
             + 2 ^ 24 * byte_to_Z b3)).

Definition store_int (x : object) (v : Z) : guest unit :=
  store (L x) (byte_of_Z v);;
  store (L x + 1) (byte_of_Z (Z.shiftr v 8));;
  store (L x + 2) (byte_of_Z (Z.shiftr v 16));;
  store (L x + 3) (byte_of_Z (Z.shiftr v 24)).

Definition respond_lit (l : literal) (n : Z) : guest unit :=
  call (cc_return_response (L (lit l)) n);; mret tt.

Definition finish : guest unit := store_int fsm_state 0;; store_int current_op OP_NONE.

Definition cc_do_create_init : guest unit :=
  s_memset (L g_person) 0 KEY_MAX;;
  s_memset (L g_arg1) 0 ARG_MAX;;
  s_memset (L g_cur_val) 0 VAL_MAX;;
  arg0_len ← call (cc_get_arg 0 (L g_person) KEY_MAX);
  arg1_len ← call (cc_get_arg 1 (L g_arg1) ARG_MAX);
  n ← s_strlen (L g_person);
  get_state_result ← call (cc_get_state (L g_person) n (L g_cur_val) VAL_MAX);
  if decide (get_state_result > 0) then
    store_int fsm_state 11;; store_int g_should_exit 1
  else mret tt.

Definition cc_do_create_resume : guest unit :=
  fsm ← load_int fsm_state;
  if decide (fsm = 11) then
    c ← load (L g_cur_val);
    if decide (c <> x00) then respond_lit L_EXIST 5;; finish
    else
      n ← s_strlen (L g_person);
      m ← s_strlen (L g_arg1);
      call (cc_put_state (L g_person) n (L g_arg1) m);;
      store_int fsm_state 12
  else if decide (fsm = 12) then respond_lit L_OK 2;; finish
  else mret tt.

Definition cc_do_add_init : guest unit :=
  s_memset (L g_person) 0 KEY_MAX;;
  s_memset (L g_arg1) 0 ARG_MAX;;
  s_memset (L g_cur_val) 0 VAL_MAX;;
  call (cc_get_arg 0 (L g_person) KEY_MAX);;
  call (cc_get_arg 1 (L g_arg1) ARG_MAX);;
  n ← s_strlen (L g_person);
  call (cc_get_state (L g_person) n (L g_cur_val) VAL_MAX);;
  store_int fsm_state 21.

Definition cc_do_add_resume : guest unit :=
  fsm ← load_int fsm_state;
  if decide (fsm = 21) then
    c ← load (L g_cur_val);
    if decide (c = x00) then respond_lit L_EMPTY 5;; finish
    else
      cur ← s_atoul (L g_cur_val);
      add ← s_atoul (L g_arg1);
      let nv := u32 (cur + add) in
      s_memset (L g_tmp) 0 VAL_MAX;;
      s_ultoa nv (L g_tmp) VAL_MAX;;
      n ← s_strlen (L g_person);
      m ← s_strlen (L g_tmp);
      call (cc_put_state (L g_person) n (L g_tmp) m);;
      store_int fsm_state 22
  else if decide (fsm = 22) then respond_lit L_OK 2;; finish
  else mret tt.

Definition cc_do_query_init : guest unit :=
  s_memset (L g_person) 0 KEY_MAX;;
  s_memset (L g_cur_val) 0 VAL_MAX;;
  call (cc_get_arg 0 (L g_person) KEY_MAX);;
  n ← s_strlen (L g_person);
  call (cc_get_state (L g_person) n (L g_cur_val) VAL_MAX);;
  store_int fsm_state 31.

Definition cc_do_query_resume : guest unit :=
  fsm ← load_int fsm_state;
  if decide (fsm = 31) then
    c ← load (L g_cur_val);
    (if decide (c = x00) then respond_lit L_NOTFOUND 8
     else n ← s_strlen (L g_cur_val);
          call (cc_return_response (L g_cur_val) n);; mret tt);;
    finish
  else mret tt.

(** ** The exported functions *)

Definition step_init : guest unit := mret tt.

(** The part after the first dispatch: the operation under way is resumed. *)
Definition step_resume_op : guest unit :=
  op ← load_int current_op;
  if decide (op = OP_CREATE) then cc_do_create_resume
  else if decide (op = OP_ADD) then cc_do_add_resume
  else if decide (op = OP_QUERY) then cc_do_query_resume
  else respond_lit L_ERROR 5.

Definition step_resume : guest unit :=
  store_int g_should_exit 0;;
  op ← load_int current_op;
  if decide (op = OP_NONE) then
    f ← load (L g_function);
    (if decide (f = x00) then call (cc_get_function (L g_function) KEY_MAX);; mret tt
     else mret tt);;
    f ← load (L g_function);
    if decide (f <> x00) then
      e ← s_streq (L g_function) (L (lit L_create));
      if decide (e <> 0) then store_int current_op OP_CREATE;; cc_do_create_init else
      e ← s_streq (L g_function) (L (lit L_add));
      if decide (e <> 0) then store_int current_op OP_ADD;; cc_do_add_init else
      e ← s_streq (L g_function) (L (lit L_query));
      if decide (e <> 0) then store_int current_op OP_QUERY;; cc_do_query_init else
      respond_lit L_ERROR 5
    else step_resume_op
  else step_resume_op.

Definition main : guest Z := step_init;; mret 0.
End chaincode.
