(* ===== verification/ChaincodeLogic.v ===== *)
(** * Reasoning about the chaincode's memory

    The linear memory as the C code sees it: a store [sigma] that gives every
    static variable and literal its bytes.  [at_state s sigma v] says that the
    host state [s] has this store and the view [v]; the rules below give each
    load, store, library function and import of the chaincode its effect on
    the store, so that the programs are verified without addresses. *)
From Stdlib Require Import ZArith Lia Strings.Byte Strings.String.
From stdpp Require Import base tactics option list list_numbers gmap strings.
From S2P Require Import Prelude Mem Abi Chaincode.

Definition cstore := object -> list byte.

Definition upd (x : object) (bs : list byte) (sigma : cstore) : cstore :=
  fun y => if decide (y = x) then bs else sigma y.

Lemma upd_same x bs sigma : upd x bs sigma x = bs.
Proof. unfold upd. by rewrite decide_True. Qed.

Lemma upd_other x y bs sigma : y <> x -> upd x bs sigma y = sigma y.
Proof. intros. unfold upd. by rewrite decide_False. Qed.

Create Rewrite HintDb cstore.
#[export] Hint Rewrite upd_same : cstore.
#[export] Hint Rewrite upd_other using discriminate : cstore.

(** ** Integers in memory *)

Definition int_bytes (v : Z) : list byte :=
  [byte_of_Z v; byte_of_Z (Z.shiftr v 8); byte_of_Z (Z.shiftr v 16); byte_of_Z (Z.shiftr v 24)].

Lemma byte_to_of_Z_mod z : byte_to_Z (byte_of_Z z) = z mod 256.
Proof.
  assert (byte_of_Z z = byte_of_Z (z mod 256)) as ->.
  { unfold byte_of_Z. by rewrite Z.mod_mod by lia. }
  apply byte_to_of_Z. apply Z.mod_pos_bound. lia.
Qed.

Definition int_value (bs : list byte) : Z :=
  match bs with
  | [b0; b1; b2; b3] =>
      i32 (byte_to_Z b0 + 2 ^ 8 * byte_to_Z b1 + 2 ^ 16 * byte_to_Z b2 + 2 ^ 24 * byte_to_Z b3)
  | _ => 0
  end.

Lemma int_bytes_value v : int_range v -> int_value (int_bytes v) = v.
Proof.
  intros Hv. unfold int_value, int_bytes. rewrite !byte_to_of_Z_mod, !Z.shiftr_div_pow2 by lia.
  assert (E : v mod 256 + 2 ^ 8 * (v / 2 ^ 8 mod 256) + 2 ^ 16 * (v / 2 ^ 16 mod 256)
    + 2 ^ 24 * (v / 2 ^ 24 mod 256) = v mod 2 ^ 32).
  { assert (v / 2 ^ 16 = v / 2 ^ 8 / 256) as -> by (rewrite Z.div_div by lia; done).
    assert (v / 2 ^ 24 = v / 2 ^ 8 / 256 / 256) as -> by (rewrite !Z.div_div by lia; done).
    change (2 ^ 8) with 256. change (2 ^ 16) with 65536. change (2 ^ 24) with 16777216.
    change (2 ^ 32) with 4294967296. Z.to_euclidean_division_equations. lia. }
  rewrite E. unfold i32, int_range in *. rewrite Z.mod_mod by lia.
  case_decide; Z.to_euclidean_division_equations; lia.
Qed.

(** ** Numbers in decimal *)

(** The value [s_atoul] computes, and the digits [s_ultoa] writes. *)
Fixpoint atoul_from (v : Z) (s : list byte) : Z :=
  match s with
  | [] => v
  | c :: s' => if is_digit c then atoul_from (atoul_acc v c) s' else v
  end.
Definition atoul (s : list byte) : Z := atoul_from 0 s.

(** The digits at the front of a string, and their positional value. *)
Fixpoint digits_value (s : list byte) : list Z :=
  match s with
  | [] => []
  | c :: s' => if is_digit c then (byte_to_Z c - byte_to_Z x30) :: digits_value s' else []
  end.

Definition positional_from (v : Z) (ds : list Z) : Z := foldl (fun v d => v * 10 + d) v ds.
Definition positional (ds : list Z) : Z := positional_from 0 ds.

Lemma atoul_from_positional v s :
  atoul_from (v mod 2 ^ 32) s = positional_from v (digits_value s) mod 2 ^ 32.
Proof.
  revert v. induction s as [|c s IH]; intros v; simpl; [done|].
  destruct (is_digit c); [|done]. simpl. rewrite <- IH. f_equal. unfold atoul_acc, u32.
  rewrite Z.add_mod, Z.mul_mod_idemp_l, <- Z.add_mod by lia. done.
Qed.

Lemma atoul_positional s : atoul s = positional (digits_value s) mod 2 ^ 32.
Proof. apply (atoul_from_positional 0). Qed.

Definition decimal (v : Z) : list byte :=
  if decide (v = 0) then [x30] else rev (ultoa_digits 32 v).

Lemma digit_byte d : 0 <= d < 10 -> byte_to_Z (byte_of_Z (byte_to_Z x30 + d)) = byte_to_Z x30 + d.
Proof. intros. apply byte_to_of_Z. change (byte_to_Z x30) with 48. lia. Qed.

Lemma is_digit_digit d : 0 <= d < 10 -> is_digit (byte_of_Z (byte_to_Z x30 + d)) = true.
Proof.
  intros. unfold is_digit. rewrite digit_byte by done. apply bool_decide_eq_true_2.
  change (byte_to_Z x30) with 48. change (byte_to_Z x39) with 57. lia.
Qed.

Lemma atoul_from_snoc v s c :
  Forall (fun c => is_digit c = true) s -> is_digit c = true ->
  atoul_from v (s ++ [c]) = atoul_acc (atoul_from v s) c.
Proof.
  intros Hs Hc. revert v. induction Hs as [|c' s Hc' Hs IH]; intros v; simpl.
  - by rewrite Hc.
  - by rewrite Hc'.
Qed.

Lemma ultoa_digits_digits k v :
  0 <= v -> Forall (fun c => is_digit c = true) (ultoa_digits k v).
Proof.
  revert v. induction k as [|k IH]; intros v Hv; simpl; [constructor|].
  case_decide; constructor.
  - apply is_digit_digit. apply Z.mod_pos_bound. lia.
  - apply IH. apply Z.div_pos; lia.
Qed.

Lemma atoul_rev_digits k v :
  0 <= v < 2 ^ 32 -> v < 10 ^ Z.of_nat k -> atoul_from 0 (rev (ultoa_digits k v)) = v.
Proof.
  revert v. induction k as [|k IH]; intros v Hv Hk; simpl.
  - change (10 ^ Z.of_nat 0) with 1 in Hk. lia.
  - case_decide as Hz; [by subst|]. simpl.
    assert (0 <= v / 10 < 2 ^ 32) by (Z.to_euclidean_division_equations; lia).
    rewrite atoul_from_snoc.
    + rewrite IH; [|done|].
      * unfold atoul_acc. rewrite digit_byte by (apply Z.mod_pos_bound; lia).
        rewrite u32_small; Z.to_euclidean_division_equations; lia.
      * rewrite Nat2Z.inj_succ, Z.pow_succ_r in Hk by lia. apply Z.div_lt_upper_bound; lia.
    + apply Forall_rev, ultoa_digits_digits. lia.
    + apply is_digit_digit. apply Z.mod_pos_bound. lia.
Qed.

Lemma decimal_atoul v : 0 <= v < 2 ^ 32 -> atoul (decimal v) = v.
Proof.
  intros Hv. unfold atoul, decimal. case_decide; [by subst|].
  apply atoul_rev_digits; [done|]. change (10 ^ Z.of_nat 32) with (10 ^ 32). lia.
Qed.

Lemma atoul_from_app_stop v s c s' :
  is_digit c = false -> atoul_from v (s ++ c :: s') = atoul_from v s.
Proof.
  intros Hc. revert v. induction s as [|d s IH]; intros v; simpl; [by rewrite Hc|].
  by destruct (is_digit d).
Qed.

Lemma atoul_pad n s : atoul (pad n s) = atoul s.
Proof.
  unfold pad, atoul. destruct (n - length s)%nat; simpl; [by rewrite app_nil_r|].
  by apply atoul_from_app_stop.
Qed.

Lemma ultoa_digits_length k v : (length (ultoa_digits k v) <= k)%nat.
Proof.
  revert v. induction k as [|k IH]; intros v; simpl; [done|].
  case_decide; simpl; [lia|]. pose proof (IH (v / 10)). lia.
Qed.

Lemma ultoa_digits_nonzero k v :
  v <> 0 -> ultoa_digits (S k) v
    = byte_of_Z (byte_to_Z x30 + v mod 10) :: ultoa_digits k (v / 10).
Proof. intros. simpl. by rewrite decide_False. Qed.

Lemma decimal_length v : (1 <= length (decimal v) <= 32)%nat.
Proof.
  unfold decimal. case_decide; [simpl; lia|]. rewrite length_rev.
  pose proof (ultoa_digits_length 32 v). split; [|done].
  rewrite ultoa_digits_nonzero by done. cbn [length]. lia.
Qed.

Lemma decimal_no_nul v : 0 <= v -> no_nul (decimal v).
Proof.
  intros Hv. unfold decimal, no_nul. case_decide; [by apply Forall_singleton|].
  apply Forall_rev. apply (Forall_impl (fun c => is_digit c = true)).
  - by apply ultoa_digits_digits.
  - intros c Hc ->. done.
Qed.

(** ** The rules *)

Section logic.
  Context {St : Type} `{!HostEnv St} (ok : St -> Prop) `{!HostLaws St ok} (L : layout).
  Implicit Types (s : St) (sigma : cstore) (v : hview) (x y : object).

Abbreviation size x := (Z.to_nat (object_size x)).

Record at_state s sigma v : Prop := {
  at_ok : ok s;
  at_layout : layout_ok L (lm_size (h_mem s));
  at_mem x : lm_read (h_mem s) (L x) (size x) = sigma x;
  at_view : h_view s = v;
}.

Lemma object_size_pos x : 0 < object_size x.
Proof. destruct x as [| | | | | | | | |l]; try done. simpl. lia. Qed.

Lemma at_length s sigma v x : at_state s sigma v -> length (sigma x) = size x.
Proof. intros Hs. rewrite <- (at_mem _ _ _ Hs). apply length_lm_read. Qed.

Lemma at_in_mem s sigma v x off n :
  at_state s sigma v -> 0 <= off -> 0 <= n -> off + n <= object_size x ->
  in_mem (h_mem s) (L x + off) n.
Proof.
  intros Hs ? ? ?. destruct (layout_in _ _ (at_layout _ _ _ Hs) x). unfold in_mem. lia.
Qed.

Lemma at_in_mem_0 s sigma v x n :
  at_state s sigma v -> 0 <= n <= object_size x -> in_mem (h_mem s) (L x) n.
Proof. intros. rewrite <- (Z.add_0_r (L x)). eapply at_in_mem; eauto; lia. Qed.

Lemma at_addr s sigma v x : at_state s sigma v -> L x <> 0.
Proof. intros Hs. destruct (layout_in _ _ (at_layout _ _ _ Hs) x). lia. Qed.

(** Overwriting a part of a variable. *)
Lemma at_write s sigma v x off bs s' v' :
  at_state s sigma v -> is_variable x = true -> (off + length bs <= size x)%nat ->
  ok s' -> h_mem s' = lm_write (h_mem s) (L x + Z.of_nat off) bs -> h_view s' = v' ->
  at_state s' (upd x (splice off bs (sigma x)) sigma) v'.
Proof.
  intros Hs Hv Hoff Hok Hm Hview. split; try done.
  - rewrite Hm. apply (at_layout _ _ _ Hs).
  - intros y. rewrite Hm. unfold upd. case_decide as Hy; [subst y|].
    + rewrite lm_read_write_in by done. by rewrite (at_mem _ _ _ Hs).
    + rewrite lm_read_write_ne; [apply (at_mem _ _ _ Hs)|].
      destruct (layout_apart _ _ (at_layout _ _ _ Hs) x y) as [?|?]; [done|congruence| |];
        pose proof (object_size_pos x); pose proof (object_size_pos y); lia.
Qed.

Lemma at_read_byte s sigma v x off c :
  at_state s sigma v -> 0 <= off < object_size x -> sigma x !! Z.to_nat off = Some c ->
  lm_byte (h_mem s) (L x + off) = c.
Proof.
  intros Hs Hoff Hc. rewrite <- (at_mem _ _ _ Hs), lookup_lm_read in Hc.
  rewrite decide_True in Hc by lia. rewrite Z2Nat.id in Hc by lia. congruence.
Qed.

(** A store is determined up to the values of its objects. *)
Lemma at_state_ext s sigma sigma' v :
  at_state s sigma v -> (forall x, sigma x = sigma' x) -> at_state s sigma' v.
Proof.
  intros [] E. split; try done. intros x. by rewrite <- E.
Qed.

Lemma wp_load_at s sigma v x off c (Q : byte -> St -> Prop) :
  at_state s sigma v -> 0 <= off < object_size x -> sigma x !! Z.to_nat off = Some c ->
  Q c s -> wp (load (L x + off)) s Q.
Proof.
  intros Hs Hoff Hc HQ. apply wp_load; [eapply at_in_mem; eauto; lia|].
  by erewrite at_read_byte.
Qed.

Lemma wp_store_at s sigma v x off b (Q : unit -> St -> Prop) :
  at_state s sigma v -> is_variable x = true -> 0 <= off < object_size x ->
  (forall s', at_state s' (upd x (splice (Z.to_nat off) [b] (sigma x)) sigma) v -> Q tt s') ->
  wp (store (L x + off) b) s Q.
Proof.
  intros Hs Hv Hoff HQ. apply wp_store; [eapply at_in_mem; eauto; lia|].
  apply HQ. eapply at_write; [done|done|simpl; lia| | |].
  - eapply h_ok_set; [by eapply at_ok|done].
  - rewrite Z2Nat.id by lia. erewrite h_mem_set; [done|by eapply at_ok].
  - erewrite h_view_set. by eapply at_view.
Qed.

(** *** The library functions *)

Lemma wp_memset_loop k s sigma v x c i (Q : unit -> St -> Prop) :
  at_state s sigma v -> is_variable x = true -> 0 <= i -> i + Z.of_nat k <= object_size x ->
  (forall s', at_state s'
     (upd x (splice (Z.to_nat i) (replicate k (byte_of_Z c)) (sigma x)) sigma) v -> Q tt s') ->
  wp (s_memset_loop k (L x) c i) s Q.
Proof.
  revert s sigma i. induction k as [|k IH]; intros s sigma i Hs Hv Hi Hk HQ; cbn [s_memset_loop].
  - apply wp_ret, HQ. eapply at_state_ext; [done|]. intros y. unfold upd.
    case_decide; [subst|done]. simpl. by rewrite splice_nil.
  - apply wp_bind. eapply wp_store_at; [done|done|lia|]. intros s1 Hs1.
    eapply IH; [done|done|lia|lia|]. intros s2 Hs2. apply HQ.
    eapply at_state_ext; [done|]. intros y. unfold upd.
    destruct (decide (y = x)) as [->|]; [|done]. rewrite decide_True by done.
    pose proof (at_length _ _ _ x Hs) as Hlen.
    replace (Z.to_nat (i + 1)) with (S (Z.to_nat i)) by lia.
    symmetry. apply splice_cons. simpl. rewrite length_replicate. lia.
Qed.

(** [s_memset(x, 0, sizeof x)] *)
Lemma wp_memset_zero s sigma v x n (Q : unit -> St -> Prop) :
  at_state s sigma v -> is_variable x = true -> n = object_size x ->
  (forall s', at_state s' (upd x (replicate (size x) x00) sigma) v -> Q tt s') ->
  wp (s_memset (L x) 0 n) s Q.
Proof.
  intros Hs Hv -> HQ. pose proof (object_size_pos x). unfold s_memset.
  eapply wp_memset_loop; [done|done|lia|lia|]. intros s' Hs'. apply HQ.
  eapply at_state_ext; [done|]. intros y. unfold upd. case_decide; [|done].
  change (byte_of_Z 0) with x00. rewrite splice_all; [done|].
  by rewrite length_replicate, (at_length _ _ _ x Hs).
Qed.

Lemma wp_strlen_loop k s sigma v x n (Q : Z -> St -> Prop) :
  at_state s sigma v -> 0 <= n ->
  let len := length (cstr (drop (Z.to_nat n) (sigma x))) in
  n + Z.of_nat len < object_size x -> (len < k)%nat ->
  Q (n + Z.of_nat len) s -> wp (s_strlen_loop k (L x) n) s Q.
Proof.
  revert n. induction k as [|k IH]; intros n Hs Hn len Hlen Hk HQ; [lia|]. cbn [s_strlen_loop].
  pose proof (at_length _ _ _ x Hs) as Hx.
  destruct (sigma x !! Z.to_nat n) as [c|] eqn:Ec.
  2: { apply lookup_ge_None in Ec. lia. }
  apply wp_bind. eapply wp_load_at; [done|lia|done|].
  unfold len in *. erewrite drop_S in Hlen, Hk, HQ by done. simpl in *.
  destruct (decide (c = x00)) as [->|Hc].
  - simpl in *. apply wp_ret. by rewrite Z.add_0_r in HQ.
  - simpl in *. replace (S (Z.to_nat n)) with (Z.to_nat (n + 1)) in * by lia.
    eapply IH; [done|lia|lia|lia|]. by replace (n + 1 + _) with (n + Z.of_nat
      (S (length (cstr (drop (Z.to_nat (n + 1)) (sigma x)))))) by lia.
Qed.

(** The C string of a variable that holds a NUL. *)
Lemma wp_strlen s sigma v x (Q : Z -> St -> Prop) :
  at_state s sigma v -> (length (cstr (sigma x)) < size x)%nat -> (size x <= fuel)%nat ->
  Q (Z.of_nat (length (cstr (sigma x)))) s -> wp (s_strlen (L x)) s Q.
Proof.
  intros Hs Hx Hf HQ. unfold s_strlen. rewrite decide_False by (by eapply at_addr).
  eapply (wp_strlen_loop _ _ _ _ _ 0); [done|lia|..]; simpl; rewrite drop_0; [lia|lia|done].
Qed.

Lemma wp_streq_loop k s sigma v x y i (Q : Z -> St -> Prop) :
  at_state s sigma v -> 0 <= i ->
  let a := cstr (drop (Z.to_nat i) (sigma x)) in
  let b := cstr (drop (Z.to_nat i) (sigma y)) in
  i + Z.of_nat (length a) < object_size x -> i + Z.of_nat (length b) < object_size y ->
  (length a < k)%nat ->
  Q (if decide (a = b) then 1 else 0) s -> wp (s_streq_loop k (L x) (L y) i) s Q.
Proof.
  revert i. induction k as [|k IH]; intros i Hs Hi a b Ha Hb Hk HQ; [lia|]. cbn [s_streq_loop].
  pose proof (at_length _ _ _ x Hs) as Hx. pose proof (at_length _ _ _ y Hs) as Hy.
  destruct (sigma x !! Z.to_nat i) as [c|] eqn:Ec; [|apply lookup_ge_None in Ec; lia].
  destruct (sigma y !! Z.to_nat i) as [d|] eqn:Ed; [|apply lookup_ge_None in Ed; lia].
  apply wp_bind. eapply wp_load_at; [done|lia|done|].
  apply wp_bind. eapply wp_load_at; [done|lia|done|].
  unfold a, b in *. erewrite (drop_S (sigma x)) in Ha, Hk, HQ by done.
  erewrite (drop_S (sigma y)) in Hb, HQ by done. simpl in *.
  replace (S (Z.to_nat i)) with (Z.to_nat (i + 1)) in * by lia.
  destruct (decide (c = d)) as [<-|Hcd].
  - rewrite (decide_False (P := c <> c)) by (intros ?; done).
    destruct (decide (c = x00)) as [->|Hc]; [by apply wp_ret|].
    simpl in *. eapply IH; [done|lia|lia|lia|lia|].
    destruct (decide (cstr (drop (Z.to_nat (i + 1)) (sigma x)) = _)) as [E|E].
    + by rewrite decide_True in HQ by (by f_equal).
    + by rewrite decide_False in HQ by congruence.
  - rewrite decide_True by done. apply wp_ret.
    rewrite decide_False in HQ; [done|]. repeat case_decide; congruence.
Qed.

Lemma wp_streq s sigma v x y (Q : Z -> St -> Prop) :
  at_state s sigma v ->
  (length (cstr (sigma x)) < size x)%nat -> (length (cstr (sigma y)) < size y)%nat ->
  (size x <= fuel)%nat ->
  Q (if decide (cstr (sigma x) = cstr (sigma y)) then 1 else 0) s ->
  wp (s_streq (L x) (L y)) s Q.
Proof.
  intros Hs Hx Hy Hf HQ. unfold s_streq.
  eapply (wp_streq_loop _ _ _ _ x y 0); [done|lia|..]; simpl; rewrite ?drop_0; lia || done.
Qed.
Lemma wp_atoul_loop k s sigma v x i acc (Q : Z -> St -> Prop) :
  at_state s sigma v -> 0 <= i ->
  let r := drop (Z.to_nat i) (sigma x) in
  i + Z.of_nat (length (cstr r)) < object_size x -> (length (cstr r) < k)%nat ->
  Q (atoul_from acc r) s -> wp (s_atoul_loop k (L x) i acc) s Q.
Proof.
  revert i acc. induction k as [|k IH]; intros i acc Hs Hi r Hr Hk HQ; [lia|].
  cbn [s_atoul_loop]. pose proof (at_length _ _ _ x Hs) as Hx.
  destruct (sigma x !! Z.to_nat i) as [c|] eqn:Ec; [|apply lookup_ge_None in Ec; lia].
  apply wp_bind. eapply wp_load_at; [done|lia|done|].
  unfold r in *. erewrite drop_S in Hr, Hk, HQ by done. cbn [cstr atoul_from] in *.
  replace (S (Z.to_nat i)) with (Z.to_nat (i + 1)) in * by lia.
  destruct (is_digit c) eqn:Hc; [|by apply wp_ret].
  destruct (decide (c = x00)) as [->|Hn]; [done|]. cbn [length] in *.
  eapply IH; [done|lia|lia|lia|done].
Qed.

Lemma wp_atoul s sigma v x (Q : Z -> St -> Prop) :
  at_state s sigma v -> (length (cstr (sigma x)) < size x)%nat -> (size x <= fuel)%nat ->
  Q (atoul (sigma x)) s -> wp (s_atoul (L x)) s Q.
Proof.
  intros Hs Hx Hf HQ. unfold s_atoul. rewrite decide_False by (by eapply at_addr).
  eapply (wp_atoul_loop _ _ _ _ _ 0); [done|lia|..]; simpl; rewrite drop_0; [lia|lia|done].
Qed.

Lemma wp_ultoa_loop buf s sigma v x n k (Q : unit -> St -> Prop) :
  at_state s sigma v -> is_variable x = true -> n <= object_size x ->
  0 <= k -> k + Z.of_nat (length buf) < n ->
  (forall s', at_state s' (upd x (splice (Z.to_nat k) (buf ++ [x00]) (sigma x)) sigma) v -> Q tt s') ->
  wp (s_ultoa_loop buf (L x) n k) s Q.
Proof.
  revert s sigma k. induction buf as [|c buf IH]; intros s sigma k Hs Hv Hn Hk Hl HQ;
    cbn [s_ultoa_loop length] in *.
  - eapply wp_store_at; [done|done|lia|done].
  - rewrite decide_True by lia. apply wp_bind.
    eapply wp_store_at; [done|done|lia|]. intros s1 Hs1.
    eapply IH; [done|done|lia|lia|lia|]. intros s2 Hs2. apply HQ.
    eapply at_state_ext; [done|]. intros y. unfold upd.
    destruct (decide (y = x)) as [->|]; [|done]. rewrite decide_True by done.
    pose proof (at_length _ _ _ x Hs) as Hlen.
    replace (Z.to_nat (k + 1)) with (S (Z.to_nat k)) by lia. symmetry.
    cbn [app]. apply splice_cons. simpl. rewrite length_app. simpl. lia.
Qed.

Lemma splice_nul_terminated n bs :
  (length bs < n)%nat -> splice 0 (bs ++ [x00]) (replicate n x00) = pad n bs.
Proof.
  intros. rewrite splice_pad by (rewrite length_app; simpl; lia).
  unfold pad. rewrite length_app. simpl. rewrite <- app_assoc. f_equal.
  by replace (n - length bs)%nat with (S (n - (length bs + 1))) by lia.
Qed.

(** Into a zeroed variable large enough, [s_ultoa] writes the decimal number. *)
Lemma wp_ultoa s sigma v x z n (Q : unit -> St -> Prop) :
  at_state s sigma v -> is_variable x = true -> n = object_size x -> 33 <= n ->
  sigma x = replicate (size x) x00 ->
  (forall s', at_state s' (upd x (pad (size x) (decimal z)) sigma) v -> Q tt s') ->
  wp (s_ultoa z (L x) n) s Q.
Proof.
  intros Hs Hv -> Hn Hx HQ. unfold s_ultoa.
  pose proof (decimal_length z) as Hd.
  assert (Hlen : (length (decimal z) < size x)%nat) by lia.
  pose proof (splice_nul_terminated (size x) (decimal z) Hlen) as Hsp.
  rewrite decide_False by (intros [?|?]; [by eapply at_addr|lia]).
  unfold decimal in *. destruct (decide (z = 0)) as [->|Hz].
  - rewrite !decide_True by lia. apply wp_bind. rewrite <- (Z.add_0_r (L x)) at 1.
    eapply wp_store_at; [done|done|lia|]. intros s1 Hs1.
    eapply wp_store_at; [done|done|lia|]. intros s2 Hs2. apply HQ.
    eapply at_state_ext; [done|]. intros y. unfold upd.
    destruct (decide (y = x)) as [->|]; [|done]. rewrite decide_True by done.
    rewrite <- Hsp, Hx. symmetry. apply splice_cons. rewrite length_replicate. simpl. lia.
  - eapply wp_ultoa_loop; [done|done|lia|lia|lia|]. intros s' Hs'. apply HQ.
    eapply at_state_ext; [done|]. intros y. unfold upd.
    destruct (decide (y = x)) as [->|]; [|done]. by rewrite Hx.
Qed.

(** *** Integer variables *)

Lemma wp_load_int s sigma v x z (Q : Z -> St -> Prop) :
  at_state s sigma v -> object_size x = 4 -> sigma x = int_bytes z -> int_range z ->
  Q z s -> wp (load_int L x) s Q.
Proof.
  intros Hs Hx Hz Hr HQ. unfold load_int.
  apply wp_bind. rewrite <- (Z.add_0_r (L x)) at 1.
  eapply wp_load_at; [done|lia|by rewrite Hz|].
  apply wp_bind. eapply wp_load_at; [done|lia|by rewrite Hz|].
  apply wp_bind. eapply wp_load_at; [done|lia|by rewrite Hz|].
  apply wp_bind. eapply wp_load_at; [done|lia|by rewrite Hz|].
  apply wp_ret. pose proof (int_bytes_value z Hr) as E. unfold int_value, int_bytes in E.
  by rewrite E.
Qed.

Lemma wp_store_int s sigma v x z (Q : unit -> St -> Prop) :
  at_state s sigma v -> is_variable x = true -> object_size x = 4 ->
  (forall s', at_state s' (upd x (int_bytes z) sigma) v -> Q tt s') ->
  wp (store_int L x z) s Q.
Proof.
  intros Hs Hv Hx HQ. unfold store_int.
  apply wp_bind. rewrite <- (Z.add_0_r (L x)) at 1.
  eapply wp_store_at; [done|done|lia|]. intros s1 Hs1.
  apply wp_bind. eapply wp_store_at; [done|done|lia|]. intros s2 Hs2.
  apply wp_bind. eapply wp_store_at; [done|done|lia|]. intros s3 Hs3.
  eapply wp_store_at; [done|done|lia|]. intros s4 Hs4. apply HQ.
  eapply at_state_ext; [done|]. intros y. unfold upd.
  destruct (decide (y = x)) as [->|]; [|done]. rewrite !decide_True by done.
  pose proof (at_length _ _ _ x Hs) as Hlen. rewrite Hx in Hlen.
  by destruct (sigma x) as [|? [|? [|? [|? [|? ?]]]]].
Qed.

(** *** The imports *)

Lemma wp_get_function s sigma v x n (Q : Z -> St -> Prop) :
  at_state s sigma v -> is_variable x = true -> n = object_size x -> n <= 64 ->
  let f := take (Z.to_nat (n - 1)) (hv_arg v 0) in
  (forall s', at_state s' (upd x (pad (size x) f) sigma) v -> Q (Z.of_nat (length f)) s') ->
  wp (call (cc_get_function (L x) n)) s Q.
Proof.
  intros Hs Hv -> Hn f HQ. pose proof (object_size_pos x).
  destruct (h_get_function s (L x) (object_size x)) as (s' & E & Hok & Hm & Hview);
    [by eapply at_ok|lia|eapply at_in_mem_0; eauto; lia|].
  rewrite (at_view _ _ _ Hs) in E, Hm, Hview. fold f in E, Hm.
  eapply wp_call; [exact E|]. apply HQ.
  assert (Hf : length (pad (size x) f) = size x).
  { apply length_pad. unfold f. rewrite length_take. lia. }
  eapply at_state_ext.
  - eapply (at_write _ _ _ x 0 (pad (size x) f)); [done|done|lia|done| |done].
    by rewrite Z.add_0_r.
  - intros y. unfold upd. case_decide; [subst|done]. apply splice_all.
    by rewrite Hf, (at_length _ _ _ x Hs).
Qed.

Lemma wp_get_arg s sigma v i x n (Q : Z -> St -> Prop) :
  at_state s sigma v -> 0 <= i < 9 -> is_variable x = true -> n = object_size x -> n <= 64 ->
  let a := take (Z.to_nat (n - 1)) (hv_arg v (Z.to_nat (i + 1))) in
  (forall s', at_state s' (upd x (pad (size x) a) sigma) v -> Q (Z.of_nat (length a)) s') ->
  wp (call (cc_get_arg i (L x) n)) s Q.
Proof.
  intros Hs Hi Hv -> Hn a HQ. pose proof (object_size_pos x).
  destruct (h_get_arg s i (L x) (object_size x)) as (s' & E & Hok & Hm & Hview);
    [by eapply at_ok|done|lia|eapply at_in_mem_0; eauto; lia|].
  rewrite (at_view _ _ _ Hs) in E, Hm, Hview. fold a in E, Hm.
  eapply wp_call; [exact E|]. apply HQ.
  assert (Ha : length (pad (size x) a) = size x).
  { apply length_pad. unfold a. rewrite length_take. lia. }
  eapply at_state_ext.
  - eapply (at_write _ _ _ x 0 (pad (size x) a)); [done|done|lia|done| |done].
    by rewrite Z.add_0_r.
  - intros y. unfold upd. case_decide; [subst|done]. apply splice_all.
    by rewrite Ha, (at_length _ _ _ x Hs).
Qed.

(** The bytes of a variable up to a length: what a call passes of it. *)
Lemma at_read_prefix s sigma v x n :
  at_state s sigma v -> (n <= size x)%nat -> lm_read (h_mem s) (L x) n = take n (sigma x).
Proof. intros Hs Hn. rewrite <- (at_mem _ _ _ Hs x). by rewrite lm_read_take. Qed.

Lemma at_same_mem s s' sigma v v' :
  at_state s sigma v -> ok s' -> h_mem s' = h_mem s -> h_view s' = v' -> at_state s' sigma v'.
Proof. intros [] Hok Hm Hv. split; rewrite ?Hm; done. Qed.

Lemma wp_get_state s sigma v x y k n (Q : Z -> St -> Prop) :
  at_state s sigma v -> sigma x = pad (size x) k -> no_nul k -> (length k <= 63)%nat ->
  (length k <= size x)%nat -> n = object_size y ->
  (forall s', at_state s' sigma (hv_ask (GetState k (L y) n) v) -> Q (Z.of_nat (length k)) s') ->
  wp (call (cc_get_state (L x) (Z.of_nat (length k)) (L y) n)) s Q.
Proof.
  intros Hs Hx Hk H63 Hsz -> HQ. pose proof (object_size_pos y). pose proof (object_size_pos x).
  assert (object_size y < 2 ^ 31) by (destruct y as [| | | | | | | | |[]]; done).
  destruct (h_get_state s (L x) (Z.of_nat (length k)) (L y) (object_size y))
    as (s' & E & Hok & Hm & Hview);
    [by eapply at_ok|lia|lia|eapply at_in_mem_0; eauto; lia|eapply at_in_mem_0; eauto; lia|].
  rewrite Nat2Z.id in E, Hview. erewrite at_read_prefix, Hx, take_pad in E, Hview by done.
  rewrite take_ge in E, Hview by done. rewrite cstr_id, (at_view _ _ _ Hs) in Hview by done.
  eapply wp_call; [exact E|]. apply HQ. by eapply at_same_mem.
Qed.

Lemma wp_put_state s sigma v x y k w (Q : Z -> St -> Prop) :
  at_state s sigma v -> sigma x = pad (size x) k -> no_nul k -> (length k <= 63)%nat ->
  (length k <= size x)%nat ->
  sigma y = pad (size y) w -> no_nul w -> (length w <= 255)%nat -> (length w <= size y)%nat ->
  (forall s', at_state s' sigma (hv_ask (PutState k w) v) -> Q (-1) s') ->
  wp (call (cc_put_state (L x) (Z.of_nat (length k)) (L y) (Z.of_nat (length w)))) s Q.
Proof.
  intros Hs Hx Hk H63 Hsz Hy Hw H255 Hsz' HQ.
  pose proof (object_size_pos y). pose proof (object_size_pos x).
  destruct (h_put_state s (L x) (Z.of_nat (length k)) (L y) (Z.of_nat (length w)))
    as (s' & E & Hok & Hm & Hview);
    [by eapply at_ok|lia|lia|eapply at_in_mem_0; eauto; lia|eapply at_in_mem_0; eauto; lia|].
  rewrite !Nat2Z.id in Hview. erewrite !at_read_prefix, Hx, Hy, !take_pad in Hview by done.
  rewrite !take_ge in Hview by done. rewrite !cstr_id, (at_view _ _ _ Hs) in Hview by done.
  eapply wp_call; [exact E|]. apply HQ. by eapply at_same_mem.
Qed.

Lemma wp_return_response s sigma v x msg (Q : Z -> St -> Prop) :
  at_state s sigma v -> (exists rest, sigma x = msg ++ rest) -> no_nul msg ->
  (length msg <= 255)%nat ->
  (forall s', at_state s' sigma (hv_respond msg v) -> Q (Z.of_nat (length msg)) s') ->
  wp (call (cc_return_response (L x) (Z.of_nat (length msg)))) s Q.
Proof.
  intros Hs [rest Hx] Hm H255 HQ.
  assert (Hsz : (length msg <= size x)%nat).
  { rewrite <- (at_length _ _ _ x Hs), Hx, length_app. lia. }
  pose proof (object_size_pos x).
  destruct (h_return_response s (L x) (Z.of_nat (length msg))) as (s' & E & Hok & Hmem & Hview);
    [by eapply at_ok|lia|eapply at_in_mem_0; eauto; lia|].
  rewrite Nat2Z.id in E, Hview. erewrite at_read_prefix, Hx, take_app_length in E, Hview by done.
  rewrite take_ge in E, Hview by done. rewrite cstr_id, (at_view _ _ _ Hs) in Hview by done.
  eapply wp_call; [exact E|]. apply HQ. by eapply at_same_mem.
Qed.
End logic.
