(* ===== verification/ChaincodeSpec.v ===== *)
(** * What the chaincode promises

    [contract] is the abstract state of the smart contract (the operation
    under way and the strings it has read) and [contract_step] its reaction
    to one resumption: a function on strings, without memory, addresses or
    byte loops.  The refinement theorem says that [step_resume] carries out
    [contract_step] on every host that keeps [HostLaws]. *)
From Stdlib Require Import ZArith Lia Strings.Byte Strings.String.
From stdpp Require Import base tactics option list list_numbers gmap strings.
From S2P Require Import Prelude Mem Abi Chaincode ChaincodeLogic.

(** ** The abstract state machine *)

(** The states of the legend of [fsm_state], by operation; [CreateStuck] is
    [create] on an empty key, which leaves [fsm_state] at 0. *)
Inductive phase :=
| Idle | CreateStuck | CreateAfterGet | CreateAfterPut
| AddAfterGet | AddAfterPut | QueryAfterGet.

#[export] Instance phase_eq_dec : EqDecision phase.
Proof. intros x y. unfold Decision. decide equality. Defined.

Definition phase_fsm (p : phase) : Z :=
  match p with
  | Idle | CreateStuck => 0
  | CreateAfterGet => 11 | CreateAfterPut => 12
  | AddAfterGet => 21 | AddAfterPut => 22
  | QueryAfterGet => 31
  end.

Definition phase_op (p : phase) : Z :=
  match p with
  | Idle => OP_NONE
  | CreateStuck | CreateAfterGet | CreateAfterPut => OP_CREATE
  | AddAfterGet | AddAfterPut => OP_ADD
  | QueryAfterGet => OP_QUERY
  end.

Record contract := Contract {
  c_phase : phase;
  c_function : list byte;
  c_person : list byte;
  c_arg1 : list byte;
  c_cur_val : list byte;
}.

Definition at_phase (p : phase) (c : contract) : contract :=
  Contract p (c_function c) (c_person c) (c_arg1 c) (c_cur_val c).
Definition with_cur_val (w : list byte) (c : contract) : contract :=
  Contract (c_phase c) (c_function c) (c_person c) (c_arg1 c) w.

(** The strings as the buffers of the code cut them. *)
Definition arg_key (v : hview) : list byte := take 63 (hv_arg v 1).
Definition arg_val (v : hview) : list byte := take 63 (hv_arg v 2).

(** The sum [add] stores: decimal, modulo 2^32. *)
Definition add_result (cur arg : list byte) : list byte :=
  decimal (u32 (atoul cur + atoul arg)).

(** The first resumption: dispatch on the function and ask for the key.
    [out] is the address the value is to be delivered to. *)
Definition contract_dispatch (out : Z) (f : list byte) (c : contract) (v : hview)
    : contract * hview :=
  let ask := hv_ask (GetState (arg_key v) out 256) v in
  if decide (f = bytes "create") then
    (Contract (if decide (arg_key v = []) then CreateStuck else CreateAfterGet)
       f (arg_key v) (arg_val v) [], ask)
  else if decide (f = bytes "add") then
    (Contract AddAfterGet f (arg_key v) (arg_val v) [], ask)
  else if decide (f = bytes "query") then
    (Contract QueryAfterGet f (arg_key v) (c_arg1 c) [], ask)
  else
    (Contract Idle f (c_person c) (c_arg1 c) (c_cur_val c), hv_respond (bytes "ERROR") v).

Definition contract_step (out : Z) (c : contract) (v : hview) : contract * hview :=
  match c_phase c with
  | Idle =>
      let f := if decide (c_function c = []) then take 63 (hv_arg v 0) else c_function c in
      contract_dispatch out f c v
  | CreateStuck => (c, v)
  | CreateAfterGet =>
      if decide (c_cur_val c = [])
      then (at_phase CreateAfterPut c, hv_ask (PutState (c_person c) (c_arg1 c)) v)
      else (at_phase Idle c, hv_respond (bytes "EXIST") v)
  | CreateAfterPut => (at_phase Idle c, hv_respond (bytes "OK") v)
  | AddAfterGet =>
      if decide (c_cur_val c = [])
      then (at_phase Idle c, hv_respond (bytes "EMPTY") v)
      else (at_phase AddAfterPut c,
            hv_ask (PutState (c_person c) (add_result (c_cur_val c) (c_arg1 c))) v)
  | AddAfterPut => (at_phase Idle c, hv_respond (bytes "OK") v)
  | QueryAfterGet =>
      (at_phase Idle c,
       hv_respond (if decide (c_cur_val c = []) then bytes "NOTFOUND" else c_cur_val c) v)
  end.

(** ** The memory that represents an abstract state *)

Record represents (c : contract) (sigma : cstore) : Prop := {
  rep_fsm : sigma fsm_state = int_bytes (phase_fsm (c_phase c));
  rep_op : sigma current_op = int_bytes (phase_op (c_phase c));
  rep_function : sigma g_function = pad 64 (c_function c);
  rep_person : sigma g_person = pad 64 (c_person c);
  rep_arg1 : sigma g_arg1 = pad 64 (c_arg1 c);
  rep_cur_val : sigma g_cur_val = pad 256 (c_cur_val c);
  rep_lit l : sigma (lit l) = literal_text l ++ [x00];
}.

(** A string that fits a [char] array of [n] bytes with its terminator. *)
Definition fits (n : nat) (bs : list byte) : Prop := no_nul bs /\ (length bs < n)%nat.
#[export] Instance fits_dec n bs : Decision (fits n bs).
Proof. unfold fits. apply _. Defined.

Record contract_wf (c : contract) : Prop := {
  wf_function : fits 64 (c_function c);
  wf_person : fits 64 (c_person c);
  wf_arg1 : fits 64 (c_arg1 c);
  wf_cur_val : fits 256 (c_cur_val c);
}.

(** The contract before an invocation, in freshly initialised memory. *)
Definition contract_init : contract := Contract Idle [] [] [] [].

Lemma contract_init_wf : contract_wf contract_init.
Proof. split; simpl; (split; [constructor|simpl; lia]). Qed.

Lemma fits_take n bs : no_nul bs -> fits (S n) (take n bs).
Proof. intros. split; [by apply no_nul_take|]. rewrite length_take. lia. Qed.

Section refinement.
  Context {St : Type} `{!HostEnv St} (ok : St -> Prop) `{!HostLaws St ok} (L : layout).
  Implicit Types (s : St) (sigma : cstore) (v : hview) (c : contract).

Definition in_contract s c v : Prop :=
  exists sigma, at_state ok L s sigma v /\ represents c sigma /\ contract_wf c.

(** The result of a step: the abstract step has been carried out. *)
Definition reaches (r : contract * hview) (_ : unit) s : Prop := in_contract s r.1 r.2.

Lemma object_size_fuel x : (Z.to_nat (object_size x) <= fuel)%nat.
Proof. destruct x as [| | | | | | | | |[]]; apply Nat.leb_le; reflexivity. Qed.

Lemma wp_strlen_pad s sigma v x k (Q : Z -> St -> Prop) :
  at_state ok L s sigma v -> sigma x = pad (Z.to_nat (object_size x)) k ->
  fits (Z.to_nat (object_size x)) k ->
  Q (Z.of_nat (length k)) s -> wp (s_strlen (L x)) s Q.
Proof.
  intros Hs Hx [Hk Hl] HQ.
  eapply wp_strlen; [done|by rewrite Hx, cstr_pad|apply object_size_fuel|].
  by rewrite Hx, cstr_pad.
Qed.

Lemma hv_arg_fits s sigma v j : at_state ok L s sigma v -> fits 64 (take 63 (hv_arg v j)).
Proof.
  intros Hs. apply fits_take. rewrite <- (at_view _ _ _ _ _ Hs). eapply h_args_strings, at_ok.
  exact Hs.
Qed.

(** Discharge [reaches]: give the final store and look its objects up. *)
Ltac reached H :=
  eexists; split; [exact H|]; split;
  [split; intros; cbn [fst snd c_phase c_function c_person c_arg1 c_cur_val phase_fsm phase_op
     at_phase];
   autorewrite with cstore; eauto
  |split; cbn [fst snd c_phase c_function c_person c_arg1 c_cur_val at_phase]; eauto].

(** One C statement: [s'] is the state after it and [H] its store. *)
Ltac g_memset s' H :=
  apply wp_bind; eapply (wp_memset_zero ok L); [eassumption|reflexivity|reflexivity|]; intros s' H.
Ltac g_arg s' H :=
  apply wp_bind; eapply (wp_get_arg ok L); [eassumption|lia|reflexivity|reflexivity|done|]; intros s' H.
Ltac g_store_int s' H :=
  eapply (wp_store_int ok L); [eassumption|reflexivity|reflexivity|]; intros s' H.
Ltac g_lookup := autorewrite with cstore; eauto.

Lemma fits_nil n : (0 < n)%nat -> fits n [].
Proof. intros. split; [constructor|done]. Qed.

Lemma pad_zero n : pad n [] = replicate n x00.
Proof. apply pad_nil. Qed.

Lemma wp_ask_get s sigma v k (Q : Z -> St -> Prop) :
  at_state ok L s sigma v -> sigma g_person = pad 64 k -> fits 64 k ->
  (forall s', at_state ok L s' sigma (hv_ask (GetState k (L g_cur_val) 256) v) ->
    Q (Z.of_nat (length k)) s') ->
  wp (call (cc_get_state (L g_person) (Z.of_nat (length k)) (L g_cur_val) VAL_MAX)) s Q.
Proof.
  intros Hs Hk [Hn Hl] HQ.
  eapply (wp_get_state ok L _ _ _ g_person g_cur_val k); try done; [lia|].
  change (Z.to_nat (object_size g_person)) with 64%nat. lia.
Qed.

Lemma wp_ask_put s sigma v x k w (Q : Z -> St -> Prop) :
  at_state ok L s sigma v -> sigma g_person = pad 64 k -> fits 64 k ->
  sigma x = pad (Z.to_nat (object_size x)) w -> fits (Z.to_nat (object_size x)) w ->
  (length w <= 255)%nat ->
  (forall s', at_state ok L s' sigma (hv_ask (PutState k w) v) -> Q (-1) s') ->
  wp (call (cc_put_state (L g_person) (Z.of_nat (length k)) (L x) (Z.of_nat (length w)))) s Q.
Proof.
  intros Hs Hk [Hn Hl] Hw [Hn' Hl'] H255 HQ.
  eapply (wp_put_state ok L _ _ _ g_person x k w); try done; [lia| |lia].
  change (Z.to_nat (object_size g_person)) with 64%nat. lia.
Qed.

Lemma literal_text_fits l : no_nul (literal_text l) /\ (length (literal_text l) <= 255)%nat.
Proof. destruct l; (split; [by apply (bool_decide_unpack _)|apply Nat.leb_le; reflexivity]). Qed.

Lemma wp_respond_lit s sigma v l n (Q : unit -> St -> Prop) :
  at_state ok L s sigma v -> sigma (lit l) = literal_text l ++ [x00] ->
  n = Z.of_nat (length (literal_text l)) ->
  (forall s', at_state ok L s' sigma (hv_respond (literal_text l) v) -> Q tt s') ->
  wp (respond_lit L l n) s Q.
Proof.
  intros Hs Hl -> HQ. destruct (literal_text_fits l). unfold respond_lit.
  apply wp_bind. eapply (wp_return_response ok L); [done|by eexists|done|done|].
  intros s' Hs'. by apply wp_ret, HQ.
Qed.

Lemma wp_finish s sigma v (Q : unit -> St -> Prop) :
  at_state ok L s sigma v ->
  (forall s', at_state ok L s'
     (upd current_op (int_bytes OP_NONE) (upd fsm_state (int_bytes 0) sigma)) v -> Q tt s') ->
  wp (finish L) s Q.
Proof.
  intros Hs HQ. unfold finish. apply wp_bind. g_store_int s1 H1. g_store_int s2 H2. by apply HQ.
Qed.

(** *** The first resumption of each operation *)

Lemma wp_create_init s sigma v c :
  at_state ok L s (upd current_op (int_bytes OP_CREATE) sigma) v ->
  represents c sigma -> contract_wf c -> c_phase c = Idle ->
  wp (cc_do_create_init L) s (reaches
    (Contract (if decide (arg_key v = []) then CreateStuck else CreateAfterGet)
       (c_function c) (arg_key v) (arg_val v) [],
     hv_ask (GetState (arg_key v) (L g_cur_val) 256) v)).
Proof.
  intros Hs [] [] Hp. rewrite Hp in *. unfold cc_do_create_init.
  pose proof (hv_arg_fits _ _ _ 1 Hs) as Hk. pose proof (hv_arg_fits _ _ _ 2 Hs) as Ha.
  g_memset s1 H1. g_memset s2 H2. g_memset s3 H3. g_arg s4 H4. g_arg s5 H5.
  apply wp_bind. eapply (wp_strlen_pad _ _ _ g_person (arg_key v)); [eassumption|g_lookup|done|].
  apply wp_bind. eapply wp_ask_get; [eassumption|g_lookup|done|]. intros s6 H6.
  destruct (decide (arg_key v = [])) as [Hnil|Hnil].
  - rewrite decide_False by (rewrite Hnil; simpl; lia). apply wp_ret.
    reached H6. by apply fits_nil, Nat.ltb_lt.
  - rewrite decide_True by (destruct (arg_key v); [done|simpl; lia]).
    apply wp_bind. g_store_int s7 H7. g_store_int s8 H8.
    reached H8. by apply fits_nil, Nat.ltb_lt.
Qed.

Lemma wp_add_init s sigma v c :
  at_state ok L s (upd current_op (int_bytes OP_ADD) sigma) v ->
  represents c sigma -> contract_wf c -> c_phase c = Idle ->
  wp (cc_do_add_init L) s (reaches
    (Contract AddAfterGet (c_function c) (arg_key v) (arg_val v) [],
     hv_ask (GetState (arg_key v) (L g_cur_val) 256) v)).
Proof.
  intros Hs [] [] Hp. rewrite Hp in *. unfold cc_do_add_init.
  pose proof (hv_arg_fits _ _ _ 1 Hs) as Hk. pose proof (hv_arg_fits _ _ _ 2 Hs) as Ha.
  g_memset s1 H1. g_memset s2 H2. g_memset s3 H3. g_arg s4 H4. g_arg s5 H5.
  apply wp_bind. eapply (wp_strlen_pad _ _ _ g_person (arg_key v)); [eassumption|g_lookup|done|].
  apply wp_bind. eapply wp_ask_get; [eassumption|g_lookup|done|]. intros s6 H6.
  g_store_int s7 H7. reached H7. by apply fits_nil, Nat.ltb_lt.
Qed.

Lemma wp_query_init s sigma v c :
  at_state ok L s (upd current_op (int_bytes OP_QUERY) sigma) v ->
  represents c sigma -> contract_wf c -> c_phase c = Idle ->
  wp (cc_do_query_init L) s (reaches
    (Contract QueryAfterGet (c_function c) (arg_key v) (c_arg1 c) [],
     hv_ask (GetState (arg_key v) (L g_cur_val) 256) v)).
Proof.
  intros Hs [] [] Hp. rewrite Hp in *. unfold cc_do_query_init.
  pose proof (hv_arg_fits _ _ _ 1 Hs) as Hk.
  g_memset s1 H1. g_memset s2 H2. g_arg s3 H3.
  apply wp_bind. eapply (wp_strlen_pad _ _ _ g_person (arg_key v)); [eassumption|g_lookup|done|].
  apply wp_bind. eapply wp_ask_get; [eassumption|g_lookup|done|]. intros s4 H4.
  g_store_int s5 H5. reached H5. by apply fits_nil, Nat.ltb_lt.
Qed.
(** *** The later resumptions *)

Lemma phase_fsm_range p : int_range (phase_fsm p).
Proof. destruct p; split; by apply Z.leb_le || apply Z.ltb_lt. Qed.
Lemma phase_op_range p : int_range (phase_op p).
Proof. destruct p; split; by apply Z.leb_le || apply Z.ltb_lt. Qed.

(** The first byte of a string variable is NUL exactly for the empty string. *)
Lemma wp_load_head s sigma v x k (Q : byte -> St -> Prop) :
  at_state ok L s sigma v -> sigma x = pad (Z.to_nat (object_size x)) k ->
  fits (Z.to_nat (object_size x)) k ->
  (forall b, (b = x00 <-> k = []) -> Q b s) -> wp (load (L x)) s Q.
Proof.
  intros Hs Hx [Hk Hl] HQ. pose proof (object_size_pos x).
  rewrite <- (Z.add_0_r (L x)). eapply (wp_load_at ok L); [done|lia| |].
  - rewrite Hx. apply pad_lookup_0. lia.
  - apply HQ. destruct k as [|b k]; simpl; [done|].
    apply Forall_cons in Hk as [? _]. split; [done|congruence].
Qed.

Lemma wp_load_fsm s sigma v c (Q : Z -> St -> Prop) :
  at_state ok L s sigma v -> represents c sigma ->
  Q (phase_fsm (c_phase c)) s -> wp (load_int L fsm_state) s Q.
Proof.
  intros Hs [] HQ. eapply (wp_load_int ok L); [done|done|done|apply phase_fsm_range|done].
Qed.

Lemma wp_load_op s sigma v c (Q : Z -> St -> Prop) :
  at_state ok L s sigma v -> represents c sigma ->
  Q (phase_op (c_phase c)) s -> wp (load_int L current_op) s Q.
Proof.
  intros Hs [] HQ. eapply (wp_load_int ok L); [done|done|done|apply phase_op_range|done].
Qed.

(** [cc_return_response] with a literal, then back to the initial state. *)
Lemma wp_respond_finish s sigma v c l n :
  at_state ok L s sigma v -> represents c sigma -> contract_wf c ->
  n = Z.of_nat (length (literal_text l)) ->
  wp (respond_lit L l n;; finish L) s
    (reaches (at_phase Idle c, hv_respond (literal_text l) v)).
Proof.
  intros Hs [] [] ->. apply wp_bind. eapply wp_respond_lit; [done|done|done|]. intros s1 H1.
  eapply wp_finish; [done|]. intros s2 H2. reached H2.
Qed.

Lemma wp_create_resume out s sigma v c :
  at_state ok L s sigma v -> represents c sigma -> contract_wf c ->
  phase_op (c_phase c) = OP_CREATE ->
  wp (cc_do_create_resume L) s (reaches (contract_step out c v)).
Proof.
  intros Hs Hr Hw Hp. unfold cc_do_create_resume, contract_step.
  apply wp_bind. eapply wp_load_fsm; [done|done|].
  destruct (c_phase c) eqn:Ec; try done; cbn [phase_fsm]; simpl decide.
  - apply wp_ret. by exists sigma.
  - apply wp_bind. eapply (wp_load_head _ _ _ g_cur_val (c_cur_val c));
      [done|apply (rep_cur_val _ _ Hr)|apply (wf_cur_val _ Hw)|]. intros b Hb.
    destruct (decide (c_cur_val c = [])) as [Hn|Hn].
    + rewrite decide_False by tauto. destruct Hr, Hw. rewrite Ec in rep_op0.
      apply wp_bind. eapply (wp_strlen_pad _ _ _ g_person); [done|done|done|].
      apply wp_bind. eapply (wp_strlen_pad _ _ _ g_arg1); [done|done|done|].
      apply wp_bind. eapply (wp_ask_put _ _ _ g_arg1); [done|done|done|done|done| |].
      { destruct wf_arg2. lia. }
      intros s1 H1. g_store_int s2 H2. reached H2.
    + rewrite decide_True by tauto. by eapply (wp_respond_finish _ _ _ c L_EXIST).
  - by eapply (wp_respond_finish _ _ _ c L_OK).
Qed.

Lemma add_result_fits cur arg : fits 256 (add_result cur arg) /\
  (length (add_result cur arg) <= 255)%nat.
Proof.
  unfold add_result. pose proof (decimal_length (u32 (atoul cur + atoul arg))).
  split; [|lia]. split; [|lia]. apply decimal_no_nul, u32_range.
Qed.

Lemma cstr_pad_length n k : fits n k -> (length (cstr (pad n k)) < n)%nat.
Proof. intros [Hk Hl]. by rewrite cstr_pad. Qed.

Lemma wp_add_resume out s sigma v c :
  at_state ok L s sigma v -> represents c sigma -> contract_wf c ->
  phase_op (c_phase c) = OP_ADD ->
  wp (cc_do_add_resume L) s (reaches (contract_step out c v)).
Proof.
  intros Hs Hr Hw Hp. unfold cc_do_add_resume, contract_step.
  apply wp_bind. eapply wp_load_fsm; [done|done|].
  destruct (c_phase c) eqn:Ec; try done; cbn [phase_fsm]; simpl decide.
  - apply wp_bind. eapply (wp_load_head _ _ _ g_cur_val (c_cur_val c));
      [done|apply (rep_cur_val _ _ Hr)|apply (wf_cur_val _ Hw)|]. intros b Hb.
    destruct (decide (c_cur_val c = [])) as [Hn|Hn].
    + rewrite decide_True by tauto. by eapply (wp_respond_finish _ _ _ c L_EMPTY).
    + rewrite decide_False by tauto. destruct Hr, Hw. rewrite Ec in rep_op0.
      destruct (add_result_fits (c_cur_val c) (c_arg1 c)) as [Hres Hres'].
      apply wp_bind. eapply (wp_atoul ok L _ _ _ g_cur_val);
        [done|rewrite rep_cur_val0; by apply cstr_pad_length|apply object_size_fuel|].
      apply wp_bind. eapply (wp_atoul ok L _ _ _ g_arg1);
        [done|rewrite rep_arg2; by apply cstr_pad_length|apply object_size_fuel|].
      rewrite rep_cur_val0, rep_arg2, !atoul_pad. fold (add_result (c_cur_val c) (c_arg1 c)).
      g_memset s1 H1.
      apply wp_bind. eapply (wp_ultoa ok L); [done|done|done|done|by rewrite upd_same|].
      intros s2 H2. fold (add_result (c_cur_val c) (c_arg1 c)) in H2.
      apply wp_bind. eapply (wp_strlen_pad _ _ _ g_person); [done|g_lookup|done|].
      apply wp_bind. eapply (wp_strlen_pad _ _ _ g_tmp); [done|by rewrite upd_same|done|].
      apply wp_bind. eapply (wp_ask_put _ _ _ g_tmp); [done|g_lookup|done|by rewrite upd_same|done|done|].
      intros s3 H3. g_store_int s4 H4. reached H4.
  - by eapply (wp_respond_finish _ _ _ c L_OK).
Qed.

Lemma wp_query_resume out s sigma v c :
  at_state ok L s sigma v -> represents c sigma -> contract_wf c ->
  phase_op (c_phase c) = OP_QUERY ->
  wp (cc_do_query_resume L) s (reaches (contract_step out c v)).
Proof.
  intros Hs Hr Hw Hp. unfold cc_do_query_resume, contract_step.
  apply wp_bind. eapply wp_load_fsm; [done|done|].
  destruct (c_phase c) eqn:Ec; try done; cbn [phase_fsm]; simpl decide.
  apply wp_bind. eapply (wp_load_head _ _ _ g_cur_val (c_cur_val c));
    [done|apply (rep_cur_val _ _ Hr)|apply (wf_cur_val _ Hw)|]. intros b Hb.
  destruct (decide (c_cur_val c = [])) as [Hn|Hn].
  - rewrite decide_True by tauto. by eapply (wp_respond_finish _ _ _ c L_NOTFOUND).
  - rewrite decide_False by tauto. destruct Hr, Hw. rewrite Ec in rep_op0.
    apply wp_bind, wp_bind. eapply (wp_strlen_pad _ _ _ g_cur_val); [done|done|done|].
    apply wp_bind. eapply (wp_return_response ok L);
      [done|rewrite rep_cur_val0; by eexists|apply wf_cur_val0|destruct wf_cur_val0; lia|].
    intros s1 H1. apply wp_ret. eapply wp_finish; [done|]. intros s2 H2. reached H2.
Qed.
(** *** [step_resume] *)

Lemma represents_should_exit c sigma n :
  represents c sigma -> represents c (upd g_should_exit (int_bytes n) sigma).
Proof. intros []. split; intros; g_lookup. Qed.

Lemma wp_step_resume_op out s sigma v c :
  at_state ok L s sigma v -> represents c sigma -> contract_wf c -> c_phase c <> Idle ->
  wp (step_resume_op L) s (reaches (contract_step out c v)).
Proof.
  intros Hs Hr Hw Hp. unfold step_resume_op. apply wp_bind. eapply wp_load_op; [done|done|].
  destruct (c_phase c) eqn:Ec; try done; cbn [phase_op]; simpl decide.
  1,2,3: eapply wp_create_resume; by rewrite ?Ec.
  1,2: eapply wp_add_resume; by rewrite ?Ec.
  eapply wp_query_resume; by rewrite ?Ec.
Qed.

(** The comparison of [g_function] with a literal. *)
Lemma wp_function_is s sigma v c l (Q : Z -> St -> Prop) :
  at_state ok L s sigma v -> represents c sigma -> contract_wf c ->
  Q (if decide (c_function c = literal_text l) then 1 else 0) s ->
  wp (s_streq (L g_function) (L (lit l))) s Q.
Proof.
  intros Hs [] [] HQ. destruct (literal_text_fits l) as [Hl _].
  assert (El : cstr (sigma (lit l)) = literal_text l) by (rewrite rep_lit0; by apply cstr_app_nul).
  assert (Ef : cstr (sigma g_function) = c_function c).
  { rewrite rep_function0. apply cstr_pad, wf_function0. }
  eapply (wp_streq ok L); [done|..|apply object_size_fuel|].
  - rewrite Ef. apply wf_function0.
  - rewrite El. simpl. lia.
  - by rewrite Ef, El.
Qed.

Lemma wp_dispatch out s sigma v c f :
  at_state ok L s sigma v -> represents c sigma -> contract_wf c -> c_phase c = Idle ->
  c_function c = f -> out = L g_cur_val ->
  wp (e ← s_streq (L g_function) (L (lit L_create));
      if decide (e <> 0) then store_int L current_op OP_CREATE;; cc_do_create_init L else
      e ← s_streq (L g_function) (L (lit L_add));
      if decide (e <> 0) then store_int L current_op OP_ADD;; cc_do_add_init L else
      e ← s_streq (L g_function) (L (lit L_query));
      if decide (e <> 0) then store_int L current_op OP_QUERY;; cc_do_query_init L else
      respond_lit L L_ERROR 5) s (reaches (contract_dispatch out f c v)).
Proof.
  intros Hs Hr Hw Hp <- ->. unfold contract_dispatch.
  apply wp_bind. eapply wp_function_is; [done..|].
  change (bytes "create") with (literal_text L_create).
  destruct (decide (c_function c = literal_text L_create)).
  { rewrite decide_True by done. apply wp_bind. g_store_int s1 H1. by eapply wp_create_init. }
  rewrite decide_False by (intros E; by apply E). apply wp_bind. eapply wp_function_is; [done..|].
  change (bytes "add") with (literal_text L_add).
  destruct (decide (c_function c = literal_text L_add)).
  { rewrite decide_True by done. apply wp_bind. g_store_int s1 H1. by eapply wp_add_init. }
  rewrite decide_False by (intros E; by apply E). apply wp_bind. eapply wp_function_is; [done..|].
  change (bytes "query") with (literal_text L_query).
  destruct (decide (c_function c = literal_text L_query)).
  { rewrite decide_True by done. apply wp_bind. g_store_int s1 H1. by eapply wp_query_init. }
  rewrite decide_False by (intros E; by apply E).
  eapply wp_respond_lit; [done|apply (rep_lit _ _ Hr)|done|]. intros s1 H1.
  destruct Hr, Hw. rewrite Hp in *. reached H1.
Qed.

Lemma wp_step_resume s c v :
  in_contract s c v ->
  wp (step_resume L) s (reaches (contract_step (L g_cur_val) c v)).
Proof.
  intros (sigma & Hs & Hr & Hw). unfold step_resume.
  apply wp_bind. g_store_int s1 H1. apply (represents_should_exit _ _ 0) in Hr.
  revert Hr H1. generalize (upd g_should_exit (int_bytes 0) sigma). clear Hs sigma.
  intros sigma Hr H1.
  apply wp_bind. eapply wp_load_op; [done|done|].
  destruct (decide (c_phase c = Idle)) as [Hp|Hp].
  2: { rewrite decide_False by (destruct (c_phase c); done). by eapply wp_step_resume_op. }
  rewrite decide_True by (by rewrite Hp). unfold contract_step. rewrite Hp. cbv zeta.
  apply wp_bind. eapply (wp_load_head _ _ _ g_function (c_function c));
    [done|apply (rep_function _ _ Hr)|apply (wf_function _ Hw)|]. intros b Hb.
  (* the name, already there or fetched now *)
  set (f := if decide (c_function c = []) then take 63 (hv_arg v 0) else c_function c).
  set (c' := Contract Idle f (c_person c) (c_arg1 c) (c_cur_val c)).
  assert (Hc' : contract_wf c').
  { destruct Hw. split; try done. unfold c', f. simpl. case_decide; [|done].
    by eapply hv_arg_fits. }
  assert (Hd : forall out, contract_dispatch out f c v = contract_dispatch out f c' v) by done.
  rewrite Hd. apply wp_bind.
  apply (wp_mono _ _ (fun _ s' => exists sigma', at_state ok L s' sigma' v /\ represents c' sigma')).
  { destruct (decide (c_function c = [])) as [Hn|Hn].
    - rewrite decide_True by tauto. apply wp_bind.
      eapply (wp_get_function ok L); [done|done|done|done|]. intros s2 H2. apply wp_ret.
      eexists. split; [exact H2|]. destruct Hr. rewrite Hp in *.
      split; intros; g_lookup.
    - rewrite decide_False by tauto. apply wp_ret. eexists. split; [done|].
      destruct Hr. rewrite Hp in *. by split. }
  clear dependent sigma s1. intros _ s1 (sigma & H1 & Hr).
  apply wp_bind. eapply (wp_load_head _ _ _ g_function f);
    [done|apply (rep_function _ _ Hr)|apply (wf_function _ Hc')|]. intros b' Hb'.
  destruct (decide (f = [])) as [Hf|Hf].
  - (* no function name: the operation under way is none *)
    rewrite decide_False by tauto. unfold step_resume_op.
    apply wp_bind. eapply wp_load_op; [done|done|]. cbn [phase_op c_phase c']. simpl decide.
    eapply wp_respond_lit; [done|apply (rep_lit _ _ Hr)|done|]. intros s2 H2.
    unfold contract_dispatch. rewrite Hf, !decide_False by done. rewrite <- Hf.
    eexists. split; [exact H2|]. by split.
  - rewrite decide_True by tauto. by eapply wp_dispatch.
Qed.
End refinement.

(** [in_contract] depends on the host's states only through [ok]. *)
Lemma in_contract_ok {St} `{!HostEnv St} (ok ok' : St -> Prop) L s c v :
  in_contract ok L s c v -> ok' s -> in_contract ok' L s c v.
Proof. intros (sigma & [] & ?) ?. by exists sigma. Qed.

(** The abstract state when a value is delivered to [g_cur_val]. *)
Lemma in_contract_cur_val {St} `{!HostEnv St} (ok : St -> Prop) L s s' c v v' w :
  in_contract ok L s c v -> ok s' -> fits 256 w ->
  h_mem s' = lm_write (h_mem s) (L g_cur_val) (pad 256 w) -> h_view s' = v' ->
  in_contract ok L s' (with_cur_val w c) v'.
Proof.
  intros (sigma & Hs & Hr & Hw) Hok Hf Hm Hv.
  assert (Hl : length (pad 256 w) = 256%nat) by (apply length_pad; destruct Hf; lia).
  exists (upd g_cur_val (pad 256 w) sigma). split; [|split].
  - assert (Hat : at_state ok L s' (upd g_cur_val (splice 0 (pad 256 w) (sigma g_cur_val)) sigma) v').
    { eapply (at_write ok L); [exact Hs|done| |done| |done].
      - rewrite Hl. by apply Nat.leb_le.
      - by rewrite Z.add_0_r. }
    rewrite splice_all in Hat; [done|]. rewrite Hl. symmetry.
    apply (at_length ok L _ _ _ g_cur_val Hs).
  - destruct Hr. split; intros; autorewrite with cstore; eauto.
  - destruct Hw. by split.
Qed.

(** Answering a request changes neither the memory nor the abstract state. *)
Lemma in_contract_view {St} `{!HostEnv St} (ok : St -> Prop) L s s' c v :
  in_contract ok L s c v -> ok s' -> h_mem s' = h_mem s -> in_contract ok L s' c (h_view s').
Proof.
  intros (sigma & [] & ?) ? E. exists sigma. split; [|done]. split; rewrite ?E; done.
Qed.
