(* ===== verification/WamrTa.v ===== *)
(** * The WAMR wrapper of the trusted application

    [wasm.c] and [wasm.h]: hashing the bytecode, initialising the runtime with
    the native functions, instantiating the module, running its entry point,
    and tearing the runtime down.  The runtime's own calls and the TEE's
    memory allocation and digest functions are the parameters of the class
    [TaEnv]; [env] is the state behind them (the allocator, the runtime's
    globals), which every call may change.  A pointer handed on to one of these
    calls is passed as it is, [None] being NULL. *)
From Stdlib Require Import ZArith Lia Strings.Byte Strings.String.
From stdpp Require Import base tactics option list list_numbers gmap strings.
From S2P Require Import Prelude Mem Abi Session Natives.

(** ** TEE results *)

Definition TEE_SUCCESS : Z := 0x00000000.
Definition TEE_ERROR_GENERIC : Z := 0xFFFF0000.
Definition TEE_ERROR_BAD_PARAMETERS : Z := 0xFFFF0006.
Definition TEE_ERROR_OUT_OF_MEMORY : Z := 0xFFFF000C.

Definition RA_HASH_SIZE : Z := 256.

(** [RuntimeInitArgs], the fields the code sets. *)
Record RuntimeInitArgs := InitArgs {
  ia_heap_buf : option Z;
  ia_heap_size : Z;
  ia_n_native_symbols : Z;
  ia_native_module_name : string;
  ia_native_symbols : list (string * string);
}.

(** ** The environment *)

Class TaEnv `{WamrInst} := {
  env : Type;
  wmodule : Type;
  wfunc : Type;
  op_handle : Type;
  sizeof_NativeSymbol : Z;
  (* TEE Internal Core API *)
  TEE_Malloc : Z -> env -> bool * env;
  TEE_AllocateOperation : op_handle -> env -> (Z * op_handle) * env;
  TEE_DigestDoFinal :
    op_handle -> option (list byte) -> Z -> Z -> env -> (Z * list byte * Z) * env;
  TEE_FreeOperation : op_handle -> env -> env;
  (* WAMR and the WaTZ runtime around it *)
  vedliot_set_output_buffer : list byte -> Z -> env -> env;
  wasm_runtime_full_init : RuntimeInitArgs -> env -> bool * env;
  wasm_runtime_load : option (list byte) -> Z -> env -> option wmodule * env;
  wasm_runtime_set_wasi_args : wmodule -> list string -> Z -> env -> env;
  wasm_runtime_instantiate : wmodule -> Z -> Z -> env -> option inst * env;
  wasm_runtime_create_exec_env : inst -> Z -> env -> bool * env;
  wasm_runtime_destroy_exec_env : env -> env;
  wasm_runtime_deinstantiate : inst -> env -> env;
  wasm_runtime_unload : wmodule -> env -> env;
  wasm_runtime_destroy : env -> env;
  wasm_runtime_lookup_function : inst -> string -> option wfunc;
  wasm_runtime_call_wasm : wfunc -> host -> cres (bool * host);
  wasm_application_execute_main : host -> cres (bool * host);
}.

Section wasm.
  Context `{TaEnv}.

(** [wamr_context]: [exec_env] says whether the pointer is set. *)
Record wamr_context := WamrCtx {
  wasm_bytecode : option (list byte);
  wasm_bytecode_size : Z;
  wasm_bytecode_hash : list byte;
  wc_heap_buf : option Z;
  wc_heap_size : Z;
  wc_module : option wmodule;
  wc_module_inst : option inst;
  wc_exec_env : bool;
  native_symbols : list (string * string);
  native_symbols_size : Z;
}.

Definition set_hash v c := WamrCtx (wasm_bytecode c) (wasm_bytecode_size c) v (wc_heap_buf c)
  (wc_heap_size c) (wc_module c) (wc_module_inst c) (wc_exec_env c) (native_symbols c)
  (native_symbols_size c).
Definition set_module v c := WamrCtx (wasm_bytecode c) (wasm_bytecode_size c)
  (wasm_bytecode_hash c) (wc_heap_buf c) (wc_heap_size c) v (wc_module_inst c) (wc_exec_env c)
  (native_symbols c) (native_symbols_size c).
Definition set_module_inst v c := WamrCtx (wasm_bytecode c) (wasm_bytecode_size c)
  (wasm_bytecode_hash c) (wc_heap_buf c) (wc_heap_size c) (wc_module c) v (wc_exec_env c)
  (native_symbols c) (native_symbols_size c).
Definition set_exec_env v c := WamrCtx (wasm_bytecode c) (wasm_bytecode_size c)
  (wasm_bytecode_hash c) (wc_heap_buf c) (wc_heap_size c) (wc_module c) (wc_module_inst c) v
  (native_symbols c) (native_symbols_size c).

(** [TEE_MemFill(&runtime_ctx, 0, sizeof(runtime_ctx))] *)
Definition wamr_context_zero : wamr_context :=
  WamrCtx None 0 (replicate 32 x00) None 0 None None false [] 0.

(** [sizeof(chaincode_native_symbols)] *)
Definition chaincode_native_symbols_size : Z :=
  u32 (Z.of_nat (length chaincode_native_symbols) * sizeof_NativeSymbol).

(** ** The globals of the trusted application

    [runtime_ctx] is the static of the RUN command, which the session's
    [runtime] pointer and [singleton_wamr_context] point to when they are not
    NULL. *)
Record ta := Ta {
  heap_size : Z;
  g_chaincode_sess : option chaincode_session_ctx;
  runtime_ctx : wamr_context;
  singleton_wamr_context : bool;
  ta_env : env;
}.

Definition set_ta_heap v t :=
  Ta v (g_chaincode_sess t) (runtime_ctx t) (singleton_wamr_context t) (ta_env t).
Definition set_ta_sess v t :=
  Ta (heap_size t) v (runtime_ctx t) (singleton_wamr_context t) (ta_env t).
Definition set_ta_ctx v t :=
  Ta (heap_size t) (g_chaincode_sess t) v (singleton_wamr_context t) (ta_env t).
Definition set_ta_singleton v t :=
  Ta (heap_size t) (g_chaincode_sess t) (runtime_ctx t) v (ta_env t).
Definition set_ta_env v t :=
  Ta (heap_size t) (g_chaincode_sess t) (runtime_ctx t) (singleton_wamr_context t) v.

(** A call to the environment. *)
Definition env_call {A} (f : env -> A * env) : stm ta A := fun t =>
  let r := f (ta_env t) in Done (r.1, set_ta_env r.2 t).
Definition env_do (f : env -> env) : stm ta unit := st_modify (fun t => set_ta_env (f (ta_env t)) t).

Definition ctx_update (f : wamr_context -> wamr_context) : stm ta unit :=
  st_modify (fun t => set_ta_ctx (f (runtime_ctx t)) t).

(** ** The functions *)

Definition TA_SetOutputBuffer (output_buffer : list byte) (output_buffer_size : Z) : stm ta unit :=
  env_do (vedliot_set_output_buffer output_buffer output_buffer_size).

(** [operation_handle] is the local variable, uninitialised before the first
    call, which stores the handle through its address; the digest is stored
    through [ctx->wasm_bytecode_hash], whose size [digest_len] claims to be. *)
Definition TA_HashWasmBytecode (operation_handle : op_handle) : stm ta Z :=
  let expected_digest_len := RA_HASH_SIZE / 8 in
  '(res, operation_handle) ← env_call (TEE_AllocateOperation operation_handle);
  res ← (if decide (res <> TEE_SUCCESS) then mret res else
    ctx ← st_gets runtime_ctx;
    '(res, digest, digest_len) ← env_call (TEE_DigestDoFinal operation_handle
      (wasm_bytecode ctx) (wasm_bytecode_size ctx) RA_HASH_SIZE);
    (if decide (res = TEE_SUCCESS)
     then h ← st_lift (buf_write (wasm_bytecode_hash ctx) 0 digest); ctx_update (set_hash h)
     else mret tt);;
    if decide (res <> TEE_SUCCESS) then mret res
    else if decide (digest_len <> expected_digest_len) then mret TEE_ERROR_GENERIC
    else mret res);
  env_do (TEE_FreeOperation operation_handle);;
  mret res.

Definition TA_InitializeWamrRuntime (argc : Z) (argv : list string) : stm ta Z :=
  ctx ← st_gets runtime_ctx;
  let init_args := InitArgs (wc_heap_buf ctx) (wc_heap_size ctx)
    (native_symbols_size ctx / sizeof_NativeSymbol) "env" (native_symbols ctx) in
  ok ← env_call (wasm_runtime_full_init init_args);
  if negb ok then mret TEE_ERROR_GENERIC else
  m ← env_call (wasm_runtime_load (wasm_bytecode ctx) (wasm_bytecode_size ctx));
  ctx_update (set_module m);;
  match m with
  | None => mret TEE_ERROR_GENERIC
  | Some m =>
    env_do (wasm_runtime_set_wasi_args m argv argc);;
    let stack_size := 256 * 1024 in
    let heap_size := 64 * 1024 in
    i ← env_call (wasm_runtime_instantiate m stack_size heap_size);
    ctx_update (set_module_inst i);;
    match i with
    | None => mret TEE_ERROR_GENERIC
    | Some _ =>
      st_modify (set_ta_singleton true);;
      mret TEE_SUCCESS
    end
  end.

(** Calling a function of the instance: the native functions it reaches work
    on the session and on the instance. *)
Definition on_instance (f : host -> cres (bool * host)) : stm ta bool := fun t =>
  match wc_module_inst (runtime_ctx t) with
  | None => Fault NullDeref
  | Some i =>
      match f (Host (g_chaincode_sess t) (Some i)) with
      | Done (ok, h) =>
          Done (ok, set_ta_sess (h_sess h)
                      (set_ta_ctx (set_module_inst (h_inst h) (runtime_ctx t)) t))
      | Fault e => Fault e
      end
  end.

Definition lookup_function (name : string) : stm ta (option wfunc) := fun t =>
  match wc_module_inst (runtime_ctx t) with
  | None => Fault NullDeref
  | Some i => Done (wasm_runtime_lookup_function i name, t)
  end.

Definition get_exception : stm ta (option string) := fun t =>
  match wc_module_inst (runtime_ctx t) with
  | None => Fault NullDeref
  | Some i => Done (wasm_runtime_get_exception i, t)
  end.

Definition clear_exception : stm ta unit := fun t =>
  match wc_module_inst (runtime_ctx t) with
  | None => Fault NullDeref
  | Some i => Done (tt, set_ta_ctx (set_module_inst (Some (wasm_runtime_clear_exception i))
                                      (runtime_ctx t)) t)
  end.

(** [strstr(hay, needle) != NULL] *)
Definition strstr (hay needle : string) : bool :=
  match String.index 0 needle hay with Some _ => true | None => false end.

(** [for (i = 0; i < 3; i++)] over the fallback entry points: the first that
    is found and runs. *)
Fixpoint try_functions (names : list string) : stm ta bool :=
  match names with
  | [] => mret false
  | name :: names' =>
      fn ← lookup_function name;
      match fn with
      | None => try_functions names'
      | Some fn =>
          ok ← on_instance (wasm_runtime_call_wasm fn);
          if ok : bool then mret true else try_functions names'
      end
  end.

Definition TA_ExecuteWamrRuntime : stm ta Z :=
  main_func ← lookup_function "main";
  match main_func with
  | Some fn =>
      ok ← on_instance (wasm_runtime_call_wasm fn);
      mret (if ok : bool then TEE_SUCCESS else TEE_ERROR_GENERIC)
  | None =>
      started ← try_functions ["_start"; "_main"; "start"]%string;
      if started : bool then mret TEE_SUCCESS else
      ok ← on_instance wasm_application_execute_main;
      if ok : bool then mret TEE_SUCCESS else
      exception ← get_exception;
      match exception with
      | Some ex => mret (if strstr ex "out of bounds" then TEE_SUCCESS else TEE_ERROR_GENERIC)
      | None => mret TEE_ERROR_GENERIC
      end
  end.

Definition TA_TearDownWamrRuntime : stm ta unit :=
  st_modify (set_ta_singleton false);;
  ctx ← st_gets runtime_ctx;
  (if wc_exec_env ctx
   then env_do wasm_runtime_destroy_exec_env;; ctx_update (set_exec_env false)
   else mret tt);;
  match wc_module_inst ctx with
  | Some i => env_do (wasm_runtime_deinstantiate i)
  | None => mret tt
  end;;
  match wc_module ctx with
  | Some m => env_do (wasm_runtime_unload m)
  | None => mret tt
  end;;
  env_do wasm_runtime_destroy.
End wasm.
