(* ===== verification/Sandbox.v ===== *)
(** * What a guest can do to the trusted application

    A guest of WAMR changes its own instance and calls the native functions
    that have been registered; it reaches the trusted application in no other
    way.  [guest_step] is that relation, for any module, compiled from any
    source; [guest_steps_ok] is the invariant that every guest keeps, and
    [run_guest_steps] says that the programs of Abi.v are such guests, provided
    the calls they make have 32-bit arguments ([guest_all]). *)
From Stdlib Require Import ZArith Lia Strings.Byte Strings.String.
From stdpp Require Import base tactics option list list_numbers gmap strings relations.
From S2P Require Import Prelude Mem Abi Session Natives.

(** ** Calls that a program can make, whatever it reads and is answered *)

Fixpoint guest_all {A} (P : import -> Prop) (Q : A -> Prop) (t : guest A) : Prop :=
  match t with
  | GRet a => Q a
  | GLoad _ k => forall b, guest_all P Q (k b)
  | GStore _ _ t' => guest_all P Q t'
  | GCall c k => P c /\ forall r, guest_all P Q (k r)
  | GFuel => True
  end.

Lemma guest_all_bind {A B} (P : import -> Prop) (Q : B -> Prop) (t : guest A) (k : A -> guest B) :
  guest_all P (fun a => guest_all P Q (k a)) t -> guest_all P Q (t ≫= k).
Proof.
  unfold mbind, guest_bind. induction t as [|? f IH| |? f IH|]; simpl; auto.
  intros [? ?]. auto.
Qed.

Lemma guest_all_mono {A} (P : import -> Prop) (Q Q' : A -> Prop) (t : guest A) :
  guest_all P Q t -> (forall a, Q a -> Q' a) -> guest_all P Q' t.
Proof.
  intros Ht HQ. induction t as [|? f IH| |? f IH|]; simpl in *; auto.
  destruct Ht. auto.
Qed.

Lemma guest_all_calls {A} (P P' : import -> Prop) (Q : A -> Prop) (t : guest A) :
  guest_all P Q t -> (forall c, P c -> P' c) -> guest_all P' Q t.
Proof.
  intros Ht HP. induction t as [|? f IH| |? f IH|]; simpl in *; auto.
  destruct Ht. auto.
Qed.

(** ** Steps of a guest *)

Section sandbox.
  Context `{WamrInst} `{!WamrInstLaws}.

Inductive guest_step : host -> host -> Prop :=
| gs_inst s i i' : guest_step (Host s (Some i)) (Host s (Some i'))
| gs_call c h r h' :
    import_range c -> native_call c h = Done (r, h') -> guest_step h h'.

Definition guest_steps : relation host := rtc guest_step.

(** How a call of an exported function can end: the guest returns or traps
    after some steps, or one of its calls faults in the trusted application. *)
Definition guest_outcome (h : host) (out : cres (bool * host)) : Prop :=
  match out with
  | Done (_, h') => guest_steps h h'
  | Fault f => exists h' c, guest_steps h h' /\ import_range c /\ native_call c h' = Fault f
  end.

(** What no guest can change: its arguments, and what the trusted application
    alone keeps in the session. *)
Definition same_session (s s' : chaincode_session_ctx) : Prop :=
  sc_args s' = sc_args s /\ sc_runtime s' = sc_runtime s /\
  sc_heap_buf_owned s' = sc_heap_buf_owned s /\
  sc_trusted_wasm_owned s' = sc_trusted_wasm_owned s.

Lemma same_session_refl s : same_session s s.
Proof. by repeat split. Qed.

Lemma same_session_trans s1 s2 s3 :
  same_session s1 s2 -> same_session s2 s3 -> same_session s1 s3.
Proof. intros (? & ? & ? & ?) (? & ? & ? & ?). repeat split; congruence. Qed.

Lemma call_session_same s i c : same_session s (call_session s i c).
Proof. destruct c; simpl; try case_decide; by repeat split. Qed.

Lemma guest_step_session s i h' :
  session_wf s -> guest_step (Host (Some s) (Some i)) h' ->
  exists s' i', h' = Host (Some s') (Some i') /\ session_wf s' /\ same_session s s'.
Proof.
  intros Hw Hs. remember (Host (Some s) (Some i)) as h eqn:Eh.
  destruct Hs as [s0 i0 i'|c h r h' Hr E]; simplify_eq.
  - exists s, i'. split; [done|]. split; [done|]. apply same_session_refl.
  - destruct (decide (call_safe s i c)) as [Hc|Hc].
    + destruct (native_call_spec s i c) as (i' & E' & _); [done..|].
      rewrite E' in E. simplify_eq. eexists _, _. split; [done|].
      split; [by apply call_session_wf, import_get_len|]. apply call_session_same.
    + by rewrite native_call_fault in E.
Qed.

Lemma guest_steps_session s i h' :
  session_wf s -> guest_steps (Host (Some s) (Some i)) h' ->
  exists s' i', h' = Host (Some s') (Some i') /\ session_wf s' /\ same_session s s'.
Proof.
  intros Hw Hs. remember (Host (Some s) (Some i)) as h eqn:Eh. revert s i Hw Eh.
  induction Hs as [|h h1 h' Hst Hs IH]; intros s i Hw ->.
  - exists s, i. split; [done|]. split; [done|]. apply same_session_refl.
  - apply guest_step_session in Hst as (s1 & i1 & -> & Hw1 & Hs1); [|done].
    destruct (IH s1 i1) as (s' & i' & -> & ? & ?); [done..|].
    exists s', i'. split; [done|]. split; [done|]. by eapply same_session_trans.
Qed.

Lemma guest_step_ok h h' : host_ok h -> guest_step h h' -> host_ok h'.
Proof.
  intros (s & i & -> & Hw) Hs.
  destruct (guest_step_session _ _ _ Hw Hs) as (s' & i' & -> & ? & _). by eexists _, _.
Qed.

(** The memory accesses and the calls of a [guest] program are such steps. *)
Lemma run_guest_steps {A} (t : guest A) h :
  host_ok h -> guest_all import_range (fun _ => True) t ->
  match run_guest t h with
  | GDone _ h' | GTrap h' => guest_steps h h'
  | GHostFault f => exists h' c, guest_steps h h' /\ import_range c /\ native_call c h' = Fault f
  | GOutOfFuel => True
  end.
Proof.
  revert h. induction t as [a|a k IH|a b t IH|c k IH|]; intros h Hok Ht; simpl in Ht |- *.
  - by apply rtc_refl.
  - case_decide; [|by apply rtc_refl]. by apply IH.
  - case_decide; [|by apply rtc_refl]. destruct Hok as (s & i & -> & Hw).
    specialize (IH (Host (Some s) (Some (set_inst_mem (lm_write (inst_mem i) a [b]) i)))).
    specialize (IH ltac:(by eexists _, _) Ht).
    set (h' := Host _ (Some (set_inst_mem _ _))) in *.
    assert (Hst : guest_step (Host (Some s) (Some i)) h') by constructor.
    cbn. fold h'. destruct (run_guest t h').
    + by eapply rtc_l.
    + by eapply rtc_l.
    + destruct IH as (h1 & c & ? & ?). exists h1, c. split; [by eapply rtc_l|done].
    + done.
  - destruct Ht as [Hr Ht]. destruct (native_call c h) as [[r h']|f] eqn:E.
    + assert (Hst : guest_step h h') by (by econstructor).
      specialize (IH r h' (guest_step_ok _ _ Hok Hst) (Ht r)).
      destruct (run_guest (k r) h').
      * by eapply rtc_l.
      * by eapply rtc_l.
      * destruct IH as (h1 & c' & ? & ?). exists h1, c'. split; [by eapply rtc_l|done].
      * done.
    + exists h, c. split; [by apply rtc_refl|done].
  - done.
Qed.
End sandbox.

(** ** Calls that leave the instance alone

    A call whose pointers are valid changes at most the linear memory of the
    instance: in particular it throws no exception. *)

(** The non-empty ranges that a call designates lie in a memory (a negative
    length given to [to_native] designates a range that does not). *)
Definition valid_call (m : linmem) (c : import) : Prop :=
  let ok p n := 0 < n -> in_mem m p n in
  match c with
  | cc_get_function p n | cc_return_response p n | cc_log p n => ok p n
  | cc_get_arg _ p n => 0 <= n /\ ok p n
  | cc_get_state p n p' n' => ok p n /\ 0 <= n' /\ ok p' n'
  | cc_put_state p n p' n' => ok p n /\ ok p' n'
  | debug_log _ => True
  | env_memset d _ n => ok d n
  | env_memcpy d s n | env_memmove d s n => ok d n /\ ok s n
  end.

Section quiet.
  Context `{WamrInst} `{!WamrInstLaws} (i0 : inst).

Definition same_inst (h : host) : Prop :=
  exists s m, h = Host s (Some (set_inst_mem m i0)) /\ lm_size m = lm_size (inst_mem i0).

Definition quiet {A} (m : stm host A) : Prop :=
  forall h, same_inst h -> st_post m h (fun _ => True) (fun _ h' => same_inst h').

Lemma quiet_bind {A B} (m : stm host A) (k : A -> stm host B) :
  quiet m -> (forall a, quiet (k a)) -> quiet (m ≫= k).
Proof.
  intros Hm Hk h Hh. apply st_post_bind. eapply st_post_mono; [by apply Hm|].
  intros a h' Hh'. by apply Hk.
Qed.

Lemma quiet_ret {A} (a : A) : quiet (mret a).
Proof. by intros h Hh. Qed.
Lemma quiet_gets {A} (f : host -> A) : quiet (st_gets f).
Proof. by intros h Hh. Qed.
Lemma quiet_lift {A} (r : cres A) : quiet (st_lift r).
Proof. intros h Hh. unfold st_post, st_lift. by destruct r. Qed.

Lemma quiet_sess f : quiet (sess_update f).
Proof.
  intros h (s & m & -> & Hm). unfold st_post, sess_update. simpl.
  destruct s as [s|]; [|done]. destruct (f s); [|done]. by eexists _, _.
Qed.

Lemma quiet_read p n : quiet (lin_read p n).
Proof.
  intros h (s & m & -> & Hm). unfold st_post, lin_read. simpl.
  destruct (mem_load _ p n); [|done]. by eexists _, _.
Qed.

Lemma quiet_update f :
  (forall m m', f m = Done m' -> lm_size m' = lm_size m) -> quiet (lin_update f).
Proof.
  intros Hf h (s & m & -> & Hm). unfold st_post, lin_update. simpl.
  rewrite inst_mem_set. destruct (f m) as [m'|] eqn:E; [|done].
  exists s, m'. rewrite set_inst_mem_twice. split; [done|]. apply Hf in E. lia.
Qed.

Lemma quiet_validate p n :
  0 < n -> in_mem (inst_mem i0) p n -> quiet (validate_app_addr p n).
Proof.
  intros Hn Hin h (s & m & -> & Hm). unfold st_post, validate_app_addr. simpl.
  rewrite validate_in; [by eexists _, _|done|]. rewrite inst_mem_set. unfold in_mem in *. lia.
Qed.

Lemma quiet_native p : quiet (addr_app_to_native p).
Proof. intros h (s & m & -> & Hm). by eexists _, _. Qed.

Lemma quiet_to_native p n :
  0 <= n -> (0 < n -> in_mem (inst_mem i0) p n) -> quiet (to_native p n).
Proof.
  intros Hn Hin. unfold to_native. apply quiet_bind.
  - case_decide; [|apply quiet_ret]. apply quiet_bind; [|intros; apply quiet_ret].
    apply quiet_validate; [lia|]. apply Hin. lia.
  - intros []; [apply quiet_ret|apply quiet_native].
Qed.

Lemma quiet_to_native_len p n :
  int_range n -> (0 < n -> in_mem (inst_mem i0) p n) ->
  quiet (to_native p (u32 (if decide (n > 0) then n else 0))).
Proof.
  intros [? ?] Hin. apply quiet_to_native; [apply u32_range|].
  case_decide; rewrite u32_small by lia; [auto|lia].
Qed.

Lemma mem_MemFill_size a x n m m' : mem_MemFill m a x n = Done m' -> lm_size m' = lm_size m.
Proof. apply mem_store_size. Qed.

Lemma mem_MemMove_size d s n m m' : mem_MemMove m d s n = Done m' -> lm_size m' = lm_size m.
Proof. unfold mem_MemMove. intros (bs & _ & E)%cres_bind_Done. by eapply mem_store_size. Qed.

Lemma mem_read_store_size buf o n a m m' :
  (bs ← buf_read buf o n; mem_store m a bs) = Done m' -> lm_size m' = lm_size m.
Proof. intros (bs & _ & E)%cres_bind_Done. by eapply mem_store_size. Qed.

Ltac quiet_step :=
  match goal with
  | |- quiet (_ ≫= _) => apply quiet_bind; [|intros ?]
  | |- quiet (mret _) => apply quiet_ret
  | |- quiet (st_gets _) => apply quiet_gets
  | |- quiet wasm_runtime_get_module_inst => apply quiet_gets
  | |- quiet (st_lift _) => apply quiet_lift
  | |- quiet (sess_update _) => apply quiet_sess
  | |- quiet (fill_field _ _ _) => apply quiet_sess
  | |- quiet (lin_read _ _) => apply quiet_read
  | |- quiet (lin_update _) => apply quiet_update; intros ? ?;
       first [apply mem_MemFill_size|apply mem_MemMove_size|apply mem_read_store_size]
  | |- quiet (addr_app_to_native _) => apply quiet_native
  | |- quiet (to_native _ (u32 (if _ then _ else _))) => apply quiet_to_native_len; [done|by auto]
  | |- quiet (to_native _ ?n) => apply quiet_to_native; [done || apply u32_range|by auto]
  | |- quiet (copy_in _ _ _ _) => unfold copy_in
  | |- quiet (log_copy _ _) => unfold log_copy
  | |- quiet (let _ := _ in _) => cbv zeta
  | |- quiet (if decide _ then _ else _) => case_decide
  | |- quiet (if ?b then _ else _) => destruct b
  | |- quiet (match ?o with Some _ => _ | None => _ end) => destruct o
  end.

Lemma native_call_quiet c :
  import_range c -> valid_call (inst_mem i0) c -> quiet (native_call c).
Proof.
  intros Hr Hv. destruct c; cbn in Hr, Hv; destruct_and?; simpl native_call.
  - unfold cc_get_function_native. repeat quiet_step.
    rewrite u32_small by (unfold int_range in *; lia).
    apply quiet_validate; [lia|]. apply Hv. lia.
  - unfold cc_get_arg_native. rewrite u32_small by (unfold int_range in *; lia).
    repeat quiet_step.
  - unfold cc_get_state_native. rewrite (u32_small out_len) by (unfold int_range in *; lia).
    repeat quiet_step.
  - unfold cc_put_state_native. repeat quiet_step.
  - unfold cc_return_response_native. repeat quiet_step.
  - unfold cc_log_native. repeat quiet_step.
  - apply quiet_ret.
  - unfold env_memset_native, uint_range in *; destruct_and?. repeat quiet_step.
  - unfold env_memcpy_native, uint_range in *; destruct_and?. repeat quiet_step.
  - unfold env_memmove_native, uint_range in *; destruct_and?. repeat quiet_step.
Qed.

(** The host of a guest whose calls are valid: the promises of Abi.v hold with
    the instance left alone. *)
Definition quiet_ok (h : host) : Prop := host_ok h /\ same_inst h.

Lemma quiet_mem h : same_inst h -> lm_size (h_mem h) = lm_size (inst_mem i0).
Proof. intros (s & m & -> & Hm). simpl. by rewrite inst_mem_set. Qed.

Lemma delivers_quiet c h r m v :
  quiet_ok h -> import_range c -> valid_call (inst_mem i0) c ->
  delivers host_ok c h r m v -> delivers quiet_ok c h r m v.
Proof.
  intros [_ Hi] Hr Hv (h' & E & Hok & Hm & Hview). exists h'. split; [done|].
  split; [|done]. split; [done|]. cbn in E.
  pose proof (native_call_quiet c Hr Hv h Hi) as Hq. unfold st_post in Hq. by rewrite E in Hq.
Qed.

Lemma in_mem_size m m' p n : lm_size m = lm_size m' -> in_mem m p n -> in_mem m' p n.
Proof. unfold in_mem. lia. Qed.

Lemma QuietHostLaws : lm_size (inst_mem i0) < 2 ^ 32 -> HostLaws host quiet_ok.
Proof.
  intros Hsize.
  assert (Hp : forall h p n, quiet_ok h -> in_mem (h_mem h) p n ->
    uint_range p /\ in_mem (inst_mem i0) p n).
  { intros h p n [_ Hi] Hin. apply quiet_mem in Hi. unfold uint_range, in_mem in *. lia. }
  split.
  - intros m h [Hok _]. by apply (h_mem_set (h_ok := host_ok)).
  - done.
  - intros m h [Hok Hi] Hm. split; [by apply (h_ok_set (h_ok := host_ok))|].
    rewrite (quiet_mem h Hi) in Hm. destruct Hi as (s & m' & -> & Hm').
    exists s, m. simpl. by rewrite set_inst_mem_twice.
  - intros h j [Hok _]. by apply (h_args_strings (h_ok := host_ok)).
  - intros h p n Hq Hn Hin. destruct (Hp _ _ _ Hq Hin), Hq as [Hok Hi].
    apply delivers_quiet; [by split|split; [done|unfold int_range; lia]|by intros _|].
    by apply (h_get_function (h_ok := host_ok)).
  - intros h j p n Hq Hj Hn Hin. destruct (Hp _ _ _ Hq Hin), Hq as [Hok Hi].
    apply delivers_quiet; [by split|repeat split; unfold int_range; try apply H1; lia|by split; [lia|]|].
    by apply (h_get_arg (h_ok := host_ok)).
  - intros h kp kn p n Hq Hk Hn Hkin Hin.
    destruct (Hp _ _ _ Hq Hkin) as [[? ?] ?], (Hp _ _ _ Hq Hin) as [[? ?] ?], Hq as [Hok Hi].
    apply delivers_quiet; [by split|repeat split; lia|by split; [|split; [lia|]]|].
    by apply (h_get_state (h_ok := host_ok)).
  - intros h kp kn vp vn Hq Hk Hv Hkin Hvin.
    destruct (Hp _ _ _ Hq Hkin) as [[? ?] ?], (Hp _ _ _ Hq Hvin) as [[? ?] ?], Hq as [Hok Hi].
    apply delivers_quiet; [by split|repeat split; lia|by split|].
    by apply (h_put_state (h_ok := host_ok)).
  - intros h p n Hq Hn Hin. destruct (Hp _ _ _ Hq Hin), Hq as [Hok Hi].
    apply delivers_quiet; [by split|split; [done|unfold int_range; lia]|by intros _|].
    by apply (h_return_response (h_ok := host_ok)).
Qed.
End quiet.
