(* ===== verification/ChaincodeCalls.v ===== *)
(** * The calls the chaincode can make

    Whatever its memory holds and whatever the host answers, the chaincode
    passes 32-bit arguments to its imports, asks only for its first two
    arguments, never returns a negative length, and has strings delivered only
    to its own variables: the premise under which [run_guest_steps] makes it a
    guest of the sandbox, and its native calls are safe
    ([chaincode_call_safe]). *)
From Stdlib Require Import ZArith Lia Strings.Byte Strings.String.
From stdpp Require Import base tactics option list list_numbers gmap strings.
From S2P Require Import Prelude Mem Abi Session Natives Sandbox Chaincode.

Section calls.
  Context (L : layout) (size : Z) (HL : layout_ok L size) (Hsize : size <= 2 ^ 32).
  Context (P : import -> Prop).

(** *** Functions without calls *)

Lemma strlen_loop_calls k s n :
  guest_all P (fun r => n <= r < n + Z.of_nat k) (s_strlen_loop k s n).
Proof.
  revert n. induction k as [|k IH]; intros n; simpl; [done|]. intros b. case_decide; simpl; [lia|].
  eapply guest_all_mono; [apply IH|]. simpl. lia.
Qed.

Lemma strlen_calls s : guest_all P (fun r => 0 <= r < 512) (s_strlen s).
Proof.
  unfold s_strlen. case_decide; [simpl; lia|].
  eapply guest_all_mono; [apply strlen_loop_calls|]. simpl. unfold fuel. lia.
Qed.

Lemma memset_calls d v n : guest_all P (fun _ => True) (s_memset d v n).
Proof.
  unfold s_memset. generalize 0. induction (Z.to_nat n) as [|k IH]; intros j; [done|]. apply IH.
Qed.

Lemma streq_calls a b : guest_all P (fun _ => True) (s_streq a b).
Proof.
  unfold s_streq. generalize 0. induction fuel as [|k IH]; intros j; simpl; [done|].
  intros c c'. repeat (case_decide; [done|]). apply IH.
Qed.

Lemma atoul_calls s : guest_all P (fun _ => True) (s_atoul s).
Proof.
  unfold s_atoul. case_decide; [done|]. generalize 0 at 1. generalize 0.
  induction fuel as [|k IH]; intros v j; simpl; [done|].
  intros c. destruct (is_digit c); [apply IH|done].
Qed.

Lemma ultoa_calls v out n : guest_all P (fun _ => True) (s_ultoa v out n).
Proof.
  unfold s_ultoa. case_decide; [done|]. case_decide.
  - repeat (case_decide; try done).
  - generalize 0. generalize (rev (ultoa_digits 32 v)).
    induction l as [|c l IH]; intros k; simpl; [done|]. case_decide; [apply IH|done].
Qed.

Lemma load_int_calls x : guest_all P (fun _ => True) (load_int L x).
Proof. done. Qed.
Lemma store_int_calls x v : guest_all P (fun _ => True) (store_int L x v).
Proof. done. Qed.
End calls.

(** *** The calls of the program *)

Section program.
  Context (L : layout) (size : Z) (HL : layout_ok L size) (Hsize : size <= 2 ^ 32).

(** The variable a call has a string delivered to. *)
Definition call_targets (c : import) : Prop :=
  match c with
  | cc_get_function p n | cc_get_state _ _ p n =>
      exists x, is_variable x = true /\ p = L x /\ n = object_size x
  | cc_get_arg idx p n =>
      0 <= idx <= 1 /\ exists x, is_variable x = true /\ p = L x /\ n = object_size x
  | cc_return_response _ n => 0 <= n
  | _ => True
  end.

Definition chaincode_call (c : import) : Prop := import_range c /\ call_targets c.

Lemma address_range x : uint_range (L x).
Proof.
  destruct (layout_in _ _ HL x) as [? ?]. unfold uint_range.
  assert (0 < object_size x) by (destruct x as [| | | | | | | | |[]]; done). lia.
Qed.

Lemma call_calls (Q : Z -> Prop) c :
  import_range c -> call_targets c -> (forall r, Q r) ->
  guest_all chaincode_call Q (call c).
Proof. intros. by split. Qed.

Ltac range :=
  cbn [import_range]; repeat match goal with |- _ /\ _ => split end;
  first [assumption | apply address_range | cbv [int_range KEY_MAX ARG_MAX VAL_MAX]; lia].
Ltac target :=
  cbn [call_targets]; first
    [ exact I | lia | eexists; split; [|split; reflexivity]; done
    | split; [lia|]; eexists; split; [|split; reflexivity]; done ].

Lemma ret_calls {A} (Q : A -> Prop) a : Q a -> guest_all chaincode_call Q (mret a).
Proof. done. Qed.

Lemma respond_lit_calls l n :
  0 <= n < 2 ^ 31 -> guest_all chaincode_call (fun _ => True) (respond_lit L l n).
Proof.
  intros. unfold respond_lit. apply guest_all_bind, call_calls;
    [cbn; split; [apply address_range|unfold int_range; lia]|target|intros r].
  by apply ret_calls.
Qed.

Lemma finish_calls : guest_all chaincode_call (fun _ => True) (finish L).
Proof.
  unfold finish. apply guest_all_bind.
  eapply guest_all_mono; [apply store_int_calls|intros ? _]. apply store_int_calls.
Qed.

Ltac calls :=
  repeat match goal with
  | |- guest_all _ _ (_ ≫= _) => apply guest_all_bind
  | |- guest_all _ _ (s_strlen _) => eapply guest_all_mono; [apply strlen_calls|cbv beta; intros ? ?]
  | |- guest_all _ _ (s_memset _ _ _) => eapply guest_all_mono; [apply memset_calls|intros ? _]
  | |- guest_all _ _ (s_streq _ _) => eapply guest_all_mono; [apply streq_calls|intros ? _]
  | |- guest_all _ _ (s_atoul _) => eapply guest_all_mono; [apply atoul_calls|intros ? _]
  | |- guest_all _ _ (s_ultoa _ _ _) => eapply guest_all_mono; [apply ultoa_calls|intros ? _]
  | |- guest_all _ _ (load_int _ _) => eapply guest_all_mono; [apply load_int_calls|intros ? _]
  | |- guest_all _ _ (load _) => intros ?; apply ret_calls
  | |- guest_all _ _ (store_int _ _ _) => eapply guest_all_mono; [apply store_int_calls|intros ? _]
  | |- guest_all _ _ (call _) => apply call_calls; [range|target|intros ?]
  | |- guest_all _ _ (mret _) => apply ret_calls
  | |- guest_all _ _ (respond_lit _ _ _) =>
      eapply guest_all_mono; [apply respond_lit_calls; lia|intros ? _]
  | |- guest_all _ _ (finish _) => eapply guest_all_mono; [apply finish_calls|intros ? _]
  | |- guest_all _ _ (if decide _ then _ else _) => case_decide
  | |- guest_all _ _ (let _ := _ in _) => cbv zeta
  | |- True => exact I
  | |- _ => assumption
  end.

Lemma init_calls :
  guest_all chaincode_call (fun _ => True) (cc_do_create_init L) /\
  guest_all chaincode_call (fun _ => True) (cc_do_add_init L) /\
  guest_all chaincode_call (fun _ => True) (cc_do_query_init L).
Proof.
  split; [|split]; unfold cc_do_create_init, cc_do_add_init, cc_do_query_init; calls.
Qed.

Lemma resume_calls :
  guest_all chaincode_call (fun _ => True) (cc_do_create_resume L) /\
  guest_all chaincode_call (fun _ => True) (cc_do_add_resume L) /\
  guest_all chaincode_call (fun _ => True) (cc_do_query_resume L).
Proof.
  split; [|split]; unfold cc_do_create_resume, cc_do_add_resume, cc_do_query_resume; calls.
Qed.

Lemma step_resume_calls : guest_all chaincode_call (fun _ => True) (step_resume L).
Proof.
  destruct init_calls as (? & ? & ?), resume_calls as (? & ? & ?).
  unfold step_resume, step_resume_op. calls.
Qed.
End program.

(** ** Such calls are safe

    A variable holds at most [VAL_MAX] bytes, and the first two arguments have
    at least 512 bytes of the struct from their row on. *)
Section safe.
  Context `{WamrInst}.

Lemma variable_size x : is_variable x = true -> object_size x <= 256.
Proof. by destruct x. Qed.

Lemma chaincode_call_safe L s i c : session_wf s -> chaincode_call L c -> call_safe s i c.
Proof.
  intros Hw [_ Ht]. destruct c; cbn in Ht |- *; try done.
  - destruct Ht as (x & Hx & -> & ->). intros _ _. left.
    pose proof (variable_size x Hx). rewrite (wf_args _ Hw). lia.
  - destruct Ht as (Hi & x & Hx & -> & ->). intros _ _. left.
    pose proof (variable_size x Hx). unfold arg_of, ARGS_NUMBER.
    rewrite decide_True, length_drop, (wf_args _ Hw) by lia. unfold argument_off, ARG_SIZE. lia.
Qed.
End safe.

(** A program whose calls are safe in every well formed session does not fault
    in the trusted application. *)
Lemma run_guest_safe `{WamrInst} `{!WamrInstLaws} {A} (P : import -> Prop) (t : guest A) h f :
  (forall c, P c -> import_range c) ->
  (forall s i c, session_wf s -> P c -> call_safe s i c) ->
  host_ok h -> guest_all P (fun _ => True) t -> run_guest t h <> GHostFault f.
Proof.
  intros Hr Hs. revert h. induction t as [a|a k IH|a b t IH|c k IH|]; intros h Hok Ht; simpl in Ht |- *.
  - done.
  - case_decide; [by apply IH|done].
  - case_decide; [|done]. apply IH; [|done]. destruct Hok as (s & i & -> & Hw). by eexists _, _.
  - destruct Ht as [Hc Ht]. pose proof Hok as (s & i & -> & Hw).
    destruct (native_call_spec s i c Hw (Hr c Hc) (Hs s i c Hw Hc)) as (i' & E & _).
    rewrite E. apply IH; [|done]. eapply guest_step_ok; [exact Hok|]. by econstructor; [apply Hr|].
  - done.
Qed.
