(* ===== verification/Ta.v ===== *)
(** * The trusted application

    [main.c]: the entry points of the GlobalPlatform TA interface.  A command
    runs over the globals of the TA ([ta]) and the four parameters of the
    invocation, which it shares with the proxy; [cmd] is that store. *)
From Stdlib Require Import ZArith Lia Strings.Byte Strings.String.
From stdpp Require Import base tactics option list list_numbers gmap strings.
From S2P Require Import Prelude Mem Abi Session Natives WamrTa.

Definition COMMAND_RUN_WASM : Z := 0.
Definition COMMAND_CONFIGURE_HEAP : Z := 1.
Definition COMMAND_RESUME_WASM : Z := 2.

(** ** Parameters of an invocation

    GlobalPlatform's parameter types and their packing; a parameter is a value
    pair or a memory reference, whose buffer has exactly its size. *)

Definition TEE_PARAM_TYPE_NONE : Z := 0.
Definition TEE_PARAM_TYPE_VALUE_INPUT : Z := 1.
Definition TEE_PARAM_TYPE_VALUE_INOUT : Z := 3.
Definition TEE_PARAM_TYPE_MEMREF_INPUT : Z := 5.
Definition TEE_PARAM_TYPE_MEMREF_INOUT : Z := 7.

Definition TEE_PARAM_TYPES (t0 t1 t2 t3 : Z) : Z :=
  Z.lor t0 (Z.lor (Z.shiftl t1 4) (Z.lor (Z.shiftl t2 8) (Z.shiftl t3 12))).

(** The member of the union that the parameter's type selects is the one used. *)
Record TEE_Param := Param { p_value_a : Z; p_value_b : Z; p_memref : list byte }.

Record params4 := Params { p0 : TEE_Param; p1 : TEE_Param; p2 : TEE_Param; p3 : TEE_Param }.

Definition memref_size (p : TEE_Param) : Z := Z.of_nat (length (p_memref p)).

Section main.
  Context `{TaEnv}.

Record cmd := Cmd { c_ta : ta; c_params : params4 }.

(** Code that touches the globals only, and writes to the parameters. *)
Definition on_ta {A} (m : stm ta A) : stm cmd A := fun c =>
  match m (c_ta c) with
  | Done (a, t) => Done (a, Cmd t (c_params c))
  | Fault f => Fault f
  end.

Definition set_value_a (v : Z) : stm cmd unit := st_modify (fun c =>
  let p := c_params c in
  Cmd (c_ta c) (Params (p0 p) (Param v (p_value_b (p1 p)) (p_memref (p1 p))) (p2 p) (p3 p))).

Definition write_p2 (f : list byte -> cres (list byte)) : stm cmd unit := fun c =>
  let p := c_params c in
  match f (p_memref (p2 p)) with
  | Done b => Done (tt, Cmd (c_ta c)
      (Params (p0 p) (p1 p) (Param (p_value_a (p2 p)) (p_value_b (p2 p)) b) (p3 p)))
  | Fault e => Fault e
  end.

(** [*g_chaincode_sess] *)
Definition get_sess : stm ta chaincode_session_ctx := fun t =>
  match g_chaincode_sess t with Some s => Done (s, t) | None => Fault NullDeref end.

Definition put_sess (f : chaincode_session_ctx -> cres chaincode_session_ctx) : stm ta unit :=
  s ← get_sess; s' ← st_lift (f s); st_modify (set_ta_sess (Some s')).

(** [sc->runtime->...]: the pointer must not be NULL. *)
Definition deref_runtime : stm ta unit :=
  sc ← get_sess; if sc_runtime sc then mret tt else st_fault NullDeref.

(** ** Sessions *)

Definition TA_CreateEntryPoint : stm ta Z := mret TEE_SUCCESS.
Definition TA_DestroyEntryPoint : stm ta unit := mret tt.

(** The second component says whether [*sess_ctx] has been set. *)
Definition TA_OpenSessionEntryPoint (param_types : Z) : stm ta (Z * bool) :=
  let exp_param_types := TEE_PARAM_TYPES TEE_PARAM_TYPE_NONE TEE_PARAM_TYPE_NONE
    TEE_PARAM_TYPE_NONE TEE_PARAM_TYPE_NONE in
  if decide (param_types <> exp_param_types) then mret (TEE_ERROR_BAD_PARAMETERS, false) else
  sess ← st_gets g_chaincode_sess;
  match sess with
  | None =>
      ok ← env_call (TEE_Malloc (sizeof_arguments + KEY_SIZE + VAL_SIZE + RESPONSE_SIZE + 40));
      if negb ok then mret (TEE_ERROR_OUT_OF_MEMORY, false)
      else st_modify (set_ta_sess (Some session_zero));; mret (TEE_SUCCESS, true)
  | Some _ => mret (TEE_SUCCESS, true)
  end.

Definition TA_CloseSessionEntryPoint : stm ta unit := mret tt.

Definition TA_SetHeapSize (size : Z) : stm ta Z :=
  st_modify (set_ta_heap size);; mret TEE_SUCCESS.

(** ** Stepping the guest *)

Definition call_step (name : string) : stm ta bool :=
  fn ← lookup_function name;
  match fn with
  | None =>
      lookup_function "main";; lookup_function "get_request_ptr";;
      lookup_function "get_response_ptr";;
      mret false
  | Some fn =>
      pre_ex ← get_exception;
      (match pre_ex with Some _ => clear_exception | None => mret tt end);;
      ctx ← st_gets runtime_ctx;
      have_env ←
        (if wc_exec_env ctx then mret true
         else match wc_module_inst ctx with
              | None => st_fault NullDeref
              | Some i =>
                  created ← env_call (wasm_runtime_create_exec_env i (256 * 1024));
                  ctx_update (set_exec_env created);;
                  mret created
              end);
      if negb have_env then mret false else
      clear_exception;;
      ok ← on_instance (wasm_runtime_call_wasm fn);
      ex ← get_exception;
      ok ← (match ex with
            | Some ex =>
                clear_exception;;
                mret (strstr ex "out of bounds" || strstr ex "null pointer" || ok)
            | None => mret ok
            end);
      (if ok : bool then
         ctx ← st_gets runtime_ctx;
         if wc_exec_env ctx
         then env_do wasm_runtime_destroy_exec_env;; ctx_update (set_exec_env false)
         else mret tt
       else mret tt);;
      mret ok
  end.

(** [TEE_MemFill(p, 0, size); TEE_MemMove(p->..., text, n)] on the shared buffer. *)
Definition answer (size : Z) (text : list byte) (n : Z) : stm cmd unit :=
  write_p2 (fun b => buf_MemFill b 0 0 size);;
  write_p2 (fun b => buf_MemMove b 0 text 0 n).

(** What the native functions have recorded, handed to the proxy: the pending
    request, or else the response. *)
Definition hostcall_reply (sc : chaincode_session_ctx) : stm cmd Z :=
  if decide (sc_pending_type sc = GET_STATE_REQUEST) then
    set_value_a GET_STATE_REQUEST;;
    write_p2 (fun b => buf_MemFill b 0 0 sizeof_key_value);;
    n ← st_lift (safe_strlen (Some (sc_key sc)) (KEY_SIZE - 1));
    write_p2 (fun b => buf_MemMove b kv_key_off (sc_key sc) 0 n);;
    mret TEE_SUCCESS
  else if decide (sc_pending_type sc = PUT_STATE_REQUEST) then
    set_value_a PUT_STATE_REQUEST;;
    write_p2 (fun b => buf_MemFill b 0 0 sizeof_key_value);;
    n ← st_lift (safe_strlen (Some (sc_key sc)) (KEY_SIZE - 1));
    write_p2 (fun b => buf_MemMove b kv_key_off (sc_key sc) 0 n);;
    n ← st_lift (safe_strlen (Some (sc_value sc)) (VAL_SIZE - 1));
    write_p2 (fun b => buf_MemMove b kv_value_off (sc_value sc) 0 n);;
    mret TEE_SUCCESS
  else
    set_value_a INVOCATION_RESPONSE;;
    write_p2 (fun b => buf_MemFill b 0 0 sizeof_invocation_response);;
    sess ← on_ta (st_gets g_chaincode_sess);
    (match sess with
     | Some s =>
         if decide (sc_has_response s <> 0) then
           resp_len ← st_lift (safe_strlen (Some (sc_response s)) (RESPONSE_SIZE - 1));
           if decide (resp_len > 0)
           then write_p2 (fun b => buf_MemMove b 0 (sc_response s) 0 resp_len)
           else write_p2 (fun b => buf_MemMove b 0 (bytes "EMPTY_RESPONSE") 0 14)
         else write_p2 (fun b => buf_MemMove b 0 (bytes "NO_RESPONSE") 0 11)
     | None => write_p2 (fun b => buf_MemMove b 0 (bytes "NO_RESPONSE") 0 11)
     end);;
    mret TEE_SUCCESS.

(** Step the guest, then hand its request or its response to the proxy. *)
Definition process_hostcall_flow : stm cmd Z :=
  on_ta deref_runtime;;
  ok ← on_ta (call_step "step_resume");
  if negb ok then
    on_ta get_exception;;
    set_value_a INVOCATION_RESPONSE;;
    answer sizeof_invocation_response (bytes "RUNTIME_ERROR") 13;;
    mret TEE_SUCCESS
  else
    sc ← on_ta get_sess;
    hostcall_reply sc.

(** ** The commands *)

Definition run_param_types : Z := TEE_PARAM_TYPES TEE_PARAM_TYPE_MEMREF_INPUT
  TEE_PARAM_TYPE_VALUE_INOUT TEE_PARAM_TYPE_MEMREF_INOUT TEE_PARAM_TYPE_MEMREF_INOUT.
Definition resume_param_types : Z := TEE_PARAM_TYPES TEE_PARAM_TYPE_NONE
  TEE_PARAM_TYPE_VALUE_INOUT TEE_PARAM_TYPE_MEMREF_INOUT TEE_PARAM_TYPE_MEMREF_INOUT.
Definition heap_param_types : Z := TEE_PARAM_TYPES TEE_PARAM_TYPE_VALUE_INPUT
  TEE_PARAM_TYPE_NONE TEE_PARAM_TYPE_NONE TEE_PARAM_TYPE_NONE.

(** The part of [COMMAND_RUN_WASM] up to the prepared runtime. *)
Definition run_prepare : stm cmd Z :=
  params ← st_gets c_params;
  on_ta (TA_SetOutputBuffer (p_memref (p3 params)) (memref_size (p3 params)));;
  on_ta (put_sess (fun sc =>
    a ← (if decide (memref_size (p2 params) >= sizeof_arguments)
         then buf_MemMove (sc_args sc) 0 (p_memref (p2 params)) 0 sizeof_arguments
         else buf_MemFill (sc_args sc) 0 0 sizeof_arguments);
    Done (set_args a sc)));;
  set_value_a 0;;
  hs ← on_ta (st_gets heap_size);
  ok1 ← on_ta (env_call (TEE_Malloc hs));
  ok2 ← on_ta (env_call (TEE_Malloc (memref_size (p0 params))));
  let heap := if ok1 : bool then Some hs else None in
  if negb (ok1 && ok2) then
    on_ta (put_sess (fun sc => Done (set_owned heap
      (if ok2 : bool then Some (replicate (length (p_memref (p0 params))) x00) else None) sc)));;
    mret TEE_ERROR_OUT_OF_MEMORY
  else
    on_ta (put_sess (fun sc => Done (set_owned heap (Some (p_memref (p0 params))) sc)));;
    on_ta (ctx_update (fun _ =>
      WamrCtx (Some (p_memref (p0 params))) (u32 (memref_size (p0 params))) (replicate 32 x00)
        heap (u32 hs) None None false
        chaincode_native_symbols (chaincode_native_symbols_size)));;
    r ← on_ta (TA_InitializeWamrRuntime 1 [""%string]);
    if decide (r <> TEE_SUCCESS) then mret r
    else on_ta (put_sess (fun sc => Done (set_runtime true sc)));; mret TEE_SUCCESS.

Definition command_run : stm cmd Z :=
  sess ← on_ta (st_gets g_chaincode_sess);
  match sess with
  | None => mret TEE_ERROR_GENERIC
  | Some _ =>
    r ← run_prepare;
    if decide (r <> TEE_SUCCESS) then mret r else
    ctx ← on_ta (st_gets runtime_ctx);
    match wc_module_inst ctx with
    | None => mret TEE_ERROR_GENERIC
    | Some _ =>
      ok ← on_ta (call_step "step_init");
      if negb ok then
        on_ta get_exception;;
        set_value_a INVOCATION_RESPONSE;;
        answer sizeof_invocation_response (bytes "STEP_INIT_FAILED" ++ [x00]) 17;;
        mret TEE_ERROR_GENERIC
      else process_hostcall_flow
    end
  end.

(** [if (validate_app_addr(..)) out_native = addr_app_to_native(..)] *)
Definition out_buffer (off len : Z) : stm ta (option Z) := fun t =>
  match wc_module_inst (runtime_ctx t) with
  | None => Fault NullDeref
  | Some i =>
      let r := wasm_runtime_validate_app_addr i off (u32 len) in
      Done (if r.1 then wasm_runtime_addr_app_to_native r.2 off else None,
            set_ta_ctx (set_module_inst (Some r.2) (runtime_ctx t)) t)
  end.

(** [TEE_MemFill(out, 0, out_len); TEE_MemMove(out, src, len)] *)
Definition write_out (out out_len : Z) (src : list byte) (len : Z) : stm ta unit := fun t =>
  match wc_module_inst (runtime_ctx t) with
  | None => Fault NullDeref
  | Some i =>
      m ← mem_MemFill (inst_mem i) out 0 (u64 out_len);
      bs ← buf_read src 0 len;
      m' ← mem_store m out bs;
      Done (tt, set_ta_ctx (set_module_inst (Some (set_inst_mem m' i)) (runtime_ctx t)) t)
  end.

(** The reply to a pending GET: copied to the buffer the guest designated. *)
Definition deliver_value (sc : chaincode_session_ctx) : stm cmd unit :=
  params ← st_gets c_params;
  let kv_value := drop (Z.to_nat kv_value_off) (p_memref (p2 params)) in
  n ← st_lift (safe_strlen (Some kv_value) (u64 (u64 (sc_wasm_out_len sc) - 1)));
  let len := i32 n in
  out_native ←
    (if decide (sc_wasm_out_offset sc <> 0 /\ sc_wasm_out_len sc > 0)
     then on_ta (out_buffer (sc_wasm_out_offset sc) (sc_wasm_out_len sc))
     else mret None);
  match out_native with
  | Some out =>
      if decide (len > 0)
      then on_ta (write_out out (sc_wasm_out_len sc) kv_value len)
      else mret tt
  | None => mret tt
  end.

Definition command_resume : stm cmd Z :=
  sess ← on_ta (st_gets g_chaincode_sess);
  match sess with
  | None => mret TEE_ERROR_GENERIC
  | Some sc =>
    if negb (sc_runtime sc) then mret TEE_ERROR_GENERIC else
    (if decide (sc_pending_type sc = GET_STATE_REQUEST) then
       deliver_value sc;;
       on_ta (put_sess (fun s => Done (set_wasm_out 0 0 (set_pending_type 0 s))))
     else if decide (sc_pending_type sc = PUT_STATE_REQUEST) then
       on_ta (put_sess (fun s => Done (set_pending_type 0 s)))
     else mret tt);;
    process_hostcall_flow
  end.

Definition TA_InvokeCommandEntryPoint (cmd_id param_types : Z) : stm cmd Z :=
  if decide (cmd_id = COMMAND_CONFIGURE_HEAP) then
    if decide (heap_param_types <> param_types) then mret TEE_ERROR_BAD_PARAMETERS
    else params ← st_gets c_params; on_ta (TA_SetHeapSize (u32 (p_value_a (p0 params))))
  else if decide (cmd_id = COMMAND_RUN_WASM) then
    if decide (param_types = run_param_types) then command_run
    else mret TEE_ERROR_BAD_PARAMETERS
  else if decide (cmd_id = COMMAND_RESUME_WASM) then
    if decide (param_types = resume_param_types) then command_resume
    else mret TEE_ERROR_BAD_PARAMETERS
  else mret TEE_ERROR_BAD_PARAMETERS.
End main.
