(* ===== verification/TaLogic.v ===== *)
(** * The trusted application under any guest

    What the commands do when the module they run is arbitrary: the runtime
    promises ([TaLaws]) only that a guest acts through its instance and the
    native functions.  [ready] is the state of a trusted application with an
    open session and an instantiated module, [evolves] what running a guest can
    make of it, and [guest_fault] the one way in which stepping a guest can
    fault: the function of the module that the step calls makes, from the state
    the step calls it in, a native call outside of what Natives.v shows to be
    safe. *)
From Stdlib Require Import ZArith Lia Strings.Byte Strings.String.
From stdpp Require Import base tactics option list list_numbers gmap strings.
From S2P Require Import Prelude Mem Abi Session Natives Sandbox WamrTa Ta.

(** WAMR's documentation: a call of an exported function runs the guest in the
    sandbox of its instance, with the registered functions as its imports. *)
Class TaLaws `{TaEnv} : Prop := {
  call_wasm_outcome fn h : host_ok h -> guest_outcome h (wasm_runtime_call_wasm fn h);
  execute_main_outcome h : host_ok h -> guest_outcome h (wasm_application_execute_main h);
}.

Section logic.
  Context `{TaEnv} `{!WamrInstLaws}.

(** ** States *)

Definition ready (t : ta) : Prop :=
  exists s i, g_chaincode_sess t = Some s /\ session_wf s /\
    wc_module_inst (runtime_ctx t) = Some i.

(** The globals no guest can reach are as before, and so is what the session
    keeps from it. *)
Definition same_ta (t t' : ta) : Prop :=
  heap_size t' = heap_size t /\
  singleton_wamr_context t' = singleton_wamr_context t /\
  forall s s', g_chaincode_sess t = Some s -> g_chaincode_sess t' = Some s' -> same_session s s'.

Definition evolves (t t' : ta) : Prop := ready t' /\ same_ta t t'.

(** A native call that faults: what it is asked to do is not safe there. *)
Definition unsafe_call (h : host) (f : fault) : Prop :=
  exists s i c, h = Host (Some s) (Some i) /\ import_range c /\ ~ call_safe s i c /\
    native_call c h = Fault f /\ f = OutOfBounds.

(** The host on which [call_step] calls the guest. *)
Definition armed i : inst :=
  wasm_runtime_clear_exception
    (match wasm_runtime_get_exception i with
     | Some _ => wasm_runtime_clear_exception i | None => i end).
Definition step_host t i : host := Host (g_chaincode_sess t) (Some (armed i)).

(** The step [name] of the module in [t] faults: its call of the function of
    that name does, at an unsafe native call the guest reaches from there. *)
Definition guest_fault (name : string) (t : ta) (f : fault) : Prop :=
  exists i fn h, wc_module_inst (runtime_ctx t) = Some i /\
    wasm_runtime_lookup_function i name = Some fn /\
    wasm_runtime_call_wasm fn (step_host t i) = Fault f /\
    guest_steps (step_host t i) h /\ unsafe_call h f.

Lemma same_ta_eq t t' :
  heap_size t' = heap_size t -> singleton_wamr_context t' = singleton_wamr_context t ->
  g_chaincode_sess t' = g_chaincode_sess t -> same_ta t t'.
Proof.
  intros ? ? Es. split; [done|]. split; [done|]. intros s s' E E'. simplify_eq.
  assert (s' = s) as -> by congruence. apply same_session_refl.
Qed.

Lemma same_ta_refl t : same_ta t t.
Proof. by apply same_ta_eq. Qed.

Lemma same_ta_trans t1 t2 t3 : ready t2 -> same_ta t1 t2 -> same_ta t2 t3 -> same_ta t1 t3.
Proof.
  intros (s2 & i2 & E2 & _) (? & ? & H12) (? & ? & H23). split; [congruence|].
  split; [congruence|]. intros s s' E E'. eapply same_session_trans; eauto.
Qed.

Lemma evolves_refl t : ready t -> evolves t t.
Proof. intros. split; [done|]. apply same_ta_refl. Qed.

Lemma evolves_trans t1 t2 t3 : evolves t1 t2 -> evolves t2 t3 -> evolves t1 t3.
Proof. intros [? ?] [? ?]. split; [done|]. by apply (same_ta_trans t1 t2 t3). Qed.

(** ** Code that runs between ready states

    [E] is what is known of its faults. *)

Definition steps (E : fault -> Prop) {A} (m : stm ta A) : Prop :=
  forall t, ready t -> st_post m t E (fun _ t' => evolves t t').

Section faults.
  Context (F : fault -> Prop).

Lemma steps_bind {A B} (m : stm ta A) (k : A -> stm ta B) :
  steps F m -> (forall a, steps F (k a)) -> steps F (m ≫= k).
Proof.
  intros Hm Hk t Ht. apply st_post_bind. eapply st_post_mono; [by apply Hm|].
  intros a t' Ht'. eapply st_post_mono; [apply Hk, Ht'|].
  intros b t'' Ht''. by apply (evolves_trans t t' t'').
Qed.

Lemma steps_ret {A} (a : A) : steps F (mret a).
Proof. intros t Ht. by apply evolves_refl. Qed.

Lemma steps_gets {A} (f : ta -> A) : steps F (st_gets f).
Proof. intros t Ht. by apply evolves_refl. Qed.

(** The runtime context, whose instance is there. *)
Lemma steps_ctx {B} (k : wamr_context -> stm ta B) :
  (forall ctx i, wc_module_inst ctx = Some i -> steps F (k ctx)) ->
  steps F (st_gets runtime_ctx ≫= k).
Proof.
  intros Hk t Ht. destruct Ht as (s & i & Es & Hw & Ei) eqn:E. clear E.
  apply st_post_bind, st_post_gets. by apply (Hk _ i).
Qed.

(** Changes of the environment and of the context's other fields. *)
Lemma evolves_env t e : ready t -> evolves t (set_ta_env e t).
Proof. intros Ht. split; [exact Ht|]. by apply same_ta_eq. Qed.

Lemma evolves_ctx t f :
  (forall c i, wc_module_inst c = Some i -> exists i', wc_module_inst (f c) = Some i') ->
  ready t -> evolves t (set_ta_ctx (f (runtime_ctx t)) t).
Proof.
  intros Hf (s & i & ? & ? & Ei). destruct (Hf _ _ Ei) as [i' Ei'].
  split; [by exists s, i'|]. by apply same_ta_eq.
Qed.

Lemma steps_env_call {A} (f : env -> A * env) : steps F (env_call f).
Proof. intros t Ht. by apply evolves_env. Qed.

Lemma steps_env_do f : steps F (env_do f).
Proof. intros t Ht. by apply evolves_env. Qed.

Lemma steps_ctx_update f :
  (forall c i, wc_module_inst c = Some i -> exists i', wc_module_inst (f c) = Some i') ->
  steps F (ctx_update f).
Proof. intros Hf t Ht. by apply evolves_ctx. Qed.

Lemma steps_lookup name : steps F (lookup_function name).
Proof.
  intros t Ht. pose proof Ht as (s & i & _ & _ & Ei). unfold st_post, lookup_function.
  rewrite Ei. by apply evolves_refl.
Qed.

Lemma steps_get_exception : steps F get_exception.
Proof.
  intros t Ht. pose proof Ht as (s & i & _ & _ & Ei). unfold st_post, get_exception.
  rewrite Ei. by apply evolves_refl.
Qed.

Lemma steps_clear_exception : steps F clear_exception.
Proof.
  intros t Ht. pose proof Ht as (s & i & _ & _ & Ei). unfold st_post, clear_exception.
  rewrite Ei. apply (evolves_ctx t (set_module_inst _)); [|done]. by eexists.
Qed.

End faults.

(** A call of the guest: the session is still there, or a call was unsafe. *)
Lemma on_instance_post f t s i :
  (forall h, host_ok h -> guest_outcome h (f h)) ->
  g_chaincode_sess t = Some s -> session_wf s -> wc_module_inst (runtime_ctx t) = Some i ->
  let h := Host (g_chaincode_sess t) (Some i) in
  st_post (on_instance f) t
    (fun e => f h = Fault e /\ exists h', guest_steps h h' /\ unsafe_call h' e)
    (fun _ t' => evolves t t').
Proof.
  intros Hf Es Hw Ei h. unfold st_post, on_instance. rewrite Ei. fold h.
  assert (Eh : h = Host (Some s) (Some i)) by (unfold h; by rewrite Es).
  specialize (Hf h ltac:(by eexists _, _)).
  destruct (f h) as [[ok h']|e]; simpl in Hf.
  - rewrite Eh in Hf. apply guest_steps_session in Hf as (s' & i' & -> & Hw' & Hs); [|done].
    split; [by exists s', i'|]. split; [done|]. split; [done|]. simpl. intros. by simplify_eq.
  - destruct Hf as (h' & c & Hst & Hr & E). split; [done|]. exists h'. split; [done|].
    rewrite Eh in Hst. apply guest_steps_session in Hst as (s' & i' & -> & Hw' & Hs); [|done].
    assert (Hc : ~ call_safe s' i' c).
    { intros Hc. destruct (native_call_spec s' i' c Hw' Hr Hc) as (? & E' & _). by rewrite E' in E. }
    exists s', i', c. rewrite native_call_fault in E |- * by done. by simplify_eq.
Qed.

Lemma steps_on_instance f :
  (forall h, host_ok h -> guest_outcome h (f h)) ->
  steps (fun e => e = OutOfBounds) (on_instance f).
Proof.
  intros Hf t (s & i & Es & Hw & Ei).
  pose proof (on_instance_post f t s i Hf Es Hw Ei) as Hp. unfold st_post in Hp |- *.
  destruct (on_instance f t) as [[ok t']|e]; [exact Hp|].
  by destruct Hp as (_ & h' & _ & s' & i' & c & _ & _ & _ & _ & ->).
Qed.
End logic.

Create HintDb steps.
#[export] Hint Resolve steps_ret steps_gets steps_env_call steps_env_do steps_lookup
  steps_get_exception steps_clear_exception : steps.

Ltac steps_step :=
  match goal with
  | |- steps _ (st_gets runtime_ctx ≫= _) => apply steps_ctx; intros ? ? ?
  | |- steps _ (_ ≫= _) => apply steps_bind; [|intros ?]
  | |- steps _ (on_instance _) => apply steps_on_instance; intros ? ?
  | |- steps _ (ctx_update _) => apply steps_ctx_update; intros ? ? ?; by eexists
  | |- steps _ (match ?o with Some _ => _ | None => _ end) => destruct o eqn:?; simplify_eq
  | |- steps _ (if ?b then _ else _) => destruct b
  | |- steps _ _ => solve [eauto with steps]
  end.

Section guests.
  Context `{TaEnv} `{!WamrInstLaws} `{!TaLaws}.

(** What a step does before and after its call of the guest does not fault. *)
Lemma steps_after {A} (m : stm ta A) E t t1 :
  steps (fun _ => False) m -> evolves t t1 -> st_post m t1 E (fun _ t' => evolves t t').
Proof.
  intros Hm Ht1. pose proof (Hm t1 (proj1 Ht1)) as Hp. unfold st_post in *.
  destruct (m t1) as [[a t']|f]; [by eapply evolves_trans|done].
Qed.

(** [t1] is [t] but for the environment, with the guest's instance in [i]. *)
Definition same_guest t i t1 : Prop :=
  evolves t t1 /\ g_chaincode_sess t1 = g_chaincode_sess t /\
  wc_module_inst (runtime_ctx t1) = Some i.

Lemma clear_post E t i t1 :
  same_guest t i t1 ->
  st_post clear_exception t1 E (fun _ t2 => same_guest t (wasm_runtime_clear_exception i) t2).
Proof.
  intros (He & Es & Ei). unfold st_post, clear_exception. rewrite Ei. split; [|done].
  eapply evolves_trans; [exact He|]. apply (evolves_ctx t1 (set_module_inst _)); [by eexists|apply He].
Qed.

Lemma clear_pending_post E t i :
  same_guest t i t ->
  st_post (match wasm_runtime_get_exception i with Some _ => clear_exception | None => mret tt end) t E
    (fun _ t2 => same_guest t (match wasm_runtime_get_exception i with
       | Some _ => wasm_runtime_clear_exception i | None => i end) t2).
Proof. intros Hg. destruct (wasm_runtime_get_exception i); [by apply clear_post|by apply st_post_ret]. Qed.

Lemma exec_env_post E t i t1 :
  same_guest t i t1 ->
  st_post (if wc_exec_env (runtime_ctx t1) then mret true
    else match wc_module_inst (runtime_ctx t1) with
         | None => st_fault NullDeref
         | Some i => created ← env_call (wasm_runtime_create_exec_env i (256 * 1024));
             ctx_update (set_exec_env created);; mret created
         end) t1 E (fun _ t2 => same_guest t i t2).
Proof.
  intros (He & Es & Ei). destruct (wc_exec_env (runtime_ctx t1)); [by apply st_post_ret|].
  rewrite Ei. unfold st_post. cbn. split; [|done]. eapply evolves_trans; [exact He|].
  eapply evolves_trans; [apply evolves_env, He|].
  apply (evolves_ctx _ (set_exec_env _)); [by eexists|apply evolves_env, He].
Qed.

(** A step faults only where its call of the guest does. *)
Lemma call_step_post name t :
  ready t -> st_post (call_step name) t (guest_fault name t) (fun _ t' => evolves t t').
Proof.
  intros Ht. pose proof Ht as (s & i & Es & Hw & Ei). unfold call_step.
  assert (Hg : same_guest t i t) by (split; [by apply evolves_refl|done]).
  apply st_post_bind. eapply st_post_eq; [unfold lookup_function; by rewrite Ei|].
  destruct (wasm_runtime_lookup_function i name) as [fn|] eqn:Efn.
  2: { apply steps_after; [repeat steps_step|by apply evolves_refl]. }
  apply st_post_bind. eapply st_post_eq; [unfold get_exception; by rewrite Ei|].
  apply st_post_bind. eapply st_post_mono; [by apply clear_pending_post|]. intros ? t1 Hg1.
  apply st_post_bind, st_post_gets, st_post_bind.
  eapply st_post_mono; [apply exec_env_post, Hg1|]. intros ok t2 Hg2.
  destruct (negb ok); [apply st_post_ret, Hg2|].
  apply st_post_bind. eapply st_post_mono; [apply clear_post, Hg2|].
  intros ? t3 (He & Es3 & Ei3). fold (armed i) in Ei3.
  destruct (proj1 He) as (s3 & i3 & Es3' & Hw3 & _).
  pose proof (on_instance_post (wasm_runtime_call_wasm fn) t3 s3 (armed i)) as Hp.
  specialize (Hp ltac:(intros; by apply call_wasm_outcome) Es3' Hw3 Ei3). cbv zeta in Hp.
  rewrite Es3 in Hp. fold (step_host t i) in Hp.
  apply st_post_bind. unfold st_post in Hp |- *.
  destruct (on_instance (wasm_runtime_call_wasm fn) t3) as [[ok' t4]|f].
  - apply steps_after; [repeat steps_step|by eapply evolves_trans].
  - destruct Hp as (Ef & h & Hst & Hu). by exists i, fn, h.
Qed.

Lemma try_functions_steps names : steps (fun e => e = OutOfBounds) (try_functions names).
Proof.
  induction names as [|name names IH]; simpl; repeat steps_step; try done.
  by apply call_wasm_outcome.
Qed.

Lemma execute_steps : steps (fun e => e = OutOfBounds) TA_ExecuteWamrRuntime.
Proof.
  unfold TA_ExecuteWamrRuntime.
  repeat first [apply try_functions_steps | steps_step];
    first [by apply call_wasm_outcome | by apply execute_main_outcome].
Qed.
End guests.

(** ** What the proxy is told *)

(** The code in [params[1]] and the struct at the front of [params[2]] that
    report a session: key and value of the pending request, or the response. *)
Definition reply_code (s : chaincode_session_ctx) : Z :=
  if decide (sc_pending_type s = GET_STATE_REQUEST) then GET_STATE_REQUEST
  else if decide (sc_pending_type s = PUT_STATE_REQUEST) then PUT_STATE_REQUEST
  else INVOCATION_RESPONSE.

Definition response_text (s : chaincode_session_ctx) : list byte :=
  if decide (sc_has_response s = 0) then bytes "NO_RESPONSE"
  else if decide (cstr (sc_response s) = []) then bytes "EMPTY_RESPONSE"
  else take 255 (cstr (sc_response s)).

Definition reply_struct (s : chaincode_session_ctx) : list byte :=
  if decide (sc_pending_type s = GET_STATE_REQUEST)
  then pad 320 (take 63 (cstr (sc_key s)))
  else if decide (sc_pending_type s = PUT_STATE_REQUEST)
  then pad 64 (take 63 (cstr (sc_key s))) ++ pad 256 (take 255 (cstr (sc_value s)))
  else pad 256 (response_text s).

Definition with_p2 (b : list byte) (p : params4) : params4 :=
  Params (p0 p) (p1 p) (Param (p_value_a (p2 p)) (p_value_b (p2 p)) b) (p3 p).
Definition with_value_a (v : Z) (p : params4) : params4 :=
  Params (p0 p) (Param v (p_value_b (p1 p)) (p_memref (p1 p))) (p2 p) (p3 p).

Definition reply_params (code : Z) (struct : list byte) (p : params4) : params4 :=
  with_p2 (splice 0 struct (p_memref (p2 p))) (with_value_a code p).

Ltac sizes :=
  cbv [sizeof_key_value sizeof_invocation_response kv_value_off KEY_SIZE VAL_SIZE RESPONSE_SIZE
       memref_size] in *;
  cbn [p2 with_value_a with_p2 p_memref] in *; rewrite ?length_take; lia.

Section reply.
  Context `{TaEnv}.
  Implicit Types (t : ta) (p : params4) (s : chaincode_session_ctx).

Lemma write_p2_eq f t p b :
  f (p_memref (p2 p)) = Done b -> write_p2 f (Cmd t p) = Done (tt, Cmd t (with_p2 b p)).
Proof. intros E. unfold write_p2. simpl. by rewrite E. Qed.

Lemma on_ta_eq {A} (m : stm ta A) t p a t' :
  m t = Done (a, t') -> on_ta m (Cmd t p) = Done (a, Cmd t' p).
Proof. intros E. unfold on_ta. simpl. by rewrite E. Qed.

Lemma set_value_a_eq v t p : set_value_a v (Cmd t p) = Done (tt, Cmd t (with_value_a v p)).
Proof. done. Qed.

(** A struct zeroed at the front of the buffer, then a string copied into a
    field of it. *)
Lemma fill_front b n :
  0 <= n <= Z.of_nat (length b) -> buf_MemFill b 0 0 n = Done (splice 0 (replicate (Z.to_nat n) x00) b).
Proof.
  intros. unfold buf_MemFill. rewrite buf_write_ok; [done|lia|]. rewrite length_replicate. lia.
Qed.

Lemma copy_field off n text src b st :
  0 <= off -> length text = Z.to_nat n -> 0 <= n -> take (Z.to_nat n) src = text ->
  off + n <= Z.of_nat (length st) -> (length st <= length b)%nat ->
  buf_MemMove (splice 0 st b) off src 0 n =
    Done (splice 0 (splice (Z.to_nat off) text st) b).
Proof.
  intros Ho Hl Hn Ht Hk Hb. unfold buf_MemMove.
  assert (Hsrc : (length text <= length src)%nat).
  { rewrite <- Ht, length_take. lia. }
  rewrite buf_read_ok by lia. simpl. rewrite drop_0, Ht.
  rewrite buf_write_ok by (rewrite ?length_splice; lia).
  f_equal. apply list_eq. intros j.
  assert (length (splice (Z.to_nat off) text st) = length st) as Hlen.
  { rewrite length_splice; lia. }
  rewrite lookup_splice by (rewrite length_splice; lia).
  rewrite !(lookup_splice 0) by (rewrite ?Hlen; lia).
  rewrite Hlen, Nat.sub_0_r, !Nat.add_0_l. rewrite lookup_splice by lia.
  repeat case_decide; try lia; done.
Qed.

Lemma splice_0_pad k text : (length text <= k)%nat -> splice 0 text (replicate k x00) = pad k text.
Proof. apply splice_pad. Qed.

Lemma strlen_field src n k :
  Z.of_nat (length src) = k -> 0 <= n <= k ->
  safe_strlen (Some src) n = Done (Z.of_nat (length (take (Z.to_nat n) (cstr src)))).
Proof. intros <- Hn. apply safe_strlen_ok; [lia|]. left. lia. Qed.

(** One C string copied to the front of a zeroed struct. *)
Lemma copy_front text src b k :
  take (length text) src = text -> (length text <= k)%nat -> (k <= length b)%nat ->
  buf_MemMove (splice 0 (replicate k x00) b) 0 src 0 (Z.of_nat (length text)) =
    Done (splice 0 (pad k text) b).
Proof.
  intros Ht Hl Hk.
  rewrite (copy_field 0 _ text) by (rewrite ?Nat2Z.id, ?length_replicate; done || lia).
  by rewrite <- splice_pad.
Qed.

(** The statements of [hostcall_reply], each followed by the rest. *)
Lemma set_value_a_then {B} v (k : stm cmd B) t p :
  (set_value_a v;; k) (Cmd t p) = k (Cmd t (with_value_a v p)).
Proof. done. Qed.

Lemma write_p2_then {B} f (k : stm cmd B) t p b :
  f (p_memref (p2 p)) = Done b ->
  (write_p2 f;; k) (Cmd t p) = k (Cmd t (with_p2 b p)).
Proof. intros E. by rewrite stm_bind_eq, (write_p2_eq _ _ _ _ E). Qed.

Lemma fill_then {B} n (k : stm cmd B) t p :
  0 <= n <= memref_size (p2 p) ->
  (write_p2 (fun b => buf_MemFill b 0 0 n);; k) (Cmd t p) =
    k (Cmd t (with_p2 (splice 0 (replicate (Z.to_nat n) x00) (p_memref (p2 p))) p)).
Proof. intros. by apply write_p2_then, fill_front. Qed.

Lemma strlen_then {B} src n sz (k : Z -> stm cmd B) c :
  length src = Z.to_nat sz -> 0 <= n <= sz ->
  (len ← st_lift (safe_strlen (Some src) n); k len) c =
    k (Z.of_nat (length (take (Z.to_nat n) (cstr src)))) c.
Proof. intros Hs Hn. rewrite stm_bind_eq. unfold st_lift. by rewrite (strlen_field _ _ sz) by lia. Qed.

(** A string to the front of the struct of [k] bytes just zeroed. *)
Lemma copy_then {B} text src k (m : stm cmd B) t p b :
  take (length text) src = text -> (length text <= k)%nat -> (k <= length b)%nat ->
  (write_p2 (fun b => buf_MemMove b 0 src 0 (Z.of_nat (length text)));; m)
    (Cmd t (with_p2 (splice 0 (replicate k x00) b) p)) =
    m (Cmd t (with_p2 (splice 0 (pad k text) b) p)).
Proof. intros. rewrite (write_p2_then _ _ _ _ (splice 0 (pad k text) b)); [done|by apply copy_front]. Qed.

Lemma reply_get s t p :
  session_wf s -> sc_pending_type s = GET_STATE_REQUEST -> 320 <= memref_size (p2 p) ->
  hostcall_reply s (Cmd t p) = Done (TEE_SUCCESS,
    Cmd t (reply_params GET_STATE_REQUEST (pad 320 (take 63 (cstr (sc_key s)))) p)).
Proof.
  intros Hw Hp Hlen. unfold hostcall_reply. rewrite decide_True by done.
  rewrite set_value_a_then, fill_then by sizes.
  rewrite (strlen_then _ _ 64) by (apply Hw || sizes).
  rewrite copy_then; [done|apply take_safe_strlen|sizes..].
Qed.

Lemma reply_response s t p :
  g_chaincode_sess t = Some s -> session_wf s ->
  sc_pending_type s <> GET_STATE_REQUEST -> sc_pending_type s <> PUT_STATE_REQUEST ->
  320 <= memref_size (p2 p) ->
  hostcall_reply s (Cmd t p) = Done (TEE_SUCCESS,
    Cmd t (reply_params INVOCATION_RESPONSE (pad 256 (response_text s)) p)).
Proof.
  intros Es Hw Hp Hp' Hlen. unfold hostcall_reply. rewrite !decide_False by done.
  rewrite set_value_a_then, fill_then by sizes.
  rewrite stm_bind_eq. cbn [on_ta st_gets c_ta c_params]. rewrite Es. cbv iota beta.
  assert (Hcopy : forall text src, take (length text) src = text -> (length text <= 256)%nat ->
    (write_p2 (fun b => buf_MemMove b 0 src 0 (Z.of_nat (length text)));; mret TEE_SUCCESS)
      (Cmd t (with_p2 (splice 0 (replicate (Z.to_nat sizeof_invocation_response) x00)
         (p_memref (p2 (with_value_a INVOCATION_RESPONSE p)))) (with_value_a INVOCATION_RESPONSE p)))
    = Done (TEE_SUCCESS, Cmd t (reply_params INVOCATION_RESPONSE (pad 256 text) p))).
  { intros text src Ht Hl. rewrite copy_then; [done|done|sizes..]. }
  unfold response_text. destruct (decide (sc_has_response s = 0)) as [Hr|Hr].
  - rewrite decide_False by tauto. apply (Hcopy (bytes "NO_RESPONSE")); [done|].
    by apply Nat.leb_le.
  - rewrite decide_True by done. rewrite stm_bind_eq.
    rewrite (strlen_then _ _ 256) by (apply Hw || sizes). rewrite <- stm_bind_eq.
    destruct (decide (cstr (sc_response s) = [])) as [->|Hn].
    + apply (Hcopy (bytes "EMPTY_RESPONSE")); [done|]. by apply Nat.leb_le.
    + rewrite decide_True; [apply Hcopy; [apply take_safe_strlen|sizes]|].
      destruct (cstr (sc_response s)); [done|simpl; lia].
Qed.

Lemma splice_pad_pad key v n m :
  (length key <= n)%nat -> (length v <= m)%nat ->
  splice n v (pad (n + m) key) = pad n key ++ pad m v.
Proof.
  intros Hk Hv. unfold pad.
  replace (n + m - length key)%nat with ((n - length key) + m)%nat by lia.
  rewrite replicate_add, (assoc_L (++)).
  assert (Hl : n = length (key ++ replicate (n - length key) x00)).
  { rewrite length_app, length_replicate. lia. }
  unfold splice. rewrite Hl at 1 3. rewrite take_app_length.
  f_equal. rewrite drop_app_add, drop_replicate. done.
Qed.

Lemma reply_put s t p :
  session_wf s -> sc_pending_type s = PUT_STATE_REQUEST -> 320 <= memref_size (p2 p) ->
  hostcall_reply s (Cmd t p) = Done (TEE_SUCCESS,
    Cmd t (reply_params PUT_STATE_REQUEST
             (pad 64 (take 63 (cstr (sc_key s))) ++ pad 256 (take 255 (cstr (sc_value s)))) p)).
Proof.
  intros Hw Hp Hlen. unfold hostcall_reply. rewrite Hp, decide_False, decide_True by done.
  rewrite set_value_a_then, fill_then by sizes.
  rewrite (strlen_then _ _ 64) by (apply Hw || sizes).
  rewrite copy_then by (apply take_safe_strlen || sizes).
  rewrite (strlen_then _ _ 256) by (apply Hw || sizes).
  change (Z.to_nat (VAL_SIZE - 1)) with 255%nat. change (Z.to_nat (KEY_SIZE - 1)) with 63%nat.
  set (key := take 63 _). set (v := take 255 _).
  assert (Hkl : (length key <= 64)%nat) by (unfold key; sizes).
  assert (Hvl : (length v <= 256)%nat) by (unfold v; sizes).
  rewrite (write_p2_then _ _ _ _
    (splice 0 (pad 64 key ++ pad 256 v) (p_memref (p2 (with_value_a PUT_STATE_REQUEST p))))).
  { done. }
  change (Z.to_nat sizeof_key_value) with (64 + 256)%nat.
  assert (Hp320 : length (pad (64 + 256) key) = 320%nat) by (apply length_pad; lia).
  rewrite <- splice_pad_pad by done.
  apply (copy_field kv_value_off); rewrite ?Nat2Z.id, ?Hp320; try done.
  - lia.
  - apply take_safe_strlen.
  - sizes.
  - sizes.
Qed.

(** The reply to the proxy, for every session. *)
Lemma hostcall_reply_eq s t p :
  g_chaincode_sess t = Some s -> session_wf s -> 320 <= memref_size (p2 p) ->
  hostcall_reply s (Cmd t p) =
    Done (TEE_SUCCESS, Cmd t (reply_params (reply_code s) (reply_struct s) p)).
Proof.
  intros Es Hw Hlen. unfold reply_code, reply_struct.
  destruct (decide _) as [Hg|Hg]; [by apply reply_get|].
  destruct (decide _) as [Hp|Hp]; [by apply reply_put|by apply reply_response].
Qed.
End reply.

(** ** Resuming *)

(** The string a pending GET delivers, and the memory after it: the value cut
    to the guest's buffer, which is left alone when it is empty. *)
Definition delivered (s : chaincode_session_ctx) (buf : list byte) : list byte :=
  take (Z.to_nat (sc_wasm_out_len s - 1)) (cstr (drop 64 buf)).

Definition deliver_mem (s : chaincode_session_ctx) (buf : list byte) (m : linmem) : linmem :=
  let w := delivered s buf in
  if decide (sc_wasm_out_offset s <> 0 /\ in_mem m (sc_wasm_out_offset s) (sc_wasm_out_len s)
             /\ w <> [])
  then lm_write m (sc_wasm_out_offset s) (pad (Z.to_nat (sc_wasm_out_len s)) w) else m.

Section resume.
  Context `{TaEnv} `{!WamrInstLaws}.
  Implicit Types (t : ta) (p : params4) (s : chaincode_session_ctx).

Definition set_ta_inst (i : inst) t : ta := set_ta_ctx (set_module_inst (Some i) (runtime_ctx t)) t.

(** The instance after the delivery: the memory is [deliver_mem]; and when the
    designated buffer is valid nothing else changes. *)
Definition deliver_inst s buf (i i' : inst) : Prop :=
  inst_mem i' = deliver_mem s buf (inst_mem i) /\
  (in_mem (inst_mem i) (sc_wasm_out_offset s) (sc_wasm_out_len s) ->
   i' = set_inst_mem (inst_mem i') i).

Lemma set_module_inst_id (c : wamr_context) i :
  wc_module_inst c = Some i -> set_module_inst (Some i) c = c.
Proof. destruct c. simpl. by intros ->. Qed.

Lemma set_ta_inst_id t i : wc_module_inst (runtime_ctx t) = Some i -> set_ta_inst i t = t.
Proof. intros E. unfold set_ta_inst. rewrite set_module_inst_id by done. by destruct t. Qed.

Lemma out_buffer_in t i off len :
  wc_module_inst (runtime_ctx t) = Some i -> 0 < len < 2 ^ 31 -> in_mem (inst_mem i) off len ->
  out_buffer off len t = Done (Some off, t).
Proof.
  intros Ei Hl Hin. unfold out_buffer. rewrite Ei, u32_small by lia.
  rewrite validate_in by (done || lia). simpl. rewrite (native_valid i off len) by (done || lia).
  fold (set_ta_inst i t). by rewrite set_ta_inst_id.
Qed.

Lemma out_buffer_out t i off len :
  wc_module_inst (runtime_ctx t) = Some i -> 0 < len < 2 ^ 31 -> ~ in_mem (inst_mem i) off len ->
  exists i', out_buffer off len t = Done (None, set_ta_inst i' t) /\ inst_mem i' = inst_mem i.
Proof.
  intros Ei Hl Hin. unfold out_buffer. rewrite Ei, u32_small by lia.
  rewrite validate_out by (done || lia). eexists. split; [done|]. apply validate_mem.
Qed.

(** A non-empty string that fits its buffer is written and padded. *)
Lemma write_out_eq t i src w off n :
  wc_module_inst (runtime_ctx t) = Some i -> 0 < n < 2 ^ 31 -> in_mem (inst_mem i) off n ->
  Z.of_nat (length w) < n -> take (length w) src = w ->
  write_out off n src (Z.of_nat (length w)) t =
    Done (tt, set_ta_inst (set_inst_mem (lm_write (inst_mem i) off (pad (Z.to_nat n) w)) i) t).
Proof.
  intros Ei Hn Hin Hl Ht. unfold write_out. rewrite Ei, u64_small by lia.
  rewrite mem_MemFill_ok by done. simpl.
  assert (length w <= length src)%nat by (rewrite <- Ht, length_take; lia).
  rewrite buf_read_ok by lia. simpl. rewrite drop_0, Nat2Z.id, Ht.
  rewrite mem_store_ok by (unfold in_mem in *; simpl; lia). simpl.
  change (byte_of_Z 0) with x00. by rewrite lm_write_pad by lia.
Qed.

Lemma deliver_value_eq t p s i :
  session_wf s -> sc_pending_type s = GET_STATE_REQUEST ->
  wc_module_inst (runtime_ctx t) = Some i ->
  str_ok (drop 64 (p_memref (p2 p))) (sc_wasm_out_len s - 1) ->
  exists i', deliver_value s (Cmd t p) = Done (tt, Cmd (set_ta_inst i' t) p) /\
    deliver_inst s (p_memref (p2 p)) i i'.
Proof.
  intros Hw Hp Ei Hstr. pose proof (wf_out _ Hw Hp) as Hlen.
  unfold deliver_value. rewrite stm_bind_eq. cbn [st_gets c_params]. cbv zeta.
  change (Z.to_nat kv_value_off) with 64%nat. rewrite stm_bind_eq. unfold st_lift at 1.
  rewrite !u64_small by (rewrite ?u64_small by lia; lia).
  rewrite safe_strlen_ok by (done || lia). simpl fmap. cbv iota beta.
  fold (delivered s (p_memref (p2 p))). set (w := delivered s _).
  assert (Hwl : Z.of_nat (length w) <= sc_wasm_out_len s - 1).
  { unfold w, delivered. rewrite length_take. lia. }
  rewrite i32_small by lia.
  unfold deliver_inst, deliver_mem. fold w.
  destruct (decide (sc_wasm_out_offset s = 0)) as [Hz|Hz].
  - rewrite !decide_False by tauto. exists i. rewrite set_ta_inst_id by done.
    by rewrite set_inst_mem_id.
  - rewrite decide_True by (split; [done|lia]).
    destruct (decide (in_mem (inst_mem i) (sc_wasm_out_offset s) (sc_wasm_out_len s))) as [Hin|Hin].
    + rewrite stm_bind_eq, (on_ta_eq _ _ _ _ _ (out_buffer_in t i _ _ Ei Hlen Hin)).
      destruct (decide (w = [])) as [Hn|Hn].
      * rewrite Hn. simpl. exists i. rewrite set_ta_inst_id by done.
        rewrite decide_False by tauto. by rewrite set_inst_mem_id.
      * rewrite decide_True by (destruct w; [done|simpl; lia]).
        rewrite decide_True by done.
        erewrite on_ta_eq; [|eapply (write_out_eq _ i); [done..|lia|apply take_safe_strlen]].
        eexists. split; [done|]. by rewrite inst_mem_set.
    + destruct (out_buffer_out t i _ _ Ei Hlen Hin) as (i' & E & Hm).
      rewrite stm_bind_eq, (on_ta_eq _ _ _ _ _ E).
      exists i'. split; [done|]. by rewrite decide_False by tauto.
Qed.
End resume.

(** What [params] tells the proxy after the guest has been stepped: that the
    runtime failed, or the reply of the session. *)
Definition reported `{TaEnv} (t : ta) (p p' : params4) : Prop :=
  p' = reply_params INVOCATION_RESPONSE (pad 256 (bytes "RUNTIME_ERROR")) p \/
  exists s, g_chaincode_sess t = Some s /\ p' = reply_params (reply_code s) (reply_struct s) p.

Section commands.
  Context `{TaEnv} `{!WamrInstLaws} `{!TaLaws}.
  Implicit Types (t : ta) (p : params4) (s : chaincode_session_ctx).

Lemma on_ta_post {A} (m : stm ta A) t p E (Q : A -> cmd -> Prop) :
  st_post m t E (fun a t' => Q a (Cmd t' p)) -> st_post (on_ta m) (Cmd t p) E Q.
Proof. unfold st_post, on_ta. simpl. by destruct (m t) as [[a t']|]. Qed.

(** The session whose runtime pointer is set. *)
Definition running t : Prop :=
  ready t /\ forall s, g_chaincode_sess t = Some s -> sc_runtime s = true.

Lemma running_evolves t t' : running t -> evolves t t' -> running t'.
Proof.
  intros [(s & i & Es & _) Hr] [Ht' (_ & _ & Hs)]. split; [done|]. intros s' Es'.
  destruct (Hs s s' Es Es') as (_ & -> & _). by apply Hr.
Qed.

Lemma answer_eq {B} (r : B) text n t p :
  n = Z.of_nat (length text) -> (length text <= 256)%nat -> 256 <= memref_size (p2 p) ->
  (set_value_a INVOCATION_RESPONSE;; answer sizeof_invocation_response text n;; mret r)
    (Cmd t p) = Done (r, Cmd t (reply_params INVOCATION_RESPONSE (pad 256 text) p)).
Proof.
  intros -> Hl Hsize. unfold memref_size in Hsize. rewrite set_value_a_then. unfold answer.
  erewrite stm_bind_eq, stm_bind_eq, write_p2_eq by (apply fill_front; sizes).
  erewrite write_p2_eq; [done|]. cbn [p_memref p2 with_p2 with_value_a].
  apply copy_front; [apply firstn_all|done|sizes].
Qed.

Lemma process_post t p :
  running t -> 320 <= memref_size (p2 p) ->
  st_post process_hostcall_flow (Cmd t p) (guest_fault "step_resume" t)
    (fun r c => r = TEE_SUCCESS /\ evolves t (c_ta c) /\ reported (c_ta c) p (c_params c)).
Proof.
  intros [Ht Hr] Hlen. unfold process_hostcall_flow.
  pose proof Ht as (s & i & Es & Hw & Ei).
  apply st_post_bind, on_ta_post. eapply st_post_eq.
  { unfold deref_runtime, get_sess. rewrite stm_bind_eq, Es, Hr by done. reflexivity. }
  apply st_post_bind, on_ta_post. eapply st_post_mono; [by apply call_step_post|].
  intros ok t' Ht'. destruct ok; simpl negb; cbv iota.
  - destruct Ht' as [(s' & i' & Es' & Hw' & Ei') ?].
    apply st_post_bind, on_ta_post. eapply st_post_eq.
    { unfold get_sess. by rewrite Es'. }
    eapply st_post_eq; [by apply hostcall_reply_eq|].
    split; [done|]. split; [|right; by exists s'].
    split; [by exists s', i'|done].
  - apply st_post_bind, on_ta_post. eapply st_post_mono; [apply steps_get_exception, Ht'|].
    intros ex t'' Ht''. eapply st_post_eq; [apply answer_eq; [done|by apply Nat.leb_le|lia]|].
    split; [done|]. split; [by eapply evolves_trans|by left].
Qed.

Lemma put_sess_eq f t s s' :
  g_chaincode_sess t = Some s -> f s = Done s' ->
  put_sess f t = Done (tt, set_ta_sess (Some s') t).
Proof.
  intros Es Ef. unfold put_sess, get_sess. rewrite stm_bind_eq, Es, stm_bind_eq.
  unfold st_lift. by rewrite Ef.
Qed.

(** The request has been answered: nothing is pending. *)
Definition settled s : chaincode_session_ctx :=
  if decide (sc_pending_type s = GET_STATE_REQUEST) then set_wasm_out 0 0 (set_pending_type 0 s)
  else if decide (sc_pending_type s = PUT_STATE_REQUEST) then set_pending_type 0 s else s.

Lemma settled_wf s : session_wf s -> session_wf (settled s).
Proof.
  intros []. unfold settled. repeat case_decide; split; simpl; auto; try done.
Qed.

Lemma settled_same s : same_session s (settled s).
Proof. unfold settled. repeat case_decide; by repeat split. Qed.

(** RESUME up to the step of the guest: the value of a pending GET is in the
    guest's memory, and the session is settled. *)
Lemma command_resume_eq t p s i :
  g_chaincode_sess t = Some s -> session_wf s -> sc_runtime s = true ->
  wc_module_inst (runtime_ctx t) = Some i ->
  (sc_pending_type s = GET_STATE_REQUEST ->
   str_ok (drop 64 (p_memref (p2 p))) (sc_wasm_out_len s - 1)) ->
  exists i', command_resume (Cmd t p) =
      process_hostcall_flow (Cmd (set_ta_sess (Some (settled s)) (set_ta_inst i' t)) p) /\
    if decide (sc_pending_type s = GET_STATE_REQUEST)
    then deliver_inst s (p_memref (p2 p)) i i' else i' = i.
Proof.
  intros Es Hw Hr Ei Hstr. unfold command_resume, settled.
  rewrite stm_bind_eq, (on_ta_eq _ t p (Some s) t) by (unfold st_gets; by rewrite Es).
  rewrite Hr. change (negb true) with false. cbv iota.
  destruct (decide (sc_pending_type s = GET_STATE_REQUEST)) as [Hg|Hg].
  - destruct (deliver_value_eq t p s i) as (i' & E & Hi'); [auto..|].
    exists i'. split; [|done]. rewrite stm_bind_eq, stm_bind_eq, E.
    by erewrite on_ta_eq by (apply (put_sess_eq _ _ s); [exact Es|reflexivity]).
  - exists i. split; [|done]. rewrite set_ta_inst_id by done.
    destruct (decide (sc_pending_type s = PUT_STATE_REQUEST)) as [Hp|Hp].
    + rewrite stm_bind_eq.
      by erewrite on_ta_eq by (apply (put_sess_eq _ _ s); [exact Es|reflexivity]).
    + rewrite stm_bind_eq. cbn. by rewrite <- Es; destruct t.
Qed.

Lemma settled_evolves t s i i' :
  g_chaincode_sess t = Some s -> session_wf s -> wc_module_inst (runtime_ctx t) = Some i ->
  evolves t (set_ta_sess (Some (settled s)) (set_ta_inst i' t)).
Proof.
  intros Es Hw Ei. split.
  - exists (settled s), i'. split; [done|]. split; [by apply settled_wf|done].
  - split; [done|]. split; [done|]. simpl. intros s1 s2 E1 [= <-].
    assert (s1 = s) as -> by congruence. apply settled_same.
Qed.

(** The fault of a RESUME: that of the step, once the answer is delivered. *)
Definition resume_fault t p (f : fault) : Prop :=
  exists s i i', g_chaincode_sess t = Some s /\ wc_module_inst (runtime_ctx t) = Some i /\
    (if decide (sc_pending_type s = GET_STATE_REQUEST)
     then deliver_inst s (p_memref (p2 p)) i i' else i' = i) /\
    guest_fault "step_resume" (set_ta_sess (Some (settled s)) (set_ta_inst i' t)) f.

Lemma command_resume_post t p s :
  running t -> g_chaincode_sess t = Some s -> 320 <= memref_size (p2 p) ->
  (sc_pending_type s = GET_STATE_REQUEST ->
   str_ok (drop 64 (p_memref (p2 p))) (sc_wasm_out_len s - 1)) ->
  st_post command_resume (Cmd t p) (resume_fault t p)
    (fun r c => r = TEE_SUCCESS /\ evolves t (c_ta c) /\ reported (c_ta c) p (c_params c)).
Proof.
  intros Hrun Es Hlen Hstr. pose proof Hrun as [(s' & i & Es' & Hw & Ei) Hr].
  assert (s' = s) as -> by congruence.
  destruct (command_resume_eq t p s i) as (i' & E & Hi'); [auto..|].
  pose proof (settled_evolves t s i i' Es Hw Ei) as Ht'.
  pose proof (process_post _ p (running_evolves _ _ Hrun Ht') Hlen) as Hp.
  unfold st_post in *. rewrite E.
  destruct (process_hostcall_flow _) as [[r c]|f]; [|by exists s, i, i'].
  destruct Hp as (-> & Hc & ?). split; [done|]. split; [by eapply evolves_trans|done].
Qed.

(** ** Running a module *)

Lemma initialize_post t argc argv :
  st_post (TA_InitializeWamrRuntime argc argv) t (fun _ => False) (fun r t' =>
    g_chaincode_sess t' = g_chaincode_sess t /\ heap_size t' = heap_size t /\
    (r = TEE_ERROR_GENERIC \/
     r = TEE_SUCCESS /\ singleton_wamr_context t' = true /\
     wc_module_inst (runtime_ctx t') <> None)).
Proof.
  unfold TA_InitializeWamrRuntime. apply st_post_bind, st_post_gets. cbv zeta.
  apply st_post_bind. eapply st_post_eq; [done|].
  destruct (wasm_runtime_full_init _ _) as [[] e] eqn:Ei; simpl negb; cbv iota; [|by split_and!; [..|left]].
  apply st_post_bind. eapply st_post_eq; [done|].
  apply st_post_bind. eapply st_post_eq; [done|].
  destruct (wasm_runtime_load _ _ _).1 as [m|]; [|by split_and!; [..|left]].
  apply st_post_bind. eapply st_post_eq; [done|]. cbv zeta.
  apply st_post_bind. eapply st_post_eq; [done|].
  apply st_post_bind. eapply st_post_eq; [done|].
  destruct (wasm_runtime_instantiate _ _ _ _).1 as [i|] eqn:E; [|by split_and!; [..|left]].
  apply st_post_bind. eapply st_post_eq; [done|]. by split_and!; [..|right].
Qed.

(** The [struct arguments] that RUN receives. *)
Definition run_args p : list byte :=
  if decide (memref_size (p2 p) >= sizeof_arguments) then take 640 (p_memref (p2 p))
  else replicate 640 x00.

Lemma length_run_args p : length (run_args p) = 640%nat.
Proof.
  unfold run_args. case_decide as Hd; [|apply length_replicate].
  unfold memref_size, sizeof_arguments, ARGS_NUMBER, ARG_SIZE in Hd. rewrite length_take. lia.
Qed.

Lemma run_args_eq s p :
  session_wf s ->
  (if decide (memref_size (p2 p) >= sizeof_arguments)
   then buf_MemMove (sc_args s) 0 (p_memref (p2 p)) 0 sizeof_arguments
   else buf_MemFill (sc_args s) 0 0 sizeof_arguments) = Done (run_args p).
Proof.
  intros Hw. pose proof (wf_args _ Hw) as Ha. unfold run_args. case_decide as Hd.
  - unfold memref_size, sizeof_arguments, ARGS_NUMBER, ARG_SIZE in *. unfold buf_MemMove.
    rewrite buf_read_ok by lia. cbn [mbind cres_bind]. rewrite drop_0.
    change (Z.to_nat (10 * 64)) with 640%nat.
    assert (length (take 640 (p_memref (p2 p))) = 640%nat) as Hl by (rewrite length_take; lia).
    rewrite buf_write_ok by lia. f_equal. apply splice_all. lia.
  - rewrite buf_MemFill_all by (rewrite Ha; done). by rewrite Ha.
Qed.

Lemma set_args_wf a s : session_wf s -> length a = 640%nat -> session_wf (set_args a s).
Proof. intros [] Ha. by split. Qed.

(** The session that RUN prepares, but for the memory it owns. *)
Definition rearmed s s' p : Prop :=
  session_wf s' /\ sc_args s' = run_args p /\ session_request s' = session_request s /\
  sc_response s' = sc_response s /\ sc_has_response s' = sc_has_response s.

Lemma rearmed_owned s p heap wasm :
  session_wf s -> rearmed s (set_owned heap wasm (set_args (run_args p) s)) p.
Proof.
  intros Hw. split; [|done]. destruct (set_args_wf (run_args p) s Hw (length_run_args p)). by split.
Qed.

Lemma run_prepare_post t p s :
  g_chaincode_sess t = Some s -> session_wf s ->
  st_post run_prepare (Cmd t p) (fun _ => False) (fun r c =>
    c_params c = with_value_a 0 p /\ heap_size (c_ta c) = heap_size t /\
    (exists s', g_chaincode_sess (c_ta c) = Some s' /\ rearmed s s' p) /\
    (r = TEE_SUCCESS /\ running (c_ta c) \/ r = TEE_ERROR_OUT_OF_MEMORY \/ r = TEE_ERROR_GENERIC)).
Proof.
  intros Es Hw. unfold run_prepare.
  apply st_post_bind, st_post_gets, st_post_bind, on_ta_post. eapply st_post_eq; [done|].
  apply st_post_bind, on_ta_post. eapply st_post_eq.
  { apply (put_sess_eq _ _ s); [exact Es|]. cbn [c_params]. rewrite run_args_eq by done. reflexivity. }
  apply st_post_bind. eapply st_post_eq; [apply set_value_a_eq|].
  do 3 (apply st_post_bind, on_ta_post; eapply st_post_eq; [done|]). cbv zeta.
  destruct ((_ && _) : bool); simpl negb; cbv iota.
  - apply st_post_bind, on_ta_post. eapply st_post_eq; [by eapply put_sess_eq|].
    apply st_post_bind, on_ta_post. eapply st_post_eq; [done|].
    apply st_post_bind, on_ta_post.
    eapply st_post_mono; [by apply initialize_post|]. cbn beta.
    intros r t' (Es' & Eh & Hr). cbn in Es', Eh.
    match type of Es' with _ = Some ?s' => set (s1 := s') in * end.
    assert (Hre : rearmed s s1 p) by (by apply rearmed_owned).
    destruct Hr as [->|(-> & Hsing & Hi)].
    + apply st_post_ret. split_and!; [done|done|by exists s1|by right; right].
    + rewrite decide_False by (intros E; by apply E).
      apply st_post_bind, on_ta_post. eapply st_post_eq; [by eapply put_sess_eq|].
      apply st_post_ret. destruct Hre as ([] & ?).
      assert (session_wf (set_runtime true s1)) by (by split).
      split_and!; [done|done|by exists (set_runtime true s1)|left]. split; [done|].
      destruct (wc_module_inst (runtime_ctx t')) as [i|] eqn:Ei; [|done].
      split; [by exists (set_runtime true s1), i|]. by intros s2 [= <-].
  - apply st_post_bind, on_ta_post. eapply st_post_eq; [by eapply put_sess_eq|].
    apply st_post_ret. split_and!; [done|done| |by right; left].
    eexists. split; [done|]. by apply rearmed_owned.
Qed.

Lemma pad_snoc_nul n text : (length text < n)%nat -> pad n (text ++ [x00]) = pad n text.
Proof.
  intros Hl. unfold pad. rewrite length_app, <- (assoc_L (++)). simpl length. f_equal.
  change [x00] with (replicate 1 x00). rewrite <- replicate_add. f_equal. lia.
Qed.

(** The guest of a module just prepared is stepped. *)
Definition run_module : stm cmd Z :=
  ctx ← on_ta (st_gets runtime_ctx);
  match wc_module_inst ctx with
  | None => mret TEE_ERROR_GENERIC
  | Some _ =>
    ok ← on_ta (call_step "step_init");
    if negb ok then
      on_ta get_exception;;
      set_value_a INVOCATION_RESPONSE;;
      answer sizeof_invocation_response (bytes "STEP_INIT_FAILED" ++ [x00]) 17;;
      mret TEE_ERROR_GENERIC
    else process_hostcall_flow
  end.

(** The fault of a module just prepared: one of its two steps. *)
Definition run_fault t (f : fault) : Prop :=
  guest_fault "step_init" t f \/
  exists t1, call_step "step_init" t = Done (true, t1) /\ guest_fault "step_resume" t1 f.

Lemma run_module_post t p :
  running t -> 320 <= memref_size (p2 p) ->
  st_post run_module (Cmd t p) (run_fault t) (fun r c => evolves t (c_ta c) /\
    (r = TEE_ERROR_GENERIC /\ c_params c =
       reply_params INVOCATION_RESPONSE (pad 256 (bytes "STEP_INIT_FAILED")) p \/
     r = TEE_SUCCESS /\ reported (c_ta c) p (c_params c))).
Proof.
  intros Hrun Hlen. pose proof Hrun as [Ht _]. pose proof Ht as (s & i & _ & _ & Ei).
  unfold run_module. apply st_post_bind, on_ta_post, st_post_gets. rewrite Ei.
  apply st_post_bind, on_ta_post. pose proof (call_step_post "step_init" t Ht) as Hs.
  unfold st_post at 1 in Hs. unfold st_post at 1.
  destruct (call_step "step_init" t) as [[ok t1]|f] eqn:E1; [|by left].
  rename Hs into Ht1. destruct ok; simpl negb; cbv iota.
  - pose proof (process_post t1 p (running_evolves _ _ Hrun Ht1) Hlen) as Hp. unfold st_post in *.
    destruct (process_hostcall_flow _) as [[r c]|f]; [|right; by exists t1].
    destruct Hp as (-> & Hc & Hrep). split; [by eapply evolves_trans|]. by right.
  - apply st_post_bind, on_ta_post. eapply st_post_mono; [apply steps_get_exception, Ht1|].
    intros ex t2 Ht2. rewrite <- (pad_snoc_nul 256) by (by apply Nat.leb_le).
    eapply st_post_eq; [apply answer_eq; [done|by apply Nat.leb_le|lia]|].
    split; [by eapply evolves_trans|by left].
Qed.

(** How RUN ends: the module could not be prepared; its [step_init] failed,
    which the response says; or the guest was stepped. *)
Definition run_outcome p (r : Z) (c : cmd) : Prop :=
  (r = TEE_ERROR_OUT_OF_MEMORY \/ r = TEE_ERROR_GENERIC) /\ c_params c = with_value_a 0 p \/
  r = TEE_ERROR_GENERIC /\ running (c_ta c) /\
    c_params c = reply_params INVOCATION_RESPONSE
      (pad 256 (bytes "STEP_INIT_FAILED")) (with_value_a 0 p) \/
  r = TEE_SUCCESS /\ running (c_ta c) /\ reported (c_ta c) (with_value_a 0 p) (c_params c).

Lemma command_run_post t p s :
  g_chaincode_sess t = Some s -> session_wf s -> 320 <= memref_size (p2 p) ->
  st_post command_run (Cmd t p)
    (fun f => exists c, run_prepare (Cmd t p) = Done (TEE_SUCCESS, c) /\ run_fault (c_ta c) f)
    (fun r c =>
    run_outcome p r c /\ heap_size (c_ta c) = heap_size t /\
    exists s', g_chaincode_sess (c_ta c) = Some s' /\ session_wf s' /\ sc_args s' = run_args p).
Proof.
  intros Es Hw Hlen. unfold command_run.
  apply st_post_bind, on_ta_post, st_post_gets. rewrite Es.
  apply st_post_bind. pose proof (run_prepare_post t p s Es Hw) as Hprep.
  destruct (run_prepare (Cmd t p)) as [[r [t1 p1]]|f] eqn:Er; unfold st_post in Hprep |- *;
    rewrite Er in Hprep |- *; [|done].
  cbn in Hprep. destruct Hprep as (-> & Hh & (s1 & Es1 & Hw1 & Ha1 & _) & Hr).
  destruct (decide (r = TEE_SUCCESS)) as [->|Hne].
  2:{ rewrite decide_True by done. cbn. split; [left|by eauto].
      split; [|done]. by destruct Hr as [[? _]|?]. }
  rewrite decide_False by (intros E; by apply E).
  destruct Hr as [[_ Hrun]|[Hr|Hr]]; [|done|done].
  pose proof (run_module_post t1 (with_value_a 0 p) Hrun Hlen) as Hm. unfold st_post in Hm.
  match goal with |- context [match ?e with Done _ => _ | Fault _ => _ end] =>
    change e with (run_module (Cmd t1 (with_value_a 0 p))) end.
  destruct (run_module _) as [[r c]|f]; [|by eexists]. destruct Hm as [Hc Hr]. split; [right|].
  - destruct Hr as [[-> ?]|[-> ?]]; [left|right];
      (split; [done|split; [by eapply running_evolves|done]]).
  - destruct Hc as [(s2 & i2 & Es2 & Hw2 & _) (Hh2 & _ & Hs2)]. split; [congruence|].
    exists s2. destruct (Hs2 _ _ Es1 Es2) as (? & _). split; [done|]. split; [done|congruence].
Qed.
End commands.
