(* ===== verification/CoffeeTa.v ===== *)
(** * The trusted application running the chaincode

    When the module that the trusted application loads is the chaincode of
    Chaincode.v, each RUN and each RESUME carries out one step of the contract
    of ChaincodeSpec.v, and reports its request or its response to the proxy.
    [CoffeeLaws] is the interface to the toolchain: what a compiler, WAMR's
    loader and its interpreter do with the source of the chaincode. *)
From Stdlib Require Import ZArith Lia Strings.Byte Strings.String.
From stdpp Require Import base tactics option list list_numbers gmap strings.
From S2P Require Import Prelude Mem Abi Session Natives Sandbox Chaincode.
From S2P Require Import ChaincodeLogic ChaincodeSpec ChaincodeCalls WamrTa Ta TaLogic.

(** The exported functions of the chaincode. *)
Definition exported (L : layout) (name : string) : option (guest unit) :=
  if decide (name = "step_init"%string) then Some step_init
  else if decide (name = "step_resume"%string) then Some (step_resume L)
  else None.

(** [code] is the module compiled from the chaincode with the layout [L];
    [coffee i] says that [i] is an instance of it. *)
Class CoffeeLaws `{TaEnv} (L : layout) (code : list byte) (coffee : inst -> Prop) : Prop := {
  (* loading and instantiating it succeed, given memory *)
  coffee_malloc n e : (TEE_Malloc n e).1 = true;
  coffee_full_init args e : (wasm_runtime_full_init args e).1 = true;
  coffee_load e : exists m,
    (wasm_runtime_load (Some code) (u32 (Z.of_nat (length code))) e).1 = Some m /\
    forall stack heap e', exists i, (wasm_runtime_instantiate m stack heap e').1 = Some i /\
      coffee i /\ forall x, lm_read (inst_mem i) (L x) (Z.to_nat (object_size x))
        = match x with lit l => literal_text l ++ [x00]
          | _ => replicate (Z.to_nat (object_size x)) x00 end;
  coffee_exec_env i n e : coffee i -> (wasm_runtime_create_exec_env i n e).1 = true;
  (* its instances *)
  coffee_layout i : coffee i -> layout_ok L (lm_size (inst_mem i)) /\ lm_size (inst_mem i) < 2 ^ 32;
  coffee_store m i : coffee i -> lm_size m = lm_size (inst_mem i) -> coffee (set_inst_mem m i);
  coffee_clear i : coffee i -> coffee (wasm_runtime_clear_exception i);
  (* calling an exported function runs its code: when that returns and no
     exception has been thrown, so does the call *)
  coffee_call i name prog : coffee i -> exported L name = Some prog ->
    exists f, wasm_runtime_lookup_function i name = Some f /\
      forall j s h', coffee j -> wasm_runtime_get_exception j = None ->
        run_guest prog (Host (Some s) (Some j)) = GDone tt h' ->
        (forall j', h_inst h' = Some j' -> wasm_runtime_get_exception j' = None) ->
        wasm_runtime_call_wasm f (Host (Some s) (Some j)) = Done (true, h');
}.

Section coffee.
  Context `{TaEnv} `{!WamrInstLaws} (L : layout) (code : list byte) (coffee : inst -> Prop)
    `{!CoffeeLaws L code coffee}.
  Implicit Types (t : ta) (p : params4) (s : chaincode_session_ctx) (c : contract) (v : hview).

(** ** The relation between the trusted application and the contract *)

Definition at_contract s i c v : Prop :=
  in_contract (quiet_ok i) L (Host (Some s) (Some i)) c v.

Record coffee_at t s i c v : Prop := {
  ca_sess : g_chaincode_sess t = Some s;
  ca_inst : wc_module_inst (runtime_ctx t) = Some i;
  ca_wf : session_wf s;
  ca_coffee : coffee i;
  ca_contract : at_contract s i c v;
}.

(** The trusted application, its runtime prepared, is in the state [c] of the
    contract, and its session is observed as [v]. *)
Definition coffee_ta t c v : Prop :=
  exists s i, coffee_at t s i c v /\ sc_runtime s = true.

Lemma quiet_ok_self s i i' :
  session_wf s -> lm_size (inst_mem i') = lm_size (inst_mem i) ->
  i' = set_inst_mem (inst_mem i') i ->
  quiet_ok i (Host (Some s) (Some i')).
Proof.
  intros Hw Hl Hi. split; [by exists s, i'|]. exists (Some s), (inst_mem i'). by rewrite <- Hi.
Qed.

Lemma quiet_ok_refl s i : session_wf s -> quiet_ok i (Host (Some s) (Some i)).
Proof. intros. apply quiet_ok_self; [done|done|]. by rewrite set_inst_mem_id. Qed.

(** The same memory in another instance. *)
Lemma at_contract_mem s i i' c v :
  session_wf s -> inst_mem i' = inst_mem i -> at_contract s i c v -> at_contract s i' c v.
Proof.
  intros Hw Hm Hc. pose proof Hc as (sigma & [_ _ _ Hv] & _). rewrite <- Hv.
  apply (in_contract_ok _ (fun _ => True)) in Hc; [|done].
  eapply (in_contract_view _ _ _ (Host (Some s) (Some i'))) in Hc; [|done|done].
  eapply in_contract_ok; [exact Hc|by apply quiet_ok_refl].
Qed.

(** The step of the chaincode in an instance without an exception. *)
Lemma coffee_step s i c v :
  session_wf s -> coffee i -> at_contract s i c v ->
  wasm_runtime_get_exception i = None ->
  exists s' i', run_guest (step_resume L) (Host (Some s) (Some i)) =
      GDone tt (Host (Some s') (Some i')) /\
    session_wf s' /\ same_session s s' /\ coffee i' /\ wasm_runtime_get_exception i' = None /\
    let r := contract_step (L g_cur_val) c v in at_contract s' i' r.1 r.2.
Proof.
  intros Hw Hi Hc Hx. destruct (coffee_layout i Hi) as [HL Hsize].
  pose proof (QuietHostLaws i Hsize) as Hlaws.
  destruct (wp_step_resume (quiet_ok i) L _ _ _ Hc) as ([] & h' & E & Hr).
  pose proof (run_guest_steps (step_resume L) (Host (Some s) (Some i))) as Hst.
  rewrite E in Hst.
  destruct (guest_steps_session s i h' Hw) as (s' & i' & -> & Hw' & Hs).
  { apply Hst; [by exists s, i|].
    eapply guest_all_calls; [apply (step_resume_calls L _ HL); lia|]. intros x []. done. }
  exists s', i'. split; [done|]. split; [done|]. split; [done|].
  destruct Hr as (sigma & [Hq HL' Hm Hv] & Hrep).
  pose proof Hq as [_ (s0 & m & [= <- ->] & Hl)].
  split; [by apply coffee_store|]. split; [by rewrite exception_set|].
  simpl. eapply in_contract_ok; [by exists sigma|]. by apply quiet_ok_refl.
Qed.

(** ** Calling the exported functions *)

Definition total {S A} (m : stm S A) (x : S) (Q : A -> S -> Prop) : Prop :=
  st_post m x (fun _ => False) Q.

Lemma total_Done {S A} (m : stm S A) x (Q : A -> S -> Prop) :
  total m x Q -> exists a x', m x = Done (a, x') /\ Q a x'.
Proof. unfold total, st_post. destruct (m x) as [[a x']|]; [by eauto|done]. Qed.

Lemma coffee_at_ext t t' s i c v :
  g_chaincode_sess t' = g_chaincode_sess t ->
  wc_module_inst (runtime_ctx t') = wc_module_inst (runtime_ctx t) ->
  coffee_at t s i c v -> coffee_at t' s i c v.
Proof. intros E1 E2 []. split; congruence. Qed.

Lemma coffee_at_clear t s i c v :
  coffee_at t s i c v ->
  coffee_at (set_ta_inst (wasm_runtime_clear_exception i) t) s
    (wasm_runtime_clear_exception i) c v.
Proof.
  intros []. split; [done|done|done|by apply coffee_clear|].
  eapply at_contract_mem; [done|apply clear_mem|done].
Qed.

(** The operations of the runtime on the instance that is there. *)
Lemma total_lookup t s i c v name (Q : option wfunc -> ta -> Prop) :
  coffee_at t s i c v -> Q (wasm_runtime_lookup_function i name) t ->
  total (lookup_function name) t Q.
Proof. intros [] HQ. unfold total, st_post, lookup_function. by rewrite ca_inst0. Qed.

Lemma total_get_exception t s i c v (Q : option string -> ta -> Prop) :
  coffee_at t s i c v -> Q (wasm_runtime_get_exception i) t -> total get_exception t Q.
Proof. intros [] HQ. unfold total, st_post, get_exception. by rewrite ca_inst0. Qed.

Lemma total_clear t s i c v (Q : unit -> ta -> Prop) :
  coffee_at t s i c v -> Q tt (set_ta_inst (wasm_runtime_clear_exception i) t) ->
  total clear_exception t Q.
Proof. intros [] HQ. unfold total, st_post, clear_exception. by rewrite ca_inst0. Qed.

Lemma total_bind {S A B} (m : stm S A) (k : A -> stm S B) x (Q : B -> S -> Prop) :
  total m x (fun a x' => total (k a) x' Q) -> total (m ≫= k) x Q.
Proof. apply st_post_bind. Qed.

(** What a program makes of the contract, in an instance without an exception. *)
Definition carries (prog : guest unit) s c v c' v' : Prop :=
  forall i, coffee i -> at_contract s i c v -> wasm_runtime_get_exception i = None ->
  exists s' i', run_guest prog (Host (Some s) (Some i)) = GDone tt (Host (Some s') (Some i')) /\
    session_wf s' /\ same_session s s' /\ coffee i' /\ wasm_runtime_get_exception i' = None /\
    at_contract s' i' c' v'.

Lemma call_step_carries name prog t s i c v c' v' :
  exported L name = Some prog -> coffee_at t s i c v -> carries prog s c v c' v' ->
  total (call_step name) t (fun ok t' => ok = true /\ heap_size t' = heap_size t /\
    exists s' i', coffee_at t' s' i' c' v' /\ same_session s s').
Proof.
  intros Hname Ht Hprog. unfold call_step.
  destruct (coffee_call i name prog) as (f & Hf & Hcall); [apply Ht|done|].
  apply total_bind. eapply total_lookup; [exact Ht|]. rewrite Hf.
  apply total_bind. eapply total_get_exception; [exact Ht|]. apply total_bind.
  eapply (st_post_mono _ _ _ (fun _ t1 => exists i1, coffee_at t1 s i1 c v /\
    heap_size t1 = heap_size t)).
  { destruct (wasm_runtime_get_exception i); [|by exists i].
    eapply total_clear; [exact Ht|]. eexists. split; [by apply coffee_at_clear|done]. }
  intros _ t1 (i1 & H1t & Hh1).
  apply total_bind, st_post_gets, total_bind.
  eapply (st_post_mono _ _ _ (fun ok t2 => ok = true /\ coffee_at t2 s i1 c v /\
    heap_size t2 = heap_size t)).
  { destruct (wc_exec_env (runtime_ctx t1)); [done|]. pose proof H1t as [].
    rewrite ca_inst0. apply total_bind. eapply st_post_eq; [done|].
    rewrite coffee_exec_env by done.
    apply total_bind. eapply st_post_eq; [done|]. apply st_post_ret.
    split; [done|]. split; [by eapply coffee_at_ext|done]. }
  intros ok t2 (-> & H2t & Hh2). change (negb true) with false. cbv iota.
  apply total_bind. eapply total_clear; [exact H2t|]. apply coffee_at_clear in H2t.
  set (j := wasm_runtime_clear_exception i1) in *.
  destruct (Hprog j) as (s' & i' & E & Hw' & Hs & Hi' & Hx & Hc'); [apply H2t|apply H2t|apply clear_none|].
  apply total_bind. eapply st_post_eq.
  { unfold on_instance. destruct H2t as [-> -> _ ? _].
    rewrite (Hcall _ _ _ ca_coffee0 (clear_none _) E); [done|]. by intros j' [= <-]. }
  match goal with |- total _ ?t' _ => assert (H3t : coffee_at t' s' i' c' v') by done end.
  apply total_bind. eapply total_get_exception; [exact H3t|]. rewrite Hx.
  apply total_bind, st_post_ret.
  apply total_bind, total_bind, st_post_gets. cbv beta.
  match goal with |- total (if ?b then _ else _) _ _ => destruct b end.
  - apply total_bind. eapply st_post_eq; [done|]. eapply st_post_eq; [done|]. apply st_post_ret.
    split; [done|]. split; [exact Hh2|]. exists s', i'. split; [by eapply coffee_at_ext|done].
  - apply st_post_ret, st_post_ret. split; [done|]. split; [exact Hh2|]. by exists s', i'.
Qed.

(** [step_init] does nothing; [step_resume] is one step of the contract. *)
Lemma step_init_carries s c v : session_wf s -> carries step_init s c v c v.
Proof.
  intros Hw i Hi Hc Hx. exists s, i. split; [done|]. split; [done|].
  split; [apply same_session_refl|done].
Qed.

Lemma step_resume_carries s c v :
  session_wf s ->
  let r := contract_step (L g_cur_val) c v in carries (step_resume L) s c v r.1 r.2.
Proof. intros Hw r i Hi Hc Hx. by apply coffee_step. Qed.

(** ** The reply, as the contract determines it *)

Definition view_code v : Z :=
  match hv_request v with
  | Some (GetState _ _ _) => GET_STATE_REQUEST
  | Some (PutState _ _) => PUT_STATE_REQUEST
  | None => INVOCATION_RESPONSE
  end.

Definition view_text v : list byte :=
  match hv_response v with
  | None => bytes "NO_RESPONSE"
  | Some r => if decide (r = []) then bytes "EMPTY_RESPONSE" else take 255 r
  end.

Definition view_struct v : list byte :=
  match hv_request v with
  | Some (GetState k _ _) => pad 320 (take 63 k)
  | Some (PutState k w) => pad 64 (take 63 k) ++ pad 256 (take 255 w)
  | None => pad 256 (view_text v)
  end.

Lemma reply_view s :
  reply_code s = view_code (session_view s) /\ reply_struct s = view_struct (session_view s).
Proof.
  unfold reply_code, reply_struct, view_code, view_struct, session_view, session_request.
  cbn [hv_request]. case_decide; [done|]. case_decide; [done|]. split; [done|].
  f_equal. unfold response_text, view_text. cbn [hv_response]. by case_decide.
Qed.

Lemma at_contract_view s i c v : at_contract s i c v -> session_view s = v.
Proof. by intros (sigma & [] & _). Qed.

(** Stepping the chaincode and reporting to the proxy. *)
Lemma process_coffee t p c v :
  coffee_ta t c v -> 320 <= memref_size (p2 p) ->
  let r := contract_step (L g_cur_val) c v in
  exists t', process_hostcall_flow (Cmd t p) =
      Done (TEE_SUCCESS, Cmd t' (reply_params (view_code r.2) (view_struct r.2) p)) /\
    coffee_ta t' r.1 r.2 /\ heap_size t' = heap_size t.
Proof.
  intros (s & i & Ht & Hr) Hlen r.
  destruct (total_Done _ _ _ (call_step_carries "step_resume" (step_resume L) t s i c v _ _ eq_refl
    Ht (step_resume_carries s c v (ca_wf _ _ _ _ _ Ht)))) as (ok & t' & E & -> & Hh & s' & i' & Ht' & Hs).
  fold r in Ht'. exists t'. split; [|split; [|done]].
  - unfold process_hostcall_flow. rewrite stm_bind_eq, (on_ta_eq _ t p tt t).
    2: { unfold deref_runtime, get_sess. rewrite stm_bind_eq, (ca_sess _ _ _ _ _ Ht). by rewrite Hr. }
    rewrite stm_bind_eq, (on_ta_eq _ _ _ _ _ E). change (negb true) with false. cbv iota.
    rewrite stm_bind_eq, (on_ta_eq _ t' p s' t').
    2: { unfold get_sess. by rewrite (ca_sess _ _ _ _ _ Ht'). }
    destruct Ht'. rewrite hostcall_reply_eq by done. destruct (reply_view s') as [-> ->].
    by rewrite (at_contract_view _ _ _ _ ca_contract0).
  - exists s', i'. split; [done|]. destruct Hs as (_ & -> & _). done.
Qed.

(** ** RESUME *)

(** The view once the pending request has been answered. *)
Definition settle v : hview := HView (hv_args v) None (hv_response v).

(** The value of the ledger, when one was asked for. *)
Definition answered (w : list byte) c v : contract :=
  match hv_request v with Some (GetState _ _ _) => with_cur_val w c | _ => c end.

(** One resumption: the answer is delivered, then the contract steps. *)
Definition contract_resume (out : Z) (w : list byte) c v : contract * hview :=
  contract_step out (answered w c v) (settle v).

(** A pending GET designates [g_cur_val], still empty. *)
Definition asked (out : Z) c v : Prop :=
  match hv_request v with
  | Some (GetState _ p n) => p = out /\ n = 256 /\ c_cur_val c = []
  | _ => True
  end.

Lemma settled_view s : session_wf s -> session_view (settled s) = settle (session_view s).
Proof.
  intros Hw. unfold settled, settle, session_view, session_request.
  repeat case_decide; try done; cbn; try (by rewrite !decide_False by done).
Qed.

Lemma with_cur_val_nil c : c_cur_val c = [] -> with_cur_val [] c = c.
Proof. destruct c. simpl. by intros ->. Qed.

Lemma fits_delivered buf : fits 256 (take 255 (cstr buf)).
Proof. split; [auto with cstring|]. rewrite length_take. lia. Qed.

(** The delivery of a value to the chaincode. *)
Lemma deliver_coffee s i i' c v buf :
  session_wf s -> coffee i -> at_contract s i c v -> asked (L g_cur_val) c v ->
  (if decide (sc_pending_type s = GET_STATE_REQUEST) then deliver_inst s buf i i' else i' = i) ->
  coffee i' /\ at_contract (settled s) i' (answered (take 255 (cstr (drop 64 buf))) c v) (settle v).
Proof.
  intros Hw Hi Hc Hask Hdel. pose proof (settled_wf s Hw) as Hw'.
  pose proof (at_contract_view _ _ _ _ Hc) as Hv.
  assert (Hset : at_contract (settled s) i c (settle v)).
  { rewrite <- Hv, <- settled_view by done.
    by apply (in_contract_view _ L (Host (Some s) (Some i)) (Host (Some (settled s)) (Some i))
      c v Hc), eq_refl; apply quiet_ok_refl. }
  destruct (decide (sc_pending_type s = GET_STATE_REQUEST)) as [Hg|Hg].
  2: { subst i'. split; [done|]. replace (answered _ c v) with c; [done|].
       unfold answered. rewrite <- Hv. unfold session_view, session_request.
       cbn [hv_request]. rewrite decide_False by done. by case_decide. }
  assert (Hreq : hv_request v =
      Some (GetState (cstr (sc_key s)) (sc_wasm_out_offset s) (sc_wasm_out_len s))).
  { rewrite <- Hv. unfold session_view, session_request. cbn [hv_request]. by rewrite decide_True. }
  unfold asked in Hask. unfold answered. rewrite Hreq in *. destruct Hask as (Ho & Hl & Hnil).
  destruct Hdel as [Hm Hi']. unfold deliver_mem, delivered in Hm. rewrite Ho, Hl in *.
  pose proof (fits_delivered (drop 64 buf)) as Hf.
  change (Z.to_nat (256 - 1)) with 255%nat in Hm. set (w := take 255 _) in *.
  destruct (coffee_layout i Hi) as [HL Hsize]. destruct (layout_in _ _ HL g_cur_val) as [Hpos Hend].
  change (object_size g_cur_val) with 256 in Hend.
  assert (Hin : in_mem (inst_mem i) (L g_cur_val) 256) by (unfold in_mem; lia).
  specialize (Hi' Hin). destruct (decide (w = [])) as [Hw0|Hw0].
  - rewrite decide_False in Hm by tauto. rewrite Hm, set_inst_mem_id in Hi'. subst i'.
    rewrite Hw0, with_cur_val_nil by done. done.
  - rewrite decide_True in Hm by (split; [lia|done]).
    split; [rewrite Hi', Hm; by apply coffee_store|].
    eapply in_contract_ok; [|by apply quiet_ok_refl].
    eapply (in_contract_cur_val _ L (Host (Some (settled s)) (Some i)) _ c);
      [exact Hset|by apply quiet_ok_self; [|rewrite Hm|]|done|exact Hm|].
    simpl. by rewrite settled_view, Hv.
Qed.

(** A RESUME of the trusted application is a resumption of the contract. *)
Lemma command_resume_coffee t p c v :
  coffee_ta t c v -> asked (L g_cur_val) c v -> 320 <= memref_size (p2 p) ->
  let r := contract_resume (L g_cur_val) (take 255 (cstr (drop 64 (p_memref (p2 p))))) c v in
  exists t', command_resume (Cmd t p) =
      Done (TEE_SUCCESS, Cmd t' (reply_params (view_code r.2) (view_struct r.2) p)) /\
    coffee_ta t' r.1 r.2 /\ heap_size t' = heap_size t.
Proof.
  intros (s & i & [] & Hr) Hask Hlen r. unfold memref_size in Hlen.
  destruct (command_resume_eq t p s i) as (i' & E & Hi'); [done..| |].
  { intros Hg. left. pose proof (at_contract_view _ _ _ _ ca_contract0) as Hv.
    unfold asked in Hask. rewrite <- Hv in Hask. unfold session_view, session_request in Hask.
    cbn [hv_request] in Hask. rewrite decide_True in Hask by done. rewrite length_drop. lia. }
  destruct (deliver_coffee s i i' c v (p_memref (p2 p))) as [Hci' Hc']; [done..|].
  assert (Hct : coffee_ta (set_ta_sess (Some (settled s)) (set_ta_inst i' t))
    (answered (take 255 (cstr (drop 64 (p_memref (p2 p))))) c v) (settle v)).
  { exists (settled s), i'. split; [split; [done|done|by apply settled_wf|done|done]|].
    destruct (settled_same s) as (_ & -> & _). done. }
  destruct (process_coffee _ p _ _ Hct) as (t' & E' & Hct' & Hh); [done|].
  exists t'. rewrite E. done.
Qed.

Lemma contract_step_asked out c v :
  hv_request v = None ->
  let r := contract_step out c v in asked out r.1 r.2.
Proof.
  intros Hv. unfold contract_step, contract_dispatch, asked.
  destruct (c_phase c); repeat case_decide; cbn; try rewrite Hv; done.
Qed.

(** ** RUN *)

(** The objects of a fresh instance. *)
Definition fresh_store : cstore := fun x =>
  match x with
  | lit l => literal_text l ++ [x00]
  | _ => replicate (Z.to_nat (object_size x)) x00
  end.

Lemma represents_fresh : represents contract_init fresh_store.
Proof. by split. Qed.

Lemma at_contract_fresh s i :
  session_wf s -> coffee i ->
  (forall x, lm_read (inst_mem i) (L x) (Z.to_nat (object_size x)) = fresh_store x) ->
  at_contract s i contract_init (session_view s).
Proof.
  intros Hw Hi Hm. exists fresh_store. split; [|split; [apply represents_fresh|apply contract_init_wf]].
  split; [by apply quiet_ok_refl|by apply coffee_layout|done|done].
Qed.

Lemma initialize_coffee t argc argv :
  wasm_bytecode (runtime_ctx t) = Some code ->
  wasm_bytecode_size (runtime_ctx t) = u32 (Z.of_nat (length code)) ->
  total (TA_InitializeWamrRuntime argc argv) t (fun r t' =>
    r = TEE_SUCCESS /\ g_chaincode_sess t' = g_chaincode_sess t /\ heap_size t' = heap_size t /\
    exists i, wc_module_inst (runtime_ctx t') = Some i /\ coffee i /\
      forall x, lm_read (inst_mem i) (L x) (Z.to_nat (object_size x)) = fresh_store x).
Proof.
  intros Hcode Hsize. unfold TA_InitializeWamrRuntime. apply total_bind, st_post_gets. cbv zeta.
  apply total_bind. eapply st_post_eq; [done|]. rewrite coffee_full_init.
  change (negb true) with false. cbv iota. rewrite Hcode, Hsize.
  apply total_bind. eapply st_post_eq; [done|].
  destruct (coffee_load (ta_env (set_ta_env (wasm_runtime_full_init
    {| ia_heap_buf := wc_heap_buf (runtime_ctx t);
       ia_heap_size := wc_heap_size (runtime_ctx t);
       ia_n_native_symbols := native_symbols_size (runtime_ctx t) / sizeof_NativeSymbol;
       ia_native_module_name := "env";
       ia_native_symbols := native_symbols (runtime_ctx t) |} (ta_env t)).2 t)))
    as (m & -> & Hinst).
  apply total_bind. eapply st_post_eq; [done|].
  apply total_bind. eapply st_post_eq; [done|]. cbv zeta.
  apply total_bind. eapply st_post_eq; [done|].
  match goal with |- context [wasm_runtime_instantiate m ?a ?b ?e] =>
    destruct (Hinst a b e) as (i & -> & Hi & Hm) end.
  apply total_bind. eapply st_post_eq; [done|].
  apply total_bind. eapply st_post_eq; [done|]. apply st_post_ret.
  split_and!; try done. exists i. split_and!; try done.
Qed.

(** What the first step of a run sees: the arguments that RUN received, and
    what an earlier run may have left in the session. *)
Definition run_view s p : hview := session_view (set_args (run_args p) s).

Lemma run_prepare_coffee t p s :
  g_chaincode_sess t = Some s -> session_wf s -> p_memref (p0 p) = code ->
  total run_prepare (Cmd t p) (fun r x =>
    r = TEE_SUCCESS /\ c_params x = with_value_a 0 p /\
    coffee_ta (c_ta x) contract_init (run_view s p) /\ heap_size (c_ta x) = heap_size t).
Proof.
  intros Es Hw Hcode. unfold run_prepare.
  apply total_bind, st_post_gets, total_bind, on_ta_post. eapply st_post_eq; [done|].
  apply total_bind, on_ta_post. eapply st_post_eq.
  { apply (put_sess_eq _ _ s); [exact Es|]. cbn [c_params]. rewrite run_args_eq by done. reflexivity. }
  apply total_bind. eapply st_post_eq; [apply set_value_a_eq|].
  do 3 (apply total_bind, on_ta_post; eapply st_post_eq; [done|]). rewrite !coffee_malloc.
  cbv zeta. change (negb (true && true)) with false. cbv iota.
  apply total_bind, on_ta_post. eapply st_post_eq; [by eapply put_sess_eq|].
  apply total_bind, on_ta_post. eapply st_post_eq; [done|].
  apply total_bind, on_ta_post.
  eapply st_post_mono.
  { apply initialize_coffee; [exact (f_equal Some Hcode)|].
    cbn. unfold memref_size. by rewrite Hcode. }
  intros r t' (-> & Es' & Hh & i & Ei & Hi & Hm). cbn in Es', Hh.
  rewrite decide_False by (intros E; by apply E).
  apply total_bind, on_ta_post. eapply st_post_eq; [by eapply put_sess_eq|].
  apply st_post_ret. split_and!; [done|done| |done].
  match goal with |- context [set_ta_sess (Some ?s') _] => exists s', i; assert (Hw' : session_wf s') end.
  { destruct (set_args_wf (run_args p) s Hw (length_run_args p)). by split. }
  split; [|done]. split; [done|done|done|done|]. by apply at_contract_fresh.
Qed.

(** A RUN of the chaincode is the first step of the contract. *)
Lemma command_run_coffee t p s :
  g_chaincode_sess t = Some s -> session_wf s -> p_memref (p0 p) = code ->
  320 <= memref_size (p2 p) ->
  let r := contract_step (L g_cur_val) contract_init (run_view s p) in
  exists t', command_run (Cmd t p) =
      Done (TEE_SUCCESS,
        Cmd t' (reply_params (view_code r.2) (view_struct r.2) (with_value_a 0 p))) /\
    coffee_ta t' r.1 r.2 /\ heap_size t' = heap_size t.
Proof.
  intros Es Hw Hcode Hlen r.
  destruct (total_Done _ _ _ (run_prepare_coffee t p s Es Hw Hcode))
    as (r1 & [t1 p1] & E1 & -> & Ep & (s1 & i1 & Hat1 & Hr1) & Hh1). simpl in Ep, Hat1, Hr1, Hh1. subst p1.
  destruct (total_Done _ _ _ (call_step_carries "step_init" step_init t1 s1 i1 _ _ _ _ eq_refl
    Hat1 (step_init_carries s1 _ _ (ca_wf _ _ _ _ _ Hat1)))) as (ok & t2 & E2 & -> & Hh2 & s2 & i2 & Hat2 & Hs2).
  destruct (process_coffee t2 (with_value_a 0 p) contract_init (run_view s p)) as (t3 & E3 & Ht3 & Hh3);
    [exists s2, i2; split; [done|]; destruct Hs2 as (_ & -> & _); done|done|].
  exists t3. split; [|split; [done|congruence]]. fold r in E3.
  unfold command_run. rewrite stm_bind_eq, (on_ta_eq _ t p (Some s) t) by (unfold st_gets; by rewrite Es).
  rewrite stm_bind_eq, E1. rewrite decide_False by (intros E; by apply E).
  rewrite stm_bind_eq, (on_ta_eq _ t1 _ (runtime_ctx t1) t1) by done.
  rewrite (ca_inst _ _ _ _ _ Hat1). rewrite stm_bind_eq, (on_ta_eq _ _ _ _ _ E2).
  exact E3.
Qed.
End coffee.
