(* ===== verification/Concrete.v ===== *)
(** * A concrete environment

    An instance of every interface of the development, small enough to
    evaluate: a runtime that interprets the programs of Abi.v on [SimpleInst],
    a linker's layout of the chaincode, and a TEE whose allocations succeed.
    It shows that the promises [WamrInstLaws], [TaLaws] and [CoffeeLaws] can be
    kept together, and it is where the theorems are put to work on data. *)
From Stdlib Require Import ZArith Lia Strings.Byte Strings.String.
From stdpp Require Import base tactics option list list_numbers gmap strings relations.
From S2P Require Import Prelude Mem Abi Session Natives Sandbox Chaincode.
From S2P Require Import ChaincodeLogic ChaincodeSpec ChaincodeCalls WamrTa Ta TaLogic CoffeeTa.

(** ** The chaincode, linked *)

Definition layout0 : layout := fun x =>
  match x with
  | fsm_state => 1024 | current_op => 1028 | g_should_exit => 1032
  | g_function => 1040 | g_arg0 => 1104 | g_arg1 => 1168 | g_person => 1232
  | g_cur_val => 1296 | g_tmp => 1552
  | lit L_create => 2000 | lit L_add => 2010 | lit L_query => 2020 | lit L_EXIST => 2030
  | lit L_OK => 2040 | lit L_EMPTY => 2050 | lit L_NOTFOUND => 2060 | lit L_ERROR => 2070
  end.

Definition literals : list literal :=
  [L_create; L_add; L_query; L_EXIST; L_OK; L_EMPTY; L_NOTFOUND; L_ERROR].

Definition memory0 : linmem :=
  foldr (fun l m => lm_write m (layout0 (lit l)) (literal_text l ++ [x00]))
    (LinMem 524288 ∅) literals.

Definition instance0 : @inst SimpleInst := SimpleI memory0 None.

Lemma layout0_ok : layout_ok layout0 524288.
Proof.
  split.
  - intros x. destruct x as [| | | | | | | | |[]]; vm_compute; split; congruence || discriminate.
  - intros x y Hx Hne.
    destruct x as [| | | | | | | | |[]]; try done;
      destruct y as [| | | | | | | | |[]]; try done;
      first [left; vm_compute; discriminate | right; vm_compute; discriminate].
Qed.

Lemma memory0_fresh x :
  lm_read memory0 (layout0 x) (Z.to_nat (object_size x)) = fresh_store x.
Proof. destruct x as [| | | | | | | | |[]]; vm_compute; reflexivity. Qed.

(** ** The runtime *)

Definition coffee_code0 : list byte := bytes "coffee_chaincode_wasm".

(** A call of an exported function, interpreted. *)
Definition interpret (f : string) (h : host) : cres (bool * host) :=
  match exported layout0 f with
  | None => Done (false, h)
  | Some prog =>
      match run_guest prog h with
      | GDone _ h' => Done (match h_inst h' with
                            | Some i => bool_decide (si_exn i = None)
                            | None => true end, h')
      | GTrap h' => Done (false, Host (h_sess h')
          ((fun i => SimpleI (si_mem i) (Some "Exception: out of bounds memory access"%string))
             <$> h_inst h'))
      | GHostFault f => Fault f
      | GOutOfFuel => Done (false, h)
      end
  end.

#[export] Instance SimpleEnv : TaEnv := {|
  env := unit;
  wmodule := list byte;
  wfunc := string;
  op_handle := unit;
  sizeof_NativeSymbol := 16;
  TEE_Malloc _ e := (true, e);
  TEE_AllocateOperation _ e := ((TEE_SUCCESS, tt), e);
  TEE_DigestDoFinal _ data n _ e :=
    ((TEE_SUCCESS, pad 32 (take 32 (take (Z.to_nat n) (default [] data))), 32), e);
  TEE_FreeOperation _ e := e;
  vedliot_set_output_buffer _ _ e := e;
  wasm_runtime_full_init _ e := (true, e);
  wasm_runtime_load code _ e :=
    (if decide (code = Some coffee_code0) then code else None, e);
  wasm_runtime_set_wasi_args _ _ _ e := e;
  wasm_runtime_instantiate _ _ _ e := (Some instance0, e);
  wasm_runtime_create_exec_env _ _ e := (true, e);
  wasm_runtime_destroy_exec_env e := e;
  wasm_runtime_deinstantiate _ e := e;
  wasm_runtime_unload _ e := e;
  wasm_runtime_destroy e := e;
  wasm_runtime_lookup_function _ name :=
    match exported layout0 name with Some _ => Some name | None => None end;
  wasm_runtime_call_wasm := interpret;
  wasm_application_execute_main h := Done (false, h);
|}.

Lemma exported_calls name prog :
  exported layout0 name = Some prog ->
  guest_all (chaincode_call layout0) (fun _ => True) prog.
Proof.
  unfold exported. case_decide; [by intros [= <-]|]. case_decide; [|done]. intros [= <-].
  apply (step_resume_calls layout0 524288 layout0_ok). lia.
Qed.

(** No call of the chaincode faults. *)
Lemma interpret_safe fn h f : host_ok h -> interpret fn h <> Fault f.
Proof.
  intros Hh. unfold interpret. destruct (exported layout0 fn) as [prog|] eqn:Ef; [|done].
  pose proof (fun f => run_guest_safe (chaincode_call layout0) prog h f (fun c => @proj1 _ _)
    (chaincode_call_safe layout0) Hh (exported_calls fn prog Ef)) as Hs.
  destruct (run_guest prog h) as [[] h'|h'|e|]; try done. by destruct (Hs e).
Qed.

#[export] Instance SimpleTaLaws : TaLaws.
Proof.
  split.
  - intros f h Hh. cbn [wasm_runtime_call_wasm SimpleEnv]. unfold interpret.
    destruct (exported layout0 f) as [prog|] eqn:Ef; [|by apply rtc_refl].
    pose proof (run_guest_steps prog h Hh (guest_all_calls _ _ _ _ (exported_calls f prog Ef)
      (fun c => @proj1 _ _))) as Hst.
    destruct (run_guest prog h) as [[] h'|h'|e|]; [done| |done|by apply rtc_refl].
    cbn in Hst |- *. destruct Hh as (s & i & -> & Hw).
    apply guest_steps_session in Hst as Hst'; [|done].
    destruct Hst' as (s' & i' & -> & _). eapply rtc_r; [exact Hst|]. constructor.
  - intros h Hh. by apply rtc_refl.
Qed.

#[export] Instance SimpleCoffee :
  CoffeeLaws layout0 coffee_code0 (fun i : inst => lm_size (inst_mem i) = 524288).
Proof.
  split; try done.
  - intros e. exists coffee_code0. split; [reflexivity|]. intros st hp e'. exists instance0.
    split; [done|]. split; [done|]. intros x. rewrite memory0_fresh. by destruct x.
  - intros i Hi. cbv beta in Hi. rewrite Hi. split; [apply layout0_ok|lia].
  - intros m i Hi Hm. simpl in *. congruence.
  - intros i name prog Hi Hp. exists name. cbn. rewrite Hp. split; [done|].
    intros j s h' Hj Hx E Hx'. unfold interpret. rewrite Hp. cbn in E |- *. rewrite E.
    do 2 f_equal. destruct (h_inst h') as [j'|] eqn:Ej; [|done].
    rewrite bool_decide_true; [done|]. by apply (Hx' j').
Qed.

(** ** Data for evaluation *)

(** Evaluating a decidable hypothesis. *)
Ltac evaluate := apply (bool_decide_unpack _); vm_compute; exact I.

(** A session whose arguments are the bytes [l], NUL-padded rows. *)
Definition session_with (rows : list (list byte)) : chaincode_session_ctx :=
  set_args (pad 640 (concat (pad 64 <$> rows))) session_zero.

Lemma session_with_wf rows :
  length (pad 640 (concat (pad 64 <$> rows))) = 640%nat -> session_wf (session_with rows).
Proof. intros Hl. destruct session_zero_wf. by split. Qed.

Definition session_add : chaincode_session_ctx :=
  session_with [bytes "add"; bytes "alice"; bytes "12"].

Lemma session_add_wf : session_wf session_add.
Proof. apply session_with_wf. vm_compute. reflexivity. Qed.

(** [instance0] after a call with an invalid pointer. *)
Definition instance_thrown : @inst SimpleInst :=
  SimpleI memory0 (Some "Exception: out of bounds memory access"%string).

(** The chaincode freshly instantiated, and with a value in [g_cur_val]. *)
Definition host0 : host := Host (Some session_add) (Some instance0).

Definition instance_with (w : list byte) : @inst SimpleInst :=
  SimpleI (lm_write memory0 (layout0 g_cur_val) (pad 256 w)) None.

Lemma fresh_at_state s :
  session_wf s ->
  at_state host_ok layout0 (Host (Some s) (Some instance0)) fresh_store (session_view s).
Proof.
  intros Hw. split; [by exists s, instance0|apply layout0_ok|apply memory0_fresh|done].
Qed.

Lemma fresh_in_contract s :
  session_wf s ->
  in_contract host_ok layout0 (Host (Some s) (Some instance0)) contract_init (session_view s).
Proof.
  intros Hw. exists fresh_store. split; [by apply fresh_at_state|].
  split; [apply represents_fresh|apply contract_init_wf].
Qed.

Lemma value_at_state s w :
  session_wf s -> fits 256 w ->
  at_state host_ok layout0 (Host (Some s) (Some (instance_with w)))
    (upd g_cur_val (pad 256 w) fresh_store) (session_view s).
Proof.
  intros Hw Hf. assert (Hl : length (pad 256 w) = 256%nat) by (apply length_pad; destruct Hf; lia).
  pose proof (fresh_at_state s Hw) as Hs.
  assert (Hat : at_state host_ok layout0 (Host (Some s) (Some (instance_with w)))
    (upd g_cur_val (splice 0 (pad 256 w) (fresh_store g_cur_val)) fresh_store) (session_view s)).
  { eapply (at_write host_ok layout0); [exact Hs|done| |by exists s, (instance_with w)|done|done].
    rewrite Hl. by apply Nat.leb_le. }
  rewrite splice_all in Hat; [done|]. rewrite Hl. symmetry.
  apply (at_length host_ok layout0 _ _ _ g_cur_val Hs).
Qed.

(** A trusted application with an open session, and the parameters of a RUN of
    the chaincode on the arguments [rows]. *)
Definition ta0 : ta := Ta 10485760 (Some session_zero) wamr_context_zero false tt.

Definition run_params (rows : list (list byte)) : params4 :=
  Params (Param 0 0 coffee_code0) (Param 0 0 [])
    (Param 0 0 (pad 640 (concat (pad 64 <$> rows)))) (Param 0 0 (replicate 16 x00)).

(** A trusted application whose session an earlier invocation has used. *)
Definition session_used : chaincode_session_ctx := respond (bytes "42") session_zero.
Definition ta_used : ta := Ta 10485760 (Some session_used) wamr_context_zero false tt.

Lemma session_used_wf : session_wf session_used.
Proof. split; try reflexivity; try done. by left. Qed.

(** The chaincode waiting for the value of "alice", to add 12 to it. *)
Definition session_waiting : chaincode_session_ctx :=
  set_runtime true (ask_get (bytes "alice") 1296 256 session_add).

Lemma session_waiting_wf : session_wf session_waiting.
Proof. split; try reflexivity; try done. by right; left. Qed.

Definition context_with (i : @inst SimpleInst) : wamr_context :=
  set_module_inst (Some i) (set_exec_env true wamr_context_zero).

Definition ta_waiting : ta := Ta 10485760 (Some session_waiting) (context_with instance0) true tt.

(** The parameters of a RESUME that answers [value]. *)
Definition resume_params (value : list byte) : params4 :=
  Params (Param 0 0 []) (Param 1 0 [])
    (Param 0 0 (pad 64 [] ++ pad 576 value)) (Param 0 0 (replicate 16 x00)).

(** A context that owns the bytecode of the chaincode. *)
Definition ta_loaded : ta :=
  Ta 10485760 (Some session_zero)
    (WamrCtx (Some coffee_code0) (Z.of_nat (length coffee_code0)) (replicate 32 x00)
      (Some 10485760) 10485760 None None false chaincode_native_symbols
      chaincode_native_symbols_size) false tt.

(** A guest whose [current_op] lies outside of its memory: its step traps. *)
Definition instance_small : @inst SimpleInst := SimpleI (LinMem 512 ∅) None.
