(* ===== verification/Proxy.v ===== *)
(** * The proxy in the normal world

    [fixed-proxy/main.cpp]: the gRPC server that runs one invocation in the
    trusted application: it marshals the arguments into the shared buffer,
    invokes RUN, forwards the requests of the chaincode to the wrapper, and
    resumes the chaincode with the answers until there is a response.

    The GlobalPlatform client API, gRPC, the allocator and the file system are
    the class [ProxyEnv], over the state [world] behind them.  A [std::string]
    is its bytes, which may hold NULs. *)
From Stdlib Require Import ZArith Lia Strings.Byte Strings.String.
From stdpp Require Import base tactics option list list_numbers gmap strings.
From S2P Require Import Prelude Mem Abi Session Natives WamrTa Ta.

(** ** Messages ([invocation.proto])

    A message is its [oneof]; [None] when no member of it is set. *)

Inductive wrapper_oneof :=
| InvocationRequest (chaincode_uuid function_name : list byte) (arguments : list (list byte))
    (aot_file : list byte)
| GetStateResponse (value : list byte)
| PutStateResponse (acknowledgement : list byte).

Inductive proxy_oneof :=
| InvocationResponse (execution_response : list byte)
| GetStateRequest (key : list byte)
| PutStateRequest (key value : list byte).

Definition ChaincodeWrapperMessage : Type := option wrapper_oneof.
Definition ChaincodeProxyMessage : Type := option proxy_oneof.

#[export] Instance wrapper_oneof_eq_dec : EqDecision wrapper_oneof.
Proof. solve_decision. Defined.
#[export] Instance proxy_oneof_eq_dec : EqDecision proxy_oneof.
Proof. solve_decision. Defined.

(** The generated getters: the default value when another member is set. *)
Definition get_state_value (m : ChaincodeWrapperMessage) : list byte :=
  match m with Some (GetStateResponse v) => v | _ => [] end.
Definition put_state_acknowledgement (m : ChaincodeWrapperMessage) : list byte :=
  match m with Some (PutStateResponse a) => a | _ => [] end.
Definition request_aot_file (m : ChaincodeWrapperMessage) : list byte :=
  match m with Some (InvocationRequest _ _ _ f) => f | _ => [] end.
Definition request_function_name (m : ChaincodeWrapperMessage) : list byte :=
  match m with Some (InvocationRequest _ f _ _) => f | _ => [] end.
Definition request_arguments (m : ChaincodeWrapperMessage) : list (list byte) :=
  match m with Some (InvocationRequest _ _ a _) => a | _ => [] end.

(** ** The client side of the GlobalPlatform TEE *)

(** A parameter of an operation; the type of the parameter selects the members
    used.  A buffer is [None] when the pointer is NULL. *)
Record TEEC_Parameter := TParam {
  tp_value_a : Z; tp_value_b : Z; tp_buffer : option (list byte); tp_size : Z }.

Record TEEC_Operation := Operation {
  paramTypes : Z;
  op0 : TEEC_Parameter; op1 : TEEC_Parameter; op2 : TEEC_Parameter; op3 : TEEC_Parameter }.

Definition tparam_zero : TEEC_Parameter := TParam 0 0 None 0.

Class ProxyEnv := {
  world : Type;
  (* the C library *)
  malloc : Z -> world -> option (list byte) * world;
  calloc : Z -> world -> bool * world;
  file_contents : list byte -> world -> option (list byte);
  (* GlobalPlatform TEE Client API *)
  TEEC_InitializeContext : world -> Z * world;
  TEEC_OpenSession : world -> Z * world;
  TEEC_InvokeCommand : Z -> TEEC_Operation -> world -> (Z * TEEC_Operation) * world;
  TEEC_CloseSession : world -> world;
  TEEC_FinalizeContext : world -> world;
  (* the gRPC stream of the invocation *)
  stream_Write : ChaincodeProxyMessage -> world -> bool * world;
  stream_Read : world -> option ChaincodeWrapperMessage * world;
}.

Definition TEEC_SUCCESS : Z := 0.

(** [tee_ctx], the part that is not behind the client API. *)
Record tee_ctx := TeeCtx {
  output_buffer : option (list byte); output_buffer_size : Z;
  benchmark_buffer : option (list byte); benchmark_buffer_size : Z }.

Section proxy.
  Context `{ProxyEnv}.

(** The service object [InvocationImpl] and the world it runs in. *)
Record service := Service { sv_ctx : tee_ctx; sv_world : world }.

Definition world_call {A} (f : world -> A * world) : stm service A := fun s =>
  let r := f (sv_world s) in Done (r.1, Service (sv_ctx s) r.2).
Definition world_do (f : world -> world) : stm service unit :=
  st_modify (fun s => Service (sv_ctx s) (f (sv_world s))).
Definition set_ctx (c : tee_ctx) : stm service unit :=
  st_modify (fun s => Service c (sv_world s)).

(** ** The session with the trusted application *)

(** [false]: the process exits. *)
Definition prepare_tee_session : stm service bool :=
  res ← world_call TEEC_InitializeContext;
  if decide (res <> TEEC_SUCCESS) then mret false else
  res ← world_call TEEC_OpenSession;
  if decide (res <> TEEC_SUCCESS) then mret false else mret true.

(** A failure is only printed. *)
Definition configure_heap_size (size : Z) : stm service unit :=
  let op := Operation
    (TEE_PARAM_TYPES TEE_PARAM_TYPE_VALUE_INPUT TEE_PARAM_TYPE_NONE
       TEE_PARAM_TYPE_NONE TEE_PARAM_TYPE_NONE)
    (TParam (u32 size) 0 None 0) tparam_zero tparam_zero tparam_zero in
  world_call (TEEC_InvokeCommand COMMAND_CONFIGURE_HEAP op);; mret tt.

Definition allocate_buffers (buffers_size : Z) : stm service unit :=
  out ← world_call (malloc buffers_size);
  bench ← world_call (malloc buffers_size);
  set_ctx (TeeCtx out buffers_size bench buffers_size).

Definition terminate_tee_session : stm service unit :=
  world_do TEEC_CloseSession;; world_do TEEC_FinalizeContext.

(** The freed pointers are dangling until [allocate_buffers] replaces them. *)
Definition free_buffers : stm service unit := set_ctx (TeeCtx None 0 None 0).

Definition initialize_session : stm service bool :=
  allocate_buffers (5 * 1024);;
  ok ← prepare_tee_session;
  if negb ok then mret false
  else configure_heap_size (10 * 1024 * 1024);; mret true.

Definition cleanup_session : stm service unit := terminate_tee_session;; free_buffers.

Definition restart_session : stm service bool := cleanup_session;; initialize_session.

(** ** One invocation *)

(** The locals of [execute_wasm_with_grpc_proxy]: [shared_buf] is the buffer
    of the third parameter of [op], which points to it. *)
Record run := Run { r_service : service; r_op : TEEC_Operation }.

Definition on_service {A} (m : stm service A) : stm run A := fun r =>
  match m (r_service r) with
  | Done (a, s) => Done (a, Run s (r_op r))
  | Fault f => Fault f
  end.

(** The locals go out of scope. *)
Definition with_operation {A} (op : TEEC_Operation) (m : stm run A) : stm service A := fun s =>
  match m (Run s op) with
  | Done (a, r) => Done (a, r_service r)
  | Fault f => Fault f
  end.

Definition set_types (ty : Z) : stm run unit := st_modify (fun r =>
  let op := r_op r in Run (r_service r) (Operation ty (op0 op) (op1 op) (op2 op) (op3 op))).

Definition invoke_command (cmd_id : Z) : stm run Z := fun r =>
  let x := TEEC_InvokeCommand cmd_id (r_op r) (sv_world (r_service r)) in
  Done (x.1.1, Run (Service (sv_ctx (r_service r)) x.2) x.1.2).

(** Reading and writing [shared_buf]. *)
Definition shared_read {A} (f : list byte -> cres A) : stm run A := fun r =>
  match tp_buffer (op2 (r_op r)) with
  | None => Fault NullDeref
  | Some b => (fun a => (a, r)) <$> f b
  end.

Definition shared_write (f : list byte -> cres (list byte)) : stm run unit := fun r =>
  let op := r_op r in
  match tp_buffer (op2 op) with
  | None => Fault NullDeref
  | Some b => (fun b' => (tt, Run (r_service r)
      (Operation (paramTypes op) (op0 op) (op1 op)
         (TParam (tp_value_a (op2 op)) (tp_value_b (op2 op)) (Some b') (tp_size (op2 op)))
         (op3 op)))) <$> f b
  end.

(** A [char *] converted to a [std::string]: the C string at [off], whose
    terminator must be inside of the object. *)
Definition c_string (buf : list byte) (off : Z) : cres (list byte) :=
  if decide (x00 ∈ drop (Z.to_nat off) buf) then Done (cstr (drop (Z.to_nat off) buf))
  else Fault OutOfBounds.

(** [strncpy(buf + off, s.c_str(), n)]: the C string, cut to [n] bytes and
    padded with NULs to [n]. *)
Definition strncpy (buf : list byte) (off : Z) (s : list byte) (n : Z) : cres (list byte) :=
  buf_write buf off (pad (Z.to_nat n) (take (Z.to_nat n) (cstr s))).

(** [arguments[i]] set to [s], cut to its row, and terminated. *)
Definition set_argument (i : Z) (s : list byte) (buf : list byte) : cres (list byte) :=
  let len := Z.of_nat (length s) in
  let alen := if decide (len >= ARG_SIZE) then ARG_SIZE - 1 else len in
  buf ← buf_MemMove buf (argument_off i) s 0 alen;
  buf_write buf (argument_off i + alen) [x00].

Fixpoint set_arguments (i : Z) (args : list (list byte)) (buf : list byte) : cres (list byte) :=
  match args with
  | [] => Done buf
  | a :: args' => buf' ← set_argument i a buf; set_arguments (i + 1) args' buf'
  end.

(** The arguments of RUN in a zeroed buffer: the function in row 0, and at most
    [ARGS_NUMBER - 1] arguments after it. *)
Definition marshal (function_name : list byte) (args : list (list byte)) (buf : list byte)
    : cres (list byte) :=
  buf ← set_argument 0 function_name buf;
  set_arguments 1 (take (Z.to_nat (ARGS_NUMBER - 1)) args) buf.

Definition max_size : Z :=
  foldl (fun m n => if decide (n > m) then n else m) 0
    [sizeof_key_value; sizeof_acknowledgement; sizeof_invocation_response; sizeof_arguments].

Definition resume_types : Z := TEE_PARAM_TYPES TEE_PARAM_TYPE_NONE
  TEE_PARAM_TYPE_VALUE_INOUT TEE_PARAM_TYPE_MEMREF_INOUT TEE_PARAM_TYPE_MEMREF_INOUT.

(** [case GET_STATE_REQUEST]; [Some ok] leaves the loop. *)
Definition forward_get : stm run (option bool) :=
  key ← shared_read (fun b => c_string b kv_key_off);
  sent ← on_service (world_call (stream_Write (Some (GetStateRequest key))));
  if negb sent then mret (Some false) else
  wrapper_msg ← on_service (world_call stream_Read);
  match wrapper_msg with
  | None => mret (Some false)
  | Some wrapper_msg =>
    let get_state_response := get_state_value wrapper_msg in
    shared_write (fun b => buf_MemFill b 0 0 max_size);;
    (if decide (Z.of_nat (length get_state_response) < VAL_SIZE)
     then shared_write (fun b => strncpy b kv_value_off get_state_response (VAL_SIZE - 1))
     else mret tt);;
    set_types resume_types;;
    res ← invoke_command COMMAND_RESUME_WASM;
    mret (if decide (res <> TEEC_SUCCESS) then Some false else None)
  end.

(** [case PUT_STATE_REQUEST] *)
Definition forward_put : stm run (option bool) :=
  key ← shared_read (fun b => c_string b kv_key_off);
  value ← shared_read (fun b => c_string b kv_value_off);
  sent ← on_service (world_call (stream_Write (Some (PutStateRequest key value))));
  if negb sent then mret (Some false) else
  wrapper_msg ← on_service (world_call stream_Read);
  match wrapper_msg with
  | None => mret (Some false)
  | Some wrapper_msg =>
    let put_state_response := put_state_acknowledgement wrapper_msg in
    shared_write (fun b => buf_MemFill b 0 0 max_size);;
    (if decide (Z.of_nat (length put_state_response) < ACK_SIZE)
     then shared_write (fun b => strncpy b 0 put_state_response (ACK_SIZE - 1))
     else mret tt);;
    set_types resume_types;;
    res ← invoke_command COMMAND_RESUME_WASM;
    mret (if decide (res <> TEEC_SUCCESS) then Some false else None)
  end.

(** The body of the loop. *)
Definition proxy_step : stm run (option bool) :=
  r ← st_get;
  let a := tp_value_a (op1 (r_op r)) in
  if decide (a = INVOCATION_RESPONSE) then
    resp ← shared_read (fun b => c_string b 0);
    ok ← on_service (world_call (stream_Write (Some (InvocationResponse resp))));
    mret (Some ok)
  else if decide (a = GET_STATE_REQUEST) then forward_get
  else if decide (a = PUT_STATE_REQUEST) then forward_put
  else mret (Some false).

(** [while (true)], for at most [fuel] iterations. *)
Fixpoint proxy_loop (fuel : nat) : stm run bool :=
  match fuel with
  | O => fun _ => Fault OutOfFuel
  | S fuel' =>
      left ← proxy_step;
      match left with
      | Some ok => mret ok
      | None => proxy_loop fuel'
      end
  end.

Definition run_types : Z := TEE_PARAM_TYPES TEE_PARAM_TYPE_MEMREF_INPUT
  TEE_PARAM_TYPE_VALUE_INOUT TEE_PARAM_TYPE_MEMREF_INOUT TEE_PARAM_TYPE_MEMREF_INOUT.

(** The operation of RUN; [code] is [None] when the pointer is NULL (an empty
    file), and has the size of the file. *)
Definition run_operation (code : option (list byte)) (buf : list byte) (ctx : tee_ctx) : TEEC_Operation :=
  Operation run_types
    (TParam 0 0 code (Z.of_nat (length (default [] code))))
    (TParam 0 0 None 0)
    (TParam 0 0 (Some buf) max_size)
    (TParam 0 0 (output_buffer ctx) (output_buffer_size ctx)).

Definition execute_wasm_with_grpc_proxy (fuel : nat) (aot_file function_name : list byte)
    (args : list (list byte)) : stm service bool :=
  s ← st_get;
  match file_contents (bytes "./chaincode/" ++ aot_file) (sv_world s) with
  | None => mret false
  | Some code =>
    wasm_bytecode ← world_call (malloc (Z.of_nat (length code)));
    (* fread writes through the pointer unless the file is empty *)
    if decide (wasm_bytecode = None /\ code <> []) then st_fault NullDeref else
    let wasm_bytecode := (fun _ => code) <$> wasm_bytecode in
    ok ← world_call (calloc max_size);
    if negb ok then mret false else
    buf ← st_lift (marshal function_name args (replicate (Z.to_nat max_size) x00));
    s ← st_get;
    with_operation (run_operation wasm_bytecode buf (sv_ctx s)) (
      res ← invoke_command COMMAND_RUN_WASM;
      if decide (res <> TEEC_SUCCESS) then mret false else proxy_loop fuel)
  end.

(** The gRPC status of the call, or the exit of the process. *)
Inductive status := OK | UNKNOWN | Exited.

Definition TransactionInvocation (fuel : nat) : stm service status :=
  wrapper_msg ← world_call stream_Read;
  match wrapper_msg with
  | None => mret UNKNOWN
  | Some wrapper_msg =>
    success ← execute_wasm_with_grpc_proxy fuel (request_aot_file wrapper_msg)
      (request_function_name wrapper_msg) (request_arguments wrapper_msg);
    alive ← restart_session;
    if negb alive then mret Exited
    else mret (if success : bool then OK else UNKNOWN)
  end.
End proxy.
