(* ===== verification/ProxyLogic.v ===== *)
(** * The buffers of the proxy

    What marshalling puts into the shared buffer and what the trusted
    application sees of it, what the proxy reads back from a reply, and what
    it answers a RESUME with. *)
From Stdlib Require Import ZArith Lia Strings.Byte Strings.String.
From stdpp Require Import base tactics option list list_numbers gmap strings.
From S2P Require Import Prelude Mem Abi Session Natives ChaincodeSpec WamrTa Ta.
From S2P Require Import TaLogic CoffeeTa Proxy.

(** ** The arguments of RUN *)

(** A row of [struct arguments]: the string cut to 63 bytes, and NULs. *)
Definition row (s : list byte) : list byte := pad 64 (take 63 s).

(** The ten strings of an invocation, missing ones empty. *)
Definition ten (function_name : list byte) (args : list (list byte)) : list (list byte) :=
  function_name :: take 9 args ++ replicate (9 - length args) [].

Definition marshalled (function_name : list byte) (args : list (list byte)) : list byte :=
  concat (row <$> ten function_name args).

Lemma length_row s : length (row s) = 64%nat.
Proof. apply length_pad. rewrite length_take. lia. Qed.

Lemma length_rows l : length (concat (row <$> l)) = (64 * length l)%nat.
Proof. induction l as [|s l IH]; [done|]. csimpl. rewrite length_app, length_row, IH. lia. Qed.

Lemma length_ten f args : length (ten f args) = 10%nat.
Proof. unfold ten. csimpl. rewrite length_app, length_take, length_replicate. lia. Qed.

Lemma ten_lookup f args i :
  (i < 10)%nat -> ten f args !! i = Some (default [] ((f :: args) !! i)).
Proof.
  intros Hi. destruct i as [|i]; [done|].
  change (ten f args !! S i) with ((take 9 args ++ replicate (9 - length args) []) !! i).
  change ((f :: args) !! S i) with (args !! i). destruct (decide (i < length args)%nat) as [Hl|Hl].
  - rewrite lookup_app_l, lookup_take_lt by (rewrite ?length_take; lia).
    by destruct (lookup_lt_is_Some_2 args i Hl) as [x ->].
  - rewrite lookup_app_r, lookup_replicate_2 by (rewrite ?length_take; lia).
    by rewrite (lookup_ge_None_2 args) by lia.
Qed.

Lemma length_marshalled f args : length (marshalled f args) = 640%nat.
Proof. unfold marshalled. by rewrite length_rows, length_ten. Qed.

Lemma splice_app {A} n (bs a b c : list A) :
  length a = n -> (length bs <= length b)%nat ->
  splice n bs (a ++ b ++ c) = a ++ (bs ++ drop (length bs) b) ++ c.
Proof.
  intros <- Hb. unfold splice. rewrite take_app_length, drop_app_add.
  by rewrite drop_app_le, <- app_assoc by done.
Qed.

Lemma take_length_take {A} n (s : list A) : take (length (take n s)) s = take n s.
Proof.
  rewrite length_take. destruct (decide (n <= length s)%nat);
    [by rewrite Nat.min_l by lia|by rewrite Nat.min_r, !take_ge by lia].
Qed.

Lemma set_argument_ok n s a c :
  length a = (64 * n)%nat ->
  set_argument (Z.of_nat n) s (a ++ replicate 64 x00 ++ c) = Done (a ++ row s ++ c).
Proof.
  intros Ha. unfold set_argument, argument_off, ARG_SIZE.
  set (len := Z.of_nat (length (take 63 s))).
  replace (if decide (Z.of_nat (length s) >= 64) then 64 - 1 else Z.of_nat (length s)) with len
    by (unfold len; rewrite length_take; case_decide; lia).
  assert (Hlen : 0 <= len <= 63 /\ len <= Z.of_nat (length s))
    by (unfold len; rewrite length_take; lia).
  unfold buf_MemMove. rewrite buf_read_ok by lia. cbn [mbind cres_bind]. rewrite drop_0.
  replace (take (Z.to_nat len) s) with (take 63 s)
    by (unfold len; by rewrite Nat2Z.id, take_length_take).
  rewrite buf_write_ok by (rewrite ?length_app, ?length_replicate; fold len; lia).
  cbn [mbind cres_bind]. rewrite splice_app by (rewrite ?length_replicate, ?length_take; lia).
  rewrite drop_replicate. unfold row, pad.
  rewrite buf_write_ok.
  2: lia.
  2: { cbn [length]. rewrite !length_app, !length_replicate. fold len. lia. }
  f_equal. rewrite !app_assoc, <- (app_assoc (a ++ take 63 s)).
  rewrite splice_app.
  - cbn [length]. rewrite <- !app_assoc. do 2 f_equal.
    destruct (64 - length (take 63 s))%nat eqn:E; [lia|]. done.
  - rewrite length_app. lia.
  - rewrite length_replicate. cbn [length]. lia.
Qed.

Lemma set_arguments_ok n args a :
  length a = (64 * n)%nat -> (n + length args <= 10)%nat ->
  set_arguments (Z.of_nat n) args (a ++ replicate (640 - 64 * n) x00) =
    Done (a ++ concat (row <$> args) ++ replicate (640 - 64 * (n + length args)) x00).
Proof.
  revert n a. induction args as [|s args IH]; intros n a Ha Hn; cbn [set_arguments length] in *.
  { by rewrite Nat.add_0_r. }
  replace (640 - 64 * n)%nat with (64 + (640 - 64 * S n))%nat by lia.
  rewrite replicate_add, set_argument_ok by done. cbn [mbind cres_bind].
  replace (Z.of_nat n + 1) with (Z.of_nat (S n)) by lia.
  rewrite app_assoc, IH by (rewrite ?length_app, ?length_row; lia).
  rewrite fmap_cons. cbn [concat]. rewrite <- !app_assoc.
  by replace (S n + length args)%nat with (n + S (length args))%nat by lia.
Qed.

Lemma rows_nil n : concat (row <$> replicate n []) = replicate (64 * n) x00.
Proof.
  induction n as [|n IH]; [done|].
  replace (64 * S n)%nat with (64 + 64 * n)%nat by lia. by rewrite replicate_add, <- IH.
Qed.

(** Marshalling fills the ten rows. *)
Lemma marshal_ok f args :
  marshal f args (replicate 640 x00) = Done (marshalled f args).
Proof.
  unfold marshal. change (replicate 640 x00) with ([] ++ replicate 64 x00 ++ replicate 576 x00).
  change 0 with (Z.of_nat 0) at 1. rewrite set_argument_ok by done. cbn [mbind cres_bind app].
  change (Z.to_nat (ARGS_NUMBER - 1)) with 9%nat. change 1 with (Z.of_nat 1).
  change 576%nat with (640 - 64 * 1)%nat.
  rewrite set_arguments_ok by (rewrite ?length_row, ?length_take; lia).
  f_equal. unfold marshalled, ten. csimpl. rewrite fmap_app, concat_app, rows_nil. do 3 f_equal.
  rewrite length_take. lia.
Qed.

Lemma argument_row_ok l i s :
  l !! i = Some s -> argument_row (concat (row <$> l)) (Z.of_nat i) = row s.
Proof.
  revert i. induction l as [|s' l IH]; intros i Hi; [done|]. unfold argument_row, argument_off.
  change (Z.to_nat ARG_SIZE) with 64%nat. unfold ARG_SIZE. csimpl.
  destruct i as [|i].
  - injection Hi as ->. change (Z.to_nat (Z.of_nat 0 * 64)) with 0%nat. rewrite drop_0.
    by rewrite take_app_length' by (by rewrite length_row).
  - rewrite drop_app_ge by (rewrite length_row; lia). rewrite length_row.
    rewrite <- (IH i Hi). unfold argument_row, argument_off, ARG_SIZE.
    change (Z.to_nat 64) with 64%nat. do 2 f_equal. lia.
Qed.

(** The string of a row is the C string, cut to 63 bytes. *)
Lemma cstr_row s : cstr (row s) = take 63 (cstr s).
Proof. unfold row. by rewrite cstr_pad_any, cstr_take. Qed.

(** What a RUN on the marshalled arguments observes. *)
Lemma run_view_args `{TaEnv} s p f args :
  p_memref (p2 p) = marshalled f args ->
  hv_args (run_view s p) = (fun x => take 63 (cstr x)) <$> ten f args.
Proof.
  intros Hp. unfold run_view, session_view. cbn [hv_args sc_args set_args].
  unfold run_args, memref_size. rewrite Hp, length_marshalled.
  rewrite decide_True by done. rewrite take_ge by (by rewrite length_marshalled).
  apply list_eq. intros i. rewrite !list_lookup_fmap.
  destruct (decide (i < 10)%nat) as [Hi|Hi].
  - rewrite lookup_seqZ_lt by lia. cbn [fmap option_fmap option_map].
    destruct (lookup_lt_is_Some_2 (ten f args) i) as [x Hx]; [by rewrite length_ten|].
    rewrite Hx. unfold marshalled. rewrite Z.add_0_l.
    rewrite (argument_row_ok _ _ _ Hx), cstr_row. done.
  - rewrite lookup_seqZ_ge by lia. by rewrite lookup_ge_None_2 by (rewrite length_ten; lia).
Qed.

(** ** Strings in the shared buffer *)

Lemma cstr_app_in a b : x00 ∈ a -> cstr (a ++ b) = cstr a.
Proof.
  induction a as [|c a IH]; [by intros ?%elem_of_nil|]. intros Hin. cbn [cstr app].
  case_decide as Hc; [done|]. f_equal. apply IH. apply elem_of_cons in Hin.
  by destruct Hin as [Hin|Hin]; [symmetry in Hin|].
Qed.

Lemma in_pad n bs : (length bs < n)%nat -> x00 ∈ pad n bs.
Proof.
  intros Hl. unfold pad. apply elem_of_app. right.
  apply elem_of_replicate. split; [done|lia].
Qed.

Lemma c_string_front a b n s :
  no_nul s -> (length s < n)%nat -> a = pad n s -> c_string (a ++ b) 0 = Done s.
Proof.
  intros Hs Hl ->. unfold c_string. change (Z.to_nat 0) with 0%nat. rewrite drop_0.
  rewrite decide_True by (apply elem_of_app; left; by apply in_pad).
  by rewrite cstr_app_in, cstr_pad by (try apply in_pad; done).
Qed.

Lemma c_string_at off a b c n s :
  length a = Z.to_nat off -> no_nul s -> (length s < n)%nat -> b = pad n s ->
  c_string (a ++ b ++ c) off = Done s.
Proof.
  intros Ha Hs Hl Hb. pose proof (c_string_front b c n s Hs Hl Hb) as E.
  unfold c_string in *. change (Z.to_nat 0) with 0%nat in E. rewrite drop_0 in E.
  by rewrite drop_app_length'.
Qed.

(** ** The answer of the proxy *)

(** What reaches the trusted application of a value of the ledger: nothing,
    when it does not fit. *)
Definition seen (value : list byte) : list byte :=
  if decide (Z.of_nat (length value) < VAL_SIZE) then cstr value else [].

(** The shared buffer, cleared, with the value in its place. *)
Definition answer_buffer (value : list byte) : list byte :=
  splice 64 (pad 255 (seen value)) (replicate 640 x00).

Lemma length_seen v : (length (seen v) <= 255)%nat.
Proof.
  unfold seen, VAL_SIZE. case_decide; [|simpl; lia]. pose proof (length_cstr v). lia.
Qed.

Lemma no_nul_seen v : no_nul (seen v).
Proof. unfold seen. case_decide; [auto with cstring|constructor]. Qed.
#[export] Hint Resolve no_nul_seen : cstring.

Lemma length_answer_buffer v : length (answer_buffer v) = 640%nat.
Proof.
  unfold answer_buffer. pose proof (length_seen v).
  rewrite length_splice; rewrite ?length_replicate, ?length_pad; lia.
Qed.

(** The two ways of writing the answer give that buffer. *)
Lemma answer_written v :
  (if decide (Z.of_nat (length v) < VAL_SIZE)
   then strncpy (replicate 640 x00) kv_value_off v (VAL_SIZE - 1)
   else Done (replicate 640 x00)) = Done (answer_buffer v).
Proof.
  unfold answer_buffer, seen, strncpy. change (Z.to_nat (VAL_SIZE - 1)) with 255%nat.
  pose proof (length_cstr v). unfold VAL_SIZE, kv_value_off, KEY_SIZE. case_decide.
  - rewrite take_ge by lia.
    rewrite buf_write_ok by (rewrite ?length_pad, ?length_replicate; lia). done.
  - reflexivity.
Qed.

(** What RESUME finds in that buffer. *)
Lemma answer_seen v : take 255 (cstr (drop 64 (answer_buffer v))) = seen v.
Proof.
  unfold answer_buffer. pose proof (length_seen v) as Hl.
  change 640%nat with (64 + (256 + 320))%nat. rewrite !replicate_add.
  rewrite (splice_app 64 _ (replicate 64 x00) (replicate 256 x00))
    by (rewrite ?length_replicate, ?length_pad; lia).
  rewrite drop_app_length' by (by rewrite length_replicate).
  rewrite length_pad, drop_replicate, <- app_assoc by done.
  change (replicate (256 - 255) x00) with [x00]. cbn [app]. unfold pad. rewrite <- app_assoc.
  assert (E : forall m l, cstr (seen v ++ replicate m x00 ++ x00 :: l) = seen v).
  { intros [|m] l; simpl; apply cstr_app_nul; auto with cstring. }
  rewrite E. apply take_ge. done.
Qed.
