(* ===== verification/Wrapper.v ===== *)
(** * The wrapper chaincode on the peer

    [chaincode.go]: the Hyperledger Fabric chaincode that sends an invocation
    to the proxy and serves the requests that come back from the ledger.
    Fabric's stub and the gRPC client are the class [WrapperEnv]; a Go [error]
    is its text. *)
From Stdlib Require Import ZArith Lia Strings.Byte Strings.String.
From stdpp Require Import base tactics option list list_numbers gmap strings.
From S2P Require Import Prelude Mem Abi Proxy.

(** [pb.Response], by [shim.Success] and [shim.Error]. *)
Inductive Response := Success (payload : list byte) | Error (message : list byte).

#[export] Instance Response_eq_dec : EqDecision Response.
Proof. solve_decision. Defined.

(** Fabric's stub and the gRPC client: a call gives its error on the left. *)
Class WrapperEnv := {
  stub : Type;
  GetFunctionAndParameters : stub -> list byte * list (list byte);
  stub_GetState : list byte -> stub -> list byte + option (list byte);
  stub_PutState : list byte -> list byte -> stub -> list byte + stub;
  conn : Type;
  grpc_Dial : conn -> list byte + conn;
  client_TransactionInvocation : conn -> list byte + conn;
  stream_Send : ChaincodeWrapperMessage -> conn -> list byte + conn;
  stream_Recv : conn -> list byte + (ChaincodeProxyMessage * conn);
}.

(** [type ChaincodeWrapper struct] *)
Record ChaincodeWrapper := Wrapper { Uuid : list byte }.

(** [encoding/hex]: the digits of a byte; [DecodeString] gives the bytes decoded
    before an error, and whether there was one. *)
Definition from_hex (c : byte) : option Z :=
  let v := byte_to_Z c in
  if decide (48 <= v <= 57) then Some (v - 48)
  else if decide (97 <= v <= 102) then Some (v - 97 + 10)
  else if decide (65 <= v <= 70) then Some (v - 65 + 10)
  else None.

Fixpoint hex_DecodeString (s : list byte) : list byte * bool :=
  match s with
  | [] => ([], true)
  | [_] => ([], false)
  | h :: l :: s' =>
      match from_hex h, from_hex l with
      | Some a, Some b =>
          let r := hex_DecodeString s' in (byte_of_Z (16 * a + b) :: r.1, r.2)
      | _, _ => ([], false)
      end
  end.

Section wrapper.
  Context `{WrapperEnv}.

Definition Init : Response := Success [].

Definition setup_args_error : list byte := bytes "Failed to invoke setup function of chaincode_wrapper with error: incorrect number of args, expecting 1 arg (uuid).".
Definition invoke_args_error : list byte := bytes "Failed to invoke chaincode_wrapper with error: incorrect number of args, expecting at least name of function to execute".

(** The text of a decoding error, which names the offending byte, is left out
    of the message. *)
Definition setup_hex_error : list byte :=
  bytes "Failed to invoke setup function of chaincode_wrapper with error: ".

Definition setup (t : ChaincodeWrapper) (st : stub) : Response * ChaincodeWrapper :=
  let args := (GetFunctionAndParameters st).2 in
  match args with
  | [uuidInput] =>
      let r := hex_DecodeString uuidInput in
      (if r.2 then Success [] else Error setup_hex_error, Wrapper r.1)
  | _ => (Error setup_args_error, t)
  end.

(** What the wrapper does with one message of the proxy: it returns, sends an
    answer, or (a message without a member) waits for the next one. *)
Inductive reaction := Return (r : Response) | Send (m : wrapper_oneof) | Ignore.

Definition react (proxyMsg : ChaincodeProxyMessage) (st : stub) : stub * reaction :=
  match proxyMsg with
  | Some (InvocationResponse executionResponse) => (st, Return (Success executionResponse))
  | Some (GetStateRequest key) =>
      match stub_GetState key st with
      | inl err => (st, Return (Error err))
      | inr value => (st, Send (GetStateResponse (default [] value)))
      end
  | Some (PutStateRequest key value) =>
      match stub_PutState key value st with
      | inl err => (st, Return (Error err))
      | inr st' => (st', Send (PutStateResponse (bytes "OK")))
      end
  | None => (st, Ignore)
  end.

(** The request that starts an invocation, or the error of too few arguments:
    [ccfile] names the module, the first argument the function. *)
Definition invocation_request (t : ChaincodeWrapper) (st : stub) : Response + wrapper_oneof :=
  match GetFunctionAndParameters st with
  | (ccfile, function :: args) =>
      if decide (args = []) then inl (Error invoke_args_error)
      else inr (InvocationRequest (Uuid t) function args ccfile)
  | (_, []) => inl (Error invoke_args_error)
  end.

(** [for { stream.Recv(); switch ... }], for at most [fuel] iterations;
    [None] when they do not suffice. *)
Fixpoint wrapper_loop (fuel : nat) (st : stub) (c : conn) : option (Response * stub * conn) :=
  match fuel with
  | O => None
  | S fuel' =>
      match stream_Recv c with
      | inl err => Some (Error err, st, c)
      | inr (proxyMsg, c) =>
          match react proxyMsg st with
          | (st, Return r) => Some (r, st, c)
          | (st, Ignore) => wrapper_loop fuel' st c
          | (st, Send m) =>
              match stream_Send (Some m) c with
              | inl err => Some (Error err, st, c)
              | inr c => wrapper_loop fuel' st c
              end
          end
      end
  end.

Definition invoke (fuel : nat) (t : ChaincodeWrapper) (st : stub) (c : conn)
    : option (Response * stub * conn) :=
  match invocation_request t st with
  | inl r => Some (r, st, c)
  | inr request =>
      match grpc_Dial c with
      | inl err => Some (Error err, st, c)
      | inr c =>
          match client_TransactionInvocation c with
          | inl err => Some (Error err, st, c)
          | inr c =>
              match stream_Send (Some request) c with
              | inl err => Some (Error err, st, c)
              | inr c => wrapper_loop fuel st c
              end
          end
      end
  end.

Definition Invoke (fuel : nat) (t : ChaincodeWrapper) (st : stub) (c : conn)
    : option (Response * stub * conn * ChaincodeWrapper) :=
  if decide ((GetFunctionAndParameters st).1 = bytes "setup")
  then let r := setup t st in Some (r.1, st, c, r.2)
  else (fun r => (r, t)) <$> invoke fuel t st c.
End wrapper.
