(* ===== verification/System.v ===== *)
(** * The system: peer, proxy and trusted application

    The interfaces through which the three parts reach each other: [SystemLaws]
    states what the GlobalPlatform client API and gRPC promise (a command
    invoked by the proxy runs the entry point of the trusted application on
    the operation's buffers; a message written is handled by the wrapper, whose
    answer is read next) and [LedgerLaws] what Fabric's stub promises. Against
    them, one iteration of the proxy's loop carries out one resumption of the
    contract, and one invocation is [coffee_transaction] on the ledger. *)
From Stdlib Require Import ZArith Lia Strings.Byte Strings.String.
From stdpp Require Import base tactics option list list_numbers gmap strings.
From S2P Require Import Prelude Mem Abi Session Natives Chaincode ChaincodeLogic.
From S2P Require Import ChaincodeSpec WamrTa Ta TaLogic CoffeeTa Proxy ProxyLogic Wrapper.

(** ** The operation's parameters, on the two sides *)

Definition to_param (x : TEEC_Parameter) : TEE_Param :=
  Param (tp_value_a x) (tp_value_b x) (default [] (tp_buffer x)).
Definition to_params (op : TEEC_Operation) : params4 :=
  Params (to_param (op0 op)) (to_param (op1 op)) (to_param (op2 op)) (to_param (op3 op)).

Definition back_param (x : TEEC_Parameter) (p : TEE_Param) : TEEC_Parameter :=
  TParam (p_value_a p) (p_value_b p) ((fun _ => p_memref p) <$> tp_buffer x) (tp_size x).
Definition back_params (op : TEEC_Operation) (p : params4) : TEEC_Operation :=
  Operation (paramTypes op) (back_param (op0 op) (p0 p)) (back_param (op1 op) (p1 p))
    (back_param (op2 op) (p2 p)) (back_param (op3 op) (p3 p)).

(** Every buffer has the size given with it. *)
Definition tparam_ok (x : TEEC_Parameter) : Prop :=
  Z.of_nat (length (default [] (tp_buffer x))) = tp_size x.
Definition operation_ok (op : TEEC_Operation) : Prop :=
  tparam_ok (op0 op) /\ tparam_ok (op1 op) /\ tparam_ok (op2 op) /\ tparam_ok (op3 op).

(** The globals of a new instance of the trusted application. *)
Definition ta_start `{TaEnv} (e : env) : ta := Ta 0 None wamr_context_zero false e.

(** ** The interfaces *)

(** What can be said of a world: the instance of the trusted application behind
    the open session, the wrapper (its stub, and its response once it has
    returned) and the messages it has sent that are not read yet. *)
Class SystemEnv `{TaEnv} `{ProxyEnv} `{WrapperEnv} := {
  tee_of : world -> option ta;
  wrapper_of : world -> stub * option Response;
  inbox : world -> list wrapper_oneof;
}.

Section views.
  Context `{SystemEnv}.

Definition same_files (w w' : world) : Prop :=
  forall f, file_contents f w' = file_contents f w.
Definition same_peer (w w' : world) : Prop :=
  wrapper_of w' = wrapper_of w /\ inbox w' = inbox w /\ same_files w w'.

(** The wrapper after the reaction to a message. *)
Definition reacted (x : stub * reaction) : (stub * option Response) * list wrapper_oneof :=
  match x with
  | (st, Return r) => ((st, Some r), [])
  | (st, Send m) => ((st, None), [m])
  | (st, Ignore) => ((st, None), [])
  end.
End views.

(** The TEE client specification: opening a session with an application that is
    neither single-instance nor keep-alive makes a new instance of it and calls
    its entry point; a command calls the command entry point on the operation's
    parameters, and what that leaves in them is what the caller finds.  gRPC
    delivers messages in order; the wrapper, waiting in [Recv], handles each. *)
Class SystemLaws `{SystemEnv} : Prop := {
  malloc_law n w : 0 <= n ->
    (exists b, (malloc n w).1 = Some b /\ Z.of_nat (length b) = n) /\
    tee_of (malloc n w).2 = tee_of w /\ same_peer w (malloc n w).2;
  calloc_law n w : (calloc n w).1 = true /\
    tee_of (calloc n w).2 = tee_of w /\ same_peer w (calloc n w).2;
  context_law w : (TEEC_InitializeContext w).1 = TEEC_SUCCESS /\
    same_peer w (TEEC_InitializeContext w).2;
  open_law w : exists e r b t,
    TA_OpenSessionEntryPoint 0 (ta_start e) = Done ((r, b), t) /\
    (TEEC_OpenSession w).1 = r /\
    (r = TEE_SUCCESS -> tee_of (TEEC_OpenSession w).2 = Some t) /\
    same_peer w (TEEC_OpenSession w).2;
  invoke_law cmd_id op w t r t' p' :
    operation_ok op -> tee_of w = Some t ->
    TA_InvokeCommandEntryPoint cmd_id (paramTypes op) (Cmd t (to_params op)) =
      Done (r, Cmd t' p') ->
    exists w', TEEC_InvokeCommand cmd_id op w = ((r, back_params op p'), w') /\
      tee_of w' = Some t' /\ same_peer w w';
  close_law w : same_peer w (TEEC_CloseSession w);
  finalize_law w : same_peer w (TEEC_FinalizeContext w);
  write_law m w st : wrapper_of w = (st, None) -> inbox w = [] ->
    (stream_Write m w).1 = true /\
    tee_of (stream_Write m w).2 = tee_of w /\ same_files w (stream_Write m w).2 /\
    (wrapper_of (stream_Write m w).2, inbox (stream_Write m w).2) = reacted (react m st);
  read_law w a l : inbox w = a :: l ->
    (stream_Read w).1 = Some (Some a) /\
    tee_of (stream_Read w).2 = tee_of w /\ same_files w (stream_Read w).2 /\
    wrapper_of (stream_Read w).2 = wrapper_of w /\ inbox (stream_Read w).2 = l;
}.

(** Fabric's stub: [GetState] reads the committed state of the ledger, not what
    the transaction has written, and is [nil] on an absent key; [PutState] adds
    to the write set of the transaction. *)
Class LedgerEnv `{WrapperEnv} := {
  committed : stub -> gmap (list byte) (list byte);
  written : stub -> gmap (list byte) (list byte);
}.

Class LedgerLaws `{LedgerEnv} : Prop := {
  get_law k st : k <> [] -> stub_GetState k st = inr (committed st !! k);
  put_law k v st : k <> [] -> exists st', stub_PutState k v st = inr st' /\
    committed st' = committed st /\ written st' = <[k := v]> (written st);
}.

(** ** What an invocation is *)

(** The value of a key, as far as it reaches the chaincode. *)
Definition ledger_value (ledger : gmap (list byte) (list byte)) (k : list byte) : list byte :=
  seen (default [] (ledger !! k)).

Definition arg_string (args : list (list byte)) (i : nat) : list byte :=
  take 63 (cstr (default [] (args !! i))).

(** The write of an invocation, if any, and its response. *)
Definition coffee_transaction (ledger : gmap (list byte) (list byte)) (function : list byte)
    (args : list (list byte)) : option (list byte * list byte) * list byte :=
  let f := take 63 (cstr function) in
  let k := arg_string args 0 in
  let a := arg_string args 1 in
  let cur := ledger_value ledger k in
  if decide (f = bytes "create") then
    if decide (cur = []) then (Some (k, a), bytes "OK") else (None, bytes "EXIST")
  else if decide (f = bytes "add") then
    if decide (cur = []) then (None, bytes "EMPTY") else (Some (k, add_result cur a), bytes "OK")
  else if decide (f = bytes "query") then
    (None, if decide (cur = []) then bytes "NOTFOUND" else cur)
  else (None, bytes "ERROR").

Definition apply_write (x : option (list byte * list byte)) (m : gmap (list byte) (list byte)) :=
  match x with Some (k, v) => <[k := v]> m | None => m end.

(** ** The wrapper's side of a conversation *)

(** A connection that works: the messages it has yet to receive, and those it
    has sent. *)
Class ConnEnv `{WrapperEnv} := {
  pending : conn -> list ChaincodeProxyMessage;
  sent : conn -> list ChaincodeWrapperMessage;
}.

Class ConnLaws `{ConnEnv} : Prop := {
  dial_law c : exists c', grpc_Dial c = inr c' /\ pending c' = pending c /\ sent c' = sent c;
  open_stream_law c : exists c', client_TransactionInvocation c = inr c' /\
    pending c' = pending c /\ sent c' = sent c;
  recv_law c m l : pending c = m :: l -> exists c', stream_Recv c = inr (m, c') /\
    pending c' = l /\ sent c' = sent c;
  send_law c m : exists c', stream_Send m c = inr c' /\
    pending c' = pending c /\ sent c' = sent c ++ [m];
}.

(** A request on a key that the ledger takes. *)
Definition is_request (m : proxy_oneof) : Prop :=
  match m with
  | GetStateRequest k => k <> []
  | PutStateRequest k _ => k <> []
  | InvocationResponse _ => False
  end.
#[export] Instance is_request_dec m : Decision (is_request m).
Proof. unfold is_request. destruct m; apply _. Defined.

(** What a request is answered with, and what it does to the write set. *)
Definition request_answer (ledger : gmap (list byte) (list byte)) (m : proxy_oneof) : wrapper_oneof :=
  match m with
  | GetStateRequest k => GetStateResponse (default [] (ledger !! k))
  | _ => PutStateResponse (bytes "OK")
  end.

Definition request_write (writes : gmap (list byte) (list byte)) (m : proxy_oneof) :=
  match m with PutStateRequest k v => <[k := v]> writes | _ => writes end.

Section conversation.
  Context `{WrapperEnv} `{!ConnEnv} `{!ConnLaws} `{!LedgerEnv} `{!LedgerLaws}.

Lemma request_reaction m st :
  is_request m -> exists st', react (Some m) st = (st', Send (request_answer (committed st) m)) /\
    committed st' = committed st /\ written st' = request_write (written st) m.
Proof.
  destruct m as [x|k|k v]; intros Hk; [done| |]; cbn [react].
  - rewrite get_law by done. by eexists.
  - destruct (put_law k v st Hk) as (st' & -> & Hc & Hw). by eexists.
Qed.

Lemma loop_conversation qs x fuel st c :
  Forall is_request qs -> pending c = (Some <$> qs) ++ [Some (InvocationResponse x)] ->
  (length qs < fuel)%nat ->
  exists st' c', wrapper_loop fuel st c = Some (Success x, st', c') /\
    committed st' = committed st /\ written st' = foldl request_write (written st) qs /\
    sent c' = sent c ++ (Some <$> (request_answer (committed st) <$> qs)) /\ pending c' = [].
Proof.
  intros Hqs. revert fuel st c. induction Hqs as [|m qs Hm _ IH]; intros fuel st c Hp Hf;
    (destruct fuel as [|fuel]; [cbn in Hf; lia|]); cbn [wrapper_loop].
  - destruct (recv_law _ _ _ Hp) as (c1 & -> & Hp1 & Hs1). cbn [react]. exists st, c1.
    split_and!; try done. by rewrite app_nil_r.
  - destruct (recv_law _ _ _ Hp) as (c1 & -> & Hp1 & Hs1).
    destruct (request_reaction m st Hm) as (st1 & -> & Hc1 & Hw1).
    destruct (send_law c1 (Some (request_answer (committed st) m))) as (c2 & -> & Hp2 & Hs2).
    destruct (IH fuel st1 c2) as (st' & c' & E & Hc & Hw & Hs & Hp'); [by rewrite Hp2, Hp1|cbn in Hf; lia|].
    exists st', c'. split_and!; [done|congruence| | |done].
    + rewrite Hw, Hw1. done.
    + rewrite Hs, Hs2, Hs1, Hc1, <- app_assoc. done.
Qed.
End conversation.
