(* ===== verification/SystemLogic.v ===== *)
(** * Running the system

    The invariant of the proxy's loop while the trusted application runs the
    chaincode ([at_reply]), and what each piece of an invocation does to it:
    RUN on the marshalled arguments, the two requests, the response, and the
    restart of the session. *)
From Stdlib Require Import ZArith Lia Strings.Byte Strings.String.
From stdpp Require Import base tactics option list list_numbers gmap strings.
From S2P Require Import Prelude Mem Abi Session Natives Chaincode ChaincodeLogic.
From S2P Require Import ChaincodeSpec WamrTa Ta TaLogic CoffeeTa Proxy ProxyLogic Wrapper System.

(** The acknowledgement of a PUT in the cleared buffer. *)
Lemma strncpy_front ack : exists b,
  (if decide (Z.of_nat (length ack) < ACK_SIZE)
   then strncpy (replicate 640 x00) 0 ack (ACK_SIZE - 1) else Done (replicate 640 x00)) = Done b /\
  length b = 640%nat.
Proof.
  unfold strncpy, ACK_SIZE. change (Z.to_nat (20 - 1)) with 19%nat.
  assert (Hl : length (pad 19 (take 19 (cstr ack))) = 19%nat) by (apply length_pad; rewrite length_take; lia).
  case_decide; [|by eexists].
  rewrite buf_write_ok by (rewrite ?Hl, ?length_replicate; lia). eexists. split; [done|].
  rewrite length_splice; rewrite ?Hl, ?length_replicate; lia.
Qed.

Section system.
  Context `{SystemEnv} `{!SystemLaws} `{!WamrInstLaws}
    (L : layout) (code : list byte) (coffee : inst -> Prop) `{!CoffeeLaws L code coffee}.
  Implicit Types (t : ta) (c : contract) (v : hview) (w : world) (st : stub).

(** ** Views of the chaincode *)

(** The strings of a view are C strings. *)
Lemma coffee_ta_view t c v :
  coffee_ta L coffee t c v -> exists s, session_wf s /\ v = session_view s.
Proof.
  intros (s & i & [] & _). exists s. split; [done|]. symmetry. by eapply at_contract_view.
Qed.

Lemma view_text_string t c v :
  coffee_ta L coffee t c v -> no_nul (view_text v) /\ (length (view_text v) <= 255)%nat.
Proof.
  intros (s & Hw & ->)%coffee_ta_view. unfold view_text, session_view. cbn [hv_response].
  case_decide; [split; [by apply (bool_decide_unpack _)|simpl; lia]|].
  case_decide; [split; [by apply (bool_decide_unpack _)|simpl; lia]|].
  split; [auto with cstring|rewrite length_take; lia].
Qed.

Lemma view_get_string t c v k p n :
  coffee_ta L coffee t c v -> hv_request v = Some (GetState k p n) -> no_nul k.
Proof.
  intros (s & Hw & ->)%coffee_ta_view. unfold session_view, session_request. cbn [hv_request].
  repeat case_decide; intros [= <-]; auto with cstring.
Qed.

Lemma view_put_string t c v k x :
  coffee_ta L coffee t c v -> hv_request v = Some (PutState k x) -> no_nul k /\ no_nul x.
Proof.
  intros (s & Hw & ->)%coffee_ta_view. unfold session_view, session_request. cbn [hv_request].
  repeat case_decide; intros [= <- <-]; auto with cstring.
Qed.

Lemma length_view_struct t c v :
  coffee_ta L coffee t c v -> (length (view_struct v) <= 320)%nat.
Proof.
  intros Ht. unfold view_struct. destruct (hv_request v) as [[k p n|k x]|].
  - rewrite length_pad; [done|]. rewrite length_take. lia.
  - rewrite length_app, !length_pad; rewrite ?length_take; lia.
  - destruct (view_text_string t c v Ht). rewrite length_pad; lia.
Qed.

(** ** The invariant of the loop *)

(** The proxy holds the buffer [b]; the trusted application is in the state [c]
    of the contract, observed as [v]; the wrapper waits for a message; the file
    system is that of [w0]. *)
Record waiting w0 (r : run) c v st (b : list byte) : Prop := {
  wt_ta : exists t, tee_of (sv_world (r_service r)) = Some t /\ coffee_ta L coffee t c v;
  wt_asked : asked (L g_cur_val) c v;
  wt_ok : operation_ok (r_op r);
  wt_buffer : tp_buffer (op2 (r_op r)) = Some b;
  wt_length : length b = 640%nat;
  wt_wrapper : wrapper_of (sv_world (r_service r)) = (st, None);
  wt_inbox : inbox (sv_world (r_service r)) = [];
  wt_files : same_files w0 (sv_world (r_service r));
}.

(** Between two iterations the buffer and the code are the reply of the trusted
    application. *)
Definition at_reply w0 (r : run) c v st : Prop :=
  exists b, waiting w0 r c v st (splice 0 (view_struct v) b) /\
    tp_value_a (op1 (r_op r)) = view_code v.

Lemma back_params_ok op p :
  operation_ok op -> (forall b, tp_buffer (op2 op) = Some b -> length (p_memref (p2 p)) = length b) ->
  p0 p = to_param (op0 op) -> p_memref (p1 p) = default [] (tp_buffer (op1 op)) ->
  p3 p = to_param (op3 op) ->
  operation_ok (back_params op p).
Proof.
  intros (H0' & H1' & H2' & H3') Hl E0 E1 E3.
  unfold operation_ok, tparam_ok, back_params, back_param in *. cbn [op0 op1 op2 op3 tp_buffer tp_size].
  rewrite E0, E1, E3. unfold to_param. cbn [p_memref].
  split_and!.
  - by destruct (tp_buffer (op0 op)).
  - by destruct (tp_buffer (op1 op)).
  - destruct (tp_buffer (op2 op)) as [b|]; [|done]. cbn in *. by rewrite (Hl b eq_refl).
  - by destruct (tp_buffer (op3 op)).
Qed.

(** Invoking a command that replies as the contract's view [v]. *)
Lemma command_replies w0 (r : run) cmd_id t t' c v st b p :
  tee_of (sv_world (r_service r)) = Some t -> operation_ok (r_op r) ->
  tp_buffer (op2 (r_op r)) = Some b -> length b = 640%nat ->
  wrapper_of (sv_world (r_service r)) = (st, None) -> inbox (sv_world (r_service r)) = [] ->
  same_files w0 (sv_world (r_service r)) ->
  (p = to_params (r_op r) \/ p = with_value_a 0 (to_params (r_op r))) ->
  TA_InvokeCommandEntryPoint cmd_id (paramTypes (r_op r)) (Cmd t (to_params (r_op r))) =
    Done (TEE_SUCCESS, Cmd t' (reply_params (view_code v) (view_struct v) p)) ->
  coffee_ta L coffee t' c v -> asked (L g_cur_val) c v ->
  exists r', invoke_command cmd_id r = Done (TEEC_SUCCESS, r') /\ at_reply w0 r' c v st.
Proof.
  intros Et Hok Hb Hl Hwr Hin Hf Hp Ecmd Ht' Hask.
  destruct (invoke_law _ _ _ _ _ _ _ Hok Et Ecmd) as (w' & Einv & Et' & Hwr' & Hin' & Hf').
  pose proof (length_view_struct _ _ _ Ht') as Hvs.
  assert (Hlp : length (splice 0 (view_struct v) b) = 640%nat) by (rewrite length_splice; lia).
  assert (Hm : p_memref (p2 p) = b)
    by (by destruct Hp as [-> | ->]; cbn [p2 with_value_a to_params to_param p_memref]; rewrite Hb).
  eexists. unfold invoke_command. rewrite Einv. cbn [fst snd]. split; [reflexivity|].
  exists b. split; [split; cbn [r_service sv_world r_op]|].
  - by exists t'.
  - done.
  - apply (back_params_ok _ _ Hok); cbn [reply_params with_p2 with_value_a p0 p1 p2 p3 p_memref].
    + intros b' Hb'. rewrite Hm. congruence.
    + by destruct Hp as [-> | ->].
    + by destruct Hp as [-> | ->].
    + by destruct Hp as [-> | ->].
  - cbn [back_params back_param op2 tp_buffer reply_params with_p2 p2 p_memref]. by rewrite Hb, Hm.
  - done.
  - congruence.
  - congruence.
  - intros f. by rewrite Hf'.
  - done.
Qed.

Lemma resume_replies w0 (r : run) c v st b :
  waiting w0 r c v st b -> paramTypes (r_op r) = resume_types ->
  let x := contract_resume (L g_cur_val) (take 255 (cstr (drop 64 b))) c v in
  exists r', invoke_command COMMAND_RESUME_WASM r = Done (TEEC_SUCCESS, r') /\
    at_reply w0 r' x.1 x.2 st.
Proof.
  intros [(t & Et & Ht) Hask Hok Hb Hl Hwr Hin Hf] Hty x.
  assert (Hp2 : p_memref (p2 (to_params (r_op r))) = b) by (cbn [to_params to_param p2 p_memref]; by rewrite Hb).
  destruct (command_resume_coffee L code coffee t (to_params (r_op r)) c v Ht Hask)
    as (t' & E & Ht' & _); [unfold memref_size; rewrite Hp2; lia|].
  rewrite Hp2 in E, Ht'. fold x in E, Ht'.
  eapply command_replies; [done|done|done|done|done|done|done|by left| |exact Ht'|].
  - rewrite Hty. exact E.
  - by apply contract_step_asked.
Qed.

(** ** Assignments of the loop *)

Definition with_world w (r : run) : run := Run (Service (sv_ctx (r_service r)) w) (r_op r).
Definition with_types ty (r : run) : run :=
  let op := r_op r in Run (r_service r) (Operation ty (op0 op) (op1 op) (op2 op) (op3 op)).
Definition with_buffer b (r : run) : run :=
  let op := r_op r in
  Run (r_service r) (Operation (paramTypes op) (op0 op) (op1 op)
    (TParam (tp_value_a (op2 op)) (tp_value_b (op2 op)) (Some b) (tp_size (op2 op))) (op3 op)).

Lemma shared_read_eq {A} (f : list byte -> cres A) (r : run) b a :
  tp_buffer (op2 (r_op r)) = Some b -> f b = Done a -> shared_read f r = Done (a, r).
Proof. intros Hb E. unfold shared_read. by rewrite Hb, E. Qed.

Lemma shared_write_eq f (r : run) b b' :
  tp_buffer (op2 (r_op r)) = Some b -> f b = Done b' ->
  shared_write f r = Done (tt, with_buffer b' r).
Proof. intros Hb E. unfold shared_write. by rewrite Hb, E. Qed.

Lemma shared_write_if (d : bool) f (r : run) b b' :
  tp_buffer (op2 (r_op r)) = Some b -> (if d then f b else Done b) = Done b' ->
  (if d then shared_write f else mret tt) r = Done (tt, with_buffer b' r).
Proof.
  intros Hb E. destruct d; [by eapply shared_write_eq|]. injection E as <-.
  destruct r as [s [ty ? ? [? ? buf ?] ?]]. cbn in *. by subst buf.
Qed.

Lemma waiting_buffer w0 (r : run) c v st b b' :
  waiting w0 r c v st b -> length b' = 640%nat -> waiting w0 (with_buffer b' r) c v st b'.
Proof.
  intros [Ht Ha (O0 & O1 & O2 & O3) Hb Hl Hwr Hin Hf] Hl'. split; try done.
  split_and!; try done. unfold tparam_ok in *. rewrite Hb in O2. cbn in *. congruence.
Qed.

Lemma waiting_types w0 (r : run) c v st b ty :
  waiting w0 r c v st b -> waiting w0 (with_types ty r) c v st b.
Proof. by intros []. Qed.

(** A request sent to the wrapper, and its answer read. *)
Lemma exchange w0 (r : run) c v st st' b m a :
  waiting w0 r c v st b -> react (Some m) st = (st', Send a) ->
  exists w', waiting w0 (with_world w' r) c v st' b /\
    forall K : option ChaincodeWrapperMessage -> stm run (option bool),
    (sent ← on_service (world_call (stream_Write (Some m)));
     if negb sent then mret (Some false)
     else wrapper_msg ← on_service (world_call stream_Read); K wrapper_msg) r =
    K (Some (Some a)) (with_world w' r).
Proof.
  intros [(t & Et & Ht) Ha Hok Hb Hl Hwr Hin Hf] Hre.
  destruct (write_law (Some m) _ _ Hwr Hin) as (Hs & Et1 & Hf1 & E1). rewrite Hre in E1.
  injection E1 as Hwr1 Hin1.
  set (w1 := (stream_Write (Some m) (sv_world (r_service r))).2) in *.
  destruct (read_law w1 a [] Hin1) as (Hm & Et2 & Hf2 & Hwr2 & Hin2).
  set (w2 := (stream_Read w1).2) in *. exists w2. split.
  - split; cbn [with_world r_service sv_world r_op]; try done.
    + exists t. split; [congruence|done].
    + congruence.
    + intros f. by rewrite Hf2, Hf1.
  - intros K. rewrite stm_bind_eq. unfold on_service at 1, world_call at 1.
    fold w1. rewrite Hs. cbn [negb]. rewrite stm_bind_eq. unfold on_service, world_call.
    cbn [r_service sv_world sv_ctx r_op]. fold w2. rewrite Hm. done.
Qed.

(** ** The iterations of the loop *)

(** From the answer in the buffer to the next reply. *)
Lemma resume_tail w0 (r : run) c v st b b1 b2 (clear : list byte -> cres (list byte))
    (d : bool) (put : list byte -> cres (list byte)) :
  waiting w0 r c v st b ->
  clear b = Done b1 -> length b1 = 640%nat ->
  (if d then put b1 else Done b1) = Done b2 -> length b2 = 640%nat ->
  let y := contract_resume (L g_cur_val) (take 255 (cstr (drop 64 b2))) c v in
  exists r', (shared_write clear;; (if d then shared_write put else mret tt);;
      set_types resume_types;; res ← invoke_command COMMAND_RESUME_WASM;
      mret (if decide (res <> TEEC_SUCCESS) then Some false else None)) r = Done (None, r') /\
    at_reply w0 r' y.1 y.2 st.
Proof.
  intros Hwt E1 Hl1 E2 Hl2 y.
  pose proof (waiting_buffer _ _ _ _ _ _ _ Hwt Hl1) as Hwt1.
  pose proof (waiting_buffer _ _ _ _ _ _ _ Hwt1 Hl2) as Hwt2.
  pose proof (waiting_types _ _ _ _ _ _ resume_types Hwt2) as Hwt3.
  destruct (resume_replies _ _ _ _ _ _ Hwt3 eq_refl) as (r' & Er & Hr). exists r'. split; [|exact Hr].
  rewrite stm_bind_eq, (shared_write_eq _ _ _ _ (wt_buffer _ _ _ _ _ _ Hwt) E1).
  rewrite stm_bind_eq, (shared_write_if _ _ _ _ _ (wt_buffer _ _ _ _ _ _ Hwt1) E2).
  rewrite stm_bind_eq. cbn [set_types st_modify]. fold (with_types resume_types (with_buffer b2 (with_buffer b1 r))).
  rewrite stm_bind_eq, Er. by rewrite decide_False by (intros E; by apply E).
Qed.

Lemma clear_buffer b : length b = 640%nat -> buf_MemFill b 0 0 max_size = Done (replicate 640 x00).
Proof. intros Hl. rewrite buf_MemFill_all by (rewrite Hl; done). by rewrite Hl. Qed.

(** A GET: the wrapper's value reaches the chaincode. *)
Lemma step_get w0 (r : run) c v st st' k p n x :
  at_reply w0 r c v st -> hv_request v = Some (GetState k p n) ->
  react (Some (GetStateRequest (take 63 k))) st = (st', Send (GetStateResponse x)) ->
  let y := contract_resume (L g_cur_val) (seen x) c v in
  exists r', proxy_step r = Done (None, r') /\ at_reply w0 r' y.1 y.2 st'.
Proof.
  intros (b & Hwt & Ecode) Hreq Hre y. pose proof Hwt as [(t & _ & Ht) _ _ Hb _ _ _ _].
  assert (Hk : no_nul (take 63 k)) by (apply no_nul_take; by eapply view_get_string).
  destruct (exchange _ _ _ _ _ _ _ _ _ Hwt Hre) as (w' & Hwt' & EK).
  unfold proxy_step. rewrite stm_bind_eq. cbn [st_get]. rewrite Ecode. unfold view_code. rewrite Hreq.
  rewrite decide_False, decide_True by done. unfold forward_get. rewrite stm_bind_eq.
  rewrite (shared_read_eq _ _ _ (take 63 k) Hb).
  2: { unfold view_struct. rewrite Hreq, splice_0. apply (c_string_front _ _ 320); [done| |reflexivity].
       rewrite length_take. lia. }
  rewrite EK. cbv iota beta. cbn [get_state_value].
  destruct (resume_tail _ _ _ _ _ _ (replicate 640 x00) (answer_buffer x)
    (fun b => buf_MemFill b 0 0 max_size) (bool_decide (Z.of_nat (length x) < VAL_SIZE))
    (fun b => strncpy b kv_value_off x (VAL_SIZE - 1)) Hwt') as (r' & Er & Hr).
  - apply clear_buffer. apply Hwt.
  - apply length_replicate.
  - rewrite <- (answer_written x). by case_bool_decide; case_decide.
  - apply length_answer_buffer.
  - rewrite answer_seen in Hr. exists r'. split; [|exact Hr]. rewrite <- Er.
    by case_bool_decide; case_decide.
Qed.

(** A PUT: only that there is an acknowledgement matters. *)
Lemma step_put w0 (r : run) c v st st' k x ack :
  at_reply w0 r c v st -> hv_request v = Some (PutState k x) ->
  react (Some (PutStateRequest (take 63 k) (take 255 x))) st = (st', Send (PutStateResponse ack)) ->
  let y := contract_resume (L g_cur_val) [] c v in
  exists r', proxy_step r = Done (None, r') /\ at_reply w0 r' y.1 y.2 st'.
Proof.
  intros (b & Hwt & Ecode) Hreq Hre y. pose proof Hwt as [(t & _ & Ht) _ _ Hb _ _ _ _].
  destruct (view_put_string _ _ _ _ _ Ht Hreq) as [Hk Hx].
  destruct (exchange _ _ _ _ _ _ _ _ _ Hwt Hre) as (w' & Hwt' & EK).
  unfold proxy_step. rewrite stm_bind_eq. cbn [st_get]. rewrite Ecode. unfold view_code. rewrite Hreq.
  rewrite decide_False, decide_False, decide_True by done. unfold forward_put.
  unfold view_struct in Hb. rewrite Hreq, splice_0, <- app_assoc in Hb.
  rewrite stm_bind_eq, (shared_read_eq _ _ _ (take 63 k) Hb).
  2: { apply (c_string_front _ _ 64); [by apply no_nul_take| |reflexivity]. rewrite length_take. lia. }
  rewrite stm_bind_eq, (shared_read_eq _ _ _ (take 255 x) Hb).
  2: { apply (c_string_at _ _ _ _ 256); [|by apply no_nul_take| |reflexivity].
       - change (Z.to_nat kv_value_off) with 64%nat. apply length_pad. rewrite length_take. lia.
       - rewrite length_take. lia. }
  rewrite EK. cbv iota beta. cbn [put_state_acknowledgement].
  destruct (strncpy_front ack) as (b2 & E2 & Hl2).
  destruct (resume_tail _ _ _ _ _ _ (replicate 640 x00) b2
    (fun b => buf_MemFill b 0 0 max_size) (bool_decide (Z.of_nat (length ack) < ACK_SIZE))
    (fun b => strncpy b 0 ack (ACK_SIZE - 1)) Hwt') as (r' & Er & Hr).
  - apply clear_buffer. apply Hwt.
  - apply length_replicate.
  - rewrite <- E2. by case_bool_decide; case_decide.
  - done.
  - exists r'. split.
    + rewrite <- Er. by case_bool_decide; case_decide.
    + unfold y. unfold contract_resume, answered in *. by rewrite Hreq in *.
Qed.

(** The response: the wrapper returns it, and the loop is left. *)
Lemma step_response w0 (r : run) c v st :
  at_reply w0 r c v st -> hv_request v = None ->
  exists r', proxy_step r = Done (Some true, r') /\
    wrapper_of (sv_world (r_service r')) = (st, Some (Success (view_text v))) /\
    inbox (sv_world (r_service r')) = [] /\ same_files w0 (sv_world (r_service r')).
Proof.
  intros (b & Hwt & Ecode) Hreq. pose proof Hwt as [(t & _ & Ht) _ _ Hb _ Hwr Hin Hf].
  destruct (view_text_string _ _ _ Ht) as [Hx Hlx].
  unfold proxy_step. rewrite stm_bind_eq. cbn [st_get]. rewrite Ecode. unfold view_code. rewrite Hreq.
  rewrite decide_True by done. unfold view_struct in Hb. rewrite Hreq, splice_0 in Hb.
  rewrite stm_bind_eq, (shared_read_eq _ _ _ (view_text v) Hb).
  2: { apply (c_string_front _ _ 256); [done| |reflexivity]. lia. }
  destruct (write_law (Some (InvocationResponse (view_text v))) _ _ Hwr Hin) as (Hs & _ & Hf1 & E1).
  injection E1 as Hwr1 Hin1. rewrite stm_bind_eq. unfold on_service at 1, world_call at 1.
  rewrite Hs. eexists. split; [reflexivity|]. split_and!; [done|done|].
  intros g. cbn. by rewrite Hf1.
Qed.

(** ** The session *)

(** The service can take an invocation: its session is open, on an instance of
    the trusted application that nobody has used. *)
Definition serving (s : service) : Prop :=
  Z.of_nat (length (default [] (output_buffer (sv_ctx s)))) = output_buffer_size (sv_ctx s) /\
  exists t, tee_of (sv_world s) = Some t /\ g_chaincode_sess t = Some session_zero.

Lemma same_peer_trans w1 w2 w3 : same_peer w1 w2 -> same_peer w2 w3 -> same_peer w1 w3.
Proof.
  intros (? & ? & F) (? & ? & F'). split_and!; [congruence..|]. intros f. by rewrite F', F.
Qed.

Lemma open_fresh e : exists e',
  TA_OpenSessionEntryPoint 0 (ta_start e) =
    Done ((TEE_SUCCESS, true), Ta 0 (Some session_zero) wamr_context_zero false e').
Proof.
  unfold TA_OpenSessionEntryPoint. cbv zeta. rewrite decide_False by (intros E; by apply E).
  rewrite stm_bind_eq. cbn [st_gets ta_start g_chaincode_sess]. rewrite stm_bind_eq.
  unfold env_call. rewrite coffee_malloc. by eexists.
Qed.

Lemma initialize_serving s : exists s',
  initialize_session s = Done (true, s') /\ serving s' /\ same_peer (sv_world s) (sv_world s').
Proof.
  unfold initialize_session, allocate_buffers, prepare_tee_session, configure_heap_size.
  rewrite stm_bind_eq, stm_bind_eq. unfold world_call at 1. cbv zeta.
  destruct (malloc_law (5 * 1024) (sv_world s) ltac:(lia)) as ((out & E1 & Hl1) & _ & P1).
  set (w1 := (malloc (5 * 1024) (sv_world s)).2) in *. rewrite E1.
  rewrite stm_bind_eq. unfold world_call at 1. cbn [sv_world sv_ctx].
  destruct (malloc_law (5 * 1024) w1 ltac:(lia)) as (_ & _ & P2).
  set (w2 := (malloc (5 * 1024) w1).2) in *. cbn [set_ctx st_modify sv_world].
  rewrite stm_bind_eq, stm_bind_eq. unfold world_call at 1. cbn [sv_world sv_ctx].
  destruct (context_law w2) as [E3 P3]. set (w3 := (TEEC_InitializeContext w2).2) in *.
  rewrite E3, decide_False by (intros E; by apply E).
  rewrite stm_bind_eq. unfold world_call at 1. cbn [sv_world sv_ctx].
  destruct (open_law w3) as (e & r & b & t & Eo & E4 & Et & P4).
  destruct (open_fresh e) as [e' Eo']. rewrite Eo' in Eo. injection Eo as <- <- <-.
  specialize (Et eq_refl). set (w4 := (TEEC_OpenSession w3).2) in *.
  rewrite E4, decide_False by (intros E; by apply E). cbn [mret stm_ret negb].
  rewrite stm_bind_eq, stm_bind_eq. unfold world_call at 1. cbn [sv_world sv_ctx].
  set (op := Operation _ _ _ _ _).
  destruct (invoke_law COMMAND_CONFIGURE_HEAP op w4
    (Ta 0 (Some session_zero) wamr_context_zero false e') TEE_SUCCESS
    (Ta 10485760 (Some session_zero) wamr_context_zero false e') (to_params op)) as (w5 & -> & Et5 & P5).
  { by split_and!. }
  { exact Et. }
  { reflexivity. }
  eexists. split; [reflexivity|]. split.
  - split; [exact Hl1|]. by eexists.
  - cbn [sv_world snd]. by repeat (eapply same_peer_trans; [eassumption|]).
Qed.

Lemma restart_serving s : exists s',
  restart_session s = Done (true, s') /\ serving s' /\ same_peer (sv_world s) (sv_world s').
Proof.
  unfold restart_session, cleanup_session, terminate_tee_session.
  rewrite !stm_bind_eq. cbn [world_do st_modify free_buffers set_ctx sv_world sv_ctx].
  set (s1 := Service _ _). destruct (initialize_serving s1) as (s' & -> & Hs & P).
  exists s'. split; [done|]. split; [done|].
  eapply same_peer_trans; [apply close_law|]. eapply same_peer_trans; [apply finalize_law|exact P].
Qed.

(** ** RUN *)

(** The view of a RUN on the marshalled arguments, in a fresh session. *)
Definition fresh_view (function : list byte) (args : list (list byte)) : hview :=
  HView ((fun x => take 63 (cstr x)) <$> ten function args) None None.

Lemma run_view_fresh p f args :
  p_memref (p2 p) = marshalled f args -> run_view session_zero p = fresh_view f args.
Proof.
  intros Hp. pose proof (run_view_args session_zero p f args Hp) as E.
  unfold run_view, session_view, fresh_view in *. cbn [hv_args] in E. by rewrite E.
Qed.

Lemma fresh_arg f args i :
  (i < 9)%nat -> hv_arg (fresh_view f args) (S i) = arg_string args i.
Proof.
  intros Hi. unfold hv_arg, fresh_view, arg_string. cbn [hv_args].
  by rewrite list_lookup_fmap, ten_lookup by lia.
Qed.

Lemma run_replies w0 s st f args :
  serving s -> wrapper_of (sv_world s) = (st, None) -> inbox (sv_world s) = [] ->
  same_files w0 (sv_world s) ->
  let x := contract_step (L g_cur_val) contract_init (fresh_view f args) in
  exists r', invoke_command COMMAND_RUN_WASM
      (Run s (run_operation (Some code) (marshalled f args) (sv_ctx s))) = Done (TEEC_SUCCESS, r') /\
    at_reply w0 r' x.1 x.2 st.
Proof.
  intros [Hout (t & Et & Es)] Hwr Hin Hf x.
  set (op := run_operation (Some code) (marshalled f args) (sv_ctx s)).
  assert (Hv : run_view session_zero (to_params op) = fresh_view f args) by (by apply run_view_fresh).
  destruct (command_run_coffee L code coffee t (to_params op) session_zero Es session_zero_wf eq_refl)
    as (t' & E & Ht' & _).
  { unfold memref_size. change (p_memref (p2 (to_params op))) with (marshalled f args).
    rewrite length_marshalled. lia. }
  rewrite Hv in E, Ht'. fold x in E, Ht'.
  apply (command_replies w0 (Run s op) COMMAND_RUN_WASM t t' x.1 x.2 st (marshalled f args)
    (with_value_a 0 (to_params op))); try done.
  - split_and!; try done. change (Z.of_nat (length (marshalled f args)) = max_size).
    by rewrite length_marshalled.
  - apply length_marshalled.
  - by right.
  - by apply contract_step_asked.
Qed.
End system.

(** ** A transaction *)

Section ledger.
  Context `{SystemEnv} `{!SystemLaws} `{!LedgerEnv} `{!LedgerLaws} `{!WamrInstLaws}
    (L : layout) (code : list byte) (coffee : inst -> Prop) `{!CoffeeLaws L code coffee}.
  Implicit Types (c : contract) (v : hview) (w : world) (st : stub).

Abbreviation at_reply := (at_reply L coffee).

(** The loop ends with the response [res.2] given to the wrapper, after the
    write [res.1]. *)
Definition finishes w0 fuel (r : run) st (res : option (list byte * list byte) * list byte) : Prop :=
  exists r' st', proxy_loop fuel r = Done (true, r') /\
    wrapper_of (sv_world (r_service r')) = (st', Some (Success res.2)) /\
    inbox (sv_world (r_service r')) = [] /\ same_files w0 (sv_world (r_service r')) /\
    committed st' = committed st /\ written st' = apply_write res.1 (written st).

Lemma finishes_response w0 fuel r c v st text :
  at_reply w0 r c v st -> hv_request v = None -> view_text v = text ->
  finishes w0 (S fuel) r st (None, text).
Proof.
  intros Hr Hreq <-. destruct (step_response L coffee _ _ _ _ _ Hr Hreq) as (r' & E & Hwr & Hin & Hf).
  exists r', st. split; [|done]. cbn [proxy_loop]. by rewrite stm_bind_eq, E.
Qed.

Lemma finishes_get w0 fuel r c v st k p n res :
  at_reply w0 r c v st -> hv_request v = Some (GetState k p n) -> k <> [] -> take 63 k = k ->
  (forall r' c' v', contract_resume (L g_cur_val) (ledger_value (committed st) k) c v = (c', v') ->
     at_reply w0 r' c' v' st -> finishes w0 fuel r' st res) ->
  finishes w0 (S fuel) r st res.
Proof.
  intros Hr Hreq Hk Ht Hnext.
  destruct (step_get L code coffee _ _ _ _ _ st _ _ _ (default [] (committed st !! k)) Hr Hreq)
    as (r' & E & Hr').
  { rewrite Ht. cbn [react]. by rewrite get_law. }
  destruct (Hnext r' _ _ (surjective_pairing _) Hr') as (r1 & st1 & El & Hrest).
  exists r1, st1. split; [|exact Hrest]. cbn [proxy_loop]. rewrite stm_bind_eq, E. exact El.
Qed.

Lemma finishes_put w0 fuel r c v st k x text :
  at_reply w0 r c v st -> hv_request v = Some (PutState k x) -> k <> [] ->
  take 63 k = k -> take 255 x = x ->
  (forall r' st' c' v', contract_resume (L g_cur_val) [] c v = (c', v') ->
     at_reply w0 r' c' v' st' -> finishes w0 fuel r' st' (None, text)) ->
  finishes w0 (S fuel) r st (Some (k, x), text).
Proof.
  intros Hr Hreq Hk Ht Hx Hnext. destruct (put_law k x st Hk) as (st' & Ep & Ec & Ew).
  destruct (step_put L code coffee _ _ _ _ _ st' _ _ (bytes "OK") Hr Hreq) as (r' & E & Hr').
  { rewrite Ht, Hx. cbn [react]. by rewrite Ep. }
  destruct (Hnext r' st' _ _ (surjective_pairing _) Hr')
    as (r1 & st1 & El & Hwr & Hin & Hf & Hc1 & Hw1).
  exists r1, st1. split; [|split_and!; [done..|congruence|]].
  - cbn [proxy_loop]. rewrite stm_bind_eq, E. exact El.
  - rewrite Hw1. cbn [apply_write fst]. exact Ew.
Qed.

Lemma take_arg_string args i : take 63 (arg_string args i) = arg_string args i.
Proof. unfold arg_string. by rewrite take_take. Qed.

Lemma take_arg_string_255 args i : take 255 (arg_string args i) = arg_string args i.
Proof. unfold arg_string. by rewrite take_take. Qed.

Lemma take_ledger_value ledger k : take 255 (ledger_value ledger k) = ledger_value ledger k.
Proof. apply take_ge, length_seen. Qed.

(** Resuming the contract, by phase. *)
Ltac resume_contract :=
  unfold contract_resume, answered, contract_step, with_cur_val, at_phase, settle;
  cbn [hv_request hv_ask c_phase c_cur_val c_function c_person c_arg1].

Section operations.
  Context (w0 : world) (fuel : nat) (r : run) (st : stub) (f k a : list byte) (v : hview).
  Context (Hk : k <> []) (Hk63 : take 63 k = k).
Let value := ledger_value (committed st) k.
Let after_get p arg1 := at_reply w0 r (Contract p f k arg1 []) (hv_ask (GetState k (L g_cur_val) 256) v) st.

Lemma loop_create :
  take 255 a = a -> after_get CreateAfterGet a ->
  finishes w0 (S (S (S fuel))) r st
    (if decide (value = []) then (Some (k, a), bytes "OK") else (None, bytes "EXIST")).
Proof.
  intros Ha Hr. eapply finishes_get; [exact Hr|done|done|done|].
  intros r1 c1 v1 E Hr1. revert E. resume_contract. fold value. case_decide; intros [= <- <-].
  - eapply finishes_put; [exact Hr1|done|done|done|done|].
    intros r2 st2 c2 v2. resume_contract. intros [= <- <-] Hr2.
    by eapply finishes_response.
  - by eapply finishes_response.
Qed.

Lemma loop_add :
  after_get AddAfterGet a ->
  finishes w0 (S (S (S fuel))) r st
    (if decide (value = []) then (None, bytes "EMPTY")
     else (Some (k, add_result value a), bytes "OK")).
Proof.
  intros Hr. eapply finishes_get; [exact Hr|done|done|done|].
  intros r1 c1 v1 E Hr1. revert E. resume_contract. fold value. case_decide; intros [= <- <-].
  - by eapply finishes_response.
  - eapply finishes_put; [exact Hr1|done|done|done| |].
    { apply take_ge. apply add_result_fits. }
    intros r2 st2 c2 v2. resume_contract. intros [= <- <-] Hr2.
    by eapply finishes_response.
Qed.

Lemma loop_query arg1 :
  after_get QueryAfterGet arg1 ->
  finishes w0 (S (S (S fuel))) r st
    (None, if decide (value = []) then bytes "NOTFOUND" else value).
Proof.
  intros Hr. eapply finishes_get; [exact Hr|done|done|done|].
  intros r1 c1 v1 E Hr1. revert E. resume_contract. fold value. intros [= <- <-].
  eapply finishes_response; [exact Hr1|done|]. unfold view_text. cbn [hv_response hv_respond].
  destruct (decide (value = [])) as [E|E]; [done|]. rewrite decide_False by done.
  apply take_ledger_value.
Qed.
End operations.

(** The loop after RUN is the transaction. *)
Lemma loop_transaction w0 fuel r st f args :
  arg_string args 0 <> [] -> (3 <= fuel)%nat ->
  (let x := contract_step (L g_cur_val) contract_init (fresh_view f args) in
   at_reply w0 r x.1 x.2 st) ->
  finishes w0 fuel r st (coffee_transaction (committed st) f args).
Proof.
  intros Hne Hfuel. destruct fuel as [|[|[|fuel]]]; [lia..|]. clear Hfuel.
  unfold contract_step. cbn [c_phase contract_init c_function]. rewrite decide_True by done.
  replace (take 63 (hv_arg (fresh_view f args) 0)) with (take 63 (cstr f))
    by (unfold hv_arg, fresh_view; cbn; by rewrite take_take).
  unfold contract_dispatch, coffee_transaction, arg_key, arg_val.
  rewrite !fresh_arg, !take_arg_string by lia.
  rewrite (decide_False (P := arg_string args 0 = [])) by done.
  pose proof (take_arg_string args 0) as Hk. pose proof (take_arg_string_255 args 1) as Ha.
  destruct (decide (take 63 (cstr f) = bytes "create")); [intros Hr; by eapply loop_create|].
  destruct (decide (take 63 (cstr f) = bytes "add")); [intros Hr; by eapply loop_add|].
  destruct (decide (take 63 (cstr f) = bytes "query")); [intros Hr; by eapply loop_query|].
  intros Hr. by eapply finishes_response.
Qed.

(** The whole of [execute_wasm_with_grpc_proxy]. *)
Lemma execute_transaction s st aot f args fuel :
  serving s -> wrapper_of (sv_world s) = (st, None) -> inbox (sv_world s) = [] ->
  file_contents (bytes "./chaincode/" ++ aot) (sv_world s) = Some code ->
  arg_string args 0 <> [] -> (3 <= fuel)%nat ->
  let res := coffee_transaction (committed st) f args in
  exists s' st', execute_wasm_with_grpc_proxy fuel aot f args s = Done (true, s') /\
    wrapper_of (sv_world s') = (st', Some (Success res.2)) /\ inbox (sv_world s') = [] /\
    same_files (sv_world s) (sv_world s') /\
    committed st' = committed st /\ written st' = apply_write res.1 (written st).
Proof.
  intros Hs Hwr Hin Hfile Hk Hfuel res. unfold execute_wasm_with_grpc_proxy.
  rewrite stm_bind_eq. cbn [st_get]. rewrite Hfile, stm_bind_eq. unfold world_call at 1. cbv zeta.
  destruct (malloc_law (Z.of_nat (length code)) (sv_world s) ltac:(lia))
    as ((b & -> & _) & Et1 & Hwr1 & Hin1 & Hf1).
  set (w1 := (malloc _ (sv_world s)).2) in *. rewrite decide_False by (by intros [? _]).
  cbn [fmap option_fmap option_map]. rewrite stm_bind_eq. unfold world_call at 1.
  cbn [sv_world sv_ctx]. destruct (calloc_law max_size w1) as (-> & Et2 & Hwr2 & Hin2 & Hf2).
  set (w2 := (calloc max_size w1).2) in *. cbn [negb]. rewrite stm_bind_eq. unfold st_lift.
  change (Z.to_nat max_size) with 640%nat. rewrite marshal_ok. cbn [fmap cres_fmap].
  rewrite stm_bind_eq. cbn [st_get sv_ctx]. set (s2 := Service (sv_ctx s) w2).
  destruct (run_replies L code coffee (sv_world s) s2 st f args) as (r & E & Hr).
  { destruct Hs as [Hb (t & Et & Es)]. split; [exact Hb|]. exists t. split; [|done]. cbn. congruence. }
  { cbn. congruence. }
  { cbn. congruence. }
  { intros g. cbn. by rewrite Hf2, Hf1. }
  destruct (loop_transaction (sv_world s) fuel r st f args Hk Hfuel Hr) as (r' & st' & El & Hrest).
  exists (r_service r'), st'. split; [|exact Hrest].
  unfold with_operation. rewrite stm_bind_eq. cbn [sv_ctx s2] in E. rewrite E.
  rewrite decide_False by (intros Eq; by apply Eq). by rewrite El.
Qed.

(** The whole of [TransactionInvocation]. *)
Lemma invocation_transaction (s : service) (st : stub) uuid aot f args fuel :
  serving s -> wrapper_of (sv_world s) = (st, None) ->
  inbox (sv_world s) = [InvocationRequest uuid f args aot] ->
  file_contents (bytes "./chaincode/" ++ aot) (sv_world s) = Some code ->
  arg_string args 0 <> [] -> (3 <= fuel)%nat ->
  let res := coffee_transaction (committed st) f args in
  exists s' st', TransactionInvocation fuel s = Done (OK, s') /\ serving s' /\
    wrapper_of (sv_world s') = (st', Some (Success res.2)) /\
    committed st' = committed st /\ written st' = apply_write res.1 (written st) /\
    file_contents (bytes "./chaincode/" ++ aot) (sv_world s') = Some code.
Proof.
  intros [Hb (t & Et & Es)] Hwr Hin Hfile Hk Hfuel res. unfold TransactionInvocation.
  rewrite stm_bind_eq. unfold world_call at 1. cbv zeta.
  destruct (read_law _ _ _ Hin) as (-> & Et1 & Hf1 & Hwr1 & Hin1).
  set (w1 := (stream_Read (sv_world s)).2) in *. set (s1 := Service (sv_ctx s) w1).
  destruct (execute_transaction s1 st aot f args fuel)
    as (s2 & st' & E & Hwr2 & _ & Hf2 & Hc & Hw); try done; cbn [sv_world s1 sv_ctx].
  { split; [exact Hb|]. exists t. split; [exact (eq_trans Et1 Et)|done]. }
  { congruence. }
  { by rewrite Hf1. }
  cbn [request_aot_file request_function_name request_arguments].
  rewrite stm_bind_eq, E, stm_bind_eq.
  destruct (restart_serving L code coffee s2) as (s3 & -> & Hs3 & Hwr3 & _ & Hf3).
  exists s3, st'. split; [done|]. split; [done|]. split; [by rewrite Hwr3|]. split; [done|].
  split; [done|]. by rewrite Hf3, Hf2, Hf1.
Qed.
End ledger.
