(* ===== verification/ProxySafety.v ===== *)
(** * The proxy against every module and every wrapper

    Safety of [execute_wasm_with_grpc_proxy] when nothing is known of the
    module that the trusted application runs but that its native calls are safe
    ([guests_safe]; TaLogic.v says where a command faults otherwise), nor of
    what the wrapper sends or whether the allocator succeeds: [ClientLaws] asks
    of the C library and of gRPC only that they leave the trusted application
    alone, and of the client API that a command runs its entry point.  The
    invariant [safe_at] is that the shared buffer keeps its size and holds a
    reply whose strings are terminated. *)
From Stdlib Require Import ZArith Lia Strings.Byte Strings.String.
From stdpp Require Import base tactics option list list_numbers gmap strings.
From S2P Require Import Prelude Mem Abi Session Natives Sandbox ChaincodeSpec WamrTa Ta.
From S2P Require Import TaLogic CoffeeTa Proxy ProxyLogic Wrapper System SystemLogic.

Class ClientLaws `{SystemEnv} : Prop := {
  client_malloc n w : tee_of (malloc n w).2 = tee_of w;
  client_calloc n w : tee_of (calloc n w).2 = tee_of w;
  client_write m w : tee_of (stream_Write m w).2 = tee_of w;
  client_read w : tee_of (stream_Read w).2 = tee_of w;
  client_done cmd_id op w t r t' p' :
    operation_ok op -> tee_of w = Some t ->
    TA_InvokeCommandEntryPoint cmd_id (paramTypes op) (Cmd t (to_params op)) =
      Done (r, Cmd t' p') ->
    exists w', TEEC_InvokeCommand cmd_id op w = ((r, back_params op p'), w') /\
      tee_of w' = Some t';
}.

(** ** Replies *)

(** The strings that the proxy reads after the code [a] are terminated. *)
Definition reply_ok (a : Z) (b : list byte) : Prop :=
  length b = 640%nat /\ x00 ∈ b /\ (a = PUT_STATE_REQUEST -> x00 ∈ drop 64 b).

Lemma nul_splice_front struct b : x00 ∈ struct -> x00 ∈ splice 0 struct b.
Proof. intros. rewrite splice_0. apply elem_of_app. by left. Qed.

Lemma reported_reply `{TaEnv} t p p' b :
  p_memref (p2 p) = b -> length b = 640%nat -> reported t p p' ->
  reply_ok (p_value_a (p1 p')) (p_memref (p2 p')).
Proof.
  intros Hb Hl [->|(s & _ & ->)]; cbn [reply_params with_p2 with_value_a p1 p2 p_value_a p_memref]; rewrite Hb.
  - split; [|split; [|done]].
    + rewrite length_splice; [done|]. rewrite length_pad by (by apply Nat.leb_le). lia.
    + apply nul_splice_front, in_pad. by apply Nat.ltb_lt.
  - assert (Hk : (length (take 63 (cstr (sc_key s))) < 64)%nat) by (rewrite length_take; lia).
    assert (Hv : (length (take 255 (cstr (sc_value s))) < 256)%nat) by (rewrite length_take; lia).
    unfold reply_code, reply_struct.
    destruct (decide (sc_pending_type s = GET_STATE_REQUEST)).
    { split; [|split; [|done]]; [rewrite length_splice; [done|]; rewrite length_pad; lia|].
      apply nul_splice_front, in_pad. lia. }
    destruct (decide (sc_pending_type s = PUT_STATE_REQUEST)).
    { split; [|split; [|intros _]].
      - rewrite length_splice; [done|]. rewrite length_app, !length_pad; lia.
      - apply nul_splice_front, elem_of_app. left. apply in_pad. lia.
      - rewrite splice_0, <- app_assoc, drop_app_length' by (rewrite length_pad; lia).
        apply elem_of_app. left. apply in_pad. lia. }
    assert (Hr : (length (response_text s) < 256)%nat).
    { unfold response_text. repeat case_decide; [simpl; lia..|]. rewrite length_take. lia. }
    split; [|split; [|done]]; [rewrite length_splice; [done|]; rewrite length_pad; lia|].
    apply nul_splice_front, in_pad. lia.
Qed.

(** No call of a guest faults: under [TaLaws], the functions of the modules
    make no native call outside of what Natives.v shows to be safe. *)
Definition guests_safe `{TaEnv} : Prop :=
  forall fn h f, host_ok h -> wasm_runtime_call_wasm fn h <> Fault f.

Section safety.
  Context `{SystemEnv} `{!ClientLaws} `{!WamrInstLaws} `{!TaLaws} (Hguest : guests_safe).
  Implicit Types (t : ta) (w : world).

Lemma no_guest_fault name t f : ready t -> ~ guest_fault name t f.
Proof.
  intros (s & i & Es & Hw & _) (i' & fn & h & _ & _ & E & _).
  refine (Hguest fn _ f _ E). exists s, (armed i'). split; [|done].
  unfold step_host. by rewrite Es.
Qed.

Lemma no_run_fault t f : ready t -> ~ run_fault t f.
Proof.
  intros Ht [Hf|(t1 & E & Hf)]; [by eapply no_guest_fault|].
  pose proof (call_step_post "step_init" t Ht) as Hp. unfold st_post in Hp. rewrite E in Hp.
  eapply no_guest_fault, Hf. apply Hp.
Qed.

Lemma no_resume_fault t p f : ready t -> ~ resume_fault t p f.
Proof.
  intros (s & i & Es & Hw & Ei) (s' & i1 & i' & Es' & _ & _ & Hf).
  assert (s' = s) as -> by congruence.
  eapply no_guest_fault, Hf. by apply (settled_evolves t s i i').
Qed.

(** ** The invariant *)

(** The application is running and the buffer [b] is ready for a command. *)
Record idle_at (r : run) (b : list byte) : Prop := {
  ia_ta : exists t, tee_of (sv_world (r_service r)) = Some t /\ running t;
  ia_ok : operation_ok (r_op r);
  ia_buffer : tp_buffer (op2 (r_op r)) = Some b;
  ia_length : length b = 640%nat;
}.

Definition safe_at (r : run) : Prop :=
  exists b, idle_at r b /\ reply_ok (tp_value_a (op1 (r_op r))) b.

(** The outcome is not a fault; [Q] holds of the result. *)
Definition safely {A} (m : stm run A) (r : run) (Q : A -> run -> Prop) : Prop :=
  st_post m r (fun _ => False) Q.

Lemma to_params_p2 op b : tp_buffer (op2 op) = Some b -> p_memref (p2 (to_params op)) = b.
Proof. intros Hb. cbn [to_params to_param p2 p_memref]. by rewrite Hb. Qed.

(** ** Commands *)

Lemma invoke_safely (r : run) cmd_id t b :
  tee_of (sv_world (r_service r)) = Some t -> operation_ok (r_op r) ->
  tp_buffer (op2 (r_op r)) = Some b -> length b = 640%nat ->
  st_post (TA_InvokeCommandEntryPoint cmd_id (paramTypes (r_op r)))
    (Cmd t (to_params (r_op r))) (fun _ => False)
    (fun res x => res = TEE_SUCCESS -> running (c_ta x) /\
       exists p, reported (c_ta x) p (c_params x) /\
         (p = to_params (r_op r) \/ p = with_value_a 0 (to_params (r_op r)))) ->
  safely (invoke_command cmd_id) r (fun res r' => res = TEEC_SUCCESS -> safe_at r').
Proof.
  intros Et Hok Hb Hl Hta. unfold safely, st_post, invoke_command in *.
  destruct (TA_InvokeCommandEntryPoint cmd_id (paramTypes (r_op r)) (Cmd t (to_params (r_op r))))
    as [[res [t' p']]|f] eqn:E.
  2: done.
  destruct (client_done _ _ _ _ _ _ _ Hok Et E) as (w' & -> & Et'). cbn [fst snd].
  intros ->. destruct (Hta eq_refl) as (Hrun & p & Hrep & Hp). cbn [c_ta c_params] in *.
  assert (Hm : p_memref (p2 p) = b) by (by destruct Hp as [-> | ->]; apply to_params_p2).
  destruct (reported_reply _ _ _ _ Hm Hl Hrep) as (Hl' & Hnul & Hput).
  assert (Hsame : p0 p' = p0 p /\ p_memref (p1 p') = p_memref (p1 p) /\ p3 p' = p3 p)
    by (by destruct Hrep as [->|(s & _ & ->)]).
  destruct Hsame as (E0 & E1 & E3). exists (p_memref (p2 p')). split; [split|].
  - by exists t'.
  - apply back_params_ok; [done|by intros b' Hb'; rewrite Hl'; congruence| | |];
      destruct Hp as [-> | ->]; congruence || by rewrite ?E0, ?E1, ?E3.
  - cbn [r_op back_params back_param op2 tp_buffer]. by rewrite Hb.
  - done.
  - by split_and!.
Qed.

Lemma resume_safely (r : run) b :
  idle_at r b -> x00 ∈ drop 64 b -> paramTypes (r_op r) = resume_types ->
  safely (invoke_command COMMAND_RESUME_WASM) r (fun res r' => res = TEEC_SUCCESS -> safe_at r').
Proof.
  intros [(t & Et & Hrun) Hok Hb Hl] Hnul Hty. eapply invoke_safely; [done|done|done|done|].
  rewrite Hty. pose proof Hrun as [(s & i & Es & _) _].
  pose proof (to_params_p2 _ _ Hb) as Hm.
  pose proof (command_resume_post t (to_params (r_op r)) s Hrun Es) as Hp. rewrite Hm in Hp.
  unfold memref_size in Hp. rewrite Hm in Hp. specialize (Hp ltac:(lia) (fun _ => or_intror Hnul)).
  unfold st_post in *. change (TA_InvokeCommandEntryPoint _ _) with command_resume.
  destruct (command_resume _) as [[res x]|f]; [|by eapply no_resume_fault, Hp; destruct Hrun].
  intros _. destruct Hp as (_ & Hev & Hrep). split; [by eapply running_evolves|].
  eexists. split; [exact Hrep|]. by left.
Qed.

Lemma run_safely (r : run) t b :
  tee_of (sv_world (r_service r)) = Some t -> (forall s, g_chaincode_sess t = Some s -> session_wf s) ->
  operation_ok (r_op r) -> tp_buffer (op2 (r_op r)) = Some b -> length b = 640%nat ->
  paramTypes (r_op r) = run_types ->
  safely (invoke_command COMMAND_RUN_WASM) r (fun res r' => res = TEEC_SUCCESS -> safe_at r').
Proof.
  intros Et Hw Hok Hb Hl Hty. eapply invoke_safely; [done|done|done|done|].
  rewrite Hty. pose proof (to_params_p2 _ _ Hb) as Hm. unfold st_post.
  change (TA_InvokeCommandEntryPoint _ _) with command_run.
  destruct (g_chaincode_sess t) as [s|] eqn:Es.
  2: { unfold command_run. rewrite stm_bind_eq. unfold on_ta, st_gets at 1.
       cbn [c_ta]. by rewrite Es. }
  pose proof (command_run_post t (to_params (r_op r)) s Es (Hw s eq_refl)) as Hp.
  unfold memref_size in Hp. rewrite Hm in Hp. specialize (Hp ltac:(lia)).
  pose proof (run_prepare_post t (to_params (r_op r)) s Es (Hw s eq_refl)) as Hprep.
  unfold st_post in Hp, Hprep. destruct (command_run _) as [[res x]|f].
  2: { destruct Hp as (c & Ec & Hf). rewrite Ec in Hprep.
       destruct Hprep as (_ & _ & _ & [(_ & [Hc _])|[Hc|Hc]]); [by eapply no_run_fault|done..]. }
  intros ->. destruct Hp as (Hout & _). destruct Hout as [[[?|?] _]|[[? _]|(_ & Hrun & Hrep)]]; [done..|].
  split; [done|]. eexists. split; [exact Hrep|]. by right.
Qed.

(** ** The loop *)

Lemma world_safely {A} (g : world -> A * world) (r : run) b :
  (forall w, tee_of (g w).2 = tee_of w) -> idle_at r b ->
  safely (on_service (world_call g)) r (fun _ r' => idle_at r' b).
Proof.
  intros Hg [(t & Et & Hrun) Hok Hb Hl]. unfold safely, st_post, on_service, world_call.
  cbn [r_service sv_world sv_ctx]. split; cbn [r_service sv_world r_op]; [|done..].
  exists t. by rewrite Hg.
Qed.

Lemma idle_buffer (r : run) b b' :
  idle_at r b -> length b' = 640%nat -> idle_at (with_buffer b' r) b'.
Proof.
  intros [Ht (O0 & O1 & O2 & O3) Hb Hl] Hl'. split; try done.
  split_and!; try done. unfold tparam_ok in *. rewrite Hb in O2. cbn in *. congruence.
Qed.

(** Clearing the buffer, writing the answer of a message and resuming. *)
Lemma answer_safely (r : run) b b2 (d : bool) (put : list byte -> cres (list byte)) :
  idle_at r b -> (if d then put (replicate 640 x00) else Done (replicate 640 x00)) = Done b2 ->
  length b2 = 640%nat -> x00 ∈ drop 64 b2 ->
  safely (shared_write (fun b => buf_MemFill b 0 0 max_size);;
      (if d then shared_write put else mret tt);;
      set_types resume_types;; res ← invoke_command COMMAND_RESUME_WASM;
      mret (if decide (res <> TEEC_SUCCESS) then Some false else None)) r
    (fun left r' => left = None -> safe_at r').
Proof.
  intros Hi E2 Hl2 Hnul. unfold safely.
  pose proof (idle_buffer _ _ (replicate 640 x00) Hi (length_replicate _ _)) as Hi1.
  pose proof (idle_buffer _ _ _ Hi1 Hl2) as Hi2.
  apply st_post_bind. eapply st_post_eq.
  { eapply shared_write_eq; [apply Hi|]. apply clear_buffer, Hi. }
  apply st_post_bind. eapply st_post_eq; [eapply shared_write_if; [apply Hi1|exact E2]|].
  apply st_post_bind. eapply st_post_eq; [reflexivity|].
  apply st_post_bind. eapply st_post_mono.
  { apply (resume_safely _ b2); [|done|done]. by destruct Hi2. }
  intros res r' Hr. apply st_post_ret. case_decide; [done|]. intros _. apply Hr. lia.
Qed.

Lemma answer_nul v : x00 ∈ drop 64 (answer_buffer v).
Proof.
  unfold answer_buffer. pose proof (length_seen v) as Hl.
  change 640%nat with (64 + (255 + 321))%nat. rewrite !replicate_add.
  rewrite (splice_app 64 _ (replicate 64 x00) (replicate 255 x00))
    by (rewrite ?length_replicate, ?length_pad; lia).
  rewrite drop_app_length' by (by rewrite length_replicate).
  apply elem_of_app. right. by apply elem_of_replicate.
Qed.

Lemma ack_nul ack b :
  (if decide (Z.of_nat (length ack) < ACK_SIZE)
   then strncpy (replicate 640 x00) 0 ack (ACK_SIZE - 1) else Done (replicate 640 x00)) = Done b ->
  x00 ∈ drop 64 b.
Proof.
  unfold strncpy, ACK_SIZE. change (Z.to_nat (20 - 1)) with 19%nat.
  assert (Hl : length (pad 19 (take 19 (cstr ack))) = 19%nat) by (apply length_pad; rewrite length_take; lia).
  case_decide.
  - rewrite buf_write_ok by (rewrite ?Hl, ?length_replicate; lia). intros <-%(inj Done).
    change (Z.to_nat 0) with 0%nat. rewrite splice_0, Hl, drop_replicate.
    rewrite drop_app_ge, Hl, drop_replicate by (rewrite Hl; lia). by apply elem_of_replicate.
  - intros <-%(inj Done). rewrite drop_replicate. by apply elem_of_replicate.
Qed.

(** A request and its answer, whatever it is. *)
Lemma exchange_safely (r : run) b m (K : option ChaincodeWrapperMessage -> stm run (option bool)) Q :
  idle_at r b ->
  (forall msg r', idle_at r' b -> safely (K msg) r' Q) -> (forall r', Q (Some false) r') ->
  safely (sent ← on_service (world_call (stream_Write m));
     if negb sent then mret (Some false)
     else wrapper_msg ← on_service (world_call stream_Read); K wrapper_msg) r Q.
Proof.
  intros Hi HK Hleft. unfold safely. apply st_post_bind. eapply st_post_mono.
  { apply world_safely; [apply client_write|exact Hi]. }
  intros sent r1 Hi1. destruct (negb sent); [by apply st_post_ret|].
  apply st_post_bind. eapply st_post_mono; [apply world_safely; [apply client_read|exact Hi1]|].
  intros msg r2 Hi2. by apply HK.
Qed.

Lemma read_safely (r : run) b off :
  idle_at r b -> x00 ∈ drop (Z.to_nat off) b ->
  shared_read (fun b => c_string b off) r = Done (cstr (drop (Z.to_nat off) b), r).
Proof.
  intros Hi Hnul. eapply shared_read_eq; [apply Hi|]. unfold c_string. by rewrite decide_True.
Qed.

Lemma forward_get_safely (r : run) b :
  idle_at r b -> x00 ∈ b -> safely forward_get r (fun left r' => left = None -> safe_at r').
Proof.
  intros Hi Hnul. unfold forward_get, safely. apply st_post_bind.
  eapply st_post_eq; [by apply (read_safely r b)|].
  apply (exchange_safely r b); [done| |done]. intros [msg|] r' Hi'; [|done]. cbv zeta.
  pose proof (answer_safely r' b (answer_buffer (get_state_value msg))
    (bool_decide (Z.of_nat (length (get_state_value msg)) < VAL_SIZE))
    (fun b => strncpy b kv_value_off (get_state_value msg) (VAL_SIZE - 1)) Hi') as Ha.
  rewrite bool_decide_decide in Ha. pose proof (answer_written (get_state_value msg)) as Ew.
  destruct (decide (Z.of_nat (length (get_state_value msg)) < VAL_SIZE));
    apply Ha; auto using length_answer_buffer, answer_nul.
Qed.

Lemma forward_put_safely (r : run) b :
  idle_at r b -> x00 ∈ b -> x00 ∈ drop 64 b ->
  safely forward_put r (fun left r' => left = None -> safe_at r').
Proof.
  intros Hi Hnul Hnul'. unfold forward_put, safely.
  apply st_post_bind. eapply st_post_eq; [by apply (read_safely r b)|].
  apply st_post_bind. eapply st_post_eq; [by apply (read_safely r b)|].
  apply (exchange_safely r b); [done| |done]. intros [msg|] r' Hi'; [|done]. cbv zeta.
  destruct (strncpy_front (put_state_acknowledgement msg)) as (b2 & E2 & Hl2).
  pose proof (ack_nul _ _ E2) as Hn2.
  pose proof (answer_safely r' b b2
    (bool_decide (Z.of_nat (length (put_state_acknowledgement msg)) < ACK_SIZE))
    (fun b => strncpy b 0 (put_state_acknowledgement msg) (ACK_SIZE - 1)) Hi') as Ha.
  rewrite bool_decide_decide in Ha.
  destruct (decide (Z.of_nat (length (put_state_acknowledgement msg)) < ACK_SIZE)); by apply Ha.
Qed.

Lemma step_safely (r : run) :
  safe_at r -> safely proxy_step r (fun left r' => left = None -> safe_at r').
Proof.
  intros (b & Hi & Hl & Hnul & Hput). unfold proxy_step, safely. apply st_post_bind.
  eapply st_post_eq; [reflexivity|]. cbv zeta. case_decide.
  - apply st_post_bind. eapply st_post_eq; [by apply (read_safely r b)|].
    apply st_post_bind. eapply st_post_mono; [apply world_safely; [apply client_write|exact Hi]|].
    done.
  - case_decide; [by apply (forward_get_safely r b)|].
    case_decide; [|done]. apply (forward_put_safely r b); auto.
Qed.

(** The loop runs out of fuel or ends. *)
Lemma loop_safely fuel (r : run) :
  safe_at r -> st_post (proxy_loop fuel) r (fun f => f = OutOfFuel) (fun _ _ => True).
Proof.
  revert r. induction fuel as [|fuel IH]; intros r Hr; [done|]. cbn [proxy_loop].
  apply st_post_bind. pose proof (step_safely r Hr) as Hs. unfold safely, st_post in *.
  destruct (proxy_step r) as [[[ok|] r']|f]; [done| |done]. by apply IH, Hs.
Qed.

(** The whole of [execute_wasm_with_grpc_proxy]: a null pointer is dereferenced
    where the file is read into memory that could not be allocated, and
    nowhere else. *)
Lemma execute_safely fuel aot f args s t :
  tee_of (sv_world s) = Some t -> (forall x, g_chaincode_sess t = Some x -> session_wf x) ->
  Z.of_nat (length (default [] (output_buffer (sv_ctx s)))) = output_buffer_size (sv_ctx s) ->
  let out := execute_wasm_with_grpc_proxy fuel aot f args in
  match file_contents (bytes "./chaincode/" ++ aot) (sv_world s) with
  | None => out s = Done (false, s)
  | Some code =>
      if decide ((malloc (Z.of_nat (length code)) (sv_world s)).1 = None /\ code <> [])
      then out s = Fault NullDeref
      else st_post out s (fun e => e = OutOfFuel) (fun _ _ => True)
  end.
Proof.
  intros Et Hw Hout out. subst out. unfold execute_wasm_with_grpc_proxy.
  destruct (file_contents _ _) as [code|] eqn:Ef; [|by rewrite stm_bind_eq; cbn [st_get]; rewrite Ef].
  pose proof (client_malloc (Z.of_nat (length code)) (sv_world s)) as Et1.
  case_decide as Hd.
  { rewrite stm_bind_eq. cbn [st_get]. rewrite Ef, stm_bind_eq. cbn. by rewrite decide_True. }
  apply st_post_bind. eapply st_post_eq; [reflexivity|]. cbv beta. rewrite Ef.
  apply st_post_bind. eapply st_post_eq; [reflexivity|].
  rewrite decide_False by done. set (mem := (malloc _ _).1) in *.
  apply st_post_bind. eapply st_post_eq; [reflexivity|]. cbn [sv_world sv_ctx].
  set (w1 := (malloc _ _).2) in *. pose proof (client_calloc max_size w1) as Et2.
  destruct (negb _); [done|]. apply st_post_bind. eapply st_post_eq.
  { unfold st_lift. change (Z.to_nat max_size) with 640%nat. by rewrite marshal_ok. }
  apply st_post_bind. eapply st_post_eq; [reflexivity|]. cbn [sv_ctx].
  set (s2 := Service _ _). set (op := run_operation _ _ _).
  assert (Hrun : safely (invoke_command COMMAND_RUN_WASM) (Run s2 op)
    (fun res r' => res = TEEC_SUCCESS -> safe_at r')).
  { apply (run_safely _ t (marshalled f args)); [| |split_and!; try done| | |done].
    - exact (eq_trans Et2 (eq_trans Et1 Et)).
    - done.
    - change (Z.of_nat (length (marshalled f args)) = max_size). by rewrite length_marshalled.
    - done.
    - apply length_marshalled. }
  unfold st_post, with_operation. rewrite stm_bind_eq. unfold safely, st_post in Hrun.
  destruct (invoke_command COMMAND_RUN_WASM (Run s2 op)) as [[res r]|e]; [|done].
  destruct (decide (res <> TEEC_SUCCESS)) as [|Hres]; [done|].
  pose proof (loop_safely fuel r (Hrun ltac:(lia))) as Hl. unfold st_post in Hl.
  by destruct (proxy_loop fuel r) as [[ok r']|e].
Qed.
End safety.
