(* ===== verification/SystemConcrete.v ===== *)
(** * A concrete system

    An instance of the interfaces of System.v and ProxySafety.v: the
    trusted application of Concrete.v behind a client API that calls it, a
    wrapper that reacts to each message when it is written, and a ledger in a
    finite map.  The theorems on the system are put to work on it. *)
From Stdlib Require Import ZArith Lia Strings.Byte Strings.String.
From stdpp Require Import base tactics option list list_numbers gmap strings.
From S2P Require Import Prelude Mem Abi Session Natives Chaincode ChaincodeLogic.
From S2P Require Import ChaincodeSpec WamrTa Ta TaLogic CoffeeTa Concrete.
From S2P Require Import Proxy ProxyLogic Wrapper System SystemLogic ProxySafety.

(** ** The peer *)

Record simple_stub := SimpleStub {
  ss_params : list byte * list (list byte);
  ss_committed : gmap (list byte) (list byte);
  ss_written : gmap (list byte) (list byte) }.

(** A connection that has yet to receive [cn_script] and has sent [cn_sent]. *)
Record simple_conn := SimpleConn {
  cn_script : list ChaincodeProxyMessage; cn_sent : list ChaincodeWrapperMessage }.

#[export] Instance SimpleWrapper : WrapperEnv := {|
  stub := simple_stub;
  GetFunctionAndParameters := ss_params;
  stub_GetState k st := inr (ss_committed st !! k);
  stub_PutState k v st :=
    if decide (k = []) then inl (bytes "key must not be an empty string")
    else inr (SimpleStub (ss_params st) (ss_committed st) (<[k := v]> (ss_written st)));
  conn := simple_conn;
  grpc_Dial c := inr c;
  client_TransactionInvocation c := inr c;
  stream_Send m c := inr (SimpleConn (cn_script c) (cn_sent c ++ [m]));
  stream_Recv c :=
    match cn_script c with
    | [] => inl (bytes "EOF")
    | m :: l => inr (m, SimpleConn l (cn_sent c))
    end;
|}.

#[export] Instance SimpleLedger : LedgerEnv := {|
  committed := ss_committed : @stub SimpleWrapper -> _; written := ss_written |}.

#[export] Instance SimpleLedgerLaws : LedgerLaws.
Proof.
  split.
  - done.
  - intros k v st Hk. cbn. rewrite decide_False by done. by eexists.
Qed.

#[export] Instance SimpleConn_env : ConnEnv := {|
  pending := cn_script : @conn SimpleWrapper -> _; sent := cn_sent |}.

#[export] Instance SimpleConnLaws : ConnLaws.
Proof.
  split.
  - intros c. by eexists.
  - intros c. by eexists.
  - intros c m l Hc. cbn in Hc |- *. rewrite Hc. by eexists.
  - intros c m. by eexists.
Qed.

(** ** The device *)

Record simple_world := SimpleWorld {
  sw_ta : option ta; sw_wrapper : simple_stub * option Response; sw_inbox : list wrapper_oneof }.

Definition TEEC_ERROR_TARGET_DEAD : Z := 0xFFFF3024.

Definition simple_invoke (cmd_id : Z) (op : TEEC_Operation) (w : simple_world)
    : (Z * TEEC_Operation) * simple_world :=
  match sw_ta w with
  | None => ((TEEC_ERROR_TARGET_DEAD, op), w)
  | Some t =>
      match TA_InvokeCommandEntryPoint cmd_id (paramTypes op) (Cmd t (to_params op)) with
      | Done (r, x) =>
          ((r, back_params op (c_params x)), SimpleWorld (Some (c_ta x)) (sw_wrapper w) (sw_inbox w))
      | Fault _ => ((TEEC_ERROR_TARGET_DEAD, op), SimpleWorld None (sw_wrapper w) (sw_inbox w))
      end
  end.

Definition simple_open (w : simple_world) : Z * simple_world :=
  match TA_OpenSessionEntryPoint 0 (ta_start tt) with
  | Done ((r, _), t) => (r, SimpleWorld (Some t) (sw_wrapper w) (sw_inbox w))
  | Fault _ => (TEEC_ERROR_TARGET_DEAD, w)
  end.

Definition simple_write (m : ChaincodeProxyMessage) (w : simple_world) : bool * simple_world :=
  match sw_wrapper w with
  | (st, None) =>
      let x := reacted (react m st) in
      (true, SimpleWorld (sw_ta w) x.1 (sw_inbox w ++ x.2))
  | _ => (false, w)
  end.

#[export] Instance SimpleProxy : ProxyEnv := {|
  world := simple_world;
  malloc n w := (Some (replicate (Z.to_nat n) x00), w);
  calloc n w := (true, w);
  file_contents f w :=
    if decide (f = bytes "./chaincode/coffee.wasm") then Some coffee_code0 else None;
  TEEC_InitializeContext w := (TEEC_SUCCESS, w);
  TEEC_OpenSession := simple_open;
  TEEC_InvokeCommand := simple_invoke;
  TEEC_CloseSession w := SimpleWorld None (sw_wrapper w) (sw_inbox w);
  TEEC_FinalizeContext w := w;
  stream_Write := simple_write;
  stream_Read w :=
    match sw_inbox w with
    | [] => (None, w)
    | m :: l => (Some (Some m), SimpleWorld (sw_ta w) (sw_wrapper w) l)
    end;
|}.

#[export] Instance SimpleSystem : SystemEnv := {|
  tee_of := sw_ta : @world SimpleProxy -> _;
  wrapper_of := sw_wrapper : @world SimpleProxy -> _;
  inbox := sw_inbox : @world SimpleProxy -> _;
|}.

Lemma simple_invoke_done cmd_id op (w : simple_world) t r t' p' :
  sw_ta w = Some t ->
  TA_InvokeCommandEntryPoint cmd_id (paramTypes op) (Cmd t (to_params op)) = Done (r, Cmd t' p') ->
  simple_invoke cmd_id op w =
    ((r, back_params op p'), SimpleWorld (Some t') (sw_wrapper w) (sw_inbox w)).
Proof. intros Et E. unfold simple_invoke. by rewrite Et, E. Qed.

Lemma simple_malloc n (w : simple_world) : 0 <= n ->
  exists b, (malloc n w).1 = Some b /\ Z.of_nat (length b) = n.
Proof. intros Hn. eexists. split; [reflexivity|]. rewrite length_replicate. lia. Qed.

#[export] Instance SimpleSystemLaws : SystemLaws.
Proof.
  split.
  - intros n w Hn. split; [by apply simple_malloc|]. by split_and!.
  - by intros n w.
  - by intros w.
  - intros w. exists (tt : @env _ SimpleEnv), TEE_SUCCESS, true,
      (Ta 0 (Some session_zero) wamr_context_zero false (tt : @env _ SimpleEnv)). by split_and!.
  - intros cmd_id op w t r t' p' _ Et E. eexists.
    split; [exact (simple_invoke_done cmd_id op w t r t' p' Et E)|]. by split_and!.
  - by intros w.
  - by intros w.
  - intros m w st Hw Hi. cbn in Hw, Hi. cbn [stream_Write SimpleProxy]. unfold simple_write.
    rewrite Hw. split_and!; [done|done|done|]. cbn. rewrite Hi. cbn.
    by destruct (reacted (react m st)).
  - intros w a l Hi. cbn in Hi. cbn [stream_Read SimpleProxy]. rewrite Hi. by split_and!.
Qed.

#[export] Instance SimpleClientLaws : ClientLaws.
Proof.
  split.
  - done.
  - done.
  - intros m w. cbn. unfold simple_write. by destruct (sw_wrapper w) as [? []].
  - intros w. cbn. by destruct (sw_inbox w).
  - intros cmd_id op w t r t' p' _ Et E. eexists.
    by split; [exact (simple_invoke_done cmd_id op w t r t' p' Et E)|].
Qed.

Lemma SimpleGuestsSafe : guests_safe.
Proof. intros fn h f. apply interpret_safe. Qed.

(** ** Data *)

Definition stub0 (m : gmap (list byte) (list byte)) : @stub SimpleWrapper :=
  SimpleStub ([], []) m ∅.

(** A service that has just been initialised, before the invocation [f] [args]
    on the ledger [m]. *)
Definition service0 (m : gmap (list byte) (list byte)) (f : list byte) (args : list (list byte))
    : @service SimpleProxy :=
  Service (TeeCtx (Some (replicate 16 x00)) 16 None 0)
    (SimpleWorld (Some ta0) (stub0 m, None)
       [InvocationRequest [] f args (bytes "coffee.wasm")]).

Lemma service0_serving m f args : serving (service0 m f args).
Proof. split; [done|]. by exists ta0. Qed.
