(* ===== verification/NativesProps.v ===== *)
(** * Properties of the native functions

    What the trusted application promises of the functions a guest can call,
    for every argument the guest can pass. *)
From Stdlib Require Import ZArith Lia Strings.Byte Strings.String.
From stdpp Require Import base tactics option list list_numbers gmap strings relations.
From S2P Require Import Prelude Mem Abi Session Natives Sandbox Concrete.

(** The row of the table that a name is linked to. *)
Definition link_symbol (name : string) : option string :=
  snd <$> find (fun row => bool_decide (row.1 = name)) chaincode_native_symbols.

(** The parameters of a signature: what precedes its closing parenthesis. *)
Definition signature_params (sig : string) : option string :=
  n ← String.index 0 ")" sig; Some (String.substring 0 n sig).

Section props.
  Context `{WamrInst} `{!WamrInstLaws}.
  Implicit Types (s : chaincode_session_ctx) (i : inst) (c : import).

(** C7: every native function, on every 32-bit argument a guest can pass, in
    every session: it returns the value, leaves the session and leaves the
    linear memory that [call_result], [call_session] and [call_mem] give, when
    the call is safe; and it runs out of the session's arrays otherwise. *)
Theorem native_call_total s i c :
  session_wf s -> import_range c ->
  (call_safe s i c ->
   exists i', native_call c (Host (Some s) (Some i)) =
       Done (call_result s i c, Host (Some (call_session s i c)) (Some i')) /\
     inst_mem i' = call_mem s i c) /\
  (~ call_safe s i c -> native_call c (Host (Some s) (Some i)) = Fault OutOfBounds).
Proof.
  intros Hw Hr. split; intros Hs; [by apply native_call_spec|by apply native_call_fault].
Qed.

(** C8: a native call of a guest writes only to the buffer that the guest
    designates, never beyond it and never when it is not wholly in the linear
    memory; it keeps the size of the memory, keeps the session well formed, and
    leaves the arguments and the runtime pointers of the session alone. *)
Theorem native_call_frame s i c r h' :
  session_wf s -> import_range c ->
  native_call c (Host (Some s) (Some i)) = Done (r, h') ->
  exists s' i', h' = Host (Some s') (Some i') /\ session_wf s' /\ same_session s s' /\
    lm_size (inst_mem i') = lm_size (inst_mem i) /\
    (forall a, ~ ((writes c).1 <= a < (writes c).1 + (writes c).2) \/
               ~ in_mem (inst_mem i) (writes c).1 (writes c).2 ->
     lm_byte (inst_mem i') a = lm_byte (inst_mem i) a).
Proof.
  intros Hw Hr E. destruct (decide (call_safe s i c)) as [Hs|Hs].
  2: { by rewrite native_call_fault in E. }
  destruct (native_call_spec s i c) as (i' & E' & Hm); [done..|]. rewrite E' in E. simplify_eq.
  exists (call_session s i c), i'. split; [done|].
  split; [by apply call_session_wf, import_get_len|]. split; [apply call_session_same|].
  rewrite Hm. split; [apply call_mem_size|].
  intros a [Ha|Ha]; [by apply call_mem_frame|]. by rewrite call_mem_invalid.
Qed.

(** [cc_get_arg] accepts the index 9 (its guard is [idx < ARGS_NUMBER]) but
    reads row [idx + 1] of ten: whenever it is asked for a non-empty string
    into a valid buffer it reads past the end of the arguments. *)
Theorem cc_get_arg_row_10 s i p n :
  session_wf s -> uint_range p -> 1 < n < 2 ^ 31 -> in_mem (inst_mem i) p n ->
  cc_get_arg_native 9 p n (Host (Some s) (Some i)) = Fault OutOfBounds.
Proof.
  intros Hw Hp Hn Hin. apply (native_call_fault s i (cc_get_arg 9 p n) Hw).
  - unfold import_range, int_range, uint_range in *. lia.
  - cbn [call_safe]. intros Hs. specialize (Hs ltac:(lia) Hin).
    assert (Ha : arg_of s 9 = []).
    { unfold arg_of. rewrite decide_True by (unfold ARGS_NUMBER; lia).
      apply drop_ge. by rewrite (wf_args _ Hw). }
    rewrite Ha in Hs. destruct Hs as [Hs|Hs]; [simpl in Hs; lia|by apply elem_of_nil in Hs].
Qed.

(** a negative length makes [cc_return_response] write the terminating NUL
    in front of the response array (a fault); with any other length it stores
    the message, cut to 255 bytes and NUL-terminated, as the response. *)
Theorem cc_return_response_result s i p n :
  session_wf s -> int_range n ->
  cc_return_response_native p n (Host (Some s) (Some i)) = Fault OutOfBounds <-> n < 0.
Proof.
  intros Hw Hn. destruct (cc_return_response_native_spec s i p n Hw Hn) as (i' & _ & ->).
  case_decide; split; done || lia.
Qed.

(** the name of the function and the arguments reach the guest as sent: for
    a row [j] of the arguments and a valid buffer of up to 64 bytes, the guest
    finds the C string of the row in its buffer, cut to the buffer and
    NUL-terminated, and is given its length. *)
Theorem argument_delivered s i j p n :
  session_wf s -> uint_range p -> 0 <= j < 10 -> 0 < n <= 64 -> in_mem (inst_mem i) p n ->
  let text := take (Z.to_nat (n - 1)) (cstr (argument_row (sc_args s) j)) in
  exists i', native_call (if decide (j = 0) then cc_get_function p n else cc_get_arg (j - 1) p n)
      (Host (Some s) (Some i)) = Done (Z.of_nat (length text), Host (Some s) (Some i')) /\
    lm_read (inst_mem i') p (Z.to_nat n) = pad (Z.to_nat n) text /\
    cstr (lm_read (inst_mem i') p (Z.to_nat n)) = text.
Proof.
  intros Hw Hp Hj Hn Hin text.
  assert (Ht : arg_string (drop (Z.to_nat (argument_off j)) (sc_args s)) n = text)
    by (by apply arg_string_row).
  pose proof (str_ok_row s j n Hw Hj Hn) as Hstr.
  assert (Hmem : forall i', inst_mem i' = lm_write (inst_mem i) p (pad (Z.to_nat n) text) ->
    lm_read (inst_mem i') p (Z.to_nat n) = pad (Z.to_nat n) text /\
    cstr (lm_read (inst_mem i') p (Z.to_nat n)) = text).
  { intros i' ->. assert (Hl : (length text <= Z.to_nat n)%nat) by (unfold text; rewrite length_take; lia).
    pose proof (lm_read_write_eq (inst_mem i) p (pad (Z.to_nat n) text)) as Hrw.
    rewrite length_pad in Hrw by done. rewrite Hrw. split; [done|]. apply cstr_pad. unfold text. auto with cstring. }
  assert (Hir : int_range n) by (unfold int_range; lia).
  case_decide as Hj0.
  - subst j. change (Z.to_nat (argument_off 0)) with 0%nat in *. rewrite drop_0 in *.
    destruct (native_call_spec s i (cc_get_function p n) Hw) as (i' & E & Hm);
      [done|by intros _ _|].
    cbn [call_result call_session call_mem] in E, Hm.
    rewrite decide_True in E by (split; [lia|done]).
    rewrite decide_True in Hm by (split; [lia|done]). rewrite Ht in *. exists i'. auto.
  - assert (Ha : arg_of s (j - 1) = drop (Z.to_nat (argument_off j)) (sc_args s)).
    { unfold arg_of. rewrite decide_True by (unfold ARGS_NUMBER; lia). do 3 f_equal. lia. }
    destruct (native_call_spec s i (cc_get_arg (j - 1) p n) Hw) as (i' & E & Hm).
    { split; [unfold int_range; lia|done]. }
    { cbn. by rewrite Ha. }
    cbn [call_result call_session call_mem] in E, Hm. rewrite Ha in *.
    rewrite decide_True in E by (split; [lia|done]).
    rewrite decide_True in Hm by (split; [lia|done]). rewrite Ht in *. exists i'. auto.
Qed.

(** what a guest asks of the ledger is recorded as it was passed: after a
    GET the session's pending request is the key (its C string, cut to 63
    bytes) and the buffer to deliver to, and after a PUT the key and the value
    (cut to 255 bytes). *)
Theorem request_recorded s i kp kn p n :
  session_wf s -> uint_range kp -> uint_range p -> 0 <= kn < 2 ^ 31 -> 0 < n < 2 ^ 31 ->
  in_mem (inst_mem i) kp kn -> in_mem (inst_mem i) p n ->
  let key := cstr (take 63 (lm_read (inst_mem i) kp (Z.to_nat kn))) in
  let value := cstr (take 255 (lm_read (inst_mem i) p (Z.to_nat n))) in
  (exists s' i', native_call (cc_get_state kp kn p n) (Host (Some s) (Some i)) =
      Done (Z.min kn 63, Host (Some s') (Some i')) /\
    session_request s' = Some (GetState key p n)) /\
  (exists s' i', native_call (cc_put_state kp kn p n) (Host (Some s) (Some i)) =
      Done (-1, Host (Some s') (Some i')) /\
    session_request s' = Some (PutState key value)).
Proof.
  intros Hw Hkp Hp Hkn Hn Hk Hin key value.
  assert (Hr : int_range kn /\ int_range n) by (unfold int_range; lia).
  split.
  - destruct (native_call_spec s i (cc_get_state kp kn p n) Hw) as (i' & E & _); [|done|].
    { repeat split; try apply Hkp; try apply Hp; try apply Hr. }
    cbn [call_result call_session] in E. rewrite !decide_True in E by (split; [lia|done]).
    eexists _, i'. split; [exact E|]. pose proof (session_view_get
      (guest_bytes (inst_mem i) kp kn 63) p n s) as Hv.
    apply (f_equal hv_request) in Hv. cbn in Hv. rewrite Hv.
    by rewrite guest_bytes_in by (done || lia).
  - destruct (native_call_spec s i (cc_put_state kp kn p n) Hw) as (i' & E & _); [|done|].
    { repeat split; try apply Hkp; try apply Hp; try apply Hr. }
    cbn [call_result call_session] in E.
    eexists _, i'. split; [exact E|]. pose proof (session_view_put
      (guest_bytes (inst_mem i) kp kn 63) (guest_bytes (inst_mem i) p n 255) s) as Hv.
    apply (f_equal hv_request) in Hv. cbn in Hv. rewrite Hv.
    by rewrite !guest_bytes_in by (done || lia).
Qed.

(** [env.memcpy] is [env.memmove] on every argument, and after either the
    destination holds what the source held before, even when they overlap. *)
Theorem memcpy_memmove s i d sp n :
  session_wf s -> uint_range d -> uint_range sp -> 0 < n < 2 ^ 32 ->
  in_mem (inst_mem i) d n -> in_mem (inst_mem i) sp n ->
  exists i', native_call (env_memmove d sp n) (Host (Some s) (Some i)) =
      Done (d, Host (Some s) (Some i')) /\
    native_call (env_memcpy d sp n) (Host (Some s) (Some i)) = Done (d, Host (Some s) (Some i')) /\
    lm_read (inst_mem i') d (Z.to_nat n) = lm_read (inst_mem i) sp (Z.to_nat n).
Proof.
  intros Hw Hd Hsp Hn Hin Hin'.
  destruct (native_call_spec s i (env_memmove d sp n) Hw) as (i' & E & Hm);
    [unfold import_range, uint_range in *; lia|done|].
  cbn [call_result call_session call_mem] in E, Hm.
  rewrite decide_True in E by tauto. rewrite decide_True in Hm by (split; [lia|done]).
  exists i'. split; [done|]. split; [done|].
  pose proof (lm_read_write_eq (inst_mem i) d (lm_read (inst_mem i) sp (Z.to_nat n))) as Hrw.
  rewrite length_lm_read in Hrw. by rewrite Hm.
Qed.
End props.

(** Every import of the chaincode is linked to a row of the symbol table of
    the same name and the same parameters; the result types agree as well,
    except for [cc_return_response] and [cc_log], which the chaincode declares
    without a result and the table with one. *)
Theorem symbol_table_links c :
  exists sig, link_symbol (import_name c) = Some sig /\
    signature_params sig = signature_params (import_type c) /\
    (sig = import_type c <->
     match c with cc_return_response _ _ | cc_log _ _ => False | _ => True end).
Proof. destruct c; eexists; (split; [reflexivity|]); (split; [reflexivity|]); by vm_compute. Qed.

(** ** Witnesses *)

Lemma native_call_total_witness :
  exists i', native_call (cc_get_arg 0 1232 64) (Host (Some session_add) (Some instance0)) =
      Done (5, Host (Some session_add) (Some i')) /\
    inst_mem i' = call_mem session_add instance0 (cc_get_arg 0 1232 64).
Proof.
  apply (native_call_total session_add instance0 (cc_get_arg 0 1232 64)).
  - apply session_add_wf.
  - split; [|split]; evaluate.
  - evaluate.
Defined.

Lemma native_call_frame_witness :
  exists s' i', Host (Some session_add) (Some instance_thrown) = Host (Some s') (Some i') /\
    session_wf s' /\ same_session session_add s' /\
    lm_size (inst_mem i') = lm_size (inst_mem instance0) /\
    (forall a, ~ (7 <= a < 7 + 600000) \/ ~ in_mem (inst_mem instance0) 7 600000 ->
     lm_byte (inst_mem i') a = lm_byte (inst_mem instance0) a).
Proof.
  apply (native_call_frame session_add instance0 (env_memset 7 255 600000) 0).
  - apply session_add_wf.
  - split; [|split]; evaluate.
  - vm_compute. reflexivity.
Defined.

Lemma cc_get_arg_row_10_witness :
  cc_get_arg_native 9 1232 64 (Host (Some session_add) (Some instance0)) = Fault OutOfBounds.
Proof.
  apply (cc_get_arg_row_10 session_add instance0 1232 64).
  - apply session_add_wf.
  - evaluate.
  - evaluate.
  - evaluate.
Defined.

Lemma cc_return_response_result_witness :
  cc_return_response_native 2040 (-1) (Host (Some session_add) (Some instance0)) = Fault OutOfBounds.
Proof.
  apply (cc_return_response_result session_add instance0 2040 (-1)).
  - apply session_add_wf.
  - evaluate.
  - reflexivity.
Defined.

Lemma argument_delivered_witness :
  exists i', native_call (cc_get_arg 0 1232 4) (Host (Some session_add) (Some instance0)) =
      Done (3, Host (Some session_add) (Some i')) /\
    lm_read (inst_mem i') 1232 4 = bytes "ali" ++ [x00] /\
    cstr (lm_read (inst_mem i') 1232 4) = bytes "ali".
Proof.
  apply (argument_delivered session_add instance0 1 1232 4).
  - apply session_add_wf.
  - evaluate.
  - evaluate.
  - evaluate.
  - evaluate.
Defined.

Lemma request_recorded_witness :
  (exists s' i', native_call (cc_get_state 2020 5 1296 256)
      (Host (Some session_add) (Some instance0)) = Done (5, Host (Some s') (Some i')) /\
    session_request s' = Some (GetState (bytes "query") 1296 256)) /\
  (exists s' i', native_call (cc_put_state 2020 5 1296 256)
      (Host (Some session_add) (Some instance0)) = Done (-1, Host (Some s') (Some i')) /\
    session_request s' = Some (PutState (bytes "query") [])).
Proof.
  apply (request_recorded session_add instance0 2020 5 1296 256).
  - apply session_add_wf.
  - evaluate.
  - evaluate.
  - evaluate.
  - evaluate.
  - evaluate.
  - evaluate.
Defined.

Lemma memcpy_memmove_witness :
  exists i', native_call (env_memmove 2001 2000 6) (Host (Some session_add) (Some instance0)) =
      Done (2001, Host (Some session_add) (Some i')) /\
    native_call (env_memcpy 2001 2000 6) (Host (Some session_add) (Some instance0)) =
      Done (2001, Host (Some session_add) (Some i')) /\
    lm_read (inst_mem i') 2001 6 = bytes "create".
Proof.
  apply (memcpy_memmove session_add instance0 2001 2000 6).
  - apply session_add_wf.
  - evaluate.
  - evaluate.
  - evaluate.
  - evaluate.
  - evaluate.
Defined.
