(* ===== verification/ChaincodeProps.v ===== *)
(** * Properties of the chaincode *)
From Stdlib Require Import ZArith Lia Strings.Byte Strings.String.
From stdpp Require Import base tactics option list list_numbers gmap strings relations.
From S2P Require Import Prelude Mem Abi Session Natives Sandbox Chaincode.
From S2P Require Import ChaincodeLogic ChaincodeSpec ChaincodeCalls CoffeeTa Concrete.

Section props.
  Context {St : Type} `{!HostEnv St} (ok : St -> Prop) `{!HostLaws St ok} (L : layout).
  Implicit Types (s : St) (v : hview) (c : contract).

(** C2: on every host that keeps the promises of Abi.v, in every state of the
    contract, [step_resume] returns (it neither traps, nor faults, nor loops),
    and the memory and the host's session it leaves are those of one step of
    the contract. *)
Theorem step_resume_refines s c v :
  in_contract ok L s c v ->
  exists s', run_guest (step_resume L) s = GDone tt s' /\
    let r := contract_step (L g_cur_val) c v in in_contract ok L s' r.1 r.2.
Proof.
  intros Hc. destruct (wp_step_resume ok L s c v Hc) as ([] & s' & E & Hr). by exists s'.
Qed.

(** the chaincode's conversions are inverse to each other: what [s_ultoa]
    writes for an [unsigned long] [s_atoul] reads back as the same value. *)
Theorem ultoa_atoul_roundtrip s sigma v x z :
  at_state ok L s sigma v -> is_variable x = true -> object_size x = VAL_MAX ->
  sigma x = replicate 256 x00 -> 0 <= z < 2 ^ 32 ->
  exists s' sigma', run_guest (s_ultoa z (L x) VAL_MAX;; s_atoul (L x)) s = GDone z s' /\
    at_state ok L s' sigma' v /\ cstr (sigma' x) = decimal z.
Proof.
  intros Hs Hx Hsize Hz Hr. pose proof (decimal_length z) as Hd.
  pose proof (decimal_no_nul z ltac:(lia)) as Hn.
  assert (Hw : wp (s_ultoa z (L x) VAL_MAX;; s_atoul (L x)) s (fun r s' =>
    r = z /\ exists sigma', at_state ok L s' sigma' v /\ cstr (sigma' x) = decimal z)).
  { apply wp_bind. eapply (wp_ultoa ok L); [done|done|done|done| |].
    { by rewrite Hz, Hsize. }
    intros s' Hs'. eapply (wp_atoul ok L); [exact Hs'| |rewrite Hsize; by apply Nat.leb_le|].
    - rewrite upd_same, Hsize, cstr_pad by done. change (Z.to_nat VAL_MAX) with 256%nat. lia.
    - rewrite upd_same, atoul_pad, decimal_atoul by done. split; [done|].
      eexists. split; [exact Hs'|]. by rewrite upd_same, cstr_pad. }
  destruct Hw as (r & s' & E & -> & sigma' & ? & ?). by exists s', sigma'.
Qed.

(** [s_atoul] gives the value of the leading decimal digits of a string
    variable modulo 2^32: the sum of [add] wraps around silently. *)
Theorem atoul_value s sigma v x text :
  at_state ok L s sigma v -> sigma x = pad (Z.to_nat (object_size x)) text ->
  fits (Z.to_nat (object_size x)) text ->
  exists s', run_guest (s_atoul (L x)) s = GDone (positional (digits_value text) mod 2 ^ 32) s' /\
    at_state ok L s' sigma v.
Proof.
  intros Hs Hx [Hn Hl].
  assert (Hw : wp (s_atoul (L x)) s (fun r s' =>
    r = positional (digits_value text) mod 2 ^ 32 /\ at_state ok L s' sigma v)).
  { eapply (wp_atoul ok L); [exact Hs|by rewrite Hx, cstr_pad|apply object_size_fuel|].
    split; [|done]. by rewrite Hx, atoul_pad, atoul_positional. }
  destruct Hw as (r & s' & E & -> & ?). by exists s'.
Qed.

(** [s_streq] decides the equality of the two C strings it is given, and
    [s_strlen] gives the length, for any two NUL-terminated objects. *)
Theorem string_functions s sigma v x y :
  at_state ok L s sigma v ->
  x00 ∈ sigma x -> x00 ∈ sigma y ->
  (exists s', run_guest (s_streq (L x) (L y)) s =
      GDone (if decide (cstr (sigma x) = cstr (sigma y)) then 1 else 0) s' /\
    at_state ok L s' sigma v) /\
  (exists s', run_guest (s_strlen (L x)) s = GDone (Z.of_nat (length (cstr (sigma x)))) s' /\
    at_state ok L s' sigma v).
Proof.
  intros Hs Hx Hy.
  assert (Hlen : forall z, x00 ∈ sigma z ->
    (length (cstr (sigma z)) < Z.to_nat (object_size z))%nat).
  { intros z Hz. rewrite <- (at_length ok L _ _ _ z Hs). by apply cstr_shorter. }
  split.
  - assert (Hw : wp (s_streq (L x) (L y)) s (fun r s' =>
      r = (if decide (cstr (sigma x) = cstr (sigma y)) then 1 else 0) /\ at_state ok L s' sigma v)).
    { eapply (wp_streq ok L); [exact Hs|auto|auto|apply object_size_fuel|done]. }
    destruct Hw as (r & s' & E & -> & ?). by exists s'.
  - assert (Hw : wp (s_strlen (L x)) s (fun r s' =>
      r = Z.of_nat (length (cstr (sigma x))) /\ at_state ok L s' sigma v)).
    { eapply (wp_strlen ok L); [exact Hs|auto|apply object_size_fuel|done]. }
    destruct Hw as (r & s' & E & -> & ?). by exists s'.
Qed.
End props.

Section calls.
  Context (L : layout) (size : Z).

(** whatever its memory holds and whatever its host answers, every call the
    chaincode can make in a resumption has 32-bit arguments, and asks for
    strings to be delivered only to one of its own variables, with exactly the
    size of that variable; it asks for its first two arguments only and responds
    with a length that is not negative. *)
Theorem chaincode_calls_in_range :
  layout_ok L size -> size <= 2 ^ 32 ->
  guest_all (fun c => import_range c /\ call_targets L c) (fun _ => True) (step_resume L).
Proof. intros HL Hs. by apply (step_resume_calls L size). Qed.
End calls.

(** ** Witnesses *)

Lemma step_resume_refines_witness :
  exists s', run_guest (step_resume layout0) host0 = GDone tt s' /\
    let r := contract_step 1296 contract_init (session_view session_add) in
    in_contract host_ok layout0 s' r.1 r.2.
Proof.
  apply (step_resume_refines host_ok layout0 host0 contract_init (session_view session_add)).
  apply fresh_in_contract, session_add_wf.
Defined.

Lemma ultoa_atoul_roundtrip_witness :
  exists s' sigma', run_guest (s_ultoa 4294967295 1552 VAL_MAX;; s_atoul 1552) host0
      = GDone 4294967295 s' /\
    at_state host_ok layout0 s' sigma' (session_view session_add) /\
    cstr (sigma' g_tmp) = bytes "4294967295".
Proof.
  apply (ultoa_atoul_roundtrip host_ok layout0 host0 fresh_store (session_view session_add)
    g_tmp 4294967295).
  - apply fresh_at_state, session_add_wf.
  - reflexivity.
  - reflexivity.
  - reflexivity.
  - lia.
Defined.

Lemma atoul_value_witness :
  exists s', run_guest (s_atoul 1296)
      (Host (Some session_add) (Some (instance_with (bytes "99999999999x")))) =
      GDone 1215752191 s' /\
    at_state host_ok layout0 s' (upd g_cur_val (pad 256 (bytes "99999999999x")) fresh_store)
      (session_view session_add).
Proof.
  apply (atoul_value host_ok layout0
    (Host (Some session_add) (Some (instance_with (bytes "99999999999x"))))
    (upd g_cur_val (pad 256 (bytes "99999999999x")) fresh_store)
    (session_view session_add) g_cur_val (bytes "99999999999x")).
  - apply value_at_state; [apply session_add_wf|evaluate].
  - reflexivity.
  - evaluate.
Defined.

Lemma string_functions_witness :
  (exists s', run_guest (s_streq 2010 2000) host0 = GDone 0 s' /\
    at_state host_ok layout0 s' fresh_store (session_view session_add)) /\
  (exists s', run_guest (s_strlen 2010) host0 = GDone 3 s' /\
    at_state host_ok layout0 s' fresh_store (session_view session_add)).
Proof.
  apply (string_functions host_ok layout0 host0 fresh_store (session_view session_add)
    (lit L_add) (lit L_create)).
  - apply fresh_at_state, session_add_wf.
  - evaluate.
  - evaluate.
Defined.

Lemma chaincode_calls_in_range_witness :
  guest_all (fun c => import_range c /\ call_targets layout0 c) (fun _ => True)
    (step_resume layout0).
Proof. apply (chaincode_calls_in_range layout0 524288); [apply layout0_ok|lia]. Defined.
