(* ===== verification/TaProps.v ===== *)
(** * Properties of the trusted application *)
From Stdlib Require Import ZArith Lia Strings.Byte Strings.String.
From stdpp Require Import base tactics option list list_numbers gmap strings relations.
From S2P Require Import Prelude Mem Abi Session Natives Sandbox Chaincode.
From S2P Require Import ChaincodeLogic ChaincodeSpec ChaincodeCalls WamrTa Ta TaLogic CoffeeTa Concrete.

(** ** Helpers *)





Section safety.
  Context `{TaEnv} `{!WamrInstLaws} `{!TaLaws}.
  Implicit Types (t : ta) (p : params4) (s : chaincode_session_ctx).












End safety.

(** ** The exchange with the proxy *)

Section exchange.
  Context `{TaEnv} `{!WamrInstLaws}.
  Implicit Types (t : ta) (p : params4) (s : chaincode_session_ctx).

Lemma take_splice_0 n (bs buf : list byte) :
  (n <= length bs)%nat -> take n (splice 0 bs buf) = take n bs.
Proof. intros. rewrite splice_0. by apply take_app_le. Qed.

Lemma take_no_nul n bs : no_nul (take n (cstr bs)).
Proof. auto with cstring. Qed.

Lemma cstr_take_pad n k bs :
  no_nul bs -> (length bs <= n)%nat -> (n <= k)%nat -> cstr (take n (pad k bs)) = bs.
Proof.
  intros Hn Hl Hk. rewrite cstr_take, cstr_pad by done. by apply take_ge.
Qed.

Lemma response_text_no_nul s : no_nul (response_text s) /\ (length (response_text s) <= 255)%nat.
Proof.
  unfold response_text. repeat case_decide.
  - split; [by apply (bool_decide_unpack _)|by apply Nat.leb_le].
  - split; [by apply (bool_decide_unpack _)|by apply Nat.leb_le].
  - split; [apply take_no_nul|rewrite length_take; lia].
Qed.

(** C27: what the proxy reads in its buffer is what the session holds: the code
    says which request is pending, if any, the key and the value read back as
    the strings of the request (cut to 63 and 255 bytes), and the response as
    the response of the chaincode, or the text that stands for a missing or an
    empty one. *)
Theorem reply_roundtrip t p s :
  g_chaincode_sess t = Some s -> session_wf s -> 320 <= memref_size (p2 p) ->
  exists p', hostcall_reply s (Cmd t p) = Done (TEE_SUCCESS, Cmd t p') /\
    let code := p_value_a (p1 p') in let buf := p_memref (p2 p') in
    match session_request s with
    | Some (GetState k _ _) => code = GET_STATE_REQUEST /\ kv_key buf = take 63 k
    | Some (PutState k w) =>
        code = PUT_STATE_REQUEST /\ kv_key buf = take 63 k /\ kv_value buf = take 255 w
    | None => code = INVOCATION_RESPONSE /\ execution_response buf = response_text s
    end.
Proof.
  intros Es Hw Hlen. eexists. split; [by apply hostcall_reply_eq|]. cbv zeta.
  unfold session_request, reply_code, reply_struct. cbn [reply_params with_p2 with_value_a p1 p2 p_value_a p_memref].
  unfold kv_key, kv_value, execution_response.
  change (Z.to_nat KEY_SIZE) with 64%nat. change (Z.to_nat VAL_SIZE) with 256%nat.
  change (Z.to_nat RESPONSE_SIZE) with 256%nat. change (Z.to_nat kv_value_off) with 64%nat.
  assert (Hk : (length (take 63 (cstr (sc_key s))) <= 63)%nat) by (rewrite length_take; lia).
  assert (Hv : (length (take 255 (cstr (sc_value s))) <= 255)%nat) by (rewrite length_take; lia).
  destruct (decide (sc_pending_type s = GET_STATE_REQUEST)) as [Hg|Hg].
  { split; [done|]. rewrite take_splice_0 by (rewrite length_pad; lia).
    apply cstr_take_pad; [apply take_no_nul|lia|lia]. }
  destruct (decide (sc_pending_type s = PUT_STATE_REQUEST)) as [Hp|Hp].
  - assert (Hl64 : length (pad 64 (take 63 (cstr (sc_key s)))) = 64%nat) by (apply length_pad; lia).
    assert (Hl256 : length (pad 256 (take 255 (cstr (sc_value s)))) = 256%nat) by (apply length_pad; lia).
    split; [done|]. split.
    + rewrite take_splice_0, take_app_le, take_ge by (rewrite ?length_app; lia).
      apply cstr_pad, take_no_nul.
    + rewrite splice_0, <- (assoc_L (++)), drop_app_length' by done.
      rewrite take_app_le, take_ge by lia. apply cstr_pad, take_no_nul.
  - split; [done|]. destruct (response_text_no_nul s) as [Hn Hl].
    rewrite take_splice_0, take_ge by (rewrite ?length_pad; lia). by apply cstr_pad.
Qed.


(** no command that answers checks the size of the proxy's buffer: with
    less than the 256 bytes of a response every reply writes past its end. *)
Theorem reply_buffer_too_small t p s :
  memref_size (p2 p) < 256 -> hostcall_reply s (Cmd t p) = Fault OutOfBounds.
Proof.
  intros Hlen. unfold memref_size in Hlen.
  assert (Hf : forall v n (k : stm cmd Z), 256 <= n ->
    (set_value_a v;; write_p2 (fun b => buf_MemFill b 0 0 n);; k) (Cmd t p) = Fault OutOfBounds).
  { intros v n k Hn. rewrite set_value_a_then, stm_bind_eq. unfold write_p2, buf_MemFill, buf_write.
    cbn [c_params with_value_a p2]. rewrite length_replicate. by rewrite decide_False by lia. }
  unfold hostcall_reply. repeat case_decide; by apply Hf.
Qed.
End exchange.

(** ** The chaincode in the trusted application *)

Section coffee_props.
  Context `{TaEnv} `{!WamrInstLaws} (L : layout) (code : list byte) (coffee : inst -> Prop)
    `{!CoffeeLaws L code coffee}.
  Implicit Types (t : ta) (p q : params4) (s : chaincode_session_ctx) (c : contract) (v : hview).

Abbreviation run_is := (command_run_coffee L code coffee).
Abbreviation resume_is := (command_resume_coffee L code coffee).

(** C3: refinement of RUN: loading the chaincode and making it run carries out
    the first step of the contract on the arguments received, and reports to
    the proxy the request or the response of that step. *)
Theorem run_refines t p s :
  g_chaincode_sess t = Some s -> session_wf s -> p_memref (p0 p) = code ->
  320 <= memref_size (p2 p) ->
  let r := contract_step (L g_cur_val) contract_init (run_view s p) in
  exists t', TA_InvokeCommandEntryPoint COMMAND_RUN_WASM run_param_types (Cmd t p) =
      Done (TEE_SUCCESS,
        Cmd t' (reply_params (view_code r.2) (view_struct r.2) (with_value_a 0 p))) /\
    coffee_ta L coffee t' r.1 r.2.
Proof.
  intros Es Hw Hc Hlen. destruct (run_is t p s Es Hw Hc Hlen) as (t' & E & Ht & _).
  exists t'. split; [exact E|exact Ht].
Qed.

(** C4: refinement of RESUME: delivering the proxy's answer and stepping the
    chaincode carries out one resumption of the contract, reports its request
    or its response, and leaves a pending GET, if any, designating the empty
    [g_cur_val], so that the next RESUME does the same. *)
Theorem resume_refines t p c v :
  coffee_ta L coffee t c v -> asked (L g_cur_val) c v -> 320 <= memref_size (p2 p) ->
  let w := take 255 (cstr (drop 64 (p_memref (p2 p)))) in
  let r := contract_resume (L g_cur_val) w c v in
  exists t', TA_InvokeCommandEntryPoint COMMAND_RESUME_WASM resume_param_types (Cmd t p) =
      Done (TEE_SUCCESS, Cmd t' (reply_params (view_code r.2) (view_struct r.2) p)) /\
    coffee_ta L coffee t' r.1 r.2 /\ asked (L g_cur_val) r.1 r.2.
Proof.
  intros Ht Ha Hlen w r. destruct (resume_is t p c v Ht Ha Hlen) as (t' & E & Ht' & _).
  exists t'. split; [exact E|]. split; [exact Ht'|]. by apply contract_step_asked.
Qed.

(** The value a RESUME receives. *)
Definition answer_of p : list byte := take 255 (cstr (drop 64 (p_memref (p2 p)))).

(** The command succeeds and tells the proxy [code] and [struct]; then [k]. *)
Definition tells (cmd_id types : Z) t p (code : Z) (struct : list byte) (k : ta -> Prop) : Prop :=
  exists t', TA_InvokeCommandEntryPoint cmd_id types (Cmd t p) =
      Done (TEE_SUCCESS, Cmd t' (reply_params code struct p)) /\ k t'.

Definition run_tells := tells COMMAND_RUN_WASM run_param_types.
Definition resume_tells := tells COMMAND_RESUME_WASM resume_param_types.

(** The arguments RUN receives: function, key and operand. *)
Record invocation s p (f k a : list byte) : Prop := {
  inv_function : take 63 (hv_arg (run_view s p) 0) = f;
  inv_key : arg_key (run_view s p) = k;
  inv_val : arg_val (run_view s p) = a;
}.

(** Any command whose buffer has room for a [struct key_value]. *)
Definition at_next (k : params4 -> Prop) : Prop := forall q, 320 <= memref_size (p2 q) -> k q.

Lemma run_goes t p s c v m st (K : ta -> Prop) :
  g_chaincode_sess t = Some s -> session_wf s -> p_memref (p0 p) = code ->
  320 <= memref_size (p2 p) -> session_request s = None ->
  contract_step (L g_cur_val) contract_init (run_view s p) = (c, v) ->
  m = view_code v -> st = view_struct v ->
  (forall t', coffee_ta L coffee t' c v -> asked (L g_cur_val) c v -> K t') ->
  run_tells t p m st K.
Proof.
  intros Es Hw Hc Hlen Hreq E -> -> HK. destruct (run_is t p s Es Hw Hc Hlen) as (t' & E' & Ht & _).
  rewrite E in *. exists t'. split; [exact E'|]. apply HK; [done|].
  pose proof (contract_step_asked (L g_cur_val) contract_init (run_view s p) Hreq) as Ha.
  by rewrite E in Ha.
Qed.

Lemma resume_goes t q c v c' v' m st (K : ta -> Prop) :
  coffee_ta L coffee t c v -> asked (L g_cur_val) c v -> 320 <= memref_size (p2 q) ->
  contract_resume (L g_cur_val) (answer_of q) c v = (c', v') ->
  m = view_code v' -> st = view_struct v' ->
  (forall t', coffee_ta L coffee t' c' v' -> asked (L g_cur_val) c' v' -> K t') ->
  resume_tells t q m st K.
Proof.
  intros Ht Ha Hlen E -> -> HK. destruct (resume_is t q c v Ht Ha Hlen) as (t' & E' & Ht' & _).
  fold (answer_of q) in *. rewrite E in *. exists t'. split; [exact E'|]. apply HK; [done|].
  pose proof (contract_step_asked (L g_cur_val) (answered (answer_of q) c v) (settle v) eq_refl) as Hn.
  unfold contract_resume in E. by rewrite E in Hn.
Qed.

Lemma run_view_request s p : session_request (set_args (run_args p) s) = session_request s.
Proof. done. Qed.

Lemma add_result_positional cur arg :
  add_result cur arg =
    decimal ((positional (digits_value cur) + positional (digits_value arg)) mod 2 ^ 32).
Proof.
  unfold add_result, u32. rewrite !atoul_positional. by rewrite <- Z.add_mod by lia.
Qed.

Lemma inv_texts s p k a :
  arg_key (run_view s p) = k -> arg_val (run_view s p) = a ->
  take 63 k = k /\ take 255 a = a.
Proof.
  intros <- <-. unfold arg_key, arg_val. rewrite !take_take. done.
Qed.

(** C9: [create] in the trusted application: RUN asks for the key; when the
    answer is empty RESUME asks to store the operand under the key, and the
    next RESUME responds "OK"; when it is not, RESUME responds "EXIST". *)
Theorem create_protocol t p s k a :
  g_chaincode_sess t = Some s -> session_wf s -> p_memref (p0 p) = code ->
  320 <= memref_size (p2 p) -> session_request s = None ->
  invocation s p (bytes "create") k a -> k <> [] ->
  run_tells t p GET_STATE_REQUEST (pad 320 k) (fun t1 => at_next (fun q =>
    if decide (answer_of q = [])
    then resume_tells t1 q PUT_STATE_REQUEST (pad 64 k ++ pad 256 a) (fun t2 => at_next (fun q' =>
      resume_tells t2 q' INVOCATION_RESPONSE (pad 256 (bytes "OK")) (fun _ => True)))
    else resume_tells t1 q INVOCATION_RESPONSE (pad 256 (bytes "EXIST")) (fun _ => True))).
Proof.
  intros Es Hw Hc Hlen Hreq [Hf Hk Ha] Hne.
  pose proof (inv_texts s p k a Hk Ha) as [Hk63 Ha255].
  eapply (run_goes t p s (Contract CreateAfterGet (bytes "create") k a [])
    (hv_ask (GetState k (L g_cur_val) 256) (run_view s p)));
    [done..| |done|unfold view_struct; cbn; by rewrite Hk63|].
  { unfold contract_step. cbn [c_phase contract_init c_function]. rewrite decide_True by done.
    rewrite Hf. unfold contract_dispatch. rewrite decide_True by done.
    by rewrite Hk, Ha, decide_False by done. }
  intros t1 Ht1 Ha1 q Hq. destruct (decide (answer_of q = [])) as [Hn|Hn].
  - eapply resume_goes; [exact Ht1|exact Ha1|done| |idtac..].
    { unfold contract_resume, contract_step, answered. cbn. rewrite decide_True by done. reflexivity. }
    { done. }
    { unfold view_struct. cbn. by rewrite Hk63, Ha255. }
    intros t2 Ht2 Ha2 q' Hq'.
    by eapply resume_goes; [exact Ht2|exact Ha2|done|reflexivity|..].
  - eapply resume_goes; [exact Ht1|exact Ha1|done| |idtac..].
    { unfold contract_resume, contract_step, answered. cbn. rewrite decide_False by done. reflexivity. }
    all: done.
Qed.

(** C10: [add] in the trusted application: RUN asks for the key; when the answer
    is empty RESUME responds "EMPTY"; when it is not, RESUME asks to store the
    decimal sum, modulo 2^32, of the answer and the operand, and the next RESUME
    responds "OK". *)
Theorem add_protocol t p s k a :
  g_chaincode_sess t = Some s -> session_wf s -> p_memref (p0 p) = code ->
  320 <= memref_size (p2 p) -> session_request s = None ->
  invocation s p (bytes "add") k a ->
  run_tells t p GET_STATE_REQUEST (pad 320 k) (fun t1 => at_next (fun q =>
    if decide (answer_of q = [])
    then resume_tells t1 q INVOCATION_RESPONSE (pad 256 (bytes "EMPTY")) (fun _ => True)
    else resume_tells t1 q PUT_STATE_REQUEST
      (pad 64 k ++ pad 256 (decimal ((positional (digits_value (answer_of q)) +
                                      positional (digits_value a)) mod 2 ^ 32)))
      (fun t2 => at_next (fun q' =>
        resume_tells t2 q' INVOCATION_RESPONSE (pad 256 (bytes "OK")) (fun _ => True))))).
Proof.
  intros Es Hw Hc Hlen Hreq [Hf Hk Ha].
  pose proof (inv_texts s p k a Hk Ha) as [Hk63 Ha255].
  eapply (run_goes t p s (Contract AddAfterGet (bytes "add") k a [])
    (hv_ask (GetState k (L g_cur_val) 256) (run_view s p)));
    [done..| |done|unfold view_struct; cbn; by rewrite Hk63|].
  { unfold contract_step. cbn [c_phase contract_init c_function]. rewrite decide_True by done.
    rewrite Hf. unfold contract_dispatch. rewrite decide_False, decide_True by done.
    by rewrite Hk, Ha. }
  intros t1 Ht1 Ha1 q Hq. destruct (decide (answer_of q = [])) as [Hn|Hn].
  - eapply resume_goes; [exact Ht1|exact Ha1|done| |idtac..].
    { unfold contract_resume, contract_step, answered. cbn. rewrite decide_True by done. reflexivity. }
    all: done.
  - eapply resume_goes; [exact Ht1|exact Ha1|done| |idtac..].
    { unfold contract_resume, contract_step, answered. cbn. rewrite decide_False by done. reflexivity. }
    { done. }
    { unfold view_struct. cbn. rewrite Hk63, add_result_positional.
      rewrite take_ge; [done|]. rewrite <- add_result_positional. apply add_result_fits. }
    intros t2 Ht2 Ha2 q' Hq'.
    by eapply resume_goes; [exact Ht2|exact Ha2|done|reflexivity|..].
Qed.

(** C26: [query] in the trusted application: RUN asks for the key, and RESUME
    responds with the answer, or "NOTFOUND" when it is empty. *)
Theorem query_protocol t p s k a :
  g_chaincode_sess t = Some s -> session_wf s -> p_memref (p0 p) = code ->
  320 <= memref_size (p2 p) -> session_request s = None ->
  invocation s p (bytes "query") k a ->
  run_tells t p GET_STATE_REQUEST (pad 320 k) (fun t1 => at_next (fun q =>
    resume_tells t1 q INVOCATION_RESPONSE
      (pad 256 (if decide (answer_of q = []) then bytes "NOTFOUND" else answer_of q))
      (fun _ => True))).
Proof.
  intros Es Hw Hc Hlen Hreq [Hf Hk Ha].
  pose proof (inv_texts s p k a Hk Ha) as [Hk63 Ha255].
  eapply (run_goes t p s (Contract QueryAfterGet (bytes "query") k [] [])
    (hv_ask (GetState k (L g_cur_val) 256) (run_view s p)));
    [done..| |done|unfold view_struct; cbn; by rewrite Hk63|].
  { unfold contract_step. cbn [c_phase contract_init c_function]. rewrite decide_True by done.
    rewrite Hf. unfold contract_dispatch. rewrite !decide_False, decide_True by done.
    by rewrite Hk. }
  intros t1 Ht1 Ha1 q Hq.
  eapply resume_goes; [exact Ht1|exact Ha1|done|reflexivity|done| |done].
  unfold view_struct, view_text. cbn. destruct (decide (answer_of q = [])) as [Hn|Hn].
  - done.
  - rewrite decide_False by done. f_equal. unfold answer_of. rewrite take_take. done.
Qed.

(** any other function gets the response "ERROR" from RUN itself, without a
    request to the ledger. *)
Theorem unknown_function t p s f k a :
  g_chaincode_sess t = Some s -> session_wf s -> p_memref (p0 p) = code ->
  320 <= memref_size (p2 p) -> session_request s = None ->
  invocation s p f k a -> f ∉ [bytes "create"; bytes "add"; bytes "query"] ->
  run_tells t p INVOCATION_RESPONSE (pad 256 (bytes "ERROR")) (fun _ => True).
Proof.
  intros Es Hw Hc Hlen Hreq [Hf Hk Ha] Hn.
  rewrite !not_elem_of_cons in Hn. destruct Hn as (? & ? & ? & _).
  eapply (run_goes t p s (Contract Idle f [] [] []) (hv_respond (bytes "ERROR") (run_view s p)));
    [done|done|done|done|done| |idtac..].
  { unfold contract_step. cbn [c_phase contract_init c_function]. rewrite decide_True by done.
    rewrite Hf. unfold contract_dispatch. by rewrite !decide_False by done. }
  - unfold view_code. cbn. unfold run_view. by rewrite run_view_request, Hreq.
  - unfold view_struct. cbn. unfold run_view. by rewrite run_view_request, Hreq.
  - done.
Qed.

(** nothing resets the response of a session: a RUN on an operation that
    gives no response of its own ([create] on an empty key) ends, after its
    RESUME, with the response that an earlier RUN has left. *)
Theorem stale_response t p s a old :
  g_chaincode_sess t = Some s -> session_wf s -> p_memref (p0 p) = code ->
  320 <= memref_size (p2 p) -> session_request s = None ->
  invocation s p (bytes "create") [] a ->
  sc_has_response s <> 0 -> cstr (sc_response s) = old -> old <> [] ->
  run_tells t p GET_STATE_REQUEST (pad 320 []) (fun t1 => at_next (fun q =>
    resume_tells t1 q INVOCATION_RESPONSE (pad 256 (take 255 old)) (fun _ => True))).
Proof.
  intros Es Hw Hc Hlen Hreq [Hf Hk Ha] Hr Hold Hne.
  eapply (run_goes t p s (Contract CreateStuck (bytes "create") [] a [])
    (hv_ask (GetState [] (L g_cur_val) 256) (run_view s p))); [done..| |done|done|].
  { unfold contract_step. cbn [c_phase contract_init c_function]. rewrite decide_True by done.
    rewrite Hf. unfold contract_dispatch. rewrite decide_True by done.
    by rewrite Hk, Ha, decide_True by done. }
  intros t1 Ht1 Ha1 q Hq.
  eapply resume_goes; [exact Ht1|exact Ha1|done|reflexivity|done| |done].
  unfold view_struct, view_text. cbn. rewrite decide_False by done.
  rewrite Hold. by rewrite decide_False.
Qed.

(** [n] more resumptions, each telling the same. *)
Fixpoint keeps_telling (n : nat) t (m : Z) (st : list byte) : Prop :=
  match n with
  | O => True
  | S n => at_next (fun q => resume_tells t q m st (fun t' => keeps_telling n t' m st))
  end.

Lemma stuck_keeps n t c v :
  coffee_ta L coffee t c v -> asked (L g_cur_val) c v -> c_phase c = CreateStuck ->
  hv_response v = None ->
  keeps_telling n t INVOCATION_RESPONSE (pad 256 (bytes "NO_RESPONSE")).
Proof.
  revert t c v. induction n as [|n IH]; intros t c v Ht Ha Hp Hr; [done|]. intros q Hq.
  assert (Hp' : c_phase (answered (answer_of q) c v) = CreateStuck).
  { unfold answered. by destruct (hv_request v) as [[]|]. }
  eapply (resume_goes t q c v (answered (answer_of q) c v) (settle v)); [done|done|done| |done| |].
  - unfold contract_resume, contract_step. by rewrite Hp'.
  - unfold view_struct, view_text. cbn. by rewrite Hr.
  - intros t' Ht' Ha'. by eapply IH.
Qed.

(** C35: [create] on an empty key asks for the empty key although its
    [cc_get_state] returned 0, which leaves [fsm_state] at 0: from then on every
    RESUME, however many there are, tells the proxy that there is no response. *)
Theorem create_empty_key t p s a n :
  g_chaincode_sess t = Some s -> session_wf s -> p_memref (p0 p) = code ->
  320 <= memref_size (p2 p) -> session_request s = None -> sc_has_response s = 0 ->
  invocation s p (bytes "create") [] a ->
  run_tells t p GET_STATE_REQUEST (pad 320 []) (fun t1 =>
    keeps_telling n t1 INVOCATION_RESPONSE (pad 256 (bytes "NO_RESPONSE"))).
Proof.
  intros Es Hw Hc Hlen Hreq Hr [Hf Hk Ha].
  eapply (run_goes t p s (Contract CreateStuck (bytes "create") [] a [])
    (hv_ask (GetState [] (L g_cur_val) 256) (run_view s p))); [done..| |done|done|].
  { unfold contract_step. cbn [c_phase contract_init c_function]. rewrite decide_True by done.
    rewrite Hf. unfold contract_dispatch. rewrite decide_True by done.
    by rewrite Hk, Ha, decide_True by done. }
  intros t1 Ht1 Ha1. eapply stuck_keeps; [exact Ht1|exact Ha1|done|]. cbn.
  by rewrite decide_True.
Qed.
End coffee_props.


(** ** Witnesses *)



Lemma reply_roundtrip_witness :
  exists p', hostcall_reply session_waiting (Cmd ta_waiting (resume_params []))
      = Done (TEE_SUCCESS, Cmd ta_waiting p') /\
    p_value_a (p1 p') = GET_STATE_REQUEST /\ kv_key (p_memref (p2 p')) = bytes "alice".
Proof.
  apply (reply_roundtrip ta_waiting (resume_params []) session_waiting).
  - reflexivity.
  - apply session_waiting_wf.
  - evaluate.
Defined.


Lemma reply_buffer_too_small_witness :
  hostcall_reply session_zero (Cmd ta0 (Params (Param 0 0 []) (Param 0 0 [])
    (Param 0 0 (replicate 64 x00)) (Param 0 0 []))) = Fault OutOfBounds.
Proof. apply reply_buffer_too_small. evaluate. Defined.

Lemma run_refines_witness :
  let p := run_params [bytes "add"; bytes "alice"; bytes "12"] in
  let r := contract_step 1296 contract_init (run_view session_zero p) in
  exists t', TA_InvokeCommandEntryPoint COMMAND_RUN_WASM run_param_types (Cmd ta0 p) =
      Done (TEE_SUCCESS,
        Cmd t' (reply_params (view_code r.2) (view_struct r.2) (with_value_a 0 p))) /\
    coffee_ta layout0 (fun i : @inst SimpleInst => lm_size (inst_mem i) = 524288) t' r.1 r.2.
Proof.
  apply (run_refines layout0 coffee_code0 (fun i : @inst SimpleInst => lm_size (inst_mem i) = 524288)
    ta0 (run_params [bytes "add"; bytes "alice"; bytes "12"]) session_zero).
  - reflexivity.
  - apply session_zero_wf.
  - reflexivity.
  - evaluate.
Defined.

Lemma fresh_coffee_ta :
  coffee_ta layout0 (fun i : @inst SimpleInst => lm_size (inst_mem i) = 524288)
    (Ta 10485760 (Some (set_runtime true session_add)) (context_with instance0) true tt)
    contract_init (session_view session_add).
Proof.
  assert (Hw : session_wf (set_runtime true session_add)).
  { destruct session_add_wf. by split. }
  exists (set_runtime true session_add), instance0. split; [|done].
  split; [done|done|done|done|].
  eapply in_contract_ok; [exact (fresh_in_contract _ Hw)|by apply quiet_ok_refl].
Qed.

Lemma resume_refines_witness :
  let p := resume_params [] in
  let t := Ta 10485760 (Some (set_runtime true session_add)) (context_with instance0) true tt in
  let r := contract_resume 1296 [] contract_init (session_view session_add) in
  exists t', TA_InvokeCommandEntryPoint COMMAND_RESUME_WASM resume_param_types (Cmd t p) =
      Done (TEE_SUCCESS, Cmd t' (reply_params (view_code r.2) (view_struct r.2) p)) /\
    coffee_ta layout0 (fun i : @inst SimpleInst => lm_size (inst_mem i) = 524288) t' r.1 r.2 /\
    asked 1296 r.1 r.2.
Proof.
  apply (resume_refines layout0 coffee_code0
    (fun i : @inst SimpleInst => lm_size (inst_mem i) = 524288)
    (Ta 10485760 (Some (set_runtime true session_add)) (context_with instance0) true tt)
    (resume_params []) contract_init (session_view session_add)).
  - apply fresh_coffee_ta.
  - exact I.
  - evaluate.
Defined.

Lemma create_protocol_witness :
  run_tells ta0 (run_params [bytes "create"; bytes "alice"; bytes "30"])
    GET_STATE_REQUEST (pad 320 (bytes "alice")) (fun t1 => at_next (fun q =>
    if decide (answer_of q = [])
    then resume_tells t1 q PUT_STATE_REQUEST (pad 64 (bytes "alice") ++ pad 256 (bytes "30"))
      (fun t2 => at_next (fun q' =>
        resume_tells t2 q' INVOCATION_RESPONSE (pad 256 (bytes "OK")) (fun _ => True)))
    else resume_tells t1 q INVOCATION_RESPONSE (pad 256 (bytes "EXIST")) (fun _ => True))).
Proof.
  apply (create_protocol layout0 coffee_code0
    (fun i : @inst SimpleInst => lm_size (inst_mem i) = 524288) ta0
    (run_params [bytes "create"; bytes "alice"; bytes "30"]) session_zero
    (bytes "alice") (bytes "30")).
  - reflexivity.
  - apply session_zero_wf.
  - reflexivity.
  - evaluate.
  - reflexivity.
  - split; reflexivity.
  - discriminate.
Defined.

Lemma add_protocol_witness :
  run_tells ta0 (run_params [bytes "add"; bytes "alice"; bytes "12"])
    GET_STATE_REQUEST (pad 320 (bytes "alice")) (fun t1 => at_next (fun q =>
    if decide (answer_of q = [])
    then resume_tells t1 q INVOCATION_RESPONSE (pad 256 (bytes "EMPTY")) (fun _ => True)
    else resume_tells t1 q PUT_STATE_REQUEST
      (pad 64 (bytes "alice") ++ pad 256 (decimal ((positional (digits_value (answer_of q)) +
                                      positional (digits_value (bytes "12"))) mod 2 ^ 32)))
      (fun t2 => at_next (fun q' =>
        resume_tells t2 q' INVOCATION_RESPONSE (pad 256 (bytes "OK")) (fun _ => True))))).
Proof.
  apply (add_protocol layout0 coffee_code0
    (fun i : @inst SimpleInst => lm_size (inst_mem i) = 524288) ta0
    (run_params [bytes "add"; bytes "alice"; bytes "12"]) session_zero
    (bytes "alice") (bytes "12")).
  - reflexivity.
  - apply session_zero_wf.
  - reflexivity.
  - evaluate.
  - reflexivity.
  - split; reflexivity.
Defined.

Lemma query_protocol_witness :
  run_tells ta0 (run_params [bytes "query"; bytes "alice"])
    GET_STATE_REQUEST (pad 320 (bytes "alice")) (fun t1 => at_next (fun q =>
    resume_tells t1 q INVOCATION_RESPONSE
      (pad 256 (if decide (answer_of q = []) then bytes "NOTFOUND" else answer_of q))
      (fun _ => True))).
Proof.
  apply (query_protocol layout0 coffee_code0
    (fun i : @inst SimpleInst => lm_size (inst_mem i) = 524288) ta0
    (run_params [bytes "query"; bytes "alice"]) session_zero (bytes "alice") []).
  - reflexivity.
  - apply session_zero_wf.
  - reflexivity.
  - evaluate.
  - reflexivity.
  - split; reflexivity.
Defined.

Lemma unknown_function_witness :
  run_tells ta0 (run_params [bytes "delete"; bytes "alice"])
    INVOCATION_RESPONSE (pad 256 (bytes "ERROR")) (fun _ => True).
Proof.
  apply (unknown_function layout0 coffee_code0
    (fun i : @inst SimpleInst => lm_size (inst_mem i) = 524288) ta0
    (run_params [bytes "delete"; bytes "alice"]) session_zero (bytes "delete") (bytes "alice") []).
  - reflexivity.
  - apply session_zero_wf.
  - reflexivity.
  - evaluate.
  - reflexivity.
  - split; reflexivity.
  - evaluate.
Defined.

Lemma stale_response_witness :
  run_tells ta_used (run_params [bytes "create"; []; bytes "7"])
    GET_STATE_REQUEST (pad 320 []) (fun t1 => at_next (fun q =>
    resume_tells t1 q INVOCATION_RESPONSE (pad 256 (bytes "42")) (fun _ => True))).
Proof.
  apply (stale_response layout0 coffee_code0
    (fun i : @inst SimpleInst => lm_size (inst_mem i) = 524288) ta_used
    (run_params [bytes "create"; []; bytes "7"]) session_used (bytes "7") (bytes "42")).
  - reflexivity.
  - apply session_used_wf.
  - reflexivity.
  - evaluate.
  - reflexivity.
  - split; reflexivity.
  - discriminate.
  - reflexivity.
  - discriminate.
Defined.

Lemma create_empty_key_witness :
  run_tells ta0 (run_params [bytes "create"; []; bytes "7"])
    GET_STATE_REQUEST (pad 320 []) (fun t1 =>
      keeps_telling 2 t1 INVOCATION_RESPONSE (pad 256 (bytes "NO_RESPONSE"))).
Proof.
  apply (create_empty_key layout0 coffee_code0
    (fun i : @inst SimpleInst => lm_size (inst_mem i) = 524288) ta0
    (run_params [bytes "create"; []; bytes "7"]) session_zero (bytes "7") 2).
  - reflexivity.
  - apply session_zero_wf.
  - reflexivity.
  - evaluate.
  - reflexivity.
  - reflexivity.
  - split; reflexivity.
Defined.
