(* ===== verification/WamrProps.v ===== *)
(** * Properties of the runtime wrapper and of the entry points *)
From Stdlib Require Import ZArith Lia Strings.Byte Strings.String.
From stdpp Require Import base tactics option list list_numbers gmap strings relations.
From S2P Require Import Prelude Mem Abi Session Natives Sandbox WamrTa Ta TaLogic Concrete.

Section props.
  Context `{TaEnv}.
  Implicit Types (t : ta) (p : params4) (s : chaincode_session_ctx).

(** ** Sessions and parameters *)

(** opening a session. With parameters, it is refused. Without, the first
    one allocates a zeroed session (or fails for lack of memory), and every
    later one shares the session there is: opening twice is opening once. *)
Theorem open_session_result types t :
  match TA_OpenSessionEntryPoint types t with
  | Done ((r, set), t') =>
      if decide (types = 0) then
        match g_chaincode_sess t with
        | Some s => r = TEE_SUCCESS /\ set = true /\ t' = t
        | None =>
            if (TEE_Malloc 1256 (ta_env t)).1
            then r = TEE_SUCCESS /\ set = true /\ g_chaincode_sess t' = Some session_zero /\
                 session_wf session_zero /\
                 TA_OpenSessionEntryPoint types t' = Done ((TEE_SUCCESS, true), t')
            else r = TEE_ERROR_OUT_OF_MEMORY /\ set = false /\ g_chaincode_sess t' = None
        end
      else r = TEE_ERROR_BAD_PARAMETERS /\ set = false /\ t' = t
  | Fault _ => False
  end.
Proof.
  unfold TA_OpenSessionEntryPoint.
  change (TEE_PARAM_TYPES _ _ _ _) with 0. cbv zeta.
  destruct (decide (types = 0)) as [->|Hn]; [|by rewrite decide_True].
  rewrite decide_False by (intros E; by apply E). rewrite stm_bind_eq.
  cbn [st_gets]. destruct (g_chaincode_sess t) as [s|] eqn:Es; [done|].
  rewrite stm_bind_eq. unfold env_call at 1.
  change (sizeof_arguments + KEY_SIZE + VAL_SIZE + RESPONSE_SIZE + 40) with 1256.
  destruct (TEE_Malloc 1256 (ta_env t)) as [[] e]; cbn; [|done].
  split_and!; try done. apply session_zero_wf.
Qed.

(** the interface of the commands. Each command accepts one combination of
    parameter types; any other combination, and any other command, ends with
    BAD_PARAMETERS without touching the state, the parameters or the guest; and
    RUN and RESUME without a session end with GENERIC. *)
Theorem invoke_parameters cmd_id types t p :
  let c := Cmd t p in
  let expected := if decide (cmd_id = COMMAND_CONFIGURE_HEAP) then Some heap_param_types
                  else if decide (cmd_id = COMMAND_RUN_WASM) then Some run_param_types
                  else if decide (cmd_id = COMMAND_RESUME_WASM) then Some resume_param_types
                  else None in
  (expected <> Some types ->
   TA_InvokeCommandEntryPoint cmd_id types c = Done (TEE_ERROR_BAD_PARAMETERS, c)) /\
  (expected = Some types -> cmd_id <> COMMAND_CONFIGURE_HEAP -> g_chaincode_sess t = None ->
   TA_InvokeCommandEntryPoint cmd_id types c = Done (TEE_ERROR_GENERIC, c)) /\
  (expected = Some types -> cmd_id = COMMAND_CONFIGURE_HEAP ->
   TA_InvokeCommandEntryPoint cmd_id types c =
     Done (TEE_SUCCESS, Cmd (set_ta_heap (u32 (p_value_a (p0 p))) t) p)).
Proof.
  intros c expected. unfold expected, TA_InvokeCommandEntryPoint.
  destruct (decide (cmd_id = COMMAND_CONFIGURE_HEAP)) as [->|Hh].
  { split_and!; [|done|].
    - intros Ht. by rewrite decide_True by congruence.
    - intros [= <-] _. by rewrite decide_False by (intros E; by apply E). }
  destruct (decide (cmd_id = COMMAND_RUN_WASM)) as [->|Hr].
  { split_and!; [|intros [= <-] _ Es|done].
    - intros Ht. by rewrite decide_False by congruence.
    - rewrite decide_True by done. unfold command_run. rewrite stm_bind_eq.
      unfold on_ta, st_gets at 1. cbn. by rewrite Es. }
  destruct (decide (cmd_id = COMMAND_RESUME_WASM)) as [->|Hs].
  { split_and!; [|intros [= <-] _ Es|done].
    - intros Ht. by rewrite decide_False by congruence.
    - rewrite decide_True by done. unfold command_resume. rewrite stm_bind_eq.
      unfold on_ta, st_gets at 1. cbn. by rewrite Es. }
  by split_and!.
Qed.
End props.

(** ** The runtime wrapper *)

Section runtime.
  Context `{TaEnv}.
  Implicit Types (t : ta) (e : env).

(** initialising the runtime succeeds exactly when the runtime, the module
    and the instance can all be made, in this order, from the registered symbols
    and the owned bytecode; only then is the context published in
    [singleton_wamr_context], with the new module and instance. Whatever fails,
    the heap size and the session are left alone. *)
Theorem initialize_result t argc argv :
  let ctx := runtime_ctx t in
  let args := InitArgs (wc_heap_buf ctx) (wc_heap_size ctx)
    (native_symbols_size ctx / sizeof_NativeSymbol) "env" (native_symbols ctx) in
  let i0 := wasm_runtime_full_init args (ta_env t) in
  let l := wasm_runtime_load (wasm_bytecode ctx) (wasm_bytecode_size ctx) i0.2 in
  exists r t', TA_InitializeWamrRuntime argc argv t = Done (r, t') /\
    heap_size t' = heap_size t /\ g_chaincode_sess t' = g_chaincode_sess t /\
    match i0.1, l.1 with
    | true, Some m =>
        let n := wasm_runtime_instantiate m 262144 65536
                   (wasm_runtime_set_wasi_args m argv argc l.2) in
        wc_module (runtime_ctx t') = Some m /\ wc_module_inst (runtime_ctx t') = n.1 /\
        match n.1 with
        | Some _ => r = TEE_SUCCESS /\ singleton_wamr_context t' = true
        | None => r = TEE_ERROR_GENERIC /\ singleton_wamr_context t' = singleton_wamr_context t
        end
    | _, _ => r = TEE_ERROR_GENERIC /\ singleton_wamr_context t' = singleton_wamr_context t /\
        wc_module_inst (runtime_ctx t') = wc_module_inst ctx
    end.
Proof.
  intros ctx args i0 l. unfold TA_InitializeWamrRuntime. rewrite stm_bind_eq.
  cbn [st_gets]. cbv zeta. rewrite stm_bind_eq. unfold env_call at 1. fold ctx args.
  cbn [ta_env set_ta_env]. fold i0. destruct i0 as [[] e0]; cbn [fst snd negb]; [|by eexists _, _].
  rewrite stm_bind_eq. unfold env_call at 1. cbn [ta_env set_ta_env snd].
  change (wasm_runtime_load (wasm_bytecode ctx) (wasm_bytecode_size ctx) e0) with l.
  destruct l as [[m|] e1]; rewrite stm_bind_eq; cbn [fst snd ctx_update st_modify]; [|by eexists _, _].
  rewrite stm_bind_eq. unfold env_do, st_modify at 1. cbv zeta.
  rewrite stm_bind_eq. unfold env_call at 1. cbn [ta_env set_ta_env set_ta_ctx runtime_ctx].
  change (256 * 1024) with 262144. change (64 * 1024) with 65536.
  destruct (wasm_runtime_instantiate m 262144 65536 _) as [[i|] e2];
    rewrite stm_bind_eq; cbn; by eexists _, _.
Qed.

(** hashing the bytecode. The result is that of the operation that fails,
    or GENERIC when the digest does not have the 32 bytes of SHA-256; the digest
    of the bytecode is in the context whenever the digest operation succeeded;
    and the operation's handle is given to [TEE_FreeOperation] on every branch,
    also when allocating the operation failed. *)
Theorem hash_result t operation_handle :
  let ctx := runtime_ctx t in
  let alloc := TEE_AllocateOperation operation_handle (ta_env t) in
  let d := TEE_DigestDoFinal alloc.1.2 (wasm_bytecode ctx) (wasm_bytecode_size ctx)
             RA_HASH_SIZE alloc.2 in
  length (wasm_bytecode_hash ctx) = 32%nat ->
  (d.1.1.1 = TEE_SUCCESS -> length d.1.1.2 = 32%nat) ->
  exists r t', TA_HashWasmBytecode operation_handle t = Done (r, t') /\
    r = (if decide (alloc.1.1 = TEE_SUCCESS) then
           if decide (d.1.1.1 = TEE_SUCCESS) then
             if decide (d.1.2 = 32) then TEE_SUCCESS else TEE_ERROR_GENERIC
           else d.1.1.1
         else alloc.1.1) /\
    wasm_bytecode_hash (runtime_ctx t') =
      (if decide (alloc.1.1 = TEE_SUCCESS /\ d.1.1.1 = TEE_SUCCESS) then d.1.1.2
       else wasm_bytecode_hash ctx) /\
    ta_env t' = TEE_FreeOperation alloc.1.2
      (if decide (alloc.1.1 = TEE_SUCCESS) then d.2 else alloc.2) /\
    g_chaincode_sess t' = g_chaincode_sess t.
Proof.
  intros ctx alloc d Hl Hd. unfold TA_HashWasmBytecode. cbv zeta.
  rewrite stm_bind_eq. unfold env_call at 1. fold alloc. cbv zeta.
  subst d. destruct alloc as [[ra hdl] e0]. cbn [fst snd] in *.
  destruct (decide (ra = TEE_SUCCESS)) as [->|Ha].
  2: { rewrite decide_True by done. cbn. eexists _, _. split_and!; try done.
       by rewrite decide_False by tauto. }
  rewrite decide_False by tauto. rewrite stm_bind_eq, stm_bind_eq.
  cbn [st_gets set_ta_env runtime_ctx]. fold ctx.
  rewrite stm_bind_eq. unfold env_call at 1. cbn [ta_env set_ta_env runtime_ctx].
  destruct (TEE_DigestDoFinal hdl _ _ RA_HASH_SIZE e0) as [[[res dg] n] e].
  cbn [fst snd] in *. destruct (decide (res = TEE_SUCCESS)) as [->|Hr].
  - rewrite stm_bind_eq, stm_bind_eq. unfold st_lift at 1. fold ctx.
    rewrite buf_write_ok by (rewrite ?Hl, ?Hd by done; lia). cbn.
    rewrite splice_all by (rewrite Hl, Hd by done; lia).
    change (RA_HASH_SIZE / 8) with 32. destruct (decide (n <> 32)).
    + rewrite (decide_False (P := n = 32)) by done. by eexists _, _.
    + rewrite (decide_True (P := n = 32)) by lia. by eexists _, _.
  - rewrite stm_bind_eq. cbn. rewrite decide_True by done.
    eexists _, _. split_and!; try done. by rewrite decide_False by tauto.
Qed.

Lemma on_instance_eq t i f ok h' :
  wc_module_inst (runtime_ctx t) = Some i -> f (Host (g_chaincode_sess t) (Some i)) = Done (ok, h') ->
  on_instance f t = Done (ok, set_ta_sess (h_sess h')
    (set_ta_ctx (set_module_inst (h_inst h') (runtime_ctx t)) t)).
Proof. intros Ei E. unfold on_instance. by rewrite Ei, E. Qed.

Lemma try_functions_none t i names :
  wc_module_inst (runtime_ctx t) = Some i ->
  (forall name, name ∈ names -> wasm_runtime_lookup_function i name = None) ->
  try_functions names t = Done (false, t).
Proof.
  intros Ei. induction names as [|name names IH]; intros Hn; [done|]. cbn [try_functions].
  rewrite stm_bind_eq. unfold lookup_function at 1. rewrite Ei, Hn by (by left).
  apply IH. intros name' Hin. apply Hn. by right.
Qed.

(** running a module by its entry point. When it exports [main], the result
    says whether [main] returned, and nothing else is run; when it exports none
    of [main], [_start], [_main] and [start], the result is that of WAMR's own
    entry point, except that an out-of-bounds trap counts as success. *)
Theorem execute_entry_point t i :
  wc_module_inst (runtime_ctx t) = Some i ->
  let h := Host (g_chaincode_sess t) (Some i) in
  match wasm_runtime_lookup_function i "main" with
  | Some fn => forall ok h', wasm_runtime_call_wasm fn h = Done (ok, h') ->
      exists t', TA_ExecuteWamrRuntime t =
        Done (if ok : bool then TEE_SUCCESS else TEE_ERROR_GENERIC, t') /\
        g_chaincode_sess t' = h_sess h' /\ wc_module_inst (runtime_ctx t') = h_inst h'
  | None =>
      (forall name, name ∈ ["_start"; "_main"; "start"]%string ->
       wasm_runtime_lookup_function i name = None) ->
      forall ok s' i', wasm_application_execute_main h = Done (ok, Host s' (Some i')) ->
      exists t', TA_ExecuteWamrRuntime t =
        Done (if ok || match wasm_runtime_get_exception i' with
                       | Some ex => strstr ex "out of bounds" | None => false end
              then TEE_SUCCESS else TEE_ERROR_GENERIC, t') /\
        g_chaincode_sess t' = s' /\ wc_module_inst (runtime_ctx t') = Some i'
  end.
Proof.
  intros Ei h. unfold TA_ExecuteWamrRuntime.
  assert (Hm : lookup_function "main" t = Done (wasm_runtime_lookup_function i "main", t)).
  { unfold lookup_function. by rewrite Ei. }
  rewrite stm_bind_eq, Hm. cbv iota beta.
  destruct (wasm_runtime_lookup_function i "main") as [fn|].
  - intros ok h' E. rewrite stm_bind_eq, (on_instance_eq _ _ _ _ _ Ei E). by eexists.
  - intros Hn ok s' i' E. rewrite stm_bind_eq, (try_functions_none t i) by done. cbv iota beta.
    rewrite stm_bind_eq, (on_instance_eq _ _ _ _ _ Ei E). cbv iota beta.
    destruct ok; [by eexists|]. rewrite stm_bind_eq. unfold get_exception at 1. cbn.
    destruct (wasm_runtime_get_exception i') as [ex|]; [|by eexists].
    destruct (strstr ex "out of bounds"); by eexists.
Qed.

(** tearing down unpublishes the context, and destroys the execution
    environment, the instance and the module that are there, in this order,
    before the runtime; the context keeps its (now dangling) module and
    instance, but no execution environment. *)
Theorem tear_down_result t :
  let ctx := runtime_ctx t in
  let e1 := if wc_exec_env ctx then wasm_runtime_destroy_exec_env (ta_env t) else ta_env t in
  let e2 := match wc_module_inst ctx with Some i => wasm_runtime_deinstantiate i e1 | None => e1 end in
  let e3 := match wc_module ctx with Some m => wasm_runtime_unload m e2 | None => e2 end in
  exists t', TA_TearDownWamrRuntime t = Done (tt, t') /\
    ta_env t' = wasm_runtime_destroy e3 /\ singleton_wamr_context t' = false /\
    wc_exec_env (runtime_ctx t') = false /\ wc_module_inst (runtime_ctx t') = wc_module_inst ctx /\
    wc_module (runtime_ctx t') = wc_module ctx /\ g_chaincode_sess t' = g_chaincode_sess t.
Proof.
  destruct t as [hs se [bc bs bh hb hz m i x ns nz] sg e]. cbv zeta. cbn [runtime_ctx ta_env wc_exec_env
    wc_module_inst wc_module].
  unfold TA_TearDownWamrRuntime. destruct x, i, m; eexists; (split; [reflexivity|]); done.
Qed.

(** a trap counts as success. When the guest's step fails with an exception
    that mentions "out of bounds" or "null pointer", [call_step] clears the
    exception and reports that the step succeeded, so the proxy is told
    whatever the session holds instead of RUNTIME_ERROR. *)
Theorem trap_counts_as_success `{!WamrInstLaws} t i name fn s' i' ex :
  wc_module_inst (runtime_ctx t) = Some i -> wc_exec_env (runtime_ctx t) = true ->
  wasm_runtime_get_exception i = None ->
  wasm_runtime_lookup_function i name = Some fn ->
  wasm_runtime_call_wasm fn (Host (g_chaincode_sess t) (Some i)) =
    Done (false, Host s' (Some i')) ->
  wasm_runtime_get_exception i' = Some ex ->
  strstr ex "out of bounds" = true \/ strstr ex "null pointer" = true ->
  exists t', call_step name t = Done (true, t') /\ g_chaincode_sess t' = s' /\
    wc_module_inst (runtime_ctx t') = Some (wasm_runtime_clear_exception i').
Proof.
  intros Ei Ex Hn Hf Hcall Hex Hstr.
  assert (Hl : lookup_function name t = Done (Some fn, t)) by (unfold lookup_function; by rewrite Ei, Hf).
  assert (Hg : get_exception t = Done (None, t)) by (unfold get_exception; by rewrite Ei, Hn).
  assert (Hc : clear_exception t = Done (tt, t)).
  { unfold clear_exception. rewrite Ei, clear_id by done. fold (set_ta_inst i t).
    by rewrite set_ta_inst_id. }
  unfold call_step. rewrite stm_bind_eq, Hl. cbv iota beta. rewrite stm_bind_eq, Hg. cbv iota beta.
  rewrite stm_bind_eq. cbn [mret stm_ret]. rewrite stm_bind_eq. cbn [st_gets].
  rewrite Ex, stm_bind_eq. cbn [mret stm_ret negb]. rewrite stm_bind_eq, Hc. cbv iota beta.
  rewrite stm_bind_eq, (on_instance_eq _ _ _ _ _ Ei Hcall). cbn [h_sess h_inst]. cbv iota beta.
  set (t1 := set_ta_sess s' _). rewrite stm_bind_eq.
  assert (Hg1 : get_exception t1 = Done (Some ex, t1)) by (unfold get_exception; cbn; by rewrite Hex).
  rewrite Hg1. cbv iota beta. rewrite stm_bind_eq, stm_bind_eq. unfold clear_exception at 1. cbn.
  replace (strstr ex "out of bounds" || strstr ex "null pointer" || false) with true
    by (destruct Hstr as [-> | ->]; by rewrite ?orb_true_r).
  rewrite stm_bind_eq, stm_bind_eq. cbn. rewrite Ex. by eexists.
Qed.
End runtime.

(** ** Witnesses *)

Lemma hash_result_witness :
  exists r t', TA_HashWasmBytecode tt ta_loaded = Done (r, t') /\
    r = TEE_SUCCESS /\
    wasm_bytecode_hash (runtime_ctx t') = pad 32 (take 32 coffee_code0) /\
    ta_env t' = tt /\ g_chaincode_sess t' = g_chaincode_sess ta_loaded.
Proof. apply (hash_result ta_loaded tt); reflexivity. Defined.

Lemma execute_entry_point_witness :
  exists t', TA_ExecuteWamrRuntime ta_waiting = Done (TEE_ERROR_GENERIC, t') /\
    g_chaincode_sess t' = Some session_waiting /\
    wc_module_inst (runtime_ctx t') = Some instance0.
Proof.
  refine (execute_entry_point ta_waiting instance0 eq_refl _ false _ _ eq_refl).
  intros name Hin. rewrite !elem_of_cons, elem_of_nil in Hin.
  by destruct Hin as [->|[->|[->|[]]]].
Defined.

Lemma trap_counts_as_success_witness :
  exists t', call_step "step_resume" (Ta 0 (Some session_waiting) (context_with instance_small) true tt)
      = Done (true, t') /\
    g_chaincode_sess t' = Some session_waiting /\
    wc_module_inst (runtime_ctx t') = Some instance_small.
Proof.
  apply (trap_counts_as_success
    (Ta 0 (Some session_waiting) (context_with instance_small) true tt)
    instance_small "step_resume" "step_resume"%string (Some session_waiting)
    (SimpleI (LinMem 512 ∅) (Some "Exception: out of bounds memory access"%string))
    "Exception: out of bounds memory access").
  - reflexivity.
  - reflexivity.
  - reflexivity.
  - reflexivity.
  - vm_compute. reflexivity.
  - reflexivity.
  - left. reflexivity.
Defined.

Lemma invoke_parameters_witness :
  TA_InvokeCommandEntryPoint 3 0 (Cmd ta0 (run_params [])) =
    Done (TEE_ERROR_BAD_PARAMETERS, Cmd ta0 (run_params [])).
Proof. apply (invoke_parameters 3 0 ta0 (run_params [])). discriminate. Defined.
