(* ===== verification/SystemProps.v ===== *)
(** * Properties of the proxy, the wrapper and the whole system *)
From Stdlib Require Import ZArith Lia Strings.Byte Strings.String.
From stdpp Require Import base tactics option list list_numbers gmap strings.
From S2P Require Import Prelude Mem Abi Session Natives Chaincode ChaincodeLogic.
From S2P Require Import ChaincodeSpec WamrTa Ta TaLogic CoffeeTa Concrete.
From S2P Require Import Proxy ProxyLogic Wrapper System SystemLogic ProxySafety SystemConcrete.

(** ** The system *)

Section system_props.
  Context `{SystemEnv} `{!SystemLaws} `{!LedgerEnv} `{!LedgerLaws} `{!WamrInstLaws}
    (L : layout) (code : list byte) (coffee : inst -> Prop) `{!CoffeeLaws L code coffee}.

(** C1: end to end, for a key that is not empty: an invocation of the chaincode
    through the peer's wrapper, the proxy and the trusted application is the
    transaction [coffee_transaction] on the ledger. The call succeeds, the
    wrapper returns its response, the write set holds its write and nothing
    else, three iterations of the proxy's loop are enough, and the service is
    ready for the next invocation. *)
Theorem invocation_refines (s : service) (st : stub) uuid aot f args fuel :
  serving s -> wrapper_of (sv_world s) = (st, None) ->
  inbox (sv_world s) = [InvocationRequest uuid f args aot] ->
  file_contents (bytes "./chaincode/" ++ aot) (sv_world s) = Some code ->
  arg_string args 0 <> [] -> (3 <= fuel)%nat ->
  let res := coffee_transaction (committed st) f args in
  exists s' st', TransactionInvocation fuel s = Done (OK, s') /\ serving s' /\
    wrapper_of (sv_world s') = (st', Some (Success res.2)) /\
    committed st' = committed st /\ written st' = apply_write res.1 (written st) /\
    file_contents (bytes "./chaincode/" ++ aot) (sv_world s') = Some code.
Proof. apply (invocation_transaction L code coffee). Qed.

(** a stored value of 256 bytes or more does not reach the chaincode: the
    proxy hands it over as an empty one, so [create] on its key does not answer
    "EXIST" but overwrites it, and responds "OK". *)
Theorem create_overwrites_large_value (s : service) (st : stub) uuid aot args v fuel :
  serving s -> wrapper_of (sv_world s) = (st, None) ->
  inbox (sv_world s) = [InvocationRequest uuid (bytes "create") args aot] ->
  file_contents (bytes "./chaincode/" ++ aot) (sv_world s) = Some code ->
  arg_string args 0 <> [] -> (3 <= fuel)%nat ->
  committed st !! arg_string args 0 = Some v -> 256 <= Z.of_nat (length v) ->
  exists s' st', TransactionInvocation fuel s = Done (OK, s') /\
    wrapper_of (sv_world s') = (st', Some (Success (bytes "OK"))) /\
    written st' = <[arg_string args 0 := arg_string args 1]> (written st).
Proof.
  intros Hs Hwr Hin Hfile Hk Hfuel Hv Hl.
  destruct (invocation_transaction L code coffee s st uuid aot (bytes "create") args fuel)
    as (s' & st' & E & _ & Hwr' & _ & Hw & _); [done..|].
  assert (Hval : ledger_value (committed st) (arg_string args 0) = []).
  { unfold ledger_value, seen, VAL_SIZE. rewrite Hv. cbn. by rewrite decide_False by lia. }
  unfold coffee_transaction in *. change (take 63 (cstr (bytes "create"))) with (bytes "create") in *.
  rewrite decide_True, Hval, decide_True in Hwr' by done.
  rewrite decide_True, Hval, decide_True in Hw by done. by exists s', st'.
Qed.
End system_props.

(** ** The proxy *)

(** C31: the arguments as the chaincode reads them: marshalling any function
    name and any arguments gives a [struct arguments] of 640 bytes whose row 0
    is the function and whose row [i] the [i]-th argument, as C strings cut to
    63 bytes; missing ones are empty, and arguments after the ninth are lost. *)
Theorem arguments_marshalled f args :
  exists b, marshal f args (replicate 640 x00) = Done b /\
    Z.of_nat (length b) = sizeof_arguments /\
    forall i, (i < 10)%nat ->
      cstr (argument_row b (Z.of_nat i)) = take 63 (cstr (default [] ((f :: args) !! i))).
Proof.
  exists (marshalled f args). split; [apply marshal_ok|].
  split; [by rewrite length_marshalled|]. intros i Hi. unfold marshalled.
  by rewrite (argument_row_ok _ _ _ (ten_lookup f args i Hi)), cstr_row.
Qed.

Section proxy_safety.
  Context `{SystemEnv} `{!ClientLaws} `{!WamrInstLaws} `{!TaLaws}.

(** C6: safety of the proxy against every module whose native calls are safe
    (a call of one that are not is undefined behaviour of the trusted
    application, found by C5), every file, every request, every answer of the
    wrapper and every failure of the allocator. A null pointer is dereferenced
    when the file is not empty and its memory could not be allocated; in every
    other case the invocation ends, or uses up the iterations it is given, and
    never accesses memory outside of its shared buffer nor dereferences a null
    pointer. *)
Theorem proxy_safe fuel aot f args s t :
  guests_safe -> tee_of (sv_world s) = Some t ->
  (forall x, g_chaincode_sess t = Some x -> session_wf x) ->
  Z.of_nat (length (default [] (output_buffer (sv_ctx s)))) = output_buffer_size (sv_ctx s) ->
  let out := execute_wasm_with_grpc_proxy fuel aot f args in
  match file_contents (bytes "./chaincode/" ++ aot) (sv_world s) with
  | None => out s = Done (false, s)
  | Some code =>
      if decide ((malloc (Z.of_nat (length code)) (sv_world s)).1 = None /\ code <> [])
      then out s = Fault NullDeref
      else st_post out s (fun e => e = OutOfFuel) (fun _ _ => True)
  end.
Proof. intros Hg. by apply execute_safely. Qed.
End proxy_safety.

Section proxy_failures.
  Context `{ProxyEnv}.

(** C33: the proxy gives up on the first failure of the stream and on a code it
    does not know: when a request cannot be written, or no answer can be read,
    the invocation fails at once, the chaincode is not resumed and the shared
    buffer is left as it was. *)
Theorem proxy_failure fuel (r : run) b m :
  tp_buffer (op2 (r_op r)) = Some b -> x00 ∈ drop 64 b ->
  let a := tp_value_a (op1 (r_op r)) in
  let w := sv_world (r_service r) in
  m = (if decide (a = GET_STATE_REQUEST) then GetStateRequest (cstr b)
       else PutStateRequest (cstr b) (cstr (drop 64 b))) ->
  let wr := stream_Write (Some m) w in
  let rd := stream_Read wr.2 in
  a <> INVOCATION_RESPONSE ->
  if decide (a = GET_STATE_REQUEST \/ a = PUT_STATE_REQUEST) then
    (wr.1 = false -> proxy_loop (S fuel) r = Done (false, with_world wr.2 r)) /\
    (wr.1 = true -> rd.1 = None -> proxy_loop (S fuel) r = Done (false, with_world rd.2 r))
  else proxy_loop (S fuel) r = Done (false, r).
Proof.
  intros Hb Hnul a w Hm wr rd Ha.
  assert (Hnul' : x00 ∈ b) by (rewrite <- (take_drop 64 b); apply elem_of_app; by right).
  assert (E0 : shared_read (fun b => c_string b kv_key_off) r = Done (cstr b, r)).
  { eapply shared_read_eq; [exact Hb|]. unfold c_string. change (Z.to_nat kv_key_off) with 0%nat.
    rewrite drop_0. by rewrite decide_True. }
  assert (E1 : shared_read (fun b => c_string b kv_value_off) r = Done (cstr (drop 64 b), r)).
  { eapply shared_read_eq; [exact Hb|]. unfold c_string. change (Z.to_nat kv_value_off) with 64%nat.
    by rewrite decide_True. }
  cbn [proxy_loop]. unfold proxy_step, forward_get, forward_put. rewrite !stm_bind_eq. cbn [st_get].
  fold a. rewrite (decide_False (P := a = INVOCATION_RESPONSE)) by done.
  assert (Ewr : on_service (world_call (stream_Write (Some m))) r = Done (wr.1, with_world wr.2 r)) by done.
  assert (Erd : on_service (world_call stream_Read) (with_world wr.2 r) = Done (rd.1, with_world rd.2 r))
    by done.
  destruct (decide (a = GET_STATE_REQUEST)) as [Hg|Hg]; subst m.
  - rewrite decide_True by tauto. rewrite stm_bind_eq, E0, stm_bind_eq, Ewr.
    split; [by intros ->|intros -> Hrd]. cbn [negb]. by rewrite stm_bind_eq, Erd, Hrd.
  - destruct (decide (a = PUT_STATE_REQUEST)) as [Hp|Hp]; [|by rewrite decide_False by tauto].
    rewrite decide_True by tauto. rewrite stm_bind_eq, E0, stm_bind_eq, E1, stm_bind_eq, Ewr.
    split; [by intros ->|intros -> Hrd]. cbn [negb]. by rewrite stm_bind_eq, Erd, Hrd.
Qed.
End proxy_failures.

(** ** The wrapper *)

Section wrapper_props.
  Context `{WrapperEnv} `{!ConnEnv} `{!ConnLaws} `{!LedgerEnv} `{!LedgerLaws}.

(** C32: the wrapper serves the requests of the proxy in order and one by one: to
    any sequence of requests on keys that are not empty, followed by a response,
    it has sent exactly one answer for each, every GET being answered from the
    committed ledger (not from the PUTs before it), every PUT being in the write
    set; and it returns the response. *)
Theorem wrapper_conversation qs x fuel t st c f a args :
  GetFunctionAndParameters st = (f, a :: args) -> f <> bytes "setup" -> args <> [] ->
  Forall is_request qs -> pending c = (Some <$> qs) ++ [Some (InvocationResponse x)] ->
  (length qs < fuel)%nat ->
  exists st' c', Invoke fuel t st c = Some (Success x, st', c', t) /\
    committed st' = committed st /\ written st' = foldl request_write (written st) qs /\
    sent c' = sent c ++ Some (InvocationRequest (Uuid t) a args f) ::
                (Some <$> (request_answer (committed st) <$> qs)).
Proof.
  intros Ep Hf Ha Hqs Hp Hfuel. unfold Invoke. rewrite Ep, decide_False by done.
  unfold invoke, invocation_request. rewrite Ep, decide_False by done.
  destruct (dial_law c) as (c1 & -> & Hp1 & Hs1).
  destruct (open_stream_law c1) as (c2 & -> & Hp2 & Hs2).
  destruct (send_law c2 (Some (InvocationRequest (Uuid t) a args f))) as (c3 & -> & Hp3 & Hs3).
  destruct (loop_conversation qs x fuel st c3 Hqs) as (st' & c' & -> & Hc & Hw & Hs & _);
    [by rewrite Hp3, Hp2, Hp1|done|].
  exists st', c'. split_and!; [done..|]. rewrite Hs, Hs3, Hs2, Hs1, <- app_assoc. done.
Qed.

(** The wrapper asks for an argument beyond the function's name, which its own
    error text calls enough. *)
Lemma invoke_needs_argument fuel t st c f a :
  GetFunctionAndParameters st = (f, [a]) -> f <> bytes "setup" ->
  Invoke fuel t st c = Some (Error invoke_args_error, st, c, t).
Proof.
  intros Ep Hf. unfold Invoke. rewrite Ep, decide_False by done.
  unfold invoke, invocation_request. by rewrite Ep.
Qed.
End wrapper_props.

(** The hexadecimal digits of a byte. *)
Definition hex_digit (v : Z) : byte := byte_of_Z (if decide (v < 10) then 48 + v else 87 + v).
Definition hex_encode (bs : list byte) : list byte :=
  mjoin ((fun b => [hex_digit (byte_to_Z b / 16); hex_digit (byte_to_Z b mod 16)]) <$> bs).

Lemma from_hex_digit v : 0 <= v < 16 -> from_hex (hex_digit v) = Some v.
Proof.
  intros Hv. unfold from_hex, hex_digit.
  destruct (decide (v < 10)); rewrite !byte_to_of_Z by lia.
  - rewrite decide_True by lia. f_equal. lia.
  - rewrite decide_False, decide_True by lia. f_equal. lia.
Qed.

Lemma hex_roundtrip bs : hex_DecodeString (hex_encode bs) = (bs, true).
Proof.
  induction bs as [|b bs IH]; [done|]. change (hex_encode (b :: bs)) with
    (hex_digit (byte_to_Z b / 16) :: hex_digit (byte_to_Z b mod 16) :: hex_encode bs).
  pose proof (byte_to_Z_bound b). cbn [hex_DecodeString].
  assert (Hq : 0 <= byte_to_Z b / 16 < 16)
    by (split; [apply Z.div_pos|apply Z.div_lt_upper_bound]; lia).
  pose proof (Z.mod_pos_bound (byte_to_Z b) 16 ltac:(lia)) as Hr.
  rewrite (from_hex_digit _ Hq), (from_hex_digit _ Hr), IH.
  cbn [fst snd]. rewrite <- Z.div_mod by lia. by rewrite byte_of_to_Z.
Qed.

Section setup.
  Context `{WrapperEnv}.

(** [setup] stores the identifier it is given: on the hexadecimal text of any
    bytes it succeeds and the wrapper's [Uuid] is those bytes; on another number
    of arguments it fails and keeps the old one. *)
Theorem setup_uuid t st args :
  (GetFunctionAndParameters st).2 = args ->
  (forall bs, args = [hex_encode bs] -> setup t st = (Success [], Wrapper bs)) /\
  (length args <> 1%nat -> setup t st = (Error setup_args_error, t)).
Proof.
  intros E. unfold setup. rewrite E. split.
  - intros bs ->. cbv zeta. by rewrite hex_roundtrip.
  - intros Hl. destruct args as [|a [|b args]]; done.
Qed.
End setup.

(** ** Witnesses *)

Definition ledger0 : gmap (list byte) (list byte) := <[bytes "alice" := bytes "30"]> ∅.

Lemma add_transaction :
  coffee_transaction ledger0 (bytes "add") [bytes "alice"; bytes "12"] =
    (Some (bytes "alice", bytes "42"), bytes "OK").
Proof. vm_compute. reflexivity. Qed.

(** [add alice 12] on a ledger where alice has 30. *)
Lemma invocation_refines_witness : exists s' st',
  TransactionInvocation 3 (service0 ledger0 (bytes "add") [bytes "alice"; bytes "12"]) =
    Done (OK, s') /\ serving s' /\
  wrapper_of (sv_world s') = (st', Some (Success (bytes "OK"))) /\
  committed st' = ledger0 /\ written st' = <[bytes "alice" := bytes "42"]> ∅ /\
  file_contents (bytes "./chaincode/" ++ bytes "coffee.wasm") (sv_world s') = Some coffee_code0.
Proof.
  pose proof (invocation_refines layout0 coffee_code0 _
    (service0 ledger0 (bytes "add") [bytes "alice"; bytes "12"])
    (stub0 ledger0) [] (bytes "coffee.wasm") (bytes "add") [bytes "alice"; bytes "12"] 3
    (service0_serving _ _ _) eq_refl eq_refl eq_refl ltac:(evaluate) (le_n 3)) as Hw.
  change (committed (stub0 ledger0)) with ledger0 in Hw. cbv zeta in Hw.
  rewrite add_transaction in Hw. exact Hw.
Defined.

(** [create] of a key whose stored value has 300 bytes. *)
Lemma create_overwrites_large_value_witness : exists s' st',
  TransactionInvocation 3 (service0 {[bytes "alice" := replicate 300 x31]} (bytes "create")
    [bytes "alice"; bytes "12"]) = Done (OK, s') /\
  wrapper_of (sv_world s') = (st', Some (Success (bytes "OK"))) /\
  written st' = <[bytes "alice" := bytes "12"]> ∅.
Proof.
  apply (create_overwrites_large_value layout0 coffee_code0 _
    (service0 {[bytes "alice" := replicate 300 x31]} (bytes "create") [bytes "alice"; bytes "12"])
    (stub0 {[bytes "alice" := replicate 300 x31]}) [] (bytes "coffee.wasm")
    [bytes "alice"; bytes "12"] (replicate 300 x31) 3 (service0_serving _ _ _) eq_refl eq_refl
    eq_refl ltac:(evaluate) (le_n 3)); [|by rewrite length_replicate].
  apply lookup_singleton_eq.
Defined.

Lemma proxy_safe_witness :
  st_post (execute_wasm_with_grpc_proxy 3 (bytes "coffee.wasm") (bytes "add")
      [bytes "alice"; bytes "12"])
    (service0 ledger0 (bytes "add") [bytes "alice"; bytes "12"])
    (fun e => e = OutOfFuel) (fun _ _ => True).
Proof.
  pose proof (proxy_safe 3 (bytes "coffee.wasm") (bytes "add") [bytes "alice"; bytes "12"]
    (service0 ledger0 (bytes "add") [bytes "alice"; bytes "12"]) ta0 SimpleGuestsSafe eq_refl) as Hp.
  assert (Ef : file_contents (bytes "./chaincode/" ++ bytes "coffee.wasm")
    (sv_world (service0 ledger0 (bytes "add") [bytes "alice"; bytes "12"])) = Some coffee_code0)
    by reflexivity.
  cbv zeta in Hp. rewrite Ef, decide_False in Hp by (by intros [? _]).
  apply Hp; [|reflexivity]. intros x [= <-]. apply session_zero_wf.
Defined.

(** A run whose reply asks for "alice", with a wrapper that has returned. *)
Definition run0 : @run SimpleProxy :=
  Run (Service (TeeCtx None 0 None 0)
         (SimpleWorld (Some ta0) (stub0 ledger0, Some (Success [])) []))
    (Operation resume_types (TParam 0 0 None 0) (TParam GET_STATE_REQUEST 0 None 0)
       (TParam 0 0 (Some (pad 640 (bytes "alice"))) 640) (TParam 0 0 None 0)).

Lemma proxy_failure_witness : proxy_loop 1 run0 = Done (false, run0).
Proof.
  refine ((proj1 (proxy_failure 0 run0 (pad 640 (bytes "alice"))
    (GetStateRequest (bytes "alice")) _ _ _ _)) _); try reflexivity; try done.
  evaluate.
Defined.

Definition requests0 : list proxy_oneof :=
  [GetStateRequest (bytes "alice"); PutStateRequest (bytes "alice") (bytes "42")].
Definition stub1 : @stub SimpleWrapper :=
  SimpleStub (bytes "coffee.wasm", [bytes "add"; bytes "alice"]) ledger0 ∅.
Definition conn1 : @conn SimpleWrapper :=
  SimpleConn ((Some <$> requests0) ++ [Some (InvocationResponse (bytes "OK"))]) [].

Lemma wrapper_conversation_witness : exists st' c',
  Invoke 3 (Wrapper []) stub1 conn1 = Some (Success (bytes "OK"), st', c', Wrapper []) /\
  committed st' = ledger0 /\ written st' = <[bytes "alice" := bytes "42"]> ∅ /\
  sent c' = [Some (InvocationRequest [] (bytes "add") [bytes "alice"] (bytes "coffee.wasm"));
             Some (GetStateResponse (bytes "30")); Some (PutStateResponse (bytes "OK"))].
Proof.
  assert (Ha : request_answer (committed stub1) <$> requests0 =
    [GetStateResponse (bytes "30"); PutStateResponse (bytes "OK")]) by (vm_compute; reflexivity).
  pose proof (wrapper_conversation requests0 (bytes "OK") 3 (Wrapper []) stub1 conn1
    (bytes "coffee.wasm") (bytes "add") [bytes "alice"] eq_refl ltac:(done) ltac:(done)
    ltac:(evaluate) eq_refl (le_n 3)) as Hw.
  rewrite Ha in Hw. exact Hw.
Defined.

Definition stub_setup : @stub SimpleWrapper := SimpleStub (bytes "setup", [bytes "0aff"]) ∅ ∅.

Lemma setup_uuid_witness : setup (Wrapper []) stub_setup = (Success [], Wrapper [x0a; xff]).
Proof.
  exact (proj1 (setup_uuid (Wrapper []) stub_setup [bytes "0aff"] eq_refl) [x0a; xff] eq_refl).
Defined.
