(* ===== verification/Bits.v ===== *)
(** * Machine integers of the protobuf headers ([google/protobuf/stubs/port.h])

    The casts of C++ not in [Prelude], checked [int] arithmetic and
    [GOOGLE_DCHECK], the bit counting class [Bits] with its portable
    implementations, the byte swaps and the little-endian images that [memcpy]
    moves between an integer and memory on the proxy's platform (aarch64 Linux,
    gcc, little-endian, built without [NDEBUG], so that assertions are live). *)
From Stdlib Require Import ZArith Lia Strings.Byte.
From stdpp Require Import base tactics option list list_numbers.
From S2P Require Import Prelude Mem.

(** ** Casts and checked operations *)

Definition u8 (z : Z) : Z := z mod 2 ^ 8.
Definition i8 (z : Z) : Z := let u := z mod 2 ^ 8 in if decide (u < 2 ^ 7) then u else u - 2 ^ 8.
Definition u16 (z : Z) : Z := z mod 2 ^ 16.
Definition i64 (z : Z) : Z :=
  let u := z mod 2 ^ 64 in if decide (u < 2 ^ 63) then u else u - 2 ^ 64.

#[export] Instance int_range_dec z : Decision (int_range z) := ltac:(unfold int_range; apply _).
Definition long_range (z : Z) : Prop := - 2 ^ 63 <= z < 2 ^ 63.
Definition ulong_range (z : Z) : Prop := 0 <= z < 2 ^ 64.

(** The result of an [int] operation: signed overflow is a fault. *)
Definition int_op (z : Z) : cres Z := if decide (int_range z) then Done z else Fault IntOverflow.

(** [GOOGLE_DCHECK], [GOOGLE_CHECK] and [assert]. *)
Definition dcheck (P : Prop) `{Decision P} : cres unit :=
  if decide P then Done tt else Fault AssertFailed.

Lemma int_op_ok z : int_range z -> int_op z = Done z.
Proof. intros. unfold int_op. by rewrite decide_True. Qed.

Lemma dcheck_ok (P : Prop) `{Decision P} : P -> dcheck P = Done tt.
Proof. intros. unfold dcheck. by rewrite decide_True. Qed.

Lemma dcheck_fail (P : Prop) `{Decision P} : ~ P -> dcheck P = Fault AssertFailed.
Proof. intros. unfold dcheck. by rewrite decide_False. Qed.

Lemma i32_signed z : int_range z -> i32 z = z.
Proof.
  unfold int_range, i32. intros.
  destruct (decide (0 <= z)).
  - rewrite Z.mod_small by lia. by rewrite decide_True by lia.
  - replace (z mod 2 ^ 32) with (z + 2 ^ 32).
    + rewrite decide_False by lia. lia.
    + apply Z.mod_unique_pos with (-1); lia.
Qed.

Lemma i64_signed z : long_range z -> i64 z = z.
Proof.
  unfold long_range, i64. intros.
  destruct (decide (0 <= z)).
  - rewrite Z.mod_small by lia. by rewrite decide_True by lia.
  - replace (z mod 2 ^ 64) with (z + 2 ^ 64).
    + rewrite decide_False by lia. lia.
    + apply Z.mod_unique_pos with (-1); lia.
Qed.

Lemma i64_range z : long_range (i64 z).
Proof.
  unfold i64, long_range. pose proof (Z.mod_pos_bound z (2 ^ 64) ltac:(lia)).
  case_decide; lia.
Qed.

(** A cast to unsigned and back is the identity on the signed range. *)
Lemma i32_u32 z : i32 (u32 z) = i32 z.
Proof. unfold i32, u32. by rewrite Z.mod_mod by lia. Qed.

Lemma i64_u64 z : i64 (u64 z) = i64 z.
Proof. unfold i64, u64. by rewrite Z.mod_mod by lia. Qed.

Lemma u32_i32 z : u32 (i32 z) = u32 z.
Proof.
  unfold i32, u32. case_decide; [by rewrite Z.mod_mod by lia|].
  rewrite Zminus_mod, Z.mod_mod, Z.mod_same, Z.sub_0_r by lia. by rewrite Z.mod_mod by lia.
Qed.

Lemma u64_i64 z : u64 (i64 z) = u64 z.
Proof.
  unfold i64, u64. case_decide; [by rewrite Z.mod_mod by lia|].
  rewrite Zminus_mod, Z.mod_mod, Z.mod_same, Z.sub_0_r by lia. by rewrite Z.mod_mod by lia.
Qed.

Lemma u32_u64 z : u32 (u64 z) = u32 z.
Proof.
  unfold u32, u64. apply Z.mod_mod_divide. by exists (2 ^ 32).
Qed.

Lemma byte_of_Z_mod z : byte_of_Z (z mod 256) = byte_of_Z z.
Proof. unfold byte_of_Z. by rewrite Z.mod_mod by lia. Qed.

Lemma byte_to_Z_of_Z z : byte_to_Z (byte_of_Z z) = z mod 256.
Proof.
  rewrite <- byte_of_Z_mod. apply byte_to_of_Z. apply Z.mod_pos_bound. lia.
Qed.

(** ** [class Bits] *)

(** The compiler's count of leading zeros of a [w]-bit word; C leaves its value
    at 0 undefined. *)
Definition builtin_clz (w n : Z) : Z := if decide (n <= 0) then w else w - 1 - Z.log2 n.

Definition Log2FloorNonZero (n : Z) : Z := Z.lxor 31 (builtin_clz 32 n).
Definition Log2FloorNonZero64 (n : Z) : Z := Z.lxor 63 (builtin_clz 64 n).

(** One round of the loop of the portable version: [i] counts down from 4. *)
Definition log2_round (st : Z * Z) (i : Z) : Z * Z :=
  let '(value, log) := st in
  let shift := Z.shiftl 1 i in
  let x := Z.shiftr value shift in
  if decide (x <> 0) then (x, log + shift) else (value, log).

Definition Log2FloorNonZero_Portable (n : Z) : cres Z :=
  if decide (n = 0) then Done (-1)
  else
    let '(value, log) := foldl log2_round (n, 0) [4; 3; 2; 1; 0] in
    dcheck (value = 1) ;; Done log.

Definition Log2FloorNonZero64_Portable (n : Z) : Z :=
  let topbits := u32 (Z.shiftr n 32) in
  if decide (topbits = 0) then Log2FloorNonZero (u32 n)
  else 32 + Log2FloorNonZero topbits.

(** [31 ^ k = 31 - k] on the 5-bit range, and the same on 6 bits. *)
Lemma lxor_ones_sub n k : 0 <= n -> 0 <= k < 2 ^ n -> Z.lxor (Z.ones n) k = Z.ones n - k.
Proof.
  intros Hn Hk.
  assert (Hl : Z.land (Z.ones n) k = k).
  { rewrite Z.land_comm, Z.land_ones by lia. by apply Z.mod_small. }
  rewrite Z.sub_nocarry_ldiff.
  - apply Z.bits_inj'. intros i Hi. rewrite Z.lxor_spec, Z.ldiff_spec.
    rewrite <- Hl, Z.land_spec.
    by destruct (Z.testbit (Z.ones n) i), (Z.testbit k i).
  - apply Z.bits_inj'. intros i Hi. rewrite Z.ldiff_spec, Z.bits_0, <- Hl, Z.land_spec.
    by destruct (Z.testbit (Z.ones n) i), (Z.testbit k i).
Qed.

Lemma log2_bound n w : 0 < n < 2 ^ w -> 0 <= w -> 0 <= Z.log2 n < w.
Proof. intros H Hw. split; [apply Z.log2_nonneg|]. apply Z.log2_lt_pow2; lia. Qed.

Lemma Log2FloorNonZero_log2 n : 0 < n < 2 ^ 32 -> Log2FloorNonZero n = Z.log2 n.
Proof.
  intros Hn. pose proof (log2_bound n 32 Hn ltac:(lia)).
  unfold Log2FloorNonZero, builtin_clz. rewrite decide_False by lia.
  change 31 with (Z.ones 5). rewrite lxor_ones_sub; [|lia|].
  - change (Z.ones 5) with 31. lia.
  - change (2 ^ 5) with 32. lia.
Qed.

Lemma Log2FloorNonZero64_log2 n : 0 < n < 2 ^ 64 -> Log2FloorNonZero64 n = Z.log2 n.
Proof.
  intros Hn. pose proof (log2_bound n 64 Hn ltac:(lia)).
  unfold Log2FloorNonZero64, builtin_clz. rewrite decide_False by lia.
  change 63 with (Z.ones 6). rewrite lxor_ones_sub; [|lia|].
  - change (Z.ones 6) with 63. lia.
  - change (2 ^ 6) with 64. lia.
Qed.

(** A round halves the width of the value that is left and keeps the sum. *)
Lemma log2_round_spec value log i n :
  0 <= i -> 0 < value < 2 ^ (2 ^ (i + 1)) -> Z.log2 value + log = Z.log2 n ->
  let '(value', log') := log2_round (value, log) i in
  0 < value' < 2 ^ (2 ^ i) /\ Z.log2 value' + log' = Z.log2 n.
Proof.
  intros Hi Hv Hs. unfold log2_round. rewrite Z.shiftl_1_l.
  assert (Hp : 0 < 2 ^ i) by (apply Z.pow_pos_nonneg; lia).
  rewrite Z.shiftr_div_pow2 by lia.
  assert (Hd : 2 ^ (2 ^ (i + 1)) = 2 ^ (2 ^ i) * 2 ^ (2 ^ i)).
  { rewrite <- Z.pow_add_r by lia. f_equal. rewrite Z.pow_add_r by lia. lia. }
  assert (Hb : 0 < 2 ^ (2 ^ i)) by (apply Z.pow_pos_nonneg; lia).
  case_decide as Hx.
  - assert (0 <= value / 2 ^ 2 ^ i) by (apply Z.div_pos; lia).
    split; [split; [lia|apply Z.div_lt_upper_bound; lia]|].
    rewrite <- Z.shiftr_div_pow2 by lia.
    rewrite Z.log2_shiftr by lia.
    assert (2 ^ i <= Z.log2 value); [|lia].
    rewrite <- Z.log2_le_pow2 by lia.
    destruct (decide (2 ^ 2 ^ i <= value)); [done|].
    rewrite Z.div_small in Hx by lia. lia.
  - split; [|done]. split; [lia|].
    destruct (decide (value < 2 ^ 2 ^ i)); [done|].
    assert (1 <= value / 2 ^ 2 ^ i); [|lia].
    apply Z.div_le_lower_bound; lia.
Qed.

Lemma Log2FloorNonZero_Portable_log2 n :
  0 < n < 2 ^ 32 -> Log2FloorNonZero_Portable n = Done (Z.log2 n).
Proof.
  intros Hn. unfold Log2FloorNonZero_Portable. rewrite decide_False by lia.
  cbn [foldl].
  pose proof (log2_round_spec n 0 4 n ltac:(lia)) as H4.
  destruct (log2_round (n, 0) 4) as [v4 l4]. destruct H4 as [B4 S4]; [simpl; lia|lia|].
  pose proof (log2_round_spec v4 l4 3 n ltac:(lia)) as H3.
  destruct (log2_round (v4, l4) 3) as [v3 l3]. destruct H3 as [B3 S3]; [done..|].
  pose proof (log2_round_spec v3 l3 2 n ltac:(lia)) as H2.
  destruct (log2_round (v3, l3) 2) as [v2 l2]. destruct H2 as [B2 S2]; [done..|].
  pose proof (log2_round_spec v2 l2 1 n ltac:(lia)) as H1.
  destruct (log2_round (v2, l2) 1) as [v1 l1]. destruct H1 as [B1 S1]; [done..|].
  pose proof (log2_round_spec v1 l1 0 n ltac:(lia)) as H0.
  destruct (log2_round (v1, l1) 0) as [v0 l0]. destruct H0 as [B0 S0]; [done..|].
  cbn in B0. assert (v0 = 1) as -> by lia. cbn in S0.
  rewrite dcheck_ok by done. cbn. f_equal. lia.
Qed.

Lemma Log2FloorNonZero64_Portable_log2 n :
  0 < n < 2 ^ 64 -> Log2FloorNonZero64_Portable n = Z.log2 n.
Proof.
  intros Hn. unfold Log2FloorNonZero64_Portable.
  rewrite Z.shiftr_div_pow2 by lia.
  assert (0 <= n / 2 ^ 32 < 2 ^ 32).
  { split; [apply Z.div_pos; lia|apply Z.div_lt_upper_bound; lia]. }
  rewrite u32_small by lia. case_decide as Ht.
  - assert (n < 2 ^ 32) by (apply Z.div_small_iff in Ht; lia).
    rewrite u32_small by lia. apply Log2FloorNonZero_log2. lia.
  - rewrite Log2FloorNonZero_log2 by lia.
    rewrite <- Z.shiftr_div_pow2, Z.log2_shiftr by lia.
    assert (32 <= Z.log2 n); [|lia].
    rewrite <- Z.log2_le_pow2 by lia.
    destruct (decide (2 ^ 32 <= n)); [done|]. rewrite Z.div_small in Ht; lia.
Qed.

(** ** Little-endian images

    [memcpy(target, &value, n)] on a little-endian machine stores
    [le_split n value]; [memcpy(&value, buffer, n)] makes [value] the
    [le_combine] of the bytes. *)

Fixpoint le_split (n : nat) (v : Z) : list byte :=
  match n with
  | O => []
  | S n => byte_of_Z v :: le_split n (Z.shiftr v 8)
  end.

Fixpoint le_combine (bs : list byte) : Z :=
  match bs with
  | [] => 0
  | b :: bs => byte_to_Z b + 256 * le_combine bs
  end.

Lemma length_le_split n v : length (le_split n v) = n.
Proof. revert v. induction n as [|n IH]; intros v; simpl; by rewrite ?IH. Qed.

Lemma le_combine_bound bs : 0 <= le_combine bs < 256 ^ Z.of_nat (length bs).
Proof.
  induction bs as [|b bs IH]; [simpl; lia|].
  cbn [le_combine length]. pose proof (byte_to_Z_bound b).
  rewrite Nat2Z.inj_succ, Z.pow_succ_r by lia. lia.
Qed.

Lemma le_combine_split n v : le_combine (le_split n v) = v mod 256 ^ Z.of_nat n.
Proof.
  revert v. induction n as [|n IH]; intros v.
  - simpl. by rewrite Z.mod_1_r.
  - cbn [le_split le_combine]. rewrite IH, byte_to_Z_of_Z, Z.shiftr_div_pow2 by lia.
    change (2 ^ 8) with 256. rewrite Nat2Z.inj_succ, Z.pow_succ_r by lia.
    rewrite Z.rem_mul_r; lia.
Qed.

Lemma le_split_combine bs : le_split (length bs) (le_combine bs) = bs.
Proof.
  induction bs as [|b bs IH]; [done|]. cbn [length le_combine le_split].
  pose proof (byte_to_Z_bound b).
  rewrite Z.shiftr_div_pow2 by lia. change (2 ^ 8) with 256.
  rewrite Z.mul_comm, Z.div_add, Z.div_small, Z.add_0_l, IH by lia. f_equal.
  apply (inj byte_to_Z). rewrite byte_to_Z_of_Z, Z.mod_add, Z.mod_small by lia. done.
Qed.

Lemma le_combine_split_u32 v : le_combine (le_split 4 v) = u32 v.
Proof. apply (le_combine_split 4). Qed.

Lemma le_combine_split_u64 v : le_combine (le_split 8 v) = u64 v.
Proof. apply (le_combine_split 8). Qed.

Lemma le_split_mod n v w : v mod 256 ^ Z.of_nat n = w mod 256 ^ Z.of_nat n -> le_split n v = le_split n w.
Proof.
  intros H. rewrite <- !le_combine_split in H.
  rewrite <- (le_split_combine (le_split n v)), <- (le_split_combine (le_split n w)), H.
  by rewrite !length_le_split.
Qed.
