(* ===== verification/Varint.v ===== *)
(** * Variable-length integers on byte arrays ([google/protobuf/io/coded_stream.h])

    The static functions of the wire encoding that work on a raw array: a
    [const uint8*] or a [uint8*] is a [list byte] and an offset into it, and an
    access outside of the array is a fault.  [varint] is the reference encoding:
    the base-128 digits of a number, least significant first, with the high bit
    set on all but the last. *)
From Stdlib Require Import ZArith Lia Strings.Byte.
From stdpp Require Import base tactics option list list_numbers.
From S2P Require Import Prelude Mem Bits.

(** ** Bytes of an array *)

Definition byte_at (m : list byte) (p : Z) : cres Z :=
  if decide (0 <= p) then
    match m !! Z.to_nat p with Some b => Done (byte_to_Z b) | None => Fault OutOfBounds end
  else Fault OutOfBounds.

Definition set_byte (m : list byte) (p v : Z) : cres (list byte) := buf_write m p [byte_of_Z v].

(** ** Reading *)

(** The loop of [VarintParse<size, T>] for a [w]-bit unsigned [T]; the first
    argument is [size - i]. *)
Fixpoint VarintParse_loop (left_ : nat) (w i : Z) (m : list byte) (p res extra : Z)
    : cres (option Z * Z) :=
  match left_ with
  | O => Done (None, 0)
  | S left_ =>
      b ← byte_at m (p + i);
      let res := (res + Z.shiftl b (i * 7) mod 2 ^ w) mod 2 ^ w in
      let j := i + 1 in
      if decide (b < 128) then Done (Some (p + j), (res - extra) mod 2 ^ w)
      else VarintParse_loop left_ w j m p res ((extra + u64 (Z.shiftl 128 (i * 7))) mod 2 ^ w)
  end.

(** The pointer past the integer, or none for [nullptr], and [*out]. *)
Definition VarintParse (size : nat) (w : Z) (m : list byte) (p : Z) : cres (option Z * Z) :=
  VarintParse_loop size w 0 m p 0 0.

Definition Parse32 (m : list byte) (p : Z) : cres (option Z * Z) := VarintParse 5 32 m p.
Definition Parse64 (m : list byte) (p : Z) : cres (option Z * Z) := VarintParse 10 64 m p.

(** The loop of [ReadSize]: [inl] is an early return, [inr] the state after it. *)
Fixpoint ReadSize_loop (left_ : nat) (i : Z) (m : list byte) (p res extra : Z)
    : cres ((Z * Z) + (Z * Z)) :=
  match left_ with
  | O => Done (inr (res, extra))
  | S left_ =>
      b ← byte_at m (p + i);
      let res := i32 (u32 res + u32 (Z.shiftl b (i * 7))) in
      let j := i + 1 in
      if decide (b < 128) then out ← int_op (res - extra); Done (inl (p + j, out))
      else ReadSize_loop left_ j m p res (i32 (u64 extra + u64 (Z.shiftl 128 (i * 7))))
  end.

(** [None] is the [nullptr] of a size that is not an [int]; [*out] is not
    written then. *)
Definition ReadSize (m : list byte) (p : Z) : cres (option (Z * Z)) :=
  r ← ReadSize_loop 4 0 m p 0 0;
  match r with
  | inl r => Done (Some r)
  | inr (res, extra) =>
      b ← byte_at m (p + 4);
      if decide (8 <= b) then Done None
      else
        let res := i32 (u32 res + u32 (Z.shiftl b (4 * 7))) in
        out ← int_op (res - extra);
        Done (Some (p + 5, out))
  end.

(** The pointer past the integer, and the integer. *)
Definition ReadLittleEndian32FromArray (m : list byte) (buffer : Z) : cres (Z * Z) :=
  bs ← buf_read m buffer 4; Done (buffer + 4, le_combine bs).
Definition ReadLittleEndian64FromArray (m : list byte) (buffer : Z) : cres (Z * Z) :=
  bs ← buf_read m buffer 8; Done (buffer + 8, le_combine bs).

(** The pointer past the expected tag, or none for [NULL]. *)
Definition ExpectTagFromArray (m : list byte) (buffer expected : Z) : cres (option Z) :=
  if decide (expected < Z.shiftl 1 7) then
    b0 ← byte_at m buffer;
    if decide (b0 = expected) then Done (Some (buffer + 1)) else Done None
  else if decide (expected < Z.shiftl 1 14) then
    b0 ← byte_at m buffer;
    if decide (b0 = u8 (Z.lor expected 128)) then
      b1 ← byte_at m (buffer + 1);
      if decide (b1 = u8 (Z.shiftr expected 7)) then Done (Some (buffer + 2)) else Done None
    else Done None
  else Done None.

(** ** Writing *)

(** The [while] loop of the two varint writers. *)
Fixpoint WriteVarint_loop (fuel : nat) (value : Z) (m : list byte) (target : Z)
    : cres (list byte * Z) :=
  if decide (128 <= value) then
    match fuel with
    | O => Fault OutOfFuel
    | S fuel =>
        m ← set_byte m target (Z.lor value 128);
        WriteVarint_loop fuel (Z.shiftr value 7) m (target + 1)
    end
  else m ← set_byte m target value; Done (m, target + 1).

(** Four rounds are enough for a [uint32], nine for a [uint64]
    ([WriteVarint_loop_spec]). *)
Definition WriteVarint32ToArray (value : Z) (m : list byte) (target : Z) : cres (list byte * Z) :=
  WriteVarint_loop 4 value m target.
Definition WriteVarint64ToArray (value : Z) (m : list byte) (target : Z) : cres (list byte * Z) :=
  WriteVarint_loop 9 value m target.

Definition WriteVarint32SignExtendedToArray (value : Z) (m : list byte) (target : Z)
    : cres (list byte * Z) :=
  WriteVarint64ToArray (u64 value) m target.

Definition WriteLittleEndian32ToArray (value : Z) (m : list byte) (target : Z)
    : cres (list byte * Z) :=
  m ← buf_write m target (le_split 4 value); Done (m, target + 4).
Definition WriteLittleEndian64ToArray (value : Z) (m : list byte) (target : Z)
    : cres (list byte * Z) :=
  m ← buf_write m target (le_split 8 value); Done (m, target + 8).

Definition WriteTagToArray (value : Z) (m : list byte) (target : Z) : cres (list byte * Z) :=
  WriteVarint32ToArray value m target.

(** ** Sizes *)

Definition VarintSize32 (value : Z) : Z :=
  let log2value := Log2FloorNonZero (Z.lor value 1) in (log2value * 9 + 73) / 64.
Definition VarintSize64 (value : Z) : Z :=
  let log2value := Log2FloorNonZero64 (Z.lor value 1) in (log2value * 9 + 73) / 64.
Definition VarintSize32SignExtended (value : Z) : Z :=
  if decide (value < 0) then 10 else VarintSize32 (u32 value).

Definition StaticVarintSize32 (Value : Z) : Z :=
  if decide (Value < Z.shiftl 1 7) then 1
  else if decide (Value < Z.shiftl 1 14) then 2
  else if decide (Value < Z.shiftl 1 21) then 3
  else if decide (Value < Z.shiftl 1 28) then 4
  else 5.

(** ** The reference encoding *)

Fixpoint varint_digits (n : nat) (v : Z) : list byte :=
  match n with
  | O => [byte_of_Z v]
  | S n => if decide (v < 128) then [byte_of_Z v]
           else byte_of_Z (128 + v mod 128) :: varint_digits n (v / 128)
  end.

(** Ten digits hold 70 bits. *)
Definition varint (v : Z) : list byte := varint_digits 9 v.
#[global] Arguments varint : simpl never.

Lemma varint_digits_enough n m v :
  0 <= v < 128 ^ (Z.of_nat n + 1) -> (n <= m)%nat -> varint_digits n v = varint_digits m v.
Proof.
  revert m v. induction n as [|n IH]; intros m v Hv Hm.
  - simpl. destruct m; simpl; [done|]. by rewrite decide_True by (simpl in Hv; lia).
  - destruct m as [|m]; [lia|]. simpl. case_decide; [done|]. f_equal. apply IH; [|lia].
    rewrite Nat2Z.inj_succ, <- Z.add_1_l, <- Z.add_assoc, Z.pow_add_r in Hv by lia.
    split; [apply Z.div_pos; lia|apply Z.div_lt_upper_bound; lia].
Qed.

Lemma varint_small v : 0 <= v < 128 -> varint v = [byte_of_Z v].
Proof. intros. unfold varint. simpl. by rewrite decide_True by lia. Qed.

Lemma varint_big v : 128 <= v < 2 ^ 70 -> varint v = byte_of_Z (128 + v mod 128) :: varint (v / 128).
Proof.
  intros Hv. unfold varint. cbn [varint_digits]. rewrite decide_False by lia. f_equal.
  change (varint_digits 8 (v / 128) = varint_digits 9 (v / 128)).
  apply varint_digits_enough; [|lia].
  change (128 ^ (Z.of_nat 8 + 1)) with (2 ^ 63).
  split; [apply Z.div_pos; lia|apply Z.div_lt_upper_bound; lia].
Qed.

Lemma length_varint_pos v : (0 < length (varint v))%nat.
Proof. unfold varint. simpl. case_decide; simpl; lia. Qed.

Lemma length_varint_digits n v : (length (varint_digits n v) <= n + 1)%nat.
Proof.
  revert v. induction n as [|n IH]; intros v; simpl; [lia|].
  case_decide; simpl; [lia|]. specialize (IH (v / 128)). lia.
Qed.

Lemma length_varint_u32 v : 0 <= v < 2 ^ 32 -> (length (varint v) <= 5)%nat.
Proof.
  intros. unfold varint. rewrite <- (varint_digits_enough 4); [apply length_varint_digits| |lia].
  simpl. lia.
Qed.

Lemma length_varint v : (length (varint v) <= 10)%nat.
Proof. apply length_varint_digits. Qed.

(** The bytes of a varint: continuation bytes are at least 128. *)
Lemma varint_head v bs : 0 <= v < 2 ^ 70 -> varint v = bs ->
  exists b bs', bs = b :: bs' /\ (if decide (v < 128) then byte_to_Z b = v /\ bs' = []
                                 else byte_to_Z b = 128 + v mod 128 /\ bs' = varint (v / 128)).
Proof.
  intros Hv <-. case_decide.
  - rewrite varint_small by lia. do 2 eexists. split; [done|].
    rewrite byte_to_of_Z by lia. done.
  - rewrite varint_big by lia. do 2 eexists. split; [done|].
    pose proof (Z.mod_pos_bound v 128 ltac:(lia)). rewrite byte_to_of_Z by lia. done.
Qed.

(** ** Segments of an array *)

(** [at_pos m p bs]: the bytes [bs] are in [m] from offset [p]. *)
Definition at_pos (m : list byte) (p : Z) (bs : list byte) : Prop :=
  exists l r, m = l ++ bs ++ r /\ Z.of_nat (length l) = p.

Lemma at_pos_cons m p b bs :
  at_pos m p (b :: bs) -> byte_at m p = Done (byte_to_Z b) /\ at_pos m (p + 1) bs.
Proof.
  intros (l & r & -> & <-). split.
  - unfold byte_at. rewrite decide_True by lia. rewrite Nat2Z.id.
    by rewrite lookup_app_r, Nat.sub_diag by lia.
  - exists (l ++ [b]), r. rewrite <- app_assoc. split; [done|]. rewrite length_app. simpl. lia.
Qed.

Lemma at_pos_app m p bs bs' :
  at_pos m p (bs ++ bs') <-> at_pos m p bs /\ at_pos m (p + Z.of_nat (length bs)) bs'.
Proof.
  split.
  - intros (l & r & -> & <-). split.
    + exists l, (bs' ++ r). by rewrite <- app_assoc.
    + exists (l ++ bs), r. rewrite length_app, <- !app_assoc. split; [done|lia].
  - intros [(l & r & -> & <-) (l' & r' & H & Hl)].
    exists l, r'. split; [|done].
    rewrite app_assoc in H. apply app_inj_1 in H as [Ha Hr].
    + subst l' r. by rewrite <- app_assoc.
    + rewrite length_app. lia.
Qed.

Lemma at_pos_nonneg m p bs : at_pos m p bs -> 0 <= p.
Proof. intros (l & r & -> & <-). lia. Qed.

Lemma at_pos_bound m p bs : at_pos m p bs -> p + Z.of_nat (length bs) <= Z.of_nat (length m).
Proof. intros (l & r & -> & <-). rewrite !length_app. lia. Qed.

Lemma buf_read_at_pos m p bs n :
  at_pos m p bs -> n = Z.of_nat (length bs) -> buf_read m p n = Done bs.
Proof.
  intros (l & r & -> & <-) ->. rewrite buf_read_ok; rewrite ?length_app; try lia.
  f_equal. rewrite !Nat2Z.id, drop_app_length, take_app_length. done.
Qed.

Lemma at_pos_splice m p bs :
  0 <= p -> p + Z.of_nat (length bs) <= Z.of_nat (length m) ->
  at_pos (splice (Z.to_nat p) bs m) p bs.
Proof.
  intros Hp Hl. unfold splice. do 2 eexists. split; [done|].
  rewrite length_take. lia.
Qed.

Lemma set_byte_ok m p v :
  0 <= p < Z.of_nat (length m) -> set_byte m p v = Done (splice (Z.to_nat p) [byte_of_Z v] m).
Proof. intros. unfold set_byte. apply buf_write_ok; simpl; lia. Qed.

(** ** The writers store the reference encoding *)

Lemma byte_of_lor_128 v : 0 <= v -> byte_of_Z (Z.lor v 128) = byte_of_Z (128 + v mod 128).
Proof.
  intros Hv. rewrite <- byte_of_Z_mod. f_equal.
  pose proof (Z.mod_pos_bound v 128 ltac:(lia)).
  assert (Z.lor v 128 mod 2 ^ 8 = 128 + v mod 128) as E; [|done].
  rewrite <- Z.land_ones, Z.land_lor_distr_l, !Z.land_ones by lia.
  change (128 mod 2 ^ 8) with (Z.shiftl 1 7).
  replace (v mod 2 ^ 8) with (v mod 2 ^ 7 + Z.shiftl (Z.shiftr v 7 mod 2) 7).
  2:{ rewrite Z.shiftl_mul_pow2, Z.shiftr_div_pow2 by lia.
      change (2 ^ 8) with (2 ^ 7 * 2). rewrite Z.rem_mul_r by lia. lia. }
  assert (Hd : forall a, 0 <= a < 128 -> forall c, Z.land a (Z.shiftl c 7) = 0).
  { intros a Ha c. apply Z.bits_inj'. intros i Hi. rewrite Z.land_spec, Z.bits_0.
    destruct (decide (i < 7)).
    - rewrite (Z.shiftl_spec_low c) by lia. apply andb_false_r.
    - rewrite <- (Z.mod_small a (2 ^ 7)) by (change (2 ^ 7) with 128; lia).
      by rewrite Z.mod_pow2_bits_high by lia. }
  change (2 ^ 7) with 128.
  rewrite (Z.add_nocarry_lxor (v mod 128)), Z.lxor_lor by (apply Hd; lia).
  rewrite <- Z.lor_assoc, <- Z.shiftl_lor.
  assert (Z.lor (Z.shiftr v 7 mod 2) 1 = 1) as ->.
  { pose proof (Z.mod_pos_bound (Z.shiftr v 7) 2 ltac:(lia)).
    assert (Z.shiftr v 7 mod 2 = 0 \/ Z.shiftr v 7 mod 2 = 1) as [->| ->] by lia; done. }
  rewrite <- Z.lxor_lor, <- Z.add_nocarry_lxor by (apply Hd; lia).
  change (Z.shiftl 1 7) with 128. lia.
Qed.

Lemma WriteVarint_loop_spec fuel v m t :
  0 <= v < 128 ^ (Z.of_nat fuel + 1) -> v < 2 ^ 70 ->
  0 <= t -> t + Z.of_nat (length (varint v)) <= Z.of_nat (length m) ->
  WriteVarint_loop fuel v m t
  = Done (splice (Z.to_nat t) (varint v) m, t + Z.of_nat (length (varint v))).
Proof.
  revert v m t. induction fuel as [|fuel IH]; intros v m t Hv H70 Ht Hl; simpl.
  - simpl in Hv. rewrite decide_False by lia. rewrite varint_small in * by lia.
    simpl in Hl. rewrite set_byte_ok by lia. done.
  - case_decide as Hc.
    + rewrite varint_big in * by lia. cbn [length] in *.
      rewrite set_byte_ok by lia. cbn -[WriteVarint_loop splice].
      rewrite byte_of_lor_128 by lia. rewrite Z.shiftr_div_pow2 by lia.
      change (2 ^ 7) with 128.
      rewrite IH.
      * rewrite (splice_cons _ _ (varint (v / 128))) by (cbn [length]; lia).
        f_equal. f_equal; [f_equal; lia|lia].
      * rewrite Nat2Z.inj_succ, <- Z.add_1_l, <- Z.add_assoc, Z.pow_add_r in Hv by lia.
        split; [apply Z.div_pos; lia|apply Z.div_lt_upper_bound; lia].
      * apply Z.div_lt_upper_bound; lia.
      * lia.
      * rewrite length_splice by (simpl; lia). lia.
    + rewrite varint_small in * by lia. simpl in Hl. rewrite set_byte_ok by lia. done.
Qed.

(** ** The readers give the encoded number back *)

(** One round of the parse loop keeps, modulo [2 ^ w], the number that the
    accumulators and the bytes to come stand for. *)
Lemma parse_step M B i res v extra :
  0 < M -> 0 <= i -> (M | 2 ^ 64) -> 128 <= v -> B = 128 + v mod 128 ->
  ((res + Z.shiftl B (i * 7) mod M) mod M + v / 128 * 128 ^ (i + 1)
    - (extra + u64 (Z.shiftl 128 (i * 7))) mod M) mod M
  = (res + v * 128 ^ i - extra) mod M.
Proof.
  intros HM Hi [k Hk] Hv ->. unfold u64. rewrite !Z.shiftl_mul_pow2 by lia.
  assert (E : 2 ^ (i * 7) = 128 ^ i) by (rewrite Z.mul_comm, Z.pow_mul_r by lia; done).
  rewrite !E. set (P := 128 ^ i).
  rewrite (Z.mod_eq (_ * P) M), (Z.mod_eq (res + _) M), (Z.mod_eq (extra + _) M) by lia.
  rewrite (Z.mod_eq (128 * P) (2 ^ 64)) by lia. rewrite !Hk.
  match goal with |- (res + (_ - M * ?a) - M * ?b + _ - (extra + (_ - _ * ?c) - M * ?d)) mod M = _ =>
    rewrite <- (Z_mod_plus_full (res + v * P - extra) (d + k * c - a - b) M) end.
  f_equal. rewrite Z.pow_add_r by lia. fold P.
  rewrite (Z.mod_eq v 128) by lia. change (128 ^ 1) with 128. ring.
Qed.

Lemma VarintParse_loop_spec n w i m p v res extra :
  0 <= i -> 0 < w <= 64 -> 0 <= v < 2 ^ 70 ->
  at_pos m (p + i) (varint v) -> (length (varint v) <= n)%nat ->
  VarintParse_loop n w i m p res extra
  = Done (Some (p + i + Z.of_nat (length (varint v))), (res + v * 128 ^ i - extra) mod 2 ^ w).
Proof.
  revert i v res extra. induction n as [|n IH]; intros i v res extra Hi Hw Hv Ha Hn.
  { pose proof (length_varint_pos v). lia. }
  cbn [VarintParse_loop].
  destruct (varint_head v _ Hv eq_refl) as (b & bs & E & Hb). rewrite E in *.
  apply at_pos_cons in Ha as [Hat Ha]. rewrite Hat. cbn [mbind cres_bind].
  case_decide as Hc; destruct Hb as [Hb ->].
  - rewrite Hb, decide_True by done. f_equal. f_equal; [f_equal; simpl; lia|].
    rewrite Zminus_mod_idemp_l, Z.shiftl_mul_pow2 by lia.
    rewrite (Z.mul_comm i 7), Z.pow_mul_r by lia. change (2 ^ 7) with 128.
    by rewrite <- Zminus_mod_idemp_l, Zplus_mod_idemp_r, Zminus_mod_idemp_l.
  - pose proof (Z.mod_pos_bound v 128 ltac:(lia)). rewrite decide_False by lia.
    rewrite (IH _ (v / 128)).
    + cbn [length]. f_equal. f_equal; [f_equal; lia|].
      apply parse_step; try lia.
      exists (2 ^ (64 - w)). rewrite <- Z.pow_add_r by lia. f_equal. lia.
    + lia.
    + done.
    + split; [apply Z.div_pos; lia|apply Z.div_lt_upper_bound; lia].
    + by replace (p + (i + 1)) with (p + i + 1) by lia.
    + simpl in Hn. lia.
Qed.

Lemma VarintParse_varint size w m p v :
  0 < w <= 64 -> 0 <= v < 2 ^ 70 -> at_pos m p (varint v) -> (length (varint v) <= size)%nat ->
  VarintParse size w m p = Done (Some (p + Z.of_nat (length (varint v))), v mod 2 ^ w).
Proof.
  intros Hw Hv Ha Hn. unfold VarintParse.
  rewrite (VarintParse_loop_spec size w 0 m p v); [|lia|done|done|by rewrite Z.add_0_r|done].
  by rewrite Z.add_0_r, Z.mul_1_r, Z.sub_0_r, Z.add_0_l.
Qed.

(** Parsing only moves forwards. *)
Lemma VarintParse_loop_forward n w i m p res extra q v :
  0 <= i -> VarintParse_loop n w i m p res extra = Done (Some q, v) -> p + i < q.
Proof.
  revert i res extra. induction n as [|n IH]; intros i res extra Hi Hm; [done|].
  cbn [VarintParse_loop] in Hm. destruct (byte_at m (p + i)) as [b|]; [|done].
  cbn [mbind cres_bind] in Hm. case_decide.
  - injection Hm as <- _. lia.
  - apply IH in Hm; lia.
Qed.

Lemma VarintParse_forward size w m p q v : VarintParse size w m p = Done (Some q, v) -> p < q.
Proof. intros Hm. pose proof (VarintParse_loop_forward size w 0 m p 0 0 q v ltac:(lia) Hm). lia. Qed.

(** Bytes that never end the integer make the parser give up with [nullptr]. *)
Lemma VarintParse_loop_unterminated n w i m p bs res extra :
  at_pos m (p + i) bs -> length bs = n -> Forall (fun b => 128 <= byte_to_Z b) bs ->
  VarintParse_loop n w i m p res extra = Done (None, 0).
Proof.
  revert i bs res extra. induction n as [|n IH]; intros i bs res extra Ha Hn Hf; [done|].
  destruct bs as [|b bs]; [done|]. apply at_pos_cons in Ha as [Hat Ha].
  apply Forall_cons in Hf as [Hb Hf]. cbn [VarintParse_loop]. rewrite Hat. cbn [mbind cres_bind].
  rewrite decide_False by lia. apply (IH _ bs); [|by simpl in Hn; lia|done].
  by replace (p + (i + 1)) with (p + i + 1) by lia.
Qed.

(** ** [ReadSize]

    The four first rounds: what is left over in [extra] is a geometric sum. *)
Lemma ReadSize_loop_spec n i m p v res extra :
  0 <= i -> i + Z.of_nat n = 4 -> (i = 0 \/ 1 <= v) -> 0 <= v < 2 ^ 70 ->
  127 * extra = 128 ^ (i + 1) - 128 -> 0 <= res - extra < 128 ^ i ->
  at_pos m (p + i) (varint v) ->
  ReadSize_loop n i m p res extra
  = if decide (v < 128 ^ Z.of_nat n)
    then Done (inl (p + i + Z.of_nat (length (varint v)), res - extra + v * 128 ^ i))
    else Done (inr (270549120 + (res - extra) + v mod 128 ^ Z.of_nat n * 128 ^ i, 270549120)).
Proof.
  revert i v res extra. induction n as [|n IH]; intros i v res extra Hi Hn Hv1 Hv Hx Hr Ha.
  { assert (i = 4) as -> by lia. change (128 ^ (4 + 1)) with 34359738368 in Hx.
    cbn [ReadSize_loop]. change (128 ^ Z.of_nat 0) with 1. rewrite decide_False by lia.
    rewrite Z.mod_1_r. repeat f_equal; lia. }
  cbn [ReadSize_loop].
  destruct (varint_head v _ Hv eq_refl) as (b & bs & E & Hb). rewrite E in *.
  apply at_pos_cons in Ha as [Hat Ha]. rewrite Hat. cbn [mbind cres_bind].
  assert (HP : 128 ^ (i + 1) = 128 * 128 ^ i) by (rewrite Z.pow_add_r by lia; lia).
  assert (HP3 : 1 <= 128 ^ i <= 2 ^ 21).
  { split; [assert (0 < 128 ^ i) by (apply Z.pow_pos_nonneg; lia); lia|].
    change (2 ^ 21) with (128 ^ 3). apply Z.pow_le_mono_r; lia. }
  pose proof (byte_to_Z_bound b) as Hbb.
  rewrite !Z.shiftl_mul_pow2 by lia. rewrite (Z.mul_comm i 7), Z.pow_mul_r by lia.
  change (2 ^ 7) with 128. set (P := 128 ^ i) in *. set (B := byte_to_Z b) in *.
  assert (0 <= B * P < 256 * P) by nia.
  rewrite (u32_small res), (u32_small (B * P)), (u64_small extra), (u64_small (128 * P)) by lia.
  rewrite !i32_small by lia.
  case_decide as Hc; destruct Hb as [Hb ->].
  - rewrite Hb in *. rewrite decide_True by done. rewrite int_op_ok by (unfold int_range; nia).
    cbn [mbind cres_bind]. rewrite decide_True.
    2:{ rewrite Nat2Z.inj_succ, Z.pow_succ_r by lia.
        assert (0 < 128 ^ Z.of_nat n) by (apply Z.pow_pos_nonneg; lia). nia. }
    f_equal. f_equal. cbn [length]. f_equal; lia.
  - pose proof (Z.mod_pos_bound v 128 ltac:(lia)). rewrite decide_False by lia.
    pose proof (Z.div_mod v 128 ltac:(lia)) as Hdm.
    assert (Hq : 1 <= v / 128) by (apply Z.div_le_lower_bound; lia).
    rewrite (IH _ (v / 128)); try lia.
    + rewrite HP, Nat2Z.inj_succ, Z.pow_succ_r by lia.
      rewrite Hb. cbn [length]. set (q := v / 128) in *. set (r := v mod 128) in *.
      assert (v mod (128 * 128 ^ Z.of_nat n) = r + 128 * (q mod 128 ^ Z.of_nat n)) as ->.
      { apply Z.rem_mul_r; [lia|]. apply Z.pow_pos_nonneg; lia. }
      set (N := 128 ^ Z.of_nat n) in *. rewrite Hdm.
      destruct (decide (q < N)); [rewrite decide_True by lia|rewrite decide_False by lia].
      * f_equal. f_equal. f_equal; [lia|ring].
      * f_equal. f_equal. f_equal. ring.
    + rewrite (Z.pow_add_r _ (i + 1)) by lia. rewrite HP. lia.
    + rewrite HP, Hb. nia.
    + by replace (p + (i + 1)) with (p + i + 1) by lia.
Qed.

Lemma varint_nth v k : 0 <= v < 2 ^ 70 ->
  (k < length (varint v))%nat ->
  drop k (varint v) = varint (v / 128 ^ Z.of_nat k).
Proof.
  revert v. induction k as [|k IH]; intros v Hv Hk.
  - change (128 ^ Z.of_nat 0) with 1. by rewrite Z.div_1_r, drop_0.
  - destruct (varint_head v _ Hv eq_refl) as (b & bs & E & Hb). rewrite E in *.
    case_decide; destruct Hb as [_ ->]; cbn [length] in Hk; [lia|].
    cbn [drop]. rewrite IH.
    + rewrite Nat2Z.inj_succ, Z.pow_succ_r by lia.
      rewrite Z.div_div; [done|lia|apply Z.pow_pos_nonneg; lia].
    + split; [apply Z.div_pos; lia|apply Z.div_lt_upper_bound; lia].
    + lia.
Qed.

(** How many bytes a number takes. *)
Lemma length_varint_gt v k : 0 <= v < 2 ^ 70 -> 128 ^ Z.of_nat k <= v -> (k < length (varint v))%nat.
Proof.
  revert v. induction k as [|k IH]; intros v Hv Hk; [apply length_varint_pos|].
  rewrite Nat2Z.inj_succ, Z.pow_succ_r in Hk by lia.
  assert (0 < 128 ^ Z.of_nat k) by (apply Z.pow_pos_nonneg; lia).
  rewrite varint_big by lia. cbn [length].
  assert (k < length (varint (v / 128)))%nat; [|lia].
  apply IH.
  - split; [apply Z.div_pos; lia|apply Z.div_lt_upper_bound; lia].
  - apply Z.div_le_lower_bound; lia.
Qed.

Lemma length_varint_le v k :
  0 <= v < 128 ^ (Z.of_nat k + 1) -> (k <= 9)%nat -> (length (varint v) <= k + 1)%nat.
Proof.
  intros Hv Hk. unfold varint. rewrite <- (varint_digits_enough k) by lia.
  apply length_varint_digits.
Qed.

(** The sizes that [ReadSize] accepts without overflow. *)
Definition size_limit : Z := 2 ^ 31 - 270549120.

(** A size the code reads: below [size_limit] the size comes back; from there
    to [INT_MAX] the final subtraction overflows; larger numbers are refused. *)
Lemma ReadSize_varint m p v :
  0 <= v < 2 ^ 64 -> at_pos m p (varint v) ->
  ReadSize m p = if decide (v < size_limit) then Done (Some (p + Z.of_nat (length (varint v)), v))
                 else if decide (v < 2 ^ 31) then Fault IntOverflow
                 else Done None.
Proof.
  intros Hv Ha. unfold ReadSize, size_limit.
  rewrite (ReadSize_loop_spec 4 0 m p v); [|lia|lia|by left|lia|done|done|by rewrite Z.add_0_r].
  change (128 ^ Z.of_nat 4) with (2 ^ 28). rewrite !Z.mul_1_r, Z.add_0_r.
  destruct (decide (v < 2 ^ 28)).
  { cbn [mbind cres_bind]. rewrite decide_True by lia. f_equal. }
  cbn [mbind cres_bind].
  assert (H4 : (4 < length (varint v))%nat).
  { apply length_varint_gt; [lia|]. change (128 ^ Z.of_nat 4) with (2 ^ 28). lia. }
  pose proof (varint_nth v 4 ltac:(lia) H4) as Hd.
  rewrite <- (take_drop 4 (varint v)), at_pos_app, Hd in Ha. destruct Ha as [_ Ha].
  rewrite length_take, Nat.min_l in Ha by lia. change (Z.of_nat 4) with 4 in *.
  change (128 ^ 4) with (2 ^ 28) in *.
  assert (Hq : 1 <= v / 2 ^ 28 < 2 ^ 70).
  { split; [apply Z.div_le_lower_bound; lia|apply Z.div_lt_upper_bound; lia]. }
  destruct (varint_head (v / 2 ^ 28) _ ltac:(lia) eq_refl) as (b & bs & E & Hb).
  rewrite E in Ha. apply at_pos_cons in Ha as [-> _]. cbn [mbind cres_bind].
  pose proof (Z.div_mod v (2 ^ 28) ltac:(lia)) as Hdm.
  pose proof (Z.mod_pos_bound v (2 ^ 28) ltac:(lia)) as Hm.
  set (q := v / 2 ^ 28) in *. set (r := v mod 2 ^ 28) in *.
  pose proof (Z.mod_pos_bound q 128 ltac:(lia)).
  destruct (decide (8 <= byte_to_Z b)) as [H8|H8].
  { rewrite !decide_False; [done| |]; destruct (decide (q < 128)); lia. }
  destruct (decide (q < 128)) as [Hq128|]; [|lia]. destruct Hb as [Hb ->]. rewrite Hb in *.
  assert (Hl : length (varint v) = 5%nat).
  { rewrite <- (take_drop 4 (varint v)), length_app, Hd, E, length_take. cbn [length]. lia. }
  rewrite Hl. change (4 * 7) with 28. rewrite Z.shiftl_mul_pow2 by lia.
  rewrite (u32_small (270549120 + _)), (u32_small (q * 2 ^ 28)) by lia.
  destruct (decide (v < 2 ^ 31 - 270549120)).
  - rewrite i32_small by lia. rewrite int_op_ok by (unfold int_range; lia).
    cbn [mbind cres_bind]. repeat f_equal; lia.
  - rewrite decide_True by lia. unfold i32. rewrite Z.mod_small by lia.
    rewrite decide_False by lia. unfold int_op, int_range. rewrite decide_False by lia. done.
Qed.

(** ** Sizes *)

Lemma length_varint_log2 v : 0 <= v < 2 ^ 64 ->
  Z.of_nat (length (varint v)) = Z.log2 (Z.lor v 1) / 7 + 1.
Proof.
  intros Hv. 
  assert (G : forall n v, 0 <= v < 128 ^ (Z.of_nat n + 1) ->
            Z.of_nat (length (varint_digits n v)) = Z.log2 (Z.lor v 1) / 7 + 1).
  { clear. induction n as [|n IH]; intros v Hv; cbn [varint_digits].
    - simpl in Hv. assert (Z.log2 (Z.lor v 1) < 7).
      { rewrite Z.log2_lor by lia. change (Z.log2 1) with 0.
        destruct (decide (v = 0)) as [->|]; [done|]. apply Z.max_lub_lt; [|lia].
        apply Z.log2_lt_pow2; lia. }
      rewrite Z.div_small; [done|]. split; [apply Z.log2_nonneg|done].
    - case_decide as Hc.
      + assert (Z.log2 (Z.lor v 1) < 7).
        { rewrite Z.log2_lor by lia. change (Z.log2 1) with 0.
          destruct (decide (v = 0)) as [->|]; [done|]. apply Z.max_lub_lt; [|lia].
          apply Z.log2_lt_pow2; lia. }
        rewrite Z.div_small; [done|]. split; [apply Z.log2_nonneg|done].
      + cbn [length]. rewrite Nat2Z.inj_succ, IH.
        * rewrite !Z.log2_lor by (try lia; apply Z.div_pos; lia). change (Z.log2 1) with 0.
          rewrite !Z.max_l by apply Z.log2_nonneg.
          change 128 with (2 ^ 7). rewrite <- Z.shiftr_div_pow2, Z.log2_shiftr by lia.
          assert (7 <= Z.log2 v) by (rewrite <- Z.log2_le_pow2 by lia; lia).
          rewrite Z.max_r by lia. replace (Z.log2 v) with (Z.log2 v - 7 + 1 * 7) at 2 by lia. rewrite Z.div_add by lia. lia.
        * rewrite Nat2Z.inj_succ, <- Z.add_1_l, <- Z.add_assoc, Z.pow_add_r in Hv by lia.
          split; [apply Z.div_pos; lia|apply Z.div_lt_upper_bound; lia]. }
  apply G. change (128 ^ (Z.of_nat 9 + 1)) with (2 ^ 70). lia.
Qed.

(** The multiplication that replaces the division by 7. *)
Lemma seventh_by_mul l : 0 <= l < 64 -> (l * 9 + 73) / 64 = l / 7 + 1.
Proof.
  intros Hl.
  assert (H : Forall (fun l => (l * 9 + 73) / 64 = l / 7 + 1) (seqZ 0 64)) by
    (vm_compute; repeat constructor).
  rewrite Forall_forall in H. apply H. apply elem_of_seqZ. lia.
Qed.

Lemma lor_1_bound v w : 0 < w -> 0 <= v < 2 ^ w -> 0 < Z.lor v 1 < 2 ^ w.
Proof.
  intros Hw Hv. split.
  - assert (Z.lor v 1 <> 0) by (intros [_ ?]%Z.lor_eq_0_iff; lia).
    assert (0 <= Z.lor v 1) by (apply Z.lor_nonneg; lia). lia.
  - apply Z.log2_lt_cancel. rewrite Z.log2_lor, Z.log2_pow2 by lia. change (Z.log2 1) with 0.
    destruct (decide (v = 0)) as [->|]; [simpl; lia|]. apply Z.max_lub_lt; [|lia].
    apply Z.log2_lt_pow2; lia.
Qed.

Lemma VarintSize32_length v : 0 <= v < 2 ^ 32 -> VarintSize32 v = Z.of_nat (length (varint v)).
Proof.
  intros Hv. unfold VarintSize32. pose proof (lor_1_bound v 32 ltac:(lia) Hv).
  rewrite Log2FloorNonZero_log2 by lia.
  pose proof (log2_bound _ 32 H ltac:(lia)).
  rewrite seventh_by_mul by lia. rewrite length_varint_log2 by lia. done.
Qed.

Lemma VarintSize64_length v : 0 <= v < 2 ^ 64 -> VarintSize64 v = Z.of_nat (length (varint v)).
Proof.
  intros Hv. unfold VarintSize64. pose proof (lor_1_bound v 64 ltac:(lia) Hv).
  rewrite Log2FloorNonZero64_log2 by lia.
  pose proof (log2_bound _ 64 H ltac:(lia)).
  rewrite seventh_by_mul by lia. rewrite length_varint_log2 by lia. done.
Qed.

Lemma VarintSize32SignExtended_length v : int_range v ->
  VarintSize32SignExtended v = Z.of_nat (length (varint (u64 v))).
Proof.
  unfold int_range, VarintSize32SignExtended. intros Hv. case_decide.
  - assert (E : u64 v = v + 2 ^ 64) by (symmetry; apply Z.mod_unique_pos with (-1); lia).
    rewrite E. pose proof (length_varint (v + 2 ^ 64)).
    assert (9 < length (varint (v + 2 ^ 64)))%nat; [|lia].
    apply length_varint_gt; [lia|]. change (128 ^ Z.of_nat 9) with (2 ^ 63). lia.
  - rewrite u32_small, u64_small by lia. apply VarintSize32_length. lia.
Qed.

Lemma StaticVarintSize32_length v : 0 <= v < 2 ^ 32 ->
  StaticVarintSize32 v = Z.of_nat (length (varint v)).
Proof.
  intros Hv. unfold StaticVarintSize32.
  assert (G : forall k, 1 <= k <= 5 -> 128 ^ (k - 1) <= v \/ k = 1 -> v < 128 ^ k ->
            k = Z.of_nat (length (varint v))).
  { intros k Hk Hlo Hhi.
    pose proof (length_varint_le v (Z.to_nat (k - 1))) as Hle.
    rewrite Z2Nat.id in Hle by lia. replace (k - 1 + 1) with k in Hle by lia.
    specialize (Hle ltac:(lia) ltac:(lia)).
    pose proof (length_varint_pos v). destruct Hlo as [Hlo| ->]; [|lia].
    pose proof (length_varint_gt v (Z.to_nat (k - 1))) as Hgt.
    rewrite Z2Nat.id in Hgt by lia. specialize (Hgt ltac:(lia) Hlo). lia. }
  change (Z.shiftl 1 7) with (128 ^ 1). change (Z.shiftl 1 14) with (128 ^ 2).
  change (Z.shiftl 1 21) with (128 ^ 3). change (Z.shiftl 1 28) with (128 ^ 4).
  repeat case_decide; apply G; try lia; simpl; lia.
Qed.

(** ** Array writers and readers, in terms of the reference encoding *)

(** What a writer [w] of the bytes [bs] does with room for them. *)
Definition writes (w : list byte -> Z -> cres (list byte * Z)) (bs : list byte) : Prop :=
  forall m t, 0 <= t -> t + Z.of_nat (length bs) <= Z.of_nat (length m) ->
    w m t = Done (splice (Z.to_nat t) bs m, t + Z.of_nat (length bs)).

Lemma WriteVarint32ToArray_writes v : 0 <= v < 2 ^ 32 -> writes (WriteVarint32ToArray v) (varint v).
Proof. intros Hv m t Ht Hm. apply WriteVarint_loop_spec; simpl; lia. Qed.

Lemma WriteVarint64ToArray_writes v : 0 <= v < 2 ^ 64 -> writes (WriteVarint64ToArray v) (varint v).
Proof. intros Hv m t Ht Hm. apply WriteVarint_loop_spec; simpl; lia. Qed.

Lemma WriteVarint32SignExtendedToArray_writes v :
  writes (WriteVarint32SignExtendedToArray v) (varint (u64 v)).
Proof. apply WriteVarint64ToArray_writes, u64_range. Qed.

Lemma WriteLittleEndian32ToArray_writes v : writes (WriteLittleEndian32ToArray v) (le_split 4 v).
Proof.
  intros m t Ht Hm. unfold WriteLittleEndian32ToArray. rewrite length_le_split in *.
  by rewrite buf_write_ok by (rewrite ?length_le_split; lia).
Qed.

Lemma WriteLittleEndian64ToArray_writes v : writes (WriteLittleEndian64ToArray v) (le_split 8 v).
Proof.
  intros m t Ht Hm. unfold WriteLittleEndian64ToArray. rewrite length_le_split in *.
  by rewrite buf_write_ok by (rewrite ?length_le_split; lia).
Qed.

Lemma splice_splice {A} (off : nat) (bs bs' m : list A) :
  (off + length (bs ++ bs') <= length m)%nat ->
  splice (off + length bs) bs' (splice off bs m) = splice off (bs ++ bs') m.
Proof.
  rewrite length_app. intros H. apply list_eq. intros i.
  rewrite (lookup_splice (off + length bs)) by (rewrite length_splice by lia; lia).
  rewrite !lookup_splice by (rewrite ?length_app; lia). rewrite length_app.
  repeat case_decide; try lia; try done.
  - rewrite lookup_app_r by lia. f_equal. lia.
  - by rewrite lookup_app_l by lia.
Qed.

(** Two writers in a row. *)
Lemma writes_seq w1 w2 bs1 bs2 : writes w1 bs1 -> writes w2 bs2 ->
  writes (fun m t => '(m, t) ← w1 m t; w2 m t) (bs1 ++ bs2).
Proof.
  intros H1 H2 m t Ht Hm. rewrite length_app in *. rewrite H1 by lia.
  cbn [mbind cres_bind]. rewrite H2 by (rewrite ?length_splice; lia).
  f_equal. f_equal; [|lia].
  rewrite Z2Nat.inj_add, Nat2Z.id by lia. apply splice_splice. rewrite length_app. lia.
Qed.

Lemma writes_nil : writes (fun m t => Done (m, t)) [].
Proof. intros m t Ht Hm. rewrite splice_nil. simpl. f_equal. f_equal. lia. Qed.

Lemma ReadLittleEndian32FromArray_at m p v :
  at_pos m p (le_split 4 v) -> ReadLittleEndian32FromArray m p = Done (p + 4, u32 v).
Proof.
  intros Ha. unfold ReadLittleEndian32FromArray.
  rewrite (buf_read_at_pos _ _ _ _ Ha) by (by rewrite length_le_split).
  by rewrite <- le_combine_split_u32.
Qed.

Lemma ReadLittleEndian64FromArray_at m p v :
  at_pos m p (le_split 8 v) -> ReadLittleEndian64FromArray m p = Done (p + 8, u64 v).
Proof.
  intros Ha. unfold ReadLittleEndian64FromArray.
  rewrite (buf_read_at_pos _ _ _ _ Ha) by (by rewrite length_le_split).
  by rewrite <- le_combine_split_u64.
Qed.

(** The encoding of the tags that [ExpectTag] looks for. *)
Lemma varint_two_bytes v : 128 <= v < 2 ^ 14 ->
  varint v = [byte_of_Z (Z.lor v 128); byte_of_Z (Z.shiftr v 7)].
Proof.
  intros Hv. rewrite varint_big by lia. rewrite byte_of_lor_128 by lia. f_equal.
  rewrite Z.shiftr_div_pow2 by lia. change (2 ^ 7) with 128.
  rewrite varint_small; [done|]. split; [apply Z.div_pos; lia|apply Z.div_lt_upper_bound; lia].
Qed.

Lemma ExpectTagFromArray_found m p tag :
  0 <= tag < 2 ^ 14 -> at_pos m p (varint tag) ->
  ExpectTagFromArray m p tag = Done (Some (p + Z.of_nat (length (varint tag)))).
Proof.
  intros Ht Ha. unfold ExpectTagFromArray.
  change (Z.shiftl 1 7) with 128. change (Z.shiftl 1 14) with (2 ^ 14).
  case_decide.
  - rewrite varint_small in * by lia. apply at_pos_cons in Ha as [-> _].
    cbn [mbind cres_bind]. rewrite byte_to_of_Z by lia. by rewrite decide_True by done.
  - rewrite varint_two_bytes in * by lia. rewrite decide_True by lia.
    apply at_pos_cons in Ha as [-> Ha]. apply at_pos_cons in Ha as [Hb _].
    cbn [mbind cres_bind]. rewrite byte_to_Z_of_Z. rewrite decide_True by done.
    rewrite Hb. cbn [mbind cres_bind]. rewrite byte_to_Z_of_Z. by rewrite decide_True by done.
Qed.

(** What it accepts is the encoding of the tag. *)
Lemma byte_at_inv m p b : byte_at m p = Done b ->
  0 <= p /\ exists c, m !! Z.to_nat p = Some c /\ byte_to_Z c = b.
Proof.
  unfold byte_at. case_decide; [|done]. destruct (m !! Z.to_nat p) eqn:E; intros ?; simplify_eq.
  eauto.
Qed.

Lemma at_pos_lookup m p c : 0 <= p -> m !! Z.to_nat p = Some c -> at_pos m p [c].
Proof.
  intros Hp Hc. exists (take (Z.to_nat p) m), (drop (S (Z.to_nat p)) m). split.
  - symmetry. by apply take_drop_middle.
  - rewrite length_take. apply lookup_lt_Some in Hc. lia.
Qed.

Lemma ExpectTagFromArray_sound m p tag p' :
  0 <= tag < 2 ^ 32 -> ExpectTagFromArray m p tag = Done (Some p') ->
  at_pos m p (varint tag) /\ p' = p + Z.of_nat (length (varint tag)).
Proof.
  intros Ht. unfold ExpectTagFromArray.
  change (Z.shiftl 1 7) with 128. change (Z.shiftl 1 14) with (2 ^ 14).
  case_decide; [|case_decide; [|done]].
  - intros (b & (Hp & c & Hc & Hb)%byte_at_inv & H1)%cres_bind_Done.
    case_decide; [|done]. simplify_eq. rewrite varint_small by lia.
    split; [|done]. rewrite byte_of_to_Z. by apply at_pos_lookup.
  - intros (b & (Hp & c & Hc & Hb)%byte_at_inv & H1)%cres_bind_Done.
    case_decide as E0; [|done].
    apply cres_bind_Done in H1 as (b1 & (Hp1 & c1 & Hc1 & Hb1)%byte_at_inv & H1).
    case_decide as E1; [|done]. injection H1 as <-. rewrite varint_two_bytes by lia. split; [|done].
    unfold u8 in E0, E1. change (2 ^ 8) with 256 in *.
    rewrite <- (byte_of_Z_mod (Z.lor _ _)), <- (byte_of_Z_mod (Z.shiftr _ _)), <- E0, <- E1, <- Hb, <- Hb1.
    rewrite !byte_of_to_Z. change [c; c1] with ([c] ++ [c1]).
    apply at_pos_app. split; by apply at_pos_lookup.
Qed.
