(* ===== verification/CodedStream.v ===== *)
(** * Coded streams ([google/protobuf/io/coded_stream.h])

    The inline methods of [CodedInputStream] and [CodedOutputStream].  The state
    of a stream is a record with the class's fields; the array that [buffer_]
    points into is the field [buffer_array] (of the output stream:
    [out_array]), and a pointer into it is an offset.  The methods that the
    header only declares (their bodies are in coded_stream.cc, in the static
    library the proxy links) are the operations of the classes
    [InputFallbacks] and [OutputFallbacks]; what their declarations document is
    stated in [CodedStreamLaws]. *)
From Stdlib Require Import ZArith Lia Strings.Byte.
From stdpp Require Import base tactics option list list_numbers.
From S2P Require Import Prelude Mem Bits Varint.

(** ** The input stream *)

Record CodedInputStream := CIS {
  buffer_array : list byte;
  buffer_ : Z;
  buffer_end_ : Z;
  input_ : option Z;
  total_bytes_read_ : Z;
  overflow_bytes_ : Z;
  last_tag_ : Z;
  legitimate_message_end_ : bool;
  aliasing_enabled_ : bool;
  current_limit_ : Z;
  buffer_size_after_limit_ : Z;
  total_bytes_limit_ : Z;
  recursion_budget_ : Z;
  recursion_limit_ : Z;
  extension_pool_ : option Z;
  extension_factory_ : option Z;
}.

Definition INT_MAX : Z := 2 ^ 31 - 1.
Definition kDefaultTotalBytesLimit : Z := INT_MAX.

Implicit Types s : CodedInputStream.

Definition set_buffer (p : Z) s : CodedInputStream :=
  CIS (buffer_array s) p (buffer_end_ s) (input_ s) (total_bytes_read_ s) (overflow_bytes_ s)
    (last_tag_ s) (legitimate_message_end_ s) (aliasing_enabled_ s) (current_limit_ s)
    (buffer_size_after_limit_ s) (total_bytes_limit_ s) (recursion_budget_ s) (recursion_limit_ s)
    (extension_pool_ s) (extension_factory_ s).
Definition set_last_tag (t : Z) s : CodedInputStream :=
  CIS (buffer_array s) (buffer_ s) (buffer_end_ s) (input_ s) (total_bytes_read_ s)
    (overflow_bytes_ s) t (legitimate_message_end_ s) (aliasing_enabled_ s) (current_limit_ s)
    (buffer_size_after_limit_ s) (total_bytes_limit_ s) (recursion_budget_ s) (recursion_limit_ s)
    (extension_pool_ s) (extension_factory_ s).
Definition set_message_end (b : bool) s : CodedInputStream :=
  CIS (buffer_array s) (buffer_ s) (buffer_end_ s) (input_ s) (total_bytes_read_ s)
    (overflow_bytes_ s) (last_tag_ s) b (aliasing_enabled_ s) (current_limit_ s)
    (buffer_size_after_limit_ s) (total_bytes_limit_ s) (recursion_budget_ s) (recursion_limit_ s)
    (extension_pool_ s) (extension_factory_ s).
Definition set_recursion (budget limit : Z) s : CodedInputStream :=
  CIS (buffer_array s) (buffer_ s) (buffer_end_ s) (input_ s) (total_bytes_read_ s)
    (overflow_bytes_ s) (last_tag_ s) (legitimate_message_end_ s) (aliasing_enabled_ s)
    (current_limit_ s) (buffer_size_after_limit_ s) (total_bytes_limit_ s) budget limit
    (extension_pool_ s) (extension_factory_ s).
Definition set_extension (pool factory : option Z) s : CodedInputStream :=
  CIS (buffer_array s) (buffer_ s) (buffer_end_ s) (input_ s) (total_bytes_read_ s)
    (overflow_bytes_ s) (last_tag_ s) (legitimate_message_end_ s) (aliasing_enabled_ s)
    (current_limit_ s) (buffer_size_after_limit_ s) (total_bytes_limit_ s) (recursion_budget_ s)
    (recursion_limit_ s) pool factory.

(** Methods whose bodies are in coded_stream.cc.  A method with an [out]
    argument returns its value with the result. *)
Class InputFallbacks := {
  default_recursion_limit_ : Z;
  Refresh : stm CodedInputStream bool;
  ReadVarint32Fallback : Z -> stm CodedInputStream Z;
  ReadVarint64Fallback : stm CodedInputStream (Z * bool);
  ReadVarintSizeAsIntFallback : stm CodedInputStream Z;
  ReadLittleEndian32Fallback : stm CodedInputStream (bool * Z);
  ReadLittleEndian64Fallback : stm CodedInputStream (bool * Z);
  ReadTagFallback : Z -> stm CodedInputStream Z;
  SkipFallback : Z -> Z -> stm CodedInputStream bool;
  ReadRaw : Z -> stm CodedInputStream (bool * list byte);
  ReadString : Z -> stm CodedInputStream (bool * list byte);
  GetDirectBufferPointer : stm CodedInputStream (option (Z * Z));
  PushLimit : Z -> stm CodedInputStream Z;
  PopLimit : Z -> stm CodedInputStream unit;
  BytesUntilLimit : CodedInputStream -> Z;
  BytesUntilTotalBytesLimit : CodedInputStream -> Z;
  IncrementRecursionDepthAndPushLimit : Z -> stm CodedInputStream (Z * Z);
  DecrementRecursionDepthAndPopLimit : Z -> stm CodedInputStream bool;
  ReadLengthAndPushLimit : stm CodedInputStream Z;
  CheckEntireMessageConsumedAndPopLimit : Z -> stm CodedInputStream bool;
}.

Definition BufferSize s : Z := i32 (buffer_end_ s - buffer_ s).

Definition Advance (amount : Z) : stm CodedInputStream unit :=
  st_modify (fun s => set_buffer (buffer_ s + amount) s).

(** [*buffer_] and [buffer_[1]]. *)
Definition peek (k : Z) : stm CodedInputStream Z :=
  s ← st_get; st_lift (byte_at (buffer_array s) (buffer_ s + k)).

Section input.
  Context `{InputFallbacks}.

(** The constructors. *)
Definition CodedInputStream_stream (input : Z) : cres CodedInputStream :=
  '(_, s) ← Refresh (CIS [] 0 0 (Some input) 0 0 0 false false INT_MAX 0
    kDefaultTotalBytesLimit default_recursion_limit_ default_recursion_limit_ None None);
  Done s.
Definition CodedInputStream_array (buffer : list byte) (size : Z) : CodedInputStream :=
  CIS buffer 0 size None size 0 0 false false size 0
    kDefaultTotalBytesLimit default_recursion_limit_ default_recursion_limit_ None None.

(** ** Reading integers; the result is the [bool] and the [out] argument *)

Definition ReadVarint32 : stm CodedInputStream (bool * Z) :=
  s ← st_get;
  v ← (if decide (buffer_ s < buffer_end_ s) then peek 0 else mret 0);
  if decide (buffer_ s < buffer_end_ s /\ v < 0x80) then
    Advance 1 ;; mret (true, v)
  else
    result ← ReadVarint32Fallback v;
    mret (bool_decide (0 <= result), u32 result).

Definition ReadVarint64 : stm CodedInputStream (bool * Z) :=
  s ← st_get;
  v ← (if decide (buffer_ s < buffer_end_ s) then peek 0 else mret 0);
  if decide (buffer_ s < buffer_end_ s /\ v < 0x80) then
    Advance 1 ;; mret (true, v)
  else
    p ← ReadVarint64Fallback;
    mret (snd p, fst p).

Definition ReadVarintSizeAsInt : stm CodedInputStream (bool * Z) :=
  s ← st_get;
  v ← (if decide (buffer_ s < buffer_end_ s) then peek 0 else mret 0);
  if decide (buffer_ s < buffer_end_ s /\ v < 0x80) then
    Advance 1 ;; mret (true, v)
  else
    value ← ReadVarintSizeAsIntFallback;
    mret (bool_decide (0 <= value), value).

Definition ReadLittleEndian32 : stm CodedInputStream (bool * Z) :=
  s ← st_get;
  if decide (4 <= BufferSize s) then
    '(p, v) ← st_lift (ReadLittleEndian32FromArray (buffer_array s) (buffer_ s));
    st_modify (set_buffer p) ;; mret (true, v)
  else ReadLittleEndian32Fallback.

Definition ReadLittleEndian64 : stm CodedInputStream (bool * Z) :=
  s ← st_get;
  if decide (8 <= BufferSize s) then
    '(p, v) ← st_lift (ReadLittleEndian64FromArray (buffer_array s) (buffer_ s));
    st_modify (set_buffer p) ;; mret (true, v)
  else ReadLittleEndian64Fallback.

(** ** Tags *)

Definition ReadTagNoLastTag : stm CodedInputStream Z :=
  s ← st_get;
  v ← (if decide (buffer_ s < buffer_end_ s) then peek 0 else mret 0);
  if decide (buffer_ s < buffer_end_ s /\ v < 0x80) then
    Advance 1 ;; mret v
  else ReadTagFallback v.

Definition ReadTag : stm CodedInputStream Z :=
  t ← ReadTagNoLastTag; st_modify (set_last_tag t) ;; mret t.

(** The slow path of [ReadTagWithCutoffNoLastTag]. *)
Definition ReadTagSlowPath (cutoff first_byte_or_zero : Z) : stm CodedInputStream (Z * bool) :=
  tag ← ReadTagFallback first_byte_or_zero;
  mret (tag, bool_decide (u32 (tag - 1) < cutoff)).

Definition ReadTagWithCutoffNoLastTag (cutoff : Z) : stm CodedInputStream (Z * bool) :=
  s ← st_get;
  if decide (buffer_ s < buffer_end_ s) then
    b0 ← peek 0;
    if decide (0 < i8 b0) then
      let kMax1ByteVarint := 0x7f in
      Advance 1 ;;
      mret (b0, bool_decide (kMax1ByteVarint <= cutoff \/ b0 <= cutoff))
    else if decide (0x80 <= cutoff /\ buffer_ s + 1 < buffer_end_ s) then
      b1 ← peek 1;
      if decide (0x80 <= Z.land b0 (Z.lnot b1)) then
        let kMax2ByteVarint := Z.shiftl 0x7f 7 + 0x7f in
        let tag := u32 (Z.shiftl 1 7 * b1 + (b0 - 0x80)) in
        Advance 2 ;;
        mret (tag, bool_decide (kMax2ByteVarint <= cutoff \/ tag <= cutoff))
      else ReadTagSlowPath cutoff b0
    else ReadTagSlowPath cutoff b0
  else ReadTagSlowPath cutoff 0.

Definition ReadTagWithCutoff (cutoff : Z) : stm CodedInputStream (Z * bool) :=
  result ← ReadTagWithCutoffNoLastTag cutoff;
  st_modify (set_last_tag (fst result)) ;; mret result.

Definition LastTagWas (expected : Z) : stm CodedInputStream bool :=
  st_gets (fun s => bool_decide (last_tag_ s = expected)).
Definition SetLastTag (tag : Z) : stm CodedInputStream unit := st_modify (set_last_tag tag).
Definition ConsumedEntireMessage : stm CodedInputStream bool := st_gets legitimate_message_end_.
Definition SetConsumed : stm CodedInputStream unit := st_modify (set_message_end true).

Definition ExpectTag (expected : Z) : stm CodedInputStream bool :=
  s ← st_get;
  if decide (expected < Z.shiftl 1 7) then
    if decide (buffer_ s < buffer_end_ s) then
      b0 ← peek 0;
      if decide (b0 = expected) then Advance 1 ;; mret true else mret false
    else mret false
  else if decide (expected < Z.shiftl 1 14) then
    if decide (2 <= BufferSize s) then
      b0 ← peek 0;
      if decide (b0 = u8 (Z.lor expected 0x80)) then
        b1 ← peek 1;
        if decide (b1 = u8 (Z.shiftr expected 7)) then Advance 2 ;; mret true else mret false
      else mret false
    else mret false
  else mret false.

(** ** Positions, limits and recursion *)

Definition GetDirectBufferPointerInline : stm CodedInputStream (Z * Z) :=
  st_gets (fun s => (buffer_ s, i32 (buffer_end_ s - buffer_ s))).

Definition ExpectAtEnd : stm CodedInputStream bool :=
  s ← st_get;
  if decide (buffer_ s = buffer_end_ s /\
             (buffer_size_after_limit_ s <> 0 \/ total_bytes_read_ s = current_limit_ s)) then
    st_modify (set_last_tag 0) ;; st_modify (set_message_end true) ;; mret true
  else mret false.

Definition CurrentPosition s : cres Z :=
  n ← int_op (BufferSize s + buffer_size_after_limit_ s); int_op (total_bytes_read_ s - n).

Definition SetRecursionLimit (limit : Z) : stm CodedInputStream unit :=
  s ← st_get;
  d ← st_lift (int_op (limit - recursion_limit_ s));
  b ← st_lift (int_op (recursion_budget_ s + d));
  st_modify (set_recursion b limit).
Definition RecursionBudget : stm CodedInputStream Z := st_gets recursion_budget_.

Definition IncrementRecursionDepth : stm CodedInputStream bool :=
  s ← st_get;
  b ← st_lift (int_op (recursion_budget_ s - 1));
  st_modify (set_recursion b (recursion_limit_ s)) ;;
  mret (bool_decide (0 <= b)).
Definition DecrementRecursionDepth : stm CodedInputStream unit :=
  s ← st_get;
  if decide (recursion_budget_ s < recursion_limit_ s) then
    st_modify (set_recursion (recursion_budget_ s + 1) (recursion_limit_ s))
  else mret tt.
Definition UnsafeDecrementRecursionDepth : stm CodedInputStream unit :=
  s ← st_get;
  st_lift (dcheck (recursion_budget_ s < recursion_limit_ s)) ;;
  st_modify (set_recursion (recursion_budget_ s + 1) (recursion_limit_ s)).

Definition SetExtensionRegistry (pool factory : option Z) : stm CodedInputStream unit :=
  st_modify (set_extension pool factory).
Definition GetExtensionPool : stm CodedInputStream (option Z) := st_gets extension_pool_.
Definition GetExtensionFactory : stm CodedInputStream (option Z) := st_gets extension_factory_.

Definition IsFlat : stm CodedInputStream bool := st_gets (fun s => bool_decide (input_ s = None)).

Definition Skip (count : Z) : stm CodedInputStream bool :=
  if decide (count < 0) then mret false
  else
    original_buffer_size ← st_gets BufferSize;
    if decide (count <= original_buffer_size) then Advance count ;; mret true
    else SkipFallback count original_buffer_size.

End input.

(** ** The output stream *)

(** [out_previous] is the part of the underlying [ZeroCopyOutputStream] that the
    stream has filled and given back; the current buffer is all of [out_array]. *)
Record CodedOutputStream := COS {
  out_previous : list byte;
  out_array : list byte;
  out_buffer_ : Z;
  out_buffer_size_ : Z;
  out_total_bytes_ : Z;
  out_had_error_ : bool;
  out_aliasing_enabled_ : bool;
  out_is_serialization_deterministic_ : bool;
}.

Implicit Types o : CodedOutputStream.

Class OutputFallbacks := {
  default_serialization_deterministic_ : bool;
  WriteRaw : list byte -> Z -> stm CodedOutputStream unit;
  WriteAliasedRaw : list byte -> Z -> stm CodedOutputStream unit;
  WriteLittleEndian32 : Z -> stm CodedOutputStream unit;
  WriteLittleEndian64 : Z -> stm CodedOutputStream unit;
  WriteVarint32SlowPath : Z -> stm CodedOutputStream unit;
  WriteVarint64SlowPath : Z -> stm CodedOutputStream unit;
  WriteRawToArray : list byte -> Z -> list byte -> Z -> cres (list byte * Z);
  WriteStringWithSizeToArray : list byte -> list byte -> Z -> cres (list byte * Z);
}.

(** The current buffer with another content, position and size. *)
Definition set_out_buffer (m : list byte) (p n : Z) o : CodedOutputStream :=
  COS (out_previous o) m p n (out_total_bytes_ o) (out_had_error_ o) (out_aliasing_enabled_ o)
    (out_is_serialization_deterministic_ o).

Definition AdvanceOutput (amount : Z) : stm CodedOutputStream unit :=
  o ← st_get;
  n ← st_lift (int_op (out_buffer_size_ o - amount));
  st_modify (set_out_buffer (out_array o) (out_buffer_ o + amount) n).

Definition GetDirectBufferForNBytesAndAdvance (size : Z) : stm CodedOutputStream (option Z) :=
  o ← st_get;
  if decide (out_buffer_size_ o < size) then mret None
  else AdvanceOutput size ;; mret (Some (out_buffer_ o)).

(** Run a [ToArray] writer at the current position: the pointer it returns. *)
Definition write_here (w : list byte -> Z -> cres (list byte * Z)) : stm CodedOutputStream Z :=
  o ← st_get;
  '(m, p) ← st_lift (w (out_array o) (out_buffer_ o));
  st_modify (set_out_buffer m (out_buffer_ o) (out_buffer_size_ o)) ;; mret p.

Section output.
  Context `{OutputFallbacks}.

Definition WriteVarint32 (value : Z) : stm CodedOutputStream unit :=
  o ← st_get;
  if decide (5 <= out_buffer_size_ o) then
    end_ ← write_here (WriteVarint32ToArray value);
    AdvanceOutput (i32 (end_ - out_buffer_ o))
  else WriteVarint32SlowPath value.

Definition WriteVarint64 (value : Z) : stm CodedOutputStream unit :=
  o ← st_get;
  if decide (10 <= out_buffer_size_ o) then
    end_ ← write_here (WriteVarint64ToArray value);
    AdvanceOutput (i32 (end_ - out_buffer_ o))
  else WriteVarint64SlowPath value.

Definition WriteVarint32SignExtended (value : Z) : stm CodedOutputStream unit :=
  WriteVarint64 (u64 value).
Definition WriteTag (value : Z) : stm CodedOutputStream unit := WriteVarint32 value.

Definition WriteString (str : list byte) : stm CodedOutputStream unit :=
  WriteRaw str (i32 (Z.of_nat (length str))).
Definition WriteRawMaybeAliased (data : list byte) (size : Z) : stm CodedOutputStream unit :=
  o ← st_get;
  if out_aliasing_enabled_ o then WriteAliasedRaw data size else WriteRaw data size.
Definition WriteStringToArray (str m : list byte) (target : Z) : cres (list byte * Z) :=
  WriteRawToArray str (i32 (Z.of_nat (length str))) m target.

Definition ByteCount o : cres Z := int_op (out_total_bytes_ o - out_buffer_size_ o).

Definition SetSerializationDeterministic (value : bool) : stm CodedOutputStream unit :=
  st_modify (fun o => COS (out_previous o) (out_array o) (out_buffer_ o) (out_buffer_size_ o)
    (out_total_bytes_ o) (out_had_error_ o) (out_aliasing_enabled_ o) value).
Definition IsSerializationDeterministic : stm CodedOutputStream bool :=
  st_gets out_is_serialization_deterministic_.
Definition IsDefaultSerializationDeterministic : bool := default_serialization_deterministic_.

End output.
