(* ===== verification/CodedStreamLaws.v ===== *)
(** * Coded streams: the contract of the out-of-line methods, and the reads on top of it

    [InputLaws] is the interface between the inline methods of
    [CodedInputStream] and the methods of coded_stream.cc: [remaining] are the
    bytes the stream will deliver before its next limit, and each law is what
    the declaration of the method documents.  The lemmas say what the inline
    methods do, on their fast paths (from the code) and their slow paths (from
    the laws).  [OutputLaws] is the same for [CodedOutputStream]. *)
From Stdlib Require Import ZArith Lia Strings.Byte.
From stdpp Require Import base tactics option list list_numbers.
From S2P Require Import Prelude Mem Bits Varint CodedStream.

Implicit Types s : CodedInputStream.

(** The bytes between [buffer_] and [buffer_end_]. *)
Definition buffered s : list byte :=
  take (Z.to_nat (buffer_end_ s - buffer_ s)) (drop (Z.to_nat (buffer_ s)) (buffer_array s)).

(** The buffer pointers delimit a part of the array whose size is an [int]. *)
Definition buffer_ok s : Prop :=
  0 <= buffer_ s <= buffer_end_ s /\ buffer_end_ s <= Z.of_nat (length (buffer_array s)) /\
  buffer_end_ s < 2 ^ 31.

(** A fallback gets the first byte of the buffer, a continuation byte, or 0. *)
Definition first_byte_or_zero s (b : Z) : Prop :=
  match buffered s with [] => b = 0 | c :: _ => b = byte_to_Z c /\ 128 <= b end.

Class InputView := {
  in_ok : CodedInputStream -> Prop;
  remaining : CodedInputStream -> list byte;
  (** [pushed old hidden s]: popping to the limit [old] gives [hidden] back. *)
  pushed : Z -> list byte -> CodedInputStream -> Prop;
}.

(** A read that leaves [tl]: limits and recursion depth are as before. *)
Definition after `{InputView} s (tl : list byte) s' : Prop :=
  in_ok s' /\ remaining s' = tl /\ (forall old h, pushed old h s -> pushed old h s') /\
  recursion_budget_ s' = recursion_budget_ s /\ recursion_limit_ s' = recursion_limit_ s.

Class InputLaws `{InputFallbacks, InputView} : Prop := {
  ok_buffer s : in_ok s -> buffer_ok s;
  ok_remaining s : in_ok s -> exists tl, remaining s = buffered s ++ tl;
  (** Moving [buffer_] inside of the buffer consumes bytes. *)
  ok_advance s n : in_ok s -> 0 <= n <= buffer_end_ s - buffer_ s ->
    after s (drop (Z.to_nat n) (remaining s)) (set_buffer (buffer_ s + n) s);
  ok_last_tag s t : in_ok s -> after s (remaining s) (set_last_tag t s);
  (** Varints, "truncating to 32 bits"; -1, or false, when the input has ended. *)
  law_varint32 s b v tl : in_ok s -> first_byte_or_zero s b -> 0 <= v < 2 ^ 64 ->
    remaining s = varint v ++ tl ->
    exists s', ReadVarint32Fallback b s = Done (u32 v, s') /\ after s tl s';
  law_varint32_end s b : in_ok s -> first_byte_or_zero s b -> remaining s = [] ->
    exists s', ReadVarint32Fallback b s = Done (-1, s');
  law_varint64 s v tl : in_ok s -> 0 <= v < 2 ^ 64 -> remaining s = varint v ++ tl ->
    exists s', ReadVarint64Fallback s = Done ((v, true), s') /\ after s tl s';
  law_varint64_end s : in_ok s -> remaining s = [] ->
    exists x s', ReadVarint64Fallback s = Done ((x, false), s');
  (** A size that is not an [int] is refused. *)
  law_size s v tl : in_ok s -> 0 <= v < 2 ^ 31 -> remaining s = varint v ++ tl ->
    exists s', ReadVarintSizeAsIntFallback s = Done (v, s') /\ after s tl s';
  law_size_big s v tl : in_ok s -> 2 ^ 31 <= v < 2 ^ 64 -> remaining s = varint v ++ tl ->
    exists x s', ReadVarintSizeAsIntFallback s = Done (x, s') /\ x < 0;
  law_size_end s : in_ok s -> remaining s = [] ->
    exists x s', ReadVarintSizeAsIntFallback s = Done (x, s') /\ x < 0;
  law_fixed32 s v tl : in_ok s -> remaining s = le_split 4 v ++ tl ->
    exists s', ReadLittleEndian32Fallback s = Done ((true, u32 v), s') /\ after s tl s';
  law_fixed32_end s : in_ok s -> (length (remaining s) < 4)%nat ->
    exists x s', ReadLittleEndian32Fallback s = Done ((false, x), s');
  law_fixed64 s v tl : in_ok s -> remaining s = le_split 8 v ++ tl ->
    exists s', ReadLittleEndian64Fallback s = Done ((true, u64 v), s') /\ after s tl s';
  law_fixed64_end s : in_ok s -> (length (remaining s) < 8)%nat ->
    exists x s', ReadLittleEndian64Fallback s = Done ((false, x), s');
  (** "These do not update last_tag_." *)
  law_tag s b v tl : in_ok s -> first_byte_or_zero s b -> 0 <= v < 2 ^ 32 ->
    remaining s = varint v ++ tl ->
    exists s', ReadTagFallback b s = Done (v, s') /\ after s tl s' /\ last_tag_ s' = last_tag_ s;
  law_tag_end s b : in_ok s -> first_byte_or_zero s b -> remaining s = [] ->
    exists s', ReadTagFallback b s = Done (0, s') /\ legitimate_message_end_ s' = true;
  law_skip s n k : in_ok s -> n = Z.of_nat (length (take k (remaining s))) ->
    (k <= length (remaining s))%nat -> BufferSize s < n ->
    exists s', SkipFallback n (BufferSize s) s = Done (true, s') /\ after s (drop k (remaining s)) s';
  law_raw s bs tl : in_ok s -> remaining s = bs ++ tl ->
    exists s', ReadRaw (Z.of_nat (length bs)) s = Done ((true, bs), s') /\ after s tl s';
  (** Limits. *)
  law_push s bs tl : in_ok s -> remaining s = bs ++ tl -> Z.of_nat (length bs) < 2 ^ 31 ->
    exists old s', PushLimit (Z.of_nat (length bs)) s = Done (old, s') /\ in_ok s' /\
      remaining s' = bs /\ pushed old tl s' /\ recursion_budget_ s' = recursion_budget_ s /\
      recursion_limit_ s' = recursion_limit_ s;
  law_until s old tl : in_ok s -> pushed old tl s ->
    BytesUntilLimit s = Z.of_nat (length (remaining s));
  law_pop s old tl : in_ok s -> pushed old tl s ->
    exists s', PopLimit old s = Done (tt, s') /\ in_ok s' /\ remaining s' = remaining s ++ tl /\
      recursion_budget_ s' = recursion_budget_ s /\ recursion_limit_ s' = recursion_limit_ s;
}.

Section input_laws.
  Context `{InputLaws}.

Lemma buffered_at s bs tl : buffer_ok s -> buffered s = bs ++ tl -> at_pos (buffer_array s) (buffer_ s) bs.
Proof.
  intros (Hb & He & Hm) Hbs. unfold buffered in Hbs.
  exists (take (Z.to_nat (buffer_ s)) (buffer_array s)),
    (tl ++ drop (Z.to_nat (buffer_end_ s - buffer_ s)) (drop (Z.to_nat (buffer_ s)) (buffer_array s))).
  rewrite app_assoc with (l := bs), <- Hbs, take_drop, take_drop. split; [done|].
  rewrite length_take. lia.
Qed.

Lemma length_buffered s : buffer_ok s -> Z.of_nat (length (buffered s)) = buffer_end_ s - buffer_ s.
Proof. intros (Hb & He & Hm). unfold buffered. rewrite length_take, length_drop. lia. Qed.

Lemma BufferSize_eq s : buffer_ok s -> BufferSize s = buffer_end_ s - buffer_ s.
Proof. intros (Hb & He & Hm). unfold BufferSize. apply i32_small. lia. Qed.

Lemma buffered_nonempty s : buffer_ok s -> buffer_ s < buffer_end_ s ->
  exists c bs, buffered s = c :: bs /\ peek 0 s = Done (byte_to_Z c, s).
Proof.
  intros Hok Hlt. pose proof (length_buffered s Hok) as Hl.
  destruct (buffered s) as [|c bs] eqn:E; [simpl in Hl; lia|].
  exists c, bs. split; [done|]. unfold peek.
  pose proof (buffered_at s [c] bs Hok E) as Ha. apply at_pos_cons in Ha as [Hat _].
  rewrite stm_bind_eq. cbn [st_get]. rewrite Z.add_0_r. unfold st_lift. by rewrite Hat.
Qed.

Lemma buffered_empty s : buffer_ok s -> ~ buffer_ s < buffer_end_ s -> buffered s = [].
Proof.
  intros Hok Hlt. pose proof (length_buffered s Hok). destruct Hok as (Hb & _).
  apply nil_length_inv. lia.
Qed.

(** The first bytes of [remaining], seen in the buffer. *)
Lemma remaining_head s c bs b rest :
  in_ok s -> buffered s = c :: bs -> remaining s = b :: rest -> c = b.
Proof.
  intros Hok Hb Hr. destruct (ok_remaining s Hok) as [tl Htl]. rewrite Hb, Hr in Htl. simpl in Htl. congruence.
Qed.

(** The one-byte fast path that all the varint readers share: either the next
    byte is in the buffer and is the whole number, or the slow path runs. *)
Lemma fast_byte {A} (slow : Z -> stm CodedInputStream A) (k : Z -> A) s v tl Q :
  in_ok s -> 0 <= v < 2 ^ 64 -> remaining s = varint v ++ tl ->
  (v < 128 -> after s tl (set_buffer (buffer_ s + 1) s) -> Q (k v) (set_buffer (buffer_ s + 1) s)) ->
  (forall b, first_byte_or_zero s b -> exists r s', slow b s = Done (r, s') /\ Q r s') ->
  exists r s',
    (s0 ← st_get;
     b ← (if decide (buffer_ s0 < buffer_end_ s0) then peek 0 else mret 0);
     if decide (buffer_ s0 < buffer_end_ s0 /\ b < 128) then Advance 1 ;; mret (k b) else slow b) s
    = Done (r, s') /\ Q r s'.
Proof.
  intros Hok Hv Hr Hfast Hslow. pose proof (ok_buffer s Hok) as Hbo.
  destruct (varint_head v _ ltac:(lia) eq_refl) as (c & cs & Ec & Hc).
  destruct (decide (buffer_ s < buffer_end_ s)) as [Hlt|Hge].
  - destruct (buffered_nonempty s Hbo Hlt) as (c' & bs & Eb & Hp).
    assert (c' = c) as -> by (eapply (remaining_head s); [done|exact Eb|by rewrite Hr, Ec]).
    destruct (decide (byte_to_Z c < 128)) as [Hsmall|Hbig].
    + assert (Hv128 : v < 128).
      { pose proof (Z.mod_pos_bound v 128 ltac:(lia)). revert Hc. case_decide; lia. }
      rewrite decide_True in Hc by done. destruct Hc as [Hcv ->].
      eexists _, _. split.
      * rewrite stm_bind_eq. cbn [st_get]. rewrite decide_True by done.
        rewrite stm_bind_eq, Hp. rewrite decide_True by done. rewrite stm_bind_eq. cbn. reflexivity.
      * rewrite Hcv. apply Hfast; [done|].
        replace tl with (drop (Z.to_nat 1) (remaining s)) by (rewrite Hr, Ec; done).
        apply ok_advance; [done|lia].
    + destruct (Hslow (byte_to_Z c)) as (r & s' & Hs & HQ).
      { unfold first_byte_or_zero. rewrite Eb. lia. }
      exists r, s'. split; [|done]. rewrite stm_bind_eq. cbn [st_get]. rewrite decide_True by done.
      rewrite stm_bind_eq, Hp. by rewrite decide_False by lia.
  - destruct (Hslow 0) as (r & s' & Hs & HQ).
    { unfold first_byte_or_zero. by rewrite buffered_empty. }
    exists r, s'. split; [|done]. rewrite stm_bind_eq. cbn [st_get]. rewrite decide_False by done.
    rewrite stm_bind_eq. cbn [mret stm_ret]. by rewrite decide_False by lia.
Qed.

(** At the end of the input the fast path is not taken. *)
Lemma fast_byte_end {A} (slow : Z -> stm CodedInputStream A) (k : Z -> A) s :
  in_ok s -> remaining s = [] ->
  (s0 ← st_get;
   b ← (if decide (buffer_ s0 < buffer_end_ s0) then peek 0 else mret 0);
   if decide (buffer_ s0 < buffer_end_ s0 /\ b < 128) then Advance 1 ;; mret (k b) else slow b) s
  = slow 0 s /\ first_byte_or_zero s 0.
Proof.
  intros Hok Hr. pose proof (ok_buffer s Hok) as Hbo.
  destruct (ok_remaining s Hok) as [tl Htl]. rewrite Hr in Htl.
  symmetry in Htl. apply app_nil in Htl as [Hb _].
  assert (Hge : ~ buffer_ s < buffer_end_ s).
  { pose proof (length_buffered s Hbo) as Hl. rewrite Hb in Hl. simpl in Hl. lia. }
  split.
  - rewrite stm_bind_eq. cbn [st_get]. rewrite decide_False by done. rewrite stm_bind_eq.
    cbn [mret stm_ret]. by rewrite decide_False by lia.
  - unfold first_byte_or_zero. by rewrite Hb.
Qed.

Lemma ReadVarint32_spec s v tl :
  in_ok s -> 0 <= v < 2 ^ 64 -> remaining s = varint v ++ tl ->
  exists s', ReadVarint32 s = Done ((true, u32 v), s') /\ after s tl s'.
Proof.
  intros Hok Hv Hr. unfold ReadVarint32.
  destruct (fast_byte (fun b => result ← ReadVarint32Fallback b; mret (bool_decide (0 <= result), u32 result))
    (fun b => (true, b)) s v tl (fun r s' => r = (true, u32 v) /\ after s tl s')) as (r & s' & E & -> & Ha);
    [done|done|done| | |by exists s'].
  - intros Hv' Ha. by rewrite u32_small by lia.
  - intros b Hb. destruct (law_varint32 s b v tl) as (s' & E & Ha); try done.
    do 2 eexists. rewrite stm_bind_eq, E. split; [reflexivity|]. split; [|done].
    pose proof (u32_range v). rewrite bool_decide_true by lia. by rewrite u32_u32.
Qed.

Lemma ReadVarint64_spec s v tl :
  in_ok s -> 0 <= v < 2 ^ 64 -> remaining s = varint v ++ tl ->
  exists s', ReadVarint64 s = Done ((true, v), s') /\ after s tl s'.
Proof.
  intros Hok Hv Hr. unfold ReadVarint64.
  destruct (fast_byte (fun b => p ← ReadVarint64Fallback; mret (snd p, fst p))
    (fun b => (true, b)) s v tl (fun r s' => r = (true, v) /\ after s tl s')) as (r & s' & E & -> & Ha);
    [done|done|done|done| |by exists s'].
  intros b Hb. destruct (law_varint64 s v tl) as (s' & E & Ha); try done.
  do 2 eexists. rewrite stm_bind_eq, E. split; [reflexivity|]. done.
Qed.

Lemma ReadVarintSizeAsInt_spec s v tl :
  in_ok s -> 0 <= v < 2 ^ 31 -> remaining s = varint v ++ tl ->
  exists s', ReadVarintSizeAsInt s = Done ((true, v), s') /\ after s tl s'.
Proof.
  intros Hok Hv Hr. unfold ReadVarintSizeAsInt.
  destruct (fast_byte (fun b => value ← ReadVarintSizeAsIntFallback; mret (bool_decide (0 <= value), value))
    (fun b => (true, b)) s v tl (fun r s' => r = (true, v) /\ after s tl s')) as (r & s' & E & -> & Ha);
    [done|lia|done|done| |by exists s'].
  intros b Hb. destruct (law_size s v tl) as (s' & E & Ha); try done.
  do 2 eexists. rewrite stm_bind_eq, E. split; [reflexivity|]. by rewrite bool_decide_true by lia.
Qed.

Lemma ReadVarintSizeAsInt_big s v tl :
  in_ok s -> 2 ^ 31 <= v < 2 ^ 64 -> remaining s = varint v ++ tl ->
  exists x s', ReadVarintSizeAsInt s = Done ((false, x), s').
Proof.
  intros Hok Hv Hr. unfold ReadVarintSizeAsInt.
  destruct (fast_byte (fun b => value ← ReadVarintSizeAsIntFallback; mret (bool_decide (0 <= value), value))
    (fun b => (true, b)) s v tl (fun r s' => fst r = false)) as ([b x] & s' & E & Hb);
    [done|lia|done|lia| |simpl in Hb; subst; eauto].
  intros b Hb. destruct (law_size_big s v tl) as (x & s' & E & Hx); try done.
  do 2 eexists. rewrite stm_bind_eq, E. split; [reflexivity|]. by rewrite bool_decide_false by lia.
Qed.

Lemma ReadLittleEndian32_spec s v tl :
  in_ok s -> remaining s = le_split 4 v ++ tl ->
  exists s', ReadLittleEndian32 s = Done ((true, u32 v), s') /\ after s tl s'.
Proof.
  intros Hok Hr. pose proof (ok_buffer s Hok) as Hbo. unfold ReadLittleEndian32.
  setoid_rewrite stm_bind_eq. cbn [st_get]. rewrite BufferSize_eq by done.
  case_decide as Hsz; [|by apply law_fixed32].
  destruct (ok_remaining s Hok) as [tl' Htl]. pose proof (length_buffered s Hbo) as Hl.
  assert (Hb : buffered s = le_split 4 v ++ drop 4 (buffered s)).
  { rewrite <- (take_drop 4 (buffered s)) at 1. f_equal.
    rewrite <- (take_app_length (le_split 4 v) tl), <- Hr, Htl, length_le_split.
    by rewrite take_app_le by lia. }
  pose proof (buffered_at s _ _ Hbo Hb) as Ha.
  eexists. split.
  - rewrite stm_bind_eq, (ReadLittleEndian32FromArray_at _ _ v Ha). reflexivity.
  - replace tl with (drop (Z.to_nat 4) (remaining s)); [by apply ok_advance; [|lia]|].
    rewrite Hr. by rewrite drop_app_length' by (by rewrite length_le_split).
Qed.

Lemma ReadLittleEndian64_spec s v tl :
  in_ok s -> remaining s = le_split 8 v ++ tl ->
  exists s', ReadLittleEndian64 s = Done ((true, u64 v), s') /\ after s tl s'.
Proof.
  intros Hok Hr. pose proof (ok_buffer s Hok) as Hbo. unfold ReadLittleEndian64.
  setoid_rewrite stm_bind_eq. cbn [st_get]. rewrite BufferSize_eq by done.
  case_decide as Hsz; [|by apply law_fixed64].
  destruct (ok_remaining s Hok) as [tl' Htl]. pose proof (length_buffered s Hbo) as Hl.
  assert (Hb : buffered s = le_split 8 v ++ drop 8 (buffered s)).
  { rewrite <- (take_drop 8 (buffered s)) at 1. f_equal.
    rewrite <- (take_app_length (le_split 8 v) tl), <- Hr, Htl, length_le_split.
    by rewrite take_app_le by lia. }
  pose proof (buffered_at s _ _ Hbo Hb) as Ha.
  eexists. split.
  - rewrite stm_bind_eq, (ReadLittleEndian64FromArray_at _ _ v Ha). reflexivity.
  - replace tl with (drop (Z.to_nat 8) (remaining s)); [by apply ok_advance; [|lia]|].
    rewrite Hr. by rewrite drop_app_length' by (by rewrite length_le_split).
Qed.

(** ** Tags *)

Lemma ReadTagNoLastTag_spec s v tl :
  in_ok s -> 0 <= v < 2 ^ 32 -> remaining s = varint v ++ tl ->
  exists s', ReadTagNoLastTag s = Done (v, s') /\ after s tl s' /\ last_tag_ s' = last_tag_ s.
Proof.
  intros Hok Hv Hr. unfold ReadTagNoLastTag.
  destruct (fast_byte ReadTagFallback (fun b => b) s v tl
    (fun r s' => r = v /\ after s tl s' /\ last_tag_ s' = last_tag_ s)) as (r & s' & E & -> & Ha);
    [done|lia|done|done| |by exists s'].
  intros b Hb. destruct (law_tag s b v tl) as (s' & E & Ha); eauto.
Qed.

Lemma ReadTag_spec s v tl :
  in_ok s -> 0 <= v < 2 ^ 32 -> remaining s = varint v ++ tl ->
  exists s', ReadTag s = Done (v, s') /\ after s tl s' /\ last_tag_ s' = v.
Proof.
  intros Hok Hv Hr. destruct (ReadTagNoLastTag_spec s v tl Hok Hv Hr) as (s' & E & Ha & _).
  exists (set_last_tag v s'). unfold ReadTag. rewrite stm_bind_eq, E, stm_bind_eq.
  split; [done|]. split; [|done].
  destruct Ha as (Hok' & Hr' & Hp & Hb & Hl).
  destruct (ok_last_tag s' v Hok') as (Hok2 & Hr2 & Hp2 & Hb2 & Hl2).
  split_and!; [done|congruence|auto|congruence|congruence].
Qed.

Lemma ReadTag_end s : in_ok s -> remaining s = [] ->
  exists s', ReadTag s = Done (0, s') /\ last_tag_ s' = 0 /\ legitimate_message_end_ s' = true.
Proof.
  intros Hok Hr. unfold ReadTag, ReadTagNoLastTag. setoid_rewrite stm_bind_eq.
  destruct (fast_byte_end ReadTagFallback (fun b => b) s Hok Hr) as [E Hb]. rewrite E.
  destruct (law_tag_end s 0 Hok Hb Hr) as (s' & E' & Hm). rewrite E'.
  eexists. rewrite stm_bind_eq. split; [reflexivity|]. done.
Qed.

(** The test of both bytes of a two-byte tag at once. *)
Lemma land_lnot_msb b0 b1 : 0 <= b0 < 256 -> 0 <= b1 < 256 ->
  0x80 <= Z.land b0 (Z.lnot b1) <-> 128 <= b0 /\ b1 < 128.
Proof.
  intros Hb0 Hb1.
  assert (G : forallb (fun b0 => forallb (fun b1 =>
     Bool.eqb (0x80 <=? Z.land b0 (Z.lnot b1)) ((128 <=? b0) && (b1 <? 128))) (seqZ 0 256)) (seqZ 0 256) = true)
    by (vm_compute; reflexivity).
  rewrite forallb_forall in G. specialize (G b0). rewrite forallb_forall in G.
  assert (Hin : forall b, 0 <= b < 256 -> In b (seqZ 0 256)).
  { intros b Hb. apply list_elem_of_In, elem_of_seqZ. lia. }
  specialize (G (Hin b0 Hb0) b1 (Hin b1 Hb1)). apply Bool.eqb_prop in G.
  rewrite <- Z.leb_le, G, andb_true_iff, Z.leb_le, Z.ltb_lt. done.
Qed.

Lemma i8_positive b : 0 <= b < 256 -> 0 < i8 b <-> 0 < b < 128.
Proof.
  intros Hb. unfold i8. rewrite Z.mod_small by lia. change (2 ^ 7) with 128. case_decide; lia.
Qed.

Lemma slow_tag s b v tl cutoff :
  in_ok s -> first_byte_or_zero s b -> 1 <= v < 2 ^ 32 -> remaining s = varint v ++ tl ->
  exists s', ReadTagSlowPath cutoff b s = Done ((v, bool_decide (v <= cutoff)), s') /\ after s tl s'.
Proof.
  intros Hok Hb Hv Hr. destruct (law_tag s b v tl) as (s' & E & Ha & _); try done; [lia|].
  exists s'. unfold ReadTagSlowPath. rewrite stm_bind_eq, E. split; [|done].
  rewrite u32_small by lia.
  rewrite (bool_decide_ext (v - 1 < cutoff) (v <= cutoff)) by lia. done.
Qed.

(** A tag of two bytes, both in the buffer. *)
Lemma two_byte_tag s v tl c c1 bs :
  in_ok s -> 128 <= v < 2 ^ 32 -> remaining s = varint v ++ tl -> buffered s = c :: c1 :: bs -> byte_to_Z c1 < 128 ->
  u32 (Z.shiftl 1 7 * byte_to_Z c1 + (byte_to_Z c - 0x80)) = v /\ v < 2 ^ 14 /\ drop 2 (remaining s) = tl.
Proof.
  intros Hok Hv Hr Eb Hc1. pose proof (byte_to_Z_bound c1) as Hc1b.
  destruct (varint_head v _ ltac:(lia) eq_refl) as (c' & cs & Ec & Hcv).
  destruct (decide (v < 128)) as [|_]; [lia|]. destruct Hcv as [Hcv ->].
  assert (Hq : 0 <= v / 128 < 2 ^ 70).
  { split; [apply Z.div_pos; lia|apply Z.div_lt_upper_bound; lia]. }
  destruct (varint_head (v / 128) _ Hq eq_refl) as (c1' & cs1 & Ec1 & Hcv1).
  destruct (ok_remaining s Hok) as [tl' Htl]. rewrite Eb, Hr, Ec, Ec1 in Htl. simpl in Htl.
  assert (c' = c /\ c1' = c1) as [-> ->] by (split; congruence).
  pose proof (Z.mod_pos_bound v 128 ltac:(lia)). pose proof (Z.mod_pos_bound (v / 128) 128 ltac:(lia)).
  destruct (decide (v / 128 < 128)) as [Hv2|]; [|lia]. destruct Hcv1 as [Hcv1 ->].
  pose proof (Z.div_mod v 128 ltac:(lia)). change (Z.shiftl 1 7) with 128. rewrite u32_small by lia.
  split_and!; [lia|lia|by rewrite Hr, Ec, Ec1].
Qed.

(** All three paths of [ReadTagWithCutoff] give the tag, and whether it is at
    most the cutoff. *)
Lemma ReadTagWithCutoffNoLastTag_spec s v tl cutoff :
  in_ok s -> 1 <= v < 2 ^ 32 -> 0 <= cutoff < 2 ^ 32 -> remaining s = varint v ++ tl ->
  exists s', ReadTagWithCutoffNoLastTag cutoff s = Done ((v, bool_decide (v <= cutoff)), s') /\
    after s tl s'.
Proof.
  intros Hok Hv Hc Hr. pose proof (ok_buffer s Hok) as Hbo. unfold ReadTagWithCutoffNoLastTag.
  setoid_rewrite stm_bind_eq. cbn [st_get].
  case_decide as Hlt.
  2:{ apply slow_tag; [done| |done|done]. unfold first_byte_or_zero. by rewrite buffered_empty. }
  destruct (buffered_nonempty s Hbo Hlt) as (c & bs & Eb & Hp).
  destruct (varint_head v _ ltac:(lia) eq_refl) as (c' & cs & Ec & Hcv).
  assert (c = c') as <- by (eapply (remaining_head s); [done|exact Eb|by rewrite Hr, Ec]).
  pose proof (byte_to_Z_bound c) as Hcb. pose proof (Z.mod_pos_bound v 128 ltac:(lia)) as Hm.
  setoid_rewrite stm_bind_eq. rewrite Hp.
  destruct (decide (v < 128)) as [Hv1|Hv1].
  { destruct Hcv as [-> ->]. rewrite decide_True by (apply i8_positive; lia).
    eexists. rewrite stm_bind_eq. split.
    - rewrite (bool_decide_ext (0x7f <= cutoff \/ v <= cutoff) (v <= cutoff)) by lia.
      reflexivity.
    - replace tl with (drop (Z.to_nat 1) (remaining s)) by (rewrite Hr, Ec; done).
      apply ok_advance; [done|lia]. }
  destruct Hcv as [Hcv ->].
  rewrite decide_False by (rewrite i8_positive; lia).
  assert (Hfirst : first_byte_or_zero s (byte_to_Z c)) by (unfold first_byte_or_zero; rewrite Eb; lia).
  case_decide as Hcut; [|by apply slow_tag].
  (* the second byte is in the buffer *)
  pose proof (length_buffered s Hbo) as Hl. rewrite Eb in Hl. cbn [length] in Hl.
  destruct bs as [|c1 bs]; [simpl in Hl; lia|].
  pose proof (buffered_at s (c :: [c1]) bs Hbo Eb) as Ha.
  apply at_pos_cons in Ha as [_ Ha]. apply at_pos_cons in Ha as [Hat _].
  setoid_rewrite stm_bind_eq.
  assert (Hp1 : peek 1 s = Done (byte_to_Z c1, s)).
  { unfold peek. rewrite stm_bind_eq. cbn [st_get]. unfold st_lift. rewrite Hat. reflexivity. }
  rewrite Hp1. pose proof (byte_to_Z_bound c1) as Hc1b.
  case_decide as Hland; [|by apply slow_tag].
  apply land_lnot_msb in Hland as [_ Hc1]; [|lia|lia].
  destruct (two_byte_tag s v tl c c1 bs Hok ltac:(lia) Hr Eb Hc1) as (Htag & Hv14 & Hdrop).
  eexists. rewrite stm_bind_eq. split.
  - rewrite Htag. change (Z.shiftl 0x7f 7 + 0x7f) with 16383.
    rewrite (bool_decide_ext (16383 <= cutoff \/ v <= cutoff) (v <= cutoff)) by lia. reflexivity.
  - rewrite <- Hdrop. change 2%nat with (Z.to_nat 2). apply ok_advance; [done|lia].
Qed.

(** [ExpectTag] finds exactly the tags below [2 ^ 14] whose bytes are next in the
    buffer, and moves past them; otherwise nothing changes. *)
Lemma ExpectTag_spec s tag :
  in_ok s -> 0 <= tag < 2 ^ 32 ->
  exists r s', ExpectTag tag s = Done (r, s') /\
    (r = true <-> tag < 2 ^ 14 /\ varint tag `prefix_of` buffered s) /\
    (if r then after s (drop (length (varint tag)) (remaining s)) s' else s' = s).
Proof.
  intros Hok Ht. pose proof (ok_buffer s Hok) as Hbo. pose proof (length_buffered s Hbo) as Hl.
  unfold ExpectTag. setoid_rewrite stm_bind_eq. cbn [st_get].
  change (Z.shiftl 1 7) with 128. change (Z.shiftl 1 14) with (2 ^ 14).
  destruct (decide (tag < 128)) as [Ht1|Ht1].
  - rewrite varint_small by lia. cbn [length].
    case_decide as Hlt.
    2:{ exists false, s. split_and!; [done| |done]. split; [done|]. intros [_ Hpre].
        apply prefix_length in Hpre. simpl in Hpre. lia. }
    destruct (buffered_nonempty s Hbo Hlt) as (c & bs & Eb & Hp).
    setoid_rewrite stm_bind_eq. rewrite Hp. case_decide as Hc.
    + eexists _, _. split; [reflexivity|]. split.
      * split; [|done]. intros _. split; [lia|]. rewrite Eb. exists bs.
        rewrite <- Hc, byte_of_to_Z. done.
      * apply (ok_advance s 1); [done|lia].
    + exists false, s. split_and!; [done| |done]. split; [done|]. intros [_ [k Hpre]].
      rewrite Eb in Hpre. simpl in Hpre. simplify_eq. rewrite byte_to_of_Z in Hc by lia. done.
  - destruct (decide (tag < 2 ^ 14)) as [Ht2|Ht2].
    2:{ exists false, s. split_and!; [done| |done]. split; [done|]. intros [? _]. lia. }
    rewrite varint_two_bytes by lia. cbn [length]. rewrite BufferSize_eq by done.
    case_decide as Hlt.
    2:{ exists false, s. split_and!; [done| |done]. split; [done|]. intros [_ Hpre].
        apply prefix_length in Hpre. simpl in Hpre. lia. }
    destruct (buffered_nonempty s Hbo ltac:(lia)) as (c & bs & Eb & Hp).
    rewrite Eb in Hl. destruct bs as [|c1 bs]; [simpl in Hl; lia|].
    pose proof (buffered_at s (c :: [c1]) bs Hbo Eb) as Ha.
    apply at_pos_cons in Ha as [_ Ha]. apply at_pos_cons in Ha as [Hat _].
    assert (Hp1 : peek 1 s = Done (byte_to_Z c1, s)).
    { unfold peek. rewrite stm_bind_eq. cbn [st_get]. unfold st_lift. rewrite Hat. reflexivity. }
    assert (Hu8 : forall x y, byte_to_Z x = u8 y <-> x = byte_of_Z y).
    { intros x y. unfold u8. change (2 ^ 8) with 256. rewrite <- byte_to_Z_of_Z. split; [apply (inj _)|by intros ->]. }
    assert (Hno : ~ (c = byte_of_Z (Z.lor tag 128) /\ c1 = byte_of_Z (Z.shiftr tag 7)) ->
      (false = true <-> tag < 2 ^ 14 /\ [byte_of_Z (Z.lor tag 128); byte_of_Z (Z.shiftr tag 7)] `prefix_of` buffered s)).
    { intros Hne. split; [done|]. intros [_ [k Hpre]]. rewrite Eb in Hpre. simpl in Hpre.
      injection Hpre as E0 E1 _. destruct Hne. done. }
    setoid_rewrite stm_bind_eq. rewrite Hp. case_decide as Hc.
    2:{ exists false, s. split_and!; [done| |done]. apply Hno. rewrite Hu8 in Hc. tauto. }
    setoid_rewrite stm_bind_eq. rewrite Hp1. case_decide as Hc1.
    2:{ exists false, s. split_and!; [done| |done]. apply Hno. rewrite Hu8 in Hc1. tauto. }
    rewrite Hu8 in Hc, Hc1. subst c c1.
    eexists _, _. split; [reflexivity|]. split.
    + split; [|done]. intros _. split; [lia|]. rewrite Eb. by exists bs.
    + apply (ok_advance s 2); [done|]. simpl in Hl. lia.
Qed.

(** Nothing is read at the end of the input. *)
Lemma ReadVarint32_end s : in_ok s -> remaining s = [] ->
  exists x s', ReadVarint32 s = Done ((false, x), s').
Proof.
  intros Hok Hr. unfold ReadVarint32.
  destruct (fast_byte_end (fun b => result ← ReadVarint32Fallback b; mret (bool_decide (0 <= result), u32 result))
    (fun b => (true, b)) s Hok Hr) as [E Hb]. rewrite E.
  destruct (law_varint32_end s 0 Hok Hb Hr) as (s' & E'). do 2 eexists. rewrite stm_bind_eq, E'. reflexivity.
Qed.

Lemma ReadVarint64_end s : in_ok s -> remaining s = [] ->
  exists x s', ReadVarint64 s = Done ((false, x), s').
Proof.
  intros Hok Hr. unfold ReadVarint64.
  destruct (fast_byte_end (fun b => p ← ReadVarint64Fallback; mret (snd p, fst p))
    (fun b => (true, b)) s Hok Hr) as [E Hb]. rewrite E.
  destruct (law_varint64_end s Hok Hr) as (x & s' & E'). do 2 eexists. rewrite stm_bind_eq, E'. reflexivity.
Qed.

(** A fixed-size number needs all of its bytes. *)
Lemma ReadLittleEndian32_end s : in_ok s -> (length (remaining s) < 4)%nat ->
  exists x s', ReadLittleEndian32 s = Done ((false, x), s').
Proof.
  intros Hok Hr. unfold ReadLittleEndian32. setoid_rewrite stm_bind_eq. cbn [st_get].
  pose proof (ok_buffer s Hok) as Hbo. destruct (ok_remaining s Hok) as [tl Htl].
  pose proof (length_buffered s Hbo). rewrite Htl, length_app in Hr.
  rewrite decide_False by (rewrite BufferSize_eq by done; lia).
  apply law_fixed32_end; [done|]. rewrite Htl, length_app. lia.
Qed.

Lemma ReadLittleEndian64_end s : in_ok s -> (length (remaining s) < 8)%nat ->
  exists x s', ReadLittleEndian64 s = Done ((false, x), s').
Proof.
  intros Hok Hr. unfold ReadLittleEndian64. setoid_rewrite stm_bind_eq. cbn [st_get].
  pose proof (ok_buffer s Hok) as Hbo. destruct (ok_remaining s Hok) as [tl Htl].
  pose proof (length_buffered s Hbo). rewrite Htl, length_app in Hr.
  rewrite decide_False by (rewrite BufferSize_eq by done; lia).
  apply law_fixed64_end; [done|]. rewrite Htl, length_app. lia.
Qed.

Lemma ReadVarintSizeAsInt_end s : in_ok s -> remaining s = [] ->
  exists x s', ReadVarintSizeAsInt s = Done ((false, x), s').
Proof.
  intros Hok Hr. unfold ReadVarintSizeAsInt.
  destruct (fast_byte_end (fun b => value ← ReadVarintSizeAsIntFallback; mret (bool_decide (0 <= value), value))
    (fun b => (true, b)) s Hok Hr) as [E Hb]. rewrite E.
  destruct (law_size_end s Hok Hr) as (x & s' & E' & Hx). do 2 eexists.
  rewrite stm_bind_eq, E', bool_decide_false by lia. reflexivity.
Qed.

Lemma ReadTagNoLastTag_end s : in_ok s -> remaining s = [] ->
  exists s', ReadTagNoLastTag s = Done (0, s').
Proof.
  intros Hok Hr. unfold ReadTagNoLastTag.
  destruct (fast_byte_end ReadTagFallback (fun b => b) s Hok Hr) as [E Hb]. rewrite E.
  destruct (law_tag_end s 0 Hok Hb Hr) as (s' & E' & _). by exists s'.
Qed.

Lemma Skip_spec s n :
  in_ok s -> (n <= length (remaining s))%nat ->
  exists s', Skip (Z.of_nat n) s = Done (true, s') /\ after s (drop n (remaining s)) s'.
Proof.
  intros Hok Hn. pose proof (ok_buffer s Hok) as Hbo. unfold Skip.
  rewrite decide_False by lia. setoid_rewrite stm_bind_eq. cbn [st_gets].
  case_decide as Hsz.
  - rewrite BufferSize_eq in Hsz by done. eexists. split; [reflexivity|].
    rewrite <- (Nat2Z.id n) at 1. apply ok_advance; [done|lia].
  - apply law_skip; [done| |done|lia]. rewrite length_take. lia.
Qed.

Lemma Skip_negative s n : n < 0 -> Skip n s = Done (false, s).
Proof. intros Hn. unfold Skip. by rewrite decide_True. Qed.
End input_laws.

(** ** The output stream *)

Implicit Types o : CodedOutputStream.

(** The bytes written so far. *)
Definition written o : list byte := out_previous o ++ take (Z.to_nat (out_buffer_ o)) (out_array o).

Definition out_buffer_ok o : Prop :=
  0 <= out_buffer_ o /\ 0 <= out_buffer_size_ o < 2 ^ 31 /\
  out_buffer_ o + out_buffer_size_ o <= Z.of_nat (length (out_array o)) /\
  out_buffer_ o < 2 ^ 31.

(** The stream was extended by [bs], or it has an error. *)
Definition extends (out_ok : CodedOutputStream -> Prop) o (bs : list byte) o' : Prop :=
  out_ok o' /\ (out_had_error_ o = true -> out_had_error_ o' = true) /\
  (out_had_error_ o' = false -> written o' = written o ++ bs).

(** A writer of [bs] never faults. *)
Definition appends (out_ok : CodedOutputStream -> Prop) (m : stm CodedOutputStream unit)
    (bs : list byte) : Prop :=
  forall o, out_ok o -> exists o', m o = Done (tt, o') /\ extends out_ok o bs o'.

Class OutputView := { out_ok : CodedOutputStream -> Prop }.

Class OutputLaws `{OutputFallbacks, OutputView} : Prop := {
  out_ok_buffer o : out_ok o -> out_buffer_ok o;
  (** Filling a part of the current buffer. *)
  out_ok_fill o m n : out_ok o -> 0 <= n <= out_buffer_size_ o -> length m = length (out_array o) ->
    out_ok (set_out_buffer m (out_buffer_ o + n) (out_buffer_size_ o - n) o);
  law_raw_out data : Z.of_nat (length data) < 2 ^ 31 ->
    appends out_ok (WriteRaw data (Z.of_nat (length data))) data;
  law_aliased_out data : Z.of_nat (length data) < 2 ^ 31 ->
    appends out_ok (WriteAliasedRaw data (Z.of_nat (length data))) data;
  law_fixed32_out v : appends out_ok (WriteLittleEndian32 v) (le_split 4 v);
  law_fixed64_out v : appends out_ok (WriteLittleEndian64 v) (le_split 8 v);
  law_slow32_out v : 0 <= v < 2 ^ 32 -> appends out_ok (WriteVarint32SlowPath v) (varint v);
  law_slow64_out v : 0 <= v < 2 ^ 64 -> appends out_ok (WriteVarint64SlowPath v) (varint v);
  law_raw_array data : Z.of_nat (length data) < 2 ^ 31 ->
    writes (WriteRawToArray data (Z.of_nat (length data))) data;
  law_string_array data : Z.of_nat (length data) < 2 ^ 31 ->
    writes (WriteStringWithSizeToArray data) (varint (Z.of_nat (length data)) ++ data);
}.

Section output_laws.
  Context `{OutputLaws}.

Lemma appends_ret : appends out_ok (mret tt) [].
Proof.
  intros o Ho. exists o. split; [done|]. split_and!; [done|done|]. intros. by rewrite app_nil_r.
Qed.

Lemma appends_seq (m1 m2 : stm CodedOutputStream unit) bs1 bs2 :
  appends out_ok m1 bs1 -> appends out_ok m2 bs2 -> appends out_ok (m1 ;; m2) (bs1 ++ bs2).
Proof.
  intros H1' H2' o Ho.
  destruct (H1' o Ho) as (o1 & E1 & Hok1 & Herr1 & Hw1).
  destruct (H2' o1 Hok1) as (o2 & E2 & Hok2 & Herr2 & Hw2).
  exists o2. split; [by rewrite stm_bind_eq, E1|]. split_and!; [done|auto|].
  intros He. rewrite Hw2 by done. rewrite Hw1; [by rewrite app_assoc|].
  destruct (out_had_error_ o1); [by rewrite Herr2 in He|done].
Qed.

(** The fast paths: a [ToArray] writer in the current buffer. *)
Lemma write_here_appends w bs (n : Z) o :
  writes w bs -> out_ok o -> Z.of_nat (length bs) <= n -> n <= out_buffer_size_ o ->
  exists o', (end_ ← write_here w; AdvanceOutput (i32 (end_ - out_buffer_ o))) o = Done (tt, o') /\
    extends out_ok o bs o'.
Proof.
  intros Hw Ho Hlen Hn. pose proof (out_ok_buffer o Ho) as (Hb & Hs & Hl & Hb31).
  set (m := splice (Z.to_nat (out_buffer_ o)) bs (out_array o)).
  assert (Hm : length m = length (out_array o)) by (apply length_splice; lia).
  exists (set_out_buffer m (out_buffer_ o + Z.of_nat (length bs)) (out_buffer_size_ o - Z.of_nat (length bs)) o).
  split.
  - unfold write_here. rewrite stm_bind_eq, stm_bind_eq. cbn [st_get].
    rewrite stm_bind_eq. unfold st_lift. rewrite Hw by lia.
    cbn [fmap cres_fmap]. rewrite stm_bind_eq. cbn [st_modify mret stm_ret].
    replace (out_buffer_ o + Z.of_nat (length bs) - out_buffer_ o) with (Z.of_nat (length bs)) by lia.
    rewrite i32_small by lia. unfold AdvanceOutput. rewrite stm_bind_eq. cbn [st_get].
    rewrite stm_bind_eq. unfold st_lift. cbn [set_out_buffer out_buffer_size_ out_buffer_ out_array].
    rewrite int_op_ok by (unfold int_range; lia). reflexivity.
  - split_and!.
    + apply out_ok_fill; [done|lia|done].
    + done.
    + intros _. unfold written. cbn [set_out_buffer out_previous out_buffer_ out_array].
      rewrite <- app_assoc. f_equal.
      rewrite Z2Nat.inj_add, Nat2Z.id by lia. subst m. unfold splice. rewrite app_assoc.
      rewrite take_app_le by (rewrite length_app, length_take; lia).
      rewrite take_ge by (rewrite length_app, length_take; lia). done.
Qed.

Lemma WriteVarint32_appends v : 0 <= v < 2 ^ 32 -> appends out_ok (WriteVarint32 v) (varint v).
Proof.
  intros Hv o Ho. unfold WriteVarint32. setoid_rewrite stm_bind_eq. cbn [st_get].
  case_decide as Hs; [|by apply law_slow32_out].
  apply (write_here_appends _ _ 5); [by apply WriteVarint32ToArray_writes|done| |done].
  pose proof (length_varint_u32 v Hv). lia.
Qed.

Lemma WriteVarint64_appends v : 0 <= v < 2 ^ 64 -> appends out_ok (WriteVarint64 v) (varint v).
Proof.
  intros Hv o Ho. unfold WriteVarint64. setoid_rewrite stm_bind_eq. cbn [st_get].
  case_decide as Hs; [|by apply law_slow64_out].
  apply (write_here_appends _ _ 10); [by apply WriteVarint64ToArray_writes|done| |done].
  pose proof (length_varint v). lia.
Qed.

Lemma WriteVarint32SignExtended_appends v : appends out_ok (WriteVarint32SignExtended v) (varint (u64 v)).
Proof. apply WriteVarint64_appends, u64_range. Qed.

Lemma WriteString_appends str : Z.of_nat (length str) < 2 ^ 31 -> appends out_ok (WriteString str) str.
Proof. intros Hl. unfold WriteString. rewrite i32_small by lia. by apply law_raw_out. Qed.

Lemma WriteRawMaybeAliased_appends data : Z.of_nat (length data) < 2 ^ 31 ->
  appends out_ok (WriteRawMaybeAliased data (Z.of_nat (length data))) data.
Proof.
  intros Hl o Ho. unfold WriteRawMaybeAliased. setoid_rewrite stm_bind_eq. cbn [st_get].
  destruct (out_aliasing_enabled_ o); [by apply law_aliased_out|by apply law_raw_out].
Qed.
End output_laws.
