(* ===== verification/CodedStreamInv.v ===== *)
(** * Coded streams: what the calls do, and the invariant of the buffer

    [input_call] is a call of a method of [CodedInputStream] and [input_spec] what
    it does to the bytes that the stream delivers, the stack of its limits, its
    recursion budget and its last tag; [input_call_refines] shows it of the inline
    methods, on [InputLaws] and [NestingLaws].  [stream_inv] is the part that the
    termination of the readers needs: the pointers stay in order, as long as the
    out-of-line methods keep them so ([FallbacksKeep]). *)
From Stdlib Require Import ZArith Lia Strings.Byte.
From stdpp Require Import base tactics option list list_numbers relations.
From S2P Require Import Prelude Mem Bits Varint CodedStream CodedStreamLaws.

Implicit Types s : CodedInputStream.

(** ** The invariant

    Whatever sequence of methods runs, [buffer_] stays between the start of the
    array and [buffer_end_], and the recursion budget at most the limit. *)

Definition stream_inv s : Prop := buffer_ok s /\ recursion_budget_ s <= recursion_limit_ s.

(** A method that keeps the invariant. *)
Definition keeps {A} (m : stm CodedInputStream A) : Prop :=
  forall s r s', stream_inv s -> m s = Done (r, s') -> stream_inv s'.

(** Close a goal with a method that keeps the invariant. *)
Ltac by_keeps K := eapply K; [eassumption|eassumption].

Class FallbacksKeep `{InputFallbacks} : Prop := {
  keep_varint32 b : keeps (ReadVarint32Fallback b);
  keep_varint64 : keeps ReadVarint64Fallback;
  keep_size : keeps ReadVarintSizeAsIntFallback;
  keep_fixed32 : keeps ReadLittleEndian32Fallback;
  keep_fixed64 : keeps ReadLittleEndian64Fallback;
}.

Section keeps.
  Context `{FallbacksKeep}.

Lemma keeps_ret {A} (x : A) : keeps (mret x).
Proof. intros s r s' Hs [= _ <-]. done. Qed.

Lemma keeps_bind {A B} (m : stm CodedInputStream A) (k : A -> stm CodedInputStream B) :
  keeps m -> (forall x, keeps (k x)) -> keeps (m ≫= k).
Proof. intros Hm Hk s r s' Hs (x & s1 & H1 & H2)%stm_bind_Done. eapply Hk; [|done]. by eapply Hm. Qed.

(** A read of the state, and what is known of it afterwards. *)
Lemma keeps_get {A} (k : CodedInputStream -> stm CodedInputStream A) :
  (forall s r s', stream_inv s -> k s s = Done (r, s') -> stream_inv s') ->
  keeps (s ← st_get; k s).
Proof. intros Hk s r s' Hs Hm. by eapply Hk. Qed.

Lemma keeps_lift {A} (m : cres A) : keeps (st_lift m).
Proof. intros s r s' Hs Hm. unfold st_lift in Hm. by destruct m; simplify_eq/=. Qed.

(** A state change that keeps the pointers and the recursion counters. *)
Lemma keeps_modify f : (forall s, stream_inv s -> stream_inv (f s)) -> keeps (st_modify f).
Proof. intros Hf s r s' Hs Hm. injection Hm as _ <-. auto. Qed.

Lemma advance_inv s n : stream_inv s -> 0 <= n -> buffer_ s + n <= buffer_end_ s ->
  stream_inv (set_buffer (buffer_ s + n) s).
Proof.
  intros [(Hb & He & Hm) Hr] Hn Hle. split; [|done]. unfold buffer_ok.
  cbn [buffer_ set_buffer buffer_end_ buffer_array]. lia.
Qed.

Lemma peek_inv k s v s' : peek k s = Done (v, s') -> s' = s.
Proof.
  unfold peek. rewrite stm_bind_eq. cbn [st_get]. unfold st_lift.
  destruct (byte_at _ _); simpl; [by injection 1|done].
Qed.

(** The shape of the three varint readers. *)
Lemma keeps_fast_byte {A} (slow : Z -> stm CodedInputStream A) (k : Z -> A) :
  (forall b, keeps (slow b)) ->
  keeps (s0 ← st_get;
     b ← (if decide (buffer_ s0 < buffer_end_ s0) then peek 0 else mret 0);
     if decide (buffer_ s0 < buffer_end_ s0 /\ b < 128) then Advance 1 ;; mret (k b) else slow b).
Proof.
  intros Hslow. apply keeps_get. intros s r s' Hs (b & s1 & H1 & H2)%stm_bind_Done.
  assert (s1 = s) as ->.
  { destruct (decide (buffer_ s < buffer_end_ s)); [exact (peek_inv _ _ _ _ H1)|].
    change (Done (0, s) = Done (b, s1)) in H1. congruence. }
  clear H1. case_decide as Hd; [|by_keeps Hslow].
  rewrite stm_bind_eq in H2. cbn in H2. injection H2 as _ <-. apply advance_inv; [done|lia|lia].
Qed.

Lemma keeps_ReadVarint32 : keeps ReadVarint32.
Proof.
  unfold ReadVarint32. apply (keeps_fast_byte (fun b => result ← ReadVarint32Fallback b; _)).
  intros b. apply keeps_bind; [apply keep_varint32|]. intros. apply keeps_ret.
Qed.

Lemma keeps_ReadVarint64 : keeps ReadVarint64.
Proof.
  unfold ReadVarint64. apply (keeps_fast_byte (fun b => p ← ReadVarint64Fallback; _)).
  intros b. apply keeps_bind; [apply keep_varint64|]. intros. apply keeps_ret.
Qed.

Lemma keeps_ReadVarintSizeAsInt : keeps ReadVarintSizeAsInt.
Proof.
  unfold ReadVarintSizeAsInt. apply (keeps_fast_byte (fun b => value ← ReadVarintSizeAsIntFallback; _)).
  intros b. apply keeps_bind; [apply keep_size|]. intros. apply keeps_ret.
Qed.

(** The fixed-width reads, for a width of [n] bytes. *)
Lemma keeps_fixed (n : Z) (rd : list byte -> Z -> cres (Z * Z)) slow :
  0 <= n -> (forall m p q v, rd m p = Done (q, v) -> q = p + n) -> keeps slow ->
  keeps (s ← st_get;
    if decide (n <= BufferSize s) then
      '(p, v) ← st_lift (rd (buffer_array s) (buffer_ s));
      st_modify (set_buffer p) ;; mret (true, v)
    else slow).
Proof.
  intros Hn Hrd Hslow. apply keeps_get. intros s r s' Hs Hm.
  case_decide as Hsz; [|by_keeps Hslow].
  destruct Hs as [Hbo Hrec]. rewrite BufferSize_eq in Hsz by done.
  apply stm_bind_Done in Hm as ([p v] & s1 & H1 & H2). unfold st_lift in H1.
  destruct (rd (buffer_array s) (buffer_ s)) as [[p' v']|] eqn:E; simpl in H1; [|done].
  injection H1 as <- <- <-. apply Hrd in E as ->.
  rewrite stm_bind_eq in H2. cbn in H2. injection H2 as _ <-. apply advance_inv; [done|lia|lia].
Qed.

Lemma keeps_ReadLittleEndian32 : keeps ReadLittleEndian32.
Proof.
  apply (keeps_fixed 4); [lia| |apply keep_fixed32].
  intros m p q v (bs & _ & [= <- _])%cres_bind_Done. done.
Qed.

Lemma keeps_ReadLittleEndian64 : keeps ReadLittleEndian64.
Proof.
  apply (keeps_fixed 8); [lia| |apply keep_fixed64].
  intros m p q v (bs & _ & [= <- _])%cres_bind_Done. done.
Qed.

End keeps.

(** ** Limits and recursion

    What the header documents of the stack of limits, and the helpers that it
    documents by the code they are equivalent to. *)

(** The two streams deliver the same bytes: they differ in the last tag, the
    recursion counters and the extension registry at most. *)
Definition same_source s s' : Prop :=
  buffer_array s' = buffer_array s /\ buffer_ s' = buffer_ s /\ buffer_end_ s' = buffer_end_ s /\
  input_ s' = input_ s /\ total_bytes_read_ s' = total_bytes_read_ s /\
  overflow_bytes_ s' = overflow_bytes_ s /\ aliasing_enabled_ s' = aliasing_enabled_ s /\
  current_limit_ s' = current_limit_ s /\
  buffer_size_after_limit_ s' = buffer_size_after_limit_ s /\
  total_bytes_limit_ s' = total_bytes_limit_ s.

Class NestingLaws `{InputFallbacks, InputView} : Prop := {
  law_enter n s : IncrementRecursionDepthAndPushLimit n s =
    (l ← PushLimit n;
     _ ← IncrementRecursionDepth;
     b ← RecursionBudget;
     mret (l, b)) s;
  law_leave l s : DecrementRecursionDepthAndPopLimit l s =
    (result ← ConsumedEntireMessage;
     PopLimit l ;;
     UnsafeDecrementRecursionDepth ;;
     mret result) s;
  law_length_push s : ReadLengthAndPushLimit s =
    (r ← ReadVarint32;
     PushLimit (i32 (if fst r : bool then snd r else 0))) s;
  law_check_pop l s : CheckEntireMessageConsumedAndPopLimit l s =
    (result ← ConsumedEntireMessage;
     PopLimit l ;;
     mret result) s;
  (** "The stream conceptually has a stack of limits": an outer limit hides what
      an inner one hides and more, and is as before when the inner one is popped. *)
  law_push_inner s bs tl l s' old h : in_ok s -> remaining s = bs ++ tl ->
    PushLimit (Z.of_nat (length bs)) s = Done (l, s') -> pushed old h s -> pushed old (tl ++ h) s';
  law_pop_inner s l h s' old h' : in_ok s -> pushed l h s -> PopLimit l s = Done (tt, s') ->
    pushed old (h ++ h') s -> pushed old h' s';
  (** The last tag, the recursion counters and the extension registry have nothing
      to do with the bytes. *)
  law_source s s' : in_ok s -> same_source s s' ->
    in_ok s' /\ remaining s' = remaining s /\ (forall old h, pushed old h s -> pushed old h s');
  (** "If buffer_size_ == 0 and buffer_size_after_limit_ > 0, we know we've hit a
      limit"; and a limit that all the bytes read go up to. *)
  law_at_limit s : in_ok s -> buffer_ s = buffer_end_ s ->
    buffer_size_after_limit_ s <> 0 \/ total_bytes_read_ s = current_limit_ s -> remaining s = [];
  (** "Like ReadRaw, but reads into a string." *)
  law_string s bs tl : in_ok s -> remaining s = bs ++ tl ->
    exists s', ReadString (Z.of_nat (length bs)) s = Done ((true, bs), s') /\ after s tl s';
  (** "Either produces a non-empty buffer or returns false", and "does not advance". *)
  law_direct s : in_ok s -> remaining s <> [] ->
    exists n s', GetDirectBufferPointer s = Done (Some (buffer_ s', n), s') /\
      n = buffer_end_ s' - buffer_ s' /\ 0 < n /\ after s (remaining s) s';
  law_direct_end s : in_ok s -> remaining s = [] ->
    exists s', GetDirectBufferPointer s = Done (None, s');
}.

Lemma nest_recursion `{NestingLaws} s b l : in_ok s -> let s' := set_recursion b l s in
  in_ok s' /\ remaining s' = remaining s /\ (forall old h, pushed old h s -> pushed old h s').
Proof. intros Hok. by apply law_source. Qed.

Lemma IncrementRecursionDepth_eq s : int_range (recursion_budget_ s - 1) ->
  IncrementRecursionDepth s
  = Done (bool_decide (0 <= recursion_budget_ s - 1),
          set_recursion (recursion_budget_ s - 1) (recursion_limit_ s) s).
Proof.
  intros Hb. unfold IncrementRecursionDepth. rewrite stm_bind_eq. cbn [st_get].
  rewrite stm_bind_eq. unfold st_lift. by rewrite int_op_ok.
Qed.

Lemma UnsafeDecrementRecursionDepth_eq s : recursion_budget_ s < recursion_limit_ s ->
  UnsafeDecrementRecursionDepth s
  = Done (tt, set_recursion (recursion_budget_ s + 1) (recursion_limit_ s) s).
Proof.
  intros Hb. unfold UnsafeDecrementRecursionDepth. rewrite stm_bind_eq. cbn [st_get].
  rewrite stm_bind_eq. unfold st_lift. by rewrite dcheck_ok.
Qed.

(** ** The calls

    What a call does is said of a view of the stream: the bytes it delivers
    before the next limit, the limits that are open, each with the bytes that its
    pop gives back, the recursion counters, and the last tag and the mark of a
    legitimate end where they are known. *)

Record stream_view := SV {
  v_bytes : list byte;
  v_limits : list (Z * list byte);
  v_budget : Z;
  v_limit : Z;
  v_last_tag : option Z;
  v_end : option bool;
}.

Inductive answer :=
| Nothing
| Flag (b : bool)
| Value (v : option Z)
| Tag (t : Z) (in_range : bool)
| Data (bs : option (list byte))
| LimitOf (l : Z)
| LimitDepth (l budget : Z).

Inductive input_call :=
| IReadVarint32 | IReadVarint64 | IReadVarintSizeAsInt
| IReadLittleEndian32 | IReadLittleEndian64
| IReadRaw (n : Z) | IReadString (n : Z) | ISkip (n : Z)
| IGetDirectBufferPointer | IGetDirectBufferPointerInline
| IReadTag | IReadTagNoLastTag | IReadTagWithCutoff (cutoff : Z) | IExpectTag (expected : Z)
| IExpectAtEnd | ILastTagWas (expected : Z) | ISetLastTag (tag : Z)
| IConsumedEntireMessage | ISetConsumed
| IPushLimit (n : Z) | IPopLimit (l : Z) | IBytesUntilLimit
| IReadLengthAndPushLimit | ICheckEntireMessageConsumedAndPopLimit (l : Z)
| ISetRecursionLimit (n : Z) | IRecursionBudget
| IIncrementRecursionDepth | IDecrementRecursionDepth | IUnsafeDecrementRecursionDepth
| IIncrementRecursionDepthAndPushLimit (n : Z) | IDecrementRecursionDepthAndPopLimit (l : Z)
| ISetExtensionRegistry (pool factory : option Z).

(** A result and its [out] argument. *)
Definition out_value {A} (r : bool * A) : option A := if fst r then Some (snd r) else None.

(** The bytes from the pointer [p] on. *)
Definition bytes_at (p n : Z) s : list byte := take (Z.to_nat n) (drop (Z.to_nat p) (buffer_array s)).

Definition run_input `{InputFallbacks} (c : input_call) : stm CodedInputStream answer :=
  match c with
  | IReadVarint32 => r ← ReadVarint32; mret (Value (out_value r))
  | IReadVarint64 => r ← ReadVarint64; mret (Value (out_value r))
  | IReadVarintSizeAsInt => r ← ReadVarintSizeAsInt; mret (Value (out_value r))
  | IReadLittleEndian32 => r ← ReadLittleEndian32; mret (Value (out_value r))
  | IReadLittleEndian64 => r ← ReadLittleEndian64; mret (Value (out_value r))
  | IReadRaw n => r ← ReadRaw n; mret (Data (out_value r))
  | IReadString n => r ← ReadString n; mret (Data (out_value r))
  | ISkip n => r ← Skip n; mret (Flag r)
  | IGetDirectBufferPointer =>
      r ← GetDirectBufferPointer;
      bs ← st_gets (fun s => '(p, n) ← r; Some (bytes_at p n s));
      mret (Data bs)
  | IGetDirectBufferPointerInline =>
      r ← GetDirectBufferPointerInline;
      bs ← st_gets (bytes_at (fst r) (snd r));
      mret (Data (Some bs))
  | IReadTag => t ← ReadTag; mret (Value (Some t))
  | IReadTagNoLastTag => t ← ReadTagNoLastTag; mret (Value (Some t))
  | IReadTagWithCutoff cutoff => r ← ReadTagWithCutoff cutoff; mret (Tag (fst r) (snd r))
  | IExpectTag expected => b ← ExpectTag expected; mret (Flag b)
  | IExpectAtEnd => b ← ExpectAtEnd; mret (Flag b)
  | ILastTagWas expected => b ← LastTagWas expected; mret (Flag b)
  | ISetLastTag tag => SetLastTag tag ;; mret Nothing
  | IConsumedEntireMessage => b ← ConsumedEntireMessage; mret (Flag b)
  | ISetConsumed => SetConsumed ;; mret Nothing
  | IPushLimit n => l ← PushLimit n; mret (LimitOf l)
  | IPopLimit l => PopLimit l ;; mret Nothing
  | IBytesUntilLimit => n ← st_gets BytesUntilLimit; mret (Value (Some n))
  | IReadLengthAndPushLimit => l ← ReadLengthAndPushLimit; mret (LimitOf l)
  | ICheckEntireMessageConsumedAndPopLimit l =>
      b ← CheckEntireMessageConsumedAndPopLimit l; mret (Flag b)
  | ISetRecursionLimit n => SetRecursionLimit n ;; mret Nothing
  | IRecursionBudget => n ← RecursionBudget; mret (Value (Some n))
  | IIncrementRecursionDepth => b ← IncrementRecursionDepth; mret (Flag b)
  | IDecrementRecursionDepth => DecrementRecursionDepth ;; mret Nothing
  | IUnsafeDecrementRecursionDepth => UnsafeDecrementRecursionDepth ;; mret Nothing
  | IIncrementRecursionDepthAndPushLimit n =>
      r ← IncrementRecursionDepthAndPushLimit n; mret (LimitDepth (fst r) (snd r))
  | IDecrementRecursionDepthAndPopLimit l => b ← DecrementRecursionDepthAndPopLimit l; mret (Flag b)
  | ISetExtensionRegistry pool factory => SetExtensionRegistry pool factory ;; mret Nothing
  end.

(** *** Specification

    A read may go through an out-of-line method, of which it is not said whether
    it touches the last tag. *)
Implicit Types V : stream_view.

Definition reads (tl : list byte) V : stream_view := SV tl (v_limits V) (v_budget V) (v_limit V) None None.
Definition with_tag (t : Z) V : stream_view :=
  SV (v_bytes V) (v_limits V) (v_budget V) (v_limit V) (Some t) (v_end V).
Definition with_end V : stream_view :=
  SV (v_bytes V) (v_limits V) (v_budget V) (v_limit V) (v_last_tag V) (Some true).
Definition with_recursion (b l : Z) V : stream_view :=
  SV (v_bytes V) (v_limits V) b l (v_last_tag V) (v_end V).
Definition push_view (l : Z) (bs tl : list byte) V : stream_view :=
  SV bs ((l, tl) :: v_limits V) (v_budget V) (v_limit V) None None.
Definition pop_view (h : list byte) V : stream_view :=
  SV (v_bytes V ++ h) (tail (v_limits V)) (v_budget V) (v_limit V) None None.

(** The integer that the call reads is [v], in the encoding [e]. *)
Inductive reads_value : input_call -> list byte -> Z -> Prop :=
| value_varint32 v : 0 <= v < 2 ^ 64 -> reads_value IReadVarint32 (varint v) (u32 v)
| value_varint64 v : 0 <= v < 2 ^ 64 -> reads_value IReadVarint64 (varint v) v
| value_size v : 0 <= v < 2 ^ 31 -> reads_value IReadVarintSizeAsInt (varint v) v
| value_fixed32 v : reads_value IReadLittleEndian32 (le_split 4 v) (u32 v)
| value_fixed64 v : reads_value IReadLittleEndian64 (le_split 8 v) (u64 v)
| value_tag v : 0 <= v < 2 ^ 32 -> reads_value IReadTagNoLastTag (varint v) v.

(** [n] raw bytes. *)
Inductive reads_bytes : input_call -> list byte -> answer -> Prop :=
| bytes_raw bs : reads_bytes (IReadRaw (Z.of_nat (length bs))) bs (Data (Some bs))
| bytes_string bs : reads_bytes (IReadString (Z.of_nat (length bs))) bs (Data (Some bs))
| bytes_skip bs : reads_bytes (ISkip (Z.of_nat (length bs))) bs (Flag true).

(** There is no integer left: the call fails. *)
Inductive reads_nothing : input_call -> list byte -> answer -> Prop :=
| nothing_varint32 : reads_nothing IReadVarint32 [] (Value None)
| nothing_varint64 : reads_nothing IReadVarint64 [] (Value None)
| nothing_size : reads_nothing IReadVarintSizeAsInt [] (Value None)
| nothing_size_big v tl : 2 ^ 31 <= v < 2 ^ 64 ->
    reads_nothing IReadVarintSizeAsInt (varint v ++ tl) (Value None)
| nothing_fixed32 bs : (length bs < 4)%nat -> reads_nothing IReadLittleEndian32 bs (Value None)
| nothing_fixed64 bs : (length bs < 8)%nat -> reads_nothing IReadLittleEndian64 bs (Value None)
| nothing_tag : reads_nothing IReadTag [] (Value (Some 0))
| nothing_tag_no_last : reads_nothing IReadTagNoLastTag [] (Value (Some 0))
| nothing_direct : reads_nothing IGetDirectBufferPointer [] (Data None).

(** What a call does to the view; [None]: the call failed, and the stream is "no
    longer useful". *)
Inductive input_spec V : input_call -> answer -> option stream_view -> Prop :=
| spec_value c e v tl : reads_value c e v -> v_bytes V = e ++ tl ->
    input_spec V c (Value (Some v)) (Some (reads tl V))
| spec_bytes c bs r tl : reads_bytes c bs r -> v_bytes V = bs ++ tl ->
    input_spec V c r (Some (reads tl V))
| spec_nothing c r : reads_nothing c (v_bytes V) r -> input_spec V c r None
| spec_skip_negative n : n < 0 -> input_spec V (ISkip n) (Flag false) (Some V)
| spec_direct bs tl : v_bytes V = bs ++ tl -> bs <> [] ->
    input_spec V IGetDirectBufferPointer (Data (Some bs)) (Some (reads (v_bytes V) V))
| spec_direct_inline bs tl : v_bytes V = bs ++ tl ->
    input_spec V IGetDirectBufferPointerInline (Data (Some bs)) (Some V)
(** Tags. *)
| spec_ReadTag v tl : 0 <= v < 2 ^ 32 -> v_bytes V = varint v ++ tl ->
    input_spec V IReadTag (Value (Some v)) (Some (with_tag v (reads tl V)))
| spec_ReadTagWithCutoff v cutoff tl : 1 <= v < 2 ^ 32 -> 0 <= cutoff < 2 ^ 32 ->
    v_bytes V = varint v ++ tl ->
    input_spec V (IReadTagWithCutoff cutoff) (Tag v (bool_decide (v <= cutoff)))
      (Some (with_tag v (reads tl V)))
| spec_ExpectTag v tl : 0 <= v < 2 ^ 32 -> v_bytes V = varint v ++ tl ->
    input_spec V (IExpectTag v) (Flag true) (Some (reads tl V))
| spec_ExpectTag_other v : 0 <= v < 2 ^ 32 -> input_spec V (IExpectTag v) (Flag false) (Some V)
| spec_ExpectAtEnd : v_bytes V = [] ->
    input_spec V IExpectAtEnd (Flag true) (Some (with_end (with_tag 0 V)))
| spec_ExpectAtEnd_other : input_spec V IExpectAtEnd (Flag false) (Some V)
| spec_LastTagWas t expected : v_last_tag V = Some t ->
    input_spec V (ILastTagWas expected) (Flag (bool_decide (t = expected))) (Some V)
| spec_SetLastTag t : input_spec V (ISetLastTag t) Nothing (Some (with_tag t V))
| spec_ConsumedEntireMessage b : v_end V = Some b ->
    input_spec V IConsumedEntireMessage (Flag b) (Some V)
| spec_SetConsumed : input_spec V ISetConsumed Nothing (Some (with_end V))
| spec_SetExtensionRegistry p f : input_spec V (ISetExtensionRegistry p f) Nothing (Some V)
(** Limits. *)
| spec_PushLimit l bs tl : v_bytes V = bs ++ tl -> Z.of_nat (length bs) < 2 ^ 31 ->
    input_spec V (IPushLimit (Z.of_nat (length bs))) (LimitOf l) (Some (push_view l bs tl V))
| spec_PopLimit l h L : v_limits V = (l, h) :: L ->
    input_spec V (IPopLimit l) Nothing (Some (pop_view h V))
| spec_BytesUntilLimit p L : v_limits V = p :: L ->
    input_spec V IBytesUntilLimit (Value (Some (Z.of_nat (length (v_bytes V))))) (Some V)
| spec_ReadLengthAndPushLimit l bs tl :
    v_bytes V = varint (Z.of_nat (length bs)) ++ bs ++ tl -> Z.of_nat (length bs) < 2 ^ 31 ->
    input_spec V IReadLengthAndPushLimit (LimitOf l) (Some (push_view l bs tl V))
| spec_CheckPop l h L b : v_limits V = (l, h) :: L -> v_end V = Some b ->
    input_spec V (ICheckEntireMessageConsumedAndPopLimit l) (Flag b) (Some (pop_view h V))
(** Recursion. *)
| spec_SetRecursionLimit n :
    int_range (n - v_limit V) -> int_range (v_budget V + (n - v_limit V)) ->
    input_spec V (ISetRecursionLimit n) Nothing
      (Some (with_recursion (v_budget V + (n - v_limit V)) n V))
| spec_RecursionBudget : input_spec V IRecursionBudget (Value (Some (v_budget V))) (Some V)
| spec_Increment : int_range (v_budget V - 1) ->
    input_spec V IIncrementRecursionDepth (Flag (bool_decide (1 <= v_budget V)))
      (Some (with_recursion (v_budget V - 1) (v_limit V) V))
| spec_Decrement :
    input_spec V IDecrementRecursionDepth Nothing
      (Some (with_recursion (if decide (v_budget V < v_limit V) then v_budget V + 1 else v_budget V)
               (v_limit V) V))
| spec_UnsafeDecrement : v_budget V < v_limit V ->
    input_spec V IUnsafeDecrementRecursionDepth Nothing
      (Some (with_recursion (v_budget V + 1) (v_limit V) V))
| spec_IncrementPush l bs tl : v_bytes V = bs ++ tl -> Z.of_nat (length bs) < 2 ^ 31 ->
    int_range (v_budget V - 1) ->
    input_spec V (IIncrementRecursionDepthAndPushLimit (Z.of_nat (length bs)))
      (LimitDepth l (v_budget V - 1))
      (Some (with_recursion (v_budget V - 1) (v_limit V) (push_view l bs tl V)))
| spec_DecrementPop l h L b : v_limits V = (l, h) :: L -> v_end V = Some b ->
    v_budget V < v_limit V ->
    input_spec V (IDecrementRecursionDepthAndPopLimit l) (Flag b)
      (Some (with_recursion (v_budget V + 1) (v_limit V) (pop_view h V))).

(** *** Refinement *)

(** The limits that are open, the innermost first: popping to one of them gives
    back what it hides on top of the ones within it. *)
Fixpoint stacked `{InputView} s (hidden : list byte) (L : list (Z * list byte)) : Prop :=
  match L with
  | [] => True
  | (l, h) :: L => pushed l (hidden ++ h) s /\ stacked s (hidden ++ h) L
  end.

Record stream_rep `{InputView} s V : Prop := {
  rep_ok : in_ok s;
  rep_bytes : remaining s = v_bytes V;
  rep_limits : stacked s [] (v_limits V);
  rep_budget : recursion_budget_ s = v_budget V;
  rep_limit : recursion_limit_ s = v_limit V;
  rep_last_tag t : v_last_tag V = Some t -> last_tag_ s = t;
  rep_end b : v_end V = Some b -> legitimate_message_end_ s = b;
}.

Section refine.
  Context `{InputLaws}.
  Context {N : NestingLaws}.

(** A call from [s] does what it should. *)
Definition does s V (c : input_call) : Prop :=
  exists r s' O, run_input c s = Done (r, s') /\ input_spec V c r O /\
    (forall V', O = Some V' -> stream_rep s' V').

Lemma does_done s V c r s' V' :
  run_input c s = Done (r, s') -> input_spec V c r (Some V') -> stream_rep s' V' -> does s V c.
Proof. intros E Hs Hr. exists r, s', (Some V'). split_and!; [done|done|by intros ? [= <-]]. Qed.

Lemma does_fail s V c r s' : run_input c s = Done (r, s') -> input_spec V c r None -> does s V c.
Proof. intros E Hs. by exists r, s', None. Qed.

Lemma stacked_mono s s' hidden L :
  (forall old h, pushed old h s -> pushed old h s') -> stacked s hidden L -> stacked s' hidden L.
Proof. intros Hp. revert hidden. induction L as [|[l h] L IH]; [done|]. intros hidden [Hs1 Hs2]. split; auto. Qed.

Lemma rep_after s V tl s' : stream_rep s V -> after s tl s' -> stream_rep s' (reads tl V).
Proof.
  intros [] (Hok & Hr & Hp & Hb & Hl). split; try done; cbn; [by eapply stacked_mono|congruence|congruence].
Qed.

(** The source of the bytes is the same. *)
Lemma rep_source s V s' V' : stream_rep s V -> same_source s s' ->
  v_bytes V' = v_bytes V -> v_limits V' = v_limits V ->
  recursion_budget_ s' = v_budget V' -> recursion_limit_ s' = v_limit V' ->
  (forall t, v_last_tag V' = Some t -> last_tag_ s' = t) ->
  (forall b, v_end V' = Some b -> legitimate_message_end_ s' = b) -> stream_rep s' V'.
Proof.
  intros [Hok Hr Hst] Hs Hb Hl. destruct (law_source s s' Hok Hs) as (Hok' & Hr' & Hp').
  split; try done; [congruence|]. rewrite Hl. by eapply stacked_mono.
Qed.

Lemma rep_push s V bs tl : stream_rep s V -> v_bytes V = bs ++ tl -> Z.of_nat (length bs) < 2 ^ 31 ->
  exists l s', PushLimit (Z.of_nat (length bs)) s = Done (l, s') /\ stream_rep s' (push_view l bs tl V).
Proof.
  intros Hrep Hv Hlen. destruct Hrep as [Hok Hr Hst Hb Hl _ _]. rewrite Hv in Hr.
  destruct (law_push s bs tl Hok Hr Hlen) as (old & s1 & E & Hok1 & Hr1 & Hp1 & Hb1 & Hl1).
  exists old, s1. split; [done|]. split; cbn; try done; [|congruence|congruence].
  split; [done|]. assert (G : forall L h, stacked s h L -> stacked s1 (tl ++ h) L).
  { induction L as [|[l' h'] L IH]; [done|]. intros h [Hq1 Hq2]. cbn. rewrite <- app_assoc.
    split; [eapply law_push_inner; [exact Hok|exact Hr|exact E|exact Hq1]|by apply IH]. }
  specialize (G _ _ Hst). by rewrite app_nil_r in G.
Qed.

Lemma rep_pop s V l h L : stream_rep s V -> v_limits V = (l, h) :: L ->
  exists s', PopLimit l s = Done (tt, s') /\ stream_rep s' (pop_view h V).
Proof.
  intros [Hok Hr Hst Hb Hl _ _] Hv. rewrite Hv in Hst. destruct Hst as [Hp Hst]. cbn in Hp, Hst.
  destruct (law_pop s l h Hok Hp) as (s1 & E & Hok1 & Hr1 & Hb1 & Hl1).
  exists s1. split; [done|]. split; cbn; try done; [congruence| |congruence|congruence].
  rewrite Hv. cbn. assert (G : forall L h', stacked s (h ++ h') L -> stacked s1 h' L).
  { clear Hst. induction L0 as [|[l' h2] L0 IH]; [done|]. intros h' [Hq1 Hq2]. cbn. rewrite <- app_assoc in Hq1, Hq2.
    split; [eapply law_pop_inner; [exact Hok|exact Hp|exact E|exact Hq1]|by apply IH]. }
  apply G. by rewrite app_nil_r.
Qed.

(** **** Reads *)

Lemma does_value s V c e v tl : stream_rep s V -> reads_value c e v -> v_bytes V = e ++ tl -> does s V c.
Proof.
  intros Hrep Hc Hv. pose proof (rep_ok _ _ Hrep) as Hok.
  assert (Hr : remaining s = e ++ tl) by (rewrite <- Hv; apply Hrep).
  assert (G : exists s', run_input c s = Done (Value (Some v), s') /\ after s tl s').
  { destruct Hc; cbn [run_input]; setoid_rewrite stm_bind_eq.
    - destruct (ReadVarint32_spec s v tl) as (s' & E & Ha); [done..|]. rewrite E. by exists s'.
    - destruct (ReadVarint64_spec s v tl) as (s' & E & Ha); [done..|]. rewrite E. by exists s'.
    - destruct (ReadVarintSizeAsInt_spec s v tl) as (s' & E & Ha); [done..|]. rewrite E. by exists s'.
    - destruct (ReadLittleEndian32_spec s v tl) as (s' & E & Ha); [done..|]. rewrite E. by exists s'.
    - destruct (ReadLittleEndian64_spec s v tl) as (s' & E & Ha); [done..|]. rewrite E. by exists s'.
    - destruct (ReadTagNoLastTag_spec s v tl) as (s' & E & Ha & _); [done..|]. rewrite E. by exists s'. }
  destruct G as (s' & E & Ha). eapply does_done; [exact E|by eapply spec_value|by eapply rep_after].
Qed.
Lemma does_bytes s V c bs r tl : stream_rep s V -> reads_bytes c bs r -> v_bytes V = bs ++ tl -> does s V c.
Proof.
  intros Hrep Hc Hv. pose proof (rep_ok _ _ Hrep) as Hok.
  assert (Hr : remaining s = bs ++ tl) by (rewrite <- Hv; apply Hrep).
  assert (G : exists s', run_input c s = Done (r, s') /\ after s tl s').
  { destruct Hc; cbn [run_input]; setoid_rewrite stm_bind_eq.
    - destruct (law_raw s bs tl) as (s' & E & Ha); [done..|]. rewrite E. by exists s'.
    - destruct (law_string s bs tl) as (s' & E & Ha); [done..|]. rewrite E. by exists s'.
    - destruct (Skip_spec s (length bs)) as (s' & E & Ha); [done|rewrite Hr, length_app; lia|].
      rewrite Hr, drop_app_length in Ha. rewrite E. by exists s'. }
  destruct G as (s' & E & Ha). eapply does_done; [exact E|by eapply spec_bytes|by eapply rep_after].
Qed.

Lemma does_nothing s V c r : stream_rep s V -> reads_nothing c (v_bytes V) r -> does s V c.
Proof.
  intros Hrep Hc. pose proof (rep_ok _ _ Hrep) as Hok. pose proof (rep_bytes _ _ Hrep) as Hr.
  assert (G : exists s', run_input c s = Done (r, s')).
  { rewrite <- Hr in Hc. inversion Hc as [E|E|E|v tl Hv E|bs Hn|bs Hn|E|E|E]; subst c r;
      cbn [run_input]; setoid_rewrite stm_bind_eq.
    - destruct (ReadVarint32_end s) as (x & s' & ->); [done..|by exists s'].
    - destruct (ReadVarint64_end s) as (x & s' & ->); [done..|by exists s'].
    - destruct (ReadVarintSizeAsInt_end s) as (x & s' & ->); [done..|by exists s'].
    - destruct (ReadVarintSizeAsInt_big s v tl) as (x & s' & ->); [done..|by exists s'].
    - destruct (ReadLittleEndian32_end s) as (x & s' & ->); [done..|by exists s'].
    - destruct (ReadLittleEndian64_end s) as (x & s' & ->); [done..|by exists s'].
    - destruct (ReadTag_end s) as (s' & -> & _); [done..|by exists s'].
    - destruct (ReadTagNoLastTag_end s) as (s' & ->); [done..|by exists s'].
    - destruct (law_direct_end s) as (s' & ->); [done..|by exists s']. }
  destruct G as (s' & E). eapply does_fail; [exact E|by apply spec_nothing].
Qed.

(** The bytes at the pointer are the next ones of the stream. *)
Lemma bytes_at_buffer s : bytes_at (buffer_ s) (buffer_end_ s - buffer_ s) s = buffered s.
Proof. done. Qed.

Lemma does_direct s V : stream_rep s V -> v_bytes V <> [] -> does s V IGetDirectBufferPointer.
Proof.
  intros Hrep Hv. pose proof (rep_ok _ _ Hrep) as Hok. pose proof (rep_bytes _ _ Hrep) as Hr.
  destruct (law_direct s Hok ltac:(congruence)) as (n & s' & E & -> & Hn & Ha).
  destruct (ok_remaining s' ltac:(apply Ha)) as (tl & Htl). destruct Ha as (Hok' & Hr' & Ha).
  pose proof (length_buffered s' (ok_buffer s' Hok')) as Hl.
  apply (does_done s V _ (Data (Some (buffered s'))) s' (reads (v_bytes V) V)).
  - cbn [run_input]. by rewrite stm_bind_eq, E.
  - apply (spec_direct V _ tl); [congruence|]. intros E0. rewrite E0 in Hl. simpl in Hl. lia.
  - eapply rep_after; [done|]. split_and!; [done|congruence|apply Ha..].
Qed.

Lemma does_direct_inline s V : stream_rep s V -> does s V IGetDirectBufferPointerInline.
Proof.
  intros Hrep. pose proof (rep_ok _ _ Hrep) as Hok. destruct (ok_remaining s Hok) as (tl & Htl).
  rewrite (rep_bytes _ _ Hrep) in Htl. apply (does_done s V _ (Data (Some (buffered s))) s V); [|by eapply spec_direct_inline|done].
  cbn [run_input]. rewrite stm_bind_eq. cbn. fold (BufferSize s).
  by rewrite BufferSize_eq by (by apply ok_buffer).
Qed.

Lemma does_skip_negative s V n : stream_rep s V -> n < 0 -> does s V (ISkip n).
Proof.
  intros Hrep Hn. eapply does_done; [|by apply spec_skip_negative|exact Hrep].
  cbn [run_input]. by rewrite stm_bind_eq, Skip_negative.
Qed.

(** **** Tags *)

Lemma rep_tagged s V tl s' t : stream_rep s V -> after s tl s' -> last_tag_ s' = t ->
  stream_rep s' (with_tag t (reads tl V)).
Proof.
  intros Hrep Ha Ht. destruct (rep_after s V tl s' Hrep Ha) as [].
  split; try done. cbn. congruence.
Qed.

Lemma does_ReadTag s V v tl : stream_rep s V -> 0 <= v < 2 ^ 32 -> v_bytes V = varint v ++ tl -> does s V IReadTag.
Proof.
  intros Hrep Hv Hb. destruct (ReadTag_spec s v tl (rep_ok _ _ Hrep) Hv) as (s' & E & Ha & Hl).
  { rewrite <- Hb. apply Hrep. }
  eapply does_done; [|by eapply spec_ReadTag|by eapply rep_tagged].
  cbn [run_input]. rewrite stm_bind_eq, E. done.
Qed.

Lemma does_ReadTagWithCutoff s V v cutoff tl : stream_rep s V -> 1 <= v < 2 ^ 32 -> 0 <= cutoff < 2 ^ 32 ->
  v_bytes V = varint v ++ tl -> does s V (IReadTagWithCutoff cutoff).
Proof.
  intros Hrep Hv Hc Hb.
  destruct (ReadTagWithCutoffNoLastTag_spec s v tl cutoff (rep_ok _ _ Hrep) Hv Hc) as (s' & E & Ha).
  { rewrite <- Hb. apply Hrep. }
  eapply does_done with (s' := set_last_tag v s'); [|by eapply spec_ReadTagWithCutoff|].
  - cbn [run_input]. rewrite stm_bind_eq. unfold ReadTagWithCutoff. by rewrite stm_bind_eq, E.
  - eapply rep_source; [by eapply rep_after|..]; try done; cbn; try congruence.
    + rewrite <- (rep_budget _ _ Hrep). apply Ha.
    + rewrite <- (rep_limit _ _ Hrep). apply Ha.
Qed.

Lemma does_ExpectTag s V v : stream_rep s V -> 0 <= v < 2 ^ 32 -> does s V (IExpectTag v).
Proof.
  intros Hrep Hv. destruct (ExpectTag_spec s v (rep_ok _ _ Hrep) Hv) as (r & s' & E & Hr & Ha).
  assert (E' : run_input (IExpectTag v) s = Done (Flag r, s')) by (cbn [run_input]; by rewrite stm_bind_eq, E).
  destruct r; [|subst; eapply does_done; [exact E'|by apply spec_ExpectTag_other|done]].
  destruct (proj1 Hr eq_refl) as (_ & [k Hk]). destruct (ok_remaining s (rep_ok _ _ Hrep)) as (tl & Htl).
  rewrite Hk, <- app_assoc in Htl. rewrite Htl, drop_app_length in Ha.
  eapply does_done; [exact E'| |by eapply rep_after].
  apply spec_ExpectTag; [done|]. rewrite <- Htl. symmetry. apply Hrep.
Qed.

Lemma does_ExpectAtEnd s V : stream_rep s V -> does s V IExpectAtEnd.
Proof.
  intros Hrep. destruct (decide (buffer_ s = buffer_end_ s /\
    (buffer_size_after_limit_ s <> 0 \/ total_bytes_read_ s = current_limit_ s))) as [Hd|Hd].
  - eapply does_done with (s' := set_message_end true (set_last_tag 0 s)).
    + cbn [run_input]. rewrite stm_bind_eq. unfold ExpectAtEnd. rewrite stm_bind_eq. cbn [st_get].
      rewrite decide_True by done. reflexivity.
    + apply spec_ExpectAtEnd. rewrite <- (rep_bytes _ _ Hrep). apply law_at_limit; [apply Hrep|apply Hd|apply Hd].
    + eapply rep_source; [exact Hrep|..]; try done; cbn; try congruence; apply Hrep.
  - eapply does_done; [|by apply spec_ExpectAtEnd_other|exact Hrep].
    cbn [run_input]. rewrite stm_bind_eq. unfold ExpectAtEnd. rewrite stm_bind_eq. cbn [st_get].
    by rewrite decide_False.
Qed.
(** A call that touches neither the bytes nor the limits. *)
Lemma does_field s V c r s' V' : stream_rep s V -> run_input c s = Done (r, s') ->
  input_spec V c r (Some V') -> same_source s s' ->
  v_bytes V' = v_bytes V -> v_limits V' = v_limits V ->
  recursion_budget_ s' = v_budget V' -> recursion_limit_ s' = v_limit V' ->
  (forall t, v_last_tag V' = Some t -> last_tag_ s' = t) ->
  (forall b, v_end V' = Some b -> legitimate_message_end_ s' = b) -> does s V c.
Proof. intros Hrep E Hs Hsrc. intros. eapply does_done; [exact E|exact Hs|by eapply rep_source]. Qed.

(** **** Limits and recursion *)

Lemma does_push s V bs tl : stream_rep s V -> v_bytes V = bs ++ tl -> Z.of_nat (length bs) < 2 ^ 31 ->
  does s V (IPushLimit (Z.of_nat (length bs))).
Proof.
  intros Hrep Hv Hl. destruct (rep_push s V bs tl Hrep Hv Hl) as (old & s' & E & Hrep').
  eapply does_done; [|by apply spec_PushLimit|exact Hrep']. cbn [run_input]. by rewrite stm_bind_eq, E.
Qed.

Lemma does_pop s V l h L : stream_rep s V -> v_limits V = (l, h) :: L -> does s V (IPopLimit l).
Proof.
  intros Hrep Hv. destruct (rep_pop s V l h L Hrep Hv) as (s' & E & Hrep').
  eapply does_done; [|by eapply spec_PopLimit|exact Hrep']. cbn [run_input]. by rewrite stm_bind_eq, E.
Qed.

Lemma does_until s V p L : stream_rep s V -> v_limits V = p :: L -> does s V IBytesUntilLimit.
Proof.
  intros Hrep Hv. eapply does_done; [|by eapply spec_BytesUntilLimit|exact Hrep].
  cbn [run_input]. rewrite stm_bind_eq. cbn [st_gets]. destruct p as [l h].
  pose proof (rep_limits _ _ Hrep) as Hst. rewrite Hv in Hst. destruct Hst as [Hp _].
  rewrite (law_until s l _ (rep_ok _ _ Hrep) Hp), (rep_bytes _ _ Hrep). done.
Qed.

Lemma does_length_push s V bs tl : stream_rep s V -> v_bytes V = varint (Z.of_nat (length bs)) ++ bs ++ tl ->
  Z.of_nat (length bs) < 2 ^ 31 -> does s V IReadLengthAndPushLimit.
Proof.
  intros Hrep Hv Hl. destruct (ReadVarint32_spec s (Z.of_nat (length bs)) (bs ++ tl) (rep_ok _ _ Hrep))
    as (s1 & E1 & Ha); [lia|by rewrite <- Hv; apply Hrep|].
  destruct (rep_push s1 (reads (bs ++ tl) V) bs tl) as (old & s' & E & Hrep'); [by eapply rep_after|done|done|].
  eapply does_done; [|by apply spec_ReadLengthAndPushLimit|exact Hrep'].
  cbn [run_input]. rewrite stm_bind_eq, law_length_push, stm_bind_eq, E1. cbn [fst snd].
  rewrite u32_small, i32_signed, E by (unfold int_range; lia). done.
Qed.

Lemma does_check_pop s V l h L b : stream_rep s V -> v_limits V = (l, h) :: L -> v_end V = Some b ->
  does s V (ICheckEntireMessageConsumedAndPopLimit l).
Proof.
  intros Hrep Hv Hb. destruct (rep_pop s V l h L Hrep Hv) as (s' & E & Hrep').
  eapply does_done; [|by eapply spec_CheckPop|exact Hrep']. cbn [run_input].
  rewrite stm_bind_eq, law_check_pop, stm_bind_eq. cbn [ConsumedEntireMessage st_gets].
  rewrite stm_bind_eq, E, (rep_end _ _ Hrep b Hb). done.
Qed.

(** The recursion counters of a represented stream. *)
Lemma rep_recursion s V b l : stream_rep s V ->
  stream_rep (set_recursion b l s) (with_recursion b l V).
Proof. intros Hrep. eapply rep_source; [exact Hrep|..]; try done; apply Hrep. Qed.

Lemma does_set_limit s V n : stream_rep s V -> int_range (n - v_limit V) ->
  int_range (v_budget V + (n - v_limit V)) -> does s V (ISetRecursionLimit n).
Proof.
  intros Hrep Hd Hb. eapply does_done; [|by apply spec_SetRecursionLimit|by apply rep_recursion].
  cbn [run_input]. unfold SetRecursionLimit. rewrite stm_bind_eq, stm_bind_eq. cbn [st_get].
  rewrite (rep_limit _ _ Hrep), (rep_budget _ _ Hrep), stm_bind_eq. unfold st_lift.
  rewrite int_op_ok by done. cbn. by rewrite int_op_ok.
Qed.

Lemma does_increment s V : stream_rep s V -> int_range (v_budget V - 1) -> does s V IIncrementRecursionDepth.
Proof.
  intros Hrep Hb. eapply does_done; [|by apply spec_Increment|by apply rep_recursion].
  cbn [run_input]. rewrite stm_bind_eq, IncrementRecursionDepth_eq by (by rewrite (rep_budget _ _ Hrep)).
  rewrite (rep_limit _ _ Hrep), (rep_budget _ _ Hrep).
  by rewrite (bool_decide_ext (0 <= v_budget V - 1) (1 <= v_budget V)) by lia.
Qed.

Lemma does_decrement s V : stream_rep s V -> does s V IDecrementRecursionDepth.
Proof.
  intros Hrep. eapply does_done; [|by apply spec_Decrement|by apply rep_recursion].
  cbn [run_input]. unfold DecrementRecursionDepth. rewrite !stm_bind_eq. cbn [st_get].
  rewrite (rep_limit _ _ Hrep), (rep_budget _ _ Hrep). case_decide; [done|].
  cbn. f_equal. f_equal. rewrite <- (rep_limit _ _ Hrep), <- (rep_budget _ _ Hrep). by destruct s.
Qed.

Lemma does_unsafe_decrement s V : stream_rep s V -> v_budget V < v_limit V ->
  does s V IUnsafeDecrementRecursionDepth.
Proof.
  intros Hrep Hb. eapply does_done; [|by apply spec_UnsafeDecrement|by apply rep_recursion].
  cbn [run_input]. rewrite stm_bind_eq, UnsafeDecrementRecursionDepth_eq.
  - by rewrite (rep_limit _ _ Hrep), (rep_budget _ _ Hrep).
  - by rewrite (rep_limit _ _ Hrep), (rep_budget _ _ Hrep).
Qed.

Lemma does_enter s V bs tl : stream_rep s V -> v_bytes V = bs ++ tl -> Z.of_nat (length bs) < 2 ^ 31 ->
  int_range (v_budget V - 1) -> does s V (IIncrementRecursionDepthAndPushLimit (Z.of_nat (length bs))).
Proof.
  intros Hrep Hv Hl Hb. destruct (rep_push s V bs tl Hrep Hv Hl) as (old & s' & E & Hrep').
  eapply does_done; [|by apply spec_IncrementPush|by apply rep_recursion].
  cbn [run_input]. rewrite stm_bind_eq, law_enter, stm_bind_eq, E, stm_bind_eq.
  rewrite IncrementRecursionDepth_eq by (by rewrite (rep_budget _ _ Hrep')).
  rewrite (rep_limit _ _ Hrep'), (rep_budget _ _ Hrep'). done.
Qed.

Lemma does_leave s V l h L b : stream_rep s V -> v_limits V = (l, h) :: L -> v_end V = Some b ->
  v_budget V < v_limit V -> does s V (IDecrementRecursionDepthAndPopLimit l).
Proof.
  intros Hrep Hv Hb Hr. destruct (rep_pop s V l h L Hrep Hv) as (s' & E & Hrep').
  eapply does_done; [|by eapply spec_DecrementPop|by apply rep_recursion]. cbn [run_input].
  rewrite stm_bind_eq, law_leave, stm_bind_eq. cbn [ConsumedEntireMessage st_gets].
  rewrite stm_bind_eq, E, stm_bind_eq.
  rewrite UnsafeDecrementRecursionDepth_eq by (by rewrite (rep_budget _ _ Hrep'), (rep_limit _ _ Hrep')).
  rewrite (rep_limit _ _ Hrep'), (rep_budget _ _ Hrep'), (rep_end _ _ Hrep b Hb). done.
Qed.

(** **** Every call *)

Lemma input_call_refines s V c r O : stream_rep s V -> input_spec V c r O -> does s V c.
Proof.
  intros Hrep Hs. destruct Hs as [| | | | |bs tl Hv| | | | | | |t e Ht|t|b Hb| |p f| | | | | | | | | | | |].
  - by eapply does_value.
  - by eapply does_bytes.
  - by eapply does_nothing.
  - by apply does_skip_negative.
  - apply does_direct; [done|]. intros E. by destruct bs; simplify_eq/=; rewrite E in *.
  - by apply does_direct_inline.
  - by eapply does_ReadTag.
  - by eapply does_ReadTagWithCutoff.
  - by apply does_ExpectTag.
  - by apply does_ExpectTag.
  - by apply does_ExpectAtEnd.
  - by apply does_ExpectAtEnd.
  - eapply does_done; [|by apply spec_LastTagWas|exact Hrep]. by destruct (rep_last_tag _ _ Hrep t Ht).
  - eapply does_field; [exact Hrep|reflexivity|apply spec_SetLastTag|..]; try done; try apply Hrep.
    cbn. congruence.
  - eapply does_done; [|by apply spec_ConsumedEntireMessage|exact Hrep]. by destruct (rep_end _ _ Hrep b Hb).
  - eapply does_field; [exact Hrep|reflexivity|apply spec_SetConsumed|..]; try done; try apply Hrep.
    cbn. congruence.
  - eapply does_field; [exact Hrep|reflexivity|apply spec_SetExtensionRegistry|..]; try done; apply Hrep.
  - by eapply does_push.
  - by eapply does_pop.
  - by eapply does_until.
  - by eapply does_length_push.
  - by eapply does_check_pop.
  - by apply does_set_limit.
  - eapply does_done; [|by apply spec_RecursionBudget|exact Hrep]. by rewrite <- (rep_budget _ _ Hrep).
  - by apply does_increment.
  - by apply does_decrement.
  - by apply does_unsafe_decrement.
  - by eapply does_enter.
  - by eapply does_leave.
Qed.
End refine.
