(* ===== verification/FlatStream.v ===== *)
(** * A flat stream

    A concrete instance of the methods that [coded_stream.h] only declares, for
    a stream over one array: everything is in the buffer from the start, and a
    limit is a smaller [buffer_end_].  It keeps [InputLaws], [FallbacksKeep] and
    [OutputLaws], so that the theorems over these interfaces apply to it. *)
From Stdlib Require Import ZArith Lia Strings.Byte.
From stdpp Require Import base tactics option list list_numbers relations.
From S2P Require Import Prelude Mem Bits Varint CodedStream CodedStreamLaws CodedStreamInv.

Implicit Types s : CodedInputStream.
Implicit Types o : CodedOutputStream.

(** ** Input *)

Definition set_end (e : Z) s : CodedInputStream :=
  CIS (buffer_array s) (buffer_ s) e (input_ s) (total_bytes_read_ s) (overflow_bytes_ s)
    (last_tag_ s) (legitimate_message_end_ s) (aliasing_enabled_ s) e
    (buffer_size_after_limit_ s) (total_bytes_limit_ s) (recursion_budget_ s) (recursion_limit_ s)
    (extension_pool_ s) (extension_factory_ s).

(** The varint at the front of the buffer: its length and value. *)
Definition flat_varint s : option (Z * Z) :=
  match Parse64 (buffered s) 0 with Done (Some n, v) => Some (n, v) | _ => None end.

(** Parse a varint, or fail with [bad] without moving. *)
Definition flat_read {A} (ok : Z -> A) (bad : A) : stm CodedInputStream A :=
  s ← st_get;
  match flat_varint s with
  | Some (n, v) => if decide (n <= buffer_end_ s - buffer_ s) then Advance n ;; mret (ok v) else mret bad
  | None => mret bad
  end.

(** [n] raw bytes. *)
Definition flat_raw (n : Z) : stm CodedInputStream (option (list byte)) :=
  s ← st_get;
  if decide (0 <= n <= buffer_end_ s - buffer_ s) then
    Advance n ;; mret (Some (take (Z.to_nat n) (buffered s)))
  else mret None.

Definition flat_fixed (n : Z) : stm CodedInputStream (bool * Z) :=
  r ← flat_raw n;
  mret (match r with Some bs => (true, le_combine bs) | None => (false, 0) end).

Definition flat_push (n : Z) : stm CodedInputStream Z :=
  s ← st_get;
  (if decide (0 <= n <= buffer_end_ s - buffer_ s) then st_modify (set_end (buffer_ s + n)) else mret tt) ;;
  mret (buffer_end_ s).

Definition flat_tag : stm CodedInputStream Z :=
  s ← st_get;
  (if decide (buffer_ s = buffer_end_ s) then st_modify (set_message_end true) else mret tt) ;;
  flat_read u32 0.

(** [ReadVarint32] on this stream. *)
Definition flat_varint32 : stm CodedInputStream (bool * Z) :=
  s ← st_get;
  v ← (if decide (buffer_ s < buffer_end_ s) then peek 0 else mret 0);
  if decide (buffer_ s < buffer_end_ s /\ v < 0x80) then
    Advance 1 ;; mret (true, v)
  else
    result ← flat_read u32 (-1);
    mret (bool_decide (0 <= result), u32 result).

#[export] Instance flat_input : InputFallbacks := {
  default_recursion_limit_ := 100;
  Refresh := mret false;
  ReadVarint32Fallback _ := flat_read u32 (-1);
  ReadVarint64Fallback := flat_read (fun v => (v, true)) (0, false);
  ReadVarintSizeAsIntFallback := flat_read (fun v => if decide (v < 2 ^ 31) then v else -1) (-1);
  ReadLittleEndian32Fallback := flat_fixed 4;
  ReadLittleEndian64Fallback := flat_fixed 8;
  ReadTagFallback _ := flat_tag;
  SkipFallback n _ := r ← flat_raw n; mret (if r is Some _ then true else false);
  ReadRaw n := r ← flat_raw n; mret (match r with Some bs => (true, bs) | None => (false, []) end);
  ReadString n := r ← flat_raw n; mret (match r with Some bs => (true, bs) | None => (false, []) end);
  GetDirectBufferPointer := st_gets (fun s =>
    if decide (buffer_ s < buffer_end_ s) then Some (buffer_ s, buffer_end_ s - buffer_ s) else None);
  PushLimit := flat_push;
  PopLimit l := st_modify (set_end l);
  BytesUntilLimit s := buffer_end_ s - buffer_ s;
  BytesUntilTotalBytesLimit _ := -1;
  IncrementRecursionDepthAndPushLimit n :=
    l ← flat_push n; _ ← IncrementRecursionDepth; b ← RecursionBudget; mret (l, b);
  DecrementRecursionDepthAndPopLimit l :=
    result ← ConsumedEntireMessage;
    st_modify (set_end l) ;; UnsafeDecrementRecursionDepth ;; mret result;
  ReadLengthAndPushLimit :=
    r ← flat_varint32; flat_push (i32 (if fst r : bool then snd r else 0));
  CheckEntireMessageConsumedAndPopLimit l :=
    result ← ConsumedEntireMessage;
    st_modify (set_end l) ;; mret result;
}.

(** What a pop to [old] gives back: the bytes between the two ends. *)
#[export] Instance flat_view : InputView := {
  in_ok := buffer_ok;
  remaining := buffered;
  pushed old h s := buffer_end_ s <= old < 2 ^ 31 /\ old <= Z.of_nat (length (buffer_array s)) /\
    h = take (Z.to_nat (old - buffer_end_ s)) (drop (Z.to_nat (buffer_end_ s)) (buffer_array s));
}.

Lemma flat_advance s n : buffer_ok s -> 0 <= n <= buffer_end_ s - buffer_ s ->
  after s (drop (Z.to_nat n) (buffered s)) (set_buffer (buffer_ s + n) s).
Proof.
  intros (Hb & He & Hm) Hn. split_and!; [|  |done|done|done].
  - unfold in_ok, flat_view, buffer_ok. cbn. lia.
  - unfold remaining, flat_view, buffered. cbn.
    rewrite skipn_firstn_comm, drop_drop. f_equal; [lia|]. f_equal. lia.
Qed.

Lemma flat_varint_spec s v tl : buffer_ok s -> 0 <= v < 2 ^ 64 -> buffered s = varint v ++ tl ->
  flat_varint s = Some (Z.of_nat (length (varint v)), v) /\
  Z.of_nat (length (varint v)) <= buffer_end_ s - buffer_ s.
Proof.
  intros Hok Hv Hb. split.
  - unfold flat_varint, Parse64. rewrite (VarintParse_varint 10 64 (buffered s) 0 v).
    + by rewrite Z.mod_small.
    + lia.
    + lia.
    + exists [], tl. by rewrite Hb.
    + apply length_varint.
  - rewrite <- (length_buffered s Hok), Hb, length_app. lia.
Qed.

(** A read of a well-formed varint, and of nothing. *)
Lemma flat_read_spec {A} (ok : Z -> A) bad s v tl :
  buffer_ok s -> 0 <= v < 2 ^ 64 -> buffered s = varint v ++ tl ->
  exists s', flat_read ok bad s = Done (ok v, s') /\ after s tl s' /\ last_tag_ s' = last_tag_ s.
Proof.
  intros Hok Hv Hb. destruct (flat_varint_spec s v tl Hok Hv Hb) as [E Hl].
  exists (set_buffer (buffer_ s + Z.of_nat (length (varint v))) s). split.
  - unfold flat_read. rewrite stm_bind_eq. cbn [st_get]. rewrite E, decide_True by done. reflexivity.
  - split; [|done]. replace tl with (drop (Z.to_nat (Z.of_nat (length (varint v)))) (buffered s)).
    + apply flat_advance; [done|lia].
    + rewrite Hb. by rewrite drop_app_length' by lia.
Qed.

Lemma flat_read_end {A} (ok : Z -> A) bad s :
  buffered s = [] -> flat_read ok bad s = Done (bad, s).
Proof.
  intros Hb. unfold flat_read. rewrite stm_bind_eq. cbn [st_get].
  unfold flat_varint. rewrite Hb. reflexivity.
Qed.

Lemma flat_raw_spec s bs tl : buffer_ok s -> buffered s = bs ++ tl ->
  exists s', flat_raw (Z.of_nat (length bs)) s = Done (Some bs, s') /\ after s tl s'.
Proof.
  intros Hok Hb. pose proof (length_buffered s Hok) as Hl. rewrite Hb, length_app in Hl.
  exists (set_buffer (buffer_ s + Z.of_nat (length bs)) s). split.
  - unfold flat_raw. rewrite stm_bind_eq. cbn [st_get]. rewrite decide_True by lia.
    rewrite Hb, Nat2Z.id, take_app_length. reflexivity.
  - replace tl with (drop (Z.to_nat (Z.of_nat (length bs))) (buffered s)).
    + apply flat_advance; [done|lia].
    + rewrite Hb. by rewrite drop_app_length' by lia.
Qed.

Lemma flat_raw_short s n : buffer_ok s -> Z.of_nat (length (buffered s)) < n ->
  flat_raw n s = Done (None, s).
Proof.
  intros Hok Hn. rewrite length_buffered in Hn by done. unfold flat_raw. rewrite stm_bind_eq.
  cbn [st_get]. by rewrite decide_False by lia.
Qed.

Lemma flat_fixed_spec s k v tl : buffer_ok s -> buffered s = le_split k v ++ tl ->
  exists s', flat_fixed (Z.of_nat k) s = Done ((true, v mod 256 ^ Z.of_nat k), s') /\ after s tl s'.
Proof.
  intros Hok Hb. destruct (flat_raw_spec s _ tl Hok Hb) as (s' & E & Ha).
  rewrite length_le_split in E. exists s'. split; [|done].
  unfold flat_fixed. rewrite stm_bind_eq, E, le_combine_split. reflexivity.
Qed.

(** The stream after a limit is pushed and popped. *)
Lemma flat_push_spec s bs tl : buffer_ok s -> buffered s = bs ++ tl ->
  flat_push (Z.of_nat (length bs)) s
    = Done (buffer_end_ s, set_end (buffer_ s + Z.of_nat (length bs)) s) /\
  let s' := set_end (buffer_ s + Z.of_nat (length bs)) s in
  buffer_ok s' /\ buffered s' = bs /\ pushed (buffer_end_ s) tl s'.
Proof.
  intros Hok Hb. pose proof (length_buffered s Hok) as Hl. rewrite Hb, length_app in Hl.
  destruct Hok as (H0 & He & Hm). split.
  { unfold flat_push. rewrite stm_bind_eq. cbn [st_get]. rewrite decide_True by lia. reflexivity. }
  assert (Htl : tl = drop (length bs) (buffered s)) by (by rewrite Hb, drop_app_length).
  assert (Hbs : bs = take (length bs) (buffered s)) by (by rewrite Hb, take_app_length).
  cbn zeta. split_and!.
  - unfold buffer_ok. cbn. lia.
  - etransitivity; [|symmetry; exact Hbs]. unfold buffered. cbn. rewrite take_take. f_equal. lia.
  - unfold pushed, flat_view. cbn. split_and!; [lia|lia|lia|].
    rewrite Htl. unfold buffered. rewrite skipn_firstn_comm, drop_drop. f_equal; [lia|]. f_equal. lia.
Qed.

Lemma flat_pop_spec s old tl : buffer_ok s -> pushed old tl s ->
  buffer_ok (set_end old s) /\ buffered (set_end old s) = buffered s ++ tl.
Proof.
  intros (H0 & He & Hm) (Ho & Hl & ->). split.
  { unfold buffer_ok. cbn. lia. }
  unfold buffered. cbn.
  replace (Z.to_nat (buffer_end_ s))
    with (Z.to_nat (buffer_ s) + Z.to_nat (buffer_end_ s - buffer_ s))%nat by lia.
  rewrite <- drop_drop.
  replace (Z.to_nat (old - buffer_ s))
    with (Z.to_nat (buffer_end_ s - buffer_ s) + Z.to_nat (old - buffer_end_ s))%nat by lia.
  generalize (drop (Z.to_nat (buffer_ s)) (buffer_array s)) as l.
  generalize (Z.to_nat (buffer_end_ s - buffer_ s)) as a. intros a l.
  rewrite <- (take_drop a l) at 1.
  destruct (decide (a <= length l)%nat) as [Ha|Ha].
  - rewrite take_app_ge by (rewrite length_take; lia). rewrite length_take. f_equal. f_equal. lia.
  - rewrite drop_ge by lia. rewrite app_nil_r, take_nil, app_nil_r. rewrite take_ge; [done|].
    rewrite length_take. lia.
Qed.

Ltac flat_end :=
  match goal with H : remaining ?s = [] |- _ => change (buffered s = []) in H end;
  do 2 eexists; split; [by apply flat_read_end|lia].

#[export] Instance flat_laws : InputLaws.
Proof.
  split.
  - done.
  - intros s _. exists []. by rewrite app_nil_r.
  - intros s n. apply flat_advance.
  - done.
  - intros s b v tl Hok _ Hv Hr. edestruct (flat_read_spec u32 (-1) s v tl) as (s' & E & Ha & _); eauto.
  - intros s b _ _ Hr. eexists. by apply flat_read_end.
  - intros s v tl Hok Hv Hr. edestruct (flat_read_spec (fun v => (v, true)) (0, false) s v tl) as (s' & E & Ha & _); eauto.
  - intros s _ Hr. do 2 eexists. by apply (flat_read_end (fun v => (v, true))).
  - intros s v tl Hok Hv Hr.
    edestruct (flat_read_spec (fun v => if decide (v < 2 ^ 31) then v else -1) (-1) s v tl)
      as (s' & E & Ha & _); [done|lia|done|]. rewrite decide_True in E by lia. eauto.
  - intros s v tl Hok Hv Hr.
    edestruct (flat_read_spec (fun v => if decide (v < 2 ^ 31) then v else -1) (-1) s v tl)
      as (s' & E & Ha & _); [done|lia|done|]. rewrite decide_False in E by lia. do 2 eexists. split; [exact E|lia].
  - intros s _ Hr. flat_end.
  - intros s v tl Hok Hr. by apply (flat_fixed_spec s 4).
  - intros s Hok Hl. exists 0, s. unfold ReadLittleEndian32Fallback, flat_input, flat_fixed.
    rewrite stm_bind_eq, flat_raw_short; [done|done|]. change (remaining s) with (buffered s) in Hl. lia.
  - intros s v tl Hok Hr. by apply (flat_fixed_spec s 8).
  - intros s Hok Hl. exists 0, s. unfold ReadLittleEndian64Fallback, flat_input, flat_fixed.
    rewrite stm_bind_eq, flat_raw_short; [done|done|]. change (remaining s) with (buffered s) in Hl. lia.
  - intros s b v tl Hok _ Hv Hr. unfold ReadTagFallback, flat_input, flat_tag.
    destruct (flat_read_spec u32 0 s v tl) as (s' & E & Ha & Hl); [done|lia|done|].
    rewrite stm_bind_eq. cbn [st_get]. rewrite decide_False.
    + rewrite stm_bind_eq. cbn [mret stm_ret]. rewrite u32_small in E by lia. eauto.
    + intros He. change (remaining s) with (buffered s) in Hr. pose proof (length_buffered s Hok) as Hn.
      rewrite Hr, length_app in Hn. pose proof (length_varint_pos v). lia.
  - intros s b Hok _ Hr. change (remaining s) with (buffered s) in Hr.
    pose proof (length_buffered s Hok) as Hn. rewrite Hr in Hn.
    eexists. unfold ReadTagFallback, flat_input, flat_tag. rewrite stm_bind_eq. cbn [st_get].
    rewrite decide_True by (simpl in Hn; lia). rewrite stm_bind_eq. cbn [st_modify].
    split; [by apply flat_read_end|done].
  - intros s n k Hok -> Hk Hb. destruct (flat_raw_spec s (take k (buffered s)) (drop k (buffered s)))
      as (s' & E & Ha); [done|by rewrite take_drop|]. exists s'. split; [|done].
    unfold SkipFallback, flat_input. rewrite stm_bind_eq. change (remaining s) with (buffered s). by rewrite E.
  - intros s bs tl Hok Hr. destruct (flat_raw_spec s bs tl Hok Hr) as (s' & E & Ha).
    exists s'. split; [|done]. unfold ReadRaw, flat_input. by rewrite stm_bind_eq, E.
  - intros s bs tl Hok Hr _. destruct (flat_push_spec s bs tl Hok Hr) as (E & H1 & H2 & H3). eauto 10.
  - intros s old tl Hok _. change (remaining s) with (buffered s). by rewrite length_buffered.
  - intros s old tl Hok Hp. destruct (flat_pop_spec s old tl Hok Hp) as [H1 H2]. eexists. split; [reflexivity|]. done.
Qed.

(** What is hidden behind two limits. *)
Lemma between_app (l : list byte) (e o o' : Z) : 0 <= e <= o -> o <= o' ->
  take (Z.to_nat (o - e)) (drop (Z.to_nat e) l) ++ take (Z.to_nat (o' - o)) (drop (Z.to_nat o) l)
  = take (Z.to_nat (o' - e)) (drop (Z.to_nat e) l).
Proof.
  intros He Ho. replace (Z.to_nat o) with (Z.to_nat e + Z.to_nat (o - e))%nat by lia.
  rewrite <- drop_drop, take_take_drop. f_equal. lia.
Qed.

Lemma flat_push_inner s bs tl old h : buffer_ok s -> buffered s = bs ++ tl -> pushed old h s ->
  pushed old (tl ++ h) (set_end (buffer_ s + Z.of_nat (length bs)) s).
Proof.
  intros Hok Hb (Ho & Hl & ->). destruct (flat_push_spec s bs tl Hok Hb) as (_ & _ & _ & (He & _ & ->)).
  destruct Hok as ((H0 & _) & _). cbn in He |- *. unfold pushed, flat_view. cbn.
  split; [lia|]. split; [lia|]. by rewrite between_app by lia.
Qed.

Lemma flat_pop_inner s l h old h' : buffer_ok s -> pushed l h s -> pushed old (h ++ h') s ->
  pushed old h' (set_end l s).
Proof.
  intros (Hb & He & Hm) (Hl & Hal & ->) (Ho & Hao & Eh). unfold pushed, flat_view. cbn.
  assert (Hlo : l <= old).
  { apply (f_equal length) in Eh. rewrite length_app, !length_take, !length_drop in Eh. lia. }
  split; [lia|]. split; [lia|]. rewrite <- (between_app _ _ l old) in Eh by lia. by apply app_inv_head in Eh.
Qed.

Lemma flat_source s s' : buffer_ok s -> same_source s s' ->
  buffer_ok s' /\ buffered s' = buffered s /\ (forall old h, pushed old h s -> pushed old h s').
Proof.
  intros Hok (Ea & Eb & Ee & _). unfold buffer_ok, buffered, pushed, flat_view. rewrite Ea, Eb, Ee. done.
Qed.

#[export] Instance flat_nesting : NestingLaws.
Proof.
  split; try done.
  - intros s bs tl l s' old h Hok Hr Hp Hpu. destruct (flat_push_spec s bs tl Hok Hr) as (E & _).
    change (flat_push (Z.of_nat (length bs)) s = Done (l, s')) in Hp. rewrite E in Hp. injection Hp as _ <-. by apply flat_push_inner.
  - intros s l h s' old h' Hok Hpu Hp. injection Hp as <-. by apply flat_pop_inner.
  - intros s s'. apply flat_source.
  - intros s Hok He _. change (remaining s) with (buffered s). apply buffered_empty; [exact Hok|lia].
  - intros s bs tl Hok Hr. destruct (flat_raw_spec s bs tl Hok Hr) as (s' & E & Ha).
    exists s'. split; [|done]. unfold ReadString, flat_input. by rewrite stm_bind_eq, E.
  - intros s Hok Hr. destruct (decide (buffer_ s < buffer_end_ s)) as [Hlt|Hlt].
    + exists (buffer_end_ s - buffer_ s), s. unfold GetDirectBufferPointer, flat_input, st_gets.
      rewrite decide_True by done. split_and!; [done|done|lia|]. split_and!; done.
    + destruct Hr. by apply buffered_empty.
  - intros s Hok Hr. exists s. unfold GetDirectBufferPointer, flat_input, st_gets.
    rewrite decide_False; [done|]. intros Hlt. destruct (buffered_nonempty s Hok Hlt) as (c & bs & E & _).
    change (buffered s = []) in Hr. by rewrite E in Hr.
Qed.

(** The invariant of the input stream. *)
Lemma flat_keeps_read {A} (ok : Z -> A) bad : keeps (flat_read ok bad).
Proof.
  apply keeps_get. intros s r s' Hs Hm. unfold flat_varint in Hm.
  destruct (Parse64 (buffered s) 0) as [[[n|] v]|] eqn:E; [|by cbn in Hm; injection Hm as _ <-..].
  destruct (decide (n <= buffer_end_ s - buffer_ s)) as [Hn|]; [|by cbn in Hm; injection Hm as _ <-].
  rewrite stm_bind_eq in Hm. cbn in Hm. injection Hm as _ <-. apply VarintParse_forward in E. apply advance_inv; [done|lia|lia].
Qed.

Lemma flat_keeps_raw n : keeps (flat_raw n).
Proof.
  apply keeps_get. intros s r s' Hs Hm. case_decide; [|by cbn in Hm; injection Hm as _ <-].
  rewrite stm_bind_eq in Hm. cbn in Hm. injection Hm as _ <-. apply advance_inv; [done|lia|lia].
Qed.

#[export] Instance flat_keep : FallbacksKeep.
Proof.
  split; intros; cbn [ReadVarint32Fallback ReadVarint64Fallback ReadVarintSizeAsIntFallback
    ReadLittleEndian32Fallback ReadLittleEndian64Fallback flat_input];
    try apply flat_keeps_read.
  - apply keeps_bind; [apply flat_keeps_raw|]. intros. apply keeps_ret.
  - apply keeps_bind; [apply flat_keeps_raw|]. intros. apply keeps_ret.
Qed.

(** ** Output *)

(** Append [bs], or set the error flag when there is no room for them. *)
Definition flat_write (bs : list byte) : stm CodedOutputStream unit :=
  o ← st_get;
  if decide (Z.of_nat (length bs) <= out_buffer_size_ o) then
    st_modify (fun o => set_out_buffer (splice (Z.to_nat (out_buffer_ o)) bs (out_array o))
                          (out_buffer_ o + Z.of_nat (length bs))
                          (out_buffer_size_ o - Z.of_nat (length bs)) o)
  else
    st_modify (fun o => COS (out_previous o) (out_array o) (out_buffer_ o) 0 (out_total_bytes_ o) true
                          (out_aliasing_enabled_ o) (out_is_serialization_deterministic_ o)).

Definition flat_store (bs m : list byte) (target : Z) : cres (list byte * Z) :=
  m ← buf_write m target bs; Done (m, target + Z.of_nat (length bs)).

#[export] Instance flat_output : OutputFallbacks := {
  default_serialization_deterministic_ := false;
  WriteRaw data size := flat_write (take (Z.to_nat size) data);
  WriteAliasedRaw data size := flat_write (take (Z.to_nat size) data);
  WriteLittleEndian32 v := flat_write (le_split 4 v);
  WriteLittleEndian64 v := flat_write (le_split 8 v);
  WriteVarint32SlowPath v := flat_write (varint v);
  WriteVarint64SlowPath v := flat_write (varint v);
  WriteRawToArray data size := flat_store (take (Z.to_nat size) data);
  WriteStringWithSizeToArray data := flat_store (varint (Z.of_nat (length data)) ++ data);
}.

#[export] Instance flat_output_view : OutputView := {
  out_ok o := out_buffer_ok o /\ Z.of_nat (length (out_array o)) < 2 ^ 31;
}.

Lemma flat_write_appends bs : appends out_ok (flat_write bs) bs.
Proof.
  intros o [(Hb & Hs & Hl & H31) Hsz]. unfold flat_write.
  setoid_rewrite stm_bind_eq. cbn [st_get]. case_decide as Hn; (eexists; split; [reflexivity|]).
  - split_and!.
    + unfold out_ok, flat_output_view, out_buffer_ok. cbn. rewrite length_splice by lia. lia.
    + done.
    + intros _. unfold written. cbn. rewrite <- app_assoc. f_equal.
      rewrite Z2Nat.inj_add, Nat2Z.id by lia. unfold splice. rewrite app_assoc.
      rewrite take_app_le by (rewrite length_app, length_take; lia).
      rewrite take_ge by (rewrite length_app, length_take; lia). done.
  - split_and!; [|done|done]. unfold out_ok, flat_output_view, out_buffer_ok. cbn. lia.
Qed.

Lemma flat_store_writes bs : writes (flat_store bs) bs.
Proof. intros m t Ht Hm. unfold flat_store. by rewrite buf_write_ok by lia. Qed.

#[export] Instance flat_output_laws : OutputLaws.
Proof.
  split.
  - by intros o [].
  - intros o m n [(Hb & Hs & Hl & H31) Hsz] Hn Hm. unfold out_ok, flat_output_view, out_buffer_ok. cbn.
    rewrite Hm. lia.
  - intros data _. unfold WriteRaw, flat_output. rewrite Nat2Z.id, take_ge by done. apply flat_write_appends.
  - intros data _. unfold WriteAliasedRaw, flat_output. rewrite Nat2Z.id, take_ge by done. apply flat_write_appends.
  - intros v. apply flat_write_appends.
  - intros v. apply flat_write_appends.
  - intros v _. apply flat_write_appends.
  - intros v _. apply flat_write_appends.
  - intros data _. unfold WriteRawToArray, flat_output. rewrite Nat2Z.id, take_ge by done. apply flat_store_writes.
  - intros data _. apply flat_store_writes.
Qed.
