(* ===== verification/RepeatedField.v ===== *)
(** * Repeated fields of scalars ([google/protobuf/repeated_field.h], class RepeatedField)

    The heap that the class works on is explicit: [fields] are the
    [RepeatedField] objects by their address and [reps] the arrays ([struct Rep])
    they allocate.  A method takes the address of its object, so that calls with
    the same object twice, references into the array and the life of a [Rep] are
    what they are in the code.  [Element] is any type with [ElementType].

    A [const Element&] is a value or a reference into an array ([eref]); it is
    read when the code reads it.  Iterators into a field are offsets from
    [begin()].  Allocation does not fail. *)
From Stdlib Require Import ZArith Lia.
From stdpp Require Import base tactics option list list_numbers gmap.
From S2P Require Import Prelude Bits.

(** What the class needs of its element type: the size and the offset in
    [struct Rep] of the layout, and what [new (e) Element] leaves behind. *)
Class ElementType (E : Type) := {
  sizeof_Element : Z;
  kRepHeaderSize : Z;
  new_Element : E;
  sizeof_Element_range : 0 < sizeof_Element < 2 ^ 31;
  kRepHeaderSize_range : 0 <= kRepHeaderSize < 2 ^ 31;
}.

Record Rep (E : Type) := MkRep { rep_arena : option Z; rep_elements : list E }.
Arguments MkRep {E} _ _.
Arguments rep_arena {E} _.
Arguments rep_elements {E} _.

(** [union Pointer]. *)
Inductive Pointer :=
| PArena (arena : option Z)
| PElements (rep : Z).

Record RepeatedField := RF { current_size_ : Z; total_size_ : Z; ptr_ : Pointer }.

Record store (E : Type) := Store { reps : gmap Z (Rep E); fields : gmap Z RepeatedField }.
Arguments Store {E} _ _.
Arguments reps {E} _.
Arguments fields {E} _.

(** A pointer to an element, and a reference to one. *)
Record eptr := EPtr { ep_rep : Z; ep_index : Z }.
Inductive eref (E : Type) :=
| Val (v : E)
| Ref (p : eptr).
Arguments Val {E} v.
Arguments Ref {E} p.

Definition kMinRepeatedFieldAllocationSize : Z := 4.

(** The iterators of the range constructor: [forward] ones know their distance. *)
Definition CalculateReserve {E} (forward : bool) (range : list E) : Z :=
  if forward then Z.of_nat (length range) else -1.

Section RepeatedField.
  Context {E : Type} `{ElementType E}.
  Implicit Types (this other : Z) (f : RepeatedField) (s : store E).

(** Objects, arrays and elements of the heap. *)
Definition field this : stm (store E) RepeatedField := fun s =>
  match fields s !! this with Some f => Done (f, s) | None => Fault NullDeref end.
Definition set_field this f : stm (store E) unit :=
  st_modify (fun s => Store (reps s) (<[this := f]> (fields s))).
Definition array (r : Z) : stm (store E) (Rep E) := fun s =>
  match reps s !! r with Some a => Done (a, s) | None => Fault UseAfterFree end.
Definition set_array (r : Z) (a : Rep E) : stm (store E) unit :=
  st_modify (fun s => Store (<[r := a]> (reps s)) (fields s)).

Definition load_element (p : eptr) : stm (store E) E :=
  a ← array (ep_rep p);
  if decide (0 <= ep_index p) then
    match rep_elements a !! Z.to_nat (ep_index p) with
    | Some v => mret v
    | None => st_fault OutOfBounds
    end
  else st_fault OutOfBounds.
Definition store_element (p : eptr) (v : E) : stm (store E) unit :=
  a ← array (ep_rep p);
  if decide (0 <= ep_index p < Z.of_nat (length (rep_elements a))) then
    set_array (ep_rep p) (MkRep (rep_arena a) (<[Z.to_nat (ep_index p) := v]> (rep_elements a)))
  else st_fault OutOfBounds.
Definition deref (v : eref E) : stm (store E) E :=
  match v with Val v => mret v | Ref p => load_element p end.

(** ** Accessors *)

Definition empty this : stm (store E) bool :=
  f ← field this; mret (bool_decide (current_size_ f = 0)).
Definition size this : stm (store E) Z := f ← field this; mret (current_size_ f).
Definition Capacity this : stm (store E) Z := f ← field this; mret (total_size_ f).

(** [elements()] and [rep()]: the array behind [ptr_]. *)
Definition elements f : stm (store E) Z :=
  st_lift (dcheck (0 < total_size_ f)) ;;
  match ptr_ f with PElements r => mret r | PArena _ => st_fault NullDeref end.
Definition rep f : stm (store E) Z := elements f.

Definition GetArenaNoVirtual f : stm (store E) (option Z) :=
  if decide (total_size_ f = 0) then
    match ptr_ f with PArena a => mret a | PElements _ => st_fault NullDeref end
  else r ← rep f; a ← array r; mret (rep_arena a).
Definition GetArena this : stm (store E) (option Z) := f ← field this; GetArenaNoVirtual f.

Definition Get this (index : Z) : stm (store E) E :=
  f ← field this;
  st_lift (dcheck (0 <= index)) ;;
  st_lift (dcheck (index < current_size_ f)) ;;
  r ← elements f; load_element (EPtr r index).
Definition Mutable this (index : Z) : stm (store E) eptr :=
  f ← field this;
  st_lift (dcheck (0 <= index)) ;;
  st_lift (dcheck (index < current_size_ f)) ;;
  r ← elements f; mret (EPtr r index).
Definition Set_ this (index : Z) (value : eref E) : stm (store E) unit :=
  f ← field this;
  st_lift (dcheck (0 <= index)) ;;
  st_lift (dcheck (index < current_size_ f)) ;;
  r ← elements f; v ← deref value; store_element (EPtr r index) v.

Definition mutable_data this : stm (store E) (option eptr) :=
  f ← field this;
  if decide (0 < total_size_ f) then r ← elements f; mret (Some (EPtr r 0)) else mret None.
Definition data this : stm (store E) (option eptr) :=
  f ← field this;
  if decide (0 < total_size_ f) then r ← elements f; mret (Some (EPtr r 0)) else mret None.
Definition unsafe_data this : stm (store E) eptr :=
  f ← field this; r ← elements f; mret (EPtr r 0).
Definition begin this : stm (store E) (option eptr) :=
  f ← field this;
  if decide (0 < total_size_ f) then r ← elements f; mret (Some (EPtr r 0)) else mret None.
Definition end_ this : stm (store E) (option eptr) :=
  f ← field this;
  if decide (0 < total_size_ f) then r ← elements f; mret (Some (EPtr r (current_size_ f)))
  else mret None.

Definition SpaceUsedExcludingSelfLong this : stm (store E) Z :=
  f ← field this;
  mret (if decide (0 < total_size_ f)
        then u64 (u64 (total_size_ f * sizeof_Element) + kRepHeaderSize) else 0).

(** ** Memory *)

(** [operator new] or the arena gives a fresh array of [n] new elements. *)
Definition new_rep (arena : option Z) (n : Z) : stm (store E) Z := fun s =>
  let r := fresh (dom (reps s)) in
  Done (r, Store (<[r := MkRep arena (replicate (Z.to_nat n) new_Element)]> (reps s)) (fields s)).

(** The elements' destructors do nothing the model sees; the block is freed
    unless an arena owns it. *)
Definition InternalDeallocate (rep : option Z) (size : Z) : stm (store E) unit :=
  match rep with
  | None => mret tt
  | Some r =>
      a ← array r;
      if decide (rep_arena a = None)
      then st_modify (fun s => Store (delete r (reps s)) (fields s))
      else mret tt
  end.

(** [memcpy] or [std::copy] of [n] elements between distinct ranges. *)
Definition ElementCopier (to from : eptr) (n : Z) : stm (store E) unit :=
  vs ← mapM (fun i => load_element (EPtr (ep_rep from) (ep_index from + i))) (seqZ 0 n);
  a ← array (ep_rep to);
  if decide (0 <= ep_index to /\ ep_index to + n <= Z.of_nat (length (rep_elements a))) then
    set_array (ep_rep to) (MkRep (rep_arena a) (splice (Z.to_nat (ep_index to)) vs (rep_elements a)))
  else st_fault OutOfBounds.
Definition CopyArray (to from : eptr) (n : Z) : stm (store E) unit := ElementCopier to from n.
Definition MoveArray (to from : eptr) (n : Z) : stm (store E) unit := CopyArray to from n.

Definition Reserve this (new_size : Z) : stm (store E) unit :=
  f ← field this;
  if decide (new_size <= total_size_ f) then mret tt
  else
    old_rep ← (if decide (0 < total_size_ f) then r ← rep f; mret (Some r) else mret None);
    arena ← GetArenaNoVirtual f;
    doubled ← st_lift (int_op (total_size_ f * 2));
    let new_size := Z.max kMinRepeatedFieldAllocationSize (Z.max doubled new_size) in
    st_lift (dcheck (u64 new_size <= (2 ^ 64 - 1 - kRepHeaderSize) / sizeof_Element)) ;;
    r ← new_rep arena new_size;
    let old_total_size := total_size_ f in
    set_field this (RF (current_size_ f) new_size (PElements r)) ;;
    (if decide (0 < current_size_ f) then
       match old_rep with
       | Some old => MoveArray (EPtr r 0) (EPtr old 0) (current_size_ f)
       | None => st_fault NullDeref
       end
     else mret tt) ;;
    InternalDeallocate old_rep old_total_size.

Definition Truncate this (new_size : Z) : stm (store E) unit :=
  f ← field this;
  st_lift (dcheck (new_size <= current_size_ f)) ;;
  if decide (0 < current_size_ f) then set_field this (RF new_size (total_size_ f) (ptr_ f))
  else mret tt.

(** ** Adding and removing *)

(** [elements()[current_size_++]]. *)
Definition next_slot this : stm (store E) eptr :=
  f ← field this;
  r ← elements f;
  n ← st_lift (int_op (current_size_ f + 1));
  set_field this (RF n (total_size_ f) (ptr_ f)) ;;
  mret (EPtr r (current_size_ f)).

Definition AddAlreadyReserved this (value : eref E) : stm (store E) unit :=
  f ← field this;
  st_lift (dcheck (current_size_ f < total_size_ f)) ;;
  p ← next_slot this; v ← deref value; store_element p v.
Definition AddAlreadyReserved_slot this : stm (store E) eptr :=
  f ← field this;
  st_lift (dcheck (current_size_ f < total_size_ f)) ;;
  next_slot this.
Definition AddNAlreadyReserved this (n : Z) : stm (store E) (option eptr) :=
  f ← field this;
  st_lift (dcheck (n <= total_size_ f - current_size_ f)) ;;
  let ret := if decide (total_size_ f = 0) then None
             else match ptr_ f with
                  | PElements r => Some (EPtr r (current_size_ f))
                  | PArena _ => None
                  end in
  c ← st_lift (int_op (current_size_ f + n));
  set_field this (RF c (total_size_ f) (ptr_ f)) ;;
  mret ret.

Definition Add this (value : eref E) : stm (store E) unit :=
  f ← field this;
  (if decide (current_size_ f = total_size_ f)
   then n ← st_lift (int_op (total_size_ f + 1)); Reserve this n else mret tt) ;;
  p ← next_slot this; v ← deref value; store_element p v.
Definition Add_slot this : stm (store E) eptr :=
  f ← field this;
  (if decide (current_size_ f = total_size_ f)
   then n ← st_lift (int_op (total_size_ f + 1)); Reserve this n else mret tt) ;;
  next_slot this.

(** [std::fill]: the value is read for every slot. *)
Definition fill (r from upto : Z) (value : eref E) : stm (store E) unit :=
  foldr (fun i k => (v ← deref value; store_element (EPtr r i) v) ;; k) (mret tt)
    (seqZ from (upto - from)).

Definition Resize this (new_size : Z) (value : eref E) : stm (store E) unit :=
  st_lift (dcheck (0 <= new_size)) ;;
  f ← field this;
  (if decide (current_size_ f < new_size) then
     Reserve this new_size ;;
     f ← field this;
     r ← elements f;
     fill r (current_size_ f) new_size value
   else mret tt) ;;
  f ← field this;
  set_field this (RF new_size (total_size_ f) (ptr_ f)).

Definition RemoveLast this : stm (store E) unit :=
  f ← field this;
  st_lift (dcheck (0 < current_size_ f)) ;;
  set_field this (RF (current_size_ f - 1) (total_size_ f) (ptr_ f)).

Definition Clear this : stm (store E) unit :=
  f ← field this; set_field this (RF 0 (total_size_ f) (ptr_ f)).

(** The extracted values are what the code stores in a non-NULL [elements]. *)
Definition ExtractSubrange this (start num : Z) (wanted : bool) : stm (store E) (option (list E)) :=
  st_lift (dcheck (0 <= start)) ;;
  st_lift (dcheck (0 <= num)) ;;
  f ← field this;
  e ← st_lift (int_op (start + num));
  st_lift (dcheck (e <= current_size_ f)) ;;
  out ← (if wanted then vs ← mapM (fun i => Get this (i + start)) (seqZ 0 num); mret (Some vs)
         else mret None);
  (if decide (0 < num) then
     for_range e (current_size_ f) (fun i => v ← Get this i; Set_ this (i - num) (Val v)) ;;
     Truncate this (current_size_ f - num)
   else mret tt) ;;
  mret out.

Definition SwapElements this (index1 index2 : Z) : stm (store E) unit :=
  f ← field this;
  r ← elements f;
  v1 ← load_element (EPtr r index1);
  v2 ← load_element (EPtr r index2);
  store_element (EPtr r index1) v2 ;;
  store_element (EPtr r index2) v1.

(** [std::copy(last, cend(), begin() + first)] moves the tail down. *)
Definition erase_range this (first last : Z) : stm (store E) Z :=
  let first_offset := first in
  (if decide (first <> last) then
     f ← field this;
     r ← elements f;
     for_range last (current_size_ f) (fun i =>
       v ← load_element (EPtr r i); store_element (EPtr r (i - last + first_offset)) v) ;;
     Truncate this (first_offset + (current_size_ f - last))
   else mret tt) ;;
  mret first_offset.
Definition erase this (position : Z) : stm (store E) Z := erase_range this position (position + 1).

(** ** Whole fields

    [&other.Get(0)] is the address that [Mutable] computes: the element is not read. *)

Definition MergeFrom this other : stm (store E) unit :=
  st_lift (dcheck (other <> this)) ;;
  fo ← field other;
  if decide (current_size_ fo <> 0) then
    existing_size ← size this;
    n ← st_lift (int_op (existing_size + current_size_ fo));
    Reserve this n ;;
    AddNAlreadyReserved this (current_size_ fo) ;;
    to ← Mutable this existing_size;
    from ← Mutable other 0;
    CopyArray to from (current_size_ fo)
  else mret tt.

Definition CopyFrom this other : stm (store E) unit :=
  if decide (other = this) then mret tt else Clear this ;; MergeFrom this other.

Definition InternalSwap this other : stm (store E) unit :=
  st_lift (dcheck (this <> other)) ;;
  f ← field this;
  fo ← field other;
  a ← GetArenaNoVirtual f;
  b ← GetArenaNoVirtual fo;
  st_lift (dcheck (a = b)) ;;
  set_field this (RF (current_size_ fo) (total_size_ fo) (ptr_ fo)) ;;
  set_field other (RF (current_size_ f) (total_size_ f) (ptr_ f)).

Definition UnsafeArenaSwap this other : stm (store E) unit :=
  if decide (this = other) then mret tt else InternalSwap this other.

(** Constructors at an address, and the destructor. *)
Definition RepeatedField_default this : stm (store E) unit := set_field this (RF 0 0 (PArena None)).
Definition RepeatedField_arena this (arena : option Z) : stm (store E) unit :=
  set_field this (RF 0 0 (PArena arena)).
Definition RepeatedField_copy this other : stm (store E) unit :=
  set_field this (RF 0 0 (PArena None)) ;;
  fo ← field other;
  if decide (current_size_ fo <> 0) then
    Reserve this (current_size_ fo) ;;
    AddNAlreadyReserved this (current_size_ fo) ;;
    to ← Mutable this 0;
    from ← Mutable other 0;
    CopyArray to from (current_size_ fo)
  else mret tt.
Definition RepeatedField_range this (forward : bool) (range : list E) : stm (store E) unit :=
  set_field this (RF 0 0 (PArena None)) ;;
  let reserve := CalculateReserve forward range in
  if decide (reserve <> -1) then
    Reserve this reserve ;;
    foldr (fun v k => AddAlreadyReserved this (Val v) ;; k) (mret tt) range
  else foldr (fun v k => Add this (Val v) ;; k) (mret tt) range.
Definition destroy_RepeatedField this : stm (store E) unit :=
  f ← field this;
  (if decide (0 < total_size_ f) then r ← rep f; InternalDeallocate (Some r) (total_size_ f)
   else mret tt) ;;
  st_modify (fun s => Store (reps s) (delete this (fields s))).

(** [temp] is the address of the local variable of [Swap]. *)
Definition Swap this other temp : stm (store E) unit :=
  if decide (this = other) then mret tt
  else
    f ← field this;
    fo ← field other;
    a ← GetArenaNoVirtual f;
    b ← GetArenaNoVirtual fo;
    if decide (a = b) then InternalSwap this other
    else
      RepeatedField_arena temp b ;;
      MergeFrom temp this ;;
      CopyFrom this other ;;
      UnsafeArenaSwap other temp ;;
      destroy_RepeatedField temp.

Definition assign_copy this other : stm (store E) unit :=
  if decide (this <> other) then CopyFrom this other else mret tt.
Definition RepeatedField_move this other : stm (store E) unit :=
  RepeatedField_default this ;;
  a ← GetArena other;
  if decide (a <> None) then CopyFrom this other else InternalSwap this other.
Definition assign_move this other : stm (store E) unit :=
  if decide (this <> other) then
    a ← GetArena this;
    b ← GetArena other;
    if decide (a <> b) then CopyFrom this other else InternalSwap this other
  else mret tt.

End RepeatedField.
