(* ===== verification/RepeatedFieldLogic.v ===== *)
(** * Repeated fields of scalars: the invariant of the heap and the operations' effects

    [store_ok] is the invariant: every field is well formed and no two fields
    share an array.  [holds] is the abstract state of an object: its arena, its list
    and its capacity.  Every operation is shown to keep the invariant, to change only its own
    object, and to act on the list as its documentation says. *)
From Stdlib Require Import ZArith Lia.
From stdpp Require Import base tactics option list list_numbers gmap.
From S2P Require Import Prelude Bits RepeatedField.

Section logic.
  Context {E : Type} `{ElementType E}.
  Implicit Types (this other o : Z) (f : RepeatedField) (s : store E) (a : option Z) (l : list E).

(** A field [f] on arena [a] that holds [l]. *)
Definition field_rep (rs : gmap Z (Rep E)) f a l : Prop :=
  0 <= current_size_ f <= total_size_ f /\ total_size_ f < 2 ^ 31 /\
  Z.of_nat (length l) = current_size_ f /\
  (total_size_ f = 0 /\ ptr_ f = PArena a \/
   0 < total_size_ f /\ exists r els, ptr_ f = PElements r /\ rs !! r = Some (MkRep a els) /\
     Z.of_nat (length els) = total_size_ f /\ take (length l) els = l).

Definition unshared s this (r : Z) : Prop :=
  forall o f, o <> this -> fields s !! o = Some f -> ptr_ f <> PElements r.

Definition store_ok s : Prop :=
  (forall o f, fields s !! o = Some f -> exists a l, field_rep (reps s) f a l) /\
  (forall o f r, fields s !! o = Some f -> ptr_ f = PElements r -> unshared s o r).

(** [holds s o a l cap]: the object at [o] holds [l], on arena [a], with room for [cap]. *)
Definition holds s o a l (cap : Z) : Prop :=
  exists f, fields s !! o = Some f /\ field_rep (reps s) f a l /\ total_size_ f = cap.

(** Only the object at [this] has changed. *)
Definition keeps_others s s' this : Prop :=
  (forall o, o <> this -> fields s' !! o = fields s !! o) /\
  (forall o b k c, o <> this -> holds s o b k c -> holds s' o b k c).

(** ** The one way the heap changes *)

Lemma field_rep_frame rs rs' f a l :
  field_rep rs f a l -> (forall r, ptr_ f = PElements r -> rs' !! r = rs !! r) ->
  field_rep rs' f a l.
Proof.
  intros (Hc & Ht & Hl & Hp) Hr. split_and!; try done; [lia|lia|].
  destruct Hp as [Hp|(Ht0 & r & els & Hp & Hl' & Hrest)]; [by left|right].
  split; [done|]. exists r, els. by rewrite Hr.
Qed.

Lemma update_field s this f f' rs' a l :
  store_ok s -> fields s !! this = Some f -> field_rep rs' f' a l ->
  (forall r, ptr_ f' = PElements r -> unshared s this r) ->
  (forall o g r, o <> this -> fields s !! o = Some g -> ptr_ g = PElements r ->
     rs' !! r = reps s !! r) ->
  let s' := Store rs' (<[this := f']> (fields s)) in
  store_ok s' /\ holds s' this a l (total_size_ f') /\ keeps_others s s' this.
Proof.
  intros [Hw Hd] Hf Hrep Hun Hfr s'. split_and!.
  - split.
    + intros o g Hg. simpl in Hg. apply lookup_insert_Some in Hg as [[<- <-]|[Ho Hg]]; [by eauto|].
      destruct (Hw _ _ Hg) as (b & k & Hk). exists b, k.
      eapply field_rep_frame; [done|]. intros r Hr. eapply (Hfr o); eauto.
    + intros o g r Hg Hr o' g' Ho' Hg' Hr'. simpl in Hg, Hg'.
      apply lookup_insert_Some in Hg as [[<- <-]|[Ho Hg]];
      apply lookup_insert_Some in Hg' as [[<- <-]|[Ho2 Hg']]; try done.
      * by eapply Hun.
      * eapply (Hun r); [done| |exact Hg|exact Hr]. done.
      * by eapply (Hd o g r).
  - exists f'. simpl. rewrite lookup_insert_eq. done.
  - split.
    + intros o Ho. simpl. by rewrite lookup_insert_ne.
    + intros o b k c Ho (g & Hg & Hk & Hc). exists g. simpl. rewrite lookup_insert_ne by done.
      split_and!; [done| |done]. eapply field_rep_frame; [done|]. intros r Hr. eapply (Hfr o); eauto.
Qed.

(** ** Steps of the code on a heap that is known *)

Lemma field_eq s this f : fields s !! this = Some f -> field this s = Done (f, s).
Proof. intros Hf. unfold field. by rewrite Hf. Qed.

Lemma set_field_eq s this f :
  set_field this f s = Done (tt, Store (reps s) (<[this := f]> (fields s))).
Proof. done. Qed.

Lemma lift_ok {A} (m : cres A) x s : m = Done x -> st_lift m s = Done (x, s).
Proof. intros ->. done. Qed.

Lemma elements_eq s f r : 0 < total_size_ f -> ptr_ f = PElements r -> elements f s = Done (r, s).
Proof.
  intros Ht Hp. unfold elements. rewrite stm_bind_eq, (lift_ok _ tt) by (by apply dcheck_ok).
  by rewrite Hp.
Qed.

Lemma load_element_eq s r i b els v :
  reps s !! r = Some (MkRep b els) -> 0 <= i -> els !! Z.to_nat i = Some v ->
  load_element (EPtr r i) s = Done (v, s).
Proof.
  intros Hr Hi Hv. unfold load_element, array. rewrite stm_bind_eq. simpl. rewrite Hr.
  rewrite decide_True by done. simpl. by rewrite Hv.
Qed.

Lemma store_element_eq s r i b els v :
  reps s !! r = Some (MkRep b els) -> 0 <= i < Z.of_nat (length els) ->
  store_element (EPtr r i) v s
  = Done (tt, Store (<[r := MkRep b (<[Z.to_nat i := v]> els)]> (reps s)) (fields s)).
Proof.
  intros Hr Hi. unfold store_element, array. rewrite stm_bind_eq. simpl. rewrite Hr.
  by rewrite decide_True.
Qed.

Lemma GetArenaNoVirtual_eq s f a l :
  field_rep (reps s) f a l -> GetArenaNoVirtual f s = Done (a, s).
Proof.
  intros (Hc & Ht & Hl & [[H0 Hp]|(H0 & r & els & Hp & Hr & Hrest)]); unfold GetArenaNoVirtual.
  - rewrite decide_True by done. by rewrite Hp.
  - rewrite decide_False by lia. unfold rep. rewrite stm_bind_eq, (elements_eq _ _ r) by done.
    unfold array. by rewrite stm_bind_eq, Hr.
Qed.

(** A field with elements has an array, which no other field has. *)
Lemma field_array s this f a l :
  store_ok s -> fields s !! this = Some f -> field_rep (reps s) f a l -> 0 < total_size_ f ->
  exists r els, ptr_ f = PElements r /\ reps s !! r = Some (MkRep a els) /\
    Z.of_nat (length els) = total_size_ f /\ take (length l) els = l /\ unshared s this r.
Proof.
  intros [Hw Hd] Hf (Hc & Ht & Hl & [[H0 _]|(H0 & r & els & Hp & Hr & Hlen & Htk)]) Hpos; [lia|].
  exists r, els. split_and!; try done. by eapply Hd.
Qed.

(** Loading the elements [i .. i + n - 1] of an array. *)
Lemma load_elements_eq s r i n b els :
  reps s !! r = Some (MkRep b els) -> 0 <= i -> 0 <= n -> i + n <= Z.of_nat (length els) ->
  mapM (fun k => load_element (EPtr r (i + k))) (seqZ 0 n) s
  = Done (take (Z.to_nat n) (drop (Z.to_nat i) els), s).
Proof.
  intros Hr Hi Hn Hl.
  assert (G : forall k c, 0 <= c -> i + c + Z.of_nat k <= Z.of_nat (length els) ->
    mapM (fun k => load_element (EPtr r (i + k))) (seqZ c (Z.of_nat k)) s
    = Done (take k (drop (Z.to_nat (i + c)) els), s)).
  { induction k as [|k IH]; intros c Hc Hk; [done|].
    rewrite seqZ_cons by lia. cbn [mapM]. rewrite stm_bind_eq.
    destruct (lookup_lt_is_Some_2 els (Z.to_nat (i + c)) ltac:(lia)) as [v Hv].
    rewrite (load_element_eq s r (i + c) b els v) by (done || lia).
    replace (Z.pred (Z.of_nat (S k))) with (Z.of_nat k) by lia.
    rewrite stm_bind_eq, IH by lia.
    rewrite (drop_S els v (Z.to_nat (i + c))) by done. cbn [take].
    replace (Z.to_nat (i + Z.succ c)) with (S (Z.to_nat (i + c))) by lia. done. }
  specialize (G (Z.to_nat n) 0 ltac:(lia)). rewrite Z2Nat.id, Z.add_0_r in G by lia. apply G. lia.
Qed.

(** Copying into an array. *)
Lemma ElementCopier_eq s r i r' i' n b els b' els' :
  reps s !! r = Some (MkRep b els) -> reps s !! r' = Some (MkRep b' els') ->
  0 <= i -> 0 <= i' -> 0 <= n ->
  i + n <= Z.of_nat (length els) -> i' + n <= Z.of_nat (length els') ->
  ElementCopier (EPtr r i) (EPtr r' i') n s
  = Done (tt, Store (<[r := MkRep b
       (splice (Z.to_nat i) (take (Z.to_nat n) (drop (Z.to_nat i') els')) els)]> (reps s)) (fields s)).
Proof.
  intros Hr Hr' Hi Hi' Hn Hl Hl'. unfold ElementCopier. cbn [ep_rep ep_index].
  rewrite stm_bind_eq, (load_elements_eq _ _ _ _ b' els') by done.
  unfold array. rewrite stm_bind_eq, Hr. cbn [rep_elements rep_arena].
  by rewrite decide_True by lia.
Qed.

(** ** The effect of an operation *)

(** From [s], [m] returns [x]; the heap stays well formed and only the object at
    [this] changes: it then holds [l], on the same arena, with room for [cap]. *)
Definition acts {A} (m : stm (store E) A) s this (x : A) a l (cap : Z) : Prop :=
  exists s', m s = Done (x, s') /\ store_ok s' /\ holds s' this a l cap /\ keeps_others s s' this.

Lemma keeps_others_refl s this : keeps_others s s this.
Proof. split; done. Qed.

Lemma keeps_others_trans s1 s2 s3 this :
  keeps_others s1 s2 this -> keeps_others s2 s3 this -> keeps_others s1 s3 this.
Proof.
  intros [H1 H1'] [H2 H2']. split.
  - intros o Ho. by rewrite H2, H1.
  - intros o b k c Ho Hh. eauto.
Qed.

Lemma acts_ret {A} (x : A) s this a l cap :
  store_ok s -> holds s this a l cap -> acts (mret x) s this x a l cap.
Proof. intros Hs Hh. exists s. split_and!; done. Qed.

(** A read that does not change the heap, then the rest. *)
Lemma acts_read {A B} (m : stm (store E) A) (k : A -> stm (store E) B) s this y x a l cap :
  m s = Done (y, s) -> acts (k y) s this x a l cap -> acts (m ≫= k) s this x a l cap.
Proof. intros Hm (s' & Hk & Hs). exists s'. by rewrite stm_bind_eq, Hm. Qed.

Lemma acts_bind {A B} (m : stm (store E) A) (k : A -> stm (store E) B) s this y x a l l' cap cap' :
  acts m s this y a l cap ->
  (forall s', store_ok s' -> holds s' this a l cap -> keeps_others s s' this ->
     acts (k y) s' this x a l' cap') ->
  acts (m ≫= k) s this x a l' cap'.
Proof.
  intros (s1 & Hm & Hs1 & Hh1 & Ho1) Hk.
  destruct (Hk s1 Hs1 Hh1 Ho1) as (s2 & Hm2 & Hs2 & Hh2 & Ho2).
  exists s2. rewrite stm_bind_eq, Hm. split_and!; try done. by eapply keeps_others_trans.
Qed.

(** An operation that writes the object, and possibly its array, where [s] says. *)
Lemma acts_update {A} (m : stm (store E) A) (x : A) s this f f' rs' a l :
  store_ok s -> fields s !! this = Some f ->
  m s = Done (x, Store rs' (<[this := f']> (fields s))) ->
  field_rep rs' f' a l ->
  (forall r, ptr_ f' = PElements r -> unshared s this r) ->
  (forall o g r, o <> this -> fields s !! o = Some g -> ptr_ g = PElements r ->
     rs' !! r = reps s !! r) ->
  acts m s this x a l (total_size_ f').
Proof.
  intros Hs Hf Hm Hrep Hun Hfr.
  destruct (update_field s this f f' rs' a l Hs Hf Hrep Hun Hfr) as (H1 & H2 & H3).
  eexists. done.
Qed.

(** Continue from a later heap. *)
Lemma acts_from {A} s s1 this (m : stm (store E) A) x a l cap (r : cres (A * store E)) :
  keeps_others s s1 this -> m s = r ->
  (exists s', r = Done (x, s') /\ store_ok s' /\ holds s' this a l cap /\ keeps_others s1 s' this) ->
  acts m s this x a l cap.
Proof.
  intros Ho Hm (s' & Hr & Hs' & Hh' & Ho'). exists s'. rewrite Hm. split_and!; try done.
  by eapply keeps_others_trans.
Qed.

Lemma acts_update_eq {A} (x : A) (r : cres (A * store E)) s this f f' rs' a l :
  store_ok s -> fields s !! this = Some f ->
  r = Done (x, Store rs' (<[this := f']> (fields s))) ->
  field_rep rs' f' a l ->
  (forall r, ptr_ f' = PElements r -> unshared s this r) ->
  (forall o g r, o <> this -> fields s !! o = Some g -> ptr_ g = PElements r ->
     rs' !! r = reps s !! r) ->
  exists s', r = Done (x, s') /\ store_ok s' /\ holds s' this a l (total_size_ f') /\
    keeps_others s s' this.
Proof.
  intros Hs Hf Hm Hrep Hun Hfr.
  destruct (update_field s this f f' rs' a l Hs Hf Hrep Hun Hfr) as (H1 & H2 & H3).
  eexists. done.
Qed.

(** Writing only the counters. *)
Lemma acts_set_field {A} (m : stm (store E) A) (x : A) s this f f' a l :
  store_ok s -> fields s !! this = Some f -> ptr_ f' = ptr_ f ->
  m s = Done (x, Store (reps s) (<[this := f']> (fields s))) ->
  field_rep (reps s) f' a l -> acts m s this x a l (total_size_ f').
Proof.
  intros Hs Hf Hp Hm Hrep. eapply acts_update; try done.
  intros r Hr. rewrite Hp in Hr. by eapply Hs.
Qed.

Lemma insert_same (g : gmap Z RepeatedField) this f : g !! this = Some f -> <[this := f]> g = g.
Proof. apply insert_id. Qed.

(** Writing only the array. *)
Lemma acts_set_array {A} (m : stm (store E) A) (x : A) s this f a l r els l' :
  store_ok s -> fields s !! this = Some f -> field_rep (reps s) f a l ->
  ptr_ f = PElements r -> Z.of_nat (length els) = total_size_ f -> 0 < total_size_ f ->
  m s = Done (x, Store (<[r := MkRep a els]> (reps s)) (fields s)) ->
  Z.of_nat (length l') = current_size_ f -> take (length l') els = l' ->
  acts m s this x a l' (total_size_ f).
Proof.
  intros Hs Hf Hrep Hp Hlen Hpos Hm Hl' Htk.
  apply (acts_update m x s this f f (<[r := MkRep a els]> (reps s)) a l'); try done.
  - rewrite insert_same by done. exact Hm.
  - destruct Hrep as (Hc & Ht & _). split_and!; try done; [lia|lia|]. right. split; [done|].
    exists r, els. by rewrite lookup_insert_eq.
  - intros r' Hr'. by eapply Hs.
  - intros o g r' Ho Hg Hr'. rewrite lookup_insert_ne; [done|]. intros <-.
    destruct Hs as [_ Hd]. by eapply (Hd this f r).
Qed.

(** ** Growing *)

(** The capacity after [Reserve(n)]: at least doubled when it changes. *)
Definition grow (cap n : Z) : Z :=
  if decide (n <= cap) then cap else Z.max kMinRepeatedFieldAllocationSize (Z.max (cap * 2) n).

Lemma grow_ge cap n : n <= grow cap n /\ cap <= grow cap n.
Proof. unfold grow. case_decide; lia. Qed.

Lemma fresh_rep (rs : gmap Z (Rep E)) : rs !! (fresh (dom rs)) = None.
Proof. apply not_elem_of_dom. apply is_fresh. Qed.

Lemma reserve_check n : int_range n -> 0 <= n ->
  u64 n <= (2 ^ 64 - 1 - kRepHeaderSize) / sizeof_Element.
Proof.
  unfold int_range. intros Hn H0. rewrite u64_small by lia.
  pose proof sizeof_Element_range. pose proof kRepHeaderSize_range.
  apply Z.div_le_lower_bound; [lia|]. nia.
Qed.

(** The heap after [Reserve] has allocated, copied and freed. *)
Definition reserved (rs : gmap Z (Rep E)) f a l (N : Z) : gmap Z (Rep E) :=
  let r := fresh (dom rs) in
  let rs1 := <[r := MkRep a (splice 0 l (replicate (Z.to_nat N) new_Element))]> rs in
  match ptr_ f with
  | PElements old => if decide (a = None) then delete old rs1 else rs1
  | PArena _ => rs1
  end.

(** The elements move into the new array. *)
Lemma Reserve_move (rs : gmap Z (Rep E)) fs old els a l (N n : Z) r :
  r <> old -> rs !! old = Some (MkRep a els) -> n = Z.of_nat (length l) -> take (length l) els = l ->
  n <= Z.of_nat (length els) -> n <= N ->
  (if decide (0 < n) then MoveArray (EPtr r 0) (EPtr old 0) n else mret tt)
    (Store (<[r := MkRep a (replicate (Z.to_nat N) new_Element)]> rs) fs)
  = Done (tt, Store (<[r := MkRep a (splice 0 l (replicate (Z.to_nat N) new_Element))]> rs) fs).
Proof.
  intros Hne Hr Hl Htk Hlen HN. case_decide.
  - unfold MoveArray, CopyArray. erewrite ElementCopier_eq; cbn [reps fields].
    + rewrite insert_insert_eq. change (Z.to_nat 0) with 0%nat. rewrite drop_0, Hl, Nat2Z.id. by rewrite Htk.
    + by rewrite lookup_insert_eq.
    + rewrite lookup_insert_ne by done. exact Hr.
    + lia.
    + lia.
    + lia.
    + rewrite length_replicate. lia.
    + lia.
  - assert (l = []) as -> by (destruct l; [done|simpl in Hl; lia]). by rewrite splice_nil.
Qed.

Lemma Reserve_eq s this f a l n :
  store_ok s -> fields s !! this = Some f -> field_rep (reps s) f a l ->
  total_size_ f < 2 ^ 30 -> int_range n -> ~ n <= total_size_ f ->
  let N := grow (total_size_ f) n in
  Reserve this n s
  = Done (tt, Store (reserved (reps s) f a l N)
                    (<[this := RF (current_size_ f) N (PElements (fresh (dom (reps s))))]> (fields s))).
Proof.
  intros Hs Hf Hrep H30 Hn Hgt N. unfold Reserve, int_range in *.
  assert (Hc : 0 <= current_size_ f <= total_size_ f) by apply Hrep.
  rewrite stm_bind_eq, (field_eq _ _ f) by done. rewrite decide_False by done.
  assert (HN : Z.max kMinRepeatedFieldAllocationSize (Z.max (total_size_ f * 2) n) = N)
    by (subst N; unfold grow; by rewrite decide_False).
  assert (Hchk : u64 N <= (2 ^ 64 - 1 - kRepHeaderSize) / sizeof_Element).
  { apply reserve_check; unfold int_range, kMinRepeatedFieldAllocationSize in *; lia. }
  pose proof (fresh_rep (reps s)) as Hfresh. unfold reserved.
  set (r := fresh (dom (reps s))) in *.
  destruct Hrep as (_ & Ht & Hl & [[H0 Hp]|(H0 & old & els & Hp & Hr & Hlen & Htk)]).
  - rewrite decide_False by lia.
    assert (Ha : GetArenaNoVirtual f s = Done (a, s)).
    { unfold GetArenaNoVirtual. rewrite decide_True by done. by rewrite Hp. }
    rewrite stm_bind_eq. cbn [mret stm_ret]. rewrite stm_bind_eq, Ha.
    rewrite stm_bind_eq, (lift_ok _ (total_size_ f * 2)) by (apply int_op_ok; unfold int_range; lia).
    rewrite HN, stm_bind_eq, (lift_ok _ tt) by (by apply dcheck_ok).
    rewrite stm_bind_eq. unfold new_rep. fold r. rewrite stm_bind_eq, set_field_eq.
    rewrite decide_False by lia. rewrite Hp.
    assert (l = []) as -> by (destruct l; [done|simpl in Hl; lia]).
    rewrite splice_nil. done.
  - rewrite decide_True by lia.
    assert (Ha : GetArenaNoVirtual f s = Done (a, s)).
    { eapply (GetArenaNoVirtual_eq _ _ a l). split_and!; try done; [lia|lia|]. right. eauto 10. }
    rewrite stm_bind_eq. unfold rep. rewrite stm_bind_eq, (elements_eq _ _ old) by done.
    cbn [mret stm_ret]. rewrite stm_bind_eq, Ha.
    rewrite stm_bind_eq, (lift_ok _ (total_size_ f * 2)) by (apply int_op_ok; unfold int_range; lia).
    rewrite HN, stm_bind_eq, (lift_ok _ tt) by (by apply dcheck_ok).
    rewrite stm_bind_eq. unfold new_rep. fold r. rewrite stm_bind_eq, set_field_eq.
    cbn [reps fields]. rewrite Hp.
    assert (Hne : r <> old) by congruence.
    assert (HNpos : 0 <= N /\ current_size_ f <= N) by (subst N; pose proof (grow_ge (total_size_ f) n); lia).
    rewrite stm_bind_eq, (Reserve_move _ _ old els a l N) by (done || lia || (by rewrite <- Htk at 2; do 2 f_equal; lia)).
    unfold InternalDeallocate, array. rewrite stm_bind_eq. cbn [reps fields].
    rewrite lookup_insert_ne by done. rewrite Hr. cbn [rep_arena]. by destruct (decide (a = None)).
Qed.

Lemma Reserve_acts s this a l cap n :
  store_ok s -> holds s this a l cap -> cap < 2 ^ 30 -> int_range n ->
  acts (Reserve this n) s this tt a l (grow cap n).
Proof.
  intros Hs (f & Hf & Hrep & Hcap) H30 Hn.
  destruct (decide (n <= total_size_ f)) as [Hle|Hgt].
  { assert (grow cap n = cap) as -> by (unfold grow; rewrite decide_True by lia; done).
    eapply acts_read; [by apply field_eq|]. rewrite decide_True by done.
    apply acts_ret; [done|]. exists f. done. }
  pose proof (Reserve_eq s this f a l n Hs Hf Hrep ltac:(lia) Hn Hgt) as Heq. cbv zeta in Heq.
  rewrite <- Hcap. pose proof (grow_ge (total_size_ f) n) as [HN1 HN2].
  assert (HN3 : grow (total_size_ f) n < 2 ^ 31).
  { unfold grow, int_range, kMinRepeatedFieldAllocationSize in *. rewrite decide_False by done. lia. }
  set (N := grow (total_size_ f) n) in *.
  set (r := fresh (dom (reps s))) in *.
  pose proof (fresh_rep (reps s)) as Hfresh. fold r in Hfresh.
  change N with (total_size_ (RF (current_size_ f) N (PElements r))).
  eapply acts_update; [done|done|exact Heq| | |].
  - destruct Hrep as (Hc & Ht & Hl & Hp). unfold field_rep. cbn [current_size_ total_size_ ptr_].
    assert (HN0 : 0 < N).
    { subst N. unfold grow, kMinRepeatedFieldAllocationSize. rewrite decide_False by done. lia. }
    split_and!; [lia|lia|lia|done|]. right. split; [done|].
    exists r, (splice 0 l (replicate (Z.to_nat N) new_Element)). split_and!; [done| | |].
    + unfold reserved. fold r. destruct (ptr_ f) as [|old] eqn:Ho; [by rewrite lookup_insert_eq|].
      destruct Hp as [[_ Hp]|(_ & r' & els & Hp & Hr' & _)]; [congruence|].
      assert (old <> r) by congruence.
      case_decide; [rewrite lookup_delete_ne by done|]; by rewrite lookup_insert_eq.
    + rewrite length_splice, length_replicate by (rewrite length_replicate; lia). lia.
    + rewrite splice_0. apply take_app_length.
  - cbn [ptr_]. intros r' [= <-] o g Ho Hg Hg'. destruct Hs as [Hw _].
    destruct (Hw _ _ Hg) as (b & k & _ & _ & _ & [[_ Hp]|(_ & r' & els & Hp & Hr' & _)]); congruence.
  - intros o g r' Ho Hg Hg'. unfold reserved. fold r.
    assert (Hr' : r' <> r).
    { intros ->. destruct Hs as [Hw _].
      destruct (Hw _ _ Hg) as (b & k & _ & _ & _ & [[_ Hp]|(_ & r'' & els & Hp & Hr' & _)]); congruence. }
    destruct (ptr_ f) as [|old] eqn:Hpo; [by rewrite lookup_insert_ne|].
    assert (old <> r').
    { intros ->. destruct Hs as [_ Hd]. by eapply (Hd this f r'). }
    case_decide; [rewrite lookup_delete_ne by done|]; by rewrite lookup_insert_ne.
Qed.

(** ** Elements *)

(** Open a field that has room for an element: its array. *)
Lemma holds_array s this a l cap :
  store_ok s -> holds s this a l cap -> 0 < cap ->
  exists f r els, fields s !! this = Some f /\ field_rep (reps s) f a l /\
    total_size_ f = cap /\ current_size_ f = Z.of_nat (length l) /\
    ptr_ f = PElements r /\ reps s !! r = Some (MkRep a els) /\
    Z.of_nat (length els) = cap /\ take (length l) els = l /\ unshared s this r /\
    Z.of_nat (length l) <= cap /\ cap < 2 ^ 31.
Proof.
  intros Hs (f & Hf & Hrep & Hcap) Hpos.
  destruct (field_array s this f a l Hs Hf Hrep ltac:(lia)) as (r & els & Hp & Hr & Hlen & Htk & Hun).
  destruct Hrep as (Hc & Ht & Hl & Hrest).
  exists f, r, els. split_and!; done || lia.
Qed.

Lemma take_insert_end (els l : list E) v :
  take (length l) els = l -> (length l < length els)%nat ->
  take (length (l ++ [v])) (<[length l := v]> els) = l ++ [v].
Proof.
  intros Htk Hlt. rewrite length_app. cbn [length]. rewrite Nat.add_1_r.
  rewrite (take_S_r _ _ v) by (rewrite list_lookup_insert_eq; done).
  rewrite take_insert_ge by lia. by rewrite Htk.
Qed.

Lemma push_acts s this a l cap v :
  store_ok s -> holds s this a l cap -> Z.of_nat (length l) < cap ->
  acts (p ← next_slot this; x ← deref (Val v); store_element p x) s this tt a (l ++ [v]) cap.
Proof.
  intros Hs Hh Hlt.
  destruct (holds_array s this a l cap Hs Hh ltac:(lia))
    as (f & r & els & Hf & Hrep & Hcap & Hcs & Hp & Hr & Hlen & Htk & Hun & Hle & Hmax).
  rewrite <- Hcap.
  change (total_size_ f) with (total_size_ (RF (current_size_ f + 1) (total_size_ f) (ptr_ f))).
  eapply (acts_update _ _ _ _ f _ (<[r := MkRep a (<[length l := v]> els)]> (reps s)));
    [done|done| | | |].
  - rewrite stm_bind_eq. unfold next_slot.
    rewrite stm_bind_eq, (field_eq _ _ f), stm_bind_eq, (elements_eq _ _ r) by (done || lia).
    rewrite stm_bind_eq, (lift_ok _ (current_size_ f + 1)) by (apply int_op_ok; unfold int_range; lia).
    rewrite stm_bind_eq, set_field_eq. cbn [mret stm_ret deref]. rewrite stm_bind_eq.
    cbn [mret stm_ret]. rewrite (store_element_eq _ _ _ a els) by (simpl; done || lia).
    cbn [reps fields]. repeat f_equal. lia.
  - unfold field_rep. cbn [current_size_ total_size_ ptr_]. rewrite length_app. cbn [length].
    split_and!; try lia. right. split; [lia|]. exists r, (<[length l := v]> els).
    rewrite lookup_insert_eq, length_insert. split_and!; try done; [lia|].
    replace (length l + 1)%nat with (length (l ++ [v])) by (rewrite length_app; done).
    apply take_insert_end; [done|lia].
  - cbn [ptr_]. intros r' Hr'. rewrite Hp in Hr'; by simplify_eq.
  - intros o g r' Ho Hg Hg'. rewrite lookup_insert_ne; [done|]. intros <-. by eapply Hun.
Qed.

Lemma Add_acts s this a l cap v :
  store_ok s -> holds s this a l cap -> cap < 2 ^ 30 ->
  acts (Add this (Val v)) s this tt a (l ++ [v]) (grow cap (Z.of_nat (length l) + 1)).
Proof.
  intros Hs Hh H30. destruct Hh as (f & Hf & Hrep & Hcap).
  assert (Hc : Z.of_nat (length l) = current_size_ f /\ 0 <= current_size_ f <= total_size_ f)
    by (destruct Hrep as (? & ? & ? & ?); lia).
  unfold Add. eapply acts_read; [by apply field_eq|].
  case_decide as Hfull.
  - eapply (acts_bind _ _ _ _ tt _ _ l _ (grow cap (total_size_ f + 1))).
    + eapply acts_read; [apply lift_ok, int_op_ok; unfold int_range; lia|].
      apply Reserve_acts; [done|by exists f|done|unfold int_range; lia].
    + intros s' Hs' Hh' _. replace (Z.of_nat (length l) + 1) with (total_size_ f + 1) by lia.
      apply push_acts; [done|done|]. pose proof (grow_ge cap (total_size_ f + 1)). lia.
  - eapply (acts_bind _ _ _ _ tt _ _ l _ cap).
    + apply acts_ret; [done|by exists f].
    + intros s' Hs' Hh' _. unfold grow. rewrite decide_True by lia.
      apply push_acts; [done|done|lia].
Qed.

Lemma AddAlreadyReserved_acts s this a l cap v :
  store_ok s -> holds s this a l cap -> Z.of_nat (length l) < cap ->
  acts (AddAlreadyReserved this (Val v)) s this tt a (l ++ [v]) cap.
Proof.
  intros Hs Hh Hlt. unfold AddAlreadyReserved. pose proof Hh as (f & Hf & Hrep & Hcap).
  eapply acts_read; [by apply field_eq|].
  eapply acts_read.
  { apply (lift_ok _ tt), dcheck_ok. destruct Hrep as (? & ? & ? & ?). lia. }
  by apply push_acts.
Qed.

(** Reading and overwriting the element at an index. *)
Lemma Get_acts s this a l cap i v :
  store_ok s -> holds s this a l cap -> 0 <= i -> l !! Z.to_nat i = Some v ->
  Get this i s = Done (v, s).
Proof.
  intros Hs Hh Hi Hv. pose proof (lookup_lt_Some _ _ _ Hv) as Hlt.
  assert (Hpos : 0 < cap) by (destruct Hh as (f & _ & (? & ? & ? & _) & <-); lia).
  destruct (holds_array s this a l cap Hs Hh Hpos)
    as (f & r & els & Hf & Hrep & Hcap & Hcs & Hp & Hr & Hlen & Htk & Hun & Hle & Hmax).
  unfold Get. rewrite stm_bind_eq, (field_eq _ _ f) by done.
  rewrite stm_bind_eq, (lift_ok _ tt) by (by apply dcheck_ok).
  rewrite stm_bind_eq, (lift_ok _ tt) by (apply dcheck_ok; lia).
  rewrite stm_bind_eq, (elements_eq _ _ r) by (done || lia).
  apply (load_element_eq s r i a els v); [done|done|].
  rewrite <- Htk, lookup_take_lt in Hv by lia. done.
Qed.

Lemma Set_acts s this a l cap i v :
  store_ok s -> holds s this a l cap -> 0 <= i < Z.of_nat (length l) ->
  acts (Set_ this i (Val v)) s this tt a (<[Z.to_nat i := v]> l) cap.
Proof.
  intros Hs Hh Hi.
  assert (Hpos : 0 < cap) by (destruct Hh as (f & _ & (? & ? & ? & _) & <-); lia).
  destruct (holds_array s this a l cap Hs Hh Hpos)
    as (f & r & els & Hf & Hrep & Hcap & Hcs & Hp & Hr & Hlen & Htk & Hun & Hle & Hmax).
  rewrite <- Hcap.
  eapply (acts_set_array _ _ _ _ _ _ _ r (<[Z.to_nat i := v]> els));
    [done|done|exact Hrep|done| | | | |].
  - rewrite length_insert. lia.
  - lia.
  - unfold Set_. rewrite stm_bind_eq, (field_eq _ _ f) by done.
    rewrite stm_bind_eq, (lift_ok _ tt) by (apply dcheck_ok; lia).
    rewrite stm_bind_eq, (lift_ok _ tt) by (apply dcheck_ok; lia).
    rewrite stm_bind_eq, (elements_eq _ _ r), stm_bind_eq by (done || lia).
    cbn [deref mret stm_ret]. by rewrite (store_element_eq _ _ _ a els) by (done || lia).
  - rewrite length_insert. lia.
  - rewrite length_insert, take_insert_lt by lia. by rewrite Htk.
Qed.

(** Changing the number of elements within the array: [Truncate], [RemoveLast], [Clear]. *)
Lemma take_prefix (els l : list E) n :
  take (length l) els = l -> (n <= length l)%nat -> take n els = take n l.
Proof. intros Htk Hn. rewrite <- Htk, take_take. f_equal. lia. Qed.

Lemma shrink_acts {A} (m : stm (store E) A) x s this f a l n :
  store_ok s -> fields s !! this = Some f -> field_rep (reps s) f a l ->
  (n <= length l)%nat ->
  m s = Done (x, Store (reps s) (<[this := RF (Z.of_nat n) (total_size_ f) (ptr_ f)]> (fields s))) ->
  acts m s this x a (take n l) (total_size_ f).
Proof.
  intros Hs Hf Hrep Hn Hm.
  change (total_size_ f) with (total_size_ (RF (Z.of_nat n) (total_size_ f) (ptr_ f))).
  eapply acts_set_field; [done|done|done|exact Hm|].
  destruct Hrep as (Hc & Ht & Hl & Hp). unfold field_rep. cbn [current_size_ total_size_ ptr_].
  rewrite length_take, Nat.min_l by done. split_and!; try lia.
  destruct Hp as [Hp|(H0 & r & els & Hp & Hr & Hlen & Htk)]; [by left|right].
  split; [done|]. exists r, els. split_and!; try done.
  rewrite <- Htk, take_take. f_equal. lia.
Qed.

Lemma Truncate_acts s this a l cap n :
  store_ok s -> holds s this a l cap -> 0 <= n <= Z.of_nat (length l) ->
  acts (Truncate this n) s this tt a (take (Z.to_nat n) l) cap.
Proof.
  intros Hs (f & Hf & Hrep & <-) Hn. pose proof Hrep as (Hc & Ht & Hl & _).
  unfold Truncate. eapply acts_read; [by apply field_eq|].
  eapply acts_read; [apply (lift_ok _ tt), dcheck_ok; lia|].
  case_decide.
  - eapply (shrink_acts _ _ _ _ f); [done..|lia|]. rewrite set_field_eq. repeat f_equal. lia.
  - rewrite take_ge by lia. apply acts_ret; [done|by exists f].
Qed.

Lemma RemoveLast_acts s this a l v cap :
  store_ok s -> holds s this a (l ++ [v]) cap -> acts (RemoveLast this) s this tt a l cap.
Proof.
  intros Hs (f & Hf & Hrep & <-). pose proof Hrep as (Hc & Ht & Hl & _).
  rewrite length_app in Hl. cbn [length] in Hl.
  unfold RemoveLast. eapply acts_read; [by apply field_eq|].
  eapply acts_read; [apply (lift_ok _ tt), dcheck_ok; lia|].
  rewrite <- (take_app_length l [v]).
  eapply (shrink_acts _ _ _ _ f); [done..|rewrite length_app; lia|].
  rewrite set_field_eq. repeat f_equal. lia.
Qed.

Lemma Clear_acts s this a l cap :
  store_ok s -> holds s this a l cap -> acts (Clear this) s this tt a [] cap.
Proof.
  intros Hs (f & Hf & Hrep & <-). unfold Clear. eapply acts_read; [by apply field_eq|].
  change [] with (take 0 l). eapply (shrink_acts _ _ _ _ f); [done..|lia|done].
Qed.

(** ** Loops over the array *)

(** [k] times, from [i] upwards, the element at [i] moves down by [num]. *)
Fixpoint shift_down (num i k : nat) (els : list E) : list E :=
  match k with
  | O => els
  | S k => shift_down num (S i) k
             (match els !! i with Some v => <[(i - num)%nat := v]> els | None => els end)
  end.

Lemma length_shift_down num i k els : length (shift_down num i k els) = length els.
Proof.
  revert i els. induction k as [|k IH]; intros i els; [done|]. cbn [shift_down]. rewrite IH.
  destruct (els !! i); [by rewrite length_insert|done].
Qed.

Lemma take_shift_down num i k els :
  (0 < num <= i)%nat -> (i + k <= length els)%nat ->
  take (i + k - num) (shift_down num i k els) = take (i - num) els ++ take k (drop i els).
Proof.
  revert i els. induction k as [|k IH]; intros i els Hn Hl.
  - cbn [shift_down]. by rewrite Nat.add_0_r, take_0, app_nil_r.
  - cbn [shift_down]. destruct (lookup_lt_is_Some_2 els i ltac:(lia)) as [v Hv]. rewrite Hv.
    replace (i + S k - num)%nat with (S i + k - num)%nat by lia.
    rewrite IH by (rewrite ?length_insert; lia).
    replace (S i - num)%nat with (S (i - num))%nat by lia.
    rewrite (take_S_r _ _ v) by (rewrite list_lookup_insert_eq; [done|lia]).
    rewrite take_insert_ge by lia. rewrite drop_insert_lt by lia.
    rewrite (drop_S els v i) by done. cbn [take]. by rewrite <- app_assoc.
Qed.

(** The loop of [erase] on the array. *)
Lemma move_loop_eq s r a els (last first : Z) k i :
  reps s !! r = Some (MkRep a els) -> 0 <= first < last -> last <= Z.of_nat i ->
  (i + k <= length els)%nat ->
  for_range (Z.of_nat i) (Z.of_nat i + Z.of_nat k) (fun j =>
     v ← load_element (EPtr r j); store_element (EPtr r (j - last + first)) v) s
  = Done (tt, Store (<[r := MkRep a (shift_down (Z.to_nat (last - first)) i k els)]> (reps s)) (fields s)).
Proof.
  unfold for_range. replace (Z.of_nat i + Z.of_nat k - Z.of_nat i) with (Z.of_nat k) by lia.
  revert s els i. induction k as [|k IH]; intros s els i Hr Hf Hl Hk.
  - simpl. rewrite insert_id by done. by destruct s.
  - rewrite seqZ_cons by lia. cbn [foldr]. rewrite stm_bind_eq.
    destruct (lookup_lt_is_Some_2 els i ltac:(lia)) as [v Hv].
    rewrite stm_bind_eq, (load_element_eq _ _ _ a els v) by (rewrite ?Nat2Z.id; done || lia).
    rewrite (store_element_eq _ _ _ a els) by (done || lia).
    replace (Z.succ (Z.of_nat i)) with (Z.of_nat (S i)) by lia.
    replace (Z.pred (Z.of_nat (S k))) with (Z.of_nat k) by lia.
    rewrite (IH _ (<[(i - Z.to_nat (last - first))%nat := v]> els)).
    + cbn [reps fields shift_down]. by rewrite insert_insert_eq, Hv.
    + cbn [reps]. rewrite lookup_insert_eq. repeat f_equal. lia.
    + done.
    + lia.
    + rewrite length_insert. lia.
Qed.

Lemma erase_range_acts s this a l cap first last :
  store_ok s -> holds s this a l cap -> 0 <= first <= last -> last <= Z.of_nat (length l) ->
  acts (erase_range this first last) s this first a
    (take (Z.to_nat first) l ++ drop (Z.to_nat last) l) cap.
Proof.
  intros Hs Hh Hf Hl. unfold erase_range. cbv zeta.
  destruct (decide (first <> last)) as [Hne|Heq%dec_stable].
  2:{ rewrite <- Heq, take_drop.
      eapply acts_read; [done|]. by apply acts_ret. }
  assert (Hpos : 0 < cap) by (destruct Hh as (f & _ & (? & ? & ? & _) & <-); lia).
  destruct (holds_array s this a l cap Hs Hh Hpos)
    as (f & r & els & Hfl & Hrep & Hcap & Hcs & Hp & Hr & Hlen & Htk & Hun & Hle & Hmax).
  set (num := Z.to_nat (last - first)). set (k := (length l - Z.to_nat last)%nat).
  set (els' := shift_down num (Z.to_nat last) k els).
  assert (Htake : take (length l - num) els' = take (Z.to_nat first) l ++ drop (Z.to_nat last) l).
  { subst els'. replace (length l - num)%nat with (Z.to_nat last + k - num)%nat by lia.
    rewrite take_shift_down by lia. rewrite take_drop_commute.
    replace (Z.to_nat last + k)%nat with (length l) by lia. rewrite Htk.
    f_equal. rewrite <- (take_prefix els l) by (done || lia). f_equal. lia. }
  eapply (acts_bind _ _ _ _ tt _ _ (take (length l - num) els') _ cap);
    [|by intros s' Hs' Hh' _; rewrite Htake in *; apply acts_ret].
  eapply acts_read; [by apply field_eq|]. eapply acts_read; [apply elements_eq; [lia|done]|].
  eapply (acts_bind _ _ _ _ tt _ _ (take (length l) els') _ cap).
  - rewrite <- Hcap.
    pose proof (length_shift_down num (Z.to_nat last) k els) as Hls. fold els' in Hls.
    eapply (acts_set_array _ _ _ _ _ _ _ r els'); [done|done|exact Hrep|done|lia|lia| | |].
    + pose proof (move_loop_eq s r a els last first k (Z.to_nat last) Hr ltac:(lia) ltac:(lia) ltac:(lia)) as Hm.
      rewrite Z2Nat.id in Hm by lia. fold num els' in Hm.
      replace (current_size_ f) with (last + Z.of_nat k) by lia. exact Hm.
    + rewrite length_take. lia.
    + rewrite length_take. f_equal. lia.
  - intros s' Hs' Hh' _. assert (Hpre : take (length l - num) els' = take (length l - num) (take (length l) els'))
      by (rewrite take_take; f_equal; lia).
    rewrite Hpre. replace (length l - num)%nat with (Z.to_nat (first + (current_size_ f - last))) by lia.
    apply Truncate_acts; [done|done|].
    rewrite length_take, Nat.min_l by (subst els'; rewrite length_shift_down; lia). lia.
Qed.

Lemma gets_eq s this a l cap start num :
  store_ok s -> holds s this a l cap -> 0 <= start -> 0 <= num ->
  start + num <= Z.of_nat (length l) ->
  mapM (fun i => Get this (i + start)) (seqZ 0 num) s
  = Done (take (Z.to_nat num) (drop (Z.to_nat start) l), s).
Proof.
  intros Hs Hh Hst Hn Hl.
  assert (G : forall k c, 0 <= c -> start + c + Z.of_nat k <= Z.of_nat (length l) ->
    mapM (fun i => Get this (i + start)) (seqZ c (Z.of_nat k)) s
    = Done (take k (drop (Z.to_nat (start + c)) l), s)).
  { induction k as [|k IH]; intros c Hc Hk; [done|].
    rewrite seqZ_cons by lia. cbn [mapM]. rewrite stm_bind_eq.
    destruct (lookup_lt_is_Some_2 l (Z.to_nat (start + c)) ltac:(lia)) as [v Hv].
    rewrite (Get_acts s this a l cap (c + start) v);
      [|done|done|lia|by rewrite Z.add_comm].
    replace (Z.pred (Z.of_nat (S k))) with (Z.of_nat k) by lia.
    rewrite stm_bind_eq, IH by lia.
    rewrite (drop_S l v (Z.to_nat (start + c))) by done. cbn [take].
    by replace (Z.to_nat (start + Z.succ c)) with (S (Z.to_nat (start + c))) by lia. }
  specialize (G (Z.to_nat num) 0 ltac:(lia)). rewrite Z2Nat.id, Z.add_0_r in G by lia. apply G. lia.
Qed.

Lemma shift_loop_acts s this a l cap num k i :
  store_ok s -> holds s this a l cap -> 0 < num <= Z.of_nat i -> (i + k <= length l)%nat ->
  acts (for_range (Z.of_nat i) (Z.of_nat i + Z.of_nat k)
          (fun j => v ← Get this j; Set_ this (j - num) (Val v)))
    s this tt a (shift_down (Z.to_nat num) i k l) cap.
Proof.
  unfold for_range. replace (Z.of_nat i + Z.of_nat k - Z.of_nat i) with (Z.of_nat k) by lia.
  revert s l i. induction k as [|k IH]; intros s l i Hs Hh Hn Hk; [by apply acts_ret|].
  rewrite seqZ_cons by lia. cbn [foldr].
  destruct (lookup_lt_is_Some_2 l i ltac:(lia)) as [v Hv].
  replace (Z.succ (Z.of_nat i)) with (Z.of_nat (S i)) by lia.
  replace (Z.pred (Z.of_nat (S k))) with (Z.of_nat k) by lia.
  eapply (acts_bind _ _ _ _ tt _ _ (<[Z.to_nat (Z.of_nat i - num) := v]> l) _ cap).
  - eapply acts_read; [eapply Get_acts; [done..|lia|by rewrite Nat2Z.id]|].
    apply Set_acts; [done|done|lia].
  - intros s' Hs' Hh' _. cbn [shift_down]. rewrite Hv.
    replace (i - Z.to_nat num)%nat with (Z.to_nat (Z.of_nat i - num)) by lia.
    apply IH; [done|done|lia|]. rewrite length_insert. lia.
Qed.

Lemma ExtractSubrange_acts s this a l cap start num wanted :
  store_ok s -> holds s this a l cap -> 0 <= start -> 0 <= num ->
  start + num <= Z.of_nat (length l) ->
  acts (ExtractSubrange this start num wanted) s this
    (if wanted then Some (take (Z.to_nat num) (drop (Z.to_nat start) l)) else None) a
    (take (Z.to_nat start) l ++ drop (Z.to_nat (start + num)) l) cap.
Proof.
  intros Hs Hh Hst Hn Hl. pose proof Hh as (f & Hf & Hrep & Hcap).
  pose proof Hrep as (Hc & Ht & Hlen & _).
  unfold ExtractSubrange.
  eapply acts_read; [apply (lift_ok _ tt), dcheck_ok; lia|].
  eapply acts_read; [apply (lift_ok _ tt), dcheck_ok; lia|].
  eapply acts_read; [by apply field_eq|].
  eapply acts_read; [apply (lift_ok _ (start + num)), int_op_ok; unfold int_range; lia|].
  eapply acts_read; [apply (lift_ok _ tt), dcheck_ok; lia|].
  eapply acts_read with (y := if wanted then Some (take (Z.to_nat num) (drop (Z.to_nat start) l)) else None).
  { destruct wanted; [|done]. by rewrite stm_bind_eq, (gets_eq s this a l cap). }
  eapply (acts_bind _ _ _ _ tt); [|intros s' Hs' Hh' _; by apply acts_ret].
  destruct (decide (0 < num)) as [Hpos|Hz].
  2:{ replace (start + num) with start by lia. rewrite take_drop. by apply acts_ret. }
  set (i := Z.to_nat (start + num)). set (k := (length l - i)%nat).
  pose proof (shift_loop_acts s this a l cap num k i Hs Hh ltac:(lia) ltac:(lia)) as Hloop.
  replace (Z.of_nat i + Z.of_nat k) with (current_size_ f) in Hloop by lia.
  replace (Z.of_nat i) with (start + num) in Hloop by lia.
  eapply (acts_bind _ _ _ _ tt); [exact Hloop|]. intros s' Hs' Hh' _.
  assert (Htake : take (i + k - Z.to_nat num) (shift_down (Z.to_nat num) i k l)
                  = take (Z.to_nat start) l ++ drop i l).
  { rewrite take_shift_down by lia. f_equal; [f_equal; lia|].
    apply take_ge. rewrite length_drop. lia. }
  rewrite <- Htake. replace (i + k - Z.to_nat num)%nat with (Z.to_nat (current_size_ f - num)) by lia.
  apply Truncate_acts; [done|done|]. rewrite length_shift_down. lia.
Qed.

Lemma SwapElements_acts s this a l cap i j vi vj :
  store_ok s -> holds s this a l cap -> 0 <= i -> 0 <= j ->
  l !! Z.to_nat i = Some vi -> l !! Z.to_nat j = Some vj ->
  acts (SwapElements this i j) s this tt a (<[Z.to_nat j := vi]> (<[Z.to_nat i := vj]> l)) cap.
Proof.
  intros Hs Hh Hi Hj Hvi Hvj.
  pose proof (lookup_lt_Some _ _ _ Hvi) as Li. pose proof (lookup_lt_Some _ _ _ Hvj) as Lj.
  assert (Hpos : 0 < cap) by (destruct Hh as (f & _ & (? & ? & ? & _) & <-); lia).
  destruct (holds_array s this a l cap Hs Hh Hpos)
    as (f & r & els & Hf & Hrep & Hcap & Hcs & Hp & Hr & Hlen & Htk & Hun & Hle & Hmax).
  rewrite <- Hcap. unfold SwapElements.
  eapply acts_read; [by apply field_eq|]. eapply acts_read; [apply elements_eq; [lia|done]|].
  rewrite <- Htk, lookup_take_lt in Hvi by lia. rewrite <- Htk, lookup_take_lt in Hvj by lia.
  eapply acts_read; [eapply load_element_eq; [done|done|exact Hvi]|].
  eapply acts_read; [eapply load_element_eq; [done|done|exact Hvj]|].
  eapply (acts_set_array _ _ _ _ _ _ _ r (<[Z.to_nat j := vi]> (<[Z.to_nat i := vj]> els)));
    [done|done|exact Hrep|done|rewrite !length_insert; lia|lia| | |].
  - rewrite stm_bind_eq, (store_element_eq _ _ _ a els) by (done || lia).
    rewrite (store_element_eq _ _ _ a (<[Z.to_nat i := vj]> els));
      [|simpl; by rewrite lookup_insert_eq|rewrite length_insert; lia].
    cbn [reps fields]. by rewrite insert_insert_eq.
  - rewrite !length_insert. lia.
  - rewrite !length_insert, !take_insert_lt by lia. by rewrite Htk.
Qed.

(** ** Resize *)

Lemma insert_splice (els : list E) i v : (i < length els)%nat -> <[i := v]> els = splice i [v] els.
Proof.
  intros Hi. apply list_eq. intros j. rewrite lookup_splice by (simpl; lia). cbn [length].
  destruct (decide (i = j)) as [<-|Hne].
  - rewrite list_lookup_insert_eq by done. rewrite decide_True by lia. by rewrite Nat.sub_diag.
  - rewrite list_lookup_insert_ne by done. by rewrite decide_False by lia.
Qed.

Lemma fill_eq s r a els v k i :
  reps s !! r = Some (MkRep a els) -> (i + k <= length els)%nat ->
  fill r (Z.of_nat i) (Z.of_nat i + Z.of_nat k) (Val v) s
  = Done (tt, Store (<[r := MkRep a (splice i (replicate k v) els)]> (reps s)) (fields s)).
Proof.
  unfold fill. replace (Z.of_nat i + Z.of_nat k - Z.of_nat i) with (Z.of_nat k) by lia.
  revert s els i. induction k as [|k IH]; intros s els i Hr Hk.
  - simpl. rewrite splice_nil, insert_id by done. by destruct s.
  - rewrite seqZ_cons by lia. cbn [foldr]. rewrite stm_bind_eq. cbn [deref].
    rewrite stm_bind_eq. cbn [mret stm_ret].
    rewrite (store_element_eq _ _ _ a els) by (done || lia).
    replace (Z.succ (Z.of_nat i)) with (Z.of_nat (S i)) by lia.
    replace (Z.pred (Z.of_nat (S k))) with (Z.of_nat k) by lia.
    rewrite Nat2Z.id, (IH _ (<[i := v]> els));
      [|cbn [reps]; by rewrite lookup_insert_eq|rewrite length_insert; lia].
    cbn [reps fields replicate]. rewrite insert_insert_eq, insert_splice by lia.
    by rewrite <- splice_cons by (cbn [length]; rewrite length_replicate; lia).
Qed.

Lemma take_splice_app {A} (m bs : list A) i :
  (i + length bs <= length m)%nat -> take (i + length bs) (splice i bs m) = take i m ++ bs.
Proof.
  intros H1. unfold splice. rewrite app_assoc.
  replace (i + length bs)%nat with (length (take i m ++ bs)) at 1
    by (rewrite length_app, length_take; lia).
  apply take_app_length.
Qed.

Lemma Resize_acts s this a l cap n v :
  store_ok s -> holds s this a l cap -> cap < 2 ^ 30 -> 0 <= n < 2 ^ 31 ->
  acts (Resize this n (Val v)) s this tt a
    (take (Z.to_nat n) l ++ replicate (Z.to_nat n - length l) v)
    (if decide (Z.of_nat (length l) < n) then grow cap n else cap).
Proof.
  intros Hs Hh H30 Hn. pose proof Hh as (f & Hf & Hrep & Hcap).
  pose proof Hrep as (Hc & Ht & Hlen & _). unfold Resize.
  eapply acts_read; [apply (lift_ok _ tt), dcheck_ok; lia|].
  eapply acts_read; [by apply field_eq|].
  destruct (decide (current_size_ f < n)) as [Hlt|Hge].
  2:{ rewrite decide_False by lia.
      eapply (acts_bind _ _ _ _ tt _ _ l _ cap); [by apply acts_ret|].
      intros s' Hs' (f' & Hf' & Hrep' & Hcap') _. pose proof Hrep' as (Hc' & Ht' & Hlen' & _).
      replace (Z.to_nat n - length l)%nat with 0%nat by lia. cbn [replicate].
      rewrite app_nil_r, <- Hcap'. eapply acts_read; [by apply field_eq|].
      eapply (shrink_acts _ _ _ _ f'); [done..|lia|]. rewrite set_field_eq. repeat f_equal. lia. }
  rewrite decide_True by lia. rewrite (take_ge l) by lia.
  pose proof (grow_ge cap n) as [Hg1 Hg2].
  destruct (Reserve_acts s this a l cap n Hs Hh H30 ltac:(unfold int_range; lia))
    as (s1 & Hres & Hs1 & Hh1 & Ho1).
  destruct (holds_array s1 this a l (grow cap n) Hs1 Hh1 ltac:(lia))
    as (f' & r & els & Hf' & Hrep' & Hcap' & Hcs & Hp & Hr & Hlen' & Htk & Hun & Hle & Hmax).
  eapply (acts_from s s1); [exact Ho1| |].
  { rewrite stm_bind_eq, stm_bind_eq, Hres. reflexivity. }
  rewrite <- Hcap'.
  change (total_size_ f') with (total_size_ (RF n (total_size_ f') (ptr_ f'))).
  set (els' := splice (length l) (replicate (Z.to_nat n - length l) v) els).
  eapply (acts_update_eq _ _ s1 this f' _ (<[r := MkRep a els']> (reps s1))); [done|done| | | |].
  - rewrite stm_bind_eq, (field_eq _ _ f'), stm_bind_eq, (elements_eq _ _ r) by (done || lia).
    pose proof (fill_eq s1 r a els v (Z.to_nat n - length l) (length l) Hr ltac:(lia)) as Hfill.
    replace (Z.of_nat (length l) + Z.of_nat (Z.to_nat n - length l)) with n in Hfill by lia.
    rewrite Hcs, Hfill. rewrite stm_bind_eq, (field_eq _ _ f'), set_field_eq by done. done.
  - unfold field_rep. cbn [current_size_ total_size_ ptr_]. rewrite length_app, length_replicate.
    split_and!; try lia. right. split; [lia|]. exists r, els'. rewrite lookup_insert_eq.
    split_and!; try done.
    + subst els'. rewrite length_splice by (rewrite length_replicate; lia). lia.
    + subst els'. rewrite <- (length_replicate (Z.to_nat n - length l) v) at 1.
      rewrite take_splice_app by (rewrite length_replicate; lia). by rewrite Htk.
  - cbn [ptr_]. intros r' Hr'. rewrite Hp in Hr'. by simplify_eq.
  - intros o g r' Ho Hg Hg'. rewrite lookup_insert_ne; [done|]. intros <-. by eapply Hun.
Qed.

(** ** Whole fields *)

(** The end of [MergeFrom]: room is there, [k] is copied behind [l]. *)
Lemma append_copy s this other a l cap b k c :
  store_ok s -> this <> other -> holds s this a l cap -> holds s other b k c -> k <> [] ->
  Z.of_nat (length l) + Z.of_nat (length k) <= cap ->
  acts (AddNAlreadyReserved this (Z.of_nat (length k)) ;;
        to ← Mutable this (Z.of_nat (length l));
        from ← Mutable other 0;
        CopyArray to from (Z.of_nat (length k))) s this tt a (l ++ k) cap.
Proof.
  intros Hs Hne Hh Hho Hk Hroom.
  assert (Hk0 : 0 < Z.of_nat (length k)) by (destruct k; [done|simpl; lia]).
  destruct (holds_array s this a l cap Hs Hh ltac:(lia))
    as (f & r & els & Hf & Hrep & Hcap & Hcs & Hp & Hr & Hlen & Htk & Hun & Hle & Hmax).
  assert (Hc0 : 0 < c) by (destruct Hho as (g & _ & (? & ? & ? & _) & <-); lia).
  destruct (holds_array s other b k c Hs Hho Hc0)
    as (g & q & kels & Hg & Hgrep & Hgcap & Hgcs & Hgp & Hq & Hklen & Hktk & Hgun & Hgle & Hgmax).
  assert (Hrq : r <> q) by (intros ->; by apply (Hun other g)).
  set (n := Z.of_nat (length k)) in *.
  set (f' := RF (current_size_ f + n) (total_size_ f) (ptr_ f)).
  set (els' := splice (length l) k els).
  rewrite <- Hcap. change (total_size_ f) with (total_size_ f').
  apply (acts_update_eq tt _ s this f f' (<[r := MkRep a els']> (reps s)) a (l ++ k)); [done|done| | | |].
  - rewrite stm_bind_eq. unfold AddNAlreadyReserved.
    rewrite stm_bind_eq, (field_eq _ _ f) by done.
    rewrite stm_bind_eq, (lift_ok _ tt) by (apply dcheck_ok; lia).
    rewrite stm_bind_eq, (lift_ok _ (current_size_ f + n)) by (apply int_op_ok; unfold int_range; lia).
    rewrite stm_bind_eq, set_field_eq. cbn [mret stm_ret]. fold f'.
    rewrite stm_bind_eq. unfold Mutable at 1.
    rewrite stm_bind_eq, (field_eq _ _ f') by (cbn [fields]; by rewrite lookup_insert_eq).
    rewrite stm_bind_eq, (lift_ok _ tt) by (apply dcheck_ok; lia).
    rewrite stm_bind_eq, (lift_ok _ tt) by (apply dcheck_ok; subst f'; cbn [current_size_]; lia).
    rewrite stm_bind_eq, (elements_eq _ _ r) by (done || (subst f'; cbn [total_size_]; lia)).
    cbn [mret stm_ret]. rewrite stm_bind_eq. unfold Mutable.
    rewrite stm_bind_eq, (field_eq _ _ g) by (cbn [fields]; by rewrite lookup_insert_ne).
    rewrite stm_bind_eq, (lift_ok _ tt) by (apply dcheck_ok; lia).
    rewrite stm_bind_eq, (lift_ok _ tt) by (apply dcheck_ok; lia).
    rewrite stm_bind_eq, (elements_eq _ _ q) by (done || lia).
    cbn [mret stm_ret]. unfold CopyArray.
    rewrite (ElementCopier_eq _ r _ q 0 n a els b kels) by (cbn [reps]; done || lia).
    cbn [reps fields]. change (Z.to_nat 0) with 0%nat. rewrite drop_0, Nat2Z.id.
    subst n. by rewrite Nat2Z.id, Hktk.
  - unfold field_rep. subst f'. cbn [current_size_ total_size_ ptr_]. rewrite length_app.
    split_and!; try lia. right. split; [lia|]. exists r, els'. rewrite lookup_insert_eq.
    split_and!; try done.
    + subst els'. rewrite length_splice; lia.
    + subst els'. rewrite take_splice_app by lia. by rewrite Htk.
  - subst f'. cbn [ptr_]. intros r' Hr'. rewrite Hp in Hr'. by simplify_eq.
  - intros o g' r' Ho Hg' Hg''. rewrite lookup_insert_ne; [done|]. intros <-. by eapply Hun.
Qed.

(** The capacity after adding [n] elements to [len] of them, if there are any. *)
Definition grow_by (cap len n : Z) : Z := if decide (n = 0) then cap else grow cap (len + n).

Lemma MergeFrom_acts s this other a l cap b k c :
  store_ok s -> this <> other -> holds s this a l cap -> holds s other b k c ->
  cap < 2 ^ 30 -> Z.of_nat (length l) + Z.of_nat (length k) < 2 ^ 31 ->
  acts (MergeFrom this other) s this tt a (l ++ k)
    (grow_by cap (Z.of_nat (length l)) (Z.of_nat (length k))).
Proof.
  intros Hs Hne Hh Hho H30 Hsum. unfold MergeFrom, grow_by.
  eapply acts_read; [apply (lift_ok _ tt), dcheck_ok; congruence|].
  pose proof Hho as (g & Hg & Hgrep & Hgc). pose proof Hgrep as (_ & _ & Hglen & _).
  eapply acts_read; [by apply field_eq|].
  destruct (decide (current_size_ g <> 0)) as [Hk|Hk%dec_stable].
  2:{ rewrite decide_True by lia.
      assert (k = []) as -> by (destruct k; [done|simpl in *; lia]).
      rewrite app_nil_r. by apply acts_ret. }
  rewrite decide_False by lia.
  pose proof Hh as (f & Hf & Hrep & Hcap). pose proof Hrep as (Hc & Ht & Hlen & _).
  eapply acts_read.
  { unfold size. by rewrite stm_bind_eq, (field_eq _ _ f). }
  rewrite <- Hlen, <- Hglen.
  eapply acts_read; [apply lift_ok, int_op_ok; unfold int_range; lia|].
  eapply (acts_bind _ _ _ _ tt).
  - apply Reserve_acts; [done|done|done|unfold int_range; lia].
  - intros s' Hs' Hh' [_ Hoth]. eapply append_copy; [done|done|done| | |].
    + apply Hoth; [congruence|exact Hho].
    + intros ->. simpl in *. lia.
    + apply grow_ge.
Qed.

Lemma CopyFrom_acts s this other a l cap b k c :
  store_ok s -> this <> other -> holds s this a l cap -> holds s other b k c ->
  cap < 2 ^ 30 -> acts (CopyFrom this other) s this tt a k (grow_by cap 0 (Z.of_nat (length k))).
Proof.
  intros Hs Hne Hh Hho H30. unfold CopyFrom. rewrite decide_False by congruence.
  assert (Hk : Z.of_nat (length k) < 2 ^ 31) by (destruct Hho as (g & _ & (? & ? & ? & _) & _); lia).
  eapply (acts_bind _ _ _ _ tt); [by eapply (Clear_acts _ _ _ l)|].
  intros s' Hs' Hh' [_ Hoth].
  change k with ([] ++ k) at 1. change 0 with (Z.of_nat (length (@nil E))).
  eapply MergeFrom_acts; [done|done|exact Hh'| |done|simpl; lia].
  apply Hoth; [congruence|exact Hho].
Qed.

(** What two objects hold after an operation on both. *)
Definition keeps_all_but s s' (os : list Z) : Prop :=
  (forall o, o ∉ os -> fields s' !! o = fields s !! o) /\
  (forall o b k c, o ∉ os -> holds s o b k c -> holds s' o b k c).

Lemma InternalSwap_spec s this other a l cap k c :
  store_ok s -> this <> other -> holds s this a l cap -> holds s other a k c ->
  exists s', InternalSwap this other s = Done (tt, s') /\ store_ok s' /\
    holds s' this a k c /\ holds s' other a l cap /\ keeps_all_but s s' [this; other].
Proof.
  intros Hs Hne (f & Hf & Hrep & Hcap) (g & Hg & Hgrep & Hgc).
  assert (Hf' : RF (current_size_ f) (total_size_ f) (ptr_ f) = f) by (by destruct f).
  assert (Hg' : RF (current_size_ g) (total_size_ g) (ptr_ g) = g) by (by destruct g).
  set (fs := <[other := f]> (<[this := g]> (fields s))).
  exists (Store (reps s) fs). split.
  { unfold InternalSwap. rewrite stm_bind_eq, (lift_ok _ tt) by (by apply dcheck_ok).
    rewrite stm_bind_eq, (field_eq _ _ f), stm_bind_eq, (field_eq _ _ g) by done.
    rewrite stm_bind_eq, (GetArenaNoVirtual_eq _ _ a l) by done.
    rewrite stm_bind_eq, (GetArenaNoVirtual_eq _ _ a k) by done.
    rewrite stm_bind_eq, (lift_ok _ tt) by (by apply dcheck_ok).
    by rewrite stm_bind_eq, set_field_eq, set_field_eq, Hf', Hg'. }
  assert (Hthis : fs !! this = Some g) by (subst fs; rewrite lookup_insert_ne, lookup_insert_eq; done).
  assert (Hother : fs !! other = Some f) by (subst fs; by rewrite lookup_insert_eq).
  assert (Hrest : forall o, o <> this -> o <> other -> fs !! o = fields s !! o).
  { intros o H1 H2. subst fs. by rewrite !lookup_insert_ne. }
  (* where a field of the new heap comes from *)
  set (src := fun o => if decide (o = this) then other else if decide (o = other) then this else o).
  assert (Hsrc : forall o, fs !! o = fields s !! src o).
  { intros o. unfold src. repeat case_decide; subst; try congruence. by apply Hrest. }
  assert (Hinj : forall o o', o <> o' -> src o <> src o').
  { intros o o' Hoo. unfold src. repeat case_decide; congruence. }
  destruct Hs as [Hw Hd]. split_and!.
  - split.
    + intros o h Hh. cbn [fields] in Hh. rewrite Hsrc in Hh. by eapply Hw.
    + intros o h r Hh Hr o' h' Ho' Hh'. cbn [fields] in Hh, Hh'. rewrite Hsrc in Hh, Hh'.
      eapply (Hd (src o) h r Hh Hr (src o')); [by apply Hinj|done].
  - by exists g.
  - by exists f.
  - split.
    + intros o Ho. apply not_elem_of_cons in Ho as [H1 [H2 _]%not_elem_of_cons]. by apply Hrest.
    + intros o b k' c' Ho (h & Hh & Hhrep & Hhc).
      apply not_elem_of_cons in Ho as [H1 [H2 _]%not_elem_of_cons].
      exists h. cbn [fields]. by rewrite Hrest.
Qed.

Lemma keeps_others_all_but s s' this os :
  this ∈ os -> keeps_others s s' this -> keeps_all_but s s' os.
Proof.
  intros Hin [H1 H2]. split.
  - intros o Ho. apply H1. by intros ->.
  - intros o b k c Ho. apply H2. by intros ->.
Qed.

Lemma keeps_all_but_trans s1 s2 s3 os :
  keeps_all_but s1 s2 os -> keeps_all_but s2 s3 os -> keeps_all_but s1 s3 os.
Proof.
  intros [H1 H1'] [H2 H2']. split.
  - intros o Ho. by rewrite H2, H1.
  - intros o b k c Ho Hh. eauto.
Qed.

(** An object at a new address. *)
Lemma construct_spec s this a :
  store_ok s -> fields s !! this = None ->
  exists s', RepeatedField_arena this a s = Done (tt, s') /\ store_ok s' /\
    holds s' this a [] 0 /\ keeps_others s s' this.
Proof.
  intros [Hw Hd] Hnew. set (f := RF 0 0 (PArena a)).
  exists (Store (reps s) (<[this := f]> (fields s))). split; [done|].
  assert (Hrep : field_rep (reps s) f a []).
  { unfold field_rep. simpl. split_and!; try lia. by left. }
  split_and!.
  - split.
    + intros o g Hg. cbn [fields] in Hg. apply lookup_insert_Some in Hg as [[<- <-]|[Ho Hg]]; eauto.
    + intros o g r Hg Hr o' g' Ho Hg'. cbn [fields] in Hg, Hg'.
      apply lookup_insert_Some in Hg as [[<- <-]|[Hoo Hg]]; [done|].
      apply lookup_insert_Some in Hg' as [[<- <-]|[Hoo' Hg']]; [done|].
      by eapply (Hd o g r).
  - exists f. cbn [fields]. by rewrite lookup_insert_eq.
  - split.
    + intros o Ho. cbn [fields]. by rewrite lookup_insert_ne.
    + intros o b k c Ho (g & Hg & Hgr & Hgc). exists g. cbn [fields]. by rewrite lookup_insert_ne.
Qed.

(** The destructor: the object is gone, and its array too unless an arena owns it. *)
Lemma destroy_spec s this a l cap :
  store_ok s -> holds s this a l cap ->
  exists s', destroy_RepeatedField this s = Done (tt, s') /\ store_ok s' /\
    fields s' = delete this (fields s) /\
    (forall o b k c, o <> this -> holds s o b k c -> holds s' o b k c) /\
    (forall f r, fields s !! this = Some f -> ptr_ f = PElements r ->
       reps s' !! r = if decide (a = None) then None else reps s !! r).
Proof.
  intros Hs (f & Hf & Hrep & Hcap). pose proof Hs as [Hw Hd].
  pose proof Hrep as (Hc & Ht & Hlen & Hp).
  assert (Hframe : forall rs', (forall o g r, o <> this -> fields s !! o = Some g -> ptr_ g = PElements r ->
      rs' !! r = reps s !! r) ->
    store_ok (Store rs' (delete this (fields s))) /\
    forall o b k c, o <> this -> holds s o b k c -> holds (Store rs' (delete this (fields s))) o b k c).
  { intros rs' Hfr. split; [split|].
    - intros o g Hg. cbn [fields reps] in *. apply lookup_delete_Some in Hg as [Ho Hg].
      destruct (Hw _ _ Hg) as (b & k & Hk). exists b, k.
      eapply field_rep_frame; [done|]. intros r Hr. by eapply (Hfr o).
    - intros o g r Hg Hr o' g' Ho Hg'. cbn [fields] in *.
      apply lookup_delete_Some in Hg as [_ Hg]. apply lookup_delete_Some in Hg' as [_ Hg'].
      by eapply (Hd o g r).
    - intros o b k c Ho (g & Hg & Hgr & Hgc). exists g. cbn [fields reps].
      rewrite lookup_delete_ne by done. split_and!; [done| |done].
      eapply field_rep_frame; [done|]. intros r Hr. by eapply (Hfr o). }
  unfold destroy_RepeatedField.
  destruct Hp as [[H0 Hp]|(H0 & r & els & Hp & Hr & Hrest)].
  - destruct (Hframe (reps s)) as [F1 F2]; [done|]. eexists. split; [|split_and!; [exact F1|done|exact F2|]].
    + rewrite stm_bind_eq, (field_eq _ _ f) by done. rewrite decide_False by lia. done.
    + intros f' r Hf' Hr. simplify_eq. congruence.
  - set (rs' := if decide (a = None) then delete r (reps s) else reps s).
    destruct (Hframe rs') as [F1 F2].
    { intros o g r' Ho Hg Hr'. subst rs'. case_decide; [|done].
      rewrite lookup_delete_ne; [done|]. intros <-. by eapply (Hd this f r). }
    eexists. split; [|split_and!; [exact F1|done|exact F2|]].
    + rewrite stm_bind_eq, (field_eq _ _ f) by done. rewrite decide_True by lia.
      rewrite stm_bind_eq, stm_bind_eq. unfold rep. rewrite (elements_eq _ _ r) by done.
      unfold InternalDeallocate, array. rewrite stm_bind_eq, Hr. cbn [rep_arena].
      subst rs'. by case_decide.
    + intros f' r' Hf' Hr'. simplify_eq. cbn [reps]. assert (r' = r) as -> by congruence.
      subst rs'. case_decide; [by rewrite lookup_delete_eq|done].
Qed.

(** On one arena the two fields exchange their contents, on two the code copies. *)
Lemma Swap_same_arena s this other temp a l cap k c :
  store_ok s -> this <> other -> fields s !! temp = None ->
  holds s this a l cap -> holds s other a k c ->
  exists s' cap' c', Swap this other temp s = Done (tt, s') /\ store_ok s' /\
    holds s' this a k cap' /\ holds s' other a l c' /\ fields s' !! temp = None /\
    keeps_all_but s s' [this; other; temp].
Proof.
  intros Hs Hne Htemp Hh Hho.
  pose proof Hh as (f & Hf & Hrep & Hcap). pose proof Hho as (g & Hg & Hgrep & Hgc).
  assert (Ht1 : this <> temp) by congruence. assert (Ht2 : other <> temp) by congruence.
  unfold Swap. rewrite decide_False by done.
  setoid_rewrite stm_bind_eq. rewrite (field_eq _ _ f) by done.
  setoid_rewrite stm_bind_eq. rewrite (field_eq _ _ g) by done.
  setoid_rewrite stm_bind_eq. rewrite (GetArenaNoVirtual_eq _ _ a l) by done.
  setoid_rewrite stm_bind_eq. rewrite (GetArenaNoVirtual_eq _ _ a k) by done.
  rewrite decide_True by done.
  destruct (InternalSwap_spec s this other a l cap k c Hs Hne Hh Hho) as (s' & Heq & Hs' & H1 & H2 & H3).
  exists s', c, cap. split_and!; try done.
  - rewrite (proj1 H3 temp); [done|]. rewrite !not_elem_of_cons. split_and!; try congruence. apply not_elem_of_nil.
  - destruct H3 as [H3 H3']. split.
    + intros o Ho. apply H3. set_solver.
    + intros o b' k' c' Ho. apply H3'. set_solver.
Qed.

Lemma Swap_keeps s s1 s2 s3 s4 this other temp :
  keeps_others s s1 temp -> keeps_others s1 s2 temp -> keeps_others s2 s3 this -> keeps_all_but s3 s4 [other; temp] ->
  keeps_all_but s s4 [this; other; temp].
Proof.
  intros K1 K2 K3 [K4 K4'].
  eapply keeps_all_but_trans; [by eapply (keeps_others_all_but _ _ temp); [set_solver|exact K1]|].
  eapply keeps_all_but_trans; [by eapply (keeps_others_all_but _ _ temp); [set_solver|exact K2]|].
  eapply keeps_all_but_trans; [by eapply (keeps_others_all_but _ _ this); [set_solver|exact K3]|].
  split; [intros o Ho; apply K4; set_solver|]. intros o b' k' c' Ho. apply K4'. set_solver.
Qed.

Lemma Swap_spec s this other temp a l cap b k c :
  store_ok s -> this <> other -> fields s !! temp = None ->
  holds s this a l cap -> holds s other b k c -> cap < 2 ^ 30 ->
  exists s' cap' c', Swap this other temp s = Done (tt, s') /\ store_ok s' /\
    holds s' this a k cap' /\ holds s' other b l c' /\ fields s' !! temp = None /\
    keeps_all_but s s' [this; other; temp].
Proof.
  intros Hs Hne Htemp Hh Hho H30. destruct (decide (a = b)) as [<-|Hab]; [by eapply Swap_same_arena|].
  pose proof Hh as (f & Hf & Hrep & Hcap). pose proof Hho as (g & Hg & Hgrep & Hgc).
  assert (Ht1 : this <> temp) by congruence. assert (Ht2 : other <> temp) by congruence.
  assert (Hl : Z.of_nat (length l) < 2 ^ 30) by (destruct Hrep as (? & ? & ? & _); lia).
  assert (Hk : Z.of_nat (length k) < 2 ^ 31) by (destruct Hgrep as (? & ? & ? & _); lia).
  unfold Swap. rewrite decide_False by done.
  setoid_rewrite stm_bind_eq. rewrite (field_eq _ _ f) by done.
  setoid_rewrite stm_bind_eq. rewrite (field_eq _ _ g) by done.
  setoid_rewrite stm_bind_eq. rewrite (GetArenaNoVirtual_eq _ _ a l) by done.
  setoid_rewrite stm_bind_eq. rewrite (GetArenaNoVirtual_eq _ _ b k) by done.
  rewrite decide_False by done.
  destruct (construct_spec s temp b Hs Htemp) as (s1 & E1 & Hs1 & Htp1 & K1).
  setoid_rewrite stm_bind_eq. rewrite E1.
  assert (Hh1 : holds s1 this a l cap) by (by apply (proj2 K1)).
  assert (Hho1 : holds s1 other b k c) by (by apply (proj2 K1)).
  destruct (MergeFrom_acts s1 temp this b [] 0 a l cap Hs1 ltac:(congruence) Htp1 Hh1 ltac:(lia)
    ltac:(simpl; lia)) as (s2 & E2 & Hs2 & Htp2 & K2). cbn [app] in Htp2.
  setoid_rewrite stm_bind_eq. rewrite E2.
  assert (Hh2 : holds s2 this a l cap) by (by apply (proj2 K2)).
  assert (Hho2 : holds s2 other b k c) by (by apply (proj2 K2)).
  destruct (CopyFrom_acts s2 this other a l cap b k c Hs2 Hne Hh2 Hho2 H30) as (s3 & E3 & Hs3 & Hh3 & K3).
  setoid_rewrite stm_bind_eq. rewrite E3.
  assert (Htp3 : holds s3 temp b l _) by (apply (proj2 K3); [congruence|exact Htp2]).
  assert (Hho3 : holds s3 other b k c) by (apply (proj2 K3); [congruence|exact Hho2]).
  destruct (InternalSwap_spec s3 other temp b k c l _ Hs3 Ht2 Hho3 Htp3) as (s4 & E4 & Hs4 & Hho4 & Htp4 & K4).
  assert (Hh4 : holds s4 this a k _) by (apply (proj2 K4); [|exact Hh3]; set_solver).
  setoid_rewrite stm_bind_eq. unfold UnsafeArenaSwap. rewrite decide_False by done. rewrite E4.
  destruct (destroy_spec s4 temp b k c Hs4 Htp4) as (s5 & E5 & Hs5 & F5 & K5 & _).
  do 3 eexists. split; [exact E5|]. split_and!; [done| | | |].
  - by apply K5; [|exact Hh4].
  - by apply K5; [|exact Hho4].
  - rewrite F5. apply lookup_delete_eq.
  - pose proof (Swap_keeps s s1 s2 s3 s4 this other temp K1 K2 K3 K4) as KA.
    destruct KA as [KA KA']. split.
    + intros o Ho. rewrite F5, lookup_delete_ne by set_solver. by apply KA.
    + intros o b' k' c' Ho Hx. apply K5; [set_solver|]. by apply KA'.
Qed.

(** ** Constructors from other objects, and assignments *)

(** The elements of a range, one after the other. *)
Lemma adds_reserved this a cap : forall vs s l,
  store_ok s -> holds s this a l cap -> Z.of_nat (length l) + Z.of_nat (length vs) <= cap ->
  acts (foldr (fun v k => AddAlreadyReserved this (Val v) ;; k) (mret tt) vs) s this tt a (l ++ vs) cap.
Proof.
  induction vs as [|v vs IH]; intros s l Hs Hh Hl; cbn [foldr length] in *.
  - rewrite app_nil_r. by apply acts_ret.
  - eapply (acts_bind _ _ _ _ tt); [apply AddAlreadyReserved_acts; [done|done|lia]|].
    intros s' Hs' Hh' _. replace (l ++ v :: vs) with ((l ++ [v]) ++ vs) by (by rewrite <- app_assoc).
    apply IH; [done|done|]. rewrite length_app. cbn [length]. lia.
Qed.

Lemma adds_growing this a : forall vs s l cap,
  store_ok s -> holds s this a l cap -> cap < 2 ^ 30 -> Z.of_nat (length l) + Z.of_nat (length vs) < 2 ^ 29 ->
  exists cap', cap' < 2 ^ 30 /\
    acts (foldr (fun v k => Add this (Val v) ;; k) (mret tt) vs) s this tt a (l ++ vs) cap'.
Proof.
  induction vs as [|v vs IH]; intros s l cap Hs Hh Hc Hl; cbn [foldr length] in *.
  - exists cap. split; [done|]. rewrite app_nil_r. by apply acts_ret.
  - destruct (Add_acts s this a l cap v Hs Hh Hc) as (s1 & E1 & Hs1 & Hh1 & Ho1).
    assert (Hle : Z.of_nat (length l) <= cap) by (destruct Hh as (f & _ & (? & _ & ? & _) & <-); lia).
    assert (Hg : grow cap (Z.of_nat (length l) + 1) < 2 ^ 30).
    { unfold grow, kMinRepeatedFieldAllocationSize. case_decide; lia. }
    destruct (IH s1 (l ++ [v]) _ Hs1 Hh1 Hg) as (cap' & Hc' & s2 & E2 & Hs2 & Hh2 & Ho2).
    { rewrite length_app. cbn [length]. lia. }
    exists cap'. split; [done|]. exists s2. rewrite stm_bind_eq, E1. rewrite <- app_assoc in Hh2.
    split_and!; try done. by eapply keeps_others_trans.
Qed.

(** [this] is a new object, [other] an existing one. *)
Lemma copy_spec s this other b k c :
  store_ok s -> fields s !! this = None -> holds s other b k c ->
  exists cap, acts (RepeatedField_copy this other) s this tt None k cap.
Proof.
  intros Hs Hf Hho.
  assert (Hne : this <> other) by (intros ->; destruct Hho as (g & Hg & _); congruence).
  destruct (construct_spec s this None Hs Hf) as (s1 & E1 & Hs1 & Hh1 & K1).
  exists (grow_by 0 0 (Z.of_nat (length k))). unfold RepeatedField_copy.
  eapply (acts_bind _ _ _ _ tt); [exists s1; split; [exact E1|done]|].
  intros s2 Hs2 Hh2 [_ Hoth]. pose proof (Hoth other b k c (not_eq_sym Hne) Hho) as Hho2.
  pose proof Hho2 as (g & Hg & Hgrep & Hgc). pose proof Hgrep as (Hgc1 & Hgt & Hglen & _).
  eapply acts_read; [by apply field_eq|]. unfold grow_by.
  destruct (decide (current_size_ g <> 0)) as [Hk|Hk%dec_stable].
  2:{ rewrite decide_True by lia. assert (k = []) as -> by (destruct k; [done|simpl in *; lia]).
      by apply acts_ret. }
  rewrite decide_False by lia. rewrite <- Hglen.
  eapply (acts_bind _ _ _ _ tt).
  - apply Reserve_acts; [done|done|lia|unfold int_range; lia].
  - intros s3 Hs3 Hh3 [_ Hoth3]. change k with ([] ++ k) at 4.
    change (Mutable this 0) with (Mutable (E := E) this (Z.of_nat (length (@nil E)))).
    eapply append_copy; [done|done|done| | |].
    + apply Hoth3; [congruence|exact Hho2].
    + intros ->. simpl in *. lia.
    + simpl. apply grow_ge.
Qed.

Lemma range_spec s this forward vs :
  store_ok s -> fields s !! this = None -> Z.of_nat (length vs) < 2 ^ 29 ->
  exists cap, acts (RepeatedField_range this forward vs) s this tt None vs cap.
Proof.
  intros Hs Hf Hl. destruct (construct_spec s this None Hs Hf) as (s1 & E1 & Hs1 & Hh1 & K1).
  assert (Hstart : acts (set_field this (RF 0 0 (PArena None))) s this tt None [] 0) by (exists s1; done).
  unfold RepeatedField_range, CalculateReserve. destruct forward.
  - rewrite decide_True by lia. exists (grow 0 (Z.of_nat (length vs))).
    eapply (acts_bind _ _ _ _ tt); [exact Hstart|]. intros s2 Hs2 Hh2 _.
    eapply (acts_bind _ _ _ _ tt); [apply Reserve_acts; [done|done|lia|unfold int_range; lia]|].
    intros s3 Hs3 Hh3 _. change vs with ([] ++ vs) at 2.
    apply adds_reserved; [done|done|]. simpl. apply grow_ge.
  - rewrite decide_False by lia.
    destruct (adds_growing this None vs s1 [] 0 Hs1 Hh1 ltac:(lia) ltac:(simpl; lia))
      as (cap' & _ & s2 & E2 & Hs2 & Hh2 & Ho2).
    exists cap', s2. rewrite stm_bind_eq. split_and!; try done.
    + change (set_field this (RF 0 0 (PArena None)) s) with (RepeatedField_arena this None s).
      rewrite E1. exact E2.
    + by eapply keeps_others_trans.
Qed.

Lemma GetArena_eq s this a l cap : holds s this a l cap -> GetArena this s = Done (a, s).
Proof.
  intros (f & Hf & Hrep & _). unfold GetArena. rewrite stm_bind_eq, (field_eq _ _ f) by done.
  by eapply GetArenaNoVirtual_eq.
Qed.

(** Moving from an object on an arena copies it; otherwise the two are swapped. *)
Lemma move_spec s this other b k c :
  store_ok s -> fields s !! this = None -> holds s other b k c ->
  exists s' cap, RepeatedField_move this other s = Done (tt, s') /\ store_ok s' /\
    holds s' this None k cap /\
    (exists c', holds s' other b (if decide (b = None) then [] else k) c') /\
    keeps_all_but s s' [this; other].
Proof.
  intros Hs Hf Hho.
  assert (Hne : this <> other) by (intros ->; destruct Hho as (g & Hg & _); congruence).
  destruct (construct_spec s this None Hs Hf) as (s1 & E1 & Hs1 & Hh1 & K1).
  pose proof (proj2 K1 other b k c (not_eq_sym Hne) Hho) as Hho1.
  assert (K1' : keeps_all_but s s1 [this; other]).
  { eapply (keeps_others_all_but _ _ this); [by left|done]. }
  unfold RepeatedField_move. setoid_rewrite stm_bind_eq.
  change (RepeatedField_default this s) with (RepeatedField_arena this None s). rewrite E1.
  setoid_rewrite stm_bind_eq. rewrite (GetArena_eq _ _ _ _ _ Hho1).
  destruct (decide (b <> None)) as [Hb|Hb%dec_stable].
  - rewrite decide_False by done.
    destruct (CopyFrom_acts s1 this other None [] 0 b k c Hs1 Hne Hh1 Hho1 ltac:(lia))
      as (s2 & E2 & Hs2 & Hh2 & K2).
    exists s2, (grow_by 0 0 (Z.of_nat (length k))). split_and!; try done.
    + exists c. apply K2; [congruence|done].
    + eapply keeps_all_but_trans; [exact K1'|]. by eapply (keeps_others_all_but _ _ this); [left|].
  - subst b. rewrite decide_True by done.
    destruct (InternalSwap_spec s1 this other None [] 0 k c Hs1 Hne Hh1 Hho1)
      as (s2 & E2 & Hs2 & Hh2 & Hho2 & K2).
    exists s2, c. split_and!; try done; [by exists 0|]. by eapply keeps_all_but_trans.
Qed.

Lemma assign_move_spec s this other a l cap b k c :
  store_ok s -> this <> other -> holds s this a l cap -> holds s other b k c -> cap < 2 ^ 30 ->
  exists s' cap' c', assign_move this other s = Done (tt, s') /\ store_ok s' /\
    holds s' this a k cap' /\ holds s' other b (if decide (a = b) then l else k) c' /\
    keeps_all_but s s' [this; other].
Proof.
  intros Hs Hne Hh Hho H30. unfold assign_move. rewrite decide_True by done.
  setoid_rewrite stm_bind_eq. rewrite (GetArena_eq _ _ _ _ _ Hh).
  setoid_rewrite stm_bind_eq. rewrite (GetArena_eq _ _ _ _ _ Hho).
  destruct (decide (a <> b)) as [Hab|Hab%dec_stable].
  - rewrite (decide_False (P := a = b)) by done.
    destruct (CopyFrom_acts s this other a l cap b k c Hs Hne Hh Hho H30) as (s2 & E2 & Hs2 & Hh2 & K2).
    exists s2, (grow_by cap 0 (Z.of_nat (length k))), c. split_and!; try done.
    + apply K2; [congruence|done].
    + by eapply (keeps_others_all_but _ _ this); [left|].
  - subst b. rewrite (decide_True (P := a = a)) by done.
    destruct (InternalSwap_spec s this other a l cap k c Hs Hne Hh Hho) as (s2 & E2 & Hs2 & Hh2 & Hho2 & K2).
    exists s2, c, cap. by split_and!.
Qed.
End logic.
