(* ===== verification/RepeatedFieldSpec.v ===== *)
(** * Repeated fields of scalars: the abstract specification

    A program works on a number of [RepeatedField] objects; abstractly each is an
    arena and a list ([contents]).  [spec] says what each method does to the lists
    and what it returns, or that its caller breaks the method's contract.  [run] is
    the method of the code on the heap. *)
From Stdlib Require Import ZArith Lia.
From stdpp Require Import base tactics option list list_numbers gmap.
From S2P Require Import Prelude Bits RepeatedField RepeatedFieldLogic.

(** The condition of the specification that a call meets. *)
Tactic Notation "decide_in" hyp(H) "as" simple_intropattern(P) :=
  match type of H with
  | context [@decide ?Q ?d] => destruct (@decide Q d) as [P|]; [|done]
  end.

Section calls.
  Context {E : Type} `{ElementType E}.
  Implicit Types (this other temp : Z) (s : store E) (a : option Z) (l : list E).

(** A method call, and what it returns. *)
Inductive call :=
| CAdd this (v : E) | CAddAlreadyReserved this (v : E) | CGet this (i : Z) | CSet this (i : Z) (v : E)
| CSize this | CRemoveLast this | CClear this | CTruncate this (n : Z) | CReserve this (n : Z)
| CResize this (n : Z) (v : E) | CExtractSubrange this (start num : Z) (wanted : bool)
| CErase this (first last : Z) | CSwapElements this (i j : Z)
| CMergeFrom this other | CCopyFrom this other | CSwap this other temp
| CNew this a | CDelete this
| CCopyNew this other | CRange this (forward : bool) (vs : list E) | CMove this other
| CAssignCopy this other | CAssignMove this other.

Inductive outcome :=
| AUnit | AElement (v : E) | ANumber (z : Z) | AElements (vs : option (list E)).

Definition run (c : call) : stm (store E) outcome :=
  match c with
  | CAdd this v => Add this (Val v) ;; mret AUnit
  | CAddAlreadyReserved this v =>
      cap ← Capacity this; n ← size this;
      if decide (n < cap) then AddAlreadyReserved this (Val v) ;; mret AUnit
      else Add this (Val v) ;; mret AUnit
  | CGet this i => v ← Get this i; mret (AElement v)
  | CSet this i v => Set_ this i (Val v) ;; mret AUnit
  | CSize this => n ← size this; mret (ANumber n)
  | CRemoveLast this => RemoveLast this ;; mret AUnit
  | CClear this => Clear this ;; mret AUnit
  | CTruncate this n => Truncate this n ;; mret AUnit
  | CReserve this n => Reserve this n ;; mret AUnit
  | CResize this n v => Resize this n (Val v) ;; mret AUnit
  | CExtractSubrange this start num wanted =>
      vs ← ExtractSubrange this start num wanted; mret (AElements vs)
  | CErase this first last => z ← erase_range this first last; mret (ANumber z)
  | CSwapElements this i j => SwapElements this i j ;; mret AUnit
  | CMergeFrom this other => MergeFrom this other ;; mret AUnit
  | CCopyFrom this other => CopyFrom this other ;; mret AUnit
  | CSwap this other temp => Swap this other temp ;; mret AUnit
  | CNew this a => RepeatedField_arena this a ;; mret AUnit
  | CDelete this => destroy_RepeatedField this ;; mret AUnit
  | CCopyNew this other => RepeatedField_copy this other ;; mret AUnit
  | CRange this forward vs => RepeatedField_range this forward vs ;; mret AUnit
  | CMove this other => RepeatedField_move this other ;; mret AUnit
  | CAssignCopy this other => assign_copy this other ;; mret AUnit
  | CAssignMove this other => assign_move this other ;; mret AUnit
  end.

(** ** The specification *)

Abbreviation contents := (gmap Z (option Z * list E)).
Implicit Types A : contents.

(** Change the list of an object. *)
Definition update A this (k : option Z -> list E -> option (outcome * list E)) : option (outcome * contents) :=
  match A !! this with
  | Some (a, l) => match k a l with Some (r, l') => Some (r, <[this := (a, l')]> A) | None => None end
  | None => None
  end.

Definition in_range (i : Z) l : bool := bool_decide (0 <= i < Z.of_nat (length l)).

Definition spec (c : call) A : option (outcome * contents) :=
  match c with
  | CAdd this v | CAddAlreadyReserved this v => update A this (fun _ l => Some (AUnit, l ++ [v]))
  | CGet this i => update A this (fun _ l =>
      if decide (0 <= i) then v ← l !! Z.to_nat i; Some (AElement v, l) else None)
  | CSet this i v => update A this (fun _ l =>
      if in_range i l then Some (AUnit, <[Z.to_nat i := v]> l) else None)
  | CSize this => update A this (fun _ l => Some (ANumber (Z.of_nat (length l)), l))
  | CRemoveLast this => update A this (fun _ l => if l is [] then None else Some (AUnit, removelast l))
  | CClear this => update A this (fun _ l => Some (AUnit, []))
  | CTruncate this n => update A this (fun _ l =>
      if decide (0 <= n <= Z.of_nat (length l)) then Some (AUnit, take (Z.to_nat n) l) else None)
  | CReserve this n => update A this (fun _ l => if decide (int_range n) then Some (AUnit, l) else None)
  | CResize this n v => update A this (fun _ l =>
      if decide (0 <= n < 2 ^ 31)
      then Some (AUnit, take (Z.to_nat n) l ++ replicate (Z.to_nat n - length l) v) else None)
  | CExtractSubrange this start num wanted => update A this (fun _ l =>
      if decide (0 <= start /\ 0 <= num /\ start + num <= Z.of_nat (length l))
      then Some (AElements (if wanted then Some (take (Z.to_nat num) (drop (Z.to_nat start) l)) else None),
                 take (Z.to_nat start) l ++ drop (Z.to_nat (start + num)) l) else None)
  | CErase this first last => update A this (fun _ l =>
      if decide (0 <= first <= last /\ last <= Z.of_nat (length l))
      then Some (ANumber first, take (Z.to_nat first) l ++ drop (Z.to_nat last) l) else None)
  | CSwapElements this i j => update A this (fun _ l =>
      if decide (0 <= i /\ 0 <= j) then
        vi ← l !! Z.to_nat i; vj ← l !! Z.to_nat j;
        Some (AUnit, <[Z.to_nat j := vi]> (<[Z.to_nat i := vj]> l)) else None)
  | CMergeFrom this other =>
      '(_, k) ← A !! other;
      update A this (fun _ l =>
        if decide (this <> other /\ Z.of_nat (length l) + Z.of_nat (length k) < 2 ^ 31)
        then Some (AUnit, l ++ k) else None)
  | CCopyFrom this other | CAssignCopy this other => '(_, k) ← A !! other; update A this (fun _ _ => Some (AUnit, k))
  | CSwap this other temp =>
      '(a, l) ← A !! this; '(b, k) ← A !! other;
      if decide (A !! temp = None) then Some (AUnit, <[other := (b, l)]> (<[this := (a, k)]> A)) else None
  | CNew this a => if decide (A !! this = None) then Some (AUnit, <[this := (a, [])]> A) else None
  | CCopyNew this other =>
      '(_, k) ← A !! other;
      if decide (A !! this = None) then Some (AUnit, <[this := (None, k)]> A) else None
  | CRange this _ vs =>
      if decide (A !! this = None /\ Z.of_nat (length vs) < 2 ^ 29)
      then Some (AUnit, <[this := (None, vs)]> A) else None
  | CMove this other =>
      '(b, k) ← A !! other;
      if decide (A !! this = None)
      then Some (AUnit, <[this := (None, k)]> (if decide (b = None) then <[other := (b, [])]> A else A)) else None
  | CAssignMove this other =>
      '(a, l) ← A !! this; '(b, k) ← A !! other;
      Some (AUnit, if decide (a = b) then <[other := (b, l)]> (<[this := (a, k)]> A) else <[this := (a, k)]> A)
  | CDelete this => if decide (A !! this = None) then None else Some (AUnit, delete this A)
  end.

(** ** The relation *)

Definition represents s A : Prop :=
  store_ok s /\
  forall o, match A !! o with
            | Some (a, l) => exists cap, holds s o a l cap
            | None => fields s !! o = None
            end.

(** No array has come near the largest [int]. *)
Definition small s : Prop := forall o f, fields s !! o = Some f -> total_size_ f < 2 ^ 30.

Lemma represents_lookup s A this a l : represents s A -> A !! this = Some (a, l) ->
  exists cap, holds s this a l cap.
Proof. intros [_ Hr] E0. specialize (Hr this). by rewrite E0 in Hr. Qed.

Lemma small_holds s this a l cap : small s -> holds s this a l cap -> cap < 2 ^ 30.
Proof. intros Hsm (f & Hf & _ & <-). by eapply Hsm. Qed.

(** An operation on one object. *)
Lemma acts_represents {B} (m : stm (store E) B) s this (x : B) a l l' cap A :
  represents s A -> A !! this = Some (a, l) -> acts m s this x a l' cap ->
  exists s', m s = Done (x, s') /\ represents s' (<[this := (a, l')]> A).
Proof.
  intros [Hs Hr] E0 (s' & Hm & Hs' & Hh' & [K1 K2]). exists s'. split; [done|]. split; [done|].
  intros o. destruct (decide (o = this)) as [->|Ho].
  - rewrite lookup_insert_eq. by exists cap.
  - rewrite lookup_insert_ne by done. specialize (Hr o). destruct (A !! o) as [[b k]|].
    + destruct Hr as [c Hc]. exists c. by apply K2.
    + by rewrite K1.
Qed.

(** The same for a call through [update]: the method acts on the list as [k] says. *)
Lemma update_refines (m : stm (store E) outcome) s this A k r A' :
  represents s A -> update A this k = Some (r, A') ->
  (forall a l l' cap, holds s this a l cap -> k a l = Some (r, l') ->
     exists cap', acts m s this r a l' cap') ->
  exists s', m s = Done (r, s') /\ represents s' A'.
Proof.
  intros Hr Hu Hm. unfold update in Hu. destruct (A !! this) as [[a l]|] eqn:E0; [|done].
  destruct (k a l) as [[r0 l']|] eqn:Ek; [|done]. injection Hu as -> <-.
  destruct (represents_lookup s A this a l Hr E0) as [cap Hh].
  destruct (Hm a l l' cap Hh Ek) as [cap' Ha]. by eapply acts_represents.
Qed.

(** Returning something after the method. *)
Lemma acts_then {B} (m : stm (store E) B) s this (x : B) (r : outcome) a l cap :
  acts m s this x a l cap -> acts (m ;; mret r) s this r a l cap.
Proof. intros (s' & Hm & Hrest). exists s'. by rewrite stm_bind_eq, Hm. Qed.

Lemma acts_map {B} (m : stm (store E) B) (k : B -> outcome) s this (x : B) a l cap :
  acts m s this x a l cap -> acts (y ← m; mret (k y)) s this (k x) a l cap.
Proof. intros (s' & Hm & Hrest). exists s'. by rewrite stm_bind_eq, Hm. Qed.

(** A method that leaves everything as it is. *)
Lemma represents_same s A this a l : represents s A -> A !! this = Some (a, l) ->
  represents s (<[this := (a, l)]> A).
Proof. intros Hr E0. by rewrite insert_id. Qed.

(** ** The methods refine the specification *)

Lemma read_acts {B} (m : stm (store E) B) (x : B) (r : outcome) (k : B -> outcome) s this a l cap :
  store_ok s -> holds s this a l cap -> m s = Done (x, s) -> k x = r ->
  acts (y ← m; mret (k y)) s this r a l cap.
Proof. intros Hs Hh Hm <-. eapply acts_read; [exact Hm|]. by apply acts_ret. Qed.

Lemma size_holds s this a l cap : holds s this a l cap -> size this s = Done (Z.of_nat (length l), s).
Proof. intros (f & Hf & (_ & _ & Hl & _) & _). unfold size. by rewrite stm_bind_eq, (field_eq _ _ f), Hl. Qed.

Lemma Capacity_holds s this a l cap : holds s this a l cap -> Capacity this s = Done (cap, s).
Proof. intros (f & Hf & _ & <-). unfold Capacity. by rewrite stm_bind_eq, (field_eq _ _ f). Qed.

(** Adding, reading and overwriting elements. *)
Lemma element_calls s A c r A' :
  represents s A -> small s -> spec c A = Some (r, A') ->
  match c with
  | CAdd _ _ | CAddAlreadyReserved _ _ | CGet _ _ | CSet _ _ _ | CSize _ | CSwapElements _ _ _ => True
  | _ => False
  end -> exists s', run c s = Done (r, s') /\ represents s' A'.
Proof.
  intros Hr Hsm Hspec Hc. pose proof (proj1 Hr) as Hs.
  destruct c; try done; cbn [spec] in Hspec; (eapply update_refines; [done|exact Hspec|]);
    intros a l l' cap Hh Hk; cbv beta in Hk; pose proof (small_holds _ _ _ _ _ Hsm Hh) as Hcap; cbn [run].
  - injection Hk as <- <-. eexists. eapply acts_then. by apply Add_acts.
  - injection Hk as <- <-.
    enough (exists c, acts (if decide (Z.of_nat (length l) < cap)
      then AddAlreadyReserved this (Val v) ;; mret AUnit else Add this (Val v) ;; mret AUnit)
      s this AUnit a (l ++ [v]) c) as [c Hc'].
    { exists c. eapply acts_read; [by eapply Capacity_holds|]. by eapply acts_read; [eapply size_holds|]. }
    case_decide; eexists; eapply acts_then; [by apply AddAlreadyReserved_acts|by apply Add_acts].
  - decide_in Hk as Hi. destruct (l !! Z.to_nat i) as [v|] eqn:Ev; [|done].
    injection Hk as <- <-. exists cap. eapply read_acts; [done|done| |done]. by eapply Get_acts.
  - unfold in_range in Hk. case_bool_decide; [|done]. injection Hk as <- <-.
    exists cap. eapply acts_then. by apply Set_acts.
  - injection Hk as <- <-. exists cap. eapply read_acts; [done|done|by eapply size_holds|done].
  - decide_in Hk as Hij. destruct (l !! Z.to_nat i) as [vi|] eqn:Ei; [|done].
    simpl in Hk. destruct (l !! Z.to_nat j) as [vj|] eqn:Ej; [|done]. injection Hk as <- <-.
    exists cap. eapply acts_then. destruct Hij. by apply SwapElements_acts.
Qed.

(** Removing elements, and the size and the capacity. *)
Lemma size_calls s A c r A' :
  represents s A -> small s -> spec c A = Some (r, A') ->
  match c with
  | CRemoveLast _ | CClear _ | CTruncate _ _ | CReserve _ _ | CResize _ _ _
  | CExtractSubrange _ _ _ _ | CErase _ _ _ => True
  | _ => False
  end -> exists s', run c s = Done (r, s') /\ represents s' A'.
Proof.
  intros Hr Hsm Hspec Hc. pose proof (proj1 Hr) as Hs.
  destruct c; try done; cbn [spec] in Hspec; (eapply update_refines; [done|exact Hspec|]);
    intros a l l' cap Hh Hk; cbv beta in Hk; pose proof (small_holds _ _ _ _ _ Hsm Hh) as Hcap; cbn [run].
  - destruct l as [|x l _] using rev_ind; [done|].
    assert (Hk' : Some (AUnit, removelast (l ++ [x])) = Some (r, l')) by (by destruct (l ++ [x]) eqn:E0; [destruct l|]).
    rewrite removelast_last in Hk'. cbv beta in Hk'. injection Hk' as <- <-. exists cap. eapply acts_then. by eapply RemoveLast_acts.
  - injection Hk as <- <-. exists cap. eapply acts_then. by eapply Clear_acts.
  - decide_in Hk as Hd. injection Hk as <- <-. exists cap. eapply acts_then. by apply Truncate_acts.
  - decide_in Hk as Hd. injection Hk as <- <-. eexists. eapply acts_then. by apply Reserve_acts.
  - decide_in Hk as Hd. injection Hk as <- <-. eexists. eapply acts_then. by apply Resize_acts.
  - decide_in Hk as Hd. injection Hk as <- <-. destruct Hd as (H1 & H2 & H3).
    exists cap. eapply (acts_map _ AElements). by apply ExtractSubrange_acts.
  - decide_in Hk as Hd. injection Hk as <- <-. destruct Hd as (H1 & H2).
    exists cap. eapply (acts_map _ ANumber). by apply erase_range_acts.
Qed.

(** Two objects. *)
Lemma MergeFrom_call s A this other r A' :
  represents s A -> small s -> spec (CMergeFrom this other) A = Some (r, A') ->
  exists s', run (CMergeFrom this other) s = Done (r, s') /\ represents s' A'.
Proof.
  intros Hr Hsm Hspec. cbn [spec] in Hspec. destruct (A !! other) as [[b k]|] eqn:Eo; [|done].
  destruct (represents_lookup s A other b k Hr Eo) as [c Hk]. pose proof (proj1 Hr) as Hs.
  eapply update_refines; [done|exact Hspec|]. intros a l l' cap Hh Hk'.
  cbv beta in Hk'. decide_in Hk' as Hd. injection Hk' as <- <-. destruct Hd as [Hne Hlen].
  eexists. eapply acts_then. eapply MergeFrom_acts; try done. by eapply small_holds.
Qed.

Lemma CopyFrom_call s A this other r A' :
  represents s A -> small s -> spec (CCopyFrom this other) A = Some (r, A') ->
  exists s', run (CCopyFrom this other) s = Done (r, s') /\ represents s' A'.
Proof.
  intros Hr Hsm Hspec. cbn [spec] in Hspec. destruct (A !! other) as [[b k]|] eqn:Eo; [|done].
  destruct (represents_lookup s A other b k Hr Eo) as [c Hk]. pose proof (proj1 Hr) as Hs.
  destruct (decide (this = other)) as [->|Hne].
  - cbn [mbind option_bind] in Hspec. unfold update in Hspec. rewrite Eo in Hspec. injection Hspec as <- <-.
    exists s. split; [|by apply represents_same]. cbn [run]. unfold CopyFrom. by rewrite stm_bind_eq, decide_True.
  - eapply update_refines; [done|exact Hspec|]. intros a l l' cap Hh Hk'. cbv beta in Hk'. injection Hk' as <- <-.
    eexists. eapply acts_then. eapply CopyFrom_acts; try done. by eapply small_holds.
Qed.

(** Afterwards the objects of [os] are as [A'] says and all others as before. *)
Lemma represents_change s s' A A' (os : list Z) :
  represents s A -> store_ok s' -> keeps_all_but s s' os -> (forall o, o ∉ os -> A' !! o = A !! o) ->
  Forall (fun o => match A' !! o with
                   | Some (a, l) => exists cap, holds s' o a l cap
                   | None => fields s' !! o = None
                   end) os ->
  represents s' A'.
Proof.
  intros [_ Hr] Hs' [K1 K2] Hsame Hos. split; [done|]. intros o.
  destruct (decide (o ∈ os)) as [Ho|Ho]; [by apply (proj1 (Forall_forall _ _) Hos)|].
  rewrite Hsame by done. specialize (Hr o). destruct (A !! o) as [[b k]|].
  - destruct Hr as [c Hc]. exists c. by apply K2.
  - by rewrite K1.
Qed.

Lemma represents_none s A o : represents s A -> A !! o = None -> fields s !! o = None.
Proof. intros [_ Hr] Ho. specialize (Hr o). by rewrite Ho in Hr. Qed.

(** A new object at an address. *)
Lemma acts_new {B} (m : stm (store E) B) (x : B) s this a l cap A :
  represents s A -> acts m s this x a l cap ->
  exists s', (m ;; mret AUnit) s = Done (AUnit, s') /\ represents s' (<[this := (a, l)]> A).
Proof.
  intros Hr (s' & Hm & Hs' & Hh' & K). exists s'. split; [by rewrite stm_bind_eq, Hm|].
  eapply (represents_change s s' A _ [this]); [done|done|by eapply keeps_others_all_but; [left|]| |].
  - intros o Ho. apply lookup_insert_ne. set_solver.
  - apply Forall_singleton. rewrite lookup_insert_eq. eauto.
Qed.

Lemma Swap_call s A this other temp r A' :
  represents s A -> small s -> spec (CSwap this other temp) A = Some (r, A') ->
  exists s', run (CSwap this other temp) s = Done (r, s') /\ represents s' A'.
Proof.
  intros Hr Hsm Hspec. cbn [spec] in Hspec. destruct (A !! this) as [[a l]|] eqn:Et; [|done].
  destruct (A !! other) as [[b k]|] eqn:Eo; [|done]. cbn [mbind option_bind] in Hspec.
  case_decide as Htemp; [|done]. injection Hspec as <- <-. cbn [run].
  destruct (decide (this = other)) as [->|Hne].
  { exists s. split; [unfold Swap; by rewrite stm_bind_eq, decide_True|].
    assert ((b, k) = (a, l)) as [= -> ->] by congruence. rewrite insert_insert_eq. by apply represents_same. }
  destruct (represents_lookup s A this a l Hr Et) as [cap Hh].
  destruct (represents_lookup s A other b k Hr Eo) as [c Hk].
  pose proof (represents_none _ _ _ Hr Htemp) as Hf.
  destruct (Swap_spec s this other temp a l cap b k c (proj1 Hr) Hne Hf Hh Hk (small_holds _ _ _ _ _ Hsm Hh))
    as (s' & cap' & c' & E1 & Hs' & Hh' & Hk' & Hf' & K).
  assert (Htt : temp <> this /\ temp <> other) by (split; intros ->; congruence).
  exists s'. split; [by rewrite stm_bind_eq, E1|].
  eapply (represents_change s s' A _ [this; other; temp]); [done..| |].
  - intros o Ho. rewrite !lookup_insert_ne by set_solver. done.
  - repeat constructor.
    + rewrite lookup_insert_ne, lookup_insert_eq by congruence. eauto.
    + rewrite lookup_insert_eq. eauto.
    + rewrite !lookup_insert_ne, Htemp by naive_solver. done.
Qed.

(** Construction and destruction. *)
Lemma construction_calls s A c r A' :
  represents s A -> small s -> spec c A = Some (r, A') ->
  match c with CNew _ _ | CCopyNew _ _ | CRange _ _ _ => True | _ => False end ->
  exists s', run c s = Done (r, s') /\ represents s' A'.
Proof.
  intros Hr Hsm Hspec Hc. pose proof (proj1 Hr) as Hs. destruct c; try done; cbn [spec] in Hspec; cbn [run].
  - case_decide as E0; [|done]. injection Hspec as <- <-.
    destruct (construct_spec s this a Hs (represents_none _ _ _ Hr E0)) as (s' & E1 & Hrest).
    by eapply acts_new; [|exists s'].
  - destruct (A !! other) as [[b k]|] eqn:Eo; [|done]. cbn [mbind option_bind] in Hspec.
    case_decide as E0; [|done]. injection Hspec as <- <-.
    destruct (represents_lookup s A other b k Hr Eo) as [c Hk].
    destruct (copy_spec s this other b k c Hs (represents_none _ _ _ Hr E0) Hk) as [cap Ha].
    by eapply acts_new.
  - case_decide as E0; [|done]. injection Hspec as <- <-. destruct E0 as [E0 Hl].
    destruct (range_spec s this forward vs Hs (represents_none _ _ _ Hr E0) Hl) as [cap Ha].
    by eapply acts_new.
Qed.

Lemma Move_call s A this other r A' :
  represents s A -> small s -> spec (CMove this other) A = Some (r, A') ->
  exists s', run (CMove this other) s = Done (r, s') /\ represents s' A'.
Proof.
  intros Hr Hsm Hspec. cbn [spec] in Hspec. destruct (A !! other) as [[b k]|] eqn:Eo; [|done].
  cbn [mbind option_bind] in Hspec. case_decide as E0; [|done]. injection Hspec as <- <-. cbn [run].
  destruct (represents_lookup s A other b k Hr Eo) as [c Hk].
  assert (Hne : this <> other) by congruence.
  destruct (move_spec s this other b k c (proj1 Hr) (represents_none _ _ _ Hr E0) Hk)
    as (s' & cap & E1 & Hs' & Hh' & Hk' & K).
  exists s'. split; [by rewrite stm_bind_eq, E1|].
  eapply (represents_change s s' A _ [this; other]); [done..| |].
  - intros o Ho. rewrite lookup_insert_ne by set_solver. case_decide; [|done].
    apply lookup_insert_ne. set_solver.
  - repeat constructor; [rewrite lookup_insert_eq; eauto|]. rewrite lookup_insert_ne by done.
    case_decide; [by rewrite lookup_insert_eq|by rewrite Eo].
Qed.

Lemma AssignCopy_call s A this other r A' :
  represents s A -> small s -> spec (CAssignCopy this other) A = Some (r, A') ->
  exists s', run (CAssignCopy this other) s = Done (r, s') /\ represents s' A'.
Proof.
  intros Hr Hsm Hspec. destruct (CopyFrom_call s A this other r A' Hr Hsm Hspec) as (s' & E1 & Hr').
  exists s'. split; [|done]. rewrite <- E1. cbn [run]. unfold assign_copy, CopyFrom.
  destruct (decide (this = other)) as [->|Hne].
  - rewrite decide_False by naive_solver. by rewrite decide_True.
  - rewrite decide_True by done. by rewrite decide_False by congruence.
Qed.

Lemma AssignMove_call s A this other r A' :
  represents s A -> small s -> spec (CAssignMove this other) A = Some (r, A') ->
  exists s', run (CAssignMove this other) s = Done (r, s') /\ represents s' A'.
Proof.
  intros Hr Hsm Hspec. cbn [spec] in Hspec. destruct (A !! this) as [[a l]|] eqn:Et; [|done].
  destruct (A !! other) as [[b k]|] eqn:Eo; [|done]. cbn [mbind option_bind] in Hspec.
  injection Hspec as <- <-. cbn [run].
  destruct (decide (this = other)) as [->|Hne].
  { exists s. split; [unfold assign_move; by rewrite stm_bind_eq, decide_False by naive_solver|].
    assert ((b, k) = (a, l)) as [= -> ->] by congruence.
    rewrite decide_True by done. rewrite insert_insert_eq. by apply represents_same. }
  destruct (represents_lookup s A this a l Hr Et) as [cap Hh].
  destruct (represents_lookup s A other b k Hr Eo) as [c Hk].
  destruct (assign_move_spec s this other a l cap b k c (proj1 Hr) Hne Hh Hk (small_holds _ _ _ _ _ Hsm Hh))
    as (s' & cap' & c' & E1 & Hs' & Hh' & Hk' & K).
  exists s'. split; [by rewrite stm_bind_eq, E1|].
  eapply (represents_change s s' A _ [this; other]); [done..| |].
  - intros o Ho. case_decide; rewrite !lookup_insert_ne by set_solver; done.
  - repeat constructor; case_decide; rewrite ?lookup_insert_eq, ?lookup_insert_ne, ?lookup_insert_eq, ?Eo by congruence; eauto.
Qed.

Lemma Delete_call s A this r A' :
  represents s A -> spec (CDelete this) A = Some (r, A') ->
  exists s', run (CDelete this) s = Done (r, s') /\ represents s' A'.
Proof.
  intros Hrep Hspec. cbn [spec] in Hspec. case_decide as E0; [done|]. injection Hspec as <- <-.
  destruct (A !! this) as [[a l]|] eqn:Ea; [|done].
  destruct (represents_lookup s A this a l Hrep Ea) as [cap Hh]. destruct Hrep as [Hs Hr].
  destruct (destroy_spec s this a l cap Hs Hh) as (s' & E1 & Hs' & Hf & K & _).
  exists s'. split; [cbn [run]; by rewrite stm_bind_eq, E1|]. split; [done|]. intros o.
  destruct (decide (o = this)) as [->|Ho]; [by rewrite lookup_delete_eq, Hf, lookup_delete_eq|].
  rewrite lookup_delete_ne by done. specialize (Hr o). destruct (A !! o) as [[b k]|].
  - destruct Hr as [c Hc]. exists c. by apply K.
  - by rewrite Hf, lookup_delete_ne.
Qed.

Lemma call_refines s A c r A' :
  represents s A -> small s -> spec c A = Some (r, A') ->
  exists s', run c s = Done (r, s') /\ represents s' A'.
Proof.
  intros Hr Hsm Hspec. destruct c;
    first [by eapply element_calls|by eapply size_calls|by eapply MergeFrom_call|by eapply CopyFrom_call
          |by eapply Swap_call|by eapply construction_calls|by eapply Delete_call|by eapply Move_call
          |by eapply AssignCopy_call|by eapply AssignMove_call].
Qed.

(** ** The reserved block and aliasing *)

(** [Reserve] beyond the largest capacity that can be doubled. *)
Lemma Reserve_overflow s this a l cap n :
  store_ok s -> holds s this a l cap -> 2 ^ 30 <= cap -> cap < n -> Reserve this n s = Fault IntOverflow.
Proof.
  intros Hs (f & Hf & Hrep & Hcap) H30 Hn. unfold Reserve.
  rewrite stm_bind_eq, (field_eq _ _ f) by done. rewrite decide_False by lia.
  destruct (field_array s this f a l Hs Hf Hrep ltac:(lia)) as (r & els & Hp & _).
  rewrite decide_True by lia. rewrite stm_bind_eq. unfold rep.
  rewrite stm_bind_eq, (elements_eq _ _ r) by (done || lia). cbn [mret stm_ret].
  rewrite stm_bind_eq, (GetArenaNoVirtual_eq _ _ a l) by done.
  rewrite stm_bind_eq. unfold st_lift, int_op. rewrite decide_False; [done|].
  pose proof Hrep as (_ & Ht & _). unfold int_range. lia.
Qed.

(** The address of an element, before and after its array is replaced. *)
Lemma Mutable_eq s this a l cap i p :
  store_ok s -> holds s this a l cap -> Mutable this i s = Done (p, s) ->
  0 <= i < Z.of_nat (length l) /\
  exists f, fields s !! this = Some f /\ ptr_ f = PElements (ep_rep p) /\ ep_index p = i.
Proof.
  intros Hs (f & Hf & Hrep & Hcap) Hm. unfold Mutable in Hm.
  rewrite stm_bind_eq, (field_eq _ _ f) in Hm by done.
  rewrite stm_bind_eq in Hm. unfold st_lift at 1, dcheck at 1 in Hm. case_decide as H0; [|done].
  cbn [fmap cres_fmap] in Hm. rewrite stm_bind_eq in Hm. unfold st_lift at 1, dcheck at 1 in Hm.
  case_decide as H1; [|done]. cbn [fmap cres_fmap] in Hm. pose proof Hrep as (Hc & Ht & Hl & _).
  split; [lia|]. exists f.
  destruct (field_array s this f a l Hs Hf Hrep ltac:(lia)) as (r & els & Hp & _).
  rewrite stm_bind_eq, (elements_eq _ _ r) in Hm by (done || lia). injection Hm as <-. done.
Qed.
End calls.
