(* ===== verification/WireFormat.v ===== *)
(** * The wire format ([google/protobuf/wire_format_lite.h] and [wire_format_lite_inl.h])

    The static methods of [WireFormatLite]: tags, the ZigZag transform, the
    readers and writers of every primitive field type, repeated and packed
    fields, groups and messages, and the sizes.  A C++ value of a primitive type
    is an integer in the range of its type; a [float] or [double] is its IEEE
    bit pattern, which is what [EncodeFloat] and [DecodeFloat] exchange.  A
    [const RepeatedField<T>&] that is only read is the list of its elements; one
    that is filled is an object of [RepeatedField]'s heap.

    [SerializedMessage] and [ParsedMessage] are what a generated message class
    provides; [ReadBytes] (wire_format_lite.cc) is a parameter. *)
From Stdlib Require Import ZArith Lia Strings.Byte.
From stdpp Require Import base tactics option list list_numbers gmap.
From S2P Require Import Prelude Mem Bits Varint CodedStream RepeatedField.

(** ** Types of fields *)

Inductive WireType :=
| WIRETYPE_VARINT | WIRETYPE_FIXED64 | WIRETYPE_LENGTH_DELIMITED
| WIRETYPE_START_GROUP | WIRETYPE_END_GROUP | WIRETYPE_FIXED32.

(** The enumerators' values. *)
Definition WireType_value (t : WireType) : Z :=
  match t with
  | WIRETYPE_VARINT => 0 | WIRETYPE_FIXED64 => 1 | WIRETYPE_LENGTH_DELIMITED => 2
  | WIRETYPE_START_GROUP => 3 | WIRETYPE_END_GROUP => 4 | WIRETYPE_FIXED32 => 5
  end.

Inductive FieldType :=
| TYPE_DOUBLE | TYPE_FLOAT | TYPE_INT64 | TYPE_UINT64 | TYPE_INT32 | TYPE_FIXED64
| TYPE_FIXED32 | TYPE_BOOL | TYPE_STRING | TYPE_GROUP | TYPE_MESSAGE | TYPE_BYTES
| TYPE_UINT32 | TYPE_ENUM | TYPE_SFIXED32 | TYPE_SFIXED64 | TYPE_SINT32 | TYPE_SINT64.

#[export] Instance FieldType_eq_dec : EqDecision FieldType.
Proof. solve_decision. Defined.

Definition kTagTypeBits : Z := 3.
Definition kTagTypeMask : Z := Z.shiftl 1 kTagTypeBits - 1.

Definition MakeTag (field_number : Z) (type : WireType) : Z :=
  u32 (Z.lor (u32 (Z.shiftl (u32 field_number) 3)) (WireType_value type)).
(** The cast makes a [WireType] of any value, 6 and 7 included. *)
Definition GetTagWireType (tag : Z) : Z := Z.land tag kTagTypeMask.
Definition GetTagFieldNumber (tag : Z) : Z := i32 (Z.shiftr tag kTagTypeBits).

Definition TagSize (field_number : Z) (type : FieldType) : Z :=
  let result := VarintSize32 (u32 (Z.shiftl field_number kTagTypeBits)) in
  if decide (type = TYPE_GROUP) then result * 2 else result.

Definition kMessageSetItemNumber : Z := 1.
Definition kMessageSetTypeIdNumber : Z := 2.
Definition kMessageSetMessageNumber : Z := 3.
Definition kMessageSetItemStartTag : Z := MakeTag kMessageSetItemNumber WIRETYPE_START_GROUP.
Definition kMessageSetItemEndTag : Z := MakeTag kMessageSetItemNumber WIRETYPE_END_GROUP.
Definition kMessageSetTypeIdTag : Z := MakeTag kMessageSetTypeIdNumber WIRETYPE_VARINT.
Definition kMessageSetMessageTag : Z := MakeTag kMessageSetMessageNumber WIRETYPE_LENGTH_DELIMITED.

(** ** Representations *)

Definition EncodeFloat (value : Z) : Z := value.
Definition DecodeFloat (value : Z) : Z := value.
Definition EncodeDouble (value : Z) : Z := value.
Definition DecodeDouble (value : Z) : Z := value.

Definition ZigZagEncode32 (n : Z) : Z := Z.lxor (u32 (Z.shiftl (u32 n) 1)) (u32 (Z.shiftr n 31)).
Definition ZigZagDecode32 (n : Z) : Z := i32 (Z.lxor (Z.shiftr n 1) (u32 (u32 (Z.lnot (Z.land n 1)) + 1))).
Definition ZigZagEncode64 (n : Z) : Z := Z.lxor (u64 (Z.shiftl (u64 n) 1)) (u64 (Z.shiftr n 63)).
Definition ZigZagDecode64 (n : Z) : Z := i64 (Z.lxor (Z.shiftr n 1) (u64 (u64 (Z.lnot (Z.land n 1)) + 1))).

(** [ReadVarint(const char** p)]: the new pointer and the number. *)
Definition ReadVarint (m : list byte) (p : Z) : cres (option Z * Z) := Parse64 m p.
Definition ReadVarintZigZag64 (m : list byte) (p : Z) : cres (option Z * Z) :=
  '(q, tmp) ← Parse64 m p; Done (q, ZigZagDecode64 tmp).
Definition ReadVarintZigZag32 (m : list byte) (p : Z) : cres (option Z * Z) :=
  '(q, tmp) ← Parse64 m p; Done (q, ZigZagDecode32 (u32 tmp)).

(** ** Reading one field *)

Section read.
  Context `{InputFallbacks}.

(** [None] is the result [false]; the types that are not primitive have no
    specialisation. *)
Definition ReadPrimitive (DeclaredType : FieldType) : stm CodedInputStream (option Z) :=
  match DeclaredType with
  | TYPE_INT32 => '(ok, temp) ← ReadVarint32; mret (if ok : bool then Some (i32 temp) else None)
  | TYPE_INT64 => '(ok, temp) ← ReadVarint64; mret (if ok : bool then Some (i64 temp) else None)
  | TYPE_UINT32 => '(ok, value) ← ReadVarint32; mret (if ok : bool then Some value else None)
  | TYPE_UINT64 => '(ok, value) ← ReadVarint64; mret (if ok : bool then Some value else None)
  | TYPE_SINT32 => '(ok, temp) ← ReadVarint32; mret (if ok : bool then Some (ZigZagDecode32 temp) else None)
  | TYPE_SINT64 => '(ok, temp) ← ReadVarint64; mret (if ok : bool then Some (ZigZagDecode64 temp) else None)
  | TYPE_FIXED32 => '(ok, value) ← ReadLittleEndian32; mret (if ok : bool then Some value else None)
  | TYPE_FIXED64 => '(ok, value) ← ReadLittleEndian64; mret (if ok : bool then Some value else None)
  | TYPE_SFIXED32 => '(ok, temp) ← ReadLittleEndian32; mret (if ok : bool then Some (i32 temp) else None)
  | TYPE_SFIXED64 => '(ok, temp) ← ReadLittleEndian64; mret (if ok : bool then Some (i64 temp) else None)
  | TYPE_FLOAT => '(ok, temp) ← ReadLittleEndian32; mret (if ok : bool then Some (DecodeFloat temp) else None)
  | TYPE_DOUBLE => '(ok, temp) ← ReadLittleEndian64; mret (if ok : bool then Some (DecodeDouble temp) else None)
  | TYPE_BOOL => '(ok, temp) ← ReadVarint64; mret (if ok : bool then Some (Z.b2z (bool_decide (temp <> 0))) else None)
  | TYPE_ENUM => '(ok, temp) ← ReadVarint32; mret (if ok : bool then Some (i32 temp) else None)
  | _ => st_fault NullDeref
  end.

Definition ReadPrimitiveFromArray (DeclaredType : FieldType) (m : list byte) (buffer : Z)
    : cres (Z * Z) :=
  match DeclaredType with
  | TYPE_FIXED32 => ReadLittleEndian32FromArray m buffer
  | TYPE_FIXED64 => ReadLittleEndian64FromArray m buffer
  | TYPE_SFIXED32 => '(buffer, temp) ← ReadLittleEndian32FromArray m buffer; Done (buffer, i32 temp)
  | TYPE_SFIXED64 => '(buffer, temp) ← ReadLittleEndian64FromArray m buffer; Done (buffer, i64 temp)
  | TYPE_FLOAT => '(buffer, temp) ← ReadLittleEndian32FromArray m buffer; Done (buffer, DecodeFloat temp)
  | TYPE_DOUBLE => '(buffer, temp) ← ReadLittleEndian64FromArray m buffer; Done (buffer, DecodeDouble temp)
  | _ => Fault NullDeref
  end.

(** ** Repeated fields

    The state is the stream and the heap of [RepeatedField] objects; [values] is
    the address of one of them. *)

Definition parse_state : Type := CodedInputStream * store Z.

Context `{ElementType Z}.

Definition on_input {A} (m : stm CodedInputStream A) : stm parse_state A := fun s =>
  '(a, i) ← m (fst s); Done (a, (i, snd s)).
Definition on_heap {A} (m : stm (store Z) A) : stm parse_state A := fun s =>
  '(a, h) ← m (snd s); Done (a, (fst s, h)).

(** The loop of [ReadRepeatedPrimitive]; the counter is [elements_already_reserved]. *)
Fixpoint ReadRepeatedPrimitive_loop (reserved : nat) (t : FieldType) (tag values : Z)
    : stm parse_state bool :=
  match reserved with
  | O => mret true
  | S reserved =>
      found ← on_input (ExpectTag tag);
      if found : bool then
        r ← on_input (ReadPrimitive t);
        match r with
        | None => mret false
        | Some value =>
            on_heap (AddAlreadyReserved values (Val value)) ;;
            ReadRepeatedPrimitive_loop reserved t tag values
        end
      else mret true
  end.

Definition ReadRepeatedPrimitive_generic (t : FieldType) (tag values : Z) : stm parse_state bool :=
  r ← on_input (ReadPrimitive t);
  match r with
  | None => mret false
  | Some value =>
      on_heap (Add values (Val value)) ;;
      capacity ← on_heap (Capacity values);
      n ← on_heap (size values);
      ReadRepeatedPrimitive_loop (Z.to_nat (capacity - n)) t tag values
  end.

(** [sizeof] of the C++ types of the fixed-size fields. *)
Definition sizeof_fixed (t : FieldType) : Z :=
  match t with TYPE_FIXED64 | TYPE_SFIXED64 | TYPE_DOUBLE => 8 | _ => 4 end.

(** The loop of [ReadRepeatedFixedSizePrimitive]: [left_] is
    [elements_available - num_read]; the result is [num_read]. *)
Fixpoint ReadRepeatedFixed_loop (left_ : nat) (num_read : Z) (t : FieldType) (tag values : Z)
    (m : list byte) (buffer : Z) : stm (store Z) Z :=
  match left_ with
  | O => mret num_read
  | S left_ =>
      b ← st_lift (ExpectTagFromArray m buffer tag);
      match b with
      | None => mret num_read
      | Some buffer =>
          '(buffer, value) ← st_lift (ReadPrimitiveFromArray t m buffer);
          AddAlreadyReserved values (Val value) ;;
          ReadRepeatedFixed_loop left_ (num_read + 1) t tag values m buffer
      end
  end.

(** The direct reads from the buffer that follow the first element. *)
Definition ReadRepeatedFixed_direct (t : FieldType) (tag_size tag values : Z) : stm parse_state bool :=
  '(buffer, sz) ← on_input GetDirectBufferPointerInline;
  if decide (0 < sz) then
    let per_value_size := tag_size + sizeof_fixed t in
    capacity ← on_heap (Capacity values);
    n ← on_heap (size values);
    let elements_available := Z.min (capacity - n) (Z.quot sz per_value_size) in
    i ← st_gets fst;
    num_read ← on_heap (ReadRepeatedFixed_loop (Z.to_nat elements_available) 0 t tag values
                          (buffer_array i) buffer);
    let read_bytes := num_read * per_value_size in
    (if decide (0 < read_bytes) then on_input (Skip read_bytes) ;; mret tt else mret tt) ;;
    mret true
  else mret true.

Definition ReadRepeatedFixedSizePrimitive (t : FieldType) (tag_size tag values : Z)
    : stm parse_state bool :=
  st_lift (dcheck (VarintSize32 tag = u64 tag_size)) ;;
  r ← on_input (ReadPrimitive t);
  match r with
  | None => mret false
  | Some value =>
      on_heap (Add values (Val value)) ;; ReadRepeatedFixed_direct t tag_size tag values
  end.

(** Which types the macros specialise to the fixed-size versions. *)
Definition is_fixed_size (t : FieldType) : bool :=
  match t with
  | TYPE_FIXED32 | TYPE_FIXED64 | TYPE_SFIXED32 | TYPE_SFIXED64 | TYPE_FLOAT | TYPE_DOUBLE => true
  | _ => false
  end.

Definition ReadRepeatedPrimitive (t : FieldType) (tag_size tag values : Z) : stm parse_state bool :=
  if is_fixed_size t then ReadRepeatedFixedSizePrimitive t tag_size tag values
  else ReadRepeatedPrimitive_generic t tag values.
Definition ReadRepeatedPrimitiveNoInline (t : FieldType) (tag_size tag values : Z)
    : stm parse_state bool :=
  ReadRepeatedPrimitive t tag_size tag values.

(** The [while] loop of [ReadPackedPrimitive]. *)
Fixpoint ReadPacked_loop (fuel : nat) (t : FieldType) (values : Z) : stm parse_state bool :=
  i ← st_gets fst;
  if decide (0 < BytesUntilLimit i) then
    match fuel with
    | O => st_fault OutOfFuel
    | S fuel =>
        r ← on_input (ReadPrimitive t);
        match r with
        | None => mret false
        | Some value => on_heap (Add values (Val value)) ;; ReadPacked_loop fuel t values
        end
    end
  else mret true.

(** A round reads at least one of the [length] bytes before the limit, so that
    [length] rounds are enough. *)
Definition ReadPackedPrimitive_generic (t : FieldType) (values : Z) : stm parse_state bool :=
  '(ok, length) ← on_input ReadVarintSizeAsInt;
  if negb ok then mret false
  else
    limit ← on_input (PushLimit length);
    done ← ReadPacked_loop (Z.to_nat length) t values;
    if negb done then mret false
    else on_input (PopLimit limit) ;; mret true.

(** [n] reads and [Add]s. *)
Fixpoint ReadPackedFixed_loop (n : nat) (t : FieldType) (values : Z) : stm parse_state bool :=
  match n with
  | O => mret true
  | S n =>
      r ← on_input (ReadPrimitive t);
      match r with
      | None => mret false
      | Some value => on_heap (Add values (Val value)) ;; ReadPackedFixed_loop n t values
      end
  end.

(** The memory image of the elements of a fixed-size type. *)
Definition element_of_image (t : FieldType) (bs : list byte) : Z :=
  match t with
  | TYPE_SFIXED32 => i32 (le_combine bs)
  | TYPE_SFIXED64 => i64 (le_combine bs)
  | _ => le_combine bs
  end.
Fixpoint elements_of_image (n : nat) (t : FieldType) (bs : list byte) : list Z :=
  match n with
  | O => []
  | S n => let w := Z.to_nat (sizeof_fixed t) in
           element_of_image t (take w bs) :: elements_of_image n t (drop w bs)
  end.

(** [ReadRaw] into the array of [values], behind its first [old_entries] elements. *)
Definition store_image (values old_entries : Z) (vs : list Z) : stm (store Z) unit :=
  p ← mutable_data values;
  foldr (fun '(k, v) rest =>
           match p with
           | Some p => store_element (EPtr (ep_rep p) (ep_index p + old_entries + k)) v ;; rest
           | None => st_fault NullDeref
           end) (mret tt) (zip (seqZ 0 (Z.of_nat (length vs))) vs).

Definition ReadPackedFixedSizePrimitive (t : FieldType) (values : Z) : stm parse_state bool :=
  '(ok, length) ← on_input ReadVarintSizeAsInt;
  if negb ok then mret false
  else
    old_entries ← on_heap (size values);
    let new_entries := Z.quot length (sizeof_fixed t) in
    let new_bytes := new_entries * sizeof_fixed t in
    if decide (new_bytes <> length) then mret false
    else
      i ← st_gets fst;
      let bytes_limit :=
        if decide (BytesUntilTotalBytesLimit i = -1) then BytesUntilLimit i
        else Z.min (BytesUntilTotalBytesLimit i) (BytesUntilLimit i) in
      if decide (new_bytes <= bytes_limit) then
        n ← st_lift (int_op (old_entries + new_entries));
        on_heap (Resize values n (Val 0)) ;;
        '(ok, bs) ← on_input (ReadRaw new_bytes);
        if negb ok then on_heap (Truncate values old_entries) ;; mret false
        else
          on_heap (store_image values old_entries (elements_of_image (Z.to_nat new_entries) t bs)) ;;
          mret true
      else ReadPackedFixed_loop (Z.to_nat new_entries) t values.

Definition ReadPackedPrimitive (t : FieldType) (values : Z) : stm parse_state bool :=
  if is_fixed_size t then ReadPackedFixedSizePrimitive t values
  else ReadPackedPrimitive_generic t values.
Definition ReadPackedPrimitiveNoInline (t : FieldType) (values : Z) : stm parse_state bool :=
  ReadPackedPrimitive t values.

(** ** Groups and messages *)

Section message.
  Context {M : Type} (MergePartialFromCodedStream : stm (CodedInputStream * M) bool).

(** A call on the stream, beside the message. *)
Definition on_stream {A} (m : stm CodedInputStream A) : stm (CodedInputStream * M) A := fun s =>
  '(a, i) ← m (fst s); Done (a, (i, snd s)).

Definition ReadGroup (field_number : Z) : stm (CodedInputStream * M) bool :=
  deeper ← on_stream IncrementRecursionDepth;
  if negb deeper then mret false
  else
    parsed ← MergePartialFromCodedStream;
    if negb parsed then mret false
    else
      on_stream UnsafeDecrementRecursionDepth ;;
      on_stream (LastTagWas (MakeTag field_number WIRETYPE_END_GROUP)).

Definition ReadMessage : stm (CodedInputStream * M) bool :=
  '(ok, length) ← on_stream ReadVarintSizeAsInt;
  if negb ok then mret false
  else
    p ← on_stream (IncrementRecursionDepthAndPushLimit length);
    if decide (snd p < 0) then mret false
    else
      parsed ← MergePartialFromCodedStream;
      if negb parsed then mret false
      else on_stream (DecrementRecursionDepthAndPopLimit (fst p)).
End message.

(** [ReadString] is [ReadBytes], for a string and for a pointer to one. *)
Definition ReadString {V} (ReadBytes : V -> stm CodedInputStream (bool * V)) (value : V)
    : stm CodedInputStream (bool * V) := ReadBytes value.
End read.

(** ** Writing to a stream *)

(** What a message class provides to the writers. *)
Class SerializedMessage (M : Type) := {
  SerializeWithCachedSizes : M -> stm CodedOutputStream unit;
  InternalSerializeWithCachedSizesToArray : M -> list byte -> Z -> cres (list byte * Z);
  GetCachedSize : M -> Z;
  ByteSizeLong : M -> Z;
}.

Section write.
  Context `{OutputFallbacks}.

Definition WireFormat_WriteTag (field_number : Z) (type : WireType) : stm CodedOutputStream unit :=
  WriteTag (MakeTag field_number type).
Definition WriteInt32NoTag (value : Z) : stm CodedOutputStream unit :=
  WriteVarint32SignExtended value.
Definition WriteInt64NoTag (value : Z) : stm CodedOutputStream unit :=
  WriteVarint64 (u64 value).
Definition WriteUInt32NoTag (value : Z) : stm CodedOutputStream unit :=
  WriteVarint32 value.
Definition WriteUInt64NoTag (value : Z) : stm CodedOutputStream unit :=
  WriteVarint64 value.
Definition WriteSInt32NoTag (value : Z) : stm CodedOutputStream unit :=
  WriteVarint32 (ZigZagEncode32 value).
Definition WriteSInt64NoTag (value : Z) : stm CodedOutputStream unit :=
  WriteVarint64 (ZigZagEncode64 value).
Definition WriteFixed32NoTag (value : Z) : stm CodedOutputStream unit :=
  WriteLittleEndian32 value.
Definition WriteFixed64NoTag (value : Z) : stm CodedOutputStream unit :=
  WriteLittleEndian64 value.
Definition WriteSFixed32NoTag (value : Z) : stm CodedOutputStream unit :=
  WriteLittleEndian32 (u32 value).
Definition WriteSFixed64NoTag (value : Z) : stm CodedOutputStream unit :=
  WriteLittleEndian64 (u64 value).
Definition WriteFloatNoTag (value : Z) : stm CodedOutputStream unit :=
  WriteLittleEndian32 (EncodeFloat value).
Definition WriteDoubleNoTag (value : Z) : stm CodedOutputStream unit :=
  WriteLittleEndian64 (EncodeDouble value).
Definition WriteBoolNoTag (value : Z) : stm CodedOutputStream unit :=
  WriteVarint32 (if decide (value <> 0) then 1 else 0).
Definition WriteEnumNoTag (value : Z) : stm CodedOutputStream unit :=
  WriteVarint32SignExtended value.

Definition WriteGroupNoVirtual `{SerializedMessage M} (field_number : Z) (value : M)
    : stm CodedOutputStream unit :=
  WireFormat_WriteTag field_number WIRETYPE_START_GROUP ;;
  SerializeWithCachedSizes value ;;
  WireFormat_WriteTag field_number WIRETYPE_END_GROUP.
Definition WriteMessageNoVirtual `{SerializedMessage M} (field_number : Z) (value : M)
    : stm CodedOutputStream unit :=
  WireFormat_WriteTag field_number WIRETYPE_LENGTH_DELIMITED ;;
  WriteVarint32 (u32 (GetCachedSize value)) ;;
  SerializeWithCachedSizes value.

Definition SerializeUnknownMessageSetItems (unknown_fields : list byte) : stm CodedOutputStream unit :=
  WriteString unknown_fields.
Definition ComputeUnknownMessageSetItemsSize (unknown_fields : list byte) : Z :=
  Z.of_nat (length unknown_fields).

(** ** Writing to an array *)

Definition array_writer : Type := list byte -> Z -> cres (list byte * Z).

(** One writer, then another from where it stopped. *)
Definition then_ (w1 w2 : array_writer) : array_writer := fun m target =>
  '(m, target) ← w1 m target; w2 m target.

Definition WireFormat_WriteTagToArray (field_number : Z) (type : WireType) : array_writer :=
  WriteTagToArray (MakeTag field_number type).
Definition WriteInt32NoTagToArray (value : Z) : array_writer :=
  WriteVarint32SignExtendedToArray value.
Definition WriteInt64NoTagToArray (value : Z) : array_writer :=
  WriteVarint64ToArray (u64 value).
Definition WriteUInt32NoTagToArray (value : Z) : array_writer :=
  WriteVarint32ToArray value.
Definition WriteUInt64NoTagToArray (value : Z) : array_writer :=
  WriteVarint64ToArray value.
Definition WriteSInt32NoTagToArray (value : Z) : array_writer :=
  WriteVarint32ToArray (ZigZagEncode32 value).
Definition WriteSInt64NoTagToArray (value : Z) : array_writer :=
  WriteVarint64ToArray (ZigZagEncode64 value).
Definition WriteFixed32NoTagToArray (value : Z) : array_writer :=
  WriteLittleEndian32ToArray value.
Definition WriteFixed64NoTagToArray (value : Z) : array_writer :=
  WriteLittleEndian64ToArray value.
Definition WriteSFixed32NoTagToArray (value : Z) : array_writer :=
  WriteLittleEndian32ToArray (u32 value).
Definition WriteSFixed64NoTagToArray (value : Z) : array_writer :=
  WriteLittleEndian64ToArray (u64 value).
Definition WriteFloatNoTagToArray (value : Z) : array_writer :=
  WriteLittleEndian32ToArray (EncodeFloat value).
Definition WriteDoubleNoTagToArray (value : Z) : array_writer :=
  WriteLittleEndian64ToArray (EncodeDouble value).
Definition WriteBoolNoTagToArray (value : Z) : array_writer :=
  WriteVarint32ToArray (if decide (value <> 0) then 1 else 0).
Definition WriteEnumNoTagToArray (value : Z) : array_writer :=
  WriteVarint32SignExtendedToArray value.

(** The [do ... while] loop over the elements. *)
Fixpoint write_elements (Writer : Z -> array_writer) (value : list Z) : array_writer :=
  fun m target =>
    match value with
    | [] => Done (m, target)
    | v :: value => '(m, target) ← Writer v m target; write_elements Writer value m target
    end.
Definition WritePrimitiveNoTagToArray (value : list Z) (Writer : Z -> array_writer) : array_writer :=
  fun m target =>
    dcheck (0 < Z.of_nat (length value)) ;; write_elements Writer value m target.
(** [memcpy] of the array; [w] is the size of its elements. *)
Definition WriteFixedNoTagToArray (w : nat) (value : list Z) : array_writer :=
  fun m target =>
    dcheck (0 < Z.of_nat (length value)) ;;
    let bytes := concat (le_split w <$> value) in
    m ← buf_write m target bytes; Done (m, target + Z.of_nat (length value) * Z.of_nat w).
Definition WriteInt32NoTagToArray_repeated (value : list Z) : array_writer :=
  WritePrimitiveNoTagToArray value WriteInt32NoTagToArray.
Definition WriteInt64NoTagToArray_repeated (value : list Z) : array_writer :=
  WritePrimitiveNoTagToArray value WriteInt64NoTagToArray.
Definition WriteUInt32NoTagToArray_repeated (value : list Z) : array_writer :=
  WritePrimitiveNoTagToArray value WriteUInt32NoTagToArray.
Definition WriteUInt64NoTagToArray_repeated (value : list Z) : array_writer :=
  WritePrimitiveNoTagToArray value WriteUInt64NoTagToArray.
Definition WriteSInt32NoTagToArray_repeated (value : list Z) : array_writer :=
  WritePrimitiveNoTagToArray value WriteSInt32NoTagToArray.
Definition WriteSInt64NoTagToArray_repeated (value : list Z) : array_writer :=
  WritePrimitiveNoTagToArray value WriteSInt64NoTagToArray.
Definition WriteFixed32NoTagToArray_repeated (value : list Z) : array_writer :=
  WriteFixedNoTagToArray 4 value.
Definition WriteFixed64NoTagToArray_repeated (value : list Z) : array_writer :=
  WriteFixedNoTagToArray 8 value.
Definition WriteSFixed32NoTagToArray_repeated (value : list Z) : array_writer :=
  WriteFixedNoTagToArray 4 value.
Definition WriteSFixed64NoTagToArray_repeated (value : list Z) : array_writer :=
  WriteFixedNoTagToArray 8 value.
Definition WriteFloatNoTagToArray_repeated (value : list Z) : array_writer :=
  WriteFixedNoTagToArray 4 value.
Definition WriteDoubleNoTagToArray_repeated (value : list Z) : array_writer :=
  WriteFixedNoTagToArray 8 value.
Definition WriteBoolNoTagToArray_repeated (value : list Z) : array_writer :=
  WritePrimitiveNoTagToArray value WriteBoolNoTagToArray.
Definition WriteEnumNoTagToArray_repeated (value : list Z) : array_writer :=
  WritePrimitiveNoTagToArray value WriteEnumNoTagToArray.

(** With tags. *)
Definition WriteInt32ToArray (field_number value : Z) : array_writer :=
  then_ (WireFormat_WriteTagToArray field_number WIRETYPE_VARINT) (WriteInt32NoTagToArray value).
Definition WriteInt64ToArray (field_number value : Z) : array_writer :=
  then_ (WireFormat_WriteTagToArray field_number WIRETYPE_VARINT) (WriteInt64NoTagToArray value).
Definition WriteUInt32ToArray (field_number value : Z) : array_writer :=
  then_ (WireFormat_WriteTagToArray field_number WIRETYPE_VARINT) (WriteUInt32NoTagToArray value).
Definition WriteUInt64ToArray (field_number value : Z) : array_writer :=
  then_ (WireFormat_WriteTagToArray field_number WIRETYPE_VARINT) (WriteUInt64NoTagToArray value).
Definition WriteSInt32ToArray (field_number value : Z) : array_writer :=
  then_ (WireFormat_WriteTagToArray field_number WIRETYPE_VARINT) (WriteSInt32NoTagToArray value).
Definition WriteSInt64ToArray (field_number value : Z) : array_writer :=
  then_ (WireFormat_WriteTagToArray field_number WIRETYPE_VARINT) (WriteSInt64NoTagToArray value).
Definition WriteFixed32ToArray (field_number value : Z) : array_writer :=
  then_ (WireFormat_WriteTagToArray field_number WIRETYPE_FIXED32) (WriteFixed32NoTagToArray value).
Definition WriteFixed64ToArray (field_number value : Z) : array_writer :=
  then_ (WireFormat_WriteTagToArray field_number WIRETYPE_FIXED64) (WriteFixed64NoTagToArray value).
Definition WriteSFixed32ToArray (field_number value : Z) : array_writer :=
  then_ (WireFormat_WriteTagToArray field_number WIRETYPE_FIXED32) (WriteSFixed32NoTagToArray value).
Definition WriteSFixed64ToArray (field_number value : Z) : array_writer :=
  then_ (WireFormat_WriteTagToArray field_number WIRETYPE_FIXED64) (WriteSFixed64NoTagToArray value).
Definition WriteFloatToArray (field_number value : Z) : array_writer :=
  then_ (WireFormat_WriteTagToArray field_number WIRETYPE_FIXED32) (WriteFloatNoTagToArray value).
Definition WriteDoubleToArray (field_number value : Z) : array_writer :=
  then_ (WireFormat_WriteTagToArray field_number WIRETYPE_FIXED64) (WriteDoubleNoTagToArray value).
Definition WriteBoolToArray (field_number value : Z) : array_writer :=
  then_ (WireFormat_WriteTagToArray field_number WIRETYPE_VARINT) (WriteBoolNoTagToArray value).
Definition WriteEnumToArray (field_number value : Z) : array_writer :=
  then_ (WireFormat_WriteTagToArray field_number WIRETYPE_VARINT) (WriteEnumNoTagToArray value).

Definition WritePrimitiveToArray (field_number : Z) (value : list Z)
    (Writer : Z -> Z -> array_writer) : array_writer :=
  fun m target =>
    if decide (Z.of_nat (length value) = 0) then Done (m, target)
    else write_elements (Writer field_number) value m target.
Definition WriteInt32ToArray_repeated (field_number : Z) (value : list Z) : array_writer :=
  WritePrimitiveToArray field_number value WriteInt32ToArray.
Definition WriteInt64ToArray_repeated (field_number : Z) (value : list Z) : array_writer :=
  WritePrimitiveToArray field_number value WriteInt64ToArray.
Definition WriteUInt32ToArray_repeated (field_number : Z) (value : list Z) : array_writer :=
  WritePrimitiveToArray field_number value WriteUInt32ToArray.
Definition WriteUInt64ToArray_repeated (field_number : Z) (value : list Z) : array_writer :=
  WritePrimitiveToArray field_number value WriteUInt64ToArray.
Definition WriteSInt32ToArray_repeated (field_number : Z) (value : list Z) : array_writer :=
  WritePrimitiveToArray field_number value WriteSInt32ToArray.
Definition WriteSInt64ToArray_repeated (field_number : Z) (value : list Z) : array_writer :=
  WritePrimitiveToArray field_number value WriteSInt64ToArray.
Definition WriteFixed32ToArray_repeated (field_number : Z) (value : list Z) : array_writer :=
  WritePrimitiveToArray field_number value WriteFixed32ToArray.
Definition WriteFixed64ToArray_repeated (field_number : Z) (value : list Z) : array_writer :=
  WritePrimitiveToArray field_number value WriteFixed64ToArray.
Definition WriteSFixed32ToArray_repeated (field_number : Z) (value : list Z) : array_writer :=
  WritePrimitiveToArray field_number value WriteSFixed32ToArray.
Definition WriteSFixed64ToArray_repeated (field_number : Z) (value : list Z) : array_writer :=
  WritePrimitiveToArray field_number value WriteSFixed64ToArray.
Definition WriteFloatToArray_repeated (field_number : Z) (value : list Z) : array_writer :=
  WritePrimitiveToArray field_number value WriteFloatToArray.
Definition WriteDoubleToArray_repeated (field_number : Z) (value : list Z) : array_writer :=
  WritePrimitiveToArray field_number value WriteDoubleToArray.
Definition WriteBoolToArray_repeated (field_number : Z) (value : list Z) : array_writer :=
  WritePrimitiveToArray field_number value WriteBoolToArray.
Definition WriteEnumToArray_repeated (field_number : Z) (value : list Z) : array_writer :=
  WritePrimitiveToArray field_number value WriteEnumToArray.

Definition WireFormat_WriteStringToArray (field_number : Z) (value : list byte) : array_writer :=
  then_ (WireFormat_WriteTagToArray field_number WIRETYPE_LENGTH_DELIMITED)
        (WriteStringWithSizeToArray value).
Definition WriteBytesToArray (field_number : Z) (value : list byte) : array_writer :=
  then_ (WireFormat_WriteTagToArray field_number WIRETYPE_LENGTH_DELIMITED)
        (WriteStringWithSizeToArray value).

Definition InternalWriteGroupToArray `{SerializedMessage M} (field_number : Z) (value : M)
    : array_writer :=
  then_ (WireFormat_WriteTagToArray field_number WIRETYPE_START_GROUP)
    (then_ (InternalSerializeWithCachedSizesToArray value)
           (WireFormat_WriteTagToArray field_number WIRETYPE_END_GROUP)).
Definition InternalWriteMessageToArray `{SerializedMessage M} (field_number : Z) (value : M)
    : array_writer :=
  then_ (WireFormat_WriteTagToArray field_number WIRETYPE_LENGTH_DELIMITED)
    (then_ (WriteVarint32ToArray (u32 (GetCachedSize value)))
           (InternalSerializeWithCachedSizesToArray value)).
Definition InternalWriteGroupNoVirtualToArray `{SerializedMessage M} (field_number : Z) (value : M)
    : array_writer :=
  then_ (WireFormat_WriteTagToArray field_number WIRETYPE_START_GROUP)
    (then_ (InternalSerializeWithCachedSizesToArray value)
           (WireFormat_WriteTagToArray field_number WIRETYPE_END_GROUP)).
Definition InternalWriteMessageNoVirtualToArray `{SerializedMessage M} (field_number : Z) (value : M)
    : array_writer :=
  then_ (WireFormat_WriteTagToArray field_number WIRETYPE_LENGTH_DELIMITED)
    (then_ (WriteVarint32ToArray (u32 (GetCachedSize value)))
           (InternalSerializeWithCachedSizesToArray value)).
Definition WriteGroupToArray `{SerializedMessage M} (field_number : Z) (value : M) : array_writer :=
  InternalWriteGroupToArray field_number value.
Definition WriteMessageToArray `{SerializedMessage M} (field_number : Z) (value : M) : array_writer :=
  InternalWriteMessageToArray field_number value.
End write.

(** ** Sizes *)

Definition Int32Size (value : Z) : Z := VarintSize32SignExtended value.
Definition Int64Size (value : Z) : Z := VarintSize64 (u64 value).
Definition UInt32Size (value : Z) : Z := VarintSize32 value.
Definition UInt64Size (value : Z) : Z := VarintSize64 value.
Definition SInt32Size (value : Z) : Z := VarintSize32 (ZigZagEncode32 value).
Definition SInt64Size (value : Z) : Z := VarintSize64 (ZigZagEncode64 value).
Definition EnumSize (value : Z) : Z := VarintSize32SignExtended value.

Definition kFixed32Size : Z := 4.
Definition kFixed64Size : Z := 8.
Definition kSFixed32Size : Z := 4.
Definition kSFixed64Size : Z := 8.
Definition kFloatSize : Z := 4.
Definition kDoubleSize : Z := 8.
Definition kBoolSize : Z := 1.

(** The length is cut to 32 bits for the size of its own encoding. *)
Definition LengthDelimitedSize (length : Z) : Z := u64 (length + VarintSize32 (u32 length)).
Definition StringSize (value : list byte) : Z := LengthDelimitedSize (Z.of_nat (length value)).
Definition BytesSize (value : list byte) : Z := LengthDelimitedSize (Z.of_nat (length value)).
Definition GroupSize `{SerializedMessage M} (value : M) : Z := ByteSizeLong value.
Definition MessageSize `{SerializedMessage M} (value : M) : Z := LengthDelimitedSize (ByteSizeLong value).
Definition GroupSizeNoVirtual `{SerializedMessage M} (value : M) : Z := ByteSizeLong value.
Definition MessageSizeNoVirtual `{SerializedMessage M} (value : M) : Z :=
  LengthDelimitedSize (ByteSizeLong value).
