(* ===== verification/WireFormatLogic.v ===== *)
(** * The wire format: reference encodings, and what readers and writers do with them

    [encode t v] is the encoding of a value [v] of the field type [t].  The
    writers of [WireFormatLite] produce it, into a stream and into an array, the
    size functions give its length, and [ReadPrimitive] reads it back. *)
From Stdlib Require Import ZArith Lia Strings.Byte.
From stdpp Require Import base tactics option list list_numbers gmap.
From S2P Require Import Prelude Mem Bits Varint CodedStream CodedStreamLaws CodedStreamInv FlatStream RepeatedField WireFormat.

(** ** ZigZag *)

(** The transform as arithmetic: 0, -1, 1, -2, ... to 0, 1, 2, 3, ... *)
Definition zigzag (n : Z) : Z := if decide (0 <= n) then 2 * n else -2 * n - 1.
Definition unzigzag (n : Z) : Z := if decide (n mod 2 = 0) then n / 2 else - ((n + 1) / 2).

Lemma lxor_ones_low x w : 0 <= w -> 0 <= x < 2 ^ w -> Z.lxor x (2 ^ w - 1) = 2 ^ w - 1 - x.
Proof.
  intros Hw Hx. replace (2 ^ w - 1) with (Z.ones w) by (rewrite Z.ones_equiv; lia).
  assert (Hld : Z.ldiff x (Z.ones w) = 0).
  { rewrite Z.ldiff_ones_r, Z.shiftr_div_pow2, Z.div_small by lia. apply Z.shiftl_0_l. }
  rewrite Z.sub_nocarry_ldiff by done.
  apply Z.bits_inj'. intros i Hi. rewrite Z.lxor_spec, Z.ldiff_spec.
  assert (Hb : Z.testbit x i && negb (Z.testbit (Z.ones w) i) = false).
  { rewrite <- Z.ldiff_spec, Hld. apply Z.bits_0. }
  destruct (Z.testbit x i), (Z.testbit (Z.ones w) i); simpl in *; done.
Qed.

(** Both widths at once: [2 ^ (k + 1)] is the modulus. *)
Lemma zigzag_encode_bits k n : 0 < k -> - 2 ^ k <= n < 2 ^ k ->
  Z.lxor ((Z.shiftl (n mod 2 ^ (k + 1)) 1) mod 2 ^ (k + 1)) ((Z.shiftr n k) mod 2 ^ (k + 1)) = zigzag n.
Proof.
  intros Hk Hn. assert (0 < 2 ^ k) by (apply Z.pow_pos_nonneg; lia).
  assert (E : 2 ^ (k + 1) = 2 * 2 ^ k) by (rewrite Z.pow_add_r by lia; lia).
  rewrite Z.shiftl_mul_pow2, Z.shiftr_div_pow2 by lia. change (2 ^ 1) with 2.
  rewrite Z.mul_mod_idemp_l by lia. unfold zigzag. case_decide as H0.
  - rewrite (Z.div_small n) by lia. rewrite Z.mod_0_l, Z.lxor_0_r, Z.mod_small by lia. lia.
  - replace (n / 2 ^ k) with (-1) by (apply Z.div_unique with (n + 2 ^ k); lia).
    replace (-1 mod 2 ^ (k + 1)) with (2 ^ (k + 1) - 1) by (apply Z.mod_unique_pos with (-1); lia).
    replace ((n * 2) mod 2 ^ (k + 1)) with (2 * n + 2 ^ (k + 1)) by (apply Z.mod_unique_pos with (-1); lia).
    rewrite lxor_ones_low by lia. lia.
Qed.

Lemma ZigZagEncode32_zigzag n : int_range n -> ZigZagEncode32 n = zigzag n.
Proof. intros Hn. by apply (zigzag_encode_bits 31). Qed.

Lemma ZigZagEncode64_zigzag n : long_range n -> ZigZagEncode64 n = zigzag n.
Proof. intros Hn. by apply (zigzag_encode_bits 63). Qed.

Lemma zigzag_decode_bits k n : 0 < k -> 0 <= n < 2 ^ (k + 1) ->
  Z.lxor (Z.shiftr n 1) (((Z.lnot (Z.land n 1)) mod 2 ^ (k + 1) + 1) mod 2 ^ (k + 1))
  = unzigzag n mod 2 ^ (k + 1) /\ - 2 ^ k <= unzigzag n < 2 ^ k.
Proof.
  intros Hk Hn. assert (0 < 2 ^ k) by (apply Z.pow_pos_nonneg; lia).
  assert (E : 2 ^ (k + 1) = 2 * 2 ^ k) by (rewrite Z.pow_add_r by lia; lia).
  rewrite Z.shiftr_div_pow2 by lia. change (2 ^ 1) with 2.
  replace (Z.land n 1) with (n mod 2) by (symmetry; apply (Z.land_ones n 1); lia).
  unfold Z.lnot. rewrite Z.add_mod_idemp_l by lia. unfold unzigzag.
  pose proof (Z.div_mod n 2 ltac:(lia)) as Hdm. pose proof (Z.mod_pos_bound n 2 ltac:(lia)) as Hm.
  case_decide as H0.
  - rewrite H0. change (Z.pred (- 0) + 1) with 0. rewrite Z.mod_0_l, Z.lxor_0_r by lia.
    rewrite Z.mod_small by lia. lia.
  - assert (Hodd : n mod 2 = 1) by lia. rewrite Hodd. change (Z.pred (- (1)) + 1) with (-1).
    replace (-1 mod 2 ^ (k + 1)) with (2 ^ (k + 1) - 1) by (apply Z.mod_unique_pos with (-1); lia).
    rewrite lxor_ones_low by lia.
    assert (Hq : (n + 1) / 2 = n / 2 + 1) by (symmetry; apply Z.div_unique with 0; lia).
    rewrite Hq. split; [|lia]. apply Z.mod_unique_pos with (-1); lia.
Qed.

Lemma ZigZagDecode32_unzigzag n : uint_range n -> ZigZagDecode32 n = unzigzag n.
Proof.
  intros Hn. destruct (zigzag_decode_bits 31 n ltac:(lia) Hn) as [E Hr].
  change (i32 (Z.lxor (Z.shiftr n 1)
    (((Z.lnot (Z.land n 1)) mod 2 ^ (31 + 1) + 1) mod 2 ^ (31 + 1))) = unzigzag n).
  rewrite E. change (i32 (u32 (unzigzag n)) = unzigzag n).
  by rewrite i32_u32, i32_signed.
Qed.

Lemma ZigZagDecode64_unzigzag n : ulong_range n -> ZigZagDecode64 n = unzigzag n.
Proof.
  intros Hn. destruct (zigzag_decode_bits 63 n ltac:(lia) Hn) as [E Hr].
  change (i64 (Z.lxor (Z.shiftr n 1)
    (((Z.lnot (Z.land n 1)) mod 2 ^ (63 + 1) + 1) mod 2 ^ (63 + 1))) = unzigzag n).
  rewrite E. change (i64 (u64 (unzigzag n)) = unzigzag n).
  by rewrite i64_u64, i64_signed.
Qed.

Lemma unzigzag_zigzag n : unzigzag (zigzag n) = n.
Proof.
  unfold unzigzag, zigzag. destruct (decide (0 <= n)).
  - rewrite (Z.mul_comm 2), Z.mod_mul, Z.div_mul by lia. by rewrite decide_True.
  - replace ((-2 * n - 1) mod 2) with 1 by (apply Z.mod_unique with (- n - 1); lia).
    rewrite decide_False by lia. replace (-2 * n - 1 + 1) with (- n * 2) by lia.
    rewrite Z.div_mul by lia. lia.
Qed.

Lemma zigzag_unzigzag n : 0 <= n -> zigzag (unzigzag n) = n.
Proof.
  intros Hn. unfold unzigzag, zigzag. pose proof (Z.div_mod n 2 ltac:(lia)).
  pose proof (Z.mod_pos_bound n 2 ltac:(lia)).
  destruct (decide (n mod 2 = 0)).
  - rewrite decide_True by lia. lia.
  - assert ((n + 1) / 2 = n / 2 + 1) as E by (symmetry; apply Z.div_unique with 0; lia).
    rewrite decide_False by lia. lia.
Qed.

Lemma zigzag32_range n : int_range n -> uint_range (zigzag n).
Proof. unfold int_range, uint_range, zigzag. case_decide; lia. Qed.

Lemma zigzag64_range n : long_range n -> ulong_range (zigzag n).
Proof. unfold long_range, ulong_range, zigzag. case_decide; lia. Qed.

(** ** Tags *)

Lemma MakeTag_value f t : 0 <= f < 2 ^ 29 -> MakeTag f t = 8 * f + WireType_value t.
Proof.
  intros Hf. unfold MakeTag. rewrite (u32_small f) by lia.
  rewrite Z.shiftl_mul_pow2 by lia. change (2 ^ 3) with 8.
  rewrite (u32_small (f * 8)) by lia.
  assert (Ht : 0 <= WireType_value t < 8) by (destruct t; simpl; lia).
  assert (Hl : Z.land (f * 8) (WireType_value t) = 0).
  { replace (WireType_value t) with (WireType_value t mod 2 ^ 3) by (apply Z.mod_small; lia).
    rewrite <- Z.land_ones by lia. rewrite (Z.land_comm _ (Z.ones 3)), Z.land_assoc.
    rewrite Z.land_ones by lia. change (2 ^ 3) with 8. by rewrite Z.mod_mul, Z.land_0_l by lia. }
  rewrite <- Z.lxor_lor, <- Z.add_nocarry_lxor by done. rewrite u32_small by lia. lia.
Qed.

Lemma MakeTag_range f t : 0 <= MakeTag f t < 2 ^ 32.
Proof. apply u32_range. Qed.

Lemma GetTagFieldNumber_value tag : 0 <= tag < 2 ^ 32 -> GetTagFieldNumber tag = tag / 8.
Proof.
  intros Ht. unfold GetTagFieldNumber, kTagTypeBits. rewrite Z.shiftr_div_pow2 by lia.
  change (2 ^ 3) with 8. apply i32_small. split; [apply Z.div_pos; lia|apply Z.div_lt_upper_bound; lia].
Qed.

Lemma GetTagWireType_value tag : GetTagWireType tag = tag mod 8.
Proof.
  unfold GetTagWireType, kTagTypeMask, kTagTypeBits. change (Z.shiftl 1 3 - 1) with (Z.ones 3).
  by rewrite Z.land_ones.
Qed.

(** ** Values and their encodings *)

(** The C++ type's range; a [bool] is 0 or 1; the other types are not primitive. *)
Definition valid (t : FieldType) (v : Z) : Prop :=
  match t with
  | TYPE_INT32 | TYPE_ENUM | TYPE_SINT32 | TYPE_SFIXED32 => int_range v
  | TYPE_INT64 | TYPE_SINT64 | TYPE_SFIXED64 => long_range v
  | TYPE_UINT32 | TYPE_FIXED32 | TYPE_FLOAT => uint_range v
  | TYPE_UINT64 | TYPE_FIXED64 | TYPE_DOUBLE => ulong_range v
  | TYPE_BOOL => v = 0 \/ v = 1
  | TYPE_STRING | TYPE_GROUP | TYPE_MESSAGE | TYPE_BYTES => False
  end.

(** Negative numbers of the types [int32], [int64] and [enum] are encoded as
    64-bit two's complement, those of [sint32] and [sint64] by ZigZag. *)
Definition encode (t : FieldType) (v : Z) : list byte :=
  match t with
  | TYPE_INT32 | TYPE_INT64 | TYPE_ENUM => varint (u64 v)
  | TYPE_UINT32 | TYPE_UINT64 | TYPE_BOOL => varint v
  | TYPE_SINT32 | TYPE_SINT64 => varint (zigzag v)
  | TYPE_FIXED32 | TYPE_SFIXED32 | TYPE_FLOAT => le_split 4 v
  | TYPE_FIXED64 | TYPE_SFIXED64 | TYPE_DOUBLE => le_split 8 v
  | TYPE_STRING | TYPE_GROUP | TYPE_MESSAGE | TYPE_BYTES => []
  end.

(** The wire type of a field. *)
Definition wire_type (t : FieldType) : WireType :=
  match t with
  | TYPE_FIXED32 | TYPE_SFIXED32 | TYPE_FLOAT => WIRETYPE_FIXED32
  | TYPE_FIXED64 | TYPE_SFIXED64 | TYPE_DOUBLE => WIRETYPE_FIXED64
  | TYPE_STRING | TYPE_MESSAGE | TYPE_BYTES => WIRETYPE_LENGTH_DELIMITED
  | TYPE_GROUP => WIRETYPE_START_GROUP
  | _ => WIRETYPE_VARINT
  end.

Definition tagged (f : Z) (t : FieldType) (v : Z) : list byte :=
  varint (MakeTag f (wire_type t)) ++ encode t v.

Lemma int_long v : int_range v -> long_range v.
Proof. unfold int_range, long_range. lia. Qed.

Lemma u64_signed_u32 v : u32 (u64 v) = u32 v.
Proof. apply u32_u64. Qed.

Lemma encode_nonempty t v : valid t v -> encode t v <> [].
Proof.
  assert (forall x, varint x <> []) as Hv.
  { intros x E. pose proof (length_varint_pos x). rewrite E in H. simpl in H. lia. }
  destruct t; intros Hval; simpl in *; done || apply Hv.
Qed.

Lemma length_encode t v : valid t v -> (0 < length (encode t v) <= 10)%nat.
Proof.
  intros Hv. split.
  - pose proof (encode_nonempty t v Hv). destruct (encode t v); [done|simpl; lia].
  - destruct t; simpl in *; rewrite ?length_varint; done || lia || apply length_varint.
Qed.

(** ** Reading a value *)

Section reading.
  Context `{InputLaws}.

(** [ReadPrimitive] is one read of the stream and a conversion of its result. *)
Lemma read_then {A} (m : stm CodedInputStream (bool * Z)) (k : Z -> A) s x v tl :
  (exists s', m s = Done ((true, x), s') /\ after s tl s') -> k x = v ->
  exists s', ('(ok, temp) ← m; mret (if ok : bool then Some (k temp) else None)) s = Done (Some v, s') /\
    after s tl s'.
Proof. intros (s' & E & Ha) <-. exists s'. by rewrite stm_bind_eq, E. Qed.

Lemma ReadPrimitive_spec t v s tl :
  in_ok s -> valid t v -> remaining s = encode t v ++ tl ->
  exists s', ReadPrimitive t s = Done (Some v, s') /\ after s tl s'.
Proof.
  intros Hok Hv Hr. destruct t; simpl in Hv, Hr; try done; unfold ReadPrimitive.
  - eapply read_then; [eapply ReadLittleEndian64_spec; [exact Hok|exact Hr]|]. by apply u64_small.
  - eapply read_then; [eapply ReadLittleEndian32_spec; [exact Hok|exact Hr]|]. by apply u32_small.
  - eapply read_then; [eapply ReadVarint64_spec; [exact Hok|apply u64_range|exact Hr]|].
    by rewrite i64_u64, i64_signed.
  - eapply (read_then _ (fun x => x)); [eapply ReadVarint64_spec; [exact Hok|exact Hv|exact Hr]|done].
  - eapply read_then; [eapply ReadVarint32_spec; [exact Hok|apply u64_range|exact Hr]|].
    by rewrite i32_u32, <- i32_u32, u32_u64, i32_u32, i32_signed.
  - eapply (read_then _ (fun x => x)); [eapply ReadLittleEndian64_spec; [exact Hok|exact Hr]|]. by apply u64_small.
  - eapply (read_then _ (fun x => x)); [eapply ReadLittleEndian32_spec; [exact Hok|exact Hr]|]. by apply u32_small.
  - eapply (read_then _ (fun x => Z.b2z (bool_decide (x <> 0))));
      [eapply ReadVarint64_spec; [exact Hok| |exact Hr]; lia|].
    by destruct Hv as [-> | ->].
  - unfold uint_range in Hv.
    eapply (read_then _ (fun x => x)); [eapply ReadVarint32_spec; [exact Hok| |exact Hr]; lia|]. by apply u32_small.
  - eapply read_then; [eapply ReadVarint32_spec; [exact Hok|apply u64_range|exact Hr]|].
    by rewrite i32_u32, <- i32_u32, u32_u64, i32_u32, i32_signed.
  - eapply read_then; [eapply ReadLittleEndian32_spec; [exact Hok|exact Hr]|]. by rewrite i32_u32, i32_signed.
  - eapply read_then; [eapply ReadLittleEndian64_spec; [exact Hok|exact Hr]|]. by rewrite i64_u64, i64_signed.
  - pose proof (zigzag32_range v Hv) as Hz. unfold uint_range in Hz.
    eapply read_then; [eapply ReadVarint32_spec; [exact Hok| |exact Hr]; lia|].
    by rewrite u32_small, ZigZagDecode32_unzigzag, unzigzag_zigzag.
  - pose proof (zigzag64_range v Hv) as Hz.
    eapply read_then; [eapply ReadVarint64_spec; [exact Hok|exact Hz|exact Hr]|]. by rewrite ZigZagDecode64_unzigzag, unzigzag_zigzag.
Qed.

(** Nothing is read at the end of the input. *)
Lemma read_then_end {A} (m : stm CodedInputStream (bool * Z)) (k : Z -> A) s :
  (exists x s', m s = Done ((false, x), s')) ->
  exists s', ('(ok, temp) ← m; mret (if ok : bool then Some (k temp) else None)) s = Done (None, s').
Proof. intros (x & s' & E). exists s'. by rewrite stm_bind_eq, E. Qed.

Lemma ReadPrimitive_end t v s :
  in_ok s -> valid t v -> remaining s = [] -> exists s', ReadPrimitive t s = Done (None, s').
Proof.
  intros Hok Hv Hr. assert (Hl : length (remaining s) = O) by (by rewrite Hr).
  destruct t; try done; unfold ReadPrimitive;
    first [apply read_then_end | apply (read_then_end _ (fun x => x))];
    first [by apply ReadVarint32_end|by apply ReadVarint64_end
          |apply ReadLittleEndian32_end; [done|lia]|apply ReadLittleEndian64_end; [done|lia]].
Qed.
End reading.

(** A value of a fixed size, read from an array. *)
Lemma ReadPrimitiveFromArray_spec t v m p :
  is_fixed_size t = true -> valid t v -> at_pos m p (encode t v) ->
  ReadPrimitiveFromArray t m p = Done (p + Z.of_nat (length (encode t v)), v).
Proof.
  intros Hf Hv Ha. destruct t; try done; simpl in Hv, Ha; unfold ReadPrimitiveFromArray; cbn [encode];
    rewrite length_le_split;
    first [rewrite (ReadLittleEndian32FromArray_at _ _ v Ha)|rewrite (ReadLittleEndian64FromArray_at _ _ v Ha)];
    cbn [mbind cres_bind]; unfold DecodeFloat, DecodeDouble;
    first [by rewrite u64_small|by rewrite u32_small|by rewrite i32_u32, i32_signed|by rewrite i64_u64, i64_signed].
Qed.

Lemma length_encode_fixed t v : is_fixed_size t = true ->
  Z.of_nat (length (encode t v)) = sizeof_fixed t.
Proof. by destruct t. Qed.

(** ** Writing a value *)

(** The writer of each type, into a stream and into an array, and the size. *)
Definition WriteNoTag `{OutputFallbacks} (t : FieldType) (v : Z) : stm CodedOutputStream unit :=
  match t with
  | TYPE_INT32 => WriteInt32NoTag v | TYPE_INT64 => WriteInt64NoTag v
  | TYPE_UINT32 => WriteUInt32NoTag v | TYPE_UINT64 => WriteUInt64NoTag v
  | TYPE_SINT32 => WriteSInt32NoTag v | TYPE_SINT64 => WriteSInt64NoTag v
  | TYPE_FIXED32 => WriteFixed32NoTag v | TYPE_FIXED64 => WriteFixed64NoTag v
  | TYPE_SFIXED32 => WriteSFixed32NoTag v | TYPE_SFIXED64 => WriteSFixed64NoTag v
  | TYPE_FLOAT => WriteFloatNoTag v | TYPE_DOUBLE => WriteDoubleNoTag v
  | TYPE_BOOL => WriteBoolNoTag v | TYPE_ENUM => WriteEnumNoTag v
  | _ => mret tt
  end.

Definition WriteNoTagToArray (t : FieldType) (v : Z) : array_writer :=
  match t with
  | TYPE_INT32 => WriteInt32NoTagToArray v | TYPE_INT64 => WriteInt64NoTagToArray v
  | TYPE_UINT32 => WriteUInt32NoTagToArray v | TYPE_UINT64 => WriteUInt64NoTagToArray v
  | TYPE_SINT32 => WriteSInt32NoTagToArray v | TYPE_SINT64 => WriteSInt64NoTagToArray v
  | TYPE_FIXED32 => WriteFixed32NoTagToArray v | TYPE_FIXED64 => WriteFixed64NoTagToArray v
  | TYPE_SFIXED32 => WriteSFixed32NoTagToArray v | TYPE_SFIXED64 => WriteSFixed64NoTagToArray v
  | TYPE_FLOAT => WriteFloatNoTagToArray v | TYPE_DOUBLE => WriteDoubleNoTagToArray v
  | TYPE_BOOL => WriteBoolNoTagToArray v | TYPE_ENUM => WriteEnumNoTagToArray v
  | _ => fun m target => Done (m, target)
  end.

Definition WriteToArray (t : FieldType) (f v : Z) : array_writer :=
  match t with
  | TYPE_INT32 => WriteInt32ToArray f v | TYPE_INT64 => WriteInt64ToArray f v
  | TYPE_UINT32 => WriteUInt32ToArray f v | TYPE_UINT64 => WriteUInt64ToArray f v
  | TYPE_SINT32 => WriteSInt32ToArray f v | TYPE_SINT64 => WriteSInt64ToArray f v
  | TYPE_FIXED32 => WriteFixed32ToArray f v | TYPE_FIXED64 => WriteFixed64ToArray f v
  | TYPE_SFIXED32 => WriteSFixed32ToArray f v | TYPE_SFIXED64 => WriteSFixed64ToArray f v
  | TYPE_FLOAT => WriteFloatToArray f v | TYPE_DOUBLE => WriteDoubleToArray f v
  | TYPE_BOOL => WriteBoolToArray f v | TYPE_ENUM => WriteEnumToArray f v
  | _ => fun m target => Done (m, target)
  end.

Definition ValueSize (t : FieldType) (v : Z) : Z :=
  match t with
  | TYPE_INT32 => Int32Size v | TYPE_INT64 => Int64Size v
  | TYPE_UINT32 => UInt32Size v | TYPE_UINT64 => UInt64Size v
  | TYPE_SINT32 => SInt32Size v | TYPE_SINT64 => SInt64Size v
  | TYPE_FIXED32 => kFixed32Size | TYPE_FIXED64 => kFixed64Size
  | TYPE_SFIXED32 => kSFixed32Size | TYPE_SFIXED64 => kSFixed64Size
  | TYPE_FLOAT => kFloatSize | TYPE_DOUBLE => kDoubleSize
  | TYPE_BOOL => kBoolSize | TYPE_ENUM => EnumSize v
  | _ => 0
  end.

(** A signed number and its cast have the same bytes. *)
Lemma le_split_u32 v : le_split 4 (u32 v) = le_split 4 v.
Proof. apply le_split_mod. apply u32_u32. Qed.

Lemma le_split_u64 v : le_split 8 (u64 v) = le_split 8 v.
Proof. apply le_split_mod. change (u64 (u64 v) = u64 v). unfold u64. by rewrite Z.mod_mod. Qed.

Lemma writes_then w1 w2 bs1 bs2 : writes w1 bs1 -> writes w2 bs2 -> writes (then_ w1 w2) (bs1 ++ bs2).
Proof. apply writes_seq. Qed.

Lemma WriteNoTagToArray_writes t v : valid t v -> writes (WriteNoTagToArray t v) (encode t v).
Proof.
  intros Hv. destruct t; cbn [valid WriteNoTagToArray WriteNoTag ValueSize encode] in Hv |- *; try done.
  - apply WriteLittleEndian64ToArray_writes.
  - apply WriteLittleEndian32ToArray_writes.
  - apply WriteVarint64ToArray_writes, u64_range.
  - by apply WriteVarint64ToArray_writes.
  - apply WriteVarint32SignExtendedToArray_writes.
  - apply WriteLittleEndian64ToArray_writes.
  - apply WriteLittleEndian32ToArray_writes.
  - destruct Hv as [-> | ->]; by apply WriteVarint32ToArray_writes.
  - by apply WriteVarint32ToArray_writes.
  - apply WriteVarint32SignExtendedToArray_writes.
  - rewrite <- le_split_u32. apply WriteLittleEndian32ToArray_writes.
  - rewrite <- le_split_u64. apply WriteLittleEndian64ToArray_writes.
  - unfold WriteSInt32NoTagToArray. rewrite ZigZagEncode32_zigzag by done.
    by apply WriteVarint32ToArray_writes, zigzag32_range.
  - unfold WriteSInt64NoTagToArray. rewrite ZigZagEncode64_zigzag by done.
    by apply WriteVarint64ToArray_writes, zigzag64_range.
Qed.

Lemma WriteTagToArray_writes f t :
  writes (WireFormat_WriteTagToArray f t) (varint (MakeTag f t)).
Proof. apply WriteVarint32ToArray_writes, MakeTag_range. Qed.

Lemma WriteToArray_writes t f v : valid t v -> writes (WriteToArray t f v) (tagged f t v).
Proof.
  intros Hv. pose proof (WriteNoTagToArray_writes t v Hv) as Hw.
  destruct t; simpl in Hv; try done; apply writes_then; apply WriteTagToArray_writes || exact Hw.
Qed.

Lemma WriteNoTag_appends `{OutputLaws} t v : valid t v -> appends out_ok (WriteNoTag t v) (encode t v).
Proof.
  intros Hv. destruct t; cbn [valid WriteNoTagToArray WriteNoTag ValueSize encode] in Hv |- *; try done.
  - apply law_fixed64_out.
  - apply law_fixed32_out.
  - apply WriteVarint64_appends, u64_range.
  - by apply WriteVarint64_appends.
  - apply WriteVarint32SignExtended_appends.
  - apply law_fixed64_out.
  - apply law_fixed32_out.
  - destruct Hv as [-> | ->]; by apply WriteVarint32_appends.
  - by apply WriteVarint32_appends.
  - apply WriteVarint32SignExtended_appends.
  - rewrite <- le_split_u32. apply law_fixed32_out.
  - rewrite <- le_split_u64. apply law_fixed64_out.
  - unfold WriteSInt32NoTag. rewrite ZigZagEncode32_zigzag by done.
    by apply WriteVarint32_appends, zigzag32_range.
  - unfold WriteSInt64NoTag. rewrite ZigZagEncode64_zigzag by done.
    by apply WriteVarint64_appends, zigzag64_range.
Qed.

(** ** Sizes *)

Lemma ValueSize_length t v : valid t v -> ValueSize t v = Z.of_nat (length (encode t v)).
Proof.
  intros Hv. destruct t; cbn [valid WriteNoTagToArray WriteNoTag ValueSize encode] in Hv |- *; try done.
  - apply VarintSize64_length, u64_range.
  - by apply VarintSize64_length.
  - by apply VarintSize32SignExtended_length.
  - by destruct Hv as [-> | ->].
  - by apply VarintSize32_length.
  - by apply VarintSize32SignExtended_length.
  - unfold SInt32Size. rewrite ZigZagEncode32_zigzag by done. by apply VarintSize32_length, zigzag32_range.
  - unfold SInt64Size. rewrite ZigZagEncode64_zigzag by done. by apply VarintSize64_length, zigzag64_range.
Qed.

(** The size of a tag does not depend on the wire type in its low bits. *)
Lemma tag_size f w : 0 <= f < 2 ^ 29 ->
  VarintSize32 (u32 (Z.shiftl f kTagTypeBits)) = Z.of_nat (length (varint (MakeTag f w))).
Proof.
  intros Hf. unfold kTagTypeBits.
  rewrite Z.shiftl_mul_pow2 by lia. change (2 ^ 3) with 8. rewrite (u32_small (f * 8)) by lia.
  rewrite <- (VarintSize32_length (MakeTag f w)) by apply MakeTag_range.
  rewrite MakeTag_value by done. unfold VarintSize32.
  assert (Hw : 0 <= WireType_value w < 8) by (destruct w; simpl; lia).
  pose proof (lor_1_bound (f * 8) 32 ltac:(lia) ltac:(lia)) as H1.
  pose proof (lor_1_bound (8 * f + WireType_value w) 32 ltac:(lia) ltac:(lia)) as H2.
  rewrite !Log2FloorNonZero_log2 by lia.
  destruct (decide (f = 0)) as [->|Hf0]; [by destruct w|].
  enough (Z.log2 (Z.lor (f * 8) 1) = Z.log2 (Z.lor (8 * f + WireType_value w) 1)) as -> by done.
  rewrite !Z.log2_lor by lia. f_equal.
  assert (Hl : Z.log2 (8 * f + WireType_value w) = Z.log2 f + 3).
  { apply Z.log2_unique; [pose proof (Z.log2_nonneg f); lia|].
    pose proof (Z.log2_spec f ltac:(lia)) as [Ha Hb]. pose proof (Z.log2_nonneg f).
    rewrite Z.pow_succ_r, Z.pow_add_r by lia. rewrite Z.pow_succ_r in Hb by lia. change (2 ^ 3) with 8. lia. }
  rewrite Hl. replace (f * 8) with (f * 2 ^ 3) by lia. rewrite Z.log2_mul_pow2 by lia. lia.
Qed.

Lemma TagSize_length f t : 0 <= f < 2 ^ 29 -> t <> TYPE_GROUP ->
  TagSize f t = Z.of_nat (length (varint (MakeTag f (wire_type t)))).
Proof. intros Hf Ht. unfold TagSize. rewrite decide_False by done. by apply tag_size. Qed.

(** A group has two tags. *)
Lemma TagSize_group f : 0 <= f < 2 ^ 29 ->
  TagSize f TYPE_GROUP = Z.of_nat (length (varint (MakeTag f WIRETYPE_START_GROUP)))
                         + Z.of_nat (length (varint (MakeTag f WIRETYPE_END_GROUP))).
Proof.
  intros Hf. unfold TagSize. rewrite decide_True by done. rewrite (tag_size f WIRETYPE_START_GROUP) by done.
  rewrite <- (tag_size f WIRETYPE_END_GROUP), <- (tag_size f WIRETYPE_START_GROUP) by done. lia.
Qed.

(** ** Strings and messages *)

Lemma LengthDelimitedSize_length n : 0 <= n < 2 ^ 31 ->
  LengthDelimitedSize n = Z.of_nat (length (varint n)) + n.
Proof.
  intros Hn. unfold LengthDelimitedSize. rewrite u32_small, VarintSize32_length by lia.
  pose proof (length_varint n). rewrite u64_small by lia. lia.
Qed.

(** What a message class promises: its serialisers write [enc], of the size it has
    cached and computes. *)
Class MessageLaws {M} `{SerializedMessage M} `{OutputFallbacks, OutputView} (enc : M -> list byte) : Prop := {
  msg_stream m : Z.of_nat (length (enc m)) < 2 ^ 31 -> appends out_ok (SerializeWithCachedSizes m) (enc m);
  msg_array m : Z.of_nat (length (enc m)) < 2 ^ 31 ->
    writes (InternalSerializeWithCachedSizesToArray m) (enc m);
  msg_cached m : GetCachedSize m = Z.of_nat (length (enc m));
  msg_size m : ByteSizeLong m = Z.of_nat (length (enc m));
}.

(** The bytes of a length-delimited field and of a group. *)
Definition delimited (f : Z) (body : list byte) : list byte :=
  varint (MakeTag f WIRETYPE_LENGTH_DELIMITED) ++ varint (Z.of_nat (length body)) ++ body.
Definition grouped (f : Z) (body : list byte) : list byte :=
  varint (MakeTag f WIRETYPE_START_GROUP) ++ body ++ varint (MakeTag f WIRETYPE_END_GROUP).

Lemma length_delimited f body t : 0 <= f < 2 ^ 29 -> Z.of_nat (length body) < 2 ^ 31 ->
  wire_type t = WIRETYPE_LENGTH_DELIMITED ->
  Z.of_nat (length (delimited f body)) = TagSize f t + LengthDelimitedSize (Z.of_nat (length body)).
Proof.
  intros Hf Hl Ht. rewrite TagSize_length by (done || by intros ->). rewrite Ht.
  rewrite LengthDelimitedSize_length by lia. unfold delimited. rewrite !length_app. lia.
Qed.

Section messages.
  Context `{MessageLaws M enc}.

Lemma WriteMessageToArray_writes f m : Z.of_nat (length (enc m)) < 2 ^ 31 ->
  writes (WriteMessageToArray f m) (delimited f (enc m)).
Proof.
  intros Hl. apply writes_then; [apply WriteTagToArray_writes|].
  rewrite <- (u32_small (Z.of_nat (length (enc m)))) by lia. rewrite <- msg_cached.
  apply writes_then; [apply WriteVarint32ToArray_writes, u32_range|by apply msg_array].
Qed.

Lemma WriteGroupToArray_writes f m : Z.of_nat (length (enc m)) < 2 ^ 31 ->
  writes (WriteGroupToArray f m) (grouped f (enc m)).
Proof.
  intros Hl. apply writes_then; [apply WriteTagToArray_writes|].
  apply writes_then; [by apply msg_array|apply WriteTagToArray_writes].
Qed.
End messages.

(** ** Groups and messages

    [ReadGroup] and [ReadMessage] call the parser of a message class on the stream
    below them.  They take one level from the recursion budget, refuse to go below
    its end, give the level back, and a message is parsed within its length. *)

Section nested.
  Context `{InputLaws}.
  Context {N : NestingLaws}.
  Context {M : Type} (MergePartialFromCodedStream : stm (CodedInputStream * M) bool).
  Implicit Types (i : CodedInputStream) (msg : M).

Lemma on_stream_eq {A} (m : stm CodedInputStream A) i i' msg x :
  m i = Done (x, i') -> on_stream m (i, msg) = Done (x, (i', msg)).
Proof. intros E. unfold on_stream. cbn [fst snd]. by rewrite E. Qed.

(** The stream that a group's parser gets, and the one after it. *)
Definition entered i : CodedInputStream := set_recursion (recursion_budget_ i - 1) (recursion_limit_ i) i.
Definition left_ i : CodedInputStream := set_recursion (recursion_budget_ i + 1) (recursion_limit_ i) i.

Lemma ReadGroup_refused f i msg : int_range (recursion_budget_ i - 1) -> recursion_budget_ i <= 0 ->
  ReadGroup MergePartialFromCodedStream f (i, msg) = Done (false, (entered i, msg)).
Proof.
  intros Hr Hb. unfold ReadGroup.
  rewrite stm_bind_eq, (on_stream_eq _ _ _ _ _ (IncrementRecursionDepth_eq i Hr)).
  by rewrite bool_decide_false by lia.
Qed.

Lemma ReadGroup_parsed f i msg i2 msg2 :
  int_range (recursion_budget_ i - 1) -> 0 < recursion_budget_ i <= recursion_limit_ i ->
  MergePartialFromCodedStream (entered i, msg) = Done (true, (i2, msg2)) ->
  recursion_budget_ i2 = recursion_budget_ i - 1 -> recursion_limit_ i2 = recursion_limit_ i ->
  ReadGroup MergePartialFromCodedStream f (i, msg)
  = Done (bool_decide (last_tag_ i2 = MakeTag f WIRETYPE_END_GROUP), (left_ i2, msg2)).
Proof.
  intros Hr Hb Hm Hb2 Hl2. unfold ReadGroup.
  rewrite stm_bind_eq, (on_stream_eq _ _ _ _ _ (IncrementRecursionDepth_eq i Hr)).
  rewrite bool_decide_true by lia. cbn [negb]. fold (entered i).
  rewrite stm_bind_eq, Hm. cbn [negb].
  rewrite stm_bind_eq, (on_stream_eq _ _ _ _ _ (UnsafeDecrementRecursionDepth_eq i2 ltac:(lia))).
  done.
Qed.

(** The stream that a message's parser gets. *)
Lemma ReadMessage_spec i msg body tl :
  in_ok i -> remaining i = varint (Z.of_nat (length body)) ++ body ++ tl ->
  Z.of_nat (length body) < 2 ^ 31 -> int_range (recursion_budget_ i - 1) ->
  exists i1, in_ok i1 /\ remaining i1 = body /\ recursion_budget_ i1 = recursion_budget_ i - 1 /\
    recursion_limit_ i1 = recursion_limit_ i /\
    (recursion_budget_ i <= 0 ->
     ReadMessage MergePartialFromCodedStream (i, msg) = Done (false, (i1, msg))) /\
    (forall i2 msg2, 0 < recursion_budget_ i <= recursion_limit_ i ->
     MergePartialFromCodedStream (i1, msg) = Done (true, (i2, msg2)) -> after i1 [] i2 ->
     exists i3, ReadMessage MergePartialFromCodedStream (i, msg)
         = Done (legitimate_message_end_ i2, (i3, msg2)) /\
       in_ok i3 /\ remaining i3 = tl /\ recursion_budget_ i3 = recursion_budget_ i).
Proof.
  intros Hok Hr Hlen Hb.
  destruct (ReadVarintSizeAsInt_spec i _ _ Hok (conj (Zle_0_nat _) Hlen) Hr)
    as (j & E1 & (Hokj & Hrj & _ & Hbj & Hlj)).
  destruct (law_push j _ _ Hokj Hrj Hlen) as (old & k & E2 & Hokk & Hrk & Hpk & Hbk & Hlk).
  assert (Hbk' : int_range (recursion_budget_ k - 1)) by congruence.
  destruct (nest_recursion k (recursion_budget_ k - 1) (recursion_limit_ k) Hokk) as (Hok1 & Hr1 & Hp1). fold (entered k) in *.
  assert (Henter : IncrementRecursionDepthAndPushLimit (Z.of_nat (length body)) j
    = Done ((old, recursion_budget_ i - 1), entered k)).
  { rewrite law_enter, stm_bind_eq, E2, stm_bind_eq, (IncrementRecursionDepth_eq k Hbk').
    rewrite stm_bind_eq. cbn. unfold entered. by rewrite Hbk, Hbj. }
  exists (entered k). split_and!; [done|congruence|by cbn; congruence|by cbn; congruence| |].
  - intros Hb0. unfold ReadMessage. rewrite stm_bind_eq, (on_stream_eq _ _ _ _ _ E1). cbn [negb].
    rewrite stm_bind_eq, (on_stream_eq _ _ _ _ _ Henter). by rewrite decide_True by (cbn [snd]; lia).
  - intros i2 msg2 Hb0 Hm (Hok2 & Hr2 & Hp2 & Hb2 & Hl2).
    destruct (law_pop i2 old tl Hok2 (Hp2 _ _ (Hp1 _ _ Hpk))) as (i3 & E3 & Hok3 & Hr3 & Hb3 & Hl3).
    cbn in Hb2, Hl2. rewrite Hr2 in Hr3. cbn [app] in Hr3.
    destruct (nest_recursion i3 (recursion_budget_ i3 + 1) (recursion_limit_ i3) Hok3) as (Hok4 & Hr4 & _). fold (left_ i3) in *.
    exists (left_ i3). split_and!; [|done|congruence|cbn; lia].
    unfold ReadMessage. rewrite stm_bind_eq, (on_stream_eq _ _ _ _ _ E1). cbn [negb].
    rewrite stm_bind_eq, (on_stream_eq _ _ _ _ _ Henter). rewrite decide_False by (cbn [snd]; lia).
    cbn [fst]. rewrite stm_bind_eq, Hm. cbn [negb]. apply on_stream_eq.
    rewrite law_leave, stm_bind_eq. cbn [ConsumedEntireMessage st_gets].
    rewrite stm_bind_eq, E3, stm_bind_eq, UnsafeDecrementRecursionDepth_eq by lia. done.
Qed.
End nested.
