(* ===== verification/WireFormatRepeated.v ===== *)
(** * The wire format: repeated fields

    The writers of repeated fields produce the concatenation of the encodings of
    the elements; the packed and unpacked readers append the elements to the
    [RepeatedField] they are given and leave the stream behind them, on all of
    their paths (bulk copies, direct reads from the buffer, element by element).  *)
From Stdlib Require Import ZArith Lia Strings.Byte.
From stdpp Require Import base tactics option list list_numbers gmap.
From S2P Require Import Prelude Mem Bits Varint CodedStream CodedStreamLaws.
From S2P Require Import RepeatedField RepeatedFieldLogic WireFormat WireFormatLogic.

(** ** Writers *)

Definition encodes (t : FieldType) (vs : list Z) : list byte := concat (encode t <$> vs).
Definition tags (f : Z) (t : FieldType) (vs : list Z) : list byte := concat (tagged f t <$> vs).

Lemma encodes_cons t v vs : encodes t (v :: vs) = encode t v ++ encodes t vs.
Proof. done. Qed.

Lemma tags_cons f t v vs : tags f t (v :: vs) = tagged f t v ++ tags f t vs.
Proof. done. Qed.

Lemma length_encodes t vs : Forall (valid t) vs -> (length vs <= length (encodes t vs))%nat.
Proof.
  induction 1 as [|v vs Hv _ IH]; [done|]. rewrite encodes_cons, length_app. cbn [length].
  pose proof (length_encode t v Hv). lia.
Qed.

Lemma length_encodes_fixed t vs : is_fixed_size t = true ->
  Z.of_nat (length (encodes t vs)) = Z.of_nat (length vs) * sizeof_fixed t.
Proof.
  intros Hf. induction vs as [|v vs IH]; [done|]. rewrite encodes_cons, length_app. cbn [length].
  pose proof (length_encode_fixed t v Hf). lia.
Qed.

Lemma sizeof_fixed_cases t : sizeof_fixed t = 4 \/ sizeof_fixed t = 8.
Proof. destruct t; simpl; auto. Qed.

Lemma write_elements_writes (W : Z -> array_writer) (enc : Z -> list byte) vs :
  Forall (fun v => writes (W v) (enc v)) vs -> writes (write_elements W vs) (concat (enc <$> vs)).
Proof.
  induction 1 as [|v vs Hv _ IH]; [apply writes_nil|]. exact (writes_seq _ _ _ _ Hv IH).
Qed.

Lemma WritePrimitiveNoTagToArray_writes W enc vs :
  vs <> [] -> Forall (fun v => writes (W v) (enc v)) vs ->
  writes (WritePrimitiveNoTagToArray vs W) (concat (enc <$> vs)).
Proof.
  intros Hne Hf m t Ht Hm. unfold WritePrimitiveNoTagToArray.
  rewrite (dcheck_ok (0 < Z.of_nat (length vs))) by (destruct vs; [done|simpl; lia]).
  cbn [mbind cres_bind]. by apply (write_elements_writes W enc).
Qed.

Lemma WriteFixedNoTagToArray_writes w vs :
  vs <> [] -> writes (WriteFixedNoTagToArray w vs) (concat (le_split w <$> vs)).
Proof.
  intros Hne m t Ht Hm. unfold WriteFixedNoTagToArray.
  rewrite (dcheck_ok (0 < Z.of_nat (length vs))) by (destruct vs; [done|simpl; lia]).
  cbn [mbind cres_bind]. rewrite buf_write_ok by lia. cbn [mbind cres_bind].
  assert (E : Z.of_nat (length vs) * Z.of_nat w = Z.of_nat (length (concat (le_split w <$> vs)))); [|by rewrite E].
  clear. induction vs as [|v vs IH]; [done|].
  cbn [fmap list_fmap concat length]. rewrite length_app, length_le_split. lia.
Qed.

Lemma WritePrimitiveToArray_writes f W (enc : Z -> list byte) vs :
  Forall (fun v => writes (W f v) (enc v)) vs -> writes (WritePrimitiveToArray f vs W) (concat (enc <$> vs)).
Proof.
  intros Hf m t Ht Hm. unfold WritePrimitiveToArray. case_decide as Hl.
  - assert (vs = []) as -> by (destruct vs; [done|simpl in Hl; lia]). by apply writes_nil.
  - by apply (write_elements_writes (W f) enc).
Qed.

(** The overloads for a whole field. *)
Definition WriteNoTagToArray_repeated (t : FieldType) (vs : list Z) : array_writer :=
  match t with
  | TYPE_INT32 => WriteInt32NoTagToArray_repeated vs | TYPE_INT64 => WriteInt64NoTagToArray_repeated vs
  | TYPE_UINT32 => WriteUInt32NoTagToArray_repeated vs | TYPE_UINT64 => WriteUInt64NoTagToArray_repeated vs
  | TYPE_SINT32 => WriteSInt32NoTagToArray_repeated vs | TYPE_SINT64 => WriteSInt64NoTagToArray_repeated vs
  | TYPE_FIXED32 => WriteFixed32NoTagToArray_repeated vs | TYPE_FIXED64 => WriteFixed64NoTagToArray_repeated vs
  | TYPE_SFIXED32 => WriteSFixed32NoTagToArray_repeated vs
  | TYPE_SFIXED64 => WriteSFixed64NoTagToArray_repeated vs
  | TYPE_FLOAT => WriteFloatNoTagToArray_repeated vs | TYPE_DOUBLE => WriteDoubleNoTagToArray_repeated vs
  | TYPE_BOOL => WriteBoolNoTagToArray_repeated vs | TYPE_ENUM => WriteEnumNoTagToArray_repeated vs
  | _ => fun m target => Done (m, target)
  end.

Definition WriteToArray_repeated (t : FieldType) (f : Z) (vs : list Z) : array_writer :=
  match t with
  | TYPE_INT32 => WriteInt32ToArray_repeated f vs | TYPE_INT64 => WriteInt64ToArray_repeated f vs
  | TYPE_UINT32 => WriteUInt32ToArray_repeated f vs | TYPE_UINT64 => WriteUInt64ToArray_repeated f vs
  | TYPE_SINT32 => WriteSInt32ToArray_repeated f vs | TYPE_SINT64 => WriteSInt64ToArray_repeated f vs
  | TYPE_FIXED32 => WriteFixed32ToArray_repeated f vs | TYPE_FIXED64 => WriteFixed64ToArray_repeated f vs
  | TYPE_SFIXED32 => WriteSFixed32ToArray_repeated f vs
  | TYPE_SFIXED64 => WriteSFixed64ToArray_repeated f vs
  | TYPE_FLOAT => WriteFloatToArray_repeated f vs | TYPE_DOUBLE => WriteDoubleToArray_repeated f vs
  | TYPE_BOOL => WriteBoolToArray_repeated f vs | TYPE_ENUM => WriteEnumToArray_repeated f vs
  | _ => fun m target => Done (m, target)
  end.

Lemma WriteNoTagToArray_repeated_writes t vs :
  vs <> [] -> Forall (valid t) vs -> writes (WriteNoTagToArray_repeated t vs) (encodes t vs).
Proof.
  intros Hne Hv.
  assert (Hf : Forall (fun v => writes (WriteNoTagToArray t v) (encode t v)) vs).
  { eapply Forall_impl; [exact Hv|]. apply WriteNoTagToArray_writes. }
  assert (Hx : exists v, valid t v) by (destruct Hv; [done|eauto]). destruct Hx as [v Hvv].
  destruct t; try done;
    first [by apply (WriteFixedNoTagToArray_writes 4)|by apply (WriteFixedNoTagToArray_writes 8)
          |by apply (WritePrimitiveNoTagToArray_writes _ _ _ Hne Hf)].
Qed.

Lemma WriteToArray_repeated_writes t f vs :
  Forall (valid t) vs -> writes (WriteToArray_repeated t f vs) (tags f t vs).
Proof.
  intros Hv. destruct (decide (vs = [])) as [->|Hne].
  { destruct t; try apply writes_nil; apply (WritePrimitiveToArray_writes f _ (fun _ => [])); constructor. }
  assert (Hf : Forall (fun v => writes (WriteToArray t f v) (tagged f t v)) vs).
  { eapply Forall_impl; [exact Hv|]. intros v. apply WriteToArray_writes. }
  assert (Hx : exists v, valid t v) by (destruct Hv; [done|eauto]). destruct Hx as [v Hvv].
  destruct t; try done; by apply (WritePrimitiveToArray_writes _ _ _ _ Hf).
Qed.

(** ** The heap of a field that is being filled *)

Section fill.
  Context `{ElementType Z}.

(** The field at [values] holds [l] and has room to grow. *)
Definition heap_ok (h : store Z) (values : Z) (a : option Z) (l : list Z) : Prop :=
  store_ok h /\ exists cap, cap < 2 ^ 30 /\ holds h values a l cap.

(** [h'] is [h] with [l] in the field. *)
Definition fills (h h' : store Z) (values : Z) (a : option Z) (l : list Z) : Prop :=
  heap_ok h' values a l /\ keeps_others h h' values.

Lemma fills_refl h values a l : heap_ok h values a l -> fills h h values a l.
Proof. intros Hh. split; [done|apply keeps_others_refl]. Qed.

Lemma fills_trans h1 h2 h3 values a l1 l2 :
  fills h1 h2 values a l1 -> fills h2 h3 values a l2 -> fills h1 h3 values a l2.
Proof. intros [_ K1] [H2 K2]. split; [done|by eapply keeps_others_trans]. Qed.

Lemma grow_small cap n : cap < 2 ^ 30 -> (n <= cap \/ cap < n < 2 ^ 29) -> grow cap n < 2 ^ 30.
Proof. intros Hc Hn. unfold grow, kMinRepeatedFieldAllocationSize. case_decide; lia. Qed.

Lemma acts_fills {A} (m : stm (store Z) A) h values x a l cap :
  acts m h values x a l cap -> cap < 2 ^ 30 -> exists h', m h = Done (x, h') /\ fills h h' values a l.
Proof. intros (h' & Hm & Hs & Hh & Ho) Hc. exists h'. split; [done|]. split; [|done]. split; eauto. Qed.

Lemma holds_length h values a l cap : @holds Z h values a l cap -> Z.of_nat (length l) <= cap.
Proof. intros (f & _ & (Hc & _ & Hl & _) & <-). lia. Qed.

Lemma Add_fills h values a l v :
  heap_ok h values a l -> Z.of_nat (length l) + 1 < 2 ^ 29 ->
  exists h', Add values (Val v) h = Done (tt, h') /\ fills h h' values a (l ++ [v]).
Proof.
  intros [Hs (cap & Hc & Hh)] Hl. eapply acts_fills; [by apply Add_acts|].
  pose proof (holds_length _ _ _ _ _ Hh). apply grow_small; [done|lia].
Qed.

(** [store_element]s in a row. *)
Lemma store_all_eq (s : store Z) r a els vs i :
  reps s !! r = Some (MkRep a els) -> (i + length vs <= length els)%nat ->
  forall j, 0 <= j <= Z.of_nat i ->
  foldr (fun '(k, v) rest => store_element (EPtr r (0 + j + k)) v ;; rest) (mret tt)
    (zip (seqZ (Z.of_nat i - j) (Z.of_nat (length vs))) vs) s
  = Done (tt, Store (<[r := MkRep a (splice i vs els)]> (reps s)) (fields s)).
Proof.
  revert s els i. induction vs as [|v vs IH]; intros s els i Hr Hk j Hj.
  - cbn [length Z.of_nat]. simpl. rewrite splice_nil, insert_id by done. by destruct s.
  - rewrite seqZ_cons by (cbn [length]; lia). cbn [zip zip_with foldr]. rewrite stm_bind_eq.
    rewrite (store_element_eq _ _ _ a els) by (simpl in Hk; done || lia).
    replace (Z.succ (Z.of_nat i - j)) with (Z.of_nat (S i) - j) by lia.
    replace (Z.pred (Z.of_nat (length (v :: vs)))) with (Z.of_nat (length vs)) by (cbn [length]; lia).
    replace (Z.to_nat (0 + j + (Z.of_nat i - j))) with i by lia.
    rewrite (IH _ (<[i := v]> els)); [|cbn [reps]; by rewrite lookup_insert_eq|rewrite length_insert; simpl in Hk; lia|lia].
    cbn [reps fields]. rewrite insert_insert_eq, insert_splice by (simpl in Hk; lia).
    by rewrite <- splice_cons by (simpl in Hk |- *; lia).
Qed.

(** The bytes of a bulk read become the last elements. *)
Lemma store_image_acts (s : store Z) this a l zs vs cap :
  store_ok s -> holds s this a (l ++ zs) cap -> length zs = length vs ->
  acts (store_image this (Z.of_nat (length l)) vs) s this tt a (l ++ vs) cap.
Proof.
  intros Hs Hh Hl. destruct (decide (0 < cap)) as [Hpos|Hz].
  - destruct (holds_array s this a _ cap Hs Hh Hpos)
      as (f & r & els & Hf & Hrep & Hcap & Hcs & Hp & Hr & Hlen & Htk & Hun & Hle & Hmax).
    rewrite length_app in *. rewrite <- Hcap.
    eapply (acts_set_array _ _ _ _ _ _ _ r (splice (length l) vs els));
      [done|done|exact Hrep|done|rewrite length_splice; lia|lia| | |].
    + unfold store_image, mutable_data. rewrite stm_bind_eq, stm_bind_eq, (field_eq _ _ f) by done.
      rewrite decide_True by lia. rewrite stm_bind_eq, (elements_eq _ _ r) by (done || lia).
      cbn [mret stm_ret]. cbn [ep_rep ep_index].
      pose proof (store_all_eq s r a els vs (length l) Hr ltac:(lia) (Z.of_nat (length l)) ltac:(lia)) as E.
      by rewrite Z.sub_diag in E.
    + rewrite length_app. lia.
    + rewrite length_app, take_splice_app by lia. f_equal.
      transitivity (take (length l) (take (length l + length zs) els)).
      * rewrite take_take. f_equal. lia.
      * by rewrite Htk, take_app_length.
  - pose proof (holds_length _ _ _ _ _ Hh) as Hle. rewrite length_app in Hle.
    destruct l; [|simpl in Hle; lia]. destruct zs; [|simpl in Hle; lia]. destruct vs; [|done].
    unfold store_image. destruct Hh as (f & Hf & Hrep & Hcap).
    eapply acts_read.
    { unfold mutable_data. rewrite stm_bind_eq, (field_eq _ _ f) by done. by rewrite decide_False by lia. }
    simpl. apply acts_ret; [done|]. by exists f.
Qed.
End fill.

(** The memory image of fixed-size elements is their encoding. *)
Lemma elements_of_image_encodes t vs : is_fixed_size t = true -> Forall (valid t) vs ->
  elements_of_image (length vs) t (encodes t vs) = vs.
Proof.
  intros Hf. induction 1 as [|v vs Hv _ IH]; [done|]. cbn [length elements_of_image].
  rewrite encodes_cons. pose proof (length_encode_fixed t v Hf) as Hl.
  rewrite <- Hl, Nat2Z.id, take_app_length, drop_app_length, IH. f_equal.
  destruct t; try done; cbn [valid encode element_of_image] in *;
    rewrite ?le_combine_split_u32, ?le_combine_split_u64;
    first [by rewrite i32_u32, i32_signed|by rewrite i64_u64, i64_signed|by apply u32_small|by apply u64_small].
Qed.

(** ** Packed fields *)

Section packed.
  Context `{InputLaws, ElementType Z}.
  Implicit Types (i : CodedInputStream) (h : store Z).

Lemma after_refl i : in_ok i -> after i (remaining i) i.
Proof. intros Hok. split_and!; done || auto. Qed.

Lemma after_trans i1 i2 i3 tl2 tl3 : after i1 tl2 i2 -> after i2 tl3 i3 -> after i1 tl3 i3.
Proof.
  intros (Hok2 & _ & Hp2 & Hb2 & Hl2) (Hok3 & Hr3 & Hp3 & Hb3 & Hl3).
  split_and!; try done; [auto|congruence|congruence].
Qed.

(** A call on one half of the state. *)
Lemma on_input_eq {A} (m : stm CodedInputStream A) i i' (h : store Z) x :
  m i = Done (x, i') -> on_input m (i, h) = Done (x, (i', h)).
Proof. intros E. unfold on_input. cbn [fst snd]. by rewrite E. Qed.

Lemma on_heap_eq {A} (m : stm (store Z) A) i h h' x :
  m h = Done (x, h') -> on_heap m (i, h) = Done (x, (i, h')).
Proof. intros E. unfold on_heap. cbn [fst snd]. by rewrite E. Qed.

(** One element: a read from the stream and an [Add]. *)
Lemma read_add t v i tl h values a l :
  in_ok i -> valid t v -> remaining i = encode t v ++ tl ->
  heap_ok h values a l -> Z.of_nat (length l) + 1 < 2 ^ 29 ->
  exists i' h', ReadPrimitive t i = Done (Some v, i') /\ Add values (Val v) h = Done (tt, h') /\
    after i tl i' /\ fills h h' values a (l ++ [v]).
Proof.
  intros Hok Hv Hr Hh Hl.
  destruct (ReadPrimitive_spec t v i tl Hok Hv Hr) as (i' & E & Ha).
  destruct (Add_fills h values a l v Hh Hl) as (h' & Eh & Hf). eauto 10.
Qed.

(** The element-by-element loops.  [fuel] rounds are enough for [fuel] bytes. *)
Lemma ReadPacked_loop_spec t vs : forall fuel i h values a l old tl,
  in_ok i -> Forall (valid t) vs -> remaining i = encodes t vs -> pushed old tl i ->
  (length vs <= fuel)%nat -> heap_ok h values a l ->
  Z.of_nat (length l) + Z.of_nat (length vs) < 2 ^ 29 ->
  exists i' h', ReadPacked_loop fuel t values (i, h) = Done (true, (i', h')) /\
    after i [] i' /\ fills h h' values a (l ++ vs).
Proof.
  induction vs as [|v vs IH]; intros fuel i h values a l old tl Hok Hv Hr Hp Hfuel Hh Hl.
  - exists i, h. split.
    + destruct fuel; cbn [ReadPacked_loop]; rewrite stm_bind_eq; cbn [st_gets fst];
        by rewrite (law_until i old tl Hok Hp), Hr, decide_False.
    + rewrite app_nil_r. split; [|by apply fills_refl].
      change (@nil byte) with (encodes t []). rewrite <- Hr. by apply after_refl.
  - apply Forall_cons in Hv as [Hv Hvs]. rewrite encodes_cons in Hr. cbn [length] in *.
    destruct fuel as [|fuel]; [lia|].
    destruct (read_add t v i _ h values a l Hok Hv Hr Hh ltac:(lia)) as (i1 & h1 & E1 & E2 & Ha & Hf).
    pose proof Ha as (Hok1 & Hr1 & Hp1 & _).
    destruct (IH fuel i1 h1 values a (l ++ [v]) old tl) as (i2 & h2 & E & Ha2 & Hf2);
      [done|done|done|auto|lia|by destruct Hf|rewrite length_app; cbn [length]; lia|].
    exists i2, h2. split_and!.
    + cbn [ReadPacked_loop]. rewrite stm_bind_eq. cbn [st_gets fst].
      rewrite (law_until i old tl Hok Hp), decide_True.
      2:{ rewrite Hr, length_app. pose proof (length_encode t v Hv). lia. }
      rewrite stm_bind_eq, (on_input_eq _ _ _ _ _ E1).
      by rewrite stm_bind_eq, (on_heap_eq _ _ _ _ _ E2).
    + by eapply after_trans.
    + rewrite <- app_assoc in Hf2. by eapply fills_trans.
Qed.

Lemma ReadPackedFixed_loop_spec t vs : forall i h values a l tl,
  in_ok i -> Forall (valid t) vs -> remaining i = encodes t vs ++ tl -> heap_ok h values a l ->
  Z.of_nat (length l) + Z.of_nat (length vs) < 2 ^ 29 ->
  exists i' h', ReadPackedFixed_loop (length vs) t values (i, h) = Done (true, (i', h')) /\
    after i tl i' /\ fills h h' values a (l ++ vs).
Proof.
  induction vs as [|v vs IH]; intros i h values a l tl Hok Hv Hr Hh Hl.
  - exists i, h. rewrite app_nil_r. split_and!; [done| |by apply fills_refl].
    change tl with (encodes t [] ++ tl). rewrite <- Hr. by apply after_refl.
  - apply Forall_cons in Hv as [Hv Hvs]. rewrite encodes_cons, <- app_assoc in Hr. cbn [length] in *.
    destruct (read_add t v i _ h values a l Hok Hv Hr Hh ltac:(lia)) as (i1 & h1 & E1 & E2 & Ha & Hf).
    pose proof Ha as (Hok1 & Hr1 & _).
    destruct (IH i1 h1 values a (l ++ [v]) tl) as (i2 & h2 & E & Ha2 & Hf2);
      [done|done|done|by destruct Hf|rewrite length_app; cbn [length]; lia|].
    exists i2, h2. split_and!.
    + cbn [ReadPackedFixed_loop]. rewrite stm_bind_eq, (on_input_eq _ _ _ _ _ E1).
      by rewrite stm_bind_eq, (on_heap_eq _ _ _ _ _ E2).
    + by eapply after_trans.
    + rewrite <- app_assoc in Hf2. by eapply fills_trans.
Qed.

(** The bulk path of the fixed-size types. *)
Lemma bulk_fills t vs h values a l :
  heap_ok h values a l -> Z.of_nat (length l) + Z.of_nat (length vs) < 2 ^ 29 ->
  exists h1 h', Resize values (Z.of_nat (length l) + Z.of_nat (length vs)) (Val 0) h = Done (tt, h1) /\
    (is_fixed_size t = true -> Forall (valid t) vs ->
     store_image values (Z.of_nat (length l)) (elements_of_image (length vs) t (encodes t vs)) h1
     = Done (tt, h')) /\ fills h h' values a (l ++ vs).
Proof.
  intros [Hs (cap & Hc & Hh)] Hl. set (n := Z.of_nat (length l) + Z.of_nat (length vs)) in *.
  destruct (Resize_acts h values a l cap n 0 Hs Hh Hc ltac:(lia)) as (h1 & E1 & Hs1 & Hh1 & Ho1).
  set (cap' := if decide _ then _ else _) in Hh1.
  assert (Hc' : cap' < 2 ^ 30).
  { subst cap'. case_decide; [|done]. apply grow_small; [done|lia]. }
  rewrite take_ge in Hh1 by lia.
  replace (Z.to_nat n - length l)%nat with (length vs) in Hh1 by lia.
  destruct (store_image_acts h1 values a l (replicate (length vs) 0) vs cap' Hs1 Hh1)
    as (h2 & E2 & Hs2 & Hh2 & Ho2); [by rewrite length_replicate|].
  exists h1, h2. split_and!; [done| |].
  - intros Hf Hv. by rewrite elements_of_image_encodes.
  - split; [split; eauto|]. by eapply keeps_others_trans.
Qed.

(** Both variants: from a length and that many bytes of elements, all elements
    are appended and the stream is behind them. *)
Lemma ReadPackedPrimitive_spec t vs i h values a l tl :
  in_ok i -> is_fixed_size t = false -> Forall (valid t) vs ->
  Z.of_nat (length (encodes t vs)) < 2 ^ 31 ->
  remaining i = varint (Z.of_nat (length (encodes t vs))) ++ encodes t vs ++ tl ->
  heap_ok h values a l -> Z.of_nat (length l) + Z.of_nat (length vs) < 2 ^ 29 ->
  exists i' h', ReadPackedPrimitive_generic t values (i, h) = Done (true, (i', h')) /\
    in_ok i' /\ remaining i' = tl /\ recursion_budget_ i' = recursion_budget_ i /\
    fills h h' values a (l ++ vs).
Proof.
  intros Hok _ Hv Hlen Hr Hh Hl. unfold ReadPackedPrimitive_generic.
  destruct (ReadVarintSizeAsInt_spec i _ _ Hok (conj (Zle_0_nat _) Hlen) Hr)
    as (i1 & E1 & (Hok1 & Hr1 & _ & Hb1 & _)).
  destruct (law_push i1 _ _ Hok1 Hr1 Hlen) as (old & i2 & E2 & Hok2 & Hr2 & Hp2 & Hb2 & _).
  destruct (ReadPacked_loop_spec t vs (length (encodes t vs)) i2 h values a l old tl)
    as (i3 & h3 & E3 & (Hok3 & Hr3 & Hp3 & Hb3 & _) & Hf); try done; [by apply length_encodes|].
  destruct (law_pop i3 old tl Hok3 ltac:(auto)) as (i4 & E4 & Hok4 & Hr4 & Hb4 & _).
  exists i4, h3. split_and!; [|done|by rewrite Hr4, Hr3|congruence|done].
  rewrite stm_bind_eq, (on_input_eq _ _ _ _ _ E1). cbn [negb].
  rewrite stm_bind_eq, (on_input_eq _ _ _ _ _ E2), stm_bind_eq, Nat2Z.id, E3. cbn [negb].
  by rewrite stm_bind_eq, (on_input_eq _ _ _ _ _ E4).
Qed.

Lemma size_eq h values a l cap : holds h values a l cap -> size values h = Done (Z.of_nat (length l), h).
Proof.
  intros (f & Hf & (_ & _ & Hl & _) & _). unfold size. by rewrite stm_bind_eq, (field_eq _ _ f), Hl.
Qed.

Lemma ReadPackedFixedSizePrimitive_spec t vs i h values a l tl :
  in_ok i -> is_fixed_size t = true -> Forall (valid t) vs ->
  Z.of_nat (length (encodes t vs)) < 2 ^ 31 ->
  remaining i = varint (Z.of_nat (length (encodes t vs))) ++ encodes t vs ++ tl ->
  heap_ok h values a l -> Z.of_nat (length l) + Z.of_nat (length vs) < 2 ^ 29 ->
  exists i' h', ReadPackedFixedSizePrimitive t values (i, h) = Done (true, (i', h')) /\
    after i tl i' /\ fills h h' values a (l ++ vs).
Proof.
  intros Hok Hfix Hv Hlen Hr Hh Hl. unfold ReadPackedFixedSizePrimitive.
  destruct (ReadVarintSizeAsInt_spec i _ _ Hok (conj (Zle_0_nat _) Hlen) Hr) as (i1 & E1 & Ha1).
  pose proof Ha1 as (Hok1 & Hr1 & _).
  pose proof (length_encodes_fixed t vs Hfix) as Hw. pose proof (sizeof_fixed_cases t) as Hsz.
  assert (Hq : Z.quot (Z.of_nat (length (encodes t vs))) (sizeof_fixed t) = Z.of_nat (length vs)).
  { rewrite Hw. apply Z.quot_mul. lia. }
  setoid_rewrite stm_bind_eq. rewrite (on_input_eq _ _ _ _ _ E1). cbn [negb].
  pose proof Hh as [_ (cap & _ & Hholds)].
  setoid_rewrite stm_bind_eq. rewrite (on_heap_eq _ _ _ _ _ (size_eq _ _ _ _ _ Hholds)).
  rewrite Hq, Nat2Z.id, <- Hw, decide_False by congruence.
  setoid_rewrite stm_bind_eq. cbn [st_gets fst].
  case_decide as Hlim.
  - destruct (bulk_fills t vs h values a l Hh Hl) as (h1 & h2 & F1 & F2 & Hf).
    destruct (law_raw i1 _ _ Hok1 Hr1) as (i2 & E2 & Ha2).
    exists i2, h2. split; [|split; [by eapply after_trans|done]].
    rewrite stm_bind_eq. unfold st_lift at 1. rewrite int_op_ok by (unfold int_range; lia).
    cbn [fmap cres_fmap]. rewrite stm_bind_eq, (on_heap_eq _ _ _ _ _ F1).
    rewrite stm_bind_eq, (on_input_eq _ _ _ _ _ E2). cbn [negb].
    by rewrite stm_bind_eq, (on_heap_eq _ _ _ _ _ (F2 Hfix Hv)).
  - destruct (ReadPackedFixed_loop_spec t vs i1 h values a l tl) as (i2 & h2 & E & Ha2 & Hf); try done.
    exists i2, h2. split; [done|]. split; [by eapply after_trans|done].
Qed.
End packed.

(** ** Unpacked fields *)

(** With two bytes in reach [ExpectTagFromArray] does not leave the array. *)
Lemma byte_at_in m p bs k : at_pos m p bs -> 0 <= k < Z.of_nat (length bs) ->
  exists b, byte_at m (p + k) = Done b.
Proof.
  intros Ha Hk. pose proof (at_pos_nonneg _ _ _ Ha). pose proof (at_pos_bound _ _ _ Ha).
  unfold byte_at. rewrite decide_True by lia.
  destruct (lookup_lt_is_Some_2 m (Z.to_nat (p + k)) ltac:(lia)) as [b ->]. eauto.
Qed.

Lemma ExpectTagFromArray_total m p bs tag : at_pos m p bs -> (2 <= length bs)%nat ->
  exists r, ExpectTagFromArray m p tag = Done r.
Proof.
  intros Ha Hl. unfold ExpectTagFromArray.
  destruct (byte_at_in m p bs 0 Ha ltac:(lia)) as [b0 E0]. rewrite Z.add_0_r in E0.
  destruct (byte_at_in m p bs 1 Ha ltac:(lia)) as [b1 E1].
  repeat (rewrite ?E0, ?E1; cbn [mbind cres_bind]; case_decide; eauto).
Qed.

(** A tag found in front of [bs] is its prefix. *)
Lemma at_pos_prefix m p bs bs' : at_pos m p bs -> at_pos m p bs' -> (length bs' <= length bs)%nat ->
  bs' `prefix_of` bs.
Proof.
  intros (l1 & r1 & E1 & <-) (l2 & r2 & E2 & H2) Hl.
  assert (l2 = l1) as -> by (subst m; apply app_inj_1 in E2 as [? _]; [done|lia]).
  rewrite E1 in E2. apply app_inv_head in E2.
  exists (drop (length bs') bs). rewrite <- (take_drop (length bs') bs) at 1. f_equal.
  rewrite <- (take_app_le bs r1), E2 by done. apply take_app_length.
Qed.

Section unpacked.
  Context `{InputLaws, ElementType Z}.
  Implicit Types (i : CodedInputStream) (h : store Z).

(** After the first element, both loops take some more of them, as long as the
    field's array has room and (in the fixed-size loop) the buffer has them whole;
    the rest of the elements is left on the stream. *)
Definition takes_some {A} (m : stm parse_state A) i h values a l f t vs tl (x : A) : Prop :=
  exists j i' h', (j <= length vs)%nat /\ m (i, h) = Done (x, (i', h')) /\
    after i (tags f t (drop j vs) ++ tl) i' /\ fills h h' values a (l ++ take j vs).

Lemma AddAlreadyReserved_fills h values a l cap v :
  store_ok h -> holds h values a l cap -> cap < 2 ^ 30 -> Z.of_nat (length l) < cap ->
  exists h', AddAlreadyReserved values (Val v) h = Done (tt, h') /\
    store_ok h' /\ holds h' values a (l ++ [v]) cap /\ keeps_others h h' values.
Proof. intros Hs Hh Hc Hl. by apply AddAlreadyReserved_acts. Qed.

Lemma ReadRepeatedPrimitive_loop_spec f t tl vs : forall k i h values a l cap,
  let tag := MakeTag f (wire_type t) in
  in_ok i -> Forall (valid t) vs -> remaining i = tags f t vs ++ tl ->
  ~ varint tag `prefix_of` tl ->
  store_ok h -> holds h values a l cap -> cap < 2 ^ 30 -> Z.of_nat (length l) + Z.of_nat k <= cap ->
  takes_some (ReadRepeatedPrimitive_loop k t tag values) i h values a l f t vs tl true.
Proof.
  induction vs as [|v vs IH]; intros k i h values a l cap tag Hok Hv Hr Htl Hs Hh Hc Hk.
  - exists 0%nat, i, h. split; [done|]. rewrite app_nil_r. split_and!;
      [| |by apply fills_refl; split; eauto].
    + destruct k as [|k]; [done|]. cbn [ReadRepeatedPrimitive_loop].
      destruct (ExpectTag_spec i tag Hok (MakeTag_range _ _)) as (r & i' & E & Hiff & Hcase).
      destruct r; [exfalso|by rewrite stm_bind_eq, (on_input_eq _ _ _ _ _ E), Hcase].
      destruct (proj1 Hiff eq_refl) as [_ Hpre]. apply Htl.
      destruct (ok_remaining i Hok) as [tl' Htl']. rewrite Hr in Htl'. simpl in Htl'. rewrite Htl'.
      by apply prefix_app_r.
    + rewrite drop_nil. rewrite <- Hr. by apply after_refl.
  - destruct k as [|k].
    { exists 0%nat, i, h. rewrite app_nil_r. split_and!; [lia|done| |by apply fills_refl; split; eauto].
      rewrite drop_0, <- Hr. by apply after_refl. }
    apply Forall_cons in Hv as [Hv Hvs]. cbn [ReadRepeatedPrimitive_loop].
    destruct (ExpectTag_spec i tag Hok (MakeTag_range _ _)) as (r & i1 & E & _ & Hcase).
    destruct r.
    2:{ exists 0%nat, i, h. rewrite app_nil_r. split_and!; [lia| | |by apply fills_refl; split; eauto].
        - by rewrite stm_bind_eq, (on_input_eq _ _ _ _ _ E), Hcase.
        - rewrite drop_0, <- Hr. by apply after_refl. }
    pose proof Hcase as (Hok1 & Hr1 & _).
    rewrite Hr, tags_cons in Hr1. unfold tagged in Hr1. fold tag in Hr1.
    rewrite <- !app_assoc, drop_app_length in Hr1.
    destruct (ReadPrimitive_spec t v i1 _ Hok1 Hv Hr1) as (i2 & E2 & Ha2).
    destruct (AddAlreadyReserved_fills h values a l cap v Hs Hh Hc ltac:(lia))
      as (h2 & Eh & Hs2 & Hh2 & Ho2).
    pose proof Ha2 as (Hok2 & Hr2 & _).
    destruct (IH k i2 h2 values a (l ++ [v]) cap) as (j & i3 & h3 & Hj & E3 & Ha3 & Hf3);
      try done; [rewrite length_app; cbn [length]; lia|].
    exists (S j), i3, h3. split_and!.
    + cbn [length]. lia.
    + rewrite stm_bind_eq, (on_input_eq _ _ _ _ _ E), stm_bind_eq, (on_input_eq _ _ _ _ _ E2).
      by rewrite stm_bind_eq, (on_heap_eq _ _ _ _ _ Eh).
    + eapply after_trans; [|exact Ha3]. by eapply after_trans.
    + destruct Hf3 as [Hf3 Ho3]. rewrite <- app_assoc in Hf3. split; [done|]. by eapply keeps_others_trans.
Qed.

(** The next tagged value is in the buffer when there is room for it. *)
Lemma tagged_in_buffer f t v vs bs rest tl :
  bs ++ rest = tags f t (v :: vs) ++ tl -> (length (tagged f t v) <= length bs)%nat ->
  let bs2 := drop (length (tagged f t v)) bs in bs = tagged f t v ++ bs2 /\ bs2 ++ rest = tags f t vs ++ tl.
Proof.
  intros Hbs Hl bs2. rewrite tags_cons, <- app_assoc in Hbs.
  assert (E : bs = tagged f t v ++ bs2).
  { unfold bs2. rewrite <- (take_drop (length (tagged f t v)) bs) at 1. f_equal.
    rewrite <- (take_app_le bs rest), Hbs, take_app_length by lia. done. }
  split; [done|]. rewrite E, <- app_assoc in Hbs. by apply app_inv_head in Hbs.
Qed.

(** The loop over the buffer: [bs] are bytes at [buffer], enough for [k] elements. *)
Lemma ReadRepeatedFixed_loop_spec f t tl m vs : forall k n buffer bs rest h values a l cap,
  let tag := MakeTag f (wire_type t) in
  let w := Z.of_nat (length (varint tag)) + sizeof_fixed t in
  is_fixed_size t = true -> Forall (valid t) vs -> at_pos m buffer bs ->
  bs ++ rest = tags f t vs ++ tl -> Z.of_nat k * w <= Z.of_nat (length bs) ->
  ~ varint tag `prefix_of` tl ->
  store_ok h -> holds h values a l cap -> cap < 2 ^ 30 -> Z.of_nat (length l) + Z.of_nat k <= cap ->
  exists j h', (j <= length vs /\ j <= k)%nat /\
    ReadRepeatedFixed_loop k n t tag values m buffer h = Done (n + Z.of_nat j, h') /\
    fills h h' values a (l ++ take j vs).
Proof.
  induction vs as [|v vs IH]; intros k n buffer bs rest h values a l cap tag w Hfix Hv Ha Hbs Hk Htl Hs Hh Hc Hroom;
    pose proof (sizeof_fixed_cases t) as Hsz; pose proof (length_varint_pos tag) as Htag;
    assert (Hstop : forall k', k' = k -> exists j h', (j <= length (@nil Z) /\ j <= k')%nat /\
       Done (n, h) = Done (n + Z.of_nat j, h') /\ fills h h' values a (l ++ take j (@nil Z)))
      by (intros k' _; exists 0%nat, h; rewrite app_nil_r, Z.add_0_r; split; [simpl; lia|]; split; [done|];
          apply fills_refl; split; eauto).
  - destruct k as [|k]; [by apply Hstop|]. cbn [ReadRepeatedFixed_loop].
    destruct (ExpectTagFromArray_total m buffer bs tag Ha ltac:(lia)) as [[p|] E].
    2:{ setoid_rewrite stm_bind_eq. unfold st_lift. rewrite E. by apply Hstop. }
    exfalso. destruct (ExpectTagFromArray_sound _ _ _ _ (MakeTag_range _ _) E) as [Hat _].
    apply Htl. simpl in Hbs. rewrite <- Hbs. apply prefix_app_r. eapply at_pos_prefix; [done|done|].
    fold tag. lia.
  - assert (Hstop' : exists j h', (j <= length (v :: vs) /\ j <= k)%nat /\
       Done (n, h) = Done (n + Z.of_nat j, h') /\ fills h h' values a (l ++ take j (v :: vs))).
    { destruct (Hstop k eq_refl) as (j & h' & [Hj1 Hj2] & E & Hf). simpl in Hj1.
      exists 0%nat, h'. assert (j = 0)%nat as -> by lia. split_and!; [lia|lia|done|done]. }
    clear Hstop. destruct k as [|k]; [by apply Hstop'|]. cbn [ReadRepeatedFixed_loop].
    destruct (ExpectTagFromArray_total m buffer bs tag Ha ltac:(lia)) as [[p|] E].
    2:{ setoid_rewrite stm_bind_eq. unfold st_lift at 1. rewrite E. by apply Hstop'. }
    clear Hstop'. apply Forall_cons in Hv as [Hv Hvs].
    destruct (ExpectTagFromArray_sound _ _ _ _ (MakeTag_range _ _) E) as [_ Hp]. fold tag in Hp.
    pose proof (length_encode_fixed t v Hfix) as Hlv.
    assert (Hlt : Z.of_nat (length (tagged f t v)) = w).
    { unfold tagged. fold tag. rewrite length_app. lia. }
    destruct (tagged_in_buffer f t v vs bs rest tl Hbs ltac:(lia)) as [Hbs' Hrest].
    set (bs2 := drop (length (tagged f t v)) bs) in *.
    rewrite Hbs' in Ha. apply at_pos_app in Ha as [Ha1 Ha2]. rewrite Hlt in Ha2.
    apply at_pos_app in Ha1 as [_ Hav]. fold tag in Hav. rewrite <- Hp in Hav.
    destruct (AddAlreadyReserved_fills h values a l cap v Hs Hh Hc ltac:(lia))
      as (h2 & Eh & Hs2 & Hh2 & Ho2).
    destruct (IH k (n + 1) (buffer + w) bs2 rest h2 values a (l ++ [v]) cap)
      as (j & h3 & [Hj1 Hj2] & E3 & Hf3 & Ho3); try done.
    + rewrite Hbs', length_app, Nat2Z.inj_succ, Z.mul_succ_l in Hk. fold tag w. lia.
    + rewrite length_app. cbn [length]. lia.
    + exists (S j), h3. split_and!; [cbn [length]; lia|lia| |].
      * rewrite stm_bind_eq. unfold st_lift at 1. rewrite E. cbn [fmap cres_fmap].
        rewrite stm_bind_eq. unfold st_lift at 1.
        rewrite (ReadPrimitiveFromArray_spec t v m p Hfix Hv Hav). cbn [fmap cres_fmap].
        rewrite stm_bind_eq, Eh. replace (p + Z.of_nat (length (encode t v))) with (buffer + w) by lia.
        fold tag in E3. rewrite E3. replace (n + 1 + Z.of_nat j) with (n + Z.of_nat (S j)) by lia. done.
      * rewrite <- app_assoc in Hf3. split; [done|]. by eapply keeps_others_trans.
Qed.

(** Both variants, from the bytes behind the first tag. *)
Lemma Capacity_eq h values a l cap : holds h values a l cap -> Capacity values h = Done (cap, h).
Proof. intros (f & Hf & _ & <-). unfold Capacity. by rewrite stm_bind_eq, (field_eq _ _ f). Qed.

Lemma ReadRepeatedPrimitive_generic_spec f t v vs i h values a l tl :
  let tag := MakeTag f (wire_type t) in
  in_ok i -> Forall (valid t) (v :: vs) -> remaining i = encode t v ++ tags f t vs ++ tl ->
  ~ varint tag `prefix_of` tl -> heap_ok h values a l -> Z.of_nat (length l) + 1 < 2 ^ 29 ->
  takes_some (ReadRepeatedPrimitive_generic t tag values) i h values a (l ++ [v]) f t vs tl true.
Proof.
  intros tag Hok [Hv Hvs]%Forall_cons Hr Htl Hh Hl. unfold ReadRepeatedPrimitive_generic.
  destruct (read_add t v i _ h values a l Hok Hv Hr Hh Hl) as (i1 & h1 & E1 & E2 & Ha & [Hh1 Ho1]).
  pose proof Ha as (Hok1 & Hr1 & _). destruct Hh1 as [Hs1 (cap & Hc & Hholds)].
  pose proof (holds_length _ _ _ _ _ Hholds) as Hle.
  destruct (ReadRepeatedPrimitive_loop_spec f t tl vs (Z.to_nat (cap - Z.of_nat (length (l ++ [v]))))
    i1 h1 values a (l ++ [v]) cap) as (j & i2 & h2 & Hj & E & Ha2 & Hf2); try done; [lia|].
  exists j, i2, h2. split_and!; [done| |by eapply after_trans|].
  - rewrite stm_bind_eq, (on_input_eq _ _ _ _ _ E1), stm_bind_eq, (on_heap_eq _ _ _ _ _ E2).
    rewrite stm_bind_eq, (on_heap_eq _ _ _ _ _ (Capacity_eq _ _ _ _ _ Hholds)).
    rewrite stm_bind_eq, (on_heap_eq _ _ _ _ _ (size_eq _ _ _ _ _ Hholds)). done.
  - destruct Hf2 as [Hf2 Ho2]. split; [done|]. by eapply keeps_others_trans.
Qed.

Lemma length_tags_fixed f t vs j : is_fixed_size t = true -> (j <= length vs)%nat ->
  Z.of_nat (length (tags f t (take j vs)))
  = Z.of_nat j * (Z.of_nat (length (varint (MakeTag f (wire_type t)))) + sizeof_fixed t).
Proof.
  intros Hf. revert vs. induction j as [|j IH]; intros [|v vs] Hj; cbn [length] in Hj; try lia; try done.
  cbn [take]. rewrite tags_cons, length_app, Nat2Z.inj_add, IH by lia.
  unfold tagged. rewrite length_app, Nat2Z.inj_add, length_encode_fixed by done. lia.
Qed.

Lemma tags_take_drop f t vs j : tags f t vs = tags f t (take j vs) ++ tags f t (drop j vs).
Proof. unfold tags. by rewrite <- concat_app, <- fmap_app, take_drop. Qed.

Lemma ReadRepeatedFixed_direct_spec f t vs i h values a l cap tl :
  let tag := MakeTag f (wire_type t) in
  in_ok i -> is_fixed_size t = true -> Forall (valid t) vs -> remaining i = tags f t vs ++ tl ->
  ~ varint tag `prefix_of` tl -> store_ok h -> holds h values a l cap -> cap < 2 ^ 30 ->
  takes_some (ReadRepeatedFixed_direct t (Z.of_nat (length (varint tag))) tag values)
    i h values a l f t vs tl true.
Proof.
  intros tag Hok Hfix Hvs Hr Htl Hs Hholds Hc. unfold ReadRepeatedFixed_direct, takes_some.
  pose proof (holds_length _ _ _ _ _ Hholds) as Hle.
  pose proof (ok_buffer i Hok) as Hbo. pose proof (length_buffered i Hbo) as Hlb.
  pose proof (sizeof_fixed_cases t) as Hsz. pose proof (length_varint tag) as Htag.
  set (tsz := Z.of_nat (length (varint tag))) in *. set (w := tsz + sizeof_fixed t).
  assert (Hdirect : GetDirectBufferPointerInline i = Done ((buffer_ i, buffer_end_ i - buffer_ i), i)).
  { unfold GetDirectBufferPointerInline, st_gets. rewrite i32_small; [done|].
    destruct Hbo as (? & ? & ?). lia. }
  assert (Hnone : after i (tags f t (drop 0 vs) ++ tl) i /\ fills h h values a (l ++ take 0 vs)).
  { rewrite drop_0, <- Hr, app_nil_r. split; [by apply after_refl|]. apply fills_refl. split; eauto. }
  setoid_rewrite stm_bind_eq. rewrite (on_input_eq _ _ _ _ _ Hdirect).
  case_decide as Hpos; [|exists 0%nat, i, h; split; [lia|split; [done|exact Hnone]]].
  setoid_rewrite stm_bind_eq. rewrite (on_heap_eq _ _ _ _ _ (Capacity_eq _ _ _ _ _ Hholds)).
  setoid_rewrite stm_bind_eq. rewrite (on_heap_eq _ _ _ _ _ (size_eq _ _ _ _ _ Hholds)).
  setoid_rewrite stm_bind_eq. cbn [st_gets fst].
  set (avail := Z.min _ _). set (k := Z.to_nat avail).
  destruct (ok_remaining i Hok) as [rest Hrest].
  assert (Hk : Z.of_nat k * w <= Z.of_nat (length (buffered i)) /\
    Z.of_nat (length l) + Z.of_nat k <= cap).
  { assert (0 <= Z.quot (buffer_end_ i - buffer_ i) w) by (apply Z.quot_pos; lia).
    pose proof (Z.mul_quot_le (buffer_end_ i - buffer_ i) w ltac:(lia) ltac:(lia)).
    subst k avail. rewrite Z2Nat.id by lia. split; [|lia]. rewrite Hlb. fold w. nia. }
  destruct Hk as [Hk1 Hk2].
  destruct (ReadRepeatedFixed_loop_spec f t tl (buffer_array i) vs k 0 (buffer_ i) (buffered i) rest
    h values a l cap) as (j & h2 & [Hj1 Hj2] & E & Hf2); try done.
  { apply (buffered_at i _ []); [done|by rewrite app_nil_r]. }
  { by rewrite <- Hrest. }
  setoid_rewrite stm_bind_eq. rewrite (on_heap_eq _ _ _ _ _ E), Z.add_0_l.
  pose proof (length_tags_fixed f t vs j Hfix Hj1) as Hlt. fold tag tsz w in Hlt. rewrite <- Hlt.
  rewrite (tags_take_drop f t vs j), <- app_assoc in Hr.
  destruct (Skip_spec i (length (tags f t (take j vs))) Hok) as (i2 & E3 & Ha3).
  { rewrite Hr, length_app. lia. }
  rewrite Hr, drop_app_length in Ha3. exists j.
  setoid_rewrite stm_bind_eq. case_decide as Hread.
  - exists i2, h2. split_and!; [done| |done|done].
    by rewrite stm_bind_eq, (on_input_eq _ _ _ _ _ E3).
  - exists i, h2. split_and!; [done|done| |done].
    assert (Hnil : tags f t (take j vs) = []) by (apply nil_length_inv; lia).
    rewrite Hnil in Hr. simpl in Hr. rewrite <- Hr. by apply after_refl.
Qed.

Lemma ReadRepeatedFixedSizePrimitive_spec f t v vs i h values a l tl :
  let tag := MakeTag f (wire_type t) in
  in_ok i -> is_fixed_size t = true -> Forall (valid t) (v :: vs) ->
  remaining i = encode t v ++ tags f t vs ++ tl ->
  ~ varint tag `prefix_of` tl -> heap_ok h values a l -> Z.of_nat (length l) + 1 < 2 ^ 29 ->
  takes_some (ReadRepeatedFixedSizePrimitive t (Z.of_nat (length (varint tag))) tag values)
    i h values a (l ++ [v]) f t vs tl true.
Proof.
  intros tag Hok Hfix [Hv Hvs]%Forall_cons Hr Htl Hh Hl. unfold ReadRepeatedFixedSizePrimitive.
  destruct (read_add t v i _ h values a l Hok Hv Hr Hh Hl) as (i1 & h1 & E1 & E2 & Ha & [Hh1 Ho1]).
  pose proof Ha as (Hok1 & Hr1 & _). destruct Hh1 as [Hs1 (cap & Hc & Hholds)].
  pose proof (length_varint tag) as Htag.
  destruct (ReadRepeatedFixed_direct_spec f t vs i1 h1 values a (l ++ [v]) cap tl)
    as (j & i2 & h2 & Hj & E & Ha2 & [Hf2 Ho2]); try done.
  exists j, i2, h2. split_and!; [done| |by eapply after_trans|].
  - rewrite stm_bind_eq. unfold st_lift at 1. rewrite dcheck_ok.
    2:{ rewrite VarintSize32_length by apply MakeTag_range. by rewrite u64_small by lia. }
    cbn [fmap cres_fmap]. rewrite stm_bind_eq, (on_input_eq _ _ _ _ _ E1).
    by rewrite stm_bind_eq, (on_heap_eq _ _ _ _ _ E2).
  - split; [done|]. by eapply keeps_others_trans.
Qed.
End unpacked.
