(* ===== verification/WireFormatFuel.v ===== *)
(** * The wire format: the loop over a packed field ends

    [ReadPackedPrimitive] reads elements while there are bytes before the limit it
    has set.  Whatever the bytes are, a read that succeeds consumes at least one of
    them, so the loop makes at most as many rounds as the limit has bytes: the fuel
    of the model is never used up. *)
From Stdlib Require Import ZArith Lia Strings.Byte.
From stdpp Require Import base tactics option list list_numbers gmap.
From S2P Require Import Prelude Mem Bits Varint CodedStream CodedStreamLaws CodedStreamInv.
From S2P Require Import RepeatedField WireFormat FlatStream.

(** ** Code that does not run out of fuel *)

Definition quiet {S A} (m : stm S A) : Prop := forall s, m s <> Fault OutOfFuel.
Definition quiet_res {A} (m : cres A) : Prop := m <> Fault OutOfFuel.

Create HintDb quiet discriminated.

Lemma quiet_mret {S A} (x : A) : quiet (mret x : stm S A).
Proof. by intros s. Qed.

Lemma quiet_stm_bind {S A B} (m : stm S A) (k : A -> stm S B) :
  quiet m -> (forall x, quiet (k x)) -> quiet (m ≫= k).
Proof.
  intros Hm Hk s. rewrite stm_bind_eq. specialize (Hm s).
  destruct (m s) as [[x s']|f]; [apply Hk|congruence].
Qed.

Lemma quiet_st_lift {S A} (m : cres A) : quiet_res m -> quiet (st_lift m : stm S A).
Proof. intros Hm s. unfold st_lift, quiet_res in *. destruct m; simpl; congruence. Qed.

Lemma quiet_get {S} : quiet (st_get : stm S S).
Proof. by intros s. Qed.
Lemma quiet_st_gets {S A} (f : S -> A) : quiet (st_gets f).
Proof. by intros s. Qed.
Lemma quiet_modify {S} (f : S -> S) : quiet (st_modify f).
Proof. by intros s. Qed.
Lemma quiet_fault {S A} e : e <> OutOfFuel -> quiet (st_fault e : stm S A).
Proof. intros He s. unfold st_fault. congruence. Qed.

Lemma quiet_dcheck P `{Decision P} : quiet_res (dcheck P).
Proof. unfold dcheck. by case_decide. Qed.
Lemma quiet_int_op z : quiet_res (int_op z).
Proof. unfold int_op. by case_decide. Qed.
Lemma quiet_byte_at m p : quiet_res (byte_at m p).
Proof. unfold byte_at. case_decide; [|done]. by destruct (m !! _). Qed.
Lemma quiet_fixed32 m p : quiet_res (ReadLittleEndian32FromArray m p).
Proof. unfold ReadLittleEndian32FromArray, buf_read. by case_decide. Qed.
Lemma quiet_fixed64 m p : quiet_res (ReadLittleEndian64FromArray m p).
Proof. unfold ReadLittleEndian64FromArray, buf_read. by case_decide. Qed.

#[export] Hint Resolve quiet_mret quiet_st_lift quiet_get quiet_st_gets quiet_modify : quiet.
#[export] Hint Resolve quiet_dcheck quiet_int_op quiet_byte_at quiet_fixed32 quiet_fixed64 : quiet.

(** Walk through the code. *)
Ltac quiet_code :=
  repeat first
    [ progress auto 3 with quiet
    | apply quiet_stm_bind; [|intros]
    | apply quiet_fault; done
    | match goal with
      | |- quiet (if decide ?P then _ else _) => destruct (decide P)
      | |- quiet (if ?b then _ else _) => destruct b
      | |- quiet (match ?x with _ => _ end) => destruct x
      end ].

(** ** The heap of the repeated fields *)

Section heap.
  Context {E : Type} `{ElementType E}.

Lemma quiet_field this : quiet (@field E this).
Proof. intros s. unfold field. by destruct (fields s !! this). Qed.
Lemma quiet_array r : quiet (@array E r).
Proof. intros s. unfold array. by destruct (reps s !! r). Qed.
Lemma quiet_new_rep a n : quiet (@new_rep E _ a n).
Proof. by intros s. Qed.
Lemma quiet_mapM {B} (f : Z -> stm (store E) B) l : (forall x, quiet (f x)) -> quiet (mapM f l).
Proof.
  intros Hf. induction l as [|x l IH]; [apply quiet_mret|]. cbn [mapM].
  apply quiet_stm_bind; [apply Hf|]. intros. apply quiet_stm_bind; [apply IH|]. intros. apply quiet_mret.
Qed.
End heap.
#[export] Hint Resolve quiet_field quiet_array quiet_new_rep : quiet.

Section add.
  Context {E : Type} `{ElementType E}.

Lemma quiet_elements f : quiet (@elements E f).
Proof. unfold elements. quiet_code. Qed.
Hint Resolve quiet_elements : quiet.

Lemma quiet_load_element p : quiet (@load_element E p).
Proof. unfold load_element. quiet_code. Qed.
Hint Resolve quiet_load_element : quiet.

Lemma quiet_Reserve this n : quiet (Reserve (E := E) this n).
Proof.
  unfold Reserve, rep, GetArenaNoVirtual, MoveArray, CopyArray, ElementCopier, InternalDeallocate, rep,
    set_field, set_array. quiet_code.
  apply quiet_mapM. intros. quiet_code.
Qed.
Hint Resolve quiet_Reserve : quiet.

Lemma quiet_Add this v : quiet (Add (E := E) this v).
Proof. unfold Add, next_slot, deref, store_element, set_field, set_array. quiet_code. Qed.
End add.
#[export] Hint Resolve quiet_Add : quiet.

(** ** Reads consume bytes *)

(** A call that succeeds leaves less before the limit. *)
Definition consumes `{InputFallbacks} {A} (ok : A -> bool) (m : stm CodedInputStream A) : Prop :=
  forall s r s', stream_inv s -> 0 <= BytesUntilLimit s -> m s = Done (r, s') -> ok r = true ->
    BytesUntilLimit s' < BytesUntilLimit s.

(** [BytesUntilLimit] is "the number of bytes left until the nearest limit", so
    each byte read takes one from it; [PushLimit(n)] leaves at most [n].  None of
    the methods is a loop of the model. *)
Class InputProgress `{InputFallbacks} : Prop := {
  until_advance s n : stream_inv s -> 0 <= BytesUntilLimit s -> 0 <= n <= buffer_end_ s - buffer_ s ->
    BytesUntilLimit (set_buffer (buffer_ s + n) s) = BytesUntilLimit s - n;
  until_varint32 b : consumes (fun r => bool_decide (0 <= r)) (ReadVarint32Fallback b);
  until_varint64 : consumes snd ReadVarint64Fallback;
  until_fixed32 : consumes fst ReadLittleEndian32Fallback;
  until_fixed64 : consumes fst ReadLittleEndian64Fallback;
  until_push n s l s' : stream_inv s -> 0 <= n -> PushLimit n s = Done (l, s') ->
    stream_inv s' /\ BytesUntilLimit s' <= n;
  quiet_varint32 b : quiet (ReadVarint32Fallback b);
  quiet_varint64 : quiet ReadVarint64Fallback;
  quiet_size : quiet ReadVarintSizeAsIntFallback;
  quiet_fixed32' : quiet ReadLittleEndian32Fallback;
  quiet_fixed64' : quiet ReadLittleEndian64Fallback;
  quiet_push n : quiet (PushLimit n);
  quiet_pop l : quiet (PopLimit l);
}.
#[export] Hint Resolve quiet_varint32 quiet_varint64 quiet_size quiet_fixed32' quiet_fixed64'
  quiet_push quiet_pop : quiet.

Section fuel.
  Context {F : InputFallbacks} {P : InputProgress} {K : FallbacksKeep} {T : ElementType Z}.
  Implicit Types (i : CodedInputStream).

Lemma quiet_peek k : quiet (peek k).
Proof. unfold peek. quiet_code. Qed.
Hint Resolve quiet_peek : quiet.

Lemma quiet_ReadPrimitive t : quiet (ReadPrimitive t).
Proof.
  destruct t; unfold ReadPrimitive, ReadVarint32, ReadVarint64, ReadLittleEndian32, ReadLittleEndian64,
    Advance; quiet_code.
Qed.

Lemma quiet_ReadVarintSizeAsInt : quiet ReadVarintSizeAsInt.
Proof. unfold ReadVarintSizeAsInt, Advance. quiet_code. Qed.

Lemma consumes_advance i n : stream_inv i -> 0 <= BytesUntilLimit i ->
  0 < n <= buffer_end_ i - buffer_ i ->
  BytesUntilLimit (set_buffer (buffer_ i + n) i) < BytesUntilLimit i.
Proof. intros. rewrite until_advance by (done || lia). lia. Qed.

(** The readers of varints: one byte from the buffer, or the slow path. *)
Lemma consumes_fast_byte (slow : Z -> stm CodedInputStream (bool * Z)) :
  (forall b, consumes fst (slow b)) ->
  consumes fst (s0 ← st_get;
     b ← (if decide (buffer_ s0 < buffer_end_ s0) then peek 0 else mret 0);
     if decide (buffer_ s0 < buffer_end_ s0 /\ b < 128) then Advance 1 ;; mret (true, b) else slow b).
Proof.
  intros Hslow i r i' Hi Hu Hm Hr. rewrite stm_bind_eq in Hm. cbn [st_get] in Hm.
  apply stm_bind_Done in Hm as (b & i1 & Hb & Hm).
  assert (i1 = i) as ->.
  { destruct (decide (buffer_ i < buffer_end_ i)); [exact (peek_inv _ _ _ _ Hb)|].
    change (Done (0, i) = Done (b, i1)) in Hb. congruence. }
  clear Hb. case_decide as Hd; [|by eapply (Hslow b i r i')].
  rewrite stm_bind_eq in Hm. cbn in Hm. injection Hm as _ <-. apply consumes_advance; [done|done|lia].
Qed.

Lemma consumes_map {A B} (ok : A -> bool) (ok' : B -> bool) (m : stm CodedInputStream A) (k : A -> B) :
  consumes ok m -> (forall x, ok' (k x) = true -> ok x = true) -> consumes ok' (x ← m; mret (k x)).
Proof.
  intros Hm Hk i r i' Hi Hu (x & i1 & H1' & H2')%stm_bind_Done Hr. injection H2' as <- <-.
  eapply Hm; eauto.
Qed.

Lemma consumes_ReadVarint32 : consumes fst ReadVarint32.
Proof.
  apply (consumes_fast_byte (fun b => result ← ReadVarint32Fallback b; mret (bool_decide (0 <= result), u32 result))).
  intros b. eapply consumes_map; [apply until_varint32|done].
Qed.

Lemma consumes_ReadVarint64 : consumes fst ReadVarint64.
Proof.
  apply (consumes_fast_byte (fun b => p ← ReadVarint64Fallback; mret (snd p, fst p))).
  intros b. eapply consumes_map; [apply until_varint64|done].
Qed.

Lemma consumes_ReadLittleEndian32 : consumes fst ReadLittleEndian32.
Proof.
  intros i r i' Hi Hu Hm Hr. unfold ReadLittleEndian32 in Hm. rewrite stm_bind_eq in Hm. cbn [st_get] in Hm.
  pose proof (BufferSize_eq i (proj1 Hi)) as Hbs.
  case_decide as Hd; [|by eapply until_fixed32].
  apply stm_bind_Done in Hm as ([p v] & i1 & Hl & Hm). unfold st_lift in Hl.
  unfold ReadLittleEndian32FromArray in Hl. destruct (buf_read _ _ _); [|done]. injection Hl as <- <- <-.
  rewrite stm_bind_eq in Hm. cbn in Hm. injection Hm as _ <-. apply consumes_advance; [done|done|lia].
Qed.

Lemma consumes_ReadLittleEndian64 : consumes fst ReadLittleEndian64.
Proof.
  intros i r i' Hi Hu Hm Hr. unfold ReadLittleEndian64 in Hm. rewrite stm_bind_eq in Hm. cbn [st_get] in Hm.
  pose proof (BufferSize_eq i (proj1 Hi)) as Hbs.
  case_decide as Hd; [|by eapply until_fixed64].
  apply stm_bind_Done in Hm as ([p v] & i1 & Hl & Hm). unfold st_lift in Hl.
  unfold ReadLittleEndian64FromArray in Hl. destruct (buf_read _ _ _); [|done]. injection Hl as <- <- <-.
  rewrite stm_bind_eq in Hm. cbn in Hm. injection Hm as _ <-. apply consumes_advance; [done|done|lia].
Qed.

Definition is_read {A} (r : option A) : bool := match r with Some _ => true | None => false end.

Lemma consumes_then (m : stm CodedInputStream (bool * Z)) (k : Z -> Z) : consumes fst m ->
  consumes is_read ('(ok, temp) ← m; mret (if ok : bool then Some (k temp) else None)).
Proof.
  intros Hm i r i' Hi Hu ([ok x] & i1 & H1' & H2')%stm_bind_Done Hr. injection H2' as <- <-.
  eapply Hm; eauto. by destruct ok.
Qed.

Lemma keeps_ReadPrimitive t : keeps (ReadPrimitive t).
Proof.
  destruct t; unfold ReadPrimitive; try (by intros i r i' Hi Hm; discriminate Hm);
    (apply keeps_bind; [first [apply keeps_ReadVarint32|apply keeps_ReadVarint64
      |apply keeps_ReadLittleEndian32|apply keeps_ReadLittleEndian64]|intros [ok x]; apply keeps_ret]).
Qed.

Lemma consumes_ReadPrimitive t : consumes is_read (ReadPrimitive t).
Proof.
  destruct t; unfold ReadPrimitive; try (by intros i r i' Hi Hu Hm; discriminate Hm);
    first [apply consumes_then|apply (consumes_then _ (fun x => x))];
    first [apply consumes_ReadVarint32|apply consumes_ReadVarint64
      |apply consumes_ReadLittleEndian32|apply consumes_ReadLittleEndian64].
Qed.

(** As many rounds as there are bytes. *)
Lemma ReadPacked_loop_quiet t values : forall fuel st, stream_inv (fst st) ->
  BytesUntilLimit (fst st) <= Z.of_nat fuel ->
  ReadPacked_loop fuel t values st <> Fault OutOfFuel.
Proof.
  induction fuel as [|fuel IH]; intros [i h] Hi Hu; cbn [fst] in *;
    cbn [ReadPacked_loop]; rewrite stm_bind_eq; cbn [st_gets fst].
  { rewrite decide_False by lia. done. }
  case_decide as Hpos; [|done]. rewrite stm_bind_eq. unfold on_input at 1. cbn [fst snd].
  pose proof (quiet_ReadPrimitive t i) as Hq.
  destruct (ReadPrimitive t i) as [[r i1]|e] eqn:E; [|simpl; congruence].
  cbn [mbind cres_bind]. destruct r as [v|]; [|done].
  pose proof (consumes_ReadPrimitive t i (Some v) i1 Hi ltac:(lia) E eq_refl) as Hc.
  pose proof (keeps_ReadPrimitive t i (Some v) i1 Hi E) as Hi1.
  rewrite stm_bind_eq. unfold on_heap at 1. cbn [fst snd].
  pose proof (quiet_Add values (Val v) h) as Hqa.
  destruct (Add values (Val v) h) as [[[] h1]|e]; [|simpl; congruence].
  cbn [mbind cres_bind]. apply IH; cbn [fst]; [done|lia].
Qed.

Lemma ReadVarintSizeAsInt_nonneg i n i' : stream_inv i ->
  ReadVarintSizeAsInt i = Done ((true, n), i') -> 0 <= n.
Proof.
  intros Hi Hm. unfold ReadVarintSizeAsInt in Hm. rewrite stm_bind_eq in Hm. cbn [st_get] in Hm.
  apply stm_bind_Done in Hm as (b & i1 & Hb & Hm).
  case_decide as Hd.
  - rewrite stm_bind_eq in Hm. cbn in Hm. injection Hm as <- _.
    rewrite decide_True in Hb by lia. unfold peek in Hb. rewrite stm_bind_eq in Hb. cbn [st_get] in Hb.
    unfold st_lift in Hb. destruct (byte_at _ _) as [v|] eqn:Ev; [|done]. injection Hb as -> _.
    apply byte_at_inv in Ev as (_ & c & _ & <-). pose proof (byte_to_Z_bound c). lia.
  - apply stm_bind_Done in Hm as (x & i2 & _ & Hm). injection Hm as Hx -> _.
    by case_bool_decide.
Qed.

Lemma ReadPackedPrimitive_quiet t values st : stream_inv (fst st) ->
  ReadPackedPrimitive_generic t values st <> Fault OutOfFuel.
Proof.
  destruct st as [i h]. cbn [fst]. intros Hi. unfold ReadPackedPrimitive_generic.
  rewrite stm_bind_eq. unfold on_input at 1. cbn [fst snd].
  pose proof (quiet_ReadVarintSizeAsInt i) as Hq.
  destruct (ReadVarintSizeAsInt i) as [[[ok n] i1]|e] eqn:E; [|simpl; congruence].
  pose proof (keeps_ReadVarintSizeAsInt i _ _ Hi E) as Hi1.
  cbn [mbind cres_bind]. destruct ok; [|done]. cbn [negb].
  pose proof (ReadVarintSizeAsInt_nonneg i n i1 Hi E) as Hn.
  rewrite stm_bind_eq. unfold on_input at 1. cbn [fst snd].
  pose proof (quiet_push n i1) as Hqp.
  destruct (PushLimit n i1) as [[l i2]|e] eqn:E2; [|simpl; congruence]. cbn [mbind cres_bind].
  destruct (until_push n i1 l i2 Hi1 Hn E2) as [Hi2 Hu].
  rewrite stm_bind_eq.
  pose proof (ReadPacked_loop_quiet t values (Z.to_nat n) (i2, h) Hi2 ltac:(cbn [fst]; lia)) as Hl.
  destruct (ReadPacked_loop _ _ _ _) as [[ok [i3 h3]]|e]; [|congruence].
  destruct ok; [|done]. cbn [negb]. rewrite stm_bind_eq. unfold on_input. cbn [fst snd].
  pose proof (quiet_pop l i3) as Hqo. destruct (PopLimit l i3) as [[[] i4]|e]; [done|simpl; congruence].
Qed.
End fuel.

(** ** The flat stream *)

Lemma flat_quiet_read {A} (ok : Z -> A) bad : quiet (flat_read ok bad).
Proof. unfold flat_read, Advance. quiet_code. Qed.

Lemma flat_quiet_fixed n : quiet (flat_fixed n).
Proof. unfold flat_fixed, flat_raw, Advance. quiet_code. Qed.

Lemma flat_consumes_read {A} (ok : Z -> A) bad good : good bad = false -> consumes good (flat_read ok bad).
Proof.
  intros Hbad s r s' Hi Hu Hm Hr. unfold flat_read in Hm. rewrite stm_bind_eq in Hm. cbn [st_get] in Hm.
  unfold flat_varint in Hm.
  destruct (Parse64 (buffered s) 0) as [[[n|] v]|] eqn:E; [|cbn in Hm; injection Hm as <- <-; congruence..].
  case_decide; [|cbn in Hm; injection Hm as <- <-; congruence].
  rewrite stm_bind_eq in Hm. cbn in Hm. injection Hm as _ <-.
  apply VarintParse_forward in E. cbn. lia.
Qed.

Lemma flat_consumes_fixed n : 0 < n -> consumes fst (flat_fixed n).
Proof.
  intros Hn s r s' Hi Hu Hm Hr. unfold flat_fixed, flat_raw in Hm.
  rewrite stm_bind_eq, stm_bind_eq in Hm. cbn [st_get] in Hm.
  case_decide as Hd; [|cbn in Hm; injection Hm as <- <-; done].
  rewrite stm_bind_eq in Hm. cbn in Hm. injection Hm as _ <-. cbn. lia.
Qed.

#[export] Instance flat_progress : InputProgress.
Proof.
  split.
  - intros s n _ _ _. cbn. lia.
  - intros b. by apply flat_consumes_read.
  - by apply flat_consumes_read.
  - by apply flat_consumes_fixed.
  - by apply flat_consumes_fixed.
  - intros n s l s' [(Hb & He & Hl) Hr] Hn Hm. unfold PushLimit, flat_input, flat_push in Hm.
    rewrite stm_bind_eq in Hm. cbn [st_get] in Hm. rewrite stm_bind_eq in Hm.
    case_decide as Hd; cbn in Hm; injection Hm as _ <-.
    + split; [|cbn; lia]. split; [|done]. unfold buffer_ok. cbn. lia.
    + split; [|cbn; lia]. by split.
  - intros b. apply flat_quiet_read.
  - apply flat_quiet_read.
  - apply flat_quiet_read.
  - apply flat_quiet_fixed.
  - apply flat_quiet_fixed.
  - intros n. unfold PushLimit, flat_input, flat_push. quiet_code.
  - intros l. unfold PopLimit, flat_input. quiet_code.
Qed.
