(* ===== verification/HeapLogic.v ===== *)
(** * A separation logic for state monads over heaps

    A heap is a state with disjoint union ([Heap]).  Assertions on heaps are an
    instance of Iris's logic interface, so that its proof mode works on them; they
    are linear: an assertion holds of exactly the cells it describes, so that a
    triple that consumes a cell says that it has been freed or given away, and
    nothing can leak unnoticed.

    [wpm m Q] holds of the cells that the computation [m] needs: on any heap that
    has these cells, [m] is done without a fault, the other cells stay as they are
    and what became of the needed ones satisfies [Q], apart from [garbage]: cells
    that need not be accounted for (the memory of an arena, which goes with the
    arena).  It speaks about total correctness: the computations are functions. *)
From Stdlib Require Import ZArith Lia.
From stdpp Require Import base tactics list_numbers.
From iris.bi Require Import bi.
From iris.proofmode Require Import proofmode.
From S2P Require Import Prelude Bits.

Class Heap (S : Type) `{!Empty S, !Union S, !Disjoint S} := {
  heap_garbage : S -> Prop;
  heap_garbage_empty : heap_garbage ∅;
  heap_garbage_union (x y : S) : heap_garbage x -> heap_garbage y -> heap_garbage (x ∪ y);
  heap_disjoint_sym : Symmetric (##@{S});
  heap_disjoint_empty (x : S) : x ## ∅;
  heap_disjoint_union (x y z : S) : x ∪ y ## z <-> x ## z /\ y ## z;
  heap_union_empty (x : S) : x ∪ ∅ = x;
  heap_union_comm (x y : S) : x ## y -> x ∪ y = y ∪ x;
  heap_union_assoc (x y z : S) : x ∪ (y ∪ z) = (x ∪ y) ∪ z;
}.

#[export] Existing Instance heap_disjoint_sym.

Record hprop (S : Type) := HProp { holds_of : S -> Prop }.
Arguments HProp {S} _.
Arguments holds_of {S} _ _.
Add Printing Constructor hprop.

(** ** The logic *)

Section logic.
  Context {S : Type} `{Heap S}.
  Implicit Types (P Q R : hprop S) (x y z : S).

#[export] Instance hprop_equiv : Equiv (hprop S) := fun P Q => forall x, holds_of P x <-> holds_of Q x.
#[export] Instance hprop_equivalence : Equivalence (≡@{hprop S}).
Proof.
  split; [done|intros P Q E x; symmetry; apply E|intros P Q R E1 E2 x].
  etransitivity; [apply E1|apply E2].
Qed.
#[export] Instance hprop_dist : Dist (hprop S) := discrete_dist.
Definition hprop_ofe_mixin : OfeMixin (hprop S) := discrete_ofe_mixin hprop_equivalence.
#[export] Instance hprop_cofe : Cofe (Ofe (hprop S) hprop_ofe_mixin) := discrete_cofe hprop_equivalence.

Record hprop_entails P Q : Prop := Entails { entails_in x : holds_of P x -> holds_of Q x }.
Definition hprop_emp : hprop S := HProp (fun x => x = ∅).
Definition hprop_pure (φ : Prop) : hprop S := HProp (fun _ => φ).
Definition hprop_and P Q : hprop S := HProp (fun x => holds_of P x /\ holds_of Q x).
Definition hprop_or P Q : hprop S := HProp (fun x => holds_of P x \/ holds_of Q x).
Definition hprop_impl P Q : hprop S := HProp (fun x => holds_of P x -> holds_of Q x).
Definition hprop_forall {A} (Φ : A -> hprop S) : hprop S := HProp (fun x => forall a, holds_of (Φ a) x).
Definition hprop_exist {A} (Φ : A -> hprop S) : hprop S := HProp (fun x => exists a, holds_of (Φ a) x).
Definition hprop_sep P Q : hprop S :=
  HProp (fun x => exists y z, x = y ∪ z /\ y ## z /\ holds_of P y /\ holds_of Q z).
Definition hprop_wand P Q : hprop S :=
  HProp (fun x => forall y, x ## y -> holds_of P y -> holds_of Q (x ∪ y)).
Definition hprop_persistently P : hprop S := HProp (fun _ => holds_of P ∅).

Lemma heap_empty_disjoint x : ∅ ## x.
Proof. symmetry. apply heap_disjoint_empty. Qed.
Lemma heap_empty_union x : ∅ ∪ x = x.
Proof. rw heap_union_comm; [apply heap_union_empty|apply heap_empty_disjoint]. Qed.
Lemma heap_disjoint_union_r x y z : z ## x ∪ y <-> z ## x /\ z ## y.
Proof.
  split.
  - intros Hd. symmetry in Hd. apply heap_disjoint_union in Hd as [? ?]. by split; symmetry.
  - intros [? ?]. symmetry. apply heap_disjoint_union. by split; symmetry.
Qed.

Lemma hprop_bi_mixin :
  BiMixin hprop_entails hprop_emp hprop_pure hprop_and hprop_or hprop_impl
    (@hprop_forall) (@hprop_exist) hprop_sep hprop_wand.
Proof.
  split.
  - split; [done|]. intros P Q R [HPQ] [HQR]. constructor. auto.
  - intros P Q. split; [intros E; split; constructor; intros x; apply E|].
    intros [[H1] [H2]] x. split; auto.
  - intros n φ ψ Hφ x. exact Hφ.
  - intros n P P' HP Q Q' HQ x. simpl. pose proof (HP x). pose proof (HQ x). tauto.
  - intros n P P' HP Q Q' HQ x. simpl. pose proof (HP x). pose proof (HQ x). tauto.
  - intros n P P' HP Q Q' HQ x. simpl. pose proof (HP x). pose proof (HQ x). tauto.
  - intros A n Φ Ψ HΦ x. simpl. split; intros Hx a; by apply (HΦ a x).
  - intros A n Φ Ψ HΦ x. simpl. split; intros [a Ha]; exists a; by apply (HΦ a x).
  - intros n P P' HP Q Q' HQ x. simpl. split; intros (y & z & E & Hd & HPy & HQz); exists y, z;
      (split; [exact E|]); (split; [exact Hd|]); split; by [apply HP|apply HQ].
  - intros n P P' HP Q Q' HQ x. simpl. split; intros Hw y Hd HPy; apply HQ, Hw; by [|apply HP].
  - intros φ P Hφ. constructor. intros x _. exact Hφ.
  - intros φ P Hφ. constructor. intros x Hx. by apply (entails_in _ _ (Hφ Hx)).
  - constructor. by intros x [? _].
  - constructor. by intros x [_ ?].
  - intros P Q R [HPQ] [HPR]. constructor. intros x HP. split; auto.
  - constructor. intros x HP. by left.
  - constructor. intros x HQ. by right.
  - intros P Q R [HP] [HQ]. constructor. intros x [?|?]; auto.
  - intros P Q R [HPQ]. constructor. intros x HP HQ. apply HPQ. by split.
  - intros P Q R [HPQ]. constructor. intros x [HP HQ]. by apply HPQ.
  - intros A P Ψ HP. constructor. intros x HPx a. by apply (entails_in _ _ (HP a)).
  - constructor. intros x Hx. apply Hx.
  - constructor. intros x Hx. by exists a.
  - intros A Φ Q HΦ. constructor. intros x [a Ha]. by apply (entails_in _ _ (HΦ a)).
  - intros P P' Q Q' [HP] [HQ]. constructor. intros x (y & z & E & Hd & HPy & HQz). exists y, z. auto.
  - intros P. constructor. intros x HP. exists ∅, x. split; [by rw heap_empty_union|].
    split; [apply heap_empty_disjoint|done].
  - intros P. constructor. intros x (y & z & -> & _ & -> & HPz). by rw heap_empty_union.
  - intros P Q. constructor. intros x (y & z & -> & Hd & HPy & HQz). exists z, y.
    split; [by apply heap_union_comm|]. split; [by symmetry|done].
  - intros P Q R. constructor. intros x (yz & w & -> & Hd & (y & z & -> & Hd' & HP & HQ) & HR).
    apply heap_disjoint_union in Hd as [Hyw Hzw]. exists y, (z ∪ w).
    split; [by rw heap_union_assoc|]. split; [by apply heap_disjoint_union_r|].
    split; [done|]. by exists z, w.
  - intros P Q R [HPQ]. constructor. intros x HP y Hd HQ. apply HPQ. by exists x, y.
  - intros P Q R [HPQ]. constructor. intros x (y & z & -> & Hd & HP & HQ). by apply HPQ.
Qed.

Lemma hprop_persistently_mixin :
  BiPersistentlyMixin hprop_entails hprop_emp hprop_and (@hprop_exist) hprop_sep hprop_persistently.
Proof.
  split.
  - intros n P Q HPQ x. apply HPQ.
  - intros P Q [HPQ]. constructor. intros x. apply HPQ.
  - constructor. intros x HP. exact HP.
  - constructor. intros x _. reflexivity.
  - constructor. intros x [HP HQ]. by split.
  - constructor. intros x [a Ha]. by exists a.
  - constructor. intros x (y & z & _ & _ & HP & _). exact HP.
  - constructor. intros x [HP HQ]. exists ∅, x. split; [by rw heap_empty_union|].
    split; [apply heap_empty_disjoint|done].
Qed.

Lemma hprop_later_mixin :
  BiLaterMixin hprop_entails hprop_pure hprop_or hprop_impl (@hprop_forall) (@hprop_exist)
    hprop_sep hprop_persistently (fun P => P).
Proof. eapply bi_later_mixin_id; [done|apply hprop_bi_mixin]. Qed.

Canonical Structure hpropI : bi := {|
  bi_ofe_mixin := hprop_ofe_mixin;
  bi_bi_mixin := hprop_bi_mixin;
  bi_bi_persistently_mixin := hprop_persistently_mixin;
  bi_bi_later_mixin := hprop_later_mixin;
|}.

#[export] Instance hprop_pure_forall : BiPureForall hpropI.
Proof. constructor. intros x Hφ a. apply Hφ. Qed.

(** ** Weakest preconditions *)

Definition garbage : hprop S := HProp heap_garbage.

Definition wpm {A} (m : stm S A) (Q : A -> hprop S) : hprop S :=
  HProp (fun x => forall f, x ## f -> exists a y g,
    m (x ∪ f) = Done (a, y ∪ g ∪ f) /\ y ∪ g ## f /\ y ## g /\ heap_garbage g /\ holds_of (Q a) y).

(** The result without garbage. *)
Lemma wpm_intro {A} (m : stm S A) (Q : A -> hprop S) x :
  (forall f, x ## f -> exists a y, m (x ∪ f) = Done (a, y ∪ f) /\ y ## f /\ holds_of (Q a) y) ->
  holds_of (wpm m Q) x.
Proof.
  intros Hm f Hd. destruct (Hm f Hd) as (a & y & E & Hd' & HQ). exists a, y, ∅.
  rw heap_union_empty. split; [done|]. split; [done|].
  split; [apply heap_disjoint_empty|]. split; [apply heap_garbage_empty|done].
Qed.

Lemma wpm_ret {A} (a : A) (Q : A -> hpropI) : Q a ⊢ wpm (mret a) Q.
Proof. constructor. intros x HQ. apply wpm_intro. intros f Hd. by exists a, x. Qed.

Lemma wpm_bind {A B} (m : stm S A) (k : A -> stm S B) (Q : B -> hpropI) :
  (wpm m (fun a => wpm (k a) Q) : hpropI) ⊢ wpm (m ≫= k) Q.
Proof.
  constructor. intros x Hm f Hd. destruct (Hm f Hd) as (a & y & g & E & Hd' & Hyg & Hg & Hk).
  apply heap_disjoint_union in Hd' as [Hyf Hgf].
  destruct (Hk (g ∪ f)) as (b & z & g' & E' & Hd' & Hzg & Hg' & HQ); [by apply heap_disjoint_union_r|].
  apply heap_disjoint_union_r in Hd' as [Hd1 Hd2].
  pose proof (proj1 (heap_disjoint_union _ _ _) Hd1) as [Hz1 Hg1].
  exists b, z, (g' ∪ g). rw stm_bind_eq E -heap_union_assoc E' !heap_union_assoc.
  split; [done|]. split; [apply heap_disjoint_union; by split|].
  split; [by apply heap_disjoint_union_r|]. split; [by apply heap_garbage_union|done].
Qed.

(** Steps may be grouped otherwise. *)
Lemma wpm_bind_assoc {A B C} (m : stm S A) (f : A -> stm S B) (k : B -> stm S C) (Q : C -> hpropI) :
  (wpm ((m ≫= f) ≫= k) Q : hpropI) ⊢ wpm (m ≫= (fun b => f b ≫= k)) Q.
Proof.
  constructor. intros x Hm f' Hd. destruct (Hm f' Hd) as (a & y & g & E & Hrest). exists a, y, g. split; [|done].
  rw -E !stm_bind_eq. by destruct (m (x ∪ f')) as [[]|].
Qed.

Lemma wpm_wand {A} (m : stm S A) (P Q : A -> hpropI) :
  ⊢ (wpm m P : hpropI) -∗ (∀ a, P a -∗ Q a) -∗ wpm m Q.
Proof.
  apply bi.entails_wand, bi.wand_intro_r. constructor. intros x (y & z & -> & Hd & Hm & HPQ) f Hdf.
  apply heap_disjoint_union in Hdf as [Hyf Hzf].
  destruct (Hm (z ∪ f)) as (a & y' & g & E & Hd' & Hyg & Hg & HP); [by apply heap_disjoint_union_r|].
  apply heap_disjoint_union_r in Hd' as [Hd1 Hd2].
  apply heap_disjoint_union in Hd1 as [Hy'z Hgz].
  exists a, (y' ∪ z), g. rw -heap_union_assoc E.
  assert (Hc : y' ∪ g ∪ z = y' ∪ z ∪ g).
  { rw -!heap_union_assoc (heap_union_comm g z); done. }
  rw !heap_union_assoc Hc. split; [done|].
  split. { rw -Hc. by apply heap_disjoint_union. }
  split. { apply heap_disjoint_union. split; [done|by symmetry]. }
  split; [done|]. rw heap_union_comm; [|done]. apply HPQ; [by symmetry|done].
Qed.

(** Garbage may be dropped. *)
Lemma wpm_drop {A} (m : stm S A) (Q : A -> hpropI) : ⊢ (garbage : hpropI) -∗ wpm m Q -∗ wpm m Q.
Proof.
  apply bi.entails_wand, bi.wand_intro_r. constructor. intros x (g & y & -> & Hd & Hg & Hm) f Hdf.
  apply heap_disjoint_union in Hdf as [Hgf Hyf].
  destruct (Hm (g ∪ f)) as (a & z & g' & E & Hd' & Hzg & Hg' & HQ).
  { apply heap_disjoint_union_r. by split; [symmetry|]. }
  apply heap_disjoint_union_r in Hd' as [Hd1 Hd2].
  pose proof (proj1 (heap_disjoint_union _ _ _) Hd1) as [Hz1 Hg1].
  exists a, z, (g' ∪ g). rw (heap_union_comm g y); [|done]. rw -heap_union_assoc E !heap_union_assoc.
  split; [done|]. split; [apply heap_disjoint_union; by split|].
  split; [by apply heap_disjoint_union_r|]. split; [by apply heap_garbage_union|done].
Qed.

Lemma wpm_adequate {A} (m : stm S A) (P : hpropI) (Q : A -> hpropI) s :
  (P ⊢ wpm m Q) -> holds_of P s ->
  exists a s', m s = Done (a, s') /\ holds_of (Q a ∗ (garbage : hpropI))%I s'.
Proof.
  intros [Hm] HP. destruct (Hm s HP ∅) as (a & y & g & E & _ & Hyg & Hg & HQ); [apply heap_disjoint_empty|].
  exists a, (y ∪ g). rw !heap_union_empty in E. split; [done|]. by exists y, g.
Qed.

(** A step of the program that reads or replaces some cells. *)
Lemma wpm_step {A} (m : stm S A) (x y : S) (a : A) (P P' : hpropI) (Q : A -> hpropI) :
  (forall z, holds_of P z -> z = x) -> holds_of P' y ->
  (forall f, x ## f -> m (x ∪ f) = Done (a, y ∪ f) /\ y ## f) ->
  ⊢ P -∗ (P' -∗ Q a) -∗ wpm m Q.
Proof.
  intros HP HP' Hm. apply bi.entails_wand, bi.wand_intro_r. constructor. intros z (x' & r & -> & Hd & Hx & HQ). apply wpm_intro.
  intros f Hf. apply HP in Hx as ->. apply heap_disjoint_union in Hf as [Hxf Hrf].
  destruct (Hm (r ∪ f)) as [E Hy]; [by apply heap_disjoint_union_r|].
  apply heap_disjoint_union_r in Hy as [Hyr Hyf].
  exists a, (r ∪ y). rw -heap_union_assoc E (heap_union_comm r y); [|by symmetry].
  rw -heap_union_assoc. split; [done|]. split; [by apply heap_disjoint_union|].
  rw (heap_union_comm y r); [|done]. apply HQ; [by symmetry|done].
Qed.

(** A step that makes a new cell. *)
Lemma wpm_alloc (m : stm S Z) (d : Z -> S) (P Q : Z -> hpropI) :
  (forall s, exists p, m s = Done (p, s ∪ d p) /\ s ## d p) -> (forall p, holds_of (P p) (d p)) ->
  (∀ p, P p -∗ Q p) ⊢ wpm m Q.
Proof.
  intros Hm HP. constructor. intros x HQ. apply wpm_intro. intros f Hd.
  destruct (Hm (x ∪ f)) as (p & E & Hp). apply heap_disjoint_union in Hp as [Hx Hf].
  exists p, (x ∪ d p). split_and!.
  - rw E -!heap_union_assoc (heap_union_comm f); done.
  - apply heap_disjoint_union. by split; [|symmetry].
  - by apply (HQ p).
Qed.

Lemma wpm_lift {A} (c : cres A) (a : A) (Q : A -> hpropI) : c = Done a -> Q a ⊢ wpm (st_lift c) Q.
Proof. intros ->. constructor. intros x HQ. apply wpm_intro. intros f Hd. by exists a, x. Qed.

End logic.

Arguments hpropI S {_ _ _ _}.
Arguments garbage {S _ _ _ _}.

(** A fact that owns nothing. *)
Notation "⟨ φ ⟩" := (<affine> ⌜φ⌝)%I (at level 0, φ at level 200, format "⟨ φ ⟩") : bi_scope.

Tactic Notation "wbind" := iApply wpm_bind.

(** ** Facts, checks and garbage *)

Section garbage.
  Context {S : Type} `{Heap S}.
  Implicit Types (P Q : hpropI S).

Lemma keep_pure P (φ : Prop) : (P ⊢ ⌜φ⌝) -> P ⊢ P ∗ ⟨φ⟩.
Proof.
  intros HP. iIntros "H". iAssert (⌜φ⌝ ∧ P)%I with "[H]" as "[%Hl H]"; [|by iFrame].
  iSplit; [by iApply HP|done].
Qed.

Lemma wpm_dcheck (φ : Prop) `{Decision φ} (Q : unit -> hpropI S) : φ -> Q tt ⊢ wpm (st_lift (dcheck φ)) Q.
Proof. intros. apply wpm_lift. by apply dcheck_ok. Qed.

Lemma garbage_sep P Q : (P ⊢ garbage) -> (Q ⊢ garbage) -> P ∗ Q ⊢ garbage.
Proof.
  intros [HP] [HQ]. constructor. intros x (y & z & -> & _ & Hy & Hz).
  apply heap_garbage_union; [by apply HP|by apply HQ].
Qed.
Lemma garbage_emp : emp ⊢ (garbage : hpropI S).
Proof. constructor. intros x ->. apply heap_garbage_empty. Qed.
Lemma garbage_pure (φ : Prop) : ⟨φ⟩ ⊢ (garbage : hpropI S).
Proof. rw bi.affinely_elim_emp. apply garbage_emp. Qed.
End garbage.

(** ** Loops *)

Section loops.
  Context {S : Type} `{Heap S}.

Lemma wpm_for_range (from upto : Z) (body : Z -> stm S unit) (I : Z -> hpropI S) :
  from <= upto ->
  (forall i, from <= i < upto -> I i ⊢ wpm (body i) (fun _ => I (i + 1))) ->
  I from ⊢ wpm (for_range from upto body) (fun _ => I upto).
Proof.
  intros Hle. unfold for_range. remember (Z.to_nat (upto - from)) as n eqn:En.
  revert from Hle En. induction n as [|n IH]; intros from Hle En Hbody.
  - rw seqZ_nil; [|lia]. simpl. replace upto with from by lia.
    apply (wpm_ret tt (fun _ => I from)).
  - rw seqZ_cons; [|lia]. simpl. iIntros "HI". iApply wpm_bind. iApply (wpm_wand with "[HI]"); [iApply (Hbody with "HI"); lia|]. iIntros (_) "HI".
    replace (Z.pred (upto - from)) with (upto - Z.succ from) by lia.
    iApply IH; [lia|lia|intros i Hi; apply Hbody; lia|].
    by replace (Z.succ from) with (from + 1) by lia.
Qed.

Lemma wpm_mapM {A} (m : Z -> stm S A) (n : Z) (I : Z -> list A -> hpropI S) :
  0 <= n ->
  (forall i xs, 0 <= i < n -> I i xs ⊢ wpm (m i) (fun x => I (i + 1) (xs ++ [x]))) ->
  I 0 [] ⊢ wpm (mapM m (seqZ 0 n)) (fun xs => I n xs).
Proof.
  intros Hn Hm. assert (Hgen : forall (k : nat) i xs, 0 <= i -> n = i + Z.of_nat k ->
    I i xs ⊢ wpm (mapM m (seqZ i (Z.of_nat k))) (fun ys => I n (xs ++ ys))).
  { intros k. induction k as [|k IH]; intros i xs Hi Hk.
    - rw seqZ_nil; [|lia]. iIntros "HI". iApply wpm_ret. rw app_nil_r. by replace n with i by lia.
    - rw seqZ_cons; [|lia]. replace (Z.pred (Z.of_nat (Datatypes.S k))) with (Z.of_nat k) by lia.
      cbn [mapM]. iIntros "HI". iApply wpm_bind. iApply (wpm_wand with "[HI]"); [iApply (Hm with "HI"); lia|]. iIntros (x) "HI".
      iApply wpm_bind. replace (Z.succ i) with (i + 1) by lia.
      iApply (wpm_wand with "[HI]"); [iApply (IH with "HI"); lia|]. iIntros (ys) "HI". iApply wpm_ret.
      by rw -app_assoc. }
  replace n with (Z.of_nat (Z.to_nat n)) at 1 by lia. apply Hgen; lia.
Qed.
End loops.

(** ** Contracts *)

(** The condition under which a specification says anything. *)
Definition guard {X} (b : bool) (k : option X) : option X := if b then k else None.
Lemma guard_Some {X} b (k : option X) R : guard b k = Some R -> b = true /\ k = Some R.
Proof. by destruct b. Qed.

Ltac guarded H := apply guard_Some in H as [?%bool_decide_eq_true H].
