(* ===== verification/RepeatedPtrFieldBase.v ===== *)
(** * Repeated fields of pointers ([google/protobuf/repeated_field.h], class RepeatedPtrFieldBase)

    Repeated strings and messages.  The heap has the objects that elements point
    to, the arrays of pointers ([struct Rep]) and the fields.  An object knows the
    arena it was made on, and the arena that will destroy it: these differ for an
    object of the heap that an arena has been given ([Arena::Own]).  [delete] of an
    object that is gone, or that an arena owns, is a fault.

    The class is a template over the handler of its element type
    ([TypeHandler]); the two handlers of the header are instances.  The methods
    whose bodies are in repeated_field.cc are the class [PtrFallbacks].  An
    address that the code does not compute (of a new object, of the local variable
    of [SwapFallback]) is any free one. *)
From Stdlib Require Import ZArith Lia Strings.Byte.
From stdpp Require Import base tactics option list list_numbers gmap.
From S2P Require Import Prelude Bits.

Record object (T : Type) := Obj { obj_arena : option Z; obj_owner : option Z; obj_value : T }.
Arguments Obj {T} _ _ _.
Arguments obj_arena {T} _.
Arguments obj_owner {T} _.
Arguments obj_value {T} _.

(** [rep_block] is the arena that the block is in; a slot that nothing has been
    stored into is [None]. *)
Record Rep := MkRep { rep_block : option Z; allocated_size : Z; rep_elements : list (option Z) }.

Record RepeatedPtrFieldBase := PF {
  arena_ : option Z;
  current_size_ : Z;
  total_size_ : Z;
  rep_ : option Z;
}.

Record store (T : Type) := Store {
  objects : gmap Z (object T);
  reps : gmap Z Rep;
  fields : gmap Z RepeatedPtrFieldBase;
}.
Arguments Store {T} _ _ _.
Arguments objects {T} _.
Arguments reps {T} _.
Arguments fields {T} _.

(** ** Element types *)

(** What a handler says of its type: whether it can be moved, whether it has
    [MergeFrom] ([TypeImplementsMergeBehavior]), a new value, the effect of [Clear]
    and of [Merge] (from, into), its arena, and its size. *)
Class TypeHandler (T : Type) := {
  Moveable : bool;
  ImplementsMerge : bool;
  New_value : T;
  Clear_value : T -> T;
  Merge_value : T -> T -> T;
  GetArena_of : object T -> option Z;
  GetMaybeArenaPointer_of : object T -> option Z;
  SpaceUsed_value : T -> Z;
}.

(** The methods of a message class (generated code). *)
Class MessageType (T : Type) := {
  message_new : T;
  message_Clear : T -> T;
  message_has_MergeFrom : bool;
  message_MergeFrom : T -> T -> T;
  message_SpaceUsedLong : T -> Z;
}.

Definition GenericTypeHandler {T} `{MessageType T} : TypeHandler T := {|
  Moveable := false;
  ImplementsMerge := message_has_MergeFrom;
  New_value := message_new;
  Clear_value := message_Clear;
  Merge_value := message_MergeFrom;
  GetArena_of := obj_arena;
  GetMaybeArenaPointer_of := obj_arena;
  SpaceUsed_value := message_SpaceUsedLong;
|}.

(** [sizeof(std::string)] and [StringSpaceUsedExcludingSelfLong] are the standard
    library's. *)
Class StringSizes := {
  sizeof_string : Z;
  StringSpaceUsedExcludingSelfLong : list byte -> Z;
}.

Definition StringTypeHandler `{StringSizes} : TypeHandler (list byte) := {|
  Moveable := true;
  ImplementsMerge := true;
  New_value := [];
  Clear_value _ := [];
  Merge_value from _ := from;
  GetArena_of _ := None;
  GetMaybeArenaPointer_of _ := None;
  SpaceUsed_value value := u64 (sizeof_string + StringSpaceUsedExcludingSelfLong value);
|}.

(** ** The heap *)

Section heap.
  Context {T : Type}.
  Implicit Types (s : store T) (p r this : Z) (a : option Z).

Definition object_at p : stm (store T) (object T) := fun s =>
  match objects s !! p with Some o => Done (o, s) | None => Fault UseAfterFree end.
Definition set_object p (o : object T) : stm (store T) unit :=
  object_at p ;; st_modify (fun s => Store (<[p := o]> (objects s)) (reps s) (fields s)).
Definition new_object (o : object T) : stm (store T) Z := fun s =>
  let p := fresh (dom (objects s)) in
  Done (p, Store (<[p := o]> (objects s)) (reps s) (fields s)).
Definition delete_object p : stm (store T) unit :=
  o ← object_at p;
  if decide (obj_owner o = None)
  then st_modify (fun s => Store (delete p (objects s)) (reps s) (fields s))
  else st_fault UseAfterFree.

(** [*p = value]. *)
Definition assign p (value : T) : stm (store T) unit :=
  o ← object_at p; set_object p (Obj (obj_arena o) (obj_owner o) value).

(** [my_arena->Own(value)]. *)
Definition Own (my_arena value : Z) : stm (store T) unit :=
  o ← object_at value;
  if decide (obj_owner o = None) then set_object value (Obj (obj_arena o) (Some my_arena) (obj_value o))
  else st_fault UseAfterFree.

Definition rep_at r : stm (store T) Rep := fun s =>
  match reps s !! r with Some x => Done (x, s) | None => Fault UseAfterFree end.
Definition set_rep r (x : Rep) : stm (store T) unit :=
  rep_at r ;; st_modify (fun s => Store (objects s) (<[r := x]> (reps s)) (fields s)).
Definition new_rep (x : Rep) : stm (store T) Z := fun s =>
  let r := fresh (dom (reps s)) in
  Done (r, Store (objects s) (<[r := x]> (reps s)) (fields s)).
(** [::operator delete]. *)
Definition delete_rep r : stm (store T) unit :=
  x ← rep_at r;
  if decide (rep_block x = None)
  then st_modify (fun s => Store (objects s) (delete r (reps s)) (fields s))
  else st_fault UseAfterFree.

Definition field this : stm (store T) RepeatedPtrFieldBase := fun s =>
  match fields s !! this with Some f => Done (f, s) | None => Fault NullDeref end.
Definition set_field this (f : RepeatedPtrFieldBase) : stm (store T) unit :=
  field this ;; st_modify (fun s => Store (objects s) (reps s) (<[this := f]> (fields s))).
Definition new_field (f : RepeatedPtrFieldBase) : stm (store T) Z := fun s =>
  let this := fresh (dom (fields s)) in
  Done (this, Store (objects s) (reps s) (<[this := f]> (fields s))).
Definition end_field this : stm (store T) unit :=
  field this ;; st_modify (fun s => Store (objects s) (reps s) (delete this (fields s))).

(** A slot of an array, and the array behind a field. *)
Definition load_slot r (i : Z) : stm (store T) Z :=
  x ← rep_at r;
  if decide (0 <= i) then
    match rep_elements x !! Z.to_nat i with
    | Some (Some p) => mret p
    | Some None => st_fault NullDeref
    | None => st_fault OutOfBounds
    end
  else st_fault OutOfBounds.
Definition store_slot r (i p : Z) : stm (store T) unit :=
  x ← rep_at r;
  if decide (0 <= i < Z.of_nat (length (rep_elements x))) then
    set_rep r (MkRep (rep_block x) (allocated_size x) (<[Z.to_nat i := Some p]> (rep_elements x)))
  else st_fault OutOfBounds.

Definition the_rep (f : RepeatedPtrFieldBase) : stm (store T) Z :=
  match rep_ f with Some r => mret r | None => st_fault NullDeref end.

(** [rep_->elements[i]], [rep_->allocated_size], and the assignments to them and
    to [current_size_]. *)
Definition get_element this (i : Z) : stm (store T) Z :=
  f ← field this; r ← the_rep f; load_slot r i.
Definition set_element this (i p : Z) : stm (store T) unit :=
  f ← field this; r ← the_rep f; store_slot r i p.
Definition allocated this : stm (store T) Z :=
  f ← field this; r ← the_rep f; x ← rep_at r; mret (allocated_size x).
Definition set_allocated this (n : Z) : stm (store T) unit :=
  f ← field this; r ← the_rep f; x ← rep_at r; set_rep r (MkRep (rep_block x) n (rep_elements x)).
Definition set_current this (n : Z) : stm (store T) unit :=
  f ← field this; set_field this (PF (arena_ f) n (total_size_ f) (rep_ f)).
End heap.

(** The methods that the header only declares. *)
Class PtrFallbacks (T : Type) := {
  Reserve : Z -> Z -> stm (store T) unit;
  InternalExtend : Z -> Z -> stm (store T) (Z * Z);
  CloseGap : Z -> Z -> Z -> stm (store T) unit;
}.

Section RepeatedPtrFieldBase.
  Context {T : Type} `{TypeHandler T} `{PtrFallbacks T}.
  Implicit Types (s : store T) (this other value : Z).

(** ** The handlers on the heap *)

Definition New (arena : option Z) : stm (store T) Z := new_object (Obj arena arena New_value).
Definition New_move (arena : option Z) (value : T) : stm (store T) Z := new_object (Obj arena arena value).
Definition NewFromPrototype (prototype : option Z) (arena : option Z) : stm (store T) Z := New arena.
Definition Delete_value value (arena : option Z) : stm (store T) unit :=
  if decide (arena = None) then delete_object value else mret tt.
Definition Clear_object value : stm (store T) unit :=
  o ← object_at value; assign value (Clear_value (obj_value o)).
Definition Merge (from to : Z) : stm (store T) unit :=
  a ← object_at from; b ← object_at to; assign to (Merge_value (obj_value a) (obj_value b)).
Definition GetArena_value value : stm (store T) (option Z) := o ← object_at value; mret (GetArena_of o).
Definition GetMaybeArenaPointer value : stm (store T) (option Z) :=
  o ← object_at value; mret (GetMaybeArenaPointer_of o).

(** ** Construction, destruction, access *)

Definition construct (arena : option Z) : stm (store T) Z := new_field (PF arena 0 0 None).

Definition Destroy this : stm (store T) unit :=
  f ← field this;
  match rep_ f with
  | Some r =>
      if decide (arena_ f = None) then
        n ← allocated this;
        for_range 0 n (fun i => p ← load_slot r i; Delete_value p None) ;;
        delete_rep r
      else mret tt
  | None => mret tt
  end ;;
  f ← field this;
  set_field this (PF (arena_ f) (current_size_ f) (total_size_ f) None).

Definition GetArenaNoVirtual this : stm (store T) (option Z) := f ← field this; mret (arena_ f).
Definition empty this : stm (store T) bool := f ← field this; mret (bool_decide (current_size_ f = 0)).
Definition size this : stm (store T) Z := f ← field this; mret (current_size_ f).
Definition Capacity this : stm (store T) Z := f ← field this; mret (total_size_ f).

Definition Mutable this (index : Z) : stm (store T) Z :=
  f ← field this;
  st_lift (dcheck (0 <= index)) ;;
  st_lift (dcheck (index < current_size_ f)) ;;
  get_element this index.
Definition Get this (index : Z) : stm (store T) T :=
  f ← field this;
  st_lift (dcheck (0 <= index)) ;;
  st_lift (dcheck (index < current_size_ f)) ;;
  p ← get_element this index;
  o ← object_at p; mret (obj_value o).
Definition Delete this (index : Z) : stm (store T) unit :=
  f ← field this;
  st_lift (dcheck (0 <= index)) ;;
  st_lift (dcheck (index < current_size_ f)) ;;
  p ← get_element this index;
  Delete_value p (arena_ f).

Definition raw_data this : stm (store T) (option (Z * Z)) :=
  f ← field this; mret ((fun r => (r, 0)) <$> rep_ f).
Definition raw_mutable_data this : stm (store T) (option (Z * Z)) :=
  f ← field this; mret ((fun r => (r, 0)) <$> rep_ f).
Definition mutable_data this : stm (store T) (option (Z * Z)) := raw_mutable_data this.
Definition data this : stm (store T) (option (Z * Z)) := raw_data this.

Definition SwapElements this (index1 index2 : Z) : stm (store T) unit :=
  p ← get_element this index1;
  q ← get_element this index2;
  set_element this index1 q ;;
  set_element this index2 p.

Definition kRepHeaderSize : Z := 8.
Definition SpaceUsedExcludingSelfLong this : stm (store T) Z :=
  f ← field this;
  let allocated_bytes := u64 (u64 (total_size_ f) * 8) in
  match rep_ f with
  | Some r =>
      n ← allocated this;
      sizes ← mapM (fun i => p ← load_slot r i; o ← object_at p; mret (SpaceUsed_value (obj_value o))) (seqZ 0 n);
      mret (u64 (foldl (fun bytes n => u64 (bytes + n)) allocated_bytes sizes + kRepHeaderSize))
  | None => mret allocated_bytes
  end.

(** ** Adding and removing *)

(** [rep_ != NULL && current_size_ < rep_->allocated_size]. *)
Definition has_cleared this : stm (store T) bool :=
  f ← field this;
  match rep_ f with
  | Some _ => n ← allocated this; mret (bool_decide (current_size_ f < n))
  | None => mret false
  end.
(** [if (!rep_ || rep_->allocated_size == total_size_) Reserve(total_size_ + 1)]. *)
Definition grow_if_full this : stm (store T) unit :=
  f ← field this;
  full ← match rep_ f with
         | Some _ => n ← allocated this; mret (bool_decide (n = total_size_ f))
         | None => mret true
         end;
  if full : bool then n ← st_lift (int_op (total_size_ f + 1)); Reserve this n else mret tt.
Definition incr_allocated this : stm (store T) unit :=
  n ← allocated this; n ← st_lift (int_op (n + 1)); set_allocated this n.
(** [rep_->elements[current_size_++]], read and assigned to. *)
Definition next_element this : stm (store T) Z :=
  f ← field this;
  p ← get_element this (current_size_ f);
  n ← st_lift (int_op (current_size_ f + 1));
  set_current this n ;; mret p.
Definition append_element this value : stm (store T) unit :=
  f ← field this;
  set_element this (current_size_ f) value ;;
  n ← st_lift (int_op (current_size_ f + 1));
  set_current this n.

Definition Add this (prototype : option Z) : stm (store T) Z :=
  cleared ← has_cleared this;
  if cleared : bool then next_element this
  else
    grow_if_full this ;;
    incr_allocated this ;;
    f ← field this;
    result ← NewFromPrototype prototype (arena_ f);
    append_element this result ;;
    mret result.
Definition Add_move this (value : T) : stm (store T) unit :=
  cleared ← has_cleared this;
  if cleared : bool then p ← next_element this; assign p value
  else
    grow_if_full this ;;
    incr_allocated this ;;
    f ← field this;
    result ← New_move (arena_ f) value;
    append_element this result.

Definition RemoveLast this : stm (store T) unit :=
  f ← field this;
  st_lift (dcheck (0 < current_size_ f)) ;;
  set_current this (current_size_ f - 1) ;;
  p ← get_element this (current_size_ f - 1);
  Clear_object p.

Definition Clear this : stm (store T) unit :=
  f ← field this;
  let n := current_size_ f in
  st_lift (dcheck (0 <= n)) ;;
  if decide (0 < n) then
    r ← the_rep f;
    for_range 0 n (fun i => p ← load_slot r i; Clear_object p) ;;
    set_current this 0
  else mret tt.

(** ** Merging and swapping *)

Definition MergeFromInnerLoop this (our_elems other_elems : Z * Z) (length already_allocated : Z)
    : stm (store T) unit :=
  for_range 0 (Z.min already_allocated length) (fun i =>
    other_elem ← load_slot (fst other_elems) (snd other_elems + i);
    new_elem ← load_slot (fst our_elems) (snd our_elems + i);
    Merge other_elem new_elem) ;;
  arena ← GetArenaNoVirtual this;
  for_range already_allocated length (fun i =>
    other_elem ← load_slot (fst other_elems) (snd other_elems + i);
    new_elem ← NewFromPrototype (Some other_elem) arena;
    Merge other_elem new_elem ;;
    store_slot (fst our_elems) (snd our_elems + i) new_elem).

Definition MergeFromInternal this other
    (inner_loop : Z -> Z * Z -> Z * Z -> Z -> Z -> stm (store T) unit) : stm (store T) unit :=
  fo ← field other;
  let other_size := current_size_ fo in
  other_rep ← the_rep fo;
  new_elements ← InternalExtend this other_size;
  f ← field this;
  n ← allocated this;
  allocated_elems ← st_lift (int_op (n - current_size_ f));
  inner_loop this new_elements (other_rep, 0) other_size allocated_elems ;;
  f ← field this;
  c ← st_lift (int_op (current_size_ f + other_size));
  set_current this c ;;
  n ← allocated this;
  if decide (n < c) then set_allocated this c else mret tt.

Definition MergeFrom this other : stm (store T) unit :=
  st_lift (dcheck (other <> this)) ;;
  fo ← field other;
  if decide (current_size_ fo = 0) then mret tt
  else MergeFromInternal this other MergeFromInnerLoop.

Definition CopyFrom this other : stm (store T) unit :=
  if decide (other = this) then mret tt else Clear this ;; MergeFrom this other.

Definition InternalSwap this other : stm (store T) unit :=
  st_lift (dcheck (this <> other)) ;;
  f ← field this;
  fo ← field other;
  st_lift (dcheck (arena_ f = arena_ fo)) ;;
  set_field this (PF (arena_ f) (current_size_ fo) (total_size_ fo) (rep_ fo)) ;;
  set_field other (PF (arena_ fo) (current_size_ f) (total_size_ f) (rep_ f)).

Definition SwapFallback this other : stm (store T) unit :=
  f ← field this;
  fo ← field other;
  st_lift (dcheck (arena_ fo <> arena_ f)) ;;
  temp ← construct (arena_ fo);
  MergeFrom temp this ;;
  Clear this ;;
  MergeFrom this other ;;
  Clear other ;;
  InternalSwap other temp ;;
  Destroy temp ;;
  end_field temp.

Definition Swap this other : stm (store T) unit :=
  f ← field this;
  fo ← field other;
  if decide (arena_ fo = arena_ f) then InternalSwap this other else SwapFallback this other.

(** ** Passing objects in and out *)

Definition AddFromCleared this : stm (store T) (option Z) :=
  cleared ← has_cleared this;
  if cleared : bool then p ← next_element this; mret (Some p) else mret None.

Definition UnsafeArenaAddAllocated this value : stm (store T) unit :=
  f ← field this;
  (if decide (rep_ f = None \/ current_size_ f = total_size_ f) then
     n ← st_lift (int_op (total_size_ f + 1));
     Reserve this n ;;
     incr_allocated this
   else
     n ← allocated this;
     if decide (n = total_size_ f) then
       p ← get_element this (current_size_ f);
       Delete_value p (arena_ f)
     else if decide (current_size_ f < n) then
       p ← get_element this (current_size_ f);
       set_element this n p ;;
       incr_allocated this
     else incr_allocated this) ;;
  append_element this value.

(** The fast path of both versions of [AddAllocatedInternal]. *)
Definition add_in_place this value : stm (store T) unit :=
  f ← field this;
  n ← allocated this;
  (if decide (current_size_ f < n) then
     p ← get_element this (current_size_ f);
     set_element this n p
   else mret tt) ;;
  append_element this value ;;
  incr_allocated this.
(** [rep_ && rep_->allocated_size < total_size_]. *)
Definition has_room this : stm (store T) bool :=
  f ← field this;
  match rep_ f with
  | Some _ => n ← allocated this; mret (bool_decide (n < total_size_ f))
  | None => mret false
  end.

Definition AddAllocatedSlowWithCopy this value (value_arena my_arena : option Z) : stm (store T) unit :=
  value ← match my_arena, value_arena with
          | Some a, None => Own a value ;; mret value
          | _, _ =>
              if decide (my_arena <> value_arena) then
                new_value ← NewFromPrototype (Some value) my_arena;
                Merge value new_value ;;
                Delete_value value value_arena ;;
                mret new_value
              else mret value
          end;
  UnsafeArenaAddAllocated this value.

Definition AddAllocatedInternal_merge this value : stm (store T) unit :=
  element_arena ← GetMaybeArenaPointer value;
  arena ← GetArenaNoVirtual this;
  room ← has_room this;
  if decide (arena = element_arena /\ room = true) then add_in_place this value
  else value_arena ← GetArena_value value; AddAllocatedSlowWithCopy this value value_arena arena.
Definition AddAllocatedInternal_nomerge this value : stm (store T) unit :=
  room ← has_room this;
  if room : bool then add_in_place this value else UnsafeArenaAddAllocated this value.
Definition AddAllocated this value : stm (store T) unit :=
  if ImplementsMerge then AddAllocatedInternal_merge this value
  else AddAllocatedInternal_nomerge this value.

Definition UnsafeArenaReleaseLast this : stm (store T) Z :=
  f ← field this;
  st_lift (dcheck (0 < current_size_ f)) ;;
  set_current this (current_size_ f - 1) ;;
  result ← get_element this (current_size_ f - 1);
  n ← allocated this;
  set_allocated this (n - 1) ;;
  (if decide (current_size_ f - 1 < n - 1) then
     p ← get_element this (n - 1);
     set_element this (current_size_ f - 1) p
   else mret tt) ;;
  mret result.

Definition ReleaseLastInternal_merge this : stm (store T) Z :=
  result ← UnsafeArenaReleaseLast this;
  arena ← GetArenaNoVirtual this;
  if decide (arena = None) then mret result
  else
    new_result ← NewFromPrototype (Some result) None;
    Merge result new_result ;;
    mret new_result.
Definition ReleaseLastInternal_nomerge this : stm (store T) Z :=
  arena ← GetArenaNoVirtual this;
  st_lift (dcheck (arena = None)) ;;
  UnsafeArenaReleaseLast this.
Definition ReleaseLast this : stm (store T) Z :=
  if ImplementsMerge then ReleaseLastInternal_merge this else ReleaseLastInternal_nomerge this.

Definition ClearedCount this : stm (store T) Z :=
  f ← field this;
  match rep_ f with
  | Some _ => n ← allocated this; st_lift (int_op (n - current_size_ f))
  | None => mret 0
  end.

Definition AddCleared this value : stm (store T) unit :=
  arena ← GetArenaNoVirtual this;
  st_lift (dcheck (arena = None)) ;;
  value_arena ← GetArena_value value;
  st_lift (dcheck (value_arena = None)) ;;
  grow_if_full this ;;
  n ← allocated this;
  set_element this n value ;;
  incr_allocated this.

Definition ReleaseCleared this : stm (store T) Z :=
  arena ← GetArenaNoVirtual this;
  st_lift (dcheck (arena = None)) ;;
  f ← field this;
  st_lift (dcheck (rep_ f <> None)) ;;
  n ← allocated this;
  st_lift (dcheck (current_size_ f < n)) ;;
  set_allocated this (n - 1) ;;
  get_element this (n - 1).

End RepeatedPtrFieldBase.
