(* ===== verification/RepeatedPtrField.v ===== *)
(** * Repeated fields of pointers: the public class ([google/protobuf/repeated_field.h], class RepeatedPtrField)

    The methods that generated code calls; most pass on to [RepeatedPtrFieldBase]
    with the handler of the element type.  The iterators are offsets from
    [begin()]. *)
From Stdlib Require Import ZArith Lia.
From stdpp Require Import base tactics option list list_numbers gmap.
From S2P Require Import Prelude Bits RepeatedField.
From S2P Require Import RepeatedPtrFieldBase.

Section RepeatedPtrField.
  Context {T : Type} `{TypeHandler T} `{PtrFallbacks T}.
  Implicit Types (s : store T) (this other value : Z).

(** ** Passed on *)

Definition empty this : stm (store T) bool := RepeatedPtrFieldBase.empty this.
Definition size this : stm (store T) Z := RepeatedPtrFieldBase.size this.
Definition Get this (index : Z) : stm (store T) T := RepeatedPtrFieldBase.Get this index.
Definition Mutable this (index : Z) : stm (store T) Z := RepeatedPtrFieldBase.Mutable this index.
Definition Add this : stm (store T) Z := RepeatedPtrFieldBase.Add this None.
Definition Add_move this (value : T) : stm (store T) unit := RepeatedPtrFieldBase.Add_move this value.
Definition RemoveLast this : stm (store T) unit := RepeatedPtrFieldBase.RemoveLast this.
Definition Clear this : stm (store T) unit := RepeatedPtrFieldBase.Clear this.
Definition MergeFrom this other : stm (store T) unit := RepeatedPtrFieldBase.MergeFrom this other.
Definition CopyFrom this other : stm (store T) unit := RepeatedPtrFieldBase.CopyFrom this other.
Definition mutable_data this : stm (store T) (option (Z * Z)) := RepeatedPtrFieldBase.mutable_data this.
Definition data this : stm (store T) (option (Z * Z)) := RepeatedPtrFieldBase.data this.
Definition SwapElements this (index1 index2 : Z) : stm (store T) unit :=
  RepeatedPtrFieldBase.SwapElements this index1 index2.
Definition GetArenaNoVirtual this : stm (store T) (option Z) := RepeatedPtrFieldBase.GetArenaNoVirtual this.
Definition SpaceUsedExcludingSelfLong this : stm (store T) Z :=
  RepeatedPtrFieldBase.SpaceUsedExcludingSelfLong this.
Definition AddAllocated this value : stm (store T) unit := RepeatedPtrFieldBase.AddAllocated this value.
Definition UnsafeArenaAddAllocated this value : stm (store T) unit :=
  RepeatedPtrFieldBase.UnsafeArenaAddAllocated this value.
Definition ReleaseLast this : stm (store T) Z := RepeatedPtrFieldBase.ReleaseLast this.
Definition UnsafeArenaReleaseLast this : stm (store T) Z := RepeatedPtrFieldBase.UnsafeArenaReleaseLast this.
Definition ClearedCount this : stm (store T) Z := RepeatedPtrFieldBase.ClearedCount this.
Definition AddCleared this value : stm (store T) unit := RepeatedPtrFieldBase.AddCleared this value.
Definition ReleaseCleared this : stm (store T) Z := RepeatedPtrFieldBase.ReleaseCleared this.
Definition Reserve this (new_size : Z) : stm (store T) unit := RepeatedPtrFieldBase.Reserve this new_size.
Definition Capacity this : stm (store T) Z := RepeatedPtrFieldBase.Capacity this.
Definition begin this : stm (store T) (option (Z * Z)) := RepeatedPtrFieldBase.raw_data this.
Definition end_ this : stm (store T) (option (Z * Z)) :=
  p ← RepeatedPtrFieldBase.raw_data this; n ← size this;
  mret ((fun q => (fst q, snd q + n)) <$> p).

(** ** Construction, assignment, swapping *)

Definition RepeatedPtrField_default : stm (store T) Z := construct None.
Definition RepeatedPtrField_arena (arena : option Z) : stm (store T) Z := construct arena.
Definition RepeatedPtrField_copy other : stm (store T) Z :=
  this ← construct None; MergeFrom this other ;; mret this.
Definition RepeatedPtrField_range (forward : bool) (range : list T) : stm (store T) Z :=
  this ← construct None;
  let reserve := CalculateReserve forward range in
  (if decide (reserve <> -1) then Reserve this reserve else mret tt) ;;
  foldr (fun v k => (p ← Add this; assign p v) ;; k) (mret tt) range ;;
  mret this.
Definition destroy_RepeatedPtrField this : stm (store T) unit := Destroy this ;; end_field this.

Definition UnsafeArenaSwap this other : stm (store T) unit :=
  if decide (this = other) then mret tt else InternalSwap this other.
Definition Swap this other : stm (store T) unit :=
  if decide (this = other) then mret tt else RepeatedPtrFieldBase.Swap this other.

Definition assign_copy this other : stm (store T) unit :=
  if decide (this <> other) then CopyFrom this other else mret tt.
Definition RepeatedPtrField_move other : stm (store T) Z :=
  this ← RepeatedPtrField_default;
  a ← GetArenaNoVirtual other;
  (if decide (a <> None) then CopyFrom this other else InternalSwap this other) ;;
  mret this.
Definition assign_move this other : stm (store T) unit :=
  if decide (this <> other) then
    a ← GetArenaNoVirtual this;
    b ← GetArenaNoVirtual other;
    if decide (a <> b) then CopyFrom this other else InternalSwap this other
  else mret tt.

(** ** Subranges *)

(** [GOOGLE_DCHECK_GE(start, 0)], [GE(num, 0)], [LE(start + num, size())]. *)
Definition check_range this (start num : Z) : stm (store T) unit :=
  st_lift (dcheck (0 <= start)) ;;
  st_lift (dcheck (0 <= num)) ;;
  e ← st_lift (int_op (start + num));
  n ← size this;
  st_lift (dcheck (e <= n)).

(** The pointers are what the code stores into a non-NULL [elements]. *)
Definition UnsafeArenaExtractSubrange this (start num : Z) (wanted : bool)
    : stm (store T) (option (list Z)) :=
  check_range this start num ;;
  if decide (0 < num) then
    out ← (if wanted then ps ← mapM (fun i => Mutable this (i + start)) (seqZ 0 num); mret (Some ps)
           else mret None);
    CloseGap this start num ;;
    mret out
  else mret (if wanted then Some [] else None).

Definition ExtractSubrangeInternal_merge this (start num : Z) (wanted : bool)
    : stm (store T) (option (list Z)) :=
  check_range this start num ;;
  if decide (0 < num) then
    arena ← GetArenaNoVirtual this;
    out ← (if wanted then
             ps ← (if decide (arena <> None) then
                     mapM (fun i =>
                       element ← Mutable this (i + start);
                       new_value ← NewFromPrototype (Some element) None;
                       Merge element new_value ;;
                       mret new_value) (seqZ 0 num)
                   else mapM (fun i => Mutable this (i + start)) (seqZ 0 num));
             mret (Some ps)
           else mret None);
    CloseGap this start num ;;
    mret out
  else mret (if wanted then Some [] else None).

Definition ExtractSubrangeInternal_nomerge this (start num : Z) (wanted : bool)
    : stm (store T) (option (list Z)) :=
  arena ← GetArenaNoVirtual this;
  st_lift (dcheck (arena = None)) ;;
  UnsafeArenaExtractSubrange this start num wanted.

Definition ExtractSubrange this (start num : Z) (wanted : bool) : stm (store T) (option (list Z)) :=
  if ImplementsMerge then ExtractSubrangeInternal_merge this start num wanted
  else ExtractSubrangeInternal_nomerge this start num wanted.

Definition DeleteSubrange this (start num : Z) : stm (store T) unit :=
  check_range this start num ;;
  for_range 0 num (fun i => Delete this (start + i)) ;;
  ExtractSubrange this start num false ;; mret tt.

Definition erase_range this (first last : Z) : stm (store T) Z :=
  n ← st_lift (int_op (last - first));
  DeleteSubrange this first n ;; mret first.
Definition erase this (position : Z) : stm (store T) Z := erase_range this position (position + 1).

End RepeatedPtrField.
