(* ===== verification/RepeatedPtrLogic.v ===== *)
(** * Repeated fields of pointers: the logic of their heap

    The cells of the heap are objects, arrays and fields; what an arena owns is
    garbage once nobody refers to it.  [array] is a field with its array of
    pointers, [shape] adds the objects: first the elements, then the cleared
    objects that are kept for reuse.  [PtrLaws] is what the out-of-line methods
    promise, [HandlerLaws] what the element type does. *)
From Stdlib Require Import ZArith Lia Strings.Byte.
From stdpp Require Import base tactics option list list_numbers gmap.
From iris.bi Require Import bi.
From iris.proofmode Require Import proofmode.
From S2P Require Import Prelude Bits HeapLogic RepeatedPtrFieldBase.

(** ** The heap *)

Section heap.
  Context {T : Type}.
  Implicit Types (s : store T).

#[export] Instance store_empty : Empty (store T) := Store ∅ ∅ ∅.
#[export] Instance store_union : Union (store T) := fun x y =>
  Store (objects x ∪ objects y) (reps x ∪ reps y) (fields x ∪ fields y).
#[export] Instance store_disjoint : Disjoint (store T) := fun x y =>
  objects x ##ₘ objects y /\ reps x ##ₘ reps y /\ fields x ##ₘ fields y.

(** What is on an arena. *)
Definition on_arenas s : Prop :=
  fields s = ∅ /\ (forall p o, objects s !! p = Some o -> obj_owner o <> None) /\
  (forall r x, reps s !! r = Some x -> rep_block x <> None).

#[export] Program Instance store_heap : Heap (store T) := { heap_garbage := on_arenas }.
Next Obligation. done. Qed.
Next Obligation.
  intros x y (Hf & Ho & Hr) (Hf' & Ho' & Hr'). unfold on_arenas. simpl. rw Hf Hf'. split_and!.
  - by rw map_union_empty.
  - intros p o [?|[_ ?]]%lookup_union_Some_raw; eauto.
  - intros r z [?|[_ ?]]%lookup_union_Some_raw; eauto.
Qed.
Next Obligation. intros x y (? & ? & ?). split_and!; by symmetry. Qed.
Next Obligation. intros x. split_and!; apply map_disjoint_empty_r. Qed.
Next Obligation.
  intros x y z. unfold disjoint, store_disjoint. simpl. rw !map_disjoint_union_l. tauto.
Qed.
Next Obligation. intros [x y z]. unfold union, store_union. simpl. by rw !map_union_empty. Qed.
Next Obligation.
  intros x y (? & ? & ?). unfold union, store_union. f_equal; by apply map_union_comm.
Qed.
Next Obligation. intros x y z. unfold union, store_union. simpl. by rw !map_union_assoc. Qed.
End heap.

Abbreviation hP T := (hpropI (store T)).

(** ** Cells *)

Section cells.
  Context {T : Type}.
  Implicit Types (s : store T) (p r this : Z).

Definition obj_pt p (o : object T) : hP T := HProp (fun s => s = Store {[p := o]} ∅ ∅).
Definition rep_pt r (x : Rep) : hP T := HProp (fun s => s = Store ∅ {[r := x]} ∅).
Definition field_pt this (f : RepeatedPtrFieldBase) : hP T := HProp (fun s => s = Store ∅ ∅ {[this := f]}).
End cells.

Notation "p ↦o o" := (obj_pt p o) (at level 20, format "p  ↦o  o") : bi_scope.
Notation "r ↦r x" := (rep_pt r x) (at level 20, format "r  ↦r  x") : bi_scope.
Notation "this ↦f f" := (field_pt this f) (at level 20, format "this  ↦f  f") : bi_scope.

Section rules.
  Context {T : Type}.
  Implicit Types (s : store T) (p r this : Z).

Lemma singleton_union_lookup {V} (i : Z) (v : V) (m : gmap Z V) : ({[i := v]} ∪ m) !! i = Some v.
Proof. apply lookup_union_Some_l. apply lookup_singleton_eq. Qed.

Lemma singleton_union_insert {V} (i : Z) (v w : V) (m : gmap Z V) :
  <[i := w]> ({[i := v]} ∪ m) = {[i := w]} ∪ m.
Proof. by rw insert_union_l insert_singleton_eq. Qed.

Lemma singleton_union_delete {V} (i : Z) (v : V) (m : gmap Z V) :
  {[i := v]} ##ₘ m -> delete i ({[i := v]} ∪ m) = m.
Proof.
  intros Hd. apply map_disjoint_singleton_l in Hd.
  rw delete_union delete_singleton_eq map_empty_union. by apply delete_id.
Qed.

Ltac solve_step := 
  intros [fo fr ff] (Ho & Hr & Hf); simpl in *; split;
  [|split_and!; simpl in *; try apply map_disjoint_empty_l; try done;
    rewrite -> map_disjoint_singleton_l in *; done].

Lemma wpm_object_at p o (Q : object T -> hP T) : ⊢ p ↦o o -∗ (p ↦o o -∗ Q o) -∗ wpm (object_at p) Q.
Proof.
  apply (wpm_step _ (Store {[p := o]} ∅ ∅) (Store {[p := o]} ∅ ∅)); [done|done|]. solve_step.
  unfold object_at, union, store_union. simpl. by rw singleton_union_lookup.
Qed.

Lemma wpm_set_object p o o' (Q : unit -> hP T) :
  ⊢ p ↦o o -∗ (p ↦o o' -∗ Q tt) -∗ wpm (set_object p o') Q.
Proof.
  apply (wpm_step _ (Store {[p := o]} ∅ ∅) (Store {[p := o']} ∅ ∅)); [done|done|]. solve_step.
  unfold set_object, object_at, union, store_union. rw stm_bind_eq. simpl. rw singleton_union_lookup.
  unfold st_modify. simpl. by rw singleton_union_insert.
Qed.

Lemma wpm_delete_object p o (Q : unit -> hP T) :
  obj_owner o = None -> ⊢ p ↦o o -∗ (emp -∗ Q tt) -∗ wpm (delete_object p) Q.
Proof.
  intros Hown. apply (wpm_step _ (Store {[p := o]} ∅ ∅) ∅); [done|done|]. solve_step.
  unfold delete_object, object_at, union, store_union. rw stm_bind_eq. simpl. rw singleton_union_lookup.
  rw decide_True; [|done]. unfold st_modify. simpl. rw singleton_union_delete; [|done].
  by rw !map_empty_union.
Qed.

Lemma wpm_rep_at r x (Q : Rep -> hP T) : ⊢ r ↦r x -∗ (r ↦r x -∗ Q x) -∗ wpm (rep_at r) Q.
Proof.
  apply (wpm_step _ (Store ∅ {[r := x]} ∅) (Store ∅ {[r := x]} ∅)); [done|done|]. solve_step.
  unfold rep_at, union, store_union. simpl. by rw singleton_union_lookup.
Qed.

Lemma wpm_set_rep r x x' (Q : unit -> hP T) : ⊢ r ↦r x -∗ (r ↦r x' -∗ Q tt) -∗ wpm (set_rep r x') Q.
Proof.
  apply (wpm_step _ (Store ∅ {[r := x]} ∅) (Store ∅ {[r := x']} ∅)); [done|done|]. solve_step.
  unfold set_rep, rep_at, union, store_union. rw stm_bind_eq. simpl. rw singleton_union_lookup.
  unfold st_modify. simpl. by rw singleton_union_insert.
Qed.

Lemma wpm_delete_rep r x (Q : unit -> hP T) :
  rep_block x = None -> ⊢ r ↦r x -∗ (emp -∗ Q tt) -∗ wpm (delete_rep r) Q.
Proof.
  intros Hown. apply (wpm_step _ (Store ∅ {[r := x]} ∅) ∅); [done|done|]. solve_step.
  unfold delete_rep, rep_at, union, store_union. rw stm_bind_eq. simpl. rw singleton_union_lookup.
  rw decide_True; [|done]. unfold st_modify. simpl. rw singleton_union_delete; [|done].
  by rw !map_empty_union.
Qed.

Lemma wpm_field this f (Q : RepeatedPtrFieldBase -> hP T) :
  ⊢ this ↦f f -∗ (this ↦f f -∗ Q f) -∗ wpm (field this) Q.
Proof.
  apply (wpm_step _ (Store ∅ ∅ {[this := f]}) (Store ∅ ∅ {[this := f]})); [done|done|]. solve_step.
  unfold field, union, store_union. simpl. by rw singleton_union_lookup.
Qed.

Lemma wpm_set_field this f f' (Q : unit -> hP T) :
  ⊢ this ↦f f -∗ (this ↦f f' -∗ Q tt) -∗ wpm (set_field this f') Q.
Proof.
  apply (wpm_step _ (Store ∅ ∅ {[this := f]}) (Store ∅ ∅ {[this := f']})); [done|done|]. solve_step.
  unfold set_field, field, union, store_union. rw stm_bind_eq. simpl. rw singleton_union_lookup.
  unfold st_modify. simpl. by rw singleton_union_insert.
Qed.

Lemma wpm_end_field this f (Q : unit -> hP T) : ⊢ this ↦f f -∗ (emp -∗ Q tt) -∗ wpm (end_field this) Q.
Proof.
  apply (wpm_step _ (Store ∅ ∅ {[this := f]}) ∅); [done|done|]. solve_step.
  unfold end_field, field, union, store_union. rw stm_bind_eq. simpl. rw singleton_union_lookup.
  unfold st_modify. simpl. rw singleton_union_delete; [|done]. by rw !map_empty_union.
Qed.
End rules.

(** ** Allocation, and the smaller steps *)

Section steps.
  Context {T : Type}.
  Implicit Types (s : store T) (p r this : Z) (a : option Z).

Lemma fresh_none {V} (m : gmap Z V) : m !! fresh (dom m) = None.
Proof. apply not_elem_of_dom, is_fresh. Qed.

Ltac solve_alloc m :=
  intros s; pose proof (fresh_none (m s)) as Hn; eexists; split;
    [unfold union, store_union; cbn [objects reps fields]; rw !map_union_empty;
     rewrite <- insert_union_singleton_r; [done|exact Hn]
    |split_and!; cbn [objects reps fields]; first [apply map_disjoint_empty_r|by apply map_disjoint_singleton_r]].

Lemma wpm_new_object o (Q : Z -> hP T) : (∀ p, p ↦o o -∗ Q p) ⊢ wpm (new_object o) Q.
Proof. apply (wpm_alloc _ (fun p => Store {[p := o]} ∅ ∅)); [|done]. solve_alloc (@objects T). Qed.
Lemma wpm_new_rep x (Q : Z -> hP T) : (∀ r, r ↦r x -∗ Q r) ⊢ wpm (new_rep x) Q.
Proof. apply (wpm_alloc _ (fun r => Store ∅ {[r := x]} ∅)); [|done]. solve_alloc (@reps T). Qed.
Lemma wpm_new_field f (Q : Z -> hP T) : (∀ this, this ↦f f -∗ Q this) ⊢ wpm (new_field f) Q.
Proof. apply (wpm_alloc _ (fun this => Store ∅ ∅ {[this := f]})); [|done]. solve_alloc (@fields T). Qed.

(** What is on an arena may be forgotten. *)
Lemma obj_garbage p o : obj_owner o <> None -> p ↦o o ⊢ (garbage : hP T).
Proof.
  intros Ho. constructor. intros x ->. split_and!; [done| |]; simpl.
  - intros q o' [<- <-]%lookup_singleton_Some. done.
  - intros r y. by rw lookup_empty.
Qed.
Lemma rep_garbage r x : rep_block x <> None -> r ↦r x ⊢ (garbage : hP T).
Proof.
  intros Ho. constructor. intros y ->. split_and!; [done| |]; simpl.
  - intros q o'. by rw lookup_empty.
  - intros r' z [<- <-]%lookup_singleton_Some. done.
Qed.

Lemma wpm_assign p ar ow (v w : T) (Q : unit -> hP T) :
  ⊢ p ↦o Obj ar ow v -∗ (p ↦o Obj ar ow w -∗ Q tt) -∗ wpm (assign p w) Q.
Proof.
  iIntros "Hp HQ". iApply wpm_bind. iApply (wpm_object_at with "Hp"). iIntros "Hp".
  iApply (wpm_set_object with "Hp HQ").
Qed.

Lemma wpm_load_slot r x i p (Q : Z -> hP T) :
  0 <= i -> rep_elements x !! Z.to_nat i = Some (Some p) ->
  ⊢ r ↦r x -∗ (r ↦r x -∗ Q p) -∗ wpm (load_slot r i) Q.
Proof.
  iIntros (Hi Hl) "Hr HQ". iApply wpm_bind. iApply (wpm_rep_at with "Hr"). iIntros "Hr".
  rw decide_True; [|done]. rw Hl. iApply wpm_ret. by iApply "HQ".
Qed.

Lemma wpm_store_slot r a m els i p (Q : unit -> hP T) :
  0 <= i < Z.of_nat (length els) ->
  ⊢ r ↦r MkRep a m els -∗ (r ↦r MkRep a m (<[Z.to_nat i := Some p]> els) -∗ Q tt) -∗ wpm (store_slot r i p) Q.
Proof.
  iIntros (Hi) "Hr HQ". iApply wpm_bind. iApply (wpm_rep_at with "Hr"). iIntros "Hr".
  cbn [rep_elements]. rw decide_True; [|done]. iApply (wpm_set_rep with "Hr HQ").
Qed.

Lemma wpm_int_op n (Q : Z -> hP T) : int_range n -> Q n ⊢ wpm (st_lift (int_op n)) Q.
Proof. intros. apply wpm_lift. by apply int_op_ok. Qed.
End steps.

(** Every heap consists of its cells. *)
Section cells.
  Context {T : Type}.
  Implicit Types (s : store T).

Definition objects_at (m : gmap Z (object T)) : hP T := ([∗ map] p ↦ o ∈ m, p ↦o o)%I.
Definition reps_at (m : gmap Z Rep) : hP T := ([∗ map] r ↦ x ∈ m, r ↦r x)%I.
Definition cells_at (m : gmap Z RepeatedPtrFieldBase) : hP T := ([∗ map] this ↦ f ∈ m, this ↦f f)%I.

(** One kind of cells; [d] makes a heap of them. *)
Lemma cells_of {V} (Φ : Z -> V -> hP T) (d : gmap Z V -> store T) m :
  d ∅ = ∅ -> (forall i v m, m !! i = None -> d (<[i := v]> m) = d {[i := v]} ∪ d m /\ d {[i := v]} ## d m) ->
  (forall i v, holds_of (Φ i v) (d {[i := v]})) ->
  holds_of ([∗ map] i ↦ v ∈ m, Φ i v)%I (d m).
Proof.
  intros H0 HS HΦ. induction m as [|i v m Hi IH] using map_ind.
  - rw H0. apply (entails_in emp%I); [by rw big_sepM_empty|done].
  - apply (entails_in (Φ i v ∗ [∗ map] i ↦ v ∈ m, Φ i v)%I); [by rw big_sepM_insert|].
    destruct (HS i v m Hi) as [-> Hd]. exists (d {[i := v]}), (d m). by split_and!.
Qed.

Ltac solve_cells d :=
  apply (cells_of _ d); [done| |done]; intros i v m' Hi; split;
    [unfold union, store_union; simpl; rw ?right_id_L; by rw insert_union_singleton_l
    |split_and!; simpl; first [by apply map_disjoint_singleton_l|apply map_disjoint_empty_r]].

Lemma store_cells s : holds_of (objects_at (objects s) ∗ reps_at (reps s) ∗ cells_at (fields s))%I s.
Proof.
  destruct s as [mo mr mf].
  assert (holds_of (objects_at mo) (Store mo ∅ ∅)) as Ho by solve_cells (fun m => Store (T := T) m ∅ ∅).
  assert (holds_of (reps_at mr) (Store ∅ mr ∅)) as Hr by solve_cells (fun m => Store (T := T) ∅ m ∅).
  assert (holds_of (cells_at mf) (Store ∅ ∅ mf)) as Hf by solve_cells (fun m => Store (T := T) ∅ ∅ m).
  exists (Store mo ∅ ∅), (Store ∅ mr mf). split_and!.
  - unfold union, store_union. simpl. by rw !right_id_L !left_id_L.
  - split_and!; simpl; first [apply map_disjoint_empty_r|apply map_disjoint_empty_l].
  - done.
  - exists (Store ∅ mr ∅), (Store ∅ ∅ mf). split_and!; [|split_and!; simpl; first [apply map_disjoint_empty_r|apply map_disjoint_empty_l]|done|done].
    unfold union, store_union. simpl. by rw !right_id_L !left_id_L.
Qed.
End cells.

(** ** A field and its array *)

Section arrays.
  Context {T : Type}.
  Implicit Types (s : store T) (p this : Z) (a r : option Z) (n m cap : Z) (els : list (option Z)).

Definition array this a cap n m els r : hP T :=
  (this ↦f PF a n cap r ∗
   match r with Some r => r ↦r MkRep a m els | None => ⟨m = 0 /\ els = []⟩ end ∗
   ⟨Z.of_nat (length els) = cap /\ cap < 2 ^ 31 /\ 0 <= n /\ 0 <= m <= cap⟩)%I.

Lemma wpm_array_field this a cap n m els r (Q : RepeatedPtrFieldBase -> hP T) :
  ⊢ array this a cap n m els r -∗ (array this a cap n m els r -∗ Q (PF a n cap r)) -∗ wpm (field this) Q.
Proof.
  iIntros "(Hf & Hr) HQ". iApply (wpm_field with "Hf"). iIntros "Hf". iApply "HQ". iFrame.
Qed.

Lemma array_pure this a cap n m els r :
  array this a cap n m els r ⊢ array this a cap n m els r ∗
    ⟨Z.of_nat (length els) = cap /\ cap < 2 ^ 31 /\ 0 <= n /\ 0 <= m <= cap /\ (r = None -> els = [])⟩.
Proof.
  iIntros "(Hf & Hr & %Hp)". destruct r; [|iDestruct "Hr" as %[-> ->]]; iFrame; iSplit; iPureIntro; naive_solver.
Qed.

Lemma wpm_allocated this a cap n m els (r : Z) (Q : Z -> hP T) :
  ⊢ array this a cap n m els (Some r) -∗ (array this a cap n m els (Some r) -∗ Q m) -∗ wpm (allocated this) Q.
Proof.
  iIntros "(Hf & Hr & %Hp) HQ". iApply wpm_bind. iApply (wpm_field with "Hf"). iIntros "Hf".
  iApply wpm_bind. iApply wpm_ret. iApply wpm_bind. iApply (wpm_rep_at with "Hr"). iIntros "Hr".
  iApply wpm_ret. iApply "HQ". by iFrame.
Qed.

Lemma wpm_set_allocated this a cap n m m' els (r : Z) (Q : unit -> hP T) :
  0 <= m' <= cap ->
  ⊢ array this a cap n m els (Some r) -∗ (array this a cap n m' els (Some r) -∗ Q tt) -∗
    wpm (set_allocated this m') Q.
Proof.
  iIntros (Hm) "(Hf & Hr & %Hp) HQ". iApply wpm_bind. iApply (wpm_field with "Hf"). iIntros "Hf".
  iApply wpm_bind. iApply wpm_ret. iApply wpm_bind. iApply (wpm_rep_at with "Hr"). iIntros "Hr".
  iApply (wpm_set_rep with "Hr"). iIntros "Hr". iApply "HQ". iFrame. iPureIntro. naive_solver.
Qed.

Lemma wpm_set_current this a cap n n' m els r (Q : unit -> hP T) :
  0 <= n' ->
  ⊢ array this a cap n m els r -∗ (array this a cap n' m els r -∗ Q tt) -∗ wpm (set_current this n') Q.
Proof.
  iIntros (Hn) "(Hf & Hr & %Hp) HQ". iApply wpm_bind. iApply (wpm_field with "Hf"). iIntros "Hf".
  iApply (wpm_set_field with "Hf"). iIntros "Hf". iApply "HQ". iFrame. iPureIntro. naive_solver.
Qed.

Lemma wpm_get_element this a cap n m els r i p (Q : Z -> hP T) :
  0 <= i -> els !! Z.to_nat i = Some (Some p) ->
  ⊢ array this a cap n m els r -∗ (array this a cap n m els r -∗ Q p) -∗ wpm (get_element this i) Q.
Proof.
  iIntros (Hi Hl) "(Hf & Hr & %Hp) HQ". iApply wpm_bind. iApply (wpm_field with "Hf"). iIntros "Hf".
  destruct r as [r|]; [|iDestruct "Hr" as %[-> ->]; done].
  iApply wpm_bind. iApply wpm_ret. iApply (wpm_load_slot with "Hr"); [done|done|]. iIntros "Hr".
  iApply "HQ". by iFrame.
Qed.

Lemma wpm_set_element this a cap n m els r i p (Q : unit -> hP T) :
  0 <= i < cap ->
  ⊢ array this a cap n m els r -∗ (array this a cap n m (<[Z.to_nat i := Some p]> els) r -∗ Q tt) -∗
    wpm (set_element this i p) Q.
Proof.
  iIntros (Hi) "(Hf & Hr & %Hp) HQ". iApply wpm_bind. iApply (wpm_field with "Hf"). iIntros "Hf".
  destruct r as [r|]; [|iDestruct "Hr" as %[-> ->]; simpl in *; lia].
  iApply wpm_bind. iApply wpm_ret. iApply (wpm_store_slot with "Hr"); [lia|]. iIntros "Hr".
  iApply "HQ". iFrame. iPureIntro. rw length_insert. naive_solver.
Qed.

Lemma wpm_has_cleared this a cap n m els r (Q : bool -> hP T) :
  ⊢ array this a cap n m els r -∗ (array this a cap n m els r -∗ Q (bool_decide (n < m))) -∗
    wpm (has_cleared this) Q.
Proof.
  iIntros "Ha HQ". iApply wpm_bind. iApply (wpm_array_field with "Ha"). iIntros "Ha".
  destruct r as [r|]; simpl.
  - iApply wpm_bind. iApply (wpm_allocated with "Ha"). iIntros "Ha". iApply wpm_ret. by iApply "HQ".
  - iDestruct (array_pure with "Ha") as "[Ha %Hp]". iApply wpm_ret.
    destruct Hp as (<- & _ & ? & Hm & Hels). rewrite -> (Hels eq_refl) in *. simpl in Hm.
    rw bool_decide_false; [|lia]. by iApply "HQ".
Qed.

Lemma wpm_has_room this a cap n m els r (Q : bool -> hP T) :
  ⊢ array this a cap n m els r -∗ (array this a cap n m els r -∗ Q (bool_decide (m < cap))) -∗
    wpm (has_room this) Q.
Proof.
  iIntros "Ha HQ". iApply wpm_bind. iApply (wpm_array_field with "Ha"). iIntros "Ha".
  destruct r as [r|]; simpl.
  - iApply wpm_bind. iApply (wpm_allocated with "Ha"). iIntros "Ha". iApply wpm_ret. by iApply "HQ".
  - iDestruct (array_pure with "Ha") as "[Ha %Hp]". iApply wpm_ret.
    destruct Hp as (Hl & _ & ? & Hm & Hels). rewrite -> (Hels eq_refl) in *. simpl in Hl.
    rw bool_decide_false; [|lia]. by iApply "HQ".
Qed.
End arrays.

(** What the out-of-line methods promise: room for at least [k] pointers, or for [k]
    more, the old ones in front; a closed gap. *)
Class PtrLaws (T : Type) `{PtrFallbacks T} := {
  law_Reserve this a cap n m els r k :
    n <= cap -> cap < 2 ^ 30 -> int_range k ->
    array this a cap n m els r ⊢ wpm (Reserve this k) (fun _ => ∃ cap' els' r',
      ⟨k <= cap' /\ cap <= cap' /\ take (Z.to_nat m) els' = take (Z.to_nat m) els⟩ ∗
      array (T := T) this a cap' n m els' r' : hP T);
  law_InternalExtend this a cap n m els r k :
    n <= cap -> cap < 2 ^ 30 -> 0 < k -> int_range (n + k) ->
    array this a cap n m els r ⊢ wpm (InternalExtend this k) (fun x => ∃ cap' els' r',
      ⟨x = (r', n) /\ n + k <= cap' /\ cap <= cap' /\ take (Z.to_nat m) els' = take (Z.to_nat m) els⟩ ∗
      array (T := T) this a cap' n m els' (Some r') : hP T);
  law_CloseGap this a cap n m els r start num :
    0 <= start -> 0 <= num -> start + num <= n -> n <= m ->
    array this a cap n m els r ⊢ wpm (CloseGap this start num) (fun _ => ∃ els',
      ⟨take (Z.to_nat (m - num)) els' =
       take (Z.to_nat start) els ++ drop (Z.to_nat (start + num)) (take (Z.to_nat m) els)⟩ ∗
      array (T := T) this a cap (n - num) (m - num) els' r : hP T);
}.

(** What a type promises: a cleared object is as new, and merging into a new object
    copies. *)
Class HandlerLaws (T : Type) `{TypeHandler T} := {
  law_Clear v : Clear_value v = New_value;
  law_Merge v : Merge_value v New_value = v;
}.
