(* ===== verification/RepeatedPtrOps.v ===== *)
(** * Repeated fields of pointers: what each method does

    [shape this a cap l k] owns the field at [this], its array, its elements, whose
    values are [l], and the cleared objects behind them, whose values are [k].  Each
    method has a triple: what it needs, what it gives back and what it hands to or
    takes from its caller. *)
From Stdlib Require Import ZArith Lia Strings.Byte.
From stdpp Require Import base tactics option list list_numbers gmap.
From iris.bi Require Import bi.
From iris.proofmode Require Import proofmode.
From S2P Require Import Prelude Bits HeapLogic RepeatedPtrFieldBase RepeatedPtrLogic.

(** [f ← field this]. *)
Tactic Notation "wfield" constr(H) :=
  iApply wpm_bind; iApply (wpm_array_field with H); iIntros H; cbn [arena_ current_size_ total_size_ rep_].

(** ** Lists of pointers *)

Definition slots (ps : list Z) : list (option Z) := Some <$> ps.

Lemma slots_app ps qs : slots (ps ++ qs) = slots ps ++ slots qs.
Proof. apply fmap_app. Qed.
Lemma length_slots ps : length (slots ps) = length ps.
Proof. apply length_fmap. Qed.

Lemma slots_lookup ps rest i p : ps !! i = Some p -> (slots ps ++ rest) !! i = Some (Some p).
Proof.
  intros Hi. pose proof (lookup_lt_Some _ _ _ Hi). rw lookup_app_l; [|by rw length_slots].
  unfold slots. by rw list_lookup_fmap Hi.
Qed.

Lemma slots_insert_end ps x rest p :
  <[length ps := Some p]> (slots ps ++ x :: rest) = slots (ps ++ [p]) ++ rest.
Proof. rw insert_app_r_alt length_slots // Nat.sub_diag slots_app -app_assoc. done. Qed.

Lemma slots_insert ps rest i p :
  (i < length ps)%nat -> <[i := Some p]> (slots ps ++ rest) = slots (<[i := p]> ps) ++ rest.
Proof.
  intros Hi. rw insert_app_l; [|by rw length_slots]. unfold slots. by rw list_fmap_insert.
Qed.

Lemma take_slots ps rest els :
  take (length ps) els = take (length ps) (slots ps ++ rest) -> exists rest', els = slots ps ++ rest'.
Proof.
  rw take_app_length'; [|by rw length_slots]. intros Ht. exists (drop (length ps) els).
  by rw -Ht take_drop.
Qed.

(** ** Elements *)

Section elements.
  Context {T : Type}.
  Implicit Types (p this : Z) (a : option Z) (l k : list T) (ps cs : list Z).

Definition elem a p (v : T) : hP T := (∃ ar, p ↦o Obj ar a v ∗ ⟨ar = None \/ ar = a⟩)%I.
Definition elems a ps l : hP T := ([∗ list] p;v ∈ ps;l, elem a p v)%I.

Lemma elems_length a ps l : elems a ps l ⊢ elems a ps l ∗ ⟨length ps = length l⟩.
Proof.
  iIntros "H". iAssert (⌜length ps = length l⌝ ∧ elems a ps l)%I with "[H]" as "[%Hl H]".
  - iSplit; [|done]. iApply (big_sepL2_length with "H").
  - by iFrame.
Qed.

Lemma elems_app a ps1 ps2 l1 l2 : elems a ps1 l1 ∗ elems a ps2 l2 ⊢ elems a (ps1 ++ ps2) (l1 ++ l2).
Proof. iIntros "[H1 H2]". iApply (big_sepL2_app with "H1 H2"). Qed.

Lemma elems_split a ps1 ps2 l :
  elems a (ps1 ++ ps2) l ⊢ ∃ l1 l2, ⟨l = l1 ++ l2⟩ ∗ elems a ps1 l1 ∗ elems a ps2 l2.
Proof.
  unfold elems. rw big_sepL2_app_inv_l. iIntros "(%l1 & %l2 & %E & H1 & H2)".
  iExists l1, l2. by iFrame.
Qed.

Lemma elems_cons a p ps l : elems a (p :: ps) l ⊣⊢ ∃ v l', ⟨l = v :: l'⟩ ∗ elem a p v ∗ elems a ps l'.
Proof.
  unfold elems. destruct l as [|v l].
  - iSplit; [iIntros "[]"|]. iIntros "(%v & %l' & %E & H)". done.
  - rw big_sepL2_cons. iSplit.
    + iIntros "[H1 H2]". iExists v, l. by iFrame.
    + iIntros "(%v' & %l' & %E & H1 & H2)". injection E as <- <-. iFrame.
Qed.

Lemma elems_nil a l : elems a [] l ⊢ ⟨l = []⟩.
Proof. unfold elems. destruct l; [by iIntros "_"|iIntros "[]"]. Qed.

Lemma elems_empty a : ⊢ elems a [] [].
Proof. done. Qed.

Lemma elems_one a p v : elem a p v ⊢ elems a [p] [v].
Proof. unfold elems. rw big_sepL2_singleton. done. Qed.

(** One element, and the rest without it. *)
Lemma elems_acc a ps l i p v :
  ps !! i = Some p -> l !! i = Some v ->
  elems a ps l ⊢ elem a p v ∗ (∀ w, elem a p w -∗ elems a ps (<[i := w]> l)).
Proof.
  iIntros (Hp Hv) "H". unfold elems.
  iDestruct (big_sepL2_insert_acc with "H") as "[$ H]"; [done|done|].
  iIntros (w) "Hw". iDestruct ("H" with "Hw") as "H". by rw list_insert_id.
Qed.

Lemma wpm_elem_at a p v (Q : object T -> hP T) :
  ⊢ elem a p v -∗ (∀ o, ⟨obj_value o = v⟩ -∗ elem a p v -∗ Q o) -∗ wpm (object_at p) Q.
Proof.
  iIntros "(%ar & Hp & %Har) HQ". iApply (wpm_object_at with "Hp"). iIntros "Hp".
  iApply "HQ"; [done|]. iExists ar. by iFrame.
Qed.

Lemma wpm_assign_elem a p v w (Q : unit -> hP T) :
  ⊢ elem a p v -∗ (elem a p w -∗ Q tt) -∗ wpm (assign p w) Q.
Proof.
  iIntros "(%ar & Hp & %Har) HQ". iApply (wpm_assign with "Hp"). iIntros "Hp". iApply "HQ".
  iExists ar. by iFrame.
Qed.
End elements.

(** ** Fields *)

Section arrays.
  Context {T : Type} `{TypeHandler T} `{PtrFallbacks T} `{!PtrLaws T}.
  Implicit Types (p this : Z) (a r : option Z) (n m cap : Z) (els : list (option Z)).

Lemma array_some this a cap n m els r :
  0 < cap -> array (T := T) this a cap n m els r ⊢ ∃ r' : Z, ⟨r = Some r'⟩ ∗ array this a cap n m els (Some r').
Proof.
  iIntros (Hc) "Ha". iDestruct (array_pure with "Ha") as "[Ha %Hp]".
  destruct r as [r|]; [iExists r; by iFrame|]. destruct Hp as (Hl & _ & _ & _ & Hn).
  rewrite -> Hn in Hl by done. simpl in Hl. lia.
Qed.

Lemma wpm_grow_if_full this a cap n m els r (Q : unit -> hP T) :
  n <= m -> (m = cap -> cap < 2 ^ 30) ->
  ⊢ array this a cap n m els r -∗
    (∀ cap' els' (r' : Z), ⟨m < cap' /\ cap <= cap' /\ (m < cap -> cap' = cap) /\
                      take (Z.to_nat m) els' = take (Z.to_nat m) els⟩ -∗
                     array this a cap' n m els' (Some r') -∗ Q tt) -∗
    wpm (grow_if_full this) Q.
Proof.
  iIntros (Hnm Hc) "Ha HQ". iDestruct (array_pure with "Ha") as "[Ha %Hp]".
  destruct Hp as (Hl & _ & Hn & Hm & Hr). wfield "Ha".
  iAssert (∀ full : bool, ⟨full = bool_decide (m = cap)⟩ -∗ array this a cap n m els r -∗
    (∀ cap' els' (r' : Z), ⟨m < cap' /\ cap <= cap' /\ (m < cap -> cap' = cap) /\
                      take (Z.to_nat m) els' = take (Z.to_nat m) els⟩ -∗
                     array this a cap' n m els' (Some r') -∗ Q tt) -∗
    wpm (if full : bool then n ← st_lift (int_op (cap + 1)); Reserve this n else mret tt) Q)%I as "Hk".
  { iIntros (full ->) "Ha HQ". case_bool_decide.
    - wbind. iApply wpm_int_op; [unfold int_range; lia|]. iApply (wpm_wand with "[Ha]").
      { iApply (law_Reserve with "Ha"); unfold int_range; lia. }
      iIntros (?) "(%cap' & %els' & %r' & (%E1 & %E2 & %E3) & Ha)".
      iDestruct (array_some with "Ha") as (r1) "(-> & Ha)"; [lia|]. destruct a0.
      iApply ("HQ" with "[] Ha"). iPureIntro. split_and!; [lia|done|lia|done].
    - iApply wpm_ret. iDestruct (array_some with "Ha") as (r1) "(-> & Ha)"; [lia|].
      iApply ("HQ" with "[] Ha"). iPureIntro. split_and!; [lia|done|done|done]. }
  destruct r as [r|].
  - wbind. wbind. iApply (wpm_allocated with "Ha"). iIntros "Ha". iApply wpm_ret. by iApply ("Hk" $! (bool_decide (m = cap)) with "[] Ha HQ").
  - wbind. iApply wpm_ret. iApply ("Hk" $! true with "[] Ha HQ"). iPureIntro.
    rewrite -> Hr in Hl by done. simpl in Hl. symmetry. apply bool_decide_eq_true. lia.
Qed.

Lemma wpm_incr_allocated this a cap n m els (r : Z) (Q : unit -> hP T) :
  m < cap ->
  ⊢ array this a cap n m els (Some r) -∗ (array this a cap n (m + 1) els (Some r) -∗ Q tt) -∗
    wpm (incr_allocated this) Q.
Proof.
  iIntros (Hm) "Ha HQ". iDestruct (array_pure with "Ha") as "[Ha %Hp]".
  wbind. iApply (wpm_allocated with "Ha"). iIntros "Ha".
  wbind. iApply wpm_int_op; [unfold int_range; lia|]. iApply (wpm_set_allocated with "Ha HQ"). lia.
Qed.

Lemma wpm_next_element this a cap n m els r p (Q : Z -> hP T) :
  els !! Z.to_nat n = Some (Some p) ->
  ⊢ array this a cap n m els r -∗ (array this a cap (n + 1) m els r -∗ Q p) -∗ wpm (next_element this) Q.
Proof.
  iIntros (Hp) "Ha HQ". iDestruct (array_pure with "Ha") as "[Ha %Hpure]".
  pose proof (lookup_lt_Some _ _ _ Hp). wfield "Ha".
  wbind. iApply (wpm_get_element with "Ha"); [lia|done|]. iIntros "Ha".
  wbind. iApply wpm_int_op; [unfold int_range; lia|].
  wbind. iApply (wpm_set_current with "Ha"); [lia|]. iIntros "Ha". iApply wpm_ret. by iApply "HQ".
Qed.

Lemma wpm_append_element this a cap n m els r p (Q : unit -> hP T) :
  n < cap ->
  ⊢ array this a cap n m els r -∗ (array this a cap (n + 1) m (<[Z.to_nat n := Some p]> els) r -∗ Q tt) -∗
    wpm (append_element this p) Q.
Proof.
  iIntros (Hn) "Ha HQ". iDestruct (array_pure with "Ha") as "[Ha %Hpure]". wfield "Ha".
  wbind. iApply (wpm_set_element with "Ha"); [lia|]. iIntros "Ha".
  wbind. iApply wpm_int_op; [unfold int_range; lia|]. iApply (wpm_set_current with "Ha HQ"). lia.
Qed.
End arrays.

(** [shape this a cap l c]: a field on [a] with elements [l] and [c] cleared objects. *)
Section shapes.
  Context {T : Type} `{TypeHandler T}.
  Implicit Types (p this : Z) (a : option Z) (n m cap : Z) (l : list T) (c : nat) (ps cs : list Z).

Definition shape this a cap l c : hP T :=
  (∃ ps cs rest r, array this a cap (Z.of_nat (length ps)) (Z.of_nat (length ps) + Z.of_nat (length cs)) (slots (ps ++ cs) ++ rest) r ∗
    elems a ps l ∗ elems a cs (replicate c New_value))%I.

Lemma shape_intro this a cap ps cs els r l c n m :
  n = Z.of_nat (length ps) -> m = n + Z.of_nat (length cs) ->
  (exists rest, els = slots (ps ++ cs) ++ rest) ->
  ⊢ array this a cap n m els r -∗ elems a ps l -∗ elems a cs (replicate c New_value) -∗ shape this a cap l c.
Proof. iIntros (-> -> [rest ->]) "Ha Hl Hc". iExists ps, cs, rest, r. iFrame. Qed.

(** The sizes that the code compares. *)
Lemma shape_open this a cap l c :
  shape this a cap l c ⊢ ∃ ps cs rest r,
    array this a cap (Z.of_nat (length ps)) (Z.of_nat (length ps) + Z.of_nat (length cs)) (slots (ps ++ cs) ++ rest) r ∗
    elems a ps l ∗ elems a cs (replicate c New_value) ∗
    ⟨length ps = length l /\ length cs = c /\ Z.of_nat (length ps) + Z.of_nat (length cs) <= cap /\ cap < 2 ^ 31⟩.
Proof.
  iIntros "(%ps & %cs & %rest & %r & Ha & Hl & Hc)".
  iDestruct (array_pure with "Ha") as "[Ha %Hp]".
  iDestruct (elems_length with "Hl") as "[Hl %Hl]". iDestruct (elems_length with "Hc") as "[Hc %Hc]".
  rw length_replicate in Hc. iExists ps, cs, rest, r. iFrame. iPureIntro. lia.
Qed.

Lemma shape_bound this a cap l c :
  shape this a cap l c ⊢ shape this a cap l c ∗ ⟨Z.of_nat (length l) + Z.of_nat c <= cap /\ cap < 2 ^ 31⟩.
Proof.
  iIntros "S". iDestruct (shape_open with "S") as "(%ps & %cs & %rest & %r & Ha & Hps & Hcs & %Hp)".
  iSplitL; [|iPureIntro; lia]. iApply (shape_intro with "Ha Hps Hcs"); [done|done|by exists rest].
Qed.

(** The last element by itself. *)
Lemma shape_pop this a cap l c v :
  shape this a cap (l ++ [v]) c ⊢ ∃ ps p cs rest r,
    array this a cap (Z.of_nat (length ps) + 1) (Z.of_nat (length ps) + 1 + Z.of_nat (length cs)) (slots (ps ++ p :: cs) ++ rest) r ∗
    elems a ps l ∗ elem a p v ∗ elems a cs (replicate c New_value) ∗ ⟨length cs = c⟩.
Proof.
  iIntros "S". iDestruct (shape_open with "S") as (ps cs rest r) "(Ha & Hps & Hcs & (%Hlp & %Hlc & _))".
  rw length_app /= in Hlp. destruct (exists_last (l := ps)) as (ps' & p & ->); [by intros ->; simpl in Hlp; lia|].
  iDestruct (elems_split with "Hps") as (l1 l2 E) "[Hps Hp]".
  iDestruct (elems_length with "Hp") as "[Hp %Hl2]". destruct l2 as [|w [|]]; [done| |done].
  apply app_inj_tail in E as [<- <-]. rw elems_cons. iDestruct "Hp" as (w k E) "[Hp Hnil]".
  injection E as <- <-. iDestruct (elems_nil with "Hnil") as "_".
  iExists ps', p, cs, rest, r. rw length_app Nat2Z.inj_add -app_assoc. by iFrame.
Qed.

(** The empty field. *)
Lemma shape_empty this a : this ↦f PF a 0 0 None ⊢ shape this a 0 [] 0.
Proof.
  iIntros "Hf". iExists [], [], [], None. unfold array, elems. iFrame. simpl.
  iPureIntro. split_and!; done || lia.
Qed.

Lemma slots_lookup_end ps cs rest i :
  (i < length cs)%nat ->
  exists p, cs !! i = Some p /\ (slots (ps ++ cs) ++ rest) !! (length ps + i)%nat = Some (Some p).
Proof.
  intros Hi. destruct (lookup_lt_is_Some_2 cs i Hi) as [p Hp]. exists p. split; [done|].
  apply slots_lookup. by rw lookup_app_r; [|lia]; rw Nat.add_sub_swap // Nat.sub_diag.
Qed.

Lemma slots_room ps (els : list (option Z)) rest :
  els = slots ps ++ rest -> (length ps < length els)%nat -> exists x rest', els = slots ps ++ x :: rest'.
Proof.
  intros -> Hl. rw length_app length_slots in Hl. destruct rest as [|x rest]; [simpl in Hl; lia|]. by exists x, rest.
Qed.
End shapes.

Tactic Notation "wopen" constr(S) :=
  iDestruct (shape_open with S) as (ps cs rest r) "(Ha & Hps & Hcs & (%Hlp & %Hlc & %Hcap & %Hmax))".

Section adding.
  Context {T : Type} `{TypeHandler T} `{PtrFallbacks T} `{!PtrLaws T}.
  Implicit Types (p this : Z) (a : option Z) (n m cap : Z) (l : list T) (c : nat) (ps cs : list Z).

(** With nothing cleared: room for one more. *)
Lemma wpm_make_room this a cap ps cs rest r {A} (k : stm (store T) A) (Q : A -> hP T) :
  cs = [] -> (Z.of_nat (length ps) = cap -> cap < 2 ^ 30) ->
  ⊢ array this a cap (Z.of_nat (length ps)) (Z.of_nat (length ps) + Z.of_nat (length cs)) (slots (ps ++ cs) ++ rest) r -∗
    (∀ cap' x rest' (r' : Z), ⟨cap <= cap' /\ (Z.of_nat (length ps) < cap -> cap' = cap)⟩ -∗
       array this a cap' (Z.of_nat (length ps)) (Z.of_nat (length ps) + 1) (slots ps ++ x :: rest') (Some r') -∗ wpm k Q) -∗
    wpm (grow_if_full this ;; incr_allocated this ;; k) Q.
Proof.
  iIntros (-> Hc) "Ha HQ". rw app_nil_r. replace (Z.of_nat (length ps) + Z.of_nat (length [])) with (Z.of_nat (length ps)) by (simpl; lia).
  wbind. iApply (wpm_grow_if_full with "Ha"); [done|done|].
  iIntros (cap' els' r' (Hm & Hle & Heq & Ht)) "Ha". rw Nat2Z.id in Ht.
  destruct (take_slots _ _ _ Ht) as [rest' ->]. iDestruct (array_pure with "Ha") as "[Ha %Hp]".
  destruct (slots_room ps _ rest' eq_refl) as (x & rest'' & ->); [lia|].
  wbind. iApply (wpm_incr_allocated with "Ha"); [lia|]. iIntros "Ha". by iApply ("HQ" with "[] Ha").
Qed.

Lemma wpm_New a ar v (Q : Z -> hP T) : ar = a -> (∀ p, elem a p v -∗ Q p) ⊢ wpm (new_object (Obj ar a v)) Q.
Proof.
  iIntros (->) "HQ". iApply wpm_new_object. iIntros (p) "Hp". iApply "HQ". iExists a. iFrame. by iRight.
Qed.

(** A cleared object is taken into use. *)
Lemma wpm_reuse this a cap ps p cs rest r l (Q : Z -> hP T) :
  ⊢ array this a cap (Z.of_nat (length ps)) (Z.of_nat (length ps) + Z.of_nat (length (p :: cs))) (slots (ps ++ p :: cs) ++ rest) r -∗
    elems a ps l -∗ elems a cs (replicate (length cs) New_value) -∗
    ((∀ w, elem a p w -∗ shape this a cap (l ++ [w]) (length cs)) -∗ Q p) -∗
    wpm (next_element this) Q.
Proof.
  iIntros "Ha Hps Hcs HQ". iApply (wpm_next_element _ _ _ _ _ _ _ p with "Ha").
  { rw Nat2Z.id. apply slots_lookup. by rw lookup_app_r // Nat.sub_diag. }
  iIntros "Ha". iApply "HQ". iIntros (w) "Hp".
  iDestruct (elems_app with "[$Hps Hp]") as "Hps"; [iApply (elems_one with "Hp")|].
  iApply (shape_intro with "Ha Hps Hcs"); rw ?length_app /=; try lia. exists rest. by rw -app_assoc.
Qed.

(** A new element behind the last one. *)
Lemma wpm_append this a cap ps x rest r l p (Q : unit -> hP T) :
  ⊢ array this a cap (Z.of_nat (length ps)) (Z.of_nat (length ps) + 1) (slots ps ++ x :: rest) r -∗
    elems a ps l -∗ ((∀ w, elem a p w -∗ shape this a cap (l ++ [w]) 0) -∗ Q tt) -∗
    wpm (append_element this p) Q.
Proof.
  iIntros "Ha Hps HQ". iDestruct (array_pure with "Ha") as "[Ha %Hp]".
  iApply (wpm_append_element with "Ha"); [lia|]. rw Nat2Z.id slots_insert_end. iIntros "Ha". iApply "HQ".
  iIntros (w) "Hp". iDestruct (elems_app with "[$Hps Hp]") as "Hps"; [iApply (elems_one with "Hp")|].
  iApply (shape_intro _ _ _ _ [] with "Ha Hps []"); rw ?length_app /=; try lia.
  - exists rest. by rw app_nil_r.
  - iApply elems_empty.
Qed.

Lemma wpm_Add this a cap l c prototype (Q : Z -> hP T) :
  (Z.of_nat (length l) = cap -> cap < 2 ^ 30) ->
  ⊢ shape this a cap l c -∗
    (∀ p cap', ⟨cap <= cap' /\ (Z.of_nat (length l) < cap -> cap' = cap)⟩ -∗ elem a p New_value -∗
       (∀ w, elem a p w -∗ shape this a cap' (l ++ [w]) (c - 1)) -∗ Q p) -∗
    wpm (Add this prototype) Q.
Proof.
  iIntros (Hc) "S HQ". wopen "S". wbind. iApply (wpm_has_cleared with "Ha"). iIntros "Ha".
  destruct cs as [|p cs]; simpl in Hlc; subst c.
  - rw bool_decide_false; [|simpl; lia]. iApply (wpm_make_room with "Ha"); [done|by rw Hlp|].
    iIntros (cap' x rest' r' Hcap') "Ha". wfield "Ha". wbind. iApply wpm_New; [done|]. iIntros (p) "Hp".
    wbind. iApply (wpm_append with "Ha Hps"). iIntros "S". iApply wpm_ret.
    iDestruct (elems_nil with "Hcs") as "_". iApply ("HQ" with "[] Hp S"). iPureIntro. by rw -Hlp.
  - rw bool_decide_true; [|simpl; lia]. rw /= elems_cons. iDestruct "Hcs" as (v k E) "[Hp Hcs]".
    injection E as <- <-. iApply (wpm_reuse with "Ha Hps Hcs"). iIntros "S". rw Nat.sub_0_r.
    iApply ("HQ" with "[] Hp S"). done.
Qed.
End adding.

Section accessing.
  Context {T : Type} `{TypeHandler T} `{PtrFallbacks T} `{!PtrLaws T} `{!HandlerLaws T}.
  Implicit Types (p this : Z) (a : option Z) (n m cap : Z) (l : list T) (c : nat) (ps cs : list Z).

Lemma wpm_Add_move this a cap l c v (Q : unit -> hP T) :
  (Z.of_nat (length l) = cap -> cap < 2 ^ 30) ->
  ⊢ shape this a cap l c -∗ (∀ cap', ⟨cap <= cap'⟩ -∗ shape this a cap' (l ++ [v]) (c - 1) -∗ Q tt) -∗
    wpm (Add_move this v) Q.
Proof.
  iIntros (Hc) "S HQ". wopen "S". wbind. iApply (wpm_has_cleared with "Ha"). iIntros "Ha".
  destruct cs as [|p cs]; simpl in Hlc; subst c.
  - rw bool_decide_false; [|simpl; lia]. iApply (wpm_make_room with "Ha"); [done|by rw Hlp|].
    iIntros (cap' x rest' r' [Hcap' _]) "Ha". wfield "Ha". wbind. iApply wpm_New; [done|]. iIntros (p) "Hp".
    iApply (wpm_append with "Ha Hps"). iIntros "S".
    iDestruct (elems_nil with "Hcs") as "_". iApply ("HQ" with "[] (S Hp)"). done.
  - rw bool_decide_true; [|simpl; lia]. rw /= elems_cons. iDestruct "Hcs" as (w k E) "[Hp Hcs]".
    injection E as <- <-. wbind. iApply (wpm_reuse with "Ha Hps Hcs"). iIntros "S". rw Nat.sub_0_r.
    iApply (wpm_assign_elem with "Hp"). iIntros "Hp". by iApply ("HQ" with "[] (S Hp)").
Qed.

(** The fields of the object at [this]. *)
Lemma wpm_shape_field this a cap l c (Q : RepeatedPtrFieldBase -> hP T) :
  ⊢ shape this a cap l c -∗ (∀ r, shape this a cap l c -∗ Q (PF a (Z.of_nat (length l)) cap r)) -∗
    wpm (field this) Q.
Proof.
  iIntros "S HQ". wopen "S". iApply (wpm_array_field with "Ha"). iIntros "Ha". rw Hlp. iApply "HQ".
  iApply (shape_intro with "Ha Hps Hcs"); [lia|lia|by exists rest].
Qed.

(** One element of a field, and the field without it. *)
Lemma wpm_element this a cap l c i v (Q : Z -> hP T) :
  0 <= i -> l !! Z.to_nat i = Some v ->
  ⊢ shape this a cap l c -∗
    (∀ p, elem a p v -∗ (∀ w, elem a p w -∗ shape this a cap (<[Z.to_nat i := w]> l) c) -∗ Q p) -∗
    wpm (get_element this i) Q.
Proof.
  iIntros (Hi Hv) "S HQ". wopen "S". pose proof (lookup_lt_Some _ _ _ Hv).
  destruct (lookup_lt_is_Some_2 ps (Z.to_nat i)) as [p Hp]; [lia|].
  iApply (wpm_get_element with "Ha"); [done| |].
  { apply slots_lookup. rw lookup_app_l; [done|lia]. }
  iIntros "Ha". iDestruct (elems_acc with "Hps") as "[Hp Hps]"; [done|done|].
  iApply ("HQ" with "Hp"). iIntros (w) "Hp". iDestruct ("Hps" with "Hp") as "Hps".
  iApply (shape_intro with "Ha Hps Hcs"); [done|lia|by exists rest].
Qed.

Lemma wpm_Mutable this a cap l c i v (Q : Z -> hP T) :
  0 <= i -> l !! Z.to_nat i = Some v ->
  ⊢ shape this a cap l c -∗
    (∀ p, elem a p v -∗ (∀ w, elem a p w -∗ shape this a cap (<[Z.to_nat i := w]> l) c) -∗ Q p) -∗
    wpm (Mutable this i) Q.
Proof.
  iIntros (Hi Hv) "S HQ". pose proof (lookup_lt_Some _ _ _ Hv). wbind.
  iApply (wpm_shape_field with "S"). iIntros (r) "S". cbn [current_size_].
  wbind. iApply wpm_dcheck; [done|]. wbind. iApply wpm_dcheck; [lia|].
  by iApply (wpm_element with "S").
Qed.

Lemma wpm_Get this a cap l c i v (Q : T -> hP T) :
  0 <= i -> l !! Z.to_nat i = Some v ->
  ⊢ shape this a cap l c -∗ (shape this a cap l c -∗ Q v) -∗ wpm (Get this i) Q.
Proof.
  iIntros (Hi Hv) "S HQ". pose proof (lookup_lt_Some _ _ _ Hv). wbind.
  iApply (wpm_shape_field with "S"). iIntros (r) "S". cbn [current_size_].
  wbind. iApply wpm_dcheck; [done|]. wbind. iApply wpm_dcheck; [lia|].
  wbind. iApply (wpm_element with "S"); [done|done|]. iIntros (p) "Hp S".
  wbind. iApply (wpm_elem_at with "Hp"). iIntros (o <-) "Hp". iApply wpm_ret. iApply "HQ".
  iDestruct ("S" with "Hp") as "S". by rw list_insert_id.
Qed.

Lemma wpm_size this a cap l c (Q : Z -> hP T) :
  ⊢ shape this a cap l c -∗ (shape this a cap l c -∗ Q (Z.of_nat (length l))) -∗ wpm (size this) Q.
Proof.
  iIntros "S HQ". wbind. iApply (wpm_shape_field with "S"). iIntros (r) "S". iApply wpm_ret. by iApply "HQ".
Qed.

Lemma wpm_GetArenaNoVirtual this a cap l c (Q : option Z -> hP T) :
  ⊢ shape this a cap l c -∗ (shape this a cap l c -∗ Q a) -∗ wpm (GetArenaNoVirtual this) Q.
Proof.
  iIntros "S HQ". wbind. iApply (wpm_shape_field with "S"). iIntros (r) "S". iApply wpm_ret. by iApply "HQ".
Qed.

Lemma wpm_Clear_elem a p v (Q : unit -> hP T) :
  ⊢ elem a p v -∗ (elem a p New_value -∗ Q tt) -∗ wpm (Clear_object p) Q.
Proof.
  iIntros "Hp HQ". wbind. iApply (wpm_elem_at with "Hp"). iIntros (o <-) "Hp".
  iApply (wpm_assign_elem with "Hp"). by rw law_Clear.
Qed.

Lemma wpm_Reserve this a cap l c k (Q : unit -> hP T) :
  cap < 2 ^ 30 -> int_range k ->
  ⊢ shape this a cap l c -∗ (∀ cap', ⟨k <= cap' /\ cap <= cap'⟩ -∗ shape this a cap' l c -∗ Q tt) -∗
    wpm (Reserve this k) Q.
Proof.
  iIntros (Hc Hk) "S HQ". wopen "S". iApply (wpm_wand with "[Ha]").
  { iApply (law_Reserve with "Ha"); [lia|done|done]. }
  iIntros ([]) "(%cap' & %els' & %r' & (%E1 & %E2 & %E3) & Ha)".
  iApply ("HQ" $! cap' with "[//]"). rewrite -> Z2Nat.inj_add, !Nat2Z.id in E3 by lia.
  rw -(length_app ps cs) in E3. destruct (take_slots _ _ _ E3) as [rest' ->].
  iApply (shape_intro with "Ha Hps Hcs"); [done|lia|by exists rest'].
Qed.
End accessing.
