(* ===== verification/RepeatedPtrMerge.v ===== *)
(** * Repeated fields of pointers: clearing, merging, swapping, destruction *)
From Stdlib Require Import ZArith Lia Strings.Byte.
From stdpp Require Import base tactics option list list_numbers gmap.
From iris.bi Require Import bi.
From iris.proofmode Require Import proofmode.
From S2P Require Import Prelude Bits HeapLogic RepeatedPtrFieldBase RepeatedPtrLogic RepeatedPtrOps.

(** ** Clearing *)

Section clearing.
  Context {T : Type} `{TypeHandler T} `{PtrFallbacks T} `{!PtrLaws T} `{!HandlerLaws T}.
  Implicit Types (p this : Z) (a : option Z) (n m cap : Z) (l : list T) (c : nat) (ps cs : list Z).

Lemma wpm_array_load this a cap n m els (r : Z) i p (Q : Z -> hP T) :
  0 <= i -> els !! Z.to_nat i = Some (Some p) ->
  ⊢ array this a cap n m els (Some r) -∗ (array this a cap n m els (Some r) -∗ Q p) -∗ wpm (load_slot r i) Q.
Proof.
  iIntros (Hi Hp) "(Hf & Hr & Hpure) HQ". iApply (wpm_load_slot with "Hr"); [done|done|].
  iIntros "Hr". iApply "HQ". iFrame.
Qed.

Lemma wpm_RemoveLast this a cap l c v (Q : unit -> hP T) :
  ⊢ shape this a cap (l ++ [v]) c -∗ (shape this a cap l (c + 1) -∗ Q tt) -∗ wpm (RemoveLast this) Q.
Proof.
  iIntros "S HQ". iDestruct (shape_pop with "S") as (ps p cs rest r) "(Ha & Hps & Hp & Hcs & %Hc)".
  wfield "Ha". wbind. iApply wpm_dcheck; [lia|]. rw Z.add_simpl_r.
  wbind. iApply (wpm_set_current with "Ha"); [lia|]. iIntros "Ha".
  wbind. iApply (wpm_get_element _ _ _ _ _ _ _ _ p with "Ha"); [lia| |].
  { rw Nat2Z.id. apply slots_lookup. by rw lookup_app_r // Nat.sub_diag. }
  iIntros "Ha". iApply (wpm_Clear_elem with "Hp"). iIntros "Hp". iApply "HQ".
  iApply (shape_intro _ _ _ ps (p :: cs) with "Ha Hps [Hp Hcs]"); [done|simpl; lia|by exists rest|].
  rw Nat.add_comm /= elems_cons. iExists _, _. by iFrame.
Qed.

(** A loop over the first pointers of an array. *)
Lemma wpm_each this a cap n m ps rest (r : Z) (body : Z -> stm (store T) unit) (I : nat -> hP T) k (Q : unit -> hP T) :
  (k <= length ps)%nat ->
  (forall i p (R : hP T), ps !! i = Some p -> (i < k)%nat ->
     ⊢ I i -∗ (I (i + 1)%nat -∗ R) -∗ wpm (body p) (fun _ => R)) ->
  ⊢ array this a cap n m (slots ps ++ rest) (Some r) -∗ I 0%nat -∗
    (array this a cap n m (slots ps ++ rest) (Some r) -∗ I k -∗ Q tt) -∗
    wpm (for_range 0 (Z.of_nat k) (fun i => p ← load_slot r i; body p)) Q.
Proof.
  iIntros (Hk Hbody) "Ha HI HQ". iApply (wpm_wand with "[Ha HI]").
  { iApply (wpm_for_range 0 (Z.of_nat k) _
      (fun i => array this a cap n m (slots ps ++ rest) (Some r) ∗ I (Z.to_nat i))%I with "[$Ha $HI]"); [lia|].
    iIntros (i Hi) "[Ha HI]". destruct (lookup_lt_is_Some_2 ps (Z.to_nat i)) as [p Hp]; [lia|].
    wbind. iApply (wpm_array_load with "Ha"); [lia|by apply slots_lookup|]. iIntros "Ha".
    iApply (Hbody with "HI"); [done|lia|]. iIntros "HI". iFrame.
    by replace (Z.to_nat (i + 1)) with (Z.to_nat i + 1)%nat by lia. }
  iIntros ([]) "[Ha HI]". rw Nat2Z.id. iApply ("HQ" with "Ha HI").
Qed.

Lemma replicate_drop_insert {A} (i : nat) (x : A) (l : list A) :
  (i < length l)%nat -> <[i := x]> (replicate i x ++ drop i l) = replicate (i + 1) x ++ drop (i + 1) l.
Proof.
  intros Hi. destruct (lookup_lt_is_Some_2 l i Hi) as [y Hy]. rw (drop_S l y) //.
  rw insert_app_r_alt length_replicate // Nat.sub_diag /=. rw replicate_add -app_assoc /= Nat.add_1_r. done.
Qed.

Lemma wpm_Clear this a cap l c (Q : unit -> hP T) :
  ⊢ shape this a cap l c -∗ (shape this a cap [] (length l + c) -∗ Q tt) -∗ wpm (Clear this) Q.
Proof.
  iIntros "S HQ". wopen "S". wfield "Ha". wbind. iApply wpm_dcheck; [lia|].
  destruct (decide (0 < Z.of_nat (length ps))).
  - iDestruct (array_some with "Ha") as (r') "(-> & Ha)"; [lia|]. wbind. iApply wpm_ret.
    wbind. iApply (wpm_each _ _ _ _ _ (ps ++ cs) _ _ _
      (fun i => elems a ps (replicate i New_value ++ drop i l)) with "Ha [Hps]").
    + rw length_app. lia.
    + iIntros (i p R Hp Hi) "Hps HR". rw lookup_app_l in Hp; [|done].
      destruct (lookup_lt_is_Some_2 l i) as [v Hv]; [lia|].
      iDestruct (elems_acc _ _ _ i p v with "Hps") as "[Hp Hps]"; [done| |].
      { rw lookup_app_r; rw length_replicate; [|lia]. by rw lookup_drop Nat.sub_diag Nat.add_0_r. }
      iApply (wpm_Clear_elem with "Hp"). iIntros "Hp". iApply "HR".
      rw -replicate_drop_insert; [|lia]. by iApply "Hps".
    + by rw drop_0.
    + iIntros "Ha Hps". iApply (wpm_set_current with "Ha"); [done|]. iIntros "Ha". iApply "HQ".
      rw Hlp drop_all app_nil_r.
      iApply (shape_intro _ _ _ [] (ps ++ cs) with "Ha [] [Hps Hcs]"); rw ?length_app /=; try lia.
      * by exists rest.
      * iApply elems_empty.
      * rw replicate_add. iApply (elems_app with "[$Hps $Hcs]").
  - iApply wpm_ret. iApply "HQ". destruct ps as [|]; [|simpl in *; lia]. destruct l; [|done].
    by iApply (shape_intro with "Ha Hps Hcs"); [done|simpl; lia|exists rest].
Qed.
End clearing.

(** ** Merging *)

Section merging.
  Context {T : Type} `{TypeHandler T} `{PtrFallbacks T} `{!PtrLaws T} `{!HandlerLaws T}.
  Implicit Types (p q this other : Z) (a b : option Z) (n m cap : Z) (l k : list T) (c : nat) (ps cs qs : list Z).

Lemma wpm_Merge a b p q v (Q : unit -> hP T) :
  ⊢ elem b q v -∗ elem a p New_value -∗ (elem b q v -∗ elem a p v -∗ Q tt) -∗ wpm (Merge q p) Q.
Proof.
  iIntros "Hq Hp HQ". wbind. iApply (wpm_elem_at with "Hq"). iIntros (o <-) "Hq".
  wbind. iApply (wpm_elem_at with "Hp"). iIntros (o' E) "Hp".
  iApply (wpm_assign_elem with "Hp"). rw E law_Merge. iApply ("HQ" with "Hq").
Qed.

(** Some of our cleared objects, against as many of theirs. *)
Lemma wpm_merge_cleared this a cap n m ps cs rest (r : Z) other b cap' n' m' qs rest' (r' : Z) k c (Q : unit -> hP T) :
  n = Z.of_nat (length ps) -> c = length cs ->
  ⊢ array this a cap n m (slots (ps ++ cs) ++ rest) (Some r) -∗ elems a cs (replicate c New_value) -∗
    array other b cap' n' m' (slots qs ++ rest') (Some r') -∗ elems b qs k -∗
    (array this a cap n m (slots (ps ++ cs) ++ rest) (Some r) -∗
     elems a cs (take c k ++ replicate (c - length k) New_value) -∗
     array other b cap' n' m' (slots qs ++ rest') (Some r') -∗ elems b qs k -∗ Q tt) -∗
    wpm (for_range 0 (Z.min (Z.of_nat c) (Z.of_nat (length k))) (fun i =>
      other_elem ← load_slot r' (0 + i); new_elem ← load_slot r (n + i); Merge other_elem new_elem)) Q.
Proof.
  iIntros (-> ->) "Ha Hcs Hb Hqs HQ". iDestruct (elems_length with "Hqs") as "[Hqs %Hk]".
  iApply (wpm_wand with "[Ha Hcs Hb Hqs]").
  { iApply (wpm_for_range _ _ _ (fun i => array this a cap _ m _ (Some r) ∗
      elems a cs (take (Z.to_nat i) k ++ replicate (length cs - Z.to_nat i) New_value) ∗
      array other b cap' n' m' (slots qs ++ rest') (Some r') ∗ elems b qs k)%I with "[$Ha Hcs $Hb $Hqs]"); [lia| |].
    - iIntros (i Hi) "(Ha & Hcs & Hb & Hqs)".
      destruct (lookup_lt_is_Some_2 k (Z.to_nat i)) as [v Hv]; [lia|].
      destruct (lookup_lt_is_Some_2 qs (Z.to_nat i)) as [q Hq]; [lia|].
      destruct (slots_lookup_end ps cs rest (Z.to_nat i)) as (p & Hp & Hs); [lia|].
      wbind. iApply (wpm_array_load with "Hb"); [lia|by apply slots_lookup|]. iIntros "Hb".
      wbind. iApply (wpm_array_load _ _ _ _ _ _ _ _ p with "Ha"); [lia| |].
      { by replace (Z.to_nat (Z.of_nat (length ps) + i)) with (length ps + Z.to_nat i)%nat by lia. }
      iIntros "Ha". iDestruct (elems_acc _ _ _ (Z.to_nat i) q v with "Hqs") as "[Hq Hqs]"; [done|done|].
      replace (length cs - Z.to_nat i)%nat with (S (length cs - Z.to_nat (i + 1))) by lia.
      iDestruct (elems_acc _ _ _ (Z.to_nat i) p New_value with "Hcs") as "[Hp Hcs]"; [done| |].
      { rw lookup_app_r length_take; [|lia]. by replace (Z.to_nat i - _)%nat with O by lia. }
      iApply (wpm_Merge with "Hq Hp"). iIntros "Hq Hp". iFrame.
      iDestruct ("Hqs" with "Hq") as "Hqs". rw list_insert_id //. iFrame.
      iDestruct ("Hcs" with "Hp") as "Hcs".
      replace (Z.to_nat (i + 1)) with (S (Z.to_nat i)) by lia. rw (take_S_r _ _ v) //.
      rw insert_app_r_alt length_take; [|lia]. replace (Z.to_nat i - _)%nat with O by lia.
      by rw /= -app_assoc.
    - by rw /= Nat.sub_0_r. }
  iIntros ([]) "(Ha & Hcs & Hb & Hqs)". iApply ("HQ" with "Ha [Hcs] Hb Hqs").
  replace (take _ k) with (take (length cs) k); [by replace (length cs - _)%nat with (length cs - length k)%nat by lia|].
  destruct (decide (length cs <= length k)%nat).
  - f_equal. lia.
  - rw !take_ge //; lia.
Qed.

(** A pointer is stored behind those that are there. *)
Lemma wpm_array_store this a cap n m ps rest (r : Z) i p (Q : unit -> hP T) :
  i = Z.of_nat (length ps) -> i < cap ->
  ⊢ array this a cap n m (slots ps ++ rest) (Some r) -∗
    (∀ rest', array this a cap n m (slots (ps ++ [p]) ++ rest') (Some r) -∗ Q tt) -∗
    wpm (store_slot r i p) Q.
Proof.
  iIntros (-> Hi) "(Hf & Hr & %Hpure) HQ". destruct Hpure as (Hl & Hp).
  destruct (slots_room ps _ rest eq_refl) as (x & rest' & E); [lia|]. rw E in Hl |- *.
  iApply (wpm_store_slot with "Hr"); [lia|]. rw Nat2Z.id slots_insert_end. iIntros "Hr".
  iApply ("HQ" $! rest'). iFrame. iPureIntro. split; [|done].
  rw -Hl !length_app !length_slots length_app /=. lia.
Qed.

(** The rest is made anew, behind [os]. *)
Lemma wpm_merge_new this a cap n m ps os rest (r : Z) other b cap' n' m' qs rest' (r' : Z) k c (Q : unit -> hP T) :
  n = Z.of_nat (length ps) -> c = length os -> (c <= length k)%nat -> n + Z.of_nat (length k) <= cap ->
  ⊢ array this a cap n m (slots (ps ++ os) ++ rest) (Some r) -∗ elems a os (take c k) -∗
    array other b cap' n' m' (slots qs ++ rest') (Some r') -∗ elems b qs k -∗
    (∀ ns rest2, array this a cap n m (slots (ps ++ os ++ ns) ++ rest2) (Some r) -∗ elems a (os ++ ns) k -∗
     array other b cap' n' m' (slots qs ++ rest') (Some r') -∗ elems b qs k -∗ Q tt) -∗
    wpm (for_range (Z.of_nat c) (Z.of_nat (length k)) (fun i =>
      other_elem ← load_slot r' (0 + i); new_elem ← NewFromPrototype (Some other_elem) a;
      Merge other_elem new_elem ;; store_slot r (n + i) new_elem)) Q.
Proof.
  iIntros (-> -> Hc Hcap) "Ha Hos Hb Hqs HQ". iDestruct (elems_length with "Hqs") as "[Hqs %Hk]".
  iApply (wpm_wand with "[Ha Hos Hb Hqs]").
  { iApply (wpm_for_range _ _ _ (fun i => ∃ ns rest2, array this a cap _ m (slots (ps ++ os ++ ns) ++ rest2) (Some r) ∗
      elems a (os ++ ns) (take (Z.to_nat i) k) ∗
      array other b cap' n' m' (slots qs ++ rest') (Some r') ∗ elems b qs k)%I with "[Ha Hos Hb Hqs]"); [lia| |].
    - iIntros (i Hi) "(%ns & %rest2 & Ha & Hos & Hb & Hqs)".
      iDestruct (elems_length with "Hos") as "[Hos %Hl]". rw length_take in Hl.
      destruct (lookup_lt_is_Some_2 k (Z.to_nat i)) as [v Hv]; [lia|].
      destruct (lookup_lt_is_Some_2 qs (Z.to_nat i)) as [q Hq]; [lia|].
      wbind. iApply (wpm_array_load with "Hb"); [lia|by apply slots_lookup|]. iIntros "Hb".
      wbind. iApply wpm_New; [done|]. iIntros (p) "Hp".
      iDestruct (elems_acc _ _ _ (Z.to_nat i) q v with "Hqs") as "[Hq Hqs]"; [done|done|].
      wbind. iApply (wpm_Merge with "Hq Hp"). iIntros "Hq Hp".
      iDestruct ("Hqs" with "Hq") as "Hqs". rw (list_insert_id k) //.
      iApply (wpm_array_store _ _ _ _ _ _ rest2 _ _ p with "Ha"); [rw !length_app in Hl |- *; lia..|].
      iIntros (rest3) "Ha". iExists (ns ++ [p]), rest3. rw -!app_assoc. iFrame.
      replace (Z.to_nat (i + 1)) with (S (Z.to_nat i)) by lia. rw (take_S_r _ _ v) // !app_assoc.
      iApply (elems_app with "[$Hos Hp]"). iApply (elems_one with "Hp").
    - iExists [], rest. rw Nat2Z.id !app_nil_r. iFrame. }
  iIntros ([]) "(%ns & %rest2 & Ha & Hos & Hb & Hqs)". rw Nat2Z.id take_ge //. iApply ("HQ" with "Ha Hos Hb Hqs").
Qed.

Lemma wpm_array_arena this a cap n m els r (Q : option Z -> hP T) :
  ⊢ array this a cap n m els r -∗ (array this a cap n m els r -∗ Q a) -∗ wpm (GetArenaNoVirtual this) Q.
Proof. iIntros "Ha HQ". wfield "Ha". iApply wpm_ret. by iApply "HQ". Qed.

Lemma for_range_nil {S} (from upto : Z) (body : Z -> stm S unit) :
  upto <= from -> for_range from upto body = mret tt.
Proof. intros Hl. unfold for_range. rw seqZ_nil //. lia. Qed.

Lemma wpm_MergeFromInnerLoop this a cap n m ps cs rest (r : Z) other b cap' n' m' qs rest' (r' : Z) k c (Q : unit -> hP T) :
  n = Z.of_nat (length ps) -> c = length cs -> n + Z.of_nat (length k) <= cap ->
  ⊢ array this a cap n m (slots (ps ++ cs) ++ rest) (Some r) -∗ elems a cs (replicate c New_value) -∗
    array other b cap' n' m' (slots qs ++ rest') (Some r') -∗ elems b qs k -∗
    (∀ os rest2, array this a cap n m (slots (ps ++ os) ++ rest2) (Some r) -∗
     elems a os (k ++ replicate (c - length k) New_value) -∗
     array other b cap' n' m' (slots qs ++ rest') (Some r') -∗ elems b qs k -∗ Q tt) -∗
    wpm (MergeFromInnerLoop this (r, n) (r', 0) (Z.of_nat (length k)) (Z.of_nat c)) Q.
Proof.
  iIntros (Hn Hc Hcap) "Ha Hcs Hb Hqs HQ". wbind. cbn [fst snd].
  iApply (wpm_merge_cleared with "Ha Hcs Hb Hqs"); [done|done|]. iIntros "Ha Hcs Hb Hqs".
  wbind. iApply (wpm_array_arena with "Ha"). iIntros "Ha".
  destruct (decide (length k <= c)%nat).
  - rw for_range_nil; [|lia]. iApply wpm_ret. rw take_ge //. iApply ("HQ" with "Ha Hcs Hb Hqs").
  - replace (c - length k)%nat with O by lia. rw /= !app_nil_r.
    iApply (wpm_merge_new with "Ha Hcs Hb Hqs"); [done|done|lia|done|].
    iIntros (ns rest2) "Ha Hos Hb Hqs". iApply ("HQ" with "Ha Hos Hb Hqs").
Qed.

Lemma elems_split_at a ps l1 l2 :
  elems a ps (l1 ++ l2) ⊢ ∃ ps1 ps2, ⟨ps = ps1 ++ ps2⟩ ∗ elems (T := T) a ps1 l1 ∗ elems a ps2 l2.
Proof.
  unfold elems. rw big_sepL2_app_inv_r. iIntros "(%p1 & %p2 & %E & H1 & H2)". iExists p1, p2. by iFrame.
Qed.

Lemma wpm_MergeFrom this a cap l c other b cap' k c' (Q : unit -> hP T) :
  this <> other -> cap < 2 ^ 30 -> Z.of_nat (length l) + Z.of_nat (length k) < 2 ^ 31 ->
  ⊢ shape this a cap l c -∗ shape other b cap' k c' -∗
    (∀ cap2, shape this a cap2 (l ++ k) (c - length k) -∗ shape other b cap' k c' -∗ Q tt) -∗
    wpm (MergeFrom this other) Q.
Proof.
  iIntros (Hne Hc Hlk) "S O HQ". wbind. iApply wpm_dcheck; [done|].
  wbind. iApply (wpm_shape_field with "O"). iIntros (ro) "O". cbn [current_size_].
  destruct (decide (Z.of_nat (length k) = 0)) as [Hk|Hk].
  { iApply wpm_ret. destruct k; [|simpl in Hk; lia]. rw app_nil_r Nat.sub_0_r. iApply ("HQ" with "S O"). }
  iDestruct (shape_open with "O") as (qs cs' rest' r') "(Hb & Hqs & Hcs' & (%Hlq & %Hlc' & %Hcap' & _))".
  wopen "S". wfield "Hb". wbind. iDestruct (array_some with "Hb") as (r0) "(-> & Hb)"; [lia|].
  iApply wpm_ret. wbind. iApply (wpm_wand with "[Ha]").
  { iApply (law_InternalExtend with "Ha"); unfold int_range; lia. }
  iIntros (?) "(%cap2 & %els & %r1 & (%E & %Hroom & %Hle & %Ht) & Ha)". rw E.
  iDestruct (array_pure with "Ha") as "[Ha %Hp2]".
  rewrite -> Z2Nat.inj_add, !Nat2Z.id in Ht by lia. rw -(length_app ps cs) in Ht.
  destruct (take_slots _ _ _ Ht) as [rest2 ->].
  wfield "Ha". wbind. iApply (wpm_allocated with "Ha"). iIntros "Ha".
  wbind. iApply wpm_int_op; [unfold int_range; lia|]. rw Hlq Hlc.
  replace (Z.of_nat (length ps) + Z.of_nat c - Z.of_nat (length ps)) with (Z.of_nat c) by lia.
  rw slots_app -app_assoc. wbind.
  iApply (wpm_MergeFromInnerLoop with "Ha Hcs Hb Hqs"); [done|done|lia|].
  iIntros (os rest3) "Ha Hos Hb Hqs". iDestruct (elems_length with "Hos") as "[Hos %Hos]".
  rw length_app length_replicate in Hos.
  iDestruct (elems_split_at with "Hos") as (o1 o2 ->) "[Ho1 Ho2]".
  iDestruct (elems_length with "Ho1") as "[Ho1 %Ho1]". rw length_app in Hos.
  wfield "Ha". wbind. iApply wpm_int_op; [unfold int_range; lia|].
  wbind. iApply (wpm_set_current with "Ha"); [lia|]. iIntros "Ha". wbind. iApply (wpm_allocated with "Ha"). iIntros "Ha".
  iDestruct (elems_app with "[$Hps $Ho1]") as "Hps".
  iDestruct (shape_intro other with "Hb Hqs Hcs'") as "O"; [lia|lia|by exists rest'; rw slots_app -app_assoc|].
  case_decide; [iApply (wpm_set_allocated with "Ha"); [lia|]; iIntros "Ha"|iApply wpm_ret];
    (iApply ("HQ" with "[-O] O"); iApply (shape_intro with "Ha Hps Ho2"); rw ?length_app; [lia|lia|];
     exists rest3; by rw -!app_assoc).
Qed.

Lemma wpm_CopyFrom this a cap l c other b cap' k c' (Q : unit -> hP T) :
  this <> other -> cap < 2 ^ 30 ->
  ⊢ shape this a cap l c -∗ shape other b cap' k c' -∗
    (∀ cap2, shape this a cap2 k (length l + c - length k) -∗ shape other b cap' k c' -∗ Q tt) -∗
    wpm (CopyFrom this other) Q.
Proof.
  iIntros (Hne Hc) "S O HQ". unfold CopyFrom. rw decide_False; [|congruence].
  wbind. iApply (wpm_Clear with "S"). iIntros "S".
  iDestruct (shape_open with "O") as (qs cs rest r) "(Hb & Hqs & Hcs & (%Hlp & %Hlc & %Hcap & %Hmax))".
  iApply (wpm_MergeFrom with "S [Hb Hqs Hcs] HQ"); [done|done|simpl; lia|].
  iApply (shape_intro with "Hb Hqs Hcs"); [done|lia|by exists rest].
Qed.
End merging.

(** ** Destruction and swapping *)

Section destroying.
  Context {T : Type} `{TypeHandler T} `{PtrFallbacks T} `{!PtrLaws T} `{!HandlerLaws T}.
  Implicit Types (p q this other : Z) (a b : option Z) (n m cap : Z) (l k : list T) (c : nat) (ps cs qs : list Z).

Lemma elem_garbage a p (v : T) : a <> None -> elem a p v ⊢ garbage.
Proof.
  intros Ha. iIntros "(%ar & Hp & _)". iApply (obj_garbage with "Hp"). done.
Qed.
Lemma elems_garbage a ps l : a <> None -> elems a ps l ⊢ garbage.
Proof.
  intros Ha. revert l. induction ps as [|p ps IH]; intros l.
  - rw elems_nil. apply garbage_pure.
  - rw elems_cons. iIntros "(%v & %l' & _ & H)". iApply (garbage_sep with "H"); [by apply elem_garbage|apply IH].
Qed.

Lemma wpm_delete_elem a p v (Q : unit -> hP T) :
  ⊢ elem a p v -∗ Q tt -∗ wpm (Delete_value p a) Q.
Proof.
  iIntros "Hp HQ". unfold Delete_value. case_decide as Ha.
  - iDestruct "Hp" as "(%ar & Hp & _)". iApply (wpm_delete_object with "Hp"); [done|]. by iIntros "_".
  - iApply (wpm_drop with "[Hp]"); [by iApply (elem_garbage with "Hp")|]. by iApply wpm_ret.
Qed.

Lemma wpm_Destroy this a cap l c (Q : unit -> hP T) :
  ⊢ shape this a cap l c -∗ (∀ f, this ↦f f -∗ Q tt) -∗ wpm (Destroy this) Q.
Proof.
  iIntros "S HQ". wopen "S". wfield "Ha".
  iDestruct (elems_app with "[$Hps $Hcs]") as "Hos".
  iAssert (∀ f, this ↦f f -∗ wpm (f ← field this; set_field this (PF (arena_ f) (current_size_ f) (total_size_ f) None)) Q)%I
    with "[HQ]" as "Hk".
  { iIntros (f) "Hf". wbind. iApply (wpm_field with "Hf"). iIntros "Hf".
    iApply (wpm_set_field with "Hf"). iApply "HQ". }
  wbind. destruct r as [r|]; last first.
  { iApply wpm_ret. iDestruct "Ha" as "(Hf & (%Hm & %Hels) & _)". destruct ps, cs; try done.
    iDestruct (elems_nil with "Hos") as "_". iApply ("Hk" with "Hf"). }
  destruct a as [a|].
  { case_decide; [done|]. iApply wpm_ret. iDestruct "Ha" as "(Hf & Hr & _)".
    iApply (wpm_drop with "[Hos]"); [by iApply (elems_garbage with "Hos")|].
    iApply (wpm_drop with "[Hr]"); [by iApply (rep_garbage with "Hr")|]. iApply ("Hk" with "Hf"). }
  case_decide; [|done]. wbind. iApply (wpm_allocated with "Ha"). iIntros "Ha". wbind.
  rw -Nat2Z.inj_add -length_app.
  iApply (wpm_each _ _ _ _ _ (ps ++ cs) _ _ (fun p => Delete_value p None)
    (fun i => elems None (drop i (ps ++ cs)) (drop i (l ++ replicate c New_value))) with "Ha [Hos]"); [done| |done|].
  - iIntros (i p R Hp Hi) "Hos HR". rw (drop_S _ p) //. rw elems_cons.
    iDestruct "Hos" as (v l' E) "[Hp Hos]". iApply (wpm_delete_elem with "Hp"). iApply "HR".
    rw -(drop_drop (l ++ _)) E Nat.add_1_r. done.
  - iIntros "Ha Hos". rw drop_all. iDestruct (elems_nil with "Hos") as "_".
    iDestruct "Ha" as "(Hf & Hr & _)". iApply (wpm_delete_rep with "Hr"); [done|]. iIntros "_". iApply ("Hk" with "Hf").
Qed.

Lemma wpm_InternalSwap this other a cap l c cap' k c' (Q : unit -> hP T) :
  this <> other ->
  ⊢ shape this a cap l c -∗ shape other a cap' k c' -∗
    (shape this a cap' k c' -∗ shape other a cap l c -∗ Q tt) -∗ wpm (InternalSwap this other) Q.
Proof.
  iIntros (Hne) "(%ps & %cs & %rest & %r & Ha & Hps & Hcs) (%qs & %ds & %rest' & %r' & Hb & Hqs & Hds) HQ".
  wbind. iApply wpm_dcheck; [done|]. wfield "Ha". wfield "Hb". wbind. iApply wpm_dcheck; [done|].
  iDestruct "Ha" as "(Hf & Ha)". iDestruct "Hb" as "(Hg & Hb)".
  wbind. iApply (wpm_set_field with "Hf"). iIntros "Hf". iApply (wpm_set_field with "Hg"). iIntros "Hg".
  iApply ("HQ" with "[Hf Hb Hqs Hds] [Hg Ha Hps Hcs]").
  - iExists qs, ds, rest', r'. iFrame.
  - iExists ps, cs, rest, r. iFrame.
Qed.

Lemma field_ne this other f g :
  this ↦f f ∗ other ↦f g ⊢ (⟨this <> other⟩ ∗ this ↦f f ∗ other ↦f g : hP T).
Proof.
  iIntros "H". iAssert (⌜this <> other⌝ ∧ (this ↦f f ∗ other ↦f g))%I with "[H]" as "[%Hne H]".
  - iSplit; [|done]. iStopProof. constructor. intros x (y & z & _ & (_ & _ & Hd) & -> & ->) ->. simpl in Hd.
    apply map_disjoint_singleton_l in Hd. by rw lookup_singleton_eq in Hd.
  - by iFrame.
Qed.

Lemma shape_ne this a cap l c other b cap' k c' :
  shape this a cap l c ∗ shape other b cap' k c' ⊢
  ⟨this <> other⟩ ∗ shape this a cap l c ∗ shape other b cap' k c'.
Proof.
  iIntros "[(%ps & %cs & %rest & %r & (Hf & Ha) & Hps) (%qs & %ds & %rest' & %r' & (Hg & Hb) & Hqs)]".
  iDestruct (field_ne with "[$Hf $Hg]") as "($ & Hf & Hg)".
  iSplitL "Hf Ha Hps"; [iExists ps, cs, rest, r|iExists qs, ds, rest', r']; iFrame.
Qed.

Lemma wpm_construct a (Q : Z -> hP T) : (∀ this, shape this a 0 [] 0 -∗ Q this) ⊢ wpm (construct a) Q.
Proof.
  iIntros "HQ". iApply wpm_new_field. iIntros (this) "Hf". iApply "HQ". by iApply shape_empty.
Qed.

Lemma wpm_SwapFallback this other a cap l c b cap' k c' (Q : unit -> hP T) :
  a <> b -> cap < 2 ^ 30 ->
  ⊢ shape this a cap l c -∗ shape other b cap' k c' -∗
    (∀ cap2 cap3, shape this a cap2 k (length l + c - length k) -∗ shape other b cap3 l 0 -∗ Q tt) -∗
    wpm (SwapFallback this other) Q.
Proof.
  iIntros (Hab Hc) "S O HQ". iDestruct (shape_ne with "[$S $O]") as "(%Hne & S & O)".
  wbind. iApply (wpm_shape_field with "S"). iIntros (r) "S". wbind. iApply (wpm_shape_field with "O"). iIntros (r') "O".
  wbind. iApply wpm_dcheck; [done|]. wbind. iApply wpm_construct. iIntros (temp) "X".
  iDestruct (shape_ne with "[$X $S]") as "(%Hxt & X & S)". iDestruct (shape_ne with "[$X $O]") as "(%Hxo & X & O)".
  iDestruct (shape_bound with "S") as "[S %Hl]". iDestruct (shape_bound with "O") as "[O %Hk]".
  wbind. iApply (wpm_MergeFrom with "X S"); [done|done|simpl; lia|]. iIntros (cap3) "X S".
  wbind. iApply (wpm_Clear with "S"). iIntros "S".
  wbind. iApply (wpm_MergeFrom with "S O"); [done|done|simpl; lia|]. iIntros (cap2) "S O".
  wbind. iApply (wpm_Clear with "O"). iIntros "O".
  wbind. iApply (wpm_InternalSwap with "O X"); [done|]. iIntros "O X".
  wbind. iApply (wpm_Destroy with "X"). iIntros (f) "Hf".
  iApply (wpm_end_field with "Hf"). iIntros "_". iApply ("HQ" with "S O").
Qed.

(** After [Swap] each field has the other's elements, on its own arena. *)
Lemma wpm_Swap this other a cap l c b cap' k c' (Q : unit -> hP T) :
  cap < 2 ^ 30 ->
  ⊢ shape this a cap l c -∗ shape other b cap' k c' -∗
    (∀ cap2 cap3, shape this a cap2 k (if decide (a = b) then c' else (length l + c - length k)%nat) -∗
                  shape other b cap3 l (if decide (a = b) then c else 0%nat) -∗ Q tt) -∗
    wpm (Swap this other) Q.
Proof.
  iIntros (Hc) "S O HQ". iDestruct (shape_ne with "[$S $O]") as "(%Hne & S & O)".
  wbind. iApply (wpm_shape_field with "S"). iIntros (r) "S". wbind. iApply (wpm_shape_field with "O"). iIntros (r') "O".
  cbn [arena_]. case_decide as Hab.
  - subst b. rw decide_True //. iApply (wpm_InternalSwap with "S O"); [done|]. iApply "HQ".
  - rw decide_False; [|congruence]. iApply (wpm_SwapFallback with "S O HQ"); [congruence|done].
Qed.
End destroying.
