(* ===== verification/RepeatedPtrOwn.v ===== *)
(** * Repeated fields of pointers: objects that come and go

    The methods that take an object from the caller or give one to it, and the
    methods that take a range of elements out. *)
From Stdlib Require Import ZArith Lia Strings.Byte.
From stdpp Require Import base tactics option list list_numbers gmap.
From iris.bi Require Import bi.
From iris.proofmode Require Import proofmode.
From S2P Require Import Prelude Bits HeapLogic RepeatedPtrFieldBase RepeatedPtrLogic RepeatedPtrOps RepeatedPtrMerge.

Section slots.
  Implicit Types (p q : Z) (ps cs : list Z) (rest : list (option Z)).

(** The new element takes the place of the first cleared object. *)
Lemma slots_take_place p q ps cs rest :
  <[length ps := Some p]> (slots (ps ++ q :: cs) ++ rest) = slots ((ps ++ [p]) ++ cs) ++ rest.
Proof.
  rw slots_insert; [|rw length_app /=; lia]. rw insert_app_r_alt // Nat.sub_diag /= -app_assoc. done.
Qed.

(** The last cleared object fills the place of the element before the cleared ones. *)
Lemma slots_fill p q ps cs rest :
  <[length ps := Some q]> (slots (ps ++ p :: cs ++ [q]) ++ rest) = slots (ps ++ q :: cs) ++ Some q :: rest.
Proof.
  rw slots_take_place !slots_app -!app_assoc /=. done.
Qed.
End slots.

(** ** Objects taken *)

Section taking.
  Context {T : Type} `{TypeHandler T} `{PtrFallbacks T} `{!PtrLaws T} `{!HandlerLaws T}.
  Implicit Types (p q this : Z) (a : option Z) (n m cap : Z) (l : list T) (c : nat) (ps cs qs : list Z).

(** The first cleared object is copied to the end: [elems[m] = elems[n]]. *)
Lemma wpm_move_cleared this a cap n m ps q cs rest r (Q : unit -> hP T) :
  n = Z.of_nat (length ps) -> m = n + Z.of_nat (length (q :: cs)) -> m < cap ->
  ⊢ array this a cap n m (slots (ps ++ q :: cs) ++ rest) r -∗
    (∀ rest', array this a cap n m (slots (ps ++ q :: cs ++ [q]) ++ rest') r -∗ Q tt) -∗
    wpm (p ← get_element this n; set_element this m p) Q.
Proof.
  iIntros (-> -> Hm) "Ha HQ". iDestruct (array_pure with "Ha") as "[Ha %Hp]".
  wbind. iApply (wpm_get_element _ _ _ _ _ _ _ _ q with "Ha"); [lia| |].
  { rw Nat2Z.id. apply slots_lookup. by rw lookup_app_r // Nat.sub_diag. }
  iIntros "Ha". iApply (wpm_set_element with "Ha"); [lia|]. iIntros "Ha".
  destruct (slots_room (ps ++ q :: cs) _ rest eq_refl) as (x & rest' & ->); [rw length_app; lia|].
  replace (Z.to_nat _) with (length (ps ++ q :: cs)) by (rw length_app; lia).
  rw slots_insert_end -app_assoc /=. iApply ("HQ" with "Ha").
Qed.

(** The new element takes the place of [q]. *)
Lemma wpm_append_over this a cap n m ps q cs rest r l c p v (Q : unit -> hP T) :
  n = Z.of_nat (length ps) -> m = n + 1 + Z.of_nat (length cs) ->
  ⊢ array this a cap n m (slots (ps ++ q :: cs) ++ rest) r -∗ elems a ps l -∗ elem a p v -∗
    elems a cs (replicate c New_value) -∗ (shape this a cap (l ++ [v]) c -∗ Q tt) -∗
    wpm (append_element this p) Q.
Proof.
  iIntros (-> ->) "Ha Hps Hp Hcs HQ". iDestruct (array_pure with "Ha") as "[Ha %Hpure]".
  iApply (wpm_append_element with "Ha"); [lia|]. rw Nat2Z.id slots_take_place. iIntros "Ha". iApply "HQ".
  iDestruct (elems_app with "[$Hps Hp]") as "Hps"; [iApply (elems_one with "Hp")|].
  iApply (shape_intro with "Ha Hps Hcs"); rw ?length_app /=; [lia|lia|]. by exists rest.
Qed.

(** Cleared objects are alike. *)
Lemma elems_cleared_cons a q cs c :
  elems a (q :: cs) (replicate (S c) New_value) ⊣⊢ elem (T := T) a q New_value ∗ elems a cs (replicate c New_value).
Proof.
  rw elems_cons. iSplit; [|iIntros "[Hq Hcs]"; iExists _, _; by iFrame].
  iIntros "(%v & %l & %E & Hq & Hcs)". injection E as <- <-. iFrame.
Qed.
Lemma elems_cleared_snoc a q cs c :
  elems a (cs ++ [q]) (replicate (S c) New_value) ⊣⊢ elem (T := T) a q New_value ∗ elems a cs (replicate c New_value).
Proof.
  iSplit.
  - iIntros "H". rw -Nat.add_1_r replicate_add. unfold elems.
    iDestruct (big_sepL2_app_inv with "H") as "[$ H]"; [by right|]. by rw /= right_id.
  - iIntros "[Hq Hcs]". rw -Nat.add_1_r replicate_add. iApply (elems_app with "[$Hcs Hq]"). iApply (elems_one with "Hq").
Qed.
Lemma elems_to_end a q cs c :
  elems a (q :: cs) (replicate c New_value) ⊢ elems (T := T) a (cs ++ [q]) (replicate c New_value).
Proof.
  destruct c as [|c]; [|by rw elems_cleared_cons elems_cleared_snoc]. by iIntros "[]".
Qed.

(** [c'] cleared objects are left of [c]: at most one is deleted. *)
Lemma wpm_UnsafeArenaAddAllocated this a cap l c p v (Q : unit -> hP T) :
  cap < 2 ^ 30 ->
  ⊢ shape this a cap l c -∗ elem a p v -∗
    (∀ cap' c', ⟨(c' <= c <= c' + 1)%nat⟩ -∗ shape this a cap' (l ++ [v]) c' -∗ Q tt) -∗
    wpm (UnsafeArenaAddAllocated this p) Q.
Proof.
  iIntros (Hc) "S Hp HQ". wopen "S". wfield "Ha". iDestruct (array_pure with "Ha") as "[Ha %Hpure]". wbind.
  case_decide as Hfull.
  { assert (cs = []) as ->. { destruct cs; [done|]. destruct Hfull as [->|]; [|simpl in *; lia].
      destruct Hpure as (Hl & _ & _ & _ & Hn). rewrite -> Hn in Hl by done. simpl in *. lia. }
    simpl in Hlc. subst c. iDestruct (elems_nil with "Hcs") as "_". rw app_nil_r Z.add_0_r.
    wbind. iApply wpm_int_op; [unfold int_range; lia|]. wbind. iApply (wpm_wand with "[Ha]").
    { iApply (law_Reserve with "Ha"); unfold int_range; lia. }
    iIntros ([]) "(%cap' & %els' & %r' & (%E1 & %E2 & %E3) & Ha)". rw Nat2Z.id in E3.
    destruct (take_slots _ _ _ E3) as [rest' ->]. iDestruct (array_some with "Ha") as (r0) "(-> & Ha)"; [lia|].
    iDestruct (array_pure with "Ha") as "[Ha %Hpure']".
    destruct (slots_room ps _ rest' eq_refl) as (x & rest2 & ->); [lia|].
    iApply (wpm_incr_allocated with "Ha"); [destruct Hfull as [->|]; [|lia]|].
    { destruct Hpure as (Hl & _ & _ & _ & Hn). rewrite -> Hn in Hl by done. simpl in *. lia. }
    iIntros "Ha". iApply (wpm_append with "Ha Hps"). iIntros "S". iApply ("HQ" with "[] (S Hp)"). iPureIntro. lia. }
  assert (exists r0, r = Some r0) as [r0 ->] by (destruct r; [eauto|naive_solver]).
  wbind. iApply (wpm_allocated with "Ha"). iIntros "Ha". destruct cs as [|q cs]; simpl in Hlc; subst c.
  - iDestruct (elems_nil with "Hcs") as "_". rw app_nil_r Z.add_0_r.
    destruct (slots_room ps _ rest eq_refl) as (x & rest2 & ->); [rw app_nil_r in Hpure; lia|].
    rw decide_False; [|simpl in *; lia]. rw decide_False; [|simpl; lia].
    iApply (wpm_incr_allocated with "Ha"); [simpl in *; lia|].
    iIntros "Ha". iApply (wpm_append with "Ha Hps"). iIntros "S". iApply ("HQ" with "[] (S Hp)"). iPureIntro. lia.
  - case_decide.
    + wbind. iApply (wpm_get_element _ _ _ _ _ _ _ _ q with "Ha"); [lia| |].
      { rw Nat2Z.id. apply slots_lookup. by rw lookup_app_r // Nat.sub_diag. }
      iIntros "Ha". rw /= elems_cons. iDestruct "Hcs" as (w k E) "[Hq Hcs]". injection E as <- <-.
      iApply (wpm_delete_elem with "Hq"). iApply (wpm_append_over with "Ha Hps Hp Hcs"); [done|simpl; lia|].
      iApply "HQ". iPureIntro. lia.
    + rw decide_True; [|simpl; lia]. iApply wpm_bind_assoc.
      wbind. iApply (wpm_move_cleared with "Ha"); [done|done|simpl in *; lia|]. iIntros (rest') "Ha".
      iApply (wpm_incr_allocated with "Ha"); [simpl in *; lia|]. iIntros "Ha".
      iDestruct (elems_to_end with "Hcs") as "Hcs".
      iApply (wpm_append_over with "Ha Hps Hp Hcs"); [done|rw length_app /=; lia|]. iApply "HQ". iPureIntro. lia.
Qed.

(** The fast path, when there is a free slot. *)
Lemma wpm_add_in_place this a cap l c p v (Q : unit -> hP T) :
  Z.of_nat (length l) + Z.of_nat c < cap ->
  ⊢ shape this a cap l c -∗ elem a p v -∗ (shape this a cap (l ++ [v]) c -∗ Q tt) -∗
    wpm (add_in_place this p) Q.
Proof.
  iIntros (Hc) "S Hp HQ". wopen "S". wfield "Ha". iDestruct (array_pure with "Ha") as "[Ha %Hpure]".
  iDestruct (array_some with "Ha") as (r0) "(-> & Ha)"; [lia|].
  wbind. iApply (wpm_allocated with "Ha"). iIntros "Ha". wbind. destruct cs as [|q cs]; simpl in Hlc; subst c.
  - rw decide_False; [|simpl; lia]. iApply wpm_ret. rw app_nil_r Z.add_0_r in Hpure |- *.
    destruct (slots_room ps _ rest eq_refl) as (x & rest2 & ->); [simpl in *; lia|].
    wbind. iApply (wpm_append_element with "Ha"); [simpl in *; lia|]. rw Nat2Z.id slots_insert_end. iIntros "Ha".
    iApply (wpm_incr_allocated with "Ha"); [simpl in *; lia|]. iIntros "Ha". iApply "HQ".
    iDestruct (elems_app with "[$Hps Hp]") as "Hps"; [iApply (elems_one with "Hp")|].
    iApply (shape_intro with "Ha Hps Hcs"); rw ?length_app /=; [lia|lia|]. exists rest2. by rw app_nil_r.
  - rw decide_True; [|simpl; lia]. iApply (wpm_move_cleared with "Ha"); [done|done|simpl in *; lia|].
    iIntros (rest') "Ha". wbind. iApply (wpm_append_element with "Ha"); [lia|].
    rw Nat2Z.id slots_take_place. iIntros "Ha".
    iApply (wpm_incr_allocated with "Ha"); [simpl in *; lia|]. iIntros "Ha". iApply "HQ".
    iDestruct (elems_to_end with "Hcs") as "Hcs". iDestruct (elems_app with "[$Hps Hp]") as "Hps"; [iApply (elems_one with "Hp")|].
    iApply (shape_intro with "Ha Hps Hcs"); rw ?length_app /=; [lia|lia|]. by exists rest'.
Qed.

(** An object that is where it says it is. *)
Definition honest (o : object T) : Prop :=
  obj_arena o = obj_owner o /\ GetArena_of o = obj_owner o /\ GetMaybeArenaPointer_of o = obj_owner o.

(** What [AddAllocated] may be given. *)
Definition adoptable a (o : object T) : Prop :=
  if ImplementsMerge then honest o else obj_owner o = a /\ (obj_arena o = None \/ obj_arena o = a).

Lemma obj_elem a p (o : object T) :
  obj_owner o = a -> obj_arena o = None \/ obj_arena o = a -> p ↦o o ⊢ elem a p (obj_value o).
Proof. intros <- Ho. iIntros "Hp". iExists (obj_arena o). destruct o. by iFrame. Qed.

Lemma elem_obj a p (v : T) :
  elem a p v ⊢ ∃ o, ⟨obj_owner o = a /\ obj_value o = v /\ (obj_arena o = None \/ obj_arena o = a)⟩ ∗ p ↦o o.
Proof. iIntros "(%ar & Hp & %Har)". iExists (Obj ar a v). by iFrame. Qed.

(** A shape after an object has been added: at most one cleared object is gone. *)
Definition added this a l c v : hP T := (∃ cap' c', ⟨(c' <= c <= c' + 1)%nat⟩ ∗ shape this a cap' (l ++ [v]) c')%I.

Lemma wpm_AddAllocatedSlowWithCopy this a cap l c p o (Q : unit -> hP T) :
  cap < 2 ^ 30 -> honest o ->
  ⊢ shape this a cap l c -∗ p ↦o o -∗ (added this a l c (obj_value o) -∗ Q tt) -∗
    wpm (AddAllocatedSlowWithCopy this p (obj_owner o) a) Q.
Proof.
  iIntros (Hc (Har & _ & _)) "S Hp HQ".
  iAssert (∀ q, shape this a cap l c -∗ elem a q (obj_value o) -∗ (added this a l c (obj_value o) -∗ Q tt) -∗
    wpm (UnsafeArenaAddAllocated this q) Q)%I as "Hk".
  { iIntros (q) "S Hq HQ". iApply (wpm_UnsafeArenaAddAllocated with "S Hq"); [done|].
    iIntros (cap' c' Hc') "S". iApply "HQ". iExists cap', c'. by iFrame. }
  wbind. destruct (decide (obj_owner o = a)) as [Ho|Ho].
  { iAssert (elem a p (obj_value o)) with "[Hp]" as "Hp"; [iApply (obj_elem with "Hp"); [done|right; congruence]|].
    rw Ho. destruct a as [a|]; cbn match; (case_decide; [congruence|]); iApply wpm_ret; iApply ("Hk" with "S Hp HQ"). }
  destruct o as [ar [b|] v]; cbn [obj_owner obj_arena obj_value] in *.
  - iAssert (elem (Some b) p v) with "[Hp]" as "Hp".
    { iExists ar. iFrame. iPureIntro. by right. }
    iAssert (wpm (if decide (a <> Some b) then
                new_value ← NewFromPrototype (Some p) a;
                Merge p new_value ;; Delete_value p (Some b) ;; mret new_value
              else mret p) (λ q, wpm (UnsafeArenaAddAllocated this q) Q)) with "[-]" as "Hgoal"; [|by destruct a].
    case_decide; [|congruence]. wbind. iApply wpm_New; [done|]. iIntros (q) "Hq".
    wbind. iApply (wpm_Merge with "Hp Hq"). iIntros "Hp Hq".
    wbind. iApply (wpm_delete_elem with "Hp"). iApply wpm_ret. iApply ("Hk" with "S Hq HQ").
  - destruct a as [a|]; [|done]. wbind. wbind. iApply (wpm_object_at with "Hp"). iIntros "Hp".
    case_decide; [|done]. iApply (wpm_set_object with "Hp"). iIntros "Hp". iApply wpm_ret.
    iApply ("Hk" with "S [Hp] HQ"). iExists ar. iFrame. iPureIntro. by left.
Qed.

Lemma wpm_shape_room this a cap l c (Q : bool -> hP T) :
  ⊢ shape this a cap l c -∗ (shape this a cap l c -∗ Q (bool_decide (Z.of_nat (length l) + Z.of_nat c < cap))) -∗
    wpm (has_room this) Q.
Proof.
  iIntros "S HQ". wopen "S". iApply (wpm_has_room with "Ha"). iIntros "Ha". rw Hlp Hlc. iApply "HQ".
  iApply (shape_intro with "Ha Hps Hcs"); [lia|lia|by exists rest].
Qed.

Lemma wpm_AddAllocated this a cap l c p o (Q : unit -> hP T) :
  cap < 2 ^ 30 -> adoptable a o ->
  ⊢ shape this a cap l c -∗ p ↦o o -∗ (added this a l c (obj_value o) -∗ Q tt) -∗ wpm (AddAllocated this p) Q.
Proof.
  iIntros (Hc Ho) "S Hp HQ". unfold AddAllocated, adoptable in *. destruct ImplementsMerge.
  - pose proof Ho as (Har & Hga & Hgm). wbind. wbind. iApply (wpm_object_at with "Hp"). iIntros "Hp". iApply wpm_ret.
    wbind. iApply (wpm_GetArenaNoVirtual with "S"). iIntros "S". wbind. iApply (wpm_shape_room with "S"). iIntros "S".
    rw Hgm. case_decide as Hd.
    + destruct Hd as [Ha Hroom%bool_decide_eq_true].
      iDestruct (obj_elem with "Hp") as "Hp"; [done|right; congruence|].
      iApply (wpm_add_in_place with "S [Hp]"); [done|by rw Ha|]. iIntros "S". iApply "HQ".
      iExists cap, c. iFrame. iPureIntro. lia.
    + wbind. wbind. iApply (wpm_object_at with "Hp"). iIntros "Hp". iApply wpm_ret. rw Hga.
      by iApply (wpm_AddAllocatedSlowWithCopy with "S Hp HQ").
  - destruct Ho as [Ho Har]. iDestruct (obj_elem with "Hp") as "Hp"; [done|done|].
    wbind. iApply (wpm_shape_room with "S"). iIntros "S". case_bool_decide.
    + iApply (wpm_add_in_place with "S Hp"); [done|]. iIntros "S". iApply "HQ". iExists cap, c. iFrame. iPureIntro. lia.
    + iApply (wpm_UnsafeArenaAddAllocated with "S Hp"); [done|]. iIntros (cap' c' Hc') "S". iApply "HQ".
      iExists cap', c'. by iFrame.
Qed.

Lemma wpm_AddCleared this cap l c p o (Q : unit -> hP T) :
  cap < 2 ^ 30 -> GetArena_of o = None -> obj_owner o = None -> obj_arena o = None -> obj_value o = New_value ->
  ⊢ shape this None cap l c -∗ p ↦o o -∗ (∀ cap', shape this None cap' l (c + 1) -∗ Q tt) -∗
    wpm (AddCleared this p) Q.
Proof.
  iIntros (Hc Hga Ho Har Hv) "S Hp HQ". wbind. iApply (wpm_GetArenaNoVirtual with "S"). iIntros "S".
  wbind. iApply wpm_dcheck; [done|]. wbind. wbind. iApply (wpm_object_at with "Hp"). iIntros "Hp". iApply wpm_ret.
  wbind. iApply wpm_dcheck; [done|]. iDestruct (obj_elem with "Hp") as "Hp"; [done|by left|]. rw Hv.
  wopen "S". wbind. iApply (wpm_grow_if_full with "Ha"); [lia|done|].
  iIntros (cap' els' r' (Hm & Hle & _ & Ht)) "Ha".
  rewrite -> Z2Nat.inj_add, !Nat2Z.id in Ht by lia. rw -(length_app ps cs) in Ht. destruct (take_slots _ _ _ Ht) as [rest' ->].
  iDestruct (array_pure with "Ha") as "[Ha %Hpure]".
  destruct (slots_room (ps ++ cs) _ rest' eq_refl) as (x & rest2 & ->); [rw length_app; lia|].
  wbind. iApply (wpm_allocated with "Ha"). iIntros "Ha". wbind. iApply (wpm_set_element with "Ha"); [lia|]. iIntros "Ha".
  replace (Z.to_nat _) with (length (ps ++ cs)) by (rw length_app; lia). rw slots_insert_end -app_assoc.
  iApply (wpm_incr_allocated with "Ha"); [lia|]. iIntros "Ha". iApply "HQ".
  iDestruct (elems_app with "[$Hcs Hp]") as "Hcs"; [iApply (elems_one with "Hp")|].
  iApply (shape_intro _ _ _ ps (cs ++ [p]) with "Ha Hps [Hcs]"); [done|rw length_app /=; lia|by exists rest2|by rw replicate_add].
Qed.
End taking.

(** ** Objects given *)

Section giving.
  Context {T : Type} `{TypeHandler T} `{PtrFallbacks T} `{!PtrLaws T} `{!HandlerLaws T}.
  Implicit Types (p q this : Z) (a : option Z) (n m cap : Z) (l : list T) (c : nat) (ps cs qs : list Z).

Lemma wpm_UnsafeArenaReleaseLast this a cap l c v (Q : Z -> hP T) :
  ⊢ shape this a cap (l ++ [v]) c -∗ (∀ p, elem a p v -∗ shape this a cap l c -∗ Q p) -∗
    wpm (UnsafeArenaReleaseLast this) Q.
Proof.
  iIntros "S HQ". iDestruct (shape_pop with "S") as (ps p cs rest r) "(Ha & Hps & Hp & Hcs & %Hc)".
  iDestruct (array_pure with "Ha") as "[Ha %Hpure]". iDestruct (array_some with "Ha") as (r0) "(-> & Ha)"; [lia|].
  wfield "Ha". wbind. iApply wpm_dcheck; [lia|]. rw Z.add_simpl_r.
  wbind. iApply (wpm_set_current with "Ha"); [lia|]. iIntros "Ha".
  wbind. iApply (wpm_get_element _ _ _ _ _ _ _ _ p with "Ha"); [lia| |].
  { rw Nat2Z.id. apply slots_lookup. by rw lookup_app_r // Nat.sub_diag. }
  iIntros "Ha". wbind. iApply (wpm_allocated with "Ha"). iIntros "Ha".
  wbind. iApply (wpm_set_allocated with "Ha"); [lia|]. iIntros "Ha". wbind.
  destruct cs as [|q cs _] using rev_ind.
  - rw decide_False; [|simpl; lia]. do 2 iApply wpm_ret. iApply ("HQ" with "Hp").
    iApply (shape_intro _ _ _ ps [] with "Ha Hps Hcs"); [done|simpl; lia|]. exists (Some p :: rest).
    by rw app_nil_r slots_app -app_assoc.
  - rw length_app /= in Hc. assert (c = S (length cs)) as -> by lia. rw length_app /=. rw decide_True; [|lia].
    wbind. iApply (wpm_get_element _ _ _ _ _ _ _ _ q with "Ha"); [lia| |].
    { apply slots_lookup. rw lookup_app_r; [|lia]. replace (_ - length ps)%nat with (S (length cs)) by lia.
      by rw /= lookup_app_r // Nat.sub_diag. }
    iIntros "Ha". iApply (wpm_set_element with "Ha"); [lia|]. rw Nat2Z.id slots_fill. iIntros "Ha".
    iApply wpm_ret. iApply ("HQ" with "Hp"). 
    iApply (shape_intro _ _ _ ps (q :: cs) with "Ha Hps [Hcs]"); [done|simpl; lia|by exists (Some q :: rest)|].
    by rw elems_cleared_cons -elems_cleared_snoc.
Qed.

(** The object is on the heap, or a copy of it is. *)
Lemma wpm_ReleaseLast this a cap l c v (Q : Z -> hP T) :
  ImplementsMerge = true \/ a = None ->
  ⊢ shape this a cap (l ++ [v]) c -∗ (∀ p, elem None p v -∗ shape this a cap l c -∗ Q p) -∗
    wpm (ReleaseLast this) Q.
Proof.
  iIntros (Him) "S HQ". unfold ReleaseLast. destruct ImplementsMerge.
  - wbind. iApply (wpm_UnsafeArenaReleaseLast with "S"). iIntros (p) "Hp S".
    wbind. iApply (wpm_GetArenaNoVirtual with "S"). iIntros "S". case_decide as Ha.
    + subst a. iApply wpm_ret. iApply ("HQ" with "Hp S").
    + wbind. iApply wpm_New; [done|]. iIntros (q) "Hq". wbind. iApply (wpm_Merge with "Hp Hq"). iIntros "Hp Hq".
      iApply (wpm_drop with "[Hp]"); [by iApply (elem_garbage with "Hp")|]. iApply wpm_ret. iApply ("HQ" with "Hq S").
  - destruct Him as [?| ->]; [done|]. wbind. iApply (wpm_GetArenaNoVirtual with "S"). iIntros "S".
    wbind. iApply wpm_dcheck; [done|]. iApply (wpm_UnsafeArenaReleaseLast with "S HQ").
Qed.

Lemma wpm_ClearedCount this a cap l c (Q : Z -> hP T) :
  ⊢ shape this a cap l c -∗ (shape this a cap l c -∗ Q (Z.of_nat c)) -∗ wpm (ClearedCount this) Q.
Proof.
  iIntros "S HQ". wopen "S". wfield "Ha". destruct r as [r|].
  - wbind. iApply (wpm_allocated with "Ha"). iIntros "Ha". iApply wpm_int_op; [unfold int_range; lia|].
    rw Hlc. replace (_ - _) with (Z.of_nat c) by lia. iApply "HQ".
    iApply (shape_intro with "Ha Hps Hcs"); [done|lia|by exists rest].
  - iDestruct (array_pure with "Ha") as "[Ha %Hpure]". destruct Hpure as (Hl & _ & _ & Hm & Hn).
    rewrite -> Hn in Hl by done. simpl in Hl. assert (c = O) as -> by lia. iApply wpm_ret. iApply "HQ".
    iApply (shape_intro with "Ha Hps Hcs"); [done|lia|by exists rest].
Qed.

Lemma wpm_ReleaseCleared this cap l c (Q : Z -> hP T) :
  ⊢ shape this None cap l (c + 1) -∗ (∀ p, elem None p New_value -∗ shape this None cap l c -∗ Q p) -∗
    wpm (ReleaseCleared this) Q.
Proof.
  iIntros "S HQ". wbind. iApply (wpm_GetArenaNoVirtual with "S"). iIntros "S". wbind. iApply wpm_dcheck; [done|].
  wopen "S". iDestruct (array_some with "Ha") as (r0) "(-> & Ha)"; [lia|].
  wfield "Ha". wbind. iApply wpm_dcheck; [done|]. wbind. iApply (wpm_allocated with "Ha"). iIntros "Ha".
  wbind. iApply wpm_dcheck; [lia|]. wbind. iApply (wpm_set_allocated with "Ha"); [lia|]. iIntros "Ha".
  destruct cs as [|p cs _] using rev_ind; [simpl in Hlc; lia|]. rw length_app /= in Hlc. rw length_app /=.
  iApply (wpm_get_element _ _ _ _ _ _ _ _ p with "Ha"); [lia| |].
  { apply slots_lookup. rw lookup_app_r; [|lia]. rw lookup_app_r; [|lia].
    by replace (_ - length ps - length cs)%nat with O by lia. }
  iIntros "Ha". rw Nat.add_1_r elems_cleared_snoc. iDestruct "Hcs" as "[Hp Hcs]".
  iApply ("HQ" with "Hp"). iApply (shape_intro with "Ha Hps Hcs"); [done|lia|].
  exists (Some p :: rest). by rw !slots_app -!app_assoc.
Qed.
End giving.
