(* ===== verification/RepeatedPtrRange.v ===== *)
(** * Repeated fields of pointers: ranges of elements, construction, assignment, swapping *)
From Stdlib Require Import ZArith Lia Strings.Byte.
From stdpp Require Import base tactics option list list_numbers gmap.
From iris.bi Require Import bi.
From iris.proofmode Require Import proofmode.
From S2P Require Import Prelude Bits RepeatedField HeapLogic RepeatedPtrFieldBase RepeatedPtrField RepeatedPtrLogic RepeatedPtrOps.
From S2P Require Import RepeatedPtrMerge RepeatedPtrOwn.

(** A field whose pointers [ps1 ++ ps2 ++ ps3] are elements, [ps2] those of the range. *)
Section ranges.
  Context {T : Type} `{TypeHandler T} `{PtrFallbacks T} `{!PtrLaws T} `{!HandlerLaws T}.
  Implicit Types (p q this start num : Z) (a : option Z) (n m cap : Z) (l : list T) (c : nat) (ps cs qs : list Z).
  Implicit Types (rest : list (option Z)).

Definition in_three this a cap ps1 ps2 ps3 cs (rest : list (option Z)) r : hP T :=
  array this a cap (Z.of_nat (length (ps1 ++ ps2 ++ ps3))) (Z.of_nat (length (ps1 ++ ps2 ++ ps3 ++ cs)))
    (slots (ps1 ++ ps2 ++ ps3 ++ cs) ++ rest) r.

Lemma shape_three this a cap l c start num :
  0 <= start -> 0 <= num -> start + num <= Z.of_nat (length l) ->
  shape this a cap l c ⊢ ∃ ps1 ps2 ps3 cs rest r, in_three this a cap ps1 ps2 ps3 cs rest r ∗
    elems a ps1 (take (Z.to_nat start) l) ∗ elems a ps2 (take (Z.to_nat num) (drop (Z.to_nat start) l)) ∗
    elems a ps3 (drop (Z.to_nat (start + num)) l) ∗ elems a cs (replicate c New_value) ∗
    ⟨start = Z.of_nat (length ps1) /\ num = Z.of_nat (length ps2)⟩.
Proof.
  iIntros (Hs Hn Hl) "S". wopen "S".
  assert (l = take (Z.to_nat start) l ++ take (Z.to_nat num) (drop (Z.to_nat start) l) ++ drop (Z.to_nat (start + num)) l) as El.
  { rewrite -> Z2Nat.inj_add by lia. by rw -drop_drop !take_drop. }
  rw {1}El. iDestruct (elems_split_at with "Hps") as (ps1 p' ->) "[H1 Hps]".
  iDestruct (elems_split_at with "Hps") as (ps2 ps3 ->) "[H2 H3]".
  iDestruct (elems_length with "H1") as "[H1 %E1]". iDestruct (elems_length with "H2") as "[H2 %E2]".
  rw length_take in E1. rw length_take length_drop in E2.
  iExists ps1, ps2, ps3, cs, rest, r. iFrame. iSplitL; [|iPureIntro; lia].
  unfold in_three. rw -Nat2Z.inj_add -length_app -!app_assoc. done.
Qed.

(** What is left when the range goes. *)
Lemma slots_without ps1 ps2 ps3 cs rest :
  take (length ps1) (slots (ps1 ++ ps2 ++ ps3 ++ cs) ++ rest) ++
  drop (length ps1 + length ps2) (take (length (ps1 ++ ps2 ++ ps3 ++ cs)) (slots (ps1 ++ ps2 ++ ps3 ++ cs) ++ rest)) =
  slots (ps1 ++ ps3 ++ cs).
Proof.
  rw -{1}(length_slots (ps1 ++ ps2 ++ ps3 ++ cs)) (take_app_length (slots (ps1 ++ ps2 ++ ps3 ++ cs))).
  rw (slots_app ps1 (ps3 ++ cs)) (slots_app ps1) -app_assoc take_app_length'; [|by rw length_slots].
  f_equal. rw -drop_drop drop_app_length'; [|by rw length_slots].
  rw slots_app drop_app_length' //. by rw length_slots.
Qed.

(** The gap is closed. *)
Lemma wpm_CloseGap this a cap ps1 ps2 ps3 cs rest r l1 l3 c start num (Q : unit -> hP T) :
  start = Z.of_nat (length ps1) -> num = Z.of_nat (length ps2) ->
  ⊢ in_three this a cap ps1 ps2 ps3 cs rest r -∗ elems a ps1 l1 -∗ elems a ps3 l3 -∗ elems a cs (replicate c New_value) -∗
    (shape this a cap (l1 ++ l3) c -∗ Q tt) -∗ wpm (CloseGap this start num) Q.
Proof.
  iIntros (-> ->) "Ha H1 H3 Hcs HQ". iApply (wpm_wand with "[Ha]").
  { iApply (law_CloseGap with "Ha"); rw ?length_app; lia. }
  iIntros ([]) "(%els' & %Ht & Ha)". rewrite -> Z2Nat.inj_add, !Nat2Z.id, slots_without in Ht by lia.
  iApply "HQ". iDestruct (elems_app with "[$H1 $H3]") as "Hps".
  iApply (shape_intro _ _ _ (ps1 ++ ps3) cs with "Ha Hps Hcs"); rw ?length_app; [lia|lia|].
  rw -app_assoc. apply (take_slots _ rest). rw (take_app_length' (slots _)); [|by rw length_slots].
  rw -Ht. f_equal. rw !length_app. lia.
Qed.

Lemma wpm_check_range this a cap n m els r start num (Q : unit -> hP T) :
  0 <= start -> 0 <= num -> start + num <= n -> n <= cap ->
  ⊢ array this a cap n m els r -∗ (array this a cap n m els r -∗ Q tt) -∗ wpm (check_range this start num) Q.
Proof.
  iIntros (Hs Hn Hl Hc) "Ha HQ". iDestruct (array_pure with "Ha") as "[Ha %Hpure]".
  wbind. iApply wpm_dcheck; [done|]. wbind. iApply wpm_dcheck; [done|].
  wbind. iApply wpm_int_op; [unfold int_range; lia|]. wbind. wfield "Ha". iApply wpm_ret.
  iApply wpm_dcheck; [done|]. by iApply "HQ".
Qed.

Lemma wpm_array_Mutable this a cap ps1 ps2 ps3 cs rest r i (Q : Z -> hP T) :
  0 <= i < Z.of_nat (length ps2) ->
  ⊢ in_three this a cap ps1 ps2 ps3 cs rest r -∗
    (∀ p, ⟨ps2 !! Z.to_nat i = Some p⟩ -∗ in_three this a cap ps1 ps2 ps3 cs rest r -∗ Q p) -∗
    wpm (RepeatedPtrFieldBase.Mutable this (Z.of_nat (length ps1) + i)) Q.
Proof.
  iIntros (Hi) "Ha HQ". destruct (lookup_lt_is_Some_2 ps2 (Z.to_nat i)) as [p Hp]; [lia|]. wfield "Ha".
  wbind. iApply wpm_dcheck; [lia|]. wbind. iApply wpm_dcheck; [rw !length_app; lia|].
  iApply (wpm_get_element _ _ _ _ _ _ _ _ p with "Ha"); [lia| |].
  { apply slots_lookup. rw lookup_app_r; [|lia]. rw lookup_app_l; [|lia].
    by replace (_ - length ps1)%nat with (Z.to_nat i) by lia. }
  by iApply "HQ".
Qed.

Lemma three_none this a cap ps1 ps3 cs rest r l1 l3 c :
  ⊢ in_three this a cap ps1 [] ps3 cs rest r -∗ elems a ps1 l1 -∗ elems a ps3 l3 -∗ elems a cs (replicate c New_value) -∗
    shape this a cap (l1 ++ l3) c.
Proof.
  iIntros "Ha H1 H3 Hcs". iDestruct (elems_app with "[$H1 $H3]") as "Hps".
  iApply (shape_intro with "Ha Hps Hcs"); [done|rw !length_app /=; lia|]. exists rest. by rw -app_assoc.
Qed.

Lemma wpm_three_check this a cap ps1 ps2 ps3 cs rest r start num (Q : unit -> hP T) :
  start = Z.of_nat (length ps1) -> num = Z.of_nat (length ps2) ->
  ⊢ in_three this a cap ps1 ps2 ps3 cs rest r -∗ (in_three this a cap ps1 ps2 ps3 cs rest r -∗ Q tt) -∗
    wpm (check_range this start num) Q.
Proof.
  iIntros (-> ->) "Ha HQ". iDestruct (array_pure with "Ha") as "[Ha %Hp]". rw !length_app in Hp.
  iApply (wpm_check_range with "Ha HQ"); rw ?length_app; lia.
Qed.

(** The pointers of the range. *)
Lemma wpm_read_range this a cap ps1 ps2 ps3 cs rest r start num (Q : list Z -> hP T) :
  start = Z.of_nat (length ps1) -> num = Z.of_nat (length ps2) ->
  ⊢ in_three this a cap ps1 ps2 ps3 cs rest r -∗ (in_three this a cap ps1 ps2 ps3 cs rest r -∗ Q ps2) -∗
    wpm (mapM (fun i => Mutable this (i + start)) (seqZ 0 num)) Q.
Proof.
  iIntros (-> ->) "Ha HQ". iApply (wpm_wand with "[Ha]").
  { iApply (wpm_mapM _ _ (fun i qs => in_three this a cap ps1 ps2 ps3 cs rest r ∗ ⟨qs = take (Z.to_nat i) ps2⟩)%I with "[$Ha]");
      [lia| |done].
    iIntros (i qs Hi) "[Ha ->]". rw (Z.add_comm i). iApply (wpm_array_Mutable with "Ha"); [done|].
    iIntros (p Hp) "Ha". iFrame. iPureIntro. replace (Z.to_nat (i + 1)) with (S (Z.to_nat i)) by lia.
    by rw (take_S_r _ _ p). }
  iIntros (qs) "[Ha ->]". rw Nat2Z.id firstn_all. by iApply "HQ".
Qed.

(** Copies of the range, on the heap. *)
Lemma wpm_copy_range this a cap ps1 ps2 ps3 cs rest r start num l (Q : list Z -> hP T) :
  start = Z.of_nat (length ps1) -> num = Z.of_nat (length ps2) ->
  ⊢ in_three this a cap ps1 ps2 ps3 cs rest r -∗ elems a ps2 l -∗
    (∀ qs, in_three this a cap ps1 ps2 ps3 cs rest r -∗ elems a ps2 l -∗ elems None qs l -∗ Q qs) -∗
    wpm (mapM (fun i => element ← Mutable this (i + start); new_value ← NewFromPrototype (Some element) None;
                        Merge element new_value ;; mret new_value) (seqZ 0 num)) Q.
Proof.
  iIntros (-> ->) "Ha Hl HQ". iDestruct (elems_length with "Hl") as "[Hl %Hlen]". iApply (wpm_wand with "[Ha Hl]").
  { iApply (wpm_mapM _ _ (fun i qs => in_three this a cap ps1 ps2 ps3 cs rest r ∗ elems a ps2 l ∗
      elems None qs (take (Z.to_nat i) l))%I with "[Ha Hl]"); [lia| |iFrame; iApply elems_empty].
    iIntros (i qs Hi) "(Ha & Hl & Hqs)". rw (Z.add_comm i). wbind. iApply (wpm_array_Mutable with "Ha"); [done|].
    iIntros (p Hp) "Ha". wbind. iApply wpm_New; [done|]. iIntros (q) "Hq".
    destruct (lookup_lt_is_Some_2 l (Z.to_nat i)) as [v Hv]; [lia|].
    iDestruct (elems_acc _ _ _ _ p v with "Hl") as "[Hp Hl]"; [done|done|].
    wbind. iApply (wpm_Merge with "Hp Hq"). iIntros "Hp Hq". iDestruct ("Hl" with "Hp") as "Hl".
    rw (list_insert_id l) //. iApply wpm_ret. iFrame. replace (Z.to_nat (i + 1)) with (S (Z.to_nat i)) by lia.
    rw (take_S_r _ _ v) //. iApply (elems_app with "[$Hqs Hq]"). iApply (elems_one with "Hq"). }
  iIntros (qs) "(Ha & Hl & Hqs)". rw Nat2Z.id take_ge; [|lia]. iApply ("HQ" with "Ha Hl Hqs").
Qed.

(** The objects of the range are deleted. *)
Lemma wpm_delete_range this a cap ps1 ps2 ps3 cs rest r start num l (Q : unit -> hP T) :
  start = Z.of_nat (length ps1) -> num = Z.of_nat (length ps2) ->
  ⊢ in_three this a cap ps1 ps2 ps3 cs rest r -∗ elems a ps2 l -∗
    (in_three this a cap ps1 ps2 ps3 cs rest r -∗ Q tt) -∗
    wpm (for_range 0 num (fun i => Delete this (start + i))) Q.
Proof.
  iIntros (-> ->) "Ha Hl HQ". iApply (wpm_wand with "[Ha Hl]").
  { iApply (wpm_for_range _ _ _ (fun i => in_three this a cap ps1 ps2 ps3 cs rest r ∗
      elems a (drop (Z.to_nat i) ps2) (drop (Z.to_nat i) l))%I with "[Ha Hl]"); [lia| |by iFrame].
    iIntros (i Hi) "(Ha & Hl)". destruct (lookup_lt_is_Some_2 ps2 (Z.to_nat i)) as [p Hp]; [lia|]. wfield "Ha".
    wbind. iApply wpm_dcheck; [lia|]. wbind. iApply wpm_dcheck; [rw !length_app; lia|].
    wbind. iApply (wpm_get_element _ _ _ _ _ _ _ _ p with "Ha"); [lia| |].
    { apply slots_lookup. rw lookup_app_r; [|lia]. rw lookup_app_l; [|lia].
      by replace (_ - length ps1)%nat with (Z.to_nat i) by lia. }
    iIntros "Ha". rw (drop_S _ p) // elems_cons. iDestruct "Hl" as (v l' E) "[Hp Hl]".
    iApply (wpm_delete_elem with "Hp"). iFrame. replace (Z.to_nat (i + 1)) with (Z.to_nat i + 1)%nat by lia.
    by rw -(drop_drop l) E Nat.add_1_r. }
  iIntros ([]) "[Ha Hl]". rw Nat2Z.id drop_all. iDestruct (elems_nil with "Hl") as "_". by iApply "HQ".
Qed.

(** The elements of the range, and the others. *)
Definition range start num l : list T := take (Z.to_nat num) (drop (Z.to_nat start) l).
Definition others start num l : list T := take (Z.to_nat start) l ++ drop (Z.to_nat (start + num)) l.

Tactic Notation "open_three" constr(S) constr(start) constr(num) :=
  iDestruct (shape_three _ _ _ _ _ start num with S) as (ps1 ps2 ps3 cs rest r) "(Ha & H1 & H2 & H3 & Hcs & (%Hs & %Hn))"; [assumption..|].
(** Without a range there is nothing between. *)
Ltac no_range :=
  match goal with Hn : ?num = Z.of_nat (length ?ps2), Hd : ~ (0 < ?num) |- _ =>
    assert (ps2 = []) as -> by (destruct ps2; [done|simpl in Hn; lia]) end.

Lemma wpm_UnsafeArenaExtractSubrange this a cap l c start num (Q : option (list Z) -> hP T) :
  0 <= start -> 0 <= num -> start + num <= Z.of_nat (length l) ->
  ⊢ shape this a cap l c -∗
    (∀ qs, elems a qs (range start num l) -∗ shape this a cap (others start num l) c -∗ Q (Some qs)) -∗
    wpm (UnsafeArenaExtractSubrange this start num true) Q.
Proof.
  iIntros (E1 E2 E3) "S HQ". open_three "S" start num.
  wbind. iApply (wpm_three_check with "Ha"); [done|done|]. iIntros "Ha". case_decide.
  - wbind. wbind. iApply (wpm_read_range with "Ha"); [done|done|]. iIntros "Ha". iApply wpm_ret.
    wbind. iApply (wpm_CloseGap with "Ha H1 H3 Hcs"); [done|done|]. iIntros "S". iApply wpm_ret.
    iApply ("HQ" with "H2 S").
  - no_range. iApply wpm_ret. iApply ("HQ" with "H2"). iApply (three_none with "Ha H1 H3 Hcs").
Qed.

(** The elements go to the caller, as objects of the heap. *)
Lemma wpm_ExtractSubrange this a cap l c start num (Q : option (list Z) -> hP T) :
  ImplementsMerge = true \/ a = None ->
  0 <= start -> 0 <= num -> start + num <= Z.of_nat (length l) ->
  ⊢ shape this a cap l c -∗
    (∀ qs, elems None qs (range start num l) -∗ shape this a cap (others start num l) c -∗ Q (Some qs)) -∗
    wpm (ExtractSubrange this start num true) Q.
Proof.
  iIntros (Him E1 E2 E3) "S HQ". unfold ExtractSubrange. destruct ImplementsMerge; last first.
  { destruct Him as [?| ->]; [done|]. wbind. wbind. iApply (wpm_shape_field with "S"). iIntros (r) "S". iApply wpm_ret.
    wbind. iApply wpm_dcheck; [done|]. by iApply (wpm_UnsafeArenaExtractSubrange with "S HQ"). }
  open_three "S" start num. wbind. iApply (wpm_three_check with "Ha"); [done|done|]. iIntros "Ha". case_decide; last first.
  { no_range. iApply wpm_ret. iDestruct (elems_nil with "H2") as %E. unfold range. rw E.
    iApply ("HQ" $! [] with "[]"); [iApply elems_empty|].
    iApply (three_none with "Ha H1 H3 Hcs"). }
  wbind. iApply (wpm_array_arena with "Ha"). iIntros "Ha". wbind. wbind. case_decide as Ha.
  - iApply (wpm_copy_range with "Ha H2"); [done|done|]. iIntros (qs) "Ha H2 Hqs".
    iApply (wpm_drop with "[H2]"); [by iApply (elems_garbage with "H2")|]. iApply wpm_ret.
    wbind. iApply (wpm_CloseGap with "Ha H1 H3 Hcs"); [done|done|]. iIntros "S". iApply wpm_ret.
    iApply ("HQ" with "Hqs S").
  - destruct a; [done|]. iApply (wpm_read_range with "Ha"); [done|done|]. iIntros "Ha". iApply wpm_ret.
    wbind. iApply (wpm_CloseGap with "Ha H1 H3 Hcs"); [done|done|]. iIntros "S". iApply wpm_ret.
    iApply ("HQ" with "H2 S").
Qed.

(** The gap of a range whose objects are gone already is closed. *)
Lemma wpm_drop_range this a cap ps1 ps2 ps3 cs rest r l1 l3 c start num (Q : option (list Z) -> hP T) :
  ImplementsMerge = true \/ a = None ->
  start = Z.of_nat (length ps1) -> num = Z.of_nat (length ps2) ->
  ⊢ in_three this a cap ps1 ps2 ps3 cs rest r -∗ elems a ps1 l1 -∗ elems a ps3 l3 -∗
    elems a cs (replicate c New_value) -∗ (shape this a cap (l1 ++ l3) c -∗ Q None) -∗
    wpm (ExtractSubrange this start num false) Q.
Proof.
  iIntros (Him Hs Hn) "Ha H1 H3 Hcs HQ". unfold ExtractSubrange. destruct ImplementsMerge.
  - wbind. iApply (wpm_three_check with "Ha"); [done|done|]. iIntros "Ha". case_decide.
    + wbind. iApply (wpm_array_arena with "Ha"). iIntros "Ha". wbind. iApply wpm_ret.
      wbind. iApply (wpm_CloseGap with "Ha H1 H3 Hcs"); [done|done|]. iIntros "S". iApply wpm_ret. by iApply "HQ".
    + no_range. iApply wpm_ret. iApply "HQ". iApply (three_none with "Ha H1 H3 Hcs").
  - destruct Him as [?| ->]; [done|]. wbind. iApply (wpm_array_arena with "Ha"). iIntros "Ha".
    wbind. iApply wpm_dcheck; [done|]. wbind. iApply (wpm_three_check with "Ha"); [done|done|]. iIntros "Ha".
    case_decide.
    + wbind. iApply wpm_ret.
      wbind. iApply (wpm_CloseGap with "Ha H1 H3 Hcs"); [done|done|]. iIntros "S". iApply wpm_ret. by iApply "HQ".
    + no_range. iApply wpm_ret. iApply "HQ". iApply (three_none with "Ha H1 H3 Hcs").
Qed.

(** The elements are deleted. *)
Lemma wpm_DeleteSubrange this a cap l c start num (Q : unit -> hP T) :
  ImplementsMerge = true \/ a = None ->
  0 <= start -> 0 <= num -> start + num <= Z.of_nat (length l) ->
  ⊢ shape this a cap l c -∗ (shape this a cap (others start num l) c -∗ Q tt) -∗
    wpm (DeleteSubrange this start num) Q.
Proof.
  iIntros (Him E1 E2 E3) "S HQ". open_three "S" start num.
  wbind. iApply (wpm_three_check with "Ha"); [done|done|]. iIntros "Ha".
  wbind. iApply (wpm_delete_range with "Ha H2"); [done|done|]. iIntros "Ha". wbind.
  iApply (wpm_drop_range with "Ha H1 H3 Hcs"); [done|done|done|]. iIntros "S".
  iApply wpm_ret. by iApply "HQ".
Qed.
End ranges.

(** ** Construction, assignment, swapping *)

Section public.
  Context {T : Type} `{TypeHandler T} `{PtrFallbacks T} `{!PtrLaws T} `{!HandlerLaws T}.
  Implicit Types (p q this other : Z) (a b : option Z) (n m cap : Z) (l k : list T) (c : nat) (ps cs qs : list Z).

Lemma elems_swap a ps l i j p q v w :
  ps !! i = Some p -> ps !! j = Some q -> l !! i = Some v -> l !! j = Some w ->
  elems a ps l ⊢ elems a (<[j := p]> (<[i := q]> ps)) (<[j := v]> (<[i := w]> l)).
Proof.
  intros Hp Hq Hv Hw. unfold elems. rw !big_sepL2_alt !length_insert. apply bi.and_mono; [done|].
  rw -!insert_zip_with (Permutation_insert_swap _ _ _ (p, v) (q, w)) //.
  - apply lookup_zip_with_Some. by exists p, v.
  - apply lookup_zip_with_Some. by exists q, w.
Qed.

Lemma wpm_SwapElements this a cap l c i j v w (Q : unit -> hP T) :
  0 <= i -> 0 <= j -> l !! Z.to_nat i = Some v -> l !! Z.to_nat j = Some w ->
  ⊢ shape this a cap l c -∗ (shape this a cap (<[Z.to_nat j := v]> (<[Z.to_nat i := w]> l)) c -∗ Q tt) -∗
    wpm (RepeatedPtrFieldBase.SwapElements this i j) Q.
Proof.
  iIntros (Hi Hj Hv Hw) "S HQ". wopen "S".
  pose proof (lookup_lt_Some _ _ _ Hv). pose proof (lookup_lt_Some _ _ _ Hw).
  destruct (lookup_lt_is_Some_2 ps (Z.to_nat i)) as [p Hp]; [lia|].
  destruct (lookup_lt_is_Some_2 ps (Z.to_nat j)) as [q Hq]; [lia|].
  wbind. iApply (wpm_get_element with "Ha"); [done|by apply slots_lookup, lookup_app_l_Some|]. iIntros "Ha".
  wbind. iApply (wpm_get_element with "Ha"); [done|by apply slots_lookup, lookup_app_l_Some|]. iIntros "Ha".
  wbind. iApply (wpm_set_element with "Ha"); [lia|]. iIntros "Ha".
  iApply (wpm_set_element with "Ha"); [lia|]. iIntros "Ha". iApply "HQ".
  iDestruct (elems_swap _ _ _ _ _ p q with "Hps") as "Hps"; [done..|].
  iApply (shape_intro with "Ha Hps Hcs"); rw ?length_insert; [done|lia|]. exists rest.
  rw slots_insert; [|rw length_app; lia]. rw slots_insert; [|rw length_insert length_app; lia].
  f_equal. f_equal. rw insert_app_l; [|lia]. rw insert_app_l //. rw length_insert. lia.
Qed.

Lemma wpm_copy other b cap k c (Q : Z -> hP T) :
  ⊢ shape other b cap k c -∗ (∀ this cap', shape this None cap' k 0 -∗ shape other b cap k c -∗ Q this) -∗
    wpm (RepeatedPtrField_copy other) Q.
Proof.
  iIntros "O HQ". wbind. iApply wpm_construct. iIntros (this) "S".
  iDestruct (shape_ne with "[$S $O]") as "(%Hne & S & O)". iDestruct (shape_bound with "O") as "[O %Hk]".
  wbind. iApply (wpm_MergeFrom with "S O"); [done|done|simpl; lia|]. iIntros (cap') "S O".
  iApply wpm_ret. iApply ("HQ" with "S O").
Qed.

(** A loop of [Add]s into reserved room. *)
Lemma wpm_add_all this a cap vs l (Q : unit -> hP T) :
  Z.of_nat (length l) + Z.of_nat (length vs) <= cap ->
  ⊢ shape this a cap l 0 -∗ (shape this a cap (l ++ vs) 0 -∗ Q tt) -∗
    wpm (foldr (fun v next => (p ← Add this; assign p v) ;; next) (mret tt) vs) Q.
Proof.
  revert l. induction vs as [|v vs IH]; intros l; iIntros (Hc) "S HQ"; simpl in *.
  - iApply wpm_ret. rw app_nil_r. by iApply "HQ".
  - wbind. wbind. iApply (wpm_Add with "S"); [lia|]. iIntros (p cap' [_ Hcap']) "Hp S".
    rw Hcap'; [|lia]. iApply (wpm_assign_elem with "Hp"). iIntros "Hp". iDestruct ("S" with "Hp") as "S".
    iApply (IH with "S"); [rw length_app /=; lia|]. by rw -app_assoc.
Qed.

(** From iterators that know their distance. *)
Lemma wpm_range vs (Q : Z -> hP T) :
  Z.of_nat (length vs) < 2 ^ 31 ->
  ⊢ (∀ this cap, shape this None cap vs 0 -∗ Q this) -∗ wpm (RepeatedPtrField_range true vs) Q.
Proof.
  iIntros (Hvs) "HQ". wbind. iApply wpm_construct. iIntros (this) "S". cbv zeta. unfold CalculateReserve.
  wbind. case_decide; [|lia]. iApply (wpm_Reserve with "S"); [done|unfold int_range; lia|].
  iIntros (cap [Hcap _]) "S". wbind. iApply (wpm_add_all with "S"); [done|]. iIntros "S". iApply wpm_ret.
  iApply ("HQ" with "S").
Qed.

Lemma wpm_destroy this a cap l c (Q : unit -> hP T) :
  ⊢ shape this a cap l c -∗ Q tt -∗ wpm (destroy_RepeatedPtrField this) Q.
Proof.
  iIntros "S HQ". wbind. iApply (wpm_Destroy with "S"). iIntros (f) "Hf".
  iApply (wpm_end_field with "Hf"). by iIntros "_".
Qed.

(** A field that is on an arena is copied, another one is emptied. *)
Lemma wpm_move other b cap k c (Q : Z -> hP T) :
  ⊢ shape other b cap k c -∗
    (∀ this cap' cap2, shape this None cap' k (if decide (b = None) then c else 0%nat) -∗
       shape other b cap2 (if decide (b = None) then [] else k) (if decide (b = None) then 0%nat else c) -∗ Q this) -∗
    wpm (RepeatedPtrField_move other) Q.
Proof.
  iIntros "O HQ". wbind. iApply wpm_construct. iIntros (this) "S".
  iDestruct (shape_ne with "[$S $O]") as "(%Hne & S & O)".
  wbind. iApply (wpm_GetArenaNoVirtual with "O"). iIntros "O". wbind. destruct (decide (b = None)) as [->|Hb]; last first.
  - case_decide; [|done]. iApply (wpm_CopyFrom with "S O"); [done|done|]. iIntros (cap2) "S O". iApply wpm_ret.
    iApply ("HQ" with "S O").
  - case_decide; [done|]. iApply (wpm_InternalSwap with "S O"); [done|]. iIntros "S O". iApply wpm_ret.
    iApply ("HQ" with "S O").
Qed.

Lemma wpm_assign_copy this a cap l c other b cap' k c' (Q : unit -> hP T) :
  cap < 2 ^ 30 ->
  ⊢ shape this a cap l c -∗ shape other b cap' k c' -∗
    (∀ cap2, shape this a cap2 k (length l + c - length k) -∗ shape other b cap' k c' -∗ Q tt) -∗
    wpm (assign_copy this other) Q.
Proof.
  iIntros (Hc) "S O HQ". iDestruct (shape_ne with "[$S $O]") as "(%Hne & S & O)".
  unfold assign_copy. case_decide; [|done]. by iApply (wpm_CopyFrom with "S O HQ").
Qed.

Lemma wpm_assign_move this a cap l c other b cap' k c' (Q : unit -> hP T) :
  cap < 2 ^ 30 ->
  ⊢ shape this a cap l c -∗ shape other b cap' k c' -∗
    (∀ cap2 cap3, shape this a cap2 k (if decide (a = b) then c' else (length l + c - length k)%nat) -∗
       shape other b cap3 (if decide (a = b) then l else k) (if decide (a = b) then c else c') -∗ Q tt) -∗
    wpm (assign_move this other) Q.
Proof.
  iIntros (Hc) "S O HQ". iDestruct (shape_ne with "[$S $O]") as "(%Hne & S & O)".
  destruct (decide (a = b)) as [<-|Hab]; unfold assign_move; (case_decide; [|done]);
    wbind; iApply (wpm_GetArenaNoVirtual with "S"); iIntros "S";
    wbind; iApply (wpm_GetArenaNoVirtual with "O"); iIntros "O".
  - case_decide; [done|]. iApply (wpm_InternalSwap with "S O"); [done|]. iApply "HQ".
  - case_decide; [|done]. iApply (wpm_CopyFrom with "S O"); [done|done|]. iIntros (cap2) "S O". iApply ("HQ" with "S O").
Qed.
End public.
