(* ===== verification/RepeatedPtrSpec.v ===== *)
(** * Repeated fields of pointers: the abstract specification

    Abstractly each field is an arena, a list of values and a number of cleared
    objects that are kept for reuse ([flds]); the caller holds objects that belong to
    no field ([held]).  [spec] says what each method may return and make of this, or
    that its caller breaks the method's contract.  [run] is the method of the code on
    the heap; [represents] relates a heap to its contents: the heap has these fields
    and objects, and nothing else that is not on an arena. *)
From Stdlib Require Import ZArith Lia Strings.Byte.
From stdpp Require Import base tactics option list list_numbers gmap.
From iris.bi Require Import bi big_op.
From iris.proofmode Require Import proofmode.
From S2P Require Import Prelude Bits HeapLogic RepeatedPtrFieldBase RepeatedPtrField RepeatedPtrLogic RepeatedPtrOps.
From S2P Require Import RepeatedPtrMerge RepeatedPtrOwn RepeatedPtrRange.

Section calls.
  Context {T : Type} `{EqDecision T} `{TypeHandler T} `{PtrFallbacks T}.
  Implicit Types (this other p start num : Z) (s : store T) (a : option Z) (l vs : list T) (c : nat) (qs : list Z).

#[export] Instance object_eq_dec : EqDecision (object T).
Proof. solve_decision. Defined.

(** A method call, and what it returns. *)
Inductive call :=
| CNew a | CCopyNew other | CRange vs | CMove other | CDelete this
| CAdd this (v : T) | CAddMove this (v : T) | CGet this (i : Z) | CSet this (i : Z) (v : T) | CSize this
| CRemoveLast this | CClear this | CReserve this (n : Z) | CSwapElements this (i j : Z)
| CMergeFrom this other | CCopyFrom this other | CSwap this other | CAssignCopy this other | CAssignMove this other
| CAddAllocated this p | CUnsafeArenaAddAllocated this p | CReleaseLast this | CUnsafeArenaReleaseLast this
| CClearedCount this | CAddCleared this p | CReleaseCleared this
| CExtractSubrange this start num | CUnsafeArenaExtractSubrange this start num
| CDeleteSubrange this start num | CErase this (first last : Z)
| CNewObject a (v : T) | CDeleteObject p.

Inductive outcome :=
| AUnit | AElement (v : T) | ANumber (z : Z) | APointer p | APointers (qs : option (list Z)).

Definition run (c : call) : stm (store T) outcome :=
  match c with
  | CNew a => this ← RepeatedPtrField_arena a; mret (APointer this)
  | CCopyNew other => this ← RepeatedPtrField_copy other; mret (APointer this)
  | CRange vs => this ← RepeatedPtrField_range true vs; mret (APointer this)
  | CMove other => this ← RepeatedPtrField_move other; mret (APointer this)
  | CDelete this => destroy_RepeatedPtrField this ;; mret AUnit
  | CAdd this v => p ← Add this; assign p v ;; mret AUnit
  | CAddMove this v => Add_move this v ;; mret AUnit
  | CGet this i => v ← Get this i; mret (AElement v)
  | CSet this i v => p ← Mutable this i; assign p v ;; mret AUnit
  | CSize this => n ← size this; mret (ANumber n)
  | CRemoveLast this => RemoveLast this ;; mret AUnit
  | CClear this => Clear this ;; mret AUnit
  | CReserve this n => Reserve this n ;; mret AUnit
  | CSwapElements this i j => SwapElements this i j ;; mret AUnit
  | CMergeFrom this other => MergeFrom this other ;; mret AUnit
  | CCopyFrom this other => CopyFrom this other ;; mret AUnit
  | CSwap this other => Swap this other ;; mret AUnit
  | CAssignCopy this other => assign_copy this other ;; mret AUnit
  | CAssignMove this other => assign_move this other ;; mret AUnit
  | CAddAllocated this p => AddAllocated this p ;; mret AUnit
  | CUnsafeArenaAddAllocated this p => UnsafeArenaAddAllocated this p ;; mret AUnit
  | CReleaseLast this => p ← ReleaseLast this; mret (APointer p)
  | CUnsafeArenaReleaseLast this => p ← UnsafeArenaReleaseLast this; mret (APointer p)
  | CClearedCount this => n ← ClearedCount this; mret (ANumber n)
  | CAddCleared this p => AddCleared this p ;; mret AUnit
  | CReleaseCleared this => p ← ReleaseCleared this; mret (APointer p)
  | CExtractSubrange this start num => qs ← ExtractSubrange this start num true; mret (APointers qs)
  | CUnsafeArenaExtractSubrange this start num =>
      qs ← UnsafeArenaExtractSubrange this start num true; mret (APointers qs)
  | CDeleteSubrange this start num => DeleteSubrange this start num ;; mret AUnit
  | CErase this first last => z ← erase_range this first last; mret (ANumber z)
  | CNewObject a v => p ← New_move a v; mret (APointer p)
  | CDeleteObject p => Delete_value p None ;; mret AUnit
  end.

(** ** The specification *)

Record contents := Contents {
  flds : gmap Z (option Z * list T * nat);
  held : gmap Z (object T);
}.
Implicit Types A : contents.

(** What a call may return and leave. *)
Definition result : Type := outcome -> contents -> Prop.

Definition with_field this a l c A : contents := Contents (<[this := (a, l, c)]> (flds A)) (held A).
(** It returns [r] and leaves [A]. *)
Definition gives (r : outcome) A : option result := Some (fun r' A' => r' = r /\ A' = A).
(** It returns the address of a new field. *)
Definition makes a l c A : option result :=
  Some (fun r A' => exists this, r = APointer this /\ flds A !! this = None /\ A' = with_field this a l c A).

(** The caller has got objects with the values [vs], which [a] will destroy. *)
Fixpoint received a vs qs (h h' : gmap Z (object T)) : Prop :=
  match vs, qs with
  | [], [] => h' = h
  | v :: vs, q :: qs => exists o h1, received a vs qs h h1 /\ h1 !! q = None /\ h' = <[q := o]> h1 /\
      obj_owner o = a /\ obj_value o = v /\ (obj_arena o = None \/ obj_arena o = a)
  | _, _ => False
  end.
(** One object, or a list of them, has gone from the field to the caller. *)
Definition releases this a l c (b : option Z) (v : T) A : option result :=
  Some (fun r A' => exists p h', r = APointer p /\ received b [v] [p] (held A) h' /\
          A' = Contents (<[this := (a, l, c)]> (flds A)) h').
Definition extracts this a l c (b : option Z) vs A : option result :=
  Some (fun r A' => exists qs h', r = APointers (Some qs) /\ received b vs qs (held A) h' /\
          A' = Contents (<[this := (a, l, c)]> (flds A)) h').
(** An object of the caller has gone into the field. *)
Definition adopts this a l c p (v : T) A : option result :=
  Some (fun r A' => r = AUnit /\ exists c', (c' <= c <= c' + 1)%nat /\
          A' = Contents (<[this := (a, l ++ [v], c')]> (flds A)) (delete p (held A))).

Definition sub_range start num l : bool :=
  bool_decide (0 <= start /\ 0 <= num /\ start + num <= Z.of_nat (length l)).
Definition copies_or_heap a : bool := orb ImplementsMerge (bool_decide (a = None)).

#[export] Instance honest_dec (o : object T) : Decision (honest o) := _.
#[export] Instance adoptable_dec a (o : object T) : Decision (adoptable a o).
Proof. unfold adoptable. destruct ImplementsMerge; apply _. Defined.

Definition spec_fields (c : call) A : option result :=
  match c with
  | CNew a => makes a [] 0 A
  | CRange vs => guard (bool_decide (Z.of_nat (length vs) < 2 ^ 31)) (makes None vs 0 A)
  | CCopyNew other => '(_, k, _) ← flds A !! other; makes None k 0 A
  | CMove other =>
      '(b, k, c) ← flds A !! other;
      if decide (b = None) then makes None k c (with_field other b [] 0 A) else makes None k 0 A
  | CMergeFrom this other =>
      '(a, l, c) ← flds A !! this; '(_, k, _) ← flds A !! other;
      guard (bool_decide (this <> other /\ Z.of_nat (length l) + Z.of_nat (length k) < 2 ^ 31))
        (gives AUnit (with_field this a (l ++ k) (c - length k) A))
  | CCopyFrom this other | CAssignCopy this other =>
      '(a, l, c) ← flds A !! this; '(_, k, _) ← flds A !! other;
      gives AUnit (if decide (this = other) then A else with_field this a k (length l + c - length k) A)
  | CSwap this other =>
      '(a, l, c) ← flds A !! this; '(b, k, c') ← flds A !! other;
      gives AUnit (if decide (this = other) then A
        else if decide (a = b) then with_field other b l c (with_field this a k c' A)
        else with_field other b l 0 (with_field this a k (length l + c - length k) A))
  | CAssignMove this other =>
      '(a, l, c) ← flds A !! this; '(b, k, c') ← flds A !! other;
      gives AUnit (if decide (this = other) then A
        else if decide (a = b) then with_field other b l c (with_field this a k c' A)
        else with_field this a k (length l + c - length k) A)
  | CDelete this => _ ← flds A !! this; gives AUnit (Contents (delete this (flds A)) (held A))
  | _ => None
  end.

Definition spec_field (c : call) this a l (n : nat) A : option result :=
  let keep r l' n' := gives r (with_field this a l' n' A) in
  match c with
  | CAdd _ v | CAddMove _ v => keep AUnit (l ++ [v]) (n - 1)%nat
  | CGet _ i => guard (bool_decide (0 <= i)) (v ← l !! Z.to_nat i; keep (AElement v) l n)
  | CSet _ i v => guard (bool_decide (0 <= i < Z.of_nat (length l))) (keep AUnit (<[Z.to_nat i := v]> l) n)
  | CSize _ => keep (ANumber (Z.of_nat (length l))) l n
  | CRemoveLast _ => _ ← last l; keep AUnit (removelast l) (n + 1)%nat
  | CClear _ => keep AUnit [] (length l + n)%nat
  | CReserve _ k => guard (bool_decide (int_range k)) (keep AUnit l n)
  | CSwapElements _ i j => guard (bool_decide (0 <= i /\ 0 <= j))
      (v ← l !! Z.to_nat i; w ← l !! Z.to_nat j; keep AUnit (<[Z.to_nat j := v]> (<[Z.to_nat i := w]> l)) n)
  | CClearedCount _ => keep (ANumber (Z.of_nat n)) l n
  | CDeleteSubrange _ start num => guard (copies_or_heap a && sub_range start num l)
      (keep AUnit (others start num l) n)
  | CErase _ first last => guard (copies_or_heap a && bool_decide (int_range (last - first)) && sub_range first (last - first) l)
      (keep (ANumber first) (others first (last - first) l) n)
  | CAddAllocated _ p => o ← held A !! p; guard (bool_decide (adoptable a o)) (adopts this a l n p (obj_value o) A)
  | CUnsafeArenaAddAllocated _ p => o ← held A !! p;
      guard (bool_decide (obj_owner o = a /\ (obj_arena o = None \/ obj_arena o = a))) (adopts this a l n p (obj_value o) A)
  | CAddCleared _ p => o ← held A !! p;
      guard (bool_decide (a = None /\ o = Obj None None New_value /\ GetArena_of o = None))
        (gives AUnit (Contents (<[this := (a, l, (n + 1)%nat)]> (flds A)) (delete p (held A))))
  | CReleaseLast _ => v ← last l; guard (copies_or_heap a) (releases this a (removelast l) n None v A)
  | CUnsafeArenaReleaseLast _ => v ← last l; releases this a (removelast l) n a v A
  | CReleaseCleared _ => guard (bool_decide (a = None /\ n <> 0%nat)) (releases this a l (n - 1) None New_value A)
  | CExtractSubrange _ start num => guard (copies_or_heap a && sub_range start num l)
      (extracts this a (others start num l) n None (range start num l) A)
  | CUnsafeArenaExtractSubrange _ start num => guard (sub_range start num l)
      (extracts this a (others start num l) n a (range start num l) A)
  | _ => None
  end.

(** The field of a method that works on one. *)
Definition call_field (c : call) : option Z :=
  match c with
  | CAdd this _ | CAddMove this _ | CGet this _ | CSet this _ _ | CSize this | CRemoveLast this | CClear this
  | CReserve this _ | CSwapElements this _ _ | CAddAllocated this _ | CUnsafeArenaAddAllocated this _
  | CReleaseLast this | CUnsafeArenaReleaseLast this | CClearedCount this | CAddCleared this _ | CReleaseCleared this
  | CExtractSubrange this _ _ | CUnsafeArenaExtractSubrange this _ _ | CDeleteSubrange this _ _ | CErase this _ _ => Some this
  | _ => None
  end.

Definition spec (c : call) A : option result :=
  match call_field c with
  | Some this => '(a, l, n) ← flds A !! this; spec_field c this a l n A
  | None =>
      match c with
      | CNewObject a v => Some (fun r A' => exists p h', r = APointer p /\ received a [v] [p] (held A) h' /\
                                  A' = Contents (flds A) h')
      | CDeleteObject p => o ← held A !! p;
          guard (bool_decide (obj_owner o = None)) (gives AUnit (Contents (flds A) (delete p (held A))))
      | _ => spec_fields c A
      end
  end.

(** ** The relation *)

Definition held_at (h : gmap Z (object T)) : hP T := ([∗ map] p ↦ o ∈ h, p ↦o o)%I.
Definition fields_at (g : gmap Z (option Z * list T * nat)) : hP T :=
  ([∗ map] this ↦ x ∈ g, ∃ cap, shape this (fst (fst x)) cap (snd (fst x)) (snd x))%I.
Definition represents s A : Prop := holds_of (fields_at (flds A) ∗ held_at (held A) ∗ garbage)%I s.

(** No array has come near the largest [int]. *)
Definition small s : Prop := forall this f, fields s !! this = Some f -> total_size_ f < 2 ^ 30.
End calls.

(** ** Objects of the caller *)

Section objects.
  Context {T : Type} `{TypeHandler T}.
  Implicit Types (p : Z) (a : option Z) (h : gmap Z (object T)) (vs : list T) (qs : list Z).

Lemma obj_ne p o o' : p ↦o o ∗ p ↦o o' ⊢ (False : hP T).
Proof.
  constructor. intros x (y & z & _ & (Hd & _) & -> & ->). simpl in Hd.
  apply map_disjoint_singleton_l in Hd. by rw lookup_singleton_eq in Hd.
Qed.

Lemma held_fresh p o h : p ↦o o ∗ held_at h ⊢ (⟨h !! p = None⟩ ∗ p ↦o o ∗ held_at h : hP T).
Proof.
  iIntros "[Hp Hh]". destruct (h !! p) as [o'|] eqn:E; [|by iFrame].
  iDestruct (big_sepM_lookup_acc with "Hh") as "[Hp' Hh]"; [exact E|].
  iDestruct (obj_ne with "[$Hp $Hp']") as "[]".
Qed.

Lemma receive_all a vs qs h :
  elems a qs vs ∗ held_at h ⊢ ∃ h', ⟨received a vs qs h h'⟩ ∗ held_at h'.
Proof.
  revert vs. induction qs as [|q qs IH]; intros vs; iIntros "[Hqs Hh]".
  - iDestruct (elems_nil with "Hqs") as %->. iExists h. by iFrame.
  - rw elems_cons. iDestruct "Hqs" as (v l ->) "[Hq Hqs]". iDestruct (IH with "[$Hqs $Hh]") as (h1) "[%Hr Hh]".
    iDestruct (elem_obj with "Hq") as (o) "[%Ho Hq]". iDestruct (held_fresh with "[$Hq $Hh]") as "(%Hf & Hq & Hh)".
    iExists (<[q := o]> h1). iSplitR.
    { iPureIntro. exists o, h1. naive_solver. }
    unfold held_at. rw big_sepM_insert //. iFrame.
Qed.

Lemma held_delete p o h : h !! p = Some o -> held_at h ⊢ p ↦o o ∗ held_at (delete p h).
Proof. intros Hp. unfold held_at. by rw big_sepM_delete. Qed.
End objects.
