(* ===== verification/RepeatedPtrRefine.v ===== *)
(** * Repeated fields of pointers: the code refines the specification *)
From Stdlib Require Import ZArith Lia Strings.Byte.
From stdpp Require Import base tactics option list list_numbers gmap.
From iris.bi Require Import bi big_op.
From iris.proofmode Require Import proofmode.
From S2P Require Import Prelude Bits HeapLogic RepeatedPtrFieldBase RepeatedPtrField RepeatedPtrLogic RepeatedPtrOps.
From S2P Require Import RepeatedPtrMerge RepeatedPtrOwn RepeatedPtrRange RepeatedPtrSpec.

Lemma last_removelast {A} (l : list A) x : last l = Some x -> l = removelast l ++ [x].
Proof.
  intros Hl. apply last_Some in Hl as [l' ->]. by rw removelast_last.
Qed.

(** ** Methods that work on one field *)

Section one_field.
  Context {T : Type} `{EqDecision T} `{TypeHandler T} `{PtrFallbacks T} `{!PtrLaws T} `{!HandlerLaws T}.
  Implicit Types (this other p start num : Z) (s : store T) (a : option Z) (l vs : list T) (n : nat) (A : contents (T := T)).

(** What a method has to leave behind. *)
Definition field_post this a A (R : result) (r : outcome) : hP T :=
  (∃ cap l n h, ⟨R r (Contents (<[this := (a, l, n)]> (flds A)) h)⟩ ∗ shape this a cap l n ∗ held_at h)%I.

Lemma post_keep this a A cap l n r R :
  gives r (with_field this a l n A) = Some R ->
  ⊢ shape this a cap l n -∗ held_at (held A) -∗ field_post this a A R r.
Proof. intros [= <-]. iIntros "S Hh". iExists cap, l, n, (held A). by iFrame. Qed.

Lemma post_release this a A cap l n b v R p :
  releases this a l n b v A = Some R ->
  ⊢ elem b p v -∗ shape this a cap l n -∗ held_at (held A) -∗ field_post this a A R (APointer p).
Proof.
  intros [= <-]. iIntros "Hp S Hh". iDestruct (elems_one with "Hp") as "Hp".
  iDestruct (receive_all with "[$Hp $Hh]") as (h') "[%Hr Hh]". iExists cap, l, n, h'. iFrame. iPureIntro. eauto.
Qed.

Lemma post_extract this a A cap l n b vs R qs :
  extracts this a l n b vs A = Some R ->
  ⊢ elems b qs vs -∗ shape this a cap l n -∗ held_at (held A) -∗ field_post this a A R (APointers (Some qs)).
Proof.
  intros [= <-]. iIntros "Hqs S Hh".
  iDestruct (receive_all with "[$Hqs $Hh]") as (h') "[%Hr Hh]". iExists cap, l, n, h'. iFrame. iPureIntro. eauto.
Qed.

Lemma post_adopt this a A l n p v R :
  adopts this a l n p v A = Some R ->
  ⊢ added this a l n v -∗ held_at (delete p (held A)) -∗ field_post this a A R AUnit.
Proof.
  intros [= <-]. iIntros "(%cap & %n' & %Hn & S) Hh". iExists cap, (l ++ [v]), n', _. iFrame.
  iPureIntro. split; [done|]. by exists n'.
Qed.

(** Reading and writing. *)
Lemma keep_refines (c : call) this a A cap l n R :
  call_field c = Some this -> spec_field c this a l n A = Some R -> cap < 2 ^ 30 ->
  match c with
  | CAdd _ _ | CAddMove _ _ | CGet _ _ | CSet _ _ _ | CSize _ | CRemoveLast _ | CClear _ | CReserve _ _
  | CSwapElements _ _ _ | CClearedCount _ => True
  | _ => False
  end ->
  ⊢ shape this a cap l n -∗ held_at (held A) -∗ wpm (run c) (field_post this a A R).
Proof.
  intros Hf HR Hc Hk. iIntros "S Hh". destruct c; try done; injection Hf as ->; cbn [spec_field] in HR; cbn [run].
  - wbind. iApply (wpm_Add with "S"); [done|]. iIntros (p cap' _) "Hp S".
    wbind. iApply (wpm_assign_elem with "Hp"). iIntros "Hp". iApply wpm_ret.
    iApply (post_keep with "(S Hp) Hh"). done.
  - wbind. iApply (wpm_Add_move with "S"); [done|]. iIntros (cap' _) "S". iApply wpm_ret. by iApply (post_keep with "S Hh").
  - guarded HR. destruct (l !! Z.to_nat i) as [v|] eqn:Hv; [|done].
    wbind. iApply (wpm_Get with "S"); [done|done|]. iIntros "S". iApply wpm_ret. by iApply (post_keep with "S Hh").
  - guarded HR. destruct (lookup_lt_is_Some_2 l (Z.to_nat i)) as [w Hw]; [lia|].
    wbind. iApply (wpm_Mutable with "S"); [lia|done|]. iIntros (p) "Hp S".
    wbind. iApply (wpm_assign_elem with "Hp"). iIntros "Hp". iApply wpm_ret. by iApply (post_keep with "(S Hp) Hh").
  - wbind. iApply (wpm_size with "S"). iIntros "S". iApply wpm_ret. by iApply (post_keep with "S Hh").
  - destruct (last l) as [v|] eqn:Hv; [|done]. apply last_removelast in Hv. rw {1}Hv.
    wbind. iApply (wpm_RemoveLast with "S"). iIntros "S". iApply wpm_ret. by iApply (post_keep with "S Hh").
  - wbind. iApply (wpm_Clear with "S"). iIntros "S". iApply wpm_ret. by iApply (post_keep with "S Hh").
  - guarded HR. wbind. iApply (wpm_Reserve with "S"); [done|done|]. iIntros (cap' _) "S". iApply wpm_ret.
    by iApply (post_keep with "S Hh").
  - guarded HR. destruct (l !! Z.to_nat i) as [v|] eqn:Hv; [|done]. destruct (l !! Z.to_nat j) as [w|] eqn:Hw; [|done].
    wbind. iApply (wpm_SwapElements with "S"); [lia|lia|done|done|]. iIntros "S". iApply wpm_ret.
    by iApply (post_keep with "S Hh").
  - wbind. iApply (wpm_ClearedCount with "S"). iIntros "S". iApply wpm_ret. by iApply (post_keep with "S Hh").
Qed.

(** Objects that come and go. *)
Lemma objects_refine (c : call) this a A cap l n R :
  call_field c = Some this -> spec_field c this a l n A = Some R -> cap < 2 ^ 30 ->
  match c with
  | CAddAllocated _ _ | CUnsafeArenaAddAllocated _ _ | CAddCleared _ _
  | CReleaseLast _ | CUnsafeArenaReleaseLast _ | CReleaseCleared _ => True
  | _ => False
  end ->
  ⊢ shape this a cap l n -∗ held_at (held A) -∗ wpm (run c) (field_post this a A R).
Proof.
  intros Hf HR Hc Hk. iIntros "S Hh". destruct c; try done; injection Hf as ->; cbn [spec_field] in HR; cbn [run].
  - destruct (held A !! p) as [o|] eqn:Ho; [|done]. guarded HR. iDestruct (held_delete with "Hh") as "[Hp Hh]"; [done|].
    wbind. iApply (wpm_AddAllocated with "S Hp"); [done|done|]. iIntros "S". iApply wpm_ret. by iApply (post_adopt with "S Hh").
  - destruct (held A !! p) as [o|] eqn:Ho; [|done]. guarded HR. iDestruct (held_delete with "Hh") as "[Hp Hh]"; [done|].
    iDestruct (obj_elem a with "Hp") as "Hp"; [naive_solver|naive_solver|].
    wbind. iApply (wpm_UnsafeArenaAddAllocated with "S Hp"); [done|]. iIntros (cap' n' Hn) "S". iApply wpm_ret.
    iApply (post_adopt with "[S] Hh"); [done|]. iExists cap', n'. by iFrame.
  - destruct (last l) as [v|] eqn:Hv; [|done]. apply last_removelast in Hv. rw {1}Hv.
    apply guard_Some in HR as [Hcp HR].
    wbind. iApply (wpm_ReleaseLast with "S"). { by apply orb_true_iff in Hcp as [?|?%bool_decide_eq_true]; [left|right]. }
    iIntros (p) "Hp S". iApply wpm_ret. by iApply (post_release with "Hp S Hh").
  - destruct (last l) as [v|] eqn:Hv; [|done]. apply last_removelast in Hv. rw {1}Hv.
    wbind. iApply (wpm_UnsafeArenaReleaseLast with "S"). iIntros (p) "Hp S". iApply wpm_ret.
    by iApply (post_release with "Hp S Hh").
  - destruct (held A !! p) as [o|] eqn:Ho; [|done]. guarded HR. destruct_and!. subst a o. injection HR as <-.
    iDestruct (held_delete with "Hh") as "[Hp Hh]"; [done|].
    wbind. iApply (wpm_AddCleared with "S Hp"); [done..|]. iIntros (cap') "S". iApply wpm_ret.
    iExists cap', l, (n + 1)%nat, _. by iFrame.
  - guarded HR. destruct_and!. subst a. replace n with (n - 1 + 1)%nat by lia.
    wbind. iApply (wpm_ReleaseCleared with "S"). iIntros (p) "Hp S". iApply wpm_ret.
    iApply (post_release with "Hp S Hh"). done.
Qed.

(** Ranges. *)
Lemma ranges_refine (c : call) this a A cap l n R :
  call_field c = Some this -> spec_field c this a l n A = Some R ->
  match c with
  | CExtractSubrange _ _ _ | CUnsafeArenaExtractSubrange _ _ _ | CDeleteSubrange _ _ _ | CErase _ _ _ => True
  | _ => False
  end ->
  ⊢ shape this a cap l n -∗ held_at (held A) -∗ wpm (run c) (field_post this a A R).
Proof.
  assert (forall b, copies_or_heap b = true -> ImplementsMerge = true \/ b = None) as Hcopies.
  { intros b [?|?%bool_decide_eq_true]%orb_true_iff; auto. }
  intros Hf HR Hk. iIntros "S Hh". destruct c; try done; injection Hf as ->; cbn [spec_field] in HR; cbn [run];
    apply guard_Some in HR as [Hg HR].
  - apply andb_true_iff in Hg as [?%Hcopies (? & ? & ?)%bool_decide_eq_true].
    wbind. iApply (wpm_ExtractSubrange with "S"); [done..|]. iIntros (qs) "Hqs S". iApply wpm_ret.
    by iApply (post_extract with "Hqs S Hh").
  - apply bool_decide_eq_true in Hg as (? & ? & ?).
    wbind. iApply (wpm_UnsafeArenaExtractSubrange with "S"); [done..|]. iIntros (qs) "Hqs S". iApply wpm_ret.
    by iApply (post_extract with "Hqs S Hh").
  - apply andb_true_iff in Hg as [?%Hcopies (? & ? & ?)%bool_decide_eq_true].
    wbind. iApply (wpm_DeleteSubrange with "S"); [done..|]. iIntros "S". iApply wpm_ret. by iApply (post_keep with "S Hh").
  - apply andb_true_iff in Hg as [[?%Hcopies ?%bool_decide_eq_true]%andb_true_iff (? & ? & ?)%bool_decide_eq_true].
    wbind. wbind. iApply wpm_int_op; [done|]. wbind. iApply (wpm_DeleteSubrange with "S"); [done..|]. iIntros "S".
    do 2 iApply wpm_ret. by iApply (post_keep with "S Hh").
Qed.
End one_field.

(** ** Methods that work on several fields *)

Section several_fields.
  Context {T : Type} `{EqDecision T} `{TypeHandler T} `{PtrFallbacks T} `{!PtrLaws T} `{!HandlerLaws T}.
  Implicit Types (this other p : Z) (a b : option Z) (l k vs : list T) (n : nat) (A : contents (T := T)).
  Implicit Types (g : gmap Z (option Z * list T * nat)).

(** Fields that may still double. *)
Definition small_fields_at g : hP T :=
  ([∗ map] this ↦ x ∈ g, ∃ cap, ⟨cap < 2 ^ 30⟩ ∗ shape this (fst (fst x)) cap (snd (fst x)) (snd x))%I.

Lemma small_fields_forget g : small_fields_at g ⊢ fields_at g.
Proof.
  apply big_sepM_mono. intros this x _. iIntros "(%cap & _ & S)". by iExists cap.
Qed.

Lemma small_fields_take this a l n g :
  g !! this = Some (a, l, n) ->
  small_fields_at g ⊢ ∃ cap, ⟨cap < 2 ^ 30⟩ ∗ shape this a cap l n ∗ small_fields_at (delete this g).
Proof.
  intros Hg. unfold small_fields_at. rw big_sepM_delete //. iIntros "[(%cap & Hc & S) F]". iExists cap. iFrame.
Qed.

Lemma fields_close this a cap l n g :
  ⊢ shape this a cap l n -∗ fields_at (delete this g) -∗ fields_at (<[this := (a, l, n)]> g).
Proof.
  iIntros "S F". unfold fields_at. rw big_sepM_insert_delete. iFrame.
Qed.

Lemma fields_close2 this other a cap l n b cap' k n' g :
  this <> other ->
  ⊢ shape this a cap l n -∗ shape other b cap' k n' -∗ fields_at (delete other (delete this g)) -∗
    fields_at (<[other := (b, k, n')]> (<[this := (a, l, n)]> g)).
Proof.
  iIntros (Hne) "S O F". iDestruct (fields_close with "O F") as "F".
  rw insert_insert_ne //. iApply (fields_close with "S"). by rw delete_insert_ne.
Qed.

Lemma fields_fresh this a cap l n g :
  shape this a cap l n ∗ fields_at g ⊢ ⟨g !! this = None⟩ ∗ shape this a cap l n ∗ fields_at g.
Proof.
  iIntros "[S F]". destruct (g !! this) as [[[a' l'] n']|] eqn:E; [|by iFrame].
  iDestruct (big_sepM_lookup_acc with "F") as "[(%cap' & O) F]"; [exact E|].
  iDestruct (shape_ne with "[$S $O]") as "(% & S & O)". done.
Qed.

Definition fields_post (R : result (T := T)) r : hP T :=
  (∃ A, ⟨R r A⟩ ∗ fields_at (flds A) ∗ held_at (held A))%I.

Lemma post_make this a cap l n A R :
  makes a l n A = Some R ->
  ⊢ shape this a cap l n -∗ fields_at (flds A) -∗ held_at (held A) -∗ fields_post R (APointer this).
Proof.
  intros [= <-]. iIntros "S F Hh". iDestruct (fields_fresh with "[$S $F]") as "(%Hf & S & F)".
  iExists (with_field this a l n A). iFrame. iSplitR; [iPureIntro; eauto|].
  iApply (fields_close with "S"). by rw delete_id.
Qed.

Lemma post_give r A R :
  gives r A = Some R -> ⊢ fields_at (flds A) -∗ held_at (held A) -∗ fields_post R r.
Proof. intros [= <-]. iIntros "F Hh". iExists A. by iFrame. Qed.

(** The second field has stayed as it was. *)
Lemma fields_close_same this other a cap l n b cap' k n' g :
  this <> other -> g !! other = Some (b, k, n') ->
  ⊢ shape this a cap l n -∗ shape other b cap' k n' -∗ fields_at (delete other (delete this g)) -∗
    fields_at (<[this := (a, l, n)]> g).
Proof.
  iIntros (Hne Hg) "S O F". iDestruct (fields_close2 with "S O F") as "F"; [done|].
  rw insert_id //. by rw lookup_insert_ne.
Qed.

(** Two different fields. *)
Lemma small_fields_take2 this other a l n b k n' g :
  this <> other -> g !! this = Some (a, l, n) -> g !! other = Some (b, k, n') ->
  small_fields_at g ⊢ ∃ cap cap', ⟨cap < 2 ^ 30⟩ ∗ shape this a cap l n ∗ shape other b cap' k n' ∗
    fields_at (delete other (delete this g)).
Proof.
  iIntros (Hne Hg Hg') "F". iDestruct (small_fields_take with "F") as (cap) "(%Hc & S & F)"; [exact Hg|].
  iDestruct (small_fields_take other with "F") as (cap') "(_ & O & F)"; [by rw lookup_delete_ne|].
  iExists cap, cap'. iFrame. iSplitR; [done|]. by iApply small_fields_forget.
Qed.

Lemma make_refines (c : call) A R :
  spec_fields c A = Some R ->
  match c with CNew _ | CRange _ | CCopyNew _ | CMove _ | CDelete _ => True | _ => False end ->
  ⊢ small_fields_at (flds A) -∗ held_at (held A) -∗ wpm (run c) (fields_post R).
Proof.
  intros HR Hk. iIntros "F Hh". destruct c; try done; cbn [spec_fields] in HR; cbn [run].
  - wbind. iApply wpm_construct. iIntros (this) "S". iApply wpm_ret.
    iApply (post_make with "S [F] Hh"); [done|by iApply small_fields_forget].
  - destruct (flds A !! other) as [[[b k] n]|] eqn:Ho; [|done].
    iDestruct (small_fields_take with "F") as (cap) "(_ & O & F)"; [exact Ho|]. rw small_fields_forget.
    wbind. iApply (wpm_copy with "O"). iIntros (this cap') "S O". iApply wpm_ret.
    iApply (post_make with "S [O F] Hh"); [done|]. rw -{2}(insert_id (flds A) other (b, k, n)) //.
    iApply (fields_close with "O F").
  - guarded HR. rw small_fields_forget. wbind. iApply (wpm_range); [done|]. iIntros (this cap) "S". iApply wpm_ret.
    by iApply (post_make with "S F Hh").
  - destruct (flds A !! other) as [[[b k] n]|] eqn:Ho; [|done]. cbn [mbind option_bind] in HR.
    iDestruct (small_fields_take with "F") as (cap) "(_ & O & F)"; [exact Ho|]. rw small_fields_forget.
    wbind. iApply (wpm_move with "O"). iIntros (this cap' cap2) "S O". iApply wpm_ret.
    iDestruct (fields_close with "O F") as "F". destruct (decide (b = None)) as [->|Hb].
    + by iApply (post_make _ _ _ _ _ (with_field other None [] 0 A) with "S F Hh").
    + iApply (post_make with "S [F] Hh"); [done|]. by rw insert_id.
  - destruct (flds A !! this) as [[[b k] n]|] eqn:Ho; [|done]. cbn [mbind option_bind] in HR.
    iDestruct (small_fields_take with "F") as (cap) "(_ & O & F)"; [exact Ho|]. rw small_fields_forget.
    wbind. iApply (wpm_destroy with "O"). iApply wpm_ret.
    by iApply (post_give _ (Contents (delete this (flds A)) (held A)) with "F Hh").
Qed.

(** A method on two fields, which may be the same. *)
Lemma pair_refines (m : stm (store T) unit) this other a l n b k n' A R (B : contents (T := T)) :
  flds A !! this = Some (a, l, n) -> flds A !! other = Some (b, k, n') ->
  gives AUnit (if decide (this = other) then A else B) = Some R ->
  (this = other -> m = mret tt) ->
  (this <> other -> forall cap cap', cap < 2 ^ 30 ->
     ⊢ shape this a cap l n -∗ shape other b cap' k n' -∗ fields_at (delete other (delete this (flds A))) -∗ held_at (held A) -∗
       wpm m (fun _ => fields_at (flds B) ∗ held_at (held B))) ->
  ⊢ small_fields_at (flds A) -∗ held_at (held A) -∗ wpm (m ;; mret AUnit) (fields_post R).
Proof.
  intros Hl Hk HR Hsame Hne. iIntros "F Hh". wbind. destruct (decide (this = other)) as [E|E].
  - rw Hsame //. do 2 iApply wpm_ret. rw small_fields_forget. by iApply (post_give with "F Hh").
  - iDestruct (small_fields_take2 with "F") as (cap cap') "(%Hc & S & O & F)"; [exact E|exact Hl|exact Hk|].
    iApply (wpm_wand with "[S O F Hh]"); [iApply (Hne with "S O F Hh"); done|]. iIntros ([]) "[F Hh]".
    iApply wpm_ret. by iApply (post_give with "F Hh").
Qed.

(** What a method leaves of two fields, as contents. *)
Lemma close_both this other a cap l n b cap' k n' A :
  this <> other ->
  ⊢ shape this a cap l n -∗ shape other b cap' k n' -∗ fields_at (delete other (delete this (flds A))) -∗ held_at (held A) -∗
    fields_at (flds (with_field other b k n' (with_field this a l n A))) ∗ held_at (held A).
Proof. iIntros (Hne) "S O F $". by iApply (fields_close2 with "S O F"). Qed.
Lemma close_first this other a cap l n b cap' k n' A :
  this <> other -> flds A !! other = Some (b, k, n') ->
  ⊢ shape this a cap l n -∗ shape other b cap' k n' -∗ fields_at (delete other (delete this (flds A))) -∗ held_at (held A) -∗
    fields_at (flds (with_field this a l n A)) ∗ held_at (held A).
Proof. iIntros (Hne Hg) "S O F $". by iApply (fields_close_same with "S O F"). Qed.

Lemma merge_refines (c : call) A R :
  spec_fields c A = Some R ->
  match c with
  | CMergeFrom _ _ | CCopyFrom _ _ | CSwap _ _ | CAssignCopy _ _ | CAssignMove _ _ => True
  | _ => False
  end ->
  ⊢ small_fields_at (flds A) -∗ held_at (held A) -∗ wpm (run c) (fields_post R).
Proof.
  intros HR Hk. destruct c; try done; cbn [spec_fields] in HR; cbn [run];
    (destruct (flds A !! this) as [[[a l] n]|] eqn:Hl; [|done]);
    (destruct (flds A !! other) as [[[b k] n']|] eqn:Ho; [|done]); cbn [mbind option_bind] in HR.
  - guarded HR. destruct_and!.
    apply (pair_refines _ this other a l n b k n' A R (with_field this a (l ++ k) (n - length k) A)); [done|done| | |].
    + by rw decide_False.
    + done.
    + iIntros (Hne cap cap' Hc) "S O F Hh". iApply (wpm_MergeFrom with "S O"); [done..|]. iIntros (cap2) "S O".
      iApply (close_first with "S O F Hh"); done.
  - eapply pair_refines; [exact Hl|exact Ho|exact HR| |].
    + intros <-. unfold CopyFrom, RepeatedPtrFieldBase.CopyFrom. by rw decide_True.
    + iIntros (Hne cap cap' Hc) "S O F Hh". iApply (wpm_CopyFrom with "S O"); [done..|]. iIntros (cap2) "S O".
      iApply (close_first with "S O F Hh"); done.
  - eapply pair_refines; [exact Hl|exact Ho|exact HR| |].
    + intros <-. unfold Swap. by rw decide_True.
    + iIntros (Hne cap cap' Hc) "S O F Hh". unfold Swap. rw decide_False //.
      iApply (wpm_Swap with "S O"); [done|]. iIntros (cap2 cap3) "S O".
      destruct (decide (a = b)); by iApply (close_both with "S O F Hh").
  - eapply pair_refines; [exact Hl|exact Ho|exact HR| |].
    + intros <-. unfold assign_copy. rw decide_False; [done|]. naive_solver.
    + iIntros (Hne cap cap' Hc) "S O F Hh". iApply (wpm_assign_copy with "S O"); [done|]. iIntros (cap2) "S O".
      iApply (close_first with "S O F Hh"); done.
  - eapply pair_refines; [exact Hl|exact Ho|exact HR| |].
    + intros <-. unfold assign_move. rw decide_False; [done|]. naive_solver.
    + iIntros (Hne cap cap' Hc) "S O F Hh". iApply (wpm_assign_move with "S O"); [done|]. iIntros (cap2 cap3) "S O".
      destruct (decide (a = b)); [by iApply (close_both with "S O F Hh")|]. iApply (close_first with "S O F Hh"); done.
Qed.
End several_fields.

(** ** All methods *)

Section all.
  Context {T : Type} `{EqDecision T} `{TypeHandler T} `{PtrFallbacks T} `{!PtrLaws T} `{!HandlerLaws T}.
  Implicit Types (this other p : Z) (s : store T) (a b : option Z) (l k vs : list T) (n : nat) (A : contents (T := T)).

Definition small_heap : hP T := HProp small.

Lemma small_union s1 s2 : s1 ## s2 -> small (s1 ∪ s2) -> small s1 /\ small s2.
Proof.
  intros (_ & _ & Hd) Hs. split; intros this f Hf; apply (Hs this).
  - by apply lookup_union_Some_l.
  - by apply lookup_union_Some_r.
Qed.

Lemma small_heap_sep (P Q : hP T) : small_heap ∧ (P ∗ Q) ⊢ (small_heap ∧ P) ∗ (small_heap ∧ Q).
Proof.
  constructor. intros s [Hs (x & y & -> & Hd & HP & HQ)]. apply small_union in Hs as [Hx Hy]; [|done].
  by exists x, y.
Qed.

Lemma small_shape this a cap l n : small_heap ∧ shape this a cap l n ⊢ ⟨cap < 2 ^ 30⟩ ∗ shape this a cap l n.
Proof.
  iIntros "H". iAssert (⌜cap < 2 ^ 30⌝ ∧ shape this a cap l n)%I with "[H]" as "[%Hc H]"; [|by iFrame].
  iSplit; [|iDestruct "H" as "[_ $]"]. iStopProof. unfold shape, array. constructor.
  intros s [Hs (ps & cs & rest & r & x & y & -> & Hd & (f & z & -> & Hd' & -> & _) & _)].
  apply small_union in Hs as [Hs _]; [|done]. apply small_union in Hs as [Hs _]; [|done].
  apply (Hs this (PF a (Z.of_nat (length ps)) cap r)). simpl. apply lookup_singleton_eq.
Qed.

Lemma small_fields_intro g : small_heap ∧ fields_at g ⊢ small_fields_at g.
Proof.
  induction g as [|this x g Hx IH] using map_ind.
  - unfold fields_at, small_fields_at. rw !big_sepM_empty. by iIntros "[_ $]".
  - unfold fields_at, small_fields_at in *. rw !big_sepM_insert // small_heap_sep -IH. iIntros "[H $]".
    rw bi.and_exist_l. iDestruct "H" as (cap) "H". iDestruct (small_shape with "H") as "[Hc S]". iExists cap. iFrame.
Qed.

Lemma represents_small s A : represents s A -> small s ->
  holds_of ((small_fields_at (flds A) ∗ held_at (held A)) ∗ garbage)%I s.
Proof.
  intros (x & y & -> & Hd & HF & z & w & -> & Hd' & Hh & Hg) Hs. apply small_union in Hs as [Hs _]; [|done].
  assert (small_fields_at (flds A) ∗ held_at (held A) ∗ garbage ⊢ (small_fields_at (flds A) ∗ held_at (held A)) ∗ garbage) as [E]
    by (by iIntros "($ & $ & $)"). apply E. exists x, (z ∪ w). split; [done|]. split; [done|]. split.
  - apply (entails_in _ _ (small_fields_intro (flds A))). by split.
  - by exists z, w.
Qed.

Lemma object_refines (c : call) A R :
  spec c A = Some R ->
  match c with CNewObject _ _ | CDeleteObject _ => True | _ => False end ->
  ⊢ fields_at (flds A) -∗ held_at (held A) -∗ wpm (run c) (fields_post R).
Proof.
  intros HR Hk. iIntros "F Hh". destruct c; try done; cbn [spec call_field] in HR; cbn [run].
  - injection HR as <-. wbind. iApply wpm_New; [done|]. iIntros (p) "Hp". iApply wpm_ret.
    iDestruct (elems_one with "Hp") as "Hp". iDestruct (receive_all with "[$Hp $Hh]") as (h') "[%Hr Hh]".
    iExists (Contents (flds A) h'). iFrame. iPureIntro. eauto.
  - destruct (held A !! p) as [o|] eqn:Ho; [|done]. cbn [mbind option_bind] in HR. guarded HR.
    iDestruct (held_delete with "Hh") as "[Hp Hh]"; [exact Ho|]. wbind. unfold Delete_value. case_decide; [|done].
    iApply (wpm_delete_object with "Hp"); [done|]. iIntros "_". iApply wpm_ret.
    by iApply (post_give _ (Contents (flds A) (delete p (held A))) with "F Hh").
Qed.

Lemma field_refines (c : call) this a l n A R :
  call_field c = Some this -> flds A !! this = Some (a, l, n) -> spec_field c this a l n A = Some R ->
  ⊢ small_fields_at (flds A) -∗ held_at (held A) -∗ wpm (run c) (fields_post R).
Proof.
  intros Hf Hl HR. iIntros "F Hh". iDestruct (small_fields_take with "F") as (cap) "(%Hc & S & F)"; [exact Hl|].
  rw small_fields_forget. iApply (wpm_wand with "[S Hh]").
  - destruct c; try done;
      first [iApply (keep_refines with "S Hh"); done|iApply (objects_refine with "S Hh"); done
            |iApply (ranges_refine with "S Hh"); done].
  - iIntros (r) "(%cap' & %l' & %n' & %h & %Hr & S & Hh)". iExists (Contents (<[this := (a, l', n')]> (flds A)) h).
    iFrame. iSplitR; [done|]. iApply (fields_close with "S F").
Qed.

Lemma ptr_call_refines s A (c : call) R :
  represents s A -> small s -> spec c A = Some R ->
  exists r s' A', run c s = Done (r, s') /\ R r A' /\ represents s' A'.
Proof.
  intros Hs Hsm HR. apply represents_small in Hs; [|done].
  assert ((small_fields_at (flds A) ∗ held_at (held A)) ∗ garbage ⊢ wpm (run c) (fields_post R)) as Hwp.
  { iIntros "[[F Hh] G]". iApply (wpm_drop with "G"). unfold spec in HR.
    destruct (call_field c) as [this|] eqn:Hf.
    - destruct (flds A !! this) as [[[a l] n]|] eqn:Hl; [|done]. by iApply (field_refines with "F Hh").
    - destruct c; try done;
        first [iApply (make_refines with "F Hh"); done|iApply (merge_refines with "F Hh"); done
              |rw small_fields_forget; iApply (object_refines with "F Hh"); done]. }
  destruct (wpm_adequate _ _ _ s Hwp Hs) as (r & s' & E & Hs'). 
  assert (fields_post R r ∗ garbage ⊢ ∃ A', ⌜R r A'⌝ ∧ (fields_at (flds A') ∗ held_at (held A') ∗ garbage)) as [Hpost].
  { iIntros "[(%A' & %Hr & F & Hh) G]". iExists A'. iSplit; [done|]. iFrame. }
  destruct (Hpost _ Hs') as (A' & Hr & HA). by exists r, s', A'.
Qed.
End all.
