(* ===== verification/RepeatedPtrTidy.v ===== *)
(** * Repeated fields of pointers: who owns what

    A heap is tidy when every pointer of an array leads to an object, no two slots
    lead to the same one, and every object and array that is not on an arena belongs
    to somebody: a slot of a field, or the caller. *)
From Stdlib Require Import ZArith Lia Strings.Byte.
From stdpp Require Import base tactics option list list_numbers gmap.
From iris.bi Require Import bi big_op.
From iris.proofmode Require Import proofmode.
From S2P Require Import Prelude Bits HeapLogic RepeatedPtrFieldBase RepeatedPtrLogic RepeatedPtrOps RepeatedPtrSpec.

Section tidy.
  Context {T : Type} `{TypeHandler T}.
  Implicit Types (this other p r : Z) (s : store T) (a : option Z) (l : list T) (n : nat) (h : gmap Z (object T)).

(** Slot [i] of the field at [this] holds the pointer [p]. *)
Definition slot s this (i : nat) p : Prop :=
  exists f r x, fields s !! this = Some f /\ rep_ f = Some r /\ reps s !! r = Some x /\
    rep_elements x !! i = Some (Some p) /\ Z.of_nat i < allocated_size x.

Record tidy h s : Prop := {
  tidy_arrays this f r : fields s !! this = Some f -> rep_ f = Some r -> is_Some (reps s !! r);
  tidy_pointers this i p : slot s this i p -> is_Some (objects s !! p);
  tidy_once this i other j p : slot s this i p -> slot s other j p -> this = other /\ i = j;
  tidy_objects p o : objects s !! p = Some o -> obj_owner o = None ->
    h !! p = Some o \/ exists this i, slot s this i p;
  tidy_reps r x : reps s !! r = Some x -> rep_block x = None ->
    exists this f, fields s !! this = Some f /\ rep_ f = Some r;
}.

Lemma slot_union_l s1 s2 this i p : slot s1 this i p -> slot (s1 ∪ s2) this i p.
Proof.
  intros (f & r & x & Hf & Hr & Hx & Hrest). exists f, r, x. simpl.
  by rw (lookup_union_Some_l _ _ _ _ Hf) (lookup_union_Some_l _ _ _ _ Hx).
Qed.
Lemma slot_union_r s1 s2 this i p : s1 ## s2 -> slot s2 this i p -> slot (s1 ∪ s2) this i p.
Proof. intros Hd Hs. rw heap_union_comm //. by apply slot_union_l. Qed.

(** A slot of a union is a slot of the part with the field. *)
Lemma slot_union h s1 s2 this i p : s1 ## s2 -> tidy h s1 -> tidy h s2 ->
  slot (s1 ∪ s2) this i p -> slot s1 this i p \/ slot s2 this i p.
Proof.
  intros (_ & Hr & Hf) T1 T2 (f & r & x & Ef & Er & Ex & Hrest). simpl in Ef, Ex.
  apply lookup_union_Some in Ef as [Ef|Ef]; [| |done].
  - left. destruct (tidy_arrays _ _ T1 _ _ _ Ef Er) as [y Hy]. exists f, r, x.
    rw (lookup_union_Some_l _ _ _ _ Hy) in Ex. by injection Ex as <-.
  - right. destruct (tidy_arrays _ _ T2 _ _ _ Ef Er) as [y Hy]. exists f, r, x.
    rw (lookup_union_Some_r _ _ _ _ Hr Hy) in Ex. by injection Ex as <-.
Qed.

Lemma tidy_union h s1 s2 : s1 ## s2 -> tidy h s1 -> tidy h s2 -> tidy h (s1 ∪ s2).
Proof.
  intros Hd T1 T2. pose proof Hd as (Ho & Hr & Hf). split.
  - intros this f r Ef Er. simpl in *. apply lookup_union_is_Some.
    apply lookup_union_Some in Ef as [Ef|Ef]; [left|right|done]; by eapply tidy_arrays.
  - intros this i p Hs. simpl. apply lookup_union_is_Some.
    eapply slot_union in Hs as [Hs|Hs]; [left|right| | |]; by [eapply tidy_pointers|].
  - intros this i other j p Hs1 Hs2. pose proof (fun q => proj1 (map_disjoint_spec _ _) Ho q) as Hdis.
    eapply slot_union in Hs1 as [Hs1|Hs1]; eapply slot_union in Hs2 as [Hs2|Hs2]; try done;
      [by eapply (tidy_once h s1)| | |by eapply (tidy_once h s2)];
      eapply tidy_pointers in Hs1 as [o1 Ho1]; try done; eapply tidy_pointers in Hs2 as [o2 Ho2]; try done;
      naive_solver.
  - intros p o Hp Hown. simpl in Hp. apply lookup_union_Some in Hp as [Hp|Hp]; [| |done].
    + destruct (tidy_objects _ _ T1 p o Hp Hown) as [?|(this & i & Hs)]; [by left|]. right. exists this, i.
      by apply slot_union_l.
    + destruct (tidy_objects _ _ T2 p o Hp Hown) as [?|(this & i & Hs)]; [by left|]. right. exists this, i.
      by apply slot_union_r.
  - intros r x Hx Hb. simpl in *. apply lookup_union_Some in Hx as [Hx|Hx]; [| |done].
    + destruct (tidy_reps _ _ T1 r x Hx Hb) as (this & f & Ef & Er). exists this, f.
      split; [by apply lookup_union_Some_l|done].
    + destruct (tidy_reps _ _ T2 r x Hx Hb) as (this & f & Ef & Er). exists this, f.
      split; [by apply lookup_union_Some_r|done].
Qed.

(** What a list of elements is in the heap. *)
Lemma elems_heap a ps l s : holds_of (elems a ps l) s ->
  fields s = ∅ /\ reps s = ∅ /\ NoDup ps /\ forall p, is_Some (objects s !! p) <-> p ∈ ps.
Proof.
  revert l s. induction ps as [|p ps IH]; intros l s Hs.
  - destruct l; [|done]. hnf in Hs. subst s. split_and!; [done|done|constructor|].
    intros p. simpl. rw lookup_empty. split; [by intros [? ?]|by intros ?%elem_of_nil].
  - destruct l as [|v l]; [done|]. destruct Hs as (x & y & E & (Hd & _ & _) & (ar & z & w & E1 & _ & E2 & [E3 _]) & Hy).
    destruct (IH _ _ Hy) as (Hf & Hr & Hnd & Hp). hnf in E2, E3. subst s x z w. simpl in *. rw Hf Hr !right_id_L in Hd |- *.
    split_and!; [done|done| |].
    + constructor; [|done]. intros Hin%Hp. destruct Hin as [o Ho]. apply map_disjoint_singleton_l in Hd. congruence.
    + intros q. rw lookup_union_is_Some elem_of_cons -Hp. apply or_iff_compat_r. split.
      * by intros [o [<- _]%lookup_singleton_Some].
      * intros ->. rw lookup_singleton_eq. by eexists.
Qed.

(** What a field is in the heap. *)
Lemma shape_heap this a cap l n s : holds_of (shape this a cap l n) s ->
  exists f qs, fields s = {[this := f]} /\ NoDup qs /\ (forall p, is_Some (objects s !! p) <-> p ∈ qs) /\
    match rep_ f with
    | Some r => exists rest, reps s = {[r := MkRep a (Z.of_nat (length qs)) (slots qs ++ rest)]}
    | None => reps s = ∅ /\ qs = []
    end.
Proof.
  assert (shape this a cap l n ⊢ ∃ qs rest (r : option Z) m, array this a cap m (Z.of_nat (length qs)) (slots qs ++ rest) r ∗
    elems a qs (l ++ replicate n New_value)) as [E].
  { iIntros "(%ps & %cs & %rest & %r & Ha & Hps & Hcs)". iExists (ps ++ cs), rest, r, _.
    rw length_app Nat2Z.inj_add. iFrame "Ha". iApply (elems_app with "[$Hps $Hcs]"). }
  intros Hs. destruct (E _ Hs) as (qs & rest & r & m & x & y & Es & Hd & (f & z & Ex & _ & Hf & w & u & Ez & _ & Hr & [Hu _]) & Hy).
  apply elems_heap in Hy as (Hyf & Hyr & Hnd & Hp). hnf in Hf, Hu. subst s x f z u.
  exists (PF a m cap r), qs. simpl. rw Hyf Hyr !right_id_L. destruct r as [r|].
  - hnf in Hr. subst w. simpl. rw ?left_id_L ?right_id_L. split_and!; [done|done|done|by exists rest].
  - destruct Hr as [Hw [Hm Hels]]. hnf in Hw. subst w. simpl. rw ?left_id_L ?right_id_L.
    split_and!; [done|done|done|done|]. by destruct qs.
Qed.

Lemma shape_tidy h this a cap l n s : holds_of (shape this a cap l n) s -> tidy h s.
Proof.
  intros (f & qs & Hf & Hnd & Hp & Hr)%shape_heap.
  assert (forall this' i p, slot s this' i p <-> this' = this /\ qs !! i = Some p) as Hslot.
  { intros this' i p. split.
    - intros (f' & r & x & Ef & Er & Ex & Hi & Hlt). rw Hf in Ef. apply lookup_singleton_Some in Ef as [<- <-].
      rw Er in Hr. destruct Hr as [rest Hr]. rw Hr in Ex. apply lookup_singleton_Some in Ex as [_ <-].
      split; [done|]. simpl in *. rw lookup_app_l in Hi; [|rw length_slots; lia]. unfold slots in Hi.
      rw list_lookup_fmap in Hi. destruct (qs !! i); [by injection Hi as ->|done].
    - intros [-> Hi]. pose proof (lookup_lt_Some _ _ _ Hi). destruct (rep_ f) as [r|] eqn:Er; [|by destruct Hr as [_ ->]].
      destruct Hr as [rest Hr]. exists f, r, (MkRep a (Z.of_nat (length qs)) (slots qs ++ rest)).
      rw Hf Hr !lookup_singleton_eq. split_and!; [done|done|done|by apply slots_lookup|simpl; lia]. }
  split.
  - intros this' f' r Ef Er. rw Hf in Ef. apply lookup_singleton_Some in Ef as [<- <-]. rw Er in Hr.
    destruct Hr as [rest Hr]. rw Hr lookup_singleton_eq. by eexists.
  - intros this' i p [-> Hi]%Hslot. apply Hp. by eapply list_elem_of_lookup_2.
  - intros t1 i t2 j p [-> Hi]%Hslot [-> Hj]%Hslot. split; [done|]. by eapply NoDup_lookup.
  - intros p o Ho _. right. assert (p ∈ qs) as [i Hi]%list_elem_of_lookup_1 by (apply Hp; by eexists).
    exists this, i. by apply Hslot.
  - intros r x Hx _. exists this, f. rw Hf lookup_singleton_eq. split; [done|]. destruct (rep_ f) as [r'|].
    + destruct Hr as [rest Hr]. rw Hr in Hx. by apply lookup_singleton_Some in Hx as [-> _].
    + destruct Hr as [Hr _]. by rw Hr lookup_empty in Hx.
Qed.

Lemma garbage_tidy h s : on_arenas s -> tidy h s.
Proof.
  intros (Hf & Ho & Hr). assert (forall this i p, ~ slot s this i p) as Hns.
  { intros this i p (f & r & x & Ef & _). by rw Hf lookup_empty in Ef. }
  split.
  - intros this f r Ef. by rw Hf lookup_empty in Ef.
  - intros this i p Hs. by apply Hns in Hs.
  - intros this i other j p Hs. by apply Hns in Hs.
  - intros p o Hp Hown. by apply Ho in Hp.
  - intros r x Hx Hb. by apply Hr in Hx.
Qed.

Lemma held_tidy h h' s : h' ⊆ h -> holds_of (held_at h') s -> tidy h s.
Proof.
  revert s. induction h' as [|p o h' Hp IH] using map_ind; intros s Hsub Hs.
  - assert (s = ∅) as ->; [|by apply garbage_tidy].
    assert (held_at (T := T) ∅ ⊢ emp) as [E] by (unfold held_at; by rw big_sepM_empty). by apply E.
  - assert (held_at (<[p := o]> h') ⊢ p ↦o o ∗ held_at h') as [E] by (unfold held_at; by rw big_sepM_insert).
    destruct (E _ Hs) as (x & y & -> & Hd & -> & Hy). apply tidy_union; [done| |].
    + assert (forall this i q, ~ slot (Store {[p := o]} ∅ ∅) this i q) as Hns.
      { intros this i q (f & r & x & Ef & _). by rw lookup_empty in Ef. }
      split; simpl.
      * intros this f r Ef. by rw lookup_empty in Ef.
      * intros this i q Hq. by apply Hns in Hq.
      * intros this i other j q Hq. by apply Hns in Hq.
      * intros q o' [<- <-]%lookup_singleton_Some Ho. left. eapply lookup_weaken; [|exact Hsub]. apply lookup_insert_eq.
      * intros r x Hx. by rw lookup_empty in Hx.
    + apply IH; [|done]. etransitivity; [|exact Hsub]. by apply insert_subseteq.
Qed.
Lemma fields_tidy h g s : holds_of (fields_at g) s -> tidy h s.
Proof.
  revert s. induction g as [|this x g Hx IH] using map_ind; intros s Hs.
  - assert (s = ∅) as ->; [|by apply garbage_tidy].
    assert (fields_at (T := T) ∅ ⊢ emp) as [E] by (unfold fields_at; by rw big_sepM_empty). by apply E.
  - assert (fields_at (<[this := x]> g) ⊢ (∃ cap, shape this x.1.1 cap x.1.2 x.2) ∗ fields_at g) as [E]
      by (unfold fields_at; by rw big_sepM_insert).
    destruct (E _ Hs) as (y & z & -> & Hd & [cap Hy] & Hz). apply tidy_union; [done|by eapply shape_tidy|by apply IH].
Qed.

Lemma represents_tidy s A : represents s A -> tidy (held A) s.
Proof.
  intros (x & y & -> & Hd & HF & z & w & -> & Hd' & Hh & Hg).
  apply tidy_union; [done|by eapply fields_tidy|]. apply tidy_union; [done|by eapply held_tidy|by apply garbage_tidy].
Qed.
End tidy.
