(* ===== verification/RepeatedPtrProps.v ===== *)
(** * Properties of the repeated fields of pointers *)
From Stdlib Require Import ZArith Lia Strings.Byte.
From stdpp Require Import base tactics option list list_numbers gmap.
From iris.bi Require Import bi big_op.
From iris.proofmode Require Import proofmode.
From S2P Require Import Prelude Bits HeapLogic RepeatedPtrFieldBase RepeatedPtrField RepeatedPtrLogic RepeatedPtrOps.
From S2P Require Import RepeatedPtrMerge RepeatedPtrOwn RepeatedPtrSpec RepeatedPtrRefine RepeatedPtrTidy.

(** ** A heap for the witnesses: strings, and out-of-line methods that do what is documented *)

Section instance.
  Context {T : Type}.
  Implicit Types (this start num k : Z) (s : store T) (els : list (option Z)).

Definition pad_slots (n : nat) (els : list (option Z)) : list (option Z) := els ++ replicate (n - length els) None.

Definition extend this k : stm (store T) (Z * Z) :=
  f ← field this;
  let n := current_size_ f + k in
  match rep_ f with
  | Some r =>
      if decide (n <= total_size_ f) then mret (r, current_size_ f)
      else
        x ← rep_at r;
        let cap := Z.max 4 (Z.max (total_size_ f * 2) n) in
        r' ← new_rep (MkRep (arena_ f) (allocated_size x) (pad_slots (Z.to_nat cap) (rep_elements x)));
        set_field this (PF (arena_ f) (current_size_ f) cap (Some r')) ;;
        (if decide (arena_ f = None) then delete_rep r else mret tt) ;;
        mret (r', current_size_ f)
  | None =>
      let cap := Z.max 4 n in
      r' ← new_rep (MkRep (arena_ f) 0 (replicate (Z.to_nat cap) None));
      set_field this (PF (arena_ f) (current_size_ f) cap (Some r')) ;;
      mret (r', current_size_ f)
  end.

Definition reserve this k : stm (store T) unit :=
  f ← field this;
  if decide (total_size_ f < k) then extend this (k - current_size_ f) ;; mret tt else mret tt.

Definition close_gap this start num : stm (store T) unit :=
  f ← field this;
  match rep_ f with
  | Some r =>
      x ← rep_at r;
      set_rep r (MkRep (rep_block x) (allocated_size x - num)
        (take (Z.to_nat start) (rep_elements x) ++ drop (Z.to_nat (start + num)) (rep_elements x) ++ replicate (Z.to_nat num) None)) ;;
      set_field this (PF (arena_ f) (current_size_ f - num) (total_size_ f) (Some r))
  | None => mret tt
  end.

#[export] Instance simple_fallbacks : PtrFallbacks T := {
  Reserve := reserve; InternalExtend := extend; CloseGap := close_gap;
}.

Lemma take_pad_slots m n els : (m <= length els)%nat -> take m (pad_slots n els) = take m els.
Proof. intros Hm. unfold pad_slots. rw take_app_le //. Qed.
Lemma length_pad_slots n els : (length els <= n)%nat -> length (pad_slots n els) = n.
Proof. intros Hn. unfold pad_slots. rw length_app length_replicate. lia. Qed.

Lemma close_take m start num els :
  0 <= start -> 0 <= num -> start + num <= m -> m <= Z.of_nat (length els) ->
  take (Z.to_nat (m - num)) (take (Z.to_nat start) els ++ drop (Z.to_nat (start + num)) els ++ replicate (Z.to_nat num) None) =
  take (Z.to_nat start) els ++ drop (Z.to_nat (start + num)) (take (Z.to_nat m) els).
Proof.
  intros. rw skipn_firstn_comm firstn_app length_take take_take. f_equal; [f_equal; lia|].
  rw take_app_le; [|rw length_drop; lia]. f_equal. lia.
Qed.

Lemma wpm_extend this a cap n m els r k (Q : Z * Z -> hP T) :
  n <= cap -> cap < 2 ^ 30 -> 0 < k -> n + k < 2 ^ 31 ->
  ⊢ array this a cap n m els r -∗
    (∀ cap' els' (r' : Z), ⟨n + k <= cap' /\ cap <= cap' /\ take (Z.to_nat m) els' = take (Z.to_nat m) els⟩ -∗
       array this a cap' n m els' (Some r') -∗ Q (r', n)) -∗ wpm (extend this k) Q.
Proof.
  iIntros (Hn Hc Hk Hnk) "Ha HQ". iDestruct (array_pure with "Ha") as "[Ha %Hp]".
  destruct Hp as (Hl & _ & Hn0 & Hm & Hr). wfield "Ha". destruct r as [r|].
  - case_decide.
    + iApply wpm_ret. iApply ("HQ" with "[] Ha"). iPureIntro. split_and!; [lia|lia|done].
    + iDestruct "Ha" as "(Hf & Hr & _)". wbind. iApply (wpm_rep_at with "Hr"). iIntros "Hr".
      wbind. iApply wpm_new_rep. iIntros (r') "Hr'". wbind. iApply (wpm_set_field with "Hf"). iIntros "Hf".
      iAssert (array this a (Z.max 4 (Z.max (cap * 2) (n + k))) n m
        (pad_slots (Z.to_nat (Z.max 4 (Z.max (cap * 2) (n + k)))) els) (Some r')) with "[Hf Hr']" as "Ha".
      { iFrame. iPureIntro. rw length_pad_slots; lia. }
      wbind. cbn [arena_]. case_decide as Ha.
      * iApply (wpm_delete_rep with "Hr"); [done|]. iIntros "_". iApply wpm_ret. iApply ("HQ" with "[] Ha").
        iPureIntro. split_and!; [lia|lia|apply take_pad_slots; lia].
      * iApply (wpm_drop with "[Hr]"); [by iApply (rep_garbage with "Hr")|]. do 2 iApply wpm_ret.
        iApply ("HQ" with "[] Ha"). iPureIntro. split_and!; [lia|lia|apply take_pad_slots; lia].
  - iDestruct "Ha" as "(Hf & (%Em & %Ee) & _)". subst m els.
    wbind. iApply wpm_new_rep. iIntros (r') "Hr'". wbind. iApply (wpm_set_field with "Hf"). iIntros "Hf".
    iApply wpm_ret. iApply ("HQ" with "[] [Hf Hr']"); last first.
    + iFrame. iPureIntro. rw length_replicate. lia.
    + iPureIntro. simpl in *. split_and!; [lia|lia|done].
Qed.

#[export] Instance simple_laws : PtrLaws T.
Proof.
  split.
  - intros this a cap n m els r k Hn Hc [_ Hk]. iIntros "Ha". iDestruct (array_pure with "Ha") as "[Ha %Hp]".
    cbn [Reserve simple_fallbacks]. wfield "Ha". case_decide.
    + wbind. iApply (wpm_extend with "Ha"); [lia..|]. iIntros (cap' els' r' (H1 & H2 & H3)) "Ha". iApply wpm_ret.
      iExists cap', els', (Some r'). iFrame. iPureIntro. split_and!; [lia|lia|done].
    + iApply wpm_ret. iExists cap, els, r. iFrame. iPureIntro. split_and!; [lia|lia|done].
  - intros this a cap n m els r k Hn Hc Hk [_ Hnk]. iIntros "Ha". iApply (wpm_extend with "Ha"); [lia..|].
    iIntros (cap' els' r' (H1 & H2 & H3)) "Ha". iExists cap', els', r'. by iFrame.
  - intros this a cap n m els r start num Hs Hnum Hn Hm. iIntros "Ha". iDestruct (array_pure with "Ha") as "[Ha %Hp]".
    destruct Hp as (Hl & Hcap & Hn0 & Hmc & Hr). cbn [CloseGap simple_fallbacks]. wfield "Ha". destruct r as [r|].
    + iDestruct "Ha" as "(Hf & Hr & _)". wbind. iApply (wpm_rep_at with "Hr"). iIntros "Hr".
      wbind. iApply (wpm_set_rep with "Hr"). iIntros "Hr". iApply (wpm_set_field with "Hf"). iIntros "Hf".
      iExists _. iFrame. cbn [rep_elements rep_block allocated_size]. iPureIntro. split.
      * apply close_take; lia.
      * rw !length_app length_take length_drop length_replicate. lia.
    + iApply wpm_ret. rewrite -> Hr in * by done. simpl in Hl. iExists []. assert (num = 0 /\ start = 0 /\ m = 0 /\ n = 0) as (-> & -> & -> & ->) by lia.
      iFrame. done.
Qed.
End instance.

#[export] Instance string_sizes : StringSizes := { sizeof_string := 32; StringSpaceUsedExcludingSelfLong _ := 0 }.
#[export] Instance string_handler : TypeHandler (list byte) := StringTypeHandler.
#[export] Instance string_handler_laws : HandlerLaws (list byte).
Proof. by split. Qed.

(** A field of two strings and a cleared one, and a string of the caller's. *)
Definition two_strings : store (list byte) :=
  Store (<[10 := Obj None None ["A"%byte]]> (<[11 := Obj None None ["B"%byte; "C"%byte]]>
          (<[12 := Obj None None []]> {[30 := Obj None None ["D"%byte]]})))
        {[20 := MkRep None 3 [Some 10; Some 11; Some 12; None]]} {[1 := PF None 2 4 (Some 20)]}.
Definition two_contents : contents :=
  Contents {[1 := (None, [["A"%byte]; ["B"%byte; "C"%byte]], 1%nat)]} {[30 := Obj None None ["D"%byte]]}.

Lemma two_strings_represent : represents two_strings two_contents.
Proof.
  assert (objects_at (objects two_strings) ∗ reps_at (reps two_strings) ∗ cells_at (fields two_strings) ⊢
    fields_at (flds two_contents) ∗ held_at (held two_contents) ∗ garbage) as [E]; [|apply E, store_cells].
  unfold objects_at, reps_at, cells_at, fields_at, held_at. cbn [objects reps fields flds held two_strings two_contents].
  rw !big_sepM_insert // ?big_sepM_singleton ?big_sepM_empty !right_id.
  iIntros "((H10 & H11 & H12 & $) & Hr & Hf)". iSplitL; [|by iApply garbage_emp].
  iExists 4, [10; 11], [12], [None], (Some 20). cbn. iFrame "Hf Hr". iSplitR; [iPureIntro; simpl; lia|].
  iSplitL "H10 H11"; [iSplitL "H10"; [|iSplitL; [|done]]|iSplitL; [|done]]; iExists None; iFrame; iPureIntro; by left.
Qed.

Lemma two_strings_small : small two_strings.
Proof. intros this f Hf. unfold two_strings in Hf. cbn [fields] in Hf. by apply lookup_singleton_Some in Hf as [<- <-]. Qed.

(** C12: Refinement: whatever the type of the elements, on a heap whose arrays are
    below 2^30 pointers, every method of [RepeatedPtrField] called within its contract
    does what the specification on lists of values says: it returns the specified
    result, the fields have the specified elements and numbers of cleared objects,
    each on its own arena, and the caller holds the specified objects.  This covers
    the reuse of cleared objects, growth, objects that are adopted, copied or released
    across arenas, ranges, swaps, moves and self-assignment. *)
Theorem ptr_methods_refine {T} `{EqDecision T} `{TypeHandler T} `{PtrFallbacks T} `{!PtrLaws T} `{!HandlerLaws T}
    s A (c : call (T := T)) R :
  represents s A -> small s -> spec c A = Some R ->
  exists r s' A', run c s = Done (r, s') /\ R r A' /\ represents s' A'.
Proof. apply ptr_call_refines. Qed.

(** The caller's string goes into the field: nothing is copied. *)
Lemma ptr_methods_refine_witness :
  exists r s' A', run (CAddAllocated 1 30) two_strings = Done (r, s') /\
    (exists c', flds A' = {[1 := (None, [["A"%byte]; ["B"%byte; "C"%byte]; ["D"%byte]], c')]}) /\ represents s' A'.
Proof.
  destruct (ptr_methods_refine two_strings two_contents (CAddAllocated 1 30)
    (fun r A' => r = AUnit /\ exists c', (c' <= 1 <= c' + 1)%nat /\
      A' = Contents (<[1 := (None, [["A"%byte]; ["B"%byte; "C"%byte]; ["D"%byte]], c')]> (flds two_contents))
             (delete 30 (held two_contents))))
    as (r & s' & A' & E & (_ & c' & _ & ->) & HA).
  - apply two_strings_represent.
  - apply two_strings_small.
  - reflexivity.
  - exists r, s', (Contents (<[1 := (None, [["A"%byte]; ["B"%byte; "C"%byte]; ["D"%byte]], c')]> (flds two_contents))
             (delete 30 (held two_contents))). split; [exact E|]. split; [|exact HA]. exists c'. reflexivity.
Defined.

(** C13: Ownership: after every method of [RepeatedPtrField] called within its contract,
    every pointer of an array leads to an object that exists, no two slots of arrays
    lead to the same object, every object that is on no arena is held by the caller or
    belongs to a slot of a field, and every array that is on no arena belongs to a
    field: nothing is freed too early, freed twice or leaked. *)
Theorem ptr_methods_own {T} `{EqDecision T} `{TypeHandler T} `{PtrFallbacks T} `{!PtrLaws T} `{!HandlerLaws T}
    s A (c : call (T := T)) R :
  represents s A -> small s -> spec c A = Some R ->
  exists r s' A', run c s = Done (r, s') /\ R r A' /\ tidy (held A') s'.
Proof.
  intros Hs Hsm HR. destruct (ptr_call_refines s A c R Hs Hsm HR) as (r & s' & A' & E & Hr & HA).
  exists r, s', A'. split_and!; [done|done|by eapply represents_tidy].
Qed.

(** The first element is deleted. *)
Lemma ptr_methods_own_witness :
  exists r s', run (CDeleteSubrange 1 0 1) two_strings = Done (r, s') /\ tidy (held two_contents) s'.
Proof.
  destruct (ptr_methods_own two_strings two_contents (CDeleteSubrange 1 0 1)
    (fun r A' => r = AUnit /\ A' = with_field 1 None [["B"%byte; "C"%byte]] 1 two_contents))
    as (r & s' & A' & E & (_ & ->) & HA).
  - apply two_strings_represent.
  - apply two_strings_small.
  - reflexivity.
  - exists r, s'. split; [exact E|exact HA].
Defined.
