(* ===== verification/InnerMap.v ===== *)
(** * Hash maps ([google/protobuf/map.h], class Map::InnerMap)

    The hash table under the maps of messages: buckets are linked lists, and a pair
    of buckets whose list grows too long shares a search tree.  All objects, nodes,
    trees, tables and maps, live in one address space, since the code tells a list
    from a tree by comparing pointers.  Each cell knows the arena it is on.

    The key type is a class ([HashKey]: the hash function, [operator==] and
    [operator<]).  [std::set] of the standard library is the list of its elements in
    order.  Loops along pointers have as much fuel as there are cells in the heap. *)
From Stdlib Require Import ZArith Lia.
From stdpp Require Import base tactics option list list_numbers gmap.
From S2P Require Import Prelude Bits.

Class HashKey (K : Type) `{EqDecision K} := {
  hash : K -> Z;
  key_lt : K -> K -> bool;
}.

(** ** Data *)

(** [alloc_] and [arena_] are arenas; [table_] and [elements_] are addresses. *)
Record InnerMap := IM {
  num_elements_ : Z;
  num_buckets_ : Z;
  seed_ : Z;
  index_of_first_non_null_ : Z;
  table_ : Z;
  alloc_ : option Z;
}.
Record Map := MkMap { arena_ : option Z; default_enum_value_ : Z; elements_ : Z }.

(** [Node], [Tree], the array of buckets, the two classes and [MapPair]. *)
Inductive cell (K T : Type) :=
| CNode (k_ : K) (v_ : option Z) (next : option Z)
| CTree (keys : list Z)
| CTable (slots : list (option Z))
| CInner (m : InnerMap)
| CMap (m : Map)
| CPair (first : K) (second : T).
Arguments CNode {K T} _ _ _.
Arguments CTree {K T} _.
Arguments CTable {K T} _.
Arguments CInner {K T} _.
Arguments CMap {K T} _.
Arguments CPair {K T} _ _.

Abbreviation store K T := (gmap Z (option Z * cell K T)).

Record iterator := It { node_ : option Z; m_ : option Z; bucket_index_ : Z }.

(** The time stamp counter ([rdtsc]), whenever it is read. *)
Class Clock (K T : Type) := { rdtsc : store K T -> Z }.

(** ** The heap *)

Section heap.
  Context {K T : Type}.
  Implicit Types (s : store K T) (p : Z) (a : option Z) (c : cell K T).

Definition cell_at p : stm (store K T) (cell K T) := fun s =>
  match s !! p with Some (_, c) => Done (c, s) | None => Fault UseAfterFree end.
Definition set_cell p c : stm (store K T) unit := fun s =>
  match s !! p with Some (a, _) => Done (tt, <[p := (a, c)]> s) | None => Fault UseAfterFree end.
(** [Alloc], [Arena::Create] and [new]: on the arena, or on the heap. *)
Definition alloc a c : stm (store K T) Z := fun s =>
  let p := fresh (dom s) in Done (p, <[p := (a, c)]> s).
(** [Dealloc] and [delete]: what is on an arena stays there. *)
Definition dealloc a p : stm (store K T) unit := fun s =>
  if decide (a = None) then
    match s !! p with Some (None, _) => Done (tt, delete p s) | _ => Fault UseAfterFree end
  else Done (tt, s).

(** As many rounds as there are cells, and one. *)
Definition heap_fuel : stm (store K T) nat := st_gets (fun s => S (size s)).

(** Pointers are cast: what they lead to has the type, or the behaviour is undefined. *)
Definition node_at p : stm (store K T) (K * option Z * option Z) :=
  c ← cell_at p; match c with CNode k v n => mret (k, v, n) | _ => st_fault UseAfterFree end.
Definition tree_at p : stm (store K T) (list Z) :=
  c ← cell_at p; match c with CTree l => mret l | _ => st_fault UseAfterFree end.
Definition table_at p : stm (store K T) (list (option Z)) :=
  c ← cell_at p; match c with CTable l => mret l | _ => st_fault UseAfterFree end.
Definition inner_at p : stm (store K T) InnerMap :=
  c ← cell_at p; match c with CInner m => mret m | _ => st_fault UseAfterFree end.

Definition key_at p : stm (store K T) K := n ← node_at p; mret (fst (fst n)).
Definition next_at p : stm (store K T) (option Z) := n ← node_at p; mret (snd n).
Definition set_next p (next : option Z) : stm (store K T) unit :=
  n ← node_at p; set_cell p (CNode (fst (fst n)) (snd (fst n)) next).
Definition set_value p (v : option Z) : stm (store K T) unit :=
  n ← node_at p; set_cell p (CNode (fst (fst n)) v (snd n)).

(** [table[b]]. *)
Definition slot_at (table b : Z) : stm (store K T) (option Z) :=
  l ← table_at table;
  if decide (0 <= b) then
    match l !! Z.to_nat b with Some e => mret e | None => st_fault OutOfBounds end
  else st_fault OutOfBounds.
Definition set_slot (table b : Z) (e : option Z) : stm (store K T) unit :=
  l ← table_at table;
  if decide (0 <= b < Z.of_nat (length l)) then set_cell table (CTable (<[Z.to_nat b := e]> l))
  else st_fault OutOfBounds.
Definition deref (p : option Z) : stm (store K T) Z :=
  match p with Some p => mret p | None => st_fault NullDeref end.

Definition set_inner p (m : InnerMap) : stm (store K T) unit := set_cell p (CInner m).
Definition set_table (this : Z) (n table : Z) : stm (store K T) unit :=
  m ← inner_at this;
  set_inner this (IM (num_elements_ m) n (seed_ m) (index_of_first_non_null_ m) table (alloc_ m)).
Definition set_index (this n : Z) : stm (store K T) unit :=
  m ← inner_at this;
  set_inner this (IM (num_elements_ m) (num_buckets_ m) (seed_ m) n (table_ m) (alloc_ m)).
Definition set_num_elements (this n : Z) : stm (store K T) unit :=
  m ← inner_at this;
  set_inner this (IM n (num_buckets_ m) (seed_ m) (index_of_first_non_null_ m) (table_ m) (alloc_ m)).
End heap.

Definition kMinTableSize : Z := 8.
Definition kMaxLength : Z := 8.
Definition max_size : Z := 2 ^ 60.
Definition TableSize (n : Z) : Z := if decide (n < kMinTableSize) then kMinTableSize else n.

Section InnerMap.
  Context {K T : Type} `{HashKey K} `{Clock K T}.
  Implicit Types (s : store K T) (this table b p tree : Z) (k : K) (v : option Z).
  Local Abbreviation M := (stm (store K T)).

(** ** Trees: [std::set<Key*, KeyCompare>] *)

(** The number of keys less than [k]. *)
Fixpoint lower_bound (l : list Z) k : M nat :=
  match l with
  | [] => mret O
  | p :: l => k' ← key_at p; if key_lt k' k then i ← lower_bound l k; mret (S i) else mret O
  end.
(** [find]: an element that is neither less nor greater. *)
Definition tree_find tree k : M (option Z) :=
  l ← tree_at tree;
  i ← lower_bound l k;
  match l !! i with
  | Some p => k' ← key_at p; mret (if key_lt k k' then None else Some p)
  | None => mret None
  end.
(** [insert(key).first]. *)
Definition tree_insert tree p : M Z :=
  k ← key_at p;
  l ← tree_at tree;
  i ← lower_bound l k;
  there ← tree_find tree k;
  match there with
  | Some q => mret q
  | None => set_cell tree (CTree (take i l ++ p :: drop i l)) ;; mret p
  end.
(** [erase], of an element and of a key. *)
Definition tree_erase tree p : M unit :=
  l ← tree_at tree; set_cell tree (CTree (filter (fun q => q <> p) l)).
Definition tree_erase_key tree k : M unit :=
  found ← tree_find tree k;
  match found with Some p => tree_erase tree p | None => mret tt end.
(** The iterator behind an element. *)
Fixpoint successor (l : list Z) p : option Z :=
  match l with
  | [] => None
  | q :: l => if decide (q = p) then head l else successor l p
  end.
Definition tree_next tree p : M (option Z) := l ← tree_at tree; mret (successor l p).

(** ** Buckets *)

Definition TableEntryIsEmpty table b : M bool := e ← slot_at table b; mret (bool_decide (e = None)).
Definition TableEntryIsNonEmptyList table b : M bool :=
  e ← slot_at table b;
  if decide (e = None) then mret false
  else e' ← slot_at table (Z.lxor b 1); mret (bool_decide (e <> e')).
Definition TableEntryIsTree table b : M bool :=
  empty ← TableEntryIsEmpty table b;
  if empty : bool then mret false
  else l ← TableEntryIsNonEmptyList table b; mret (negb l).
Definition TableEntryIsList table b : M bool := t ← TableEntryIsTree table b; mret (negb t).

Definition BucketNumber this k : M Z :=
  m ← inner_at this; mret (Z.land (u64 (hash k + seed_ m)) (num_buckets_ m - 1)).

(** [b & ~static_cast<size_type>(1)]. *)
Definition even_bucket b : Z := Z.land b (2 ^ 64 - 2).

Definition end_ : iterator := It None None 0.

(** The loop of [FindHelper]. *)
Fixpoint find_in_list (fuel : nat) p k : M (option Z) :=
  match fuel with
  | O => st_fault OutOfFuel
  | S fuel =>
      k' ← key_at p;
      if decide (k' = k) then mret (Some p)
      else n ← next_at p; match n with Some q => find_in_list fuel q k | None => mret None end
  end.

(** The iterator, the bucket, and what is stored through [it]. *)
Definition FindHelper this k : M (iterator * Z * option Z) :=
  m ← inner_at this;
  b ← BucketNumber this k;
  list ← TableEntryIsNonEmptyList (table_ m) b;
  if list : bool then
    e ← slot_at (table_ m) b; node ← deref e;
    fuel ← heap_fuel;
    found ← find_in_list fuel node k;
    mret (match found with Some p => (It (Some p) (Some this) b, b, None) | None => (end_, b, None) end)
  else
    tree ← TableEntryIsTree (table_ m) b;
    if tree : bool then
      e ← slot_at (table_ m) b;
      e' ← slot_at (table_ m) (Z.lxor b 1);
      st_lift (dcheck (e = e')) ;;
      let b := even_bucket b in
      e ← slot_at (table_ m) b; tree ← deref e;
      found ← tree_find tree k;
      match found with
      | Some p => st_lift (dcheck (b mod 2 = 0)) ;; mret (It (Some p) (Some this) b, b, Some p)
      | None => mret (end_, b, None)
      end
    else mret (end_, b, None).

Definition find this k : M iterator := r ← FindHelper this k; mret (fst (fst r)).
Definition contains this k : M bool := it ← find this k; mret (bool_decide (node_ it <> None)).

(** ** Iterators *)

Fixpoint SearchFrom_loop (fuel : nat) (n table b : Z) : M (option Z * Z) :=
  match fuel with
  | O => st_fault OutOfFuel
  | S fuel =>
      if decide (b < n) then
        list ← TableEntryIsNonEmptyList table b;
        if list : bool then e ← slot_at table b; mret (e, b)
        else
          tree ← TableEntryIsTree table b;
          if tree : bool then
            e ← slot_at table b; t ← deref e; l ← tree_at t;
            st_lift (dcheck (l <> [])) ;;
            mret (head l, b)
          else SearchFrom_loop fuel n table (b + 1)
      else mret (None, b)
  end.
(** [m_->index_of_first_non_null_ == m_->num_buckets_ ||
     m_->table_[m_->index_of_first_non_null_] != NULL]. *)
Definition first_is_non_null (m : InnerMap) : M unit :=
  if decide (index_of_first_non_null_ m = num_buckets_ m) then mret tt
  else e ← slot_at (table_ m) (index_of_first_non_null_ m); st_lift (dcheck (e <> None)).

Definition SearchFrom this (start_bucket : Z) : M iterator :=
  m ← inner_at this;
  first_is_non_null m ;;
  r ← SearchFrom_loop (S (Z.to_nat (num_buckets_ m - start_bucket))) (num_buckets_ m) (table_ m) start_bucket;
  mret (It (fst r) (Some this) (snd r)).

Definition begin this : M iterator := m ← inner_at this; SearchFrom this (index_of_first_non_null_ m).

(** Is [p] in the list behind its first node? *)
Fixpoint in_list (fuel : nat) (l : option Z) p : M bool :=
  match fuel with
  | O => st_fault OutOfFuel
  | S fuel =>
      match l with
      | None => mret false
      | Some q => if decide (q = p) then mret true else n ← next_at q; in_list fuel n p
      end
  end.

(** The result, the iterator with its bucket corrected, and [*it]. *)
Definition revalidate_if_necessary (i : iterator) : M (bool * iterator * option Z) :=
  st_lift (dcheck (node_ i <> None /\ m_ i <> None)) ;;
  this ← deref (m_ i); p ← deref (node_ i);
  m ← inner_at this;
  let b := Z.land (bucket_index_ i) (num_buckets_ m - 1) in
  e ← slot_at (table_ m) b;
  if decide (e = Some p) then mret (true, It (node_ i) (m_ i) b, None)
  else
    list ← TableEntryIsNonEmptyList (table_ m) b;
    inside ← (if list : bool then
                l ← deref e; n ← next_at l; fuel ← heap_fuel; in_list fuel n p
              else mret false);
    if inside : bool then mret (true, It (node_ i) (m_ i) b, None)
    else
      k ← key_at p;
      r ← FindHelper this k;
      let b := bucket_index_ (fst (fst r)) in
      is_list ← TableEntryIsList (table_ m) b;
      mret (is_list, It (node_ i) (m_ i) b, snd r).

(** [operator++]. *)
Definition incr (i : iterator) : M iterator :=
  p ← deref (node_ i);
  n ← next_at p;
  match n with
  | Some q => mret (It (Some q) (m_ i) (bucket_index_ i))
  | None =>
      r ← revalidate_if_necessary i;
      let '(is_list, i, tree_it) := r in
      this ← deref (m_ i);
      if is_list : bool then SearchFrom this (u64 (bucket_index_ i + 1))
      else
        st_lift (dcheck (Z.land (bucket_index_ i) 1 = 0)) ;;
        m ← inner_at this;
        e ← slot_at (table_ m) (bucket_index_ i); tree ← deref e;
        t ← deref tree_it;
        n ← tree_next tree t;
        match n with
        | None => SearchFrom this (u64 (bucket_index_ i + 2))
        | Some q => mret (It (Some q) (m_ i) (bucket_index_ i))
        end
  end.

(** ** Insertion *)

Definition InsertUniqueInList this b p : M iterator :=
  m ← inner_at this;
  e ← slot_at (table_ m) b;
  set_next p e ;;
  set_slot (table_ m) b (Some p) ;;
  mret (It (Some p) (Some this) b).
Definition InsertUniqueInTree this b p : M iterator :=
  m ← inner_at this;
  e ← slot_at (table_ m) b;
  e' ← slot_at (table_ m) (Z.lxor b 1);
  st_lift (dcheck (e = e')) ;;
  set_next p None ;;
  tree ← deref e;
  q ← tree_insert tree p;
  st_lift (dcheck (even_bucket b mod 2 = 0)) ;;
  mret (It (Some q) (Some this) (even_bucket b)).

Fixpoint CopyListToTree_loop (fuel : nat) (node : option Z) tree (count : Z) : M Z :=
  match fuel with
  | O => st_fault OutOfFuel
  | S fuel =>
      match node with
      | None => mret count
      | Some p =>
          tree_insert tree p ;;
          next ← next_at p;
          set_next p None ;;
          CopyListToTree_loop fuel next tree (u64 (count + 1))
      end
  end.
Definition CopyListToTree this b tree : M Z :=
  m ← inner_at this;
  e ← slot_at (table_ m) b;
  fuel ← heap_fuel;
  CopyListToTree_loop fuel e tree 0.

Definition TreeConvert this b : M unit :=
  m ← inner_at this;
  t0 ← TableEntryIsTree (table_ m) b;
  t1 ← TableEntryIsTree (table_ m) (Z.lxor b 1);
  st_lift (dcheck (t0 = false /\ t1 = false)) ;;
  tree ← alloc (alloc_ m) (CTree []);
  count0 ← CopyListToTree this b tree;
  count1 ← CopyListToTree this (Z.lxor b 1) tree;
  l ← tree_at tree;
  st_lift (dcheck (u64 (count0 + count1) = Z.of_nat (length l))) ;;
  set_slot (table_ m) (Z.lxor b 1) (Some tree) ;;
  set_slot (table_ m) b (Some tree).

Fixpoint list_length (fuel : nat) p (count : Z) : M Z :=
  match fuel with
  | O => st_fault OutOfFuel
  | S fuel =>
      n ← next_at p;
      match n with Some q => list_length fuel q (u64 (count + 1)) | None => mret (u64 (count + 1)) end
  end.
Definition TableEntryIsTooLong table b : M bool :=
  e ← slot_at table b; node ← deref e;
  fuel ← heap_fuel;
  count ← list_length fuel node 0;
  st_lift (dcheck (count <= kMaxLength)) ;;
  mret (bool_decide (kMaxLength <= count)).

Definition InsertUnique this b p : M iterator :=
  m ← inner_at this;
  first_is_non_null m ;;
  k ← key_at p;
  it ← find this k;
  st_lift (dcheck (node_ it = None)) ;;
  empty ← TableEntryIsEmpty (table_ m) b;
  let finish (result : iterator) : M iterator :=
    m ← inner_at this;
    set_index this (Z.min (index_of_first_non_null_ m) (bucket_index_ result)) ;;
    mret result in
  if empty : bool then result ← InsertUniqueInList this b p; finish result
  else
    list ← TableEntryIsNonEmptyList (table_ m) b;
    if list : bool then
      long ← TableEntryIsTooLong (table_ m) b;
      if long : bool then
        TreeConvert this b ;;
        result ← InsertUniqueInTree this b p;
        st_lift (dcheck (bucket_index_ result = even_bucket b)) ;;
        finish result
      else InsertUniqueInList this b p
    else InsertUniqueInTree this b p.

(** ** Resizing *)

Definition CreateEmptyTable (arena : option Z) (n : Z) : M Z :=
  st_lift (dcheck (kMinTableSize <= n)) ;;
  st_lift (dcheck (Z.land n (n - 1) = 0)) ;;
  alloc arena (CTable (replicate (Z.to_nat n) None)).

Fixpoint TransferList_loop (fuel : nat) this p : M unit :=
  match fuel with
  | O => st_fault OutOfFuel
  | S fuel =>
      next ← next_at p;
      k ← key_at p;
      b ← BucketNumber this k;
      InsertUnique this b p ;;
      match next with Some q => TransferList_loop fuel this q | None => mret tt end
  end.
Definition TransferList this table (index : Z) : M unit :=
  e ← slot_at table index; node ← deref e;
  fuel ← heap_fuel;
  TransferList_loop fuel this node.

Fixpoint TransferTree_loop (fuel : nat) this tree p : M unit :=
  match fuel with
  | O => st_fault OutOfFuel
  | S fuel =>
      k ← key_at p;
      b ← BucketNumber this k;
      InsertUnique this b p ;;
      next ← tree_next tree p;
      match next with Some q => TransferTree_loop fuel this tree q | None => mret tt end
  end.
Definition TransferTree this table (index : Z) : M unit :=
  m ← inner_at this;
  e ← slot_at table index; tree ← deref e;
  l ← tree_at tree; node ← deref (head l);
  fuel ← heap_fuel;
  TransferTree_loop fuel this tree node ;;
  dealloc (alloc_ m) tree.

Fixpoint Resize_loop (fuel : nat) this old_table old_table_size (i : Z) : M unit :=
  match fuel with
  | O => st_fault OutOfFuel
  | S fuel =>
      if decide (i < old_table_size) then
        list ← TableEntryIsNonEmptyList old_table i;
        if list : bool then
          TransferList this old_table i ;;
          Resize_loop fuel this old_table old_table_size (i + 1)
        else
          tree ← TableEntryIsTree old_table i;
          if tree : bool then
            TransferTree this old_table i ;;
            Resize_loop fuel this old_table old_table_size (i + 2)
          else Resize_loop fuel this old_table old_table_size (i + 1)
      else mret tt
  end.
Definition Resize this (new_num_buckets : Z) : M unit :=
  st_lift (dcheck (kMinTableSize <= new_num_buckets)) ;;
  m ← inner_at this;
  table ← CreateEmptyTable (alloc_ m) new_num_buckets;
  set_table this new_num_buckets table ;;
  let start := index_of_first_non_null_ m in
  set_index this new_num_buckets ;;
  Resize_loop (S (Z.to_nat (num_buckets_ m - start))) this (table_ m) (num_buckets_ m) start ;;
  dealloc (alloc_ m) (table_ m).

Definition kMaxMapLoadTimes16 : Z := 12.
(** [while ((hypothetical_size << lg2) < hi_cutoff) ++lg2]. *)
Fixpoint reduction_factor (fuel : nat) (hypothetical_size hi_cutoff lg2 : Z) : M Z :=
  match fuel with
  | O => st_fault OutOfFuel
  | S fuel =>
      if decide (u64 (Z.shiftl hypothetical_size lg2) < hi_cutoff)
      then reduction_factor fuel hypothetical_size hi_cutoff (lg2 + 1)
      else mret lg2
  end.
Definition ResizeIfLoadIsOutOfRange this (new_size : Z) : M bool :=
  m ← inner_at this;
  let n := num_buckets_ m in
  let hi_cutoff := u64 (n * kMaxMapLoadTimes16) / 16 in
  let lo_cutoff := hi_cutoff / 4 in
  if decide (hi_cutoff <= new_size) then
    if decide (n <= max_size / 2) then Resize this (u64 (n * 2)) ;; mret true
    else mret false
  else if decide (new_size <= lo_cutoff /\ kMinTableSize < n) then
    let hypothetical_size := u64 (u64 (new_size * 5) / 4 + 1) in
    lg2 ← reduction_factor 64 hypothetical_size hi_cutoff 1;
    let new_num_buckets := Z.max kMinTableSize (Z.shiftr n lg2) in
    if decide (new_num_buckets <> n) then Resize this new_num_buckets ;; mret true
    else mret false
  else mret false.

(** Both versions of [insert]: the value is given, or left uninitialized ([None]). *)
Definition insert this k v : M (iterator * bool) :=
  r ← FindHelper this k;
  let '(it, b, _) := r in
  if decide (node_ it <> None) then mret (it, false)
  else
    m ← inner_at this;
    resized ← ResizeIfLoadIsOutOfRange this (u64 (num_elements_ m + 1));
    b ← (if resized : bool then r ← FindHelper this k; mret (snd (fst r)) else mret b);
    m ← inner_at this;
    node ← alloc (alloc_ m) (CNode k v None);   (* [next] is indeterminate *)
    result ← InsertUnique this b node;
    m ← inner_at this;
    set_num_elements this (u64 (num_elements_ m + 1)) ;;
    mret (result, true).

(** [operator[]]: the node, whose value is referred to. *)
Definition value_ref this k : M Z := r ← insert this k None; deref (node_ (fst r)).

(** ** Erasing *)

Fixpoint EraseFromLinkedList (fuel : nat) (item : Z) (head : option Z) : M (option Z) :=
  match fuel with
  | O => st_fault OutOfFuel
  | S fuel =>
      p ← deref head;
      n ← next_at p;
      if decide (p = item) then mret n
      else n' ← EraseFromLinkedList fuel item n; set_next p n' ;; mret (Some p)
  end.

(** [while (index < n && table[index] == NULL) ++index]. *)
Fixpoint next_non_null (fuel : nat) table (n index : Z) : M Z :=
  match fuel with
  | O => st_fault OutOfFuel
  | S fuel =>
      if decide (index < n) then
        e ← slot_at table index;
        if decide (e = None) then next_non_null fuel table n (index + 1) else mret index
      else mret index
  end.

Definition DestroyNode this p : M unit := m ← inner_at this; dealloc (alloc_ m) p.
Definition DestroyTree this tree : M unit := m ← inner_at this; dealloc (alloc_ m) tree.

Definition erase this (it : iterator) : M unit :=
  st_lift (dcheck (m_ it = Some this)) ;;
  r ← revalidate_if_necessary it;
  let '(is_list, it, tree_it) := r in
  let b := bucket_index_ it in
  item ← deref (node_ it);
  m ← inner_at this;
  b ← (if is_list : bool then
         l ← TableEntryIsNonEmptyList (table_ m) b;
         st_lift (dcheck (l = true)) ;;
         e ← slot_at (table_ m) b;
         fuel ← heap_fuel;
         e ← EraseFromLinkedList fuel item e;
         set_slot (table_ m) b e ;;
         mret b
       else
         t ← TableEntryIsTree (table_ m) b;
         st_lift (dcheck (t = true)) ;;
         e ← slot_at (table_ m) b; tree ← deref e;
         t ← deref tree_it; k ← key_at t;
         tree_erase_key tree k ;;
         l ← tree_at tree;
         if decide (l = []) then
           let b := even_bucket b in
           DestroyTree this tree ;;
           set_slot (table_ m) (b + 1) None ;;
           set_slot (table_ m) b None ;;
           mret b
         else mret b);
  DestroyNode this item ;;
  m ← inner_at this;
  set_num_elements this (u64 (num_elements_ m - 1)) ;;
  if decide (b = index_of_first_non_null_ m) then
    i ← next_non_null (S (Z.to_nat (num_buckets_ m - index_of_first_non_null_ m))) (table_ m) (num_buckets_ m)
          (index_of_first_non_null_ m);
    set_index this i
  else mret tt.

Fixpoint clear_list (fuel : nat) this p : M unit :=
  match fuel with
  | O => st_fault OutOfFuel
  | S fuel =>
      next ← next_at p;
      DestroyNode this p ;;
      match next with Some q => clear_list fuel this q | None => mret tt end
  end.
Fixpoint clear_tree (fuel : nat) this tree p : M unit :=
  match fuel with
  | O => st_fault OutOfFuel
  | S fuel =>
      next ← tree_next tree p;
      tree_erase tree p ;;
      DestroyNode this p ;;
      match next with Some q => clear_tree fuel this tree q | None => mret tt end
  end.
Fixpoint clear_loop (fuel : nat) this table (n b : Z) : M unit :=
  match fuel with
  | O => st_fault OutOfFuel
  | S fuel =>
      if decide (b < n) then
        list ← TableEntryIsNonEmptyList table b;
        if list : bool then
          e ← slot_at table b; node ← deref e;
          set_slot table b None ;;
          rounds ← heap_fuel;
          clear_list rounds this node ;;
          clear_loop fuel this table n (b + 1)
        else
          tree ← TableEntryIsTree table b;
          if tree : bool then
            e ← slot_at table b; t ← deref e;
            e' ← slot_at table (b + 1);
            st_lift (dcheck (e = e' /\ Z.land b 1 = 0)) ;;
            set_slot table (b + 1) None ;;
            set_slot table b None ;;
            l ← tree_at t; node ← deref (head l);
            rounds ← heap_fuel;
            clear_tree rounds this t node ;;
            DestroyTree this t ;;
            clear_loop fuel this table n (b + 2)
          else clear_loop fuel this table n (b + 1)
      else mret tt
  end.
Definition clear this : M unit :=
  m ← inner_at this;
  clear_loop (S (Z.to_nat (num_buckets_ m))) this (table_ m) (num_buckets_ m) 0 ;;
  set_num_elements this 0 ;;
  m ← inner_at this;
  set_index this (num_buckets_ m).

(** ** Construction, destruction, size *)

(** A randomish value: the address of the map, and the time. *)
Definition Seed this : M Z := t ← st_gets rdtsc; mret (u64 (u64 this + u64 t)).

(** [arena] is where the map itself is made ([Arena::Create]). *)
Definition construct (arena : option Z) (n : Z) : M Z :=
  let n := TableSize n in
  this ← alloc arena (CInner (IM 0 n 0 n 0 arena));
  seed ← Seed this;
  table ← CreateEmptyTable arena n;
  set_inner this (IM 0 n seed n table arena) ;;
  mret this.
(** [table_] is NULL only while the map is made. *)
Definition destroy this : M unit :=
  m ← inner_at this;
  clear this ;;
  m ← inner_at this;
  dealloc (alloc_ m) (table_ m).

Definition size this : M Z := m ← inner_at this; mret (num_elements_ m).
Definition empty this : M bool := n ← size this; mret (bool_decide (n = 0)).

End InnerMap.
