(* ===== verification/ProtoMap.v ===== *)
(** * Maps ([google/protobuf/map.h], class Map)

    The map of a message: its hash table ([InnerMap]) maps keys to pointers to
    [MapPair]s, which the map owns.  An iterator of the map is one of its table.  The
    object itself is made where its arena says.

    The mapped type is a class ([Mapped]: the default value, and for an enum the cast
    from a number).  The hash functions of [google/protobuf/stubs/hash.h] for [bool]
    and [string] are at the end. *)
From Stdlib Require Import ZArith Lia Strings.Byte.
From stdpp Require Import base tactics option list list_numbers gmap.
From S2P Require Import Prelude Bits InnerMap.

(** [T()], [Key()], and for an enum [static_cast<T>]. *)
Class Mapped (K T : Type) := {
  key_default : K;
  value_default : T;
  enum_cast : option (Z -> T);
}.

Section Map.
  Context {K T : Type} `{HashKey K} `{Mapped K T} `{Clock K T}.
  Implicit Types (this other p : Z) (k : K) (v : T) (it first last : iterator).
  Local Abbreviation M := (stm (store K T)).

(** ** Cells *)

Definition map_at p : M Map :=
  c ← cell_at p; match c with CMap m => mret m | _ => st_fault UseAfterFree end.
Definition pair_at p : M (K * T) :=
  c ← cell_at p; match c with CPair k v => mret (k, v) | _ => st_fault UseAfterFree end.
Definition set_second p v : M unit := x ← pair_at p; set_cell p (CPair (fst x) v).
Definition set_elements this (e : Z) : M unit :=
  m ← map_at this; set_cell this (CMap (MkMap (arena_ m) (default_enum_value_ m) e)).

(** ** Values *)

(** [MapValueInitializer<is_proto_enum<T>::value, T>::Initialize]. *)
Definition Initialize p (default_enum_value : Z) : M unit :=
  match enum_cast with
  | Some cast => set_second p (cast default_enum_value)
  | None => mret tt
  end.

Definition CreateValueTypeInternal_key this k : M Z :=
  m ← map_at this;
  if decide (arena_ m = None) then alloc None (CPair k value_default)
  else
    value ← alloc (arena_ m) (CPair key_default value_default);
    x ← pair_at value;
    set_cell value (CPair k (snd x)) ;;
    mret value.
Definition CreateValueTypeInternal_value this k v : M Z :=
  m ← map_at this;
  if decide (arena_ m = None) then alloc None (CPair k v)
  else
    p ← alloc (arena_ m) (CPair key_default value_default);
    x ← pair_at p;
    set_cell p (CPair k (snd x)) ;;
    set_second p v ;;
    mret p.

(** ** Iterators *)

Definition begin this : M iterator := m ← map_at this; InnerMap.begin (elements_ m).
(** [operator->]: the pair. *)
Definition arrow it : M Z := p ← deref (node_ it); x ← node_at p; deref (snd (fst x)).
Definition at_end it : bool := bool_decide (node_ it = None).

(** ** Capacity and lookup *)

Definition size this : M Z := m ← map_at this; InnerMap.size (elements_ m).
Definition empty this : M bool := n ← size this; mret (bool_decide (n = 0)).
Definition find this k : M iterator := m ← map_at this; InnerMap.find (elements_ m) k.
Definition contains this k : M bool := m ← map_at this; InnerMap.contains (elements_ m) k.
Definition count this k : M Z :=
  it ← find this k;
  (if at_end it then mret tt
   else p ← arrow it; x ← pair_at p; st_lift (dcheck (k = fst x))) ;;
  mret (if at_end it then 0 else 1).
Definition equal_range this k : M (iterator * iterator) :=
  it ← find this k;
  if at_end it then mret (it, it) else it' ← incr it; mret (it, it').

(** ** Element access *)

(** The pair whose [second] is referred to. *)
Definition value_ref this k : M Z :=
  m ← map_at this;
  node ← InnerMap.value_ref (elements_ m) k;
  x ← node_at node;
  match snd (fst x) with
  | Some value => mret value
  | None =>
      value ← CreateValueTypeInternal_key this k;
      set_value node (Some value) ;;
      Initialize value (default_enum_value_ m) ;;
      mret value
  end.
(** [GOOGLE_CHECK] stops the program. *)
Definition at_ this k : M Z :=
  it ← find this k;
  if at_end it then st_fault AssertFailed else arrow it.

(** ** Insertion *)

Definition insert this k v : M (iterator * bool) :=
  m ← map_at this;
  p ← InnerMap.insert (elements_ m) k None;
  if (snd p : bool) then
    value ← CreateValueTypeInternal_value this k v;
    node ← deref (node_ (fst p));
    set_value node (Some value) ;;
    mret p
  else mret p.

(** A round of [insert(first, last)]. *)
Definition insert_new this k v : M unit :=
  exist_it ← find this k;
  if at_end exist_it then p ← value_ref this k; set_second p v else mret tt.
(** [insert(first, last)] from a map, and from an array. *)
Fixpoint insert_loop (fuel : nat) this first last : M unit :=
  match fuel with
  | O => st_fault OutOfFuel
  | S fuel =>
      if decide (node_ first = node_ last) then mret tt
      else
        p ← arrow first; x ← pair_at p;
        insert_new this (fst x) (snd x) ;;
        next ← incr first;
        insert_loop fuel this next last
  end.
Definition insert_range this first last : M unit :=
  fuel ← heap_fuel; insert_loop fuel this first last.
Fixpoint insert_values this (l : list (K * T)) : M unit :=
  match l with
  | [] => mret tt
  | x :: l => insert_new this (fst x) (snd x) ;; insert_values this l
  end.

(** ** Erasing *)

Definition erase this (pos : iterator) : M iterator :=
  m ← map_at this;
  (if decide (arena_ m = None) then p ← arrow pos; dealloc None p else mret tt) ;;
  next ← incr pos;
  InnerMap.erase (elements_ m) pos ;;
  mret next.
Definition erase_key this k : M Z :=
  it ← find this k;
  if at_end it then mret 0 else erase this it ;; mret 1.
Fixpoint erase_loop (fuel : nat) this first last : M unit :=
  match fuel with
  | O => st_fault OutOfFuel
  | S fuel =>
      if decide (node_ first = node_ last) then mret tt
      else next ← erase this first; erase_loop fuel this next last
  end.
Definition erase_range this first last : M unit :=
  fuel ← heap_fuel; erase_loop fuel this first last.
Definition clear this : M unit := first ← begin this; erase_range this first end_.

(** ** Construction, assignment, destruction *)

Definition Init this : M unit :=
  m ← map_at this;
  e ← InnerMap.construct (arena_ m) 0;
  set_elements this e.
Definition Map_default : M Z :=
  this ← alloc None (CMap (MkMap None 0 0)); Init this ;; mret this.
Definition Map_arena (arena : option Z) : M Z :=
  this ← alloc arena (CMap (MkMap arena 0 0)); Init this ;; mret this.
Definition Map_copy other : M Z :=
  o ← map_at other;
  this ← alloc None (CMap (MkMap None (default_enum_value_ o) 0));
  Init this ;;
  first ← begin other;
  insert_range this first end_ ;;
  mret this.
Definition Map_range first last : M Z :=
  this ← alloc None (CMap (MkMap None 0 0)); Init this ;;
  insert_range this first last ;;
  mret this.
Definition Map_values (l : list (K * T)) : M Z :=
  this ← alloc None (CMap (MkMap None 0 0)); Init this ;;
  insert_values this l ;;
  mret this.

(** [~Map], and the memory of the object. *)
Definition destroy this : M unit :=
  clear this ;;
  m ← map_at this;
  (if decide (arena_ m = None) then InnerMap.destroy (elements_ m) ;; dealloc None (elements_ m)
   else mret tt) ;;
  dealloc (arena_ m) this.

Definition assign_copy this other : M unit :=
  if decide (this = other) then mret tt
  else
    clear this ;;
    first ← begin other;
    insert_range this first end_.

Definition swap this other : M unit :=
  m ← map_at this; o ← map_at other;
  if decide (arena_ m = arena_ o) then
    set_cell this (CMap (MkMap (arena_ m) (default_enum_value_ o) (elements_ o))) ;;
    set_cell other (CMap (MkMap (arena_ o) (default_enum_value_ m) (elements_ m)))
  else
    copy ← Map_copy this;
    assign_copy this other ;;
    assign_copy other copy ;;
    destroy copy.

Definition Map_move other : M Z :=
  this ← Map_default;
  o ← map_at other;
  (if decide (arena_ o <> None) then assign_copy this other else swap this other) ;;
  mret this.
Definition assign_move this other : M unit :=
  if decide (this = other) then mret tt
  else
    m ← map_at this; o ← map_at other;
    if decide (arena_ m <> arena_ o) then assign_copy this other else swap this other.

Definition SetDefaultEnumValue this (default_enum_value : Z) : M unit :=
  m ← map_at this; set_cell this (CMap (MkMap (arena_ m) default_enum_value (elements_ m))).

End Map.

(** ** Hash functions *)

(** Whether [char] is signed, as on x86, or not, as on ARM. *)
Class Char := { char_signed : bool }.

Section hash.
Context `{Char}.

(** [static_cast<size_t>] of a [char]. *)
Definition char_size_t (c : byte) : Z :=
  u64 (if char_signed && bool_decide (128 <= byte_to_Z c) then byte_to_Z c - 256 else byte_to_Z c).
Definition hash_c_str (str : list byte) : Z :=
  fold_left (fun result c => u64 (5 * result + char_size_t c)) str 0.
Definition hash_string (key : list byte) : Z := hash_c_str (cstr key).
End hash.

Definition hash_bool (x : bool) : Z := if x then 1 else 0.

(** [operator<] of [std::string]: bytes are compared as unsigned characters. *)
Fixpoint string_lt (a b : list byte) : bool :=
  match a, b with
  | _, [] => false
  | [], _ :: _ => true
  | x :: a, y :: b =>
      if decide (byte_to_Z x < byte_to_Z y) then true
      else if decide (byte_to_Z y < byte_to_Z x) then false else string_lt a b
  end.

#[export] Instance string_key `{Char} : HashKey (list byte) := { hash := hash_string; key_lt := string_lt }.
#[export] Instance bool_key : HashKey bool := { hash := hash_bool; key_lt := fun a b => negb a && b }.
