(* ===== verification/MapLogic.v ===== *)
(** * Hash maps: the logic of their heap

    The cells of the heap are nodes, trees, tables, maps and pairs, all in one
    address space; a cell that is on an arena is garbage once nobody refers to it.
    [p ↦{a} c] owns the cell [c] at [p], which is on the arena [a].  The rules of the
    primitive operations follow, and those of the casts that read a cell as a node, a
    tree or a table.  [KeyLaws]: the order of the keys is strict and total. *)
From Stdlib Require Import ZArith Lia.
From stdpp Require Import base tactics option list list_numbers gmap.
From iris.bi Require Import bi big_op.
From iris.proofmode Require Import proofmode.
From S2P Require Import Prelude Bits HeapLogic InnerMap.

Class KeyLaws (K : Type) `{HashKey K} := {
  key_lt_irrefl (k : K) : key_lt k k = false;
  key_lt_trans (k1 k2 k3 : K) : key_lt k1 k2 = true -> key_lt k2 k3 = true -> key_lt k1 k3 = true;
  key_lt_total (k1 k2 : K) : key_lt k1 k2 = false -> key_lt k2 k1 = false -> k1 = k2;
}.

(** ** The heap *)

Section heap.
  Context {K T : Type}.

#[export] Instance store_disjoint : Disjoint (store K T) := map_disjoint.

(** What is on an arena. *)
Definition on_arenas (s : store K T) : Prop := forall p a c, s !! p = Some (a, c) -> a <> None.

#[export] Program Instance store_heap : Heap (store K T) := { heap_garbage := on_arenas }.
Next Obligation. intros p a c. by rw lookup_empty. Qed.
Next Obligation. intros x y Hx Hy p a c [?|[_ ?]]%lookup_union_Some_raw; eauto. Qed.
Next Obligation. intros x. apply map_disjoint_empty_r. Qed.
Next Obligation. intros x y z. apply map_disjoint_union_l. Qed.
Next Obligation. intros x. apply map_union_empty. Qed.
Next Obligation. intros x y ?. by apply map_union_comm. Qed.
Next Obligation. intros x y z. apply map_union_assoc. Qed.
End heap.

Abbreviation hM K T := (hpropI (store K T)).

Definition cell_pt {K T} (p : Z) (a : option Z) (c : cell K T) : hM K T := HProp (fun s => s = {[p := (a, c)]}).
Notation "p ↦{ a } c" := (cell_pt p a c) (at level 20, format "p  ↦{ a }  c") : bi_scope.

Section rules.
  Context {K T : Type}.
  Implicit Types (s : store K T) (p : Z) (a : option Z) (c : cell K T).

Lemma wpm_cell_at p a c (Q : cell K T -> hM K T) : ⊢ p ↦{a} c -∗ (p ↦{a} c -∗ Q c) -∗ wpm (cell_at p) Q.
Proof.
  apply (wpm_step _ {[p := (a, c)]} {[p := (a, c)]}); [done|done|]. intros f Hd. split; [|done].
  unfold cell_at. by rw (lookup_union_Some_l _ _ _ (a, c)) ?lookup_singleton_eq.
Qed.

Lemma wpm_set_cell p a c c' (Q : unit -> hM K T) :
  ⊢ p ↦{a} c -∗ (p ↦{a} c' -∗ Q tt) -∗ wpm (set_cell p c') Q.
Proof.
  apply (wpm_step _ {[p := (a, c)]} {[p := (a, c')]}); [done|done|]. intros f Hd. split.
  - unfold set_cell. rw (lookup_union_Some_l _ _ _ (a, c)) ?lookup_singleton_eq //.
    by rw insert_union_l insert_singleton_eq.
  - apply map_disjoint_singleton_l. by apply map_disjoint_singleton_l in Hd.
Qed.

Lemma wpm_new_cell a c (Q : Z -> hM K T) : (∀ p, p ↦{a} c -∗ Q p) ⊢ wpm (alloc a c) Q.
Proof.
  apply (wpm_alloc _ (fun p => {[p := (a, c)]})); [|done]. intros s.
  assert (s !! fresh (dom s) = None) as Hn by apply not_elem_of_dom, is_fresh.
  eexists. split; [|by apply map_disjoint_singleton_r]. unfold alloc.
  by rw -insert_union_singleton_r.
Qed.

(** What is on an arena may be forgotten. *)
Lemma cell_garbage p a c : a <> None -> p ↦{a} c ⊢ (garbage : hM K T).
Proof. intros Ha. constructor. intros x -> q b d [<- E]%lookup_singleton_Some. by injection E as <- <-. Qed.

Lemma wpm_dealloc a p c (Q : unit -> hM K T) : ⊢ p ↦{a} c -∗ (emp -∗ Q tt) -∗ wpm (dealloc a p) Q.
Proof.
  destruct a as [a|].
  - iIntros "Hp HQ". iDestruct (cell_garbage with "Hp") as "Hp"; [done|].
    iApply (wpm_drop with "Hp"). unfold dealloc. case_decide; [done|]. iApply (wpm_ret tt). by iApply "HQ".
  - apply (wpm_step _ {[p := (None, c)]} ∅); [done|done|]. intros f Hd. split; [|apply map_disjoint_empty_l].
    unfold dealloc. case_decide; [|done]. 
    rw (lookup_union_Some_l _ _ _ (None, c)) ?lookup_singleton_eq //.
    apply map_disjoint_singleton_l in Hd. rw delete_union delete_singleton_eq map_empty_union delete_id //.
    by rw map_empty_union.
Qed.

Lemma cell_ne p q a b c d : p ↦{a} c ∗ q ↦{b} d ⊢ (⌜p <> q⌝ : hM K T).
Proof.
  constructor. intros x (y & z & -> & Hd & -> & ->) <-.
  eapply map_disjoint_spec; [apply Hd|apply lookup_singleton_eq|apply lookup_singleton_eq].
Qed.

(** *** Casts *)

Lemma wpm_node_at p a k v n (Q : K * option Z * option Z -> hM K T) :
  ⊢ p ↦{a} CNode k v n -∗ (p ↦{a} CNode k v n -∗ Q (k, v, n)) -∗ wpm (node_at p) Q.
Proof.
  iIntros "Hp HQ". wbind. iApply (wpm_cell_at with "Hp"). iIntros "Hp". iApply wpm_ret. by iApply "HQ".
Qed.
Lemma wpm_tree_at p a l (Q : list Z -> hM K T) :
  ⊢ p ↦{a} CTree l -∗ (p ↦{a} CTree l -∗ Q l) -∗ wpm (tree_at p) Q.
Proof.
  iIntros "Hp HQ". wbind. iApply (wpm_cell_at with "Hp"). iIntros "Hp". iApply wpm_ret. by iApply "HQ".
Qed.
Lemma wpm_table_at p a l (Q : list (option Z) -> hM K T) :
  ⊢ p ↦{a} CTable l -∗ (p ↦{a} CTable l -∗ Q l) -∗ wpm (table_at p) Q.
Proof.
  iIntros "Hp HQ". wbind. iApply (wpm_cell_at with "Hp"). iIntros "Hp". iApply wpm_ret. by iApply "HQ".
Qed.
Lemma wpm_inner_at p a m (Q : InnerMap -> hM K T) :
  ⊢ p ↦{a} CInner m -∗ (p ↦{a} CInner m -∗ Q m) -∗ wpm (inner_at p) Q.
Proof.
  iIntros "Hp HQ". wbind. iApply (wpm_cell_at with "Hp"). iIntros "Hp". iApply wpm_ret. by iApply "HQ".
Qed.

Lemma wpm_key_at p a k v n (Q : K -> hM K T) :
  ⊢ p ↦{a} CNode k v n -∗ (p ↦{a} CNode k v n -∗ Q k) -∗ wpm (key_at p) Q.
Proof.
  iIntros "Hp HQ". wbind. iApply (wpm_node_at with "Hp"). iIntros "Hp". iApply wpm_ret. by iApply "HQ".
Qed.
Lemma wpm_next_at p a k v n (Q : option Z -> hM K T) :
  ⊢ p ↦{a} CNode k v n -∗ (p ↦{a} CNode k v n -∗ Q n) -∗ wpm (next_at p) Q.
Proof.
  iIntros "Hp HQ". wbind. iApply (wpm_node_at with "Hp"). iIntros "Hp". iApply wpm_ret. by iApply "HQ".
Qed.
Lemma wpm_set_next p a k v n n' (Q : unit -> hM K T) :
  ⊢ p ↦{a} CNode k v n -∗ (p ↦{a} CNode k v n' -∗ Q tt) -∗ wpm (set_next p n') Q.
Proof.
  iIntros "Hp HQ". wbind. iApply (wpm_node_at with "Hp"). iIntros "Hp". iApply (wpm_set_cell with "Hp HQ").
Qed.
Lemma wpm_set_value p a k v v' n (Q : unit -> hM K T) :
  ⊢ p ↦{a} CNode k v n -∗ (p ↦{a} CNode k v' n -∗ Q tt) -∗ wpm (set_value p v') Q.
Proof.
  iIntros "Hp HQ". wbind. iApply (wpm_node_at with "Hp"). iIntros "Hp". iApply (wpm_set_cell with "Hp HQ").
Qed.

Lemma wpm_slot_at p a l (i : nat) e (Q : option Z -> hM K T) :
  l !! i = Some e -> ⊢ p ↦{a} CTable l -∗ (p ↦{a} CTable l -∗ Q e) -∗ wpm (slot_at p (Z.of_nat i)) Q.
Proof.
  iIntros (Hi) "Hp HQ". wbind. iApply (wpm_table_at with "Hp"). iIntros "Hp".
  rw decide_True; [|lia]. rw Nat2Z.id Hi. iApply wpm_ret. by iApply "HQ".
Qed.
Lemma wpm_set_slot p a l (i : nat) e (Q : unit -> hM K T) :
  (i < length l)%nat ->
  ⊢ p ↦{a} CTable l -∗ (p ↦{a} CTable (<[i := e]> l) -∗ Q tt) -∗ wpm (set_slot p (Z.of_nat i) e) Q.
Proof.
  iIntros (Hi) "Hp HQ". wbind. iApply (wpm_table_at with "Hp"). iIntros "Hp".
  rw decide_True; [|lia]. rw Nat2Z.id. iApply (wpm_set_cell with "Hp HQ").
Qed.

Lemma wpm_deref p (Q : Z -> hM K T) : Q p ⊢ wpm (deref (Some p)) Q.
Proof. apply (wpm_ret p). Qed.

Lemma wpm_gets {A} (f : store K T -> A) (Q : A -> hM K T) : (∀ x, Q x) ⊢ wpm (st_gets f) Q.
Proof.
  constructor. intros x HQ. apply wpm_intro. intros g Hd. exists (f (x ∪ g)), x. by split_and!.
Qed.

(** The rounds of a loop are at least as many as the cells that are owned. *)
Lemma wpm_heap_fuel (n : nat) (P : hM K T) (Q : nat -> hM K T) :
  (forall x, holds_of P x -> (n <= base.size x)%nat) ->
  ⊢ P -∗ (∀ fuel, ⟨n < fuel⟩%nat -∗ P -∗ Q fuel) -∗ wpm heap_fuel Q.
Proof.
  intros HP. apply bi.entails_wand, bi.wand_intro_r. constructor. intros x (y & z & -> & Hd & HPy & HQ).
  apply wpm_intro. intros f Hf. exists (S (base.size (y ∪ z ∪ f))), (z ∪ y).
  pose proof (HP _ HPy) as Hn. apply heap_disjoint_union in Hf as [Hyf Hzf].
  split_and!.
  - unfold heap_fuel, st_gets. by rw (heap_union_comm z y).
  - apply heap_disjoint_union. by split.
  - assert (n < S (base.size (y ∪ z ∪ f)))%nat as Hlt.
    {  rw !map_size_disj_union; try done; first lia.
      by apply map_disjoint_union_l. }
    pose proof (HQ (S (base.size (y ∪ z ∪ f))) ∅) as HQ'. rw heap_union_empty in HQ'.
    apply HQ'; [apply heap_disjoint_empty|by split|by symmetry|done].
Qed.
End rules.
