(* ===== verification/MapKeys.v ===== *)
(** * Maps: the size of the table, and keys that are strings or booleans

    [resized n k] is the number of buckets to which a table of [n] is taken before it
    gets its [k]-th entry.  The load never reaches 6/5 of the buckets while the table
    can still grow. *)
From Stdlib Require Import ZArith Lia Strings.Byte.
From stdpp Require Import base tactics option list.
From S2P Require Import Prelude Bits InnerMap ProtoMap MapLogic.

Definition pow2 (n : nat) : Prop := exists x, 3 <= x <= 60 /\ Z.of_nat n = 2 ^ x.

(** The shift by which the table shrinks. *)
Fixpoint shrink_shift (fuel : nat) (h hi lg2 : Z) : Z :=
  match fuel with
  | O => lg2
  | S fuel => if decide (h * 2 ^ lg2 < hi) then shrink_shift fuel h hi (lg2 + 1) else lg2
  end.
Definition resized (n k : Z) : Z :=
  let hi := n * 12 / 16 in
  if decide (hi <= k) then if decide (n <= 2 ^ 59) then n * 2 else n
  else if decide (k <= hi / 4 /\ 8 < n) then Z.max 8 (Z.shiftr n (shrink_shift 64 (k * 5 / 4 + 1) hi 1))
  else n.

(** Fewer than six entries in five buckets, unless the table is as large as it gets. *)
Definition load_ok (k n : Z) : Prop := 5 * k < 6 * n \/ 2 ^ 59 < n.

Lemma shrink_shift_least fuel h hi lg2 :
  lg2 <= shrink_shift fuel h hi lg2 /\
  (shrink_shift fuel h hi lg2 = lg2 \/ h * 2 ^ (shrink_shift fuel h hi lg2 - 1) < hi).
Proof.
  revert lg2. induction fuel as [|fuel IH]; intros lg2; cbn [shrink_shift]; [lia|]. case_decide as Hlt; [|lia].
  destruct (IH (lg2 + 1)) as [Hle Hs]. split; [lia|]. right. destruct Hs as [->|Hs]; [|done].
  by replace (lg2 + 1 - 1) with lg2 by lia.
Qed.

Lemma resized_load n k : pow2 n -> 0 <= k -> load_ok (k - 1) (Z.of_nat n) -> load_ok k (resized (Z.of_nat n) k).
Proof.
  intros (x & Hx & Hn) Hk Hload. assert (8 <= 2 ^ x) as H8 by (change 8 with (2 ^ 3); apply Z.pow_le_mono_r; lia).
  assert (2 ^ x = 4 * 2 ^ (x - 2)) as H4.
  { replace x with (2 + (x - 2)) at 1 by lia. rewrite Z.pow_add_r by lia. done. }
  assert (2 ^ x * 12 / 16 = 3 * 2 ^ (x - 2)) as Hhi by (symmetry; apply Z.div_unique with 0; lia).
  unfold resized, load_ok in *. rewrite Hn in *. rewrite Hhi. repeat case_decide; [lia|lia| |].
  - left. destruct (shrink_shift_least 64 (k * 5 / 4 + 1) (3 * 2 ^ (x - 2)) 1) as [Hs1 Hs].
    set (s := shrink_shift _ _ _ _) in *. rewrite Z.shiftr_div_pow2 by lia.
    assert (k * 4 <= 3 * 2 ^ (x - 2)) as Hlo.
    { enough (k * 4 <= 4 * (3 * 2 ^ (x - 2) / 4)) by (pose proof (Z.mul_div_le (3 * 2 ^ (x - 2)) 4); lia). lia. }
    destruct Hs as [->|Hs].
    + enough (2 ^ x / 2 ^ 1 = 2 * 2 ^ (x - 2)) by lia. symmetry. apply Z.div_unique with 0; lia.
    + assert (2 ^ s = 2 * 2 ^ (s - 1)) as H2.
      { replace s with (1 + (s - 1)) at 1 by lia. rewrite Z.pow_add_r by lia. done. }
      assert (0 < 2 ^ (s - 1)) by (apply Z.pow_pos_nonneg; lia).
      assert (1 <= k * 5 / 4 + 1) by (pose proof (Z.div_pos (k * 5) 4); lia).
      destruct (Z.le_gt_cases s x) as [Hle|Hgt].
      * assert (2 ^ x = 2 ^ s * 2 ^ (x - s)) as Hm by (rewrite <- Z.pow_add_r by lia; f_equal; lia).
        assert (2 ^ x / 2 ^ s = 2 ^ (x - s)) as -> by (symmetry; apply Z.div_unique with 0; lia).
        enough (2 * (k * 5 / 4 + 1) < 3 * 2 ^ (x - s)) by (pose proof (Z.mod_pos_bound (k * 5) 4); pose proof (Z.div_mod (k * 5) 4); lia).
        nia.
      * assert (2 ^ x <= 2 ^ (s - 1)) by (apply Z.pow_le_mono_r; lia). nia.
  - lia.
Qed.

(** The comment on the shrinking says that the table will not have to grow again after
    a few insertions; but it can shrink below the number of its entries. *)
Example shrinks_too_far : resized 256 37 = 32 /\ resized 32 38 = 64.
Proof. by vm_compute. Qed.

(** ** Keys that are strings or booleans

    The order of the keys is strict and total, as the trees of the hash table need.
    The hash of a string ends at its first NUL, while its order and equality do not:
    strings that differ behind one share a bucket, and are told apart there. *)

Lemma string_lt_irrefl a : string_lt a a = false.
Proof. induction a as [|x a IH]; [done|]. simpl. by rewrite !decide_False by lia. Qed.

Lemma string_lt_cons x a y b :
  string_lt (x :: a) (y :: b) = true <-> byte_to_Z x < byte_to_Z y \/ (x = y /\ string_lt a b = true).
Proof.
  simpl. destruct (decide (byte_to_Z x < byte_to_Z y)); [naive_solver|].
  destruct (decide (byte_to_Z y < byte_to_Z x)) as [Hlt|Hge].
  - split; [done|]. intros [?|[-> _]]; lia.
  - assert (x = y) as -> by (apply byte_to_Z_inj; lia). naive_solver lia.
Qed.

Lemma string_lt_trans a b c : string_lt a b = true -> string_lt b c = true -> string_lt a c = true.
Proof.
  revert b c. induction a as [|x a IH]; intros [|y b] [|z c]; try done.
  rewrite !string_lt_cons. intros [Hx|[-> Hx]] [Hy|[-> Hy]]; [left; lia|by left|by left|]. right. split; [done|by apply (IH b)].
Qed.

Lemma string_lt_total a b : string_lt a b = false -> string_lt b a = false -> a = b.
Proof.
  revert b. induction a as [|x a IH]; intros [|y b]; try done. simpl.
  repeat case_decide; try done; try lia. intros Ha Hb. f_equal; [apply byte_to_Z_inj; lia|by apply IH].
Qed.

#[export] Instance string_key_laws `{Char} : KeyLaws (list byte).
Proof. split; [apply string_lt_irrefl|apply string_lt_trans|apply string_lt_total]. Qed.

#[export] Instance bool_key_laws : KeyLaws bool.
Proof. split; [by intros []|by intros [] [] []|by intros [] []]. Qed.

Lemma hash_string_nul `{Char} a b c : hash_string (a ++ x00 :: b) = hash_string (a ++ x00 :: c).
Proof.
  unfold hash_string. f_equal. induction a as [|x a IH]; [done|]. simpl. by rewrite IH.
Qed.
