(* ===== verification/MapBuckets.v ===== *)
(** * Hash maps: buckets

    A bucket is a list of entries ([BList]), the first of a pair of buckets that
    share a tree ([BTree]) or the second ([BShared]).  [bucket_own] owns the nodes and
    the tree of a bucket.  [table_ok] is what the operations on buckets rely on; the
    tests of the code that tell lists from trees by comparing pointers are right for
    such a table. *)
From Stdlib Require Import ZArith Lia Sorting.Sorted.
From stdpp Require Import base tactics option list list_numbers gmap.
From iris.bi Require Import bi big_op.
From iris.proofmode Require Import proofmode.
From S2P Require Import Prelude Bits HeapLogic InnerMap MapLogic.

Ltac mlia := Z.to_euclidean_division_equations; lia.

(** ** Data *)

Record entry (K : Type) := E { addr : Z; ekey : K; evalue : option Z }.
Arguments E {K} _ _ _.
Arguments addr {K} _.
Arguments ekey {K} _.
Arguments evalue {K} _.

Inductive bucket (K : Type) :=
| BList (l : list (entry K))
| BTree (t : Z) (l : list (entry K))
| BShared (t : Z).
Arguments BList {K} _.
Arguments BTree {K} _ _.
Arguments BShared {K} _.

(** The other bucket of the pair. *)
Definition mate (i : nat) : nat := if Nat.even i then S i else pred i.

(** The first bucket of the pair. *)
Definition lead (i : nat) : nat := if Nat.even i then i else pred i.

Section buckets.
  Context {K : Type} `{HashKey K}.
  Implicit Types (b : bucket K) (bs : list (bucket K)) (l : list (entry K)) (i j n : nat) (t p : Z).

Definition bucket_slot b : option Z :=
  match b with BList l => addr <$> head l | BTree t _ | BShared t => Some t end.
Definition bucket_entries b : list (entry K) :=
  match b with BList l | BTree _ l => l | BShared _ => [] end.
(** The cells of a bucket. *)
Definition bucket_addrs b : list Z :=
  match b with BList l => addr <$> l | BTree t l => t :: (addr <$> l) | BShared _ => [] end.
Definition entries bs : list (entry K) := bs ≫= bucket_entries.
Definition slots bs : list (option Z) := bucket_slot <$> bs.

Definition is_list b : bool := match b with BList (_ :: _) => true | _ => false end.
Definition is_tree b : bool := match b with BList _ => false | _ => true end.

(** A bucket of the same kind. *)
Definition rebucket b l : bucket K :=
  match b with BList _ => BList l | BTree t _ => BTree t l | BShared t => BShared t end.

(** Trees are sorted. *)
Definition sorted l : Prop := StronglySorted (fun x y => key_lt (ekey x) (ekey y) = true) l.

Definition kind_ok bs i b : Prop :=
  match b with
  | BList l => (length l <= 8)%nat
  | BTree t l => Nat.even i = true /\ bs !! S i = Some (BShared t) /\ l <> [] /\ sorted l
  | BShared t => Nat.even i = false /\ exists l, bs !! pred i = Some (BTree t l)
  end.
Definition kinds bs : Prop := forall i b, bs !! i = Some b -> kind_ok bs i b.
Definition separate bs : Prop := NoDup (bs ≫= bucket_addrs).

Record table_ok bs : Prop := {
  ok_even : Nat.even (length bs) = true;
  ok_kinds : kinds bs;
  ok_separate : separate bs;
}.

(** *** Pairs of buckets *)

Lemma even_S i : Nat.even (S i) = negb (Nat.even i).
Proof. by rw Nat.even_succ -Nat.negb_even. Qed.
Lemma mate_mate i : mate (mate i) = i.
Proof.
  unfold mate. destruct (Nat.even i) eqn:Ei.
  - by rw even_S Ei.
  - destruct i as [|i]; [done|]. simpl. rw even_S in Ei.
    by apply negb_false_iff in Ei as ->.
Qed.
Lemma lead_even i : Nat.even (lead i) = true.
Proof.
  unfold lead. destruct (Nat.even i) eqn:Ei; [done|]. destruct i as [|i]; [done|].
  rw even_S in Ei. by apply negb_false_iff in Ei.
Qed.
Lemma lead_cases i : i = lead i /\ mate i = S (lead i) \/ i = S (lead i) /\ mate i = lead i.
Proof. unfold lead, mate. destruct (Nat.even i) eqn:Ei; [by left|]. destruct i as [|i]; [done|]. by right. Qed.
Lemma mate_ne i : mate i <> i.
Proof. unfold mate. destruct (Nat.even i) eqn:Ei; destruct i; simpl in *; try done; lia. Qed.
Lemma mate_lt i n : Nat.even n = true -> (i < n)%nat -> (mate i < n)%nat.
Proof.
  intros Hn Hi. unfold mate. destruct (Nat.even i) eqn:Ei; [|lia].
  destruct (decide (S i = n)) as [<-|]; [|lia]. by rw even_S Ei in Hn.
Qed.
Lemma even_mod i : Nat.even i = bool_decide (Z.of_nat i mod 2 = 0).
Proof.
  destruct (Nat.even i) eqn:Ei; symmetry.
  - apply Nat.even_spec in Ei as [k ->]. apply bool_decide_true. mlia.
  - rewrite <- Nat.negb_odd in Ei. apply negb_false_iff, Nat.odd_spec in Ei as [k ->].
    apply bool_decide_false. mlia.
Qed.
Lemma lxor_even (x : Z) : x mod 2 = 0 -> Z.lxor x 1 = x + 1 /\ Z.lxor (x + 1) 1 = x.
Proof.
  intros Hx. assert (Z.lxor x 1 = x + 1) as E.
  { symmetry. apply Z.add_nocarry_lxor. change 1 with (Z.ones 1). by rw Z.land_ones. }
  split; [done|]. by rw -E Z.lxor_assoc Z.lxor_nilpotent Z.lxor_0_r.
Qed.
Lemma lxor_mate i : Z.lxor (Z.of_nat i) 1 = Z.of_nat (mate i).
Proof.
  unfold mate. rw even_mod. case_bool_decide as Hi.
  - rw (proj1 (lxor_even _ Hi)). lia.
  - destruct (lxor_even (Z.of_nat i - 1)) as [_ E]; [mlia|]. rw Z.sub_add in E. rw E. destruct i; [done|lia].
Qed.
(** [b & ~1]. *)
Lemma even_bucket_eq (b : Z) : 0 <= b < 2 ^ 64 -> even_bucket b = b - b mod 2.
Proof.
  intros Hb. unfold even_bucket.
  rw (_ : 2 ^ 64 - 2 = Z.ldiff (Z.ones 64) 1); [|done].
  assert (Z.land b (Z.ldiff (Z.ones 64) 1) = Z.ldiff (Z.land b (Z.ones 64)) 1) as ->.
  { apply Z.bits_inj'. intros m Hm. rw !Z.land_spec !Z.ldiff_spec !Z.land_spec. by destruct (Z.testbit b m), (Z.testbit (Z.ones 64) m), (Z.testbit 1 m). }
  rw Z.land_ones; [|lia]. rw Z.mod_small; [|lia]. rw Z.ldiff_land.
  change 1 with (Z.ones 1). rw -Z.ldiff_land Z.ldiff_ones_r; [|lia].
  rw Z.shiftr_div_pow2; [|lia]. rw Z.shiftl_mul_pow2; [|lia]. change (2 ^ 1) with 2. mlia.
Qed.
Lemma even_bucket_nat (i : nat) :
  Z.of_nat i < 2 ^ 64 -> even_bucket (Z.of_nat i) = Z.of_nat (lead i).
Proof.
  intros Hi. unfold lead. rw even_bucket_eq; [|lia]. rw even_mod. case_bool_decide; [lia|].
  destruct i; mlia.
Qed.

(** *** Entries *)

Lemma entries_app bs1 bs2 : entries (bs1 ++ bs2) = entries bs1 ++ entries bs2.
Proof. unfold entries. by rw bind_app. Qed.
Lemma entries_split bs i b :
  bs !! i = Some b -> entries bs = entries (take i bs) ++ bucket_entries b ++ entries (drop (S i) bs).
Proof. intros Hb. rewrite <- (take_drop_middle _ _ _ Hb) at 1. by rw entries_app. Qed.
Lemma entries_insert bs i b :
  (i < length bs)%nat ->
  entries (<[i := b]> bs) = entries (take i bs) ++ bucket_entries b ++ entries (drop (S i) bs).
Proof. intros Hi. rw insert_take_drop; [|done]. by rw entries_app. Qed.
Lemma entries_drop bs i b :
  bs !! i = Some b -> entries (drop i bs) = bucket_entries b ++ entries (drop (S i) bs).
Proof. intros Hb. by rw (drop_S _ _ _ Hb). Qed.
Lemma entries_replicate n : entries (replicate n (BList [])) = [].
Proof. by induction n. Qed.
Lemma elem_entries bs e : e ∈ entries bs <-> exists i b, bs !! i = Some b /\ e ∈ bucket_entries b.
Proof.
  unfold entries. rw list_elem_of_bind. split.
  - intros (b & He & Hb). apply list_elem_of_lookup in Hb as [i Hi]. eauto.
  - intros (i & b & Hi & He). exists b. split; [done|]. by apply list_elem_of_lookup_2 in Hi.
Qed.

(** *** Addresses *)

Lemma separate_split bs i b :
  bs !! i = Some b ->
  (bs ≫= bucket_addrs) =
  (take i bs ≫= bucket_addrs) ++ bucket_addrs b ++ (drop (S i) bs ≫= bucket_addrs).
Proof. intros Hb. rewrite <- (take_drop_middle _ _ _ Hb) at 1. by rw bind_app. Qed.
Lemma separate_nodup bs i b : separate bs -> bs !! i = Some b -> NoDup (bucket_addrs b).
Proof. unfold separate. intros Hs Hb. rw (separate_split _ _ _ Hb) in Hs. by apply NoDup_app in Hs as (_ & _ & [? _]%NoDup_app). Qed.
Lemma separate_index bs i j b b' p :
  separate bs -> bs !! i = Some b -> bs !! j = Some b' -> p ∈ bucket_addrs b -> p ∈ bucket_addrs b' -> i = j.
Proof.
  assert (forall i j b b', separate bs -> bs !! i = Some b -> bs !! j = Some b' ->
            p ∈ bucket_addrs b -> p ∈ bucket_addrs b' -> (i < j)%nat -> False) as Hlt.
  { clear. unfold separate. intros i j b b' Hs Hb Hb' Hp Hp' Hij. rw (separate_split _ _ _ Hb) in Hs.
    apply NoDup_app in Hs as (_ & _ & (_ & Hs & _)%NoDup_app). apply (Hs p Hp).
    apply list_elem_of_bind. exists b'. split; [done|]. apply (list_elem_of_lookup_2 _ (j - S i)). rw lookup_drop -Hb'. f_equal. lia. }
  intros Hs Hb Hb' Hp Hp'. destruct (decide (i = j)) as [|Hne]; [done|].
  exfalso. destruct (decide (i < j)%nat) as [Hij|Hij].
  - exact (Hlt i j b b' Hs Hb Hb' Hp Hp' Hij).
  - assert (j < i)%nat as Hji by lia. exact (Hlt j i b' b Hs Hb' Hb Hp' Hp Hji).
Qed.

(** *** Kinds *)

Lemma kinds_mate bs i b :
  table_ok bs -> bs !! i = Some b ->
  exists b', bs !! mate i = Some b' /\
    match b with
    | BList _ => exists l', b' = BList l'
    | BTree t _ => b' = BShared t
    | BShared t => exists l, b' = BTree t l
    end.
Proof.
  intros [Hev Hk Hs] Hb. pose proof (lookup_lt_Some _ _ _ Hb) as Hi. apply (mate_lt i) in Hi; [|done].
  apply lookup_lt_is_Some in Hi as [b' Hb']. exists b'. split; [done|].
  pose proof (Hk _ _ Hb) as Ok. pose proof (Hk _ _ Hb') as Ok'. pose proof (mate_mate i) as Hmm.
  unfold mate, kind_ok in *.
  destruct b as [l|t l|t], (Nat.even i) eqn:Ei; try naive_solver; destruct b' as [l'|t' l'|t']; try naive_solver.
  - destruct Ok' as [Ev _]. by rw even_S Ei in Ev.
  - destruct i as [|i]; [done|]. rw even_S in Ei. apply negb_false_iff in Ei. simpl in *. rewrite -> Ei in Hmm. naive_solver.
  - destruct i as [|i]; [done|]. rw even_S in Ei. apply negb_false_iff in Ei. simpl in *. destruct Ok' as [Ev _]. congruence.
Qed.

(** What the code finds in the table. *)
Lemma table_test bs i b :
  table_ok bs -> bs !! i = Some b ->
  exists e', slots bs !! mate i = Some e' /\ slots bs !! i = Some (bucket_slot b) /\
    is_list b = bool_decide (bucket_slot b <> None) && bool_decide (bucket_slot b <> e') /\
    is_tree b = bool_decide (bucket_slot b <> None) && bool_decide (bucket_slot b = e').
Proof.
  intros Hok Hb. destruct (kinds_mate _ _ _ Hok Hb) as (b' & Hb' & Hk). exists (bucket_slot b').
  unfold slots. rw !list_lookup_fmap Hb Hb'. split; [done|]. split; [done|].
  destruct b as [[|e l]|t l|t]; simpl.
  - done.
  - destruct Hk as [l' ->]. assert (Some (addr e) <> addr <$> head l') as Hne.
    { destruct l' as [|e' l']; [done|]. intros [= Hee]. apply (mate_ne i).
      eapply (separate_index bs _ _ _ _ (addr e)); [apply Hok|exact Hb'|exact Hb| |];
        simpl; rewrite ?Hee; left. }
    rw (bool_decide_true _ Hne). by rw bool_decide_false.
  - subst b'. simpl. by rw bool_decide_false; [|tauto]; rw bool_decide_true.
  - destruct Hk as [l' ->]. simpl. by rw bool_decide_false; [|tauto]; rw bool_decide_true.
Qed.
End buckets.

(** ** Ownership *)

Section own.
  Context {K T : Type} `{HashKey K}.
  Implicit Types (b : bucket K) (bs : list (bucket K)) (e : entry K) (l : list (entry K)).
  Implicit Types (i j n : nat) (t p tb : Z) (a nx : option Z) (ps : list Z).

Definition node a nx e : hM K T := addr e ↦{a} CNode (ekey e) (evalue e) nx.
Fixpoint chain a l : hM K T :=
  match l with
  | [] => emp
  | e :: l' => node a (addr <$> head l') e ∗ chain a l'
  end%I.
Definition bucket_own a b : hM K T :=
  match b with
  | BList l => chain a l
  | BTree t l => t ↦{a} CTree (addr <$> l) ∗ [∗ list] e ∈ l, node a None e
  | BShared _ => emp
  end%I.
Definition buckets_own a bs : hM K T := ([∗ list] b ∈ bs, bucket_own a b)%I.
Definition table_own a tb bs : hM K T := (tb ↦{a} CTable (slots bs))%I.

(** The cells at some addresses. *)
Definition cells_own ps : hM K T := ([∗ list] p ∈ ps, ∃ a c, p ↦{a} c)%I.

Lemma cells_NoDup ps : cells_own ps ⊢ ⌜NoDup ps⌝.
Proof.
  induction ps as [|p ps IH]; [iIntros "_"; iPureIntro; constructor|].
  unfold cells_own. simpl. iIntros "[(%a & %c & Hp) Hps]".
  iDestruct (keep_pure _ _ IH with "Hps") as "[Hps %Hnd]".
  destruct (decide (p ∈ ps)) as [Hin|Hnin]; [|iPureIntro; by constructor].
  iDestruct (big_sepL_elem_of_acc with "Hps") as "[(%b & %d & Hq) _]"; [exact Hin|].
  iDestruct (cell_ne with "[$Hp $Hq]") as %Hne. done.
Qed.

Lemma cells_size ps x : holds_of (cells_own ps) x -> (length ps <= base.size x)%nat.
Proof.
  revert x. induction ps as [|p ps IH]; intros x; [simpl; lia|].
  intros (y & z & -> & Hd & (a & c & ->) & Hz). apply IH in Hz.
  rw map_size_disj_union; [|done]. rw map_size_singleton. simpl. lia.
Qed.

Lemma node_cell a nx e : node a nx e ⊢ ∃ a c, addr e ↦{a} c.
Proof. iIntros "H". iExists a, _. iExact "H". Qed.
Lemma chain_cells a l : chain a l ⊢ cells_own (addr <$> l).
Proof.
  induction l as [|e l IH]; [done|]. unfold cells_own. cbn [chain fmap list_fmap big_opL].
  iIntros "[He Hl]". iSplitL "He"; [by iApply node_cell|by iApply IH].
Qed.
Lemma nodes_cells a nx l : ([∗ list] e ∈ l, node a nx e) ⊢ cells_own (addr <$> l).
Proof.
  unfold cells_own. rw big_sepL_fmap. iIntros "H". iApply (big_sepL_impl with "H").
  iIntros "!>" (i e _) "He". by iApply node_cell.
Qed.
Lemma bucket_cells a b : bucket_own a b ⊢ cells_own (bucket_addrs b).
Proof.
  destruct b as [l|t l|t]; simpl; [apply chain_cells| |done].
  iIntros "[Ht Hl]". iSplitL "Ht"; [iExists a, _; iExact "Ht"|by iApply nodes_cells].
Qed.
Lemma buckets_cells a bs : buckets_own a bs ⊢ cells_own (bs ≫= bucket_addrs).
Proof.
  induction bs as [|b bs IH]; [done|]. unfold cells_own. rw bind_cons big_sepL_app.
  iIntros "[Hb Hbs]". iSplitL "Hb"; [by iApply bucket_cells|by iApply IH].
Qed.
Lemma buckets_separate a bs : buckets_own a bs ⊢ buckets_own a bs ∗ ⟨separate bs⟩.
Proof. apply keep_pure. rw buckets_cells. apply cells_NoDup. Qed.
Lemma chain_NoDup a l : chain a l ⊢ chain a l ∗ ⟨NoDup (addr <$> l)⟩.
Proof. apply keep_pure. rw chain_cells. apply cells_NoDup. Qed.

(** One bucket, and the rest without it. *)
Lemma buckets_acc a bs i b :
  bs !! i = Some b ->
  buckets_own a bs ⊢ bucket_own a b ∗ (∀ b', bucket_own a b' -∗ buckets_own a (<[i := b']> bs)).
Proof. intros Hb. unfold buckets_own. by rw (big_sepL_insert_acc _ _ i b Hb). Qed.
Lemma buckets_acc_same a bs i b :
  bs !! i = Some b -> buckets_own a bs ⊢ bucket_own a b ∗ (bucket_own a b -∗ buckets_own a bs).
Proof. iIntros (Hb) "H". iApply (big_sepL_lookup_acc with "H"). exact Hb. Qed.

Lemma chain_fuel a l (Q : nat -> hM K T) :
  ⊢ chain a l -∗ (∀ fuel, ⟨length l < fuel⟩%nat -∗ chain a l -∗ Q fuel) -∗ wpm heap_fuel Q.
Proof.
  apply wpm_heap_fuel. intros x Hx. apply (entails_in _ _ (chain_cells a l)), cells_size in Hx.
  by rw length_fmap in Hx.
Qed.

(** ** The tests of the code *)

Lemma wpm_TableEntryIsEmpty a tb bs i b (Q : bool -> hM K T) :
  bs !! i = Some b ->
  ⊢ table_own a tb bs -∗ (table_own a tb bs -∗ Q (bool_decide (bucket_slot b = None))) -∗
    wpm (TableEntryIsEmpty tb (Z.of_nat i)) Q.
Proof.
  iIntros (Hb) "Ht HQ". wbind. iApply (wpm_slot_at with "Ht").
  { unfold slots. by rw list_lookup_fmap Hb. }
  iIntros "Ht". iApply wpm_ret. by iApply "HQ".
Qed.

Lemma wpm_TableEntryIsNonEmptyList a tb bs i b (Q : bool -> hM K T) :
  table_ok bs -> bs !! i = Some b ->
  ⊢ table_own a tb bs -∗ (table_own a tb bs -∗ Q (is_list b)) -∗ wpm (TableEntryIsNonEmptyList tb (Z.of_nat i)) Q.
Proof.
  iIntros (Hok Hb) "Ht HQ". destruct (table_test _ _ _ Hok Hb) as (e' & He' & He & -> & _).
  wbind. iApply (wpm_slot_at with "Ht"); [exact He|]. iIntros "Ht".
  case_decide as Hn; [iApply wpm_ret; rw bool_decide_false; [by iApply "HQ"|tauto]|].
  wbind. rw lxor_mate. iApply (wpm_slot_at with "Ht"); [exact He'|]. iIntros "Ht".
  iApply wpm_ret. rw (bool_decide_true (bucket_slot b <> None)); [|done]. by iApply "HQ".
Qed.

Lemma wpm_TableEntryIsTree a tb bs i b (Q : bool -> hM K T) :
  table_ok bs -> bs !! i = Some b ->
  ⊢ table_own a tb bs -∗ (table_own a tb bs -∗ Q (is_tree b)) -∗ wpm (TableEntryIsTree tb (Z.of_nat i)) Q.
Proof.
  iIntros (Hok Hb) "Ht HQ". destruct (table_test _ _ _ Hok Hb) as (e' & He' & He & Hl & Hr).
  wbind. iApply (wpm_TableEntryIsEmpty with "Ht"); [exact Hb|]. iIntros "Ht". destruct (decide (bucket_slot b = None)) as [Hn|Hn].
  - rw (bool_decide_true _ Hn). iApply wpm_ret. rw Hr. rw bool_decide_false; [|tauto]. by iApply "HQ".
  - rw (bool_decide_false _ Hn). wbind. iApply (wpm_TableEntryIsNonEmptyList with "Ht"); [done|exact Hb|]. iIntros "Ht".
    iApply wpm_ret. rw Hr Hl. rw (bool_decide_true _ Hn). simpl. rw bool_decide_not negb_involutive. by iApply "HQ".
Qed.

Lemma wpm_TableEntryIsList a tb bs i b (Q : bool -> hM K T) :
  table_ok bs -> bs !! i = Some b ->
  ⊢ table_own a tb bs -∗ (table_own a tb bs -∗ Q (negb (is_tree b))) -∗ wpm (TableEntryIsList tb (Z.of_nat i)) Q.
Proof.
  iIntros (Hok Hb) "Ht HQ". wbind. iApply (wpm_TableEntryIsTree with "Ht"); [done|exact Hb|].
  iIntros "Ht". iApply wpm_ret. by iApply "HQ".
Qed.

Lemma wpm_bucket_slot a tb bs i b (Q : option Z -> hM K T) :
  bs !! i = Some b ->
  ⊢ table_own a tb bs -∗ (table_own a tb bs -∗ Q (bucket_slot b)) -∗ wpm (slot_at tb (Z.of_nat i)) Q.
Proof. intros Hb. apply wpm_slot_at. unfold slots. by rw list_lookup_fmap Hb. Qed.

Lemma wpm_set_bucket a tb bs i b (Q : unit -> hM K T) :
  (i < length bs)%nat ->
  ⊢ table_own a tb bs -∗ (table_own a tb (<[i := b]> bs) -∗ Q tt) -∗ wpm (set_slot tb (Z.of_nat i) (bucket_slot b)) Q.
Proof.
  intros Hi. unfold table_own, slots. rw list_fmap_insert. apply wpm_set_slot. by rw length_fmap.
Qed.
End own.
