(* ===== verification/MapTree.v ===== *)
(** * Hash maps: the search trees of the buckets

    What [find], [insert] and [erase] of a tree do, for entries in the order of their
    keys: [lookup_key] and [tree_add] are what they compute. *)
From Stdlib Require Import ZArith Lia Sorting.Sorted.
From stdpp Require Import base tactics option list list_numbers gmap.
From iris.bi Require Import bi big_op.
From iris.proofmode Require Import proofmode.
From S2P Require Import Prelude Bits HeapLogic InnerMap MapLogic MapBuckets.

Section keys.
  Context {K : Type} `{HashKey K}.
  Implicit Types (e : entry K) (l : list (entry K)) (k : K).

Fixpoint lookup_key k l : option (entry K) :=
  match l with
  | [] => None
  | e :: l => if decide (ekey e = k) then Some e else lookup_key k l
  end.
(** The entries whose keys are less come first. *)
Fixpoint lower k l : nat :=
  match l with
  | [] => O
  | e :: l => if key_lt (ekey e) k then S (lower k l) else O
  end.
Definition tree_add e l : list (entry K) := take (lower (ekey e) l) l ++ e :: drop (lower (ekey e) l) l.

Lemma lookup_key_Some k l e : lookup_key k l = Some e -> e ∈ l /\ ekey e = k.
Proof.
  induction l as [|x l IH]; [done|]. simpl. case_decide as Hk.
  - intros [= ->]. split; [left|done].
  - intros He. destruct (IH He). split; [by right|done].
Qed.
Lemma lookup_key_None k l : lookup_key k l = None -> k ∉ ekey <$> l.
Proof.
  induction l as [|x l IH]; [intros _; apply not_elem_of_nil|]. simpl. case_decide as Hk; [done|].
  intros He. apply not_elem_of_cons. split; [congruence|by apply IH].
Qed.
Lemma tree_add_perm e l : tree_add e l ≡ₚ e :: l.
Proof. unfold tree_add. by rw -Permutation_middle take_drop. Qed.

Context `{!KeyLaws K}.

Lemma lower_at k l e : l !! lower k l = Some e -> key_lt (ekey e) k = false.
Proof.
  induction l as [|x l IH]; [done|]. simpl. destruct (key_lt (ekey x) k) eqn:E; [apply IH|].
  by intros [= ->].
Qed.

Lemma sorted_greater k x l : key_lt k (ekey x) = true -> sorted (x :: l) -> lookup_key k (x :: l) = None.
Proof.
  intros Hk Hs. apply StronglySorted_inv in Hs as [_ Hall].
  assert (forall y, y ∈ x :: l -> ekey y <> k) as Hne.
  { intros y [->|Hy]%elem_of_cons <-.
    - by rw key_lt_irrefl in Hk.
    - rewrite -> Stdlib.Lists.List.Forall_forall in Hall. apply list_elem_of_In, Hall in Hy.
      pose proof (key_lt_trans _ _ _ Hk Hy) as Ht. by rw key_lt_irrefl in Ht. }
  destruct (lookup_key k (x :: l)) as [y|] eqn:E; [|done].
  apply lookup_key_Some in E as [Hy Hky]. by apply Hne in Hy.
Qed.

Lemma lookup_lower k l :
  sorted l ->
  lookup_key k l = match l !! lower k l with
                   | Some e => if key_lt k (ekey e) then None else Some e
                   | None => None
                   end.
Proof.
  induction l as [|x l IH]; intros Hs; [done|]. cbn [lower].
  destruct (key_lt (ekey x) k) eqn:Ex.
  - simpl. rw decide_False; [|intros E; by rw E key_lt_irrefl in Ex].
    apply IH. by apply StronglySorted_inv in Hs as [? _].
  - cbn [lookup list_lookup]. destruct (key_lt k (ekey x)) eqn:Ek; [by apply sorted_greater|].
    simpl. rw decide_True; [done|]. by apply key_lt_total.
Qed.

Lemma tree_add_sorted e l : sorted l -> ekey e ∉ ekey <$> l -> sorted (tree_add e l).
Proof.
  unfold tree_add. induction l as [|x l IH]; intros Hs Hin; cbn [lower].
  - repeat constructor.
  - apply not_elem_of_cons in Hin as [Hne Hin]. destruct (key_lt (ekey x) (ekey e)) eqn:Ex; simpl.
    + apply StronglySorted_inv in Hs as [Hs Hall]. constructor; [by apply IH|].
      change (Forall (fun y => key_lt (ekey x) (ekey y) = true) (tree_add e l)).
      rw tree_add_perm. by constructor.
    + assert (key_lt (ekey e) (ekey x) = true) as Hlt.
      { destruct (key_lt (ekey e) (ekey x)) eqn:Ee; [done|]. destruct Hne. by apply key_lt_total. }
      constructor; [done|]. apply StronglySorted_inv in Hs as [_ Hall]. constructor; [done|].
      eapply Forall_impl; [exact Hall|]. simpl. intros y Hy. by eapply key_lt_trans.
Qed.

Lemma sorted_delete l1 e l2 : sorted (l1 ++ e :: l2) -> sorted (l1 ++ l2).
Proof.
  induction l1 as [|x l1 IH]; simpl; intros [Hs Hall]%StronglySorted_inv; [done|].
  constructor; [by apply IH|]. change (x :: l1 ++ e :: l2) with (x :: (l1 ++ e :: l2)) in *.
  apply Forall_app in Hall as [? Hall]. apply Forall_cons in Hall as [_ ?]. apply Forall_app. by split.
Qed.
End keys.

(** The element behind another. *)
Lemma successor_app (ps qs : list Z) p : p ∉ ps -> successor (ps ++ p :: qs) p = head qs.
Proof.
  induction ps as [|x ps IH]; simpl; intros Hp; [by rw decide_True|].
  apply not_elem_of_cons in Hp as [Hne Hp]. rw decide_False; [|congruence]. by apply IH.
Qed.
Lemma filter_absent (ps : list Z) p : p ∉ ps -> filter (fun q => q <> p) ps = ps.
Proof.
  induction ps as [|x ps IH]; intros Hp; [done|]. apply not_elem_of_cons in Hp as [Hne Hp].
  rw filter_cons decide_True; [|congruence]. by rw IH.
Qed.
Lemma filter_other (ps qs : list Z) p : p ∉ ps -> p ∉ qs -> filter (fun q => q <> p) (ps ++ p :: qs) = ps ++ qs.
Proof.
  intros Hp Hq. rw filter_app filter_cons decide_False; [|tauto]. by rw !filter_absent.
Qed.

Section trees.
  Context {K T : Type} `{HashKey K} `{!KeyLaws K}.
  Implicit Types (e : entry K) (l : list (entry K)) (k : K) (t : Z) (a nx : option Z).

Definition nodes a l : hM K T := ([∗ list] e ∈ l, node a None e)%I.

Lemma wpm_node_key a nx e (Q : K -> hM K T) :
  ⊢ node a nx e -∗ (node a nx e -∗ Q (ekey e)) -∗ wpm (key_at (addr e)) Q.
Proof. apply wpm_key_at. Qed.

Lemma wpm_lower_bound a l k (Q : nat -> hM K T) :
  ⊢ nodes a l -∗ (nodes a l -∗ Q (lower k l)) -∗ wpm (lower_bound (addr <$> l) k) Q.
Proof.
  iInduction l as [|e l] "IH" forall (Q); [iIntros "Hl HQ"; iApply wpm_ret; by iApply "HQ"|].
  iIntros "[He Hl] HQ". wbind. iApply (wpm_node_key with "He"). iIntros "He". cbn [lower].
  destruct (key_lt (ekey e) k); [|iApply wpm_ret; iApply "HQ"; iFrame].
  wbind. iApply ("IH" with "Hl"). iIntros "Hl". iApply wpm_ret. iApply "HQ". iFrame.
Qed.

(** A tree, its root apart. *)
Lemma wpm_tree_find a t l k (Q : option Z -> hM K T) :
  sorted l ->
  ⊢ t ↦{a} CTree (addr <$> l) -∗ nodes a l -∗
    (t ↦{a} CTree (addr <$> l) -∗ nodes a l -∗ Q (addr <$> lookup_key k l)) -∗ wpm (tree_find t k) Q.
Proof.
  iIntros (Hs) "Ht Hl HQ". wbind. iApply (wpm_tree_at with "Ht"). iIntros "Ht".
  wbind. iApply (wpm_lower_bound with "Hl"). iIntros "Hl". rw list_lookup_fmap (lookup_lower _ _ Hs).
  destruct (l !! lower k l) as [e|] eqn:He; simpl; [|iApply wpm_ret; iApply ("HQ" with "Ht Hl")].
  iDestruct (big_sepL_lookup_acc with "Hl") as "[He Hl]"; [exact He|].
  wbind. iApply (wpm_node_key with "He"). iIntros "He". iDestruct ("Hl" with "He") as "Hl".
  iApply wpm_ret. destruct (key_lt k (ekey e)); iApply ("HQ" with "Ht Hl").
Qed.

Lemma wpm_tree_insert a t l nx e (Q : Z -> hM K T) :
  sorted l -> ekey e ∉ ekey <$> l ->
  ⊢ t ↦{a} CTree (addr <$> l) -∗ nodes a l -∗ node a nx e -∗
    (t ↦{a} CTree (addr <$> tree_add e l) -∗ nodes a l -∗ node a nx e -∗ Q (addr e)) -∗
    wpm (tree_insert t (addr e)) Q.
Proof.
  iIntros (Hs Hk) "Ht Hl He HQ". wbind. iApply (wpm_node_key with "He"). iIntros "He".
  wbind. iApply (wpm_tree_at with "Ht"). iIntros "Ht".
  wbind. iApply (wpm_lower_bound with "Hl"). iIntros "Hl".
  wbind. iApply (wpm_tree_find with "Ht Hl"); [done|]. iIntros "Ht Hl".
  destruct (lookup_key (ekey e) l) as [x|] eqn:Ex.
  { apply lookup_key_Some in Ex as [Hx Hkx]. exfalso. apply Hk, list_elem_of_fmap. eauto. }
  simpl. wbind. iApply (wpm_set_cell with "Ht"). iIntros "Ht". iApply wpm_ret.
  iApply ("HQ" with "[Ht] Hl He"). unfold tree_add. rw fmap_app fmap_cons fmap_take fmap_drop. iExact "Ht".
Qed.

Lemma wpm_tree_erase a t l1 e l2 (Q : unit -> hM K T) :
  addr e ∉ addr <$> l1 -> addr e ∉ addr <$> l2 ->
  ⊢ t ↦{a} CTree (addr <$> l1 ++ e :: l2) -∗ (t ↦{a} CTree (addr <$> l1 ++ l2) -∗ Q tt) -∗
    wpm (tree_erase t (addr e)) Q.
Proof.
  iIntros (H1 H2) "Ht HQ". wbind. iApply (wpm_tree_at with "Ht"). iIntros "Ht".
  rw (fmap_app _ l1 (e :: l2)) fmap_cons filter_other // -fmap_app. iApply (wpm_set_cell with "Ht HQ").
Qed.

Lemma wpm_tree_next a t l1 e l2 (Q : option Z -> hM K T) :
  addr e ∉ addr <$> l1 ->
  ⊢ t ↦{a} CTree (addr <$> l1 ++ e :: l2) -∗
    (t ↦{a} CTree (addr <$> l1 ++ e :: l2) -∗ Q (addr <$> head l2)) -∗ wpm (tree_next t (addr e)) Q.
Proof.
  iIntros (H1) "Ht HQ". wbind. iApply (wpm_tree_at with "Ht"). iIntros "Ht". iApply wpm_ret.
  assert (successor (addr <$> l1 ++ e :: l2) (addr e) = addr <$> head l2) as ->.
  { rw fmap_app fmap_cons successor_app //. by destruct l2. }
  by iApply "HQ".
Qed.
End trees.
