(* ===== verification/MapFind.v ===== *)
(** * Hash maps: lookup

    [imap_at] owns a hash table whose buckets are [bs] and states its invariant
    ([imap_ok]): a power of two of buckets, every entry in the bucket its key hashes
    to, no list longer than eight, sorted trees that are shared by two buckets, no key
    twice, and the index of the first bucket that is not empty.  [FindHelper] finds
    the entry of a key, and the bucket where it is or belongs. *)
From Stdlib Require Import ZArith Lia Sorting.Sorted.
From stdpp Require Import base tactics option list list_numbers gmap.
From iris.bi Require Import bi big_op.
From iris.proofmode Require Import proofmode.
From S2P Require Import Prelude Bits HeapLogic InnerMap MapLogic MapBuckets MapTree MapKeys.

(** ** The invariant *)

Section invariant.
  Context {K : Type} `{HashKey K}.
  Implicit Types (b : bucket K) (bs : list (bucket K)) (e : entry K) (l : list (entry K)).
  Implicit Types (i j n idx : nat) (k : K) (seed : Z).

(** The bucket number of a key. *)
Definition place n seed k : nat := Z.to_nat (Z.land (u64 (hash k + seed)) (Z.of_nat n - 1)).

Definition placed seed bs : Prop := forall i b e,
  bs !! i = Some b -> e ∈ bucket_entries b ->
  place (length bs) seed (ekey e) = i \/ (is_tree b = true /\ place (length bs) seed (ekey e) = S i).

Definition index_ok bs idx : Prop :=
  (idx <= length bs)%nat /\ (forall i, (i < idx)%nat -> bs !! i = Some (BList [])) /\
  (forall b, bs !! idx = Some b -> bucket_slot b <> None).

Record imap_ok seed bs idx : Prop := {
  im_pow2 : pow2 (length bs);
  im_kinds : kinds bs;
  im_placed : placed seed bs;
  im_keys : NoDup (ekey <$> entries bs);
  im_index : index_ok bs idx;
}.

(** Where the entries of bucket [i] are: a tree is in the first of the pair. *)
Definition home bs i : nat := match bs !! i with Some (BShared _) => pred i | _ => i end.

Lemma pow2_even n : pow2 n -> Nat.even n = true.
Proof.
  intros (x & Hx & Hn). rw even_mod Hn. apply bool_decide_true.
  replace x with (1 + (x - 1)) by lia. rw Z.pow_add_r; [|lia|lia]. change (2 ^ 1) with 2.
  rw Z.mul_comm. by apply Z.mod_mul.
Qed.
Lemma pow2_bounds n : pow2 n -> 8 <= Z.of_nat n <= 2 ^ 60.
Proof.
  intros (x & Hx & ->). change 8 with (2 ^ 3). split; apply Z.pow_le_mono_r; lia.
Qed.
Lemma land_pow2 n (z : Z) : pow2 n -> Z.land z (Z.of_nat n - 1) = z mod Z.of_nat n.
Proof.
  intros (x & Hx & ->). rw -Z.land_ones; [|lia]. by rw Z.ones_equiv -Z.sub_1_r.
Qed.
Lemma place_lt n seed k : pow2 n -> (place n seed k < n)%nat.
Proof.
  intros Hn. pose proof (pow2_bounds _ Hn). unfold place. rw land_pow2; [|done].
  pose proof (Z.mod_pos_bound (u64 (hash k + seed)) (Z.of_nat n)). lia.
Qed.
Lemma place_eq n seed k :
  pow2 n -> Z.land (u64 (hash k + seed)) (Z.of_nat n - 1) = Z.of_nat (place n seed k).
Proof.
  intros Hn. pose proof (pow2_bounds _ Hn). unfold place. rw land_pow2; [|done].
  pose proof (Z.mod_pos_bound (u64 (hash k + seed)) (Z.of_nat n)). lia.
Qed.

Lemma imap_table_ok seed bs idx : imap_ok seed bs idx -> separate bs -> table_ok bs.
Proof. intros Hok Hs. split; [apply pow2_even, Hok|apply Hok|done]. Qed.

Lemma home_bucket bs i :
  table_ok bs -> (i < length bs)%nat -> exists b, bs !! home bs i = Some b /\ forall t, b <> BShared t.
Proof.
  intros Hok [b Hb]%lookup_lt_is_Some. unfold home. rw Hb.
  destruct b as [l|t l|t]; [by exists (BList l)|by exists (BTree t l)|].
  destruct (ok_kinds _ Hok _ _ Hb) as (_ & l & Hl). by exists (BTree t l).
Qed.

Lemma home_entry seed bs idx e :
  imap_ok seed bs idx -> e ∈ entries bs ->
  exists b, bs !! home bs (place (length bs) seed (ekey e)) = Some b /\ e ∈ bucket_entries b.
Proof.
  intros Hok (i & b & Hb & He)%elem_entries. exists b. split; [|done].
  enough (home bs (place (length bs) seed (ekey e)) = i) as -> by done. unfold home.
  destruct (im_placed _ _ _ Hok _ _ _ Hb He) as [->|[Ht ->]].
  - rw Hb. destruct b; [done|done|]. by apply not_elem_of_nil in He.
  - destruct b as [l|t l|t]; [done| |by apply not_elem_of_nil in He].
    destruct (im_kinds _ _ _ Hok _ _ Hb) as (_ & -> & _). done.
Qed.

(** What [FindHelper] returns. *)
Definition found_at (this seed : Z) bs k (r : iterator * Z * option Z) : Prop :=
  exists j b, j = home bs (place (length bs) seed k) /\ bs !! j = Some b /\ (forall t, b <> BShared t) /\
    match lookup_key k (bucket_entries b) with
    | Some e => r = (It (Some (addr e)) (Some this) (Z.of_nat j), Z.of_nat j,
                     if is_tree b then Some (addr e) else None)
    | None => k ∉ ekey <$> entries bs /\ r = (end_, Z.of_nat j, None)
    end.

(** An absent key is in no bucket; a key that its bucket does not have is absent. *)
Lemma lookup_home seed bs idx k j b :
  imap_ok seed bs idx -> j = home bs (place (length bs) seed k) -> bs !! j = Some b ->
  lookup_key k (bucket_entries b) = None -> k ∉ ekey <$> entries bs.
Proof.
  intros Hok -> Hb Hk (e & -> & He)%list_elem_of_fmap. destruct (home_entry _ _ _ _ Hok He) as (b' & Hb' & He').
  rw Hb in Hb'. injection Hb' as <-. apply lookup_key_None in Hk. apply Hk, list_elem_of_fmap. eauto.
Qed.
End invariant.

(** ** Lookup *)

Section find.
  Context {K T : Type} `{HashKey K} `{!KeyLaws K}.
  Implicit Types (b : bucket K) (bs : list (bucket K)) (e : entry K) (l : list (entry K)).
  Implicit Types (i j n idx : nat) (k : K) (seed this tb ne t : Z) (a : option Z).

Definition imap_at this a ne seed bs idx tb : hM K T :=
  (this ↦{a} CInner (IM ne (Z.of_nat (length bs)) seed (Z.of_nat idx) tb a) ∗ table_own a tb bs ∗
   buckets_own a bs ∗ ⟨imap_ok seed bs idx⟩)%I.

Lemma imap_open this a ne seed bs idx tb :
  imap_at this a ne seed bs idx tb ⊢
    this ↦{a} CInner (IM ne (Z.of_nat (length bs)) seed (Z.of_nat idx) tb a) ∗ table_own a tb bs ∗
    buckets_own a bs ∗ ⟨imap_ok seed bs idx /\ table_ok bs⟩.
Proof.
  iIntros "(Hm & Ht & Hb & %Hok)". iDestruct (buckets_separate with "Hb") as "[Hb %Hs]". iFrame.
  iPureIntro. split; [done|by eapply imap_table_ok].
Qed.

Lemma wpm_BucketNumber this a ne n seed idx tb k (Q : Z -> hM K T) :
  pow2 n ->
  ⊢ this ↦{a} CInner (IM ne (Z.of_nat n) seed idx tb a) -∗
    (this ↦{a} CInner (IM ne (Z.of_nat n) seed idx tb a) -∗ Q (Z.of_nat (place n seed k))) -∗
    wpm (BucketNumber this k) Q.
Proof.
  iIntros (Hn) "Hm HQ". wbind. iApply (wpm_inner_at with "Hm"). iIntros "Hm". cbn [seed_ num_buckets_].
  rw place_eq; [|done]. iApply wpm_ret. by iApply "HQ".
Qed.

Lemma wpm_find_in_list a fuel e l k (Q : option Z -> hM K T) :
  (length l < fuel)%nat ->
  ⊢ chain a (e :: l) -∗ (chain a (e :: l) -∗ Q (addr <$> lookup_key k (e :: l))) -∗
    wpm (find_in_list fuel (addr e) k) Q.
Proof.
  revert fuel e Q. induction l as [|x l IH]; intros [|fuel] e Q Hf; simpl in Hf; try lia.
  - iIntros "[He Hl] HQ". simpl. wbind. iApply (wpm_node_key with "He"). iIntros "He".
    case_decide; [iApply wpm_ret; iApply "HQ"; iFrame|].
    wbind. iApply (wpm_next_at with "He"). iIntros "He". iApply wpm_ret. iApply "HQ". iFrame.
  - iIntros "[He Hl] HQ". cbn [find_in_list lookup_key]. wbind. iApply (wpm_node_key with "He"). iIntros "He".
    case_decide; [iApply wpm_ret; iApply "HQ"; iFrame|].
    wbind. iApply (wpm_next_at with "He"). iIntros "He". iApply (IH with "Hl"); [lia|].
    iIntros "Hl". iApply "HQ". iFrame.
Qed.

(** The part of [FindHelper] that searches a tree. *)
Lemma wpm_find_tree {A} this a ne seed bs idx tb j t l k (rest : option Z -> stm (store K T) A) (Q : A -> hM K T) :
  bs !! j = Some (BTree t l) ->
  ⊢ imap_at this a ne seed bs idx tb -∗
    (imap_at this a ne seed bs idx tb -∗ wpm (rest (addr <$> lookup_key k l)) Q) -∗
    wpm (e ← slot_at tb (Z.of_nat j); tree ← deref e; found ← tree_find tree k; rest found) Q.
Proof.
  iIntros (Hj) "Hi HQ". iDestruct "Hi" as "(Hm & Ht & Hb & %Hok)".
  wbind. iApply (wpm_bucket_slot with "Ht"); [exact Hj|]. iIntros "Ht". simpl.
  iDestruct (buckets_acc_same _ _ _ _ Hj with "Hb") as "[[Hr Hl] Hb]".
  destruct (im_kinds _ _ _ Hok _ _ Hj) as (_ & _ & _ & Hs).
  wbind. iApply wpm_deref. wbind. iApply (wpm_tree_find with "Hr Hl"); [done|]. iIntros "Hr Hl".
  iApply "HQ". iDestruct ("Hb" with "[Hr Hl]") as "Hb"; iFrame. done.
Qed.

(** What is found in the bucket where a key belongs. *)
Lemma found_intro this seed bs idx k :
  imap_ok seed bs idx -> table_ok bs ->
  forall b, bs !! home bs (place (length bs) seed k) = Some b -> (forall t, b <> BShared t) ->
  forall o, o = lookup_key k (bucket_entries b) ->
  found_at this seed bs k
    match o with
    | Some e => (It (Some (addr e)) (Some this) (Z.of_nat (home bs (place (length bs) seed k))),
                 Z.of_nat (home bs (place (length bs) seed k)), if is_tree b then Some (addr e) else None)
    | None => (end_, Z.of_nat (home bs (place (length bs) seed k)), None)
    end.
Proof.
  intros Hok Htab b Hb Hns o ->. exists (home bs (place (length bs) seed k)), b. split_and!; [done|done|done|].
  destruct (lookup_key k (bucket_entries b)) eqn:E; [done|]. split; [|done]. by eapply lookup_home.
Qed.
Lemma home_lead bs i b : table_ok bs -> bs !! i = Some b -> home bs i = if is_tree b then lead i else i.
Proof.
  intros Htab Hb. unfold home, lead. rw Hb. pose proof (ok_kinds _ Htab _ _ Hb) as Hkind.
  destruct b; [done|by destruct Hkind as [-> _]|by destruct Hkind as [-> _]].
Qed.
Lemma tree_home bs i b :
  table_ok bs -> bs !! i = Some b -> is_tree b = true -> exists t l, bs !! home bs i = Some (BTree t l).
Proof.
  intros Htab Hb Ht. pose proof (ok_kinds _ Htab _ _ Hb) as Hkind. unfold home. rw Hb.
  destruct b as [l|t l|t]; [done|by exists t, l|destruct Hkind as (_ & l & Hl); by exists t, l].
Qed.

Lemma wpm_FindHelper this a ne seed bs idx tb k (Q : iterator * Z * option Z -> hM K T) :
  ⊢ imap_at this a ne seed bs idx tb -∗
    (∀ r, ⟨found_at this seed bs k r⟩ -∗ imap_at this a ne seed bs idx tb -∗ Q r) -∗
    wpm (FindHelper this k) Q.
Proof.
  iIntros "Hi HQ". iDestruct (imap_open with "Hi") as "(Hm & Ht & Hb & %Hok & %Htab)".
  pose proof (im_pow2 _ _ _ Hok) as Hn. pose proof (place_lt _ seed k Hn) as Hlt.
  wbind. iApply (wpm_inner_at with "Hm"). iIntros "Hm". cbn [table_].
  wbind. iApply (wpm_BucketNumber with "Hm"); [done|]. iIntros "Hm".
  set (i := place (length bs) seed k) in *.
  destruct (lookup_lt_is_Some_2 _ _ Hlt) as [b0 Hb0].
  wbind. iApply (wpm_TableEntryIsNonEmptyList with "Ht"); [done|exact Hb0|]. iIntros "Ht".
  pose proof (found_intro this seed bs idx k Hok Htab) as Hfound. fold i in Hfound. pose proof (home_lead bs i b0 Htab Hb0) as Hhome.
  destruct (is_tree b0) eqn:Etree.
  - destruct (tree_home bs i b0 Htab Hb0 Etree) as (t & l & Hj).
    destruct (table_test _ _ _ Htab Hb0) as (e' & He' & He & Hl & Hr). rw Etree in Hr. symmetry in Hr.
    apply andb_true_iff in Hr as [Hr1 Hr2]. apply bool_decide_eq_true in Hr2.
    assert (is_list b0 = false) as -> by by destruct b0.
    wbind. iApply (wpm_TableEntryIsTree with "Ht"); [done|exact Hb0|]. iIntros "Ht". rw Etree.
    wbind. iApply (wpm_slot_at with "Ht"); [exact He|]. iIntros "Ht".
    wbind. rw lxor_mate. iApply (wpm_slot_at with "Ht"); [exact He'|]. iIntros "Ht".
    wbind. iApply wpm_dcheck; [done|].
    pose proof (pow2_bounds _ Hn). rw even_bucket_nat; [|lia]. rw -Hhome.
    iApply (wpm_find_tree this a ne seed bs idx tb with "[Hm Ht Hb]"); [exact Hj|by iFrame|].
    iIntros "Hi". pose proof (Hfound _ Hj ltac:(done) _ eq_refl) as Hr. simpl in Hr.
    destruct (lookup_key k l) as [e|]; simpl; [|iApply wpm_ret; by iApply ("HQ" with "[] Hi")].
    wbind. iApply wpm_dcheck.
    { pose proof (im_kinds _ _ _ Hok _ _ Hj) as [Hev _]. rw even_mod in Hev. by apply bool_decide_eq_true in Hev. }
    iApply wpm_ret. by iApply ("HQ" with "[] Hi").
  - assert (home bs i = i) as Hi by by rw Hhome. clear Hhome.
    destruct b0 as [[|e l]|t l|t]; [| |done|done]; cbn [is_list].
    + wbind. iApply (wpm_TableEntryIsTree with "Ht"); [done|exact Hb0|]. iIntros "Ht". simpl.
      iApply wpm_ret. rewrite -> Hi in Hfound. pose proof (Hfound _ Hb0 ltac:(done) _ eq_refl) as Hr. iApply "HQ"; [done|by iFrame].
    + wbind. iApply (wpm_bucket_slot with "Ht"); [exact Hb0|]. iIntros "Ht". simpl.
      wbind. iApply wpm_deref. iDestruct (buckets_acc_same _ _ _ _ Hb0 with "Hb") as "[Hl Hb]".
      wbind. iApply (chain_fuel with "Hl"). iIntros (fuel Hf) "Hl". simpl in Hf.
      wbind. iApply (wpm_find_in_list with "Hl"); [lia|]. iIntros "Hl". iDestruct ("Hb" with "Hl") as "Hb".
      iApply wpm_ret. rewrite -> Hi in Hfound. pose proof (Hfound _ Hb0 ltac:(done) _ eq_refl) as Hr. simpl in Hr.
      iApply ("HQ" with "[] [Hm Ht Hb]"); [iPureIntro|by iFrame]. simpl. by destruct (decide (ekey e = k)), (lookup_key k l).
Qed.
End find.
