(* ===== verification/MapIter.v ===== *)
(** * Hash maps: iterators

    The iteration goes through the entries in the order of the buckets ([entries]).
    An iterator at an entry may know a stale bucket: [revalidate_if_necessary] finds
    the right one, and [operator++] goes to the next entry whatever the iterator
    believed. *)
From Stdlib Require Import ZArith Lia Sorting.Sorted.
From stdpp Require Import base tactics option list list_numbers gmap.
From iris.bi Require Import bi big_op.
From iris.proofmode Require Import proofmode.
From S2P Require Import Prelude Bits HeapLogic InnerMap MapLogic MapBuckets MapTree MapKeys MapFind.

Lemma NoDup_middle {A} (x : A) (l1 l2 m1 m2 : list A) :
  NoDup (l1 ++ x :: l2) -> l1 ++ x :: l2 = m1 ++ x :: m2 -> l1 = m1 /\ l2 = m2.
Proof.
  revert m1. induction l1 as [|y l1 IH]; intros [|z m1] Hnd E; simpl in *.
  - naive_solver.
  - injection E as <- ->. apply NoDup_cons in Hnd as [Hx _]. destruct Hx.
    apply elem_of_app. right. left.
  - injection E as -> <-. apply NoDup_cons in Hnd as [Hx _]. destruct Hx.
    apply elem_of_app. right. left.
  - injection E as <- E. apply NoDup_cons in Hnd as [_ Hnd]. destruct (IH m1 Hnd E) as [-> ->]. done.
Qed.

Section entries.
  Context {K : Type} `{HashKey K}.
  Implicit Types (b : bucket K) (bs : list (bucket K)) (e : entry K) (l : list (entry K)) (i j idx : nat).

Lemma entries_NoDup seed bs idx : imap_ok seed bs idx -> NoDup (entries bs).
Proof. intros Hok. by eapply NoDup_fmap_1, Hok. Qed.

Lemma keys_inj seed bs idx e e' :
  imap_ok seed bs idx -> e ∈ entries bs -> e' ∈ entries bs -> ekey e = ekey e' -> e = e'.
Proof.
  intros Hok [i Hi]%list_elem_of_lookup [j Hj]%list_elem_of_lookup Hk.
  assert (i = j) as ->; [|congruence].
  eapply NoDup_lookup; [apply (im_keys _ _ _ Hok)| |]; rw list_lookup_fmap ?Hi ?Hj; simpl; by rw ?Hk.
Qed.

Lemma entry_addr b e : e ∈ bucket_entries b -> addr e ∈ bucket_addrs b.
Proof.
  destruct b; simpl; [..|by intros ?%not_elem_of_nil]; intros He; [|right]; apply list_elem_of_fmap; eauto.
Qed.

(** A slot that holds the address of an entry is the list that begins with it. *)
Lemma slot_entry bs i b0 j b e :
  table_ok bs -> bs !! i = Some b0 -> bs !! j = Some b -> e ∈ bucket_entries b ->
  bucket_slot b0 = Some (addr e) -> i = j /\ is_tree b = false.
Proof.
  intros Hok Hb0 Hb He Hslot. pose proof (entry_addr _ _ He) as Ha.
  assert (forall j' t l, bs !! j' = Some (BTree t l) -> t = addr e -> False) as Htree.
  { intros j' t l Hj' ->. assert (j' = j) as ->.
    { eapply separate_index; [apply Hok|exact Hj'|exact Hb| |exact Ha]. left. }
    assert (b = BTree (addr e) l) as -> by congruence.
    pose proof (separate_nodup _ _ _ (ok_separate _ Hok) Hb) as Hnd. simpl in *.
    apply NoDup_cons in Hnd as [Hnd _]. apply Hnd, list_elem_of_fmap. eauto. }
  destruct b0 as [[|x l]|t l|t]; simpl in Hslot; [done| | |].
  - injection Hslot as Hx. assert (i = j) as ->.
    { eapply separate_index; [apply Hok|exact Hb0|exact Hb| |exact Ha]. simpl. rw Hx. left. }
    split; [done|]. assert (b = BList (x :: l)) as -> by congruence. done.
  - injection Hslot as Ht. exfalso. by eapply Htree.
  - injection Hslot as Ht. destruct (ok_kinds _ Hok _ _ Hb0) as (_ & l & Hl). exfalso. by eapply Htree.
Qed.

(** The entries behind an entry: the rest of its bucket, and the later buckets. *)
Lemma entries_behind seed bs idx j b m1 e m2 l1 l2 :
  imap_ok seed bs idx -> bs !! j = Some b -> bucket_entries b = m1 ++ e :: m2 ->
  entries bs = l1 ++ e :: l2 -> l1 = entries (take j bs) ++ m1 /\ l2 = m2 ++ entries (drop (S j) bs).
Proof.
  intros Hok Hb Hm Hl. pose proof (entries_NoDup _ _ _ Hok) as Hnd.
  rw Hl in Hnd. apply (NoDup_middle e _ _ _ _ Hnd). rw -Hl (entries_split _ _ _ Hb) Hm.
  by rw -!app_assoc.
Qed.

Lemma entries_first bs idx : index_ok bs idx -> entries (drop idx bs) = entries bs.
Proof.
  intros (Hle & Hnull & _). rewrite <- (take_drop idx bs) at 2. rw entries_app.
  assert (entries (take idx bs) = []) as ->; [|done].
  assert (take idx bs = replicate idx (BList [])) as ->; [|by rw entries_replicate].
  symmetry. apply replicate_as_elem_of. rw length_take_le; [|done]. split; [done|].
  intros b [i Hi]%list_elem_of_lookup. apply lookup_take_Some in Hi as [Hi Hlt].
  rw Hnull in Hi; [|done]. naive_solver.
Qed.
End entries.

Section iter.
  Context {K T : Type} `{HashKey K} `{!KeyLaws K}.
  Implicit Types (b : bucket K) (bs : list (bucket K)) (e : entry K) (l : list (entry K)).
  Implicit Types (i j s idx : nat) (k : K) (seed this tb ne t : Z) (a : option Z).

Lemma wpm_SearchFrom_loop a tb fuel bs s (Q : option Z * Z -> hM K T) :
  table_ok bs -> (length bs - s < fuel)%nat -> (forall t, bs !! s <> Some (BShared t)) ->
  ⊢ table_own a tb bs -∗ buckets_own a bs -∗
    (∀ z, table_own a tb bs -∗ buckets_own a bs -∗ Q (addr <$> head (entries (drop s bs)), z)) -∗
    wpm (SearchFrom_loop fuel (Z.of_nat (length bs)) tb (Z.of_nat s)) Q.
Proof.
  intros Hok. revert s. induction fuel as [|fuel IH]; intros s Hf Hs; [lia|].
  iIntros "Ht Hb HQ". cbn [SearchFrom_loop]. case_decide as Hlt.
  2:{ iApply wpm_ret. iSpecialize ("HQ" with "Ht Hb"). rw drop_ge; [|lia]. iExact "HQ". }
  destruct (lookup_lt_is_Some_2 bs s) as [b Hb]; [lia|]. rw (entries_drop _ _ _ Hb).
  wbind. iApply (wpm_TableEntryIsNonEmptyList with "Ht"); [done|exact Hb|]. iIntros "Ht".
  destruct b as [[|e l]|t l|t]; cbn [is_list]; [| | |by destruct (Hs t)].
  - wbind. iApply (wpm_TableEntryIsTree with "Ht"); [done|exact Hb|]. iIntros "Ht". simpl.
    replace (Z.of_nat s + 1) with (Z.of_nat (S s)) by lia. iApply (IH with "Ht Hb HQ"); [lia|].
    intros t Ht. destruct (ok_kinds _ Hok _ _ Ht) as (_ & l & Hl). simpl in Hl. congruence.
  - wbind. iApply (wpm_bucket_slot with "Ht"); [exact Hb|]. iIntros "Ht". iApply wpm_ret.
    iApply ("HQ" with "Ht Hb").
  - wbind. iApply (wpm_TableEntryIsTree with "Ht"); [done|exact Hb|]. iIntros "Ht". simpl.
    wbind. iApply (wpm_bucket_slot with "Ht"); [exact Hb|]. iIntros "Ht". simpl.
    wbind. iApply wpm_deref. iDestruct (buckets_acc_same _ _ _ _ Hb with "Hb") as "[[Hr Hl] Hb]".
    wbind. iApply (wpm_tree_at with "Hr"). iIntros "Hr".
    destruct (ok_kinds _ Hok _ _ Hb) as (_ & _ & Hne & _). destruct l as [|e l]; [done|].
    wbind. iApply wpm_dcheck; [done|]. iApply wpm_ret. iApply ("HQ" with "Ht").
    iApply "Hb". iFrame.
Qed.

Lemma wpm_first_is_non_null a tb ne seed bs idx (Q : unit -> hM K T) :
  index_ok bs idx ->
  ⊢ table_own a tb bs -∗ (table_own a tb bs -∗ Q tt) -∗
    wpm (first_is_non_null (IM ne (Z.of_nat (length bs)) seed (Z.of_nat idx) tb a)) Q.
Proof.
  iIntros ((Hle & _ & Hnn)) "Ht HQ". unfold first_is_non_null. cbn [index_of_first_non_null_ num_buckets_ table_].
  case_decide as Hd; [iApply wpm_ret; by iApply "HQ"|].
  destruct (lookup_lt_is_Some_2 bs idx) as [b Hb]; [lia|].
  wbind. iApply (wpm_bucket_slot with "Ht"); [exact Hb|]. iIntros "Ht". iApply wpm_dcheck; [by apply Hnn|].
  by iApply "HQ".
Qed.

Lemma wpm_SearchFrom this a ne seed bs idx tb s (Q : iterator -> hM K T) :
  (forall t, bs !! s <> Some (BShared t)) ->
  ⊢ imap_at this a ne seed bs idx tb -∗
    (∀ z, imap_at this a ne seed bs idx tb -∗ Q (It (addr <$> head (entries (drop s bs))) (Some this) z)) -∗
    wpm (SearchFrom this (Z.of_nat s)) Q.
Proof.
  iIntros (Hs) "Hi HQ". iDestruct (imap_open with "Hi") as "(Hm & Ht & Hb & %Hok & %Htab)".
  wbind. iApply (wpm_inner_at with "Hm"). iIntros "Hm".
  wbind. iApply (wpm_first_is_non_null with "Ht"); [apply Hok|]. iIntros "Ht". cbn [num_buckets_ table_].
  wbind. iApply (wpm_SearchFrom_loop with "Ht Hb"); [done|lia|done|]. iIntros (z) "Ht Hb".
  iApply wpm_ret. iApply "HQ". by iFrame.
Qed.

(** The first entry, or none. *)
Lemma wpm_begin_at this a ne seed bs idx tb (Q : iterator -> hM K T) :
  ⊢ imap_at this a ne seed bs idx tb -∗
    (∀ z, imap_at this a ne seed bs idx tb -∗ Q (It (addr <$> head (entries bs)) (Some this) z)) -∗
    wpm (begin this) Q.
Proof.
  iIntros "Hi HQ". iDestruct "Hi" as "(Hm & Ht & Hb & %Hok)".
  wbind. iApply (wpm_inner_at with "Hm"). iIntros "Hm". cbn [index_of_first_non_null_].
  iApply (wpm_SearchFrom with "[Hm Ht Hb]"); [|by iFrame|].
  - intros t Ht. destruct (im_index _ _ _ Hok) as (_ & Hnull & _).
    destruct (im_kinds _ _ _ Hok _ _ Ht) as (Hev & l & Hl).
    destruct idx as [|idx]; [done|]. simpl in Hl. rw Hnull in Hl; [done|lia].
  - iIntros (z) "Hi". rw entries_first; [|apply Hok]. iApply ("HQ" with "Hi").
Qed.

Lemma wpm_in_list a fuel l p (Q : bool -> hM K T) :
  (length l < fuel)%nat ->
  ⊢ chain a l -∗ (chain a l -∗ Q (bool_decide (p ∈ addr <$> l))) -∗ wpm (in_list fuel (addr <$> head l) p) Q.
Proof.
  revert l Q. induction fuel as [|fuel IH]; intros l Q Hf; [lia|].
  iIntros "Hl HQ". destruct l as [|e l]; cbn [in_list head fmap option_fmap option_map].
  - iApply wpm_ret. iSpecialize ("HQ" with "Hl"). rw bool_decide_false; [iExact "HQ"|apply not_elem_of_nil].
  - simpl in Hf. case_decide as Hp.
    + iApply wpm_ret. iSpecialize ("HQ" with "Hl"). rw bool_decide_true; [iExact "HQ"|]. rw -Hp. left.
    + iDestruct "Hl" as "[He Hl]". wbind. iApply (wpm_next_at with "He"). iIntros "He".
      iApply (IH with "Hl"); [lia|]. iIntros "Hl". iSpecialize ("HQ" with "[$He $Hl]").
      rw (bool_decide_ext (p ∈ addr <$> e :: l) (p ∈ addr <$> l)); [|rw fmap_cons elem_of_cons; naive_solver].
      iExact "HQ".
Qed.

(** One node of a bucket; its value may change. *)
Lemma chain_acc a m1 e m2 :
  chain (T := T) a (m1 ++ e :: m2) ⊢
    node a (addr <$> head m2) e ∗
    (∀ e', ⟨addr e' = addr e⟩ -∗ node a (addr <$> head m2) e' -∗ chain a (m1 ++ e' :: m2)).
Proof.
  induction m1 as [|x m1 IH]; cbn [app chain].
  - iIntros "[$ Hl]" (e' He) "He". iFrame.
  - iIntros "[Hx Hl]". iDestruct (IH with "Hl") as "[$ Hl]". iIntros (e' He) "He".
    iDestruct ("Hl" with "[] He") as "$"; [done|].
    assert (addr <$> head (m1 ++ e' :: m2) = addr <$> head (m1 ++ e :: m2)) as ->; [|iExact "Hx"].
    destruct m1; simpl; congruence.
Qed.
Lemma bucket_acc_set a b m1 e m2 :
  bucket_entries b = m1 ++ e :: m2 ->
  bucket_own (T := T) a b ⊢
    node a (if is_tree b then None else addr <$> head m2) e ∗
    (∀ e', ⟨addr e' = addr e⟩ -∗ node a (if is_tree b then None else addr <$> head m2) e' -∗
       bucket_own a (rebucket b (m1 ++ e' :: m2))).
Proof.
  destruct b as [l|t l|t]; simpl; [intros ->; apply chain_acc| |by destruct m1].
  iIntros (->) "[Ht Hl]". rw big_sepL_app big_sepL_cons. iDestruct "Hl" as "(Hl & $ & Hr)".
  iIntros (e' He) "He". assert (addr <$> m1 ++ e' :: m2 = addr <$> m1 ++ e :: m2) as ->.
  { by rw !fmap_app !fmap_cons He. }
  iFrame.
Qed.
Lemma rebucket_id b m1 e m2 : bucket_entries b = m1 ++ e :: m2 -> rebucket b (m1 ++ e :: m2) = b.
Proof. destruct b; simpl; [by intros ->|by intros ->|by destruct m1]. Qed.
Lemma bucket_acc a b m1 e m2 :
  bucket_entries b = m1 ++ e :: m2 ->
  bucket_own (T := T) a b ⊢
    node a (if is_tree b then None else addr <$> head m2) e ∗
    (node a (if is_tree b then None else addr <$> head m2) e -∗ bucket_own a b).
Proof.
  iIntros (Hb) "Hb". iDestruct (bucket_acc_set _ _ _ _ _ Hb with "Hb") as "[$ Hb]". iIntros "He".
  iDestruct ("Hb" with "[] He") as "Hb"; [done|]. rw (rebucket_id _ _ _ _ Hb). iExact "Hb".
Qed.

(** What [revalidate_if_necessary] returns for the entry [e]. *)
Definition valid_at this bs e (r : bool * iterator * option Z) : Prop :=
  exists j b, bs !! j = Some b /\ e ∈ bucket_entries b /\
    r = (negb (is_tree b), It (Some (addr e)) (Some this) (Z.of_nat j), if is_tree b then Some (addr e) else None).

(** The last part of [revalidate_if_necessary]: the bucket is looked up. *)
Lemma wpm_revalidate_key this a ne seed bs idx tb e (it : iterator) (Q : bool * iterator * option Z -> hM K T) :
  e ∈ entries bs -> node_ it = Some (addr e) -> m_ it = Some this ->
  ⊢ imap_at this a ne seed bs idx tb -∗
    (∀ r, ⟨valid_at this bs e r⟩ -∗ imap_at this a ne seed bs idx tb -∗ Q r) -∗
    wpm (k ← key_at (addr e); r ← FindHelper this k;
         let b := bucket_index_ (fst (fst r)) in
         is_list ← TableEntryIsList tb b; mret (is_list, It (node_ it) (m_ it) b, snd r)) Q.
Proof.
  iIntros (He Hnode Hm) "Hi HQ". rw Hnode Hm. iDestruct (imap_open with "Hi") as "(Hm & Ht & Hb & %Hok & %Htab)".
  pose proof (proj1 (elem_entries _ _) He) as (j & b & Hj & Hin).
  apply list_elem_of_split in Hin as (m1 & m2 & Hm12).
  iDestruct (buckets_acc_same _ _ _ _ Hj with "Hb") as "[Hb Hrest]".
  iDestruct (bucket_acc _ _ _ _ _ Hm12 with "Hb") as "[He Hb]".
  wbind. iApply (wpm_node_key with "He"). iIntros "He".
  iDestruct ("Hb" with "He") as "Hb". iDestruct ("Hrest" with "Hb") as "Hb".
  wbind. iApply (wpm_FindHelper with "[Hm Ht Hb]"); [by iFrame|]. iIntros (r (j' & b' & Ej & Hj' & _ & Hr)) "Hi".
  destruct (lookup_key (ekey e) (bucket_entries b')) as [x|] eqn:Ex.
  2:{ destruct Hr as [Hr _]. exfalso. apply Hr, list_elem_of_fmap. eauto. }
  apply lookup_key_Some in Ex as [Hx Hk].
  assert (x = e) as ->. { apply (keys_inj _ _ _ _ _ Hok); [|done|done]. apply elem_entries. eauto. }
  subst r. cbn [fst snd bucket_index_].
  iDestruct "Hi" as "(Hm & Ht & Hb & _)".
  wbind. iApply (wpm_TableEntryIsList with "Ht"); [done|exact Hj'|]. iIntros "Ht".
  iApply wpm_ret. iApply "HQ"; [|by iFrame]. iPureIntro. by exists j', b'.
Qed.

Lemma wpm_revalidate this a ne seed bs idx tb e (z : Z) (Q : bool * iterator * option Z -> hM K T) :
  e ∈ entries bs ->
  ⊢ imap_at this a ne seed bs idx tb -∗
    (∀ r, ⟨valid_at this bs e r⟩ -∗ imap_at this a ne seed bs idx tb -∗ Q r) -∗
    wpm (revalidate_if_necessary (It (Some (addr e)) (Some this) z)) Q.
Proof.
  iIntros (He) "Hi HQ". iDestruct (imap_open with "Hi") as "(Hm & Ht & Hb & %Hok & %Htab)".
  pose proof (proj1 (elem_entries _ _) He) as (j & b & Hj & Hin).
  pose proof (im_pow2 _ _ _ Hok) as Hn. pose proof (pow2_bounds _ Hn).
  wbind. iApply wpm_dcheck; [done|]. wbind. iApply wpm_deref. wbind. iApply wpm_deref.
  wbind. iApply (wpm_inner_at with "Hm"). iIntros "Hm". cbn [bucket_index_ num_buckets_ table_ node_ m_].
  pose proof (Z.mod_pos_bound z (Z.of_nat (length bs)) ltac:(lia)) as Hmod. rw land_pow2; [|done].
  rewrite <- (Z2Nat.id (z mod _)) by lia. set (i := Z.to_nat (z mod _)) in *.
  destruct (lookup_lt_is_Some_2 bs i) as [b0 Hb0]; [lia|].
  assert (i = j -> is_tree b = false -> valid_at this bs e (true, It (Some (addr e)) (Some this) (Z.of_nat i), None)) as Hlist.
  { intros -> Hb. exists j, b. rw Hb. by split_and!. }
  wbind. iApply (wpm_bucket_slot with "Ht"); [exact Hb0|]. iIntros "Ht". case_decide as Hslot.
  { destruct (slot_entry _ _ _ _ _ _ Htab Hb0 Hj Hin Hslot) as [Hij Hb].
    iApply wpm_ret. iApply "HQ"; [by iPureIntro; apply Hlist|by iFrame]. }
  wbind. iApply (wpm_TableEntryIsNonEmptyList with "Ht"); [done|exact Hb0|]. iIntros "Ht". wbind.
  destruct b0 as [[|x l]|t l|t]; cbn [is_list].
  2:{ wbind. iApply wpm_deref. iDestruct (buckets_acc_same _ _ _ _ Hb0 with "Hb") as "[[Hx Hl] Hb]".
      wbind. iApply (wpm_next_at with "Hx"). iIntros "Hx".
      wbind. iApply (chain_fuel with "Hl"). iIntros (fuel Hf) "Hl".
      iApply (wpm_in_list with "Hl"); [done|]. iIntros "Hl". iDestruct ("Hb" with "[$Hx $Hl]") as "Hb".
      case_bool_decide as Hmem.
      - assert (i = j) as Hij.
        { eapply separate_index; [apply Htab|exact Hb0|exact Hj| |by apply entry_addr]. simpl. by right. }
        iApply wpm_ret. iApply "HQ"; [|by iFrame]. iPureIntro. apply Hlist; [done|].
        by assert (b = BList (x :: l)) as -> by congruence.
      - iApply (wpm_revalidate_key _ _ _ _ _ _ _ _ (It (Some (addr e)) (Some this) z) with "[Hm Ht Hb]"); [done|done|done|by iFrame|done]. }
  all: iApply wpm_ret; iApply (wpm_revalidate_key _ _ _ _ _ _ _ _ (It (Some (addr e)) (Some this) z) with "[Hm Ht Hb]"); [done|done|done|by iFrame|done].
Qed.

Lemma valid_at_eq this bs e r j b :
  table_ok bs -> bs !! j = Some b -> e ∈ bucket_entries b -> valid_at this bs e r ->
  r = (negb (is_tree b), It (Some (addr e)) (Some this) (Z.of_nat j), if is_tree b then Some (addr e) else None).
Proof.
  intros Hok Hb He (j' & b' & Hb' & He' & ->).
  assert (j' = j) as ->; [|by assert (b' = b) as -> by congruence].
  eapply separate_index; [apply Hok|exact Hb'|exact Hb|by apply entry_addr|by apply entry_addr].
Qed.

(** The end of a list: on to the next bucket. *)
Lemma wpm_leave_list this a ne seed bs idx tb j l (Q : iterator -> hM K T) :
  bs !! j = Some (BList l) ->
  ⊢ imap_at this a ne seed bs idx tb -∗
    (∀ z, imap_at this a ne seed bs idx tb -∗ Q (It (addr <$> head (entries (drop (S j) bs))) (Some this) z)) -∗
    wpm (SearchFrom this (u64 (Z.of_nat j + 1))) Q.
Proof.
  iIntros (Hj) "Hi HQ". iDestruct "Hi" as "(Hm & Ht & Hb & %Hok)".
  pose proof (pow2_bounds _ (im_pow2 _ _ _ Hok)). pose proof (lookup_lt_Some _ _ _ Hj).
  rw u64_small; [|lia]. replace (Z.of_nat j + 1) with (Z.of_nat (S j)) by lia.
  iApply (wpm_SearchFrom with "[Hm Ht Hb]"); [|by iFrame|iExact "HQ"].
  intros t Ht. destruct (im_kinds _ _ _ Hok _ _ Ht) as (_ & l' & Hl'). simpl in Hl'. congruence.
Qed.
(** The end of a tree: behind the pair of buckets. *)
Lemma wpm_leave_tree this a ne seed bs idx tb j t l (Q : iterator -> hM K T) :
  bs !! j = Some (BTree t l) ->
  ⊢ imap_at this a ne seed bs idx tb -∗
    (∀ z, imap_at this a ne seed bs idx tb -∗ Q (It (addr <$> head (entries (drop (S j) bs))) (Some this) z)) -∗
    wpm (SearchFrom this (u64 (Z.of_nat j + 2))) Q.
Proof.
  iIntros (Hj) "Hi HQ". iDestruct "Hi" as "(Hm & Ht & Hb & %Hok)".
  pose proof (pow2_bounds _ (im_pow2 _ _ _ Hok)). pose proof (lookup_lt_Some _ _ _ Hj).
  destruct (im_kinds _ _ _ Hok _ _ Hj) as (Hev & Hs & _). rw (entries_drop _ _ _ Hs).
  rw u64_small; [|lia]. replace (Z.of_nat j + 2) with (Z.of_nat (S (S j))) by lia.
  iApply (wpm_SearchFrom with "[Hm Ht Hb]"); [|by iFrame|iExact "HQ"].
  intros t' Ht. destruct (im_kinds _ _ _ Hok _ _ Ht) as (Hodd & _). by rw !even_S Hev in Hodd.
Qed.

(** [operator++]: the next entry, whatever bucket the iterator believed. *)
Lemma wpm_incr_at this a ne seed bs idx tb l1 e l2 (z : Z) (Q : iterator -> hM K T) :
  entries bs = l1 ++ e :: l2 ->
  ⊢ imap_at this a ne seed bs idx tb -∗
    (∀ z', imap_at this a ne seed bs idx tb -∗ Q (It (addr <$> head l2) (Some this) z')) -∗
    wpm (incr (It (Some (addr e)) (Some this) z)) Q.
Proof.
  iIntros (Hes) "Hi HQ". iDestruct (imap_open with "Hi") as "(Hm & Ht & Hb & %Hok & %Htab)".
  assert (e ∈ entries bs) as He by (rw Hes; apply elem_of_app; right; left).
  pose proof (proj1 (elem_entries _ _) He) as (j & b & Hj & Hin).
  pose proof Hin as (m1 & m2 & Hm12)%list_elem_of_split.
  destruct (entries_behind _ _ _ _ _ _ _ _ _ _ Hok Hj Hm12 Hes) as [_ ->].
  iDestruct (buckets_acc_same _ _ _ _ Hj with "Hb") as "[Hb Hrest]".
  iDestruct (bucket_acc _ _ _ _ _ Hm12 with "Hb") as "[Hnode Hb]".
  wbind. iApply wpm_deref. wbind. iApply (wpm_next_at with "Hnode"). iIntros "Hnode".
  iDestruct ("Hb" with "Hnode") as "Hb". iDestruct ("Hrest" with "Hb") as "Hb".
  destruct (is_tree b) eqn:Etree; [|destruct m2 as [|x m2]].
  3:{ iApply wpm_ret. iApply "HQ". by iFrame. }
  all: wbind; iApply (wpm_revalidate with "[Hm Ht Hb]"); [exact He|by iFrame|];
    iIntros (r Hr) "Hi"; rw (valid_at_eq _ _ _ _ _ _ Htab Hj Hin Hr); rw Etree; cbn [negb];
    wbind; iApply wpm_deref.
  - destruct b as [l|t l|t]; [done| |by apply not_elem_of_nil in Hin]. simpl in Hm12.
    pose proof (im_kinds _ _ _ Hok _ _ Hj) as [Hev _]. cbn [bucket_index_ m_].
    wbind. iApply wpm_dcheck.
    { change 1 with (Z.ones 1). rw Z.land_ones; [|lia]. rw even_mod in Hev. by apply bool_decide_eq_true in Hev. }
    iDestruct "Hi" as "(Hm & Ht & Hb & _)". wbind. iApply (wpm_inner_at with "Hm"). iIntros "Hm". cbn [table_].
    wbind. iApply (wpm_bucket_slot with "Ht"); [exact Hj|]. iIntros "Ht". simpl.
    wbind. iApply wpm_deref. wbind. iApply wpm_deref.
    iDestruct (buckets_acc_same _ _ _ _ Hj with "Hb") as "[[Hr Hl] Hb]".
    pose proof (separate_nodup _ _ _ (ok_separate _ Htab) Hj) as Hnd. simpl in Hnd. rewrite -> Hm12 in *.
    apply NoDup_cons in Hnd as [_ Hnd]. rw fmap_app in Hnd. apply NoDup_app in Hnd as (_ & Hnd & _).
    wbind. iApply (wpm_tree_next with "Hr"); [intros Ha; apply (Hnd _ Ha); left|]. iIntros "Hr".
    iDestruct ("Hb" with "[$Hr $Hl]") as "Hb".
    destruct m2 as [|x m2]; simpl.
    + iApply (wpm_leave_tree with "[Hm Ht Hb] HQ"); [exact Hj|by iFrame].
    + iApply wpm_ret. iApply "HQ". by iFrame.
  - destruct b as [l|t l|t]; [|done|done]. iApply (wpm_leave_list with "Hi HQ"). exact Hj.
Qed.
End iter.
