(* ===== verification/MapInsert.v ===== *)
(** * Hash maps: insertion

    [InsertUnique] adds a node to the bucket of its key: in front of a list, or to a
    tree, when need be after the two lists of a pair of buckets have become a tree. *)
From Stdlib Require Import ZArith Lia Sorting.Sorted.
From stdpp Require Import base tactics option list list_numbers gmap.
From iris.bi Require Import bi big_op.
From iris.proofmode Require Import proofmode.
From S2P Require Import Prelude Bits HeapLogic InnerMap MapLogic MapBuckets MapTree MapKeys MapFind MapIter.

(** ** Changes of the table *)

Section updates.
  Context {K : Type} `{HashKey K} `{!KeyLaws K}.
  Implicit Types (b : bucket K) (bs : list (bucket K)) (e : entry K) (l : list (entry K)).
  Implicit Types (i j idx : nat) (seed t : Z).

(** The invariant without the index of the first bucket. *)
Record imap_core seed bs : Prop := {
  co_pow2 : pow2 (length bs);
  co_kinds : kinds bs;
  co_placed : placed seed bs;
  co_keys : NoDup (ekey <$> entries bs);
}.
Lemma imap_ok_core seed bs idx : imap_ok seed bs idx -> imap_core seed bs.
Proof. by intros [? ? ? ?]. Qed.
Lemma imap_ok_intro seed bs idx : imap_core seed bs -> index_ok bs idx -> imap_ok seed bs idx.
Proof. by intros [? ? ? ?]. Qed.

Lemma lookup_insert_cases bs i j b b' :
  <[i := b']> bs !! j = Some b -> (i = j /\ b = b') \/ (i <> j /\ bs !! j = Some b).
Proof. rw list_lookup_insert_Some. naive_solver. Qed.

(** A bucket gets other entries, but stays a list or a tree. *)
Definition same_kind b b' : Prop :=
  match b, b' with
  | BList _, BList l => (length l <= 8)%nat
  | BTree t _, BTree t' l => t' = t /\ l <> [] /\ sorted l
  | _, _ => False
  end.
Lemma same_kind_tree b b' : same_kind b b' -> is_tree b' = is_tree b.
Proof. destruct b, b'; naive_solver. Qed.

Lemma kinds_insert bs i b b' : kinds bs -> bs !! i = Some b -> same_kind b b' -> kinds (<[i := b']> bs).
Proof.
  intros Hk Hb Hs j x Hx. pose proof (lookup_lt_Some _ _ _ Hb) as Hlt.
  apply lookup_insert_cases in Hx as [[<- ->]|[Hne Hx]].
  - pose proof (Hk _ _ Hb) as Ok. destruct b as [l|t l|t], b' as [l'|t' l'|t']; try done.
    destruct Hs as (-> & Hne & Hs), Ok as (Hev & Hsh & _). split_and!; [done| |done|done].
    rw list_lookup_insert_ne; [done|lia].
  - pose proof (Hk _ _ Hx) as Ok. destruct x as [l|t l|t]; [done| |].
    + destruct Ok as (Hev & Hsh & Hrest). split_and!; [done| |by destruct Hrest..].
      rw list_lookup_insert_ne; [done|]. intros ->. rw Hb in Hsh. injection Hsh as ->. by destruct b'.
    + destruct Ok as (Hodd & l & Hl). split; [done|]. destruct (decide (i = pred j)) as [->|].
      * rw Hb in Hl. injection Hl as ->. destruct b' as [|t' l'|]; [done| |done]. destruct Hs as (-> & _).
        exists l'. by rw list_lookup_insert_eq.
      * exists l. by rw list_lookup_insert_ne.
Qed.

Lemma placed_insert seed bs i b' :
  placed seed bs ->
  (forall e, e ∈ bucket_entries b' -> place (length bs) seed (ekey e) = i \/
             (is_tree b' = true /\ place (length bs) seed (ekey e) = S i)) ->
  placed seed (<[i := b']> bs).
Proof.
  intros Hp Hb' j x e Hx He. rw length_insert.
  apply lookup_insert_cases in Hx as [[<- ->]|[Hne Hx]]; [by apply Hb'|by eapply Hp].
Qed.

Lemma entries_insert_add bs i b b' e :
  bs !! i = Some b -> bucket_entries b' ≡ₚ e :: bucket_entries b -> entries (<[i := b']> bs) ≡ₚ e :: entries bs.
Proof.
  intros Hb Hp. rw entries_insert; [|by eapply lookup_lt_Some]. rw (entries_split _ _ _ Hb) Hp.
  by rw -app_comm_cons -Permutation_middle.
Qed.
Lemma keys_add bs es e :
  NoDup (ekey <$> entries bs) -> ekey e ∉ ekey <$> entries bs -> es ≡ₚ e :: entries bs -> NoDup (ekey <$> es).
Proof. intros Hnd He ->. by apply NoDup_cons. Qed.

(** One more entry in a bucket of the same kind. *)
Lemma core_add seed bs i b b' e :
  imap_core seed bs -> bs !! i = Some b -> same_kind b b' -> bucket_entries b' ≡ₚ e :: bucket_entries b ->
  ekey e ∉ ekey <$> entries bs ->
  place (length bs) seed (ekey e) = i \/ (is_tree b = true /\ place (length bs) seed (ekey e) = S i) ->
  imap_core seed (<[i := b']> bs).
Proof.
  intros Hc Hb Hs Hp He Hpl. split.
  - rw length_insert. apply Hc.
  - eapply kinds_insert; [apply Hc|exact Hb|exact Hs].
  - apply placed_insert; [apply Hc|]. intros x Hx. rw (same_kind_tree _ _ Hs).
    rewrite -> Hp in Hx. apply elem_of_cons in Hx as [->|Hx]; [done|]. by eapply Hc.
  - eapply keys_add; [apply Hc|exact He|by eapply entries_insert_add].
Qed.

(** A bucket that is not empty (any more). *)
Lemma index_set bs i b' idx :
  index_ok bs idx -> (i < length bs)%nat -> bucket_slot b' <> None -> index_ok (<[i := b']> bs) (Nat.min idx i).
Proof.
  intros (Hle & Hnull & Hnn) Hi Hb'. split_and!.
  - rw length_insert. lia.
  - intros j Hj. rw list_lookup_insert_ne; [|lia]. apply Hnull. lia.
  - intros x Hx. apply lookup_insert_cases in Hx as [[_ ->]|[Hne Hx]]; [done|].
    rw Nat.min_l in Hx; [by apply Hnn|]. destruct (decide (idx <= i)%nat); [done|].
    rw Nat.min_r in Hne; lia.
Qed.
(** Nothing before the first bucket changes. *)
Lemma index_after bs i b idx : index_ok bs idx -> bs !! i = Some b -> bucket_slot b <> None -> (idx <= i)%nat.
Proof.
  intros (_ & Hnull & _) Hb Hs. destruct (decide (idx <= i)%nat); [done|].
  rw Hnull in Hb; [|lia]. by injection Hb as <-.
Qed.
Lemma index_same bs i b b' idx :
  index_ok bs idx -> bs !! i = Some b -> bucket_slot b <> None -> bucket_slot b' <> None ->
  index_ok (<[i := b']> bs) idx.
Proof.
  intros Hi Hb Hs Hs'. pose proof (index_after _ _ _ _ Hi Hb Hs) as Hle.
  rewrite <- (Nat.min_l idx i) by done. by apply index_set; [|eapply lookup_lt_Some|].
Qed.

(** *** Both buckets of a pair change *)

Definition set_pair bs j b1 b2 : list (bucket K) := <[j := b1]> (<[S j := b2]> bs).
Definition pair_ok b1 b2 : Prop :=
  match b1, b2 with
  | BList l1, BList l2 => (length l1 <= 8)%nat /\ (length l2 <= 8)%nat
  | BTree t l, BShared t' => t' = t /\ l <> [] /\ sorted l
  | _, _ => False
  end.
(** A pair of lists becomes a tree. *)
Definition convert bs j t l : list (bucket K) := set_pair bs j (BTree t l) (BShared t).

Lemma entries_pair bs j b1 b2 :
  bs !! j = Some b1 -> bs !! S j = Some b2 ->
  entries bs = entries (take j bs) ++ bucket_entries b1 ++ bucket_entries b2 ++ entries (drop (S (S j)) bs).
Proof. intros H1 H2. by rw (entries_split _ _ _ H1) (entries_drop _ _ _ H2). Qed.

Lemma lookup_set_pair bs j b1 b2 i :
  (S j < length bs)%nat ->
  set_pair bs j b1 b2 !! i = if decide (i = j) then Some b1 else if decide (i = S j) then Some b2 else bs !! i.
Proof.
  intros Hlt. unfold set_pair. destruct (decide (i = j)) as [->|].
  { rw list_lookup_insert_eq; [done|]. rw length_insert. lia. }
  rw list_lookup_insert_ne; [|done]. destruct (decide (i = S j)) as [->|].
  - by rw list_lookup_insert_eq.
  - by rw list_lookup_insert_ne.
Qed.
Lemma lookup_convert bs j t l i :
  (S j < length bs)%nat ->
  convert bs j t l !! i = if decide (i = j) then Some (BTree t l) else if decide (i = S j) then Some (BShared t) else bs !! i.
Proof. apply lookup_set_pair. Qed.
Lemma length_set_pair bs j b1 b2 : length (set_pair bs j b1 b2) = length bs.
Proof. unfold set_pair. by rw !length_insert. Qed.
Lemma entries_set_pair bs j b1 b2 :
  (S j < length bs)%nat ->
  entries (set_pair bs j b1 b2) =
  entries (take j bs) ++ bucket_entries b1 ++ bucket_entries b2 ++ entries (drop (S (S j)) bs).
Proof.
  intros Hlt. rw (entries_pair (set_pair bs j b1 b2) j b1 b2).
  - unfold set_pair. rw take_insert_ge; [|lia]. rw take_insert_ge; [|lia].
    rw drop_insert_lt; [|lia]. by rw drop_insert_lt; [|lia].
  - rw lookup_set_pair; [|done]. by rw decide_True.
  - rw lookup_set_pair; [|done]. rw decide_False; [|lia]. by rw decide_True.
Qed.

Lemma entries_convert bs j t l l1 l2 :
  bs !! j = Some (BList l1) -> bs !! S j = Some (BList l2) -> l ≡ₚ l1 ++ l2 ->
  entries (convert bs j t l) ≡ₚ entries bs.
Proof.
  intros H1 H2 Hl. pose proof (lookup_lt_Some _ _ _ H2). rw (entries_pair _ _ _ _ H1 H2).
  unfold convert. rw entries_set_pair; [|done]. simpl. by rw Hl -!app_assoc.
Qed.

Lemma kinds_set_pair bs j b1 b2 :
  kinds bs -> (S j < length bs)%nat -> Nat.even j = true -> pair_ok b1 b2 -> kinds (set_pair bs j b1 b2).
Proof.
  intros Hk Hlt Hev Hp i b. rw lookup_set_pair; [|done]. repeat case_decide; subst.
  - intros [= <-]. destruct b1 as [l1|t l|t], b2 as [l2|t' l2|t']; try done; [apply Hp|].
    destruct Hp as (-> & Hne & Hs). split_and!; [done| |done|done]. rw lookup_set_pair; [|done].
    rw decide_False; [|lia]. by rw decide_True.
  - intros [= <-]. destruct b1 as [l1|t l|t], b2 as [l2|t' l2|t']; try done; [apply Hp|].
    destruct Hp as (-> & Hne & Hs). split; [by rw even_S Hev|]. exists l. rw lookup_set_pair; [|done]. by rw decide_True.
  - intros Hb. pose proof (Hk _ _ Hb) as Ok. destruct b as [l'|t' l'|t']; [done| |].
    + destruct Ok as (Hev' & Hsh & Hrest). split_and!; [done| |by destruct Hrest..].
      rw lookup_set_pair; [|done]. rw decide_False; [by rw decide_False; [|congruence]|].
      intros <-. by rw even_S Hev' in Hev.
    + destruct Ok as (Hodd & l' & Hl'). split; [done|]. exists l'. rw lookup_set_pair; [|done].
      destruct i as [|i]; [done|]. cbn [pred] in *. rw decide_False; [|congruence].
      rw decide_False; [done|]. intros ->. by rw !even_S Hev in Hodd.
Qed.

Lemma core_convert seed bs j t l l1 l2 :
  imap_core seed bs -> bs !! j = Some (BList l1) -> bs !! S j = Some (BList l2) -> Nat.even j = true ->
  l ≡ₚ l1 ++ l2 -> sorted l -> l <> [] -> imap_core seed (convert bs j t l).
Proof.
  intros Hc H1 H2 Hev Hl Hs Hne. pose proof (lookup_lt_Some _ _ _ H2) as Hlt.
  assert (length (convert bs j t l) = length bs) as Hlen by apply length_set_pair.
  split.
  - rw Hlen. apply Hc.
  - apply kinds_set_pair; [apply Hc|done|done|by split_and!].
  - intros i b e. rw Hlen lookup_convert; [|done]. repeat case_decide; subst; [| |apply Hc].
    + intros [= <-] He. simpl in He. rewrite -> Hl in He. apply elem_of_app in He as [He|He].
      * left. destruct (co_placed _ _ Hc _ _ _ H1 He) as [?|[? ?]]; done.
      * right. split; [done|]. destruct (co_placed _ _ Hc _ _ _ H2 He) as [?|[? ?]]; done.
    + intros [= <-] ?%not_elem_of_nil. done.
  - rw (entries_convert _ _ _ _ _ _ H1 H2 Hl). apply Hc.
Qed.
Lemma index_convert bs j t l idx :
  index_ok bs idx -> (S j < length bs)%nat -> index_ok (convert bs j t l) (Nat.min idx j).
Proof.
  intros Hi Hlt. unfold convert, set_pair. replace (Nat.min idx j) with (Nat.min (Nat.min idx (S j)) j) by lia.
  apply index_set; [by apply index_set|rw length_insert; lia|done].
Qed.
End updates.

(** ** The helpers of [InsertUnique] *)

Section insert.
  Context {K T : Type} `{HashKey K} `{!KeyLaws K}.
  Implicit Types (b : bucket K) (bs : list (bucket K)) (e : entry K) (l : list (entry K)).
  Implicit Types (i j idx fuel : nat) (k : K) (seed this tb ne t : Z) (a nx : option Z).

(** The two objects of a hash table, and its buckets; no invariant. *)
Definition raw_at this a ne seed bs idx tb : hM K T :=
  (this ↦{a} CInner (IM ne (Z.of_nat (length bs)) seed (Z.of_nat idx) tb a) ∗ table_own a tb bs ∗
   buckets_own a bs)%I.

Lemma imap_raw this a ne seed bs idx tb :
  imap_at this a ne seed bs idx tb ⊢ raw_at this a ne seed bs idx tb ∗ ⟨imap_ok seed bs idx /\ table_ok bs⟩.
Proof. iIntros "Hi". iDestruct (imap_open with "Hi") as "(Hm & Ht & Hb & %Hok)". by iFrame. Qed.
Lemma raw_imap this a ne seed bs idx tb :
  imap_ok seed bs idx -> raw_at this a ne seed bs idx tb ⊢ imap_at this a ne seed bs idx tb.
Proof. iIntros (Hok) "(Hm & Ht & Hb)". by iFrame. Qed.

Lemma nodes_add a e l : node (T := T) a None e ∗ nodes a l ⊢ nodes a (tree_add e l).
Proof. unfold nodes. by rw tree_add_perm big_sepL_cons. Qed.

Lemma wpm_InsertUniqueInList this a ne seed bs idx tb i l nx e (Q : iterator -> hM K T) :
  bs !! i = Some (BList l) ->
  ⊢ raw_at this a ne seed bs idx tb -∗ node a nx e -∗
    (raw_at this a ne seed (<[i := BList (e :: l)]> bs) idx tb -∗
       Q (It (Some (addr e)) (Some this) (Z.of_nat i))) -∗
    wpm (InsertUniqueInList this (Z.of_nat i) (addr e)) Q.
Proof.
  iIntros (Hi) "(Hm & Ht & Hb) He HQ". wbind. iApply (wpm_inner_at with "Hm"). iIntros "Hm". cbn [table_].
  wbind. iApply (wpm_bucket_slot with "Ht"); [exact Hi|]. iIntros "Ht". simpl.
  wbind. iApply (wpm_set_next with "He"). iIntros "He".
  wbind. iApply (wpm_set_bucket a tb bs i (BList (e :: l)) with "Ht"); [by eapply lookup_lt_Some|]. iIntros "Ht".
  iApply wpm_ret. iApply "HQ". iDestruct (buckets_acc _ _ _ _ Hi with "Hb") as "[Hl Hb]".
  unfold raw_at. rw length_insert. iFrame "Hm Ht". iApply ("Hb" $! (BList (e :: l))). iFrame.
Qed.

Lemma set_same_slots bs j t l l' : bs !! j = Some (BTree t l) -> slots (<[j := BTree t l']> bs) = slots bs.
Proof.
  intros Hj. unfold slots. rw list_fmap_insert. apply list_insert_id. by rw list_lookup_fmap Hj.
Qed.

(** Both buckets of a pair lead to the tree. *)
Lemma tree_slots bs i t :
  table_ok bs -> (exists l, bs !! i = Some (BTree t l)) \/ bs !! i = Some (BShared t) ->
  slots bs !! i = Some (Some t) /\ slots bs !! mate i = Some (Some t) /\
  exists j l, j = lead i /\ bs !! j = Some (BTree t l).
Proof.
  intros Hok Hi. assert (exists b, bs !! i = Some b /\ bucket_slot b = Some t /\ is_tree b = true) as (b & Hb & Hs & Ht).
  { destruct Hi as [[l Hi]|Hi]; [by exists (BTree t l)|by exists (BShared t)]. }
  destruct (table_test _ _ _ Hok Hb) as (e' & He' & He & _ & Hr). rw Ht Hs in Hr. symmetry in Hr.
  apply andb_true_iff in Hr as [_ Hr]. apply bool_decide_eq_true in Hr. subst e'.
  split_and!; [by rw He Hs|done|]. unfold lead. destruct Hi as [[l Hi]|Hi].
  - destruct (ok_kinds _ Hok _ _ Hi) as [-> _]. by exists i, l.
  - destruct (ok_kinds _ Hok _ _ Hi) as [-> [l Hl]]. by exists (pred i), l.
Qed.

Lemma wpm_InsertUniqueInTree this a ne seed bs idx tb i j t l nx e (Q : iterator -> hM K T) :
  Z.of_nat i < 2 ^ 64 -> slots bs !! i = Some (Some t) -> slots bs !! mate i = Some (Some t) ->
  j = lead i -> bs !! j = Some (BTree t l) -> Nat.even j = true -> sorted l ->
  ekey e ∉ ekey <$> l ->
  ⊢ raw_at this a ne seed bs idx tb -∗ node a nx e -∗
    (raw_at this a ne seed (<[j := BTree t (tree_add e l)]> bs) idx tb -∗
       Q (It (Some (addr e)) (Some this) (Z.of_nat j))) -∗
    wpm (InsertUniqueInTree this (Z.of_nat i) (addr e)) Q.
Proof.
  iIntros (Hlt Hsi Hsm Ej Hj Hev Hs Hk) "(Hm & Ht & Hb) He HQ".
  wbind. iApply (wpm_inner_at with "Hm"). iIntros "Hm". cbn [table_].
  wbind. iApply (wpm_slot_at with "Ht"); [exact Hsi|]. iIntros "Ht".
  wbind. rw lxor_mate. iApply (wpm_slot_at with "Ht"); [exact Hsm|]. iIntros "Ht".
  wbind. iApply wpm_dcheck; [done|]. wbind. iApply (wpm_set_next with "He"). iIntros "He".
  wbind. iApply wpm_deref. iDestruct (buckets_acc _ _ _ _ Hj with "Hb") as "[[Hr Hl] Hb]".
  wbind. iApply (wpm_tree_insert with "Hr Hl He"); [done|done|]. iIntros "Hr Hl He".
  rw even_bucket_nat; [|done]. rw -Ej. wbind. iApply wpm_dcheck.
  { rw even_mod in Hev. by apply bool_decide_eq_true in Hev. }
  iApply wpm_ret. iApply "HQ". unfold raw_at, table_own.
  rw length_insert (set_same_slots _ _ _ _ _ Hj). iFrame "Hm Ht".
  iApply ("Hb" $! (BTree t (tree_add e l))). iFrame "Hr". iApply nodes_add. iFrame.
Qed.

Lemma wpm_CopyListToTree_loop a fuel l t ls count (Q : Z -> hM K T) :
  (length l < fuel)%nat -> NoDup (ekey <$> l ++ ls) -> sorted ls -> 0 <= count -> count + Z.of_nat (length l) < 2 ^ 64 ->
  ⊢ chain a l -∗ t ↦{a} CTree (addr <$> ls) -∗ nodes a ls -∗
    (∀ ls', ⟨ls' ≡ₚ l ++ ls /\ sorted ls'⟩ -∗ t ↦{a} CTree (addr <$> ls') -∗ nodes a ls' -∗
       Q (count + Z.of_nat (length l))) -∗
    wpm (CopyListToTree_loop fuel (addr <$> head l) t count) Q.
Proof.
  revert l ls count. induction fuel as [|fuel IH]; intros l ls count Hf Hnd Hs Hc Hb; [lia|].
  iIntros "Hl Ht Hls HQ". destruct l as [|e l]; cbn [CopyListToTree_loop head fmap option_fmap option_map].
  { iApply wpm_ret. rw Z.add_0_r. iApply ("HQ" with "[] Ht Hls"). by iPureIntro. }
  iDestruct "Hl" as "[He Hl]". simpl in Hf, Hb. rw -app_comm_cons fmap_cons in Hnd. apply NoDup_cons in Hnd as [Hin Hnd].
  rw fmap_app in Hin. apply not_elem_of_app in Hin as [Hin Hin'].
  wbind. iApply (wpm_tree_insert with "Ht Hls He"); [done|done|]. iIntros "Ht Hls He".
  wbind. iApply (wpm_next_at with "He"). iIntros "He".
  wbind. iApply (wpm_set_next with "He"). iIntros "He". rw u64_small; [|lia].
  iDestruct (nodes_add a e ls with "[$He $Hls]") as "Hls".
  iApply (IH with "Hl Ht Hls"); [lia| |by apply tree_add_sorted|lia|lia|].
  { rw tree_add_perm -Permutation_middle fmap_cons. apply NoDup_cons. split; [|done].
    rw fmap_app. by apply not_elem_of_app. }
  iIntros (ls' [Hp Hs']) "Ht Hls". replace (count + Z.of_nat (length (e :: l))) with (count + 1 + Z.of_nat (length l)) by (simpl; lia).
  iApply ("HQ" with "[] Ht Hls"). iPureIntro. split; [|done]. rw Hp tree_add_perm. by rw -Permutation_middle.
Qed.

Lemma wpm_CopyListToTree this a ne n seed idx tb bs i l t ls (Q : Z -> hM K T) :
  bs !! i = Some (BList l) -> NoDup (ekey <$> l ++ ls) -> sorted ls -> (length l <= 8)%nat ->
  ⊢ this ↦{a} CInner (IM ne n seed idx tb a) -∗ table_own a tb bs -∗
    chain a l -∗ t ↦{a} CTree (addr <$> ls) -∗ nodes a ls -∗
    (∀ ls', ⟨ls' ≡ₚ l ++ ls /\ sorted ls'⟩ -∗ this ↦{a} CInner (IM ne n seed idx tb a) -∗ table_own a tb bs -∗
       t ↦{a} CTree (addr <$> ls') -∗ nodes a ls' -∗ Q (Z.of_nat (length l))) -∗
    wpm (CopyListToTree this (Z.of_nat i) t) Q.
Proof.
  iIntros (Hi Hnd Hs Hlen) "Hm Ht Hl Hr Hls HQ". wbind. iApply (wpm_inner_at with "Hm"). iIntros "Hm". cbn [table_].
  wbind. iApply (wpm_bucket_slot with "Ht"); [exact Hi|]. iIntros "Ht". simpl.
  wbind. iApply (chain_fuel with "Hl"). iIntros (fuel Hf) "Hl".
  iApply (wpm_CopyListToTree_loop with "Hl Hr Hls"); [done|done|done|lia|lia|].
  iIntros (ls' Hls') "Hr Hls". rw Z.add_0_l. by iApply ("HQ" with "[] Hm Ht Hr Hls").
Qed.

Lemma convert_empty bs i t l b1 b2 :
  (S (lead i) < length bs)%nat -> convert (<[mate i := b2]> (<[i := b1]> bs)) (lead i) t l = convert bs (lead i) t l.
Proof.
  intros Hlt. apply list_eq. intros x. rw !lookup_convert ?length_insert //.
  destruct (lead_cases i) as [[E1 E2]|[E1 E2]]; repeat case_decide; try done;
    (rw !list_lookup_insert_ne; [done|congruence|congruence]).
Qed.

Lemma slots_convert bs i t l :
  (S (lead i) < length bs)%nat -> <[i := Some t]> (<[mate i := Some t]> (slots bs)) = slots (convert bs (lead i) t l).
Proof.
  intros Hlt. unfold slots, convert, set_pair. rw !list_fmap_insert. simpl.
  destruct (lead_cases i) as [[<- ->]|[E ->]]; [done|]. rw {1}E. apply list_insert_insert_ne. lia.
Qed.

Lemma buckets_convert a bs i l1 l2 :
  bs !! i = Some (BList l1) -> bs !! mate i = Some (BList l2) ->
  buckets_own (T := T) a bs ⊢ chain a l1 ∗ chain a l2 ∗
    (∀ t l, t ↦{a} CTree (addr <$> l) -∗ nodes a l -∗ buckets_own a (convert bs (lead i) t l)).
Proof.
  iIntros (H1 H2) "Hb". pose proof (mate_ne i) as Hne.
  pose proof (lookup_lt_Some _ _ _ H1). pose proof (lookup_lt_Some _ _ _ H2).
  assert (S (lead i) < length bs)%nat as Hlt by (destruct (lead_cases i) as [[? ?]|[? ?]]; lia).
  iDestruct (buckets_acc _ _ _ _ H1 with "Hb") as "[$ Hb]". iDestruct ("Hb" $! (BList []) with "[//]") as "Hb".
  iDestruct (buckets_acc _ _ (mate i) (BList l2) with "Hb") as "[$ Hb]"; [by rw list_lookup_insert_ne|].
  iDestruct ("Hb" $! (BList []) with "[//]") as "Hb". iIntros (t l) "Hr Hl".
  rewrite <- (convert_empty bs i t l (BList []) (BList [])) by done.
  set (bs0 := <[mate i := BList []]> (<[i := BList []]> bs)).
  assert (length bs0 = length bs) as Hlen by (unfold bs0; by rw !length_insert).
  assert (bs0 !! lead i = Some (BList []) /\ bs0 !! S (lead i) = Some (BList [])) as [Hj HSj].
  { assert (bs0 !! i = Some (BList [])) as Hi.
    { unfold bs0. rw list_lookup_insert_ne; [|done]. by rw list_lookup_insert_eq. }
    assert (bs0 !! mate i = Some (BList [])) as Hmate.
    { unfold bs0. rw list_lookup_insert_eq; [done|by rw length_insert]. }
    destruct (lead_cases i) as [[E1 E2]|[E1 E2]]; split; congruence. }
  iDestruct (buckets_acc _ _ _ _ HSj with "Hb") as "[_ Hb]".
  iDestruct ("Hb" $! (BShared t) with "[//]") as "Hb".
  iDestruct (buckets_acc _ _ (lead i) (BList []) with "Hb") as "[_ Hb]"; [by rw list_lookup_insert_ne; [|lia]|].
  iApply ("Hb" $! (BTree t l)). iFrame.
Qed.

Lemma wpm_TreeConvert this a ne seed bs idx tb i l1 l2 (Q : unit -> hM K T) :
  table_ok bs -> bs !! i = Some (BList l1) -> bs !! mate i = Some (BList l2) -> NoDup (ekey <$> l1 ++ l2) ->
  ⊢ raw_at this a ne seed bs idx tb -∗
    (∀ t l, ⟨l ≡ₚ l1 ++ l2 /\ sorted l⟩ -∗ raw_at this a ne seed (convert bs (lead i) t l) idx tb -∗ Q tt) -∗
    wpm (TreeConvert this (Z.of_nat i)) Q.
Proof.
  iIntros (Hok H1 H2 Hnd) "(Hm & Ht & Hb) HQ". pose proof (ok_kinds _ Hok _ _ H1) as L1. pose proof (ok_kinds _ Hok _ _ H2) as L2.
  pose proof (lookup_lt_Some _ _ _ H1) as Hlt1. pose proof (lookup_lt_Some _ _ _ H2) as Hlt2.
  assert (S (lead i) < length bs)%nat as Hlt by (destruct (lead_cases i) as [[? ?]|[? ?]]; lia). simpl in L1, L2.
  wbind. iApply (wpm_inner_at with "Hm"). iIntros "Hm". cbn [table_ alloc_].
  wbind. iApply (wpm_TableEntryIsTree with "Ht"); [done|exact H1|]. iIntros "Ht".
  wbind. rw !lxor_mate. iApply (wpm_TableEntryIsTree with "Ht"); [done|exact H2|]. iIntros "Ht".
  wbind. iApply wpm_dcheck; [done|]. wbind. iApply wpm_new_cell. iIntros (t) "Hr".
  iAssert (∃ l, ⟨l = []⟩ ∗ t ↦{a} CTree (addr <$> l) ∗ nodes a l)%I with "[Hr]" as (l0) "(%El & Hr & Hl)".
  { iExists []. iSplitR; [done|]. iFrame "Hr". unfold nodes. simpl. iEmpIntro. }
  iDestruct (buckets_convert _ _ _ _ _ H1 H2 with "Hb") as "(Hc1 & Hc2 & Hb)".
  wbind. iApply (wpm_CopyListToTree with "Hm Ht Hc1 Hr Hl"); [exact H1| |subst l0; constructor|done|].
  { subst l0. rw app_nil_r. rw fmap_app in Hnd. by apply NoDup_app in Hnd as [? _]. }
  iIntros (ls1 [Hp1 Hs1]) "Hm Ht Hr Hl". rw El app_nil_r in Hp1.
  wbind. iApply (wpm_CopyListToTree with "Hm Ht Hc2 Hr Hl"); [exact H2| |done|done|].
  { by rw Hp1 (Permutation_app_comm l2 l1). }
  iIntros (ls2 [Hp2 Hs2]) "Hm Ht Hr Hl". wbind. iApply (wpm_tree_at with "Hr"). iIntros "Hr".
  wbind. iApply wpm_dcheck; [rw u64_small; [|lia]; rw length_fmap Hp2 Hp1 length_app; lia|].
  wbind. iApply (wpm_set_slot with "Ht"); [by rw length_fmap|]. iIntros "Ht".
  iApply (wpm_set_slot with "Ht"); [by rw length_insert length_fmap|]. iIntros "Ht".
  iApply ("HQ" $! t ls2 with "[]"); [iPureIntro; split; [rw Hp2 Hp1; apply Permutation_app_comm|done]|].
  assert (length (convert bs (lead i) t ls2) = length bs) as Hlen by apply length_set_pair.
  unfold raw_at, table_own. rw Hlen -(slots_convert _ _ _ _ Hlt). iFrame. iApply ("Hb" with "Hr Hl").
Qed.

Lemma wpm_list_length a fuel e l (count : Z) (Q : Z -> hM K T) :
  (length l < fuel)%nat -> 0 <= count -> count + 1 + Z.of_nat (length l) < 2 ^ 64 ->
  ⊢ chain a (e :: l) -∗ (chain a (e :: l) -∗ Q (count + 1 + Z.of_nat (length l))) -∗
    wpm (list_length fuel (addr e) count) Q.
Proof.
  revert e l count Q. induction fuel as [|fuel IH]; intros e l count Q Hf Hc Hb; [lia|].
  iIntros "[He Hl] HQ". cbn [list_length]. wbind. iApply (wpm_next_at with "He"). iIntros "He".
  rw u64_small; [|lia]. destruct l as [|x l]; simpl.
  - iApply wpm_ret. rw Z.add_0_r. iApply "HQ". iFrame.
  - simpl in Hf, Hb. iApply (IH with "Hl"); [lia|lia|lia|]. iIntros "Hl".
    replace (count + 1 + Z.of_nat (S (length l))) with (count + 1 + 1 + Z.of_nat (length l)) by lia.
    iApply "HQ". iFrame.
Qed.

Lemma wpm_TableEntryIsTooLong a tb bs i e l (Q : bool -> hM K T) :
  bs !! i = Some (BList (e :: l)) -> (length (e :: l) <= 8)%nat ->
  ⊢ table_own a tb bs -∗ buckets_own a bs -∗
    (table_own a tb bs -∗ buckets_own a bs -∗ Q (bool_decide (length (e :: l) = 8%nat))) -∗
    wpm (TableEntryIsTooLong tb (Z.of_nat i)) Q.
Proof.
  iIntros (Hi Hlen) "Ht Hb HQ". simpl in Hlen. wbind. iApply (wpm_bucket_slot with "Ht"); [exact Hi|]. iIntros "Ht". simpl.
  wbind. iApply wpm_deref. iDestruct (buckets_acc_same _ _ _ _ Hi with "Hb") as "[Hl Hb]".
  wbind. iApply (chain_fuel with "Hl"). iIntros (fuel Hf) "Hl". simpl in Hf.
  wbind. iApply (wpm_list_length with "Hl"); [lia|lia|lia|]. iIntros "Hl". iDestruct ("Hb" with "Hl") as "Hb".
  wbind. iApply wpm_dcheck; [unfold kMaxLength; lia|]. iApply wpm_ret.
  rw (bool_decide_ext (kMaxLength <= 0 + 1 + Z.of_nat (length l)) (length (e :: l) = 8%nat)); [|unfold kMaxLength; simpl; lia].
  iApply ("HQ" with "Ht Hb").
Qed.

(** ** [InsertUnique] *)

Lemma wpm_find_absent this a ne seed bs idx tb k (Q : iterator -> hM K T) :
  k ∉ ekey <$> entries bs ->
  ⊢ imap_at this a ne seed bs idx tb -∗ (imap_at this a ne seed bs idx tb -∗ Q end_) -∗ wpm (find this k) Q.
Proof.
  iIntros (Hk) "Hi HQ". wbind. iApply (wpm_FindHelper with "Hi"). iIntros (r (j & b & _ & Hj & _ & Hr)) "Hi".
  iApply wpm_ret. destruct (lookup_key k (bucket_entries b)) as [x|] eqn:Ex.
  - apply lookup_key_Some in Ex as [Hx <-]. exfalso. apply Hk, list_elem_of_fmap. exists x.
    split; [done|]. apply elem_entries. eauto.
  - destruct Hr as [_ ->]. by iApply "HQ".
Qed.

(** The index of the first bucket is corrected. *)
Lemma wpm_finish this a ne seed bs idx tb j (it : iterator) (Q : iterator -> hM K T) :
  imap_core seed bs -> index_ok bs (Nat.min idx j) -> bucket_index_ it = Z.of_nat j ->
  ⊢ raw_at this a ne seed bs idx tb -∗ (imap_at this a ne seed bs (Nat.min idx j) tb -∗ Q it) -∗
    wpm (m ← inner_at this; set_index this (Z.min (index_of_first_non_null_ m) (bucket_index_ it)) ;; mret it) Q.
Proof.
  iIntros (Hc Hi Hj) "(Hm & Ht & Hb) HQ". rw Hj. wbind. iApply (wpm_inner_at with "Hm"). iIntros "Hm".
  cbn [index_of_first_non_null_]. wbind. wbind. iApply (wpm_inner_at with "Hm"). iIntros "Hm". cbn.
  iApply (wpm_set_cell with "Hm"). iIntros "Hm". iApply wpm_ret. iApply "HQ".
  iApply raw_imap; [by apply imap_ok_intro|]. unfold raw_at. rw Nat2Z.inj_min. iFrame.
Qed.

(** A bucket where a key belongs is a list with the number of the key, or leads to the
    tree of the key. *)
Lemma belongs_list seed bs i k l :
  table_ok bs -> i = place (length bs) seed k \/ i = home bs (place (length bs) seed k) ->
  bs !! i = Some (BList l) -> i = place (length bs) seed k.
Proof.
  intros Hok [?|Hi] Hl; [done|]. unfold home in Hi.
  destruct (bs !! place (length bs) seed k) as [[l'|t l'|t]|] eqn:E; try done.
  destruct (ok_kinds _ Hok _ _ E) as (_ & l' & Hl'). rw -Hi in Hl'. congruence.
Qed.
Lemma belongs_tree seed bs i k t l :
  table_ok bs -> (place (length bs) seed k < length bs)%nat ->
  i = place (length bs) seed k \/ i = home bs (place (length bs) seed k) -> bs !! lead i = Some (BTree t l) ->
  place (length bs) seed k = lead i \/ place (length bs) seed k = S (lead i).
Proof.
  intros Hok Hlt Hi Hl. set (p := place (length bs) seed k) in *.
  assert (i = p \/ p = S i /\ Nat.even p = false) as [->|[-> Hodd]].
  { destruct Hi as [?|Hi]; [by left|]. unfold home in Hi. destruct (bs !! p) as [[l'|t' l'|t']|] eqn:E; try by left.
    destruct (ok_kinds _ Hok _ _ E) as (Hodd & _). right. destruct p as [|p]; [done|]. by simpl in Hi; subst i. }
  - destruct (lead_cases p) as [[? _]|[? _]]; auto.
  - rw even_S in Hodd. apply negb_false_iff in Hodd. unfold lead. rw Hodd. by right.
Qed.

Definition added (bs bs' : list (bucket K)) e : Prop := entries bs' ≡ₚ e :: entries bs /\ length bs' = length bs.

Lemma wpm_insert_in_tree this a ne seed bs idx tb i t nx e (Q : iterator -> hM K T) :
  imap_core seed bs -> table_ok bs -> ekey e ∉ ekey <$> entries bs ->
  i = place (length bs) seed (ekey e) \/ i = home bs (place (length bs) seed (ekey e)) ->
  (exists l, bs !! i = Some (BTree t l)) \/ bs !! i = Some (BShared t) ->
  ⊢ raw_at this a ne seed bs idx tb -∗ node a nx e -∗
    (∀ bs', ⟨added bs bs' e /\ imap_core seed bs' /\ (forall idx, index_ok bs idx -> index_ok bs' idx)⟩ -∗
       raw_at this a ne seed bs' idx tb -∗ Q (It (Some (addr e)) (Some this) (Z.of_nat (lead i)))) -∗
    wpm (InsertUniqueInTree this (Z.of_nat i) (addr e)) Q.
Proof.
  iIntros (Hc Hok Hk Hi Hb) "Hr He HQ". destruct (tree_slots _ _ _ Hok Hb) as (Hs1 & Hs2 & j & l & -> & Hj).
  pose proof (pow2_bounds _ (co_pow2 _ _ Hc)). destruct (co_kinds _ _ Hc _ _ Hj) as (Hev & _ & _ & Hs).
  pose proof (lookup_lt_Some _ _ _ Hs1) as Hlt. unfold slots in Hlt. rw length_fmap in Hlt.
  assert (ekey e ∉ ekey <$> l) as Hkl.
  { intros Hin. apply Hk. rw (entries_split _ _ _ Hj) !fmap_app. simpl. rw !elem_of_app. auto. }
  iApply (wpm_InsertUniqueInTree with "Hr He"); [lia|exact Hs1|exact Hs2|done|exact Hj|done|done|done|].
  iIntros "Hr". iApply ("HQ" with "[] Hr"). iPureIntro. split; [split|split].
  - eapply entries_insert_add; [exact Hj|apply tree_add_perm].
  - by rw length_insert.
  - eapply core_add; [done|exact Hj| |apply tree_add_perm|done|].
    + split_and!; [done| |by apply tree_add_sorted]. intros E. pose proof (tree_add_perm e l) as Hp. rw E in Hp.
      by apply Permutation_nil_cons in Hp.
    + destruct (belongs_tree _ _ _ _ _ _ Hok (place_lt _ _ _ (co_pow2 _ _ Hc)) Hi Hj); auto.
  - intros x Hx. by eapply index_same.
Qed.

(** A full list becomes a tree, with the other list of its pair, and takes the node. *)
Lemma wpm_convert_and_insert this a ne seed bs idx tb i l1 nx e (Q : iterator -> hM K T) :
  imap_core seed bs -> table_ok bs -> ekey e ∉ ekey <$> entries bs ->
  i = place (length bs) seed (ekey e) -> bs !! i = Some (BList l1) -> l1 <> [] ->
  ⊢ raw_at this a ne seed bs idx tb -∗ node a nx e -∗
    (∀ bs', ⟨added bs bs' e /\ imap_core seed bs' /\ (forall idx, index_ok bs idx -> index_ok bs' (Nat.min idx (lead i)))⟩ -∗
       raw_at this a ne seed bs' idx tb -∗ Q (It (Some (addr e)) (Some this) (Z.of_nat (lead i)))) -∗
    wpm (TreeConvert this (Z.of_nat i) ;; InsertUniqueInTree this (Z.of_nat i) (addr e)) Q.
Proof.
  iIntros (Hc Hok Hk Hi H1 Hne) "Hr He HQ". destruct (kinds_mate _ _ _ Hok H1) as (b2 & H2 & l2 & ->).
  assert (exists b1 b2 : list (entry K), b1 ++ b2 ≡ₚ l1 ++ l2 /\
    bs !! lead i = Some (BList b1) /\ bs !! S (lead i) = Some (BList b2)) as (b1 & b2 & Hb12 & Hl1 & Hl2).
  { destruct (lead_cases i) as [[E1 E2]|[E1 E2]].
    - exists l1, l2. rw -E1 in E2. rw -E1 -E2. by split_and!.
    - exists l2, l1. rw -E1 -E2. split_and!; [apply Permutation_app_comm|done|done]. }
  pose proof (lookup_lt_Some _ _ _ Hl2) as Hlt. wbind. iApply (wpm_TreeConvert with "Hr"); [done|exact H1|exact H2| |].
  { pose proof (co_keys _ _ Hc) as Hnd. rw (entries_pair _ _ _ _ Hl1 Hl2) !fmap_app !app_assoc in Hnd.
    apply NoDup_app in Hnd as [Hnd _]. rw -app_assoc in Hnd. apply NoDup_app in Hnd as (_ & _ & Hnd).
    rw -fmap_app in Hnd. by rw -Hb12. }
  iIntros (t l [Hp Hs]) "Hr". rw -Hb12 in Hp. set (bs' := convert bs (lead i) t l).
  assert (l <> []) as Hlne.
  { intros ->. apply Permutation_nil in Hp. rw Hp in Hb12. symmetry in Hb12. apply Permutation_nil_r in Hb12.
    by apply app_eq_nil in Hb12 as [-> _]. }
  assert (length bs' = length bs) as Hlen by apply length_set_pair.
  pose proof (core_convert _ _ _ t _ _ _ Hc Hl1 Hl2 (lead_even i) Hp Hs Hlne) as Hc'.
  pose proof (entries_convert _ _ t _ _ _ Hl1 Hl2 Hp) as He'.
  iAssert (raw_at this a ne seed bs' idx tb ∗ ⟨separate bs'⟩)%I with "[Hr]" as "[Hr %Hsep]".
  { iDestruct "Hr" as "(Hm & Ht & Hb)". iDestruct (buckets_separate with "Hb") as "[Hb %]". by iFrame. }
  assert (table_ok bs') as Hok' by (split; [apply pow2_even, Hc'|apply Hc'|done]).
  iApply (wpm_insert_in_tree _ _ _ _ _ _ _ _ t with "Hr He"); [done|done|by rw He'|left; by rw Hlen| |].
  { unfold bs'. rw lookup_convert; [|done]. destruct (lead_cases i) as [[E _]|[E _]].
    - left. exists l. by rw decide_True.
    - right. rw decide_False; [|lia]. by rw decide_True. }
  iIntros (bs2 ([Hp2 Hlen2] & Hc2 & Hidx)) "Hr". iApply ("HQ" with "[] Hr"). iPureIntro. split; [split|split].
  - by rw Hp2 He'.
  - by rw Hlen2.
  - done.
  - intros x Hx. apply Hidx. by apply index_convert.
Qed.

(** A list that is not full takes the node. *)
Lemma wpm_push this a ne seed bs idx tb i l nx e (Q : iterator -> hM K T) :
  imap_core seed bs -> ekey e ∉ ekey <$> entries bs -> i = place (length bs) seed (ekey e) ->
  bs !! i = Some (BList l) -> (length l < 8)%nat ->
  ⊢ raw_at this a ne seed bs idx tb -∗ node a nx e -∗
    (∀ bs', ⟨added bs bs' e /\ imap_core seed bs' /\ (forall idx, index_ok bs idx -> index_ok bs' (Nat.min idx i))⟩ -∗
       raw_at this a ne seed bs' idx tb -∗ Q (It (Some (addr e)) (Some this) (Z.of_nat i))) -∗
    wpm (InsertUniqueInList this (Z.of_nat i) (addr e)) Q.
Proof.
  iIntros (Hc Hk Hi Hl Hlen) "Hr He HQ". pose proof (lookup_lt_Some _ _ _ Hl) as Hlt.
  iApply (wpm_InsertUniqueInList with "Hr He"); [exact Hl|]. iIntros "Hr". iApply ("HQ" with "[] Hr").
  iPureIntro. split; [split|split].
  - by apply (entries_insert_add bs i (BList l) _ e Hl).
  - by rw length_insert.
  - apply (core_add seed bs i (BList l) _ e); [done|done|simpl; lia|done|done|by left].
  - intros x Hx. by apply index_set.
Qed.

(** A tree takes the node. *)
Lemma wpm_into_tree this a ne seed bs idx tb i b t nx e (m : stm (store K T) iterator) (Q : iterator -> hM K T) :
  imap_ok seed bs idx -> table_ok bs -> ekey e ∉ ekey <$> entries bs ->
  i = place (length bs) seed (ekey e) \/ i = home bs (place (length bs) seed (ekey e)) ->
  (exists l, bs !! i = Some (BTree t l)) \/ bs !! i = Some (BShared t) -> bs !! i = Some b -> is_list b = false ->
  ⊢ raw_at this a ne seed bs idx tb -∗ node a nx e -∗
    (∀ bs' idx' z, ⟨added bs bs' e⟩ -∗ imap_at this a ne seed bs' idx' tb -∗ Q (It (Some (addr e)) (Some this) z)) -∗
    wpm (list ← TableEntryIsNonEmptyList tb (Z.of_nat i);
         if list : bool then m else InsertUniqueInTree this (Z.of_nat i) (addr e)) Q.
Proof.
  iIntros (Hok Htab Hk Hi Ht Hb Hl) "Hr He HQ". iDestruct "Hr" as "(Hm & Ht & Hb)".
  wbind. iApply (wpm_TableEntryIsNonEmptyList with "Ht"); [done|exact Hb|]. iIntros "Ht". rw Hl.
  iApply (wpm_insert_in_tree with "[Hm Ht Hb] He"); [by eapply imap_ok_core|done|done|done|done|by iFrame|].
  iIntros (bs' (Hadd & Hc' & Hidx)) "Hr". iApply "HQ"; [done|]. iApply raw_imap; [|done].
  apply imap_ok_intro; [done|apply Hidx, Hok].
Qed.

Lemma wpm_InsertUnique this a ne seed bs idx tb i nx e (Q : iterator -> hM K T) :
  ekey e ∉ ekey <$> entries bs ->
  i = place (length bs) seed (ekey e) \/ i = home bs (place (length bs) seed (ekey e)) ->
  ⊢ imap_at this a ne seed bs idx tb -∗ node a nx e -∗
    (∀ bs' idx' z, ⟨added bs bs' e⟩ -∗ imap_at this a ne seed bs' idx' tb -∗
       Q (It (Some (addr e)) (Some this) z)) -∗
    wpm (InsertUnique this (Z.of_nat i) (addr e)) Q.
Proof.
  iIntros (Hk Hi) "Hmap He HQ". iDestruct (imap_raw with "Hmap") as "[(Hm & Ht & Hb) [%Hok %Htab]]".
  pose proof (imap_ok_core _ _ _ Hok) as Hc. pose proof (im_pow2 _ _ _ Hok) as Hpow. pose proof (pow2_bounds _ Hpow).
  assert (i < length bs)%nat as Hlt.
  { pose proof (place_lt _ seed (ekey e) Hpow) as Hp. destruct Hi as [->| ->]; [done|].
    unfold home. destruct (bs !! _) as [[| |]|]; lia. }
  destruct (lookup_lt_is_Some_2 _ _ Hlt) as [b Hbi].
  wbind. iApply (wpm_inner_at with "Hm"). iIntros "Hm".
  wbind. iApply (wpm_first_is_non_null with "Ht"); [apply Hok|]. iIntros "Ht".
  wbind. iApply (wpm_node_key with "He"). iIntros "He".
  wbind. iApply (wpm_find_absent with "[Hm Ht Hb]"); [exact Hk|by iFrame|]. iIntros "Hmap".
  wbind. iApply wpm_dcheck; [done|]. cbn [table_].
  iDestruct "Hmap" as "(Hm & Ht & Hb & _)".
  wbind. iApply (wpm_TableEntryIsEmpty with "Ht"); [exact Hbi|]. iIntros "Ht".
  destruct b as [[|x l]|t l|t]; cbn [bucket_slot head fmap option_fmap option_map].
  - rw (bool_decide_true (None = None)) //. pose proof (belongs_list _ _ _ _ _ Htab Hi Hbi) as Hip.
    wbind. iApply (wpm_push with "[Hm Ht Hb] He"); [done|done|done|exact Hbi|simpl; lia|by iFrame|].
    iIntros (bs' (Hadd & Hc' & Hidx)) "Hr". iApply (wpm_finish with "Hr"); [done|apply Hidx, Hok|done|].
    by iApply "HQ".
  - rw bool_decide_false //. wbind. iApply (wpm_TableEntryIsNonEmptyList with "Ht"); [done|exact Hbi|]. iIntros "Ht". cbn [is_list].
    pose proof (belongs_list _ _ _ _ _ Htab Hi Hbi) as Hip. pose proof (im_kinds _ _ _ Hok _ _ Hbi) as Hlen. cbn [kind_ok] in Hlen.
    wbind. iApply (wpm_TableEntryIsTooLong with "Ht Hb"); [exact Hbi|done|]. iIntros "Ht Hb".
    destruct (decide (length (x :: l) = 8%nat)) as [H8|H8].
    + rw (bool_decide_true _ H8). iApply (wpm_bind_assoc (TreeConvert this (Z.of_nat i)) (fun _ => InsertUniqueInTree this (Z.of_nat i) (addr e))).
      wbind. iApply (wpm_convert_and_insert with "[Hm Ht Hb] He"); [done|done|done|done|exact Hbi|done|by iFrame|].
      iIntros (bs' (Hadd & Hc' & Hidx)) "Hr".
      wbind. iApply wpm_dcheck; [cbn [bucket_index_]; rw even_bucket_nat; [done|lia]|].
      iApply (wpm_finish with "Hr"); [done|apply Hidx, Hok|done|]. by iApply "HQ".
    + rw (bool_decide_false _ H8). iApply (wpm_push with "[Hm Ht Hb] He"); [done|done|done|exact Hbi|lia|by iFrame|].
      iIntros (bs' (Hadd & Hc' & Hidx)) "Hr". iApply "HQ"; [done|]. iApply raw_imap; [|done].
      apply imap_ok_intro; [done|]. rewrite <- (Nat.min_l idx i); [apply Hidx, Hok|].
      eapply index_after; [apply Hok|exact Hbi|done].
  - iApply (wpm_into_tree with "[Hm Ht Hb] He HQ"); [done|done|done|done|left; by exists l|exact Hbi|done|by iFrame].
  - iApply (wpm_into_tree with "[Hm Ht Hb] He HQ"); [done|done|done|done|by right|exact Hbi|done|by iFrame].
Qed.
End insert.
