(* ===== verification/MapResize.v ===== *)
(** * Hash maps: resizing, and [insert]

    [Resize] moves the nodes of all buckets to a new table.  The load decides when:
    the number of buckets stays a power of two between 8 and 2^60.  [imap] owns a hash
    map with given entries, in the order of the iteration. *)
From Stdlib Require Import ZArith Lia Sorting.Sorted.
From stdpp Require Import base tactics option list list_numbers gmap.
From iris.bi Require Import bi big_op.
From iris.proofmode Require Import proofmode.
From S2P Require Import Prelude Bits HeapLogic InnerMap MapLogic MapBuckets MapTree MapKeys MapFind MapIter MapInsert.

Section empty.
  Context {K : Type} `{HashKey K}.
  Implicit Types (bs : list (bucket K)) (n idx : nat) (seed : Z).

Definition no_buckets n : list (bucket K) := replicate n (BList []).

Lemma no_buckets_ok n seed : pow2 n -> imap_ok seed (no_buckets n) n.
Proof.
  intros Hn. unfold no_buckets. split.
  - by rw length_replicate.
  - intros i b [-> _]%lookup_replicate. simpl. lia.
  - intros i b e [-> _]%lookup_replicate ?%not_elem_of_nil. done.
  - rw entries_replicate. constructor.
  - split_and!; [by rw length_replicate|..].
    + intros i Hi. by apply lookup_replicate_2.
    + intros b [_ ?]%lookup_replicate. lia.
Qed.
Lemma slots_no_buckets n : slots (no_buckets n) = replicate n None.
Proof. unfold slots, no_buckets. by rw fmap_replicate. Qed.

Lemma shr_pow2 n (s : Z) : pow2 n -> 0 <= s -> pow2 (Z.to_nat (Z.max 8 (Z.shiftr (Z.of_nat n) s))).
Proof.
  intros (x & Hx & ->) Hs. rw Z.shiftr_div_pow2; [|done]. exists (Z.max 3 (x - s)). split; [lia|].
  destruct (Z.le_gt_cases s x) as [Hle|Hgt].
  - replace (2 ^ x / 2 ^ s) with (2 ^ (x - s)) by (symmetry; rw -Z.pow_sub_r //; lia).
    assert (0 < 2 ^ (x - s)) by (apply Z.pow_pos_nonneg; lia).
    rw Z2Nat.id; [|lia]. destruct (Z.le_gt_cases 3 (x - s)).
    + rw (Z.max_r 3) //. apply Z.max_r. change 8 with (2 ^ 3). by apply Z.pow_le_mono_r.
    + rw (Z.max_l 3); [|lia]. apply Z.max_l. change 8 with (2 ^ 3). apply Z.pow_le_mono_r; lia.
  - rw Z.div_small; [|split; [apply Z.pow_nonneg|apply Z.pow_lt_mono_r]; lia].
    rw (Z.max_l 3); [|lia]. done.
Qed.
Lemma double_pow2 n : pow2 n -> Z.of_nat n <= 2 ^ 59 -> pow2 (2 * n).
Proof.
  intros (x & Hx & Hn) Hle. exists (x + 1). split.
  - rw Hn in Hle. apply Z.pow_le_mono_r_iff in Hle; lia.
  - rw Z.pow_add_r; [|lia|lia]. lia.
Qed.
End empty.

Ltac cbn_im := cbn [num_elements_ num_buckets_ seed_ index_of_first_non_null_ table_ alloc_].

Section resize.
  Context {K T : Type} `{HashKey K} `{!KeyLaws K}.
  Implicit Types (b : bucket K) (bs obs : list (bucket K)) (e : entry K) (l es : list (entry K)).
  Implicit Types (i j idx fuel n : nat) (k : K) (v : option Z) (seed this tb otb ne t : Z) (a : option Z).

Lemma wpm_CreateEmptyTable a n (Q : Z -> hM K T) :
  pow2 n -> (∀ tb, table_own a tb (no_buckets n) -∗ Q tb) ⊢ wpm (CreateEmptyTable a (Z.of_nat n)) Q.
Proof.
  iIntros (Hn) "HQ". pose proof (pow2_bounds _ Hn). wbind. iApply wpm_dcheck; [unfold kMinTableSize; lia|].
  wbind. iApply wpm_dcheck. { rw land_pow2; [|done]. by apply Z.mod_same; lia. }
  iApply wpm_new_cell. iIntros (tb) "Ht". iApply "HQ". unfold table_own. rw slots_no_buckets Nat2Z.id. iExact "Ht".
Qed.

(** [InsertUnique(BucketNumber(key), node)]. *)
Lemma wpm_rehash {A} this a ne seed bs idx tb nx e (rest : iterator -> stm (store K T) A) (Q : A -> hM K T) :
  ekey e ∉ ekey <$> entries bs ->
  ⊢ imap_at this a ne seed bs idx tb -∗ node a nx e -∗
    (∀ bs' idx' it, ⟨added bs bs' e⟩ -∗ imap_at this a ne seed bs' idx' tb -∗ wpm (rest it) Q) -∗
    wpm (k ← key_at (addr e); b ← BucketNumber this k; it ← InsertUnique this b (addr e); rest it) Q.
Proof.
  iIntros (Hk) "Hi He HQ". wbind. iApply (wpm_node_key with "He"). iIntros "He".
  iDestruct "Hi" as "(Hm & Ht & Hb & %Hok)".
  wbind. iApply (wpm_BucketNumber with "Hm"); [apply Hok|]. iIntros "Hm".
  wbind. iApply (wpm_InsertUnique with "[Hm Ht Hb] He"); [exact Hk|by left|by iFrame|].
  iIntros (bs' idx' z Hadd) "Hi". by iApply ("HQ" with "[] Hi").
Qed.

Lemma keys_next es e l : NoDup (ekey <$> (e :: l) ++ es) ->
  ekey e ∉ ekey <$> es /\ forall es', es' ≡ₚ e :: es -> NoDup (ekey <$> l ++ es').
Proof.
  rw -app_comm_cons fmap_cons. intros [He Hnd]%NoDup_cons. rw fmap_app not_elem_of_app in He. destruct He as [? ?].
  split; [done|]. intros es' ->. rw -Permutation_middle fmap_cons fmap_app.
  apply NoDup_cons. rw not_elem_of_app -fmap_app. done.
Qed.

Lemma wpm_TransferList_loop this a ne seed bs idx tb fuel e l (Q : unit -> hM K T) :
  (length l < fuel)%nat -> NoDup (ekey <$> (e :: l) ++ entries bs) ->
  ⊢ imap_at this a ne seed bs idx tb -∗ chain a (e :: l) -∗
    (∀ bs' idx', ⟨entries bs' ≡ₚ (e :: l) ++ entries bs /\ length bs' = length bs⟩ -∗
       imap_at this a ne seed bs' idx' tb -∗ Q tt) -∗
    wpm (TransferList_loop fuel this (addr e)) Q.
Proof.
  revert bs idx e l Q. induction fuel as [|fuel IH]; intros bs idx e l Q Hf Hnd; [lia|].
  iIntros "Hi [He Hl] HQ". cbn [TransferList_loop]. destruct (keys_next _ _ _ Hnd) as [Hk Hnext].
  wbind. iApply (wpm_next_at with "He"). iIntros "He".
  iApply (wpm_rehash with "Hi He"); [exact Hk|]. iIntros (bs' idx' it [Hp Hlen]) "Hi".
  destruct l as [|x l]; simpl.
  - iApply wpm_ret. by iApply ("HQ" with "[] Hi").
  - simpl in Hf. iApply (IH with "Hi Hl"); [lia|by apply Hnext|]. iIntros (bs2 idx2 [Hp2 Hlen2]) "Hi".
    iApply ("HQ" with "[] Hi"). iPureIntro. split; [|by rw Hlen2]. rw Hp2 Hp. by rw -Permutation_middle.
Qed.

Lemma wpm_TransferTree_loop this a ne seed bs idx tb fuel t l0 e l (Q : unit -> hM K T) :
  (length l < fuel)%nat -> NoDup (ekey <$> (e :: l) ++ entries bs) -> NoDup (addr <$> l0 ++ e :: l) ->
  ⊢ imap_at this a ne seed bs idx tb -∗ t ↦{a} CTree (addr <$> l0 ++ e :: l) -∗ nodes a (e :: l) -∗
    (∀ bs' idx', ⟨entries bs' ≡ₚ (e :: l) ++ entries bs /\ length bs' = length bs⟩ -∗
       imap_at this a ne seed bs' idx' tb -∗ t ↦{a} CTree (addr <$> l0 ++ e :: l) -∗ Q tt) -∗
    wpm (TransferTree_loop fuel this t (addr e)) Q.
Proof.
  revert bs idx l0 e l Q. induction fuel as [|fuel IH]; intros bs idx l0 e l Q Hf Hnd Ha; [lia|].
  iIntros "Hi Ht [He Hl] HQ". cbn [TransferTree_loop]. destruct (keys_next _ _ _ Hnd) as [Hk Hnext].
  iApply (wpm_rehash with "Hi He"); [exact Hk|]. iIntros (bs' idx' it [Hp Hlen]) "Hi".
  wbind. iApply (wpm_tree_next with "Ht").
  { rw fmap_app in Ha. apply NoDup_app in Ha as (_ & Ha & _). intros Hin. apply (Ha _ Hin). left. }
  iIntros "Ht". destruct l as [|x l]; simpl.
  - iApply wpm_ret. by iApply ("HQ" with "[] Hi Ht").
  - simpl in Hf. rw (_ : l0 ++ e :: x :: l = (l0 ++ [e]) ++ x :: l) in Ha *; [|by rw -app_assoc].
    iApply (IH with "Hi Ht Hl"); [lia|by apply Hnext|done|]. iIntros (bs2 idx2 [Hp2 Hlen2]) "Hi Ht".
    iApply ("HQ" with "[] Hi Ht"). iPureIntro. split; [|by rw Hlen2]. rw Hp2 Hp. by rw -Permutation_middle.
Qed.

(** The buckets that are still to be moved. *)
Lemma drop_bucket a bs i b :
  bs !! i = Some b -> buckets_own (T := T) a (drop i bs) ⊢ bucket_own a b ∗ buckets_own a (drop (S i) bs).
Proof. iIntros (Hb) "H". rw (drop_S _ _ _ Hb). iExact "H". Qed.

Definition moved bs bs' l : Prop := entries bs' ≡ₚ l ++ entries bs /\ length bs' = length bs.
Lemma moved_trans bs1 bs2 bs3 l1 l2 : moved bs1 bs2 l1 -> moved bs2 bs3 l2 -> moved bs1 bs3 (l1 ++ l2).
Proof.
  intros [H1 E1] [H2 E2]. split; [|by rw E2]. rw H2 H1 !app_assoc. by rw (Permutation_app_comm l2 l1).
Qed.

Lemma wpm_TransferList this a ne seed bs idx tb otb obs i e l (Q : unit -> hM K T) :
  obs !! i = Some (BList (e :: l)) -> NoDup (ekey <$> (e :: l) ++ entries bs) ->
  ⊢ imap_at this a ne seed bs idx tb -∗ table_own a otb obs -∗ chain a (e :: l) -∗
    (∀ bs' idx', ⟨moved bs bs' (e :: l)⟩ -∗ imap_at this a ne seed bs' idx' tb -∗ table_own a otb obs -∗ Q tt) -∗
    wpm (TransferList this otb (Z.of_nat i)) Q.
Proof.
  iIntros (Hb Hnd) "Hi Ht Hl HQ". wbind. iApply (wpm_bucket_slot with "Ht"); [exact Hb|]. iIntros "Ht". simpl.
  wbind. iApply wpm_deref. wbind. iApply (chain_fuel a (e :: l) with "Hl"). iIntros (fuel Hf) "Hl". simpl in Hf.
  iApply (wpm_TransferList_loop with "Hi Hl"); [lia|done|]. iIntros (bs' idx' Hp) "Hi". by iApply ("HQ" with "[] Hi Ht").
Qed.

Lemma nodes_fuel a l (Q : nat -> hM K T) :
  ⊢ nodes a l -∗ (∀ fuel, ⟨length l < fuel⟩%nat -∗ nodes a l -∗ Q fuel) -∗ wpm heap_fuel Q.
Proof.
  apply wpm_heap_fuel. intros x Hx. apply (entails_in _ _ (nodes_cells a None l)), cells_size in Hx.
  by rw length_fmap in Hx.
Qed.
Lemma nodes_NoDup a l : nodes (T := T) a l ⊢ nodes a l ∗ ⟨NoDup (addr <$> l)⟩.
Proof. apply keep_pure. unfold nodes. rw nodes_cells. apply cells_NoDup. Qed.

Lemma wpm_TransferTree this a ne seed bs idx tb otb obs i t l (Q : unit -> hM K T) :
  obs !! i = Some (BTree t l) -> l <> [] -> NoDup (ekey <$> l ++ entries bs) ->
  ⊢ imap_at this a ne seed bs idx tb -∗ table_own a otb obs -∗ t ↦{a} CTree (addr <$> l) -∗ nodes a l -∗
    (∀ bs' idx', ⟨moved bs bs' l⟩ -∗ imap_at this a ne seed bs' idx' tb -∗ table_own a otb obs -∗ Q tt) -∗
    wpm (TransferTree this otb (Z.of_nat i)) Q.
Proof.
  iIntros (Hb Hne Hnd) "Hi Ht Hr Hl HQ". destruct l as [|e l]; [done|].
  iDestruct "Hi" as "(Hm & Htab & Hb & %Hok)". wbind. iApply (wpm_inner_at with "Hm"). iIntros "Hm".
  wbind. iApply (wpm_bucket_slot with "Ht"); [exact Hb|]. iIntros "Ht". simpl.
  wbind. iApply wpm_deref. wbind. iApply (wpm_tree_at with "Hr"). iIntros "Hr". simpl.
  wbind. iApply wpm_deref. wbind. iApply (nodes_fuel a (e :: l) with "Hl"). iIntros (fuel Hf) "Hl". simpl in Hf.
  iDestruct (nodes_NoDup with "Hl") as "[Hl %Ha]".
  wbind. iApply (wpm_TransferTree_loop _ _ _ _ _ _ _ _ _ [] with "[Hm Htab Hb] Hr Hl"); [lia|done|done|by iFrame|].
  iIntros (bs' idx' Hp) "Hi Hr". iApply (wpm_dealloc with "Hr"). iIntros "_". by iApply ("HQ" with "[] Hi Ht").
Qed.

Lemma keys_part l es es' : NoDup (ekey <$> (l ++ es) ++ es') ->
  NoDup (ekey <$> l ++ es') /\ forall es2, es2 ≡ₚ l ++ es' -> NoDup (ekey <$> es ++ es2).
Proof.
  intros Hnd. assert (NoDup (ekey <$> es ++ (l ++ es'))) as Hnd2.
  { by rw app_assoc (Permutation_app_comm es l). }
  split; [|by intros es2 ->]. rw fmap_app in Hnd2. by apply NoDup_app in Hnd2 as (_ & _ & ?).
Qed.

Lemma wpm_Resize_loop this a ne seed bs idx tb otb obs i fuel (Q : unit -> hM K T) :
  table_ok obs -> (length obs - i < fuel)%nat -> (forall t, obs !! i <> Some (BShared t)) ->
  NoDup (ekey <$> entries (drop i obs) ++ entries bs) ->
  ⊢ imap_at this a ne seed bs idx tb -∗ table_own a otb obs -∗ buckets_own a (drop i obs) -∗
    (∀ bs' idx', ⟨moved bs bs' (entries (drop i obs))⟩ -∗ imap_at this a ne seed bs' idx' tb -∗
       table_own a otb obs -∗ Q tt) -∗
    wpm (Resize_loop fuel this otb (Z.of_nat (length obs)) (Z.of_nat i)) Q.
Proof.
  intros Htab. revert bs idx i Q. induction fuel as [|fuel IH]; intros bs idx i Q Hf Hsh Hnd; [lia|].
  iIntros "Hi Ht Hb HQ". cbn [Resize_loop]. case_decide as Hlt.
  2:{ rw drop_ge; [|lia]. iApply wpm_ret. by iApply ("HQ" with "[] Hi Ht"). }
  destruct (lookup_lt_is_Some_2 obs i) as [b Hbi]; [lia|].
  iDestruct (drop_bucket _ _ _ _ Hbi with "Hb") as "[Hbi Hb]". rewrite -> (entries_drop _ _ _ Hbi) in *.
  wbind. iApply (wpm_TableEntryIsNonEmptyList with "Ht"); [done|exact Hbi|]. iIntros "Ht".
  assert (is_tree b = false -> forall t, obs !! S i <> Some (BShared t)) as Hsh'.
  { intros Hb t Ht. destruct (ok_kinds _ Htab _ _ Ht) as (_ & l & Hl). simpl in Hl. rw Hbi in Hl. by injection Hl as ->. }
  replace (Z.of_nat i + 1) with (Z.of_nat (S i)) by lia. replace (Z.of_nat i + 2) with (Z.of_nat (S (S i))) by lia.
  destruct b as [[|e l]|t l|t]; cbn [is_list is_tree bucket_entries] in *; [| | |by destruct (Hsh t)].
  - wbind. iApply (wpm_TableEntryIsTree with "Ht"); [done|exact Hbi|]. iIntros "Ht". cbn [is_tree].
    iDestruct "Hbi" as "_". iApply (IH with "Hi Ht Hb HQ"); [lia|by apply Hsh'|done].
  - destruct (keys_part _ _ _ Hnd) as [Hnd1 Hnd2].
    wbind. iApply (wpm_TransferList with "Hi Ht Hbi"); [exact Hbi|done|]. iIntros (bs1 idx1 Hp) "Hi Ht".
    iApply (IH with "Hi Ht Hb"); [lia|by apply Hsh'|by apply Hnd2, Hp|]. iIntros (bs2 idx2 Hp2) "Hi Ht".
    iApply ("HQ" with "[] Hi Ht"). iPureIntro. by eapply moved_trans.
  - destruct (keys_part _ _ _ Hnd) as [Hnd1 Hnd2]. iDestruct "Hbi" as "[Hr Hl]".
    destruct (ok_kinds _ Htab _ _ Hbi) as (Hev & Hs & Hne & _). rewrite -> (entries_drop _ _ _ Hs) in *.
    wbind. iApply (wpm_TableEntryIsTree with "Ht"); [done|exact Hbi|]. iIntros "Ht". cbn [is_tree].
    wbind. iApply (wpm_TransferTree with "Hi Ht Hr Hl"); [exact Hbi|done|done|]. iIntros (bs1 idx1 Hp) "Hi Ht".
    iDestruct (drop_bucket _ _ _ _ Hs with "Hb") as "[_ Hb]".
    iApply (IH with "Hi Ht Hb"); [lia| |by apply Hnd2, Hp|].
    { intros t' Ht'. destruct (ok_kinds _ Htab _ _ Ht') as (Hodd & _). by rw !even_S Hev in Hodd. }
    iIntros (bs2 idx2 Hp2) "Hi Ht". iApply ("HQ" with "[] Hi Ht"). iPureIntro. by eapply moved_trans.
Qed.

(** The buckets before the first entry own nothing. *)
Lemma buckets_first a bs idx : index_ok bs idx -> buckets_own (T := T) a bs ⊢ buckets_own a (drop idx bs).
Proof.
  intros (Hle & Hnull & _). rewrite <- (take_drop idx bs) at 1. unfold buckets_own. rw big_sepL_app.
  iIntros "[Ht $]". iApply big_sepL_emp. iApply (big_sepL_mono with "Ht").
  intros i b Hb. apply lookup_take_Some in Hb as [Hb Hi]. rw Hnull in Hb; [|done]. by injection Hb as <-.
Qed.

Lemma no_buckets_own a n : ⊢ buckets_own (T := T) a (no_buckets (K := K) n).
Proof.
  unfold buckets_own, no_buckets. induction n as [|n IH]; simpl; [done|]. iSplitR; [done|]. iApply IH.
Qed.

Lemma wpm_Resize this a ne seed bs idx tb n (Q : unit -> hM K T) :
  pow2 n ->
  ⊢ imap_at this a ne seed bs idx tb -∗
    (∀ bs' idx' tb', ⟨entries bs' ≡ₚ entries bs /\ length bs' = n⟩ -∗
       imap_at this a ne seed bs' idx' tb' -∗ Q tt) -∗
    wpm (Resize this (Z.of_nat n)) Q.
Proof.
  iIntros (Hn) "Hi HQ". pose proof (pow2_bounds _ Hn).
  iDestruct (imap_open with "Hi") as "(Hm & Ht & Hb & %Hok & %Htab)".
  wbind. iApply wpm_dcheck; [unfold kMinTableSize; lia|].
  wbind. iApply (wpm_inner_at with "Hm"). iIntros "Hm". cbn [alloc_ index_of_first_non_null_ num_buckets_ table_].
  wbind. iApply wpm_CreateEmptyTable; [done|]. iIntros (tb') "Ht'".
  wbind. wbind. iApply (wpm_inner_at with "Hm"). iIntros "Hm". iApply (wpm_set_cell with "Hm"). iIntros "Hm".
  wbind. wbind. iApply (wpm_inner_at with "Hm"). iIntros "Hm". iApply (wpm_set_cell with "Hm"). iIntros "Hm". cbn_im.
  iDestruct (buckets_first with "Hb") as "Hb"; [apply Hok|].
  iAssert (imap_at this a ne seed (no_buckets n) n tb') with "[Hm Ht']" as "Hi".
  { unfold imap_at. iFrame "Ht'". unfold no_buckets at 1. rw length_replicate. iFrame "Hm".
    iSplitL; [iApply no_buckets_own|by iPureIntro; apply no_buckets_ok]. }
  assert (entries (no_buckets (K := K) n) = []) as Hnil by apply entries_replicate.
  wbind. iApply (wpm_Resize_loop with "Hi Ht Hb"); [done|lia| | |].
  - intros t Ht. destruct (im_index _ _ _ Hok) as (_ & Hnull & _).
    destruct (ok_kinds _ Htab _ _ Ht) as (Hodd & l & Hl). destruct idx as [|idx]; [done|].
    simpl in Hl. rw Hnull in Hl; [done|lia].
  - rw Hnil app_nil_r entries_first; [apply Hok|apply Hok].
  - iIntros (bs' idx' [Hp Hlen]) "Hi Ht". iApply (wpm_dealloc with "Ht"). iIntros "_".
    iApply ("HQ" with "[] Hi"). iPureIntro. split.
    + by rw Hp Hnil app_nil_r entries_first; [|apply Hok].
    + by rw Hlen length_replicate.
Qed.

Lemma wpm_reduction_factor fuel (h hi lg2 : Z) (Q : Z -> hM K T) :
  1 <= h -> h * 2 ^ (lg2 - 1) < 2 ^ 62 -> hi < 2 ^ 62 -> 1 <= lg2 -> 63 - lg2 < Z.of_nat fuel ->
  Q (shrink_shift fuel h hi lg2) ⊢ wpm (reduction_factor fuel h hi lg2) Q.
Proof.
  revert lg2. induction fuel as [|fuel IH]; intros lg2 Hh Hb Hhi Hlg Hf; iIntros "HQ".
  - assert (2 ^ 62 <= 2 ^ (lg2 - 1)) by (apply Z.pow_le_mono_r; lia). nia.
  - assert (2 ^ lg2 = 2 * 2 ^ (lg2 - 1)) as Hpow.
    { replace lg2 with (1 + (lg2 - 1)) at 1 by lia. rw Z.pow_add_r; [|lia|lia]. done. }
    cbn [reduction_factor shrink_shift]. rw Z.shiftl_mul_pow2; [|lia]. rw u64_small; [|nia].
    destruct (decide (h * 2 ^ lg2 < hi)) as [Hlt|Hlt]; [|by iApply wpm_ret].
    iApply (IH with "HQ"); [done| |done|lia|lia]. replace (lg2 + 1 - 1) with lg2 by lia. lia.
Qed.

Lemma wpm_ResizeIfLoadIsOutOfRange this a ne seed bs idx tb (new_size : Z) (Q : bool -> hM K T) :
  0 <= new_size < 2 ^ 64 ->
  ⊢ imap_at this a ne seed bs idx tb -∗
    (∀ r bs' idx' tb', ⟨entries bs' ≡ₚ entries bs /\ (r = false -> bs' = bs) /\
        Z.of_nat (length bs') = resized (Z.of_nat (length bs)) new_size⟩ -∗
       imap_at this a ne seed bs' idx' tb' -∗ Q r) -∗
    wpm (ResizeIfLoadIsOutOfRange this new_size) Q.
Proof.
  iIntros (Hsz) "Hi HQ". iDestruct "Hi" as "(Hm & Ht & Hb & %Hok)".
  pose proof (im_pow2 _ _ _ Hok) as Hn. pose proof (pow2_bounds _ Hn) as Hnb.
  wbind. iApply (wpm_inner_at with "Hm"). iIntros "Hm". cbn [num_buckets_]. unfold resized.
  set (n := length bs) in *. unfold kMaxMapLoadTimes16, kMinTableSize, max_size. rw (u64_small (Z.of_nat n * 12)); [|lia].
  set (hi := Z.of_nat n * 12 / 16). assert (hi < 2 ^ 60) as Hhi by (unfold hi; mlia).
  iAssert (imap_at this a ne seed bs idx tb) with "[Hm Ht Hb]" as "Hi"; [by iFrame|].
  destruct (decide (hi <= new_size)) as [Hc|Hc].
  { change (2 ^ 60 / 2) with (2 ^ 59). destruct (decide (Z.of_nat n <= 2 ^ 59)).
    - rw u64_small; [|lia]. replace (Z.of_nat n * 2) with (Z.of_nat (2 * n)) by lia.
      wbind. iApply (wpm_Resize with "Hi"); [by apply double_pow2|]. iIntros (bs' idx' tb' [Hp Hl]) "Hi".
      iApply wpm_ret. iApply ("HQ" with "[] Hi"). iPureIntro. by rw Hl.
    - iApply wpm_ret. by iApply ("HQ" with "[] Hi"). }
  destruct (decide (new_size <= hi / 4 /\ 8 < Z.of_nat n)) as [Hlo|Hlo]; [|iApply wpm_ret; by iApply ("HQ" with "[] Hi")].
  assert (new_size <= hi / 4 /\ hi / 4 < 2 ^ 58) as [Hle Hlt4] by (split; [apply Hlo|mlia]).
  rw (u64_small (new_size * 5)); [|lia]. assert (new_size * 5 / 4 < 2 ^ 59) by mlia.
  assert (0 <= new_size * 5 / 4) by mlia. rw u64_small; [|lia].
  wbind. iApply wpm_reduction_factor; [lia|change (2 ^ (1 - 1)) with 1; lia|lia|lia|lia|].
  pose proof (shrink_shift_least 64 (new_size * 5 / 4 + 1) hi 1) as [Hs _]. set (s := shrink_shift _ _ _ _) in *.
  destruct (decide (Z.max 8 (Z.shiftr (Z.of_nat n) s) <> Z.of_nat n)) as [Hne|Hne].
  - rewrite <- (Z2Nat.id (Z.max 8 (Z.shiftr (Z.of_nat n) s))) by lia.
    wbind. iApply (wpm_Resize with "Hi"); [apply shr_pow2; [done|lia]|]. iIntros (bs' idx' tb' [Hp Hl]) "Hi".
    iApply wpm_ret. iApply ("HQ" with "[] Hi"). iPureIntro. by rw Hl.
  - iApply wpm_ret. iApply ("HQ" with "[] Hi"). iPureIntro. fold n. split_and!; [done|done|lia].
Qed.
End resize.
