(* ===== verification/MapOps.v ===== *)
(** * Hash maps: what each method does

    [imap this a es] owns a hash map with the entries [es], in the order of the
    iteration; [imap_sized] also tells the number of buckets.  Each method has a triple.  Insertion keeps the nodes where they are but
    may change their order; erasing keeps the order. *)
From Stdlib Require Import ZArith Lia Sorting.Sorted.
From stdpp Require Import base tactics option list list_numbers gmap.
From iris.bi Require Import bi big_op.
From iris.proofmode Require Import proofmode.
From S2P Require Import Prelude Bits HeapLogic InnerMap MapLogic MapBuckets MapTree MapKeys MapFind MapIter MapInsert MapResize.

Section ops.
  Context {K T : Type} `{HashKey K} `{!KeyLaws K}.
  Implicit Types (bs : list (bucket K)) (e : entry K) (l es : list (entry K)).
  Implicit Types (i j idx fuel n : nat) (k : K) (v : option Z) (seed this tb t : Z) (a : option Z).

(** The counter of the entries does not overflow, and the table is large enough. *)
Definition fits (ne nb : nat) : Prop := Z.of_nat ne < 2 ^ 64 /\ load_ok (Z.of_nat ne) (Z.of_nat nb).
Lemma fits_mono m n nb : fits n nb -> (m <= n)%nat -> fits m nb.
Proof. unfold fits, load_ok. lia. Qed.

Definition imap this a es : hM K T :=
  (∃ seed bs idx tb, ⟨entries bs = es /\ fits (length es) (length bs)⟩ ∗ imap_at this a (Z.of_nat (length es)) seed bs idx tb)%I.

Lemma imap_intro this a es seed bs idx tb ne :
  entries bs = es -> fits (length es) (length bs) -> ne = Z.of_nat (length es) ->
  imap_at this a ne seed bs idx tb ⊢ imap this a es.
Proof. iIntros (He Hlen ->) "Hi". iExists seed, bs, idx, tb. by iFrame. Qed.

Lemma imap_keys this a es : imap this a es ⊢ imap this a es ∗ ⟨NoDup (ekey <$> es)⟩.
Proof.
  iIntros "(%seed & %bs & %idx & %tb & [%He %Hsz] & Hm & Ht & Hb & %Hok)". iSplitL; [|iPureIntro; rw -He; apply Hok].
  iApply (imap_intro with "[Hm Ht Hb]"); [exact He|done|done|by iFrame].
Qed.

(** ** Reading *)

Lemma wpm_table_size this a es (Q : Z -> hM K T) :
  ⊢ imap this a es -∗ (imap this a es -∗ Q (Z.of_nat (length es))) -∗ wpm (size this) Q.
Proof.
  iIntros "(%seed & %bs & %idx & %tb & [%He %Hsz] & Hm & Ht & Hb & %Hok) HQ".
  wbind. iApply (wpm_inner_at with "Hm"). iIntros "Hm". iApply wpm_ret. iApply "HQ".
  iApply (imap_intro with "[Hm Ht Hb]"); [exact He|done|done|by iFrame].
Qed.

(** [find]: the node of the key, or [end()]. *)
Definition finds this k es (it : iterator) : Prop :=
  match lookup_key k es with
  | Some e => node_ it = Some (addr e) /\ m_ it = Some this
  | None => it = end_
  end.

Lemma lookup_key_in es k e : NoDup (ekey <$> es) -> e ∈ es -> ekey e = k -> lookup_key k es = Some e.
Proof.
  intros Hnd He <-. induction es as [|x es IH]; [by apply not_elem_of_nil in He|].
  rw fmap_cons in Hnd. apply NoDup_cons in Hnd as [Hx Hnd]. simpl. apply elem_of_cons in He as [->|He].
  - by rw decide_True.
  - rw decide_False; [by apply IH|]. intros E. apply Hx, list_elem_of_fmap. eauto.
Qed.
Lemma lookup_key_absent es k : k ∉ ekey <$> es -> lookup_key k es = None.
Proof.
  intros Hk. destruct (lookup_key k es) as [e|] eqn:E; [|done]. apply lookup_key_Some in E as [He <-].
  destruct Hk. apply list_elem_of_fmap. eauto.
Qed.

Lemma found_finds this seed bs idx k r :
  imap_ok seed bs idx -> found_at this seed bs k r -> finds this k (entries bs) (fst (fst r)).
Proof.
  intros Hok (j & b & _ & Hj & _ & Hr). unfold finds.
  destruct (lookup_key k (bucket_entries b)) as [e|] eqn:E.
  - apply lookup_key_Some in E as [He Hk]. rw (lookup_key_in _ k e); [by subst r|apply Hok| |done].
    apply elem_entries. eauto.
  - destruct Hr as [Hk ->]. by rw lookup_key_absent.
Qed.

Lemma found_absent this seed bs idx k r :
  imap_ok seed bs idx -> found_at this seed bs k r -> lookup_key k (entries bs) = None ->
  exists z, z = Z.of_nat (home bs (place (length bs) seed k)) /\ r = (end_, z, None).
Proof.
  intros Hok Hr Hk. pose proof (found_finds _ _ _ _ _ _ Hok Hr) as Hf. unfold finds in Hf. rw Hk in Hf.
  destruct Hr as (j & b & -> & _ & _ & Hr). eexists. split; [done|].
  destruct (lookup_key k (bucket_entries b)); [subst r; done|by destruct Hr].
Qed.

Lemma wpm_find this a es k (Q : iterator -> hM K T) :
  ⊢ imap this a es -∗ (∀ it, ⟨finds this k es it⟩ -∗ imap this a es -∗ Q it) -∗ wpm (find this k) Q.
Proof.
  iIntros "(%seed & %bs & %idx & %tb & [%He %Hsz] & Hi) HQ". iDestruct (imap_open with "Hi") as "(Hm & Ht & Hb & %Hok & _)".
  wbind. iApply (wpm_FindHelper with "[Hm Ht Hb]"); [by iFrame|]. iIntros (r Hr) "Hi". iApply wpm_ret.
  iApply ("HQ" with "[]").
  - iPureIntro. rw -He. by eapply found_finds.
  - iApply (imap_intro with "Hi"); [exact He|done|done].
Qed.

Lemma finds_node this k es it : finds this k es it -> node_ it = addr <$> lookup_key k es.
Proof. unfold finds. destruct (lookup_key k es); [by intros [? _]|by intros ->]. Qed.

Lemma wpm_contains this a es k (Q : bool -> hM K T) :
  ⊢ imap this a es -∗ (imap this a es -∗ Q (bool_decide (lookup_key k es <> None))) -∗ wpm (contains this k) Q.
Proof.
  iIntros "Hi HQ". wbind. iApply (wpm_find with "Hi"). iIntros (it Hit) "Hi". iApply wpm_ret.
  rw (finds_node _ _ _ _ Hit). iSpecialize ("HQ" with "Hi"). by destruct (lookup_key k es).
Qed.

Lemma wpm_begin this a es (Q : iterator -> hM K T) :
  ⊢ imap this a es -∗ (∀ z, imap this a es -∗ Q (It (addr <$> head es) (Some this) z)) -∗ wpm (begin this) Q.
Proof.
  iIntros "(%seed & %bs & %idx & %tb & [%He %Hsz] & Hi) HQ". iApply (wpm_begin_at with "Hi"). iIntros (z) "Hi".
  rw He. iApply "HQ". iApply (imap_intro with "Hi"); [exact He|done|done].
Qed.

Lemma wpm_incr this a l1 e l2 (z : Z) (Q : iterator -> hM K T) :
  ⊢ imap this a (l1 ++ e :: l2) -∗
    (∀ z', imap this a (l1 ++ e :: l2) -∗ Q (It (addr <$> head l2) (Some this) z')) -∗
    wpm (incr (It (Some (addr e)) (Some this) z)) Q.
Proof.
  iIntros "(%seed & %bs & %idx & %tb & [%He %Hsz] & Hi) HQ". iApply (wpm_incr_at with "Hi"); [exact He|]. iIntros (z') "Hi".
  iApply "HQ". iApply (imap_intro with "Hi"); [exact He|done|done].
Qed.

(** ** Construction *)

Context `{Clock K T}.

Lemma wpm_table_construct a (Q : Z -> hM K T) : (∀ this, imap this a [] -∗ Q this) ⊢ wpm (construct a 0) Q.
Proof.
  iIntros "HQ". unfold construct. assert (TableSize 0 = 8) as -> by done.
  assert (pow2 8) as Hp by by exists 3.
  wbind. iApply wpm_new_cell. iIntros (this) "Hm". wbind. wbind.
  iApply (wpm_wand _ (fun t => emp)%I).
  { by iApply wpm_gets. }
  iIntros (t) "_". iApply wpm_ret.
  wbind. change 8 with (Z.of_nat 8). iApply wpm_CreateEmptyTable; [done|]. iIntros (tb) "Ht".
  wbind. iApply (wpm_set_cell with "Hm"). iIntros "Hm". iApply wpm_ret. iApply "HQ".
  iExists _, (no_buckets 8), 8%nat, tb. iSplitR; [iPureIntro; split; [done|by split; [|left]]|]. unfold imap_at. iFrame "Hm Ht".
  iSplitL; [iApply no_buckets_own|by iPureIntro; apply no_buckets_ok].
Qed.

(** ** Insertion *)

Lemma wpm_insert_present this a es k v e (Q : iterator * bool -> hM K T) :
  lookup_key k es = Some e ->
  ⊢ imap this a es -∗ (∀ z, imap this a es -∗ Q (It (Some (addr e)) (Some this) z, false)) -∗ wpm (insert this k v) Q.
Proof.
  iIntros (Hk) "(%seed & %bs & %idx & %tb & [%He %Hsz] & Hi) HQ". iDestruct (imap_open with "Hi") as "(Hm & Ht & Hb & %Hok & _)".
  wbind. iApply (wpm_FindHelper with "[Hm Ht Hb]"); [by iFrame|]. iIntros (r Hr) "Hi".
  pose proof (found_finds _ _ _ _ _ _ Hok Hr) as Hf. unfold finds in Hf. rw He Hk in Hf.
  destruct r as [[[nd mm z] b] t]. cbn in Hf. destruct Hf as [-> ->]. cbn beta iota.
  case_decide; [|done]. iApply wpm_ret. iApply "HQ". iApply (imap_intro with "Hi"); [exact He|done|done].
Qed.

(** A map and the number of its buckets. *)
Definition imap_sized this a es (nb : Z) : hM K T :=
  (∃ seed bs idx tb, ⟨entries bs = es /\ fits (length es) (length bs) /\ Z.of_nat (length bs) = nb⟩ ∗
     imap_at this a (Z.of_nat (length es)) seed bs idx tb)%I.

Lemma imap_size this a es : imap this a es ⊢ ∃ nb, imap_sized this a es nb.
Proof. iIntros "(%seed & %bs & %idx & %tb & [%He %Hsz] & Hi)". iExists (Z.of_nat (length bs)), seed, bs, idx, tb. by iFrame. Qed.
Lemma sized_imap this a es nb : imap_sized this a es nb ⊢ imap this a es.
Proof. iIntros "(%seed & %bs & %idx & %tb & (%He & %Hsz & _) & Hi)". by iApply (imap_intro with "Hi"). Qed.

(** A new entry: the table has the size that the load asks for. *)
Lemma wpm_insert_sized this a es nb k v (Q : iterator * bool -> hM K T) :
  lookup_key k es = None -> Z.of_nat (length es) + 1 < 2 ^ 64 ->
  ⊢ imap_sized this a es nb -∗
    (∀ p es' z, ⟨es' ≡ₚ E p k v :: es⟩ -∗ imap_sized this a es' (resized nb (Z.of_nat (length es) + 1)) -∗
       Q (It (Some p) (Some this) z, true)) -∗
    wpm (insert this k v) Q.
Proof.
  iIntros (Hk Hlen) "(%seed & %bs & %idx & %tb & (%He & %Hsz & <-) & Hi) HQ".
  iDestruct (imap_open with "Hi") as "(Hm & Ht & Hb & %Hok & _)".
  wbind. iApply (wpm_FindHelper with "[Hm Ht Hb]"); [by iFrame|]. iIntros (r Hr) "Hi".
  destruct (found_absent _ _ _ _ _ _ Hok Hr ltac:(by rw He)) as (z0 & Hz & ->). cbn beta iota. case_decide as Hend; [by destruct Hend|].
  iDestruct "Hi" as "(Hm & Ht & Hb & _)".
  wbind. iApply (wpm_inner_at with "Hm"). iIntros "Hm". cbn_im. rw u64_small; [|lia].
  wbind. iApply (wpm_ResizeIfLoadIsOutOfRange with "[Hm Ht Hb]"); [lia|by iFrame|].
  iIntros (r bs' idx' tb' (Hp & Hsame & Hl')) "Hi". iDestruct (imap_open with "Hi") as "(Hm & Ht & Hb & %Hok' & _)".
  assert (lookup_key k (entries bs') = None) as Hk'.
  { apply lookup_key_absent. rw Hp He. by apply lookup_key_None. }
  iAssert (imap_at this a (Z.of_nat (length es)) seed bs' idx' tb') with "[Hm Ht Hb]" as "Hi"; [by iFrame|].
  wbind. iApply (wpm_wand _ (fun b => ⟨b = Z.of_nat (home bs' (place (length bs') seed k))⟩ ∗
    imap_at this a (Z.of_nat (length es)) seed bs' idx' tb')%I with "[Hi]").
  { destruct r; [|iApply wpm_ret; iFrame "Hi"; iPureIntro; by rw Hsame].
    wbind. iApply (wpm_FindHelper with "Hi"). iIntros (r2 Hr2) "Hi". iApply wpm_ret. iFrame "Hi". iPureIntro.
    by destruct (found_absent _ _ _ _ _ _ Hok' Hr2 Hk') as (z & -> & ->). }
  iIntros (b) "[%Hb (Hm & Ht & Hbs & _)]". subst b.
  wbind. iApply (wpm_inner_at with "Hm"). iIntros "Hm". cbn_im.
  wbind. iApply wpm_new_cell. iIntros (p) "Hp".
  iAssert (node a None (E p k v)) with "Hp" as "Hp".
  wbind. iApply (wpm_InsertUnique this _ _ _ _ _ _ _ _ (E p k v) with "[Hm Ht Hbs] Hp"); [by apply lookup_key_None|by right|by iFrame|].
  iIntros (bs2 idx2 z [Hp2 Hlen2]) "(Hm & Ht & Hb & %Hok2)".
  wbind. iApply (wpm_inner_at with "Hm"). iIntros "Hm". cbn_im. rw u64_small; [|lia].
  wbind. wbind. iApply (wpm_inner_at with "Hm"). iIntros "Hm". cbn_im.
  iApply (wpm_set_cell with "Hm"). iIntros "Hm". iApply wpm_ret.
  iApply ("HQ" $! p (entries bs2) with "[]"); [iPureIntro; by rw Hp2 Hp He|].
  assert (length (entries bs2) = S (length es)) as Hlen' by (rw Hp2; simpl; by rw Hp He).
  assert (Z.of_nat (length (entries bs2)) = Z.of_nat (length es) + 1) as Hz' by (rw Hlen'; lia).
  iExists seed, bs2, idx2, tb'. rw Hz'. iFrame "Hm Ht Hb". iSplitL; [|done]. iPureIntro. rw Hlen2 Hl' Hlen'. split_and!; [done| |done].
  split; [lia|]. rw Hl'. replace (Z.of_nat (S (length es))) with (Z.of_nat (length es) + 1) by lia.
  apply resized_load; [apply Hok|lia|]. destruct Hsz as [_ Hload]. by replace (Z.of_nat (length es) + 1 - 1) with (Z.of_nat (length es)) by lia.
Qed.

Lemma wpm_insert_absent this a es k v (Q : iterator * bool -> hM K T) :
  lookup_key k es = None -> Z.of_nat (length es) + 1 < 2 ^ 64 ->
  ⊢ imap this a es -∗
    (∀ p es' z, ⟨es' ≡ₚ E p k v :: es⟩ -∗ imap this a es' -∗ Q (It (Some p) (Some this) z, true)) -∗
    wpm (insert this k v) Q.
Proof.
  iIntros (Hk Hlen) "Hi HQ". iDestruct (imap_size with "Hi") as (nb) "Hi". iApply (wpm_insert_sized with "Hi"); [done|done|].
  iIntros (p es' z Hp) "Hi". iApply ("HQ" with "[//]"). by iApply sized_imap.
Qed.

(** ** On a heap *)

(** The number of buckets of the map at [this]. *)
Definition buckets this (s : store K T) : option Z :=
  match s !! this with Some (_, CInner m) => Some (num_buckets_ m) | _ => None end.

Lemma sized_buckets this a es nb (F : hM K T) s : holds_of (imap_sized this a es nb ∗ F)%I s -> buckets this s = Some nb.
Proof.
  intros Hs. assert (imap_sized this a es nb ∗ F ⊢ ∃ m, ⌜num_buckets_ m = nb⌝ ∧ ((this ↦{a} CInner m) ∗ True)) as E.
  { iIntros "[(%seed & %bs & %idx & %tb & %Hp & Hm & H) F]". destruct Hp as (_ & _ & <-).
    iExists _. iSplit; [|iFrame "Hm"; iStopProof; apply bi.True_intro]. iPureIntro. done. }
  destruct (entails_in _ _ E s Hs) as (m & <- & x & y & -> & _ & -> & _). unfold buckets.
  by rw (lookup_union_Some_l _ _ _ (a, CInner m)) ?lookup_singleton_eq.
Qed.

Lemma imap_buckets this a es nb (F : hM K T) s :
  holds_of (imap this a es ∗ F)%I s -> buckets this s = Some nb -> holds_of (imap_sized this a es nb ∗ F)%I s.
Proof.
  intros Hs Hb. assert (imap this a es ∗ F ⊢ ∃ x : Z, imap_sized this a es x ∗ F) as E.
  { iIntros "[Hi F]". iDestruct (imap_size with "Hi") as (x) "Hi". iExists x. iFrame. }
  destruct (entails_in _ _ E s Hs) as (x & Hx). pose proof (sized_buckets _ _ _ _ _ _ Hx) as Hb'. congruence.
Qed.

(** A new entry in a map on a heap with anything else. *)
Lemma insert_run (s : store K T) this a es nb k v (F : hM K T) :
  holds_of (imap this a es ∗ F)%I s -> buckets this s = Some nb ->
  k ∉ ekey <$> es -> Z.of_nat (length es) + 1 < 2 ^ 64 ->
  exists p es' z s', insert this k v s = Done ((It (Some p) (Some this) z, true), s') /\ es' ≡ₚ E p k v :: es /\
    holds_of (imap this a es' ∗ F ∗ garbage)%I s' /\ buckets this s' = Some (resized nb (Z.of_nat (length es) + 1)).
Proof.
  intros Hs Hb Hk Hlen. apply (imap_buckets _ _ _ nb) in Hs; [|done]. set (nb' := resized nb _).
  assert (imap_sized this a es nb ∗ F ⊢ wpm (insert this k v) (fun r => ∃ p es' z,
    ⟨r = (It (Some p) (Some this) z, true) /\ es' ≡ₚ E p k v :: es⟩ ∗ imap_sized this a es' nb' ∗ F)) as Hwp.
  { iIntros "[Hi F]". iApply (wpm_insert_sized with "Hi"); [by apply lookup_key_absent|done|]. iIntros (p es' z Hp) "Hi".
    iExists p, es', z. by iFrame. }
  destruct (wpm_adequate _ _ _ s Hwp Hs) as (r & s' & Er & Hs').
  assert ((∃ p es' z, ⟨r = (It (Some p) (Some this) z, true) /\ es' ≡ₚ E p k v :: es⟩ ∗ imap_sized this a es' nb' ∗ F) ∗ garbage ⊢
    ∃ p es' z, ⌜r = (It (Some p) (Some this) z, true) /\ es' ≡ₚ E p k v :: es⌝ ∧ (imap_sized this a es' nb' ∗ F ∗ garbage)) as Hpost.
  { iIntros "[(%p & %es' & %z & %Hr & Hi & F) G]". iExists p, es', z. iSplit; [done|]. iFrame. }
  destruct (entails_in _ _ Hpost _ Hs') as (p & es' & z & [-> Hp] & Hs2). exists p, es', z, s'. split_and!; [done|done| |by eapply sized_buckets].
  eapply entails_in, Hs2. iIntros "[Hi $]". by iApply sized_imap.
Qed.
End ops.
