(* ===== verification/MapErase.v ===== *)
(** * Hash maps: values, erasing, clearing and destruction

    The value of a node may be set; a node may be erased, from a list or from a tree. *)
From Stdlib Require Import ZArith Lia Sorting.Sorted.
From stdpp Require Import base tactics option list list_numbers gmap.
From iris.bi Require Import bi big_op.
From iris.proofmode Require Import proofmode.
From S2P Require Import Prelude Bits HeapLogic InnerMap MapLogic MapKeys MapBuckets MapTree MapFind MapIter MapInsert MapResize.
From S2P Require Import MapOps.

(** ** Changes of the table *)

Section updates.
  Context {K : Type} `{HashKey K} `{!KeyLaws K}.
  Implicit Types (b : bucket K) (bs : list (bucket K)) (e : entry K) (l : list (entry K)).
  Implicit Types (i j idx : nat) (seed t : Z).

Lemma entries_replaced bs j b m1 e m2 l1 l2 l :
  bs !! j = Some b -> bucket_entries b = m1 ++ e :: m2 -> NoDup (entries bs) -> entries bs = l1 ++ e :: l2 ->
  entries (<[j := rebucket b (m1 ++ l ++ m2)]> bs) = l1 ++ l ++ l2.
Proof.
  intros Hj Hb Hnd He. rw He in Hnd. pose proof He as He'. rw (entries_split _ _ _ Hj) Hb in He'.
  destruct (NoDup_middle e l1 l2 (entries (take j bs) ++ m1) (m2 ++ entries (drop (S j) bs)) Hnd) as [-> ->].
  { by rw -He' -!app_assoc. }
  rw entries_insert; [|by eapply lookup_lt_Some].
  assert (bucket_entries (rebucket b (m1 ++ l ++ m2)) = m1 ++ l ++ m2) as ->; [|by rw -!app_assoc].
  destruct b; [done|done|by destruct m1].
Qed.

(** Entries of a bucket are replaced by others with some of their keys. *)
Lemma core_replace seed bs j b l :
  imap_core seed bs -> bs !! j = Some b -> same_kind b (rebucket b l) ->
  (forall x, x ∈ l -> exists y, y ∈ bucket_entries b /\ ekey x = ekey y) ->
  NoDup (ekey <$> entries (<[j := rebucket b l]> bs)) -> imap_core seed (<[j := rebucket b l]> bs).
Proof.
  intros Hc Hb Hs Hl Hnd. split; [rw length_insert; apply Hc| | |done].
  - eapply kinds_insert; [apply Hc|exact Hb|exact Hs].
  - apply placed_insert; [apply Hc|]. intros x Hx. rw (same_kind_tree _ _ Hs).
    assert (x ∈ l) as Hx' by (destruct b; [done|done|by apply not_elem_of_nil in Hx]).
    destruct (Hl x Hx') as (y & Hy & ->). by eapply Hc.
Qed.

Lemma same_kind_sublist bs j b l :
  kinds bs -> bs !! j = Some b -> bucket_entries b <> [] -> (length l <= length (bucket_entries b))%nat ->
  (is_tree b = true -> l <> [] /\ sorted l) -> same_kind b (rebucket b l).
Proof.
  intros Hk Hb Hne Hlen Hl. pose proof (Hk _ _ Hb) as Ok. destruct b as [l0|t l0|t]; simpl in *; [lia| |done].
  split; [done|]. by apply Hl.
Qed.

(** Sorted entries stay sorted when values change. *)
Lemma sorted_revalue m1 e e' m2 : ekey e' = ekey e -> sorted (m1 ++ e :: m2) -> sorted (m1 ++ e' :: m2).
Proof.
  intros Hk. induction m1 as [|x m1 IH]; simpl.
  - intros [Hs Hall]%StronglySorted_inv. constructor; [done|]. by rw Hk.
  - intros [Hs Hall]%StronglySorted_inv. constructor; [by apply IH|].
    apply Forall_app in Hall as [? Hall]. apply Forall_app. split; [done|].
    apply Forall_cons in Hall as [? ?]. apply Forall_cons. split; [by rw Hk|done].
Qed.
Lemma rebucket_slot b m1 e e' m2 :
  addr e' = addr e -> bucket_entries b = m1 ++ e :: m2 -> bucket_slot (rebucket b (m1 ++ e' :: m2)) = bucket_slot b.
Proof. intros Ha. destruct b; simpl; [intros ->; by destruct m1; simpl; rw ?Ha|done|by destruct m1]. Qed.

(** Every bucket before [idx] is empty. *)
Definition index_low bs idx : Prop :=
  (idx <= length bs)%nat /\ (forall i, (i < idx)%nat -> bs !! i = Some (BList [])).

Lemma index_low_insert bs i b idx : index_low bs idx -> (idx <= i)%nat -> index_low (<[i := b]> bs) idx.
Proof.
  intros [Hle Hn] Hi. split; [by rw length_insert|]. intros x Hx. rw list_lookup_insert_ne; [|lia]. by apply Hn.
Qed.
End updates.

Section values.
  Context {K T : Type} `{HashKey K} `{!KeyLaws K}.
  Implicit Types (b : bucket K) (bs : list (bucket K)) (e : entry K) (l es : list (entry K)).
  Implicit Types (i j idx fuel n : nat) (k : K) (v : option Z) (seed this tb t : Z) (a nx : option Z).

(** An entry whose value is set. *)
Definition revalued e v : entry K := E (addr e) (ekey e) v.

Lemma imap_node this a l1 e l2 :
  imap (T := T) this a (l1 ++ e :: l2) ⊢
    ∃ nx, node a nx e ∗ (∀ v, node a nx (revalued e v) -∗ imap this a (l1 ++ revalued e v :: l2)).
Proof.
  iIntros "(%seed & %bs & %idx & %tb & [%Hes %Hsz] & Hm & Ht & Hb & %Hok)".
  assert (e ∈ entries bs) as (j & b & Hj & Hin)%elem_entries by (rw Hes; apply elem_of_app; right; left).
  pose proof Hin as (m1 & m2 & Hm12)%list_elem_of_split. pose proof (lookup_lt_Some _ _ _ Hj) as Hlt.
  iDestruct (buckets_acc _ _ _ _ Hj with "Hb") as "[Hb Hrest]".
  iDestruct (bucket_acc_set _ _ _ _ _ Hm12 with "Hb") as "[He Hb]". iExists _. iFrame "He". iIntros (v) "He".
  iDestruct ("Hb" with "[] He") as "Hb"; [done|]. iDestruct ("Hrest" with "Hb") as "Hb".
  set (b' := rebucket b (m1 ++ revalued e v :: m2)) in *.
  assert (entries (<[j := b']> bs) = l1 ++ revalued e v :: l2) as Hes'.
  { apply (entries_replaced bs j b m1 e m2 l1 l2 [revalued e v]); [done|done|by eapply entries_NoDup|done]. }
  assert (ekey <$> entries (<[j := b']> bs) = ekey <$> entries bs) as Hkeys by by rw Hes' Hes !fmap_app.
  assert (bucket_slot b' = bucket_slot b) as Hslot by by apply (rebucket_slot b m1 e).
  assert (imap_core seed (<[j := b']> bs)) as Hc.
  { apply (core_replace _ _ _ b); [by eapply imap_ok_core|done| | |rw Hkeys; apply Hok].
    - eapply same_kind_sublist; [apply Hok|done|rw Hm12; apply not_eq_sym, app_cons_not_nil|rw Hm12 !length_app; done|].
      intros Htree. split; [by destruct m1|]. apply (sorted_revalue m1 e); [done|]. rw -Hm12.
      pose proof (im_kinds _ _ _ Hok _ _ Hj) as Ok. destruct b; [done|apply Ok|constructor].
    - intros x [Hx|[->|Hx]%elem_of_cons]%elem_of_app; [exists x|exists e|exists x]; rw Hm12 elem_of_app elem_of_cons; auto. }
  assert (bucket_slot b <> None) as Hnn by (destruct b as [[|]| |]; [by destruct m1|done..]).
  iApply (imap_intro _ _ _ seed (<[j := b']> bs) idx tb with "[Hm Ht Hb]"); [exact Hes'|by rw length_insert !length_app in Hsz *|done|].
  unfold imap_at, table_own. rw length_insert. iFrame "Hb". rw !length_app. cbn [length]. iFrame "Hm".
  assert (slots (<[j := b']> bs) = slots bs) as ->.
  { unfold slots. rw list_fmap_insert Hslot. apply list_insert_id. by rw list_lookup_fmap Hj. }
  iFrame "Ht". iPureIntro. apply imap_ok_intro; [done|].
  eapply index_same; [apply Hok|exact Hj|done|by rw Hslot].
Qed.
End values.

(** ** Erasing *)

Section erase.
  Context {K T : Type} `{HashKey K} `{!KeyLaws K}.
  Implicit Types (b : bucket K) (bs : list (bucket K)) (e : entry K) (l es : list (entry K)).
  Implicit Types (i j idx fuel n : nat) (k : K) (v : option Z) (seed this tb ne t : Z) (a nx : option Z).

Lemma wpm_EraseFromLinkedList a fuel m1 e m2 (Q : option Z -> hM K T) :
  (length (m1 ++ e :: m2) < fuel)%nat -> addr e ∉ addr <$> m1 ->
  ⊢ chain a (m1 ++ e :: m2) -∗
    (∀ nx, chain a (m1 ++ m2) -∗ node a nx e -∗ Q (addr <$> head (m1 ++ m2))) -∗
    wpm (EraseFromLinkedList fuel (addr e) (addr <$> head (m1 ++ e :: m2))) Q.
Proof.
  revert m1 Q. induction fuel as [|fuel IH]; intros m1 Q Hf Hin; [lia|].
  iIntros "Hl HQ". destruct m1 as [|x m1]; cbn [EraseFromLinkedList app head fmap option_fmap option_map].
  - iDestruct "Hl" as "[He Hl]". wbind. iApply wpm_deref. wbind. iApply (wpm_next_at with "He"). iIntros "He".
    rw decide_True //. iApply wpm_ret. iApply ("HQ" with "Hl He").
  - iDestruct "Hl" as "[Hx Hl]". apply not_elem_of_cons in Hin as [Hne Hin].
    wbind. iApply wpm_deref. wbind. iApply (wpm_next_at with "Hx"). iIntros "Hx".
    rw decide_False; [|congruence]. simpl in Hf. wbind. iApply (IH with "Hl"); [lia|done|]. iIntros (nx) "Hl He".
    wbind. iApply (wpm_set_next with "Hx"). iIntros "Hx". iApply wpm_ret.
    iApply ("HQ" with "[Hx Hl] He"). iFrame.
Qed.

Lemma slot_null bs i b : kinds bs -> bs !! i = Some b -> bucket_slot b = None -> b = BList [].
Proof. intros Hk Hb. by destruct b as [[|x l]|t l|t]. Qed.

(** The search for the next bucket that is not empty. *)
Lemma wpm_next_non_null a tb bs idx fuel (Q : Z -> hM K T) :
  kinds bs -> (length bs - idx < fuel)%nat -> index_low bs idx ->
  ⊢ table_own a tb bs -∗ (∀ idx', ⟨index_ok bs idx'⟩ -∗ table_own a tb bs -∗ Q (Z.of_nat idx')) -∗
    wpm (next_non_null fuel tb (Z.of_nat (length bs)) (Z.of_nat idx)) Q.
Proof.
  intros Hk. revert idx. induction fuel as [|fuel IH]; intros idx Hf [Hle Hlow]; [lia|].
  iIntros "Ht HQ". cbn [next_non_null]. case_decide as Hlt.
  - destruct (lookup_lt_is_Some_2 bs idx) as [b Hb]; [lia|].
    wbind. iApply (wpm_bucket_slot with "Ht"); [exact Hb|]. iIntros "Ht". case_decide as Hn.
    + replace (Z.of_nat idx + 1) with (Z.of_nat (S idx)) by lia. iApply (IH with "Ht HQ"); [lia|].
      split; [lia|]. intros i Hi. destruct (decide (i = idx)) as [->|]; [|apply Hlow; lia].
      by rw Hb (slot_null _ _ _ Hk Hb Hn).
    + iApply wpm_ret. iApply ("HQ" with "[] Ht"). iPureIntro. split_and!; [done|done|]. intros b' Hb'. congruence.
  - iApply wpm_ret. iApply ("HQ" with "[] Ht"). iPureIntro. split_and!; [done|done|].
    intros b' ?%lookup_lt_Some. lia.
Qed.

(** The end of [erase]: the node is freed, and the counters are corrected. *)
Definition finish_erase this (b item : Z) : stm (store K T) unit :=
  DestroyNode this item ;;
  m ← inner_at this;
  set_num_elements this (u64 (num_elements_ m - 1)) ;;
  if decide (b = index_of_first_non_null_ m) then
    i ← next_non_null (S (Z.to_nat (num_buckets_ m - index_of_first_non_null_ m))) (table_ m) (num_buckets_ m)
          (index_of_first_non_null_ m);
    set_index this i
  else mret tt.

Lemma wpm_finish_erase this a seed bs idx tb j nx e l1 l2 (Q : unit -> hM K T) :
  imap_core seed bs -> index_low bs idx -> (j <> idx -> index_ok bs idx) -> entries bs = l1 ++ l2 ->
  fits (length (l1 ++ e :: l2)) (length bs) ->
  ⊢ raw_at this a (Z.of_nat (length (l1 ++ e :: l2))) seed bs idx tb -∗ node a nx e -∗
    (imap this a (l1 ++ l2) -∗ Q tt) -∗ wpm (finish_erase this (Z.of_nat j) (addr e)) Q.
Proof.
  iIntros (Hc Hlow Hidx Hes Hlen) "(Hm & Ht & Hb) He HQ".
  assert (fits (length (l1 ++ l2)) (length bs)) as Hfits.
  { apply (fits_mono _ _ _ Hlen). rw !length_app. simpl. lia. }
  wbind. wbind. iApply (wpm_inner_at with "Hm"). iIntros "Hm". cbn_im. iApply (wpm_dealloc with "He"). iIntros "_".
  wbind. iApply (wpm_inner_at with "Hm"). iIntros "Hm". cbn_im.
  assert (u64 (Z.of_nat (length (l1 ++ e :: l2)) - 1) = Z.of_nat (length (l1 ++ l2))) as ->.
  { destruct Hlen as [Hlen _]. rw !length_app in Hlen *. simpl in *. rw u64_small; lia. }
  wbind. wbind. iApply (wpm_inner_at with "Hm"). iIntros "Hm". cbn_im. iApply (wpm_set_cell with "Hm"). iIntros "Hm".
  case_decide as Hj.
  - wbind. iApply (wpm_next_non_null with "Ht"); [apply Hc|lia|done|]. iIntros (idx' Hok) "Ht".
    wbind. iApply (wpm_inner_at with "Hm"). iIntros "Hm". cbn_im. iApply (wpm_set_cell with "Hm"). iIntros "Hm".
    iApply "HQ". iApply (imap_intro with "[Hm Ht Hb]"); [exact Hes|done|done|].
    iApply raw_imap; [by apply imap_ok_intro|iFrame].
  - iApply wpm_ret. iApply "HQ". iApply (imap_intro with "[Hm Ht Hb]"); [exact Hes|done|done|].
    iApply raw_imap; [apply imap_ok_intro; [done|apply Hidx; lia]|iFrame].
Qed.

(** Without an entry, its bucket is still a bucket. *)
Lemma core_delete seed bs j b m1 e m2 :
  imap_core seed bs -> bs !! j = Some b -> bucket_entries b = m1 ++ e :: m2 ->
  (is_tree b = true -> m1 ++ m2 <> []) -> imap_core seed (<[j := rebucket b (m1 ++ m2)]> bs).
Proof.
  intros Hc Hb Hm Hne. apply (core_replace _ _ _ b); [done|done| | |].
  - eapply same_kind_sublist; [apply Hc|done|rw Hm; apply not_eq_sym, app_cons_not_nil|rw Hm !length_app; simpl; lia|].
    intros Ht. split; [by apply Hne|]. apply (sorted_delete m1 e). rw -Hm.
    pose proof (co_kinds _ _ Hc _ _ Hb) as Ok. destruct b; [done|apply Ok|constructor].
  - intros x Hx. exists x. split; [|done]. rw Hm elem_of_app elem_of_cons. apply elem_of_app in Hx. tauto.
  - pose proof (co_keys _ _ Hc) as Hnd. rw entries_insert; [|by eapply lookup_lt_Some].
    assert (bucket_entries (rebucket b (m1 ++ m2)) = m1 ++ m2) as -> by (destruct b; [done|done|by destruct m1]).
    assert (entries bs ≡ₚ e :: entries (take j bs) ++ (m1 ++ m2) ++ entries (drop (S j) bs)) as Hp.
    { rw (entries_split _ _ _ Hb) Hm. by rw -(Permutation_middle m1) -app_comm_cons -Permutation_middle. }
    rw Hp fmap_cons in Hnd. by apply NoDup_cons in Hnd as [_ Hnd].
Qed.

Lemma index_later bs i b idx : index_ok bs idx -> (idx < i)%nat -> index_ok (<[i := b]> bs) idx.
Proof.
  intros (Hle & Hn & Hnn) Hi. split_and!; [by rw length_insert| |].
  - intros x Hx. rw list_lookup_insert_ne; [|lia]. by apply Hn.
  - intros x. rw list_lookup_insert_ne; [|lia]. apply Hnn.
Qed.

(** What is left of the table when the entry [e] is gone. *)
Definition erased seed bs bs' idx j l1 l2 : Prop :=
  imap_core seed bs' /\ length bs' = length bs /\ index_low bs' idx /\ (j <> idx -> index_ok bs' idx) /\
  entries bs' = l1 ++ l2.

Lemma erased_bucket seed bs idx j b m1 e m2 l1 l2 :
  imap_ok seed bs idx -> bs !! j = Some b -> bucket_entries b = m1 ++ e :: m2 -> entries bs = l1 ++ e :: l2 ->
  (is_tree b = true -> m1 ++ m2 <> []) -> erased seed bs (<[j := rebucket b (m1 ++ m2)]> bs) idx j l1 l2.
Proof.
  intros Hok Hb Hm He Hne. pose proof (im_index _ _ _ Hok) as Hidx.
  assert (bucket_slot b <> None) as Hnn by (destruct b as [[|]| |]; [by destruct m1|done..]).
  pose proof (index_after _ _ _ _ Hidx Hb Hnn) as Hle. split_and!.
  - eapply core_delete; [by eapply imap_ok_core|done|done|done].
  - by rw length_insert.
  - apply index_low_insert; [|done]. by destruct Hidx as (? & ? & _).
  - intros Hj. apply index_later; [done|lia].
  - by apply (entries_replaced bs j b m1 e m2 l1 l2 []); [|..|eapply entries_NoDup|].
Qed.

Lemma erased_tree seed bs idx j t e l1 l2 :
  imap_ok seed bs idx -> bs !! j = Some (BTree t [e]) -> entries bs = l1 ++ e :: l2 ->
  erased seed bs (set_pair bs j (BList []) (BList [])) idx j l1 l2.
Proof.
  intros Hok Hb He. pose proof (im_index _ _ _ Hok) as Hidx.
  pose proof (index_after _ _ _ _ Hidx Hb ltac:(done)) as Hle.
  destruct (im_kinds _ _ _ Hok _ _ Hb) as (Hev & Hs & _). pose proof (lookup_lt_Some _ _ _ Hs) as Hlt.
  assert (entries (set_pair bs j (BList []) (BList [])) = l1 ++ l2) as Hes.
  { rw entries_set_pair; [|done]. simpl. pose proof He as He'. rw (entries_pair _ _ _ _ Hb Hs) in He'. simpl in He'.
    destruct (NoDup_middle e (entries (take j bs)) (entries (drop (S (S j)) bs)) l1 l2) as [-> ->]; [|done|done].
    rw He' -He. by eapply entries_NoDup. }
  split_and!; [split| | | |done].
  - rw length_set_pair. apply Hok.
  - apply kinds_set_pair; [apply Hok|done|done|simpl; lia].
  - intros i b x. rw length_set_pair lookup_set_pair; [|done]. repeat case_decide; [intros [= <-] ?%not_elem_of_nil; done..|].
    apply Hok.
  - rw Hes. pose proof (im_keys _ _ _ Hok) as Hnd. rw He fmap_app fmap_cons in Hnd. rw fmap_app.
    apply NoDup_app in Hnd as (? & Hd & [_ ?]%NoDup_cons). apply NoDup_app. split_and!; [done| |done].
    intros x Hx Hx'. apply (Hd x Hx). by right.
  - apply length_set_pair.
  - apply index_low_insert; [apply index_low_insert|]; [|lia|done]. by destruct Hidx as (? & ? & _).
  - intros Hj. apply index_later; [apply index_later|]; [done|lia|lia].
Qed.

Lemma wpm_erase_list this a ne seed bs idx tb j m1 e m2 (Q : Z -> hM K T) :
  table_ok bs -> bs !! j = Some (BList (m1 ++ e :: m2)) ->
  ⊢ raw_at this a ne seed bs idx tb -∗
    (∀ nx, raw_at this a ne seed (<[j := BList (m1 ++ m2)]> bs) idx tb -∗ node a nx e -∗ Q (Z.of_nat j)) -∗
    wpm (l ← TableEntryIsNonEmptyList tb (Z.of_nat j);
         st_lift (dcheck (l = true)) ;;
         x ← slot_at tb (Z.of_nat j);
         fuel ← heap_fuel;
         x ← EraseFromLinkedList fuel (addr e) x;
         set_slot tb (Z.of_nat j) x ;;
         mret (Z.of_nat j)) Q.
Proof.
  iIntros (Hok Hj) "(Hm & Ht & Hb) HQ". pose proof (separate_nodup _ _ _ (ok_separate _ Hok) Hj) as Hnd.
  wbind. iApply (wpm_TableEntryIsNonEmptyList with "Ht"); [done|exact Hj|]. iIntros "Ht".
  wbind. iApply wpm_dcheck; [by destruct m1|].
  wbind. iApply (wpm_bucket_slot with "Ht"); [exact Hj|]. iIntros "Ht". cbn [bucket_slot].
  iDestruct (buckets_acc _ _ _ _ Hj with "Hb") as "[Hl Hb]". cbn [bucket_own].
  wbind. iApply (chain_fuel with "Hl"). iIntros (fuel Hf) "Hl".
  wbind. iApply (wpm_EraseFromLinkedList with "Hl"); [done| |].
  { simpl in Hnd. rw fmap_app fmap_cons in Hnd. apply NoDup_app in Hnd as (_ & Hnd & _). intros Hin.
    apply (Hnd _ Hin). left. }
  iIntros (nx) "Hl He". wbind.
  iApply (wpm_set_bucket a tb bs j (BList (m1 ++ m2)) with "Ht"); [by eapply lookup_lt_Some|]. iIntros "Ht".
  iApply wpm_ret. iApply ("HQ" with "[Hm Ht Hb Hl] He"). unfold raw_at. rw length_insert. iFrame "Hm Ht".
  by iApply ("Hb" $! (BList (m1 ++ m2))).
Qed.

Lemma wpm_tree_erase_key a t m1 e m2 (Q : unit -> hM K T) :
  sorted (m1 ++ e :: m2) -> NoDup (ekey <$> m1 ++ e :: m2) -> NoDup (addr <$> m1 ++ e :: m2) ->
  ⊢ t ↦{a} CTree (addr <$> m1 ++ e :: m2) -∗ nodes a (m1 ++ e :: m2) -∗
    (t ↦{a} CTree (addr <$> m1 ++ m2) -∗ nodes a (m1 ++ e :: m2) -∗ Q tt) -∗
    wpm (tree_erase_key t (ekey e)) Q.
Proof.
  iIntros (Hs Hk Ha) "Ht Hl HQ". wbind. iApply (wpm_tree_find with "Ht Hl"); [done|]. iIntros "Ht Hl".
  rw (lookup_key_in _ (ekey e) e); [|done|apply elem_of_app; right; left|done]. simpl.
  rw fmap_app fmap_cons in Ha. apply NoDup_app in Ha as (_ & Hd & [Hin _]%NoDup_cons).
  iApply (wpm_tree_erase with "Ht"); [|done|].
  - intros Hx. apply (Hd _ Hx). left.
  - iIntros "Ht". iApply ("HQ" with "Ht Hl").
Qed.

(** The tree without the element is freed when it is empty. *)
Lemma wpm_erase_tree this a ne seed bs idx tb j t m1 e m2 (Q : Z -> hM K T) :
  imap_ok seed bs idx -> table_ok bs -> bs !! j = Some (BTree t (m1 ++ e :: m2)) ->
  ⊢ raw_at this a ne seed bs idx tb -∗
    (∀ bs', ⟨bs' = if decide (m1 ++ m2 = []) then set_pair bs j (BList []) (BList [])
                  else <[j := BTree t (m1 ++ m2)]> bs⟩ -∗
       raw_at this a ne seed bs' idx tb -∗ node a None e -∗ Q (Z.of_nat j)) -∗
    wpm (b ← TableEntryIsTree tb (Z.of_nat j);
         st_lift (dcheck (b = true)) ;;
         x ← slot_at tb (Z.of_nat j); tree ← deref x;
         p ← deref (Some (addr e)); k ← key_at p;
         tree_erase_key tree k ;;
         l ← tree_at tree;
         if decide (l = []) then
           DestroyTree this tree ;;
           set_slot tb (even_bucket (Z.of_nat j) + 1) None ;;
           set_slot tb (even_bucket (Z.of_nat j)) None ;;
           mret (even_bucket (Z.of_nat j))
         else mret (Z.of_nat j)) Q.
Proof.
  iIntros (Hok Htab Hj) "(Hm & Ht & Hb) HQ". pose proof (pow2_bounds _ (im_pow2 _ _ _ Hok)).
  pose proof (lookup_lt_Some _ _ _ Hj) as Hlt. destruct (ok_kinds _ Htab _ _ Hj) as (Hev & Hsh & _ & Hs).
  wbind. iApply (wpm_TableEntryIsTree with "Ht"); [done|exact Hj|]. iIntros "Ht". wbind. iApply wpm_dcheck; [done|].
  wbind. iApply (wpm_bucket_slot with "Ht"); [exact Hj|]. iIntros "Ht". cbn [bucket_slot].
  wbind. iApply wpm_deref. wbind. iApply wpm_deref.
  iDestruct (buckets_acc _ _ _ _ Hj with "Hb") as "[[Hr Hl] Hb]".
  iAssert (nodes a (m1 ++ e :: m2)) with "Hl" as "Hl". iDestruct (nodes_NoDup with "Hl") as "[Hl %Ha]".
  iAssert (node a None e ∗ (node a None e -∗ nodes a (m1 ++ e :: m2)))%I with "[Hl]" as "[He Hl]".
  { unfold nodes. rw big_sepL_app big_sepL_cons. iDestruct "Hl" as "($ & $ & $)". iIntros "$". }
  wbind. iApply (wpm_node_key with "He"). iIntros "He". iDestruct ("Hl" with "He") as "Hl".
  wbind. iApply (wpm_tree_erase_key with "Hr Hl"); [done| |done|].
  { pose proof (im_keys _ _ _ Hok) as Hnd. rw (entries_split _ _ _ Hj) !fmap_app in Hnd.
    apply NoDup_app in Hnd as (_ & _ & [Hnd _]%NoDup_app). by rw -fmap_app in Hnd. }
  iIntros "Hr Hl". wbind. iApply (wpm_tree_at with "Hr"). iIntros "Hr".
  iAssert (node a None e ∗ nodes a (m1 ++ m2))%I with "[Hl]" as "[He Hl]".
  { unfold nodes. rw !big_sepL_app big_sepL_cons. iDestruct "Hl" as "($ & $ & $)". }
  rw even_bucket_nat; [|lia]. unfold lead. rw Hev. destruct (decide (addr <$> m1 ++ m2 = [])) as [Hnil|Hnil].
  - apply fmap_nil_inv in Hnil. wbind. wbind. iApply (wpm_inner_at with "Hm"). iIntros "Hm". cbn_im.
    iApply (wpm_dealloc with "Hr"). iIntros "_".
    wbind. replace (Z.of_nat j + 1) with (Z.of_nat (S j)) by lia.
    iApply (wpm_set_bucket a tb bs (S j) (BList []) with "Ht"); [by eapply lookup_lt_Some|]. iIntros "Ht".
    wbind. iApply (wpm_set_bucket a tb _ j (BList []) with "Ht"); [by rw length_insert|]. iIntros "Ht". iApply wpm_ret.
    iApply ("HQ" with "[] [Hm Ht Hb Hl] He"); [by rw decide_True|].
    unfold raw_at, set_pair. rw !length_insert. iFrame "Hm Ht".
    iDestruct ("Hb" $! (BList []) with "[Hl]") as "Hb"; [rw Hnil; iExact "Hl"|].
    iDestruct (buckets_acc _ _ (S j) (BShared t) with "Hb") as "[_ Hb]"; [by rw list_lookup_insert_ne; [|lia]|].
    iDestruct ("Hb" $! (BList []) with "[//]") as "Hb". rw list_insert_insert_ne; [|lia]. iExact "Hb".
  - iApply wpm_ret. iApply ("HQ" with "[] [Hm Ht Hb Hr Hl] He"); [rw decide_False; [done|by intros E; rw E in Hnil]|].
    unfold raw_at, table_own. rw length_insert (set_same_slots _ _ _ _ _ Hj). iFrame "Hm Ht".
    iApply ("Hb" $! (BTree t (m1 ++ m2))). iFrame.
Qed.

Lemma wpm_erase this a l1 e l2 (z : Z) (Q : unit -> hM K T) :
  ⊢ imap this a (l1 ++ e :: l2) -∗ (imap this a (l1 ++ l2) -∗ Q tt) -∗
    wpm (erase this (It (Some (addr e)) (Some this) z)) Q.
Proof.
  iIntros "(%seed & %bs & %idx & %tb & [%Hes %Hsz] & Hi) HQ".
  assert (e ∈ entries bs) as He by (rw Hes; apply elem_of_app; right; left).
  wbind. iApply wpm_dcheck; [done|]. wbind. iApply (wpm_revalidate with "Hi"); [exact He|].
  iIntros (r (j & b & Hj & Hin & ->)) "Hi". cbn beta iota. cbn [bucket_index_ node_].
  pose proof Hin as (m1 & m2 & Hm12)%list_elem_of_split.
  iDestruct (imap_raw with "Hi") as "[(Hm & Ht & Hb) [%Hok %Htab]]".
  wbind. iApply wpm_deref. wbind. iApply (wpm_inner_at with "Hm"). iIntros "Hm". cbn_im.
  wbind. destruct b as [l|t l|t]; cbn [is_tree negb]; [| |by apply not_elem_of_nil in Hin]; simpl in Hm12; subst l.
  - iApply (wpm_erase_list with "[Hm Ht Hb]"); [done|exact Hj|by iFrame|]. iIntros (nx) "Hr He".
    destruct (erased_bucket _ _ _ _ _ _ _ _ _ _ Hok Hj eq_refl Hes ltac:(done)) as (Hc & _ & Hlow & Hidx & Hes').
    iApply (wpm_finish_erase with "Hr He HQ"); [done..|by rw length_insert].
  - iApply (wpm_erase_tree with "[Hm Ht Hb]"); [done|done|exact Hj|by iFrame|]. iIntros (bs' ->) "Hr He".
    assert (erased seed bs (if decide (m1 ++ m2 = []) then set_pair bs j (BList []) (BList [])
              else <[j := BTree t (m1 ++ m2)]> bs) idx j l1 l2) as (Hc & _ & Hlow & Hidx & Hes').
    { destruct (decide (m1 ++ m2 = [])) as [Hnil|Hnil].
      - apply app_eq_nil in Hnil as [-> ->]. by eapply erased_tree.
      - by apply (erased_bucket seed bs idx j (BTree t (m1 ++ e :: m2)) m1 e m2). }
    iApply (wpm_finish_erase with "Hr He HQ"); [done..|]. unfold set_pair. case_decide; by rw !length_insert.
Qed.
End erase.

(** ** [clear], and the destructor

    [clear] goes through the buckets and frees every node and every tree; the
    destructor frees the table too. *)

Section cleared.
  Context {K : Type} `{HashKey K}.
  Implicit Types (b : bucket K) (bs : list (bucket K)) (i j : nat) (t : Z).

(** The first [i] buckets are empty. *)
Definition cleared bs i : list (bucket K) := no_buckets i ++ drop i bs.

Lemma length_cleared bs i : (i <= length bs)%nat -> length (cleared bs i) = length bs.
Proof. intros Hi. unfold cleared, no_buckets. rw length_app length_replicate length_drop. lia. Qed.
Lemma lookup_cleared bs i j :
  cleared bs i !! j = if decide (j < i)%nat then Some (BList []) else bs !! j.
Proof.
  unfold cleared, no_buckets. case_decide.
  - rw lookup_app_l; [|rw length_replicate; lia]. by apply lookup_replicate_2.
  - rw lookup_app_r; [|rw length_replicate; lia]. rw length_replicate lookup_drop. f_equal. lia.
Qed.
Lemma cleared_S bs i : (i < length bs)%nat -> <[i := BList []]> (cleared bs i) = cleared bs (S i).
Proof.
  intros Hi. apply list_eq. intros j. rw lookup_cleared. destruct (decide (i = j)) as [<-|Hne].
  - rw list_lookup_insert_eq; [|rw length_cleared; lia]. by rw decide_True; [|lia].
  - rw list_lookup_insert_ne // lookup_cleared. by repeat case_decide; try lia.
Qed.

Lemma no_buckets_addrs i : no_buckets (K := K) i ≫= bucket_addrs = [].
Proof. by induction i. Qed.

Lemma cleared_ok bs i :
  table_ok bs -> (i <= length bs)%nat -> (forall t, bs !! i <> Some (BShared t)) -> table_ok (cleared bs i).
Proof.
  intros Hok Hi Hsh. split.
  - rw length_cleared; [apply Hok|done].
  - intros j b. rw lookup_cleared. case_decide as Hj; [by intros [= <-]; simpl; lia|]. intros Hb.
    pose proof (ok_kinds _ Hok _ _ Hb) as Hk. destruct b as [l|t l|t]; [done| |].
    + destruct Hk as (Hev & Hs & Hrest). split_and!; [done| |by destruct Hrest..].
      rw lookup_cleared. by rw decide_False; [|lia].
    + destruct Hk as (Hodd & l & Hl). split; [done|]. exists l. rw lookup_cleared. rw decide_False; [done|].
      intros Hlt. destruct (decide (j = i)) as [->|]; [by destruct (Hsh t)|]. lia.
  - unfold separate, cleared. rw bind_app no_buckets_addrs. simpl.
    pose proof (ok_separate _ Hok) as Hs. unfold separate in Hs. rewrite <- (take_drop i bs) in Hs.
    rw bind_app in Hs. by apply NoDup_app in Hs as (_ & _ & ?).
Qed.
End cleared.

Section clear.
  Context {K T : Type} `{HashKey K} `{!KeyLaws K}.
  Implicit Types (b : bucket K) (bs : list (bucket K)) (e : entry K) (l es : list (entry K)).
  Implicit Types (i j idx fuel n : nat) (seed this tb ne t : Z) (a : option Z).

Definition inner_own this a ne n seed idx tb : hM K T :=
  (this ↦{a} CInner (IM ne (Z.of_nat n) seed (Z.of_nat idx) tb a))%I.

Lemma wpm_DestroyNode this a ne n seed idx tb nx e (Q : unit -> hM K T) :
  ⊢ inner_own this a ne n seed idx tb -∗ node a nx e -∗ (inner_own this a ne n seed idx tb -∗ Q tt) -∗
    wpm (DestroyNode this (addr e)) Q.
Proof.
  iIntros "Hm He HQ". wbind. iApply (wpm_inner_at with "Hm"). iIntros "Hm". cbn_im.
  iApply (wpm_dealloc with "He"). iIntros "_". by iApply "HQ".
Qed.

Lemma wpm_clear_list this a ne n seed idx tb fuel e l (Q : unit -> hM K T) :
  (length l < fuel)%nat ->
  ⊢ inner_own this a ne n seed idx tb -∗ chain a (e :: l) -∗ (inner_own this a ne n seed idx tb -∗ Q tt) -∗
    wpm (clear_list fuel this (addr e)) Q.
Proof.
  revert e l. induction fuel as [|fuel IH]; intros e l Hf; [lia|].
  iIntros "Hm [He Hl] HQ". cbn [clear_list]. wbind. iApply (wpm_next_at with "He"). iIntros "He".
  wbind. iApply (wpm_DestroyNode _ _ _ _ _ _ _ _ e with "Hm He"). iIntros "Hm".
  destruct l as [|x l]; simpl; [iApply wpm_ret; by iApply "HQ"|]. simpl in Hf. iApply (IH with "Hm Hl HQ"). lia.
Qed.

Lemma wpm_clear_tree this a ne n seed idx tb fuel t e l (Q : unit -> hM K T) :
  (length l < fuel)%nat -> NoDup (addr <$> e :: l) ->
  ⊢ inner_own this a ne n seed idx tb -∗ t ↦{a} CTree (addr <$> e :: l) -∗ nodes a (e :: l) -∗
    (inner_own this a ne n seed idx tb -∗ t ↦{a} CTree [] -∗ Q tt) -∗
    wpm (clear_tree fuel this t (addr e)) Q.
Proof.
  revert e l. induction fuel as [|fuel IH]; intros e l Hf Hnd; [lia|].
  iIntros "Hm Ht [He Hl] HQ". cbn [clear_tree].
  wbind. iApply (wpm_tree_next a t [] e l with "Ht"); [apply not_elem_of_nil|]. iIntros "Ht".
  rw fmap_cons in Hnd. apply NoDup_cons in Hnd as [Hin Hnd].
  wbind. iApply (wpm_tree_erase a t [] e l with "Ht"); [apply not_elem_of_nil|done|]. iIntros "Ht".
  wbind. iApply (wpm_DestroyNode _ _ _ _ _ _ _ _ e with "Hm He"). iIntros "Hm".
  destruct l as [|x l]; simpl; [iApply wpm_ret; by iApply ("HQ" with "Hm Ht")|]. simpl in Hf.
  iApply (IH with "Hm Ht Hl HQ"); [lia|done].
Qed.

Lemma wpm_clear_loop this a ne seed idx tb bs i fuel (Q : unit -> hM K T) :
  table_ok bs -> (i <= length bs)%nat -> (length bs - i < fuel)%nat -> (forall t, bs !! i <> Some (BShared t)) ->
  ⊢ inner_own this a ne (length bs) seed idx tb -∗ table_own a tb (cleared bs i) -∗ buckets_own a (drop i bs) -∗
    (inner_own this a ne (length bs) seed idx tb -∗ table_own a tb (no_buckets (K := K) (length bs)) -∗ Q tt) -∗
    wpm (clear_loop fuel this tb (Z.of_nat (length bs)) (Z.of_nat i)) Q.
Proof.
  intros Hok. revert i. induction fuel as [|fuel IH]; intros i Hi Hf Hsh; [lia|].
  iIntros "Hm Ht Hb HQ". cbn [clear_loop]. pose proof (cleared_ok _ _ Hok Hi Hsh) as Hok'. case_decide as Hlt.
  2:{ assert (i = length bs) as -> by lia. unfold cleared. rw drop_all app_nil_r. iApply wpm_ret. iApply ("HQ" with "Hm Ht"). }
  destruct (lookup_lt_is_Some_2 bs i) as [b Hb]; [lia|].
  assert (cleared bs i !! i = Some b) as Hci by by rw lookup_cleared decide_False; [|lia].
  iDestruct (drop_bucket _ _ _ _ Hb with "Hb") as "[Hbi Hb]".
  wbind. iApply (wpm_TableEntryIsNonEmptyList with "Ht"); [done|exact Hci|]. iIntros "Ht".
  assert (is_tree b = false -> forall t, bs !! S i <> Some (BShared t)) as Hsh'.
  { intros Hb' t Ht. destruct (ok_kinds _ Hok _ _ Ht) as (_ & l & Hl). simpl in Hl. rw Hb in Hl. by injection Hl as ->. }
  replace (Z.of_nat i + 1) with (Z.of_nat (S i)) by lia. replace (Z.of_nat i + 2) with (Z.of_nat (S (S i))) by lia.
  assert (length (cleared bs i) = length bs) as Hlen by by apply length_cleared.
  destruct b as [[|e l]|t l|t]; cbn [is_list]; [| | |by destruct (Hsh t)].
  - wbind. iApply (wpm_TableEntryIsTree with "Ht"); [done|exact Hci|]. iIntros "Ht". cbn [is_tree].
    iDestruct "Hbi" as "_". assert (cleared bs i = cleared bs (S i)) as ->.
    { rw -cleared_S; [|lia]. symmetry. by apply list_insert_id. }
    iApply (IH with "Hm Ht Hb HQ"); [lia|lia|by apply Hsh'].
  - wbind. iApply (wpm_bucket_slot with "Ht"); [exact Hci|]. iIntros "Ht". wbind. iApply wpm_deref.
    wbind. iApply (wpm_set_bucket a tb _ i (BList []) with "Ht"); [lia|]. iIntros "Ht". rw cleared_S; [|lia].
    wbind. iApply (chain_fuel a (e :: l) with "Hbi"). iIntros (rounds Hr) "Hl". simpl in Hr.
    wbind. iApply (wpm_clear_list with "Hm Hl"); [lia|]. iIntros "Hm".
    iApply (IH with "Hm Ht Hb HQ"); [lia|lia|by apply Hsh'].
  - destruct (ok_kinds _ Hok _ _ Hb) as (Hev & Hs & Hne & _). pose proof (lookup_lt_Some _ _ _ Hs) as Hlt2.
    assert (cleared bs i !! S i = Some (BShared t)) as Hcs by by rw lookup_cleared decide_False; [|lia].
    wbind. iApply (wpm_TableEntryIsTree with "Ht"); [done|exact Hci|]. iIntros "Ht". cbn [is_tree].
    wbind. iApply (wpm_bucket_slot with "Ht"); [exact Hci|]. iIntros "Ht". wbind. iApply wpm_deref.
    wbind. iApply (wpm_bucket_slot with "Ht"); [exact Hcs|]. iIntros "Ht". wbind. iApply wpm_dcheck.
    { split; [done|]. change 1 with (Z.ones 1). rw Z.land_ones; [|lia]. rw even_mod in Hev. by apply bool_decide_eq_true in Hev. }
    wbind. iApply (wpm_set_bucket a tb _ (S i) (BList []) with "Ht"); [lia|]. iIntros "Ht".
    wbind. iApply (wpm_set_bucket a tb _ i (BList []) with "Ht"); [rw length_insert; lia|]. iIntros "Ht".
    rw list_insert_insert_ne; [|lia]. rw cleared_S; [|lia]. rw cleared_S; [|lia].
    iDestruct "Hbi" as "[Hr Hl]". destruct l as [|e l]; [done|].
    wbind. iApply (wpm_tree_at with "Hr"). iIntros "Hr". wbind. iApply wpm_deref.
    iDestruct (nodes_NoDup a (e :: l) with "Hl") as "[Hl %Ha]".
    wbind. iApply (nodes_fuel a (e :: l) with "Hl"). iIntros (rounds Hrd) "Hl". simpl in Hrd.
    wbind. iApply (wpm_clear_tree with "Hm Hr Hl"); [lia|done|]. iIntros "Hm Hr".
    wbind. wbind. iApply (wpm_inner_at with "Hm"). iIntros "Hm". cbn_im. iApply (wpm_dealloc with "Hr"). iIntros "_".
    iDestruct (drop_bucket _ _ _ _ Hs with "Hb") as "[_ Hb]".
    iApply (IH with "Hm Ht Hb HQ"); [lia|lia|].
    intros t' Ht'. destruct (ok_kinds _ Hok _ _ Ht') as (Hodd & _). by rw !even_S Hev in Hodd.
Qed.

Lemma wpm_clear_at this a ne seed bs idx tb (Q : unit -> hM K T) :
  ⊢ imap_at this a ne seed bs idx tb -∗
    (imap_at this a 0 seed (no_buckets (length bs)) (length bs) tb -∗ Q tt) -∗ wpm (clear this) Q.
Proof.
  iIntros "Hi HQ". iDestruct (imap_open with "Hi") as "(Hm & Ht & Hb & %Hok & %Htab)".
  wbind. iApply (wpm_inner_at with "Hm"). iIntros "Hm". cbn_im. wbind.
  iApply (wpm_clear_loop _ _ _ _ _ _ bs 0 with "Hm Ht Hb"); [done|lia|lia| |].
  { intros t Ht. by destruct (ok_kinds _ Htab _ _ Ht). }
  iIntros "Hm Ht". wbind. wbind. iApply (wpm_inner_at with "Hm"). iIntros "Hm". iApply (wpm_set_cell with "Hm"). iIntros "Hm".
  wbind. iApply (wpm_inner_at with "Hm"). iIntros "Hm". wbind. iApply (wpm_inner_at with "Hm"). iIntros "Hm".
  iApply (wpm_set_cell with "Hm"). iIntros "Hm". cbn_im. iApply "HQ". unfold imap_at.
  iFrame "Ht". unfold no_buckets at 1. rw length_replicate. iFrame "Hm".
  iSplitL; [iApply no_buckets_own|iPureIntro; apply no_buckets_ok, Hok].
Qed.

Lemma wpm_clear this a es (Q : unit -> hM K T) :
  ⊢ imap this a es -∗ (imap this a [] -∗ Q tt) -∗ wpm (clear this) Q.
Proof.
  iIntros "(%seed & %bs & %idx & %tb & [%Hes %Hsz] & Hi) HQ". iApply (wpm_clear_at with "Hi"). iIntros "Hi". iApply "HQ".
  iApply (imap_intro with "Hi"); [apply entries_replicate| |done].
  unfold no_buckets. rw length_replicate. apply (fits_mono _ _ _ Hsz). simpl. lia.
Qed.

(** The destructor leaves the memory of the object. *)
Lemma wpm_table_destroy this a es (Q : unit -> hM K T) :
  ⊢ imap this a es -∗ (∀ m, this ↦{a} CInner m -∗ Q tt) -∗ wpm (destroy this) Q.
Proof.
  iIntros "(%seed & %bs & %idx & %tb & [%Hes %Hsz] & Hi) HQ". iDestruct "Hi" as "(Hm & Ht & Hb & %Hok)".
  wbind. iApply (wpm_inner_at with "Hm"). iIntros "Hm".
  wbind. iApply (wpm_clear_at with "[Hm Ht Hb]"); [by iFrame|]. iIntros "(Hm & Ht & Hb & _)".
  iAssert emp%I with "[Hb]" as "_".
  { unfold buckets_own, no_buckets. iApply big_sepL_emp. iApply (big_sepL_mono with "Hb").
    by intros i b [-> _]%lookup_replicate. }
  wbind. iApply (wpm_inner_at with "Hm"). iIntros "Hm". cbn_im.
  iApply (wpm_dealloc with "Ht"). iIntros "_". iApply ("HQ" with "Hm").
Qed.

(** A table on an arena goes with the arena. *)
Lemma sep_list_garbage {A} (Φ : A -> hM K T) (xs : list A) :
  (forall x, Φ x ⊢ garbage) -> ([∗ list] x ∈ xs, Φ x) ⊢ garbage.
Proof.
  intros HΦ. induction xs as [|x xs IH]; simpl; [apply garbage_emp|]. by apply garbage_sep.
Qed.
Lemma chain_garbage a l : a <> None -> chain (T := T) a l ⊢ garbage.
Proof.
  intros Ha. induction l as [|e l IH]; cbn [chain]; [apply garbage_emp|].
  apply garbage_sep; [by apply cell_garbage|done].
Qed.
Lemma bucket_garbage a b : a <> None -> bucket_own (T := T) a b ⊢ garbage.
Proof.
  intros Ha. destruct b as [l|t l|t]; simpl; [by apply chain_garbage| |apply garbage_emp].
  apply garbage_sep; [by apply cell_garbage|]. apply sep_list_garbage. intros e. by apply cell_garbage.
Qed.
Lemma imap_garbage this a es : a <> None -> imap (T := T) this a es ⊢ garbage.
Proof.
  intros Ha. iIntros "(%seed & %bs & %idx & %tb & %Hes & Hi)". iStopProof. unfold imap_at.
  apply garbage_sep; [by apply cell_garbage|]. apply garbage_sep; [by apply cell_garbage|].
  apply garbage_sep; [|apply garbage_pure]. apply sep_list_garbage. intros b. by apply bucket_garbage.
Qed.
End clear.
