(* ===== verification/ProtoMapOps.v ===== *)
(** * Maps: what each method does

    [pmap this a d e xs] owns the map at [this], which is on the arena [a] and whose
    default for enums is [d], its hash table and the pairs of its items [xs], in the
    order of the iteration.  An item knows its node and its pair: both stay where they
    are as long as the item is in the map. *)
From Stdlib Require Import ZArith Lia.
From stdpp Require Import base tactics option list list_numbers gmap.
From iris.bi Require Import bi big_op.
From iris.proofmode Require Import proofmode.
From S2P Require Import Prelude Bits HeapLogic InnerMap MapLogic MapBuckets MapTree MapFind MapIter MapInsert MapResize.
From S2P Require Import MapOps MapErase ProtoMap.

Record item (K T : Type) := I { inode : Z; ipair : Z; ikey : K; ival : T }.
Arguments I {K T} _ _ _ _.
Arguments inode {K T} _.
Arguments ipair {K T} _.
Arguments ikey {K T} _.
Arguments ival {K T} _.

Section ops.
  Context {K T : Type} `{HashKey K} `{!KeyLaws K} `{Mapped K T} `{Clock K T}.
  Implicit Types (x : item K T) (xs ys : list (item K T)) (k : K) (v : T) (this other p q e g : Z) (a : option Z) (d z : Z).

Definition item_entry x : entry K := E (inode x) (ikey x) (Some (ipair x)).
Definition pair_own a x : hM K T := (ipair x ↦{a} CPair (ikey x) (ival x))%I.
Definition pairs_own a xs : hM K T := ([∗ list] x ∈ xs, pair_own a x)%I.
Definition pmap this a d e xs : hM K T :=
  (this ↦{a} CMap (MkMap a d e) ∗ imap e a (item_entry <$> xs) ∗ pairs_own a xs)%I.

(** The item with a key. *)
Fixpoint find_item k xs : option (item K T) :=
  match xs with
  | [] => None
  | x :: xs => if decide (ikey x = k) then Some x else find_item k xs
  end.

Lemma find_item_entry k xs : lookup_key k (item_entry <$> xs) = item_entry <$> find_item k xs.
Proof. induction xs as [|x xs IH]; [done|]. simpl. by case_decide. Qed.
Lemma find_item_None k xs : find_item k xs = None -> k ∉ ikey <$> xs.
Proof.
  induction xs as [|x xs IH]; [intros _; apply not_elem_of_nil|]. simpl. case_decide; [done|].
  intros Hk. apply not_elem_of_cons. split; [congruence|by apply IH].
Qed.
Lemma find_item_split k xs x : find_item k xs = Some x -> ikey x = k /\ exists l1 l2, xs = l1 ++ x :: l2.
Proof.
  induction xs as [|y xs IH]; [done|]. simpl. case_decide as Hk.
  - intros [= ->]. split; [done|]. by exists [], xs.
  - intros Hx. destruct (IH Hx) as (? & l1 & l2 & ->). split; [done|]. by exists (y :: l1), l2.
Qed.
Lemma item_keys xs : ekey <$> (item_entry <$> xs) = ikey <$> xs.
Proof. by rw -list_fmap_compose. Qed.

Lemma pmap_keys this a d e xs : pmap this a d e xs ⊢ pmap this a d e xs ∗ ⟨NoDup (ikey <$> xs)⟩.
Proof.
  iIntros "(Hm & Hi & Hp)". iDestruct (imap_keys with "Hi") as "[Hi %Hnd]". rw item_keys in Hnd. by iFrame.
Qed.
Lemma pmap_ne this other a b d e f g xs ys : pmap this a d e xs ∗ pmap other b f g ys ⊢ ⌜this <> other⌝.
Proof.
  iIntros "[(Hm & Hi & Hp) (Hm' & Hi' & Hp')]".
  iDestruct (cell_ne with "[$Hm $Hm']") as %Hne. done.
Qed.

(** ** Cells *)

Lemma wpm_map_at p a m (Q : Map -> hM K T) :
  ⊢ p ↦{a} CMap m -∗ (p ↦{a} CMap m -∗ Q m) -∗ wpm (map_at p) Q.
Proof.
  iIntros "Hp HQ". wbind. iApply (wpm_cell_at with "Hp"). iIntros "Hp". iApply wpm_ret. by iApply "HQ".
Qed.
Lemma wpm_pair_at p a k v (Q : K * T -> hM K T) :
  ⊢ p ↦{a} CPair k v -∗ (p ↦{a} CPair k v -∗ Q (k, v)) -∗ wpm (pair_at p) Q.
Proof.
  iIntros "Hp HQ". wbind. iApply (wpm_cell_at with "Hp"). iIntros "Hp". iApply wpm_ret. by iApply "HQ".
Qed.
Lemma wpm_set_second p a k v w (Q : unit -> hM K T) :
  ⊢ p ↦{a} CPair k v -∗ (p ↦{a} CPair k w -∗ Q tt) -∗ wpm (set_second p w) Q.
Proof.
  iIntros "Hp HQ". wbind. iApply (wpm_pair_at with "Hp"). iIntros "Hp". iApply (wpm_set_cell with "Hp HQ").
Qed.

(** The cells of one item. *)
Lemma pairs_acc a l1 x l2 :
  pairs_own a (l1 ++ x :: l2) ⊢ pair_own a x ∗ (∀ y, pair_own a y -∗ pairs_own a (l1 ++ y :: l2)).
Proof.
  unfold pairs_own. rw big_sepL_app big_sepL_cons. iIntros "(H1 & $ & H2)" (y) "Hy".
  rw big_sepL_app big_sepL_cons. iFrame.
Qed.
Lemma imap_node_value e a l1 x l2 (Q : K * option Z * option Z -> hM K T) :
  ⊢ imap e a (item_entry <$> l1 ++ x :: l2) -∗
    (∀ nx, imap e a (item_entry <$> l1 ++ x :: l2) -∗ Q (ikey x, Some (ipair x), nx)) -∗ wpm (node_at (inode x)) Q.
Proof.
  rw fmap_app fmap_cons. iIntros "Hi HQ". iDestruct (imap_node with "Hi") as "(%nx & Hn & Hi)".
  iApply (wpm_node_at with "Hn"). iIntros "Hn". iApply "HQ". iApply ("Hi" $! (Some (ipair x)) with "Hn").
Qed.

(** An iterator at an item. *)
Definition it_at e x z : iterator := It (Some (inode x)) (Some e) z.

Lemma wpm_arrow e a l1 x l2 z (Q : Z -> hM K T) :
  ⊢ imap e a (item_entry <$> l1 ++ x :: l2) -∗
    (imap e a (item_entry <$> l1 ++ x :: l2) -∗ Q (ipair x)) -∗ wpm (arrow (it_at e x z)) Q.
Proof.
  iIntros "Hi HQ". wbind. iApply wpm_deref. wbind. iApply (imap_node_value with "Hi"). iIntros (nx) "Hi".
  iApply wpm_deref. by iApply "HQ".
Qed.

Lemma head_entry xs : addr <$> head (item_entry <$> xs) = inode <$> head xs.
Proof. by destruct xs. Qed.

Lemma wpm_map_incr e a l1 x l2 z (Q : iterator -> hM K T) :
  ⊢ imap e a (item_entry <$> l1 ++ x :: l2) -∗
    (∀ z', imap e a (item_entry <$> l1 ++ x :: l2) -∗ Q (It (inode <$> head l2) (Some e) z')) -∗
    wpm (incr (it_at e x z)) Q.
Proof.
  rw fmap_app fmap_cons. iIntros "Hi HQ". iApply (wpm_incr _ _ _ (item_entry x) with "Hi"). iIntros (z') "Hi".
  rw head_entry. by iApply "HQ".
Qed.

(** ** Capacity and lookup *)

Lemma wpm_map_size this a d e xs (Q : Z -> hM K T) :
  ⊢ pmap this a d e xs -∗ (pmap this a d e xs -∗ Q (Z.of_nat (length xs))) -∗ wpm (size this) Q.
Proof.
  iIntros "(Hm & Hi & Hp) HQ". wbind. iApply (wpm_map_at with "Hm"). iIntros "Hm". cbn [elements_].
  iApply (wpm_table_size with "Hi"). iIntros "Hi". rw length_fmap. iApply "HQ". iFrame.
Qed.
Lemma wpm_map_empty this a d e xs (Q : bool -> hM K T) :
  ⊢ pmap this a d e xs -∗ (pmap this a d e xs -∗ Q (bool_decide (xs = []))) -∗ wpm (empty this) Q.
Proof.
  iIntros "Hmap HQ". wbind. iApply (wpm_map_size with "Hmap"). iIntros "Hmap". iApply wpm_ret.
  iSpecialize ("HQ" with "Hmap"). by destruct xs.
Qed.

(** [find] inside the table. *)
Definition finds_item e k xs (it : iterator) : Prop :=
  match find_item k xs with Some x => exists z, it = it_at e x z | None => it = end_ end.

Lemma wpm_table_find e a k xs (Q : iterator -> hM K T) :
  ⊢ imap e a (item_entry <$> xs) -∗
    (∀ it, ⟨finds_item e k xs it⟩ -∗ imap e a (item_entry <$> xs) -∗ Q it) -∗ wpm (InnerMap.find e k) Q.
Proof.
  iIntros "Hi HQ". iApply (wpm_find with "Hi"). iIntros (it Hit) "Hi". iApply ("HQ" with "[] Hi"). iPureIntro.
  unfold finds, finds_item in *. rw find_item_entry in Hit. destruct (find_item k xs) as [x|]; [|done].
  destruct it as [n m z]. exists z. unfold it_at. simpl in Hit. by destruct Hit as [-> ->].
Qed.
Lemma finds_item_end e k xs it : finds_item e k xs it -> at_end it = bool_decide (find_item k xs = None).
Proof. unfold finds_item. destruct (find_item k xs); [by intros [z ->]|by intros ->]. Qed.

Lemma wpm_map_find this a d e xs k (Q : iterator -> hM K T) :
  ⊢ pmap this a d e xs -∗ (∀ it, ⟨finds_item e k xs it⟩ -∗ pmap this a d e xs -∗ Q it) -∗ wpm (find this k) Q.
Proof.
  iIntros "(Hm & Hi & Hp) HQ". wbind. iApply (wpm_map_at with "Hm"). iIntros "Hm". cbn [elements_].
  iApply (wpm_table_find with "Hi"). iIntros (it Hit) "Hi". iApply ("HQ" $! it with "[] [Hm Hi Hp]"); [done|].
  iFrame.
Qed.
Lemma wpm_map_contains this a d e xs k (Q : bool -> hM K T) :
  ⊢ pmap this a d e xs -∗ (pmap this a d e xs -∗ Q (bool_decide (find_item k xs <> None))) -∗ wpm (contains this k) Q.
Proof.
  iIntros "(Hm & Hi & Hp) HQ". wbind. iApply (wpm_map_at with "Hm"). iIntros "Hm". cbn [elements_].
  iApply (wpm_contains with "Hi"). iIntros "Hi". rw find_item_entry.
  iAssert (pmap this a d e xs) with "[Hm Hi Hp]" as "Hmap"; [iFrame|].
  iSpecialize ("HQ" with "Hmap"). by destruct (find_item k xs).
Qed.

(** A reference to the value of a key: the pair. *)
Lemma pmap_item this a d e l1 x l2 :
  pmap this a d e (l1 ++ x :: l2) ⊢
    pair_own a x ∗ (∀ v, pair_own a (I (inode x) (ipair x) (ikey x) v) -∗
                      pmap this a d e (l1 ++ I (inode x) (ipair x) (ikey x) v :: l2)).
Proof.
  iIntros "(Hm & Hi & Hp)". iDestruct (pairs_acc with "Hp") as "[$ Hp]". iIntros (v) "Hx".
  iDestruct ("Hp" with "Hx") as "Hp". iFrame. rw !fmap_app !fmap_cons. iExact "Hi".
Qed.

Lemma wpm_at_ this a d e l1 x l2 (Q : Z -> hM K T) :
  find_item (ikey x) (l1 ++ x :: l2) = Some x ->
  ⊢ pmap this a d e (l1 ++ x :: l2) -∗ (pmap this a d e (l1 ++ x :: l2) -∗ Q (ipair x)) -∗ wpm (at_ this (ikey x)) Q.
Proof.
  iIntros (Hx) "(Hm & Hi & Hp) HQ". wbind. wbind. iApply (wpm_map_at with "Hm"). iIntros "Hm". cbn [elements_].
  iApply (wpm_table_find with "Hi"). iIntros (it Hit) "Hi". rw (finds_item_end _ _ _ _ Hit) Hx.
  unfold finds_item in Hit. rw Hx in Hit. destruct Hit as [z ->]. rw bool_decide_false //.
  iApply (wpm_arrow with "Hi"). iIntros "Hi". iApply "HQ". iFrame.
Qed.

Lemma wpm_map_count this a d e xs k (Q : Z -> hM K T) :
  ⊢ pmap this a d e xs -∗ (pmap this a d e xs -∗ Q (match find_item k xs with Some _ => 1 | None => 0 end)) -∗ wpm (count this k) Q.
Proof.
  iIntros "(Hm & Hi & Hp) HQ". wbind. wbind. iApply (wpm_map_at with "Hm"). iIntros "Hm". cbn [elements_].
  iApply (wpm_table_find with "Hi"). iIntros (it Hit) "Hi". rw (finds_item_end _ _ _ _ Hit).
  unfold finds_item in Hit. destruct (find_item k xs) as [x|] eqn:Hx.
  - destruct Hit as [z ->]. rw bool_decide_false //. destruct (find_item_split _ _ _ Hx) as (Hk & l1 & l2 & ->).
    wbind. wbind. iApply (wpm_arrow with "Hi"). iIntros "Hi". wbind.
    iDestruct (pairs_acc with "Hp") as "[Hx Hp]". iApply (wpm_pair_at with "Hx"). iIntros "Hx".
    iDestruct ("Hp" with "Hx") as "Hp". iApply wpm_dcheck; [done|]. iApply wpm_ret. iApply "HQ". iFrame.
  - rw bool_decide_true //. wbind. iApply wpm_ret. iApply wpm_ret. iApply "HQ". iFrame.
Qed.

Lemma wpm_map_equal_range this a d e xs k (Q : iterator * iterator -> hM K T) :
  ⊢ pmap this a d e xs -∗
    (∀ first last, ⟨finds_item e k xs first /\
       match find_item k xs with
       | Some x => exists l1 l2 z, xs = l1 ++ x :: l2 /\ last = It (inode <$> head l2) (Some e) z
       | None => last = end_
       end⟩ -∗ pmap this a d e xs -∗ Q (first, last)) -∗ wpm (equal_range this k) Q.
Proof.
  iIntros "(Hm & Hi & Hp) HQ". wbind. wbind. iApply (wpm_map_at with "Hm"). iIntros "Hm". cbn [elements_].
  iApply (wpm_table_find with "Hi"). iIntros (it Hit) "Hi". rw (finds_item_end _ _ _ _ Hit).
  pose proof Hit as Hit'. unfold finds_item in Hit. destruct (find_item k xs) as [x|] eqn:Hx.
  - destruct Hit as [z ->]. rw bool_decide_false //. destruct (find_item_split _ _ _ Hx) as (Hk & l1 & l2 & ->).
    wbind. iApply (wpm_map_incr with "Hi"). iIntros (z') "Hi". iApply wpm_ret.
    iApply ("HQ" with "[] [Hm Hi Hp]"); [|iFrame]. iPureIntro. split; [done|]. by exists l1, l2, z'.
  - rw bool_decide_true //. iApply wpm_ret. iApply ("HQ" with "[] [Hm Hi Hp]"); [done|iFrame].
Qed.

Lemma wpm_map_begin this a d e xs (Q : iterator -> hM K T) :
  ⊢ pmap this a d e xs -∗ (∀ z, pmap this a d e xs -∗ Q (It (inode <$> head xs) (Some e) z)) -∗ wpm (begin this) Q.
Proof.
  iIntros "(Hm & Hi & Hp) HQ". wbind. iApply (wpm_map_at with "Hm"). iIntros "Hm". cbn [elements_].
  iApply (wpm_begin with "Hi"). iIntros (z) "Hi". rw head_entry. iApply "HQ". iFrame.
Qed.

(** ** Values, and insertion *)

Lemma wpm_create_key this a d e k (Q : Z -> hM K T) :
  ⊢ this ↦{a} CMap (MkMap a d e) -∗
    (∀ q, this ↦{a} CMap (MkMap a d e) -∗ q ↦{a} CPair k value_default -∗ Q q) -∗
    wpm (CreateValueTypeInternal_key this k) Q.
Proof.
  iIntros "Hm HQ". wbind. iApply (wpm_map_at with "Hm"). iIntros "Hm". cbn [arena_]. case_decide as Ha.
  - subst a. iApply wpm_new_cell. iIntros (q) "Hq". iApply ("HQ" with "Hm Hq").
  - wbind. iApply wpm_new_cell. iIntros (q) "Hq". wbind. iApply (wpm_pair_at with "Hq"). iIntros "Hq".
    wbind. iApply (wpm_set_cell with "Hq"). iIntros "Hq". iApply wpm_ret. iApply ("HQ" with "Hm Hq").
Qed.
Lemma wpm_create_value this a d e k v (Q : Z -> hM K T) :
  ⊢ this ↦{a} CMap (MkMap a d e) -∗
    (∀ q, this ↦{a} CMap (MkMap a d e) -∗ q ↦{a} CPair k v -∗ Q q) -∗
    wpm (CreateValueTypeInternal_value this k v) Q.
Proof.
  iIntros "Hm HQ". wbind. iApply (wpm_map_at with "Hm"). iIntros "Hm". cbn [arena_]. case_decide as Ha.
  - subst a. iApply wpm_new_cell. iIntros (q) "Hq". iApply ("HQ" with "Hm Hq").
  - wbind. iApply wpm_new_cell. iIntros (q) "Hq". wbind. iApply (wpm_pair_at with "Hq"). iIntros "Hq".
    wbind. iApply (wpm_set_cell with "Hq"). iIntros "Hq".
    wbind. iApply (wpm_set_second with "Hq"). iIntros "Hq". iApply wpm_ret. iApply ("HQ" with "Hm Hq").
Qed.

(** What a new value is: the default, or for an enum its declared default. *)
Definition initial_value d : T := match enum_cast with Some cast => cast d | None => value_default end.

Lemma wpm_Initialize q a k d (Q : unit -> hM K T) :
  ⊢ q ↦{a} CPair k value_default -∗ (q ↦{a} CPair k (initial_value d) -∗ Q tt) -∗ wpm (Initialize q d) Q.
Proof.
  iIntros "Hq HQ". unfold Initialize, initial_value. destruct enum_cast; [iApply (wpm_set_second with "Hq HQ")|].
  iApply wpm_ret. by iApply "HQ".
Qed.

(** A new node becomes an item when its value is set. *)
Lemma new_item_split es p k xs :
  es ≡ₚ E p k None :: (item_entry <$> xs) ->
  exists l1 l2, es = (item_entry <$> l1) ++ E p k None :: (item_entry <$> l2) /\ l1 ++ l2 ≡ₚ xs.
Proof.
  intros Hp. assert (E p k None ∈ es) as (m1 & m2 & ->)%list_elem_of_split by (rw Hp; left).
  rewrite <- Permutation_middle in Hp. apply Permutation_cons_inv in Hp.
  apply Permutation_map_inv in Hp as (ys & Hys & Hp). symmetry in Hys. apply fmap_app_inv in Hys as (l1 & l2 & -> & -> & ->).
  exists l1, l2. split; [done|by symmetry].
Qed.

Lemma imap_new_item e a es p k xs :
  es ≡ₚ E p k None :: (item_entry <$> xs) ->
  imap (T := T) e a es ⊢ ∃ nx l1 l2, ⟨l1 ++ l2 ≡ₚ xs⟩ ∗ p ↦{a} CNode k None nx ∗
    (∀ q v, p ↦{a} CNode k (Some q) nx -∗ imap e a (item_entry <$> l1 ++ I p q k v :: l2)).
Proof.
  iIntros (Hp) "Hi". destruct (new_item_split _ _ _ _ Hp) as (l1 & l2 & -> & Hl).
  iDestruct (imap_node with "Hi") as "(%nx & Hn & Hi)". iExists nx, l1, l2. iSplitR; [done|]. iFrame "Hn".
  iIntros (q v) "Hn". rw fmap_app fmap_cons. iApply ("Hi" $! (Some q) with "Hn").
Qed.

Lemma pairs_perm a xs ys : xs ≡ₚ ys -> pairs_own a xs ⊢ pairs_own a ys.
Proof. intros Hp. unfold pairs_own. by rw Hp. Qed.
Lemma pairs_new a l1 p q k v l2 xs :
  l1 ++ l2 ≡ₚ xs -> q ↦{a} CPair k v ∗ pairs_own a xs ⊢ pairs_own a (l1 ++ I p q k v :: l2).
Proof.
  iIntros (Hp) "[Hq Hps]". iApply (pairs_perm _ (I p q k v :: xs)); [by rw -Hp -Permutation_middle|].
  unfold pairs_own. simpl. iFrame.
Qed.

(** [operator[]], of a key that the map has and of a new key. *)
Lemma wpm_value_ref_present this a d e l1 x l2 (Q : Z -> hM K T) :
  find_item (ikey x) (l1 ++ x :: l2) = Some x ->
  ⊢ pmap this a d e (l1 ++ x :: l2) -∗ (pmap this a d e (l1 ++ x :: l2) -∗ Q (ipair x)) -∗ wpm (value_ref this (ikey x)) Q.
Proof.
  iIntros (Hx) "(Hm & Hi & Hp) HQ". wbind. iApply (wpm_map_at with "Hm"). iIntros "Hm". cbn [elements_].
  wbind. wbind. iApply (wpm_insert_present with "Hi"); [by rw find_item_entry Hx|]. iIntros (z) "Hi". cbn [fst node_].
  iApply wpm_deref. wbind. cbn [addr item_entry]. iApply (imap_node_value with "Hi"). iIntros (nx) "Hi". cbn [fst snd].
  iApply wpm_ret. iApply "HQ". iFrame.
Qed.
Lemma wpm_value_ref_absent this a d e xs k (Q : Z -> hM K T) :
  find_item k xs = None -> Z.of_nat (length xs) + 1 < 2 ^ 64 ->
  ⊢ pmap this a d e xs -∗
    (∀ p q l1 l2, ⟨l1 ++ l2 ≡ₚ xs⟩ -∗ pmap this a d e (l1 ++ I p q k (initial_value d) :: l2) -∗ Q q) -∗
    wpm (value_ref this k) Q.
Proof.
  iIntros (Hx Hlen) "(Hm & Hi & Hp) HQ". wbind. iApply (wpm_map_at with "Hm"). iIntros "Hm". cbn [elements_].
  wbind. wbind. iApply (wpm_insert_absent with "Hi"); [by rw find_item_entry Hx|by rw length_fmap|].
  iIntros (p es z Hes) "Hi". cbn [fst node_]. iApply wpm_deref.
  iDestruct (imap_new_item _ _ _ _ _ _ Hes with "Hi") as "(%nx & %l1 & %l2 & %Hl & Hn & Hi)".
  wbind. iApply (wpm_node_at with "Hn"). iIntros "Hn". cbn [fst snd].
  wbind. iApply (wpm_create_key with "Hm"). iIntros (q) "Hm Hq".
  wbind. iApply (wpm_set_value with "Hn"). iIntros "Hn".
  wbind. cbn [default_enum_value_]. iApply (wpm_Initialize with "Hq"). iIntros "Hq". iApply wpm_ret.
  iDestruct ("Hi" $! q (initial_value d) with "Hn") as "Hi".
  iDestruct (pairs_new _ _ p _ _ _ _ _ Hl with "[$Hq $Hp]") as "Hp".
  iApply ("HQ" with "[] [Hm Hi Hp]"); [done|]. iFrame.
Qed.

Lemma wpm_map_insert_present this a d e xs k v x (Q : iterator * bool -> hM K T) :
  find_item k xs = Some x ->
  ⊢ pmap this a d e xs -∗ (∀ z, pmap this a d e xs -∗ Q (it_at e x z, false)) -∗ wpm (insert this k v) Q.
Proof.
  iIntros (Hx) "(Hm & Hi & Hp) HQ". wbind. iApply (wpm_map_at with "Hm"). iIntros "Hm". cbn [elements_].
  wbind. iApply (wpm_insert_present with "Hi"); [by rw find_item_entry Hx|]. iIntros (z) "Hi". cbn [snd].
  iApply wpm_ret. iApply "HQ". iFrame.
Qed.
Lemma wpm_map_insert_absent this a d e xs k v (Q : iterator * bool -> hM K T) :
  find_item k xs = None -> Z.of_nat (length xs) + 1 < 2 ^ 64 ->
  ⊢ pmap this a d e xs -∗
    (∀ z p q l1 l2, ⟨l1 ++ l2 ≡ₚ xs⟩ -∗ pmap this a d e (l1 ++ I p q k v :: l2) -∗
       Q (it_at e (I p q k v) z, true)) -∗
    wpm (insert this k v) Q.
Proof.
  iIntros (Hx Hlen) "(Hm & Hi & Hp) HQ". wbind. iApply (wpm_map_at with "Hm"). iIntros "Hm". cbn [elements_].
  wbind. iApply (wpm_insert_absent with "Hi"); [by rw find_item_entry Hx|by rw length_fmap|].
  iIntros (p es z Hes) "Hi". cbn [snd fst node_].
  iDestruct (imap_new_item _ _ _ _ _ _ Hes with "Hi") as "(%nx & %l1 & %l2 & %Hl & Hn & Hi)".
  wbind. iApply (wpm_create_value with "Hm"). iIntros (q) "Hm Hq". wbind. iApply wpm_deref.
  wbind. iApply (wpm_set_value with "Hn"). iIntros "Hn". iApply wpm_ret.
  iDestruct ("Hi" $! q v with "Hn") as "Hi".
  iDestruct (pairs_new _ _ p _ _ _ _ _ Hl with "[$Hq $Hp]") as "Hp".
  iApply ("HQ" $! z p q l1 l2 with "[] [Hm Hi Hp]"); [done|]. iFrame.
Qed.
End ops.
