(* ===== verification/ProtoMapErase.v ===== *)
(** * Maps: insertion of ranges, erasing, copies, swaps, destruction

    [grown xs xs' l]: the items [xs'] are those of [xs] and new ones for the keys of
    [l] that were not there, the first value of each key; their order is any. *)
From Stdlib Require Import ZArith Lia.
From stdpp Require Import base tactics option list list_numbers gmap.
From iris.bi Require Import bi big_op.
From iris.proofmode Require Import proofmode.
From S2P Require Import Prelude Bits HeapLogic InnerMap ProtoMap MapLogic MapBuckets MapTree MapFind MapIter MapInsert MapResize.
From S2P Require Import MapOps MapErase ProtoMapOps.

Section grown.
  Context {K T : Type} `{EqDecision K}.
  Implicit Types (x : item K T) (xs ys : list (item K T)) (k : K) (v : T) (ks : list K) (l : list (K * T)).

Definition keyval x : K * T := (ikey x, ival x).
(** The first value of each key that is not among [ks]. *)
Fixpoint fresh_values ks l : list (K * T) :=
  match l with
  | [] => []
  | (k, v) :: l => if decide (k ∈ ks) then fresh_values ks l else (k, v) :: fresh_values (k :: ks) l
  end.
Definition grown xs xs' l : Prop :=
  exists new, xs' ≡ₚ new ++ xs /\ keyval <$> new ≡ₚ fresh_values (ikey <$> xs) l.

Lemma fresh_values_ext ks ks' l : (forall k, k ∈ ks <-> k ∈ ks') -> fresh_values ks l = fresh_values ks' l.
Proof.
  revert ks ks'. induction l as [|[k v] l IH]; intros ks ks' Hk; [done|]. simpl.
  destruct (decide (k ∈ ks)) as [Hin|Hin].
  - rw decide_True; [by apply IH|by apply Hk].
  - rw decide_False; [|by rw -Hk]. f_equal. apply IH. intros k'. rw !elem_of_cons. by rw Hk.
Qed.
Lemma fresh_values_app ks l l' :
  fresh_values ks (l ++ l') = fresh_values ks l ++ fresh_values ((fst <$> fresh_values ks l) ++ ks) l'.
Proof.
  revert ks. induction l as [|[k v] l IH]; intros ks; [done|]. simpl. case_decide as Hk; [apply IH|].
  simpl. f_equal. rw IH. f_equal. apply fresh_values_ext. intros k'. rw elem_of_cons !elem_of_app elem_of_cons. tauto.
Qed.

Lemma grown_refl xs : grown xs xs [].
Proof. by exists []. Qed.
Lemma grown_trans xs xs1 xs2 l l' : grown xs xs1 l -> grown xs1 xs2 l' -> grown xs xs2 (l ++ l').
Proof.
  intros (n1 & H1 & E1) (n2 & H2 & E2). exists (n1 ++ n2). split.
  - rw H2 H1 !app_assoc. by rw (Permutation_app_comm n2 n1).
  - rw fmap_app E1 E2 fresh_values_app. f_equiv. apply reflexive_eq, fresh_values_ext. intros k.
    rw H1 fmap_app !elem_of_app.
    assert (ikey <$> n1 = fst <$> (keyval <$> n1)) as -> by by rw -list_fmap_compose.
    by rw E1.
Qed.
Lemma grown_length xs xs' l : grown xs xs' l -> (length xs' <= length l + length xs)%nat.
Proof.
  intros (new & -> & Hn). rw length_app. enough (length new <= length l)%nat by lia.
  rw -(length_fmap keyval) Hn. clear. generalize (ikey <$> xs). induction l as [|[k v] l IH]; intros ks; simpl; [lia|].
  case_decide; simpl; [specialize (IH ks)|specialize (IH (k :: ks))]; lia.
Qed.
End grown.

Section insert.
  Context {K T : Type} `{HashKey K} `{!KeyLaws K} `{Mapped K T} `{Clock K T}.
  Implicit Types (x : item K T) (xs ys : list (item K T)) (k : K) (v : T) (this other p q e g : Z) (a : option Z) (d z : Z).

Lemma find_item_Some k xs : k ∈ ikey <$> xs -> exists x, find_item k xs = Some x.
Proof.
  intros Hk. destruct (find_item k xs) as [x|] eqn:E; [eauto|]. by apply find_item_None in E.
Qed.

Lemma wpm_insert_new this a d e xs k v (Q : unit -> hM K T) :
  Z.of_nat (length xs) + 1 < 2 ^ 64 ->
  ⊢ pmap this a d e xs -∗ (∀ xs', ⟨grown xs xs' [(k, v)]⟩ -∗ pmap this a d e xs' -∗ Q tt) -∗ wpm (insert_new this k v) Q.
Proof.
  iIntros (Hlen) "Hmap HQ". wbind. iApply (wpm_map_find with "Hmap"). iIntros (it Hit) "Hmap".
  rw (finds_item_end _ _ _ _ Hit). destruct (find_item k xs) as [x|] eqn:Hx.
  - rw bool_decide_false //. iApply wpm_ret. iApply ("HQ" with "[] Hmap"). iPureIntro. exists []. split; [done|].
    simpl. rw decide_True; [done|]. apply find_item_split in Hx as (<- & l1 & l2 & ->).
    rw fmap_app elem_of_app. right. left.
  - rw bool_decide_true //. wbind. iApply (wpm_value_ref_absent with "Hmap"); [done|done|].
    iIntros (p q l1 l2 Hl) "Hmap". iDestruct (pmap_item with "Hmap") as "[Hq Hmap]".
    iApply (wpm_set_second with "Hq"). iIntros "Hq". iDestruct ("Hmap" $! v with "Hq") as "Hmap".
    iApply ("HQ" with "[] Hmap"). iPureIntro. exists [I p q k v]. split; [by rw -Hl -Permutation_middle|].
    simpl. rw decide_False; [done|]. by apply find_item_None.
Qed.

Lemma wpm_insert_values this a d e xs (l : list (K * T)) (Q : unit -> hM K T) :
  Z.of_nat (length l + length xs) < 2 ^ 64 ->
  ⊢ pmap this a d e xs -∗ (∀ xs', ⟨grown xs xs' l⟩ -∗ pmap this a d e xs' -∗ Q tt) -∗ wpm (insert_values this l) Q.
Proof.
  revert xs. induction l as [|[k v] l IH]; intros xs Hlen; iIntros "Hmap HQ".
  - iApply wpm_ret. iApply ("HQ" with "[] Hmap"). iPureIntro. apply grown_refl.
  - simpl in Hlen. wbind. iApply (wpm_insert_new with "Hmap"); [lia|]. iIntros (xs1 Hg1) "Hmap".
    pose proof (grown_length _ _ _ Hg1) as Hl1. simpl in Hl1.
    iApply (IH with "Hmap"); [lia|]. iIntros (xs2 Hg2) "Hmap". iApply ("HQ" with "[] Hmap"). iPureIntro.
    by apply (grown_trans _ _ _ [(k, v)] l Hg1).
Qed.

Lemma pairs_fuel a xs (Q : nat -> hM K T) :
  ⊢ pairs_own a xs -∗ (∀ fuel, ⟨length xs < fuel⟩%nat -∗ pairs_own a xs -∗ Q fuel) -∗ wpm heap_fuel Q.
Proof.
  apply wpm_heap_fuel. intros s Hs. assert (pairs_own a xs ⊢ cells_own (ipair <$> xs)) as Hc.
  { unfold cells_own, pairs_own. rw big_sepL_fmap. iIntros "H". iApply (big_sepL_impl with "H").
    iIntros "!>" (i x _) "Hx". iExists a, _. iExact "Hx". }
  apply (entails_in _ _ Hc), cells_size in Hs. by rw length_fmap in Hs.
Qed.

(** The rest [l2] of another map is inserted. *)
Lemma wpm_insert_loop this a d e xs g b l1 l2 z fuel (Q : unit -> hM K T) :
  (length l2 < fuel)%nat -> Z.of_nat (length l2 + length xs) < 2 ^ 64 ->
  ⊢ pmap this a d e xs -∗ imap g b (item_entry <$> l1 ++ l2) -∗ pairs_own b (l1 ++ l2) -∗
    (∀ xs', ⟨grown xs xs' (keyval <$> l2)⟩ -∗ pmap this a d e xs' -∗ imap g b (item_entry <$> l1 ++ l2) -∗
       pairs_own b (l1 ++ l2) -∗ Q tt) -∗
    wpm (insert_loop fuel this (It (inode <$> head l2) (Some g) z) end_) Q.
Proof.
  revert xs l1 l2 z. induction fuel as [|fuel IH]; intros xs l1 l2 z Hf Hlen; [lia|].
  iIntros "Hmap Hi Hp HQ". cbn [insert_loop node_ end_]. destruct l2 as [|y l2]; cbn [head].
  { case_decide; [|done]. iApply wpm_ret. iApply ("HQ" with "[] Hmap Hi Hp"). iPureIntro. apply grown_refl. }
  case_decide; [done|]. simpl in Hf, Hlen. wbind. iApply (wpm_arrow with "Hi"). iIntros "Hi".
  iDestruct (pairs_acc with "Hp") as "[Hy Hp]".
  wbind. iApply (wpm_pair_at with "Hy"). iIntros "Hy". cbn [fst snd]. iDestruct ("Hp" with "Hy") as "Hp".
  wbind. iApply (wpm_insert_new with "Hmap"); [lia|]. iIntros (xs1 Hg1) "Hmap".
  pose proof (grown_length _ _ _ Hg1) as Hl1. simpl in Hl1.
  wbind. iApply (wpm_map_incr with "Hi"). iIntros (z') "Hi".
  rw (_ : l1 ++ y :: l2 = (l1 ++ [y]) ++ l2); [|by rw -app_assoc].
  iApply (IH with "Hmap Hi Hp"); [lia|lia|]. iIntros (xs2 Hg2) "Hmap Hi Hp". iApply ("HQ" with "[] Hmap Hi Hp").
  iPureIntro. change (keyval <$> y :: l2) with ([keyval y] ++ (keyval <$> l2)). by eapply grown_trans.
Qed.
End insert.

(** ** Erasing, copies, swaps, destruction

    Erasing keeps the order of the other items, so that a range can be erased while it
    is walked through.  [swap] exchanges the tables of maps on one arena, and copies
    otherwise. *)

Section erase.
  Context {K T : Type} `{HashKey K} `{!KeyLaws K} `{Mapped K T} `{Clock K T}.
  Implicit Types (x : item K T) (xs ys : list (item K T)) (k : K) (v : T) (this other p q e g : Z) (a b : option Z) (d z : Z).

Lemma pair_garbage a x : a <> None -> pair_own a x ⊢ garbage.
Proof. apply cell_garbage. Qed.

Lemma wpm_erase_at this a d e l1 x l2 z (Q : iterator -> hM K T) :
  ⊢ pmap this a d e (l1 ++ x :: l2) -∗
    (∀ z', pmap this a d e (l1 ++ l2) -∗ Q (It (inode <$> head l2) (Some e) z')) -∗
    wpm (erase this (it_at e x z)) Q.
Proof.
  iIntros "(Hm & Hi & Hp) HQ". wbind. iApply (wpm_map_at with "Hm"). iIntros "Hm". cbn [arena_ elements_].
  iAssert (pair_own a x ∗ pairs_own a (l1 ++ l2))%I with "[Hp]" as "[Hx Hp]".
  { unfold pairs_own. rw !big_sepL_app big_sepL_cons. iDestruct "Hp" as "($ & $ & $)". }
  wbind. iApply (wpm_wand _ (fun _ => imap e a (item_entry <$> l1 ++ x :: l2)) with "[Hi Hx]").
  { case_decide as Ha.
    - subst a. wbind. iApply (wpm_arrow with "Hi"). iIntros "Hi". iApply (wpm_dealloc with "Hx"). iIntros "_". done.
    - iDestruct (pair_garbage with "Hx") as "Hx"; [done|]. iApply (wpm_drop with "Hx"). by iApply wpm_ret. }
  iIntros (_) "Hi". wbind. iApply (wpm_map_incr with "Hi"). iIntros (z') "Hi". rw fmap_app fmap_cons.
  wbind. iApply (wpm_erase e a _ (item_entry x) with "Hi"). iIntros "Hi". iApply wpm_ret. iApply "HQ".
  iFrame "Hm Hp". rw fmap_app. iExact "Hi".
Qed.

Lemma wpm_erase_key this a d e xs k (Q : Z -> hM K T) :
  ⊢ pmap this a d e xs -∗
    (∀ xs', ⟨match find_item k xs with
             | Some x => exists l1 l2, xs = l1 ++ x :: l2 /\ xs' = l1 ++ l2
             | None => xs' = xs
             end⟩ -∗ pmap this a d e xs' -∗ Q (match find_item k xs with Some _ => 1 | None => 0 end)) -∗
    wpm (erase_key this k) Q.
Proof.
  iIntros "Hmap HQ". iDestruct "Hmap" as "(Hm & Hi & Hp)". wbind.
  wbind. iApply (wpm_map_at with "Hm"). iIntros "Hm". cbn [elements_].
  iApply (wpm_table_find with "Hi"). iIntros (it Hit) "Hi". rw (finds_item_end _ _ _ _ Hit).
  iAssert (pmap this a d e xs) with "[Hm Hi Hp]" as "Hmap"; [iFrame|]. unfold finds_item in Hit.
  destruct (find_item k xs) as [x|] eqn:Hx.
  - destruct Hit as [z ->]. destruct (find_item_split _ _ _ Hx) as (_ & l1 & l2 & ->). rw bool_decide_false //.
    wbind. iApply (wpm_erase_at with "Hmap"). iIntros (z') "Hmap". iApply wpm_ret.
    iApply ("HQ" $! (l1 ++ l2) with "[] Hmap"). iPureIntro. by exists l1, l2.
  - rw bool_decide_true //. iApply wpm_ret. by iApply ("HQ" with "[] Hmap").
Qed.

(** [erase(first, last)], up to the end. *)
Lemma wpm_erase_loop this a d e xs z fuel (Q : unit -> hM K T) :
  (length xs < fuel)%nat ->
  ⊢ pmap this a d e xs -∗ (pmap this a d e [] -∗ Q tt) -∗
    wpm (erase_loop fuel this (It (inode <$> head xs) (Some e) z) end_) Q.
Proof.
  revert xs z. induction fuel as [|fuel IH]; intros xs z Hf; [lia|].
  iIntros "Hmap HQ". cbn [erase_loop node_ end_]. destruct xs as [|x xs]; cbn [head].
  - case_decide; [|done]. iApply wpm_ret. by iApply "HQ".
  - case_decide; [done|]. simpl in Hf. wbind. iApply (wpm_erase_at this a d e [] x xs z with "Hmap"). iIntros (z') "Hmap".
    iApply (IH xs with "Hmap HQ"). lia.
Qed.

Lemma wpm_map_clear this a d e xs (Q : unit -> hM K T) :
  ⊢ pmap this a d e xs -∗ (pmap this a d e [] -∗ Q tt) -∗ wpm (clear this) Q.
Proof.
  iIntros "Hmap HQ". iDestruct "Hmap" as "(Hm & Hi & Hp)". wbind.
  wbind. iApply (wpm_map_at with "Hm"). iIntros "Hm". cbn [elements_].
  iApply (wpm_begin with "Hi"). iIntros (z) "Hi". rw head_entry.
  wbind. iApply (pairs_fuel with "Hp"). iIntros (fuel Hf) "Hp".
  iApply (wpm_erase_loop this a d e xs with "[Hm Hi Hp]"); [done|by iFrame|]. iIntros "Hmap". by iApply "HQ".
Qed.

(** ** Construction *)

Lemma wpm_Init this a d e0 (Q : unit -> hM K T) :
  ⊢ this ↦{a} CMap (MkMap a d e0) -∗ (∀ e, pmap this a d e [] -∗ Q tt) -∗ wpm (Init this) Q.
Proof.
  iIntros "Hm HQ". wbind. iApply (wpm_map_at with "Hm"). iIntros "Hm". cbn [arena_].
  wbind. iApply wpm_table_construct. iIntros (e) "Hi". wbind. iApply (wpm_map_at with "Hm"). iIntros "Hm".
  iApply (wpm_set_cell with "Hm"). iIntros "Hm". iApply "HQ". iFrame. by unfold pairs_own.
Qed.

Lemma wpm_Map_arena a (Q : Z -> hM K T) : (∀ this e, pmap this a 0 e [] -∗ Q this) ⊢ wpm (Map_arena a) Q.
Proof.
  iIntros "HQ". wbind. iApply wpm_new_cell. iIntros (this) "Hm". wbind. iApply (wpm_Init with "Hm"). iIntros (e) "Hm".
  iApply wpm_ret. by iApply "HQ".
Qed.
Lemma wpm_Map_default (Q : Z -> hM K T) : (∀ this e, pmap this None 0 e [] -∗ Q this) ⊢ wpm Map_default Q.
Proof. apply wpm_Map_arena. Qed.
Lemma wpm_Map_values (l : list (K * T)) (Q : Z -> hM K T) :
  Z.of_nat (length l) < 2 ^ 64 ->
  (∀ this e xs, ⟨grown [] xs l⟩ -∗ pmap this None 0 e xs -∗ Q this) ⊢ wpm (Map_values l) Q.
Proof.
  iIntros (Hlen) "HQ". wbind. iApply wpm_new_cell. iIntros (this) "Hm". wbind. iApply (wpm_Init with "Hm"). iIntros (e) "Hm".
  wbind. iApply (wpm_insert_values with "Hm"); [simpl; lia|]. iIntros (xs Hxs) "Hm". iApply wpm_ret.
  by iApply ("HQ" with "[] Hm").
Qed.

(** [insert(other.begin(), other.end())]. *)
Lemma wpm_insert_map this a d e xs other b f g ys (Q : unit -> hM K T) :
  Z.of_nat (length ys + length xs) < 2 ^ 64 ->
  ⊢ pmap this a d e xs -∗ pmap other b f g ys -∗
    (∀ xs', ⟨grown xs xs' (keyval <$> ys)⟩ -∗ pmap this a d e xs' -∗ pmap other b f g ys -∗ Q tt) -∗
    wpm (first ← begin other; insert_range this first end_) Q.
Proof.
  iIntros (Hlen) "Hmap Hother HQ". iDestruct "Hother" as "(Hm & Hi & Hp)".
  wbind. wbind. iApply (wpm_map_at with "Hm"). iIntros "Hm". cbn [elements_].
  iApply (wpm_begin with "Hi"). iIntros (z) "Hi". rw head_entry.
  wbind. iApply (pairs_fuel with "Hp"). iIntros (fuel Hf) "Hp".
  iApply (wpm_insert_loop this a d e xs g b [] ys z with "Hmap Hi Hp"); [done|done|]. iIntros (xs' Hxs) "Hmap Hi Hp".
  iApply ("HQ" with "[] Hmap [Hm Hi Hp]"); [done|]. iFrame.
Qed.

(** An empty map takes all items. *)
Lemma fresh_values_all (ks : list K) (l : list (K * T)) :
  NoDup (fst <$> l) -> (forall k, k ∈ fst <$> l -> k ∉ ks) -> fresh_values ks l = l.
Proof.
  revert ks. induction l as [|[k v] l IH]; intros ks Hnd Hks; [done|]. simpl in *.
  apply NoDup_cons in Hnd as [Hk Hnd]. rw decide_False; [|apply Hks; left]. f_equal. apply IH; [done|].
  intros k' Hk'. apply not_elem_of_cons. split; [by intros ->|]. apply Hks. by right.
Qed.
Lemma grown_nil xs ys :
  NoDup (ikey <$> ys) -> grown [] xs (keyval <$> ys) -> keyval <$> xs ≡ₚ keyval <$> ys.
Proof.
  intros Hnd (new & Hp & Hn). rw app_nil_r in Hp. rw Hp Hn fresh_values_all; [done| |].
  - by rw -list_fmap_compose.
  - intros k _. apply not_elem_of_nil.
Qed.
Lemma keyval_length xs ys : keyval <$> xs ≡ₚ keyval <$> ys -> length xs = length ys.
Proof. intros Hp. by rw -(length_fmap keyval xs) Hp length_fmap. Qed.

Lemma wpm_Map_copy other b f g ys (Q : Z -> hM K T) :
  Z.of_nat (length ys) < 2 ^ 64 ->
  ⊢ pmap other b f g ys -∗
    (∀ this e xs, ⟨keyval <$> xs ≡ₚ keyval <$> ys⟩ -∗ pmap this None f e xs -∗ pmap other b f g ys -∗ Q this) -∗
    wpm (Map_copy other) Q.
Proof.
  iIntros (Hlen) "Hother HQ". iDestruct (pmap_keys with "Hother") as "[Hother %Hnd]".
  iDestruct "Hother" as "(Hm & Hi & Hp)".
  wbind. iApply (wpm_map_at with "Hm"). iIntros "Hm". cbn [default_enum_value_].
  iAssert (pmap other b f g ys) with "[Hm Hi Hp]" as "Hother"; [iFrame|].
  wbind. iApply wpm_new_cell. iIntros (this) "Hthis". wbind. iApply (wpm_Init with "Hthis"). iIntros (h) "Hthis".
  iApply (wpm_bind_assoc (begin other) (fun first => insert_range this first end_) (fun _ => mret this)).
  wbind. iApply (wpm_insert_map with "Hthis Hother"); [simpl; lia|]. iIntros (xs Hxs) "Hthis Hother".
  iApply wpm_ret. iApply ("HQ" with "[] Hthis Hother"). iPureIntro. by apply grown_nil.
Qed.
Lemma wpm_Map_range other b f g ys (Q : Z -> hM K T) :
  Z.of_nat (length ys) < 2 ^ 64 ->
  ⊢ pmap other b f g ys -∗
    (∀ this e xs, ⟨keyval <$> xs ≡ₚ keyval <$> ys⟩ -∗ pmap this None 0 e xs -∗ pmap other b f g ys -∗ Q this) -∗
    wpm (first ← begin other; Map_range first end_) Q.
Proof.
  iIntros (Hlen) "Hother HQ". iDestruct (pmap_keys with "Hother") as "[Hother %Hnd]".
  iDestruct "Hother" as "(Hm & Hi & Hp)".
  wbind. wbind. iApply (wpm_map_at with "Hm"). iIntros "Hm". cbn [elements_].
  iApply (wpm_begin with "Hi"). iIntros (z) "Hi". rw head_entry.
  wbind. iApply wpm_new_cell. iIntros (this) "Hthis". wbind. iApply (wpm_Init with "Hthis"). iIntros (h) "Hthis".
  wbind. wbind. iApply (pairs_fuel with "Hp"). iIntros (fuel Hf) "Hp".
  iApply (wpm_insert_loop this None 0 h [] g b [] ys z with "Hthis Hi Hp"); [done|simpl; lia|]. iIntros (xs Hxs) "Hthis Hi Hp".
  iApply wpm_ret. iApply ("HQ" with "[] Hthis [Hm Hi Hp]"); [iPureIntro; by apply grown_nil|]. iFrame.
Qed.

(** ** Assignment, swap, destruction *)

Lemma wpm_map_destroy this a d e xs (Q : unit -> hM K T) :
  ⊢ pmap this a d e xs -∗ (emp -∗ Q tt) -∗ wpm (destroy this) Q.
Proof.
  iIntros "Hmap HQ". wbind. iApply (wpm_map_clear with "Hmap"). iIntros "(Hm & Hi & Hp)".
  iAssert emp%I with "[Hp]" as "_"; [by unfold pairs_own|].
  wbind. iApply (wpm_map_at with "Hm"). iIntros "Hm". cbn [arena_ elements_]. wbind.
  case_decide as Ha.
  - subst a. wbind. iApply (wpm_table_destroy with "Hi"). iIntros (m) "Hi". iApply (wpm_dealloc with "Hi"). iIntros "_".
    iApply (wpm_dealloc with "Hm"). iIntros "_". by iApply "HQ".
  - iDestruct (imap_garbage with "Hi") as "Hi"; [done|]. iApply (wpm_drop with "Hi"). iApply wpm_ret.
    iApply (wpm_dealloc with "Hm"). iIntros "_". by iApply "HQ".
Qed.

Lemma wpm_map_assign_copy this a d e xs other b f g ys (Q : unit -> hM K T) :
  this <> other -> Z.of_nat (length ys) < 2 ^ 64 ->
  ⊢ pmap this a d e xs -∗ pmap other b f g ys -∗
    (∀ xs', ⟨keyval <$> xs' ≡ₚ keyval <$> ys⟩ -∗ pmap this a d e xs' -∗ pmap other b f g ys -∗ Q tt) -∗
    wpm (assign_copy this other) Q.
Proof.
  iIntros (Hne Hlen) "Hmap Hother HQ". iDestruct (pmap_keys with "Hother") as "[Hother %Hnd]".
  unfold assign_copy. case_decide; [done|]. wbind. iApply (wpm_map_clear with "Hmap"). iIntros "Hmap".
  iApply (wpm_insert_map with "Hmap Hother"); [simpl; lia|]. iIntros (xs' Hxs) "Hmap Hother".
  iApply ("HQ" with "[] Hmap Hother"). iPureIntro. by apply grown_nil.
Qed.
Lemma wpm_assign_self this (Q : unit -> hM K T) : Q tt ⊢ wpm (assign_copy this this) Q.
Proof. iIntros "HQ". unfold assign_copy. case_decide; [|done]. by iApply wpm_ret. Qed.

(** The tables change hands when the arenas are the same; otherwise the items are
    copied, and the enum defaults stay. *)
Lemma wpm_swap_fast this other a d e f g xs ys (Q : unit -> hM K T) :
  ⊢ pmap this a d e xs -∗ pmap other a f g ys -∗ (pmap this a f g ys -∗ pmap other a d e xs -∗ Q tt) -∗
    wpm (swap this other) Q.
Proof.
  iIntros "(Hm & Hi & Hp) (Hm' & Hi' & Hp') HQ".
  wbind. iApply (wpm_map_at with "Hm"). iIntros "Hm". wbind. iApply (wpm_map_at with "Hm'"). iIntros "Hm'".
  cbn [arena_ elements_ default_enum_value_]. case_decide; [|done].
  wbind. iApply (wpm_set_cell with "Hm"). iIntros "Hm". iApply (wpm_set_cell with "Hm'"). iIntros "Hm'".
  iApply ("HQ" with "[Hm Hi' Hp'] [Hm' Hi Hp]"); iFrame.
Qed.
Lemma wpm_swap_self this a d e xs (Q : unit -> hM K T) :
  ⊢ pmap this a d e xs -∗ (pmap this a d e xs -∗ Q tt) -∗ wpm (swap this this) Q.
Proof.
  iIntros "(Hm & Hi & Hp) HQ".
  wbind. iApply (wpm_map_at with "Hm"). iIntros "Hm". wbind. iApply (wpm_map_at with "Hm"). iIntros "Hm".
  cbn [arena_ elements_ default_enum_value_]. case_decide; [|done].
  wbind. iApply (wpm_set_cell with "Hm"). iIntros "Hm". iApply (wpm_set_cell with "Hm"). iIntros "Hm".
  iApply "HQ". iFrame.
Qed.
Lemma wpm_swap_slow this other a b d e f g xs ys (Q : unit -> hM K T) :
  this <> other -> a <> b -> Z.of_nat (length xs) < 2 ^ 64 -> Z.of_nat (length ys) < 2 ^ 64 ->
  ⊢ pmap this a d e xs -∗ pmap other b f g ys -∗
    (∀ xs' ys', ⟨keyval <$> xs' ≡ₚ keyval <$> ys /\ keyval <$> ys' ≡ₚ keyval <$> xs⟩ -∗
       pmap this a d e xs' -∗ pmap other b f g ys' -∗ Q tt) -∗
    wpm (swap this other) Q.
Proof.
  iIntros (Hne Hab Hlx Hly) "(Hm & Hi & Hp) (Hm' & Hi' & Hp') HQ".
  wbind. iApply (wpm_map_at with "Hm"). iIntros "Hm". wbind. iApply (wpm_map_at with "Hm'"). iIntros "Hm'".
  cbn [arena_]. case_decide; [done|].
  iAssert (pmap this a d e xs) with "[Hm Hi Hp]" as "Hmap"; [iFrame|].
  iAssert (pmap other b f g ys) with "[Hm' Hi' Hp']" as "Hother"; [iFrame|].
  wbind. iApply (wpm_Map_copy with "Hmap"); [done|]. iIntros (copy h cs Hcs) "Hcopy Hmap".
  iDestruct (keep_pure _ _ (pmap_ne other copy _ _ _ _ _ _ _ _) with "[$Hother $Hcopy]") as "[[Hother Hcopy] %Hoc]".
  wbind. iApply (wpm_map_assign_copy with "Hmap Hother"); [done|done|]. iIntros (xs' Hxs') "Hmap Hother".
  wbind. iApply (wpm_map_assign_copy with "Hother Hcopy"); [done|by rw (keyval_length _ _ Hcs)|]. iIntros (ys' Hys') "Hother Hcopy".
  iApply (wpm_map_destroy with "Hcopy"). iIntros "_". iApply ("HQ" with "[] Hmap Hother").
  iPureIntro. by rw Hys'.
Qed.

Lemma wpm_Map_move other b f g ys (Q : Z -> hM K T) :
  Z.of_nat (length ys) < 2 ^ 64 ->
  ⊢ pmap other b f g ys -∗
    (∀ this e h xs, ⟨keyval <$> xs ≡ₚ keyval <$> ys /\ match b with None => xs = ys /\ e = g | Some _ => h = g end⟩ -∗
       pmap this None (match b with None => f | Some _ => 0 end) e xs -∗
       pmap other b (match b with None => 0 | Some _ => f end) h (match b with None => [] | Some _ => ys end) -∗ Q this) -∗
    wpm (Map_move other) Q.
Proof.
  iIntros (Hlen) "Hother HQ". wbind. iApply wpm_Map_default. iIntros (this e) "Hmap".
  iDestruct (keep_pure _ _ (pmap_ne this other _ _ _ _ _ _ _ _) with "[$Hmap $Hother]") as "[[Hmap Hother] %Hne]".
  iDestruct "Hother" as "(Hm & Hi & Hp)". wbind. iApply (wpm_map_at with "Hm"). iIntros "Hm". cbn [arena_].
  iAssert (pmap other b f g ys) with "[Hm Hi Hp]" as "Hother"; [iFrame|].
  destruct b as [b|].
  - case_decide; [|done]. wbind. iApply (wpm_map_assign_copy with "Hmap Hother"); [done|done|].
    iIntros (xs Hxs) "Hmap Hother". iApply wpm_ret. iApply ("HQ" with "[] Hmap Hother"). iPureIntro. by split.
  - case_decide as Hd; [by destruct Hd|]. wbind. iApply (wpm_swap_fast with "Hmap Hother"). iIntros "Hmap Hother".
    iApply wpm_ret. iApply ("HQ" with "[] Hmap Hother"). done.
Qed.

Lemma wpm_map_assign_move this a d e xs other b f g ys (Q : unit -> hM K T) :
  this <> other -> Z.of_nat (length ys) < 2 ^ 64 ->
  ⊢ pmap this a d e xs -∗ pmap other b f g ys -∗
    ((if decide (a = b) then pmap this b f g ys -∗ pmap other a d e xs -∗ Q tt
      else ∀ xs', ⟨keyval <$> xs' ≡ₚ keyval <$> ys⟩ -∗ pmap this a d e xs' -∗ pmap other b f g ys -∗ Q tt)) -∗
    wpm (assign_move this other) Q.
Proof.
  iIntros (Hne Hlen) "(Hm & Hi & Hp) (Hm' & Hi' & Hp') HQ". unfold assign_move.
  destruct (decide (this = other)); [done|].
  wbind. iApply (wpm_map_at with "Hm"). iIntros "Hm". wbind. iApply (wpm_map_at with "Hm'"). iIntros "Hm'".
  iAssert (pmap this a d e xs) with "[Hm Hi Hp]" as "Hmap"; [iFrame|].
  iAssert (pmap other b f g ys) with "[Hm' Hi' Hp']" as "Hother"; [iFrame|]. cbn [arena_].
  destruct (decide (a = b)) as [->|Hab].
  - case_decide as Hbb; [by destruct Hbb|]. iApply (wpm_swap_fast with "Hmap Hother HQ").
  - case_decide; [|done]. iApply (wpm_map_assign_copy with "Hmap Hother"); [done|done|]. iIntros (xs') "H Hmap Hother".
    iApply ("HQ" with "H Hmap Hother").
Qed.

Lemma wpm_SetDefaultEnumValue this a d d' e xs (Q : unit -> hM K T) :
  ⊢ pmap this a d e xs -∗ (pmap this a d' e xs -∗ Q tt) -∗ wpm (SetDefaultEnumValue this d') Q.
Proof.
  iIntros "(Hm & Hi & Hp) HQ". wbind. iApply (wpm_map_at with "Hm"). iIntros "Hm". cbn [arena_ elements_].
  iApply (wpm_set_cell with "Hm"). iIntros "Hm". iApply "HQ". iFrame.
Qed.

Lemma pmap_length this a d e xs : pmap this a d e xs ⊢ pmap this a d e xs ∗ ⟨Z.of_nat (length xs) < 2 ^ 64⟩.
Proof.
  iIntros "($ & (%seed & %bs & %idx & %tb & [%He %Hsz] & Hi) & $)". pose proof Hsz as [Hlen _]. rw length_fmap in Hlen.
  iSplitL; [|done]. iExists seed, bs, idx, tb. by iFrame.
Qed.
End erase.
