(* ===== verification/MapSpec.v ===== *)
(** * Maps: the abstract specification

    Abstractly a map is an arena, the default of its enum values, and a list of items
    in the order of the iteration; an item knows the node and the pair where it is
    kept ([amap]).  [spec] says what each method may return and make of the maps, or
    that its caller breaks the method's contract.  Where a new item goes, and in which
    order the items of a copy come, is left open: it depends on the hash function, the
    seed and the history of the table.  Erasing keeps the order of the others, and a
    reference or an iterator to an item stays good until the item is erased: the
    item keeps its node and its pair.  The bucket that an iterator remembers is a
    hint, so the specification does not say what it is.

    [run] is the method of the code on the heap; [represents] relates a heap to its
    maps: the heap has these maps, and nothing else that is not on an arena. *)
From Stdlib Require Import ZArith Lia.
From stdpp Require Import base tactics option list list_numbers gmap.
From iris.bi Require Import bi big_op.
From iris.proofmode Require Import proofmode.
From S2P Require Import Prelude Bits HeapLogic InnerMap MapLogic ProtoMap ProtoMapOps ProtoMapErase.

(** A method call, and what it returns.  [CNext], [CDeref] and [CSetSecond] name the
    map that the iterator is of. *)
Inductive call (K T : Type) :=
| CNew (a : option Z) | CDefault | CCopyNew (other : Z) | CRangeNew (other : Z) | CValuesNew (l : list (K * T))
| CMoveNew (other : Z) | CDelete (this : Z)
| CSize (this : Z) | CEmpty (this : Z) | CContains (this : Z) (k : K) | CCount (this : Z) (k : K)
| CAt (this : Z) (k : K) | CAtSet (this : Z) (k : K) (v : T) | CIndex (this : Z) (k : K) | CIndexSet (this : Z) (k : K) (v : T)
| CFind (this : Z) (k : K) | CEqualRange (this : Z) (k : K) | CBegin (this : Z) | CNext (this : Z) (it : iterator)
| CDeref (this : Z) (it : iterator) | CSetSecond (this : Z) (it : iterator) (v : T)
| CInsert (this : Z) (k : K) (v : T) | CInsertMap (this other : Z) | CInsertValues (this : Z) (l : list (K * T))
| CEraseKey (this : Z) (k : K) | CErase (this : Z) (it : iterator) | CClear (this : Z)
| CAssign (this other : Z) | CAssignMove (this other : Z) | CSwap (this other : Z) | CSetDefault (this d : Z).
Arguments CNew {K T} _.
Arguments CDefault {K T}.
Arguments CCopyNew {K T} _.
Arguments CRangeNew {K T} _.
Arguments CValuesNew {K T} _.
Arguments CMoveNew {K T} _.
Arguments CDelete {K T} _.
Arguments CSize {K T} _.
Arguments CEmpty {K T} _.
Arguments CContains {K T} _ _.
Arguments CCount {K T} _ _.
Arguments CAt {K T} _ _.
Arguments CAtSet {K T} _ _ _.
Arguments CIndex {K T} _ _.
Arguments CIndexSet {K T} _ _ _.
Arguments CFind {K T} _ _.
Arguments CEqualRange {K T} _ _.
Arguments CBegin {K T} _.
Arguments CNext {K T} _ _.
Arguments CDeref {K T} _ _.
Arguments CSetSecond {K T} _ _ _.
Arguments CInsert {K T} _ _ _.
Arguments CInsertMap {K T} _ _.
Arguments CInsertValues {K T} _ _.
Arguments CEraseKey {K T} _ _.
Arguments CErase {K T} _ _.
Arguments CClear {K T} _.
Arguments CAssign {K T} _ _.
Arguments CAssignMove {K T} _ _.
Arguments CSwap {K T} _ _.
Arguments CSetDefault {K T} _ _.

Inductive outcome (K T : Type) :=
| AUnit | ABool (b : bool) | ANumber (z : Z) | AAddress (p : Z) | AMapped (v : T) | APair (x : K * T)
| AIter (it : iterator) | ARange (first last : iterator) | AInserted (it : iterator) (b : bool).
Arguments AUnit {K T}.
Arguments ABool {K T} _.
Arguments ANumber {K T} _.
Arguments AAddress {K T} _.
Arguments AMapped {K T} _.
Arguments APair {K T} _.
Arguments AIter {K T} _.
Arguments ARange {K T} _ _.
Arguments AInserted {K T} _ _.

Record amap (K T : Type) := AM { am_arena : option Z; am_default : Z; am_table : Z; am_items : list (item K T) }.
Arguments AM {K T} _ _ _ _.
Arguments am_arena {K T} _.
Arguments am_default {K T} _.
Arguments am_table {K T} _.
Arguments am_items {K T} _.

(** ** Items *)

Section items.
  Context {K T : Type} `{EqDecision K}.
  Implicit Types (x : item K T) (xs : list (item K T)) (k : K) (v : T) (p : Z).

Definition with_value x v : item K T := I (inode x) (ipair x) (ikey x) v.
Fixpoint set_item k v xs : list (item K T) :=
  match xs with
  | [] => []
  | x :: xs => if decide (ikey x = k) then with_value x v :: xs else x :: set_item k v xs
  end.
Fixpoint remove_item k xs : list (item K T) :=
  match xs with
  | [] => []
  | x :: xs => if decide (ikey x = k) then xs else x :: remove_item k xs
  end.
(** The items from the one at a node on. *)
Fixpoint from_node p xs : list (item K T) :=
  match xs with
  | [] => []
  | x :: xs => if decide (inode x = p) then x :: xs else from_node p xs
  end.
(** A new item is put somewhere. *)
Definition adds k v xs xs' : Prop := exists p q, xs' ≡ₚ I p q k v :: xs.
(** The same items, in another place and another order. *)
Definition copy_of xs xs' : Prop := keyval <$> xs' ≡ₚ keyval <$> xs.

Lemma from_node_split p xs x l2 : from_node p xs = x :: l2 -> inode x = p /\ exists l1, xs = l1 ++ x :: l2.
Proof.
  induction xs as [|y xs IH]; [done|]. simpl. case_decide as Hp.
  - intros [= -> ->]. split; [done|]. by exists [].
  - intros Hx. destruct (IH Hx) as (? & l1 & ->). split; [done|]. by exists (y :: l1).
Qed.
Lemma split_item l1 x l2 v :
  NoDup (ikey <$> l1 ++ x :: l2) ->
  set_item (ikey x) v (l1 ++ x :: l2) = l1 ++ with_value x v :: l2 /\
  remove_item (ikey x) (l1 ++ x :: l2) = l1 ++ l2.
Proof.
  induction l1 as [|y l1 IH]; intros Hnd; cbn [app set_item remove_item].
  - by case_decide.
  - cbn [app] in Hnd. rw fmap_cons in Hnd. apply NoDup_cons in Hnd as [Hy Hnd]. case_decide as Hk; [|by destruct (IH Hnd) as [-> ->]].
    destruct Hy. rw Hk fmap_app fmap_cons elem_of_app. right. left.
Qed.
Lemma remove_item_absent k xs : find_item k xs = None -> remove_item k xs = xs.
Proof.
  induction xs as [|x xs IH]; [done|]. simpl. case_decide; [done|]. intros Hx. f_equal. by apply IH.
Qed.
End items.

(** ** Calls *)

Section calls.
  Context {K T : Type} `{HashKey K} `{Mapped K T} `{Clock K T}.
  Implicit Types (k : K) (v : T) (this other p d e : Z) (it : iterator) (a : option Z) (xs : list (item K T)) (m o : amap K T).

Definition read_pair p : stm (store K T) (outcome K T) := x ← pair_at p; mret (AMapped (snd x)).

Definition run (c : call K T) : stm (store K T) (outcome K T) :=
  match c with
  | CNew a => this ← Map_arena a; mret (AAddress this)
  | CDefault => this ← Map_default; mret (AAddress this)
  | CCopyNew other => this ← Map_copy other; mret (AAddress this)
  | CRangeNew other => this ← (first ← begin other; Map_range first end_); mret (AAddress this)
  | CValuesNew l => this ← Map_values l; mret (AAddress this)
  | CMoveNew other => this ← Map_move other; mret (AAddress this)
  | CDelete this => destroy this ;; mret AUnit
  | CSize this => n ← size this; mret (ANumber n)
  | CEmpty this => b ← empty this; mret (ABool b)
  | CContains this k => b ← contains this k; mret (ABool b)
  | CCount this k => n ← count this k; mret (ANumber n)
  | CAt this k => p ← at_ this k; read_pair p
  | CAtSet this k v => p ← at_ this k; set_second p v ;; mret AUnit
  | CIndex this k => p ← value_ref this k; read_pair p
  | CIndexSet this k v => p ← value_ref this k; set_second p v ;; mret AUnit
  | CFind this k => it ← find this k; mret (AIter it)
  | CEqualRange this k => r ← equal_range this k; mret (ARange (fst r) (snd r))
  | CBegin this => it ← begin this; mret (AIter it)
  | CNext _ it => it ← incr it; mret (AIter it)
  | CDeref _ it => p ← arrow it; x ← pair_at p; mret (APair x)
  | CSetSecond _ it v => p ← arrow it; set_second p v ;; mret AUnit
  | CInsert this k v => r ← insert this k v; mret (AInserted (fst r) (snd r))
  | CInsertMap this other => (first ← begin other; insert_range this first end_) ;; mret AUnit
  | CInsertValues this l => insert_values this l ;; mret AUnit
  | CEraseKey this k => n ← erase_key this k; mret (ANumber n)
  | CErase this it => it ← erase this it; mret (AIter it)
  | CClear this => clear this ;; mret AUnit
  | CAssign this other => assign_copy this other ;; mret AUnit
  | CAssignMove this other => assign_move this other ;; mret AUnit
  | CSwap this other => swap this other ;; mret AUnit
  | CSetDefault this d => SetDefaultEnumValue this d ;; mret AUnit
  end.

(** ** The specification *)

Abbreviation maps := (gmap Z (amap K T)).
Implicit Types A : gmap Z (amap K T).

(** What a call may return and leave. *)
Definition result : Type := outcome K T -> gmap Z (amap K T) -> Prop.

(** A new map with items as [P] says, on [a]. *)
Definition makes a d (P : list (item K T) -> Prop) A : option result :=
  Some (fun r A' => exists this e xs, r = AAddress this /\ A !! this = None /\ P xs /\ A' = <[this := AM a d e xs]> A).
(** It returns and makes of the items of a map what [P] says. *)
Definition turns this m (P : outcome K T -> list (item K T) -> Prop) A : option result :=
  Some (fun r A' => exists xs, P r xs /\ A' = <[this := AM (am_arena m) (am_default m) (am_table m) xs]> A).
Definition gives (r : outcome K T) A : option result := Some (fun r' A' => r' = r /\ A' = A).

(** An iterator at the first of the items [xs] of the table [e], or at the end. *)
Definition iter_at e xs it : Prop := node_ it = inode <$> head xs /\ m_ it = Some e.
(** What [find] returns: [end()] is of no table. *)
Definition found_at e (x : option (item K T)) it : Prop :=
  match x with Some x => iter_at e [x] it | None => it = end_ end.
(** The items from that of an iterator on. *)
Definition items_from it m : list (item K T) :=
  match node_ it with
  | Some p => if decide (m_ it = Some (am_table m)) then from_node p (am_items m) else []
  | None => []
  end.

Definition room (n : nat) xs : bool := bool_decide (Z.of_nat (n + length xs) < 2 ^ 64).

(** Methods of one map. *)
Definition spec_map (c : call K T) this m A : option result :=
  let xs := am_items m in
  let e := am_table m in
  let keep (P : outcome K T -> Prop) := turns this m (fun r xs' => P r /\ xs' = xs) A in
  let returns r := keep (fun r' => r' = r) in
  let sets xs' := turns this m (fun r xs'' => r = AUnit /\ xs'' = xs') A in
  match c with
  | CSize _ => returns (ANumber (Z.of_nat (length xs)))
  | CEmpty _ => returns (ABool (bool_decide (xs = [])))
  | CContains _ k => returns (ABool (bool_decide (find_item k xs <> None)))
  | CCount _ k => returns (ANumber (match find_item k xs with Some _ => 1 | None => 0 end))
  | CAt _ k => x ← find_item k xs; returns (AMapped (ival x))
  | CAtSet _ k v => _ ← find_item k xs; sets (set_item k v xs)
  | CIndex _ k =>
      match find_item k xs with
      | Some x => returns (AMapped (ival x))
      | None => guard (room 1 xs) (turns this m (fun r xs' =>
          r = AMapped (initial_value (am_default m)) /\ adds k (initial_value (am_default m)) xs xs') A)
      end
  | CIndexSet _ k v =>
      match find_item k xs with
      | Some x => sets (set_item k v xs)
      | None => guard (room 1 xs) (turns this m (fun r xs' => r = AUnit /\ adds k v xs xs') A)
      end
  | CFind _ k => keep (fun r => exists it, r = AIter it /\ found_at e (find_item k xs) it)
  | CEqualRange _ k => keep (fun r => exists first last, r = ARange first last /\
      found_at e (find_item k xs) first /\
      match find_item k xs with
      | Some x => exists l1 l2, xs = l1 ++ x :: l2 /\ iter_at e l2 last
      | None => last = end_
      end)
  | CBegin _ => keep (fun r => exists it, r = AIter it /\ iter_at e xs it)
  | CNext _ it => match items_from it m with
                  | _ :: ys => keep (fun r => exists it', r = AIter it' /\ iter_at e ys it')
                  | [] => None
                  end
  | CDeref _ it => x ← head (items_from it m); returns (APair (keyval x))
  | CSetSecond _ it v => x ← head (items_from it m); sets (set_item (ikey x) v xs)
  | CInsert _ k v =>
      match find_item k xs with
      | Some x => keep (fun r => exists it, r = AInserted it false /\ iter_at e [x] it)
      | None => guard (room 1 xs) (turns this m (fun r xs' => exists it p q,
          r = AInserted it true /\ iter_at e [I p q k v] it /\ xs' ≡ₚ I p q k v :: xs) A)
      end
  | CInsertValues _ l => guard (room (length l) xs) (turns this m (fun r xs' => r = AUnit /\ grown xs xs' l) A)
  | CEraseKey _ k => turns this m (fun r xs' =>
      r = ANumber (match find_item k xs with Some _ => 1 | None => 0 end) /\ xs' = remove_item k xs) A
  | CErase _ it => match items_from it m with
                   | x :: ys => turns this m (fun r xs' => exists it', r = AIter it' /\ iter_at e ys it' /\
                                  xs' = remove_item (ikey x) xs) A
                   | [] => None
                   end
  | CClear _ => sets []
  | CSetDefault _ d => gives AUnit (<[this := AM (am_arena m) d e xs]> A)
  | CDelete _ => gives AUnit (delete this A)
  | _ => None
  end.

(** Methods of two maps. *)
Definition spec_maps (c : call K T) this other m o A : option result :=
  let copies := turns this m (fun r xs => r = AUnit /\ copy_of (am_items o) xs) A in
  let exchange := gives AUnit (<[other := m]> (<[this := o]> A)) in
  match c with
  | CInsertMap _ _ => guard (room (length (am_items o)) (am_items m))
      (turns this m (fun r xs => r = AUnit /\ grown (am_items m) xs (keyval <$> am_items o)) A)
  | CAssign _ _ => copies
  | CAssignMove _ _ => if decide (am_arena m = am_arena o) then exchange else copies
  | CSwap _ _ =>
      if decide (am_arena m = am_arena o) then exchange
      else Some (fun r A' => exists xs ys, r = AUnit /\ copy_of (am_items o) xs /\ copy_of (am_items m) ys /\
             A' = <[other := AM (am_arena o) (am_default o) (am_table o) ys]>
                    (<[this := AM (am_arena m) (am_default m) (am_table m) xs]> A))
  | _ => None
  end.

(** Methods that make a map. *)
Definition spec_make (c : call K T) A : option result :=
  match c with
  | CNew a => makes a 0 (fun xs => xs = []) A
  | CDefault => makes None 0 (fun xs => xs = []) A
  | CCopyNew other => o ← A !! other; makes None (am_default o) (copy_of (am_items o)) A
  | CRangeNew other => o ← A !! other; makes None 0 (copy_of (am_items o)) A
  | CValuesNew l => guard (room (length l) []) (makes None 0 (fun xs => grown [] xs l) A)
  | CMoveNew other =>
      o ← A !! other;
      if decide (am_arena o = None)
      then Some (fun r A' => exists this e, r = AAddress this /\ A !! this = None /\
             A' = <[this := o]> (<[other := AM None 0 e []]> A))
      else makes None 0 (copy_of (am_items o)) A
  | _ => None
  end.

(** The maps that a method works on. *)
Definition call_map (c : call K T) : option Z :=
  match c with
  | CDelete this | CSize this | CEmpty this | CContains this _ | CCount this _ | CAt this _ | CAtSet this _ _
  | CIndex this _ | CIndexSet this _ _ | CFind this _ | CEqualRange this _ | CBegin this | CNext this _
  | CDeref this _ | CSetSecond this _ _ | CInsert this _ _ | CInsertValues this _ | CEraseKey this _
  | CErase this _ | CClear this | CSetDefault this _ => Some this
  | _ => None
  end.
Definition call_maps (c : call K T) : option (Z * Z) :=
  match c with
  | CInsertMap this other | CAssign this other | CAssignMove this other | CSwap this other => Some (this, other)
  | _ => None
  end.

Definition spec (c : call K T) A : option result :=
  match call_map c, call_maps c with
  | Some this, _ => m ← A !! this; spec_map c this m A
  | _, Some (this, other) =>
      m ← A !! this; o ← A !! other;
      if decide (this = other) then match c with CInsertMap _ _ => None | _ => gives AUnit A end
      else spec_maps c this other m o A
  | None, None => spec_make c A
  end.

(** ** The relation *)

Definition map_own this m : hM K T := pmap this (am_arena m) (am_default m) (am_table m) (am_items m).
Definition maps_at A : hM K T := ([∗ map] this ↦ m ∈ A, map_own this m)%I.
Definition represents (s : store K T) A : Prop := holds_of (maps_at A ∗ garbage)%I s.
End calls.
