(* ===== verification/MapRefine.v ===== *)
(** * Maps: the code refines the specification, and the shape of the heap *)
From Stdlib Require Import ZArith Lia.
From stdpp Require Import base tactics option list list_numbers gmap.
From iris.bi Require Import bi big_op.
From iris.proofmode Require Import proofmode.
From S2P Require Import Prelude Bits HeapLogic InnerMap ProtoMap MapLogic MapBuckets MapTree MapKeys MapFind MapIter MapInsert.
From S2P Require Import MapResize MapOps MapErase ProtoMapOps ProtoMapErase MapSpec.

Section refine.
  Context {K T : Type} `{HashKey K} `{!KeyLaws K} `{Mapped K T} `{Clock K T}.
  Implicit Types (k : K) (v : T) (this other p d e : Z) (it : iterator) (a b : option Z) (x : item K T) (xs ys : list (item K T)).
  Implicit Types (m o : amap K T) (A : gmap Z (amap K T)) (R : result (K := K) (T := T)) (r : outcome K T).

(** ** Items found by key, and by iterator *)

Lemma room_lt n xs : room n xs = true -> Z.of_nat (n + length xs) < 2 ^ 64.
Proof. apply bool_decide_eq_true. Qed.

Lemma items_from_Some it a d e xs x l2 :
  items_from it (AM a d e xs) = x :: l2 -> exists l1 z, it = it_at e x z /\ xs = l1 ++ x :: l2.
Proof.
  unfold items_from. destruct it as [[p|] n z]; [|done]. cbn [node_ m_ am_table am_items]. case_decide as Hn; [|done].
  intros (<- & l1 & ->)%from_node_split. exists l1, z. by subst n.
Qed.

Lemma adds_item l1 l2 p q k v xs : l1 ++ l2 ≡ₚ xs -> l1 ++ I p q k v :: l2 ≡ₚ I p q k v :: xs.
Proof. intros <-. by rw -Permutation_middle. Qed.

Lemma found_iter e k xs it : finds_item e k xs it -> found_at e (find_item k xs) it.
Proof. unfold finds_item. destruct (find_item k xs); [by intros [z ->]|done]. Qed.
Lemma iter_head e xs z : iter_at e xs (It (inode <$> head xs) (Some e) z).
Proof. done. Qed.

(** ** What a method of one map leaves *)

Definition map_post this m A R r : hM K T :=
  (∃ xs, ⟨R r (<[this := AM (am_arena m) (am_default m) (am_table m) xs]> A)⟩ ∗
     pmap this (am_arena m) (am_default m) (am_table m) xs)%I.

Lemma post_turns this a d e xs A P R r xs' :
  turns this (AM a d e xs) P A = Some R -> P r xs' -> pmap this a d e xs' ⊢ map_post this (AM a d e xs) A R r.
Proof. iIntros ([= <-] HP) "Hm". iExists xs'. iFrame. iPureIntro. eauto. Qed.

(** The value of one item. *)
Lemma wpm_read_item this a d e l1 x l2 (Q : outcome K T -> hM K T) :
  ⊢ pmap this a d e (l1 ++ x :: l2) -∗ (pmap this a d e (l1 ++ x :: l2) -∗ Q (AMapped (ival x))) -∗
    wpm (read_pair (ipair x)) Q.
Proof.
  iIntros "Hm HQ". iDestruct (pmap_item with "Hm") as "[Hx Hm]". wbind. iApply (wpm_pair_at with "Hx"). iIntros "Hx".
  iApply wpm_ret. iDestruct ("Hm" $! (ival x) with "Hx") as "Hm". destruct x. iApply ("HQ" with "Hm").
Qed.
Lemma wpm_write_item this a d e l1 x l2 v (Q : unit -> hM K T) :
  NoDup (ikey <$> l1 ++ x :: l2) ->
  ⊢ pmap this a d e (l1 ++ x :: l2) -∗ (pmap this a d e (set_item (ikey x) v (l1 ++ x :: l2)) -∗ Q tt) -∗
    wpm (set_second (ipair x) v) Q.
Proof.
  iIntros (Hnd) "Hm HQ". iDestruct (pmap_item with "Hm") as "[Hx Hm]". iApply (wpm_set_second with "Hx"). iIntros "Hx".
  iApply "HQ". destruct (split_item _ _ _ v Hnd) as [-> _]. iApply ("Hm" $! v with "Hx").
Qed.
(** [it->second], [it->first]: the pair behind an iterator. *)
Lemma wpm_map_arrow this a d e l1 x l2 z (Q : Z -> hM K T) :
  ⊢ pmap this a d e (l1 ++ x :: l2) -∗ (pmap this a d e (l1 ++ x :: l2) -∗ Q (ipair x)) -∗ wpm (arrow (it_at e x z)) Q.
Proof.
  iIntros "(Hm & Hi & Hp) HQ". iApply (wpm_arrow with "Hi"). iIntros "Hi". iApply "HQ". iFrame.
Qed.
Lemma wpm_map_next this a d e l1 x l2 z (Q : iterator -> hM K T) :
  ⊢ pmap this a d e (l1 ++ x :: l2) -∗
    (∀ z', pmap this a d e (l1 ++ x :: l2) -∗ Q (It (inode <$> head l2) (Some e) z')) -∗ wpm (incr (it_at e x z)) Q.
Proof.
  iIntros "(Hm & Hi & Hp) HQ". iApply (wpm_map_incr with "Hi"). iIntros (z') "Hi". iApply "HQ". iFrame.
Qed.

(** ** Size, keys and values *)

Lemma reads_refine (c : call K T) this m A R :
  call_map c = Some this -> spec_map c this m A = Some R ->
  match c with CSize _ | CEmpty _ | CContains _ _ | CCount _ _ | CAt _ _ | CAtSet _ _ _ => True | _ => False end ->
  ⊢ map_own this m -∗ wpm (run c) (map_post this m A R).
Proof.
  intros Hc HR Hk. destruct m as [a d e xs]. unfold map_own. cbn [am_arena am_default am_table am_items].
  destruct c; try done; injection Hc as ->; cbn [spec_map am_items] in HR; cbn [run]; iIntros "Hm".
  - wbind. iApply (wpm_map_size with "Hm"). iIntros "Hm". iApply wpm_ret. by iApply (post_turns with "Hm").
  - wbind. iApply (wpm_map_empty with "Hm"). iIntros "Hm". iApply wpm_ret. by iApply (post_turns with "Hm").
  - wbind. iApply (wpm_map_contains with "Hm"). iIntros "Hm". iApply wpm_ret. by iApply (post_turns with "Hm").
  - wbind. iApply (wpm_map_count with "Hm"). iIntros "Hm". iApply wpm_ret. by iApply (post_turns with "Hm").
  - destruct (find_item k xs) as [x|] eqn:Hx; [|done]. destruct (find_item_split _ _ _ Hx) as (<- & l1 & l2 & ->).
    wbind. iApply (wpm_at_ with "Hm"); [done|]. iIntros "Hm". iApply (wpm_read_item with "Hm"). iIntros "Hm".
    by iApply (post_turns with "Hm").
  - destruct (find_item k xs) as [x|] eqn:Hx; [|done]. destruct (find_item_split _ _ _ Hx) as (<- & l1 & l2 & ->).
    iDestruct (pmap_keys with "Hm") as "[Hm %Hnd]".
    wbind. iApply (wpm_at_ with "Hm"); [done|]. iIntros "Hm". wbind. iApply (wpm_write_item with "Hm"); [done|]. iIntros "Hm".
    iApply wpm_ret. by iApply (post_turns with "Hm").
Qed.

Lemma index_refines (c : call K T) this m A R :
  call_map c = Some this -> spec_map c this m A = Some R ->
  match c with CIndex _ _ | CIndexSet _ _ _ => True | _ => False end ->
  ⊢ map_own this m -∗ wpm (run c) (map_post this m A R).
Proof.
  intros Hc HR Hk. destruct m as [a d e xs]. unfold map_own. cbn [am_arena am_default am_table am_items].
  destruct c; try done; injection Hc as ->; cbn [spec_map am_items] in HR; cbn [run]; iIntros "Hm";
    (destruct (find_item k xs) as [x|] eqn:Hx;
      [destruct (find_item_split _ _ _ Hx) as (<- & l1 & l2 & ->)|apply guard_Some in HR as [Hr%room_lt HR]]); wbind.
  - iApply (wpm_value_ref_present with "Hm"); [done|]. iIntros "Hm".
    iApply (wpm_read_item with "Hm"). iIntros "Hm". by iApply (post_turns with "Hm").
  - iApply (wpm_value_ref_absent with "Hm"); [done|lia|]. iIntros (p q l1 l2 Hl) "Hm".
    iApply (wpm_read_item _ _ _ _ l1 (I p q k (initial_value d)) l2 with "Hm"). iIntros "Hm".
    iApply (post_turns with "Hm"); [done|]. split; [done|]. exists p, q. by apply adds_item.
  - iDestruct (pmap_keys with "Hm") as "[Hm %Hnd]". iApply (wpm_value_ref_present with "Hm"); [done|]. iIntros "Hm".
    wbind. iApply (wpm_write_item with "Hm"); [done|]. iIntros "Hm". iApply wpm_ret. by iApply (post_turns with "Hm").
  - iApply (wpm_value_ref_absent with "Hm"); [done|lia|]. iIntros (p q l1 l2 Hl) "Hm".
    iDestruct (pmap_item with "Hm") as "[Hq Hm]". wbind. iApply (wpm_set_second with "Hq"). iIntros "Hq".
    iDestruct ("Hm" $! v with "Hq") as "Hm". iApply wpm_ret. iApply (post_turns with "Hm"); [done|].
    split; [done|]. exists p, q. by apply adds_item.
Qed.

(** ** Iterators *)

Lemma iterators_refine (c : call K T) this m A R :
  call_map c = Some this -> spec_map c this m A = Some R ->
  match c with CFind _ _ | CBegin _ | CNext _ _ | CDeref _ _ | CSetSecond _ _ _ => True | _ => False end ->
  ⊢ map_own this m -∗ wpm (run c) (map_post this m A R).
Proof.
  intros Hc HR Hk. destruct m as [a d e xs]. unfold map_own. cbn [am_arena am_default am_table am_items].
  destruct c; try done; injection Hc as ->; cbn [spec_map am_items am_table] in HR; cbn [run]; iIntros "Hm".
  - wbind. iApply (wpm_map_find with "Hm"). iIntros (it Hit) "Hm". iApply wpm_ret. iApply (post_turns with "Hm"); [done|].
    split; [|done]. exists it. split; [done|by apply found_iter].
  - wbind. iApply (wpm_map_begin with "Hm"). iIntros (z) "Hm". iApply wpm_ret. iApply (post_turns with "Hm"); [done|].
    split; [|done]. eexists. split; [done|apply iter_head].
  - destruct (items_from it (AM a d e xs)) as [|x l2] eqn:Hx; [done|].
    apply items_from_Some in Hx as (l1 & z & -> & ->). wbind. iApply (wpm_map_next with "Hm"). iIntros (z') "Hm".
    iApply wpm_ret. iApply (post_turns with "Hm"); [done|]. split; [|done]. eexists. split; [done|apply iter_head].
  - destruct (items_from it (AM a d e xs)) as [|x l2] eqn:Hx; [done|].
    apply items_from_Some in Hx as (l1 & z & -> & ->). cbn [head mbind option_bind] in HR.
    wbind. iApply (wpm_map_arrow with "Hm"). iIntros "Hm".
    iDestruct (pmap_item with "Hm") as "[Hx Hm]". wbind. iApply (wpm_pair_at with "Hx"). iIntros "Hx".
    iDestruct ("Hm" $! (ival x) with "Hx") as "Hm". iApply wpm_ret. iApply (post_turns with "Hm"); [done|]. by destruct x.
  - destruct (items_from it (AM a d e xs)) as [|x l2] eqn:Hx; [done|].
    apply items_from_Some in Hx as (l1 & z & -> & ->). cbn [head mbind option_bind] in HR.
    iDestruct (pmap_keys with "Hm") as "[Hm %Hnd]". wbind. iApply (wpm_map_arrow with "Hm"). iIntros "Hm". wbind. iApply (wpm_write_item with "Hm"); [done|]. iIntros "Hm".
    iApply wpm_ret. by iApply (post_turns with "Hm").
Qed.

Lemma equal_range_refines this k m A R :
  spec_map (CEqualRange this k) this m A = Some R ->
  ⊢ map_own this m -∗ wpm (run (CEqualRange this k)) (map_post this m A R).
Proof.
  intros HR. destruct m as [a d e xs]. unfold map_own. cbn [am_arena am_default am_table am_items].
  cbn [spec_map am_items am_table] in HR; cbn [run]; iIntros "Hm".
  wbind. iApply (wpm_map_equal_range with "Hm"). iIntros (first last [Hf Hl]) "Hm". iApply wpm_ret.
  iApply (post_turns with "Hm"); [done|]. split; [|done]. exists first, last. split; [done|].
  split; [by apply found_iter|]. destruct (find_item k xs) as [x|]; [|done].
  destruct Hl as (l1 & l2 & z & Hl & ->). exists l1, l2. split; [done|apply iter_head].
Qed.

(** ** Insertion and erasure *)

Lemma insert_refines this k v m A R :
  spec_map (CInsert this k v) this m A = Some R ->
  ⊢ map_own this m -∗ wpm (run (CInsert this k v)) (map_post this m A R).
Proof.
  intros HR. destruct m as [a d e xs]. unfold map_own. cbn [am_arena am_default am_table am_items].
  cbn [spec_map am_items am_table] in HR; cbn [run]; iIntros "Hm".
  destruct (find_item k xs) as [x|] eqn:Hx; wbind.
  - iApply (wpm_map_insert_present with "Hm"); [done|]. iIntros (z) "Hm". iApply wpm_ret.
    iApply (post_turns with "Hm"); [done|]. split; [|done]. eexists. split; [done|apply (iter_head _ [x])].
  - apply guard_Some in HR as [Hr%room_lt HR]. iApply (wpm_map_insert_absent with "Hm"); [done|lia|].
    iIntros (z p q l1 l2 Hl) "Hm". iApply wpm_ret. iApply (post_turns with "Hm"); [done|].
    eexists _, p, q. split; [done|]. split; [apply (iter_head _ [I p q k v])|by apply adds_item].
Qed.

Lemma erase_refines (c : call K T) this m A R :
  call_map c = Some this -> spec_map c this m A = Some R ->
  match c with CInsertValues _ _ | CEraseKey _ _ | CErase _ _ | CClear _ => True | _ => False end ->
  ⊢ map_own this m -∗ wpm (run c) (map_post this m A R).
Proof.
  intros Hc HR Hk. destruct m as [a d e xs]. unfold map_own. cbn [am_arena am_default am_table am_items].
  destruct c; try done; injection Hc as ->; cbn [spec_map am_items am_table] in HR; cbn [run]; iIntros "Hm".
  - apply guard_Some in HR as [Hr%room_lt HR]. wbind. iApply (wpm_insert_values with "Hm"); [done|].
    iIntros (xs' Hg) "Hm". iApply wpm_ret. by iApply (post_turns with "Hm").
  - iDestruct (pmap_keys with "Hm") as "[Hm %Hnd]". wbind. iApply (wpm_erase_key with "Hm").
    iIntros (xs' Hxs) "Hm". iApply wpm_ret. iApply (post_turns with "Hm"); [done|]. split; [done|].
    destruct (find_item k xs) as [x|] eqn:Hx.
    + destruct Hxs as (l1 & l2 & -> & ->). apply find_item_split in Hx as [<- _].
      by destruct (split_item _ _ _ (ival x) Hnd) as [_ ->].
    + subst xs'. by rw remove_item_absent.
  - destruct (items_from it (AM a d e xs)) as [|x l2] eqn:Hx; [done|].
    apply items_from_Some in Hx as (l1 & z & -> & ->). iDestruct (pmap_keys with "Hm") as "[Hm %Hnd]".
    wbind. iApply (wpm_erase_at with "Hm"). iIntros (z') "Hm". iApply wpm_ret. iApply (post_turns with "Hm"); [done|].
    eexists. split; [done|]. split; [apply iter_head|]. by destruct (split_item _ _ _ (ival x) Hnd) as [_ ->].
  - wbind. iApply (wpm_map_clear with "Hm"). iIntros "Hm". iApply wpm_ret. by iApply (post_turns with "Hm").
Qed.

Definition turning (c : call K T) : bool := match c with CDelete _ | CSetDefault _ _ => false | _ => true end.
Lemma map_refines (c : call K T) this m A R :
  call_map c = Some this -> spec_map c this m A = Some R -> turning c = true ->
  ⊢ map_own this m -∗ wpm (run c) (map_post this m A R).
Proof.
  intros Hc HR Ht. pose proof Hc as Hc'. destruct c; try done; injection Hc' as ->;
    first [exact (reads_refine _ _ _ _ _ Hc HR Logic.I)|exact (index_refines _ _ _ _ _ Hc HR Logic.I)
          |exact (iterators_refine _ _ _ _ _ Hc HR Logic.I)|exact (erase_refines _ _ _ _ _ Hc HR Logic.I)
          |exact (equal_range_refines _ _ _ _ _ HR)|exact (insert_refines _ _ _ _ _ _ HR)].
Qed.
End refine.

(** ** The other maps *)

Section frame.
  Context {K T : Type} `{HashKey K} `{!KeyLaws K} `{Mapped K T} `{Clock K T}.
  Implicit Types (k : K) (v : T) (this other p d e : Z) (it : iterator) (a b : option Z) (x : item K T) (xs ys : list (item K T)).
  Implicit Types (m o : amap K T) (A : gmap Z (amap K T)) (R : result (K := K) (T := T)) (r : outcome K T).

Lemma maps_take this m A : A !! this = Some m -> maps_at A ⊢ map_own this m ∗ maps_at (delete this A).
Proof. intros Hm. unfold maps_at. by rw big_sepM_delete. Qed.
Lemma maps_close this m A : ⊢ map_own this m -∗ maps_at (delete this A) -∗ maps_at (<[this := m]> A).
Proof. iIntros "Hm F". unfold maps_at. rw big_sepM_insert_delete. iFrame. Qed.
(** The second map has stayed as it was. *)
Lemma maps_close_same this other m o A :
  this <> other -> A !! other = Some o ->
  ⊢ map_own this m -∗ map_own other o -∗ maps_at (delete other (delete this A)) -∗ maps_at (<[this := m]> A).
Proof.
  iIntros (Hne Ho) "Hm Ho F". iDestruct (maps_close other o with "Ho F") as "F".
  rw insert_id; [|by rw lookup_delete_ne]. iApply (maps_close with "Hm F").
Qed.
Lemma maps_close2 this other m o A :
  this <> other ->
  ⊢ map_own this m -∗ map_own other o -∗ maps_at (delete other (delete this A)) -∗
    maps_at (<[other := o]> (<[this := m]> A)).
Proof.
  iIntros (Hne) "Hm Ho F". iApply (maps_close with "Ho"). rw delete_insert_ne //.
  iApply (maps_close with "Hm"). by rw delete_delete.
Qed.
Lemma maps_fresh this m A : map_own this m ∗ maps_at A ⊢ ⟨A !! this = None⟩ ∗ map_own this m ∗ maps_at A.
Proof.
  iIntros "[Hm F]". destruct (A !! this) as [m'|] eqn:E; [|by iFrame].
  iDestruct (maps_take with "F") as "[Hm' F]"; [exact E|].
  iDestruct (keep_pure _ _ (pmap_ne this this _ _ _ _ _ _ _ _) with "[$Hm $Hm']") as "[[Hm Hm'] %Hne]". done.
Qed.

(** What a method leaves of all maps. *)
Definition maps_post R r : hM K T := (∃ A, ⟨R r A⟩ ∗ maps_at A)%I.

Lemma post_gives r A R : gives r A = Some R -> maps_at A ⊢ maps_post R r.
Proof. iIntros ([= <-]) "F". iExists A. by iFrame. Qed.
Lemma post_makes this a d e xs P A R :
  makes a d P A = Some R -> P xs -> ⊢ pmap this a d e xs -∗ maps_at A -∗ maps_post R (AAddress this).
Proof.
  iIntros ([= <-] HP) "Hm F". iDestruct (maps_fresh this (AM a d e xs) with "[$Hm $F]") as "(%Hf & Hm & F)".
  iExists (<[this := AM a d e xs]> A). iSplitR; [iPureIntro; naive_solver|].
  iApply (maps_close this (AM a d e xs) with "Hm"). by rw delete_id.
Qed.
(** The map that a method has left is put back. *)
Lemma post_close this m A R r :
  ⊢ map_post this m A R r -∗ maps_at (delete this A) -∗ maps_post R r.
Proof.
  iIntros "(%xs & %Hr & Hm) F". iExists _. iSplitR; [done|].
  by iApply (maps_close this (AM (am_arena m) (am_default m) (am_table m) xs) with "[Hm] F").
Qed.

Lemma make_map_refines (c : call K T) A R :
  spec_make c A = Some R -> ⊢ maps_at A -∗ wpm (run c) (maps_post R).
Proof.
  intros HR. iIntros "F". destruct c; try done; cbn [spec_make] in HR; cbn [run].
  - wbind. iApply wpm_Map_arena. iIntros (this e) "Hm". iApply wpm_ret. by iApply (post_makes with "Hm F").
  - wbind. iApply wpm_Map_default. iIntros (this e) "Hm". iApply wpm_ret. by iApply (post_makes with "Hm F").
  - destruct (A !! other) as [o|] eqn:Ho; [|done]. cbn [mbind option_bind] in HR.
    iDestruct (maps_take with "F") as "[O F]"; [exact Ho|]. iDestruct (pmap_length with "O") as "[O %Hl]".
    wbind. iApply (wpm_Map_copy with "O"); [done|]. iIntros (this e xs Hxs) "Hm O". iApply wpm_ret.
    iDestruct (maps_close other o with "O F") as "F". rw insert_id //. by iApply (post_makes with "Hm F").
  - destruct (A !! other) as [o|] eqn:Ho; [|done]. cbn [mbind option_bind] in HR.
    iDestruct (maps_take with "F") as "[O F]"; [exact Ho|]. iDestruct (pmap_length with "O") as "[O %Hl]".
    wbind. iApply (wpm_Map_range with "O"); [done|]. iIntros (this e xs Hxs) "Hm O". iApply wpm_ret.
    iDestruct (maps_close other o with "O F") as "F". rw insert_id //. by iApply (post_makes with "Hm F").
  - apply guard_Some in HR as [Hr%room_lt HR]. wbind. iApply wpm_Map_values; [simpl in Hr; lia|].
    iIntros (this e xs Hg) "Hm". iApply wpm_ret. by iApply (post_makes with "Hm F").
  - destruct (A !! other) as [o|] eqn:Ho; [|done]. cbn [mbind option_bind] in HR.
    iDestruct (maps_take with "F") as "[O F]"; [exact Ho|]. iDestruct (pmap_length with "O") as "[O %Hl]".
    destruct o as [b f g ys]. unfold map_own. cbn [am_arena am_default am_table am_items] in *.
    wbind. iApply (wpm_Map_move with "O"); [done|]. iIntros (this e h xs [Hxs Hb]) "Hm O". iApply wpm_ret.
    destruct b as [b|].
    + destruct (decide (Some b = None)); [done|]. subst h. iDestruct (maps_close other (AM (Some b) f g ys) with "O F") as "F". rw insert_id //.
      by iApply (post_makes with "Hm F").
    + destruct Hb as [-> ->]. destruct (decide (None = None)); [|done]. injection HR as <-.
      iDestruct (maps_close other (AM None 0 h []) with "O F") as "F".
      iDestruct (maps_fresh this (AM None f g ys) with "[$Hm $F]") as "(%Hf & Hm & F)".
      iExists _. iSplitR; [iPureIntro; exists this, h; split_and!; [done| |done]|].
      * by apply lookup_insert_None in Hf as [Hf _].
      * iApply (maps_close with "Hm"). by rw delete_id.
Qed.

Lemma two_maps_refine (c : call K T) this other m o A R :
  call_maps c = Some (this, other) -> A !! this = Some m -> A !! other = Some o -> this <> other ->
  spec_maps c this other m o A = Some R -> ⊢ maps_at A -∗ wpm (run c) (maps_post R).
Proof.
  intros Hc Hm Ho Hne HR. iIntros "F". iDestruct (maps_take with "F") as "[Hm F]"; [exact Hm|].
  iDestruct (maps_take other with "F") as "[Ho F]"; [by rw lookup_delete_ne|].
  iDestruct (pmap_length with "Hm") as "[Hm %Hlm]". iDestruct (pmap_length with "Ho") as "[Ho %Hlo]".
  destruct m as [a d e xs], o as [b f g ys]. unfold map_own. cbn [am_arena am_default am_table am_items] in *.
  destruct c; try done; injection Hc as -> ->; cbn [spec_maps am_arena am_default am_table am_items] in HR;
    cbn [run]; wbind.
  - apply guard_Some in HR as [Hr%room_lt HR]. injection HR as <-. iApply (wpm_insert_map with "Hm Ho"); [done|].
    iIntros (xs' Hg) "Hm Ho". iApply wpm_ret. iExists _. iSplitR; [iPureIntro; by exists xs'|].
    by iApply (maps_close_same this other (AM a d e xs') (AM b f g ys) with "Hm Ho F").
  - injection HR as <-. iApply (wpm_map_assign_copy with "Hm Ho"); [done..|]. iIntros (xs' Hg) "Hm Ho". iApply wpm_ret.
    iExists _. iSplitR; [iPureIntro; by exists xs'|]. by iApply (maps_close_same this other (AM a d e xs') (AM b f g ys) with "Hm Ho F").
  - iApply (wpm_map_assign_move with "Hm Ho"); [done..|]. destruct (decide (a = b)) as [->|Hab].
    + iIntros "Hm Ho". iApply wpm_ret. injection HR as <-. iExists _. iSplitR; [done|].
      by iApply (maps_close2 this other (AM b f g ys) (AM b d e xs) with "Hm Ho F").
    + injection HR as <-. iIntros (xs' Hg) "Hm Ho". iApply wpm_ret. iExists _. iSplitR; [iPureIntro; by exists xs'|].
      by iApply (maps_close_same this other (AM a d e xs') (AM b f g ys) with "Hm Ho F").
  - destruct (decide (a = b)) as [->|Hab]; injection HR as <-.
    + iApply (wpm_swap_fast with "Hm Ho"). iIntros "Hm Ho". iApply wpm_ret. iExists _. iSplitR; [done|].
      by iApply (maps_close2 this other (AM b f g ys) (AM b d e xs) with "Hm Ho F").
    + iApply (wpm_swap_slow with "Hm Ho"); [done..|]. iIntros (xs' ys' [Hx Hy]) "Hm Ho". iApply wpm_ret. iExists _.
      iSplitR; [iPureIntro; by exists xs', ys'|]. by iApply (maps_close2 this other (AM a d e xs') (AM b f g ys') with "Hm Ho F").
Qed.

(** A map given to itself. *)
Lemma same_map_refines (c : call K T) this m A R :
  call_maps c = Some (this, this) -> A !! this = Some m ->
  match c with CInsertMap _ _ => None | _ => gives AUnit A end = Some R -> ⊢ maps_at A -∗ wpm (run c) (maps_post R).
Proof.
  intros Hc Hm HR. iIntros "F". destruct c; try done; injection Hc as -> ->; cbn [run]; wbind.
  - iApply wpm_assign_self. iApply wpm_ret. by iApply (post_gives with "F").
  - unfold assign_move. case_decide; [|done]. do 2 iApply wpm_ret. by iApply (post_gives with "F").
  - iDestruct (maps_take with "F") as "[Hm F]"; [exact Hm|]. iApply (wpm_swap_self with "Hm"). iIntros "Hm".
    iApply wpm_ret. iDestruct (maps_close this m with "Hm F") as "F". rw insert_id //. by iApply (post_gives with "F").
Qed.

Lemma one_map_refines (c : call K T) this m A R :
  call_map c = Some this -> A !! this = Some m -> spec_map c this m A = Some R ->
  ⊢ maps_at A -∗ wpm (run c) (maps_post R).
Proof.
  intros Hc Hm HR. iIntros "F". iDestruct (maps_take with "F") as "[Hm F]"; [exact Hm|].
  destruct (turning c) eqn:Ht.
  - iApply (wpm_wand with "[Hm]"); [by iApply (map_refines with "Hm")|]. iIntros (r) "Hr". iApply (post_close with "Hr F").
  - destruct c; try done; injection Hc as ->; cbn [spec_map] in HR; cbn [run]; wbind.
    + iApply (wpm_map_destroy with "Hm"). iIntros "_". iApply wpm_ret. by iApply (post_gives with "F").
    + iApply (wpm_SetDefaultEnumValue with "Hm"). iIntros "Hm". iApply wpm_ret.
      iApply (post_gives with "[Hm F]"); [done|].
      by iApply (maps_close this (AM (am_arena m) _ (am_table m) (am_items m)) with "Hm F").
Qed.

Lemma map_call_refines (s : store K T) A (c : call K T) R :
  represents s A -> spec c A = Some R ->
  exists r s' A', run c s = Done (r, s') /\ R r A' /\ represents s' A'.
Proof.
  intros Hs HR.
  assert (maps_at A ∗ garbage ⊢ wpm (run c) (maps_post R)) as Hwp.
  { iIntros "[F G]". iApply (wpm_drop with "G"). unfold spec in HR.
    destruct (call_map c) as [this|] eqn:Hc.
    - destruct (A !! this) as [m|] eqn:Hm; [|done]. by iApply (one_map_refines with "F").
    - destruct (call_maps c) as [[this other]|] eqn:Hc'; [|by iApply (make_map_refines with "F")].
      destruct (A !! this) as [m|] eqn:Hm; [|done]. destruct (A !! other) as [o|] eqn:Ho; [|done].
      cbn [mbind option_bind] in HR. destruct (decide (this = other)) as [<-|Hne].
      + by iApply (same_map_refines with "F").
      + by iApply (two_maps_refine with "F"). }
  destruct (wpm_adequate _ _ _ s Hwp Hs) as (r & s' & E & Hs').
  assert (maps_post R r ∗ garbage ⊢ ∃ A', ⌜R r A'⌝ ∧ (maps_at A' ∗ garbage)) as [Hpost].
  { iIntros "[(%A' & %Hr & F) G]". iExists A'. iSplit; [done|]. iFrame. }
  destruct (Hpost _ Hs') as (A' & Hr & HA). by exists r, s', A'.
Qed.
End frame.

(** ** The shape of the heap

    [sound s this m]: what a heap with the map [m] looks like, object by object. *)

(** The hash table of [n] entries: a power of two of buckets, not overloaded, and the
    first bucket in use is known. *)
Record table_sound (im : InnerMap) (slots : list (option Z)) (n : nat) : Prop := {
  ts_count : num_elements_ im = Z.of_nat n;
  ts_pow2 : exists x, 3 <= x <= 60 /\ num_buckets_ im = 2 ^ x;
  ts_slots : Z.of_nat (length slots) = num_buckets_ im;
  ts_load : 5 * Z.of_nat n < 6 * num_buckets_ im \/ 2 ^ 59 < num_buckets_ im;
  ts_index : 0 <= index_of_first_non_null_ im <= num_buckets_ im;
  ts_null (i : nat) : Z.of_nat i < index_of_first_non_null_ im -> slots !! i = Some None;
  ts_first : slots !! Z.to_nat (index_of_first_non_null_ im) <> Some None;
}.

Record sound {K T} (s : store K T) (this : Z) (m : amap K T) : Prop := {
  sound_map : s !! this = Some (am_arena m, CMap (MkMap (am_arena m) (am_default m) (am_table m)));
  sound_table : exists im slots, s !! am_table m = Some (am_arena m, CInner im) /\ alloc_ im = am_arena m /\
    s !! table_ im = Some (am_arena m, CTable slots) /\ table_sound im slots (length (am_items m));
  sound_node x : x ∈ am_items m -> exists next, s !! inode x = Some (am_arena m, CNode (ikey x) (Some (ipair x)) next);
  sound_pair x : x ∈ am_items m -> s !! ipair x = Some (am_arena m, CPair (ikey x) (ival x));
  sound_keys : NoDup (ikey <$> am_items m);
}.

Section sound.
  Context {K T : Type} `{HashKey K} `{!KeyLaws K} `{Mapped K T} `{Clock K T}.
  Implicit Types (s : store K T) (this p e : Z) (a : option Z) (c : cell K T) (x : item K T) (xs : list (item K T)).
  Implicit Types (m : amap K T) (A : gmap Z (amap K T)) (bs : list (bucket K)).

(** A cell that is owned is in the heap. *)
Lemma cell_in p a c (P F : hM K T) s : (P ⊢ p ↦{a} c ∗ F) -> holds_of P s -> s !! p = Some (a, c).
Proof.
  intros HP Hs. destruct (entails_in _ _ HP _ Hs) as (y & z & -> & Hd & -> & _).
  apply lookup_union_Some_l, lookup_singleton_eq.
Qed.

Lemma table_ok_sound seed bs idx tb a n :
  imap_ok seed bs idx -> fits n (length bs) ->
  table_sound (IM (Z.of_nat n) (Z.of_nat (length bs)) seed (Z.of_nat idx) tb a) (slots bs) n.
Proof.
  intros Hok [_ Hload]. destruct (im_index _ _ _ Hok) as (Hle & Hnull & Hfirst). split; cbn.
  - done.
  - apply Hok.
  - unfold slots. by rw length_fmap.
  - exact Hload.
  - lia.
  - intros i Hi. unfold slots. rw list_lookup_fmap Hnull; [done|lia].
  - rw Nat2Z.id. unfold slots. rw list_lookup_fmap. destruct (bs !! idx) as [b|] eqn:Hb; [|done].
    intros [= Hs]. by apply (Hfirst b).
Qed.

Lemma represents_sound s A this m : represents s A -> A !! this = Some m -> sound s this m.
Proof.
  intros Hs Hm. destruct m as [a d e xs]. unfold represents in Hs.
  assert (maps_at A ∗ garbage ⊢ pmap this a d e xs ∗ maps_at (delete this A) ∗ garbage) as Hsplit.
  { iIntros "[F $]". iDestruct (maps_take this (AM a d e xs) with "F") as "[Hp F]"; [exact Hm|]. iFrame. }
  apply (entails_in _ _ Hsplit) in Hs. clear Hsplit. set (F := (maps_at (delete this A) ∗ garbage)%I) in *.
  assert (NoDup (ikey <$> xs)) as Hnd.
  { assert (pmap this a d e xs ∗ F ⊢ ⌜NoDup (ikey <$> xs)⌝) as E; [|apply (entails_in _ _ E _ Hs)].
    iIntros "[Hp F]". iDestruct (pmap_keys with "Hp") as "[_ %Hnd]". done. }
  split; cbn [am_arena am_default am_table am_items].
  - eapply cell_in; [|exact Hs]. iIntros "[($ & Hi & Hp) F]". iAccu.
  - assert (pmap this a d e xs ∗ F ⊢ ∃ seed bs idx tb, ⌜imap_ok seed bs idx /\ fits (length xs) (length bs)⌝ ∧
      (e ↦{a} CInner (IM (Z.of_nat (length xs)) (Z.of_nat (length bs)) seed (Z.of_nat idx) tb a) ∗
       tb ↦{a} CTable (slots bs) ∗ this ↦{a} CMap (MkMap a d e) ∗ buckets_own a bs ∗ pairs_own a xs ∗ F)) as E.
    { iIntros "[($ & (%seed & %bs & %idx & %tb & [%He %Hsz] & Hm & Ht & Hb & %Hok) & Hp) F]".
      rw length_fmap in Hsz. rw length_fmap. iExists seed, bs, idx, tb. iSplit; [done|]. iFrame. }
    destruct (entails_in _ _ E _ Hs) as (seed & bs & idx & tb & [Hok Hfits] & Hcells).
    exists (IM (Z.of_nat (length xs)) (Z.of_nat (length bs)) seed (Z.of_nat idx) tb a), (slots bs). split_and!.
    + eapply cell_in; [|exact Hcells]. iIntros "[$ F]". iAccu.
    + done.
    + eapply cell_in; [|exact Hcells]. iIntros "(H & $ & F)". iCombine "H F" as "F". iAccu.
    + by apply table_ok_sound.
  - intros x (l1 & l2 & ->)%list_elem_of_split.
    assert (pmap this a d e (l1 ++ x :: l2) ∗ F ⊢ ∃ nx, inode x ↦{a} CNode (ikey x) (Some (ipair x)) nx ∗
      (this ↦{a} CMap (MkMap a d e) ∗ pairs_own a (l1 ++ x :: l2) ∗ F ∗
       (∀ v, node a nx (revalued (item_entry x) v) -∗ imap e a ((item_entry <$> l1) ++ revalued (item_entry x) v :: (item_entry <$> l2))))) as E.
    { iIntros "[($ & Hi & $) $]". rw fmap_app fmap_cons. iDestruct (imap_node with "Hi") as "(%nx & Hn & Hi)".
      iExists nx. iFrame. }
    destruct (entails_in _ _ E _ Hs) as (nx & Hcells). exists nx. eapply cell_in; [|exact Hcells]. done.
  - intros x (l1 & l2 & ->)%list_elem_of_split. eapply cell_in; [|exact Hs]. iIntros "[Hm F]".
    iDestruct (pmap_item with "Hm") as "[$ Hm]". iCombine "Hm F" as "F". iAccu.
  - done.
Qed.
End sound.
