(* ===== verification/MapClient.v ===== *)
(** * Maps: programs that use them

    A client calls methods and goes on as their results say; it is legal when it keeps
    the contracts, whatever the specification leaves open.  [get] and [walk] are the
    usual ways to read a map: by key, and with a loop from [begin()] to [end()]. *)
From Stdlib Require Import ZArith Lia.
From stdpp Require Import base tactics option list list_numbers gmap.
From iris.bi Require Import bi big_op.
From iris.proofmode Require Import proofmode.
From S2P Require Import Prelude Bits HeapLogic InnerMap MapLogic ProtoMap ProtoMapOps ProtoMapErase.
From S2P Require Import MapSpec MapRefine.

Section client.
  Context {K T : Type} `{HashKey K} `{Mapped K T} `{Clock K T}.
  Implicit Types (A : gmap Z (amap K T)) (P : gmap Z (amap K T) -> Prop) (this : Z) (k : K) (v : T) (it : iterator).

Inductive client :=
| Stop
| Call (c : call K T) (next : outcome K T -> client).

Fixpoint exec (cl : client) : stm (store K T) unit :=
  match cl with
  | Stop => mret tt
  | Call c next => r ← run c; exec (next r)
  end.
(** It keeps all contracts, and [P] holds in the end. *)
Fixpoint legal (cl : client) P A : Prop :=
  match cl with
  | Stop => P A
  | Call c next => exists R, spec c A = Some R /\ forall r A', R r A' -> legal (next r) P A'
  end.

Definition get this k : stm (store K T) (option T) :=
  it ← find this k;
  if at_end it then mret None else p ← arrow it; x ← pair_at p; mret (Some (snd x)).

(** [for (it = begin(); it != end(); ++it)]. *)
Fixpoint walk (fuel : nat) it : stm (store K T) (list (K * T)) :=
  match fuel with
  | O => st_fault OutOfFuel
  | S fuel =>
      if decide (node_ it = node_ end_) then mret []
      else
        p ← arrow it; x ← pair_at p;
        next ← incr it;
        l ← walk fuel next;
        mret (x :: l)
  end.
End client.

Section runs.
  Context {K T : Type} `{HashKey K} `{!KeyLaws K} `{Mapped K T} `{Clock K T}.
  Implicit Types (s : store K T) (A : gmap Z (amap K T)) (P : gmap Z (amap K T) -> Prop) (this d e : Z) (a : option Z).
  Implicit Types (k : K) (v : T) (it : iterator) (x : item K T) (xs : list (item K T)) (m : amap K T).

Lemma client_runs (cl : client (K := K) (T := T)) P s A :
  represents s A -> legal cl P A -> exists s' A', exec cl s = Done (tt, s') /\ P A' /\ represents s' A'.
Proof.
  revert s A. induction cl as [|c next IH]; intros s A Hs Hl; [by exists s, A|].
  destruct Hl as (R & HR & Hnext). destruct (map_call_refines s A c R Hs HR) as (r & s1 & A1 & E & Hr & Hs1).
  destruct (IH r s1 A1 Hs1 (Hnext r A1 Hr)) as (s' & A' & E' & HP & Hs').
  exists s', A'. split_and!; [|done|done]. cbn [exec]. unfold mbind, stm_bind. by rw E.
Qed.

Lemma represents_nothing s : represents s (∅ : gmap Z (amap K T)) -> on_arenas s.
Proof.
  intros Hs. assert (maps_at (∅ : gmap Z (amap K T)) ∗ garbage ⊢ garbage) as E.
  { unfold maps_at. rw big_sepM_empty. by iIntros "[_ $]". }
  exact (entails_in _ _ E _ Hs).
Qed.
Lemma nothing_represents : represents (∅ : store K T) (∅ : gmap Z (amap K T)).
Proof.
  assert (emp ⊢ maps_at (∅ : gmap Z (amap K T)) ∗ garbage) as E.
  { unfold maps_at. rw big_sepM_empty. iIntros "_". iSplitL; [done|by iApply garbage_emp]. }
  apply (entails_in _ _ E). done.
Qed.

(** ** Reading *)

(** A method that works on one map and gives it back. *)
Lemma represents_run {B} (c : stm (store K T) B) s A this m (r : B) :
  represents s A -> A !! this = Some m ->
  (forall Q : B -> hM K T, ⊢ map_own this m -∗ (map_own this m -∗ Q r) -∗ wpm c Q) ->
  exists s', c s = Done (r, s') /\ represents s' A.
Proof.
  intros Hs Hm Hc. assert (maps_at A ∗ garbage ⊢ wpm c (fun r' => ⟨r' = r⟩ ∗ maps_at A)) as Hwp.
  { iIntros "[F G]". iApply (wpm_drop with "G"). iDestruct (maps_take with "F") as "[Hm F]"; [exact Hm|].
    iApply (Hc with "Hm"). iIntros "Hm". iSplitR; [done|].
    iDestruct (maps_close with "Hm F") as "F". by rw insert_id. }
  destruct (wpm_adequate _ _ _ s Hwp Hs) as (r' & s' & E & Hs').
  assert ((⟨r' = r⟩ ∗ maps_at A) ∗ garbage ⊢ ⌜r' = r⌝ ∧ (maps_at A ∗ garbage)) as Hpost.
  { iIntros "[[%Hr F] G]". iSplit; [done|]. iFrame. }
  destruct (entails_in _ _ Hpost _ Hs')  as [Hr Hs'']. change (r' = r) in Hr. subst r'.
  exists s'. split; [exact E|exact Hs''].
Qed.

Lemma wpm_get this m k (Q : option T -> hM K T) :
  ⊢ map_own this m -∗ (map_own this m -∗ Q (ival <$> find_item k (am_items m))) -∗ wpm (get this k) Q.
Proof.
  destruct m as [a d e xs]. unfold map_own. cbn [am_items am_table am_arena am_default]. iIntros "Hm HQ".
  wbind. iApply (wpm_map_find with "Hm"). iIntros (it Hit) "Hm". rw (finds_item_end _ _ _ _ Hit). unfold finds_item in Hit.
  destruct (find_item k xs) as [x|] eqn:Hx.
  - destruct Hit as [z ->]. destruct (find_item_split _ _ _ Hx) as (_ & l1 & l2 & ->). rw bool_decide_false //.
    wbind. iApply (wpm_map_arrow with "Hm"). iIntros "Hm". iDestruct (pmap_item with "Hm") as "[Hx Hm]".
    wbind. iApply (wpm_pair_at with "Hx"). iIntros "Hx". iDestruct ("Hm" $! (ival x) with "Hx") as "Hm".
    iApply wpm_ret. destruct x. iApply ("HQ" with "Hm").
  - rw bool_decide_true //. iApply wpm_ret. iApply ("HQ" with "Hm").
Qed.

Lemma wpm_walk this a d e l1 l2 z fuel (Q : list (K * T) -> hM K T) :
  (length l2 < fuel)%nat ->
  ⊢ pmap this a d e (l1 ++ l2) -∗ (pmap this a d e (l1 ++ l2) -∗ Q (keyval <$> l2)) -∗
    wpm (walk fuel (It (inode <$> head l2) (Some e) z)) Q.
Proof.
  revert l1 l2 z Q. induction fuel as [|fuel IH]; intros l1 l2 z Q Hf; [lia|]. iIntros "Hm HQ".
  cbn [walk node_ end_]. destruct l2 as [|x l2]; cbn [head].
  { case_decide; [|done]. iApply wpm_ret. by iApply "HQ". }
  case_decide; [done|]. simpl in Hf. wbind. iApply (wpm_map_arrow with "Hm"). iIntros "Hm".
  iDestruct (pmap_item with "Hm") as "[Hx Hm]". wbind. iApply (wpm_pair_at with "Hx"). iIntros "Hx".
  iDestruct ("Hm" $! (ival x) with "Hx") as "Hm".
  assert (I (inode x) (ipair x) (ikey x) (ival x) = x) as -> by by destruct x.
  wbind. iApply (wpm_map_next with "Hm"). iIntros (z') "Hm".
  rw (_ : l1 ++ x :: l2 = (l1 ++ [x]) ++ l2); [|by rw -app_assoc].
  wbind. iApply (IH with "Hm"); [lia|]. iIntros "Hm". iApply wpm_ret. by iApply "HQ".
Qed.

(** ** Items and keys *)

Lemma find_item_in xs x : NoDup (ikey <$> xs) -> x ∈ xs -> find_item (ikey x) xs = Some x.
Proof.
  induction xs as [|y xs IH]; intros Hnd Hx; [by apply not_elem_of_nil in Hx|].
  rw fmap_cons in Hnd. apply NoDup_cons in Hnd as [Hy Hnd]. cbn [find_item].
  apply elem_of_cons in Hx as [->|Hx]; [by case_decide|]. case_decide as Hk; [|by apply IH].
  destruct Hy. rw Hk. by apply list_elem_of_fmap_2.
Qed.
Lemma find_item_absent k xs : k ∉ ikey <$> xs -> find_item k xs = None.
Proof.
  intros Hk. destruct (find_item k xs) as [x|] eqn:E; [|done]. apply find_item_split in E as (<- & l1 & l2 & ->).
  destruct Hk. rw fmap_app fmap_cons. apply elem_of_app. right. left.
Qed.
Lemma find_item_perm k xs ys : NoDup (ikey <$> xs) -> xs ≡ₚ ys -> find_item k xs = find_item k ys.
Proof.
  intros Hnd Hp. assert (NoDup (ikey <$> ys)) as Hnd' by by rw -Hp.
  destruct (find_item k ys) as [y|] eqn:E.
  - pose proof (find_item_split _ _ _ E) as (<- & l1 & l2 & ->). apply find_item_in; [done|].
    rw Hp. apply elem_of_app. right. left.
  - apply find_item_absent. rw Hp. by apply find_item_None.
Qed.
Lemma find_set_item k v k' xs :
  is_Some (find_item k xs) -> ival <$> find_item k' (set_item k v xs) = if decide (k' = k) then Some v else ival <$> find_item k' xs.
Proof.
  induction xs as [|x xs IH]; [by intros [? ?]|]. cbn [find_item set_item].
  destruct (decide (ikey x = k)) as [Hk|Hk].
  - intros _. cbn [find_item ikey with_value]. rw Hk. destruct (decide (k = k')); case_decide; try done; congruence.
  - intros Hs. cbn [find_item]. destruct (decide (ikey x = k')); [|by apply IH]. case_decide; congruence.
Qed.
Lemma find_remove_item k k' xs :
  NoDup (ikey <$> xs) -> find_item k' (remove_item k xs) = if decide (k' = k) then None else find_item k' xs.
Proof.
  induction xs as [|x xs IH]; intros Hnd; [by case_decide|]. rw fmap_cons in Hnd. apply NoDup_cons in Hnd as [Hx Hnd].
  cbn [find_item remove_item]. destruct (decide (ikey x = k)) as [Hk|Hk].
  - destruct (decide (k' = k)) as [->|Hne]; [apply find_item_absent; by rw -Hk|]. case_decide; [congruence|done].
  - cbn [find_item]. rw (IH Hnd). repeat case_decide; congruence.
Qed.

(** ** Storing and erasing *)

Lemma stored_item s A this m k v :
  represents s A -> A !! this = Some m -> Z.of_nat (length (am_items m)) + 1 < 2 ^ 64 ->
  exists s' m', run (CIndexSet this k v) s = Done (AUnit, s') /\ represents s' (<[this := m']> A) /\
    (forall k', ival <$> find_item k' (am_items m') = if decide (k' = k) then Some v else ival <$> find_item k' (am_items m)) /\
    is_Some (find_item k (am_items m')).
Proof.
  intros Hs Hm Hroom. destruct m as [a d e xs]. cbn [am_items] in *.
  assert (forall m', (forall k', ival <$> find_item k' (am_items m') = if decide (k' = k) then Some v else ival <$> find_item k' xs) ->
    is_Some (find_item k (am_items m'))) as Hk.
  { intros m' Hm'. specialize (Hm' k). destruct (find_item k (am_items m')); [by eexists|by case_decide]. }
  assert (exists R, spec (CIndexSet this k v) A = Some R /\
    forall r A', R r A' -> exists m', r = AUnit /\ A' = <[this := m']> A /\
      (NoDup (ikey <$> am_items m') -> forall k', ival <$> find_item k' (am_items m') =
         if decide (k' = k) then Some v else ival <$> find_item k' xs)) as (R & HR & Hpost).
  { unfold spec. cbn [call_map]. rw Hm. cbn [mbind option_bind spec_map am_items am_arena am_default am_table].
    destruct (find_item k xs) as [x|] eqn:Hx.
    - eexists. split; [reflexivity|]. intros r A' (xs' & [-> ->] & ->). exists (AM a d e (set_item k v xs)).
      split_and!; [done|done|]. intros _ k'. cbn [am_items]. by rw find_set_item.
    - unfold room. rw bool_decide_true; [|lia]. eexists. split; [reflexivity|].
      intros r A' (xs' & [-> (p & q & Hp)] & ->). exists (AM a d e xs'). split_and!; [done|done|]. cbn [am_items].
      intros Hnd k'. rw (find_item_perm k' _ _ Hnd Hp). cbn [find_item ikey].
      destruct (decide (k = k')), (decide (k' = k)); try done; congruence. }
  destruct (map_call_refines s A _ R Hs HR) as (r & s' & A' & E & Hr & Hs').
  destruct (Hpost r A' Hr) as (m' & -> & -> & Hfind).
  assert (NoDup (ikey <$> am_items m')) as Hnd by (apply (represents_sound _ _ this m' Hs'), lookup_insert_eq).
  exists s', m'. split_and!; [done|done|by apply Hfind|by apply Hk, Hfind].
Qed.

Lemma erased_item s A this m k :
  represents s A -> A !! this = Some m ->
  exists s' m', run (CEraseKey this k) s = Done (ANumber (match find_item k (am_items m) with Some _ => 1 | None => 0 end), s') /\
    represents s' (<[this := m']> A) /\
    forall k', ival <$> find_item k' (am_items m') = if decide (k' = k) then None else ival <$> find_item k' (am_items m).
Proof.
  intros Hs Hm. pose proof (represents_sound s A this m Hs Hm) as [_ _ _ _ Hnd].
  assert (exists R, spec (CEraseKey this k) A = Some R /\ forall r A', R r A' ->
    r = ANumber (match find_item k (am_items m) with Some _ => 1 | None => 0 end) /\
    A' = <[this := AM (am_arena m) (am_default m) (am_table m) (remove_item k (am_items m))]> A) as (R & HR & Hpost).
  { unfold spec. cbn [call_map]. rw Hm. eexists. split; [reflexivity|]. by intros r A' (xs' & [-> ->] & ->). }
  destruct (map_call_refines s A _ R Hs HR) as (r & s' & A' & E & Hr & Hs'). apply Hpost in Hr as [-> ->].
  eexists s', _. split_and!; [exact E|exact Hs'|]. intros k'. cbn [am_items]. rw (find_remove_item _ _ _ Hnd). by case_decide.
Qed.
End runs.
