(* ===== verification/MapProps.v ===== *)
(** * Properties of the maps *)
From Stdlib Require Import ZArith Lia Strings.Byte.
From stdpp Require Import base tactics option list list_numbers gmap.
From iris.bi Require Import bi big_op.
From iris.proofmode Require Import proofmode.
From S2P Require Import Prelude Bits HeapLogic InnerMap MapLogic MapBuckets MapTree MapKeys MapFind MapIter MapInsert MapResize MapOps MapErase.
From S2P Require Import ProtoMap ProtoMapOps ProtoMapErase MapKeys MapSpec MapRefine MapClient.

(** ** A heap for the witnesses: a map from strings to integers *)

#[export] Instance arm_char : Char := { char_signed := false }.
#[export] Instance string_to_int : Mapped (list byte) Z := { key_default := []; value_default := 0; enum_cast := None }.
#[export] Instance no_clock : Clock (list byte) Z := { rdtsc _ := 0 }.

Abbreviation str_A := ["A"%byte].
Abbreviation str_B := ["B"%byte].
Definition two_values : list (list byte * Z) := [(str_A, 1); (str_B, 2)].
Definition two_items : store (list byte) Z :=
  match run (CValuesNew two_values) ∅ with Done (_, s) => s | _ => ∅ end.

Lemma done_inj {A S} (x y : A) (s t : S) : Done (x, s) = Done (y, t) -> x = y /\ s = t.
Proof. by intros [= -> ->]. Qed.
Lemma two_items_made : run (CValuesNew two_values) ∅ = Done (AAddress 0, two_items).
Proof. by vm_compute. Qed.
Lemma two_items_represent :
  exists m, represents two_items {[0 := m]} /\ am_arena m = None /\ keyval <$> am_items m ≡ₚ two_values.
Proof.
  destruct (map_call_refines ∅ ∅ (CValuesNew two_values) _ nothing_represents eq_refl) as (r & s' & A' & E & Hr & Hs).
  rw two_items_made in E. apply done_inj in E as [<- <-]. destruct Hr as (this & e & xs & [= <-] & _ & (new & Hp & Hn) & ->).
  rw app_nil_r in Hp. exists (AM None 0 e xs). split; [exact Hs|]. split; [done|]. cbn [am_items]. by rw Hp Hn.
Qed.

(** C14: Refinement: on a heap with any maps, every method of [Map] called within its
    contract does what the specification on lists of items says: it ends, returns the
    specified result and leaves the specified maps, each on its own arena, whatever the
    hash function and the seed do.  This covers collisions, lists that become trees,
    growing and shrinking of the table, iterators that were made before the table was
    resized, copies and swaps between arenas, moves and self-assignment. *)
Theorem map_methods_refine {K T} `{HashKey K} `{!KeyLaws K} `{Mapped K T} `{Clock K T}
    (s : store K T) A (c : call K T) R :
  represents s A -> spec c A = Some R ->
  exists r s' A', run c s = Done (r, s') /\ R r A' /\ represents s' A'.
Proof. apply map_call_refines. Qed.

(** A key that the map has is not inserted again. *)
Lemma map_methods_refine_witness :
  exists r s' A', run (CInsert 0 str_B 7) two_items = Done (r, s') /\
    (exists it, r = AInserted it false) /\ represents s' A'.
Proof.
  destruct two_items_represent as (m & Hs & _ & Hp).
  assert (exists x, find_item str_B (am_items m) = Some x) as [x Hx].
  { apply find_item_Some. assert (ikey <$> am_items m = fst <$> (keyval <$> am_items m)) as -> by by rw -list_fmap_compose.
    rw Hp. right. left. }
  destruct (map_methods_refine two_items {[0 := m]} (CInsert 0 str_B 7)
    (fun r A' => exists xs, ((exists it, r = AInserted it false /\ iter_at (am_table m) [x] it) /\ xs = am_items m) /\
       A' = <[0 := AM (am_arena m) (am_default m) (am_table m) xs]> {[0 := m]}))
    as (r & s' & A' & E & (xs & [(it & -> & _) _] & _) & HA).
  - exact Hs.
  - unfold spec. cbn [call_map]. rw lookup_singleton_eq. cbn [mbind option_bind spec_map]. by rw Hx.
  - exists (AInserted it false), s', A'. split; [exact E|]. split; [by exists it|exact HA].
Defined.

(** C15: Invariant: after every method of [Map] called within its contract each map is
    sound: the map, its hash table, its buckets, nodes and pairs are on the map's
    arena; the node of each item has its key and leads to its pair; no key is there
    twice; the table counts the items, has a power of two of buckets between 8 and
    2^60, fewer than six items in five buckets while it can grow, and knows its first
    bucket in use. *)
Theorem map_methods_sound {K T} `{HashKey K} `{!KeyLaws K} `{Mapped K T} `{Clock K T}
    (s : store K T) A (c : call K T) R :
  represents s A -> spec c A = Some R ->
  exists r s' A', run c s = Done (r, s') /\ R r A' /\ forall this m, A' !! this = Some m -> sound s' this m.
Proof.
  intros Hs HR. destruct (map_call_refines s A c R Hs HR) as (r & s' & A' & E & Hr & HA).
  exists r, s', A'. split_and!; [done|done|]. intros this m. by apply represents_sound.
Qed.

Lemma map_methods_sound_witness :
  exists r s' (A' : gmap Z (amap (list byte) Z)), run (CValuesNew two_values) ∅ = Done (r, s') /\ forall this m, A' !! this = Some m -> sound s' this m.
Proof.
  destruct (map_methods_sound ∅ ∅ (CValuesNew two_values) _ nothing_represents eq_refl) as (r & s' & A' & E & _ & HA).
  exists r, s', A'. split; [exact E|exact HA].
Defined.

(** C16: Safety: a program that keeps the contracts and in the end has destroyed its
    maps ends without touching memory that is not its own, and leaves nothing behind
    but what is on an arena: no node, pair, tree or table leaks, and none is freed
    twice. *)
Theorem map_clients_leave_nothing {K T} `{HashKey K} `{!KeyLaws K} `{Mapped K T} `{Clock K T} (cl : client (K := K) (T := T)) :
  legal cl (fun A => A = ∅) ∅ ->
  exists s', exec cl ∅ = Done (tt, s') /\ forall p a c, s' !! p = Some (a, c) -> a <> None.
Proof.
  intros Hl. destruct (client_runs cl _ ∅ ∅ nothing_represents Hl) as (s' & A' & E & -> & Hs).
  exists s'. split; [done|]. by apply represents_nothing.
Qed.

(** [Map m = {{"A", 1}, {"B", 2}}; m["A"] = 5; m.erase("B"); delete &m]. *)
Definition small_client : client (K := list byte) (T := Z) :=
  Call (CValuesNew two_values) (fun r =>
    match r with
    | AAddress this =>
        Call (CIndexSet this str_A 5) (fun _ => Call (CEraseKey this str_B) (fun _ => Call (CDelete this) (fun _ => Stop)))
    | _ => Stop
    end).

Lemma small_client_legal : legal small_client (fun A => A = ∅) ∅.
Proof.
  eexists. split; [reflexivity|]. intros r A (this & e & xs & -> & _ & Hg & ->).
  pose proof (grown_length _ _ _ Hg) as Hlen. simpl in Hlen.
  assert (exists R, spec (CIndexSet this str_A 5) (<[this := AM None 0 e xs]> ∅) = Some R /\
    forall r A', R r A' -> exists xs', A' = <[this := AM None 0 e xs']> ∅) as (R & HR & Hnext).
  { unfold spec. cbn [call_map]. rw lookup_insert_eq. cbn [mbind option_bind spec_map am_items am_arena am_default am_table].
    destruct (find_item str_A xs) as [x|].
    - eexists. split; [reflexivity|]. intros r A' (xs' & _ & ->). exists xs'. by rw insert_insert_eq.
    - unfold room. rw bool_decide_true; [|lia]. eexists. split; [reflexivity|]. intros r A' (xs' & _ & ->). exists xs'.
      by rw insert_insert_eq. }
  exists R. split; [exact HR|]. intros r A' (xs' & ->)%Hnext.
  eexists. split; [unfold spec; cbn [call_map]; rw lookup_insert_eq; reflexivity|].
  intros r' A' (xs2 & _ & ->). rw insert_insert_eq.
  eexists. split; [unfold spec; cbn [call_map]; rw lookup_insert_eq; reflexivity|].
  intros r2 A' [_ ->]. cbn [legal]. by rw delete_insert_eq.
Qed.

Lemma map_clients_leave_nothing_witness :
  exists s', exec small_client ∅ = Done (tt, s') /\ forall p a c, s' !! p = Some (a, c) -> a <> None.
Proof. apply (map_clients_leave_nothing small_client), small_client_legal. Defined.

(** C22: Round trip: after [m[k] = v] a look-up of [k] gives [v], after [m.erase(k)] it
    finds nothing, and a look-up of any other key gives what it gave before. *)
Theorem map_store_lookup {K T} `{HashKey K} `{!KeyLaws K} `{Mapped K T} `{Clock K T}
    (s : store K T) A this m k v k' :
  represents s A -> A !! this = Some m -> Z.of_nat (length (am_items m)) + 1 < 2 ^ 64 ->
  exists before stored erased n s0 s1 s2 s3 s4,
    get this k' s = Done (before, s0) /\
    run (CIndexSet this k v) s = Done (AUnit, s1) /\ get this k' s1 = Done (stored, s2) /\
    stored = (if decide (k' = k) then Some v else before) /\
    run (CEraseKey this k) s1 = Done (ANumber n, s3) /\ get this k' s3 = Done (erased, s4) /\
    erased = (if decide (k' = k) then None else before) /\ n = 1.
Proof.
  intros Hs Hm Hroom.
  destruct (represents_run _ s A this m _ Hs Hm (fun Q => wpm_get this m k' Q)) as (s0 & E0 & _).
  assert (NoDup (ikey <$> am_items m)) as Hnd by apply (represents_sound s A this m Hs Hm).
  destruct (stored_item s A this m k v Hs Hm Hroom) as (s1 & m1 & E1 & Hs1 & Hfind & Hk).
  set (A1 := <[this := m1]> A) in *. assert (A1 !! this = Some m1) as Hm1 by apply lookup_insert_eq.
  destruct (represents_run _ s1 A1 this m1 _ Hs1 Hm1 (fun Q => wpm_get this m1 k' Q)) as (s2 & E2 & _).
  destruct (erased_item s1 A1 this m1 k Hs1 Hm1) as (s3 & m3 & E3 & Hs3 & Hfind3).
  set (A3 := <[this := m3]> A1) in *. assert (A3 !! this = Some m3) as Hm3 by apply lookup_insert_eq.
  destruct (represents_run _ s3 A3 this m3 _ Hs3 Hm3 (fun Q => wpm_get this m3 k' Q)) as (s4 & E4 & _).
  eexists _, _, _, _, s0, s1, s2, s3, s4. split_and!; [exact E0|exact E1|exact E2|apply Hfind|exact E3|exact E4| |by destruct Hk as [x ->]].
  rw Hfind3. destruct (decide (k' = k)) as [|Hne]; [done|]. rw Hfind. by destruct (decide (k' = k)).
Qed.

Lemma map_store_lookup_witness :
  exists stored n s1 s2 s3 s4,
    run (CIndexSet 0 str_A 5) two_items = Done (AUnit, s1) /\ get 0 str_A s1 = Done (stored, s2) /\ stored = Some 5 /\
    run (CEraseKey 0 str_A) s1 = Done (ANumber n, s3) /\ get 0 str_A s3 = Done (None, s4).
Proof.
  destruct two_items_represent as (m & Hs & _ & Hp).
  destruct (map_store_lookup two_items {[0 := m]} 0 m str_A 5 str_A)
    as (w & w1 & w2 & n & s0 & s1 & s2 & s3 & s4 & _ & E1 & E2 & H2 & E3 & E4 & H4 & _).
  - exact Hs.
  - apply lookup_singleton_eq.
  - assert (length (am_items m) = 2%nat) as ->; [|done]. by rw -(length_fmap keyval) Hp.
  - exists w1, n, s1, s2, s3, s4. split_and!; [exact E1|exact E2|by rw H2|exact E3|]. rw E4. by rw H4.
Defined.

(** C23: A loop from [begin()] to [end()] visits every item of the map exactly once, and
    ends; the keys it meets are all different. *)
Theorem map_iteration {K T} `{HashKey K} `{!KeyLaws K} `{Mapped K T} `{Clock K T}
    (s : store K T) A this m fuel :
  represents s A -> A !! this = Some m -> (length (am_items m) < fuel)%nat ->
  exists s', (first ← begin this; walk fuel first) s = Done (keyval <$> am_items m, s') /\
    represents s' A /\ NoDup (fst <$> (keyval <$> am_items m)).
Proof.
  intros Hs Hm Hf. destruct (represents_run (first ← begin this; walk fuel first) s A this m (keyval <$> am_items m) Hs Hm)
    as (s' & E & Hs').
  { intros Q. destruct m as [a d e xs]. unfold map_own. cbn [am_items am_table am_arena am_default] in *. iIntros "Hm HQ".
    wbind. iApply (wpm_map_begin with "Hm"). iIntros (z) "Hm". iApply (wpm_walk this a d e [] xs with "Hm HQ"). exact Hf. }
  exists s'. split_and!; [done|done|]. rw -list_fmap_compose. apply (represents_sound s A this m Hs Hm).
Qed.

Lemma map_iteration_witness :
  exists l s', (first ← begin 0; walk 3 first) two_items = Done (l, s') /\ l ≡ₚ two_values.
Proof.
  destruct two_items_represent as (m & Hs & _ & Hp).
  destruct (map_iteration two_items {[0 := m]} 0 m 3) as (s' & E & _).
  - exact Hs.
  - apply lookup_singleton_eq.
  - rw -(length_fmap keyval) Hp. simpl. lia.
  - exists (keyval <$> am_items m), s'. split; [exact E|exact Hp].
Defined.

(** C39: The table can shrink below the number of its entries, although it is meant to
    shrink so little that it need not grow again soon: in a map with 256 buckets and 36
    entries, the insertion of a 37th entry leaves 32 buckets, and that of a 38th entry 64
    again. *)
Theorem map_shrinks_too_far {K T} `{HashKey K} `{!KeyLaws K} `{Clock K T} (s : store K T) this a es k1 k2 (v1 v2 : option Z) (F : hM K T) :
  holds_of (imap this a es ∗ F)%I s -> buckets this s = Some 256 -> length es = 36%nat ->
  k1 ∉ ekey <$> es -> k2 ∉ k1 :: (ekey <$> es) ->
  exists it1 p1 es1 s1 it2 p2 es2 s2,
    InnerMap.insert this k1 v1 s = Done ((it1, true), s1) /\ es1 ≡ₚ E p1 k1 v1 :: es /\
    holds_of (imap this a es1 ∗ F ∗ garbage)%I s1 /\ buckets this s1 = Some 32 /\
    InnerMap.insert this k2 v2 s1 = Done ((it2, true), s2) /\ es2 ≡ₚ E p2 k2 v2 :: es1 /\
    holds_of (imap this a es2 ∗ (F ∗ garbage) ∗ garbage)%I s2 /\ buckets this s2 = Some 64.
Proof.
  intros Hs Hb Hl Hk1 Hk2.
  destruct (insert_run s this a es 256 k1 v1 F Hs Hb Hk1 ltac:(lia)) as (p1 & es1 & z1 & s1 & E1 & Hp1 & Hs1 & Hb1).
  rw Hl in Hb1. assert (length es1 = 37%nat) as Hl1 by (rw Hp1; simpl; lia).
  assert (k2 ∉ ekey <$> es1) as Hk2' by by rw Hp1.
  destruct (insert_run s1 this a es1 32 k2 v2 _ Hs1 Hb1 Hk2' ltac:(lia)) as (p2 & es2 & z2 & s2 & E2 & Hp2 & Hs2 & Hb2).
  rw Hl1 in Hb2. by exists (It (Some p1) (Some this) z1), p1, es1, s1, (It (Some p2) (Some this) z2), p2, es2, s2.
Qed.

(** A map that has had 97 entries, of which 36 are left. *)
Fixpoint insert_keys (this : Z) (ks : list (list byte)) : stm (store (list byte) Z) unit :=
  match ks with [] => mret tt | k :: ks => InnerMap.insert this k None ;; insert_keys this ks end.
Fixpoint erase_keys (this : Z) (ks : list (list byte)) : stm (store (list byte) Z) unit :=
  match ks with [] => mret tt | k :: ks => it ← InnerMap.find this k; InnerMap.erase this it ;; erase_keys this ks end.
Definition letter_keys (n m : nat) : list (list byte) := (fun i => [byte_of_Z (Z.of_nat i)]) <$> seq n m.
Definition sparse : stm (store (list byte) Z) Z :=
  this ← InnerMap.construct None 0; insert_keys this (letter_keys 0 61 ++ letter_keys 61 36) ;; erase_keys this (letter_keys 0 61) ;; mret this.

Lemma wpm_insert_keys this ks es (Q : unit -> hM (list byte) Z) :
  NoDup (ks ++ (ekey <$> es)) -> Z.of_nat (length ks + length es) < 2 ^ 64 ->
  ⊢ imap this None es -∗ (∀ es', ⟨ekey <$> es' ≡ₚ ks ++ (ekey <$> es)⟩ -∗ imap this None es' -∗ Q tt) -∗ wpm (insert_keys this ks) Q.
Proof.
  iIntros (Hnd Hl) "Hi HQ". iInduction ks as [|k ks IH] forall (es Hnd Hl); cbn [insert_keys app length] in *.
  - iApply wpm_ret. by iApply ("HQ" with "[] Hi").
  - apply NoDup_cons in Hnd as [Hk Hnd]. rw elem_of_app in Hk. wbind.
    iApply (wpm_insert_absent with "Hi"); [apply lookup_key_absent; tauto|lia|]. iIntros (p es' z Hp) "Hi".
    iApply ("IH" with "[] [] Hi [HQ]").
    + iPureIntro. rw Hp /= -Permutation_middle. constructor; [rw elem_of_app; tauto|done].
    + iPureIntro. rw Hp /=. lia.
    + iIntros (es2 Hp2) "Hi". iApply ("HQ" with "[] Hi"). iPureIntro. by rw Hp2 Hp /= -Permutation_middle.
Qed.
Lemma wpm_erase_keys this ks es rest (Q : unit -> hM (list byte) Z) :
  ekey <$> es ≡ₚ ks ++ rest -> NoDup (ks ++ rest) ->
  ⊢ imap this None es -∗ (∀ es', ⟨ekey <$> es' ≡ₚ rest⟩ -∗ imap this None es' -∗ Q tt) -∗ wpm (erase_keys this ks) Q.
Proof.
  iIntros (Hp Hnd) "Hi HQ". iInduction ks as [|k ks IH] forall (es Hp Hnd); cbn [erase_keys app] in *.
  - iApply wpm_ret. by iApply ("HQ" with "[] Hi").
  - wbind. iApply (wpm_find with "Hi"). iIntros (it Hit) "Hi".
    assert (exists e, lookup_key k es = Some e) as [e He].
    { destruct (lookup_key k es) as [e|] eqn:E; [by exists e|]. apply lookup_key_None in E. destruct E. rw Hp. by left. }
    unfold finds in Hit. rw He in Hit. destruct it as [nd mm z]. cbn in Hit. destruct Hit as [-> ->].
    apply lookup_key_Some in He as [He <-]. apply list_elem_of_split in He as (l1 & l2 & ->).
    wbind. iApply (wpm_erase with "Hi"). iIntros "Hi". apply NoDup_cons in Hnd as [_ Hnd].
    iApply ("IH" with "[] [] Hi HQ"); [|done]. iPureIntro. apply (Permutation_cons_inv (a := ekey e)). by rw -Hp !fmap_app /= Permutation_middle.
Qed.

Lemma letters_distinct : NoDup (letter_keys 0 61 ++ letter_keys 61 36).
Proof. apply (bool_decide_unpack _). by vm_compute. Qed.

Lemma wpm_sparse : emp ⊢ wpm sparse (fun this => ∃ es, imap this None es ∗ ⟨ekey <$> es ≡ₚ letter_keys 61 36⟩).
Proof.
  iIntros "_". unfold sparse. wbind. iApply wpm_table_construct. iIntros (this) "Hi". wbind.
  iApply (wpm_insert_keys with "Hi"); [rw app_nil_r; apply letters_distinct|by vm_compute|]. iIntros (es Hp) "Hi". rw app_nil_r in Hp.
  wbind. iApply (wpm_erase_keys with "Hi"); [exact Hp|apply letters_distinct|]. iIntros (es' Hp') "Hi".
  iApply wpm_ret. iExists es'. by iFrame.
Qed.

Lemma sparse_buckets : match sparse ∅ with Done (this, s) => buckets this s = Some 256 | Fault _ => False end.
Proof. by vm_compute. Qed.

Lemma map_shrinks_too_far_witness :
  exists this s it1 s1 it2 s2, sparse ∅ = Done (this, s) /\ buckets this s = Some 256 /\
    InnerMap.insert this (str_A ++ str_A) None s = Done ((it1, true), s1) /\ buckets this s1 = Some 32 /\
    InnerMap.insert this (str_A ++ str_B) None s1 = Done ((it2, true), s2) /\ buckets this s2 = Some 64.
Proof.
  destruct (wpm_adequate _ _ _ ∅ wpm_sparse eq_refl) as (this & s & E & Hs).
  pose proof sparse_buckets as Hb. rw E in Hb.
  assert ((∃ es, imap this None es ∗ ⟨ekey <$> es ≡ₚ letter_keys 61 36⟩) ∗ garbage ⊢
    ∃ es, ⌜ekey <$> es ≡ₚ letter_keys 61 36⌝ ∧ (imap this None es ∗ (garbage : hM (list byte) Z))) as Hpost.
  { iIntros "[(%es & Hi & %Hp) G]". iExists es. iSplit; [done|]. iFrame. }
  destruct (entails_in _ _ Hpost s Hs) as (es & Hp & Hs').
  destruct (map_shrinks_too_far s this None es (str_A ++ str_A) (str_A ++ str_B) None None garbage Hs' Hb)
    as (it1 & p1 & es1 & s1 & it2 & p2 & es2 & s2 & E1 & _ & _ & Hb1 & E2 & _ & _ & Hb2).
  - rewrite <- (length_fmap ekey), Hp. by vm_compute.
  - rw Hp. apply (bool_decide_unpack _). by vm_compute.
  - rw Hp. apply (bool_decide_unpack _). by vm_compute.
  - exists this, s, it1, s1, it2, s2.
    split; [exact E|split; [exact Hb|split; [exact E1|split; [exact Hb1|split; [exact E2|exact Hb2]]]]].
Defined.
