(* ===== verification/GrpcSlice.v ===== *)
(** * Slices and byte buffers of gRPC ([grpc/impl/codegen/slice.h], [grpcpp/impl/codegen])

    A [grpc_slice] is a counted reference to some bytes, or the bytes themselves when
    they are few ([refcount] is NULL).  The C library of gRPC is not in the
    repository: its functions are the class [GrpcCore], over any state [S], and what
    its headers promise is the class [CoreLaws], triples over the resources of a
    slice ([slice_own]: a reference, and its bytes), of a buffer ([buffer_cell]) and
    of a reader ([reader_own]).

    The headers leave two things to the library: [grpc_slice_buffer_add] may
    concatenate a slice to an earlier one, and a reader may not be made for a buffer.
    The laws allow both; a library that does neither has [add_separate] and
    [reader_inits], and the theorems say which of their parts need one of them. *)
From Stdlib Require Import ZArith Lia Strings.Byte.
From stdpp Require Import base tactics option list list_numbers.
From iris.bi Require Import bi big_op.
From iris.proofmode Require Import proofmode.
From S2P Require Import Prelude Bits HeapLogic.

(** ** Data *)

Inductive grpc_slice :=
| refcounted (refcount : Z) (length bytes : Z)
| inlined (length : Z) (bytes : list byte).

(** [sizeof(size_t) + sizeof(uint8_t * ) - 1 + sizeof(void * )]. *)
Definition GRPC_SLICE_INLINED_SIZE : Z := 8 + 8 - 1 + 8.

(** A pointer to bytes: in memory, or into an inlined slice. *)
Inductive ptr := mem_ptr (addr : Z) | inlined_ptr (bytes : list byte) (off : Z).
Definition ptr_add (p : ptr) (n : Z) : ptr :=
  match p with mem_ptr a => mem_ptr (a + n) | inlined_ptr bs off => inlined_ptr bs (off + n) end.

Definition GRPC_SLICE_START_PTR (s : grpc_slice) : ptr :=
  match s with refcounted _ _ a => mem_ptr a | inlined _ bs => inlined_ptr bs 0 end.
Definition GRPC_SLICE_LENGTH (s : grpc_slice) : Z :=
  match s with refcounted _ n _ => n | inlined n _ => n end.
Definition GRPC_SLICE_SET_LENGTH (s : grpc_slice) (newlen : Z) : grpc_slice :=
  match s with refcounted r _ a => refcounted r (u64 newlen) a | inlined _ bs => inlined (u8 newlen) bs end.
Definition GRPC_SLICE_END_PTR (s : grpc_slice) : ptr := ptr_add (GRPC_SLICE_START_PTR s) (GRPC_SLICE_LENGTH s).
Definition INT_MAX : Z := 2 ^ 31 - 1.
Definition has_refcount (s : grpc_slice) : bool := match s with refcounted _ _ _ => true | inlined _ _ => false end.

Record grpc_byte_buffer_reader := Reader { buffer_in : option Z; buffer_out : option Z; current_index : Z }.

(** ** The C library, and memory *)

Class GrpcCore (S : Type) := {
  load : Z -> Z -> stm S (list byte);
  store_bytes : Z -> list byte -> stm S unit;
  grpc_slice_malloc : Z -> stm S grpc_slice;
  grpc_slice_split_tail : grpc_slice -> Z -> stm S (grpc_slice * grpc_slice);
  grpc_slice_ref : grpc_slice -> stm S grpc_slice;
  grpc_slice_unref : grpc_slice -> stm S unit;
  grpc_slice_buffer_add : Z -> grpc_slice -> stm S unit;
  grpc_slice_buffer_pop : Z -> stm S unit;
  grpc_raw_byte_buffer_create : list grpc_slice -> stm S Z;
  grpc_byte_buffer_copy : Z -> stm S Z;
  grpc_byte_buffer_destroy : Z -> stm S unit;
  grpc_byte_buffer_length : Z -> stm S Z;
  grpc_byte_buffer_reader_init : Z -> stm S (option grpc_byte_buffer_reader);
  grpc_byte_buffer_reader_peek : grpc_byte_buffer_reader -> stm S (option grpc_slice * grpc_byte_buffer_reader);
  grpc_byte_buffer_reader_destroy : grpc_byte_buffer_reader -> stm S unit;
}.

(** Bytes written into a window. *)
Definition overwrite (w : list byte) (off : nat) (bs : list byte) : list byte :=
  take off w ++ bs ++ drop (off + length bs) w.

Section access.
  Context {S : Type} `{GrpcCore S}.

(** A pointer, reader or slice that was not assigned yet is not to be used. *)
Definition used {A} (x : option A) : stm S A := match x with Some a => mret a | None => st_fault NullDeref end.

(** [data[0 .. n-1]]. *)
Definition read_ptr (p : ptr) (n : Z) : stm S (list byte) :=
  match p with
  | mem_ptr a => load a n
  | inlined_ptr bs off =>
      if decide (0 <= off /\ 0 <= n /\ off + n <= Z.of_nat (length bs))
      then mret (take (Z.to_nat n) (drop (Z.to_nat off) bs)) else st_fault OutOfBounds
  end.

(** A write at [data + off].  What is written through a pointer into a copied inlined
    slice does not reach the buffer: nobody may do that. *)
Definition write_ptr (p : ptr) (off : Z) (bs : list byte) : stm S unit :=
  match p with mem_ptr a => store_bytes (a + off) bs | inlined_ptr _ _ => st_fault OutOfBounds end.

(** A write at [GRPC_SLICE_START_PTR(s) + off]: the slice itself changes when its
    bytes are inlined. *)
Definition write_slice (s : grpc_slice) (off : Z) (bs : list byte) : stm S grpc_slice :=
  match s with
  | refcounted _ _ a => store_bytes (a + off) bs ;; mret s
  | inlined n data =>
      if decide (0 <= off /\ off + Z.of_nat (length bs) <= Z.of_nat (length data))
      then mret (inlined n (overwrite data (Z.to_nat off) bs)) else st_fault OutOfBounds
  end.
End access.

(** ** What the library promises *)

Section resources.
  Context {S : Type} `{Heap S}.

Definition slices_own (own : grpc_slice -> list byte -> hpropI S) (ss : list grpc_slice) (bss : list (list byte)) : hpropI S :=
  ([∗ list] s;bs ∈ ss;bss, own s bs)%I.
End resources.

Class CoreLaws (S : Type) `{Heap S} `{!GrpcCore S} := {
  slice_own : grpc_slice -> list byte -> hpropI S;
  slice_ref : grpc_slice -> hpropI S;
  buffer_cell : Z -> list grpc_slice -> hpropI S;
  reader_own : grpc_byte_buffer_reader -> Z -> nat -> hpropI S;

  slice_length s bs : slice_own s bs ⊢ ⌜GRPC_SLICE_LENGTH s = Z.of_nat (length bs) /\ Z.of_nat (length bs) < 2 ^ 63⌝;
  (** Inlined bytes are copied by value: nothing is owned. *)
  slice_inlined n data bs :
    slice_own (inlined n data) bs ⊣⊢ ⟨0 <= n < 2 ^ 8 /\ (Z.to_nat n <= length data)%nat /\ bs = take (Z.to_nat n) data⟩;
  slice_shrink r a n bs bs' : slice_own (refcounted r n a) (bs ++ bs') ⊢ slice_own (refcounted r (Z.of_nat (length bs)) a) bs ∗ garbage;

  load_law r n a bs (off k : nat) (Q : list byte -> hpropI S) :
    (off + k <= length bs)%nat ->
    ⊢ slice_own (refcounted r n a) bs -∗ (slice_own (refcounted r n a) bs -∗ Q (take k (drop off bs))) -∗
      wpm (load (a + Z.of_nat off) (Z.of_nat k)) Q;
  store_law r n a w (off : nat) bs (Q : unit -> hpropI S) :
    (off + length bs <= length w)%nat ->
    ⊢ slice_own (refcounted r n a) w -∗ (slice_own (refcounted r n a) (overwrite w off bs) -∗ Q tt) -∗
      wpm (store_bytes (a + Z.of_nat off) bs) Q;

  malloc_law n (Q : grpc_slice -> hpropI S) :
    0 <= n < 2 ^ 32 ->
    (∀ s bs, ⟨Z.of_nat (length bs) = n /\ (has_refcount s = true <-> GRPC_SLICE_INLINED_SIZE < n)⟩ -∗ slice_own s bs -∗ Q s)
    ⊢ wpm (grpc_slice_malloc n) Q;
  split_tail_law s bs bs' (Q : grpc_slice * grpc_slice -> hpropI S) :
    ⊢ slice_own s (bs ++ bs') -∗ (∀ s1 s2, slice_own s1 bs -∗ slice_own s2 bs' -∗ Q (s1, s2)) -∗
      wpm (grpc_slice_split_tail s (Z.of_nat (length bs))) Q;
  unref_law s bs (Q : unit -> hpropI S) : ⊢ slice_own s bs -∗ (emp -∗ Q tt) -∗ wpm (grpc_slice_unref s) Q;
  (** A second reference is dropped. *)
  unref_shared_law s (Q : unit -> hpropI S) : ⊢ slice_ref s -∗ (emp -∗ Q tt) -∗ wpm (grpc_slice_unref s) Q;

  (** [slice_buffer.h] allows [grpc_slice_buffer_add] to concatenate the slice to
      another one of the buffer; [add_separate]: this library never does that with a
      slice that has its own memory. *)
  add_separate : Prop;
  add_law b ss bss s bs (Q : unit -> hpropI S) :
    ⊢ buffer_cell b ss -∗ slices_own slice_own ss bss -∗ slice_own s bs -∗
      (∀ ss' bss', ⟨concat bss' = concat bss ++ bs /\ (length bss' <= length bss + 1)%nat /\ 
           (has_refcount s = true -> add_separate \/ ss = [] -> ss' = ss ++ [s] /\ bss' = bss ++ [bs])⟩ -∗
         buffer_cell b ss' -∗ slices_own slice_own ss' bss' -∗ Q tt) -∗
      wpm (grpc_slice_buffer_add b s) Q;
  pop_law b ss s (Q : unit -> hpropI S) :
    ⊢ buffer_cell b (ss ++ [s]) -∗ (buffer_cell b ss -∗ Q tt) -∗ wpm (grpc_slice_buffer_pop b) Q;

  ref_law s (Q : grpc_slice -> hpropI S) : (slice_ref s -∗ Q s) ⊢ wpm (grpc_slice_ref s) Q;
  create_empty_law (Q : Z -> hpropI S) : (∀ b, buffer_cell b [] -∗ Q b) ⊢ wpm (grpc_raw_byte_buffer_create []) Q;
  create_law s bs (Q : Z -> hpropI S) :
    ⊢ slice_own s bs -∗ (∀ b, buffer_cell b [s] -∗ slice_own s bs -∗ slice_ref s -∗ Q b) -∗
      wpm (grpc_raw_byte_buffer_create [s]) Q;
  copy_law b ss (Q : Z -> hpropI S) :
    ⊢ buffer_cell b ss -∗ (∀ b', buffer_cell b ss -∗ buffer_cell b' ss -∗ ([∗ list] s ∈ ss, slice_ref s) -∗ Q b') -∗
      wpm (grpc_byte_buffer_copy b) Q;
  destroy_law b ss bss (Q : unit -> hpropI S) :
    ⊢ buffer_cell b ss -∗ slices_own slice_own ss bss -∗ (emp -∗ Q tt) -∗ wpm (grpc_byte_buffer_destroy b) Q;
  destroy_shared_law b ss (Q : unit -> hpropI S) :
    ⊢ buffer_cell b ss -∗ ([∗ list] s ∈ ss, slice_ref s) -∗ (emp -∗ Q tt) -∗ wpm (grpc_byte_buffer_destroy b) Q;
  length_law b ss (Q : Z -> hpropI S) :
    ⊢ buffer_cell b ss -∗ (buffer_cell b ss -∗ Q (foldr Z.add 0 (GRPC_SLICE_LENGTH <$> ss))) -∗
      wpm (grpc_byte_buffer_length b) Q;

  (** [byte_buffer.h]: "Returns 1 upon success, 0 otherwise"; [reader_inits]: this
      library has a reader for every buffer. *)
  reader_inits : Prop;
  reader_init_law b ss (Q : option grpc_byte_buffer_reader -> hpropI S) :
    ⊢ buffer_cell b ss -∗
      (∀ x, buffer_cell b ss -∗ match x with Some rd => reader_own rd b 0 | None => ⟨~ reader_inits⟩ end -∗ Q x) -∗
      wpm (grpc_byte_buffer_reader_init b) Q;
  reader_peek_law rd b i ss (Q : option grpc_slice * grpc_byte_buffer_reader -> hpropI S) :
    ⊢ reader_own rd b i -∗ buffer_cell b ss -∗
      (∀ rd', reader_own rd' b (if decide (i < length ss)%nat then Datatypes.S i else i) -∗ buffer_cell b ss -∗ Q (ss !! i, rd')) -∗
      wpm (grpc_byte_buffer_reader_peek rd) Q;
  reader_destroy_law rd b i (Q : unit -> hpropI S) :
    ⊢ reader_own rd b i -∗ (emp -∗ Q tt) -∗ wpm (grpc_byte_buffer_reader_destroy rd) Q;
}.

(** ** Slices and byte buffers as objects ([grpcpp/impl/codegen/slice.h], [byte_buffer.h])

    A [Slice] is its field [slice_], a [ByteBuffer] its field [buffer_], which may be
    NULL; a method returns the object it leaves.  [buffer_holds buf bs]: the buffer
    owns the bytes [bs].  Assigning a buffer to itself makes a second reference and
    forgets the first one ([wpm_buffer_assign_self]). *)
Abbreviation ByteBuffer := (option Z).

Section objects.
  Context {S : Type} `{GrpcCore S}.

(** *** [Slice] *)

(** The constructors [Slice(len)], [Slice(slice, ADD_REF)] (and the copy), and
    [Slice(slice, STEAL_REF)]. *)
Definition Slice_alloc (len : Z) : stm S grpc_slice := grpc_slice_malloc len.
Definition Slice_add_ref (slice : grpc_slice) : stm S grpc_slice := grpc_slice_ref slice.
Definition Slice_steal_ref (slice : grpc_slice) : grpc_slice := slice.
Definition Slice_destruct (slice : grpc_slice) : stm S unit := grpc_slice_unref slice.
Definition size (slice : grpc_slice) : Z := GRPC_SLICE_LENGTH slice.
Definition begin (slice : grpc_slice) : ptr := GRPC_SLICE_START_PTR slice.
Definition end_ (slice : grpc_slice) : ptr := GRPC_SLICE_END_PTR slice.
Definition c_slice (slice : grpc_slice) : stm S grpc_slice := grpc_slice_ref slice.
Definition Slice_assign (slice other : grpc_slice) : stm S grpc_slice :=
  tmp ← grpc_slice_ref other; grpc_slice_unref slice ;; mret tmp.

Definition StringFromCopiedSlice (slice : grpc_slice) : stm S (list byte) :=
  read_ptr (GRPC_SLICE_START_PTR slice) (GRPC_SLICE_LENGTH slice).

(** *** [ByteBuffer] *)

Definition ByteBuffer_new : ByteBuffer := None.
Definition ByteBuffer_slices (slices : list grpc_slice) : stm S ByteBuffer :=
  b ← grpc_raw_byte_buffer_create slices; mret (Some b).
Definition Valid (buffer : ByteBuffer) : bool := bool_decide (buffer <> None).

Definition Clear (buffer : ByteBuffer) : stm S ByteBuffer :=
  match buffer with Some b => grpc_byte_buffer_destroy b ;; mret None | None => mret None end.
Definition ByteBuffer_destruct (buffer : ByteBuffer) : stm S unit :=
  match buffer with Some b => grpc_byte_buffer_destroy b | None => mret tt end.

(** [*this = buf], for another object, and for the object itself. *)
Definition assign (buffer buf : ByteBuffer) : stm S ByteBuffer :=
  buffer ← Clear buffer;
  match buf with Some b => b' ← grpc_byte_buffer_copy b; mret (Some b') | None => mret buffer end.
Definition assign_self (buffer : ByteBuffer) : stm S ByteBuffer :=
  match buffer with Some b => b' ← grpc_byte_buffer_copy b; mret (Some b') | None => mret buffer end.
Definition ByteBuffer_copy (buf : ByteBuffer) : stm S ByteBuffer := assign None buf.

(** The C function must not get NULL. *)
Definition Duplicate (buffer : ByteBuffer) : stm S ByteBuffer :=
  match buffer with Some b => b' ← grpc_byte_buffer_copy b; mret (Some b') | None => st_fault NullDeref end.
Definition Release (buffer : ByteBuffer) : ByteBuffer := None.
Definition Length (buffer : ByteBuffer) : stm S Z :=
  match buffer with None => mret 0 | Some b => grpc_byte_buffer_length b end.
Definition Swap (this other : ByteBuffer) : ByteBuffer * ByteBuffer := (other, this).
Definition set_buffer (buffer : ByteBuffer) (buf : option Z) : stm S ByteBuffer :=
  (if Valid buffer then Clear buffer else mret buffer) ;; mret buf.

(** [SerializationTraits<ByteBuffer>]: [byte_buffer] keeps its pointer too. *)
Definition ByteBuffer_Deserialize (byte_buffer dest : ByteBuffer) : stm S ByteBuffer := set_buffer dest byte_buffer.
Definition ByteBuffer_Serialize (source buffer : ByteBuffer) : stm S (ByteBuffer * bool) :=
  buffer ← assign buffer source; mret (buffer, true).
End objects.

(** *** Ownership *)

Section triples.
  Context {S : Type} `{CoreLaws S}.
  Implicit Types (b : Z) (ss : list grpc_slice) (bss : list (list byte)) (buf : ByteBuffer).

Definition buffer_own b ss bss : hpropI S := (buffer_cell b ss ∗ slices_own slice_own ss bss)%I.
Definition buffer_chunks buf bss : hpropI S :=
  match buf with Some b => ∃ ss, buffer_own b ss bss | None => ⟨bss = []⟩ end%I.
Definition buffer_holds buf bs : hpropI S := (∃ bss, ⟨concat bss = bs⟩ ∗ buffer_chunks buf bss)%I.

(** A slice of a buffer, and its bytes. *)
Lemma slices_length ss bss : slices_own slice_own ss bss ⊢ ⟨length ss = length bss⟩ ∗ (slices_own slice_own ss bss : hpropI S).
Proof.
  iIntros "H". iDestruct (keep_pure _ (length ss = length bss) with "H") as "[$ $]". by iApply big_sepL2_length.
Qed.
Lemma slices_acc ss bss j s :
  ss !! j = Some s -> slices_own slice_own ss bss ⊢ ∃ bs, ⟨bss !! j = Some bs⟩ ∗ slice_own s bs ∗
    (slice_own s bs -∗ slices_own slice_own ss bss : hpropI S).
Proof.
  iIntros (Hs) "H". iDestruct (slices_length with "H") as "[%Hl H]".
  destruct (lookup_lt_is_Some_2 bss j) as [bs Hbs]; [rw -Hl; by eapply lookup_lt_Some|]. iExists bs.
  iDestruct (big_sepL2_lookup_acc with "H") as "[$ $]"; [done|done|]. done.
Qed.
Lemma slices_lookup ss bss j s :
  ss !! j = Some s -> slices_own slice_own ss bss ⊢ ∃ bs, ⟨bss !! j = Some bs /\ GRPC_SLICE_LENGTH s = Z.of_nat (length bs)⟩ ∗
    (slices_own slice_own ss bss : hpropI S).
Proof.
  iIntros (Hs) "H". iDestruct (slices_acc with "H") as (bs) "(%Hbs & Hs & H)"; [exact Hs|]. iExists bs.
  iDestruct (keep_pure _ _ (slice_length s bs) with "Hs") as "[Hs %Hl]".
  iDestruct ("H" with "Hs") as "H". iFrame. iPureIntro. by destruct Hl.
Qed.

(** *** The methods *)

Lemma wpm_buffer_Clear buf bss (Q : ByteBuffer -> hpropI S) : ⊢ buffer_chunks buf bss -∗ (emp -∗ Q None) -∗ wpm (Clear buf) Q.
Proof.
  iIntros "H HQ". destruct buf as [b|]; cbn [Clear buffer_chunks].
  - iDestruct "H" as (ss) "[Hb Hs]". wbind. iApply (destroy_law with "Hb Hs"). iIntros "_". iApply wpm_ret. by iApply "HQ".
  - iDestruct "H" as "%Hb". iApply wpm_ret. by iApply "HQ".
Qed.
Lemma wpm_ByteBuffer_destruct buf bss (Q : unit -> hpropI S) :
  ⊢ buffer_chunks buf bss -∗ (emp -∗ Q tt) -∗ wpm (ByteBuffer_destruct buf) Q.
Proof.
  iIntros "H HQ". destruct buf as [b|]; cbn [ByteBuffer_destruct buffer_chunks].
  - iDestruct "H" as (ss) "[Hb Hs]". by iApply (destroy_law with "Hb Hs").
  - iDestruct "H" as "%Hb". iApply wpm_ret. by iApply "HQ".
Qed.

Lemma slices_sum ss bss :
  slices_own slice_own ss bss ⊢ ⟨foldr Z.add 0 (GRPC_SLICE_LENGTH <$> ss) = Z.of_nat (length (concat bss))⟩ ∗
    (slices_own slice_own ss bss : hpropI S).
Proof.
  revert bss. induction ss as [|s ss IH]; intros [|bs bss]; iIntros "H";
    [by iFrame|iDestruct (slices_length with "H") as "[%Hl H]"; done..|].
  unfold slices_own. cbn [big_opL]. iDestruct "H" as "[Hs H]".
  iDestruct (keep_pure _ _ (slice_length s bs) with "Hs") as "[$ %Hl]". iDestruct (IH with "H") as "[%Hb $]".
  iPureIntro. cbn [foldr fmap list_fmap concat]. destruct Hl as [-> _]. rw Hb length_app. lia.
Qed.

Lemma wpm_Length buf bss (Q : Z -> hpropI S) :
  ⊢ buffer_chunks buf bss -∗ (buffer_chunks buf bss -∗ Q (Z.of_nat (length (concat bss)))) -∗ wpm (Length buf) Q.
Proof.
  iIntros "H HQ". destruct buf as [b|]; cbn [Length buffer_chunks].
  - iDestruct "H" as (ss) "[Hb Hs]". iDestruct (slices_sum with "Hs") as "[%E Hs]".
    iApply (length_law with "Hb"). iIntros "Hb". rw E. iApply "HQ". iExists ss. iFrame.
  - iDestruct "H" as "%Hb". iApply wpm_ret. subst bss. by iApply "HQ".
Qed.

(** A copy shares the slices, and goes by giving its references back. *)
Definition buffer_shared buf ss : hpropI S :=
  match buf with Some b => buffer_cell b ss ∗ [∗ list] s ∈ ss, slice_ref s | None => ⟨ss = []⟩ end%I.

Lemma wpm_buffer_assign buf bss b ss (Q : ByteBuffer -> hpropI S) :
  ⊢ buffer_chunks buf bss -∗ buffer_cell b ss -∗
    (∀ buf', buffer_cell b ss -∗ buffer_shared buf' ss -∗ ⟨Valid buf' = true⟩ -∗ Q buf') -∗ wpm (assign buf (Some b)) Q.
Proof.
  iIntros "H Hb HQ". unfold assign. wbind. iApply (wpm_buffer_Clear with "H"). iIntros "_". wbind.
  iApply (copy_law with "Hb"). iIntros (b') "Hb Hb' Hr". iApply wpm_ret. iApply ("HQ" $! (Some b') with "Hb [$Hb' $Hr]"). done.
Qed.
Lemma wpm_destruct_shared buf ss (Q : unit -> hpropI S) :
  ⊢ buffer_shared buf ss -∗ (emp -∗ Q tt) -∗ wpm (ByteBuffer_destruct buf) Q.
Proof.
  iIntros "H HQ". destruct buf as [b|]; cbn [ByteBuffer_destruct buffer_shared].
  - iDestruct "H" as "[Hb Hr]". by iApply (destroy_shared_law with "Hb Hr").
  - iDestruct "H" as "%E". iApply wpm_ret. by iApply "HQ".
Qed.

(** After [buffer = buffer] nothing points to the old buffer, which is still there. *)
Lemma wpm_buffer_assign_self b ss (Q : ByteBuffer -> hpropI S) :
  ⊢ buffer_cell b ss -∗ (∀ b', buffer_cell b ss -∗ buffer_shared (Some b') ss -∗ Q (Some b')) -∗ wpm (assign_self (Some b)) Q.
Proof.
  iIntros "Hb HQ". unfold assign_self. wbind. iApply (copy_law with "Hb"). iIntros (b') "Hb Hb' Hr".
  iApply wpm_ret. iApply ("HQ" with "Hb [$Hb' $Hr]").
Qed.
End triples.
