(* ===== verification/ProtoBufferReader.v ===== *)
(** * Reading a byte buffer as a stream ([grpcpp/impl/codegen/proto_buffer_reader.h])

    [ProtoBufferReader] gives the slices of a byte buffer one by one, and takes back
    the end of the last one.  The object is not shared: its methods take it and
    return it.

    A client of the stream is a tree of calls ([iclient]); [ispec] runs it on the
    list of the chunks that are still to come and on the last one, as the interface
    [ZeroCopyInputStream] is documented: [None] when the client breaks the contract.
    [wpm_irun]: on the reader the client sees the same. *)
From Stdlib Require Import ZArith Lia Strings.Byte.
From stdpp Require Import base tactics option list list_numbers.
From iris.bi Require Import bi big_op.
From iris.proofmode Require Import proofmode.
From S2P Require Import Prelude Bits HeapLogic GrpcSlice.

(** [status_] is OK, or "Couldn't initialize byte buffer reader". *)
Record ProtoBufferReader := PBR {
  byte_count_ : Z;
  backup_count_ : Z;
  reader_ : option grpc_byte_buffer_reader;
  slice_ : option grpc_slice;
  status_ok : bool;
}.

Section reader.
  Context {S : Type} `{GrpcCore S}.
  Implicit Types (r : ProtoBufferReader) (count : Z).

Definition construct (buffer : ByteBuffer) : stm S ProtoBufferReader :=
  match buffer with
  | None => mret (PBR 0 0 None None false)
  | Some b =>
      rd ← grpc_byte_buffer_reader_init b;
      mret (PBR 0 0 rd None (bool_decide (rd <> None)))
  end.
Definition destroy r : stm S unit :=
  if status_ok r then rd ← used (reader_ r); grpc_byte_buffer_reader_destroy rd else mret tt.

(** The chunk, when there is one. *)
Definition Next r : stm S (option (ptr * Z) * ProtoBufferReader) :=
  if negb (status_ok r) then mret (None, r)
  else if decide (0 < backup_count_ r) then
    s ← used (slice_ r);
    let data := ptr_add (GRPC_SLICE_START_PTR s) (GRPC_SLICE_LENGTH s - backup_count_ r) in
    st_lift (dcheck (backup_count_ r <= INT_MAX)) ;;
    mret (Some (data, i32 (backup_count_ r)), PBR (byte_count_ r) 0 (reader_ r) (slice_ r) (status_ok r))
  else
    rd ← used (reader_ r);
    x ← grpc_byte_buffer_reader_peek rd;
    match fst x with
    | None => mret (None, PBR (byte_count_ r) (backup_count_ r) (Some (snd x)) (slice_ r) (status_ok r))
    | Some s =>
        st_lift (dcheck (GRPC_SLICE_LENGTH s <= INT_MAX)) ;;
        let size := i32 (GRPC_SLICE_LENGTH s) in
        mret (Some (GRPC_SLICE_START_PTR s, size),
              PBR (i64 (byte_count_ r + size)) (backup_count_ r) (Some (snd x)) (Some s) (status_ok r))
    end.

Definition status r : bool := status_ok r.

Definition BackUp r count : stm S ProtoBufferReader :=
  s ← used (slice_ r);
  st_lift (dcheck (count <= i32 (GRPC_SLICE_LENGTH s))) ;;
  mret (PBR (byte_count_ r) count (reader_ r) (slice_ r) (status_ok r)).

(** The loop of [Skip]. *)
Fixpoint Skip (fuel : nat) r count : stm S (bool * ProtoBufferReader) :=
  match fuel with
  | O => st_fault OutOfFuel
  | Datatypes.S fuel =>
      x ← Next r;
      match fst x with
      | None => mret (false, snd x)
      | Some (_, size) =>
          if decide (count <= size) then
            n ← st_lift (int_op (size - count));
            r ← BackUp (snd x) n; mret (true, r)
          else
            n ← st_lift (int_op (count - size));
            Skip fuel (snd x) n
      end
  end.

Definition ByteCount r : Z := i64 (byte_count_ r - backup_count_ r).

(** The protected members. *)
Definition set_byte_count r n : ProtoBufferReader := PBR n (backup_count_ r) (reader_ r) (slice_ r) (status_ok r).
Definition set_backup_count r n : ProtoBufferReader := PBR (byte_count_ r) n (reader_ r) (slice_ r) (status_ok r).
End reader.

(** ** Clients *)

Inductive iclient (A : Type) :=
| IRet (a : A)
| INext (k : option (list byte) -> iclient A)
| IRefresh (k : option (list byte) -> iclient A)
| IBackUp (n : Z) (k : iclient A)
| ISkip (n : Z) (k : bool -> iclient A)
| IByteCount (k : Z -> iclient A).
Arguments IRet {A} _.
Arguments INext {A} _.
Arguments IRefresh {A} _.
Arguments IBackUp {A} _ _.
Arguments ISkip {A} _ _.
Arguments IByteCount {A} _.

(** A client may call [Next] until the chunk is not empty. *)
Fixpoint next_nonempty {S : Type} `{GrpcCore S} (fuel : nat) (r : ProtoBufferReader) : stm S (option (ptr * Z) * ProtoBufferReader) :=
  match fuel with
  | O => st_fault OutOfFuel
  | Datatypes.S fuel =>
      x ← Next r;
      match fst x with
      | Some (_, n) => if decide (n = 0) then next_nonempty fuel (snd x) else mret x
      | None => mret x
      end
  end.

(** A client reads all the bytes of a chunk; [fuel] is that of the loops. *)
Fixpoint irun {S A : Type} `{GrpcCore S} (fuel : nat) (t : iclient A) (r : ProtoBufferReader) : stm S (A * ProtoBufferReader) :=
  match t with
  | IRet a => mret (a, r)
  | INext k =>
      x ← Next r;
      match fst x with
      | None => irun fuel (k None) (snd x)
      | Some (p, n) => bs ← read_ptr p n; irun fuel (k (Some bs)) (snd x)
      end
  | IRefresh k =>
      x ← next_nonempty fuel r;
      match fst x with
      | None => irun fuel (k None) (snd x)
      | Some (p, n) => bs ← read_ptr p n; irun fuel (k (Some bs)) (snd x)
      end
  | IBackUp n k => r ← BackUp r n; irun fuel k r
  | ISkip n k => x ← Skip fuel r n; irun fuel (k (fst x)) (snd x)
  | IByteCount k => irun fuel (k (ByteCount r)) r
  end.

(** [rest] when the last [n] bytes of [last] are given back. *)
Definition backed (n : nat) (last : list byte) (rest : list (list byte)) : list (list byte) :=
  if decide (n = 0)%nat then rest else drop (length last - n) last :: rest.

Fixpoint skip_spec (n : nat) (rest : list (list byte)) : bool * list (list byte) :=
  match rest with
  | [] => (false, [])
  | c :: rest =>
      if decide (n <= length c)%nat then (true, backed (length c - n) c rest) else skip_spec (n - length c) rest
  end.

Fixpoint drop_empty (rest : list (list byte)) : list (list byte) :=
  match rest with [] :: rest => drop_empty rest | _ => rest end.

Fixpoint ispec {A} (total : nat) (t : iclient A) (rest : list (list byte)) (last : option (list byte)) : option (A * list (list byte)) :=
  match t with
  | IRet a => Some (a, rest)
  | INext k =>
      match rest with
      | [] => ispec total (k None) [] None
      | c :: rest => ispec total (k (Some c)) rest (Some c)
      end
  | IRefresh k =>
      match drop_empty rest with
      | [] => ispec total (k None) [] None
      | c :: rest => ispec total (k (Some c)) rest (Some c)
      end
  | IBackUp n k =>
      last ← last;
      guard (bool_decide (0 <= n <= Z.of_nat (length last))) (ispec total k (backed (Z.to_nat n) last rest) None)
  | ISkip n k =>
      let x := skip_spec (Z.to_nat n) rest in
      guard (bool_decide (0 <= n < 2 ^ 31)) (ispec total (k (fst x)) (snd x) None)
  | IByteCount k => ispec total (k (Z.of_nat (total - length (concat rest)))) rest last
  end.

(** ** Positions *)

(** The bytes before the slice [i]. *)
Definition before (bss : list (list byte)) (i : nat) : list byte := concat (take i bss).

(** The reader is before the slice [i]: nothing may be backed up, or [last] may, or
    [k] bytes of the slice before have been. *)
Inductive position (r : ProtoBufferReader) (ss : list grpc_slice) (bss : list (list byte)) : nat -> list (list byte) -> option (list byte) -> Prop :=
| at_slice i : backup_count_ r = 0 -> position r ss bss i (drop i bss) None
| at_last j s bs last : backup_count_ r = 0 -> ss !! j = Some s -> bss !! j = Some bs -> slice_ r = Some s ->
    last `suffix_of` bs -> position r ss bss (Datatypes.S j) (drop (Datatypes.S j) bss) (Some last)
| at_backup j s bs k : backup_count_ r = Z.of_nat k -> ss !! j = Some s -> bss !! j = Some bs -> slice_ r = Some s ->
    (0 < k <= length bs)%nat -> position r ss bss (Datatypes.S j) (drop (length bs - k) bs :: drop (Datatypes.S j) bss) None.

Section lists.
  Implicit Types (bs : list byte) (last : option (list byte)) (bss rest : list (list byte)) (i n : nat).

Lemma before_S bss i bs : bss !! i = Some bs -> before bss (Datatypes.S i) = before bss i ++ bs.
Proof. intros Hi. unfold before. by rw (take_S_r _ _ _ Hi) concat_app /= app_nil_r. Qed.
Lemma before_rest bss i : concat bss = before bss i ++ concat (drop i bss).
Proof. unfold before. by rw -concat_app take_drop. Qed.

(** What the stream still gives, in bytes. *)
Lemma position_length r ss bss i rest last :
  position r ss bss i rest last ->
  Z.of_nat (length (concat rest)) = Z.of_nat (length (concat bss)) - Z.of_nat (length (before bss i)) + backup_count_ r.
Proof.
  intros Hp. pose proof (f_equal length (before_rest bss i)) as E. rw length_app in E.
  destruct Hp as [i' Hk|j s bs l Hk Hs Hb Hsl Hl|j s bs k Hk Hs Hb Hsl Hl]; [lia..|].
  cbn [concat]. rw length_app length_drop Hk. lia.
Qed.

Lemma backed_nil n c rest : length (backed n c rest) = (length rest + (if decide (n = 0) then 0 else 1))%nat.
Proof. unfold backed. case_decide; simpl; lia. Qed.
End lists.

(** ** What each method does *)

Section triples.
  Context {S : Type} `{CoreLaws S}.
  Implicit Types (r : ProtoBufferReader) (b : Z) (ss : list grpc_slice) (bss rest : list (list byte)) (c : list byte) (last : option (list byte)) (i k n fuel : nat) (p : ptr).

Definition stream_own r b ss bss rest last : hpropI S :=
  (∃ i rd, reader_own rd b i ∗
     ⟨reader_ r = Some rd /\ status_ok r = true /\ byte_count_ r = Z.of_nat (length (before bss i)) /\ position r ss bss i rest last⟩)%I.

(** [p] points to the bytes [c] of a slice. *)
Definition points_to ss bss p c : Prop :=
  exists j s bs off, ss !! j = Some s /\ bss !! j = Some bs /\ p = ptr_add (GRPC_SLICE_START_PTR s) (Z.of_nat off) /\
    (off + length c <= length bs)%nat /\ c = take (length c) (drop off bs).

Lemma ptr_add_0 p : ptr_add p 0 = p.
Proof. destruct p; simpl; f_equal; lia. Qed.

Lemma points_to_length ss bss p c : points_to ss bss p c -> (length c <= length (concat bss))%nat.
Proof.
  intros (j & s & bs & off & _ & Hb & _ & Hoff & _). pose proof (f_equal length (before_rest bss (Datatypes.S j))) as E.
  rw (before_S _ _ _ Hb) !length_app in E. lia.
Qed.

Lemma points_to_tail ss bss j s bs k :
  ss !! j = Some s -> bss !! j = Some bs -> (k <= length bs)%nat ->
  points_to ss bss (ptr_add (GRPC_SLICE_START_PTR s) (Z.of_nat (length bs) - Z.of_nat k)) (drop (length bs - k) bs).
Proof.
  intros Hs Hb Hk. exists j, s, bs, (length bs - k)%nat. rw length_drop.
  split_and!; [done|done|f_equal; lia|lia|]. symmetry. apply take_ge. rw length_drop. lia.
Qed.

(** A client may read the chunk. *)
Lemma wpm_read_ptr b ss bss p c (Q : list byte -> hpropI S) :
  points_to ss bss p c ->
  ⊢ buffer_own b ss bss -∗ (buffer_own b ss bss -∗ Q c) -∗ wpm (read_ptr p (Z.of_nat (length c))) Q.
Proof.
  iIntros ((j & s & bs & off & Hs & Hb & -> & Hoff & Hc)) "[Hb Hs] HQ".
  iDestruct (slices_acc with "Hs") as (bs') "(%Hb' & Hs & Hss)"; [exact Hs|]. assert (bs' = bs) as -> by congruence.
  destruct s as [r n a|n data].
  - cbn [GRPC_SLICE_START_PTR ptr_add read_ptr]. iApply (load_law with "Hs"); [done|]. iIntros "Hs". rw -Hc.
    iApply "HQ". iFrame. by iApply "Hss".
  - rw slice_inlined. iDestruct "Hs" as "%Hd". destruct Hd as (Hn & Hl & Hbs).
    assert (length bs = Z.to_nat n) as Hlb by (rw Hbs length_take; lia).
    cbn [GRPC_SLICE_START_PTR ptr_add read_ptr]. rw decide_True; [|lia]. iApply wpm_ret.
    assert (take (Z.to_nat (Z.of_nat (length c))) (drop (Z.to_nat (0 + Z.of_nat off)) data) = c) as ->.
    { rw {2}Hc Hbs. rw Nat2Z.id Z.add_0_l Nat2Z.id skipn_firstn_comm take_take. f_equal. lia. }
    iApply "HQ". iFrame. iApply "Hss".
    by iPureIntro.
Qed.

Lemma wpm_reader_construct b ss bss (Q : ProtoBufferReader -> hpropI S) :
  ⊢ buffer_own b ss bss -∗
    (∀ r, buffer_own b ss bss -∗
       (if status_ok r then stream_own r b ss bss bss None else ⟨~ reader_inits⟩) -∗ Q r) -∗
    wpm (construct (Some b)) Q.
Proof.
  iIntros "[Hb Hs] HQ". unfold construct. wbind. iApply (reader_init_law with "Hb"). iIntros (x) "Hb Hr".
  iApply wpm_ret. iApply ("HQ" with "[$Hb $Hs]"). destruct x as [rd|]; cbn; [|done].
  iExists 0%nat, rd. iFrame. iPureIntro. by split_and!; [..|apply (at_slice _ _ _ 0)].
Qed.

Lemma wpm_reader_destroy r b ss bss rest last (Q : unit -> hpropI S) :
  ⊢ stream_own r b ss bss rest last -∗ (emp -∗ Q tt) -∗ wpm (destroy r) Q.
Proof.
  iIntros "(%i & %rd & Hr & %Hrd) HQ". destruct Hrd as (Hrd & Hst & _). unfold destroy. rw Hst Hrd. cbn [used].
  wbind. iApply wpm_ret. by iApply (reader_destroy_law with "Hr").
Qed.

(** The branches of [Next]: a chunk that was backed up, a new one, and the end. *)
Lemma wpm_Next_backup r b ss bss rest last (Q : option (ptr * Z) * ProtoBufferReader -> hpropI S) :
  Z.of_nat (length (concat bss)) < 2 ^ 31 -> 0 < backup_count_ r ->
  ⊢ stream_own r b ss bss rest last -∗ buffer_own b ss bss -∗
    (∀ p c rest' r', ⟨rest = c :: rest' /\ points_to ss bss p c⟩ -∗ stream_own r' b ss bss rest' (Some c) -∗ buffer_own b ss bss -∗
       Q (Some (p, Z.of_nat (length c)), r')) -∗
    wpm (Next r) Q.
Proof.
  iIntros (Hlen Hk) "(%i & %rd & Hr & %Hrd) [Hb Hs] HQ". destruct Hrd as (Hrd & Hst & Hbc & Hp).
  unfold Next. rw Hst decide_True //. cbn [negb].
  destruct Hp as [i' Hk'|j s bs l Hk'|j s bs k Hk' Hs Hbs Hsl Hl]; [lia..|].
  rw Hsl. cbn [used]. wbind. iApply wpm_ret.
  iDestruct (slices_lookup with "Hs") as (bs') "([%Hb' %Hls] & Hs)"; [exact Hs|]. assert (bs' = bs) as -> by congruence.
  assert (length bs <= length (concat bss))%nat.
  { pose proof (f_equal length (before_rest bss (Datatypes.S j))) as E. rw (before_S _ _ _ Hbs) !length_app in E. lia. }
  wbind. iApply wpm_dcheck; [unfold INT_MAX; lia|]. iApply wpm_ret. rw Hls Hk'. rw i32_signed; [|unfold int_range; lia].
  assert (Z.of_nat k = Z.of_nat (length (drop (length bs - k) bs))) as Hkl by (rw length_drop; lia). rw {2}Hkl.
  iApply ("HQ" $! _ _ (drop (Datatypes.S j) bss) with "[] [Hr] [$Hb $Hs]").
  - iPureIntro. split; [done|]. apply (points_to_tail _ _ j); [done|done|lia].
  - iExists (Datatypes.S j), rd. iFrame. iPureIntro. split_and!; [done|done|done|].
    apply (at_last _ _ _ _ s bs); [done|done|done|done|]. apply suffix_drop.
Qed.

Lemma wpm_Next_slice r b ss bss rest last (Q : option (ptr * Z) * ProtoBufferReader -> hpropI S) :
  Z.of_nat (length (concat bss)) < 2 ^ 31 -> backup_count_ r = 0 ->
  ⊢ stream_own r b ss bss rest last -∗ buffer_own b ss bss -∗
    (∀ x r', match x with
             | None => ⟨rest = []⟩ ∗ stream_own r' b ss bss [] None
             | Some (p, n) => ∃ c rest', ⟨rest = c :: rest' /\ points_to ss bss p c /\ n = Z.of_nat (length c)⟩ ∗ stream_own r' b ss bss rest' (Some c)
             end -∗ buffer_own b ss bss -∗ Q (x, r')) -∗
    wpm (Next r) Q.
Proof.
  iIntros (Hlen Hk) "(%i & %rd & Hr & %Hrd) [Hb Hs] HQ". destruct Hrd as (Hrd & Hst & Hbc & Hp).
  assert (rest = drop i bss) as -> by (destruct Hp; [done|done|lia]).
  unfold Next. rw Hst decide_False; [|lia]. rw Hrd. cbn [negb used]. wbind. iApply wpm_ret. wbind.
  iDestruct (slices_length with "Hs") as "[%Hll Hs]".
  iApply (reader_peek_law with "Hr Hb"). iIntros (rd') "Hr Hb". cbn [fst snd]. destruct (ss !! i) as [s|] eqn:Hsi.
  - pose proof (lookup_lt_Some _ _ _ Hsi). rw decide_True; [|done].
    iDestruct (slices_lookup with "Hs") as (bs) "([%Hbi %Hl] & Hs)"; [exact Hsi|].
    pose proof (before_S _ _ _ Hbi) as Hbef. pose proof (f_equal length (before_rest bss (Datatypes.S i))) as Hle.
    rw Hbef !length_app in Hle. wbind. iApply wpm_dcheck; [rw Hl; unfold INT_MAX; lia|]. iApply wpm_ret. rw Hl.
    rw i32_signed; [|unfold int_range; lia]. iApply ("HQ" with "[Hr] [$Hb $Hs]"). iExists bs, (drop (Datatypes.S i) bss). iSplitR.
    + iPureIntro. split_and!; [by apply drop_S|exists i, s, bs, 0%nat|done].
      rw ptr_add_0 drop_0 take_ge; [|done]. split_and!; [done..|lia|done].
    + iExists (Datatypes.S i), rd'. iFrame. iPureIntro. split_and!; [done|done| |by apply (at_last _ _ _ _ s bs)].
      cbn [byte_count_]. rw Hbc i64_signed; [rw Hbef length_app; lia|unfold long_range; lia].
  - iApply wpm_ret. apply lookup_ge_None in Hsi. rw decide_False; [|lia]. iApply ("HQ" with "[Hr] [$Hb $Hs]").
    assert (drop i bss = []) as E by (apply drop_ge; lia). iSplitR; [done|]. iExists i, rd'. iFrame. iPureIntro.
    split_and!; [done..|]. rw -E. by apply at_slice.
Qed.

Lemma wpm_reader_Next r b ss bss rest last (Q : option (ptr * Z) * ProtoBufferReader -> hpropI S) :
  Z.of_nat (length (concat bss)) < 2 ^ 31 ->
  ⊢ stream_own r b ss bss rest last -∗ buffer_own b ss bss -∗
    (∀ x r', match x with
             | None => ⟨rest = []⟩ ∗ stream_own r' b ss bss [] None
             | Some (p, n) => ∃ c rest', ⟨rest = c :: rest' /\ points_to ss bss p c /\ n = Z.of_nat (length c)⟩ ∗ stream_own r' b ss bss rest' (Some c)
             end -∗ buffer_own b ss bss -∗ Q (x, r')) -∗
    wpm (Next r) Q.
Proof.
  iIntros (Hlen) "H Hb HQ". destruct (decide (0 < backup_count_ r)) as [Hk|Hk].
  - iApply (wpm_Next_backup with "H Hb"); [done|done|]. iIntros (p c rest' r' [-> Hp]) "H Hb".
    iApply ("HQ" with "[H] Hb"). iExists c, rest'. by iFrame.
  - iDestruct "H" as "(%i & %rd & Hr & %Hrd)". destruct Hrd as (Hrd & Hst & Hbc & Hp).
    iApply (wpm_Next_slice _ _ _ _ rest last with "[Hr] Hb HQ"); [done|destruct Hp; lia|]. iExists i, rd. by iFrame.
Qed.

(** Only the last chunk is given back. *)
Lemma wpm_reader_BackUp r b ss bss rest c n (Q : ProtoBufferReader -> hpropI S) :
  (n <= length c)%nat -> Z.of_nat (length (concat bss)) < 2 ^ 31 ->
  ⊢ stream_own r b ss bss rest (Some c) -∗ buffer_own b ss bss -∗
    (∀ r', stream_own r' b ss bss (backed n c rest) None -∗ buffer_own b ss bss -∗ Q r') -∗ wpm (BackUp r (Z.of_nat n)) Q.
Proof.
  iIntros (Hn Hlen) "(%i & %rd & Hr & %Hrd) [Hb Hs] HQ". destruct Hrd as (Hrd & Hst & Hbc & Hp).
  inversion Hp as [|j s bs l Hk' Hs Hbs Hsl Hl Ei Er El|]; subst.
  unfold BackUp. rw Hsl. cbn [used]. wbind. iApply wpm_ret.
  iDestruct (slices_lookup with "Hs") as (bs') "([%Hb' %Hls] & Hs)"; [exact Hs|]. assert (bs' = bs) as -> by congruence.
  pose proof (suffix_length _ _ Hl). pose proof (f_equal length (before_rest bss (Datatypes.S j))) as Hle.
  rw (before_S _ _ _ Hbs) !length_app in Hle. rw Hls. rw i32_signed; [|unfold int_range; lia].
  wbind. iApply wpm_dcheck; [lia|]. iApply wpm_ret. iApply ("HQ" with "[Hr] [$Hb $Hs]").
  iExists (Datatypes.S j), rd. iFrame. iPureIntro. split_and!; [done..|]. unfold backed. destruct (decide (n = 0)%nat) as [->|].
  - apply at_slice. done.
  - destruct Hl as [h ->]. assert (drop (length c - n) c = drop (length (h ++ c) - n) (h ++ c)) as ->.
    { rw length_app drop_app_ge; [|lia]. f_equal. lia. }
    apply (at_backup _ _ _ _ s); [done..|lia].
Qed.

Lemma wpm_Skip fuel r b ss bss rest last n (Q : bool * ProtoBufferReader -> hpropI S) :
  (length rest < fuel)%nat -> Z.of_nat n < 2 ^ 31 -> Z.of_nat (length (concat bss)) < 2 ^ 31 ->
  ⊢ stream_own r b ss bss rest last -∗ buffer_own b ss bss -∗
    (∀ r', stream_own r' b ss bss (snd (skip_spec n rest)) None -∗ buffer_own b ss bss -∗ Q (fst (skip_spec n rest), r')) -∗
    wpm (Skip fuel r (Z.of_nat n)) Q.
Proof.
  revert r rest last n. induction fuel as [|fuel IH]; [lia|]. iIntros (r rest last n Hf Hn Hlen) "H Hb HQ".
  cbn [Skip]. wbind. iApply (wpm_reader_Next with "H Hb"); [done|]. iIntros (x r') "H Hb". cbn [fst snd].
  destruct x as [[p size]|].
  - iDestruct "H" as (c rest') "[%Hx H]". destruct Hx as (-> & Hp & ->).
    apply points_to_length in Hp. cbn [skip_spec length] in *.
    destruct (decide (n <= length c)%nat) as [Hc|Hc]; cbn [fst snd].
    + rw decide_True; [|lia]. wbind. iApply wpm_lift; [apply int_op_ok; unfold int_range; lia|].
      wbind. replace (Z.of_nat (length c) - Z.of_nat n) with (Z.of_nat (length c - n)) by lia.
      iApply (wpm_reader_BackUp with "H Hb"); [lia|done|]. iIntros (r'') "H Hb". iApply wpm_ret. iApply ("HQ" with "H Hb").
    + rw decide_False; [|lia]. wbind. iApply wpm_lift; [apply int_op_ok; unfold int_range; lia|].
      replace (Z.of_nat n - Z.of_nat (length c)) with (Z.of_nat (n - length c)) by lia.
      iApply (IH with "H Hb HQ"); [lia|lia|done].
  - iDestruct "H" as "[-> H]". iApply wpm_ret. iApply ("HQ" with "H Hb").
Qed.

Lemma ByteCount_read r b ss bss rest last :
  Z.of_nat (length (concat bss)) < 2 ^ 31 ->
  stream_own r b ss bss rest last ⊢ ⟨ByteCount r = Z.of_nat (length (concat bss) - length (concat rest))⟩ ∗
    (stream_own r b ss bss rest last : hpropI S).
Proof.
  iIntros (Hlen) "(%i & %rd & Hr & %Hrd)". iSplitR; [|iExists i, rd; by iFrame]. iPureIntro.
  destruct Hrd as (_ & _ & Hbc & Hp). pose proof (position_length _ _ _ _ _ _ Hp) as E.
  pose proof (f_equal length (before_rest bss i)) as E'. rw length_app in E'.
  assert (0 <= backup_count_ r <= Z.of_nat (length (before bss i))).
  { destruct Hp as [|j s bs|j s bs k Hk Hs Hb]; [lia..|]. rw (before_S _ _ _ Hb) length_app. lia. }
  unfold ByteCount. rw i64_signed; [lia|unfold long_range; lia].
Qed.

Lemma position_rest r ss bss i rest last : position r ss bss i rest last -> (length rest <= length bss)%nat.
Proof.
  intros [i' Hk|j s bs l Hk Hs Hb Hsl Hl|j s bs k Hk Hs Hb Hsl Hl]; cbn [length]; rw length_drop; [lia..|].
  pose proof (lookup_lt_Some _ _ _ Hb). lia.
Qed.
Lemma stream_rest r b ss bss rest last :
  stream_own r b ss bss rest last ⊢ ⟨(length rest <= length bss)%nat⟩ ∗ (stream_own r b ss bss rest last : hpropI S).
Proof.
  iIntros "(%i & %rd & Hr & %Hrd)". iSplitR; [|iExists i, rd; by iFrame]. iPureIntro.
  destruct Hrd as (_ & _ & _ & Hp). by apply position_rest in Hp.
Qed.

Lemma wpm_next_nonempty fuel r b ss bss rest last (Q : option (ptr * Z) * ProtoBufferReader -> hpropI S) :
  (length rest < fuel)%nat -> Z.of_nat (length (concat bss)) < 2 ^ 31 ->
  ⊢ stream_own r b ss bss rest last -∗ buffer_own b ss bss -∗
    (∀ x r', match x with
             | None => ⟨drop_empty rest = []⟩ ∗ stream_own r' b ss bss [] None
             | Some (p, n) => ∃ c rest', ⟨drop_empty rest = c :: rest' /\ points_to ss bss p c /\ n = Z.of_nat (length c)⟩ ∗
                 stream_own r' b ss bss rest' (Some c)
             end -∗ buffer_own b ss bss -∗ Q (x, r')) -∗
    wpm (next_nonempty fuel r) Q.
Proof.
  revert r rest last. induction fuel as [|fuel IH]; [lia|]. iIntros (r rest last Hf Hlen) "H Hb HQ".
  cbn [next_nonempty]. wbind. iApply (wpm_reader_Next with "H Hb"); [done|]. iIntros (x r') "H Hb". cbn [fst snd].
  destruct x as [[p n]|].
  - iDestruct "H" as (c rest') "[%Hx H]". destruct Hx as (-> & Hp & ->). cbn [length] in Hf.
    destruct (decide (Z.of_nat (length c) = 0)) as [Hc|Hc].
    + destruct c; [|simpl in Hc; lia]. iApply (IH with "H Hb HQ"); [lia|done].
    + iApply wpm_ret. iApply ("HQ" with "[H] Hb"). iExists c, rest'. iFrame. by destruct c.
  - iDestruct "H" as "[-> H]". iApply wpm_ret. iApply ("HQ" $! None with "[H] Hb"). by iFrame.
Qed.

(** A client sees what the specification says. *)
Lemma wpm_irun {A} fuel (t : iclient A) r b ss bss rest last a rest' (Q : A * ProtoBufferReader -> hpropI S) :
  Z.of_nat (length (concat bss)) < 2 ^ 31 -> (length bss < fuel)%nat ->
  ispec (length (concat bss)) t rest last = Some (a, rest') ->
  ⊢ stream_own r b ss bss rest last -∗ buffer_own b ss bss -∗
    (∀ r' last', stream_own r' b ss bss rest' last' -∗ buffer_own b ss bss -∗ Q (a, r')) -∗ wpm (irun fuel t r) Q.
Proof.
  iIntros (Hlen Hfuel). iInduction t as [a'|k IH|k IH|n t IH|n k IH|k IH] forall (r rest last); iIntros (Hspec) "H Hb HQ"; cbn [irun ispec] in *.
  - injection Hspec as -> ->. iApply wpm_ret. iApply ("HQ" with "H Hb").
  - wbind. iApply (wpm_reader_Next with "H Hb"); [done|]. iIntros (x r') "H Hb". cbn [fst snd]. destruct x as [[p n]|].
    + iDestruct "H" as (c rest0) "[%Hx H]". destruct Hx as (-> & Hp & ->).
      wbind. iApply (wpm_read_ptr with "Hb"); [done|]. iIntros "Hb". by iApply ("IH" with "[] H Hb HQ").
    + iDestruct "H" as "[-> H]". by iApply ("IH" with "[] H Hb HQ").
  - iDestruct (stream_rest with "H") as "[%Hr H]". wbind. iApply (wpm_next_nonempty with "H Hb"); [lia|done|].
    iIntros (x r') "H Hb". cbn [fst snd]. destruct x as [[p n]|].
    + iDestruct "H" as (c rest0) "[%Hx H]". destruct Hx as (E & Hp & ->). rw E in Hspec.
      wbind. iApply (wpm_read_ptr with "Hb"); [done|]. iIntros "Hb". by iApply ("IH" with "[] H Hb HQ").
    + iDestruct "H" as "[%E H]". rw E in Hspec. by iApply ("IH" with "[] H Hb HQ").
  - destruct last as [c|]; [|done]. apply guard_Some in Hspec as [Hn%bool_decide_eq_true Hspec].
    replace n with (Z.of_nat (Z.to_nat n)) by lia. wbind. iApply (wpm_reader_BackUp with "H Hb"); [lia|done|].
    iIntros (r') "H Hb". by iApply ("IH" with "[] H Hb HQ").
  - apply guard_Some in Hspec as [Hn%bool_decide_eq_true Hspec]. iDestruct (stream_rest with "H") as "[%Hr H]".
    replace n with (Z.of_nat (Z.to_nat n)) at 1 by lia. wbind. iApply (wpm_Skip with "H Hb"); [lia|lia|done|].
    iIntros (r') "H Hb". by iApply ("IH" with "[] H Hb HQ").
  - iDestruct (ByteCount_read with "H") as "[-> H]"; [done|]. by iApply ("IH" with "[] H Hb HQ").
Qed.
End triples.
