(* ===== verification/ProtoBufferWriter.v ===== *)
(** * Writing a byte buffer as a stream ([grpcpp/impl/codegen/proto_buffer_writer.h])

    [ProtoBufferWriter] gives out slices of memory to be filled, puts them into the
    byte buffer, and takes back the end of the last one, which it gives out again.

    A client is a tree of calls and writes ([oclient]).  [owp] says that it keeps the
    contract of [ZeroCopyOutputStream] and what the writer's comments ask for, whatever
    sizes and contents the chunks have, and what it leaves as output; [wpm_orun]: with
    the writer it leaves these bytes in the buffer.

    The writer puts a slice into the buffer with [grpc_slice_buffer_add] and hands its
    address out, and takes it away with [grpc_slice_buffer_pop]: what [slice_buffer.h]
    says of these functions makes this right for the first chunk only, and for all of
    them when the library never concatenates slices with their own memory ([sep]). *)
From Stdlib Require Import ZArith Lia Strings.Byte.
From stdpp Require Import base tactics option list list_numbers.
From iris.bi Require Import bi big_op.
From iris.proofmode Require Import proofmode.
From S2P Require Import Prelude Bits HeapLogic GrpcSlice.

Definition kProtoBufferWriterMaxBufferLength : Z := 1024 * 1024.

(** [slice_buffer_] is that of the byte buffer. *)
Record ProtoBufferWriter := PBW {
  block_size_ : Z;
  total_size_ : Z;
  byte_count_ : Z;
  slice_buffer_ : Z;
  have_backup_ : bool;
  backup_slice_ : option grpc_slice;
  slice_ : option grpc_slice;
}.

Section writer.
  Context {S : Type} `{GrpcCore S}.
  Implicit Types (w : ProtoBufferWriter) (s : grpc_slice) (count remain : Z).

Definition construct (byte_buffer : ByteBuffer) (block_size total_size : Z) : stm S (ByteBuffer * ProtoBufferWriter) :=
  st_lift (dcheck (Valid byte_buffer = false)) ;;
  bp ← grpc_raw_byte_buffer_create [];
  byte_buffer ← set_buffer byte_buffer (Some bp);
  mret (byte_buffer, PBW block_size total_size 0 bp false None None).

Definition destroy w : stm S unit :=
  if have_backup_ w then s ← used (backup_slice_ w); grpc_slice_unref s else mret tt.

(** The size to allocate when [remain] bytes are missing: never an inlined slice. *)
Definition allocate_size w remain : Z :=
  let allocate_length := if decide (u64 (block_size_ w) < remain) then u64 (block_size_ w) else remain in
  if decide (GRPC_SLICE_INLINED_SIZE < allocate_length) then allocate_length else GRPC_SLICE_INLINED_SIZE + 1.

Definition take_slice w remain : stm S grpc_slice :=
  if have_backup_ w then
    s ← used (backup_slice_ w);
    mret (if decide (remain < GRPC_SLICE_LENGTH s) then GRPC_SLICE_SET_LENGTH s remain else s)
  else grpc_slice_malloc (allocate_size w remain).

(** [data] and [size]. *)
Definition Next w : stm S ((ptr * Z) * ProtoBufferWriter) :=
  st_lift (dcheck (byte_count_ w < total_size_ w)) ;;
  let remain := u64 (total_size_ w - byte_count_ w) in
  s ← take_slice w remain;
  st_lift (dcheck (GRPC_SLICE_LENGTH s <= INT_MAX)) ;;
  let size := i32 (GRPC_SLICE_LENGTH s) in
  grpc_slice_buffer_add (slice_buffer_ w) s ;;
  mret ((GRPC_SLICE_START_PTR s, size),
        PBW (block_size_ w) (total_size_ w) (i64 (byte_count_ w + size)) (slice_buffer_ w) false (backup_slice_ w) (Some s)).

Definition BackUp w count : stm S ProtoBufferWriter :=
  s ← used (slice_ w);
  st_lift (dcheck (count <= i32 (GRPC_SLICE_LENGTH s))) ;;
  grpc_slice_buffer_pop (slice_buffer_ w) ;;
  x ← (if decide (u64 count = GRPC_SLICE_LENGTH s) then mret (s, s)
       else
         y ← grpc_slice_split_tail s (u64 (GRPC_SLICE_LENGTH s - count));
         grpc_slice_buffer_add (slice_buffer_ w) (fst y) ;; mret y);
  mret (PBW (block_size_ w) (total_size_ w) (i64 (byte_count_ w - count)) (slice_buffer_ w)
          (has_refcount (snd x)) (Some (snd x)) (Some (fst x))).

Definition ByteCount w : Z := byte_count_ w.

(** The protected members. *)
Definition slice_buffer w : Z := slice_buffer_ w.
Definition set_byte_count w n : ProtoBufferWriter :=
  PBW (block_size_ w) (total_size_ w) n (slice_buffer_ w) (have_backup_ w) (backup_slice_ w) (slice_ w).
End writer.

(** ** Clients *)

Inductive oclient (A : Type) :=
| ORet (a : A)
| ONext (k : Z -> oclient A)
| OWrite (off : nat) (bs : list byte) (k : oclient A)
| OBackUp (n : nat) (k : oclient A)
| OByteCount (k : Z -> oclient A).
Arguments ORet {A} _.
Arguments ONext {A} _.
Arguments OWrite {A} _ _ _.
Arguments OBackUp {A} _ _.
Arguments OByteCount {A} _.

(** [data] is the pointer that [Next] gave last. *)
Fixpoint orun {S A : Type} `{GrpcCore S} (t : oclient A) (data : option ptr) (w : ProtoBufferWriter) : stm S (A * ProtoBufferWriter) :=
  match t with
  | ORet a => mret (a, w)
  | ONext k => x ← Next w; orun (k (snd (fst x))) (Some (fst (fst x))) (snd x)
  | OWrite off bs k => p ← used data; write_ptr p (Z.of_nat off) bs ;; orun k data w
  | OBackUp n k => w ← BackUp w (Z.of_nat n); orun k data w
  | OByteCount k => orun (k (ByteCount w)) data w
  end.

(** The output so far is [out], and [last] bytes of it are the last chunk.  Nobody asks
    for more when all the [total] bytes have room, as [Next] asserts.  Without [sep],
    only a client that has written nothing may ask for a chunk.  The first chunk has room
    for [block] bytes, or for all of them.  [zero]: the client may back up no bytes, and
    then accepts chunks of no bytes. *)
Fixpoint owp {A} (sep zero : Prop) (block : Z) (total : nat) (t : oclient A) (out : list byte) (last : option nat)
    (Q : A -> list byte -> Prop) : Prop :=
  match t with
  | ORet a => Q a out
  | ONext k =>
      (length out < total)%nat /\ (sep \/ out = []) /\
      forall c, (zero \/ (0 < length c)%nat) -> Z.of_nat (length c) < 2 ^ 31 ->
        (out = [] -> Z.min block (Z.of_nat total) <= Z.of_nat (length c)) ->
        owp sep zero block total (k (Z.of_nat (length c))) (out ++ c) (Some (length c)) Q
  | OWrite off bs k =>
      exists n, last = Some n /\ (off + length bs <= n)%nat /\
        owp sep zero block total k (overwrite out (length out - n + off) bs) last Q
  | OBackUp n k =>
      exists m, last = Some m /\ (n <= m)%nat /\ (zero \/ (0 < n)%nat) /\
        owp sep zero block total k (take (length out - n) out) None Q
  | OByteCount k => owp sep zero block total (k (Z.of_nat (length out))) out last Q
  end.

Lemma length_overwrite w off bs : (off + length bs <= length w)%nat -> length (overwrite w off bs) = length w.
Proof. intros Hl. unfold overwrite. rw !length_app length_take length_drop. lia. Qed.

(** A write to the last chunk is one to the output. *)
Lemma overwrite_app out c off bs :
  overwrite (out ++ c) (length (out ++ c) - length c + off) bs = out ++ overwrite c off bs.
Proof.
  rw length_app. replace (length out + length c - length c + off)%nat with (length out + off)%nat by lia. unfold overwrite.
  rw take_app_add -app_assoc. by rw -Nat.add_assoc drop_app_add.
Qed.

(** Write [bs], filling each chunk. *)
Fixpoint write_all (fuel : nat) (bs : list byte) : oclient bool :=
  match fuel with
  | O => ORet false
  | Datatypes.S fuel =>
      if decide (bs = []) then ORet true
      else ONext (fun n =>
        let l := take (Z.to_nat n) bs in
        OWrite 0 l
          (if decide (length l < Z.to_nat n)%nat then OBackUp (Z.to_nat n - length l) (ORet true)
           else write_all fuel (drop (Z.to_nat n) bs)))
  end.

Lemma write_all_ok sep block fuel bs total out last :
  (length bs < fuel)%nat -> (length out + length bs <= total)%nat ->
  (sep \/ out = [] /\ Z.of_nat (length bs) <= Z.min block (Z.of_nat total)) ->
  owp sep False block total (write_all fuel bs) out last (fun r out' => r = true /\ out' = out ++ bs).
Proof.
  revert bs out last. induction fuel as [|fuel IH]; intros bs out last Hf Ht Hsep; [lia|]. cbn [write_all].
  destruct (decide (bs = [])) as [->|Hne]; [by rw app_nil_r|]. cbn [owp].
  assert (0 < length bs)%nat by (destruct bs; simpl; [done|lia]).
  split; [lia|]. split; [tauto|]. intros c [[]|Hc] _ Hfirst. rw Nat2Z.id. eexists. split; [done|]. rw length_take. split; [lia|].
  rw overwrite_app. destruct (decide (length c `min` length bs < length c)%nat) as [Hlt|Hge].
  - assert (length bs < length c)%nat by lia. rw (take_ge bs (length c)); [|lia]. cbn [owp]. eexists. split; [done|]. split; [lia|]. split; [lia|]. split; [done|].
    rw length_app length_overwrite; [|simpl; lia].
    replace (length out + length c - (length c - length c `min` length bs))%nat with (length out + length bs)%nat by lia.
    rw take_app_add. unfold overwrite. f_equal. rw take_0 /= take_app_length. done.
  - assert (length c <= length bs)%nat by lia.
    assert (overwrite c 0 (take (length c) bs) = take (length c) bs) as ->.
    { unfold overwrite. rw take_0 /= drop_ge; [|rw length_take; lia]. by rw app_nil_r. }
    pose proof (IH (drop (length c) bs) (out ++ take (length c) bs) (Some (length c))) as Hw.
    rw -app_assoc take_drop in Hw. destruct Hsep as [Hs|[-> Hb]].
    + apply Hw; [rw length_drop; lia|rw length_app length_take length_drop; lia|by left].
    + specialize (Hfirst eq_refl). rw drop_ge; [|lia]. rw (take_ge bs); [|lia].
      by destruct fuel; [lia|].
Qed.

(** ** What each method does *)

Section triples.
  Context {S : Type} `{CoreLaws S}.
  Implicit Types (w : ProtoBufferWriter) (b : Z) (s : grpc_slice) (ss : list grpc_slice) (out c : list byte) (bss : list (list byte)).
  Implicit Types (total n : nat) (last : option nat) (data : option ptr).
  Context (zero : Prop).

(** A chunk of a client that does not back up no bytes is not empty, and the first
    chunk is large. *)
Definition chunk_ok w out c : Prop :=
  (zero \/ (0 < length c)%nat) /\ (out = [] -> Z.min (block_size_ w) (total_size_ w) <= Z.of_nat (length c)).

(** The backup slice: some bytes of a slice that is not inlined. *)
Definition backup_own w out : hpropI S :=
  (if have_backup_ w
  then ∃ r (l : Z) a bs, ⟨backup_slice_ w = Some (refcounted r l a) /\ chunk_ok w out bs⟩ ∗ slice_own (refcounted r l a) bs
  else emp)%I.

(** The last slice of the buffer is the one that [Next] gave, and not inlined. *)
Definition last_slice w ss bss last data : Prop :=
  match last with
  | None => True
  | Some n => exists ss' bss' c r m a, ss = ss' ++ [refcounted r m a] /\ bss = bss' ++ [c] /\ length c = n /\ Z.of_nat n < 2 ^ 31 /\
      (zero \/ (length bss' <= length (concat bss'))%nat) /\ (concat bss' = [] -> bss' = []) /\ chunk_ok w (concat bss') c /\
      slice_ w = Some (refcounted r m a) /\ data = Some (mem_ptr a) /\ have_backup_ w = false
  end.

Definition writer_own w b total out last data : hpropI S :=
  (∃ ss bss, buffer_own b ss bss ∗ backup_own w out ∗
     ⟨slice_buffer_ w = b /\ total_size_ w = Z.of_nat total /\ Z.of_nat total < 2 ^ 31 /\ 0 < block_size_ w < 2 ^ 31 /\
      concat bss = out /\ byte_count_ w = Z.of_nat (length out) /\ Z.of_nat (length out) < 2 ^ 32 /\
      (zero \/ (length bss <= length out)%nat) /\ (out = [] -> bss = []) /\ last_slice w ss bss last data⟩)%I.

Lemma wpm_writer_construct block total (Q : ByteBuffer * ProtoBufferWriter -> hpropI S) :
  0 < block < 2 ^ 31 -> Z.of_nat total < 2 ^ 31 ->
  ⊢ (∀ b w, ⟨block_size_ w = block⟩ -∗ writer_own w b total [] None None -∗ Q (Some b, w)) -∗ wpm (construct None block (Z.of_nat total)) Q.
Proof.
  iIntros (Hblock Htotal) "HQ". unfold construct. wbind. iApply wpm_dcheck; [done|]. wbind. iApply create_empty_law.
  iIntros (b) "Hb". wbind. unfold set_buffer. change (Valid None) with false. wbind. iApply wpm_ret. iApply wpm_ret.
  iApply wpm_ret. iApply "HQ"; [done|]. iExists [], []. iFrame. unfold slices_own. cbn [big_opL backup_own have_backup_].
  iSplitR; [done|]. iSplitR; [done|]. iPureIntro. split_and!; simpl; done || lia.
Qed.

Lemma wpm_writer_destroy w b total out last data (Q : unit -> hpropI S) :
  ⊢ writer_own w b total out last data -∗ (∀ bss, ⟨concat bss = out /\ (zero \/ (length bss <= length out)%nat)⟩ -∗ buffer_chunks (Some b) bss -∗ Q tt) -∗ wpm (destroy w) Q.
Proof.
  iIntros "(%ss & %bss & Hb & Hbk & %Hw) HQ". destruct Hw as (_ & _ & _ & _ & Hout & _ & _ & Hslices & _).
  iDestruct ("HQ" $! bss (conj Hout Hslices) with "[Hb]") as "HQ"; [by iExists ss|]. unfold destroy, backup_own. destruct (have_backup_ w).
  - iDestruct "Hbk" as (r n a bs) "[[%E _] Hs]". rw E. cbn [used]. wbind. iApply wpm_ret.
    iApply (unref_law with "Hs"). by iIntros "_".
  - iApply wpm_ret. iDestruct "Hbk" as "_". done.
Qed.

Lemma writer_total w b total out last data :
  writer_own w b total out last data ⊢ ⟨total_size_ w = Z.of_nat total⟩ ∗ (writer_own w b total out last data : hpropI S).
Proof. iIntros "(%ss & %bss & Hb & Hbk & %Hw)". iSplitR; [|iExists ss, bss; by iFrame]. iPureIntro. tauto. Qed.

(** A slice that is not inlined, and not longer than what is missing, or 24 bytes. *)
Lemma wpm_take_slice w out remain (Q : grpc_slice -> hpropI S) :
  0 < remain < 2 ^ 31 -> 0 < block_size_ w < 2 ^ 31 -> (out = [] -> remain = total_size_ w) ->
  ⊢ backup_own w out -∗
    (∀ r m a c, ⟨chunk_ok w out c /\ Z.of_nat (length c) <= Z.max remain 24 /\ m = Z.of_nat (length c)⟩ -∗
       slice_own (refcounted r m a) c -∗ Q (refcounted r m a)) -∗
    wpm (take_slice w remain) Q.
Proof.
  iIntros (Hr Hb Hfirst) "H HQ". unfold take_slice, backup_own, chunk_ok. destruct (have_backup_ w).
  - iDestruct "H" as (r n a bs) "[[%E [%Hbs %Hbf]] Hs]". rw E. cbn [used]. wbind. iApply wpm_ret.
    iDestruct (keep_pure _ _ (slice_length (refcounted r n a) bs) with "Hs") as "[Hs %Hl]". cbn [GRPC_SLICE_LENGTH] in *.
    destruct (decide (remain < n)) as [Hlt|Hge].
    + cbn [GRPC_SLICE_SET_LENGTH]. rw u64_small; [|lia].
      rw -{1}(take_drop (Z.to_nat remain) bs). iDestruct (slice_shrink with "Hs") as "[Hs Hg]".
      rw length_take. replace (Z.of_nat (Z.to_nat remain `min` length bs)) with remain by lia.
      iApply (wpm_drop with "Hg"). iApply wpm_ret. iApply ("HQ" with "[] Hs"). iPureIntro. rw length_take.
      split_and!; [right; lia|intros Ho; specialize (Hfirst Ho); lia|lia|lia].
    + iApply wpm_ret. iApply ("HQ" with "[] Hs"). iPureIntro. split_and!; [done|done|lia|lia].
  - iDestruct "H" as "_". unfold allocate_size, GRPC_SLICE_INLINED_SIZE. rw u64_small; [|lia].
    set (len := if decide (block_size_ w < remain) then block_size_ w else remain).
    assert (Hlen : 0 < len <= remain /\ Z.min (block_size_ w) remain <= len) by (unfold len; case_decide; lia).
    set (m := if decide (8 + 8 - 1 + 8 < len) then len else 8 + 8 - 1 + 8 + 1).
    assert (Hm : 23 < m <= Z.max remain 24 /\ len <= m) by (unfold m; case_decide; lia).
    iApply malloc_law; [lia|]. iIntros (s bs) "[%Hn %Hc] Hs". destruct s as [r n a|n d].
    + iDestruct (keep_pure _ _ (slice_length (refcounted r n a) bs) with "Hs") as "[Hs %Hl]". cbn [GRPC_SLICE_LENGTH] in *.
      iApply ("HQ" with "[] Hs"). iPureIntro. split_and!; [right; lia|intros Ho; specialize (Hfirst Ho); lia|lia|lia].
    + destruct Hc as [_ Hc]. discriminate Hc. unfold GRPC_SLICE_INLINED_SIZE. lia.
Qed.

Lemma wpm_writer_Next w b total out last data (Q : (ptr * Z) * ProtoBufferWriter -> hpropI S) :
  (length out < total)%nat -> add_separate \/ out = [] ->
  ⊢ writer_own w b total out last data -∗
    (∀ p c w', ⟨chunk_ok w out c /\ Z.of_nat (length c) < 2 ^ 31 /\ block_size_ w' = block_size_ w⟩ -∗
       writer_own w' b total (out ++ c) (Some (length c)) (Some p) -∗ Q ((p, Z.of_nat (length c)), w')) -∗
    wpm (Next w) Q.
Proof.
  iIntros (Hlt Hsep) "(%ss & %bss & [Hb Hss] & Hbk & %Hw) HQ". destruct Hw as (<- & Ht & Htot & Hblk & <- & Hbc & Hlen & Hslices & Hnil & _).
  unfold Next. rw Ht Hbc. wbind. iApply wpm_dcheck; [lia|]. wbind. rw u64_small; [|lia].
  iApply (wpm_take_slice with "Hbk"); [lia|done|intros E; rw E /= in Hbc *; lia|].
  iIntros (r n a c) "[%Hc [%Hcl ->]] Hs". cbn [GRPC_SLICE_LENGTH].
  wbind. iApply wpm_dcheck; [unfold INT_MAX; lia|]. rw i32_signed; [|unfold int_range; lia].
  iDestruct (slices_length with "Hss") as "[%Hll Hss]".
  wbind. iApply (add_law with "Hb Hss Hs"). iIntros (ss' bss') "[%Hcat [_ %Hadd]] Hb Hss". destruct (Hadd eq_refl) as [-> ->].
  { destruct Hsep as [|E]; [by left|right]. rw (Hnil E) in Hll. by apply nil_length_inv. }
  iApply wpm_ret. rw i64_signed; [|unfold long_range; lia]. iApply ("HQ" with "[]"); [iPureIntro; split_and!; done || lia|].
  iExists (ss ++ [_]), (bss ++ [c]). iFrame. unfold backup_own. cbn [have_backup_]. iSplitR; [done|]. iPureIntro. cbn -[concat].
  assert (Hne : c = [] -> concat bss <> []).
  { intros -> E. destruct Hc as [_ Hc]. specialize (Hc E). rw E /= in Hlt. rw Ht /= in Hc. lia. }
  rw concat_app /= app_nil_r !length_app /=. split_and!; try done; try lia.
  - destruct Hc as [[Hz|Hc] _]; [by left|]. destruct Hslices as [Hz|Hs]; [by left|]. right. lia.
  - intros [E1 E2]%app_nil. by destruct Hne.
  - exists ss, bss, c, r, (Z.of_nat (length c)), a. split_and!; try done; try lia. unfold chunk_ok in *. cbn. by rw -Ht.
Qed.

(** A write into the last chunk. *)
Lemma wpm_write w b total out n data off bs (Q : unit -> hpropI S) :
  (off + length bs <= n)%nat ->
  ⊢ writer_own w b total out (Some n) data -∗
    (writer_own w b total (overwrite out (length out - n + off) bs) (Some n) data -∗ Q tt) -∗
    wpm (p ← used data; write_ptr p (Z.of_nat off) bs) Q.
Proof.
  iIntros (Hoff) "(%ss & %bss & [Hb Hss] & Hbk & %Hw) HQ". destruct Hw as (Hsb & Ht & Htot & Hblk & <- & Hbc & Hlen & Hslices & Hnil & Hlast).
  destruct Hlast as (ss' & bss' & c & r & m & a & -> & -> & <- & Hc & Hcnt & Hnil' & Hck & Hsl & -> & Hbk). cbn [used]. wbind. iApply wpm_ret.
  unfold slices_own. iDestruct (big_sepL2_snoc with "Hss") as "[Hss Hs]". cbn [write_ptr].
  iApply (store_law with "Hs"); [done|]. iIntros "Hs". iApply "HQ".
  rw !concat_app /= !app_nil_r overwrite_app in Hbc Hlen Hslices |- *. rw !length_app in Hbc Hlen Hslices.
  iExists (ss' ++ [refcounted r m a]), (bss' ++ [overwrite c off bs]). iFrame. unfold backup_own. rw Hbk. iDestruct "Hbk" as "_".
  iSplitR; [done|]. iPureIntro. rw concat_app /= app_nil_r (length_app bss') length_app length_overwrite; [|done].
  assert (Hne : concat bss' ++ overwrite c off bs = [] -> bss' ++ [overwrite c off bs] = []).
  { intros [E1 E2]%app_nil. apply (f_equal length) in E2. rw length_overwrite //= in E2. destruct c; [|done].
    rw concat_app E1 /= in Hnil. specialize (Hnil eq_refl). by destruct bss'. }
  split_and!; try done || lia.
  exists ss', bss', (overwrite c off bs), r, m, a. unfold chunk_ok in *. by rw length_overwrite.
Qed.

(** The two parts of a slice: nothing is left when all of it is given back. *)
Lemma wpm_split (bk : Z) r l a c n ss bss (Q : grpc_slice * grpc_slice -> hpropI S) :
  (n <= length c)%nat -> Z.of_nat (length c) < 2 ^ 32 ->
  ⊢ buffer_own bk ss bss -∗ slice_own (refcounted r l a) c -∗
    (∀ s1 s2 ss' bss', ⟨concat bss' = concat bss ++ take (length c - n) c /\ (length bss' <= length bss + (length c - n))%nat /\
         (length c = n -> bss' = bss)⟩ -∗ buffer_own bk ss' bss' -∗
       slice_own s2 (drop (length c - n) c) -∗ Q (s1, s2)) -∗
    wpm (if decide (u64 (Z.of_nat n) = GRPC_SLICE_LENGTH (refcounted r l a)) then mret (refcounted r l a, refcounted r l a)
         else
           y ← grpc_slice_split_tail (refcounted r l a) (u64 (GRPC_SLICE_LENGTH (refcounted r l a) - Z.of_nat n));
           grpc_slice_buffer_add bk (fst y) ;; mret y) Q.
Proof.
  iIntros (Hn Hlen) "[Hb Hss] Hs HQ".
  iDestruct (keep_pure _ _ (slice_length (refcounted r l a) c) with "Hs") as "[Hs %Hl]". cbn [GRPC_SLICE_LENGTH] in *.
  destruct Hl as [-> _]. rw u64_small; [|lia]. destruct (decide (Z.of_nat n = Z.of_nat (length c))) as [E|E].
  - iApply wpm_ret. assert (length c - n = 0)%nat as -> by lia. iApply ("HQ" with "[] [$Hb $Hss] Hs"). iPureIntro.
    rw take_0 app_nil_r. split_and!; [done|lia|done].
  - rw u64_small; [|lia].
    replace (Z.of_nat (length c) - Z.of_nat n) with (Z.of_nat (length (take (length c - n) c))) by (rw length_take; lia).
    wbind. iApply (split_tail_law _ _ (drop (length c - n) c) with "[Hs]"); [by rw take_drop|]. iIntros (s1 s2) "Hs1 Hs2". cbn [fst]. wbind.
    iApply (add_law with "Hb Hss Hs1"). iIntros (ss' bss') "[%Hcat [%Hcnt _]] Hb Hss". iApply wpm_ret.
    iApply ("HQ" with "[] [$Hb $Hss] Hs2"). iPureIntro. split_and!; [done|lia|lia].
Qed.

(** What is not inlined is kept. *)
Lemma backup_intro s out c bl tl bc bk sl :
  let w := PBW bl tl bc bk (has_refcount s) (Some s) sl in
  chunk_ok w out c -> slice_own s c ⊢ backup_own w out.
Proof.
  cbv zeta. iIntros (Hc) "Hs". unfold backup_own. cbn [have_backup_ backup_slice_]. destruct s as [r n a|n d]; cbn [has_refcount].
  - iExists r, n, a, c. by iFrame.
  - rw slice_inlined. by iDestruct "Hs" as "_".
Qed.

(** The last slice, and the buffer without it. *)
Lemma wpm_writer_BackUp w b total out m data n (Q : ProtoBufferWriter -> hpropI S) :
  (n <= m)%nat -> zero \/ (0 < n)%nat ->
  ⊢ writer_own w b total out (Some m) data -∗
    (∀ w', ⟨block_size_ w' = block_size_ w⟩ -∗ writer_own w' b total (take (length out - n) out) None data -∗ Q w') -∗
    wpm (BackUp w (Z.of_nat n)) Q.
Proof.
  iIntros (Hn Hz) "(%ss & %bss & [Hb Hss] & Hbk & %Hw) HQ". destruct Hw as (<- & Ht & Htot & Hblk & <- & Hbc & Hlen & Hslices & Hnil & Hlast).
  destruct Hlast as (ss' & bss' & c & r & l & a & -> & -> & <- & Hc & Hcnt & Hnil' & Hck & Hsl & -> & Hbk). unfold BackUp. rw Hsl. cbn [used].
  rw concat_app /= app_nil_r length_app in Hbc Hlen |- *. unfold backup_own at 1. rw Hbk. iDestruct "Hbk" as "_".
  unfold slices_own. iDestruct (big_sepL2_snoc with "Hss") as "[Hss Hs]".
  iDestruct (keep_pure _ _ (slice_length (refcounted r l a) c) with "Hs") as "[Hs %Hl]". cbn [GRPC_SLICE_LENGTH] in *.
  destruct Hl as [-> _]. wbind. iApply wpm_ret. wbind.
  iApply wpm_dcheck; [cbn [GRPC_SLICE_LENGTH]; rw i32_signed; [lia|unfold int_range; lia]|].
  wbind. iApply (pop_law with "Hb"). iIntros "Hb". wbind.
  iApply (wpm_split _ _ _ _ _ n with "[$Hb $Hss] Hs"); [done|lia|]. iIntros (s1 s2 ss2 bss2 (Hcat & Hcnt2 & Hall)) "Hb Hs2".
  iApply wpm_ret. cbn [fst snd]. rw Hbc i64_signed; [|unfold long_range; lia].
  rw take_app_ge; [|lia]. replace (length (concat bss') + length c - n - length (concat bss'))%nat with (length c - n)%nat by lia.
  assert (Hout : concat bss' ++ take (length c - n) c = [] -> concat bss' = [] /\ length c = n).
  { intros [E1 E2]%app_nil. split; [done|]. apply (f_equal length) in E2. rw length_take /= in E2.
    rw concat_app E1 /= app_nil_r in Hnil. destruct c; [specialize (Hnil eq_refl); by destruct bss'|cbn [length] in *; lia]. }
  iDestruct (backup_intro _ (concat bss' ++ take (length c - n) c) _ (block_size_ w) (total_size_ w) with "Hs2") as "Hbk".
  { unfold chunk_ok in *. cbn [block_size_ total_size_]. rw length_drop. split; [destruct Hz; [by left|right; lia]|].
    intros [E1 E2]%Hout. destruct Hck as [_ Hck]. specialize (Hck E1). lia. }
  iApply "HQ"; [done|]. iExists ss2, bss2. iFrame. iPureIntro.
  cbn -[concat]. rw Hcat length_app length_take. split_and!; try done || lia.
  - destruct Hcnt as [Hz'|Hcnt]; [by left|]. right. lia.
  - intros [E1 E2]%Hout. rw (Hall E2). by apply Hnil'.
Qed.

(** The output of a client. *)
Lemma wpm_orun {A} total (t : oclient A) w b out last data (R : A -> list byte -> Prop) (Q : A * ProtoBufferWriter -> hpropI S) :
  owp add_separate zero (block_size_ w) total t out last R ->
  ⊢ writer_own w b total out last data -∗
    (∀ a w' out' last' data', ⟨R a out'⟩ -∗ writer_own w' b total out' last' data' -∗ Q (a, w')) -∗ wpm (orun t data w) Q.
Proof.
  iIntros (Hwp). iInduction t as [a|k IH|off bs t IH|n t IH|k IH] forall (w out last data Hwp); iIntros "H HQ"; cbn [orun owp] in *.
  - iApply wpm_ret. by iApply ("HQ" with "[] H").
  - destruct Hwp as (Hlt & Hsep & Hwp). iDestruct (writer_total with "H") as "[%Ht H]".
    wbind. iApply (wpm_writer_Next with "H"); [done|done|]. iIntros (p c w' ([Hc Hf] & Hc' & Hbl)) "H". cbn [fst snd].
    iApply ("IH" with "[] H HQ"). iPureIntro. rw Hbl. rw Ht in Hf. by apply Hwp.
  - destruct Hwp as (n & -> & Hoff & Hwp). iApply wpm_bind_assoc. wbind. iApply (wpm_write with "H"); [done|].
    iIntros "H". iApply ("IH" with "[] H HQ"). by iPureIntro.
  - destruct Hwp as (m & -> & Hn & Hz & Hwp). wbind. iApply (wpm_writer_BackUp with "H"); [done|done|].
    iIntros (w' Hbl) "H". iApply ("IH" with "[] H HQ"). iPureIntro. by rw Hbl.
  - iAssert (⟨ByteCount w = Z.of_nat (length out)⟩ ∗ writer_own w b total out last data)%I with "[H]" as "[-> H]".
    { iDestruct "H" as "(%ss & %bss & Hb & Hbk & %Hw)". iSplitR; [|iExists ss, bss; by iFrame]. iPureIntro. tauto. }
    by iApply ("IH" with "[] H HQ").
Qed.
End triples.
