(* ===== verification/ProtoUtils.v ===== *)
(** * Messages in byte buffers ([grpcpp/impl/codegen/proto_utils.h], [status.h])

    [GenericSerialize] and [GenericDeserialize] connect a message class with byte
    buffers.  The class is a parameter ([Message]): what its generated code does with
    a stream is a client of the stream.  [MessageLaws]: its encoding has the size it
    says, both ways to write it agree, and it is read back from any division into
    chunks. *)
From Stdlib Require Import ZArith Lia Strings.Byte Strings.String.
From stdpp Require Import base tactics option list list_numbers strings.
From iris.bi Require Import bi big_op.
From iris.proofmode Require Import proofmode.
From S2P Require Import Prelude Bits HeapLogic GrpcSlice ProtoBufferReader ProtoBufferWriter.

(** ** [Status] *)

Inductive StatusCode :=
| OK | CANCELLED | UNKNOWN | INVALID_ARGUMENT | DEADLINE_EXCEEDED | NOT_FOUND | ALREADY_EXISTS
| PERMISSION_DENIED | RESOURCE_EXHAUSTED | FAILED_PRECONDITION | ABORTED | OUT_OF_RANGE
| UNIMPLEMENTED | INTERNAL | UNAVAILABLE | DATA_LOSS | UNAUTHENTICATED.
#[export] Instance StatusCode_eq_dec : EqDecision StatusCode.
Proof. solve_decision. Defined.

Record Status := MkStatus { code_ : StatusCode; error_message_ : string; binary_error_details_ : string }.
Definition Status_OK : Status := MkStatus OK "" "".
Definition Status_error (code : StatusCode) (error_message : string) : Status := MkStatus code error_message "".
Definition ok (s : Status) : bool := bool_decide (code_ s = OK).

(** ** The message class *)

(** [SerializeWithCachedSizesToArray]: the bytes it stores, at the end of which is the
    pointer that it returns.  [decode]: a [CodedInputStream] is made, the message is
    parsed, and the stream destroyed; the message, and the results of
    [ParseFromCodedStream] and [ConsumedEntireMessage]. *)
Class Message (M : Type) := {
  ByteSize : M -> Z;
  SerializeWithCachedSizesToArray : M -> list byte;
  SerializeToZeroCopyStream : M -> oclient bool;
  decode : M -> iclient (M * bool * bool);
  InitializationErrorString : M -> string;
}.

#[export] Instance ptr_eq_dec : EqDecision ptr.
Proof. solve_decision. Defined.

Section generic.
  Context {S M : Type} `{GrpcCore S} `{Message M}.
  Implicit Types (msg : M) (bb : ByteBuffer).

(** The small message is written into a slice of its own, which becomes the buffer;
    [tmp] takes the old one along. *)
Definition serialize_small msg bb : stm S ByteBuffer :=
  slice ← Slice_alloc (u64 (ByteSize msg));
  slice ← write_slice slice 0 (SerializeWithCachedSizesToArray msg);
  st_lift (dcheck (end_ slice = ptr_add (begin slice) (Z.of_nat (length (SerializeWithCachedSizesToArray msg))))) ;;
  tmp ← ByteBuffer_slices [slice];
  let x := Swap bb tmp in
  ByteBuffer_destruct (snd x) ;; Slice_destruct slice ;; mret (fst x).

(** The result, the buffer, and [own_buffer]. *)
Definition GenericSerialize msg bb : stm S (Status * ByteBuffer * bool) :=
  if decide (u64 (ByteSize msg) <= GRPC_SLICE_INLINED_SIZE) then
    bb ← serialize_small msg bb; mret (Status_OK, bb, true)
  else
    x ← ProtoBufferWriter.construct bb kProtoBufferWriterMaxBufferLength (ByteSize msg);
    y ← orun (SerializeToZeroCopyStream msg) None (snd x);
    ProtoBufferWriter.destroy (snd y) ;;
    mret (if (fst y : bool) then Status_OK else Status_error INTERNAL "Failed to serialize message", fst x, true).

Definition deserialize_result msg (parsed consumed : bool) : Status :=
  let result := if parsed then Status_OK else Status_error INTERNAL (InitializationErrorString msg) in
  if consumed then result else Status_error INTERNAL "Did not read entire message".

(** [buffer] may be a null pointer; the result, the buffer and the message. *)
Definition GenericDeserialize (fuel : nat) (buffer : option ByteBuffer) msg : stm S (Status * option ByteBuffer * M) :=
  match buffer with
  | None => mret (Status_error INTERNAL "No payload", None, msg)
  | Some buf =>
      reader ← ProtoBufferReader.construct buf;
      if negb (ProtoBufferReader.status reader) then
        ProtoBufferReader.destroy reader ;;
        mret (Status_error INTERNAL "Couldn't initialize byte buffer reader", Some buf, msg)
      else
        x ← irun fuel (decode msg) reader;
        ProtoBufferReader.destroy (snd x) ;;
        let '(m, parsed, consumed) := fst x in
        buf ← Clear buf;
        mret (deserialize_result m parsed consumed, Some buf, m)
  end.

(** [SerializationTraits]. *)
Definition Serialize msg bb : stm S (Status * ByteBuffer * bool) := GenericSerialize msg bb.
Definition Deserialize (fuel : nat) (buffer : option ByteBuffer) msg : stm S (Status * option ByteBuffer * M) :=
  GenericDeserialize fuel buffer msg.
End generic.

(** ** What the message class promises *)

Class MessageLaws (M : Type) `{Message M} := {
  encode : M -> list byte;
  law_size m : ByteSize m = Z.of_nat (length (encode m)) /\ Z.of_nat (length (encode m)) < 2 ^ 31;
  law_array m : SerializeWithCachedSizesToArray m = encode m;
  (** It asks for another chunk only when bytes are missing, and backs up at most once,
      the rest of a chunk. *)
  law_stream m (sep : Prop) :
    sep \/ Z.of_nat (length (encode m)) <= kProtoBufferWriterMaxBufferLength ->
    owp sep False kProtoBufferWriterMaxBufferLength (length (encode m)) (SerializeToZeroCopyStream m) [] None
      (fun r out => r = true /\ out = encode m);
  law_decode m m0 bss :
    concat bss = encode m -> exists rest, ispec (length (encode m)) (decode m0) bss None = Some ((m, true, true), rest);
}.

(** ** What the functions do *)

Section triples.
  Context {S M : Type} `{CoreLaws S} `{!Message M} `{!MessageLaws M}.
  Implicit Types (m msg : M) (b : Z) (bss : list (list byte)) (bs w : list byte) (s : grpc_slice) (bb : ByteBuffer).

(** A message that the writer keeps in one chunk, or a library that keeps chunks apart. *)
Definition fits m : Prop :=
  add_separate \/ Z.of_nat (length (encode m)) <= kProtoBufferWriterMaxBufferLength.

Lemma overwrite_all w bs : length bs = length w -> overwrite w 0 bs = bs.
Proof. intros Hl. unfold overwrite. rw take_0 /= drop_ge; [by rw app_nil_r|lia]. Qed.

(** All bytes of a slice are written. *)
Lemma wpm_write_slice s w bs (Q : grpc_slice -> hpropI S) :
  length bs = length w ->
  ⊢ slice_own s w -∗ (∀ s', slice_own s' bs -∗ Q s') -∗ wpm (write_slice s 0 bs) Q.
Proof.
  iIntros (Hl) "Hs HQ". destruct s as [r n a|n data]; cbn [write_slice].
  - wbind. replace (a + 0) with (a + Z.of_nat 0) by lia. iApply (store_law with "Hs"); [lia|]. iIntros "Hs". iApply wpm_ret.
    rw overwrite_all; [|done]. by iApply "HQ".
  - rw slice_inlined. iDestruct "Hs" as "%Hs". destruct Hs as (Hn & Hd & ->). rw length_take in Hl. rw decide_True; [|lia].
    iApply wpm_ret. iApply "HQ". rw slice_inlined. iPureIntro. change (Z.to_nat 0) with 0%nat. rw length_overwrite; [|simpl; lia].
    split_and!; [lia..|]. unfold overwrite. rw take_0 /= take_app_length' //. lia.
Qed.

Lemma wpm_serialize_small msg bb bss (Q : ByteBuffer -> hpropI S) :
  ⊢ buffer_chunks bb bss -∗ (∀ b, buffer_chunks (Some b) [encode msg] -∗ Q (Some b)) -∗ wpm (serialize_small msg bb) Q.
Proof.
  iIntros "Hbb HQ". unfold serialize_small. destruct (law_size msg) as [Hsz Hlt]. rw Hsz u64_small; [|lia]. rw law_array.
  wbind. iApply malloc_law; [lia|]. iIntros (s w) "[%Hw _] Hs". wbind. iApply (wpm_write_slice with "Hs"); [lia|]. iIntros (s') "Hs".
  iDestruct (keep_pure _ _ (slice_length s' (encode msg)) with "Hs") as "[Hs %Hl]".
  wbind. iApply wpm_dcheck; [unfold end_, GRPC_SLICE_END_PTR, begin; by destruct Hl as [-> _]|].
  wbind. unfold ByteBuffer_slices. wbind. iApply (create_law with "Hs"). iIntros (b) "Hb Hs Hr". iApply wpm_ret. cbn [Swap fst snd].
  wbind. iApply (wpm_ByteBuffer_destruct with "Hbb"). iIntros "_". wbind. iApply (unref_shared_law with "Hr"). iIntros "_".
  iApply wpm_ret. iApply "HQ". iExists [s']. by iFrame.
Qed.

(** The buffer that is left holds the encoding; a large message needs an empty one. *)
Lemma wpm_GenericSerialize msg bb bss (Q : Status * ByteBuffer * bool -> hpropI S) :
  fits msg ->
  (GRPC_SLICE_INLINED_SIZE < Z.of_nat (length (encode msg)) -> bb = None) ->
  ⊢ buffer_chunks bb bss -∗
    (∀ b bss', ⟨concat bss' = encode msg /\ (length bss' <= length (encode msg) + 1)%nat⟩ -∗ buffer_chunks (Some b) bss' -∗
       Q (Status_OK, Some b, true)) -∗
    wpm (GenericSerialize msg bb) Q.
Proof.
  iIntros (Hfits Hbb) "Hbb HQ". unfold GenericSerialize. destruct (law_size msg) as [Hsz Hlt]. rw Hsz u64_small; [|lia].
  destruct (decide (Z.of_nat (length (encode msg)) <= GRPC_SLICE_INLINED_SIZE)) as [Hle|Hgt].
  - wbind. iApply (wpm_serialize_small with "Hbb"). iIntros (b) "Hb". iApply wpm_ret. iApply ("HQ" with "[] Hb").
    iPureIntro. cbn [concat length]. rw app_nil_r. split; [done|lia].
  - rw Hbb; [|lia]. iDestruct "Hbb" as "%Hb". wbind. iApply (wpm_writer_construct False); [unfold kProtoBufferWriterMaxBufferLength; lia|done|].
    iIntros (b w Hbl) "Hw". cbn [fst snd]. wbind. iApply (wpm_orun with "Hw"); [rw Hbl; by apply law_stream|].
    iIntros (r w' out last data [-> ->]) "Hw". cbn [fst snd]. wbind. iApply (wpm_writer_destroy with "Hw").
    iIntros (bss' [Hcat [[]|Hcnt]]) "Hb". iApply wpm_ret. iApply ("HQ" with "[] Hb"). iPureIntro. split; [done|lia].
Qed.

(** No reader could be made: the result says so, and the buffer is as it was. *)
Definition no_reader b bss msg (r : Status * option ByteBuffer * M) : hpropI S :=
  (⟨~ reader_inits /\ r = (Status_error INTERNAL "Couldn't initialize byte buffer reader", Some (Some b), msg)⟩ ∗
   buffer_chunks (Some b) bss)%I.

(** Whatever the parser says: the buffer is gone, and the result tells what happened. *)
Lemma wpm_GenericDeserialize fuel b bss msg m parsed consumed rest (Q : Status * option ByteBuffer * M -> hpropI S) :
  Z.of_nat (length (concat bss)) < 2 ^ 31 -> (length bss < fuel)%nat ->
  ispec (length (concat bss)) (decode msg) bss None = Some ((m, parsed, consumed), rest) ->
  ⊢ buffer_chunks (Some b) bss -∗
    (∀ r, ⟨r = (deserialize_result m parsed consumed, Some None, m)⟩ ∨ no_reader b bss msg r -∗ Q r) -∗
    wpm (GenericDeserialize fuel (Some (Some b)) msg) Q.
Proof.
  iIntros (Hlen Hfuel Hspec) "(%ss & Hb) HQ". unfold GenericDeserialize. wbind. iApply (wpm_reader_construct with "Hb").
  iIntros (r) "Hb Hr". unfold ProtoBufferReader.status. destruct (status_ok r) eqn:Hst; cbn [negb].
  - wbind. iApply (wpm_irun with "Hr Hb"); [done|done|exact Hspec|].
    iIntros (r' last) "Hr Hb". cbn [fst snd]. wbind. iApply (wpm_reader_destroy with "Hr"). iIntros "_".
    wbind. iApply (wpm_buffer_Clear (Some b) bss with "[Hb]"); [by iExists ss|]. iIntros "_". iApply wpm_ret.
    iApply "HQ". by iLeft.
  - iDestruct "Hr" as "%Hno". wbind. unfold ProtoBufferReader.destroy. rw Hst. iApply wpm_ret. iApply wpm_ret.
    iApply "HQ". iRight. iSplitR; [done|]. by iExists ss.
Qed.

(** An encoding is read back. *)
Lemma wpm_deserialize_encoding fuel b bss msg m (Q : Status * option ByteBuffer * M -> hpropI S) :
  concat bss = encode m -> (length bss < fuel)%nat ->
  ⊢ buffer_chunks (Some b) bss -∗ (∀ r, ⟨r = (Status_OK, Some None, m)⟩ ∨ no_reader b bss msg r -∗ Q r) -∗
    wpm (GenericDeserialize fuel (Some (Some b)) msg) Q.
Proof.
  iIntros (Hcat Hfuel) "Hb HQ". destruct (law_decode m msg bss Hcat) as [rest Hspec]. destruct (law_size m) as [_ Hlt].
  iApply (wpm_GenericDeserialize fuel b bss msg m true true rest with "Hb HQ"); [by rw Hcat|done|by rw Hcat].
Qed.

(** No buffer. *)
Lemma GenericDeserialize_null fuel msg (s : S) : GenericDeserialize (S := S) fuel None msg s = Done ((Status_error INTERNAL "No payload", None, msg), s).
Proof. done. Qed.
Lemma GenericDeserialize_invalid fuel msg (s : S) :
  GenericDeserialize (S := S) fuel (Some None) msg s = Done ((Status_error INTERNAL "Couldn't initialize byte buffer reader", Some None, msg), s).
Proof. done. Qed.
End triples.
