(* ===== verification/CallOps.v ===== *)
(** * Calls of gRPC: batches of operations ([grpcpp/impl/codegen/call_op_set.h])

    A batch is made of operation objects.  [AddOp] puts what they have to do into the
    array of operations that the C library gets, [FinishOp] takes the results, and
    [SetFinishInterceptionHookPoint] resets them.  An object is a record; a method
    returns the object it leaves.  Each class has its Module; [ServerStream] composes
    them as [CallOpSet] does when the call has no interceptors.

    The C library ([GrpcCall]) starts a batch and waits for it; [CallLaws]: it hands
    on what it was given, in order, and gives the messages that came, in order. *)
From Stdlib Require Import ZArith Lia Strings.Byte Strings.String.
From stdpp Require Import base tactics option list list_numbers strings.
From iris.bi Require Import bi big_op.
From iris.proofmode Require Import proofmode.
From S2P Require Import Prelude Bits HeapLogic GrpcSlice ProtoBufferReader ProtoBufferWriter ProtoUtils.

(** ** Options of a message *)

Module WriteOptions.
Record t := Mk { flags_ : Z; last_message_ : bool }.

Definition GRPC_WRITE_BUFFER_HINT : Z := 0x1.
Definition GRPC_WRITE_NO_COMPRESS : Z := 0x2.
Definition GRPC_WRITE_THROUGH : Z := 0x4.

Definition default : t := Mk 0 false.
Definition copy (other : t) : t := Mk (flags_ other) (last_message_ other).
Definition Clear (o : t) : t := Mk 0 (last_message_ o).
Definition flags (o : t) : Z := flags_ o.
Definition SetBit (mask : Z) (o : t) : t := Mk (Z.lor (flags_ o) mask) (last_message_ o).
Definition ClearBit (mask : Z) (o : t) : t := Mk (Z.land (flags_ o) (u32 (Z.lnot mask))) (last_message_ o).
Definition GetBit (mask : Z) (o : t) : bool := bool_decide (Z.land (flags_ o) mask <> 0).
Definition set_no_compression : t -> t := SetBit GRPC_WRITE_NO_COMPRESS.
Definition clear_no_compression : t -> t := ClearBit GRPC_WRITE_NO_COMPRESS.
Definition get_no_compression : t -> bool := GetBit GRPC_WRITE_NO_COMPRESS.
Definition set_buffer_hint : t -> t := SetBit GRPC_WRITE_BUFFER_HINT.
Definition clear_buffer_hint : t -> t := ClearBit GRPC_WRITE_BUFFER_HINT.
Definition get_buffer_hint : t -> bool := GetBit GRPC_WRITE_BUFFER_HINT.
Definition set_corked : t -> t := SetBit GRPC_WRITE_BUFFER_HINT.
Definition clear_corked : t -> t := ClearBit GRPC_WRITE_BUFFER_HINT.
Definition is_corked : t -> bool := GetBit GRPC_WRITE_BUFFER_HINT.
Definition set_last_message (o : t) : t := Mk (flags_ o) true.
Definition clear_last_message (o : t) : t := Mk (flags_ o) false.
Definition set_write_through : t -> t := SetBit GRPC_WRITE_THROUGH.
Definition is_write_through : t -> bool := GetBit GRPC_WRITE_THROUGH.
Definition is_last_message (o : t) : bool := last_message_ o.
(** [operator=] takes the flags only. *)
Definition assign (this rhs : t) : t := Mk (flags_ rhs) (last_message_ this).
End WriteOptions.

(** ** The C library *)

Abbreviation metadata := (list (string * string)).

Inductive grpc_op :=
| GRPC_OP_SEND_INITIAL_METADATA (flags : Z) (md : metadata) (maybe_compression_level : option Z)
| GRPC_OP_SEND_MESSAGE (flags : Z) (send_message : option Z)
| GRPC_OP_RECV_MESSAGE
| GRPC_OP_SEND_STATUS_FROM_SERVER (trailing_metadata : metadata) (status : StatusCode) (status_details : option string).

(** The objects that wait for a batch. *)
Inductive cq_tag := pending_ops | local_ops.

(** [start_batch] tells whether the result is [GRPC_CALL_OK]; [pluck] whether the
    batch succeeded, and the message it received. *)
Class GrpcCall (S : Type) := {
  gpr_malloc : Z -> stm S Z;
  gpr_free : option Z -> stm S unit;
  grpc_call_ref : stm S unit;
  grpc_call_unref : stm S unit;
  grpc_call_start_batch : cq_tag -> list grpc_op -> stm S bool;
  grpc_completion_queue_pluck : cq_tag -> stm S (bool * option Z);
}.

Definition kBinaryErrorDetailsKey : string := "grpc-status-details-bin".
Definition sizeof_grpc_metadata : Z := 104.

Section calls.
  Context {S M : Type} `{GrpcCore S} `{!GrpcCall S} `{Message M}.

(** The array, and what it holds. *)
Definition FillMetadataArray (md : metadata) (optional_error_details : string) : stm S (option Z * metadata) :=
  let metadata_array :=
    md ++ (if decide (optional_error_details = "") then [] else [(kBinaryErrorDetailsKey, optional_error_details)]) in
  if decide (length metadata_array = 0)%nat then mret (None, [])
  else p ← gpr_malloc (Z.of_nat (length metadata_array) * sizeof_grpc_metadata); mret (Some p, metadata_array).
End calls.

(** ** The operations *)

Module SendInitialMetadata.
Record t := Mk {
  hijacked_ : bool;
  send_ : bool;
  flags_ : Z;
  metadata_map_ : metadata;
  initial_metadata_ : option Z;
  level_ : option Z;
}.
Definition new : t := Mk false false 0 [] None None.

Definition SendInitialMetadata (md : metadata) (flags : Z) (o : t) : t :=
  Mk (hijacked_ o) true flags md (initial_metadata_ o) None.
Definition set_compression_level (level : Z) (o : t) : t :=
  Mk (hijacked_ o) (send_ o) (flags_ o) (metadata_map_ o) (initial_metadata_ o) (Some level).

Section methods.
  Context {S : Type} `{GrpcCall S}.

Definition AddOp (o : t) (ops : list grpc_op) : stm S (t * list grpc_op) :=
  if negb (send_ o) || hijacked_ o then mret (o, ops)
  else
    a ← FillMetadataArray (metadata_map_ o) "";
    mret (Mk (hijacked_ o) (send_ o) (flags_ o) (metadata_map_ o) (fst a) (level_ o),
          ops ++ [GRPC_OP_SEND_INITIAL_METADATA (flags_ o) (snd a) (level_ o)]).
Definition FinishOp (o : t) : stm S t :=
  if negb (send_ o) || hijacked_ o then mret o
  else
    gpr_free (initial_metadata_ o) ;;
    mret (Mk (hijacked_ o) false (flags_ o) (metadata_map_ o) (initial_metadata_ o) (level_ o)).
End methods.
End SendInitialMetadata.

Module SendMessage.
(** [serializer_]: whether the function is set; it serialises into [send_buf_]. *)
Record t (M : Type) := Mk {
  msg_ : option M;
  hijacked_ : bool;
  failed_send_ : bool;
  send_buf_ : ByteBuffer;
  write_options_ : WriteOptions.t;
  serializer_ : bool;
}.
Arguments Mk {M}.
Arguments msg_ {M}.
Arguments hijacked_ {M}.
Arguments failed_send_ {M}.
Arguments send_buf_ {M}.
Arguments write_options_ {M}.
Arguments serializer_ {M}.
Definition new {M} : t M := Mk None false false None WriteOptions.default false.

Section methods.
  Context {S M : Type} `{GrpcCore S} `{Message M}.
  Implicit Types (o : t M) (message : M) (options : WriteOptions.t).

Definition set_msg (message : option M) o : t M :=
  Mk message (hijacked_ o) (failed_send_ o) (send_buf_ o) (write_options_ o) (serializer_ o).
Definition set_buf (buf : ByteBuffer) o : t M :=
  Mk (msg_ o) (hijacked_ o) (failed_send_ o) buf (write_options_ o) (serializer_ o).
Definition set_serializer (b : bool) o : t M :=
  Mk (msg_ o) (hijacked_ o) (failed_send_ o) (send_buf_ o) (write_options_ o) b.
Definition set_options (options : WriteOptions.t) o : t M :=
  Mk (msg_ o) (hijacked_ o) (failed_send_ o) (send_buf_ o) options (serializer_ o).
Definition set_failed o : t M :=
  Mk (msg_ o) (hijacked_ o) true (send_buf_ o) (write_options_ o) (serializer_ o).

(** The function that [SendMessage] stores. *)
Definition serialize o message : stm S (Status * t M) :=
  if serializer_ o then
    buf ← Clear (send_buf_ o);
    x ← Serialize message buf;
    let '(result, buf, own_buf) := x in
    buf ← (if (own_buf : bool) then mret buf else Duplicate buf);
    mret (result, set_buf buf o)
  else st_fault NullDeref.

Definition SendMessage message options o : stm S (Status * t M) :=
  let o := set_serializer true (set_options (WriteOptions.assign (write_options_ o) options) o) in
  match msg_ o with
  | None => x ← serialize o message; mret (fst x, set_serializer false (snd x))
  | Some _ => mret (Status_OK, o)
  end.
Definition SendMessagePtr message options o : stm S (Status * t M) :=
  SendMessage message options (set_msg (Some message) o).

Definition idle o : bool := match msg_ o with None => negb (Valid (send_buf_ o)) | Some _ => false end.

Definition AddOp o (ops : list grpc_op) : stm S (t M * list grpc_op) :=
  if idle o then mret (o, ops)
  else if hijacked_ o then mret (set_serializer false o, ops)
  else
    o ← match msg_ o with
        | Some message => x ← serialize o message; st_lift (dcheck (ok (fst x) = true)) ;; mret (snd x)
        | None => mret o
        end;
    let o := set_serializer false o in
    mret (set_options (WriteOptions.Clear (write_options_ o)) o,
          ops ++ [GRPC_OP_SEND_MESSAGE (WriteOptions.flags (write_options_ o)) (send_buf_ o)]).
Definition FinishOp (status : bool) o : bool * t M :=
  if idle o then (status, o)
  else if hijacked_ o && failed_send_ o then (false, o)
  else if negb status then (status, set_failed o) else (status, o).
Definition SetFinishInterceptionHookPoint o : stm S (t M) :=
  buf ← Clear (send_buf_ o); mret (set_msg None (set_buf buf o)).
End methods.
End SendMessage.

Module RecvMessage.
(** [message_]: the message that is to be filled. *)
Record t (M : Type) := Mk {
  message_ : option M;
  got_message : bool;
  recv_buf_ : ByteBuffer;
  allow_not_getting_message_ : bool;
  hijacked_ : bool;
}.
Arguments Mk {M}.
Arguments message_ {M}.
Arguments got_message {M}.
Arguments recv_buf_ {M}.
Arguments allow_not_getting_message_ {M}.
Arguments hijacked_ {M}.
Definition new {M} : t M := Mk None false None false false.

Section methods.
  Context {S M : Type} `{GrpcCore S} `{Message M}.
  Implicit Types (o : t M) (message : M).

Definition RecvMessage message o : t M :=
  Mk (Some message) (got_message o) (recv_buf_ o) (allow_not_getting_message_ o) (hijacked_ o).
Definition AllowNoMessage o : t M := Mk (message_ o) (got_message o) (recv_buf_ o) true (hijacked_ o).

Definition AddOp o (ops : list grpc_op) : t M * list grpc_op :=
  match message_ o with
  | Some _ => if hijacked_ o then (o, ops) else (o, ops ++ [GRPC_OP_RECV_MESSAGE])
  | None => (o, ops)
  end.
(** The library stores the buffer. *)
Definition set_recv_buf (buf : ByteBuffer) o : t M :=
  Mk (message_ o) (got_message o) buf (allow_not_getting_message_ o) (hijacked_ o).

(** The status, the object, and the message. *)
Definition FinishOp (fuel : nat) (status : bool) o : stm S (bool * t M * option M) :=
  match message_ o with
  | None => mret (status, o, None)
  | Some message =>
      if hijacked_ o then mret (status, o, Some message)
      else if Valid (recv_buf_ o) then
        if status then
          x ← Deserialize fuel (Some (recv_buf_ o)) message;
          let '(result, buf, m) := x in
          mret (ok result, Mk None (ok result) (Release (default None buf)) (allow_not_getting_message_ o) (hijacked_ o), Some m)
        else
          buf ← Clear (recv_buf_ o);
          mret (status, Mk None false buf (allow_not_getting_message_ o) (hijacked_ o), Some message)
      else
        mret (if allow_not_getting_message_ o then status else false,
              Mk None false (recv_buf_ o) (allow_not_getting_message_ o) (hijacked_ o), Some message)
  end.
End methods.
End RecvMessage.

Module ServerSendStatus.
Record t := Mk {
  hijacked_ : bool;
  send_status_available_ : bool;
  send_status_code_ : StatusCode;
  send_error_details_ : string;
  send_error_message_ : string;
  metadata_map_ : metadata;
  trailing_metadata_ : option Z;
}.
Definition new : t := Mk false false OK "" "" [] None.

Definition ServerSendStatus (trailing_metadata : metadata) (status : Status) (o : t) : t :=
  Mk (hijacked_ o) true (code_ status) (binary_error_details_ status) (error_message_ status) trailing_metadata (trailing_metadata_ o).

Section methods.
  Context {S : Type} `{GrpcCall S}.

Definition AddOp (o : t) (ops : list grpc_op) : stm S (t * list grpc_op) :=
  if negb (send_status_available_ o) || hijacked_ o then mret (o, ops)
  else
    a ← FillMetadataArray (metadata_map_ o) (send_error_details_ o);
    mret (Mk (hijacked_ o) (send_status_available_ o) (send_status_code_ o) (send_error_details_ o) (send_error_message_ o) (metadata_map_ o) (fst a),
          ops ++ [GRPC_OP_SEND_STATUS_FROM_SERVER (snd a) (send_status_code_ o)
                    (if decide (send_error_message_ o = "") then None else Some (send_error_message_ o))]).
Definition FinishOp (o : t) : stm S t :=
  if negb (send_status_available_ o) || hijacked_ o then mret o
  else
    gpr_free (trailing_metadata_ o) ;;
    mret (Mk (hijacked_ o) false (send_status_code_ o) (send_error_details_ o) (send_error_message_ o) (metadata_map_ o) (trailing_metadata_ o)).
End methods.
End ServerSendStatus.

(** ** What the library promises *)

(** What is handed to the library for the other side. *)
Inductive wire_event :=
| EInitial (flags : Z) (md : metadata) (level : option Z)
| EMessage (flags : Z) (bs : list byte)
| EStatus (trailing : metadata) (code : StatusCode) (details : option string).

(** The events of the operations, when the message of the batch is [bs]. *)
Definition op_event (bs : list byte) (op : grpc_op) : list wire_event :=
  match op with
  | GRPC_OP_SEND_INITIAL_METADATA flags md level => [EInitial flags md level]
  | GRPC_OP_SEND_MESSAGE flags _ => [EMessage flags bs]
  | GRPC_OP_RECV_MESSAGE => []
  | GRPC_OP_SEND_STATUS_FROM_SERVER trailing code details => [EStatus trailing code details]
  end.
(** A batch that only sends, and no other message than [buf]. *)
Definition sends (buf : ByteBuffer) (op : grpc_op) : bool :=
  match op with
  | GRPC_OP_RECV_MESSAGE => false
  | GRPC_OP_SEND_MESSAGE _ b => bool_decide (b = buf /\ buf <> None)
  | _ => true
  end.

(** [call_own inq outq]: the messages that have come, as the chunks of their buffers,
    and the events so far.  A batch in flight keeps the buffer that it sends; when it is
    done, the buffer holds what the library left in it.  A batch may fail.  An object
    waits for one batch at a time ([idle]). *)
Class CallLaws (S : Type) `{CoreLaws S} `{!GrpcCall S} := {
  block : Z -> hpropI S;
  call_ref : hpropI S;
  call_own : list (list (list byte)) -> list wire_event -> hpropI S;
  idle : cq_tag -> hpropI S;
  in_flight : cq_tag -> ByteBuffer -> hpropI S;
  receiving : cq_tag -> hpropI S;

  malloc_block n (Q : Z -> hpropI S) : (∀ p, block p -∗ Q p) ⊢ wpm (gpr_malloc n) Q;
  free_block p (Q : unit -> hpropI S) : ⊢ block p -∗ (emp -∗ Q tt) -∗ wpm (gpr_free (Some p)) Q;
  free_null (Q : unit -> hpropI S) : Q tt ⊢ wpm (gpr_free None) Q;
  call_ref_law (Q : unit -> hpropI S) : (call_ref -∗ Q tt) ⊢ wpm grpc_call_ref Q;
  call_unref_law (Q : unit -> hpropI S) : ⊢ call_ref -∗ (emp -∗ Q tt) -∗ wpm grpc_call_unref Q;

  start_send_law tag ops buf bss inq outq (Q : bool -> hpropI S) :
    forallb (sends buf) ops = true ->
    ⊢ idle tag -∗ call_own inq outq -∗ buffer_chunks buf bss -∗
      (call_own inq (outq ++ concat (op_event (concat bss) <$> ops)) -∗ in_flight tag buf -∗ Q true) -∗
      wpm (grpc_call_start_batch tag ops) Q;
  pluck_send_law tag buf (Q : bool * option Z -> hpropI S) :
    ⊢ in_flight tag buf -∗ (∀ r bss, idle tag -∗ buffer_chunks buf bss -∗ Q (r, None)) -∗ wpm (grpc_completion_queue_pluck tag) Q;
  start_recv_law tag inq outq (Q : bool -> hpropI S) :
    ⊢ idle tag -∗ call_own inq outq -∗ (call_own inq outq -∗ receiving tag -∗ Q true) -∗
      wpm (grpc_call_start_batch tag [GRPC_OP_RECV_MESSAGE]) Q;
  (** The end of the stream is told when there is no message. *)
  pluck_recv_law tag inq outq (Q : bool * option Z -> hpropI S) :
    ⊢ call_own inq outq -∗ receiving tag -∗
      (∀ r x inq', ⟨match x with
                     | None => inq' = inq /\ (r = true -> inq = [])
                     | Some (_, bss) => inq = bss :: inq'
                     end⟩ -∗
         idle tag -∗ call_own inq' outq -∗ (if x is Some (b, bss) then buffer_chunks (Some b) bss else emp) -∗ Q (r, fst <$> x)) -∗
      wpm (grpc_completion_queue_pluck tag) Q;
}.

(** ** What each operation does *)

Section triples.
  Context {S M : Type} `{CallLaws S} `{!Message M} `{!MessageLaws M}.
  Implicit Types (md : metadata) (ops : list grpc_op) (msg : M) (bss : list (list byte)).

(** The pointer to an array of metadata. *)
Definition array_own (p : option Z) : hpropI S := match p with Some p => block p | None => emp end%I.

Lemma wpm_gpr_free p (Q : unit -> hpropI S) : ⊢ array_own p -∗ Q tt -∗ wpm (gpr_free p) Q.
Proof.
  iIntros "Hp HQ". destruct p as [p|].
  - iApply (free_block with "Hp"). by iIntros "_".
  - iDestruct "Hp" as "_". by iApply free_null.
Qed.

Definition metadata_array md (details : string) : metadata :=
  md ++ (if decide (details = "") then [] else [(kBinaryErrorDetailsKey, details)]).
Lemma metadata_array_nil md : metadata_array md "" = md.
Proof. apply app_nil_r. Qed.
Lemma wpm_FillMetadataArray md details (Q : option Z * metadata -> hpropI S) :
  (∀ p, array_own p -∗ Q (p, metadata_array md details)) ⊢ wpm (FillMetadataArray md details) Q.
Proof.
  iIntros "HQ". unfold FillMetadataArray. fold (metadata_array md details). case_decide as Hl.
  - iApply wpm_ret. apply nil_length_inv in Hl. rw Hl. by iApply ("HQ" $! None).
  - wbind. iApply malloc_block. iIntros (p) "Hp". iApply wpm_ret. by iApply ("HQ" $! (Some p)).
Qed.

(** [AddOp] of the initial metadata, and [FinishOp] of the object it leaves. *)
Lemma wpm_metadata_AddOp (o : SendInitialMetadata.t) ops (Q : SendInitialMetadata.t * list grpc_op -> hpropI S) :
  SendInitialMetadata.hijacked_ o = false ->
  (∀ o', array_own (if SendInitialMetadata.send_ o then SendInitialMetadata.initial_metadata_ o' else None) -∗
     ⟨SendInitialMetadata.hijacked_ o' = false /\ SendInitialMetadata.send_ o' = SendInitialMetadata.send_ o⟩ -∗
     Q (o', ops ++ (if SendInitialMetadata.send_ o
                    then [GRPC_OP_SEND_INITIAL_METADATA (SendInitialMetadata.flags_ o) (SendInitialMetadata.metadata_map_ o) (SendInitialMetadata.level_ o)]
                    else [])))
  ⊢ wpm (SendInitialMetadata.AddOp o ops) Q.
Proof.
  iIntros (Hh) "HQ". unfold SendInitialMetadata.AddOp. rw Hh. destruct (SendInitialMetadata.send_ o) eqn:E; cbn [negb orb].
  - wbind. iApply wpm_FillMetadataArray. iIntros (p) "Hp". iApply wpm_ret. cbn [fst snd]. rw metadata_array_nil.
    iApply ("HQ" with "[Hp]"); [done|]. by iPureIntro.
  - iApply wpm_ret. rw app_nil_r. iApply "HQ"; [done|]. by iPureIntro.
Qed.
Lemma wpm_metadata_FinishOp (o : SendInitialMetadata.t) (Q : SendInitialMetadata.t -> hpropI S) :
  SendInitialMetadata.hijacked_ o = false ->
  ⊢ array_own (if SendInitialMetadata.send_ o then SendInitialMetadata.initial_metadata_ o else None) -∗
    (∀ o', ⟨SendInitialMetadata.hijacked_ o' = false /\ SendInitialMetadata.send_ o' = false⟩ -∗ Q o') -∗
    wpm (SendInitialMetadata.FinishOp o) Q.
Proof.
  iIntros (Hh) "Hp HQ". unfold SendInitialMetadata.FinishOp. rw Hh. destruct (SendInitialMetadata.send_ o) eqn:E; cbn [negb orb].
  - wbind. iApply (wpm_gpr_free with "Hp"). iApply wpm_ret. by iApply "HQ".
  - iDestruct "Hp" as "_". iApply wpm_ret. by iApply "HQ".
Qed.

Lemma wpm_status_AddOp st ops (Q : ServerSendStatus.t * list grpc_op -> hpropI S) trailing :
  (∀ o', array_own (ServerSendStatus.trailing_metadata_ o') -∗
     ⟨ServerSendStatus.hijacked_ o' = false /\ ServerSendStatus.send_status_available_ o' = true⟩ -∗
     Q (o', ops ++ [GRPC_OP_SEND_STATUS_FROM_SERVER (metadata_array trailing (binary_error_details_ st)) (code_ st)
                      (if decide (error_message_ st = "") then None else Some (error_message_ st))]))
  ⊢ wpm (ServerSendStatus.AddOp (ServerSendStatus.ServerSendStatus trailing st ServerSendStatus.new) ops) Q.
Proof.
  iIntros "HQ". unfold ServerSendStatus.AddOp. cbn [ServerSendStatus.hijacked_ ServerSendStatus.send_status_available_ negb orb ServerSendStatus.ServerSendStatus ServerSendStatus.new].
  wbind. iApply wpm_FillMetadataArray. iIntros (p) "Hp". iApply wpm_ret. cbn [fst snd]. iApply ("HQ" with "[Hp]"); [done|]. by iPureIntro.
Qed.
Lemma wpm_status_FinishOp (o : ServerSendStatus.t) (Q : ServerSendStatus.t -> hpropI S) :
  ServerSendStatus.hijacked_ o = false -> ServerSendStatus.send_status_available_ o = true ->
  ⊢ array_own (ServerSendStatus.trailing_metadata_ o) -∗ (∀ o', Q o') -∗ wpm (ServerSendStatus.FinishOp o) Q.
Proof.
  iIntros (Hh Ha) "Hp HQ". unfold ServerSendStatus.FinishOp. rw Hh Ha. cbn [negb orb].
  wbind. iApply (wpm_gpr_free with "Hp"). iApply wpm_ret. by iApply "HQ".
Qed.

(** A message object between two writes. *)
Definition message_idle (o : SendMessage.t M) : Prop :=
  SendMessage.msg_ o = None /\ SendMessage.hijacked_ o = false /\ SendMessage.send_buf_ o = None.

(** The message is serialised when the batch is filled, and the buffer cleared when it
    is done. *)
Definition with_message (o : SendMessage.t M) msg (options : WriteOptions.t) : SendMessage.t M :=
  SendMessage.Mk (Some msg) (SendMessage.hijacked_ o) (SendMessage.failed_send_ o) (SendMessage.send_buf_ o)
    (WriteOptions.assign (SendMessage.write_options_ o) options) true.

Lemma SendMessagePtr_defers o msg options s :
  SendMessage.SendMessagePtr (S := S) msg options o s = Done ((Status_OK, with_message o msg options), s).
Proof. done. Qed.

Lemma wpm_message_AddOp o msg options ops (Q : SendMessage.t M * list grpc_op -> hpropI S) :
  message_idle o -> fits msg ->
  ⊢ (∀ o' b bss, ⟨concat bss = encode msg /\ SendMessage.send_buf_ o' = Some b /\ SendMessage.hijacked_ o' = false /\ SendMessage.msg_ o' = Some msg⟩ -∗
       buffer_chunks (Some b) bss -∗
       Q (o', ops ++ [GRPC_OP_SEND_MESSAGE (WriteOptions.flags options) (Some b)])) -∗
    wpm (SendMessage.AddOp (with_message o msg options) ops) Q.
Proof.
  iIntros ((Hm & Hh & Hb) Hfits) "HQ". unfold SendMessage.AddOp, with_message. cbn -[SendMessage.serialize].
  rw Hh Hb. wbind. wbind. unfold SendMessage.serialize. cbn [SendMessage.serializer_ SendMessage.send_buf_ Clear].
  wbind. iApply wpm_ret. wbind. iApply (wpm_GenericSerialize msg None [] with "[]"); [exact Hfits|done|by iPureIntro|].
  iIntros (b bss [Hcat _]) "Hbuf". wbind. iApply wpm_ret. iApply wpm_ret. wbind.
  iApply wpm_dcheck; [done|]. iApply wpm_ret. iApply wpm_ret. cbn. iApply ("HQ" with "[] Hbuf"). iPureIntro. done.
Qed.

Lemma wpm_message_done (o : SendMessage.t M) b bss (Q : SendMessage.t M -> hpropI S) :
  SendMessage.send_buf_ o = Some b -> SendMessage.hijacked_ o = false ->
  ⊢ buffer_chunks (Some b) bss -∗ (∀ o', ⟨message_idle o'⟩ -∗ Q o') -∗ wpm (SendMessage.SetFinishInterceptionHookPoint o) Q.
Proof.
  iIntros (Hb Hh) "Hbuf HQ". unfold SendMessage.SetFinishInterceptionHookPoint. rw Hb. wbind.
  iApply (wpm_buffer_Clear with "Hbuf"). iIntros "_". iApply wpm_ret. by iApply "HQ".
Qed.
End triples.
