(* ===== verification/ServerStream.v ===== *)
(** * Streaming calls on the server ([sync_stream.h], [method_handler_impl.h])

    [ServerReaderWriterBody] reads and writes the messages of a call, each as a batch
    of its own; the state of the call is in the [ServerContext].
    [TemplatedBidiStreamingHandler::RunHandler] runs the method of the service on the
    stream, and then sends the status.  The method is a tree of reads, writes and
    [SendInitialMetadata] ([handler]); the one of the proxy reads and writes. *)
From Stdlib Require Import ZArith Lia Strings.Byte Strings.String.
From stdpp Require Import base tactics option list list_numbers strings.
From iris.bi Require Import bi big_op.
From iris.proofmode Require Import proofmode.
From S2P Require Import Prelude Bits HeapLogic GrpcSlice ProtoBufferReader ProtoBufferWriter ProtoUtils CallOps.

(** The fields of [ServerContext] that the streams use. *)
Record ServerContext (M : Type) := Ctx {
  sent_initial_metadata_ : bool;
  initial_metadata_ : metadata;
  trailing_metadata_ : metadata;
  compression_level_ : option Z;
  pending_metadata : SendInitialMetadata.t;
  pending_message : SendMessage.t M;
  has_pending_ops_ : bool;
}.
Arguments Ctx {M}.
Arguments sent_initial_metadata_ {M}.
Arguments initial_metadata_ {M}.
Arguments trailing_metadata_ {M}.
Arguments compression_level_ {M}.
Arguments pending_metadata {M}.
Arguments pending_message {M}.
Arguments has_pending_ops_ {M}.

Section streams.
  Context {S W R : Type} `{GrpcCore S} `{!GrpcCall S} `{Message W} `{Message R}.
  Implicit Types (ctx : ServerContext W) (msg : W) (options : WriteOptions.t).

Definition set_pending (md : SendInitialMetadata.t) (m : SendMessage.t W) ctx : ServerContext W :=
  Ctx (sent_initial_metadata_ ctx) (initial_metadata_ ctx) (trailing_metadata_ ctx) (compression_level_ ctx) md m (has_pending_ops_ ctx).
Definition set_sent ctx : ServerContext W :=
  Ctx true (initial_metadata_ ctx) (trailing_metadata_ ctx) (compression_level_ ctx) (pending_metadata ctx) (pending_message ctx) (has_pending_ops_ ctx).
Definition set_has_pending (b : bool) ctx : ServerContext W :=
  Ctx (sent_initial_metadata_ ctx) (initial_metadata_ ctx) (trailing_metadata_ ctx) (compression_level_ ctx) (pending_metadata ctx) (pending_message ctx) b.
Definition initial_metadata_flags ctx : Z := 0.

(** [ContinueFillOpsAfterInterception]. *)
Definition start (tag : cq_tag) (ops : list grpc_op) : stm S unit :=
  r ← grpc_call_start_batch tag ops; st_lift (dcheck (r = true)).

(** ** [CallOpSet<CallOpSendInitialMetadata, CallOpSendMessage>]: [pending_ops_] *)

Definition FillOps_pending ctx : stm S (ServerContext W) :=
  grpc_call_ref ;;
  x ← SendInitialMetadata.AddOp (pending_metadata ctx) [];
  y ← SendMessage.AddOp (pending_message ctx) (snd x);
  start pending_ops (snd y) ;;
  mret (set_pending (fst x) (fst y) ctx).

Definition FinalizeResult_pending (status : bool) ctx : stm S (bool * ServerContext W) :=
  md ← SendInitialMetadata.FinishOp (pending_metadata ctx);
  let y := SendMessage.FinishOp status (pending_message ctx) in
  m ← SendMessage.SetFinishInterceptionHookPoint (snd y);
  grpc_call_unref ;;
  mret (fst y, set_pending md m ctx).

Definition Pluck_pending ctx : stm S (bool * ServerContext W) :=
  ev ← grpc_completion_queue_pluck pending_ops;
  FinalizeResult_pending (fst ev) ctx.

(** ** The stream *)

Definition prepare_metadata ctx (md : SendInitialMetadata.t) : SendInitialMetadata.t :=
  let md := SendInitialMetadata.SendInitialMetadata (initial_metadata_ ctx) (initial_metadata_flags ctx) md in
  match compression_level_ ctx with Some l => SendInitialMetadata.set_compression_level l md | None => md end.

Definition SendInitialMetadata ctx : stm S (ServerContext W) :=
  st_lift (dcheck (sent_initial_metadata_ ctx = false)) ;;
  grpc_call_ref ;;
  x ← SendInitialMetadata.AddOp (prepare_metadata ctx SendInitialMetadata.new) [];
  start local_ops (snd x) ;;
  ev ← grpc_completion_queue_pluck local_ops;
  SendInitialMetadata.FinishOp (fst x) ;; grpc_call_unref ;;
  mret (set_sent ctx).

(** [CallOpSet<CallOpRecvMessage<R>>]: the result, and the message. *)
Definition Read (fuel : nat) (msg : R) : stm S (bool * option R) :=
  let o := RecvMessage.RecvMessage msg RecvMessage.new in
  grpc_call_ref ;;
  let x := RecvMessage.AddOp o [] in
  start local_ops (snd x) ;;
  ev ← grpc_completion_queue_pluck local_ops;
  y ← RecvMessage.FinishOp fuel (fst ev) (RecvMessage.set_recv_buf (snd ev) (fst x));
  let '(status, o, m) := y in
  grpc_call_unref ;;
  ByteBuffer_destruct (RecvMessage.recv_buf_ o) ;;
  mret (status && RecvMessage.got_message o, m).

Definition Write msg options ctx : stm S (bool * ServerContext W) :=
  let options := if WriteOptions.is_last_message options then WriteOptions.set_buffer_hint options else options in
  x ← SendMessage.SendMessagePtr msg options (pending_message ctx);
  let ctx := set_pending (pending_metadata ctx) (snd x) ctx in
  if negb (ok (fst x)) then mret (false, ctx)
  else
    let ctx :=
      if sent_initial_metadata_ ctx then ctx
      else set_sent (set_pending (prepare_metadata ctx (pending_metadata ctx)) (pending_message ctx) ctx) in
    ctx ← FillOps_pending ctx;
    if WriteOptions.is_last_message options then mret (true, set_has_pending true ctx)
    else Pluck_pending (set_has_pending false ctx).

Definition WriteLast msg options ctx : stm S (bool * ServerContext W) := Write msg (WriteOptions.set_last_message options) ctx.

(** ** The method handler *)

Inductive handler :=
| HReturn (status : Status)
| HRead (msg : R) (k : bool -> option R -> handler)
| HWrite (msg : W) (options : WriteOptions.t) (k : bool -> handler)
| HSendInitialMetadata (k : handler).

(** The method may not throw. *)
Fixpoint run_method (fuel : nat) (h : handler) ctx : stm S (Status * ServerContext W) :=
  match h with
  | HReturn status => mret (status, ctx)
  | HRead msg k => x ← Read fuel msg; run_method fuel (k (fst x) (snd x)) ctx
  | HWrite msg options k => x ← Write msg options ctx; run_method fuel (k (fst x)) (snd x)
  | HSendInitialMetadata k => ctx ← SendInitialMetadata ctx; run_method fuel k ctx
  end.

(** The two operations at the end: initial metadata when none was sent, and the status. *)
Definition final_ops (WriteNeeded : bool) (status : Status) ctx : SendInitialMetadata.t * Status :=
  if sent_initial_metadata_ ctx then (SendInitialMetadata.new, status)
  else (prepare_metadata ctx SendInitialMetadata.new,
        if WriteNeeded && ok status then Status_error INTERNAL "Service did not provide response message" else status).

Definition RunHandler (WriteNeeded : bool) (fuel : nat) (func : handler) ctx : stm S (ServerContext W) :=
  x ← run_method fuel func ctx;
  let ctx := snd x in
  let f := final_ops WriteNeeded (fst x) ctx in
  grpc_call_ref ;;
  a ← SendInitialMetadata.AddOp (fst f) [];
  b ← ServerSendStatus.AddOp (ServerSendStatus.ServerSendStatus (trailing_metadata_ ctx) (snd f) ServerSendStatus.new) (snd a);
  start local_ops (snd b) ;;
  y ← (if has_pending_ops_ ctx then Pluck_pending ctx else mret (true, ctx));
  ev ← grpc_completion_queue_pluck local_ops;
  SendInitialMetadata.FinishOp (fst a) ;; ServerSendStatus.FinishOp (fst b) ;;
  grpc_call_unref ;;
  mret (snd y).

(** ** [ErrorMethodHandler]: the handler of an unknown method *)

Definition FillOps_error (code : StatusCode) ctx : SendInitialMetadata.t * ServerSendStatus.t * ServerContext W :=
  let o := ServerSendStatus.ServerSendStatus (trailing_metadata_ ctx) (Status_error code "") ServerSendStatus.new in
  if sent_initial_metadata_ ctx then (SendInitialMetadata.new, o, ctx)
  else (prepare_metadata ctx SendInitialMetadata.new, o, set_sent ctx).

Definition RunHandler_error (code : StatusCode) ctx : stm S (ServerContext W) :=
  let '(md, o, ctx) := FillOps_error code ctx in
  grpc_call_ref ;;
  a ← SendInitialMetadata.AddOp md [];
  b ← ServerSendStatus.AddOp o (snd a);
  start local_ops (snd b) ;;
  ev ← grpc_completion_queue_pluck local_ops;
  SendInitialMetadata.FinishOp (fst a) ;; ServerSendStatus.FinishOp (fst b) ;;
  grpc_call_unref ;;
  mret ctx.

(** The payload of the request; no message comes of it. *)
Definition Deserialize_error (req : option Z) : stm S unit :=
  match req with Some b => grpc_byte_buffer_destroy b | None => mret tt end.
End streams.
Arguments handler : clear implicits.
Arguments HReturn {W R}.
Arguments HRead {W R}.
Arguments HWrite {W R}.
Arguments HSendInitialMetadata {W R}.

(** ** What the stream does *)

Section triples.
  Context {S W R : Type} `{CallLaws S} `{!Message W} `{!MessageLaws W} `{!Message R} `{!MessageLaws R}.
  Implicit Types (ctx : ServerContext W) (msg : W) (options : WriteOptions.t) (bss : list (list byte)).
  Implicit Types (inq : list (list (list byte))) (outq : list wire_event) (ops : list grpc_op).

Lemma wpm_start tag ops buf bss inq outq (Q : unit -> hpropI S) :
  forallb (sends buf) ops = true ->
  ⊢ idle tag -∗ call_own inq outq -∗ buffer_chunks buf bss -∗
    (call_own inq (outq ++ concat (op_event (concat bss) <$> ops)) -∗ in_flight tag buf -∗ Q tt) -∗ wpm (start tag ops) Q.
Proof.
  iIntros (Hops) "Hi Hc Hb HQ". unfold start. wbind. iApply (start_send_law with "Hi Hc Hb"); [done|]. iIntros "Hc Hf".
  iApply wpm_dcheck; [done|]. iApply ("HQ" with "Hc Hf").
Qed.

(** Nothing is pending, or a batch is. *)
Definition metadata_idle (o : SendInitialMetadata.t) : Prop :=
  SendInitialMetadata.hijacked_ o = false /\ SendInitialMetadata.send_ o = false.
Definition ctx_idle ctx : Prop := metadata_idle (pending_metadata ctx) /\ message_idle (pending_message ctx).
Definition pending_own ctx : hpropI S :=
  (∃ b, ⟨SendMessage.send_buf_ (pending_message ctx) = Some b /\ SendMessage.hijacked_ (pending_message ctx) = false /\
         SendInitialMetadata.hijacked_ (pending_metadata ctx) = false⟩ ∗
     array_own (if SendInitialMetadata.send_ (pending_metadata ctx) then SendInitialMetadata.initial_metadata_ (pending_metadata ctx) else None) ∗
     in_flight pending_ops (Some b) ∗ call_ref)%I.

(** The fields that do not change. *)
Definition same_call ctx ctx' : Prop :=
  initial_metadata_ ctx' = initial_metadata_ ctx /\ trailing_metadata_ ctx' = trailing_metadata_ ctx /\
  compression_level_ ctx' = compression_level_ ctx.

Definition initial_event ctx : wire_event := EInitial 0 (initial_metadata_ ctx) (compression_level_ ctx).
Definition first_events ctx : list wire_event := if sent_initial_metadata_ ctx then [] else [initial_event ctx].
Definition write_flags options : Z :=
  WriteOptions.flags (if WriteOptions.is_last_message options then WriteOptions.set_buffer_hint options else options).

Lemma wpm_Pluck_pending ctx (Q : bool * ServerContext W -> hpropI S) :
  ⊢ pending_own ctx -∗
    (∀ r ctx', ⟨ctx_idle ctx' /\ same_call ctx ctx' /\ sent_initial_metadata_ ctx' = sent_initial_metadata_ ctx /\
                has_pending_ops_ ctx' = has_pending_ops_ ctx⟩ -∗ idle pending_ops -∗ Q (r, ctx')) -∗
    wpm (Pluck_pending ctx) Q.
Proof.
  iIntros "(%b & %Hp & Ha & Hf & Hr) HQ". destruct Hp as (Hb & Hh & Hmh). unfold Pluck_pending. wbind.
  iApply (pluck_send_law with "Hf"). iIntros (r bss) "Hi Hbuf". cbn [fst]. unfold FinalizeResult_pending. wbind.
  iApply (wpm_metadata_FinishOp with "Ha"); [done|]. iIntros (md Hmd). wbind.
  assert (Hy : SendMessage.send_buf_ (snd (SendMessage.FinishOp r (pending_message ctx))) = Some b /\
    SendMessage.hijacked_ (snd (SendMessage.FinishOp r (pending_message ctx))) = false).
  { unfold SendMessage.FinishOp. destruct (SendMessage.idle (pending_message ctx)); [done|]. rw Hh. by destruct r. }
  destruct Hy as [Hyb Hyh]. iApply (wpm_message_done with "Hbuf"); [done|done|]. iIntros (m Hm).
  wbind. iApply (call_unref_law with "Hr"). iIntros "_". iApply wpm_ret. by iApply ("HQ" with "[] Hi").
Qed.

(** The object with the message, and the metadata when they were not sent. *)
Lemma wpm_FillOps_pending ctx (o : SendMessage.t W) msg options inq outq (Q : ServerContext W -> hpropI S) :
  message_idle o -> SendInitialMetadata.hijacked_ (pending_metadata ctx) = false ->
  pending_message ctx = with_message o msg options -> fits msg ->
  ⊢ idle pending_ops -∗ call_own inq outq -∗
    (∀ ctx', ⟨same_call ctx ctx' /\ sent_initial_metadata_ ctx' = sent_initial_metadata_ ctx⟩ -∗ pending_own ctx' -∗
       call_own inq (outq ++ (if SendInitialMetadata.send_ (pending_metadata ctx)
                              then [EInitial (SendInitialMetadata.flags_ (pending_metadata ctx)) (SendInitialMetadata.metadata_map_ (pending_metadata ctx))
                                      (SendInitialMetadata.level_ (pending_metadata ctx))]
                              else []) ++ [EMessage (WriteOptions.flags options) (encode msg)]) -∗
       Q ctx') -∗
    wpm (FillOps_pending ctx) Q.
Proof.
  iIntros (Ho Hmh Hm Hfits) "Hi Hc HQ". unfold FillOps_pending. wbind. iApply call_ref_law. iIntros "Hr". wbind.
  iApply wpm_metadata_AddOp; [done|]. iIntros (md) "Ha [%Hh %Hs]". cbn [fst snd app]. wbind. rw Hm.
  iApply wpm_message_AddOp; [done|exact Hfits|]. iIntros (m b bss (Hcat & Hb & Hmsg & _)) "Hbuf". cbn [fst snd].
  wbind. iApply (wpm_start _ _ (Some b) with "Hi Hc Hbuf").
  { destruct (SendInitialMetadata.send_ (pending_metadata ctx)); cbn; by rw bool_decide_true. }
  iIntros "Hc Hf". iApply wpm_ret. iApply ("HQ" with "[] [Ha Hf Hr]").
  - by iPureIntro.
  - iExists b. cbn [pending_metadata pending_message set_pending]. rw Hs. by iFrame.
  - rw Hcat. by destruct (SendInitialMetadata.send_ (pending_metadata ctx)).
Qed.

(** What one [Write] hands to the library. *)
Definition write_events ctx options msg : list wire_event :=
  first_events ctx ++ [EMessage (write_flags options) (encode msg)].

Lemma wpm_Write ctx msg options inq outq (Q : bool * ServerContext W -> hpropI S) :
  ctx_idle ctx -> fits msg ->
  ⊢ idle pending_ops -∗ call_own inq outq -∗
    (∀ r ctx', ⟨same_call ctx ctx' /\ sent_initial_metadata_ ctx' = true /\
                has_pending_ops_ ctx' = WriteOptions.is_last_message options /\ (WriteOptions.is_last_message options = false -> ctx_idle ctx')⟩ -∗
       call_own inq (outq ++ write_events ctx options msg) -∗
       (if WriteOptions.is_last_message options then pending_own ctx' else idle pending_ops) -∗ Q (r, ctx')) -∗
    wpm (Write msg options ctx) Q.
Proof.
  iIntros ([[Hmh Hms] Hm] Hfits) "Hi Hc HQ". unfold Write. set (opts := if WriteOptions.is_last_message options then _ else options).
  assert (Hlast : WriteOptions.is_last_message opts = WriteOptions.is_last_message options).
  { unfold opts. by destruct options as [fl []]. }
  change (SendMessage.SendMessagePtr msg opts (pending_message ctx)) with
    (mret (Status_OK, with_message (pending_message ctx) msg opts) : stm S _).
  wbind. iApply wpm_ret. cbn [fst snd]. change (negb (ok Status_OK)) with false. cbn iota. wbind.
  set (ctx1 := if sent_initial_metadata_ _ then _ else _).
  assert (Hctx1 : SendInitialMetadata.hijacked_ (pending_metadata ctx1) = false /\ same_call ctx ctx1 /\ sent_initial_metadata_ ctx1 = true /\
    pending_message ctx1 = with_message (pending_message ctx) msg opts /\
    (if SendInitialMetadata.send_ (pending_metadata ctx1)
     then [EInitial (SendInitialMetadata.flags_ (pending_metadata ctx1)) (SendInitialMetadata.metadata_map_ (pending_metadata ctx1))
             (SendInitialMetadata.level_ (pending_metadata ctx1))] else []) = first_events ctx).
  { unfold ctx1, first_events. cbn [sent_initial_metadata_ set_pending]. destruct (sent_initial_metadata_ ctx) eqn:E.
    - cbn. by rw E Hms.
    - unfold prepare_metadata, initial_event. cbn. by destruct (compression_level_ ctx). }
  destruct Hctx1 as (Hh1 & Hsame & Hsent & Hmsg & Hev). clearbody ctx1.
  iApply (wpm_FillOps_pending with "Hi Hc"); [exact Hm|exact Hh1|exact Hmsg|exact Hfits|]. iIntros (ctx2 [Hsame2 Hsent2]) "Hp Hc". rw Hev.
  rw Hlast. unfold write_events, write_flags. fold opts. destruct (WriteOptions.is_last_message options).
  - iApply wpm_ret. iApply ("HQ" with "[] Hc [Hp]"); [|done]. iPureIntro. unfold same_call in *. cbn. intuition congruence.
  - iApply (wpm_Pluck_pending with "[Hp]"); [done|]. iIntros (r ctx3 (Hidle & Hsame3 & Hsent3 & Hpend)) "Hi".
    iApply ("HQ" with "[] Hc Hi"). iPureIntro. cbn in *. unfold same_call in *. cbn in *. intuition congruence.
Qed.

(** Received messages, in fewer chunks than the fuel: the encoding of a message, or bytes
    that the parser does not accept. *)
Definition received (fuel : nat) inq (ms : list (option R)) : Prop :=
  Forall2 (fun bss m => (length bss < fuel)%nat /\
    match m with
    | Some m => concat bss = encode m
    | None => Z.of_nat (length (concat bss)) < 2 ^ 31 /\
        forall m0, exists m parsed consumed rest,
          ispec (length (concat bss)) (decode m0) bss None = Some ((m, parsed, consumed), rest) /\ parsed && consumed = false
    end) inq ms.

(** Buffers that were received, and that nothing points to. *)
Definition leaked (lost : list (list (list byte))) : hpropI S := ([∗ list] bss ∈ lost, ∃ b, buffer_chunks (Some b) bss)%I.
(** Only a library that cannot make every reader loses some. *)
Definition taken inq inq' lost : Prop :=
  (exists l, inq = l ++ inq' /\ lost `sublist_of` l) /\ (reader_inits -> lost = []).

Lemma taken_refl inq : taken inq inq [].
Proof. split; [|done]. by exists []. Qed.
Lemma taken_none bss inq : taken (bss :: inq) inq [].
Proof. split; [|done]. exists [bss]. split; [done|]. apply sublist_nil_l. Qed.
Lemma taken_trans inq1 inq2 inq3 lost1 lost2 : taken inq1 inq2 lost1 -> taken inq2 inq3 lost2 -> taken inq1 inq3 (lost1 ++ lost2).
Proof.
  intros [(l1 & -> & Hl1) Hn1] [(l2 & -> & Hl2) Hn2]. split.
  - exists (l1 ++ l2). split; [by rw app_assoc|by apply sublist_app].
  - intros Hi. by rw Hn1 // Hn2.
Qed.

(** A received buffer is read, or the reader cannot be made. *)
Lemma wpm_FinishOp_received fuel bss om (msg0 : R) (o : RecvMessage.t R) b (Q : bool * RecvMessage.t R * option R -> hpropI S) :
  RecvMessage.message_ o = Some msg0 -> RecvMessage.hijacked_ o = false -> RecvMessage.recv_buf_ o = Some b ->
  received fuel [bss] [om] ->
  ⊢ buffer_chunks (Some b) bss -∗
    (∀ r o' m lost, ⟨RecvMessage.got_message o' = r /\ RecvMessage.recv_buf_ o' = None /\
        (r = true -> om = m /\ m <> None) /\ taken [bss] [] lost⟩ -∗
       leaked lost -∗ Q (r, o', m)) -∗
    wpm (RecvMessage.FinishOp fuel true o) Q.
Proof.
  iIntros (Hm Hh Hb Hrec) "Hbuf HQ". apply Forall2_cons in Hrec as [[Hfuel Hrec] _].
  unfold RecvMessage.FinishOp. rw Hm Hh Hb. change (Valid (Some b)) with true. cbn iota. wbind. unfold Deserialize.
  assert (Hspec : exists m parsed consumed rest, Z.of_nat (length (concat bss)) < 2 ^ 31 /\
    ispec (length (concat bss)) (decode msg0) bss None = Some ((m, parsed, consumed), rest) /\
    (parsed && consumed = true -> om = Some m)).
  { destruct om as [m|].
    - destruct (law_decode m msg0 bss Hrec) as [rest Hs]. destruct (law_size m) as [_ Hl]. rw Hrec. by exists m, true, true, rest.
    - destruct Hrec as [Hl Hrec]. destruct (Hrec msg0) as (m & p & c & rest & Hs & E). exists m, p, c, rest. by rw E. }
  destruct Hspec as (m & p & c & rest & Hl & Hspec & Hom).
  iApply (wpm_GenericDeserialize with "Hbuf"); [exact Hl|exact Hfuel|exact Hspec|]. iIntros (x) "[->|[%Hx Hbuf]]".
  - iApply wpm_ret. iApply ("HQ" $! _ _ _ [] with "[] []"); [|by iApply big_sepL_nil].
    iPureIntro. cbn [RecvMessage.got_message RecvMessage.recv_buf_]. split_and!; [done|done| |apply taken_none].
    destruct c, p; cbn; try done. intros _. by rw (Hom eq_refl).
  - destruct Hx as [Hno ->]. iApply wpm_ret. iApply ("HQ" $! _ _ _ [bss] with "[] [Hbuf]").
    + iPureIntro. split_and!; [done|done|done|]. split; [|done]. exists [bss]. done.
    + unfold leaked. cbn [big_opL]. iSplitL; [by iExists b|done].
Qed.

(** [true] comes with the next message. *)
Lemma wpm_Read fuel (msg0 : R) inq outq ms (Q : bool * option R -> hpropI S) :
  received fuel inq ms ->
  ⊢ idle local_ops -∗ call_own inq outq -∗
    (∀ r m inq' ms' lost, ⟨received fuel inq' ms' /\ taken inq inq' lost /\
        (if r : bool then m <> None /\ ms = m :: ms' else ms' `suffix_of` ms)⟩ -∗
       idle local_ops -∗ call_own inq' outq -∗ leaked lost -∗ Q (r, m)) -∗
    wpm (Read fuel msg0) Q.
Proof.
  iIntros (Henc) "Hi Hc HQ". unfold Read. wbind. iApply call_ref_law. iIntros "Hr". cbn [RecvMessage.AddOp RecvMessage.RecvMessage RecvMessage.new app
    RecvMessage.message_ RecvMessage.hijacked_ fst snd]. wbind. unfold start. wbind. iApply (start_recv_law with "Hi Hc"). iIntros "Hc Hf".
  iApply wpm_dcheck; [done|]. wbind. iApply (pluck_recv_law with "Hc Hf"). iIntros (r x inq' Hx) "Hi Hc Hb". cbn [fst snd].
  wbind. destruct x as [[b bss]|]; cbn [fmap option_fmap option_map fst].
  - subst inq. apply Forall2_cons_inv_l in Henc as (om & ms' & Hom & Henc & ->). destruct r.
    + iApply (wpm_FinishOp_received with "Hb"); [done|done|done|by constructor; [exact Hom|]|].
      iIntros (r o' m lost (Hg & Hbuf & Hr & Hlost)) "Hl". wbind. iApply (call_unref_law with "Hr"). iIntros "_". rw Hbuf.
      wbind. iApply wpm_ret. iApply wpm_ret. rw Hg andb_diag. iApply ("HQ" $! r m inq' ms' lost with "[] Hi Hc Hl").
      iPureIntro. split_and!; [exact Henc| |destruct r; [by destruct (Hr eq_refl) as [-> ?]|by apply suffix_cons_r]].
      destruct Hlost as [(l & E & Hl) Hn]. split; [|done]. exists l. rw app_nil_r in E. by subst l.
    + unfold RecvMessage.FinishOp. cbn [RecvMessage.message_ RecvMessage.set_recv_buf RecvMessage.hijacked_ RecvMessage.recv_buf_].
      change (Valid (Some b)) with true. cbn iota.
      wbind. iApply (wpm_buffer_Clear with "Hb"). iIntros "_". iApply wpm_ret.
      wbind. iApply (call_unref_law with "Hr"). iIntros "_". wbind. iApply wpm_ret. iApply wpm_ret.
      iApply ("HQ" $! false _ inq' ms' [] with "[] Hi Hc []"); [|by iApply big_sepL_nil].
      iPureIntro. split_and!; [exact Henc|apply taken_none|by apply suffix_cons_r].
  - destruct Hx as [-> _]. unfold RecvMessage.FinishOp. cbn [RecvMessage.message_ RecvMessage.set_recv_buf RecvMessage.hijacked_ RecvMessage.recv_buf_].
    change (Valid None) with false. cbn iota. iApply wpm_ret. iDestruct "Hb" as "_".
    wbind. iApply (call_unref_law with "Hr"). iIntros "_". wbind. iApply wpm_ret. iApply wpm_ret. cbn -[received taken].
    iApply ("HQ" $! false _ inq ms [] with "[] Hi Hc []"); [|by iApply big_sepL_nil].
    iPureIntro. split_and!; [exact Henc|apply taken_refl|done].
Qed.

(** ** A whole call *)

(** Nothing is written behind the last message, every message fits, and the metadata is
    not sent when it has been ([sent]). *)
Fixpoint legal (h : handler W R) (sent last : bool) : Prop :=
  match h with
  | HReturn _ => True
  | HRead _ k => forall b m, legal (k b m) sent last
  | HWrite msg options k => last = false /\ fits msg /\ forall b, legal (k b) true (WriteOptions.is_last_message options)
  | HSendInitialMetadata k => sent = false /\ legal k true last
  end.

(** A run of the method: the messages it was given, those it wrote, and the status. *)
Inductive transcript : handler W R -> list R -> list (W * WriteOptions.t) -> Status -> Prop :=
| run_return st : transcript (HReturn st) [] [] st
| run_read r k m rs ws st : transcript (k true (Some m)) rs ws st -> transcript (HRead r k) (m :: rs) ws st
| run_no_read r k x rs ws st : transcript (k false x) rs ws st -> transcript (HRead r k) rs ws st
| run_write msg options k b rs ws st : transcript (k b) rs ws st -> transcript (HWrite msg options k) rs ((msg, options) :: ws) st
| run_send k rs ws st : transcript k rs ws st -> transcript (HSendInitialMetadata k) rs ws st.

Definition message_event (w : W * WriteOptions.t) : wire_event := EMessage (write_flags (snd w)) (encode (fst w)).

Definition run_own (last : bool) ctx : hpropI S :=
  (if last then ⟨sent_initial_metadata_ ctx = true /\ has_pending_ops_ ctx = true⟩ ∗ pending_own ctx
   else ⟨ctx_idle ctx /\ has_pending_ops_ ctx = false⟩ ∗ idle pending_ops)%I.

(** Metadata that was sent stays sent, and a message does not go without. *)
Definition sent_after ctx ctx' (ws : list (W * WriteOptions.t)) : Prop :=
  (sent_initial_metadata_ ctx = true -> sent_initial_metadata_ ctx' = true) /\ (ws <> [] -> sent_initial_metadata_ ctx' = true).
(** What a run of the method has handed to the library. *)
Definition method_events ctx ctx' (ws : list (W * WriteOptions.t)) : list wire_event :=
  (if sent_initial_metadata_ ctx' then first_events ctx else []) ++ (message_event <$> ws).

Lemma wpm_SendInitialMetadata ctx inq outq (Q : ServerContext W -> hpropI S) :
  sent_initial_metadata_ ctx = false ->
  ⊢ idle local_ops -∗ call_own inq outq -∗
    (idle local_ops -∗ call_own inq (outq ++ first_events ctx) -∗ Q (set_sent ctx)) -∗ wpm (SendInitialMetadata ctx) Q.
Proof.
  iIntros (Hs) "Hi Hc HQ". unfold SendInitialMetadata, first_events. rw Hs. wbind. iApply wpm_dcheck; [done|]. wbind.
  iApply call_ref_law. iIntros "Hr".
  assert (Hp : SendInitialMetadata.hijacked_ (prepare_metadata ctx SendInitialMetadata.new) = false /\
    SendInitialMetadata.send_ (prepare_metadata ctx SendInitialMetadata.new) = true /\
    EInitial (SendInitialMetadata.flags_ (prepare_metadata ctx SendInitialMetadata.new))
      (SendInitialMetadata.metadata_map_ (prepare_metadata ctx SendInitialMetadata.new))
      (SendInitialMetadata.level_ (prepare_metadata ctx SendInitialMetadata.new)) = initial_event ctx).
  { unfold prepare_metadata, initial_event. by destruct (compression_level_ ctx). }
  destruct Hp as (Hh & Hsend & Hev). wbind. iApply wpm_metadata_AddOp; [exact Hh|]. iIntros (md) "Ha [%Hmh %Hms]". rw Hsend. cbn [fst snd app].
  wbind. iApply (wpm_start _ _ None [] with "Hi Hc []"); [done|by iPureIntro|]. iIntros "Hc Hf". cbn [fmap list_fmap op_event concat app]. rw Hev.
  wbind. iApply (pluck_send_law with "Hf"). iIntros (r bss) "Hi Hb". iDestruct "Hb" as "%Hb". wbind.
  iApply (wpm_metadata_FinishOp with "[Ha]"); [done|by rw Hms Hsend|]. iIntros (md' _). wbind. iApply (call_unref_law with "Hr"). iIntros "_".
  iApply wpm_ret. iApply ("HQ" with "Hi Hc").
Qed.

Lemma leaked_app lost1 lost2 : leaked lost1 -∗ leaked lost2 -∗ leaked (lost1 ++ lost2).
Proof. iIntros "H1 H2". unfold leaked. rw big_sepL_app. iFrame. Qed.

Lemma wpm_run_method fuel h ctx last inq outq ms (Q : Status * ServerContext W -> hpropI S) :
  received fuel inq ms -> legal h (sent_initial_metadata_ ctx) last ->
  ⊢ idle local_ops -∗ call_own inq outq -∗ run_own last ctx -∗
    (∀ st ctx' last' inq' rs ws lost,
       ⟨transcript h rs ws st /\ rs `sublist_of` omap id ms /\ same_call ctx ctx' /\ sent_after ctx ctx' ws /\ taken inq inq' lost⟩ -∗
       call_own inq' (outq ++ method_events ctx ctx' ws) -∗ idle local_ops -∗ run_own last' ctx' -∗ leaked lost -∗
       Q (st, ctx')) -∗
    wpm (run_method fuel h ctx) Q.
Proof.
  iInduction h as [st|msg k IH|msg options k IH|k IH] forall (ctx last inq outq ms Q); iIntros (Henc Hleg) "Hi Hc Hctx HQ"; cbn [run_method legal] in *.
  - iApply wpm_ret. iApply ("HQ" $! st ctx last inq [] [] [] with "[] [Hc] Hi Hctx []"); [| |by iApply big_sepL_nil].
    + iPureIntro. split_and!; [constructor|apply sublist_nil_l|done|done|apply taken_refl].
    + unfold method_events, first_events. destruct (sent_initial_metadata_ ctx); by rw app_nil_r.
  - wbind. iApply (wpm_Read with "Hi Hc"); [done|]. iIntros (r m inq' ms' lost (Henc' & Htk & Hr)) "Hi Hc Hl". cbn [fst snd].
    iApply ("IH" with "[] [] Hi Hc Hctx"); [by iPureIntro|by iPureIntro|].
    iIntros (st ctx' last' inq2 rs ws lost2 (Htr & Hrs & Hsame & Hsent & Htk2)) "Hc Hi Hctx Hl2".
    pose proof (taken_trans _ _ _ _ _ Htk Htk2). iDestruct (leaked_app with "Hl Hl2") as "Hl". destruct r.
    + destruct Hr as [Hm ->]. destruct m as [m'|]; [|done].
      iApply ("HQ" $! st ctx' last' inq2 (m' :: rs) ws (lost ++ lost2) with "[] Hc Hi Hctx Hl").
      iPureIntro. split_and!; [by constructor|by apply sublist_skip|done..].
    + iApply ("HQ" $! st ctx' last' inq2 rs ws (lost ++ lost2) with "[] Hc Hi Hctx Hl").
      iPureIntro. split_and!; [by eapply run_no_read| |done..].
      destruct Hr as [l ->]. rw omap_app. by apply sublist_inserts_l.
  - destruct Hleg as (-> & Hfits & Hleg). iDestruct "Hctx" as "[[%Hidle %Hpend] Hp]". wbind. iApply (wpm_Write with "Hp Hc"); [done|done|].
    iIntros (r ctx1 (Hsame1 & Hsent1 & Hpend1 & Hidle1)) "Hc Hp". cbn [fst snd].
    iApply ("IH" $! r ctx1 (WriteOptions.is_last_message options) with "[] [] Hi Hc [Hp]"); [by iPureIntro|by rw Hsent1| |].
    { unfold run_own. destruct (WriteOptions.is_last_message options); iFrame; iPureIntro; naive_solver. }
    iIntros (st ctx' last' inq2 rs ws lost (Htr & Hrs & Hsame & Hsent & Htk)) "Hc Hi Hctx Hl". destruct Hsent as [Hsent Hws].
    iApply ("HQ" $! st ctx' last' inq2 rs ((msg, options) :: ws) lost with "[] [Hc] Hi Hctx Hl").
    + iPureIntro. unfold sent_after, same_call in *. split_and!; [by eapply run_write|done|..]; intuition congruence.
    + unfold method_events, write_events. rw (Hsent Hsent1). assert (first_events ctx1 = []) as -> by (unfold first_events; by rw Hsent1).
      rw -!app_assoc. done.
  - destruct Hleg as [Hs Hleg]. wbind. iApply (wpm_SendInitialMetadata with "Hi Hc"); [done|]. iIntros "Hi Hc".
    iApply ("IH" $! (set_sent ctx) last with "[] [] Hi Hc [Hctx]"); [by iPureIntro|by iPureIntro| |].
    { unfold run_own. destruct last; [|by iFrame]. iDestruct "Hctx" as "[%Hp Hctx]". destruct Hp. congruence. }
    iIntros (st ctx' last' inq2 rs ws lost (Htr & Hrs & Hsame & Hsent & Htk)) "Hc Hi Hctx Hl". destruct Hsent as [Hsent Hws].
    iApply ("HQ" $! st ctx' last' inq2 rs ws lost with "[] [Hc] Hi Hctx Hl").
    + iPureIntro. split_and!; [by constructor|done|done| |done]. split; [by intros _; apply Hsent|done].
    + unfold method_events. rw (Hsent eq_refl). by rw -app_assoc.
Qed.

(** The last event: the status, or an error when a message was needed. *)
Definition status_event ctx (st : Status) : wire_event :=
  EStatus (metadata_array (trailing_metadata_ ctx) (binary_error_details_ st)) (code_ st)
    (if decide (error_message_ st = "") then None else Some (error_message_ st)).
(** [missing]: no metadata was sent before the end, that is, nothing at all. *)
Definition final_status (WriteNeeded missing : bool) (st : Status) : Status :=
  if missing && WriteNeeded && ok st then Status_error INTERNAL "Service did not provide response message" else st.
Definition call_events ctx (ws : list (W * WriteOptions.t)) (st : Status) : list wire_event :=
  first_events ctx ++ (message_event <$> ws) ++ [status_event ctx st].

(** The operations of the end, with the metadata that nobody sent. *)
Lemma final_ops_events WriteNeeded st ctx ctx' (ws : list (W * WriteOptions.t)) :
  same_call ctx ctx' -> sent_after ctx ctx' ws ->
  let f := final_ops WriteNeeded st ctx' in
  SendInitialMetadata.hijacked_ (fst f) = false /\
  snd f = final_status WriteNeeded (negb (sent_initial_metadata_ ctx')) st /\
  forall op : grpc_op,
    method_events ctx ctx' ws ++
      concat (op_event [] <$>
        ([] ++ (if SendInitialMetadata.send_ (fst f)
                then [GRPC_OP_SEND_INITIAL_METADATA (SendInitialMetadata.flags_ (fst f)) (SendInitialMetadata.metadata_map_ (fst f))
                        (SendInitialMetadata.level_ (fst f))] else [])) ++ [op]) =
    first_events ctx ++ (message_event <$> ws) ++ op_event [] op.
Proof.
  intros (Hi & Ht & Hl) [Hsent Hws]. unfold final_ops, method_events, final_status. destruct (sent_initial_metadata_ ctx') eqn:E; cbn.
  - split_and!; [done|done|]. intros op. by rw ?app_nil_r -app_assoc.
  - assert (ws = []) as -> by (destruct ws; [done|]; by specialize (Hws ltac:(done))).
    assert (sent_initial_metadata_ ctx = false) as Hs by (destruct (sent_initial_metadata_ ctx); [by specialize (Hsent eq_refl)|done]).
    unfold prepare_metadata, first_events, initial_event. rw Hi Hl Hs. split_and!; [by case_match|done|]. intros op.
    destruct (compression_level_ ctx); cbn; by rw app_nil_r.
Qed.

Lemma wpm_Pluck_last last ctx (Q : bool * ServerContext W -> hpropI S) :
  ⊢ run_own last ctx -∗ (∀ r ctx', ⟨ctx_idle ctx'⟩ -∗ idle pending_ops -∗ Q (r, ctx')) -∗
    wpm (if has_pending_ops_ ctx then Pluck_pending ctx else mret (true, ctx)) Q.
Proof.
  iIntros "H HQ". unfold run_own. destruct last.
  - iDestruct "H" as "[[_ %Hp] H]". rw Hp. iApply (wpm_Pluck_pending with "H"). iIntros (r ctx' (Hidle & _)) "Hi". by iApply ("HQ" with "[] Hi").
  - iDestruct "H" as "[[%Hidle %Hp] Hi]". rw Hp. iApply wpm_ret. by iApply ("HQ" with "[] Hi").
Qed.

(** All that a call sends: the metadata, what the method wrote, and one status. *)
Lemma wpm_RunHandler WriteNeeded fuel h ctx inq outq ms (Q : ServerContext W -> hpropI S) :
  received fuel inq ms -> legal h (sent_initial_metadata_ ctx) false -> ctx_idle ctx -> has_pending_ops_ ctx = false ->
  ⊢ idle local_ops -∗ idle pending_ops -∗ call_own inq outq -∗
    (∀ ctx' inq' rs ws st missing lost,
       ⟨transcript h rs ws st /\ rs `sublist_of` omap id ms /\ ctx_idle ctx' /\ (missing = true -> ws = []) /\ taken inq inq' lost⟩ -∗
       idle local_ops -∗ idle pending_ops -∗ leaked lost -∗ call_own inq' (outq ++ call_events ctx ws (final_status WriteNeeded missing st)) -∗ Q ctx') -∗
    wpm (RunHandler WriteNeeded fuel h ctx) Q.
Proof.
  iIntros (Henc Hleg Hidle Hpend) "Hi Hp Hc HQ". unfold RunHandler. wbind.
  iApply (wpm_run_method _ _ _ false with "Hi Hc [Hp]"); [done|done|by iFrame|].
  iIntros (st ctx1 last inq' rs ws lost (Htr & Hrs & Hsame & Hsent & Htk)) "Hc Hi Hctx Hl". cbn [fst snd].
  destruct (final_ops_events WriteNeeded st ctx ctx1 ws Hsame Hsent) as (Hh & Hst & Hev).
  wbind. iApply call_ref_law. iIntros "Hr". wbind. iApply wpm_metadata_AddOp; [exact Hh|]. iIntros (md) "Ha [%Hmh %Hms]". cbn [fst snd].
  wbind. iApply wpm_status_AddOp. iIntros (o) "Ho [%Hoh %Hos]". cbn [fst snd]. wbind.
  iApply (wpm_start _ _ None [] with "Hi Hc []").
  { by destruct (SendInitialMetadata.send_ (fst (final_ops WriteNeeded st ctx1))). }
  { by iPureIntro. }
  iIntros "Hc Hf". wbind. iApply (wpm_Pluck_last with "Hctx"). iIntros (r ctx2 Hidle2) "Hp". wbind.
  iApply (pluck_send_law with "Hf"). iIntros (r' bss) "Hi Hb". iDestruct "Hb" as "%Hb". wbind.
  iApply (wpm_metadata_FinishOp with "[Ha]"); [done|by rw Hms|]. iIntros (md' _). wbind.
  iApply (wpm_status_FinishOp with "Ho"); [done|done|]. iIntros (o'). wbind. iApply (call_unref_law with "Hr"). iIntros "_".
  iApply wpm_ret. iApply ("HQ" $! ctx2 inq' rs ws st (negb (sent_initial_metadata_ ctx1)) lost with "[] Hi Hp Hl [Hc]").
  { iPureIntro. split_and!; [done..| |done]. intros Hm. destruct ws; [done|]. destruct Hsent as [_ Hws]. by rw Hws in Hm. }
  unfold call_events, status_event. rw -Hst. destruct Hsame as (_ & -> & _). by rw -app_assoc Hev.
Qed.

Lemma wpm_Deserialize_error req bss (Q : unit -> hpropI S) :
  ⊢ buffer_chunks req bss -∗ (emp -∗ Q tt) -∗ wpm (Deserialize_error req) Q.
Proof. apply wpm_ByteBuffer_destruct. Qed.

(** A call of an unknown method gets the metadata and the code. *)
Lemma wpm_RunHandler_error code ctx inq outq (Q : ServerContext W -> hpropI S) :
  ⊢ idle local_ops -∗ call_own inq outq -∗
    (∀ ctx', ⟨same_call ctx ctx' /\ sent_initial_metadata_ ctx' = true⟩ -∗ idle local_ops -∗
       call_own inq (outq ++ call_events ctx [] (Status_error code "")) -∗ Q ctx') -∗
    wpm (RunHandler_error code ctx) Q.
Proof.
  iIntros "Hi Hc HQ". unfold RunHandler_error, FillOps_error.
  destruct (final_ops_events false (Status_error code "") ctx ctx []) as (Hh & _ & Hev); [done|done|].
  set (f := final_ops false (Status_error code "") ctx) in *.
  set (x := if sent_initial_metadata_ ctx then _ else _).
  assert (Hx : fst (fst x) = fst f /\ snd (fst x) = ServerSendStatus.ServerSendStatus (trailing_metadata_ ctx) (Status_error code "") ServerSendStatus.new /\
    same_call ctx (snd x) /\ sent_initial_metadata_ (snd x) = true).
  { unfold x, f, final_ops. by destruct (sent_initial_metadata_ ctx) eqn:E. }
  destruct x as [[md o] ctx']. cbn [fst snd] in Hx. destruct Hx as (-> & -> & Hsame & Hs).
  wbind. iApply call_ref_law. iIntros "Hr". wbind. iApply wpm_metadata_AddOp; [exact Hh|]. iIntros (md') "Ha [%Hmh %Hms]". cbn [fst snd].
  wbind. iApply wpm_status_AddOp. iIntros (o) "Ho [%Hoh %Hos]". cbn [fst snd]. wbind.
  iApply (wpm_start _ _ None [] with "Hi Hc []"); [by destruct (SendInitialMetadata.send_ (fst f))|by iPureIntro|].
  iIntros "Hc Hf". wbind. iApply (pluck_send_law with "Hf"). iIntros (r' bss) "Hi Hb". iDestruct "Hb" as "%Hb". wbind.
  iApply (wpm_metadata_FinishOp with "[Ha]"); [done|by rw Hms|]. iIntros (md'' _). wbind.
  iApply (wpm_status_FinishOp with "Ho"); [done|done|]. iIntros (o'). wbind. iApply (call_unref_law with "Hr"). iIntros "_".
  iApply wpm_ret. iApply ("HQ" with "[] Hi [Hc]"); [done|]. unfold call_events, status_event.
  assert (E : method_events ctx ctx [] = []) by (unfold method_events, first_events; by destruct (sent_initial_metadata_ ctx)).
  pose proof (Hev (GRPC_OP_SEND_STATUS_FROM_SERVER (metadata_array (trailing_metadata_ ctx) "") code None)) as He. rw E in He. by rw -He.
Qed.
End triples.
