(* ===== verification/GrpcStore.v ===== *)
(** * A store for byte buffers and calls

    One implementation of what the C library of gRPC promises ([CoreLaws],
    [CallLaws]): blocks of bytes, buffers, metadata arrays and the state of one call are
    objects with an address, and references are counted in a multiset.  Blocks are not
    used again: a block is garbage, a reference or any other object is not.  The
    addresses of the bytes of the block [r] begin at [r * 2 ^ 40]. *)
From Stdlib Require Import ZArith Lia Strings.Byte Strings.String.
From stdpp Require Import base tactics option list list_numbers gmap gmultiset strings.
From iris.bi Require Import bi big_op.
From iris.proofmode Require Import proofmode.
From S2P Require Import Prelude Bits HeapLogic GrpcSlice ProtoBufferReader ProtoBufferWriter ProtoUtils CallOps.

Inductive obj :=
| OBytes (bs : list byte)
| OBuffer (raw : bool) (ss : list grpc_slice)
| OArray
| OCall (inq : list (list (list byte))) (outq : list wire_event)
| OIdle
| OFlight
| OReceive.

Record store := Store { objs : gmap Z obj; refs : gmultiset Z }.

(** ** The heap *)

#[export] Instance store_empty : Empty store := Store ∅ ∅.
#[export] Instance store_union : Union store := fun x y => Store (objs x ∪ objs y) (refs x ⊎ refs y).
#[export] Instance store_disjoint : Disjoint store := fun x y => objs x ##ₘ objs y.

(** Only blocks are left. *)
Definition only_blocks (s : store) : Prop :=
  refs s = ∅ /\ forall p o, objs s !! p = Some o -> exists bs, o = OBytes bs.

Lemma store_eq x y : objs x = objs y -> refs x = refs y -> x = y.
Proof. destruct x, y. simpl. by intros -> ->. Qed.

#[export] Program Instance store_heap : Heap store := { heap_garbage := only_blocks }.
Next Obligation. split; [done|]. intros p o. by rw lookup_empty. Qed.
Next Obligation.
  intros x y [Hx Hxo] [Hy Hyo]. split; [simpl; rw Hx Hy; apply gmultiset_disj_union_left_id|].
  intros p o [?|[_ ?]]%lookup_union_Some_raw; eauto.
Qed.
Next Obligation. intros x y Hd. by apply map_disjoint_sym. Qed.
Next Obligation. intros x. apply map_disjoint_empty_r. Qed.
Next Obligation. intros x y z. apply map_disjoint_union_l. Qed.
Next Obligation. intros x. apply store_eq; [apply map_union_empty|apply gmultiset_disj_union_right_id]. Qed.
Next Obligation. intros x y ?. apply store_eq; [by apply map_union_comm|apply gmultiset_disj_union_comm]. Qed.
Next Obligation. intros x y z. apply store_eq; [apply map_union_assoc|apply gmultiset_disj_union_assoc]. Qed.

Abbreviation hG := (hpropI store).

Definition obj_at (p : Z) (o : obj) : hG := HProp (fun s => s = Store {[p := o]} ∅).
Definition ref_to (r : Z) : hG := HProp (fun s => s = Store ∅ {[+ r +]}).

(** ** Primitive operations *)

Definition get_obj (p : Z) : stm store obj :=
  fun s => match objs s !! p with Some o => Done (o, s) | None => Fault NullDeref end.
Definition set_obj (p : Z) (o : obj) : stm store unit :=
  fun s => match objs s !! p with Some _ => Done (tt, Store (<[p := o]> (objs s)) (refs s)) | None => Fault NullDeref end.
Definition del_obj (p : Z) : stm store unit :=
  fun s => match objs s !! p with Some _ => Done (tt, Store (delete p (objs s)) (refs s)) | None => Fault NullDeref end.
Definition new_obj (o : obj) : stm store Z :=
  fun s => let p := fresh (dom (objs s)) in Done (p, Store (<[p := o]> (objs s)) (refs s)).
Definition add_ref (r : Z) : stm store unit := fun s => Done (tt, Store (objs s) (refs s ⊎ {[+ r +]})).
Definition drop_ref (r : Z) : stm store unit :=
  fun s => if decide (r ∈ refs s) then Done (tt, Store (objs s) (refs s ∖ {[+ r +]})) else Fault NullDeref.

Section rules.
  Implicit Types (p r : Z) (o : obj).

Lemma lookup_frame p o (f : store) : objs (Store {[p := o]} ∅ ∪ f) !! p = Some o.
Proof. simpl. by rw (lookup_union_Some_l _ _ _ o) ?lookup_singleton_eq. Qed.
Lemma obj_disjoint p o o' (f : store) : Store {[p := o]} ∅ ## f -> Store {[p := o']} ∅ ## f.
Proof. unfold disjoint, store_disjoint. simpl. by rw !map_disjoint_singleton_l. Qed.

Lemma wpm_get_obj p o (Q : obj -> hG) : ⊢ obj_at p o -∗ (obj_at p o -∗ Q o) -∗ wpm (get_obj p) Q.
Proof.
  apply (wpm_step _ (Store {[p := o]} ∅) (Store {[p := o]} ∅)); [done|done|]. intros f Hd. split; [|done].
  unfold get_obj. by rw lookup_frame.
Qed.
Lemma wpm_set_obj p o o' (Q : unit -> hG) : ⊢ obj_at p o -∗ (obj_at p o' -∗ Q tt) -∗ wpm (set_obj p o') Q.
Proof.
  apply (wpm_step _ (Store {[p := o]} ∅) (Store {[p := o']} ∅)); [done|done|]. intros f Hd. split; [|by eapply obj_disjoint].
  unfold set_obj. rw lookup_frame. do 2 f_equal. apply store_eq; [|done]. simpl. by rw insert_union_l insert_singleton_eq.
Qed.
Lemma wpm_del_obj p o (Q : unit -> hG) : ⊢ obj_at p o -∗ (emp -∗ Q tt) -∗ wpm (del_obj p) Q.
Proof.
  apply (wpm_step _ (Store {[p := o]} ∅) ∅); [done|done|]. intros f Hd. split; [|apply map_disjoint_empty_l].
  unfold disjoint, store_disjoint in Hd. simpl in Hd. apply map_disjoint_singleton_l in Hd.
  unfold del_obj. rw lookup_frame. do 2 f_equal. apply store_eq; [|done]. simpl.
  by rw delete_union delete_singleton_eq map_empty_union delete_id // map_empty_union.
Qed.
Lemma wpm_new_obj o (Q : Z -> hG) : (∀ p, obj_at p o -∗ Q p) ⊢ wpm (new_obj o) Q.
Proof.
  apply (wpm_alloc _ (fun p => Store {[p := o]} ∅)); [|done]. intros s.
  assert (objs s !! fresh (dom (objs s)) = None) as Hn by apply not_elem_of_dom, is_fresh.
  eexists. split; [|by apply (map_disjoint_singleton_r (objs s))]. unfold new_obj. do 2 f_equal.
  apply store_eq; simpl; [by rw -insert_union_singleton_r|by rw gmultiset_disj_union_right_id].
Qed.
Lemma wpm_add_ref r (Q : unit -> hG) : (ref_to r -∗ Q tt) ⊢ wpm (add_ref r) Q.
Proof.
  iIntros "HQ". iApply (wpm_step _ ∅ (Store ∅ {[+ r +]}) _ emp with "[] HQ"); [done|done| |done]. intros f Hd. split; [|apply map_disjoint_empty_l].
  unfold add_ref. do 2 f_equal. apply store_eq; simpl; [done|]. by rw gmultiset_disj_union_left_id gmultiset_disj_union_comm.
Qed.
Lemma wpm_drop_ref r (Q : unit -> hG) : ⊢ ref_to r -∗ (emp -∗ Q tt) -∗ wpm (drop_ref r) Q.
Proof.
  apply (wpm_step _ (Store ∅ {[+ r +]}) ∅); [done|done|]. intros f Hd. split; [|apply map_disjoint_empty_l].
  unfold drop_ref. rw decide_True; [|simpl; multiset_solver]. do 2 f_equal. apply store_eq; simpl; [done|]. multiset_solver.
Qed.

(** A block is garbage. *)
Lemma block_garbage p bs : obj_at p (OBytes bs) ⊢ (garbage : hG).
Proof. constructor. intros x ->. split; [done|]. intros q o Hq. simpl in Hq. apply lookup_singleton_Some in Hq as [<- <-]. by eexists. Qed.
End rules.

(** ** The library *)

Definition block_size : Z := 2 ^ 40.
Definition block_bytes (r : Z) : stm store (list byte) :=
  o ← get_obj r; match o with OBytes bs => mret bs | _ => st_fault OutOfBounds end.
Definition buffer_at (b : Z) : stm store (bool * list grpc_slice) :=
  o ← get_obj b; match o with OBuffer raw ss => mret (raw, ss) | _ => st_fault NullDeref end.

Definition store_load (a n : Z) : stm store (list byte) :=
  w ← block_bytes (a / block_size);
  let off := a mod block_size in
  if decide (0 <= n /\ off + n <= Z.of_nat (length w)) then mret (take (Z.to_nat n) (drop (Z.to_nat off) w)) else st_fault OutOfBounds.
Definition store_store (a : Z) (bs : list byte) : stm store unit :=
  w ← block_bytes (a / block_size);
  let off := a mod block_size in
  if decide (off + Z.of_nat (length bs) <= Z.of_nat (length w))
  then set_obj (a / block_size) (OBytes (overwrite w (Z.to_nat off) bs)) else st_fault OutOfBounds.

(** A slice with these bytes: inlined when they are few. *)
Definition slice_of (bs : list byte) : stm store grpc_slice :=
  if decide (Z.of_nat (length bs) <= GRPC_SLICE_INLINED_SIZE) then mret (inlined (Z.of_nat (length bs)) bs)
  else r ← new_obj (OBytes bs); add_ref r ;; mret (refcounted r (Z.of_nat (length bs)) (r * block_size)).

Definition ref_slice (s : grpc_slice) : stm store grpc_slice :=
  match s with refcounted r _ _ => add_ref r ;; mret s | inlined _ _ => mret s end.
Definition unref_slice (s : grpc_slice) : stm store unit :=
  match s with refcounted r _ _ => drop_ref r | inlined _ _ => mret tt end.
Definition split_slice (s : grpc_slice) (k : Z) : stm store (grpc_slice * grpc_slice) :=
  match s with
  | refcounted r n a => bs ← store_load (a + k) (n - k); t ← slice_of bs; mret (refcounted r k a, t)
  | inlined n data => mret (inlined k data, inlined (n - k) (drop (Z.to_nat k) data))
  end.

Fixpoint for_each {A} (f : A -> stm store unit) (l : list A) : stm store unit :=
  match l with [] => mret tt | x :: l => f x ;; for_each f l end.

#[export] Instance store_core : GrpcCore store := {
  load := store_load;
  store_bytes := store_store;
  grpc_slice_malloc n := slice_of (replicate (Z.to_nat n) x00);
  grpc_slice_split_tail := split_slice;
  grpc_slice_ref := ref_slice;
  grpc_slice_unref := unref_slice;
  grpc_slice_buffer_add b s := x ← buffer_at b; set_obj b (OBuffer (fst x) (snd x ++ [s]));
  grpc_slice_buffer_pop b := x ← buffer_at b; set_obj b (OBuffer (fst x) (take (length (snd x) - 1) (snd x)));
  grpc_raw_byte_buffer_create ss := for_each (fun s => ref_slice s ;; mret tt) ss ;; new_obj (OBuffer true ss);
  grpc_byte_buffer_copy b := x ← buffer_at b; for_each (fun s => ref_slice s ;; mret tt) (snd x) ;; new_obj (OBuffer (fst x) (snd x));
  grpc_byte_buffer_destroy b := x ← buffer_at b; for_each unref_slice (snd x) ;; del_obj b;
  grpc_byte_buffer_length b := x ← buffer_at b; mret (foldr Z.add 0 (GRPC_SLICE_LENGTH <$> snd x));
  grpc_byte_buffer_reader_init b := x ← buffer_at b; mret (if (fst x : bool) then Some (Reader (Some b) (Some b) 0) else None);
  grpc_byte_buffer_reader_peek rd :=
    match buffer_out rd with
    | Some b =>
        x ← buffer_at b;
        let i := Z.to_nat (current_index rd) in
        mret (snd x !! i, Reader (buffer_in rd) (buffer_out rd) (if decide (i < length (snd x))%nat then current_index rd + 1 else current_index rd))
    | None => st_fault NullDeref
    end;
  grpc_byte_buffer_reader_destroy _ := mret tt;
}.

(** ** What it promises *)

Definition own_slice (s : grpc_slice) (bs : list byte) : hG :=
  match s with
  | refcounted r n a =>
      ∃ e, obj_at r (OBytes (bs ++ e)) ∗ ref_to r ∗
        ⟨a = (r * block_size)%Z /\ n = Z.of_nat (length bs) /\ Z.of_nat (length (bs ++ e)) < block_size⟩
  | inlined n data => ⟨0 <= n < 2 ^ 8 /\ (Z.to_nat n <= length data)%nat /\ bs = take (Z.to_nat n) data⟩
  end%I.
Definition ref_own (s : grpc_slice) : hG := match s with refcounted r _ _ => ref_to r | inlined _ _ => emp end%I.

Section laws.
  Implicit Types (s : grpc_slice) (bs w : list byte) (a b r n : Z).

Lemma wpm_block_bytes r w (Q : list byte -> hG) : ⊢ obj_at r (OBytes w) -∗ (obj_at r (OBytes w) -∗ Q w) -∗ wpm (block_bytes r) Q.
Proof. iIntros "H HQ". unfold block_bytes. wbind. iApply (wpm_get_obj with "H"). iIntros "H". iApply wpm_ret. by iApply "HQ". Qed.
Lemma wpm_buffer_at b ss raw (Q : bool * list grpc_slice -> hG) :
  ⊢ obj_at b (OBuffer raw ss) -∗ (obj_at b (OBuffer raw ss) -∗ Q (raw, ss)) -∗ wpm (buffer_at b) Q.
Proof. iIntros "H HQ". unfold buffer_at. wbind. iApply (wpm_get_obj with "H"). iIntros "H". iApply wpm_ret. by iApply "HQ". Qed.

Lemma block_address r off : 0 <= off < block_size -> (r * block_size + off) / block_size = r /\ (r * block_size + off) mod block_size = off.
Proof.
  intros Hoff. rw Z.div_add_l; [|done]. rw Z.div_small // Z.add_0_r. split; [done|].
  rw Z.add_comm Z_mod_plus_full. by apply Z.mod_small.
Qed.

Lemma own_slice_length s bs : own_slice s bs ⊢ ⌜GRPC_SLICE_LENGTH s = Z.of_nat (length bs) /\ Z.of_nat (length bs) < 2 ^ 63⌝.
Proof.
  destruct s as [r n a|n data]; cbn [own_slice GRPC_SLICE_LENGTH].
  - iIntros "(%e & H & Hr & %Hn)". iPureIntro. destruct Hn as (_ & -> & Hl). rw length_app in Hl. unfold block_size in Hl. lia.
  - iIntros "%Hn". iPureIntro. destruct Hn as (Hn & Hl & ->). rw length_take. lia.
Qed.

Lemma own_slice_shrink r a n bs bs' :
  own_slice (refcounted r n a) (bs ++ bs') ⊢ own_slice (refcounted r (Z.of_nat (length bs)) a) bs ∗ garbage.
Proof.
  iIntros "(%e & H & Hr & %Hn)". destruct Hn as (-> & -> & Hl). rw -app_assoc in Hl. rw -app_assoc.
  iSplitL; [|iApply garbage_emp; done]. iExists (bs' ++ e). iFrame. by iPureIntro.
Qed.

Lemma wpm_store_load r n a bs (off k : nat) (Q : list byte -> hG) :
  (off + k <= length bs)%nat ->
  ⊢ own_slice (refcounted r n a) bs -∗ (own_slice (refcounted r n a) bs -∗ Q (take k (drop off bs))) -∗
    wpm (store_load (a + Z.of_nat off) (Z.of_nat k)) Q.
Proof.
  iIntros (Hk) "(%e & H & Hr & %Hn) HQ". destruct Hn as (-> & -> & Hl). pose proof Hl as Hl'. rw length_app in Hl'. unfold store_load.
  destruct (block_address r (Z.of_nat off)) as [-> ->]; [lia|]. wbind. iApply (wpm_block_bytes with "H"). iIntros "H".
  rw decide_True; [|rw length_app; lia]. iApply wpm_ret. rw !Nat2Z.id drop_app_le; [|lia]. rw take_app_le; [|rw length_drop; lia].
  iApply "HQ". iExists e. by iFrame.
Qed.

Lemma overwrite_app_le w e off bs : (off + length bs <= length w)%nat -> overwrite (w ++ e) off bs = overwrite w off bs ++ e.
Proof. intros Hl. unfold overwrite. rw take_app_le; [|lia]. rw drop_app_le; [|lia]. by rw -!app_assoc. Qed.

Lemma wpm_store_store r n a w (off : nat) bs (Q : unit -> hG) :
  (off + length bs <= length w)%nat ->
  ⊢ own_slice (refcounted r n a) w -∗ (own_slice (refcounted r n a) (overwrite w off bs) -∗ Q tt) -∗
    wpm (store_store (a + Z.of_nat off) bs) Q.
Proof.
  iIntros (Hk) "(%e & H & Hr & %Hn) HQ". destruct Hn as (-> & -> & Hl). pose proof Hl as Hl'. rw length_app in Hl'. unfold store_store.
  destruct (block_address r (Z.of_nat off)) as [-> ->]; [lia|]. wbind. iApply (wpm_block_bytes with "H"). iIntros "H".
  rw decide_True; [|rw length_app; lia]. iApply (wpm_set_obj with "H"). iIntros "H". rw Nat2Z.id overwrite_app_le; [|done].
  iApply "HQ". iExists e. iFrame. iPureIntro. rw length_app length_overwrite; [|done]. split_and!; [done|done|lia].
Qed.

Lemma wpm_slice_of bs (Q : grpc_slice -> hG) :
  Z.of_nat (length bs) < block_size ->
  (∀ s, ⟨has_refcount s = true <-> GRPC_SLICE_INLINED_SIZE < Z.of_nat (length bs)⟩ -∗ own_slice s bs -∗ Q s) ⊢ wpm (slice_of bs) Q.
Proof.
  iIntros (Hl) "HQ". unfold slice_of. case_decide as Hs.
  - iApply wpm_ret. iApply "HQ"; iPureIntro; cbn [has_refcount]; [split; [done|lia]|]. unfold GRPC_SLICE_INLINED_SIZE in Hs.
    rw Nat2Z.id take_ge; [|done]. split_and!; [lia|lia|done|done].
  - wbind. iApply wpm_new_obj. iIntros (r) "H". wbind. iApply wpm_add_ref. iIntros "Hr". iApply wpm_ret.
    iApply ("HQ" with "[]"); [iPureIntro; cbn [has_refcount]; split; [lia|done]|].
    cbn [own_slice]. iExists []. rw app_nil_r. by iFrame.
Qed.

Lemma wpm_split_slice s bs bs' (Q : grpc_slice * grpc_slice -> hG) :
  ⊢ own_slice s (bs ++ bs') -∗ (∀ s1 s2, own_slice s1 bs -∗ own_slice s2 bs' -∗ Q (s1, s2)) -∗
    wpm (split_slice s (Z.of_nat (length bs))) Q.
Proof.
  iIntros "H HQ". destruct s as [r n a|n data]; cbn [split_slice].
  - iAssert (⟨n = (Z.of_nat (length bs) + Z.of_nat (length bs'))%Z /\ Z.of_nat (length bs') < block_size⟩ ∗ own_slice (refcounted r n a) (bs ++ bs'))%I
      with "[H]" as "[%Hnl H]".
    { iDestruct "H" as "(%e & H & Hr & %Hn)". destruct Hn as (-> & -> & Hl). iSplitR; [|iExists e; by iFrame].
      iPureIntro. rw !length_app in Hl. rw length_app. lia. }
    destruct Hnl as [-> Hl]. replace (Z.of_nat (length bs) + Z.of_nat (length bs') - Z.of_nat (length bs)) with (Z.of_nat (length bs')) by lia.
    wbind. iApply (wpm_store_load with "H"); [by rw length_app|]. iIntros "H". rw drop_app_length take_ge //.
    wbind. iApply wpm_slice_of; [done|]. iIntros (t _) "Ht". iApply wpm_ret. iApply ("HQ" with "[H] Ht").
    iDestruct "H" as "(%e & H & Hr & %Hn)". destruct Hn as (-> & _ & Hl'). rw -app_assoc in Hl'. iExists (bs' ++ e).
    rw -app_assoc. iFrame. by iPureIntro.
  - iDestruct "H" as "%H". destruct H as (Hn & Hl & E). iApply wpm_ret. iApply "HQ"; iPureIntro.
    + pose proof (f_equal length E) as El. rw length_app length_take in El. split_and!; [lia|lia|lia|].
      apply (f_equal (take (length bs))) in E. rw take_app_length take_take in E. rw Nat2Z.id {1}E. f_equal. lia.
    + pose proof (f_equal length E) as El. rw length_app length_take in El. rw Nat2Z.id length_drop. split_and!; [lia|lia|lia|].
      apply (f_equal (drop (length bs))) in E. rw drop_app_length in E. rw {1}E skipn_firstn_comm. f_equal. lia.
Qed.

Lemma wpm_unref_slice s bs (Q : unit -> hG) : ⊢ own_slice s bs -∗ (emp -∗ Q tt) -∗ wpm (unref_slice s) Q.
Proof.
  iIntros "H HQ". destruct s as [r n a|n data]; cbn [unref_slice own_slice].
  - iDestruct "H" as (e) "(H & Hr & %Hn)". iDestruct (block_garbage with "H") as "H". iApply (wpm_drop with "H").
    by iApply (wpm_drop_ref with "Hr").
  - iDestruct "H" as "%H". iApply wpm_ret. by iApply "HQ".
Qed.
Lemma wpm_unref_shared s (Q : unit -> hG) : ⊢ ref_own s -∗ (emp -∗ Q tt) -∗ wpm (unref_slice s) Q.
Proof.
  iIntros "H HQ". destruct s as [r n a|n data]; cbn [unref_slice ref_own].
  - by iApply (wpm_drop_ref with "H").
  - iApply wpm_ret. by iApply "HQ".
Qed.
Lemma wpm_ref_slice s (Q : grpc_slice -> hG) : (ref_own s -∗ Q s) ⊢ wpm (ref_slice s) Q.
Proof.
  iIntros "HQ". destruct s as [r n a|n data]; cbn [ref_slice ref_own].
  - wbind. iApply wpm_add_ref. iIntros "H". iApply wpm_ret. by iApply "HQ".
  - iApply wpm_ret. by iApply "HQ".
Qed.

(** References to all slices of a list, or none. *)
Lemma wpm_ref_all ss (Q : unit -> hG) :
  (([∗ list] s ∈ ss, ref_own s) -∗ Q tt) ⊢ wpm (for_each (fun s => ref_slice s ;; mret tt) ss) Q.
Proof.
  revert Q. induction ss as [|s ss IH]; intros Q; iIntros "HQ"; cbn [for_each].
  - iApply wpm_ret. by iApply "HQ".
  - wbind. wbind. iApply wpm_ref_slice. iIntros "H". iApply wpm_ret. iApply IH. iIntros "Hs". iApply "HQ". iFrame.
Qed.
Lemma wpm_unref_all ss bss (Q : unit -> hG) :
  ⊢ ([∗ list] s;bs ∈ ss;bss, own_slice s bs) -∗ (emp -∗ Q tt) -∗ wpm (for_each unref_slice ss) Q.
Proof.
  revert bss Q. induction ss as [|s ss IH]; intros [|bs bss] Q; iIntros "H HQ"; cbn [for_each].
  - iApply wpm_ret. iDestruct "H" as "_". by iApply "HQ".
  - iDestruct (big_sepL2_nil_inv_l with "H") as "%H". done.
  - iDestruct (big_sepL2_nil_inv_r with "H") as "%H". done.
  - iDestruct "H" as "[Hs H]". wbind. iApply (wpm_unref_slice with "Hs"). iIntros "_". by iApply (IH with "H").
Qed.
Lemma wpm_unref_all_shared ss (Q : unit -> hG) :
  ⊢ ([∗ list] s ∈ ss, ref_own s) -∗ (emp -∗ Q tt) -∗ wpm (for_each unref_slice ss) Q.
Proof.
  revert Q. induction ss as [|s ss IH]; intros Q; iIntros "H HQ"; cbn [for_each].
  - iApply wpm_ret. iDestruct "H" as "_". by iApply "HQ".
  - iDestruct "H" as "[Hs H]". wbind. iApply (wpm_unref_shared with "Hs"). iIntros "_". by iApply (IH with "H").
Qed.
End laws.

#[export] Program Instance store_laws : CoreLaws store := {
  slice_own := own_slice;
  slice_ref := ref_own;
  buffer_cell b ss := obj_at b (OBuffer true ss);
  add_separate := True;
  reader_inits := True;
  reader_own rd b i := ⟨rd = Reader (Some b) (Some b) (Z.of_nat i)⟩%I;
}.
Next Obligation. apply own_slice_length. Qed.
Next Obligation. done. Qed.
Next Obligation. apply own_slice_shrink. Qed.
Next Obligation. intros. by apply wpm_store_load. Qed.
Next Obligation. intros. by apply wpm_store_store. Qed.
Next Obligation.
  intros n Q Hn. iIntros "HQ". iApply wpm_slice_of; [rw length_replicate; unfold block_size; lia|].
  iIntros (s Hs) "H". iApply ("HQ" with "[] H"). iPureIntro. rw length_replicate in Hs |- *. rw Z2Nat.id in Hs |- *; [|lia]. done.
Qed.
Next Obligation. intros. apply wpm_split_slice. Qed.
Next Obligation. intros. apply wpm_unref_slice. Qed.
Next Obligation. intros. apply wpm_unref_shared. Qed.
Next Obligation.
  intros b ss bss s bs Q. iIntros "Hb Hss Hs HQ". cbn [grpc_slice_buffer_add store_core]. wbind. iApply (wpm_buffer_at with "Hb"). iIntros "Hb".
  cbn [fst snd]. iApply (wpm_set_obj with "Hb"). iIntros "Hb". iApply ("HQ" $! _ (bss ++ [bs]) with "[] Hb").
  - iPureIntro. rw concat_app length_app /= app_nil_r. by split_and!.
  - unfold slices_own. iFrame. done.
Qed.
Next Obligation.
  intros b ss s Q. iIntros "Hb HQ". cbn [grpc_slice_buffer_pop store_core]. wbind. iApply (wpm_buffer_at with "Hb"). iIntros "Hb".
  cbn [fst snd]. iApply (wpm_set_obj with "Hb"). rw length_app Nat.add_sub take_app_length. done.
Qed.
Next Obligation. intros. apply wpm_ref_slice. Qed.
Next Obligation.
  intros Q. iIntros "HQ". cbn [grpc_raw_byte_buffer_create store_core for_each]. wbind. iApply wpm_ret. by iApply wpm_new_obj.
Qed.
Next Obligation.
  intros s bs Q. iIntros "Hs HQ". cbn [grpc_raw_byte_buffer_create store_core]. wbind. iApply wpm_ref_all. iIntros "[Hr _]".
  iApply wpm_new_obj. iIntros (b) "Hb". iApply ("HQ" with "Hb Hs Hr").
Qed.
Next Obligation.
  intros b ss Q. iIntros "Hb HQ". cbn [grpc_byte_buffer_copy store_core]. wbind. iApply (wpm_buffer_at with "Hb"). iIntros "Hb". cbn [fst snd].
  wbind. iApply wpm_ref_all. iIntros "Hr". iApply wpm_new_obj. iIntros (b') "Hb'". iApply ("HQ" with "Hb Hb' Hr").
Qed.
Next Obligation.
  intros b ss bss Q. iIntros "Hb Hs HQ". cbn [grpc_byte_buffer_destroy store_core]. wbind. iApply (wpm_buffer_at with "Hb"). iIntros "Hb". cbn [fst snd].
  wbind. iApply (wpm_unref_all with "Hs"). iIntros "_". by iApply (wpm_del_obj with "Hb").
Qed.
Next Obligation.
  intros b ss Q. iIntros "Hb Hs HQ". cbn [grpc_byte_buffer_destroy store_core]. wbind. iApply (wpm_buffer_at with "Hb"). iIntros "Hb". cbn [fst snd].
  wbind. iApply (wpm_unref_all_shared with "Hs"). iIntros "_". by iApply (wpm_del_obj with "Hb").
Qed.
Next Obligation.
  intros b ss Q. iIntros "Hb HQ". cbn [grpc_byte_buffer_length store_core]. wbind. iApply (wpm_buffer_at with "Hb"). iIntros "Hb".
  iApply wpm_ret. by iApply "HQ".
Qed.
Next Obligation.
  intros b ss Q. iIntros "Hb HQ". cbn [grpc_byte_buffer_reader_init store_core]. wbind. iApply (wpm_buffer_at with "Hb"). iIntros "Hb".
  iApply wpm_ret. cbn [fst]. by iApply ("HQ" $! (Some _) with "Hb").
Qed.
Next Obligation.
  intros rd b i ss Q. iIntros "-> Hb HQ". cbn [grpc_byte_buffer_reader_peek store_core buffer_out buffer_in current_index]. wbind. iApply (wpm_buffer_at with "Hb"). iIntros "Hb".
  cbn [fst snd]. iApply wpm_ret. rw Nat2Z.id. iApply ("HQ" with "[] Hb"). iPureIntro. f_equal. case_decide; lia.
Qed.
Next Obligation. intros rd b i Q. iIntros "-> HQ". iApply wpm_ret. by iApply "HQ". Qed.

(** ** One call *)

Definition call_key : Z := 0.
Definition tag_key (tag : cq_tag) : Z := match tag with pending_ops => -1 | local_ops => -2 end.

Fixpoint map_each {A B} (f : A -> stm store B) (l : list A) : stm store (list B) :=
  match l with [] => mret [] | x :: l => y ← f x; ys ← map_each f l; mret (y :: ys) end.

Definition buffer_content (b : Z) : stm store (list byte) :=
  x ← buffer_at b; bss ← map_each StringFromCopiedSlice (snd x); mret (concat bss).
Fixpoint batch_message (ops : list grpc_op) : option Z :=
  match ops with
  | GRPC_OP_SEND_MESSAGE _ b :: _ => b
  | _ :: ops => batch_message ops
  | [] => None
  end.
Definition call_at : stm store (list (list (list byte)) * list wire_event) :=
  o ← get_obj call_key; match o with OCall inq outq => mret (inq, outq) | _ => st_fault NullDeref end.

Definition store_start (tag : cq_tag) (ops : list grpc_op) : stm store bool :=
  o ← get_obj (tag_key tag);
  match o, ops with
  | OIdle, [GRPC_OP_RECV_MESSAGE] => set_obj (tag_key tag) OReceive ;; mret true
  | OIdle, _ =>
      bs ← match batch_message ops with Some b => buffer_content b | None => mret [] end;
      c ← call_at;
      set_obj call_key (OCall (fst c) (snd c ++ concat (op_event bs <$> ops))) ;;
      set_obj (tag_key tag) OFlight ;; mret true
  | _, _ => mret false
  end.
Definition store_pluck (tag : cq_tag) : stm store (bool * option Z) :=
  o ← get_obj (tag_key tag);
  set_obj (tag_key tag) OIdle ;;
  match o with
  | OReceive =>
      c ← call_at;
      match fst c with
      | [] => mret (true, None)
      | bss :: inq =>
          set_obj call_key (OCall inq (snd c)) ;;
          ss ← map_each slice_of bss; b ← new_obj (OBuffer true ss); mret (true, Some b)
      end
  | _ => mret (true, None)
  end.

#[export] Instance store_call : GrpcCall store := {
  gpr_malloc _ := new_obj OArray;
  gpr_free p := match p with Some p => del_obj p | None => mret tt end;
  grpc_call_ref := add_ref call_key;
  grpc_call_unref := drop_ref call_key;
  grpc_call_start_batch := store_start;
  grpc_completion_queue_pluck := store_pluck;
}.

Definition small (c : list byte) : Prop := Z.of_nat (length c) < block_size.

Section calls.
  Implicit Types (b : Z) (bss : list (list byte)) (inq : list (list (list byte))) (outq : list wire_event) (ops : list grpc_op).

Definition call_state inq outq : hG := (obj_at call_key (OCall inq outq) ∗ ⟨Forall (Forall small) inq⟩)%I.

Lemma wpm_call_at inq outq (Q : _ -> hG) :
  ⊢ obj_at call_key (OCall inq outq) -∗ (obj_at call_key (OCall inq outq) -∗ Q (inq, outq)) -∗ wpm call_at Q.
Proof. iIntros "H HQ". unfold call_at. wbind. iApply (wpm_get_obj with "H"). iIntros "H". iApply wpm_ret. by iApply "HQ". Qed.

Lemma wpm_StringFromCopiedSlice s bs (Q : list byte -> hG) :
  ⊢ own_slice s bs -∗ (own_slice s bs -∗ Q bs) -∗ wpm (StringFromCopiedSlice s) Q.
Proof.
  iIntros "H HQ". unfold StringFromCopiedSlice.
  iDestruct (keep_pure _ _ (own_slice_length s bs) with "H") as "[H %Hl]". destruct Hl as [-> Hl]. destruct s as [r n a|n data]; cbn [GRPC_SLICE_START_PTR read_ptr].
  - pose proof (wpm_store_load r n a bs 0 (length bs) Q) as Hw. rw Z.add_0_r drop_0 take_ge // in Hw. by iApply (Hw with "H").
  - iDestruct "H" as "%H". destruct H as (Hn & Hd & E). pose proof (f_equal length E) as El. rw length_take in El.
    rw decide_True; [|lia]. iApply wpm_ret. change (Z.to_nat 0) with 0%nat.
    rw drop_0 Nat2Z.id (_ : take (length bs) data = bs); [|rw {2}E; f_equal; lia]. iApply "HQ". by iPureIntro.
Qed.

Lemma wpm_read_slices ss bss (Q : list (list byte) -> hG) :
  ⊢ ([∗ list] s;bs ∈ ss;bss, own_slice s bs) -∗ (([∗ list] s;bs ∈ ss;bss, own_slice s bs) -∗ Q bss) -∗ wpm (map_each StringFromCopiedSlice ss) Q.
Proof.
  revert bss Q. induction ss as [|s ss IH]; intros [|bs bss] Q; iIntros "H HQ"; cbn [map_each].
  - iApply wpm_ret. by iApply "HQ".
  - iDestruct (big_sepL2_nil_inv_l with "H") as "%H". done.
  - iDestruct (big_sepL2_nil_inv_r with "H") as "%H". done.
  - iDestruct "H" as "[Hs H]". wbind. iApply (wpm_StringFromCopiedSlice with "Hs"). iIntros "Hs". wbind.
    iApply (IH with "H"). iIntros "H". iApply wpm_ret. iApply "HQ". iFrame.
Qed.

Lemma wpm_make_slices bss (Q : list grpc_slice -> hG) :
  Forall small bss -> (∀ ss, ([∗ list] s;bs ∈ ss;bss, own_slice s bs) -∗ Q ss) ⊢ wpm (map_each slice_of bss) Q.
Proof.
  intros Hb. revert Q. induction Hb as [|bs bss Hbs Hb IH]; intros Q; iIntros "HQ"; cbn [map_each].
  - iApply wpm_ret. by iApply "HQ".
  - wbind. iApply wpm_slice_of; [done|]. iIntros (s _) "Hs". wbind. iApply IH. iIntros (ss) "H". iApply wpm_ret. iApply "HQ". iFrame.
Qed.

Lemma batch_message_events buf ops bs :
  forallb (sends buf) ops = true ->
  match batch_message ops with Some b => buf = Some b | None => forall bs', op_event bs' <$> ops = op_event bs <$> ops end.
Proof.
  induction ops as [|op ops IH]; [done|]. cbn [forallb batch_message fmap list_fmap]. intros [Hop Hops]%andb_true_iff.
  specialize (IH Hops). destruct op as [fl md l|fl b| |tr c d]; cbn [sends] in Hop; [| |done|].
  - destruct (batch_message ops); [done|]. intros bs'. cbn. by rw (IH bs').
  - apply bool_decide_eq_true in Hop as [-> Hne]. by destruct buf.
  - destruct (batch_message ops); [done|]. intros bs'. cbn. by rw (IH bs').
Qed.

(** The bytes of the message of a batch, as far as its events have any. *)
Lemma wpm_batch_content buf bss ops (Q : list byte -> hG) :
  forallb (sends buf) ops = true ->
  ⊢ buffer_chunks buf bss -∗
    (∀ bs, ⟨op_event bs <$> ops = op_event (concat bss) <$> ops⟩ -∗ buffer_chunks buf bss -∗ Q bs) -∗
    wpm (match batch_message ops with Some b => buffer_content b | None => mret [] end) Q.
Proof.
  iIntros (Hops) "Hb HQ". pose proof (batch_message_events buf ops (concat bss) Hops) as Hm. destruct (batch_message ops) as [b|].
  - subst buf. iDestruct "Hb" as (ss) "[Hb Hs]". unfold buffer_content. wbind. iApply (wpm_buffer_at with "Hb"). iIntros "Hb". cbn [snd].
    wbind. iApply (wpm_read_slices with "Hs"). iIntros "Hs". iApply wpm_ret. iApply "HQ"; [done|]. iExists ss. iFrame.
  - iApply wpm_ret. iApply ("HQ" with "[] Hb"). iPureIntro. apply Hm.
Qed.

Lemma wpm_store_start tag ops buf bss inq outq (Q : bool -> hG) :
  forallb (sends buf) ops = true ->
  ⊢ obj_at (tag_key tag) OIdle -∗ call_state inq outq -∗ buffer_chunks buf bss -∗
    (call_state inq (outq ++ concat (op_event (concat bss) <$> ops)) -∗
     (obj_at (tag_key tag) OFlight ∗ ∃ bss, buffer_chunks buf bss) -∗ Q true) -∗
    wpm (store_start tag ops) Q.
Proof.
  iIntros (Hops) "Hi [Hc %Hs] Hb HQ". unfold store_start. wbind. iApply (wpm_get_obj with "Hi"). iIntros "Hi".
  assert (Hm : forall (x y : stm store bool), match ops with [GRPC_OP_RECV_MESSAGE] => x | _ => y end = y).
  { intros x y. destruct ops as [|[] [|]]; done. }
  rw Hm. wbind. iApply (wpm_batch_content with "Hb"); [done|]. iIntros (bs Hbs) "Hb". wbind. iApply (wpm_call_at with "Hc"). iIntros "Hc".
  cbn [fst snd]. rw Hbs. wbind. iApply (wpm_set_obj with "Hc"). iIntros "Hc". wbind. iApply (wpm_set_obj with "Hi"). iIntros "Hi".
  iApply wpm_ret. iApply ("HQ" with "[$Hc //] [$Hi Hb]"). by iExists bss.
Qed.

Lemma wpm_store_receive tag inq outq (Q : bool * option Z -> hG) :
  ⊢ call_state inq outq -∗ obj_at (tag_key tag) OReceive -∗
    (∀ r x inq', ⟨match x with None => inq' = inq /\ (r = true -> inq = []) | Some (_, bss) => inq = bss :: inq' end⟩ -∗
       obj_at (tag_key tag) OIdle -∗ call_state inq' outq -∗
       (if x is Some (b, bss) then buffer_chunks (Some b) bss else emp) -∗ Q (r, fst <$> x)) -∗
    wpm (store_pluck tag) Q.
Proof.
  iIntros "[Hc %Hs] Hi HQ". unfold store_pluck. wbind. iApply (wpm_get_obj with "Hi"). iIntros "Hi". wbind.
  iApply (wpm_set_obj with "Hi"). iIntros "Hi". wbind. iApply (wpm_call_at with "Hc"). iIntros "Hc". cbn [fst snd]. destruct inq as [|bss inq].
  - iApply wpm_ret. iApply ("HQ" $! true None [] with "[] Hi [$Hc //]"); done.
  - apply Forall_cons in Hs as [Hbss Hs]. wbind. iApply (wpm_set_obj with "Hc"). iIntros "Hc". wbind. iApply wpm_make_slices; [done|].
    iIntros (ss) "Hss". wbind. iApply wpm_new_obj. iIntros (b) "Hb". iApply wpm_ret.
    iApply ("HQ" $! true (Some (b, bss)) inq with "[] Hi [$Hc //]"); [done|]. iExists ss. iFrame.
Qed.
End calls.

#[export] Program Instance store_call_laws : CallLaws store := {
  block p := obj_at p OArray;
  call_ref := ref_to call_key;
  call_own := call_state;
  idle tag := obj_at (tag_key tag) OIdle;
  in_flight tag buf := (obj_at (tag_key tag) OFlight ∗ ∃ bss, buffer_chunks buf bss)%I;
  receiving tag := obj_at (tag_key tag) OReceive;
}.
Next Obligation. intros n Q. apply wpm_new_obj. Qed.
Next Obligation. intros p Q. apply wpm_del_obj. Qed.
Next Obligation. intros Q. apply (wpm_ret tt). Qed.
Next Obligation. intros Q. apply wpm_add_ref. Qed.
Next Obligation. intros Q. apply wpm_drop_ref. Qed.
Next Obligation. intros. by apply wpm_store_start. Qed.
Next Obligation.
  intros tag buf Q. iIntros "[Hi [%bss Hb]] HQ". cbn [grpc_completion_queue_pluck store_call]. unfold store_pluck. wbind.
  iApply (wpm_get_obj with "Hi"). iIntros "Hi". wbind. iApply (wpm_set_obj with "Hi"). iIntros "Hi". iApply wpm_ret.
  iApply ("HQ" with "Hi Hb").
Qed.
Next Obligation.
  intros tag inq outq Q. iIntros "Hi Hc HQ". cbn [grpc_call_start_batch store_call]. unfold store_start. wbind.
  iApply (wpm_get_obj with "Hi"). iIntros "Hi". wbind. iApply (wpm_set_obj with "Hi"). iIntros "Hi". iApply wpm_ret.
  iApply ("HQ" with "Hc Hi").
Qed.
Next Obligation. intros. apply wpm_store_receive. Qed.

(** ** A message class *)

(** Short and long texts: [n] times the same byte. *)
Record text := Text { long : bool; letter : byte }.
Definition text_size (t : text) : nat := if long t then 40%nat else 3%nat.
Definition text_bytes (t : text) : list byte := replicate (text_size t) (letter t).

(** All bytes of a stream. *)
Fixpoint collect (fuel : nat) (acc : list byte) : iclient (list byte) :=
  match fuel with
  | O => IRet acc
  | Datatypes.S fuel => IRefresh (fun c => match c with Some bs => collect fuel (acc ++ bs) | None => IRet acc end)
  end.
Definition text_of (bs : list byte) : option text :=
  match bs with
  | x :: _ => if decide (bs = text_bytes (Text false x)) then Some (Text false x)
              else if decide (bs = text_bytes (Text true x)) then Some (Text true x) else None
  | [] => None
  end.
Fixpoint iclient_map {A B} (f : A -> B) (t : iclient A) : iclient B :=
  match t with
  | IRet a => IRet (f a)
  | INext k => INext (fun c => iclient_map f (k c))
  | IRefresh k => IRefresh (fun c => iclient_map f (k c))
  | IBackUp n k => IBackUp n (iclient_map f k)
  | ISkip n k => ISkip n (fun b => iclient_map f (k b))
  | IByteCount k => IByteCount (fun n => iclient_map f (k n))
  end.

#[export] Instance text_message : Message text := {
  ByteSize t := Z.of_nat (text_size t);
  SerializeWithCachedSizesToArray := text_bytes;
  SerializeToZeroCopyStream t := write_all 41 (text_bytes t);
  decode t0 := iclient_map (fun bs => match text_of bs with Some t => (t, true, true) | None => (t0, false, true) end) (collect 42 []);
  InitializationErrorString _ := "Missing required fields: letter";
}.

Lemma ispec_map {A B} (f : A -> B) total t rest last :
  ispec total (iclient_map f t) rest last = (fun x => (f (fst x), snd x)) <$> ispec total t rest last.
Proof.
  revert rest last. induction t as [a|k IH|k IH|n t IH|n k IH|k IH]; intros rest last; cbn [iclient_map ispec].
  - done.
  - by destruct rest.
  - by destruct (drop_empty rest).
  - destruct last as [c|]; [|done]. cbn. destruct (bool_decide _); [apply IH|done].
  - destruct (bool_decide _); [apply IH|done].
  - apply IH.
Qed.

Lemma drop_empty_concat rest : concat (drop_empty rest) = concat rest.
Proof. induction rest as [|[|x c] rest IH]; [done|apply IH|done]. Qed.
Lemma drop_empty_cons rest c rest' : drop_empty rest = c :: rest' -> (0 < length c)%nat.
Proof. induction rest as [|[|x c'] rest IH]; [done|apply IH|]. cbn. intros [= <- _]. simpl. lia. Qed.

Lemma collect_all fuel total acc rest last :
  (length (concat rest) < fuel)%nat -> ispec total (collect fuel acc) rest last = Some (acc ++ concat rest, []).
Proof.
  revert acc rest last. induction fuel as [|fuel IH]; intros acc rest last Hf; [lia|]. cbn [collect ispec].
  rw -(drop_empty_concat rest) in Hf |- *. destruct (drop_empty rest) as [|c rest'] eqn:E; cbn [concat] in *.
  - by rw app_nil_r.
  - apply drop_empty_cons in E. rw length_app in Hf. rw IH; [by rw app_assoc|lia].
Qed.

Lemma text_of_bytes t : text_of (text_bytes t) = Some t.
Proof. by destruct t as [[] []]. Qed.

#[export] Program Instance text_laws : MessageLaws text := { encode := text_bytes }.
Next Obligation. intros t. unfold text_bytes. rw length_replicate. split; [done|]. by destruct t as [[] ?]. Qed.
Next Obligation. done. Qed.
Next Obligation.
  intros t sep Hsep. apply (write_all_ok sep _ 41 (text_bytes t) _ [] None).
  - unfold text_bytes. rw length_replicate. unfold text_size. destruct (long t); lia.
  - simpl. lia.
  - destruct Hsep as [Hs|Hl]; [by left|right]. split; [done|lia].
Qed.
Next Obligation.
  intros t t0 bss Hb. exists []. cbn [decode text_message]. rw ispec_map collect_all.
  - cbn. by rw Hb text_of_bytes.
  - rw Hb. unfold text_bytes. rw length_replicate. unfold text_size. destruct (long t); lia.
Qed.
