(* ===== verification/GrpcProps.v ===== *)
(** * Byte streams and calls of gRPC: the properties

    Each theorem holds for whatever C library keeps [CoreLaws] and [CallLaws], and
    whatever messages keep [MessageLaws]; the witnesses use the store of [GrpcStore]. *)
From Stdlib Require Import ZArith Lia Strings.Byte Strings.String.
From stdpp Require Import base tactics option list list_numbers gmap strings.
From iris.bi Require Import bi big_op.
From iris.proofmode Require Import proofmode.
From S2P Require Import Prelude Bits HeapLogic GrpcSlice ProtoBufferReader ProtoBufferWriter ProtoUtils CallOps ServerStream GrpcStore.

(** What a triple says of a run. *)
Lemma wpm_run {S A} `{Heap S} (m : stm S A) (P : hpropI S) (φ : A -> Prop) (Q : A -> hpropI S) s :
  (P ⊢ wpm m (fun a => ⟨φ a⟩ ∗ Q a)) -> holds_of P s ->
  exists a s', m s = Done (a, s') /\ φ a /\ holds_of (Q a ∗ garbage)%I s'.
Proof.
  intros Hm Hs. destruct (wpm_adequate m P _ s Hm Hs) as (a & s' & E & Hq). exists a, s'. split; [done|].
  apply (entails_in _ (⌜φ a⌝ ∧ (Q a ∗ garbage))%I) in Hq; [by destruct Hq|]. iIntros "[[%Hφ HQ] Hg]". iSplit; [done|]. iFrame.
Qed.

Lemma wpm_run_only {S A} `{Heap S} (m : stm S A) (P : hpropI S) (φ : A -> Prop) s :
  (P ⊢ wpm m (fun a => ⟨φ a⟩)) -> holds_of P s -> exists a s', m s = Done (a, s') /\ φ a /\ heap_garbage s'.
Proof.
  intros Hm Hs. destruct (wpm_adequate m P _ s Hm Hs) as (a & s' & E & Hq). exists a, s'. split; [done|].
  apply (entails_in _ (⌜φ a⌝ ∧ garbage)%I) in Hq; [by destruct Hq|]. iIntros "[%Hφ Hg]". by iSplit.
Qed.

Lemma holds_ex {S A} `{Heap S} (Φ : A -> hpropI S) P s : holds_of ((∃ a, Φ a) ∗ P)%I s -> exists a, holds_of (Φ a ∗ P)%I s.
Proof. intros Hs. apply (entails_in _ (∃ a, Φ a ∗ P)%I) in Hs; [exact Hs|]. iIntros "[[%a H] HP]". iExists a. iFrame. Qed.
(** Where something weaker than the postcondition is enough. *)
Lemma wpm_run_weaker {S A} `{Heap S} (m : stm S A) (P : hpropI S) (Q : A -> hpropI S) (φ : A -> Prop) s :
  (P ⊢ wpm m Q) -> (forall a, Q a ⊢ ⟨φ a⟩) -> holds_of P s -> exists a s', m s = Done (a, s') /\ φ a /\ heap_garbage s'.
Proof.
  intros Hm HQ. apply wpm_run_only. iIntros "HP". iDestruct (Hm with "HP") as "Hw".
  iApply (wpm_wand with "Hw"). iIntros (a). iApply HQ.
Qed.

Lemma holds_pure {S} `{Heap S} (φ : Prop) (Q P : hpropI S) s : holds_of ((⟨φ⟩ ∗ Q) ∗ P)%I s -> φ /\ holds_of (Q ∗ P)%I s.
Proof. intros Hs. apply (entails_in _ (⌜φ⌝ ∧ (Q ∗ P))%I) in Hs; [exact Hs|]. iIntros "[[%Hφ H] HP]". iSplit; [done|]. iFrame. Qed.

(** ** Streams *)

Section streams.
  Context {S A : Type} `{CoreLaws S}.
  Implicit Types (b : Z) (bss : list (list byte)).

(** Open a reader, run the client, close it. *)
Definition read_stream (fuel : nat) (t : iclient A) b : stm S A :=
  r ← ProtoBufferReader.construct (Some b);
  x ← irun fuel t r;
  ProtoBufferReader.destroy (snd x) ;; mret (fst x).

(** The same with a writer; the result and the buffer. *)
Definition write_stream (block total : Z) (t : oclient A) : stm S (A * ByteBuffer) :=
  x ← ProtoBufferWriter.construct None block total;
  y ← orun t None (snd x);
  ProtoBufferWriter.destroy (snd y) ;; mret (fst y, fst x).

(** C18: Whatever calls of [Next], [BackUp], [Skip] and [ByteCount] a client makes
    within the contract of [ZeroCopyInputStream], the reader answers as the list of the
    chunks of the buffer does: every byte is given once and in order, what is backed up
    is given again, [Skip] ends, and the buffer is as it was. The library makes a reader
    for every buffer; [GenericDeserialize] does not use one that failed (C21). *)
Theorem reader_refines fuel (t : iclient A) b bss a rest :
  reader_inits -> Z.of_nat (length (concat bss)) < 2 ^ 31 -> (length bss < fuel)%nat ->
  ispec (length (concat bss)) t bss None = Some (a, rest) ->
  buffer_chunks (Some b) bss ⊢ wpm (read_stream fuel t b) (fun a' => ⟨a' = a⟩ ∗ buffer_chunks (Some b) bss).
Proof.
  iIntros (Hinit Hlen Hfuel Hspec) "(%ss & Hb)". unfold read_stream. wbind. iApply (wpm_reader_construct with "Hb"). iIntros (r) "Hb Hr".
  destruct (status_ok r); [|by iDestruct "Hr" as "%Hno"]. wbind. iApply (wpm_irun with "Hr Hb"); [done|done|exact Hspec|]. iIntros (r' last) "Hr Hb". cbn [fst snd].
  wbind. iApply (wpm_reader_destroy with "Hr"). iIntros "_". iApply wpm_ret. iSplitR; [done|]. by iExists ss.
Qed.

(** C19: A client of the writer leaves in the buffer the bytes that its writes and its
    [BackUp]s say, whatever sizes and contents the chunks have; the spare slice is given
    back. The client keeps the contract of [ZeroCopyOutputStream] and asks for no chunk
    when all bytes have room, as [Next] asserts. As [slice_buffer.h] allows
    [grpc_slice_buffer_add] to concatenate slices, this holds of clients that need one
    chunk; it holds of all clients if the library keeps slices with their own memory
    apart ([add_separate]), which the writer relies on. *)
Theorem writer_refines (zero : Prop) block total (t : oclient A) (R : A -> list byte -> Prop) :
  0 < block < 2 ^ 31 -> Z.of_nat total < 2 ^ 31 -> owp add_separate zero block total t [] None R ->
  emp ⊢ wpm (write_stream block (Z.of_nat total) t)
    (fun x => ∃ bss, ⟨R (fst x) (concat bss) /\ Valid (snd x) = true⟩ ∗ buffer_chunks (snd x) bss).
Proof.
  iIntros (Hblock Htotal Hwp) "_". unfold write_stream. wbind. iApply (wpm_writer_construct zero); [done|done|]. iIntros (b w Hbl) "Hw". cbn [fst snd].
  wbind. iApply (wpm_orun with "Hw"); [rw Hbl; exact Hwp|]. iIntros (a w' out last data HR) "Hw". cbn [fst snd]. wbind.
  iApply (wpm_writer_destroy with "Hw"). iIntros (bss [Hcat _]) "Hb". iApply wpm_ret. cbn [fst snd]. iExists bss. iFrame. iPureIntro. by subst out.
Qed.
End streams.

(** The store keeps slices apart and makes every reader. *)
Lemma store_separate : add_separate (S := store).
Proof. exact I. Qed.
Lemma store_inits : reader_inits (S := store).
Proof. exact I. Qed.

(** A buffer of two slices. *)
Definition two_slices : list grpc_slice := [inlined 2 [x01; x02]; inlined 2 [x03; x04]].
Definition two_slices_store : store := Store {[7 := OBuffer true two_slices]} ∅.
Lemma two_slices_own : holds_of (buffer_chunks (Some 7) [[x01; x02]; [x03; x04]]) two_slices_store.
Proof.
  apply (entails_in (obj_at 7 (OBuffer true two_slices)) _); [|done]. iIntros "H". iExists two_slices. iFrame.
  iSplitR; [|iSplitR; [|done]]; iPureIntro; simpl; split_and!; done || lia.
Qed.

Lemma reader_refines_witness :
  exists s', read_stream 3 (INext (fun c => IBackUp 1 (ISkip 2 (fun b => IRet (c, b))))) 7 two_slices_store
    = Done ((Some [x01; x02], true), s') /\ holds_of (buffer_chunks (Some 7) [[x01; x02]; [x03; x04]] ∗ garbage)%I s'.
Proof.
  destruct (wpm_run _ _ _ _ two_slices_store (reader_refines 3 (INext (fun c => IBackUp 1 (ISkip 2 (fun b => IRet (c, b)))))
    7 [[x01; x02]; [x03; x04]] (Some [x01; x02], true) [[x04]] store_inits ltac:(simpl; lia) ltac:(simpl; lia) eq_refl) two_slices_own)
    as (a & s' & E & -> & Hs).
  by exists s'.
Defined.

Lemma writer_refines_witness :
  exists x s', write_stream 1048576 (Z.of_nat 40) (write_all 41 (replicate 40%nat x61)) (∅ : store) = Done (x, s') /\
    exists bss, fst x = true /\ concat bss = replicate 40%nat x61 /\ holds_of (buffer_chunks (snd x) bss ∗ garbage)%I s'.
Proof.
  destruct (wpm_adequate _ _ _ (∅ : store) (writer_refines False 1048576 40 (write_all 41 (replicate 40%nat x61)) (fun r out => r = true /\ out = [] ++ replicate 40%nat x61)
    ltac:(lia) ltac:(lia) ltac:(apply write_all_ok; [rw length_replicate; lia|rw length_replicate /=; lia|left; apply store_separate])) eq_refl) as (x & s' & E & Hs).
  exists x, s'. split; [exact E|].
  apply holds_ex in Hs as (bss & Hs). apply holds_pure in Hs as [[[H1 H2] _] Hs]. by exists bss.
Defined.

(** ** Messages *)

Section messages.
  Context {S M : Type} `{CoreLaws S} `{!Message M} `{!MessageLaws M}.
  Implicit Types (m msg : M) (b : Z) (bss : list (list byte)).



(** C21: Without a buffer the result is "No payload", with an empty one the reader's
    error; otherwise the parser's report decides: bytes that were not consumed override
    an error of the parser, and whatever the result is the buffer is destroyed, unless
    the library cannot make a reader for it, which is reported without touching it. *)
Theorem deserialize_outcomes fuel msg b bss m parsed consumed rest :
  Z.of_nat (length (concat bss)) < 2 ^ 31 -> (length bss < fuel)%nat ->
  ispec (length (concat bss)) (decode msg) bss None = Some ((m, parsed, consumed), rest) ->
  (buffer_chunks (Some b) bss ⊢
     wpm (GenericDeserialize fuel (Some (Some b)) msg)
       (fun r => ⟨r = (if consumed then if parsed then Status_OK else Status_error INTERNAL (InitializationErrorString m)
                      else Status_error INTERNAL "Did not read entire message", Some None, m)⟩ ∨
                 no_reader b bss msg r : hpropI S)%I) /\
  (forall s : S, GenericDeserialize fuel None msg s = Done ((Status_error INTERNAL "No payload", None, msg), s)) /\
  (forall s : S, GenericDeserialize fuel (Some None) msg s =
     Done ((Status_error INTERNAL "Couldn't initialize byte buffer reader", Some None, msg), s)).
Proof.
  intros Hlen Hfuel Hspec. split; [|by split]. iIntros "Hb".
  iApply (wpm_GenericDeserialize with "Hb"); [done|done|exact Hspec|]. by iIntros (r) "$".
Qed.

(** With a library that makes every reader. *)
Lemma no_reader_inits (P : hpropI S) b bss m0 r : reader_inits -> P ∨ no_reader b bss m0 r ⊢ P.
Proof. iIntros (Hi) "[$|H]". unfold no_reader. iDestruct "H" as "[%Hno H]". by destruct Hno as [Hno _]. Qed.
End messages.

Definition hello : text := Text true "h"%byte.

(** Four bytes are not a text: the parser fails, and the buffer is gone. *)
Lemma deserialize_outcomes_witness :
  exists s', GenericDeserialize 3 (Some (Some 7)) hello two_slices_store =
    Done ((Status_error INTERNAL "Missing required fields: letter", Some None, hello), s') /\ only_blocks s'.
Proof.
  destruct (deserialize_outcomes 3 hello 7 [[x01; x02]; [x03; x04]] hello false true [] ltac:(simpl; lia) ltac:(simpl; lia) eq_refl)
    as [Hd _].
  destruct (wpm_run_weaker _ _ _ _ _ Hd (fun r => no_reader_inits _ _ _ _ r store_inits) two_slices_own) as (r & s' & E & -> & Hs).
  by exists s'.
Defined.

(** ** Calls *)

Section calls.
  Context {S W R : Type} `{CallLaws S} `{!Message W} `{!MessageLaws W} `{!Message R} `{!MessageLaws R}.
  Implicit Types (inq : list (list (list byte))) (outq : list wire_event).

(** The context of a call that has just begun. *)
Definition new_context (md trailing : metadata) (level : option Z) : ServerContext W :=
  Ctx false md trailing level SendInitialMetadata.new SendMessage.new false.

(** C17: Whatever the method of a streaming call reads, writes and returns, and whether
    it sends the metadata itself or not, the other side is sent the initial metadata once
    and first, then the encodings of the written messages in order, each with the flags
    of its options, and then exactly one status, with its message and details; the
    messages the method is given are received ones, unchanged and in order, and buffers
    that the parser rejects give none. The method is [legal]: it writes nothing behind a
    message marked as the last one, sends the metadata at most once and before any
    message, and its messages fit into one chunk of the writer unless the library keeps
    chunks apart (C19). All memory, references and batches of the call are given back,
    except for received buffers for which the library could not make a reader (C40). *)
Theorem handler_conversation fuel (h : handler W R) md trailing level inq outq (ms : list (option R)) :
  received fuel inq ms -> legal h false false ->
  idle local_ops ∗ idle pending_ops ∗ call_own inq outq ⊢
    wpm (RunHandler false fuel h (new_context md trailing level)) (fun ctx' : ServerContext W => ∃ inq' rs ws st lost,
      ⟨transcript h rs ws st /\ rs `sublist_of` omap id ms /\ ctx_idle ctx' /\
       (exists l, inq = l ++ inq' /\ lost `sublist_of` l) /\ (reader_inits -> lost = [])⟩ ∗
      idle local_ops ∗ idle pending_ops ∗
      call_own inq' (outq ++ [EInitial 0 md level] ++
        ((fun w : W * WriteOptions.t => EMessage (write_flags (snd w)) (encode (fst w))) <$> ws) ++
        [EStatus (metadata_array trailing (binary_error_details_ st)) (code_ st)
           (if decide (error_message_ st = "") then None else Some (error_message_ st))]) ∗
      ([∗ list] bss ∈ lost, ∃ b, buffer_chunks (Some b) bss) : hpropI S)%I.
Proof.
  iIntros (Henc Hleg) "(Hi & Hp & Hc)". iApply (wpm_RunHandler with "Hi Hp Hc"); [done|done|done|done|].
  iIntros (ctx' inq' rs ws st missing lost (Htr & Hrs & Hidle & _ & Htk)) "Hi Hp Hl Hc". iExists inq', rs, ws, st, lost.
  iFrame "Hi Hp Hl". iSplitR; [done|]. unfold final_status. by rw andb_false_r.
Qed.

(** C40: When a reader cannot be made for a received buffer, [Deserialize] returns early
    without clearing it, and [FinishOp] then forgets it: the message fails, nothing
    points to the buffer, and it is still there. *)
Theorem failed_reader_leaks (P : hpropI S) fuel b (msg : R) (o : RecvMessage.t R) :
  RecvMessage.message_ o = Some msg -> RecvMessage.hijacked_ o = false -> RecvMessage.recv_buf_ o = Some b ->
  (forall Q : option grpc_byte_buffer_reader -> hpropI S, ⊢ P -∗ (P -∗ Q None) -∗ wpm (grpc_byte_buffer_reader_init b) Q) ->
  P ⊢ wpm (RecvMessage.FinishOp fuel true o)
    (fun r => ⟨fst (fst r) = false /\ RecvMessage.got_message (snd (fst r)) = false /\ RecvMessage.recv_buf_ (snd (fst r)) = None⟩ ∗ P).
Proof.
  iIntros (Hm Hh Hb Hinit) "HP". unfold RecvMessage.FinishOp. rw Hm Hh Hb. change (Valid (Some b)) with true. cbn iota.
  wbind. unfold Deserialize, GenericDeserialize. wbind. unfold ProtoBufferReader.construct. wbind. iApply (Hinit with "HP"). iIntros "HP".
  iApply wpm_ret. change (negb (ProtoBufferReader.status (PBR 0 0 None None (bool_decide (@None grpc_byte_buffer_reader <> None))))) with true.
  cbn iota. wbind. iApply (wpm_ret tt). iApply wpm_ret. iApply wpm_ret. by iFrame.
Qed.
End calls.

(** A call with one message, of which the other side has sent three chunks. *)
Definition echo_store (inq : list (list (list byte))) : store :=
  Store {[-2 := OIdle; -1 := OIdle; 0 := OCall inq []]} ∅.
Definition echo_inq : list (list (list byte)) := [[[x61]; []; [x61; x61]]].
Definition echo : handler text text :=
  HRead (Text true x78) (fun _ m =>
    HSendInitialMetadata (HWrite (default hello m) WriteOptions.default (fun _ =>
    HWrite hello (WriteOptions.set_last_message WriteOptions.default) (fun _ => HReturn Status_OK)))).

Lemma obj_sep p o (P : hG) m r :
  holds_of P (Store m r) -> m !! p = None -> holds_of (obj_at p o ∗ P)%I (Store (<[p := o]> m) r).
Proof.
  intros HP Hp. exists (Store {[p := o]} ∅), (Store m r). split_and!; [|by apply map_disjoint_singleton_l|done|done].
  apply store_eq; simpl; [by rw -insert_union_singleton_l|by rw gmultiset_disj_union_left_id].
Qed.
Lemma echo_own : holds_of (idle local_ops ∗ idle pending_ops ∗ call_own echo_inq [])%I (echo_store echo_inq).
Proof.
  change (holds_of (obj_at (-2) OIdle ∗ (obj_at (-1) OIdle ∗ call_state echo_inq []))%I
    (Store (<[-2 := OIdle]> (<[-1 := OIdle]> {[0 := OCall echo_inq []]})) ∅)).
  apply obj_sep; [|done].
  apply obj_sep; [|done].
  apply (entails_in (obj_at 0 (OCall echo_inq [])) _); [|done]. iIntros "$". iPureIntro. repeat constructor.
Qed.
Lemma echo_received : received 42 echo_inq [Some (Text false x61)].
Proof. constructor; [|constructor]. split; [simpl; lia|done]. Qed.
Lemma echo_legal : legal echo false false.
Proof. repeat split; left; apply store_separate. Qed.

Lemma handler_conversation_witness :
  exists ctx s', RunHandler false 42 echo (new_context [] [] None) (echo_store echo_inq) = Done (ctx, s') /\
    exists inq' rs ws st lost, (transcript echo rs ws st /\ rs `sublist_of` [Text false x61] /\ ctx_idle ctx /\
        (exists l, echo_inq = l ++ inq' /\ lost `sublist_of` l) /\ (reader_inits (S := store) -> lost = [])) /\
      holds_of ((idle local_ops ∗ idle pending_ops ∗
        call_own inq' ([EInitial 0 [] None] ++
          ((fun w : text * WriteOptions.t => EMessage (write_flags (snd w)) (encode (fst w))) <$> ws) ++
          [EStatus (metadata_array [] (binary_error_details_ st)) (code_ st)
             (if decide (error_message_ st = "") then None else Some (error_message_ st))]) ∗
        ([∗ list] bss ∈ lost, ∃ b, buffer_chunks (Some b) bss)) ∗ garbage)%I s'.
Proof.
  destruct (wpm_adequate _ _ _ (echo_store echo_inq)
    (handler_conversation 42 echo [] [] None echo_inq [] [Some (Text false x61)] echo_received
       echo_legal) echo_own) as (ctx & s' & E & Hs).
  exists ctx, s'. split; [exact E|].
  apply holds_ex in Hs as (inq' & Hs). apply holds_ex in Hs as (rs & Hs). apply holds_ex in Hs as (ws & Hs).
  apply holds_ex in Hs as (st & Hs). apply holds_ex in Hs as (lost & Hs).
  apply holds_pure in Hs as [Ht Hs].
  exists inq', rs, ws, st, lost. split; [exact Ht|exact Hs].
Defined.

(** The buffer cannot be read, and stays. *)
Definition unreadable : store := Store {[7 := OBuffer false []]} ∅.

Lemma failed_reader_leaks_witness :
  exists o s', RecvMessage.FinishOp 42 true (RecvMessage.set_recv_buf (Some 7) (RecvMessage.RecvMessage hello RecvMessage.new)) unreadable = Done (o, s') /\
    (fst (fst o) = false /\ RecvMessage.got_message (snd (fst o)) = false /\ RecvMessage.recv_buf_ (snd (fst o)) = None) /\
    holds_of (obj_at 7 (OBuffer false []) ∗ garbage)%I s'.
Proof.
  apply (wpm_run _ (obj_at 7 (OBuffer false [])) _ (fun _ => obj_at 7 (OBuffer false [])) unreadable); [|done].
  apply (failed_reader_leaks (obj_at 7 (OBuffer false [])) 42 7 hello
    (RecvMessage.set_recv_buf (Some 7) (RecvMessage.RecvMessage hello RecvMessage.new)) eq_refl eq_refl eq_refl).
  intros Q. iIntros "Hb HQ". cbn [grpc_byte_buffer_reader_init store_core]. wbind. iApply (wpm_buffer_at with "Hb"). iIntros "Hb".
  iApply wpm_ret. by iApply "HQ".
Defined.
