(* ===== verification/ProtoProps.v ===== *)
(** * Properties of the coded streams and of the wire format

    The theorems about streams are over any out-of-line methods that keep
    [InputLaws] and [OutputLaws]; the witnesses use the flat stream. *)
From Stdlib Require Import ZArith Lia Strings.Byte.
From stdpp Require Import base tactics option list list_numbers gmap relations.
From S2P Require Import Prelude Mem Bits Varint CodedStream CodedStreamLaws CodedStreamInv FlatStream.
From S2P Require Import RepeatedField RepeatedFieldLogic WireFormat WireFormatLogic.
From S2P Require Import WireFormatRepeated WireFormatFuel WireFormatLogic.

(** ** Varints in arrays *)

(** A writer of [bs] puts them at [t] and leaves the rest of the array alone. *)
Lemma writes_at w bs m t : writes w bs -> 0 <= t -> t + Z.of_nat (length bs) <= Z.of_nat (length m) ->
  exists m', w m t = Done (m', t + Z.of_nat (length bs)) /\ at_pos m' t bs /\ length m' = length m /\
    (forall i : nat, Z.of_nat i < t \/ t + Z.of_nat (length bs) <= Z.of_nat i -> m' !! i = m !! i).
Proof.
  intros Hw Ht Hm. exists (splice (Z.to_nat t) bs m). split_and!.
  - by apply Hw.
  - by apply at_pos_splice.
  - apply length_splice. lia.
  - intros i Hi. rewrite lookup_splice by lia. rewrite decide_False; [done|lia].
Qed.

(** Round trip: a varint written into an array by [WriteVarint32ToArray],
    [WriteVarint64ToArray] or, sign-extended, by [WriteVarint32SignExtendedToArray]
    takes at most 5, 10 and 10 bytes, changes no other byte, and [Parse32] and
    [Parse64] read the value back and stop behind it; ten continuation bytes in a
    row are refused. *)
Theorem varint_roundtrip v m t :
  0 <= t -> t + 10 <= Z.of_nat (length m) ->
  (0 <= v < 2 ^ 32 -> exists m' n, WriteVarint32ToArray v m t = Done (m', n) /\ t < n <= t + 5 /\
     length m' = length m /\ (forall i : nat, Z.of_nat i < t \/ n <= Z.of_nat i -> m' !! i = m !! i) /\
     Parse32 m' t = Done (Some n, v) /\ Parse64 m' t = Done (Some n, v)) /\
  (0 <= v < 2 ^ 64 -> exists m' n, WriteVarint64ToArray v m t = Done (m', n) /\ t < n <= t + 10 /\
     length m' = length m /\ (forall i : nat, Z.of_nat i < t \/ n <= Z.of_nat i -> m' !! i = m !! i) /\
     Parse64 m' t = Done (Some n, v)) /\
  (int_range v -> exists m' n, WriteVarint32SignExtendedToArray v m t = Done (m', n) /\ t < n <= t + 10 /\
     Parse64 m' t = Done (Some n, u64 v)) /\
  (Forall (fun b => 128 <= byte_to_Z b) (take 10 (drop (Z.to_nat t) m)) -> Parse64 m t = Done (None, 0)).
Proof.
  intros Ht Hm. split_and!.
  - intros Hv. pose proof (length_varint_u32 v Hv). pose proof (length_varint_pos v).
    destruct (writes_at _ _ m t (WriteVarint32ToArray_writes v Hv) Ht ltac:(lia)) as (m' & E & Ha & Hl & Hk).
    exists m', (t + Z.of_nat (length (varint v))). split_and!; try done; [lia|lia| |].
    + unfold Parse32. rewrite (VarintParse_varint 5 32 m' t v) by (done || lia). by rewrite Z.mod_small.
    + unfold Parse64. rewrite (VarintParse_varint 10 64 m' t v) by (done || lia). by rewrite Z.mod_small by lia.
  - intros Hv. pose proof (length_varint v). pose proof (length_varint_pos v).
    destruct (writes_at _ _ m t (WriteVarint64ToArray_writes v Hv) Ht ltac:(lia)) as (m' & E & Ha & Hl & Hk).
    exists m', (t + Z.of_nat (length (varint v))). split_and!; try done; [lia|lia|].
    unfold Parse64. rewrite (VarintParse_varint 10 64 m' t v) by (done || lia). by rewrite Z.mod_small.
  - intros Hv. pose proof (length_varint (u64 v)). pose proof (length_varint_pos (u64 v)).
    destruct (writes_at _ _ m t (WriteVarint32SignExtendedToArray_writes v) Ht ltac:(lia)) as (m' & E & Ha & _).
    pose proof (u64_range v). eexists m', _. split; [exact E|]. split; [lia|].
    unfold Parse64. rewrite (VarintParse_varint 10 64 m' t (u64 v)) by (done || lia). by rewrite Z.mod_small.
  - intros Hf. unfold Parse64, VarintParse.
    apply (VarintParse_loop_unterminated _ _ _ _ _ (take 10 (drop (Z.to_nat t) m))); [|rewrite length_take, length_drop; lia|done].
    exists (take (Z.to_nat t) m), (drop 10 (drop (Z.to_nat t) m)).
    rewrite take_drop, take_drop, length_take. split; [done|lia].
Qed.

Lemma varint_roundtrip_witness :
  exists m' n, WriteVarint64ToArray 300 (replicate 12 x00) 1 = Done (m', n) /\ 1 < n <= 11 /\
     length m' = 12%nat /\ (forall i : nat, Z.of_nat i < 1 \/ n <= Z.of_nat i -> m' !! i = replicate 12 x00 !! i) /\
     Parse64 m' 1 = Done (Some n, 300).
Proof. apply (varint_roundtrip 300 (replicate 12 x00) 1); [lia|done|lia]. Defined.

(** ** Sizes *)

(** C37: [ReadSize] gives the sizes below 2^31 - 270549120 and refuses everything from
    2^31 on; between the two its signed subtraction overflows, which is undefined
    behaviour, on sizes that [ReadVarintSizeAsInt] accepts from the same bytes. *)
Theorem read_size `{InputLaws} v m p s tl :
  0 <= v < 2 ^ 64 -> at_pos m p (varint v) -> in_ok s -> remaining s = varint v ++ tl ->
  ReadSize m p = (if decide (v < size_limit) then Done (Some (p + Z.of_nat (length (varint v)), v))
                  else if decide (v < 2 ^ 31) then Fault IntOverflow else Done None) /\
  (v < 2 ^ 31 -> exists s', ReadVarintSizeAsInt s = Done ((true, v), s') /\ after s tl s') /\
  (2 ^ 31 <= v -> exists x s', ReadVarintSizeAsInt s = Done ((false, x), s')).
Proof.
  intros Hv Ha Hok Hr. split; [by apply ReadSize_varint|]. split.
  - intros Hs. apply ReadVarintSizeAsInt_spec; [done|lia|done].
  - intros Hs. eapply ReadVarintSizeAsInt_big; [done| |exact Hr]. lia.
Qed.

Lemma read_size_witness :
  let bs := varint 2000000000 in
  ReadSize bs 0 = Fault IntOverflow /\
  exists s', ReadVarintSizeAsInt (CodedInputStream_array bs 5) = Done ((true, 2000000000), s').
Proof.
  destruct (read_size 2000000000 (varint 2000000000) 0 (CodedInputStream_array (varint 2000000000) 5) [])
    as (E & Hr & _).
  - lia.
  - exists [], []. split; reflexivity.
  - unfold in_ok, flat_view, buffer_ok. vm_compute. repeat split; discriminate.
  - vm_compute. reflexivity.
  - split; [rewrite E; vm_compute; reflexivity|].
    destruct Hr as (s' & Hs & _); [lia|]. exists s'. exact Hs.
Defined.

(** ** The calls of the input stream *)

(** C28: Refinement: on a stream that delivers certain bytes, with certain limits open,
    each call of a read, a tag method, a limit method or a recursion method, the
    combined ones included, does what the specification of the call says: it returns
    the value that the next bytes encode, or fails where there is none; it goes on
    behind these bytes; a push leaves the bytes within the limit and a pop of the
    innermost limit gives back the ones behind it, outer limits being as before; the
    recursion budget is counted; a negative skip does nothing.  After a call that did
    not fail the buffer pointers are in order and within the array. *)
Theorem input_stream_calls `{InputLaws} {N : NestingLaws} s V c r O :
  stream_rep s V -> input_spec V c r O ->
  exists r' s' O', run_input c s = Done (r', s') /\ input_spec V c r' O' /\
    forall V', O' = Some V' -> stream_rep s' V' /\
      0 <= buffer_ s' <= buffer_end_ s' /\ buffer_end_ s' <= Z.of_nat (length (buffer_array s')).
Proof.
  intros Hrep Hs. destruct (input_call_refines s V c r O Hrep Hs) as (r' & s' & O' & E & Hs' & Hrep').
  exists r', s', O'. split_and!; [done|done|]. intros V' ->. specialize (Hrep' V' eq_refl).
  destruct (ok_buffer s' (rep_ok _ _ Hrep')) as (H1' & H2' & _). done.
Qed.

(** A message of two bytes behind its length, and what follows it. *)
Definition framed : CodedInputStream := CodedInputStream_array [x02; x08; x2a; x07] 4.
Definition framed_view : stream_view := SV [x02; x08; x2a; x07] [] 100 100 (Some 0) (Some false).

Lemma framed_rep : stream_rep framed framed_view.
Proof. split; try done; by injection 1. Qed.

Lemma input_stream_calls_witness :
  exists r s', run_input IReadLengthAndPushLimit framed = Done (r, s') /\ BytesUntilLimit s' = 2.
Proof.
  destruct (input_stream_calls framed framed_view IReadLengthAndPushLimit (LimitOf 4)
    (Some (push_view 4 [x08; x2a] [x07] framed_view)) framed_rep) as (r & s' & O & E & _).
  - apply (spec_ReadLengthAndPushLimit framed_view 4 [x08; x2a] [x07]); [vm_compute; reflexivity|simpl; lia].
  - exists r, s'. split; [exact E|]. vm_compute in E. injection E as _ <-. reflexivity.
Defined.

(** ** Tags *)

Lemma MakeTag_period f t k : MakeTag (f + k * 2 ^ 29) t = MakeTag f t.
Proof.
  unfold MakeTag. f_equal. f_equal. unfold u32. rewrite !Z.shiftl_mul_pow2 by lia. change (2 ^ 3) with 8.
  rewrite !Z.mul_mod_idemp_l by lia.
  replace ((f + k * 2 ^ 29) * 8) with (f * 8 + k * 2 ^ 32) by lia. apply Z.mod_add. lia.
Qed.

(** Round trip: [ReadTag] reads the tag made of a field number and a wire type,
    remembers it, and both parts are found in it again; field numbers that differ by
    a multiple of 2^29 have the same tag. *)
Theorem tag_roundtrip `{InputLaws} f t s tl :
  1 <= f < 2 ^ 29 -> in_ok s -> remaining s = varint (MakeTag f t) ++ tl ->
  (exists s', ReadTag s = Done (MakeTag f t, s') /\ after s tl s' /\
     LastTagWas (MakeTag f t) s' = Done (true, s')) /\
  GetTagFieldNumber (MakeTag f t) = f /\ GetTagWireType (MakeTag f t) = WireType_value t /\
  (forall k, MakeTag (f + k * 2 ^ 29) t = MakeTag f t).
Proof.
  intros Hf Hok Hr. split_and!.
  - destruct (ReadTag_spec s (MakeTag f t) tl Hok (MakeTag_range _ _) Hr) as (s' & E & Ha & Hl).
    exists s'. split_and!; [done|done|]. unfold LastTagWas, st_gets. by rewrite bool_decide_true.
  - rewrite GetTagFieldNumber_value by apply MakeTag_range. rewrite MakeTag_value by lia.
    symmetry. apply Z.div_unique with (WireType_value t); destruct t; simpl; lia.
  - rewrite GetTagWireType_value, MakeTag_value by lia.
    symmetry. apply Z.mod_unique with f; destruct t; simpl; lia.
  - intros k. apply MakeTag_period.
Qed.

Lemma tag_roundtrip_witness :
  exists s', ReadTag (CodedInputStream_array (varint (MakeTag 300 WIRETYPE_LENGTH_DELIMITED)) 2)
    = Done (MakeTag 300 WIRETYPE_LENGTH_DELIMITED, s').
Proof.
  destruct (tag_roundtrip 300 WIRETYPE_LENGTH_DELIMITED
    (CodedInputStream_array (varint (MakeTag 300 WIRETYPE_LENGTH_DELIMITED)) 2) []) as ((s' & E & _) & _).
  - lia.
  - unfold in_ok, flat_view, buffer_ok. vm_compute. repeat split; discriminate.
  - vm_compute. reflexivity.
  - exists s'. exact E.
Defined.

(** C30: Equivalence: on the next tag of the stream [ReadTagWithCutoff] gives what
    [ReadTag] gives, leaves the same bytes and last tag, and says whether the tag is
    at most the cutoff, on its one-byte, two-byte and slow paths. *)
Theorem read_tag_with_cutoff `{InputLaws} s v tl cutoff :
  in_ok s -> 1 <= v < 2 ^ 32 -> 0 <= cutoff < 2 ^ 32 -> remaining s = varint v ++ tl ->
  exists s1 s2, ReadTag s = Done (v, s1) /\
    ReadTagWithCutoff cutoff s = Done ((v, bool_decide (v <= cutoff)), s2) /\
    after s tl s1 /\ after s tl s2 /\ last_tag_ s1 = v /\ last_tag_ s2 = v.
Proof.
  intros Hok Hv Hc Hr.
  destruct (ReadTag_spec s v tl Hok ltac:(lia) Hr) as (s1 & E1 & Ha1 & Hl1).
  destruct (ReadTagWithCutoffNoLastTag_spec s v tl cutoff Hok Hv Hc Hr) as (s2 & E2 & Ha2).
  exists s1, (set_last_tag v s2). split_and!; try done.
  - unfold ReadTagWithCutoff. by rewrite stm_bind_eq, E2.
  - destruct Ha2 as (Hok2 & Hr2 & Hp2 & Hb2 & Hl2). eapply after_trans; [by split_and!|].
    rewrite <- Hr2. by apply ok_last_tag.
Qed.

Lemma read_tag_with_cutoff_witness :
  exists s1 s2, ReadTag (CodedInputStream_array [xb2; x12; x00] 3) = Done (2354, s1) /\
    ReadTagWithCutoff 1000 (CodedInputStream_array [xb2; x12; x00] 3) = Done ((2354, false), s2).
Proof.
  destruct (read_tag_with_cutoff (CodedInputStream_array [xb2; x12; x00] 3) 2354 [x00] 1000)
    as (s1 & s2 & E1 & E2 & _).
  - unfold in_ok, flat_view, buffer_ok. vm_compute. repeat split; discriminate.
  - lia.
  - lia.
  - vm_compute. reflexivity.
  - exists s1, s2. split; [exact E1|exact E2].
Defined.

(** ** Values of fields *)

(** C24: Round trip: for each of the fourteen primitive field types and each value of
    its C++ type, the bytes that the [Write...NoTag] method adds to an output stream
    are read back as the value by [ReadPrimitive] from any input stream that
    delivers them, which goes on behind them; at the end of the input nothing is
    read. *)
Theorem primitive_roundtrip `{InputLaws, OutputLaws} t v o :
  valid t v -> out_ok o ->
  (exists o', WriteNoTag t v o = Done (tt, o') /\ out_ok o' /\
     (out_had_error_ o' = false -> exists bs, written o' = written o ++ bs /\
        forall i tl, in_ok i -> remaining i = bs ++ tl ->
          exists i', ReadPrimitive t i = Done (Some v, i') /\ after i tl i')) /\
  (forall i, in_ok i -> remaining i = [] -> exists i', ReadPrimitive t i = Done (None, i')).
Proof.
  intros Hv Ho. split; [|intros i Hi Hr; by eapply ReadPrimitive_end].
  destruct (WriteNoTag_appends t v Hv o Ho) as (o' & E & Ho' & _ & Hw). exists o'.
  split_and!; [done|done|]. intros He. exists (encode t v). split; [by apply Hw|].
  intros i tl Hi Hr. by apply ReadPrimitive_spec.
Qed.

Definition empty_output : CodedOutputStream := COS [] (replicate 16 x00) 0 16 16 false false false.

Lemma primitive_roundtrip_witness :
  exists o', WriteNoTag TYPE_SINT32 (-3) empty_output = Done (tt, o') /\
    (out_had_error_ o' = false -> exists bs, written o' = written empty_output ++ bs).
Proof.
  destruct (primitive_roundtrip TYPE_SINT32 (-3) empty_output) as ((o' & E & _ & Hw) & _).
  - unfold valid, int_range. lia.
  - unfold out_ok, flat_output_view, out_buffer_ok. vm_compute. repeat split; discriminate.
  - exists o'. split; [exact E|]. intros He. destruct (Hw He) as (bs & Hbs & _). by exists bs.
Defined.

(** The sizes are exact: with [TagSize] plus the type's size function bytes of room,
    [Write...ToArray] fills exactly these, changes nothing else and returns the
    pointer behind them, for every field number and every value of each primitive
    type. *)
Theorem sizes_exact t f v m p :
  valid t v -> 0 <= f < 2 ^ 29 -> 0 <= p -> p + TagSize f t + ValueSize t v <= Z.of_nat (length m) ->
  let n := p + TagSize f t + ValueSize t v in
  exists m', WriteToArray t f v m p = Done (m', n) /\ length m' = length m /\
    (forall i : nat, Z.of_nat i < p \/ n <= Z.of_nat i -> m' !! i = m !! i) /\
    1 <= ValueSize t v <= 10 /\ 1 <= TagSize f t <= 5.
Proof.
  intros Hv Hf Hp Hm. cbv zeta.
  assert (Hg : t <> TYPE_GROUP) by (by intros ->).
  pose proof (TagSize_length f t Hf Hg) as Ht. pose proof (ValueSize_length t v Hv) as Hs.
  assert (Hl : Z.of_nat (length (tagged f t v)) = TagSize f t + ValueSize t v).
  { unfold tagged. rewrite length_app. lia. }
  destruct (writes_at _ _ m p (WriteToArray_writes t f v Hv) Hp ltac:(lia)) as (m' & E & _ & Hlm & Hk).
  rewrite Hl, Z.add_assoc in E. rewrite Hl, Z.add_assoc in Hk.
  pose proof (length_encode t v Hv). pose proof (length_varint_pos (MakeTag f (wire_type t))).
  pose proof (length_varint_u32 _ (MakeTag_range f (wire_type t))).
  exists m'. split_and!; done || lia.
Qed.

Lemma sizes_exact_witness :
  exists m', WriteToArray TYPE_INT32 16 (-1) (replicate 12 x00) 0 = Done (m', 12).
Proof.
  destruct (sizes_exact TYPE_INT32 16 (-1) (replicate 12 x00) 0) as (m' & E & _).
  - unfold valid, int_range. lia.
  - lia.
  - lia.
  - vm_compute. discriminate.
  - exists m'. exact E.
Defined.

(** ** Repeated fields *)

(** C25: Round trip of packed fields: what the array writers produce for a length and a
    whole field is appended, element by element, to the [RepeatedField] that
    [ReadPackedPrimitive] is given; the stream goes on behind it, its limit and
    recursion depth are as before, and no other object of the heap changes.  Both the
    loop of the variable-size types and the bulk copy of the fixed-size types do
    this. *)
Theorem packed_roundtrip `{InputLaws, ElementType Z} t vs i h values a l tl :
  let bs := varint (Z.of_nat (length (encodes t vs))) ++ encodes t vs in
  vs <> [] -> Forall (valid t) vs -> Z.of_nat (length (encodes t vs)) < 2 ^ 31 ->
  writes (then_ (WriteVarint32ToArray (Z.of_nat (length (encodes t vs))))
                (WriteNoTagToArray_repeated t vs)) bs /\
  (in_ok i -> remaining i = bs ++ tl -> heap_ok h values a l ->
   Z.of_nat (length l) + Z.of_nat (length vs) < 2 ^ 29 ->
   exists i' h', ReadPackedPrimitive t values (i, h) = Done (true, (i', h')) /\
     in_ok i' /\ remaining i' = tl /\ recursion_budget_ i' = recursion_budget_ i /\
     heap_ok h' values a (l ++ vs) /\ keeps_others h h' values).
Proof.
  intros bs Hne Hv Hlen. split.
  - apply writes_then; [apply WriteVarint32ToArray_writes; lia|by apply WriteNoTagToArray_repeated_writes].
  - intros Hok Hr Hh Hl. subst bs. rewrite <- app_assoc in Hr. unfold ReadPackedPrimitive.
    destruct (is_fixed_size t) eqn:Hfix.
    + destruct (ReadPackedFixedSizePrimitive_spec t vs i h values a l tl)
        as (i' & h' & E & (Hok' & Hr' & _ & Hb & _) & [Hf1 Hf2]); try done. by exists i', h'.
    + destruct (ReadPackedPrimitive_spec t vs i h values a l tl)
        as (i' & h' & E & Hok' & Hr' & Hb & [Hf1 Hf2]); try done. by exists i', h'.
Qed.

(** The elements in the witnesses are [int32]s. *)
#[export] Program Instance int32_element : ElementType Z := {
  sizeof_Element := 4; kRepHeaderSize := 8; new_Element := 0;
}.
Next Obligation. lia. Qed.
Next Obligation. lia. Qed.

(** One empty field at address 1. *)
Definition one_field : store Z := Store ∅ {[ 1 := RF 0 0 (PArena None) ]}.

Lemma one_field_ok : heap_ok one_field 1 None [].
Proof.
  destruct (construct_spec (E := Z) (Store ∅ ∅) 1 None) as (s' & E & Hs & Hh & _).
  - split; intros o f; simpl; by rewrite lookup_empty.
  - done.
  - assert (s' = one_field) as -> by (vm_compute in E; by injection E as <-). split; [done|]. by exists 0.
Qed.

Lemma packed_roundtrip_witness :
  let bs := varint 3 ++ encodes TYPE_UINT32 [1; 300] in
  exists i' h', ReadPackedPrimitive TYPE_UINT32 1 (CodedInputStream_array bs 4, one_field)
    = Done (true, (i', h')) /\ heap_ok h' 1 None [1; 300].
Proof.
  cbv zeta.
  destruct (packed_roundtrip TYPE_UINT32 [1; 300]
    (CodedInputStream_array (varint 3 ++ encodes TYPE_UINT32 [1; 300]) 4) one_field 1 None [] []) as (_ & Hr).
  - done.
  - repeat constructor; unfold valid, uint_range; lia.
  - vm_compute. reflexivity.
  - destruct Hr as (i' & h' & E & _ & _ & _ & Hh & _).
    + unfold in_ok, flat_view, buffer_ok. vm_compute. repeat split; discriminate.
    + vm_compute. reflexivity.
    + apply one_field_ok.
    + simpl. lia.
    + exists i', h'. split; [exact E|exact Hh].
Defined.

(** Unpacked fields: behind the first tag, [ReadRepeatedPrimitive] takes the first
    element and then some number of the following ones, never more than there is
    reserved room or, in the loop over the buffer of the fixed-size types, whole
    elements in the buffer; it leaves the stream exactly in front of the tag of the
    first element it did not take.  The bytes are those [Write...ToArray] produces
    for the whole field. *)
Theorem repeated_roundtrip `{InputLaws, ElementType Z} f t v vs i h values a l tl :
  let tag := MakeTag f (wire_type t) in
  Forall (valid t) (v :: vs) -> in_ok i -> remaining i = encode t v ++ tags f t vs ++ tl ->
  ~ varint tag `prefix_of` tl -> heap_ok h values a l -> Z.of_nat (length l) + 1 < 2 ^ 29 ->
  writes (WriteToArray_repeated t f (v :: vs)) (varint tag ++ encode t v ++ tags f t vs) /\
  exists j i' h', (j <= length vs)%nat /\
    ReadRepeatedPrimitive t (Z.of_nat (length (varint tag))) tag values (i, h) = Done (true, (i', h')) /\
    after i (tags f t (drop j vs) ++ tl) i' /\
    heap_ok h' values a (l ++ v :: take j vs) /\ keeps_others h h' values.
Proof.
  intros tag Hv Hok Hr Htl Hh Hl. split.
  { assert (E : varint tag ++ encode t v ++ tags f t vs = tags f t (v :: vs))
      by (rewrite tags_cons; unfold tagged; by rewrite <- app_assoc).
    rewrite E. by apply WriteToArray_repeated_writes. }
  unfold ReadRepeatedPrimitive. destruct (is_fixed_size t) eqn:Hfix.
  - destruct (ReadRepeatedFixedSizePrimitive_spec f t v vs i h values a l tl)
      as (j & i' & h' & Hj & E & Ha & [Hf1 Hf2]); try done.
    rewrite <- app_assoc in Hf1. by exists j, i', h'.
  - destruct (ReadRepeatedPrimitive_generic_spec f t v vs i h values a l tl)
      as (j & i' & h' & Hj & E & Ha & [Hf1 Hf2]); try done.
    rewrite <- app_assoc in Hf1. by exists j, i', h'.
Qed.

Lemma repeated_roundtrip_witness :
  let bs := encode TYPE_FIXED32 7 ++ tags 4 TYPE_FIXED32 [8; 9] in
  exists j i' h', ReadRepeatedPrimitive TYPE_FIXED32 1 (MakeTag 4 WIRETYPE_FIXED32) 1
      (CodedInputStream_array bs 14, one_field) = Done (true, (i', h')) /\
    heap_ok h' 1 None (7 :: take j [8; 9]).
Proof.
  cbv zeta.
  destruct (repeated_roundtrip 4 TYPE_FIXED32 7 [8; 9]
    (CodedInputStream_array (encode TYPE_FIXED32 7 ++ tags 4 TYPE_FIXED32 [8; 9]) 14) one_field 1 None [] [])
    as (_ & j & i' & h' & _ & E & _ & Hh & _).
  - repeat constructor; unfold valid, uint_range; lia.
  - unfold in_ok, flat_view, buffer_ok. vm_compute. repeat split; discriminate.
  - vm_compute. reflexivity.
  - intros [k Hk]. vm_compute in Hk. discriminate Hk.
  - apply one_field_ok.
  - simpl. lia.
  - exists j, i', h'. split; [exact E|exact Hh].
Defined.

(** C29: Termination: whatever bytes come and whatever the heap is, the loop of
    [ReadPackedPrimitive] ends: with as many rounds as the announced length has bytes
    it never runs out of them. *)
Theorem packed_terminates `{P : InputProgress} {K : FallbacksKeep} {T : ElementType Z} t values i h :
  0 <= buffer_ i <= buffer_end_ i -> buffer_end_ i <= Z.of_nat (length (buffer_array i)) ->
  buffer_end_ i < 2 ^ 31 -> recursion_budget_ i <= recursion_limit_ i ->
  ReadPackedPrimitive_generic t values (i, h) <> Fault OutOfFuel.
Proof. intros. apply ReadPackedPrimitive_quiet. cbn [fst]. by split_and!. Qed.

Lemma packed_terminates_witness :
  ReadPackedPrimitive_generic TYPE_INT64 1 (CodedInputStream_array (replicate 9 xff) 9, one_field)
  <> Fault OutOfFuel.
Proof. apply packed_terminates; vm_compute; repeat split; discriminate || reflexivity. Defined.

(** ** Nesting *)

(** [ReadGroup] and [ReadMessage] bound the recursion and give the level back.
    With an exhausted budget they fail without calling the parser; otherwise the
    parser gets the stream one level deeper (for a message: limited to its length),
    and after it has succeeded the budget is as before; a group succeeds if its last
    tag was the end tag of its number, a message if the parser has seen the end of
    the limit, and then the stream is behind the message. *)
Theorem nested_messages `{InputLaws} {N : NestingLaws} {M} (Merge : stm (CodedInputStream * M) bool)
    f i (msg : M) body tl :
  in_ok i -> remaining i = varint (Z.of_nat (length body)) ++ body ++ tl ->
  Z.of_nat (length body) < 2 ^ 31 -> - 2 ^ 31 < recursion_budget_ i < 2 ^ 31 ->
  (recursion_budget_ i <= 0 ->
     (exists i', ReadGroup Merge f (i, msg) = Done (false, (i', msg))) /\
     (exists i', ReadMessage Merge (i, msg) = Done (false, (i', msg)))) /\
  (0 < recursion_budget_ i <= recursion_limit_ i ->
     (forall i2 msg2, Merge (entered i, msg) = Done (true, (i2, msg2)) ->
        recursion_budget_ i2 = recursion_budget_ (entered i) -> recursion_limit_ i2 = recursion_limit_ i ->
        exists i3, ReadGroup Merge f (i, msg)
            = Done (bool_decide (last_tag_ i2 = MakeTag f WIRETYPE_END_GROUP), (i3, msg2)) /\
          recursion_budget_ i3 = recursion_budget_ i) /\
     (exists i1, in_ok i1 /\ remaining i1 = body /\ recursion_budget_ i1 = recursion_budget_ i - 1 /\
        forall i2 msg2, Merge (i1, msg) = Done (true, (i2, msg2)) -> after i1 [] i2 ->
        exists i3, ReadMessage Merge (i, msg) = Done (legitimate_message_end_ i2, (i3, msg2)) /\
          in_ok i3 /\ remaining i3 = tl /\ recursion_budget_ i3 = recursion_budget_ i)).
Proof.
  intros Hok Hr Hlen Hb. assert (Hb' : int_range (recursion_budget_ i - 1)) by (unfold int_range; lia).
  destruct (ReadMessage_spec Merge i msg body tl Hok Hr Hlen Hb') as (i1 & Hok1 & Hr1 & Hb1 & _ & Href & Hpar).
  split.
  - intros Hbud. split; [eexists; by apply ReadGroup_refused|exists i1; by apply Href].
  - intros Hbud. split.
    + intros i2 msg2 Hm Hb2 Hl2. exists (left_ i2). cbn in Hb2.
      split; [by apply ReadGroup_parsed|]. cbn. lia.
    + exists i1. split_and!; try done. intros i2 msg2 Hm Ha. by apply Hpar.
Qed.

(** A parser that skips what is left and notes the end. *)
Definition skip_all : stm (CodedInputStream * Z) bool :=
  n ← st_gets (fun s => buffer_end_ (fst s) - buffer_ (fst s));
  on_stream (Skip n) ;; on_stream SetConsumed ;; mret true.

Lemma nested_messages_witness :
  let i := CodedInputStream_array [x02; x08; x2a; x10] 4 in
  exists i3, ReadGroup skip_all 1 (i, 0) = Done (false, (i3, 0)) /\
    recursion_budget_ i3 = recursion_budget_ i.
Proof.
  cbv zeta.
  destruct (nested_messages skip_all 1 (CodedInputStream_array [x02; x08; x2a; x10] 4) 0 [x08; x2a] [x10])
    as (_ & Hr).
  - unfold in_ok, flat_view, buffer_ok. vm_compute. repeat split; discriminate.
  - vm_compute. reflexivity.
  - simpl. lia.
  - simpl. lia.
  - destruct Hr as [Hg _]; [simpl; lia|].
    destruct (skip_all (entered (CodedInputStream_array [x02; x08; x2a; x10] 4), 0)) as [[b [i2 z]]|] eqn:E;
      [|vm_compute in E; discriminate E].
    vm_compute in E. injection E as <- <- <-.
    destruct (Hg _ 0 eq_refl) as (i3 & E3 & Hb); [reflexivity|reflexivity|].
    exists i3. split; [exact E3|exact Hb].
Defined.

(** ** Whole fields of strings and messages *)

(** For every field number and body below 2 GiB: a message is written, to a stream and to
    an array, as its tag, its length and its body, a group as its body between two
    tags, a string or bytes field as tag, length and content; [TagSize] with
    [MessageSize], [GroupSize] or [StringSize] is exactly the number of bytes. *)
Theorem delimited_fields {M} `{OutputLaws} `{SM : SerializedMessage M} {enc} {L : MessageLaws (M := M) enc}
    f (m : M) str :
  0 <= f < 2 ^ 29 -> Z.of_nat (length (enc m)) < 2 ^ 31 -> Z.of_nat (length str) < 2 ^ 31 ->
  writes (WriteMessageToArray f m) (delimited f (enc m)) /\
  appends out_ok (WriteMessageNoVirtual f m) (delimited f (enc m)) /\
  writes (WriteGroupToArray f m) (grouped f (enc m)) /\
  appends out_ok (WriteGroupNoVirtual f m) (grouped f (enc m)) /\
  writes (WireFormat_WriteStringToArray f str) (delimited f str) /\
  writes (WriteBytesToArray f str) (delimited f str) /\
  Z.of_nat (length (delimited f (enc m))) = TagSize f TYPE_MESSAGE + MessageSize m /\
  Z.of_nat (length (grouped f (enc m))) = TagSize f TYPE_GROUP + GroupSize m /\
  Z.of_nat (length (delimited f str)) = TagSize f TYPE_STRING + StringSize str.
Proof.
  intros Hf Hm Hs. split_and!.
  - by apply WriteMessageToArray_writes.
  - apply appends_seq; [apply WriteVarint32_appends, MakeTag_range|].
    rewrite <- (u32_small (Z.of_nat (length (enc m)))) by lia. rewrite <- msg_cached.
    apply appends_seq; [apply WriteVarint32_appends, u32_range|by apply msg_stream].
  - by apply WriteGroupToArray_writes.
  - apply appends_seq; [apply WriteVarint32_appends, MakeTag_range|].
    apply appends_seq; [by apply msg_stream|apply WriteVarint32_appends, MakeTag_range].
  - apply writes_then; [apply WriteTagToArray_writes|by apply law_string_array].
  - apply writes_then; [apply WriteTagToArray_writes|by apply law_string_array].
  - rewrite (length_delimited f _ TYPE_MESSAGE) by done. unfold MessageSize. by rewrite msg_size.
  - rewrite TagSize_group by done. unfold GroupSize. rewrite msg_size. unfold grouped.
    rewrite !length_app. lia.
  - by apply (length_delimited f _ TYPE_STRING).
Qed.

(** A message that is its own bytes. *)
#[export] Instance raw_message : SerializedMessage (list byte) := {
  SerializeWithCachedSizes := flat_write;
  InternalSerializeWithCachedSizesToArray := flat_store;
  GetCachedSize m := Z.of_nat (length m);
  ByteSizeLong m := Z.of_nat (length m);
}.
#[export] Instance raw_message_laws : MessageLaws (fun m : list byte => m).
Proof. split; [intros; apply flat_write_appends|intros; apply flat_store_writes|done|done]. Qed.

Lemma delimited_fields_witness :
  writes (WriteMessageToArray 5 [x08; x01]) [x2a; x02; x08; x01] /\
  TagSize 5 TYPE_MESSAGE + MessageSize [x08; x01] = 4.
Proof.
  destruct (delimited_fields (enc := fun m : list byte => m) 5 [x08; x01] [])
    as (Hw & _ & _ & _ & _ & _ & Hl & _); [lia|simpl; lia|simpl; lia|].
  split; [exact Hw|]. etransitivity; [symmetry; exact Hl|vm_compute; reflexivity].
Defined.
