(* ===== verification/RepeatedProps.v ===== *)
(** * Properties of the repeated fields of scalars *)
From Stdlib Require Import ZArith Lia.
From stdpp Require Import base tactics option list list_numbers gmap.
From S2P Require Import Prelude Bits RepeatedField RepeatedFieldLogic RepeatedFieldSpec.

Section aliasing.
  Context {E : Type} `{ElementType E}.
  Implicit Types (this : Z) (s : store E) (a : option Z) (l : list E).

(** A reference into the field's own array is followed after [Reserve] has freed it. *)
Lemma Add_freed s this l cap i p :
  store_ok s -> holds s this None l cap -> cap < 2 ^ 30 -> Z.of_nat (length l) = cap ->
  Mutable this i s = Done (p, s) -> Add this (Ref p) s = Fault UseAfterFree.
Proof.
  intros Hs Hh Hc Hfull Hm.
  destruct (Mutable_eq s this None l cap i p Hs Hh Hm) as (Hi & f & Hf & Hp & Hpi).
  destruct Hh as (f' & Hf' & Hrep & Hcap). assert (f' = f) as -> by congruence.
  pose proof Hrep as (Hcc & Ht & Hl & _).
  unfold Add. rewrite stm_bind_eq, (field_eq _ _ f) by done.
  rewrite decide_True by lia. rewrite stm_bind_eq, stm_bind_eq.
  rewrite (lift_ok _ (total_size_ f + 1)) by (apply int_op_ok; unfold int_range; lia).
  rewrite (Reserve_eq s this f None l) by (done || unfold int_range; lia). cbv zeta.
  unfold reserved. rewrite Hp, decide_True by done.
  pose proof (fresh_rep (reps s)) as Hfresh. set (r := fresh (dom (reps s))) in *.
  set (N := grow (total_size_ f) (total_size_ f + 1)).
  pose proof (grow_ge (total_size_ f) (total_size_ f + 1)) as [Hg _]. fold N in Hg.
  rewrite stm_bind_eq. unfold next_slot. rewrite stm_bind_eq.
  rewrite (field_eq _ _ (RF (current_size_ f) N (PElements r))) by (cbn [fields]; by rewrite lookup_insert_eq).
  rewrite stm_bind_eq, (elements_eq _ _ r) by (cbn [total_size_ ptr_]; done || lia).
  rewrite stm_bind_eq, (lift_ok _ (current_size_ f + 1)) by (apply int_op_ok; unfold int_range; cbn [current_size_]; lia).
  rewrite stm_bind_eq, set_field_eq. cbn [mret stm_ret deref]. rewrite stm_bind_eq.
  unfold load_element, array. rewrite stm_bind_eq. cbn [reps]. by rewrite lookup_delete_eq.
Qed.

(** With room the element is copied, wherever the reference points. *)
Lemma Add_copied s this a l cap i p v :
  store_ok s -> holds s this a l cap -> Z.of_nat (length l) < cap -> l !! Z.to_nat i = Some v ->
  Mutable this i s = Done (p, s) -> acts (Add this (Ref p)) s this tt a (l ++ [v]) cap.
Proof.
  intros Hs Hh Hroom Hv Hm.
  destruct (Mutable_eq s this a l cap i p Hs Hh Hm) as (Hi & f & Hf & Hp & Hpi).
  destruct (holds_array s this a l cap Hs Hh ltac:(lia))
    as (f' & r & els & Hf' & Hrep & Hcap & Hcs & Hp' & Hr & Hlen & Htk & _).
  assert (f' = f) as -> by congruence. assert (ep_rep p = r) as Hpr by congruence.
  destruct (push_acts s this a l cap v Hs Hh Hroom) as (s' & E0 & Hrest).
  exists s'. split; [|exact Hrest]. rewrite <- E0. unfold Add.
  rewrite stm_bind_eq, (field_eq _ _ f) by done. rewrite decide_False by lia.
  rewrite stm_bind_eq. cbn [mret stm_ret]. rewrite !stm_bind_eq. unfold next_slot.
  rewrite !stm_bind_eq, (field_eq _ _ f), !stm_bind_eq by done.
  rewrite (elements_eq _ _ r), !stm_bind_eq by (done || lia).
  rewrite (lift_ok _ (current_size_ f + 1)) by (apply int_op_ok; unfold int_range; destruct Hrep as (? & ? & _); lia).
  rewrite !stm_bind_eq, !set_field_eq. cbn [mret stm_ret deref]. rewrite !stm_bind_eq.
  destruct p as [pr pi]. cbn [ep_rep ep_index] in *. subst pr pi.
  rewrite (load_element_eq _ r i a els v); [done|exact Hr|lia|].
  rewrite <- Htk, lookup_take_lt in Hv by lia. done.
Qed.
End aliasing.

(** C11: Refinement: on a heap whose arrays are below 2^30 elements, every method of
    [RepeatedField] called within its contract, the constructors, assignments and the
    destructor included, does what the specification on plain lists says: it returns
    the specified result, the objects it is for have the specified lists, each on its
    own arena, every other object is as before, and the heap stays well formed, each
    array belonging to one object.  This covers growth, swaps and moves across arenas
    and self-assignment. *)
Theorem methods_refine {E} `{ElementType E} s A (c : call (E := E)) r A' :
  represents s A -> small s -> spec c A = Some (r, A') ->
  exists s', run c s = Done (r, s') /\ represents s' A'.
Proof. apply call_refines. Qed.

#[export] Program Instance int64_element : ElementType Z := {
  sizeof_Element := 8; kRepHeaderSize := 8; new_Element := 0;
}.
Next Obligation. lia. Qed.
Next Obligation. lia. Qed.

(** A field of two elements and one without, on different arenas. *)
Definition two_fields : store Z :=
  Store {[ 10 := MkRep (Some 7) [3; 4; 0; 0] ]}
        (<[1 := RF 2 4 (PElements 10)]> {[ 2 := RF 0 0 (PArena None) ]}).
Definition two_lists : gmap Z (option Z * list Z) := <[1 := (Some 7, [3; 4])]> {[ 2 := (None, []) ]}.

Lemma two_fields_lookup o f : fields two_fields !! o = Some f ->
  o = 1 /\ f = RF 2 4 (PElements 10) \/ o = 2 /\ f = RF 0 0 (PArena None).
Proof.
  unfold two_fields. cbn [fields]. intros [[<- <-]|[_ [<- <-]%lookup_singleton_Some]]%lookup_insert_Some; auto.
Qed.

Lemma two_fields_represents : represents two_fields two_lists /\ small two_fields.
Proof.
  assert (H1 : holds two_fields 1 (Some 7) [3; 4] 4).
  { eexists. split; [reflexivity|]. split; [|done]. unfold field_rep. cbn. split_and!; try lia.
    right. split; [lia|]. exists 10, [3; 4; 0; 0]. split_and!; done. }
  assert (H2 : holds two_fields 2 None [] 0).
  { eexists. split; [reflexivity|]. split; [|done]. unfold field_rep. cbn. split_and!; try lia. by left. }
  split; [split; [split|]|].
  - intros o f [[-> ->]|[-> ->]]%two_fields_lookup.
    + destruct H1 as (f & Hf & Hr & _). injection Hf as <-. eauto.
    + destruct H2 as (f & Hf & Hr & _). injection Hf as <-. eauto.
  - intros o f r [[-> ->]|[-> ->]]%two_fields_lookup Hr; [|done].
    intros o' f' Ho [[-> ->]|[-> ->]]%two_fields_lookup; done.
  - intros o. unfold two_lists.
    destruct (decide (o = 1)) as [->|Ho1]; [rewrite lookup_insert_eq; by exists 4|].
    rewrite lookup_insert_ne by done.
    destruct (decide (o = 2)) as [->|Ho2]; [rewrite lookup_singleton_eq; by exists 0|].
    rewrite lookup_singleton_ne by done. unfold two_fields. cbn [fields].
    by rewrite lookup_insert_ne, lookup_singleton_ne.
  - intros o f [[-> ->]|[-> ->]]%two_fields_lookup; simpl; lia.
Qed.

Lemma methods_refine_witness :
  exists s', run (CSwap 1 2 3) two_fields = Done (AUnit, s') /\
    represents s' (<[2 := (None, [3; 4])]> (<[1 := (Some 7, [])]> two_lists)).
Proof.
  apply (methods_refine two_fields two_lists (CSwap 1 2 3) AUnit);
    [apply two_fields_represents|apply two_fields_represents|reflexivity].
Defined.

(** C36: Bounds of [Reserve]: afterwards there is room for [n] elements and the
    elements are as before; an array that had the room is kept, one that had not is
    at least doubled and at least four; but from 2^30 elements on, doubling
    overflows an [int] before the new block is allocated. *)
Theorem reserve_bounds {E} `{ElementType E} s this a (l : list E) cap n :
  store_ok s -> holds s this a l cap -> int_range n ->
  (cap < 2 ^ 30 -> exists s' cap', Reserve this n s = Done (tt, s') /\ store_ok s' /\
     holds s' this a l cap' /\ keeps_others s s' this /\ n <= cap' /\
     (n <= cap -> cap' = cap) /\ (cap < n -> 2 * cap <= cap' /\ 4 <= cap' < 2 ^ 31)) /\
  (2 ^ 30 <= cap -> cap < n -> Reserve this n s = Fault IntOverflow).
Proof.
  intros Hs Hh Hn. split; [|intros Hc Hlt; by eapply Reserve_overflow].
  intros Hc. destruct (Reserve_acts s this a l cap n Hs Hh Hc Hn) as (s' & E1 & Hs' & Hh' & Ho).
  pose proof (grow_ge cap n) as [Hg _]. exists s', (grow cap n). split_and!; try done.
  - intros Hle. unfold grow. by rewrite decide_True.
  - intros Hlt. unfold grow, kMinRepeatedFieldAllocationSize, int_range in *.
    rewrite decide_False by lia. lia.
Qed.

Lemma reserve_bounds_witness :
  exists s' cap', Reserve 1 5 two_fields = Done (tt, s') /\ holds s' 1 (Some 7) [3; 4] cap' /\ 8 <= cap'.
Proof.
  pose proof two_fields_represents as [[Hs Hr] _]. pose proof (Hr 1) as [cap Hh].
  assert (Hc : cap = 4) by (destruct Hh as (f & Hf & _ & <-); injection Hf as <-; reflexivity). subst cap.
  destruct (reserve_bounds two_fields 1 (Some 7) [3; 4] 4 5 Hs Hh) as [Hres _].
  - unfold int_range. lia.
  - destruct Hres as (s' & cap' & E1 & _ & Hh' & _ & _ & _ & Hgrow); [lia|].
    exists s', cap'. split; [exact E1|]. split; [exact Hh'|]. destruct Hgrow; lia.
Defined.

(** C38: Adding an element of the field to the field itself, [f.Add(f.Get(i))]: with
    room the element is appended, but when the array is full and on the heap
    [Reserve] frees it before [Add] reads the element through its reference. *)
Theorem add_own_element {E} `{ElementType E} s this a (l : list E) cap i p v :
  store_ok s -> holds s this a l cap -> cap < 2 ^ 30 -> l !! Z.to_nat i = Some v ->
  Mutable this i s = Done (p, s) ->
  (Z.of_nat (length l) < cap -> exists s', Add this (Ref p) s = Done (tt, s') /\ holds s' this a (l ++ [v]) cap) /\
  (Z.of_nat (length l) = cap -> a = None -> Add this (Ref p) s = Fault UseAfterFree).
Proof.
  intros Hs Hh Hc Hv Hm. split.
  - intros Hroom. destruct (Add_copied s this a l cap i p v Hs Hh Hroom Hv Hm) as (s' & E1 & _ & Hh' & _). eauto.
  - intros Hfull ->. by eapply Add_freed.
Qed.

(** A full field of four elements on the heap. *)
Definition full_field : store Z :=
  Store {[ 10 := MkRep None [1; 2; 3; 4] ]} {[ 1 := RF 4 4 (PElements 10) ]}.

Lemma full_field_lookup o f : fields full_field !! o = Some f -> o = 1 /\ f = RF 4 4 (PElements 10).
Proof. unfold full_field. cbn [fields]. by intros [<- <-]%lookup_singleton_Some. Qed.

Lemma full_field_ok : store_ok full_field /\ holds full_field 1 None [1; 2; 3; 4] 4.
Proof.
  assert (H1 : holds full_field 1 None [1; 2; 3; 4] 4).
  { eexists. split; [reflexivity|]. split; [|done]. unfold field_rep. cbn. split_and!; try lia.
    right. split; [lia|]. exists 10, [1; 2; 3; 4]. split_and!; done. }
  split; [|done]. split.
  - intros o f [-> ->]%full_field_lookup. destruct H1 as (f & Hf & Hr & _). injection Hf as <-. eauto.
  - intros o f r [-> ->]%full_field_lookup Hr o' f' Ho [-> ->]%full_field_lookup. done.
Qed.

Lemma add_own_element_witness : Add 1 (Ref (EPtr 10 2)) full_field = Fault UseAfterFree.
Proof.
  pose proof full_field_ok as [Hs Hh].
  apply (add_own_element full_field 1 None [1; 2; 3; 4] 4 2 (EPtr 10 2) 3); 
    [exact Hs|exact Hh|lia|reflexivity|vm_compute; reflexivity|reflexivity|reflexivity].
Defined.
